(* ===== verification/_CoqProject ===== *)
-Q . S2P
Prelude.v
Memory.v
Values.v
TMSpec.v
NOrec.v
NOrecConc.v
NOrecOpaque.v
NOrecProgress.v
LogMerge.v
Bloom.v
TxLog.v
Interleave.v
TinyLock.v
TinyWriteSet.v
HashTable.v
Vector.v
MultiMap.v
SGL.v
Support.v
RBTree.v
RBTreeRep.v
RBTreeInsert.v
RBTreeErase.v
RBTreeUnlink.v
RBTreeMap.v
RBTreeSpec.v
ExplicitRBTree.v
VersionedLocks.v
LockWord.v
TinyShared.v
TinySim.v
WBETL.v
WBETLLog.v
WBETLSim.v
WBETLSpec.v
TL2.v
TL2Log.v
TL2Sim.v
TL2Spec.v
WBCTL.v
WBCTLLog.v
WBCTLSim.v
WBCTLSpec.v
Region.v
RegionInv.v
RegionOps.v
RegionSpec.v
RegionSys.v
FlatMap.v
ExplicitHashMap.v
SortedList.v
AddrSet.v
Romulus.v
RomulusSim.v
RomulusSpec.v
LeftRight.v
LeftRightSpec.v
NOrecBF.v
NOrecBFSpec.v
TinyWT.v
TinyWTLog.v
TinyWTRel.v
TinyWTSim.v
TinyWTCommit.v
TinyWTSpec.v
Hooks.v
HooksSpec.v
HooksSteps.v
PluginRW.v
TSC.v
TSCRefine.v
AllocTrack.v
TinyRuntime.v
Treap.v
SwissTM.v
SwissLog.v
SwissRel.v
SwissSim.v
SwissCommit.v
SwissSpec.v
