(* ===== verification/Prelude.v ===== *)
(** * A verification library for the clang-tm transactional-memory runtime

    ** The program

    clang-tm compiles C++ programs so that the memory accesses of transactions go
    through a runtime, and offers the runtime in many variants (backends) under
    [src/backends/tm_impl].  A backend gives a program [begin], typed reads and writes,
    [commit] and [abort]; all of them exchange values through the tagged 8-byte union of
    [common/tm_common.hpp].  A program reaches the backend through a table of hooks
    ([common/tm_hooks.cpp]) that can be traced, sampled and swapped.  Backends keep
    transaction-local logs ([common/tm_log_merge.hpp], [common/tm_bloom_filter.hpp], the
    write sets) and coordinate through shared words: a sequence lock (NOrec), a table of
    versioned locks and a clock (TinySTM, TL2, TSC-TM, SwissTM, Romulus), one mutex (single global
    lock), a spin token ([common/tm_spin_token.hpp]).  Memory of transactions comes from a
    region allocator ([common/tm_region_allocator.hpp]); allocations and frees take effect
    with the commit ([common/tm_alloc_overrides.hpp]).  Programs run inside transactions
    use containers written for the runtime ([common/tm_safe_map.hpp], [tm_hash_set.hpp],
    [tm_vector.hpp], [tm_rbtree.hpp], [explicit_api]).

    ** The files

    Words, memory and specifications:
    - [Prelude] (this file): words as [Z] with explicit wrap-around, bit-level tactics,
      list and arithmetic lemmas; [Memory]: byte memory, little-endian words, sequences
      of byte stores; [Values]: [tm_common.hpp], the union and typed accesses.
    - [TMSpec]: what a transactional memory promises, an abstract machine whose runs are
      opaque by construction, the interface classes [TMBackend] and [Opaque].
    - [TxLog]: accesses inside words, replaying logs, serial executions;
      [VersionedLocks]: the abstract machine of lock-table designs, whose history is
      shown to be serializable in the order of commit versions, and versions with a lock
      bit in one word; [Interleave]: interleaved executions of threads whose calls and
      steps are functions, scripts for concrete ones, mutual exclusion.

    Backends:
    - [NOrec] (transaction-local operations of [norec/NOrec.hpp]), [NOrecConc] (the
      interleaved steps), [NOrecOpaque] (refinement of [TMSpec]), [NOrecProgress]
      (termination of a thread running alone); [NOrecBF] and [NOrecBFSpec]:
      [norec_bf/NOrec_BF.hpp], the variant that validates with Bloom filters.
    - [SGL]: [single_global_lock/SingleGlobalLock_runtime.cpp], the same interface.
    - [TinyLock] and [TinyWriteSet]: lock words and write set of
      [tiny_stm/tinystm_common.hpp]; [LockWord]: lock words as versions with owners;
      [TinyShared]: the state the variants share, [TinySim]: its relation to
      [VersionedLocks]; [WBETL] (steps of [tiny_stm/tinystm_wbetl.hpp]), [WBETLLog],
      [WBETLSim] (simulation), [WBETLSpec] (its guarantees); [WBCTL] (write-set rules and
      steps of [tiny_stm/tinystm_wbctl.hpp]), [WBCTLLog], [WBCTLSim], [WBCTLSpec];
      [TinyWT] (steps of [tiny_stm/tinystm_wt.hpp], which writes in place), [TinyWTLog],
      [TinyWTRel], [TinyWTSim], [TinyWTCommit], [TinyWTSpec]; [TinyRuntime]: the hooks of
      [tiny_stm/TinySTM_runtime.cpp] with the reclamation of freed blocks.
    - [TL2] (data, write set and steps of [tl2/tl2.hpp]), [TL2Log], [TL2Sim], [TL2Spec];
      [TSC] (steps of [tsc_tm/tsc_tm.hpp], with time stamps for versions), [TSCRefine]
      (its executions are executions of [TL2]).
    - [SwissTM] (steps of [swisstm/SwissTM.hpp] and the discipline on calls under which it
      protects transactions), [SwissLog], [SwissRel] (relation of a thread to
      [VersionedLocks], and what other threads leave of it in place), [SwissSim],
      [SwissCommit], [SwissSpec].
    - [AddrSet]: write sets keyed by address; [Romulus], [RomulusSim], [RomulusSpec]:
      [romulus/romulus.hpp]; [LeftRight], [LeftRightSpec]: [leftright/leftright.hpp].

    Parts shared by backends:
    - [LogMerge]: [tm_log_merge.hpp], [tm_log_entries.hpp]; [Bloom]:
      [tm_bloom_filter.hpp]; [Support]: [tm_spin_token.hpp], [rel_ptr.hpp].
    - [Hooks] ([tm_hooks.cpp], [tm_hooks.hpp] and the tables of [tm_backend_macros.hpp]),
      [HooksSpec]; [HooksSteps]: the trace wrappers step by step, for interleaved threads;
      [PluginRW]: the wide accesses of [tm_backend_macros.hpp], with NOrec as the backend.
    - [Region] (the allocator of [tm_region_allocator.hpp] and [.cpp] on byte memory),
      [RegionInv], [RegionOps], [RegionSpec], [RegionSys]; [AllocTrack]:
      [tm_alloc_overrides.hpp] and the allocation hooks of the runtimes.

    Containers:
    - [HashTable] ([tm_safe_map.hpp], [tm_hash_set.hpp]), [MultiMap] (the sorted
      multimap of [tm_safe_map.hpp]), [Vector] ([tm_vector.hpp]), [RBTree] and the
      [RBTree*] files ([tm_rbtree.hpp]).
    - Of [explicit_api/cpp/include]: [ExplicitRBTree] ([explicit_rbtree.hpp]), [Treap]
      ([tm_treap_multimap.hpp]), [FlatMap] ([tm_map.hpp], [tm_concurrent_map.hpp]),
      [ExplicitHashMap] ([explicit_hashmap.hpp]), [SortedList]
      ([explicit_sorted_list.hpp]).

    State is passed explicitly.  A thread of a backend is a record of its transaction
    and a program point; a step performs one atomic access of the code to shared data (or
    one byte of a plain access) with the computation up to the next one; an execution
    interleaves the steps of any number of threads.  A weak compare-and-swap may fail
    although it could succeed ([TL2], [TSC]).  A call of the region allocator is one step.
    Memory is sequentially consistent: the ordering annotations of the atomics are not
    modelled.  Operations that the code
    asserts to be impossible, or a null or dangling access, are [None].

    ** The theorems

    - Refinement of an abstract specification: [norec_opaque], [norecbf_opaque] and
      [sgl_opaque] against [TMSpec]; [wbetl_serializable], [wbctl_serializable],
      [wt_serializable], [tl2_serializable], [swiss_serializable] and
      [romulus_serializable] by simulation of [VersionedLocks], [tsc_serializable] by
      simulation of TL2,
      [leftright_serializable]; the write sets and bitmap entries against the memory they
      stand for; the containers against finite maps, sets, lists and sorted sequences,
      with the invariants of their representation (red-black shape, order of priorities,
      probe sequences, lifetimes).
    - Memory: blocks of the region allocator are disjoint and keep their contents, and
      are given back once; a transaction changes the heap by the allocations and frees of
      the attempt that commits; retired blocks are freed only when no transaction that
      began before their retirement runs.
    - Hooks: tracing does not change the behaviours of interleaved threads and records the
      accesses of each in its order; operations reach the backend registered or swapped in
      last; vector stores of a NOrec transaction are read back by its vector loads.
    - Safety: snapshots of running readers, mutual exclusion of locks and token, locks
      released by their owners, held only while committing (commit-time locking) and
      never left behind, well-typed states, no false negatives of filters.
    - Progress: a NOrec operation and a TL2 commit that run alone return within a
      computed number of steps (for TL2, and one more for each spurious failure of a weak
      compare-and-swap; for NOrec, when no other commit is in progress); a thread alone frees all it has retired; the loops of the
      containers end.
    - Limits of the code, proved as such: overlapping accesses of different widths that
      a write set does not represent, read-only commits without validation, locks released
      twice, an erasure
      that strands elements, blocks that leak or are freed too early, and others; each
      names the input on which it happens.

    The serializability theorems of the backends hold for programs whose accesses the
    backend's write set represents; each has its discipline: one width class per location
    and no accesses to the stack for NOrec ([Discipline]); no reads across bytes written
    and not written by the transaction for [WBETL] ([disciplined]); [ctl_transparent],
    [transparent] and [keyed] for the write sets of [WBCTL], [TL2] with [TSC], and
    [Romulus] with [LeftRight]; locks of their own for the words of [TinyWT]; no second
    read of an address from memory for [LeftRight] ([single_reads]); [swiss_allowed] for
    [SwissTM].  They restrict the calls of a program, not their results.

    ** Bounds and fuel

    Loops of the containers that are not structural carry fuel: the capacity of a hash
    table, the number of elements of a search, the number of nodes or the height bound of
    a tree; the theorems show that it suffices.  Steps of backends need none.  Clocks and
    versions are machine words: executions that would exhaust them (2^63 commits for NOrec,
    TL2, SwissTM and Romulus, 2^64 for Left-right, 2^46 for TinySTM, whose clock reset is not modelled) are not
    continued.  TinySTM is verified for fewer than 2^13 threads, the width of the owner
    field; its write-through variant as long as no incarnation, of three bits, wraps.
    Accesses of the lock-table backends lie inside one 8-byte word ([access_ok]).

    ** Not modelled

    Backends built on hardware transactions, persistent memory, the network or GPUs; the
    software backends MVLog and XTM; statistics and event logging; the compiler
    plugin, whose meaning is that of the LLVM libraries; the Rust ports, the simulator and
    the tools.  [longjmp] out of an aborted transaction is the return of the thread to its
    idle point. *)

From stdpp Require Export prelude numbers list gmap relations.
From Stdlib Require Export ZArith Lia Btauto.

#[export] Set Default Goal Selector "!".
#[export] Set Warnings "-clear-no-such-hyp".

#[local] Open Scope Z_scope.

Declare Scope word_scope.
Delimit Scope word_scope with word.

(** C++ bit operators on unsigned integers kept as [Z]. *)
Notation "x .& y" := (Z.land x y) (at level 40, left associativity) : word_scope.
Notation "x .| y" := (Z.lor x y) (at level 50, left associativity) : word_scope.
Notation "x .^ y" := (Z.lxor x y) (at level 49, left associativity) : word_scope.
Notation "x .>> y" := (Z.shiftr x y) (at level 38, left associativity) : word_scope.

(** Truncation to [w] bits: assignment to an unsigned integer of that width. *)
Definition wrap (w z : Z) : Z := z mod 2 ^ w.
Abbreviation wrap8 := (wrap 8).
Abbreviation wrap64 := (wrap 64).

(** [x << y] and [~x] on [uint64_t]. *)
Definition shl64 (x y : Z) : Z := wrap64 (Z.shiftl x y).
Definition not64 (x : Z) : Z := wrap64 (Z.lnot x).
Notation "x .<< y" := (shl64 x y) (at level 38, left associativity) : word_scope.

Definition is_w (w z : Z) : Prop := 0 ≤ z < 2 ^ w.
Definition odd64 (z : Z) : bool := negb (Z.land z 1 =? 0).

Create HintDb tmdb.
Create Rewrite HintDb zbits.

(** ** Tactics *)

(** Case analysis on every boolean comparison of [Z] in sight. *)
Ltac zcmp :=
  repeat match goal with
    | |- context [?a <? ?b] => destruct (Z.ltb_spec a b)
    | |- context [?a <=? ?b] => destruct (Z.leb_spec a b)
    | |- context [?a =? ?b] => destruct (Z.eqb_spec a b)
    | H : context [?a <? ?b] |- _ => destruct (Z.ltb_spec a b)
    | H : context [?a <=? ?b] |- _ => destruct (Z.leb_spec a b)
    | H : context [?a =? ?b] |- _ => destruct (Z.eqb_spec a b)
    end.

(** The same on the goal only, dropping impossible combinations as they arise. *)
Ltac zprune :=
  repeat (match goal with
    | |- context [?a <? ?b] => destruct (Z.ltb_spec a b)
    | |- context [?a <=? ?b] => destruct (Z.leb_spec a b)
    | |- context [?a =? ?b] => destruct (Z.eqb_spec a b)
    end; try (exfalso; lia); cbn [andb orb negb]).

(** Split hypotheses that are conjunctions or existentials. *)
Ltac dexs :=
  repeat match goal with
    | H : _ ∧ _ |- _ => destruct H
    | H : ∃ _, _ |- _ => destruct H
    end.

(** ** Bits of words *)

Lemma testbit_shl a n i : Z.testbit (Z.shiftl a n) i = (0 <=? i)%Z && Z.testbit a (i - n).
Proof.
  destruct (Z.leb_spec 0 i); simpl; [by apply Z.shiftl_spec | by apply Z.testbit_neg_r].
Qed.

Lemma testbit_shr a n i : Z.testbit (Z.shiftr a n) i = (0 <=? i)%Z && Z.testbit a (i + n).
Proof.
  destruct (Z.leb_spec 0 i); simpl; [by apply Z.shiftr_spec | by apply Z.testbit_neg_r].
Qed.

Lemma testbit_not a i : Z.testbit (Z.lnot a) i = (0 <=? i)%Z && negb (Z.testbit a i).
Proof.
  destruct (Z.leb_spec 0 i); simpl; [by apply Z.lnot_spec | by apply Z.testbit_neg_r].
Qed.

Lemma testbit_ones n i : (0 ≤ n)%Z → Z.testbit (Z.ones n) i = (0 <=? i)%Z && (i <? n)%Z.
Proof.
  intros. destruct (Z.leb_spec 0 i); simpl; [|by apply Z.testbit_neg_r].
  destruct (Z.ltb_spec i n); [apply Z.ones_spec_low | apply Z.ones_spec_high]; lia.
Qed.

Lemma testbit_wrap w a i : (0 ≤ w)%Z → Z.testbit (wrap w a) i = (i <? w)%Z && Z.testbit a i.
Proof.
  intros. unfold wrap. destruct (Z.ltb_spec i w); simpl.
  - by apply Z.mod_pow2_bits_low.
  - by apply Z.mod_pow2_bits_high.
Qed.

Lemma testbit_high w a i : is_w w a → (w ≤ i)%Z → (0 ≤ w)%Z → Z.testbit a i = false.
Proof.
  intros [??] ??. rewrite <- (Z.mod_small a (2 ^ w)) by done.
  by apply Z.mod_pow2_bits_high.
Qed.

Lemma word_of_bits w a :
  (0 ≤ w)%Z → (0 ≤ a)%Z → (∀ i, w ≤ i → Z.testbit a i = false)%Z → is_w w a.
Proof.
  intros Hw Ha Hi. split; [done|]. destruct (Z.lt_ge_cases a (2 ^ w)) as [|Hge]; [done|]. exfalso.
  pose proof (Z.pow_pos_nonneg 2 w ltac:(lia) Hw) as Hp.
  pose proof (Z.bit_log2 a ltac:(lia)) as Hl.
  rewrite Hi in Hl; [done|]. apply Z.log2_le_pow2; lia.
Qed.

Lemma wrap_small w a : is_w w a → wrap w a = a.
Proof. intros. by apply Z.mod_small. Qed.

Lemma wrap_is_w w a : (0 ≤ w)%Z → is_w w (wrap w a).
Proof. intros. apply Z.mod_pos_bound. by apply Z.pow_pos_nonneg. Qed.

#[export] Hint Rewrite Z.land_spec Z.lor_spec Z.lxor_spec Z.ldiff_spec Z.testbit_0_l
  testbit_shl testbit_shr testbit_not : zbits.
#[export] Hint Rewrite testbit_ones testbit_wrap using lia : zbits.

(** Prove an equality of words bit by bit: rewrite every [Z.testbit] to the
    atoms, split on the comparisons, identify equal bit positions. *)
Ltac bits_step :=
  match goal with
  | |- context [Z.testbit ?a ?i] =>
      match goal with
      | |- context [Z.testbit a ?j] =>
          assert_fails (constr_eq i j); assert_fails (is_var j); replace j with i by lia
      end
  end.
(** Bits below 0, or above the width a hypothesis gives, are 0. *)
Ltac bits_range :=
  repeat match goal with
    | |- context [Z.testbit ?a ?i] => rewrite (Z.testbit_neg_r a i) by lia
    | H : is_w ?w ?a |- context [Z.testbit ?a ?i] => rewrite (testbit_high w a i H) by lia
    end.
Ltac bits_core :=
  autorewrite with zbits; zprune; simpl;
  bits_range; repeat bits_step; try reflexivity; try lia; try btauto.
Ltac bits := apply Z.bits_inj'; intros ?i ?Hi; bits_core.

Lemma land_bounds a b : (0 ≤ b → 0 ≤ Z.land a b ≤ b)%Z.
Proof.
  intros Hb. split; [apply Z.land_nonneg; by right|]. apply Z.ldiff_le; [done|]. bits.
Qed.

(** ** Positions of a power-of-two ring *)

Definition pow2 (c : nat) : Prop := ∃ n, c = (2 ^ n)%nat.

Lemma pow2_pos c : pow2 c → (0 < c)%nat.
Proof. intros [n ->]. pose proof (Nat.pow_nonzero 2 n). lia. Qed.

Lemma pow2_double c : pow2 c → pow2 (c * 2).
Proof. intros [n ->]. exists (S n). simpl. lia. Qed.

Lemma land_pred_mod c x : pow2 c → Nat.land x (c - 1) = (x mod c)%nat.
Proof. intros [n ->]. rewrite <- Nat.land_ones, Nat.ones_equiv. f_equal. lia. Qed.

(** Every position is at some distance from any other, walking forward. *)
Lemma ring_distance c h j : (h < c → j < c → ∃ d, d < c ∧ (h + d) mod c = j)%nat.
Proof.
  intros Hh Hj. destruct (le_lt_dec h j).
  - exists (j - h)%nat. split; [lia|]. replace (h + (j - h))%nat with j by lia. by apply Nat.mod_small.
  - exists (j + c - h)%nat. split; [lia|]. replace (h + (j + c - h))%nat with (j + 1 * c)%nat by lia.
    rewrite Nat.Div0.mod_add. by apply Nat.mod_small.
Qed.

Lemma ring_inj c h d d' : (d < c → d' < c → h < c → (h + d) mod c = (h + d') mod c → d = d')%nat.
Proof.
  intros Hd Hd' Hh.
  assert (∀ e, e < c → (h + e) mod c = if h + e <? c then h + e else h + e - c)%nat as Hm.
  { intros e He. destruct (Nat.ltb_spec (h + e) c); [by apply Nat.mod_small|].
    replace (h + e)%nat with (h + e - c + 1 * c)%nat at 1 by lia.
    rewrite Nat.Div0.mod_add. apply Nat.mod_small. lia. }
  rewrite !Hm by done. destruct (Nat.ltb_spec (h + d) c), (Nat.ltb_spec (h + d') c); lia.
Qed.

(** ** Key orders *)

(** What the standard requires of the key comparison. *)
Class StrictWeakOrder {K : Type} (ltb : K → K → bool) := {
  swo_irrefl x : ltb x x = false;
  swo_trans x y z : ltb x y = true → ltb y z = true → ltb x z = true;
  swo_incomp x y z : ltb x y = false → ltb y z = false → ltb x z = false;
}.

(** A strict weak order in which incomparable keys are equal. *)
Class StrictTotalOrder {K : Type} (ltb : K → K → bool) := {
  sto_swo :: StrictWeakOrder ltb;
  sto_total x y : ltb x y = false → ltb y x = false → x = y;
}.

#[export] Instance Z_ltb_total : StrictTotalOrder Z.ltb.
Proof.
  split; [split|].
  - intros x. apply Z.ltb_irrefl.
  - intros x y z ?%Z.ltb_lt ?%Z.ltb_lt. apply Z.ltb_lt. lia.
  - intros x y z ?%Z.ltb_ge ?%Z.ltb_ge. apply Z.ltb_ge. lia.
  - intros x y ?%Z.ltb_ge ?%Z.ltb_ge. lia.
Qed.
