(* ===== verification/Memory.v ===== *)
(** * Byte memory

    The shared memory the runtime reads and writes with [memcpy]: a finite map
    from addresses to bytes (an address never written reads 0).  Words are
    little-endian, as on the x86-64 and AArch64 targets of the runtime.
    [wr] is a sequence of single-byte stores; the components below state
    multi-byte stores and whole commit write-backs as such sequences, so that
    interleavings can cut them at any byte. *)

From S2P Require Import Prelude.
#[local] Open Scope Z_scope.

Abbreviation mem := (gmap Z Z).

Definition mget (m : mem) (a : Z) : Z := default 0 (m !! a).

(** A sequence of byte stores, performed left to right. *)
Definition wr (m : mem) (l : list (Z * Z)) : mem :=
  foldl (λ m' ab, <[ab.1 := ab.2]> m') m l.

Fixpoint load_bytes (m : mem) (a : Z) (n : nat) : list Z :=
  match n with
  | O => []
  | S n' => mget m a :: load_bytes m (a + 1) n'
  end.

(** The byte stores that write [bs] at [a], [a+1], ... *)
Fixpoint at_addr (a : Z) (bs : list Z) : list (Z * Z) :=
  match bs with
  | [] => []
  | b :: bs' => (a, b) :: at_addr (a + 1) bs'
  end.

Definition store_bytes (m : mem) (a : Z) (bs : list Z) : mem := wr m (at_addr a bs).

(** Little-endian value of a byte list, and the low [n] bytes of a word. *)
Fixpoint le_word (bs : list Z) : Z :=
  match bs with
  | [] => 0
  | b :: bs' => b + 256 * le_word bs'
  end.

Fixpoint le_bytes (n : nat) (w : Z) : list Z :=
  match n with
  | O => []
  | S n' => w mod 256 :: le_bytes n' (w / 256)
  end.

Definition is_byte (b : Z) : Prop := 0 ≤ b < 256.
Definition mem_ok (m : mem) : Prop := ∀ a, is_byte (mget m a).

(** ** Little-endian words *)

Lemma length_le_bytes n w : length (le_bytes n w) = n.
Proof. revert w; induction n; intros; simpl; auto. Qed.

Lemma length_load_bytes m a n : length (load_bytes m a n) = n.
Proof. revert a; induction n; intros; simpl; auto. Qed.

Lemma le_bytes_ok n w : Forall is_byte (le_bytes n w).
Proof.
  revert w; induction n; intros; simpl; constructor; auto.
  pose proof (Z.mod_pos_bound w 256). unfold is_byte. lia.
Qed.

Lemma load_bytes_ok m a n : mem_ok m → Forall is_byte (load_bytes m a n).
Proof. intros Hm. revert a; induction n; intros; simpl; constructor; auto. Qed.

Lemma pow256_succ n : 2 ^ (8 * Z.of_nat (S n)) = 256 * 2 ^ (8 * Z.of_nat n).
Proof.
  replace (8 * Z.of_nat (S n)) with (8 + 8 * Z.of_nat n) by lia.
  rewrite Z.pow_add_r by lia. reflexivity.
Qed.

Lemma le_word_le_bytes n w : le_word (le_bytes n w) = wrap (8 * Z.of_nat n) w.
Proof.
  unfold wrap. revert w. induction n as [|n IH]; intros; [simpl; by rewrite Z.mod_1_r|].
  rewrite pow256_succ. simpl le_word. rewrite IH, Z.rem_mul_r by lia. lia.
Qed.

Lemma le_bytes_le_word bs :
  Forall is_byte bs → le_bytes (length bs) (le_word bs) = bs.
Proof.
  induction 1 as [|b bs Hb _ IH]; simpl; [done|]. unfold is_byte in Hb.
  rewrite (Z.mul_comm 256), Z.mod_add, Z.div_add by lia.
  rewrite Z.mod_small, (Z.div_small b), Z.add_0_l, IH by lia. done.
Qed.

Lemma le_word_range bs :
  Forall is_byte bs → is_w (8 * Z.of_nat (length bs)) (le_word bs).
Proof.
  unfold is_w, is_byte. induction 1 as [|b bs Hb _ IH]; [simpl; lia|].
  simpl length. rewrite pow256_succ. simpl le_word. lia.
Qed.

Lemma le_word_zeros bs k : le_word (bs ++ replicate k 0) = le_word bs.
Proof.
  induction bs as [|b bs IH]; simpl; [|by rewrite IH].
  induction k as [|k IH]; simpl; [done|]. by rewrite IH.
Qed.

Lemma le_bytes_wrap n k w :
  (n ≤ k)%nat → le_bytes n (wrap (8 * Z.of_nat k) w) = le_bytes n w.
Proof.
  unfold wrap. revert k w. induction n as [|n IH]; intros [|k] w Hk; simpl; try done; [lia|].
  change (8 * Z.pos (Pos.of_succ_nat k)) with (8 * Z.of_nat (S k)).
  rewrite pow256_succ, Z.rem_mul_r by lia. f_equal.
  - rewrite (Z.mul_comm 256), Z.mod_add by lia. by apply Z.mod_small, Z.mod_pos_bound.
  - rewrite (Z.mul_comm 256), Z.div_add by lia.
    rewrite (Z.div_small (w mod 256)) by (apply Z.mod_pos_bound; lia).
    rewrite Z.add_0_l. apply IH. lia.
Qed.

(** ** Byte stores *)

Lemma wr_app m l1 l2 : wr m (l1 ++ l2) = wr (wr m l1) l2.
Proof. apply foldl_app. Qed.

Lemma wr_lookup_ne m l x : x ∉ l.*1 → wr m l !! x = m !! x.
Proof.
  revert m. induction l as [|[a b] l IH]; intros m Hx; [done|].
  apply not_elem_of_cons in Hx as [Hne Hx]. simpl in Hne |- *.
  rewrite IH by done. by apply lookup_insert_ne.
Qed.

(** What a sequence of stores leaves at an address it covers does not depend on
    the memory it starts from. *)
Lemma wr_lookup_in m m' l x : x ∈ l.*1 → wr m l !! x = wr m' l !! x.
Proof.
  revert m m'. induction l as [|[a b] l IH]; intros m m' Hx.
  - simpl in Hx. set_solver.
  - simpl in Hx |- *. destruct (decide (x ∈ l.*1)) as [Hl|Hl]; [by apply IH|].
    rewrite !wr_lookup_ne by done.
    assert (x = a) as -> by set_solver. by rewrite !lookup_insert_eq.
Qed.

Lemma wr_cover m l1 l2 : l1.*1 ⊆ l2.*1 → wr (wr m l1) l2 = wr m l2.
Proof.
  intros Hsub. apply map_eq. intros x.
  destruct (decide (x ∈ l2.*1)) as [Hx|Hx]; [by apply wr_lookup_in|].
  rewrite !wr_lookup_ne; set_solver.
Qed.

Lemma wr_comm m l1 l2 :
  l1.*1 ## l2.*1 → wr (wr m l1) l2 = wr (wr m l2) l1.
Proof.
  intros Hd. apply map_eq. intros x.
  destruct (decide (x ∈ l1.*1)) as [H1|H1]; destruct (decide (x ∈ l2.*1)) as [H2|H2].
  - set_solver.
  - rewrite (wr_lookup_ne _ l2) by done. by apply wr_lookup_in.
  - rewrite (wr_lookup_ne _ l1) by done. by apply wr_lookup_in.
  - by rewrite !wr_lookup_ne.
Qed.

Lemma at_addr_fst a bs x :
  x ∈ (at_addr a bs).*1 ↔ a ≤ x < a + Z.of_nat (length bs).
Proof.
  revert a. induction bs as [|b bs IH]; intros a; simpl.
  - split; [set_solver | lia].
  - rewrite elem_of_cons, IH. lia.
Qed.

Lemma wr_at_addr m a bs x :
  wr m (at_addr a bs) !! x =
  if (a <=? x) && (x <? a + Z.of_nat (length bs)) then bs !! Z.to_nat (x - a) else m !! x.
Proof.
  revert m a. induction bs as [|b bs IH]; intros m a; simpl length; cbn [at_addr].
  - zcmp; simpl; try lia; done.
  - change (wr m ((a, b) :: at_addr (a + 1) bs)) with (wr (<[a := b]> m) (at_addr (a + 1) bs)).
    rewrite IH. destruct (decide (x = a)) as [->|Hne].
    + zcmp; simpl; try lia. replace (a - a) with 0 by lia. by rewrite lookup_insert_eq.
    + rewrite (lookup_insert_ne m) by done. zcmp; simpl; try lia; try done.
      by replace (Z.to_nat (x - a)) with (S (Z.to_nat (x - (a + 1)))) by lia.
Qed.

Lemma at_addr_keys a bs bs' :
  length bs = length bs' → (at_addr a bs).*1 = (at_addr a bs').*1.
Proof.
  revert a bs'. induction bs as [|b bs IH]; intros a [|b' bs'] H; simpl in *; try done.
  f_equal. apply IH. lia.
Qed.

Lemma load_bytes_ext m m' a n :
  (∀ x, a ≤ x < a + Z.of_nat n → m !! x = m' !! x) → load_bytes m a n = load_bytes m' a n.
Proof.
  revert a. induction n as [|n IH]; intros a H; simpl; [done|].
  f_equal; [unfold mget; rewrite H by lia; done|]. apply IH. intros; apply H; lia.
Qed.

Lemma load_wr_disjoint m l a n :
  (∀ x, x ∈ l.*1 → x < a ∨ a + Z.of_nat n ≤ x) → load_bytes (wr m l) a n = load_bytes m a n.
Proof.
  intros H. apply load_bytes_ext. intros x Hx. apply wr_lookup_ne. intros Hin.
  apply H in Hin. lia.
Qed.

Lemma load_store_same m a bs : load_bytes (store_bytes m a bs) a (length bs) = bs.
Proof.
  unfold store_bytes. revert m a. induction bs as [|b bs IH]; intros m a; simpl; [done|].
  f_equal; [|apply IH]. unfold mget. rewrite wr_lookup_ne.
  - by rewrite lookup_insert_eq.
  - rewrite at_addr_fst. lia.
Qed.

Lemma load_bytes_prefix m a n k :
  (k < n)%nat → load_bytes m a n !! k = Some (mget m (a + Z.of_nat k)).
Proof.
  revert a k. induction n as [|n IH]; intros a [|k] H; cbn [load_bytes lookup list_lookup]; try lia.
  - by rewrite Z.add_0_r.
  - rewrite IH by lia. by replace (a + 1 + Z.of_nat k) with (a + Z.of_nat (S k)) by lia.
Qed.

Lemma load_bytes_snoc m a n :
  load_bytes m a (S n) = load_bytes m a n ++ [mget m (a + Z.of_nat n)].
Proof.
  revert a. induction n as [|n IH]; intros a.
  - simpl. by rewrite Z.add_0_r.
  - change (load_bytes m a (S (S n))) with (mget m a :: load_bytes m (a + 1) (S n)).
    rewrite IH. by replace (a + 1 + Z.of_nat n) with (a + Z.of_nat (S n)) by lia.
Qed.

Lemma mem_ok_empty : mem_ok ∅.
Proof. intros a. unfold mget, is_byte. rewrite lookup_empty. simpl. lia. Qed.

Lemma wr_mem_ok m l : mem_ok m → Forall (λ ab, is_byte ab.2) l → mem_ok (wr m l).
Proof.
  intros Hm Hl. revert m Hm. induction Hl as [|[a b] l Hb Hl IH]; intros; simpl; [done|].
  apply IH. intros x. unfold mget. destruct (decide (a = x)) as [->|].
  - rewrite lookup_insert_eq. apply Hb.
  - rewrite lookup_insert_ne by done. apply Hm.
Qed.

#[export] Hint Resolve length_le_bytes length_load_bytes le_bytes_ok load_bytes_ok : tmdb.
