(* ===== verification/Values.v ===== *)
(** * Typed values and word-sized accesses (tm_common.hpp)

    The runtime moves every transactional access through [any_type_t], an
    8-byte union, tagged with a [ValueType].  This file models the union byte by
    byte, the [memcpy]-based accessors, and the access of typed values in
    memory, and proves the round-trip and frame laws the backends rely on. *)

From S2P Require Import Prelude Memory.
#[local] Open Scope Z_scope.
#[local] Open Scope word_scope.

(** ** Value types *)

Inductive ValueType := UINT8 | UINT16 | UINT32 | UINT64 | FLOAT | DOUBLE | POINTER.

#[export] Instance ValueType_eq_dec : EqDecision ValueType.
Proof. solve_decision. Defined.

Definition type_size (t : ValueType) : nat :=
  match t with
  | UINT8 => 1
  | UINT16 => 2
  | UINT32 | FLOAT => 4
  | UINT64 | DOUBLE | POINTER => 8
  end.

(** ** The union [any_type_t]

    Its storage is 8 bytes, kept as the little-endian word they spell.  Every
    member aliases the low bytes; floats and pointers are their bit patterns. *)

Record any_type_t := AnyT { u8 : Z }.

Definition union_bytes (t : any_type_t) : list Z := le_bytes 8 (u8 t).

Definition u1 (t : any_type_t) : Z := wrap 8 (u8 t).
Definition u2 (t : any_type_t) : Z := wrap 16 (u8 t).
Definition u4 (t : any_type_t) : Z := wrap 32 (u8 t).

(** [any_type_mapping<T>::setp]: [memcpy] of [sizeof(T)] bytes over the start of
    the union; the other bytes keep what they held. *)
Definition setp (t : any_type_t) (bs : list Z) : any_type_t :=
  AnyT (le_word (bs ++ drop (length bs) (union_bytes t))).

(** [any_type_mapping<T>::get], [set] and the bytes [store] copies, for a member of
    [n] bytes. *)
Definition any_get (n : nat) (t : any_type_t) : Z := le_word (take n (union_bytes t)).
Definition any_set (n : nat) (t : any_type_t) (v : Z) : any_type_t := setp t (le_bytes n v).
Definition any_store (n : nat) (t : any_type_t) : list Z := take n (union_bytes t).

Definition return_any_type (sz : ValueType) (t : any_type_t) : Z := any_get (type_size sz) t.

(** [load n] is what [n] bytes at the source pointer hold. *)
Definition fill_any_type (t : any_type_t) (load : nat → list Z) (sz : ValueType) : any_type_t :=
  setp t (load (type_size sz)).

Definition read_value_from_addr (m : mem) (addr : Z) (sz : ValueType) : any_type_t :=
  let res := AnyT 0 in fill_any_type res (load_bytes m addr) sz.

(** The byte stores of [write_value_to_addr], in order. *)
Definition value_stores (addr : Z) (val : any_type_t) (sz : ValueType) : list (Z * Z) :=
  at_addr addr (any_store (type_size sz) val).

Definition write_value_to_addr (m : mem) (addr : Z) (val : any_type_t) (sz : ValueType) : mem :=
  wr m (value_stores addr val sz).

Definition BYTE_MASK (n : Z) : Z :=
  if 8 <=? n then not64 0 else shl64 1 (n * 8) - 1.

Definition any_to_u64 (val : any_type_t) (_ : ValueType) : Z := u8 val.
Definition u64_to_any (out : any_type_t) (val : Z) (_ : ValueType) : any_type_t := AnyT val.

(** ** Address split *)

Definition OFFSET_MASK : Z := 7.

Record ByteOffset := MkByteOffset { base_addr : Z; offset : Z }.

Definition ByteOffset_of (addr : Z) : ByteOffset :=
  MkByteOffset (addr .& not64 OFFSET_MASK) (addr .& OFFSET_MASK).

Definition same_location (a b : ByteOffset) : bool :=
  (base_addr a =? base_addr b) && (offset a =? offset b).

(** ** Laws of the union *)

Lemma type_size_range t : (1 ≤ type_size t ≤ 8)%nat.
Proof. destruct t; simpl; lia. Qed.

Lemma take_le_bytes n k w : (n ≤ k)%nat → take n (le_bytes k w) = le_bytes n w.
Proof.
  revert k w. induction n as [|n IH]; intros [|k] w H; simpl; try done; [lia|].
  f_equal. apply IH. lia.
Qed.

Lemma any_store_le n t : (n ≤ 8)%nat → any_store n t = le_bytes n (u8 t).
Proof. apply take_le_bytes. Qed.

Lemma any_get_wrap n t : (n ≤ 8)%nat → any_get n t = wrap (8 * Z.of_nat n) (u8 t).
Proof.
  intros. unfold any_get, union_bytes. by rewrite take_le_bytes, le_word_le_bytes.
Qed.

Lemma any_get_u1 t : any_get 1 t = u1 t.
Proof. by rewrite any_get_wrap by lia. Qed.
Lemma any_get_u2 t : any_get 2 t = u2 t.
Proof. by rewrite any_get_wrap by lia. Qed.
Lemma any_get_u4 t : any_get 4 t = u4 t.
Proof. by rewrite any_get_wrap by lia. Qed.

Lemma setp_bytes_ok t bs : Forall is_byte bs → Forall is_byte (bs ++ drop (length bs) (union_bytes t)).
Proof. intros. apply Forall_app. split; [done|]. apply Forall_drop, le_bytes_ok. Qed.

Lemma union_bytes_setp t bs :
  Forall is_byte bs → (length bs ≤ 8)%nat →
  union_bytes (setp t bs) = bs ++ drop (length bs) (union_bytes t).
Proof.
  intros Hb Hl. unfold union_bytes at 1, setp. simpl u8.
  assert (length (bs ++ drop (length bs) (union_bytes t)) = 8%nat) as Hlen.
  { rewrite length_app, length_drop. unfold union_bytes. rewrite length_le_bytes. lia. }
  rewrite <- Hlen at 1. by apply le_bytes_le_word, setp_bytes_ok.
Qed.

(** Reading back a member just copied in gives the copied bytes, whatever the
    union held before. *)
Lemma any_get_setp t bs :
  Forall is_byte bs → (length bs ≤ 8)%nat → any_get (length bs) (setp t bs) = le_word bs.
Proof.
  intros. unfold any_get. rewrite union_bytes_setp by done. by rewrite take_app_length.
Qed.

Lemma any_store_setp t bs :
  Forall is_byte bs → (length bs ≤ 8)%nat → any_store (length bs) (setp t bs) = bs.
Proof.
  intros. unfold any_store. rewrite union_bytes_setp by done. by rewrite take_app_length.
Qed.

(** The value a typed store leaves in the union is the argument truncated to its
    width; the uninitialised bytes of the local [any_type_t] do not matter. *)
Lemma return_fill_any_type junk v sz :
  return_any_type sz (fill_any_type junk (λ n, le_bytes n v) sz) =
  wrap (8 * Z.of_nat (type_size sz)) v.
Proof.
  unfold return_any_type, fill_any_type. pose proof (type_size_range sz).
  rewrite <- (length_le_bytes (type_size sz) v) at 1.
  rewrite any_get_setp; rewrite ?length_le_bytes; auto with tmdb; [|lia].
  apply le_word_le_bytes.
Qed.

Lemma read_value_u8 m a sz :
  u8 (read_value_from_addr m a sz) = le_word (load_bytes m a (type_size sz)).
Proof.
  unfold read_value_from_addr, fill_any_type, setp. simpl u8.
  change (union_bytes (AnyT 0)) with (replicate 8 0). rewrite drop_replicate.
  apply le_word_zeros.
Qed.

Lemma read_value_eq m a sz :
  read_value_from_addr m a sz = AnyT (le_word (load_bytes m a (type_size sz))).
Proof. rewrite <- read_value_u8. by destruct (read_value_from_addr m a sz). Qed.

(** The value read depends on exactly [type_size] bytes of memory. *)
Lemma read_value_ext m m' a sz :
  load_bytes m a (type_size sz) = load_bytes m' a (type_size sz) →
  read_value_from_addr m a sz = read_value_from_addr m' a sz.
Proof. rewrite !read_value_eq. by intros ->. Qed.

(** ** Laws of typed memory accesses *)

Lemma at_addr_bytes a bs : Forall is_byte bs → Forall (λ ab, is_byte ab.2) (at_addr a bs).
Proof. intros Hb. revert a. induction Hb as [|b bs Hb Hbs IH]; intros a; simpl; by constructor. Qed.

Lemma value_stores_bytes a v sz : Forall (λ ab, is_byte ab.2) (value_stores a v sz).
Proof. apply at_addr_bytes, Forall_take, le_bytes_ok. Qed.

Lemma value_stores_range a v sz x :
  x ∈ (value_stores a v sz).*1 ↔ a ≤ x < a + Z.of_nat (type_size sz).
Proof.
  unfold value_stores. rewrite at_addr_fst. pose proof (type_size_range sz).
  by rewrite any_store_le, length_le_bytes by lia.
Qed.

(** Read after write of the same width at the same address: the value, truncated
    to its width and zero-extended. *)
Lemma read_write_same m a v sz sz' :
  type_size sz = type_size sz' →
  read_value_from_addr (write_value_to_addr m a v sz) a sz' =
  AnyT (wrap (8 * Z.of_nat (type_size sz)) (u8 v)).
Proof.
  intros Hs. rewrite read_value_eq, <- Hs. pose proof (type_size_range sz).
  unfold write_value_to_addr, value_stores. rewrite any_store_le by lia. f_equal.
  rewrite <- (length_le_bytes (type_size sz) (u8 v)) at 2.
  rewrite <- le_word_le_bytes. f_equal. apply load_store_same.
Qed.

(** Two accesses that do not overlap. *)
Definition disjoint_acc (a : Z) (t : ValueType) (a' : Z) (t' : ValueType) : Prop :=
  a + Z.of_nat (type_size t) ≤ a' ∨ a' + Z.of_nat (type_size t') ≤ a.

Lemma read_write_disjoint m a v sz a' sz' :
  disjoint_acc a sz a' sz' →
  read_value_from_addr (write_value_to_addr m a v sz) a' sz' = read_value_from_addr m a' sz'.
Proof.
  intros Hd. apply read_value_ext, load_wr_disjoint. intros x Hx%value_stores_range.
  unfold disjoint_acc in Hd. lia.
Qed.

Lemma write_write_same m a v v' sz sz' :
  type_size sz = type_size sz' →
  write_value_to_addr (write_value_to_addr m a v sz) a v' sz' = write_value_to_addr m a v' sz'.
Proof.
  intros Hs. apply wr_cover. intros x. rewrite !value_stores_range. by rewrite Hs.
Qed.

Lemma write_write_comm m a v sz a' v' sz' :
  disjoint_acc a sz a' sz' →
  write_value_to_addr (write_value_to_addr m a v sz) a' v' sz' =
  write_value_to_addr (write_value_to_addr m a' v' sz') a v sz.
Proof.
  intros Hd. apply wr_comm. intros x. rewrite !value_stores_range.
  unfold disjoint_acc in Hd. lia.
Qed.

(** ** Address split *)

(** Addresses rounded down to a power of two. *)
Lemma align_low k a : 0 ≤ k ≤ 64 → is_w 64 a → a .& not64 (Z.ones k) = 2 ^ k * (a / 2 ^ k).
Proof.
  intros Hk Ha. transitivity (Z.shiftl (Z.shiftr a k) k); [|rewrite Z.shiftl_mul_pow2, Z.shiftr_div_pow2 by lia; lia].
  unfold not64. apply Z.bits_inj'. intros i Hi. rewrite Z.land_spec, testbit_wrap, Z.lnot_spec, testbit_ones, Z.shiftl_spec by lia.
  destruct (Z.ltb_spec i 64).
  - destruct (Z.ltb_spec i k); zcmp; simpl; try lia; [by rewrite andb_false_r, Z.testbit_neg_r by lia|]. rewrite andb_true_r, Z.shiftr_spec by lia. f_equal. lia.
  - simpl. rewrite andb_false_r, Z.shiftr_spec by lia. replace (i - k + k) with i by lia. symmetry. apply (testbit_high 64); [done|lia..].
Qed.

Lemma align_bits addr : is_w 64 addr →
  addr .& not64 7 = 8 * (addr / 8) ∧ addr .& 7 = addr mod 8.
Proof.
  intros Ha. change 7 with (Z.ones 3). split; [by apply (align_low 3)|by rewrite Z.land_ones by lia].
Qed.

Lemma ByteOffset_split addr :
  is_w 64 addr →
  let bo := ByteOffset_of addr in
  base_addr bo + offset bo = addr ∧ base_addr bo mod 8 = 0 ∧ 0 ≤ offset bo < 8.
Proof.
  intros Ha. simpl. destruct (align_bits addr Ha) as [H1 H2].
  unfold OFFSET_MASK. rewrite H1, H2.
  pose proof (Z.mod_pos_bound addr 8). pose proof (Z.div_mod addr 8).
  repeat split; try lia. rewrite Z.mul_comm. by apply Z.mod_mul.
Qed.

Lemma BYTE_MASK_ones n : 0 ≤ n ≤ 8 → BYTE_MASK n = Z.ones (8 * n).
Proof.
  intros. assert (n = 0 ∨ n = 1 ∨ n = 2 ∨ n = 3 ∨ n = 4 ∨ n = 5 ∨ n = 6 ∨ n = 7 ∨ n = 8) as Hn by lia.
  by repeat destruct Hn as [->|Hn]; try subst n.
Qed.

#[export] Hint Resolve type_size_range read_write_same read_write_disjoint : tmdb.

(** ** Properties *)

(** Typed accesses to byte memory behave like a store of values.  A read of the
    same width at the same address returns the value written, truncated to its width
    and zero-extended, whatever type tag of that width it uses; a read of a disjoint range
    is unaffected; a second write of the width hides the first; disjoint writes
    commute. *)
Theorem typed_memory_laws m a v sz a' v' sz' :
  (type_size sz = type_size sz' →
     read_value_from_addr (write_value_to_addr m a v sz) a sz' =
       AnyT (wrap (8 * Z.of_nat (type_size sz)) (u8 v)) ∧
     write_value_to_addr (write_value_to_addr m a v sz) a v' sz' = write_value_to_addr m a v' sz') ∧
  (disjoint_acc a sz a' sz' →
     read_value_from_addr (write_value_to_addr m a v sz) a' sz' = read_value_from_addr m a' sz' ∧
     write_value_to_addr (write_value_to_addr m a v sz) a' v' sz' =
       write_value_to_addr (write_value_to_addr m a' v' sz') a v sz).
Proof.
  split; intros H; split;
    [by apply read_write_same | by apply write_write_same | by apply read_write_disjoint | by apply write_write_comm].
Qed.

(** Splitting an address.  [ByteOffset] splits a 64-bit address into an 8-aligned
    base and an offset below 8 that sum to it, and [same_location] is equality of
    addresses. *)
Theorem ByteOffset_exact addr addr' :
  is_w 64 addr → is_w 64 addr' →
  let bo := ByteOffset_of addr in
  base_addr bo + offset bo = addr ∧ base_addr bo mod 8 = 0 ∧ 0 ≤ offset bo < 8 ∧
  (same_location bo (ByteOffset_of addr') = true ↔ addr = addr').
Proof.
  intros Ha Ha' bo. destruct (ByteOffset_split addr Ha) as (H1 & H2 & H3).
  destruct (ByteOffset_split addr' Ha') as (H1' & H2' & H3'). fold bo in H1, H2, H3. split_and!; [done|done|lia|lia|].
  unfold same_location. rewrite andb_true_iff, !Z.eqb_eq. split.
  - intros [Hb Ho]. congruence.
  - by intros ->.
Qed.

Lemma ByteOffset_exact_witness :
  base_addr (ByteOffset_of 0x10000D) + offset (ByteOffset_of 0x10000D) = 0x10000D.
Proof. refine (proj1 (ByteOffset_exact 0x10000D 0 _ _)); split; done. Defined.
