(* ===== verification/TMSpec.v ===== *)
(** * What a transactional memory promises

    An abstract machine for transactions.  Its state is the history of committed
    memories, one per committed update transaction; its transitions are the
    externally visible steps of a runtime: a transaction begins, commits or
    aborts, having performed a list of reads and writes.  An update transaction
    commits only if its events replay on the newest memory; a read-only or an
    aborted transaction must replay on some memory of the history not older than
    its begin, so that even a transaction that will abort never observes an
    inconsistent memory.  A backend is correct when every interleaved execution
    produces a trace of this machine ([Opaque]).  Clients reason from that
    interface alone ([opaque_invariant]). *)

From S2P Require Import Prelude Memory Values.
#[local] Open Scope Z_scope.

Inductive event :=
  | EvR (a : Z) (sz : ValueType) (v : Z)
  | EvW (a : Z) (sz : ValueType) (v : Z).

(** Serial execution of a transaction's events on a memory; [None] when a read
    would return another value. *)
Fixpoint replay (m : mem) (evs : list event) : option mem :=
  match evs with
  | [] => Some m
  | EvR a sz v :: evs' =>
      if return_any_type sz (read_value_from_addr m a sz) =? v then replay m evs' else None
  | EvW a sz v :: evs' => replay (write_value_to_addr m a (AnyT v) sz) evs'
  end.

Inductive label :=
  | LTau
  | LBegin (t : nat)
  | LCommit (t : nat) (evs : list event)
  | LAbort (t : nat) (evs : list event).

(** Number of commits in a trace: the version counters advance at most once for
    each. *)
Definition commits (tr : list label) : nat :=
  length (List.filter (λ l, match l with LCommit _ _ => true | _ => false end) tr).

Record spec_state := SpecState { hist : list mem; start : gmap nat nat }.

Definition spec_init (m : mem) : spec_state := SpecState [m] ∅.

Definition newest (s : spec_state) : option mem := last (hist s).

Inductive spec_step : spec_state → label → spec_state → Prop :=
  | spec_tau s : spec_step s LTau s
  | spec_begin s t :
      spec_step s (LBegin t) (SpecState (hist s) (<[t := pred (length (hist s))]> (start s)))
  | spec_commit_update s t evs m m' :
      newest s = Some m → replay m evs = Some m' →
      spec_step s (LCommit t evs) (SpecState (hist s ++ [m']) (start s))
  | spec_commit_read_only s t evs k b m :
      start s !! t = Some b → (b ≤ k)%nat → hist s !! k = Some m → replay m evs = Some m →
      spec_step s (LCommit t evs) s
  | spec_abort s t evs k b m m' :
      start s !! t = Some b → (b ≤ k)%nat → hist s !! k = Some m → replay m evs = Some m' →
      spec_step s (LAbort t evs) s.

(** Executions of a labelled transition system, with their traces. *)
Inductive exec {S : Type} (step : S → label → S → Prop) : S → list label → S → Prop :=
  | exec_nil s : exec step s [] s
  | exec_snoc s tr s' l s'' :
      exec step s tr s' → step s' l s'' → exec step s (tr ++ [l]) s''.

(** A backend: its initial states over a memory, its interleaved steps, its shared
    memory, when no commit is in progress, and the bound on a trace under which the
    guarantees are stated (version counters have a fixed width). *)
Class TMBackend (S : Type) := {
  tm_initial : mem → S → Prop;
  tm_step : S → label → S → Prop;
  tm_memory : S → mem;
  tm_quiescent : S → Prop;
  tm_in_bounds : list label → Prop;
}.

(** Opacity: every execution within bounds has a trace of the abstract machine, and
    between commits the shared memory is the newest committed memory. *)
Class Opaque (S : Type) `{TMBackend S} :=
  opacity : ∀ m0 s tr s',
    tm_initial m0 s → exec tm_step s tr s' → tm_in_bounds tr →
    ∃ a, exec spec_step (spec_init m0) tr a ∧
         (tm_quiescent s' → newest a = Some (tm_memory s')).

Lemma exec_cons {S} (step : S → label → S → Prop) s l s' tr s'' :
  step s l s' → exec step s' tr s'' → exec step s (l :: tr) s''.
Proof.
  intros Hs He. revert Hs. induction He as [s'|s' tr s1 l1 s2 He IH Hs1]; intros Hs.
  - apply (exec_snoc step s [] s l s'); [constructor|done].
  - apply (exec_snoc step s (l :: tr) s1 l1 s2); [by apply IH|done].
Qed.

(** ** Facts about replay *)

Lemma replay_app m e1 e2 : replay m (e1 ++ e2) = replay m e1 ≫= λ m', replay m' e2.
Proof.
  revert m. induction e1 as [|[a sz v|a sz v] e1 IH]; intros m; simpl; [done| |auto].
  by destruct (_ =? _).
Qed.

Lemma replay_snoc_read m evs m' a sz v :
  replay m evs = Some m' → return_any_type sz (read_value_from_addr m' a sz) = v →
  replay m (evs ++ [EvR a sz v]) = Some m'.
Proof. intros H1 <-. rewrite replay_app, H1. simpl. by rewrite Z.eqb_refl. Qed.

Lemma replay_snoc_write m evs m' a sz v :
  replay m evs = Some m' →
  replay m (evs ++ [EvW a sz v]) = Some (write_value_to_addr m' a (AnyT v) sz).
Proof. intros H1. by rewrite replay_app, H1. Qed.

Lemma commits_app t1 t2 : commits (t1 ++ t2) = (commits t1 + commits t2)%nat.
Proof. unfold commits. by rewrite List.filter_app, length_app. Qed.

Lemma spec_hist_length m0 tr a :
  exec spec_step (spec_init m0) tr a → (1 ≤ length (hist a) ≤ S (commits tr))%nat.
Proof.
  intros H. remember (spec_init m0) as s0 eqn:E. induction H; subst; [simpl; lia|].
  specialize (IHexec eq_refl). rewrite commits_app.
  inversion H0; subst; unfold commits in *; simpl in *; rewrite ?length_app; simpl; lia.
Qed.

(** ** Consequences for clients *)

Lemma spec_newest m0 tr a :
  exec spec_step (spec_init m0) tr a → is_Some (newest a).
Proof.
  intros H. remember (spec_init m0) as s0 eqn:E. induction H; subst; [by eexists|].
  specialize (IHexec eq_refl). inversion H0; subst; try done.
  unfold newest. simpl. rewrite last_snoc. eauto.
Qed.

(** [P] is preserved by a transaction when its events, run serially from a memory
    satisfying [P], leave one satisfying [P]. *)
Definition preserves (P : mem → Prop) (evs : list event) : Prop :=
  ∀ m m', P m → replay m evs = Some m' → P m'.

Definition commits_preserve (P : mem → Prop) (tr : list label) : Prop :=
  Forall (λ l, match l with LCommit _ evs => preserves P evs | _ => True end) tr.

(** If every committed transaction preserves [P] when run alone, every memory of
    the history satisfies [P]. *)
Lemma spec_invariant P m0 tr a :
  P m0 → exec spec_step (spec_init m0) tr a → commits_preserve P tr → Forall P (hist a).
Proof.
  intros HP H. remember (spec_init m0) as s0 eqn:E.
  induction H as [s|s tr s' l s'' He IH Hs]; intros Hc; subst; [by repeat constructor|].
  unfold commits_preserve in *. apply Forall_app in Hc as [Hc Hl]. specialize (IH eq_refl Hc).
  apply Forall_cons in Hl as [Hl _].
  inversion Hs; subst; simpl in *; try done.
  apply Forall_app. split; [done|]. apply Forall_singleton.
  eapply Hl; [|done]. rewrite Forall_forall in IH. apply IH.
  unfold newest in *. rewrite last_lookup in *. by eapply list_elem_of_lookup_2.
Qed.

Section Client.
Context {S : Type} `{!TMBackend S, !Opaque S}.

(** What a program built on an opaque backend may conclude: an invariant that each
    transaction preserves in isolation holds of the shared memory whenever no
    commit is in progress, under every interleaving. *)
Lemma opaque_invariant P m0 (s s' : S) tr :
  P m0 → tm_initial m0 s → exec tm_step s tr s' → tm_in_bounds tr →
  commits_preserve P tr → tm_quiescent s' → P (tm_memory s').
Proof.
  intros HP Hi He Hb Hc Hq. destruct (opacity m0 s tr s' Hi He Hb) as (a & Ha & Hm).
  specialize (Hm Hq). pose proof (spec_invariant P m0 tr a HP Ha Hc) as Hf.
  rewrite Forall_forall in Hf. apply Hf. unfold newest in Hm.
  rewrite last_lookup in Hm. by eapply list_elem_of_lookup_2.
Qed.
End Client.
