(* ===== verification/NOrec.v ===== *)
(** * NOrec: transaction-local operations (norec/NOrec.hpp)

    Data of the NOrec backend and the operations that touch only the
    transaction descriptor: the write-set lookup at the head of
    [read_word_norec], the whole of [write_word_norec], and the lifecycle
    functions.  The steps that read shared memory and the global sequence lock are
    in NOrecConc.v.

    The main results are the two halves of read-own-writes: under an access
    discipline ([coherent]: one width class per location, no partial overlap) the
    buffered write set denotes exactly the memory the transaction would have
    written ([write_word_apply], [ws_lookup_hit], [ws_lookup_miss]). *)

From S2P Require Import Prelude Memory Values TMSpec.
#[local] Open Scope Z_scope.
#[local] Open Scope word_scope.

(** ** Data *)

Record ReadLogEntry := MkRead {
  r_type : ValueType;
  r_addr : Z;
  observed_version : Z;
  observed_val : any_type_t }.

Record WriteLogEntry := MkWrite {
  w_type : ValueType;
  w_addr : Z;
  new_val : any_type_t }.

Record Transaction := MkTx {
  id : Z;
  snapshot : Z;
  active : bool;
  read_only : bool;
  abort_count : Z;
  read_set : list ReadLogEntry;
  write_set : list WriteLogEntry }.

Definition clear (tx : Transaction) : Transaction :=
  MkTx (id tx) (snapshot tx) (active tx) (read_only tx) (abort_count tx) [] [].

Definition reset (tx : Transaction) : Transaction :=
  clear (MkTx (id tx) 0 false true 0 (read_set tx) (write_set tx)).

Definition set_read_only (tx : Transaction) (b : bool) : Transaction :=
  MkTx (id tx) (snapshot tx) (active tx) b (abort_count tx) (read_set tx) (write_set tx).
Definition set_snapshot (tx : Transaction) (v : Z) : Transaction :=
  MkTx (id tx) v (active tx) (read_only tx) (abort_count tx) (read_set tx) (write_set tx).
Definition set_write_set (tx : Transaction) (ws : list WriteLogEntry) : Transaction :=
  MkTx (id tx) (snapshot tx) (active tx) (read_only tx) (abort_count tx) (read_set tx) ws.
Definition push_read (tx : Transaction) (r : ReadLogEntry) : Transaction :=
  MkTx (id tx) (snapshot tx) (active tx) (read_only tx) (abort_count tx)
    (read_set tx ++ [r]) (write_set tx).

(** A fresh descriptor, as [new Transaction()] leaves it. *)
Definition new_Transaction : Transaction := MkTx 0 0 false true 0 [] [].

(** [init_thread]: allocate on first use, take the next thread id, reset. *)
Definition init_thread (cur : option Transaction) (thr_counter : Z) : Transaction * Z :=
  let tx := default new_Transaction cur in
  (reset (MkTx thr_counter (snapshot tx) (active tx) (read_only tx) (abort_count tx)
            (read_set tx) (write_set tx)),
   wrap64 (thr_counter + 1)).

Definition exit_thread (cur : option Transaction) : option Transaction := None.

Definition iseq (val1 val2 : any_type_t) : bool := u8 val1 =? u8 val2.

(** The part of [begin] after the clock loop has read an even [clk]. *)
Definition begin_with (tx : Transaction) (clk : Z) : Transaction :=
  MkTx (id tx) clk true true 0 [] [].

(** [abort_tx] up to the [siglongjmp]. *)
Definition abort_local (tx : Transaction) : Transaction :=
  clear (MkTx (id tx) (snapshot tx) (active tx) (read_only tx) (abort_count tx + 1)
           (read_set tx) (write_set tx)).

(** ** Write-set lookup of [read_word_norec] *)

Definition KERNEL_SPACE : Z := 0x800000000000.
Definition LOW_ADDR : Z := 0x100000.

Definition entrySize (t : ValueType) : Z :=
  match t with
  | UINT8 => 1
  | UINT16 => 2
  | UINT32 | FLOAT => 4
  | UINT64 | DOUBLE | POINTER => 8
  end.

Definition vt_eqb (t t' : ValueType) : bool := bool_decide (t = t').

(** The assertion on a pointer value that is about to be returned. *)
Definition ptr_assert (sz : ValueType) (v : any_type_t) : bool :=
  negb (vt_eqb sz POINTER) || (u8 v <? KERNEL_SPACE).

(** First loop: newest entry with the same address and the same type. *)
Definition scan_exact (rws : list WriteLogEntry) (addr : Z) (sz : ValueType) : option WriteLogEntry :=
  List.find (λ e, vt_eqb (w_type e) sz && (w_addr e =? addr)) rws.

(** One iteration of the type-interchange loop for an entry at the address;
    [junk] is what the local [any_type_t] held before its member is assigned. *)
Definition interchange (junk : any_type_t) (e : WriteLogEntry) (sz : ValueType) : option any_type_t :=
  let es := entrySize (w_type e) in
  let rs := entrySize sz in
  let v := new_val e in
  if (rs =? 8) && (es =? 8) && negb (vt_eqb sz (w_type e)) then Some v
  else if (es =? 8) && (rs =? 4) && (vt_eqb sz UINT32 || vt_eqb sz FLOAT)
    then Some (any_set 4 junk (u8 v .& 0xFFFFFFFF))
  else if (es =? 8) && (rs =? 2) && vt_eqb sz UINT16 then Some (any_set 2 junk (u8 v .& 0xFFFF))
  else if (es =? 8) && (rs =? 1) && vt_eqb sz UINT8 then Some (any_set 1 junk (u8 v .& 0xFF))
  else if (es =? 4) && (rs =? 2) && vt_eqb sz UINT16 then Some (any_set 2 junk (u4 v .& 0xFFFF))
  else if (es =? 4) && (rs =? 1) && vt_eqb sz UINT8 then Some (any_set 1 junk (u4 v .& 0xFF))
  else if (es =? 2) && (rs =? 1) && vt_eqb sz UINT8 then Some (any_set 1 junk (u2 v .& 0xFF))
  else None.

Fixpoint scan_interchange (junk : any_type_t) (rws : list WriteLogEntry) (addr : Z) (sz : ValueType)
    : option any_type_t :=
  match rws with
  | [] => None
  | e :: rws' =>
      if w_addr e =? addr
      then match interchange junk e sz with
           | Some v => Some v
           | None => scan_interchange junk rws' addr sz
           end
      else scan_interchange junk rws' addr sz
  end.

(** Inner loop of the byte merge: newest UINT8 entry at a byte address. *)
Definition find_byte (rws : list WriteLogEntry) (byte_addr : Z) : option Z :=
  match List.find (λ e, (w_addr e =? byte_addr) && vt_eqb (w_type e) UINT8) rws with
  | Some e => Some (u1 (new_val e))
  | None => None
  end.

Fixpoint merge_bytes (rws : list WriteLogEntry) (addr : Z) (n : nat) (i : Z) (merged : Z) : option Z :=
  match n with
  | O => Some merged
  | S n' =>
      match find_byte rws (wrap64 (addr + i)) with
      | Some b => merge_bytes rws addr n' (i + 1) (merged .| (b .<< (i * 8)))
      | None => None
      end
  end.

Inductive ws_result := WsHit (v : any_type_t) | WsAssert | WsMiss.

(** Everything [read_word_norec] does before it looks at memory. *)
Definition ws_lookup (junk : any_type_t) (ws : list WriteLogEntry) (addr : Z) (sz : ValueType) : ws_result :=
  match scan_exact (rev ws) addr sz with
  | Some e => if ptr_assert sz (new_val e) then WsHit (new_val e) else WsAssert
  | None =>
      match scan_interchange junk (rev ws) addr sz with
      | Some v => WsHit v
      | None =>
          if vt_eqb sz UINT64 || vt_eqb sz POINTER || vt_eqb sz DOUBLE
          then match merge_bytes (rev ws) addr 8 0 0 with
               | Some w => WsHit (AnyT w)
               | None => WsMiss
               end
          else WsMiss
      end
  end.

(** ** [write_word_norec] *)

Inductive ws_update :=
  | Updated (rws : list WriteLogEntry)
  | Covered
  | UpdAssert
  | NotFound.

(** The backward scan over the write set (here over the reversed list). *)
Fixpoint ws_scan_update (rws : list WriteLogEntry) (addr : Z) (val : any_type_t) (sz : ValueType) : ws_update :=
  match rws with
  | [] => NotFound
  | e :: rws' =>
      let continue :=
        match ws_scan_update rws' addr val sz with
        | Updated r => Updated (e :: r)
        | o => o
        end in
      if w_addr e =? addr then
        if entrySize (w_type e) =? entrySize sz then
          if vt_eqb (w_type e) POINTER && (entrySize sz =? 8) && negb (vt_eqb sz POINTER)
             && negb (u8 val <? KERNEL_SPACE)
          then UpdAssert
          else Updated (MkWrite (w_type e) (w_addr e) val :: rws')
        else if entrySize sz <? entrySize (w_type e) then Covered
        else continue
      else continue
  end.

Definition bad_write_addr (addr : Z) : bool :=
  (addr =? 0) || (addr <? LOW_ADDR) || negb ((addr .>> 47) =? 0).

(** Result: [None] when an assertion of the code fails. *)
Definition write_word_norec (on_stack : Z → bool) (m : mem) (tx : Transaction)
    (addr : Z) (val : any_type_t) (sz : ValueType) : option (mem * Transaction) :=
  if bad_write_addr addr then Some (m, tx)
  else if on_stack addr then Some (write_value_to_addr m addr val sz, set_read_only tx false)
  else
    let tx := set_read_only tx false in
    if negb (ptr_assert sz val) then None
    else
      match ws_scan_update (rev (write_set tx)) addr val sz with
      | Updated r => Some (m, set_write_set tx (rev r))
      | Covered => Some (m, tx)
      | UpdAssert => None
      | NotFound => Some (m, set_write_set tx (write_set tx ++ [MkWrite sz addr val]))
      end.

(** [tm_write<T,SZ>] builds the union from the argument (its other bytes are
    [junk]) and calls the word routine; [tm_read] extracts the member of type T. *)
Definition tm_write (on_stack : Z → bool) (junk : any_type_t) (m : mem) (tx : Transaction)
    (addr : Z) (val : Z) (sz : ValueType) : option (mem * Transaction) :=
  write_word_norec on_stack m tx addr (fill_any_type junk (λ n, le_bytes n val) sz) sz.

Definition tm_read (sz : ValueType) (r : any_type_t) : Z := return_any_type sz r.

(** The write-back loop of [commit], as byte stores in order and as a whole. *)
Definition entry_stores (w : WriteLogEntry) : list (Z * Z) :=
  value_stores (w_addr w) (new_val w) (w_type w).

Definition writeback_stores (ws : list WriteLogEntry) : list (Z * Z) :=
  concat (map entry_stores ws).

Definition apply_ws (ws : list WriteLogEntry) (m : mem) : mem :=
  foldl (λ m' w, write_value_to_addr m' (w_addr w) (new_val w) (w_type w)) m ws.

(** ** Write-back *)

Lemma apply_ws_stores ws m : apply_ws ws m = wr m (writeback_stores ws).
Proof.
  revert m. induction ws as [|w ws IH]; intros m; [done|].
  unfold writeback_stores. simpl. rewrite wr_app. apply IH.
Qed.

Lemma apply_ws_app l1 l2 m : apply_ws (l1 ++ l2) m = apply_ws l2 (apply_ws l1 m).
Proof. apply foldl_app. Qed.

Lemma entrySize_type_size t : entrySize t = Z.of_nat (type_size t).
Proof. by destruct t. Qed.

Lemma write_value_size m a v t t' :
  type_size t = type_size t' → write_value_to_addr m a v t = write_value_to_addr m a v t'.
Proof. intros H. unfold write_value_to_addr, value_stores. by rewrite H. Qed.

(** ** Scans *)

Lemma vt_eqb_spec t t' : reflect (t = t') (vt_eqb t t').
Proof. apply bool_decide_reflect. Qed.

Lemma scan_exact_some ws addr sz e :
  scan_exact (rev ws) addr sz = Some e → e ∈ ws ∧ w_addr e = addr ∧ w_type e = sz.
Proof.
  intros [Hin Hp]%find_some. apply in_rev in Hin. apply list_elem_of_In in Hin.
  apply andb_true_iff in Hp as [?%bool_decide_eq_true ?%Z.eqb_eq]. done.
Qed.

Lemma scan_exact_none ws addr sz e :
  scan_exact (rev ws) addr sz = None → e ∈ ws → w_addr e = addr → w_type e ≠ sz.
Proof.
  intros Hn Hin Ha Ht. apply list_elem_of_In, in_rev in Hin.
  pose proof (find_none _ _ Hn _ Hin) as Hf. simpl in Hf.
  destruct (vt_eqb_spec (w_type e) sz), (Z.eqb_spec (w_addr e) addr); done.
Qed.

Lemma scan_interchange_some junk rws addr sz v :
  scan_interchange junk rws addr sz = Some v →
  ∃ e, e ∈ rws ∧ w_addr e = addr ∧ interchange junk e sz = Some v.
Proof.
  induction rws as [|e rws IH]; simpl; [done|]. intros H.
  destruct (Z.eqb_spec (w_addr e) addr) as [Ha|Ha].
  - destruct (interchange junk e sz) eqn:Ei; simplify_eq.
    + exists e. set_solver.
    + destruct (IH H) as (e' & ? & ?). exists e'. set_solver.
  - destruct (IH H) as (e' & ? & ?). exists e'. set_solver.
Qed.

Lemma scan_interchange_none junk rws addr sz e :
  scan_interchange junk rws addr sz = None → e ∈ rws → w_addr e = addr →
  interchange junk e sz = None.
Proof.
  induction rws as [|e' rws IH]; simpl; intros H Hin Ha; [set_solver|].
  apply elem_of_cons in Hin as [->|Hin].
  - rewrite (proj2 (Z.eqb_eq _ _) Ha) in H. by destruct (interchange junk e' sz).
  - apply IH; [|done|done].
    destruct (w_addr e' =? addr); [by destruct (interchange junk e' sz)|done].
Qed.

Lemma find_byte_some rws a b :
  find_byte rws a = Some b → ∃ e, e ∈ rws ∧ w_addr e = a ∧ w_type e = UINT8.
Proof.
  unfold find_byte. destruct (List.find _ rws) as [e|] eqn:E; [|done]. intros _.
  apply find_some in E as [Hin Hp]. exists e. apply list_elem_of_In in Hin.
  apply andb_true_iff in Hp as [?%Z.eqb_eq ?%bool_decide_eq_true]. done.
Qed.

Lemma interchange_same junk e : interchange junk e (w_type e) = None.
Proof. unfold interchange. by destruct (w_type e). Qed.

Lemma interchange_words junk e sz :
  type_size sz = 8%nat → type_size (w_type e) = 8%nat → sz ≠ w_type e →
  interchange junk e sz = Some (new_val e).
Proof. unfold interchange. by destruct sz, (w_type e). Qed.

Lemma ws_scan_update_spec rws addr val sz :
  match ws_scan_update rws addr val sz with
  | Updated r => ∃ l1 e l2, rws = l1 ++ e :: l2 ∧ w_addr e = addr ∧
      type_size (w_type e) = type_size sz ∧ r = l1 ++ MkWrite (w_type e) addr val :: l2
  | Covered => ∃ e, e ∈ rws ∧ w_addr e = addr ∧ (type_size sz < type_size (w_type e))%nat
  | UpdAssert => True
  | NotFound => ∀ e, e ∈ rws → w_addr e = addr → (type_size (w_type e) < type_size sz)%nat
  end.
Proof.
  induction rws as [|e rws IH]; simpl; [set_solver|].
  rewrite !entrySize_type_size.
  assert (match match ws_scan_update rws addr val sz with
                | Updated r => Updated (e :: r) | o => o end with
    | Updated r => ∃ l1 e0 l2, e :: rws = l1 ++ e0 :: l2 ∧ w_addr e0 = addr ∧
        type_size (w_type e0) = type_size sz ∧ r = l1 ++ MkWrite (w_type e0) addr val :: l2
    | Covered => ∃ e0, e0 ∈ e :: rws ∧ w_addr e0 = addr ∧ (type_size sz < type_size (w_type e0))%nat
    | UpdAssert => True
    | NotFound => ∀ e0, e0 ∈ rws → w_addr e0 = addr → (type_size (w_type e0) < type_size sz)%nat
    end) as Hrec.
  { destruct (ws_scan_update rws addr val sz); try done.
    - destruct IH as (l1 & e0 & l2 & -> & ? & ? & ->). by exists (e :: l1), e0, l2.
    - destruct IH as (e0 & ? & ?). exists e0. set_solver. }
  destruct (Z.eqb_spec (w_addr e) addr) as [Ha|Ha].
  - destruct (Z.eqb_spec (Z.of_nat (type_size (w_type e))) (Z.of_nat (type_size sz))) as [Hs|Hs].
    + destruct (_ && _); [done|]. exists [], e, rws. rewrite Ha. naive_solver lia.
    + destruct (Z.ltb_spec (Z.of_nat (type_size sz)) (Z.of_nat (type_size (w_type e)))).
      * exists e. split; [set_solver|]. split; [done|lia].
      * destruct (match ws_scan_update _ _ _ _ with Updated r => _ | _ => _ end); try done.
        intros e0 [->|Hin]%elem_of_cons ?; [lia|auto].
  - destruct (match ws_scan_update _ _ _ _ with Updated r => _ | _ => _ end); try done.
    intros e0 [->|Hin]%elem_of_cons ?; [done|auto].
Qed.

(** ** Read-own-writes under an access discipline *)

(** Types that may be used for the same location: equal, or both 8 bytes wide
    (the code treats UINT64, DOUBLE and POINTER as interchangeable). *)
Definition compat_type (t t' : ValueType) : Prop :=
  t = t' ∨ (type_size t = 8%nat ∧ type_size t' = 8%nat).

Definition coherent_acc (a : Z) (t : ValueType) (a' : Z) (t' : ValueType) : Prop :=
  (a = a' ∧ compat_type t t') ∨ disjoint_acc a t a' t'.

(** A discipline: the accesses a program performs, all to addresses the backend
    tracks and pairwise coherent. *)
Class Discipline (acc : Z → ValueType → Prop) := {
  acc_coherent a t a' t' : acc a t → acc a' t' → coherent_acc a t a' t';
  acc_range a t : acc a t → LOW_ADDR ≤ a < 2 ^ 47;
}.

Lemma compat_size t t' : compat_type t t' → type_size t = type_size t'.
Proof. intros [->|[-> ->]]; done. Qed.

Section ReadOwnWrites.
Context (acc : Z → ValueType → Prop) `{!Discipline acc}.

Definition acc_entry (e : WriteLogEntry) : Prop := acc (w_addr e) (w_type e).

(** Invariant of the write set: disciplined entries, one per address. *)
Definition ws_wf (ws : list WriteLogEntry) : Prop :=
  Forall acc_entry ws ∧ NoDup (map w_addr ws).

Lemma acc_disjoint a t a' t' : acc a t → acc a' t' → a ≠ a' → disjoint_acc a t a' t'.
Proof. intros H H' Hne. destruct (acc_coherent _ _ _ _ H H') as [[??]|]; done. Qed.

Lemma acc_compat a t t' : acc a t → acc a t' → compat_type t t'.
Proof.
  intros H H'. destruct (acc_coherent _ _ _ _ H H') as [[_ ?]|Hd]; [done|].
  unfold disjoint_acc in Hd. pose proof (type_size_range t). pose proof (type_size_range t'). lia.
Qed.

Lemma acc_wrap a t : acc a t → wrap64 (a + 0) = a.
Proof.
  intros Ha%acc_range. rewrite Z.add_0_r. apply Z.mod_small. unfold LOW_ADDR in Ha. lia.
Qed.

Lemma read_apply_miss ws m a t :
  Forall acc_entry ws → acc a t → a ∉ map w_addr ws →
  read_value_from_addr (apply_ws ws m) a t = read_value_from_addr m a t.
Proof.
  intros Hws Ha. revert m. induction Hws as [|e ws He Hws IH]; intros m Hni; [done|].
  simpl in *. apply not_elem_of_cons in Hni as [Hne Hni]. rewrite IH by done.
  apply read_write_disjoint. by apply acc_disjoint.
Qed.

Lemma apply_write_comm ws m a v t :
  Forall acc_entry ws → acc a t → a ∉ map w_addr ws →
  apply_ws ws (write_value_to_addr m a v t) = write_value_to_addr (apply_ws ws m) a v t.
Proof.
  intros Hws Ha. revert m. induction Hws as [|e ws He Hws IH]; intros m Hni; [done|].
  simpl in *. apply not_elem_of_cons in Hni as [Hne Hni].
  rewrite write_write_comm by (by apply acc_disjoint). by apply IH.
Qed.

Lemma ws_split ws e :
  ws_wf ws → e ∈ ws →
  ∃ l1 l2, ws = l1 ++ e :: l2 ∧ Forall acc_entry l1 ∧ Forall acc_entry l2 ∧ acc_entry e ∧
           (w_addr e ∉ map w_addr l1) ∧ (w_addr e ∉ map w_addr l2).
Proof.
  intros [Hf Hn] (l1 & l2 & ->)%list_elem_of_split. exists l1, l2.
  apply Forall_app in Hf as [? [? ?]%Forall_cons].
  rewrite map_app in Hn. simpl in Hn. apply NoDup_app in Hn as (_ & Hd & Hn).
  apply NoDup_cons in Hn as [? _]. repeat split; try done. set_solver.
Qed.

Lemma read_apply_hit ws m e t :
  ws_wf ws → e ∈ ws → type_size t = type_size (w_type e) →
  read_value_from_addr (apply_ws ws m) (w_addr e) t =
  AnyT (wrap (8 * Z.of_nat (type_size t)) (u8 (new_val e))).
Proof.
  intros Hwf Hin Ht. destruct (ws_split ws e Hwf Hin) as (l1 & l2 & -> & ? & ? & He & ? & ?).
  rewrite apply_ws_app. simpl. rewrite apply_write_comm by done.
  rewrite Ht. by rewrite read_write_same by done.
Qed.

(** In a well-formed write set an address names at most one entry. *)
Lemma ws_unique ws e e' : ws_wf ws → e ∈ ws → e' ∈ ws → w_addr e = w_addr e' → e = e'.
Proof.
  intros [_ Hn] (i & Hi)%list_elem_of_lookup_1 (j & Hj)%list_elem_of_lookup_1 Heq.
  assert (i = j) as ->; [|congruence].
  change (map w_addr ws) with (w_addr <$> ws) in Hn.
  apply (NoDup_lookup _ i j (w_addr e) Hn); rewrite list_lookup_fmap, ?Hi, ?Hj; simpl; congruence.
Qed.

Lemma ws_entry_acc ws e : ws_wf ws → e ∈ ws → acc (w_addr e) (w_type e).
Proof. intros [Hf _] Hin. by eapply Forall_forall in Hf. Qed.

Lemma elem_of_rev_1 (ws : list WriteLogEntry) e : e ∈ rev ws → e ∈ ws.
Proof. by rewrite !list_elem_of_In, <- in_rev. Qed.

Lemma elem_of_rev_2 (ws : list WriteLogEntry) e : e ∈ ws → e ∈ rev ws.
Proof. by rewrite !list_elem_of_In, <- in_rev. Qed.

(** What the lookup does at an address that has an entry. *)
Lemma ws_lookup_in junk ws e sz :
  ws_wf ws → acc (w_addr e) sz → e ∈ ws →
  ws_lookup junk ws (w_addr e) sz =
  if vt_eqb (w_type e) sz && negb (ptr_assert sz (new_val e)) then WsAssert else WsHit (new_val e).
Proof.
  intros Hwf Ha Hin. unfold ws_lookup.
  destruct (scan_exact (rev ws) (w_addr e) sz) as [e'|] eqn:E1.
  { apply scan_exact_some in E1 as (Hin' & Hae & Ht).
    rewrite (ws_unique ws e' e) in * by done. destruct (vt_eqb_spec (w_type e) sz); [|done].
    by destruct (ptr_assert sz (new_val e)). }
  pose proof (scan_exact_none _ _ _ _ E1 Hin eq_refl) as Hne.
  destruct (vt_eqb_spec (w_type e) sz); [done|]. simpl.
  destruct (acc_compat _ _ _ Ha (ws_entry_acc _ _ Hwf Hin)) as [?|[H8 H8']]; [by subst|].
  pose proof (interchange_words junk e sz H8 H8' ltac:(congruence)) as Hi.
  destruct (scan_interchange junk (rev ws) (w_addr e) sz) as [v|] eqn:E2.
  - apply scan_interchange_some in E2 as (e' & Hin'%elem_of_rev_1 & Hae & Hi').
    rewrite (ws_unique ws e' e) in Hi' by done. congruence.
  - eapply scan_interchange_none in E2; [|by apply elem_of_rev_2|done]. congruence.
Qed.

(** What it does where there is none: no entry of another address interferes. *)
Lemma ws_lookup_notin junk ws addr sz :
  ws_wf ws → acc addr sz → addr ∉ map w_addr ws → ws_lookup junk ws addr sz = WsMiss.
Proof.
  intros Hwf Ha Hni.
  assert (∀ e, e ∈ ws → w_addr e ≠ addr) as Hne.
  { intros e Hin <-. apply Hni, list_elem_of_In, in_map, list_elem_of_In, Hin. }
  unfold ws_lookup. destruct (scan_exact (rev ws) addr sz) as [e|] eqn:E1.
  { apply scan_exact_some in E1 as (Hin & Hae & _). by apply Hne in Hin. }
  destruct (scan_interchange junk (rev ws) addr sz) as [v|] eqn:E2.
  { apply scan_interchange_some in E2 as (e & Hin%elem_of_rev_1 & Hae & _). by apply Hne in Hin. }
  destruct (_ || _); [|done]. simpl. rewrite (acc_wrap _ _ Ha).
  destruct (find_byte (rev ws) addr) eqn:E3; [|done].
  apply find_byte_some in E3 as (e & Hin%elem_of_rev_1 & Hae & _). by apply Hne in Hin.
Qed.

Lemma ws_addr_cases ws addr : addr ∉ map w_addr ws ∨ ∃ e, e ∈ ws ∧ w_addr e = addr.
Proof.
  destruct (decide (addr ∈ map w_addr ws)) as [Hin|]; [right|by left].
  apply list_elem_of_In, in_map_iff in Hin as (e & Hae & Hin). exists e. by rewrite list_elem_of_In.
Qed.

(** A lookup hit returns what the serial execution would read. *)
Lemma ws_lookup_hit junk ws m addr sz v :
  ws_wf ws → acc addr sz → ws_lookup junk ws addr sz = WsHit v →
  return_any_type sz v = return_any_type sz (read_value_from_addr (apply_ws ws m) addr sz).
Proof.
  intros Hwf Ha Hl. destruct (ws_addr_cases ws addr) as [Hni|(e & Hin & <-)].
  { by rewrite ws_lookup_notin in Hl. }
  rewrite ws_lookup_in in Hl by done. destruct (_ && _); simplify_eq.
  pose proof (acc_compat _ _ _ Ha (ws_entry_acc _ _ Hwf Hin)) as Hc%compat_size.
  rewrite (read_apply_hit ws m e sz) by done. unfold return_any_type.
  pose proof (type_size_range sz). rewrite !any_get_wrap by lia. simpl u8.
  unfold wrap. by rewrite Z.mod_mod by lia.
Qed.

(** A lookup miss means the buffered writes leave the location alone. *)
Lemma ws_lookup_miss junk ws m addr sz :
  ws_wf ws → acc addr sz → ws_lookup junk ws addr sz = WsMiss →
  read_value_from_addr (apply_ws ws m) addr sz = read_value_from_addr m addr sz.
Proof.
  intros Hwf Ha Hl. destruct (ws_addr_cases ws addr) as [Hni|(e & Hin & <-)].
  - destruct Hwf. by apply read_apply_miss.
  - rewrite ws_lookup_in in Hl by done. by destruct (_ && _).
Qed.

(** Only a pointer read can hit the kernel-address assertion. *)
Lemma ws_lookup_assert junk ws addr sz : ws_lookup junk ws addr sz = WsAssert → sz = POINTER.
Proof.
  unfold ws_lookup. repeat case_match; try done. intros _.
  unfold ptr_assert in *. by destruct (vt_eqb_spec sz POINTER).
Qed.

Lemma acc_good_addr addr sz : acc addr sz → bad_write_addr addr = false.
Proof.
  intros Hr%acc_range. unfold bad_write_addr, LOW_ADDR in *. rewrite Z.shiftr_div_pow2 by lia.
  rewrite (Z.div_small addr (2 ^ 47)) by lia. simpl. zcmp; simpl; (lia || done).
Qed.

(** Overwriting the entry of an address. *)
Lemma ws_replace l1 e l2 val sz :
  ws_wf (l1 ++ e :: l2) → type_size (w_type e) = type_size sz →
  let ws' := l1 ++ MkWrite (w_type e) (w_addr e) val :: l2 in
  ws_wf ws' ∧
  ∀ m, apply_ws ws' m = write_value_to_addr (apply_ws (l1 ++ e :: l2) m) (w_addr e) val sz.
Proof.
  intros [Hf Hn] Hsz ws'. apply Forall_app in Hf as [H1 [He H2]%Forall_cons].
  split; [split|].
  - apply Forall_app. split; [done|]. by apply Forall_cons.
  - subst ws'. rewrite map_app in *. done.
  - intros m. rewrite map_app in Hn. apply NoDup_app in Hn as (_ & _ & [? _]%NoDup_cons).
    subst ws'. rewrite !apply_ws_app. simpl. rewrite !apply_write_comm by done.
    rewrite (write_value_size _ _ val sz (w_type e)) by done. by rewrite write_write_same.
Qed.

(** Appending an entry for a new address. *)
Lemma ws_append ws addr val sz :
  ws_wf ws → acc addr sz → addr ∉ map w_addr ws →
  let ws' := ws ++ [MkWrite sz addr val] in
  ws_wf ws' ∧ ∀ m, apply_ws ws' m = write_value_to_addr (apply_ws ws m) addr val sz.
Proof.
  intros [Hf Hn] Ha Hni ws'. split; [split|].
  - apply Forall_app. split; [done|]. by apply Forall_singleton.
  - subst ws'. rewrite map_app. apply NoDup_app. split; [done|]. split; [set_solver|]. apply NoDup_singleton.
  - intros m. subst ws'. by rewrite apply_ws_app.
Qed.

(** The entry a write leaves behind. *)
Definition has_entry (ws : list WriteLogEntry) (addr : Z) (val : any_type_t) (sz : ValueType) : Prop :=
  ∃ e, e ∈ ws ∧ w_addr e = addr ∧ new_val e = val ∧ type_size (w_type e) = type_size sz.

(** Outcome of the backward scan in a well-formed write set. *)
Lemma ws_scan_wf ws addr val sz :
  ws_wf ws → acc addr sz →
  match ws_scan_update (rev ws) addr val sz with
  | Updated r => ws_wf (rev r) ∧ has_entry (rev r) addr val sz ∧
      ∀ m, apply_ws (rev r) m = write_value_to_addr (apply_ws ws m) addr val sz
  | Covered => False
  | UpdAssert => True
  | NotFound => addr ∉ map w_addr ws
  end.
Proof.
  intros Hwf Ha. pose proof (ws_scan_update_spec (rev ws) addr val sz) as Hs.
  assert (∀ e, e ∈ rev ws → w_addr e = addr → type_size sz = type_size (w_type e)) as Hsize.
  { intros e Hin%elem_of_rev_1 <-. apply compat_size, (acc_compat _ _ _ Ha).
    by apply (ws_entry_acc ws). }
  destruct (ws_scan_update (rev ws) addr val sz) as [r| | |]; try done.
  - destruct Hs as (l1 & e & l2 & Hrev & <- & Hsz & ->).
    assert (ws = rev l2 ++ e :: rev l1) as ->.
    { rewrite <- (rev_involutive ws), Hrev, rev_app_distr. simpl. by rewrite <- app_assoc. }
    rewrite rev_app_distr. simpl. rewrite <- app_assoc. simpl.
    destruct (ws_replace (rev l2) e (rev l1) val sz Hwf Hsz) as [??].
    split_and!; [done| |done]. eexists. split_and!; [apply elem_of_app; right; by left|done..].
  - destruct Hs as (e & Hin & Hae & Hlt). rewrite (Hsize e) in Hlt by done. lia.
  - intros Hin. apply list_elem_of_In, in_map_iff in Hin as (e & Hae & Hin).
    rewrite <- list_elem_of_In in Hin. apply elem_of_rev_2 in Hin.
    specialize (Hs e Hin Hae). rewrite (Hsize e) in Hs by done. lia.
Qed.

(** Buffering a write is writing it: the write set after the operation, applied to
    any memory, is the write set before it followed by the store. *)
Lemma write_word_apply on_stack m tx addr val sz m' tx' :
  ws_wf (write_set tx) → acc addr sz → on_stack addr = false →
  write_word_norec on_stack m tx addr val sz = Some (m', tx') →
  m' = m ∧ ws_wf (write_set tx') ∧
  (∀ m0, apply_ws (write_set tx') m0 = write_value_to_addr (apply_ws (write_set tx) m0) addr val sz) ∧
  read_set tx' = read_set tx ∧ snapshot tx' = snapshot tx ∧ active tx' = active tx ∧
  read_only tx' = false ∧
  has_entry (write_set tx') addr val sz ∧ ptr_assert sz val = true.
Proof.
  intros Hwf Ha Hst Hw. unfold write_word_norec in Hw. rewrite Hst, (acc_good_addr _ _ Ha) in Hw.
  destruct (ptr_assert sz val); simpl in Hw; [|done].
  pose proof (ws_scan_wf (write_set tx) addr val sz Hwf Ha) as Hs.
  destruct (ws_scan_update (rev (write_set tx)) addr val sz) as [r| | |]; simplify_eq; simpl; try done.
  - destruct Hs as (? & ? & ?). done.
  - destruct (ws_append (write_set tx) addr val sz Hwf Ha Hs). split_and!; try done.
    eexists. split_and!; [apply elem_of_app; right; by left|done..].
Qed.

(** Reading back inside the transaction: the value written, truncated to its width. *)
Lemma tm_write_read on_stack junk junk' m tx addr val sz m' tx' :
  ws_wf (write_set tx) → acc addr sz → on_stack addr = false →
  tm_write on_stack junk m tx addr val sz = Some (m', tx') →
  ∃ v, ws_lookup junk' (write_set tx') addr sz = WsHit v ∧
       tm_read sz v = wrap (8 * Z.of_nat (type_size sz)) val.
Proof.
  intros Hwf Ha Hst Hw. unfold tm_write in Hw. set (w := fill_any_type _ _ _) in Hw.
  destruct (write_word_apply _ _ _ _ _ _ _ _ Hwf Ha Hst Hw)
    as (_ & Hwf' & _ & _ & _ & _ & _ & (e & Hin & Hae & Hnv & _) & Hpa).
  exists w. rewrite <- Hae, ws_lookup_in by (rewrite ?Hae; done).
  rewrite Hnv, Hpa, andb_false_r. split; [done|]. apply return_fill_any_type.
Qed.
End ReadOwnWrites.

(** ** Properties *)

(** A discipline with one 32-bit location and one 64-bit word. *)
Definition sample_acc (a : Z) (sz : ValueType) : Prop :=
  (a = 0x100000 ∧ sz = UINT32) ∨ (a = 0x100008 ∧ (sz = UINT64 ∨ sz = POINTER)).

#[export] Instance sample_discipline : Discipline sample_acc.
Proof.
  split.
  - unfold sample_acc, coherent_acc, compat_type, disjoint_acc. intros a t a' t' H H'.
    destruct H as [[-> ->]|[-> [-> | ->]]]; destruct H' as [[-> ->]|[-> [-> | ->]]]; simpl;
      (left; split; [done|auto; fail]) || (right; lia) || (left; split; [done|by right]).
  - unfold sample_acc, LOW_ADDR. intros a t [[-> _]|[-> _]]; lia.
Qed.

(** C22: buffered writes denote a memory.  Under an access discipline (one width
    class per location), [write_word_norec] leaves shared memory alone and turns the
    write set into one that, written back over any memory, performs the old write set
    and then the store; and for every later read a write-set hit returns what that
    memory holds while a miss means the buffer does not touch the location. *)
Theorem norec_write_buffer_refines acc `{!Discipline acc} on_stack m tx addr val sz m' tx' :
  ws_wf acc (write_set tx) → acc addr sz → on_stack addr = false →
  write_word_norec on_stack m tx addr val sz = Some (m', tx') →
  m' = m ∧ ws_wf acc (write_set tx') ∧ read_only tx' = false ∧
  (∀ m0, apply_ws (write_set tx') m0 = write_value_to_addr (apply_ws (write_set tx) m0) addr val sz) ∧
  ∀ m0 junk a t, acc a t →
    match ws_lookup junk (write_set tx') a t with
    | WsHit v => tm_read t v = tm_read t (read_value_from_addr (apply_ws (write_set tx') m0) a t)
    | WsMiss => read_value_from_addr (apply_ws (write_set tx') m0) a t = read_value_from_addr m0 a t
    | WsAssert => t = POINTER
    end.
Proof.
  intros Hwf Ha Hst Hw.
  destruct (write_word_apply acc _ _ _ _ _ _ _ _ Hwf Ha Hst Hw) as (? & Hwf' & ? & _ & _ & _ & ? & _).
  split_and!; try done. intros m0 junk a t Hat.
  destruct (ws_lookup junk (write_set tx') a t) eqn:El.
  - by apply (ws_lookup_hit acc junk).
  - by apply ws_lookup_assert in El.
  - by apply (ws_lookup_miss acc junk).
Qed.

Lemma norec_write_buffer_refines_witness :
  let tx := set_write_set new_Transaction [MkWrite UINT32 0x100000 (AnyT 7)] in
  ∃ m' tx', write_word_norec (λ _, false) ∅ tx 0x100008 (AnyT 9) UINT64 = Some (m', tx') ∧
    ∀ m0, apply_ws (write_set tx') m0 =
          write_value_to_addr (apply_ws (write_set tx) m0) 0x100008 (AnyT 9) UINT64.
Proof.
  eexists _, _. split; [reflexivity|].
  refine (proj1 (proj2 (proj2 (proj2 (norec_write_buffer_refines sample_acc (λ _, false) ∅
    (set_write_set new_Transaction [MkWrite UINT32 0x100000 (AnyT 7)]) 0x100008 (AnyT 9) UINT64
    _ _ _ _ _ eq_refl))))).
  - split; [repeat constructor; by left | apply NoDup_singleton].
  - right. by auto.
  - done.
Defined.

(** A transaction reads back its own write.  After [tm_write<T,SZ>] of [val],
    [tm_read<T,SZ>] of the same location is served from the write set, whatever the
    uninitialised bytes of the temporaries hold, and returns [val] truncated to the width
    of its type. *)
Theorem norec_read_own_write acc `{!Discipline acc} on_stack junk junk' m tx addr val sz m' tx' :
  ws_wf acc (write_set tx) → acc addr sz → on_stack addr = false →
  tm_write on_stack junk m tx addr val sz = Some (m', tx') →
  ∃ v, ws_lookup junk' (write_set tx') addr sz = WsHit v ∧
       tm_read sz v = wrap (8 * Z.of_nat (type_size sz)) val.
Proof. intros. by eapply (tm_write_read acc). Qed.

Lemma norec_read_own_write_witness :
  ∃ m' tx' v, tm_write (λ _, false) (AnyT (2 ^ 64 - 1)) ∅ new_Transaction 0x100000 (2 ^ 32 + 5) UINT32 = Some (m', tx') ∧
    ws_lookup (AnyT 0) (write_set tx') 0x100000 UINT32 = WsHit v ∧ tm_read UINT32 v = 5.
Proof.
  destruct (norec_read_own_write sample_acc (λ _, false) (AnyT (2 ^ 64 - 1)) (AnyT 0) ∅ new_Transaction
    0x100000 (2 ^ 32 + 5) UINT32 _ _ ltac:(split; constructor) ltac:(by left) eq_refl eq_refl) as (v & H1 & H2).
  eexists _, _, v. split; [reflexivity|]. split; [exact H1|exact H2].
Defined.

(** C40: a narrow store over a wider buffered one is lost.  After a transaction wrote 8
    bytes at an address, [write_word_norec] of 1, 2 or 4 bytes at the same address
    returns without changing the write set ("wider entry covers this address"), so the
    transaction commits and reads back the old bytes. *)
Theorem norec_narrow_write_dropped on_stack m tx ws addr v8 v sz :
  bad_write_addr addr = false → on_stack addr = false →
  write_set tx = ws ++ [MkWrite UINT64 addr v8] → (type_size sz < 8)%nat →
  write_word_norec on_stack m tx addr v sz = Some (m, set_read_only tx false) ∧
  ∀ m0, apply_ws (write_set (set_read_only tx false)) m0 =
        write_value_to_addr (apply_ws ws m0) addr v8 UINT64.
Proof.
  intros Hb Hst Hws Hsz. split.
  - unfold write_word_norec. rewrite Hb, Hst. simpl write_set. rewrite Hws, rev_app_distr. simpl.
    rewrite Z.eqb_refl. by destruct sz; simpl in Hsz; try lia.
  - intros m0. simpl write_set. by rewrite Hws, apply_ws_app.
Qed.

Lemma norec_narrow_write_dropped_witness :
  let tx := set_write_set new_Transaction [MkWrite UINT64 0x100000 (AnyT 0)] in
  write_word_norec (λ _, false) ∅ tx 0x100000 (AnyT 255) UINT8 = Some (∅, set_read_only tx false).
Proof.
  refine (proj1 (norec_narrow_write_dropped (λ _, false) ∅
    (set_write_set new_Transaction [MkWrite UINT64 0x100000 (AnyT 0)]) [] 0x100000 (AnyT 0) (AnyT 255) UINT8
    eq_refl eq_refl eq_refl _)). simpl. lia.
Defined.

(** A [float] read does not see a buffered [uint32_t] write of the same location
    (and conversely): the type-interchange loop has no 4-byte case, so the lookup
    misses and the read goes to memory. *)
Theorem norec_u32_float_stale junk ws addr v t t' :
  (∀ e, e ∈ ws → w_addr e ≠ addr) →
  (t, t') = (UINT32, FLOAT) ∨ (t, t') = (FLOAT, UINT32) →
  ws_lookup junk (ws ++ [MkWrite t addr v]) addr t' = WsMiss.
Proof.
  intros Hne Ht. unfold ws_lookup. rewrite rev_app_distr. simpl.
  assert (scan_exact (rev ws) addr t' = None) as E1.
  { destruct (scan_exact (rev ws) addr t') as [e|] eqn:E; [|done].
    apply scan_exact_some in E as (Hin & Hae & _). by apply Hne in Hin. }
  assert (scan_interchange junk (rev ws) addr t' = None) as E2.
  { destruct (scan_interchange junk (rev ws) addr t') eqn:E; [|done].
    apply scan_interchange_some in E as (e & Hin%elem_of_rev_1 & Hae & _). by apply Hne in Hin. }
  unfold scan_exact in *. simpl. rewrite Z.eqb_refl.
  destruct Ht as [[= -> ->]|[= -> ->]]; simpl; by rewrite E1, E2.
Qed.

Lemma norec_u32_float_stale_witness :
  ws_lookup (AnyT 0) ([] ++ [MkWrite UINT32 0x100000 (AnyT 1)]) 0x100000 FLOAT = WsMiss.
Proof.
  apply norec_u32_float_stale; [|by left]. intros e He. by apply elem_of_nil in He.
Defined.
