(* ===== verification/NOrecConc.v ===== *)
(** * NOrec: interleaved execution (norec/NOrec.hpp)

    Threads running [begin], [read_word_norec], [write_word_norec], [validate] and
    [commit] over the shared memory and the global sequence lock, at the grain of
    single atomic operations: one clock access, or one byte of a [memcpy], per
    step, so a reader can observe a torn value exactly where the code can.
    Interleavings are sequentially consistent.

    NOrecOpaque.v shows that this refines the abstract transactional memory of TMSpec
    ([norec_opaque]): every execution is opaque, and between commits the shared
    memory is the newest committed memory. *)

From S2P Require Import Prelude Memory Values TMSpec NOrec.
#[local] Open Scope Z_scope.

(** ** State *)

Record gstate := MkG { g_mem : mem; global_lock : Z; g_tm_abort_count : Z }.

(** Who called [validate]: the re-validation loop of a read, or [commit]. *)
Inductive kont := KRead (a : Z) (sz : ValueType) | KCommit.

(** Program points between two shared-memory operations. *)
Inductive pc :=
  | Idle
  | Begin                                                (* do snapshot = get_clock() *)
  | Running                                              (* user code *)
  | ReadClock (a : Z) (sz : ValueType)                   (* clock_before = get_clock() *)
  | ReadBytes (a : Z) (sz : ValueType) (before : Z) (got : list Z)
  | ReadAfter (a : Z) (sz : ValueType) (before : Z) (v : any_type_t) (* clock_after *)
  | ReadSnap (a : Z) (sz : ValueType) (v : any_type_t)   (* while snapshot != get_clock() *)
  | ReRead (a : Z) (sz : ValueType) (got : list Z)       (* value re-read after validate *)
  | ValClock (k : kont)                                  (* time = get_clock() *)
  | ValEntry (k : kont) (time : Z) (todo : list ReadLogEntry) (got : list Z)
  | CommitCAS
  | WriteBack (expect : Z) (pending : list (Z * Z))
  | Fault.                                               (* a failed assertion *)

Record thread := MkThread { t_tx : Transaction; t_pc : pc; t_evs : list event }.

(** What the user code does next; [junk] is the indeterminate content of a local
    [any_type_t]. *)
Inductive uop :=
  | UBegin
  | URead (a : Z) (sz : ValueType) (junk : any_type_t)
  | UWrite (a : Z) (sz : ValueType) (v : Z) (junk : any_type_t)
  | UCommit.

(** ** Steps *)

Definition is_odd (c : Z) : bool := odd64 c.

(** The value [read_value_from_addr] assembles from the bytes it copied. *)
Definition value_of_bytes (got : list Z) (sz : ValueType) : any_type_t :=
  fill_any_type (AnyT 0) (λ _, got) sz.

(** Copy the next byte at [a]; [inr] when the value is complete. *)
Definition copy_byte (m : mem) (a : Z) (sz : ValueType) (got : list Z) : list Z + any_type_t :=
  let got' := got ++ [mget m (a + Z.of_nat (length got))] in
  if (length got' <? type_size sz)%nat then inl got' else inr (value_of_bytes got' sz).

Definition stay (g : gstate) (t : thread) (p : pc) : label * gstate * thread :=
  (LTau, g, MkThread (t_tx t) p (t_evs t)).

(** One iteration of the loop of [begin]. *)
Definition begin_step (i : nat) (g : gstate) (t : thread) : label * gstate * thread :=
  let clk := global_lock g in
  if is_odd clk then stay g t Begin
  else (LBegin i, g, MkThread (begin_with (t_tx t) clk) Running []).

(** [abort_tx]; the jump lands in the retry loop, which begins again. *)
Definition abort_tx (i : nat) (g : gstate) (t : thread) : label * gstate * thread :=
  (LAbort i (t_evs t),
   MkG (g_mem g) (global_lock g) (wrap64 (g_tm_abort_count g + 1)),
   MkThread (abort_local (t_tx t)) Begin []).

(** Return of [validate]: its callers store the result in [tx->snapshot]. *)
Definition validate_return (g : gstate) (t : thread) (k : kont) (time : Z) : label * gstate * thread :=
  let tx := set_snapshot (t_tx t) time in
  match k with
  | KRead a sz => (LTau, g, MkThread tx (ReRead a sz []) (t_evs t))
  | KCommit => (LTau, g, MkThread tx CommitCAS (t_evs t))
  end.

(** [validate]: read the clock, spin while odd, stop at once on an empty read set. *)
Definition validate_clock (g : gstate) (t : thread) (k : kont) : label * gstate * thread :=
  let time := global_lock g in
  if is_odd time then stay g t (ValClock k)
  else match read_set (t_tx t) with
       | [] => validate_return g t k time
       | rs => stay g t (ValEntry k time rs [])
       end.

(** [validate]: compare the read set with memory, then re-check the clock. *)
Definition validate_entry (i : nat) (g : gstate) (t : thread) (k : kont) (time : Z)
    (todo : list ReadLogEntry) (got : list Z) : label * gstate * thread :=
  match todo with
  | [] => if time =? global_lock g then validate_return g t k time else stay g t (ValClock k)
  | r :: todo' =>
      match copy_byte (g_mem g) (r_addr r) (r_type r) got with
      | inl got' => stay g t (ValEntry k time todo got')
      | inr check_val =>
          if iseq check_val (observed_val r) then stay g t (ValEntry k time todo' [])
          else abort_tx i g t
      end
  end.

(** [read_word_norec] as called by the user code, up to the first clock read. *)
Definition read_word_start (on_stack : Z → bool) (g : gstate) (t : thread)
    (a : Z) (sz : ValueType) (junk : any_type_t) : label * gstate * thread :=
  let finish v := (LTau, g, MkThread (t_tx t) Running (t_evs t ++ [EvR a sz (tm_read sz v)])) in
  match ws_lookup junk (write_set (t_tx t)) a sz with
  | WsHit v => finish v
  | WsAssert => stay g t Fault
  | WsMiss =>
      if (a =? 0) || (a <? LOW_ADDR) then finish (AnyT 0)
      else if on_stack a then finish (AnyT 0)
      else stay g t (ReadClock a sz)
  end.

(** The double-checked read. *)
Definition read_clock (g : gstate) (t : thread) (a : Z) (sz : ValueType) : label * gstate * thread :=
  if is_odd (global_lock g) then stay g t (ReadClock a sz)
  else stay g t (ReadBytes a sz (global_lock g) []).

Definition read_after (g : gstate) (t : thread) (a : Z) (sz : ValueType) (before : Z) (v : any_type_t)
    : label * gstate * thread :=
  if global_lock g =? before
  then if ptr_assert sz v then stay g t (ReadSnap a sz v) else stay g t Fault
  else stay g t (ReadClock a sz).

(** After a re-validation the value is read again; an oversized read set aborts. *)
Definition reread_done (i : nat) (g : gstate) (t : thread) (a : Z) (sz : ValueType) (v : any_type_t)
    : label * gstate * thread :=
  if negb (ptr_assert sz v) then stay g t Fault
  else if bool_decide (Z.of_nat (length (read_set (t_tx t))) > 1000000) then abort_tx i g t
  else stay g t (ReadSnap a sz v).

(** Loop head on [tx->snapshot != get_clock()]; on exit the read is logged. *)
Definition read_snap (g : gstate) (t : thread) (a : Z) (sz : ValueType) (v : any_type_t)
    : label * gstate * thread :=
  if snapshot (t_tx t) =? global_lock g
  then (LTau, g, MkThread (push_read (t_tx t) (MkRead sz a (snapshot (t_tx t)) v)) Running
                   (t_evs t ++ [EvR a sz (tm_read sz v)]))
  else stay g t (ValClock (KRead a sz)).

Definition write_step (on_stack : Z → bool) (g : gstate) (t : thread)
    (a : Z) (sz : ValueType) (v : Z) (junk : any_type_t) : label * gstate * thread :=
  match tm_write on_stack junk (g_mem g) (t_tx t) a v sz with
  | None => stay g t Fault
  | Some (m', tx') =>
      (LTau, MkG m' (global_lock g) (g_tm_abort_count g),
       MkThread tx' Running (t_evs t ++ [EvW a sz v]))
  end.

(** [commit]: a read-only transaction returns at once. *)
Definition commit_start (i : nat) (g : gstate) (t : thread) : label * gstate * thread :=
  if read_only (t_tx t)
  then (LCommit i (t_evs t), g, MkThread (reset (t_tx t)) Idle [])
  else stay g t CommitCAS.

(** [commit]: compare-and-swap the clock from the snapshot to its successor. *)
Definition commit_cas (g : gstate) (t : thread) : label * gstate * thread :=
  let expect := snapshot (t_tx t) in
  if global_lock g =? expect
  then (LTau, MkG (g_mem g) (wrap64 (expect + 1)) (g_tm_abort_count g),
        MkThread (t_tx t) (WriteBack expect (writeback_stores (write_set (t_tx t)))) (t_evs t))
  else stay g t (ValClock KCommit).

(** [commit]: write back byte by byte, then release the clock at [expect + 2]. *)
Definition commit_writeback (i : nat) (g : gstate) (t : thread) (expect : Z) (pending : list (Z * Z))
    : label * gstate * thread :=
  match pending with
  | (a, b) :: pending' =>
      (LTau, MkG (<[a := b]> (g_mem g)) (global_lock g) (g_tm_abort_count g),
       MkThread (t_tx t) (WriteBack expect pending') (t_evs t))
  | [] =>
      (LCommit i (t_evs t), MkG (g_mem g) (wrap64 (expect + 2)) (g_tm_abort_count g),
       MkThread (reset (t_tx t)) Idle [])
  end.

(** One step of thread [i]; [None] when the operation does not apply there. *)
Definition tstep (on_stack : Z → bool) (op : uop) (i : nat) (g : gstate) (t : thread)
    : option (label * gstate * thread) :=
  match t_pc t, op with
  | Idle, UBegin => Some (stay g t Begin)
  | Idle, _ => None
  | Running, URead a sz junk => Some (read_word_start on_stack g t a sz junk)
  | Running, UWrite a sz v junk => Some (write_step on_stack g t a sz v junk)
  | Running, UCommit => Some (commit_start i g t)
  | Running, UBegin => None
  | Begin, _ => Some (begin_step i g t)
  | ReadClock a sz, _ => Some (read_clock g t a sz)
  | ReadBytes a sz before got, _ =>
      Some (match copy_byte (g_mem g) a sz got with
            | inl got' => stay g t (ReadBytes a sz before got')
            | inr v => stay g t (ReadAfter a sz before v)
            end)
  | ReadAfter a sz before v, _ => Some (read_after g t a sz before v)
  | ReadSnap a sz v, _ => Some (read_snap g t a sz v)
  | ReRead a sz got, _ =>
      Some (match copy_byte (g_mem g) a sz got with
            | inl got' => stay g t (ReRead a sz got')
            | inr v => reread_done i g t a sz v
            end)
  | ValClock k, _ => Some (validate_clock g t k)
  | ValEntry k time todo got, _ => Some (validate_entry i g t k time todo got)
  | CommitCAS, _ => Some (commit_cas g t)
  | WriteBack expect pending, _ => Some (commit_writeback i g t expect pending)
  | Fault, _ => None
  end.

Record sys := MkSys { s_g : gstate; s_thr : list thread }.

(** The user operations a disciplined program performs. *)
Definition uop_ok (acc : Z → ValueType → Prop) (op : uop) : Prop :=
  match op with
  | URead a sz _ | UWrite a sz _ _ => acc a sz
  | UBegin | UCommit => True
  end.

Inductive sys_step (acc : Z → ValueType → Prop) (on_stack : nat → Z → bool) : sys → label → sys → Prop :=
  | sys_step_intro s i t op l g' t' :
      s_thr s !! i = Some t → uop_ok acc op →
      tstep (on_stack i) op i (s_g s) t = Some (l, g', t') →
      sys_step acc on_stack s l (MkSys g' (<[i := t']> (s_thr s))).

(** [init]: the clock starts at 0; threads have not begun. *)
Definition norec_initial (m : mem) (s : sys) : Prop :=
  g_mem (s_g s) = m ∧ global_lock (s_g s) = 0 ∧ Forall (λ t, t_pc t = Idle) (s_thr s).

(** ** Running a schedule

    The executable counterpart of [sys_step]: at each entry the named thread takes
    one step. *)
Fixpoint run (on_stack : nat → Z → bool) (sched : list (nat * uop)) (s : sys) : option (list label * sys) :=
  match sched with
  | [] => Some ([], s)
  | (i, op) :: sched' =>
      match s_thr s !! i with
      | Some t =>
          match tstep (on_stack i) op i (s_g s) t with
          | Some (l, g', t') =>
              match run on_stack sched' (MkSys g' (<[i := t']> (s_thr s))) with
              | Some (tr, s') => Some (l :: tr, s')
              | None => None
              end
          | None => None
          end
      | None => None
      end
  end.

Lemma run_exec acc on_stack sched s tr s' :
  Forall (λ io, uop_ok acc io.2) sched → run on_stack sched s = Some (tr, s') →
  exec (sys_step acc on_stack) s tr s'.
Proof.
  revert s tr s'. induction sched as [|[i op] sched IH]; intros s tr s' Hok Hr; simpl in Hr.
  - simplify_eq. constructor.
  - apply Forall_cons in Hok as [Hop Hok].
    destruct (s_thr s !! i) as [t|] eqn:Ei; [|done].
    destruct (tstep (on_stack i) op i (s_g s) t) as [[[l g'] t']|] eqn:Et; [|done].
    destruct (run on_stack sched _) as [[tr' s1]|] eqn:Er; [|done]. simplify_eq.
    eapply exec_cons; [by econstructor|]. by apply IH.
Qed.

(** A discipline: aligned 64-bit words. *)
Definition word_acc (a : Z) (sz : ValueType) : Prop :=
  sz = UINT64 ∧ LOW_ADDR ≤ a < 2 ^ 47 ∧ a mod 8 = 0.

#[export] Instance word_discipline : Discipline word_acc.
Proof.
  split.
  - intros a t a' t' (-> & _ & Ha) (-> & _ & Ha'). unfold coherent_acc, disjoint_acc, compat_type. simpl.
    destruct (decide (a = a')); [by left; auto|right].
    pose proof (Z.div_mod a 8). pose proof (Z.div_mod a' 8). lia.
  - by intros a t (_ & ? & _).
Qed.

(** ** Stack addresses *)

(** Stack addresses are written through but read as zero.  A transactional write
    to an address of the thread's own stack stores to memory at once; the read that
    follows returns 0, not the value stored. *)
Theorem norec_stack_read_zero on_stack g t a sz v junk junk' :
  bad_write_addr a = false → on_stack a = true →
  ws_lookup junk' (write_set (t_tx t)) a sz = WsMiss →
  ∃ g' t', write_step on_stack g t a sz v junk = (LTau, g', t') ∧
    return_any_type sz (read_value_from_addr (g_mem g') a sz) = wrap (8 * Z.of_nat (type_size sz)) v ∧
    read_word_start on_stack g' t' a sz junk' =
      (LTau, g', MkThread (t_tx t') Running (t_evs t' ++ [EvR a sz 0])).
Proof.
  intros Hb Hs Hl. unfold write_step, tm_write, write_word_norec. rewrite Hb, Hs. eexists _, _.
  split; [reflexivity|]. simpl. split.
  - rewrite read_write_same by done. unfold return_any_type. pose proof (type_size_range sz).
    rewrite any_get_wrap by lia. simpl u8. unfold wrap. rewrite Z.mod_mod by lia.
    pose proof (return_fill_any_type junk v sz) as Hr. unfold return_any_type in Hr.
    by rewrite any_get_wrap in Hr by lia.
  - unfold read_word_start. simpl. rewrite Hl, Hs. destruct ((a =? 0) || (a <? LOW_ADDR)) eqn:E.
    + unfold bad_write_addr in Hb. by rewrite E in Hb.
    + by destruct sz.
Qed.

Lemma norec_stack_read_zero_witness :
  ∃ g' t', write_step (λ _, true) (MkG ∅ 0 0) (MkThread new_Transaction Running []) 0x100000 UINT64 5 (AnyT 0) = (LTau, g', t') ∧
    return_any_type UINT64 (read_value_from_addr (g_mem g') 0x100000 UINT64) = 5 ∧
    read_word_start (λ _, true) g' t' 0x100000 UINT64 (AnyT 0) =
      (LTau, g', MkThread (t_tx t') Running (t_evs t' ++ [EvR 0x100000 UINT64 0])).
Proof.
  exact (norec_stack_read_zero (λ _, true) (MkG ∅ 0 0) (MkThread new_Transaction Running [])
    0x100000 UINT64 5 (AnyT 0) (AnyT 0) eq_refl eq_refl eq_refl).
Defined.
