(* ===== verification/NOrecOpaque.v ===== *)
(** * NOrec is opaque

    The simulation between the interleaved executions of NOrecConc.v and the
    abstract transactional memory.  The invariant keeps, for every running
    transaction, the committed memory its snapshot names and the fact that its read
    set matches that memory; what a thread has copied so far is only claimed as
    long as the clock it read has not moved, which is what makes torn reads
    harmless. *)

From S2P Require Import Prelude Memory Values TMSpec NOrec NOrecConc.
#[local] Open Scope Z_scope.

(** ** Transaction-local invariant *)

Definition rs_match (m : mem) (rs : list ReadLogEntry) : Prop :=
  Forall (λ r, read_value_from_addr m (r_addr r) (r_type r) = observed_val r) rs.

Section Opacity.
Context (acc : Z → ValueType → Prop) `{!Discipline acc}.
Context (on_stack : nat → Z → bool).
Context (acc_off_stack : ∀ i a sz, acc a sz → on_stack i a = false).

(** The events performed so far replay on every memory that agrees with the read
    set, and lead to that memory with the write set applied. *)
Definition local_ok (tx : Transaction) (evs : list event) : Prop :=
  ws_wf acc (write_set tx) ∧
  (∀ m, rs_match m (read_set tx) → replay m evs = Some (apply_ws (write_set tx) m)) ∧
  (read_only tx = true → write_set tx = []).

(** A read in progress missed the write set. *)
Definition missed (tx : Transaction) (a : Z) (sz : ValueType) : Prop :=
  acc a sz ∧ ∃ junk, ws_lookup junk (write_set tx) a sz = WsMiss.

Lemma local_begin tx clk : local_ok (begin_with tx clk) [].
Proof. split; [split; constructor|]. split; [done|done]. Qed.

Lemma local_hit tx evs junk a sz v :
  local_ok tx evs → acc a sz → ws_lookup junk (write_set tx) a sz = WsHit v →
  local_ok tx (evs ++ [EvR a sz (tm_read sz v)]).
Proof.
  intros (Hw & Hr & Ho) Ha Hl. split; [done|]. split; [|done]. intros m Hm.
  apply replay_snoc_read; [by apply Hr|]. symmetry. by eapply ws_lookup_hit.
Qed.

Lemma local_miss tx evs a sz ver v :
  local_ok tx evs → missed tx a sz →
  local_ok (push_read tx (MkRead sz a ver v)) (evs ++ [EvR a sz (tm_read sz v)]).
Proof.
  intros (Hw & Hr & Ho) (Ha & junk & Hl). split; [done|]. split; [|done]. intros m Hm.
  simpl in Hm. apply Forall_app in Hm as [Hm Hv]. apply Forall_cons in Hv as [Hv _]. simpl in *.
  apply replay_snoc_read; [by apply Hr|].
  rewrite (ws_lookup_miss acc junk) by done. by rewrite Hv.
Qed.

Lemma write_value_fill m a v sz junk :
  write_value_to_addr m a (fill_any_type junk (λ n, le_bytes n v) sz) sz =
  write_value_to_addr m a (AnyT v) sz.
Proof.
  unfold write_value_to_addr, value_stores, fill_any_type. pose proof (type_size_range sz).
  rewrite (any_store_le _ (AnyT v)) by lia. simpl u8.
  rewrite <- (length_le_bytes (type_size sz) v) at 1.
  by rewrite any_store_setp; [|auto with tmdb|rewrite length_le_bytes; lia].
Qed.

Lemma local_write tx evs os m m' tx' junk a sz v :
  local_ok tx evs → acc a sz → os a = false →
  tm_write os junk m tx a v sz = Some (m', tx') →
  m' = m ∧ local_ok tx' (evs ++ [EvW a sz v]) ∧
  read_set tx' = read_set tx ∧ snapshot tx' = snapshot tx.
Proof.
  intros (Hw & Hr & Ho) Ha Hos Hwr.
  apply (write_word_apply acc) in Hwr as (-> & Hw' & Hap & Hrs & Hsn & _ & Hro & _); try done.
  split; [done|]. split; [|done]. split; [done|]. split; [|by rewrite Hro].
  intros m0 Hm0. rewrite Hrs in Hm0. rewrite Hap, write_value_fill.
  apply replay_snoc_write. by apply Hr.
Qed.

(** ** Program-point invariant, relative to the clock and the memory *)

Definition copying (lock : Z) (m : mem) (c : Z) (a : Z) (sz : ValueType) (got : list Z) : Prop :=
  (length got < type_size sz)%nat ∧ (lock = c → got = load_bytes m a (length got)).

Definition kont_ok (tx : Transaction) (k : kont) : Prop :=
  match k with KRead a sz => missed tx a sz | KCommit => read_only tx = false end.

Definition pc_ok (lock : Z) (m : mem) (tx : Transaction) (p : pc) : Prop :=
  match p with
  | ReadClock a sz => missed tx a sz
  | ReadBytes a sz before got =>
      missed tx a sz ∧ is_odd before = false ∧ before ≤ lock ∧ copying lock m before a sz got
  | ReadAfter a sz before v =>
      missed tx a sz ∧ is_odd before = false ∧ before ≤ lock ∧
      (lock = before → v = read_value_from_addr m a sz)
  | ReadSnap a sz v =>
      missed tx a sz ∧ (lock = snapshot tx → v = read_value_from_addr m a sz)
  | ReRead a sz got => missed tx a sz ∧ copying lock m (snapshot tx) a sz got
  | ValClock k => kont_ok tx k
  | ValEntry k time todo got =>
      kont_ok tx k ∧ is_odd time = false ∧ snapshot tx ≤ time ≤ lock ∧
      (∃ done, read_set tx = done ++ todo ∧ (lock = time → rs_match m done)) ∧
      match todo with
      | r :: _ => copying lock m time (r_addr r) (r_type r) got
      | [] => True
      end
  | CommitCAS => read_only tx = false
  | WriteBack expect _ => expect = snapshot tx ∧ read_only tx = false
  | Idle | Begin | Running | Fault => True
  end.

(** What other threads may do: the clock never goes back, and memory does not
    change under an unchanged even clock. *)
Definition env (lock : Z) (m : mem) (lock' : Z) (m' : mem) : Prop :=
  lock ≤ lock' ∧ (lock' = lock → is_odd lock = false → m' = m).

Lemma copying_stable lock m lock' m' c a sz got :
  env lock m lock' m' → is_odd c = false → c ≤ lock →
  copying lock m c a sz got → copying lock' m' c a sz got.
Proof.
  intros [Hle Hm] Hc Hcl [Hlen Hg]. split; [done|]. intros ->.
  assert (lock = c) as -> by lia. rewrite Hm by done. auto.
Qed.

Lemma pc_ok_stable lock m lock' m' tx p :
  env lock m lock' m' → is_odd (snapshot tx) = false → snapshot tx ≤ lock →
  pc_ok lock m tx p → pc_ok lock' m' tx p.
Proof.
  intros He Hs Hsl. pose proof He as [Hle Hm]. destruct p; simpl; try done.
  - intros (? & ? & ? & ?). split_and!; [done|done|lia|]. by eapply copying_stable.
  - intros (? & ? & ? & Hv). split_and!; [done|done|lia|]. intros ->.
    assert (lock = before) by lia. rewrite Hm by congruence. auto.
  - intros (? & Hv). split; [done|]. intros ->. assert (lock = snapshot tx) by lia.
    rewrite Hm by congruence. auto.
  - intros (? & ?). split; [done|]. by eapply copying_stable.
  - intros (? & ? & [? Htl] & (dn & Hrs & Hd) & Ht). split; [done|]. split; [done|]. split; [lia|]. split.
    + exists dn. split; [done|]. intros ->. assert (lock = time) by lia.
      rewrite Hm by congruence. auto.
    + destruct todo; [done|]. by eapply copying_stable.
Qed.

Lemma copy_byte_inl lock m c a sz got got' :
  copying lock m c a sz got → copy_byte m a sz got = inl got' → copying lock m c a sz got'.
Proof.
  intros [Hlen Hg] Hc. unfold copy_byte in Hc. case_match eqn:El; simplify_eq.
  apply Nat.ltb_lt in El. split; [done|]. intros Hl. rewrite length_app. simpl.
  rewrite Nat.add_1_r, load_bytes_snoc, <- Hg by done. done.
Qed.

Lemma copy_byte_inr lock m c a sz got v :
  copying lock m c a sz got → copy_byte m a sz got = inr v →
  lock = c → v = read_value_from_addr m a sz.
Proof.
  intros [Hlen Hg] Hc Hl. unfold copy_byte in Hc. case_match eqn:El; simplify_eq.
  apply Nat.ltb_ge in El. rewrite length_app in El. simpl in El.
  unfold value_of_bytes, read_value_from_addr, fill_any_type. simpl.
  rewrite (Hg eq_refl) at 1. rewrite <- load_bytes_snoc. f_equal. f_equal. lia.
Qed.

Lemma copying_start lock m c a sz : copying lock m c a sz [].
Proof. split; [|done]. simpl. pose proof (type_size_range sz). lia. Qed.

(** ** Invariant of the system against the abstract machine *)

(** A running transaction: its snapshot names a committed memory not older than its
    begin, with which its read set agrees. *)
Definition tx_ok (a : spec_state) (i : nat) (tx : Transaction) (evs : list event) : Prop :=
  local_ok tx evs ∧
  ∃ k b m, snapshot tx = 2 * Z.of_nat k ∧ start a !! i = Some b ∧ (b ≤ k)%nat ∧
           hist a !! k = Some m ∧ rs_match m (read_set tx).

Definition live (p : pc) : Prop :=
  match p with Idle | Begin | Fault => False | _ => True end.

Definition writer (t : thread) : Prop :=
  match t_pc t with WriteBack _ _ => True | _ => False end.

Definition thread_ok (a : spec_state) (lock : Z) (m : mem) (i : nat) (t : thread) : Prop :=
  live (t_pc t) → tx_ok a i (t_tx t) (t_evs t) ∧ pc_ok lock m (t_tx t) (t_pc t).

(** The clock is even and memory is the newest committed memory, or it is odd, one
    thread is writing back, and what it still has to store completes its
    transaction. *)
Inductive mem_state (g : gstate) (thr : list thread) (n : nat) (m : mem) : Prop :=
  | mem_free :
      global_lock g = 2 * Z.of_nat n → g_mem g = m →
      (∀ j t, thr !! j = Some t → ¬ writer t) → mem_state g thr n m
  | mem_locked i t pending :
      global_lock g = 2 * Z.of_nat n + 1 → thr !! i = Some t →
      t_pc t = WriteBack (2 * Z.of_nat n) pending →
      wr (g_mem g) pending = apply_ws (write_set (t_tx t)) m →
      (∀ j t', thr !! j = Some t' → writer t' → j = i) → mem_state g thr n m.

Definition Inv (s : sys) (a : spec_state) : Prop :=
  ∃ n m, length (hist a) = S n ∧ 2 * Z.of_nat n + 2 < 2 ^ 64 ∧ hist a !! n = Some m ∧
    mem_state (s_g s) (s_thr s) n m ∧
    ∀ i t, s_thr s !! i = Some t →
      thread_ok a (global_lock (s_g s)) (g_mem (s_g s)) i t.

Lemma is_odd_even z : is_odd (2 * z) = false.
Proof.
  unfold is_odd, odd64. change 1 with (Z.ones 1). rewrite Z.land_ones by lia.
  change (2 ^ 1) with 2. rewrite Z.mul_comm, Z.mod_mul by lia. done.
Qed.

Lemma is_odd_odd z : is_odd (2 * z + 1) = true.
Proof.
  unfold is_odd, odd64. change 1 with (Z.ones 1) at 2. rewrite Z.land_ones by lia.
  change (2 ^ 1) with 2. rewrite Z.add_comm, Z.mul_comm, Z.mod_add by lia. done.
Qed.

Lemma mem_state_range g thr n m :
  mem_state g thr n m → 2 * Z.of_nat n ≤ global_lock g ≤ 2 * Z.of_nat n + 1.
Proof. intros [|]; lia. Qed.

(** With an even clock, memory is the newest committed memory. *)
Lemma mem_state_even g thr n m :
  mem_state g thr n m → is_odd (global_lock g) = false →
  global_lock g = 2 * Z.of_nat n ∧ g_mem g = m.
Proof.
  intros [|? ? ? Hl] Ho; [done|]. rewrite Hl, is_odd_odd in Ho. done.
Qed.

Lemma tx_ok_snapshot a i tx evs n :
  tx_ok a i tx evs → length (hist a) = S n →
  is_odd (snapshot tx) = false ∧ snapshot tx ≤ 2 * Z.of_nat n.
Proof.
  intros (_ & k & b & m & -> & _ & _ & Hk & _) Hn. split; [apply is_odd_even|].
  apply lookup_lt_Some in Hk. lia.
Qed.

Lemma tx_ok_mono a a' i tx evs h :
  hist a' = hist a ++ h → start a' !! i = start a !! i →
  tx_ok a i tx evs → tx_ok a' i tx evs.
Proof.
  intros Hh Hs (Hl & k & b & m & ? & ? & ? & ? & ?). split; [done|].
  exists k, b, m. rewrite Hh, Hs. split_and!; try done. by apply lookup_app_l_Some.
Qed.

Lemma thread_ok_stable a a' h lock m lock' m' i t n :
  env lock m lock' m' → 2 * Z.of_nat n ≤ lock → length (hist a) = S n →
  hist a' = hist a ++ h → start a' !! i = start a !! i →
  thread_ok a lock m i t → thread_ok a' lock' m' i t.
Proof.
  intros He Hlk Hn Hh Hs Hok Hlive. destruct (Hok Hlive) as [Htx Hpc].
  destruct (tx_ok_snapshot _ _ _ _ _ Htx Hn) as [Ho Hle].
  split; [by eapply tx_ok_mono|]. eapply pc_ok_stable; [done|done| |done]. lia.
Qed.

(** ** Steps that change neither memory nor the clock *)

Definition sim_local (a : spec_state) (i : nat) (g : gstate) (res : label * gstate * thread) : Prop :=
  let '(l, g', t') := res in
  g_mem g' = g_mem g ∧ global_lock g' = global_lock g ∧ ¬ writer t' ∧
  ∃ a', spec_step a l a' ∧ hist a' = hist a ∧ (∀ j, j ≠ i → start a' !! j = start a !! j) ∧
        thread_ok a' (global_lock g) (g_mem g) i t'.

Lemma Inv_local s a i t l g' t' :
  Inv s a → s_thr s !! i = Some t → ¬ writer t → sim_local a i (s_g s) (l, g', t') →
  ∃ a', spec_step a l a' ∧ Inv (MkSys g' (<[i := t']> (s_thr s))) a'.
Proof.
  intros (n & m & Hn & Hb & Hm & Hst & Hthr) Hi Hw (Hg & Hlk & Hw' & a' & Hsp & Hh & Hs & Hok).
  exists a'. split; [done|]. exists n, m. simpl. rewrite Hh, Hg, Hlk. split_and!; [done..| |].
  - assert (∀ j u, <[i:=t']> (s_thr s) !! j = Some u → writer u → s_thr s !! j = Some u) as Hold.
    { intros j u Hu Hwu. apply list_lookup_insert_Some in Hu as [(-> & -> & _)|[_ ?]]; done. }
    destruct Hst as [Hl Hmm Hno|k u pending Hl Hk Hpc Hwr Huniq].
    + apply mem_free; [congruence|congruence|]. intros j u Hu Hwu.
      exact (Hno j u (Hold _ _ Hu Hwu) Hwu).
    + assert (k ≠ i) by (intros ->; simplify_eq; unfold writer in Hw; by rewrite Hpc in Hw).
      eapply (mem_locked _ _ _ _ k u pending); [congruence| |done|simpl; congruence|eauto].
      by rewrite list_lookup_insert_ne.
  - intros j u Hu. simpl in *. apply list_lookup_insert_Some in Hu as [(-> & -> & _)|[Hne Hu]]; [done|].
    apply (thread_ok_stable a a' [] (global_lock (s_g s)) (g_mem (s_g s)) _ _ j u n);
      [by split|apply mem_state_range in Hst; lia|done|by rewrite app_nil_r|by apply Hs|auto].
Qed.

(** A step that only moves the program point. *)
Lemma sim_stay a i g t p :
  (match p with WriteBack _ _ => False | _ => True end) →
  thread_ok a (global_lock g) (g_mem g) i (MkThread (t_tx t) p (t_evs t)) →
  sim_local a i g (stay g t p).
Proof.
  intros Hp Hok. unfold stay. split_and!; [done|done|unfold writer; simpl; destruct p; tauto|].
  exists a. split_and!; [constructor|done|done|done].
Qed.

Lemma sim_abort a i g t :
  tx_ok a i (t_tx t) (t_evs t) → sim_local a i g (abort_tx i g t).
Proof.
  intros (Hl & k & b & m & ? & ? & ? & ? & Hrs). split_and!; [done|done|by intros []|].
  exists a. split_and!; [|done|done|by intros []].
  destruct Hl as (_ & Hr & _). eapply spec_abort; eauto.
Qed.

(** [validate] returned [time]: the snapshot moves to it. *)
Lemma tx_ok_revalidate a i tx evs n m time :
  tx_ok a i tx evs → length (hist a) = S n → hist a !! n = Some m →
  time = 2 * Z.of_nat n → rs_match m (read_set tx) →
  tx_ok a i (set_snapshot tx time) evs.
Proof.
  intros (Hl & k & b & m' & ? & ? & ? & Hk & _) Hn Hm -> Hrs. split; [done|].
  exists n, b, m. split_and!; try done. apply lookup_lt_Some in Hk. lia.
Qed.

Lemma sim_validate_return a i g t k n m :
  tx_ok a i (t_tx t) (t_evs t) → kont_ok (t_tx t) k → length (hist a) = S n →
  hist a !! n = Some m → global_lock g = 2 * Z.of_nat n →
  rs_match m (read_set (t_tx t)) →
  sim_local a i g (validate_return g t k (global_lock g)).
Proof.
  intros Htx Hk Hn Hm Hlk Hrs. pose proof (tx_ok_revalidate _ _ _ _ _ _ _ Htx Hn Hm Hlk Hrs) as Hok.
  unfold validate_return.
  destruct k; (split_and!; [done|done|by intros []|]); exists a;
    (split_and!; [constructor|done|done|]); intros _; (split; [done|]); simpl in *; [|done].
  split; [done|]. apply copying_start.
Qed.

Section OneStep.
Context (a : spec_state) (n : nat) (m : mem) (g : gstate) (thr : list thread) (i : nat) (t : thread).
Context (Hn : length (hist a) = S n) (Hm : hist a !! n = Some m).
Context (Hst : mem_state g thr n m).
Context (Hok : thread_ok a (global_lock g) (g_mem g) i t).

Lemma sim_begin : sim_local a i g (begin_step i g t).
Proof.
  unfold begin_step. destruct (is_odd (global_lock g)) eqn:Ho.
  { apply sim_stay; [done|]. by intros []. }
  destruct (mem_state_even _ _ _ _ Hst Ho) as [Hlk Hg].
  split_and!; [done|done|by intros []|]. eexists. split_and!; [constructor|done| |].
  - intros j Hj. simpl. by rewrite lookup_insert_ne.
  - intros _. split; [|done]. split; [apply local_begin|].
    exists n, n, m. simpl. rewrite lookup_insert_eq, Hn. split_and!; try done.
    constructor.
Qed.

(** From here on the thread has a running transaction. *)
Context (Hlive : live (t_pc t)).

Lemma live_tx : tx_ok a i (t_tx t) (t_evs t).
Proof. by apply Hok. Qed.

Lemma live_pc p : t_pc t = p → pc_ok (global_lock g) (g_mem g) (t_tx t) p.
Proof. intros <-. by apply Hok. Qed.

Lemma sim_stay_live p :
  (match p with WriteBack _ _ => False | _ => True end) →
  pc_ok (global_lock g) (g_mem g) (t_tx t) p → sim_local a i g (stay g t p).
Proof.
  intros Hp Hpc. apply sim_stay; [done|]. intros _. split; [apply live_tx|done].
Qed.

Lemma sim_read_start sz addr junk :
  acc addr sz → sim_local a i g (read_word_start (on_stack i) g t addr sz junk).
Proof.
  intros Ha. unfold read_word_start.
  destruct (ws_lookup junk (write_set (t_tx t)) addr sz) eqn:El.
  - split_and!; [done|done|by intros []|]. exists a. split_and!; [constructor|done|done|].
    intros _. split; [|done]. destruct live_tx as [Hl ?]. split; [|done]. by eapply local_hit.
  - by apply sim_stay_live.
  - pose proof (acc_range _ _ Ha) as Hr. unfold LOW_ADDR in *.
    rewrite (proj2 (Z.eqb_neq addr 0)), (proj2 (Z.ltb_ge addr 0x100000)) by lia.
    rewrite (acc_off_stack i addr sz Ha). simpl. apply sim_stay_live; [done|].
    split; [done|eauto].
Qed.

Lemma sim_write sz addr v junk :
  acc addr sz → sim_local a i g (write_step (on_stack i) g t addr sz v junk).
Proof.
  intros Ha. unfold write_step.
  destruct (tm_write (on_stack i) junk (g_mem g) (t_tx t) addr v sz) as [[m' tx']|] eqn:Ew;
    [|by apply sim_stay_live].
  destruct live_tx as [Hl (k & b & mk & ? & ? & ? & ? & ?)].
  destruct (local_write _ _ _ _ _ _ _ _ _ _ Hl Ha (acc_off_stack i _ _ Ha) Ew) as (-> & Hl' & Hrs & Hsn).
  split_and!; [done|done|by intros []|]. exists a. split_and!; [constructor|done|done|].
  intros _. split; [|done]. split; [done|]. exists k, b, mk. simpl. by rewrite Hrs, Hsn.
Qed.

Lemma sim_commit_start : sim_local a i g (commit_start i g t).
Proof.
  unfold commit_start. destruct (read_only (t_tx t)) eqn:Ero; [|by apply sim_stay_live].
  split_and!; [done|done|by intros []|].
  destruct live_tx as [(_ & Hr & Hro) (k & b & mk & ? & ? & ? & ? & Hrs)].
  exists a. split_and!; [|done|done|by intros []].
  eapply spec_commit_read_only; [done..|]. rewrite Hr by done. by rewrite Hro.
Qed.

Lemma sim_read_clock addr sz :
  t_pc t = ReadClock addr sz → sim_local a i g (read_clock g t addr sz).
Proof.
  intros Hp%live_pc. unfold read_clock.
  destruct (is_odd (global_lock g)) eqn:Ho; apply sim_stay_live; try done.
  simpl in *. split_and!; [done|done|lia|]. apply copying_start.
Qed.

Lemma sim_read_bytes addr sz before got :
  t_pc t = ReadBytes addr sz before got →
  sim_local a i g match copy_byte (g_mem g) addr sz got with
                  | inl got' => stay g t (ReadBytes addr sz before got')
                  | inr v => stay g t (ReadAfter addr sz before v)
                  end.
Proof.
  intros (? & ? & ? & Hc)%live_pc.
  destruct (copy_byte (g_mem g) addr sz got) eqn:Ec; apply sim_stay_live; try done.
  - simpl. split_and!; try done. by eapply copy_byte_inl.
  - simpl. split_and!; try done. by eapply copy_byte_inr.
Qed.

Lemma sim_read_after addr sz before v :
  t_pc t = ReadAfter addr sz before v → sim_local a i g (read_after g t addr sz before v).
Proof.
  intros (? & ? & ? & Hv)%live_pc. unfold read_after.
  destruct (Z.eqb_spec (global_lock g) before); [|by apply sim_stay_live].
  destruct (ptr_assert sz v); apply sim_stay_live; try done. simpl. auto.
Qed.

Lemma sim_read_snap addr sz v :
  t_pc t = ReadSnap addr sz v → sim_local a i g (read_snap g t addr sz v).
Proof.
  intros (Hmiss & Hv)%live_pc. unfold read_snap.
  destruct (Z.eqb_spec (snapshot (t_tx t)) (global_lock g)) as [E|E]; [|by apply sim_stay_live].
  split_and!; [done|done|by intros []|]. exists a. split_and!; [constructor|done|done|].
  intros _. split; [|done]. pose proof live_tx as Htx.
  destruct (tx_ok_snapshot _ _ _ _ _ Htx Hn) as [Ho _]. rewrite E in Ho.
  destruct (mem_state_even _ _ _ _ Hst Ho) as [Hlk Hg].
  destruct Htx as [Hl (k & b & mk & Hsn & ? & ? & Hk & Hrs)]. split; [by apply local_miss|].
  assert (k = n) as -> by lia. simplify_eq. exists n, b, (g_mem g). split_and!; try done.
  simpl. apply Forall_app. split; [done|]. apply Forall_cons. simpl. split; [|done].
  symmetry. by apply Hv.
Qed.

Lemma sim_reread addr sz got :
  t_pc t = ReRead addr sz got →
  sim_local a i g match copy_byte (g_mem g) addr sz got with
                  | inl got' => stay g t (ReRead addr sz got')
                  | inr v => reread_done i g t addr sz v
                  end.
Proof.
  intros (? & Hc)%live_pc. destruct (copy_byte (g_mem g) addr sz got) eqn:Ec.
  - apply sim_stay_live; [done|]. split; [done|]. by eapply copy_byte_inl.
  - unfold reread_done. destruct (negb _); [by apply sim_stay_live|].
    case_bool_decide; [by apply sim_abort, live_tx|].
    apply sim_stay_live; [done|]. split; [done|]. by eapply copy_byte_inr.
Qed.

Lemma sim_validate_clock k :
  t_pc t = ValClock k → sim_local a i g (validate_clock g t k).
Proof.
  intros Hk%live_pc. unfold validate_clock.
  destruct (is_odd (global_lock g)) eqn:Ho; [by apply sim_stay_live|].
  destruct (mem_state_even _ _ _ _ Hst Ho) as [Hlk Hg]. pose proof live_tx as Htx.
  destruct (tx_ok_snapshot _ _ _ _ _ Htx Hn) as [_ Hle].
  destruct (read_set (t_tx t)) as [|r rs] eqn:Ers.
  - eapply sim_validate_return; try done. rewrite Ers. constructor.
  - apply sim_stay_live; [done|]. simpl. split_and!; try done; try lia.
    + exists []. split; [done|]. intros _. constructor.
    + apply copying_start.
Qed.

Lemma sim_validate_entry k time todo got :
  t_pc t = ValEntry k time todo got → sim_local a i g (validate_entry i g t k time todo got).
Proof.
  intros (Hk & Ho & Hle & (dn & Hrs & Hd) & Hc)%live_pc. destruct todo as [|r todo]; simpl.
  - destruct (Z.eqb_spec time (global_lock g)) as [->|]; [|by apply sim_stay_live].
    destruct (mem_state_even _ _ _ _ Hst Ho) as [Hlk Hg].
    eapply sim_validate_return; [apply live_tx|done..|].
    rewrite Hrs, app_nil_r, <- Hg. by apply Hd.
  - destruct (copy_byte (g_mem g) (r_addr r) (r_type r) got) eqn:Ec.
    + apply sim_stay_live; [done|]. simpl. split_and!; try lia; try done; [by eauto|].
      by eapply copy_byte_inl.
    + destruct (iseq _ _) eqn:Ei; [|by apply sim_abort, live_tx].
      apply sim_stay_live; [done|]. simpl. split_and!; try lia; try done.
      * exists (dn ++ [r]). split; [by rewrite <- app_assoc|]. intros E.
        apply Forall_app. split; [by apply Hd|]. apply Forall_cons. split; [|done].
        rewrite <- (copy_byte_inr _ _ _ _ _ _ _ Hc Ec E).
        unfold iseq in Ei. apply Z.eqb_eq in Ei. destruct a0, (observed_val r). simpl in *. congruence.
      * destruct todo; [done|]. apply copying_start.
Qed.

Lemma sim_commit_cas_fail :
  global_lock g ≠ snapshot (t_tx t) → t_pc t = CommitCAS → sim_local a i g (commit_cas g t).
Proof.
  intros Hne Hp%live_pc. unfold commit_cas. rewrite (proj2 (Z.eqb_neq _ _) Hne).
  by apply sim_stay_live.
Qed.
End OneStep.

(** ** Steps of the committing thread *)

(** Replacing thread [i] keeps the invariant of the others across an allowed change
    of clock and memory. *)
Lemma others_ok s a a' h i t' lock' m' n :
  (∀ j t, s_thr s !! j = Some t → thread_ok a (global_lock (s_g s)) (g_mem (s_g s)) j t) →
  env (global_lock (s_g s)) (g_mem (s_g s)) lock' m' →
  2 * Z.of_nat n ≤ global_lock (s_g s) → length (hist a) = S n →
  hist a' = hist a ++ h → start a' = start a → thread_ok a' lock' m' i t' →
  ∀ j t, <[i := t']> (s_thr s) !! j = Some t → thread_ok a' lock' m' j t.
Proof.
  intros Hthr He Hlk Hn Hh Hs Hi j t Hj.
  apply list_lookup_insert_Some in Hj as [(-> & -> & _)|[Hne Hj]]; [done|].
  apply (thread_ok_stable a a' h (global_lock (s_g s)) (g_mem (s_g s)) _ _ j t n);
    [done|done|done|done|by rewrite Hs|auto].
Qed.

Lemma sim_cas s a i t :
  Inv s a → s_thr s !! i = Some t → t_pc t = CommitCAS →
  global_lock (s_g s) = snapshot (t_tx t) →
  let '(l, g', t') := commit_cas (s_g s) t in
  ∃ a', spec_step a l a' ∧ Inv (MkSys g' (<[i := t']> (s_thr s))) a'.
Proof.
  intros (n & m & Hn & Hb & Hm & Hst & Hthr) Hi Hp Hlk. unfold commit_cas.
  rewrite (proj2 (Z.eqb_eq _ _) Hlk). exists a. split; [constructor|].
  destruct (Hthr _ _ Hi) as [Htx Hpc]; [by rewrite Hp|]. rewrite Hp in Hpc.
  destruct (tx_ok_snapshot _ _ _ _ _ Htx Hn) as [Ho _]. rewrite <- Hlk in Ho.
  destruct (mem_state_even _ _ _ _ Hst Ho) as [Hlk' Hg].
  assert (wrap64 (snapshot (t_tx t) + 1) = 2 * Z.of_nat n + 1) as Hw.
  { rewrite <- Hlk, Hlk'. apply Z.mod_small. lia. }
  assert (∀ j u, s_thr s !! j = Some u → ¬ writer u) as Hno.
  { destruct Hst as [|? ? ? Hl2]; [done|]. lia. }
  exists n, m. simpl. rewrite Hw. split_and!; [done..| |].
  - eapply (mem_locked _ _ _ _ i).
    + done.
    + apply list_lookup_insert_eq. by eapply lookup_lt_Some.
    + simpl. by rewrite <- Hlk, Hlk'.
    + simpl. by rewrite apply_ws_stores, Hg.
    + intros j u Hj Hwj. apply list_lookup_insert_Some in Hj as [(-> & _ & _)|[_ Hj]]; [done|].
      by destruct (Hno _ _ Hj).
  - eapply (others_ok s a a [] i _ _ _ n); [done| |lia|done|by rewrite app_nil_r|done|].
    + split; [lia|]. intros; lia.
    + intros _. split; [done|]. by split.
Qed.

(** The thread found writing back is the one the invariant speaks of. *)
Lemma writer_state g thr n m i t e pending :
  mem_state g thr n m → thr !! i = Some t → t_pc t = WriteBack e pending →
  global_lock g = 2 * Z.of_nat n + 1 ∧ e = 2 * Z.of_nat n ∧
  wr (g_mem g) pending = apply_ws (write_set (t_tx t)) m ∧
  ∀ j t', thr !! j = Some t' → writer t' → j = i.
Proof.
  intros Hst Hi Hp. assert (writer t) as Hw by (unfold writer; by rewrite Hp).
  destruct Hst as [? ? Hno|k u pend Hl Hk Hpc Hwr Hu]; [by destruct (Hno _ _ Hi)|].
  assert (i = k) as -> by eauto. simplify_eq. rewrite Hp in Hpc. by simplify_eq.
Qed.

Lemma sim_store s a i t e x b pending :
  Inv s a → s_thr s !! i = Some t → t_pc t = WriteBack e ((x, b) :: pending) →
  let '(l, g', t') := commit_writeback i (s_g s) t e ((x, b) :: pending) in
  ∃ a', spec_step a l a' ∧ Inv (MkSys g' (<[i := t']> (s_thr s))) a'.
Proof.
  intros (n & m & Hn & Hb & Hm & Hst & Hthr) Hi Hp. simpl.
  destruct (writer_state _ _ _ _ _ _ _ _ Hst Hi Hp) as (Hlk & -> & Hwr & Hu).
  destruct (Hthr _ _ Hi) as [Htx Hpc]; [by rewrite Hp|]. rewrite Hp in Hpc.
  exists a. split; [constructor|]. exists n, m. simpl. split_and!; [done..| |].
  - eapply (mem_locked _ _ _ _ i); [done| | | |].
    + apply list_lookup_insert_eq. by eapply lookup_lt_Some.
    + done.
    + exact Hwr.
    + intros j u Hj Hwj. apply list_lookup_insert_Some in Hj as [(-> & _ & _)|[_ Hj]]; [done|eauto].
  - eapply (others_ok s a a [] i _ _ _ n); [done| |lia|done|by rewrite app_nil_r|done|].
    + split; [lia|]. intros _. by rewrite Hlk, is_odd_odd.
    + intros _. by split.
Qed.

Lemma sim_release s a i t e :
  Inv s a → s_thr s !! i = Some t → t_pc t = WriteBack e [] →
  2 * Z.of_nat (length (hist a)) + 2 < 2 ^ 64 →
  let '(l, g', t') := commit_writeback i (s_g s) t e [] in
  ∃ a', spec_step a l a' ∧ Inv (MkSys g' (<[i := t']> (s_thr s))) a'.
Proof.
  intros (n & m & Hn & Hb & Hm & Hst & Hthr) Hi Hp Hbound. simpl.
  destruct (writer_state _ _ _ _ _ _ _ _ Hst Hi Hp) as (Hlk & -> & Hwr & Hu). simpl in Hwr.
  destruct (Hthr _ _ Hi) as [Htx Hpc]; [by rewrite Hp|]. rewrite Hp in Hpc.
  destruct Htx as [(_ & Hr & _) (k & b & mk & Hsn & _ & _ & Hk & Hrs)].
  destruct Hpc as [Hsn' _]. assert (k = n) as -> by lia. rewrite Hm in Hk. simplify_eq.
  assert (wrap64 (2 * Z.of_nat n + 2) = 2 * Z.of_nat (S n)) as Hw.
  { unfold wrap. rewrite Z.mod_small by lia. lia. }
  eexists. split.
  { eapply spec_commit_update; [|by apply Hr]. unfold newest. by rewrite last_lookup, Hn. }
  exists (S n), (apply_ws (write_set (t_tx t)) mk). simpl. rewrite Hw.
  split_and!; [rewrite length_app; simpl; lia|lia| | |].
  - rewrite lookup_app_r by lia. by rewrite Hn, Nat.sub_diag.
  - apply mem_free; [done|done|]. intros j u Hj Hwj.
    apply list_lookup_insert_Some in Hj as [(-> & <- & _)|[Hne Hj]]; [done|].
    by apply Hne; symmetry; eapply Hu.
  - eapply (others_ok s a _ [_] i _ _ _ n); [done| |lia|done|done|done|].
    + split; [lia|]. intros; lia.
    + by intros [].
Qed.

(** ** The simulation *)

Lemma sim_step s a l s' :
  Inv s a → sys_step acc on_stack s l s' →
  2 * Z.of_nat (length (hist a)) + 2 < 2 ^ 64 →
  ∃ a', spec_step a l a' ∧ Inv s' a'.
Proof.
  intros HI Hs Hb. destruct Hs as [s i t op l g' t' Hi Hop Hstep].
  pose proof HI as (n & m & Hn & _ & Hm & Hst & Hthr). pose proof (Hthr _ _ Hi) as Hok.
  assert (∀ res, Some res = Some (l, g', t') → ¬ writer t → sim_local a i (s_g s) res →
    ∃ a', spec_step a l a' ∧ Inv (MkSys g' (<[i:=t']> (s_thr s))) a') as Hloc.
  { intros res [= ->] ??. by eapply Inv_local. }
  unfold tstep in Hstep.
  destruct (t_pc t) eqn:Hp; try (symmetry in Hstep; destruct op; done);
    try (assert (live (t_pc t)) as Hlive by (by rewrite Hp));
    try (assert (¬ writer t) as Hw by (unfold writer; rewrite Hp; tauto)).
  - destruct op; try done. apply (Hloc _ Hstep Hw), sim_stay; [done|by intros []].
  - destruct op; apply (Hloc _ Hstep Hw); by eapply sim_begin.
  - destruct op; try done; apply (Hloc _ Hstep Hw);
      [by eapply sim_read_start|by eapply sim_write|by eapply sim_commit_start].
  - destruct op; apply (Hloc _ Hstep Hw); by eapply sim_read_clock.
  - destruct op; apply (Hloc _ Hstep Hw); by eapply sim_read_bytes.
  - destruct op; apply (Hloc _ Hstep Hw); by eapply sim_read_after.
  - destruct op; apply (Hloc _ Hstep Hw); by eapply sim_read_snap.
  - destruct op; apply (Hloc _ Hstep Hw); by eapply sim_reread.
  - destruct op; apply (Hloc _ Hstep Hw); by eapply sim_validate_clock.
  - destruct op; apply (Hloc _ Hstep Hw); by eapply sim_validate_entry.
  - destruct (decide (global_lock (s_g s) = snapshot (t_tx t))) as [E|E].
    + pose proof (sim_cas s a i t HI Hi Hp E) as Hc. destruct op; injection Hstep as Hres; by rewrite Hres in Hc.
    + destruct op; apply (Hloc _ Hstep Hw); by eapply sim_commit_cas_fail.
  - assert (Some (commit_writeback i (s_g s) t expect pending) = Some (l, g', t')) as Hres
      by (by destruct op). injection Hres as Hres.
    destruct pending as [|[x b] pending].
    + pose proof (sim_release s a i t expect HI Hi Hp Hb) as Hc. by rewrite Hres in Hc.
    + pose proof (sim_store s a i t expect x b pending HI Hi Hp) as Hc. by rewrite Hres in Hc.
Qed.

Lemma Inv_initial m s : norec_initial m s → Inv s (spec_init m).
Proof.
  intros (Hm & Hl & Hidle). rewrite Forall_lookup in Hidle.
  exists 0%nat, m. split_and!; [done|lia|done| |].
  - apply mem_free; [done|done|]. intros j t Hj. unfold writer. rewrite (Hidle _ _ Hj). tauto.
  - intros j t Hj. unfold thread_ok. rewrite (Hidle _ _ Hj). by intros [].
Qed.
End Opacity.

(** ** NOrec as an opaque backend *)

(** The clock advances by two per committed update, and must not wrap. *)
Definition norec_in_bounds (tr : list label) : Prop := 2 * Z.of_nat (commits tr) + 4 < 2 ^ 64.

Definition norec_quiescent (s : sys) : Prop := Forall (λ t, ¬ writer t) (s_thr s).

#[export] Instance norec_backend (acc : Z → ValueType → Prop) (on_stack : nat → Z → bool) : TMBackend sys := {
  tm_initial := norec_initial;
  tm_step := sys_step acc on_stack;
  tm_memory s := g_mem (s_g s);
  tm_quiescent := norec_quiescent;
  tm_in_bounds := norec_in_bounds;
}.

Lemma norec_simulation acc `{!Discipline acc} on_stack m0 s tr s' :
  (∀ i a sz, acc a sz → on_stack i a = false) →
  norec_initial m0 s → exec (sys_step acc on_stack) s tr s' → norec_in_bounds tr →
  ∃ a, exec spec_step (spec_init m0) tr a ∧ Inv acc s' a.
Proof.
  intros Hst Hi He. induction He as [s|s tr s' l s'' He IH Hs]; intros Hb.
  - exists (spec_init m0). split; [constructor|by apply Inv_initial].
  - unfold norec_in_bounds in *. rewrite commits_app in Hb.
    destruct (IH Hi) as (a & Ha & HI); [lia|].
    pose proof (spec_hist_length _ _ _ Ha) as Hlen.
    destruct (sim_step acc on_stack Hst s' a l s'' HI Hs) as (a' & Hsp & HI'); [lia|].
    exists a'. split; [by econstructor|done].
Qed.

Lemma norec_opaque_aux acc `{!Discipline acc} on_stack m0 s tr s' :
  (∀ i a sz, acc a sz → on_stack i a = false) →
  norec_initial m0 s → exec (sys_step acc on_stack) s tr s' → norec_in_bounds tr →
  ∃ a, exec spec_step (spec_init m0) tr a ∧
       (norec_quiescent s' → newest a = Some (g_mem (s_g s'))).
Proof.
  intros Hst Hi He Hb. destruct (norec_simulation acc on_stack m0 s tr s' Hst Hi He Hb) as (a & Ha & HI).
  exists a. split; [done|]. intros Hq. destruct HI as (n & m & Hn & _ & Hm & Hms & _).
  unfold newest. rewrite last_lookup, Hn. simpl. rewrite Hm.
  destruct Hms as [|k u pending _ Hk Hpc]; [congruence|]. exfalso.
  unfold norec_quiescent in Hq. rewrite Forall_lookup in Hq. apply (Hq _ _ Hk).
  unfold writer. by rewrite Hpc.
Qed.

(** A concrete interleaving: two threads increment the same word; the second one to
    commit fails validation, aborts, and retries. *)
Definition demo_addr : Z := 0x100000.
Definition demo_threads : list thread := replicate 2 (MkThread new_Transaction Idle []).
Definition demo_init : sys := MkSys (MkG ∅ 0 0) demo_threads.
Definition demo_sched : list (nat * uop) :=
  let j := AnyT 0xABCDEF in
  let go (i : nat) (n : nat) := replicate n (i, UCommit) in
  let begin_read (i : nat) := [(i, UBegin); (i, UBegin); (i, URead demo_addr UINT64 j)] ++ go i 11%nat in
  begin_read 0%nat ++ begin_read 1%nat ++
  [(0%nat, UWrite demo_addr UINT64 1 j)] ++ go 0%nat 11%nat ++
  [(1%nat, UWrite demo_addr UINT64 1 j)] ++ go 1%nat 11%nat ++
  [(1%nat, UBegin); (1%nat, URead demo_addr UINT64 j)] ++ go 1%nat 11%nat ++
  [(1%nat, UWrite demo_addr UINT64 2 j)] ++ go 1%nat 11%nat.

(** ** Properties *)

(** A discipline and stack oracle under which NOrec discharges the interface. *)
#[export] Instance norec_opaque_instance : @Opaque sys (norec_backend word_acc (λ _ _, false)).
Proof. intros m0 s tr s' Hi He Hb. by eapply (norec_opaque_aux word_acc). Qed.

(** C1: NOrec is opaque.  Under any interleaving, at the grain of single atomic
    operations and single copied bytes, of any number of threads whose accesses follow
    a discipline and avoid the stack, the begins, commits and aborts with the values
    read and written form a trace of the abstract transactional memory: every
    transaction, also one that aborts, sees one memory of the commit history no older
    than its begin, updates commit on the newest memory, and when no write-back is in
    progress the shared memory is the newest committed one.  The clock must not wrap. *)
Theorem norec_opaque acc `{!Discipline acc} on_stack m0 s tr s' :
  (∀ i a sz, acc a sz → on_stack i a = false) →
  norec_initial m0 s → exec (sys_step acc on_stack) s tr s' → norec_in_bounds tr →
  ∃ a, exec spec_step (spec_init m0) tr a ∧
       (norec_quiescent s' → newest a = Some (g_mem (s_g s'))).
Proof. apply norec_opaque_aux; done. Qed.

Lemma demo_initial : norec_initial ∅ demo_init.
Proof. split_and!; [done..|]. repeat constructor. Qed.

Lemma demo_sched_ok : Forall (λ io, uop_ok word_acc io.2) demo_sched.
Proof.
  assert (word_acc demo_addr UINT64) by (unfold word_acc, demo_addr, LOW_ADDR; split_and!; done || lia).
  unfold demo_sched. simpl. repeat constructor; done.
Qed.

Definition demo_result : list label * sys :=
  Eval vm_compute in default ([], demo_init) (run (λ _ _, false) demo_sched demo_init).

Lemma demo_run : run (λ _ _, false) demo_sched demo_init = Some demo_result.
Proof. vm_compute. reflexivity. Qed.

Lemma norec_opaque_witness :
  ∃ a, exec spec_step (spec_init ∅) demo_result.1 a ∧
       newest a = Some (g_mem (s_g demo_result.2)) ∧ commits demo_result.1 = 2%nat.
Proof.
  destruct (norec_opaque word_acc (λ _ _, false) ∅ demo_init demo_result.1 demo_result.2
    ltac:(done) demo_initial
    (run_exec word_acc (λ _ _, false) demo_sched demo_init _ _ demo_sched_ok
      (eq_trans demo_run (f_equal Some (surjective_pairing demo_result))))
    ltac:(vm_compute; reflexivity)) as (a & Ha & Hq).
  exists a. split; [exact Ha|]. split; [|reflexivity]. apply Hq.
  repeat constructor; intros [].
Defined.

(** C11: programs over NOrec may reason serially.  An invariant of memory that every
    committed transaction preserves when run alone holds of the shared memory whenever
    no write-back is in progress, under every interleaving of threads whose accesses
    follow a discipline and avoid the stack, as long as the clock does not wrap. *)
Theorem norec_serial_invariant acc `{!Discipline acc} on_stack (P : mem → Prop) m0 s tr s' :
  (∀ i a sz, acc a sz → on_stack i a = false) →
  P m0 → norec_initial m0 s → exec (sys_step acc on_stack) s tr s' → norec_in_bounds tr →
  commits_preserve P tr → norec_quiescent s' → P (g_mem (s_g s')).
Proof.
  intros Hst HP Hi He Hb Hc Hq.
  assert (@Opaque sys (norec_backend acc on_stack)) as Ho
    by (intros m1 s1 tr1 s1' ???; by eapply (norec_opaque_aux acc)).
  exact (@opaque_invariant sys (norec_backend acc on_stack) Ho P m0 s s' tr HP Hi He Hb Hc Hq).
Qed.

(** The shared counter of the demonstration never exceeds the number of increments. *)
Definition counter_le (n : Z) (m : mem) : Prop := u8 (read_value_from_addr m demo_addr UINT64) ≤ n.

Lemma norec_serial_invariant_witness :
  counter_le 2 (g_mem (s_g demo_result.2)).
Proof.
  apply (norec_serial_invariant word_acc (λ _ _, false) (counter_le 2) ∅ demo_init demo_result.1 demo_result.2).
  - done.
  - vm_compute. discriminate.
  - exact demo_initial.
  - exact (run_exec word_acc (λ _ _, false) demo_sched demo_init _ _ demo_sched_ok
      (eq_trans demo_run (f_equal Some (surjective_pairing demo_result)))).
  - vm_compute. reflexivity.
  - repeat (constructor; [first [exact I | intros m m' _; cbn [replay]; case_match; [|discriminate];
      intros [= <-]; unfold counter_le, demo_addr; rewrite read_write_same by reflexivity; vm_compute; discriminate]|]).
    constructor.
  - repeat constructor; intros [].
Defined.
