(* ===== verification/NOrecProgress.v ===== *)
(** * NOrec: progress of a thread running alone

    NOrec's loops ([validate], the double-checked read, the commit
    compare-and-swap) only repeat when the clock moves.  Hence a thread that runs
    without interference while no other commit is in progress finishes its current
    operation, in a number of steps bounded by [solo_cost]. *)

From S2P Require Import Prelude Memory Values TMSpec NOrec NOrecConc.
#[local] Open Scope Z_scope.

(** Points where no backend routine is in progress. *)
Definition quiet (p : pc) : bool :=
  match p with Idle | Begin | Running | Fault => true | _ => false end.

(** Let the thread run alone until it is quiet, for at most [fuel] steps. *)
Fixpoint solo (fuel : nat) (on_stack : Z → bool) (i : nat) (g : gstate) (t : thread) : gstate * thread :=
  match fuel with
  | O => (g, t)
  | S fuel' =>
      if quiet (t_pc t) then (g, t)
      else match tstep on_stack UCommit i g t with
           | Some (_, g', t') => solo fuel' on_stack i g' t'
           | None => (g, t)
           end
  end.

(** The bytes of a partial copy are fewer than the value has. *)
Definition copy_wf (p : pc) : bool :=
  match p with
  | ReadBytes _ sz _ got | ReRead _ sz got => (length got <? type_size sz)%nat
  | ValEntry _ _ (r :: _) got => (length got <? type_size (r_type r))%nat
  | _ => true
  end.

Definition entry_bytes (rs : list ReadLogEntry) : nat := list_sum (map (λ r, type_size (r_type r)) rs).

(** Steps left after [validate] returns the current clock. *)
Definition kont_cost (tx : Transaction) (k : kont) : nat :=
  match k with
  | KRead _ sz => type_size sz + 2
  | KCommit => length (writeback_stores (write_set tx)) + 3
  end.

Definition validate_cost (tx : Transaction) (k : kont) : nat :=
  entry_bytes (read_set tx) + kont_cost tx k + 2.

Definition snap_cost (lock : Z) (tx : Transaction) (a : Z) (sz : ValueType) : nat :=
  if (snapshot tx =? lock)%Z then 1 else validate_cost tx (KRead a sz) + 1.

Definition after_cost (tx : Transaction) (a : Z) (sz : ValueType) : nat :=
  validate_cost tx (KRead a sz) + 2.

(** Bound on the steps to the next quiet point. *)
Definition solo_cost (lock : Z) (t : thread) : nat :=
  let tx := t_tx t in
  match t_pc t with
  | Idle | Begin | Running | Fault => 0
  | ReadClock a sz => type_size sz + after_cost tx a sz + 1
  | ReadBytes a sz before got =>
      (type_size sz - length got) + after_cost tx a sz
      + if (lock =? before)%Z then 0 else type_size sz + after_cost tx a sz + 1
  | ReadAfter a sz before _ =>
      after_cost tx a sz + if (lock =? before)%Z then 0 else type_size sz + after_cost tx a sz + 1
  | ReadSnap a sz _ => snap_cost lock tx a sz
  | ReRead a sz got => (type_size sz - length got) + snap_cost lock tx a sz
  | ValClock k => validate_cost tx k
  | ValEntry k time todo got =>
      (entry_bytes todo - length got) + kont_cost tx k + 1
      + if (time =? lock)%Z then 0 else validate_cost tx k
  | CommitCAS =>
      if (snapshot tx =? lock)%Z then length (writeback_stores (write_set tx)) + 2
      else validate_cost tx KCommit + 1
  | WriteBack _ pending => length pending + 1
  end%nat.

(** A state from which a lone thread is never blocked: the clock is even, or the
    thread itself is the committer holding it. *)
Definition unblocked (g : gstate) (t : thread) : Prop :=
  match t_pc t with WriteBack _ _ => True | _ => is_odd (global_lock g) = false end.

Lemma copy_byte_cases m a sz got :
  (length got < type_size sz)%nat →
  (∃ got', copy_byte m a sz got = inl got' ∧ length got' = S (length got) ∧ (S (length got) < type_size sz)%nat) ∨
  (∃ v, copy_byte m a sz got = inr v ∧ S (length got) = type_size sz).
Proof.
  intros Hl. unfold copy_byte. rewrite length_app. simpl.
  destruct (Nat.ltb_spec (length got + 1) (type_size sz)).
  - left. eexists. split; [done|]. rewrite length_app. simpl. lia.
  - right. eexists. split; [done|]. lia.
Qed.

(** What one step of a lone thread achieves. *)
Definition closer (c : nat) (res : option (label * gstate * thread)) : Prop :=
  match res with
  | Some (_, g', t') =>
      quiet (t_pc t') = true ∨
      (unblocked g' t' ∧ copy_wf (t_pc t') = true ∧ (solo_cost (global_lock g') t' < c)%nat)
  | None => False
  end.

Lemma type_size_ltb sz : (0 <? type_size sz)%nat = true.
Proof. by destruct sz. Qed.

(** One validation finished at the current clock. *)
Lemma validate_return_closer g t k c :
  is_odd (global_lock g) = false → (kont_cost (t_tx t) k ≤ c)%nat →
  closer c (Some (validate_return g t k (global_lock g))).
Proof.
  intros Ho Hc. unfold validate_return, closer.
  destruct k; right; (split; [done|]); simpl in *.
  - rewrite type_size_ltb. unfold solo_cost, snap_cost. simpl. rewrite Z.eqb_refl. split; [done|lia].
  - unfold solo_cost. simpl. rewrite Z.eqb_refl. split; [done|lia].
Qed.

Lemma reads_closer on_stack i g t a sz :
  unblocked g t → copy_wf (t_pc t) = true →
  match t_pc t with
  | ReadClock a' sz' | ReadBytes a' sz' _ _ | ReadAfter a' sz' _ _
  | ReadSnap a' sz' _ | ReRead a' sz' _ => a' = a ∧ sz' = sz
  | _ => False
  end →
  closer (solo_cost (global_lock g) t) (tstep on_stack UCommit i g t).
Proof.
  intros Hu Hwf Hp. pose proof (type_size_range sz) as Hs. destruct t as [tx p evs].
  unfold unblocked in Hu. simpl in Hu, Hwf, Hp.
  destruct p; try done; destruct Hp as [-> ->]; simpl in Hu.
  - unfold tstep, read_clock, closer. simpl. rewrite Hu. right. simpl.
    rewrite type_size_ltb. unfold solo_cost. simpl. rewrite Z.eqb_refl. split_and!; [done|done|lia].
  - apply Nat.ltb_lt in Hwf. unfold tstep. simpl.
    destruct (copy_byte_cases (g_mem g) a sz got Hwf) as [(got' & -> & Hl & Hlt)|(v & -> & Hl)];
      right; (split; [done|]); unfold solo_cost; simpl.
    + rewrite (proj2 (Nat.ltb_lt _ _)) by lia. split; [done|]. rewrite Hl. lia.
    + split; [done|]. lia.
  - unfold tstep, read_after. simpl. destruct (global_lock g =? before) eqn:E.
    + destruct (ptr_assert sz v); [|by left]. right. split; [done|]. split; [done|].
      unfold solo_cost, snap_cost, after_cost. simpl. rewrite E.
      destruct (snapshot tx =? global_lock g); lia.
    + right. split; [done|]. split; [done|]. unfold solo_cost, after_cost. simpl. rewrite E. lia.
  - unfold tstep, read_snap. simpl. destruct (snapshot tx =? global_lock g) eqn:E; [by left|].
    right. split; [done|]. split; [done|]. unfold solo_cost, snap_cost. simpl. rewrite E. lia.
  - apply Nat.ltb_lt in Hwf. unfold tstep. simpl.
    destruct (copy_byte_cases (g_mem g) a sz got Hwf) as [(got' & -> & Hl & Hlt)|(v & -> & Hl)].
    + right. split; [done|]. unfold solo_cost. simpl. rewrite (proj2 (Nat.ltb_lt _ _)) by lia.
      split; [done|]. rewrite Hl. lia.
    + unfold reread_done. destruct (negb _); [by left|]. case_bool_decide; [by left|].
      right. split; [done|]. split; [done|]. unfold solo_cost. simpl. lia.
Qed.

Lemma validates_closer on_stack i g t :
  unblocked g t → copy_wf (t_pc t) = true →
  match t_pc t with ValClock _ | ValEntry _ _ _ _ => True | _ => False end →
  closer (solo_cost (global_lock g) t) (tstep on_stack UCommit i g t).
Proof.
  intros Hu Hwf Hp. destruct t as [tx p evs]. unfold unblocked in Hu. simpl in Hu, Hwf, Hp.
  destruct p; try done; simpl in Hu; unfold tstep; simpl.
  - unfold validate_clock. simpl. rewrite Hu. unfold solo_cost. simpl.
    destruct (read_set tx) as [|r rs] eqn:Er.
    { apply validate_return_closer; [done|]. unfold validate_cost. simpl. lia. }
    right. split; [done|]. simpl. rewrite type_size_ltb. unfold solo_cost, validate_cost. simpl.
    rewrite Z.eqb_refl, Er. split; [done|]. lia.
  - destruct todo as [|r todo]; simpl.
    + destruct (Z.eqb_spec time (global_lock g)) as [->|E].
      { apply validate_return_closer; [done|]. unfold solo_cost. simpl. lia. }
      right. split; [done|]. split; [done|]. unfold solo_cost. simpl.
      rewrite (proj2 (Z.eqb_neq _ _) E). lia.
    + apply Nat.ltb_lt in Hwf.
      destruct (copy_byte_cases (g_mem g) (r_addr r) (r_type r) got Hwf)
        as [(got' & -> & Hl & Hlt)|(v & -> & Hl)].
      * right. split; [done|]. simpl. rewrite (proj2 (Nat.ltb_lt _ _)) by lia. split; [done|].
        unfold solo_cost. simpl. rewrite Hl. unfold entry_bytes in *. simpl. lia.
      * destruct (iseq _ _); [|by left]. right. split; [done|].
        split; [by destruct todo; [|apply type_size_ltb]|].
        unfold solo_cost. simpl. unfold entry_bytes. simpl. lia.
Qed.

Lemma commits_closer on_stack i g t :
  unblocked g t → match t_pc t with CommitCAS | WriteBack _ _ => True | _ => False end →
  closer (solo_cost (global_lock g) t) (tstep on_stack UCommit i g t).
Proof.
  intros Hu Hp. destruct t as [tx p evs]. unfold unblocked in Hu. simpl in Hu, Hp.
  destruct p; try done; unfold tstep; simpl.
  - unfold commit_cas, solo_cost. simpl. rewrite (Z.eqb_sym (global_lock g)).
    destruct (snapshot tx =? global_lock g) eqn:E; right; (split; [done|]); (split; [done|]); simpl; lia.
  - destruct pending as [|[x b] pending]; simpl; [by left|].
    right. split; [done|]. split; [done|]. unfold solo_cost. simpl. lia.
Qed.

Lemma step_closer on_stack i g t :
  quiet (t_pc t) = false → unblocked g t → copy_wf (t_pc t) = true →
  closer (solo_cost (global_lock g) t) (tstep on_stack UCommit i g t).
Proof.
  intros Hq Hu Hwf. destruct (t_pc t) eqn:Hp; try done;
    try (eapply reads_closer; rewrite ?Hp; done);
    try (apply validates_closer; rewrite ?Hp; done);
    apply commits_closer; rewrite ?Hp; done.
Qed.

Lemma solo_quiet on_stack i fuel g t :
  unblocked g t → copy_wf (t_pc t) = true → (solo_cost (global_lock g) t ≤ fuel)%nat →
  quiet (t_pc (solo fuel on_stack i g t).2) = true.
Proof.
  revert g t. induction fuel as [|fuel IH]; intros g t Hu Hwf Hc; simpl.
  - destruct (t_pc t) eqn:Hp; try done; exfalso; unfold solo_cost in Hc; rewrite Hp in Hc;
      unfold snap_cost, validate_cost, after_cost in Hc; repeat case_match; try lia;
      pose proof (type_size_range sz); lia.
  - destruct (quiet (t_pc t)) eqn:Hq; [done|].
    pose proof (step_closer on_stack i g t Hq Hu Hwf) as Hcl. unfold closer in Hcl.
    destruct (tstep on_stack UCommit i g t) as [[[l g'] t']|]; [|done].
    destruct Hcl as [Hq'|(Hu' & Hwf' & Hlt)].
    + destruct fuel; simpl; [done|]. by rewrite Hq'.
    + apply IH; [done|done|]. lia.
Qed.

(** C16: a NOrec thread that runs alone finishes its operation.  When the clock is even
    or the thread itself holds it, a thread in the middle of a read, a validation or a
    commit reaches the end of that operation (it is back in user code, has committed,
    has aborted to its [begin], or failed an assertion) within [solo_cost] of its own
    steps: none of the retry loops repeats more than once without interference. *)
Theorem norec_solo_terminates on_stack i fuel g t :
  unblocked g t → copy_wf (t_pc t) = true → (solo_cost (global_lock g) t ≤ fuel)%nat →
  quiet (t_pc (solo fuel on_stack i g t).2) = true.
Proof. apply solo_quiet. Qed.

(** A commit whose snapshot is stale revalidates once, then writes back. *)
Lemma norec_solo_terminates_witness :
  let tx := MkTx 1 0 true false 0 [MkRead UINT64 0x100000 0 (AnyT 3)] [MkWrite UINT64 0x100000 (AnyT 4)] in
  quiet (t_pc (solo 40 (λ _, false) 0%nat (MkG (<[0x100000 := 3]> ∅) 6 0) (MkThread tx CommitCAS [])).2) = true.
Proof.
  apply norec_solo_terminates; [|reflexivity|vm_compute; lia]. vm_compute. done.
Defined.
