(* ===== verification/LogMerge.v ===== *)
(** * Bitmap log entries (common/tm_log_merge.hpp, common/tm_log_entries.hpp)

    Encounter-time and write-through designs keep one log entry per aligned 8-byte
    word: the word's value and a bitmap of the bytes that are present.  This file
    models the merge routines on machine words and shows that an entry denotes a
    partial word of bytes, that merging a typed access is updating exactly the bytes it covers, and
    that writing an entry back byte by byte is performing the buffered stores
    in program order, also when accesses of different widths overlap. *)

From S2P Require Import Prelude Memory Values.
#[local] Open Scope Z_scope.
#[local] Open Scope word_scope.

Definition K_BITS_PER_BYTE_SHIFT : Z := 3.
Definition K_ALIGN_MASK : Z := 7.

Record BitmapRedoEntry := MkRedo { redo_addr : Z; redo_value : Z; redo_valid : Z }.

Record BitmapReadEntry := MkBRead {
  bread_addr : Z; bread_value : Z; bread_valid : Z; bread_version : Z }.

Definition align_down_8 (addr : Z) : Z := addr .& not64 K_ALIGN_MASK.
Definition byte_offset (raw_addr : Z) : Z := raw_addr .& K_ALIGN_MASK.

(** [((1u << nbytes) - 1u) << byte_off] truncated to [uint8_t]. *)
Definition need_mask (nbytes byte_off : Z) : Z :=
  wrap8 (Z.shiftl (Z.shiftl 1 nbytes - 1) byte_off).

Definition nbytes_of (sz : ValueType) : Z := Z.of_nat (type_size sz).

Definition bitmap_write (entry_value entry_valid : Z) (val : any_type_t) (sz : ValueType)
    (raw_addr : Z) : Z * Z :=
  let nbytes := nbytes_of sz in
  let byte_off := byte_offset raw_addr in
  let shift := Z.shiftl byte_off K_BITS_PER_BYTE_SHIFT in
  let byte_mask := need_mask nbytes byte_off in
  let write_word := any_to_u64 val sz .& BYTE_MASK nbytes in
  let clr_mask := BYTE_MASK nbytes .<< shift in
  ((entry_value .& not64 clr_mask) .| (write_word .<< shift), entry_valid .| byte_mask).

Definition bitmap_read (out : any_type_t) (entry_value entry_valid : Z) (sz : ValueType) (raw_addr : Z)
    : option any_type_t :=
  let nbytes := nbytes_of sz in
  let byte_off := byte_offset raw_addr in
  let shift := Z.shiftl byte_off K_BITS_PER_BYTE_SHIFT in
  let need := need_mask nbytes byte_off in
  if negb ((entry_valid .& need) =? need) then None
  else Some (u64_to_any out ((entry_value .>> shift) .& BYTE_MASK nbytes) sz).

Definition init_write (aligned : Z) (val : any_type_t) (sz : ValueType) (raw_addr : Z) : BitmapRedoEntry :=
  let '(value, valid) := bitmap_write 0 0 val sz raw_addr in MkRedo aligned value valid.

Definition make_write_entry (aligned : Z) (val : any_type_t) (sz : ValueType) (raw_addr : Z)
    : BitmapRedoEntry := init_write aligned val sz raw_addr.

Definition init_read (aligned version : Z) (val : any_type_t) (sz : ValueType) (raw_addr : Z) : BitmapReadEntry :=
  let byte_off := byte_offset raw_addr in
  let shift := Z.shiftl byte_off K_BITS_PER_BYTE_SHIFT in
  MkBRead aligned (any_to_u64 val sz .<< shift) (need_mask (nbytes_of sz) byte_off) version.

Definition make_read_entry (aligned version : Z) (val : any_type_t) (sz : ValueType) (raw_addr : Z)
    : BitmapReadEntry := init_read aligned version val sz raw_addr.

Definition merge_read (entry : BitmapReadEntry) (version : Z) (val : any_type_t) (sz : ValueType)
    (raw_addr : Z) : BitmapReadEntry :=
  let nbytes := nbytes_of sz in
  let byte_off := byte_offset raw_addr in
  let shift := Z.shiftl byte_off K_BITS_PER_BYTE_SHIFT in
  let need := need_mask nbytes byte_off in
  let clr := BYTE_MASK nbytes .<< shift in
  MkBRead (bread_addr entry)
    ((bread_value entry .& not64 clr) .| (any_to_u64 val sz .<< shift))
    (bread_valid entry .| need) version.

(** Fallback of the byte-log backends: assemble a value from single bytes. *)
Fixpoint read_merge_bytes_from (get_byte : Z → option Z) (addr : Z) (n : nat) (i out_val : Z) : option Z :=
  match n with
  | O => Some out_val
  | S n' =>
      match get_byte (wrap64 (addr + i)) with
      | None => None
      | Some b => read_merge_bytes_from get_byte addr n' (i + 1)
                    (out_val .| (b .<< Z.shiftl i K_BITS_PER_BYTE_SHIFT))
      end
  end.

Definition read_merge_bytes (addr : Z) (nbytes : nat) (get_byte : Z → option Z) : option Z :=
  read_merge_bytes_from get_byte addr nbytes 0 0.

(** Legacy helpers of the type-tagged logs. *)
Definition merge_words (base_val write_val write_sz offset : Z) : Z :=
  let mask := BYTE_MASK write_sz .<< Z.shiftl offset K_BITS_PER_BYTE_SHIFT in
  (base_val .& not64 mask) .| ((write_val .& BYTE_MASK write_sz) .<< Z.shiftl offset K_BITS_PER_BYTE_SHIFT).

Definition same_address (existing : any_type_t) (existing_type : ValueType)
    (new_val : any_type_t) (new_type : ValueType) : option any_type_t :=
  let esz := nbytes_of existing_type in
  let nsz := nbytes_of new_type in
  if nsz <=? esz then
    let ew := any_to_u64 existing existing_type in
    let nw := any_to_u64 new_val new_type in
    Some (u64_to_any existing (merge_words ew nw nsz 0) existing_type)
  else None.

(** ** Denotation: a partial word of bytes *)

Definition byte_at (w i : Z) : Z := wrap8 (w .>> (8 * i)).

Definition entry_byte (value valid i : Z) : option Z :=
  if Z.testbit valid i then Some (byte_at value i) else None.

(** The access stays inside its 8-byte word (every naturally aligned one does). *)
Definition in_word (sz : ValueType) (raw_addr : Z) : Prop :=
  byte_offset raw_addr + nbytes_of sz ≤ 8.

(** The byte-wise write-back loop of a bitmap entry, from byte [i] on. *)
Fixpoint bitmap_stores_from (n : nat) (i aligned value valid : Z) : list (Z * Z) :=
  match n with
  | O => []
  | S n' =>
      (if Z.testbit valid i then [(aligned + i, byte_at value i)] else []) ++
      bitmap_stores_from n' (i + 1) aligned value valid
  end.

Definition bitmap_stores (aligned value valid : Z) : list (Z * Z) :=
  bitmap_stores_from 8 0 aligned value valid.

(** ** Bit-level facts *)

Lemma nbytes_range sz : 1 ≤ nbytes_of sz ≤ 8.
Proof. unfold nbytes_of. pose proof (type_size_range sz). lia. Qed.

Lemma byte_offset_mod a : byte_offset a = a mod 8.
Proof. unfold byte_offset, K_ALIGN_MASK. change 7 with (Z.ones 3). by rewrite Z.land_ones by lia. Qed.

Lemma byte_offset_range a : 0 ≤ byte_offset a < 8.
Proof. rewrite byte_offset_mod. apply Z.mod_pos_bound. lia. Qed.

Lemma shift8 o : Z.shiftl o K_BITS_PER_BYTE_SHIFT = 8 * o.
Proof. unfold K_BITS_PER_BYTE_SHIFT. rewrite Z.shiftl_mul_pow2 by lia. lia. Qed.

Lemma need_mask_bit n o i :
  0 ≤ n → 0 ≤ o → 0 ≤ i < 8 → Z.testbit (need_mask n o) i = (o <=? i) && (i <? o + n).
Proof.
  intros. unfold need_mask. replace (Z.shiftl 1 n - 1) with (Z.ones n) by (unfold Z.ones; lia).
  bits_core.
Qed.

Lemma testbit_neg a i : i < 0 → Z.testbit a i = false.
Proof. intros. by apply Z.testbit_neg_r. Qed.

(** Replacing [n] bytes at byte offset [o] of a 64-bit word, bit by bit. *)
Definition patch (base w n o : Z) : Z :=
  (base .& not64 (BYTE_MASK n .<< (8 * o))) .| ((w .& BYTE_MASK n) .<< (8 * o)).

Lemma patch_bit base w n o j :
  0 ≤ n ≤ 8 → 0 ≤ o → o + n ≤ 8 → 0 ≤ j < 64 →
  Z.testbit (patch base w n o) j =
  if (8 * o <=? j) && (j <? 8 * o + 8 * n) then Z.testbit w (j - 8 * o) else Z.testbit base j.
Proof.
  intros. unfold patch, shl64, not64. rewrite BYTE_MASK_ones by lia.
  autorewrite with zbits. zcmp; simpl; try lia; btauto.
Qed.

Lemma patch_range base w n o : is_w 64 base → is_w 64 (patch base w n o).
Proof.
  intros Hb. pose proof Hb as [Hb0 _]. apply word_of_bits; [lia| |].
  - apply Z.lor_nonneg. split; [apply Z.land_nonneg; by left | by apply wrap_is_w].
  - intros i Hi. unfold patch, shl64.
    rewrite Z.lor_spec, Z.land_spec, (testbit_high 64 base), testbit_wrap by (done || lia).
    zcmp; simpl; [lia|done].
Qed.

Lemma patch_byte base w n o i :
  0 ≤ n ≤ 8 → 0 ≤ o → o + n ≤ 8 → 0 ≤ i < 8 →
  byte_at (patch base w n o) i =
  if (o <=? i) && (i <? o + n) then byte_at w (i - o) else byte_at base i.
Proof.
  intros. apply Z.bits_inj'. intros j Hj. unfold byte_at. rewrite testbit_wrap, testbit_shr by lia.
  destruct (Z.ltb_spec j 8); simpl.
  - replace (0 <=? j) with true by lia. rewrite andb_true_l, patch_bit by lia.
    zcmp; simpl; try lia; rewrite testbit_wrap, testbit_shr by lia; zcmp; simpl; try lia; f_equal; lia.
  - case_match; rewrite testbit_wrap by lia; zcmp; simpl; try lia; done.
Qed.

Lemma bitmap_write_patch value valid val sz a :
  bitmap_write value valid val sz a =
  (patch value (u8 val) (nbytes_of sz) (byte_offset a),
   valid .| need_mask (nbytes_of sz) (byte_offset a)).
Proof. unfold bitmap_write, patch, any_to_u64. by rewrite shift8. Qed.

(** Writing into an entry replaces exactly the bytes of the access. *)
Lemma bitmap_write_byte value valid val sz a i value' valid' :
  in_word sz a → 0 ≤ i < 8 → bitmap_write value valid val sz a = (value', valid') →
  entry_byte value' valid' i =
  if (byte_offset a <=? i) && (i <? byte_offset a + nbytes_of sz)
  then Some (byte_at (u8 val) (i - byte_offset a)) else entry_byte value valid i.
Proof.
  intros Hin Hi. rewrite bitmap_write_patch. intros [= <- <-]. unfold entry_byte.
  pose proof (byte_offset_range a). pose proof (nbytes_range sz). unfold in_word in Hin.
  rewrite Z.lor_spec, need_mask_bit, patch_byte by lia.
  destruct ((byte_offset a <=? i) && (i <? byte_offset a + nbytes_of sz)).
  - by rewrite orb_true_r.
  - by rewrite orb_false_r.
Qed.

Lemma bitmap_write_range value valid val sz a value' valid' :
  is_w 64 value → is_w 8 valid → bitmap_write value valid val sz a = (value', valid') →
  is_w 64 value' ∧ is_w 8 valid'.
Proof.
  intros Hv Ho. rewrite bitmap_write_patch. intros [= <- <-]. split; [by apply patch_range|].
  pose proof (wrap_is_w 8 (Z.shiftl (Z.shiftl 1 (nbytes_of sz) - 1) (byte_offset a)) ltac:(lia)) as Hn.
  pose proof Ho as [Ho0 _]. pose proof Hn as [Hn0 _]. apply word_of_bits; [lia | by apply Z.lor_nonneg |].
  intros i Hi. rewrite Z.lor_spec, (testbit_high 8 valid) by (done || lia).
  by apply (testbit_high 8); try lia.
Qed.

(** ** Entries against memory *)

Lemma byte_at_shift w o k : 0 ≤ o → 0 ≤ k → byte_at (w .>> (8 * o)) k = byte_at w (o + k).
Proof. intros. unfold byte_at. rewrite Z.shiftr_shiftr by lia. do 2 f_equal. lia. Qed.

Lemma le_bytes_at n w k : (k < n)%nat → le_bytes n w !! k = Some (byte_at w (Z.of_nat k)).
Proof.
  revert w k. induction n as [|n IH]; intros w [|k] Hk; [lia..| |]; cbn [le_bytes lookup list_lookup].
  - unfold byte_at, wrap. simpl. by rewrite Z.shiftr_0_r.
  - rewrite IH by lia. f_equal. change 256 with (2 ^ 8). rewrite <- Z.shiftr_div_pow2 by lia.
    change (w .>> 8) with (w .>> (8 * 1)). rewrite byte_at_shift by lia. f_equal. lia.
Qed.

Lemma write_value_lookup m a val sz x :
  write_value_to_addr m a val sz !! x =
  if (a <=? x) && (x <? a + nbytes_of sz) then Some (byte_at (u8 val) (x - a)) else m !! x.
Proof.
  unfold write_value_to_addr, value_stores, nbytes_of. pose proof (type_size_range sz).
  rewrite wr_at_addr, any_store_le, length_le_bytes by lia.
  zcmp; simpl; try done. rewrite le_bytes_at by lia. do 2 f_equal. lia.
Qed.

Lemma bitmap_stores_from_lookup n i m al v ok x :
  wr m (bitmap_stores_from n i al v ok) !! x =
  if (al + i <=? x) && (x <? al + i + Z.of_nat n) && Z.testbit ok (x - al)
  then Some (byte_at v (x - al)) else m !! x.
Proof.
  revert i m. induction n as [|n IH]; intros i m; cbn [bitmap_stores_from].
  - zcmp; simpl; try lia; done.
  - rewrite wr_app, IH. destruct (decide (x = al + i)) as [->|Hne].
    + replace (al + i - al) with i by lia.
      destruct (Z.testbit ok i); zcmp; simpl; try lia; [by rewrite lookup_insert_eq | done].
    + assert (wr m (if Z.testbit ok i then [(al + i, byte_at v i)] else []) !! x = m !! x) as ->.
      { apply wr_lookup_ne. destruct (Z.testbit ok i); simpl; set_solver. }
      zcmp; simpl; try lia; done.
Qed.

Lemma bitmap_stores_lookup m al v ok x :
  wr m (bitmap_stores al v ok) !! x =
  if (al <=? x) && (x <? al + 8) && Z.testbit ok (x - al) then Some (byte_at v (x - al)) else m !! x.
Proof. unfold bitmap_stores. rewrite bitmap_stores_from_lookup, Z.add_0_r. done. Qed.

Lemma align_down_split a : is_w 64 a → align_down_8 a + byte_offset a = a.
Proof.
  intros Ha. destruct (align_bits a Ha) as [H1 H2].
  unfold align_down_8, byte_offset, K_ALIGN_MASK. rewrite H1, H2. pose proof (Z.div_mod a 8). lia.
Qed.

(** Writing an updated entry back is writing the old entry back and then
    performing the typed store. *)
Lemma bitmap_write_stores m v ok val sz a v' ok' :
  is_w 64 a → in_word sz a → bitmap_write v ok val sz a = (v', ok') →
  wr m (bitmap_stores (align_down_8 a) v' ok') =
  write_value_to_addr (wr m (bitmap_stores (align_down_8 a) v ok)) a val sz.
Proof.
  intros Ha Hin Hw. apply map_eq. intros x. rewrite write_value_lookup, !bitmap_stores_lookup.
  pose proof (align_down_split a Ha). pose proof (byte_offset_range a). pose proof (nbytes_range sz).
  unfold in_word in Hin. set (i := x - align_down_8 a).
  destruct ((align_down_8 a <=? x) && (x <? align_down_8 a + 8)) eqn:Hx; simpl.
  - pose proof (bitmap_write_byte v ok val sz a i v' ok' Hin ltac:(lia) Hw) as Hb.
    unfold entry_byte in Hb. destruct (Z.testbit ok' i), (Z.testbit ok i);
      zcmp; simpl in *; subst i; try lia; try done; rewrite Hb; do 2 f_equal; lia.
  - zcmp; simpl; try lia; done.
Qed.

Lemma bitmap_read_eq out v ok sz a :
  in_word sz a →
  bitmap_read out v ok sz a =
  if forallb (Z.testbit ok) (seqZ (byte_offset a) (nbytes_of sz))
  then Some (AnyT (wrap (8 * nbytes_of sz) (v .>> (8 * byte_offset a)))) else None.
Proof.
  intros Hin. unfold in_word in Hin. pose proof (nbytes_range sz). pose proof (byte_offset_range a).
  unfold bitmap_read, u64_to_any. rewrite shift8, BYTE_MASK_ones, Z.land_ones by lia.
  assert ((ok .& need_mask (nbytes_of sz) (byte_offset a) =? need_mask (nbytes_of sz) (byte_offset a))
    = forallb (Z.testbit ok) (seqZ (byte_offset a) (nbytes_of sz))) as ->; [|by destruct (forallb _ _)].
  apply eq_true_iff_eq. rewrite Z.eqb_eq, forallb_forall. split.
  - intros Heq i Hi%list_elem_of_In%elem_of_seqZ.
    apply (f_equal (λ w, Z.testbit w i)) in Heq. rewrite Z.land_spec, need_mask_bit in Heq by lia.
    zcmp; simpl in *; try lia. by destruct (Z.testbit ok i).
  - intros Hall. apply Z.bits_inj'. intros i Hi. rewrite Z.land_spec.
    destruct (Z.ltb_spec i 8).
    + rewrite need_mask_bit by lia. zcmp; simpl; rewrite ?andb_false_r; try done.
      rewrite Hall; [done|]. apply list_elem_of_In, elem_of_seqZ. lia.
    + unfold need_mask. rewrite testbit_wrap by lia. zcmp; simpl; [lia|]. apply andb_false_r.
Qed.

(** A read served by an entry is the read of memory after its write-back. *)
Lemma bitmap_read_stores m out v ok sz a r :
  is_w 64 a → in_word sz a → bitmap_read out v ok sz a = Some r →
  r = read_value_from_addr (wr m (bitmap_stores (align_down_8 a) v ok)) a sz.
Proof.
  intros Ha Hin. rewrite bitmap_read_eq by done. destruct (forallb _ _) eqn:Hall; [|done]. intros [= <-].
  rewrite read_value_eq. f_equal. unfold nbytes_of. rewrite <- le_word_le_bytes. f_equal.
  pose proof (align_down_split a Ha). pose proof (byte_offset_range a). unfold in_word, nbytes_of in Hin.
  apply list_eq_same_length with (n := type_size sz);
    [by rewrite length_load_bytes | by rewrite length_le_bytes |].
  intros k x y Hk. rewrite le_bytes_at, load_bytes_prefix by lia. intros [= <-] [= <-].
  rewrite byte_at_shift by lia. unfold mget. rewrite bitmap_stores_lookup.
  rewrite forallb_forall in Hall. rewrite Hall by (apply list_elem_of_In, elem_of_seqZ; unfold nbytes_of; lia).
  zcmp; simpl; try lia. f_equal. lia.
Qed.

(** ** Read entries *)

Lemma land_mask_small n w : 0 ≤ n ≤ 8 → is_w (8 * n) w → w .& BYTE_MASK n = w.
Proof. intros Hn Hw. rewrite BYTE_MASK_ones, Z.land_ones by lia. by apply Z.mod_small. Qed.

(** Merging a zero-extended value (what [read_value_from_addr] returns) into a read
    entry updates it like [bitmap_write]; the version is the last one seen. *)
Lemma merge_read_bitmap e version val sz a :
  is_w (8 * nbytes_of sz) (u8 val) →
  (bread_value (merge_read e version val sz a), bread_valid (merge_read e version val sz a)) =
    bitmap_write (bread_value e) (bread_valid e) val sz a ∧
  bread_version (merge_read e version val sz a) = version.
Proof.
  intros Hv. split; [|done]. unfold merge_read, bitmap_write, any_to_u64. simpl.
  pose proof (nbytes_range sz). by rewrite land_mask_small by (done || lia).
Qed.

Lemma init_read_bitmap aligned version val sz a :
  is_w (8 * nbytes_of sz) (u8 val) →
  (bread_value (init_read aligned version val sz a), bread_valid (init_read aligned version val sz a)) =
    bitmap_write 0 0 val sz a.
Proof.
  intros Hv. unfold init_read, bitmap_write, any_to_u64. simpl.
  pose proof (nbytes_range sz). by rewrite land_mask_small by (done || lia).
Qed.

(** ** Legacy helpers *)

Lemma merge_words_patch base w n o : merge_words base w n o = patch base w n o.
Proof. unfold merge_words, patch. by rewrite shift8. Qed.

(** Merging a narrower access into a wider entry at the same address is storing
    the wider value and then the narrower one over it. *)
Lemma same_address_stores m a ex te nv tn r :
  same_address ex te nv tn = Some r →
  write_value_to_addr m a r te = write_value_to_addr (write_value_to_addr m a ex te) a nv tn.
Proof.
  unfold same_address, any_to_u64, u64_to_any. destruct (Z.leb_spec (nbytes_of tn) (nbytes_of te)); [|done].
  intros [= <-]. apply map_eq. intros x. rewrite !write_value_lookup. simpl u8. rewrite merge_words_patch.
  pose proof (nbytes_range te). pose proof (nbytes_range tn).
  destruct ((a <=? x) && (x <? a + nbytes_of te)) eqn:Hx.
  - rewrite patch_byte by lia. zcmp; simpl; try lia; try done. by replace (x - a - 0) with (x - a) by lia.
  - zcmp; simpl in *; try lia; done.
Qed.

(** Assembling bytes is the little-endian read, or a failure when one is absent. *)
Lemma lor_shift_add w b k : 0 ≤ k → is_w k w → 0 ≤ b → w .| Z.shiftl b k = w + b * 2 ^ k.
Proof.
  intros Hk Hw Hb. rewrite <- Z.shiftl_mul_pow2 by done.
  rewrite <- Z.lxor_lor; [symmetry; apply Z.add_nocarry_lxor|].
  all: apply Z.bits_inj'; intros i Hi; rewrite Z.land_spec, testbit_shl, Z.testbit_0_l.
  all: destruct (Z.ltb_spec i k); [rewrite (Z.testbit_neg_r b) by lia; btauto|].
  all: by rewrite (testbit_high k w) by (done || lia).
Qed.

Lemma read_merge_bytes_from_some get addr bs i w :
  (∀ k b, bs !! k = Some b → get (wrap64 (addr + (i + Z.of_nat k))) = Some b) →
  Forall is_byte bs → 0 ≤ i → i + Z.of_nat (length bs) ≤ 8 → is_w (8 * i) w →
  read_merge_bytes_from get addr (length bs) i w = Some (w + 2 ^ (8 * i) * le_word bs).
Proof.
  intros Hg Hb. revert i w Hg. induction Hb as [|b bs Hb Hbs IH]; intros i w Hg Hi Hl Hw.
  - simpl. f_equal. lia.
  - cbn [length read_merge_bytes_from le_word]. simpl length in Hl.
    pose proof (Hg 0%nat b eq_refl) as Hg0. rewrite Z.add_0_r in Hg0. rewrite Hg0.
    unfold is_byte in Hb. destruct Hw as [Hw0 Hw1].
    assert (2 ^ (8 * (i + 1)) = 256 * 2 ^ (8 * i)) as Hp.
    { replace (8 * (i + 1)) with (8 + 8 * i) by lia. by rewrite Z.pow_add_r by lia. }
    assert (2 ^ (8 * (i + 1)) ≤ 2 ^ 64) as Hp64 by (apply Z.pow_le_mono_r; lia).
    assert (b .<< Z.shiftl i K_BITS_PER_BYTE_SHIFT = Z.shiftl b (8 * i)) as ->.
    { unfold shl64. rewrite shift8. apply Z.mod_small. rewrite Z.shiftl_mul_pow2 by lia. nia. }
    rewrite lor_shift_add by (done || lia). rewrite IH; [f_equal; rewrite Hp; lia| |lia|lia|unfold is_w; nia].
    intros k b' Hk. rewrite <- (Hg (S k) b' Hk). do 2 f_equal. lia.
Qed.

Lemma read_merge_bytes_from_none get addr n i w k :
  (k < n)%nat → get (wrap64 (addr + (i + Z.of_nat k))) = None →
  read_merge_bytes_from get addr n i w = None.
Proof.
  revert i w k. induction n as [|n IH]; intros i w k Hk Hn; [lia|]. cbn [read_merge_bytes_from].
  destruct k as [|k]; [rewrite Z.add_0_r in Hn; by rewrite Hn|].
  case_match; [|done]. apply (IH _ _ k); [lia|]. rewrite <- Hn. do 2 f_equal. lia.
Qed.

Lemma read_merge_bytes_load m addr n :
  mem_ok m → 0 ≤ addr → addr + Z.of_nat n ≤ 2 ^ 64 → (n ≤ 8)%nat →
  read_merge_bytes addr n (λ a, Some (mget m a)) = Some (le_word (load_bytes m addr n)).
Proof.
  intros Hm Ha Hn Hn8. unfold read_merge_bytes.
  rewrite <- (length_load_bytes m addr n) at 1. rewrite read_merge_bytes_from_some.
  - f_equal. lia.
  - intros k b Hk. assert (k < n)%nat as Hkn.
    { apply lookup_lt_Some in Hk. by rewrite length_load_bytes in Hk. }
    rewrite load_bytes_prefix in Hk by done. injection Hk as <-. do 2 f_equal.
    unfold wrap. rewrite Z.mod_small by lia. lia.
  - by apply load_bytes_ok.
  - lia.
  - rewrite length_load_bytes. lia.
  - unfold is_w. lia.
Qed.

(** ** Properties *)

(** A bitmap entry buffers stores exactly.  For an access inside its 8-byte word,
    writing back the entry after [bitmap_write] leaves the memory that writing back the
    entry before and then performing the typed store leaves, whatever widths were
    merged earlier; the entry's fields stay within their machine widths. *)
Theorem bitmap_write_refines m v ok val sz a v' ok' :
  is_w 64 a → in_word sz a → is_w 64 v → is_w 8 ok → bitmap_write v ok val sz a = (v', ok') →
  wr m (bitmap_stores (align_down_8 a) v' ok') =
    write_value_to_addr (wr m (bitmap_stores (align_down_8 a) v ok)) a val sz ∧
  is_w 64 v' ∧ is_w 8 ok'.
Proof.
  intros Ha Hin Hv Ho Hw. split; [by eapply bitmap_write_stores | by eapply bitmap_write_range].
Qed.

Lemma bitmap_write_refines_witness :
  wr ∅ (bitmap_stores (align_down_8 0x100006) 0xAABBCCDDEEFF0011 0xFF) =
    write_value_to_addr (wr ∅ (bitmap_stores (align_down_8 0x100006) 0x1122CCDDEEFF0011 0x3F))
      0x100006 (AnyT 0x5566AABB) UINT16 ∧ is_w 64 0xAABBCCDDEEFF0011 ∧ is_w 8 0xFF.
Proof.
  apply bitmap_write_refines; try (split; done). vm_compute. discriminate.
Defined.

(** A read is served from a bitmap entry exactly when every byte of it is present,
    and then returns what memory would hold after the entry's write-back. *)
Theorem bitmap_read_refines out v ok sz a :
  is_w 64 a → in_word sz a →
  match bitmap_read out v ok sz a with
  | Some r => ∀ m, r = read_value_from_addr (wr m (bitmap_stores (align_down_8 a) v ok)) a sz
  | None => ∃ i, byte_offset a ≤ i < byte_offset a + nbytes_of sz ∧ entry_byte v ok i = None
  end.
Proof.
  intros Ha Hin. destruct (bitmap_read out v ok sz a) eqn:Hr; [intros m; by eapply bitmap_read_stores|].
  rewrite bitmap_read_eq in Hr by done. destruct (forallb _ _) eqn:Hall; [done|].
  destruct (decide (Exists (λ i, Z.testbit ok i = false) (seqZ (byte_offset a) (nbytes_of sz)))) as [He|Hn].
  - apply Exists_exists in He as (i & Hi%elem_of_seqZ & Hf). exists i. unfold entry_byte. by rewrite Hf.
  - exfalso. apply not_true_iff_false in Hall. apply Hall, forallb_forall. intros i Hi.
    destruct (Z.testbit ok i) eqn:Hb; [done|]. exfalso. apply Hn, Exists_exists. exists i.
    by rewrite list_elem_of_In.
Qed.

Lemma bitmap_read_refines_witness :
  match bitmap_read (AnyT 0) 0xAABBCCDDEEFF0011 0xF0 UINT16 0x100006 with
  | Some r => ∀ m, r = read_value_from_addr (wr m (bitmap_stores (align_down_8 0x100006) 0xAABBCCDDEEFF0011 0xF0))
                         0x100006 UINT16
  | None => ∃ i, byte_offset 0x100006 ≤ i < byte_offset 0x100006 + nbytes_of UINT16 ∧
                 entry_byte 0xAABBCCDDEEFF0011 0xF0 i = None
  end.
Proof. apply bitmap_read_refines; [split; done|]. vm_compute. discriminate. Defined.

(** An access that straddles the 8-byte word loses its upper bytes: a 4-byte store
    at offset 6 of a fresh entry marks two bytes present, and the write-back leaves
    the two bytes of the next word as they were. *)
Theorem bitmap_write_straddle_drops m a val v' ok' :
  is_w 64 a → byte_offset a = 6 → bitmap_write 0 0 val UINT32 a = (v', ok') →
  ok' = 0xC0 ∧ ∀ x, a + 2 ≤ x → wr m (bitmap_stores (align_down_8 a) v' ok') !! x = m !! x.
Proof.
  intros Ha Ho. rewrite bitmap_write_patch, Ho. intros [= <- <-]. split; [done|]. intros x Hx.
  rewrite bitmap_stores_lookup. pose proof (align_down_split a Ha). zcmp; simpl; try lia; done.
Qed.

Lemma bitmap_write_straddle_drops_witness :
  wr ∅ (bitmap_stores (align_down_8 0x100006) (0x4433 .<< 48) 0xC0) !! 0x100008 = None.
Proof.
  refine (proj2 (bitmap_write_straddle_drops ∅ 0x100006 (AnyT 0x11224433) _ _ _ eq_refl eq_refl) 0x100008 _);
    [split; done | lia].
Defined.

(** Read entries accumulate observations.  Merging the zero-extended value that a
    memory read returns into a read entry makes exactly those bytes present with the
    value read, keeps the other bytes, and records the version. *)
Theorem merge_read_exact e version m sz a i :
  mem_ok m → is_w 64 a → in_word sz a → 0 ≤ i < 8 →
  let val := read_value_from_addr m a sz in
  let e' := merge_read e version val sz a in
  bread_version e' = version ∧ bread_addr e' = bread_addr e ∧
  entry_byte (bread_value e') (bread_valid e') i =
    if (byte_offset a <=? i) && (i <? byte_offset a + nbytes_of sz)
    then Some (mget m (align_down_8 a + i)) else entry_byte (bread_value e) (bread_valid e) i.
Proof.
  intros Hm Ha Hin Hi val e'. split; [done|]. split; [done|].
  pose proof (type_size_range sz). pose proof (byte_offset_range a). pose proof (align_down_split a Ha).
  assert (is_w (8 * nbytes_of sz) (u8 val)) as Hv.
  { subst val. rewrite read_value_u8. unfold nbytes_of. rewrite <- (length_load_bytes m a (type_size sz)) at 1.
    by apply le_word_range, load_bytes_ok. }
  destruct (merge_read_bitmap e version val sz a Hv) as [Hb _]. subst e'.
  rewrite (bitmap_write_byte _ _ _ _ _ i _ _ Hin Hi (eq_sym Hb)).
  destruct (_ && _) eqn:Hr; [|done]. f_equal. subst val. rewrite read_value_u8.
  assert (0 ≤ i - byte_offset a < Z.of_nat (type_size sz)) as Hk by (unfold nbytes_of in Hr; lia).
  pose proof (le_bytes_at (type_size sz) (le_word (load_bytes m a (type_size sz)))
    (Z.to_nat (i - byte_offset a)) ltac:(lia)) as Hb1.
  rewrite <- (length_load_bytes m a (type_size sz)) in Hb1 at 1.
  rewrite le_bytes_le_word, load_bytes_prefix in Hb1 by (try apply load_bytes_ok; done || lia).
  injection Hb1 as Hb1. rewrite Z2Nat.id in Hb1 by lia. rewrite <- Hb1. f_equal. lia.
Qed.

Lemma merge_read_exact_witness :
  let m := wr ∅ [(0x100004, 17); (0x100005, 34)] in
  entry_byte (bread_value (merge_read (MkBRead 0x100000 0 0 0) 6 (read_value_from_addr m 0x100004 UINT16) UINT16 0x100004))
             (bread_valid (merge_read (MkBRead 0x100000 0 0 0) 6 (read_value_from_addr m 0x100004 UINT16) UINT16 0x100004)) 5
  = Some 34.
Proof.
  refine (proj2 (proj2 (merge_read_exact (MkBRead 0x100000 0 0 0) 6
    (wr ∅ [(0x100004, 17); (0x100005, 34)]) UINT16 0x100004 5 _ _ _ _))).
  - apply wr_mem_ok; [intros x; split; done|]. repeat constructor; done.
  - split; done.
  - vm_compute. discriminate.
  - lia.
Defined.

(** Merging at one address.  [same_address] merges when the logged access is at
    least as wide as the new one, and then the merged entry writes back the logged
    value with the new one stored over it; otherwise it declines. *)
Theorem same_address_refines ex te nv tn :
  match same_address ex te nv tn with
  | Some r => (type_size tn ≤ type_size te)%nat ∧
      ∀ m a, write_value_to_addr m a r te = write_value_to_addr (write_value_to_addr m a ex te) a nv tn
  | None => (type_size te < type_size tn)%nat
  end.
Proof.
  destruct (same_address ex te nv tn) eqn:E.
  - split; [|intros; by apply same_address_stores].
    unfold same_address, nbytes_of in E. zcmp; [lia|done].
  - unfold same_address, nbytes_of in E. zcmp; [done|lia].
Qed.

(** Assembling a value from byte entries.  [read_merge_bytes] yields the
    little-endian word of the bytes when all of them are found, and fails as soon as one
    is missing. *)
Theorem read_merge_bytes_spec get addr bs n :
  (n ≤ 8)%nat → Forall is_byte bs → length bs = n →
  ((∀ k b, bs !! k = Some b → get (wrap64 (addr + Z.of_nat k)) = Some b) →
   read_merge_bytes addr n get = Some (le_word bs)) ∧
  ∀ k, (k < n)%nat → get (wrap64 (addr + Z.of_nat k)) = None → read_merge_bytes addr n get = None.
Proof.
  intros Hn Hb Hl. split.
  - intros Hg. unfold read_merge_bytes. rewrite <- Hl, read_merge_bytes_from_some; [f_equal; lia| |done|lia|lia|].
    + intros k b Hk. rewrite Z.add_0_l. by apply Hg.
    + unfold is_w. lia.
  - intros k Hk Hg. by apply (read_merge_bytes_from_none _ _ _ _ _ k).
Qed.

Lemma read_merge_bytes_spec_witness :
  read_merge_bytes 0x100000 2 (λ a, if a =? 0x100000 then Some 0x34 else Some 0x12) = Some 0x1234.
Proof.
  refine (proj1 (read_merge_bytes_spec (λ a, if a =? 0x100000 then Some 0x34 else Some 0x12)
    0x100000 [0x34; 0x12] 2 _ _ eq_refl) _).
  - lia.
  - repeat constructor; done.
  - intros [|[|k]] b; [intros [= <-]; reflexivity..|done].
Defined.
