(* ===== verification/Bloom.v ===== *)
(** * Bloom filters for conflict detection (common/tm_bloom_filter.hpp)

    A filter is an array of [WORDS] 64-bit words; a key sets two bits chosen by a
    splitmix finalizer.  Validators skip the exact read-set check when two
    filters are disjoint, so what matters is that this answer is never wrong.
    [insert] is two atomic [fetch_or]s: the filter order [⊑] (bitwise inclusion)
    makes the facts stable under whatever other inserts happen in between. *)

From S2P Require Import Prelude.
#[local] Open Scope Z_scope.
#[local] Open Scope word_scope.

Definition bloom_mix64 (z : Z) : Z :=
  let z := wrap64 ((z .^ (z .>> 30)) * 0xbf58476d1ce4e5b9) in
  let z := wrap64 ((z .^ (z .>> 27)) * 0x94d049bb133111eb) in
  z .^ (z .>> 31).

Abbreviation bloom := (list Z).

Definition bit_index (WORDS h : Z) : nat := Z.to_nat ((h .>> 6) .& (WORDS - 1)).
Definition bit_mask (h : Z) : Z := 1 .<< (h .& 63).

Definition bloom_clear (WORDS : Z) : bloom := replicate (Z.to_nat WORDS) 0.

(** [words_[i].load()]. *)
Definition bf_word (bf : bloom) (i : nat) : Z := default 0 (bf !! i).

Definition fetch_or (bf : bloom) (i : nat) (mask : Z) : bloom := alter (λ w, w .| mask) i bf.

Definition bloom_key2 (key : Z) : Z := key .^ 0x9e3779b97f4a7c15.

Definition bloom_insert (WORDS : Z) (bf : bloom) (key : Z) : bloom :=
  let h1 := bloom_mix64 key in
  let h2 := bloom_mix64 (bloom_key2 key) in
  fetch_or (fetch_or bf (bit_index WORDS h1) (bit_mask h1)) (bit_index WORDS h2) (bit_mask h2).

Definition bloom_contains (WORDS : Z) (bf : bloom) (key : Z) : bool :=
  let h1 := bloom_mix64 key in
  let h2 := bloom_mix64 (bloom_key2 key) in
  if bf_word bf (bit_index WORDS h1) .& bit_mask h1 =? 0 then false
  else if bf_word bf (bit_index WORDS h2) .& bit_mask h2 =? 0 then false
  else true.

Fixpoint disjoint_with (a b : bloom) : bool :=
  match a, b with
  | wa :: a', wb :: b' => if negb (wa .& wb =? 0) then false else disjoint_with a' b'
  | _, _ => true
  end.

Fixpoint pos_popcount (p : positive) : nat :=
  match p with xH => 1 | xO p' => pos_popcount p' | xI p' => S (pos_popcount p') end.

Definition builtin_popcountll (w : Z) : nat :=
  match w with Zpos p => pos_popcount p | _ => 0 end.

Definition bloom_popcount (bf : bloom) : nat := foldl (λ n w, n + builtin_popcountll w)%nat 0%nat bf.

Fixpoint bloom_empty (bf : bloom) : bool :=
  match bf with
  | [] => true
  | w :: bf' => if negb (w =? 0) then false else bloom_empty bf'
  end.

(** ** The finalizer is a bijection of 64-bit words *)

(** Undo [z ^ (z >> s)] for [3 * s >= 64]. *)
Definition unxorshift (s y : Z) : Z := y .^ (y .>> s) .^ (y .>> (2 * s)).

Definition bloom_unmix64 (y : Z) : Z :=
  let z := unxorshift 31 y in
  let z := unxorshift 27 (wrap64 (z * 0x319642b2d24d8ec3)) in
  unxorshift 30 (wrap64 (z * 0x96de1b173f119089)).

Lemma unxorshift_spec s z :
  0 ≤ s → 64 ≤ 3 * s → is_w 64 z → unxorshift s (z .^ (z .>> s)) = z.
Proof.
  intros Hs H3 Hz. unfold unxorshift. apply Z.bits_inj'. intros i Hi. autorewrite with zbits.
  replace (i + 2 * s + s) with (i + s + (s + s)) by lia.
  replace (i + s + s) with (i + 2 * s) by lia.
  rewrite (testbit_high 64 z (i + s + (s + s))) by (done || lia).
  zcmp; simpl; try lia.
  destruct (Z.testbit z i), (Z.testbit z (i + s)), (Z.testbit z (i + 2 * s)); done.
Qed.

Lemma xorshift_is_w s z : 0 ≤ s → is_w 64 z → is_w 64 (z .^ (z .>> s)).
Proof.
  intros Hs Hz. pose proof Hz as [Hz0 _]. apply word_of_bits; [lia| |].
  - apply Z.lxor_nonneg. split; [by intros; apply Z.shiftr_nonneg|done].
  - intros i Hi. rewrite Z.lxor_spec, testbit_shr, !(testbit_high 64 z) by (done || lia).
    by rewrite andb_false_r.
Qed.

Lemma wrap_mul_inverse z c d :
  wrap64 (c * d) = 1 → is_w 64 z → wrap64 (wrap64 (z * c) * d) = z.
Proof.
  unfold wrap. intros Hcd Hz. rewrite Z.mul_mod_idemp_l, <- Z.mul_assoc by lia.
  rewrite <- Z.mul_mod_idemp_r, Hcd, Z.mul_1_r by lia. by apply Z.mod_small.
Qed.

Lemma bloom_unmix_mix z : is_w 64 z → bloom_unmix64 (bloom_mix64 z) = z.
Proof.
  intros Hz. unfold bloom_unmix64, bloom_mix64.
  set (z1 := wrap64 (_ * 0xbf58476d1ce4e5b9)). set (z2 := wrap64 (_ * 0x94d049bb133111eb)).
  assert (is_w 64 z1) by (by apply wrap_is_w). assert (is_w 64 z2) by (by apply wrap_is_w).
  rewrite (unxorshift_spec 31 z2) by (done || lia). subst z2.
  rewrite wrap_mul_inverse by (try done; apply xorshift_is_w; done || lia).
  rewrite (unxorshift_spec 27 z1) by (done || lia). subst z1.
  rewrite wrap_mul_inverse by (try done; apply xorshift_is_w; done || lia).
  by apply unxorshift_spec.
Qed.

Lemma bloom_mix64_is_w z : is_w 64 (bloom_mix64 z).
Proof. apply xorshift_is_w; [lia | by apply wrap_is_w]. Qed.

(** ** Set bits *)

Definition bf_bit (bf : bloom) (i : nat) (j : Z) : bool := Z.testbit (bf_word bf i) j.

(** The bits a key selects. *)
Definition key_bits (WORDS key : Z) : list (nat * Z) :=
  (λ h, (bit_index WORDS h, h .& 63)) <$> [bloom_mix64 key; bloom_mix64 (bloom_key2 key)].

Definition bf_le (a b : bloom) : Prop := length a = length b ∧ ∀ i j, bf_bit a i j → bf_bit b i j.
Infix "⊑b" := bf_le (at level 70).

#[export] Instance bf_le_preorder : PreOrder bf_le.
Proof. split; [done|]. intros a b c [? H1] [? H2]. split; [congruence|auto]. Qed.

Lemma land63_range h : 0 ≤ h .& 63 < 64.
Proof. change 63 with (Z.ones 6). rewrite Z.land_ones by lia. by apply Z.mod_pos_bound. Qed.

Lemma bit_mask_bit h j : Z.testbit (bit_mask h) j = (j =? h .& 63).
Proof.
  unfold bit_mask, shl64. pose proof (land63_range h). rewrite testbit_wrap, testbit_shl by lia.
  zcmp; simpl; try lia; subst; rewrite ?Z.sub_diag; try done.
  destruct (Z.ltb_spec (j - (h .& 63)) 0); [by apply Z.testbit_neg_r|].
  by apply Z.bits_above_log2; simpl; lia.
Qed.

Lemma land_bit_mask w h : (w .& bit_mask h =? 0) = negb (Z.testbit w (h .& 63)).
Proof.
  destruct (Z.eqb_spec (w .& bit_mask h) 0) as [H0|H0].
  - apply (f_equal (λ x, Z.testbit x (h .& 63))) in H0.
    rewrite Z.land_spec, bit_mask_bit, Z.eqb_refl, andb_true_r, Z.testbit_0_l in H0. by rewrite H0.
  - destruct (Z.testbit w (h .& 63)) eqn:Hw; [done|]. exfalso. apply H0.
    apply Z.bits_inj'. intros j _. rewrite Z.land_spec, bit_mask_bit, Z.testbit_0_l.
    destruct (Z.eqb_spec j (h .& 63)) as [->|]; [by rewrite Hw | apply andb_false_r].
Qed.

Lemma bit_index_lt WORDS h : 0 < WORDS → (bit_index WORDS h < Z.to_nat WORDS)%nat.
Proof.
  intros HW. unfold bit_index. pose proof (land_bounds (h .>> 6) (WORDS - 1)). lia.
Qed.

Lemma bloom_contains_bits WORDS bf key :
  bloom_contains WORDS bf key = forallb (λ '(i, j), bf_bit bf i j) (key_bits WORDS key).
Proof.
  unfold bloom_contains, key_bits, bf_bit. simpl. rewrite !land_bit_mask.
  by destruct (Z.testbit _ _); destruct (Z.testbit _ _).
Qed.

Lemma fetch_or_bit bf i h i' j :
  (i < length bf)%nat →
  bf_bit (fetch_or bf i (bit_mask h)) i' j =
  bf_bit bf i' j || (bool_decide (i' = i) && (j =? h .& 63)).
Proof.
  intros Hi. unfold bf_bit, bf_word, fetch_or.
  destruct (decide (i' = i)) as [->|Hne].
  - rewrite list_lookup_alter_eq. destruct (lookup_lt_is_Some_2 bf i Hi) as [w Hw]. rewrite Hw. simpl.
    rewrite bool_decide_eq_true_2, Z.lor_spec, bit_mask_bit by done. done.
  - rewrite list_lookup_alter_ne by done. rewrite bool_decide_eq_false_2 by done. by rewrite orb_false_r.
Qed.

Lemma fetch_or_length bf i m : length (fetch_or bf i m) = length bf.
Proof. apply length_alter. Qed.

Lemma bloom_insert_length WORDS bf key : length (bloom_insert WORDS bf key) = length bf.
Proof. unfold bloom_insert. by rewrite !fetch_or_length. Qed.

(** Well-formed filters: [WORDS] 64-bit words. *)
Definition bloom_wf (WORDS : Z) (bf : bloom) : Prop :=
  length bf = Z.to_nat WORDS ∧ Forall (is_w 64) bf.

Section filter.
Context (WORDS : Z) (HW : 0 < WORDS).
Implicit Types bf a b : bloom.

Lemma bloom_insert_bit bf key i j :
  length bf = Z.to_nat WORDS →
  bf_bit (bloom_insert WORDS bf key) i j = bf_bit bf i j || bool_decide ((i, j) ∈ key_bits WORDS key).
Proof using HW.
  intros Hl. unfold bloom_insert. rewrite !fetch_or_bit;
    rewrite ?fetch_or_length, ?Hl; auto using bit_index_lt.
  rewrite <- orb_assoc. f_equal. unfold key_bits. simpl.
  apply eq_true_iff_eq. rewrite bool_decide_eq_true, !elem_of_cons, orb_true_iff, !andb_true_iff,
    !bool_decide_eq_true, !Z.eqb_eq.
  split; [intros [[-> ->]|[-> ->]]; auto|].
  intros [[=]|[[=]|Hn]]; auto. by apply elem_of_nil in Hn.
Qed.

Lemma bloom_insert_le bf key : length bf = Z.to_nat WORDS → bf ⊑b bloom_insert WORDS bf key.
Proof using HW.
  intros Hl. split; [by rewrite bloom_insert_length|]. intros i j Hb.
  rewrite bloom_insert_bit by done. apply orb_True. by left.
Qed.

(** Membership is stable under growth of the filter. *)
Lemma bloom_contains_mono a b key :
  a ⊑b b → bloom_contains WORDS a key = true → bloom_contains WORDS b key = true.
Proof using.
  intros [_ Hle]. rewrite !bloom_contains_bits, !forallb_forall.
  intros Ha [i j] Hin. specialize (Ha _ Hin). simpl in *. specialize (Hle i j).
  rewrite Ha in Hle. by apply Is_true_true, Hle.
Qed.

Lemma bloom_contains_insert bf key :
  length bf = Z.to_nat WORDS → bloom_contains WORDS (bloom_insert WORDS bf key) key = true.
Proof using HW.
  intros Hl. rewrite bloom_contains_bits, forallb_forall. intros [i j] Hin.
  rewrite bloom_insert_bit by done. rewrite bool_decide_eq_true_2 by (by apply list_elem_of_In).
  apply orb_true_r.
Qed.

Definition bloom_of (keys : list Z) : bloom := foldl (bloom_insert WORDS) (bloom_clear WORDS) keys.

Lemma bloom_of_le bf keys :
  length bf = Z.to_nat WORDS → bf ⊑b foldl (bloom_insert WORDS) bf keys.
Proof using HW.
  revert bf. induction keys as [|k keys IH]; intros bf Hl; simpl; [done|].
  etrans; [by apply bloom_insert_le | apply IH; by rewrite bloom_insert_length].
Qed.

Lemma bloom_of_length keys : length (bloom_of keys) = Z.to_nat WORDS.
Proof using HW.
  assert (length (bloom_clear WORDS) = Z.to_nat WORDS) as Hl by apply length_replicate.
  unfold bloom_of. by rewrite <- (proj1 (bloom_of_le _ keys Hl)).
Qed.

Lemma bloom_of_contains keys bf key :
  length bf = Z.to_nat WORDS → key ∈ keys →
  bloom_contains WORDS (foldl (bloom_insert WORDS) bf keys) key = true.
Proof using HW.
  revert bf. induction keys as [|k keys IH]; intros bf Hl Hin; [by apply elem_of_nil in Hin|].
  simpl. apply elem_of_cons in Hin as [->|Hin].
  - eapply bloom_contains_mono; [|by apply bloom_contains_insert].
    apply bloom_of_le. by rewrite bloom_insert_length.
  - apply IH; [by rewrite bloom_insert_length | done].
Qed.

(** Only bits of inserted keys are set. *)
Lemma bloom_of_bit keys bf i j :
  length bf = Z.to_nat WORDS →
  bf_bit (foldl (bloom_insert WORDS) bf keys) i j →
  bf_bit bf i j ∨ ∃ k, k ∈ keys ∧ (i, j) ∈ key_bits WORDS k.
Proof using HW.
  revert bf. induction keys as [|k keys IH]; intros bf Hl Hb; simpl in *; [by left|].
  apply IH in Hb as [Hb|(k' & Hin & Hk)]; [|right; set_solver|by rewrite bloom_insert_length].
  rewrite bloom_insert_bit in Hb by done. apply orb_True in Hb as [Hb|Hb]; [by left|].
  apply bool_decide_unpack in Hb. right. exists k. set_solver.
Qed.
End filter.

(** ** Disjointness *)

Lemma disjoint_with_spec a b :
  length a = length b →
  disjoint_with a b = true ↔ ∀ i j, 0 ≤ j → ¬ (bf_bit a i j ∧ bf_bit b i j).
Proof.
  revert b. induction a as [|wa a IH]; intros [|wb b] Hl; simpl in Hl; try lia.
  - split; [|done]. intros _ i j _ [Ha _]. unfold bf_bit, bf_word in Ha.
    simpl in Ha. by rewrite Z.testbit_0_l in Ha.
  - simpl. destruct (Z.eqb_spec (wa .& wb) 0) as [H0|H0]; simpl.
    + rewrite IH by lia. split.
      * intros H [|i] j Hj; [|apply (H i j Hj)]. unfold bf_bit, bf_word. simpl. intros [H1 H2].
        apply (f_equal (λ w, Z.testbit w j)) in H0. rewrite Z.land_spec, Z.testbit_0_l in H0.
        apply Is_true_true in H1, H2. by rewrite H1, H2 in H0.
      * intros H i j Hj. apply (H (S i) j Hj).
    + split; [done|]. intros H. exfalso. apply H0. apply Z.bits_inj'. intros j Hj.
      specialize (H 0%nat j Hj). unfold bf_bit, bf_word in H. simpl in H. rewrite Z.land_spec, Z.testbit_0_l.
      destruct (Z.testbit wa j), (Z.testbit wb j); simpl in *; tauto.
Qed.

Lemma testbit_exists z : z ≠ 0 → ∃ j, 0 ≤ j ∧ Z.testbit z j = true.
Proof.
  intros Hz. destruct (Z.lt_ge_cases z 0) as [Hn|Hp].
  - exists (Z.succ (Z.log2 (Z.pred (- z)))). pose proof (Z.log2_nonneg (Z.pred (- z))).
    split; [lia|]. apply Z.bits_above_log2_neg; lia.
  - exists (Z.log2 z). split; [apply Z.log2_nonneg|]. apply Z.bit_log2. lia.
Qed.

Lemma disjoint_with_shared a b :
  length a = length b → disjoint_with a b = false → ∃ i j, bf_bit a i j ∧ bf_bit b i j.
Proof.
  revert b. induction a as [|wa a IH]; intros [|wb b] Hl; simpl in *; try done.
  destruct (Z.eqb_spec (wa .& wb) 0) as [H0|H0]; simpl.
  - intros Hd. destruct (IH b ltac:(lia) Hd) as (i & j & ?). by exists (S i), j.
  - intros _. destruct (testbit_exists _ H0) as (j & _ & Hj). exists 0%nat, j.
    rewrite Z.land_spec in Hj. apply andb_true_iff in Hj as [H1 H2].
    unfold bf_bit, bf_word. simpl. by rewrite H1, H2.
Qed.

Lemma disjoint_no_common WORDS a b key :
  length a = length b → disjoint_with a b = true →
  bloom_contains WORDS a key = true → bloom_contains WORDS b key = true → False.
Proof.
  intros Hl Hd. rewrite !bloom_contains_bits. unfold key_bits. simpl. rewrite !andb_true_iff.
  intros [Ha _] [Hb _]. rewrite disjoint_with_spec in Hd by done.
  eapply Hd; [|split; apply Is_true_true; [exact Ha|exact Hb]].
  apply land63_range.
Qed.

(** ** Population count *)

Lemma popcountll_zero w : 0 ≤ w → builtin_popcountll w = 0%nat ↔ w = 0.
Proof.
  intros Hw. destruct w as [|p|p]; [done| |lia]. simpl. split; [|done]. intros Hz. exfalso.
  assert (0 < pos_popcount p)%nat as Hp; [|lia]. clear. induction p; simpl; lia.
Qed.

Lemma bloom_popcount_from bf n :
  foldl (λ n w, n + builtin_popcountll w)%nat n bf = (n + sum_list (builtin_popcountll <$> bf))%nat.
Proof. revert n. induction bf as [|w bf IH]; intros n; simpl; [lia|]. by rewrite IH, Nat.add_assoc. Qed.

Lemma bloom_popcount_empty bf :
  Forall (is_w 64) bf → bloom_popcount bf = 0%nat ↔ bloom_empty bf = true.
Proof.
  intros Hf. unfold bloom_popcount. rewrite bloom_popcount_from, Nat.add_0_l.
  induction Hf as [|w bf [Hw _] _ IH]; simpl; [done|].
  pose proof (popcountll_zero w Hw) as Hp. destruct (Z.eqb_spec w 0) as [->|Hne]; simpl.
  - by rewrite <- IH.
  - split; [|done]. intros Hs. exfalso. apply Hne, Hp. lia.
Qed.

(** ** Properties *)

(** No false negatives, and no false "disjoint".  A filter of at least one word
    built by any sequence of inserts contains every inserted key, also after any
    further inserts; and if [disjoint_with] answers true for two such filters, the key sets
    are disjoint, so a validator may skip its exact check. *)
Theorem bloom_sound WORDS keys1 keys2 :
  0 < WORDS →
  (∀ k, k ∈ keys1 → bloom_contains WORDS (bloom_of WORDS (keys1 ++ keys2)) k = true) ∧
  (disjoint_with (bloom_of WORDS keys1) (bloom_of WORDS keys2) = true → ∀ k, k ∈ keys1 → k ∉ keys2).
Proof.
  intros HW. assert (length (bloom_clear WORDS) = Z.to_nat WORDS) as Hl by apply length_replicate.
  split.
  - intros k Hk. apply bloom_of_contains; [done|done|]. set_solver.
  - intros Hd k H1 H2. refine (disjoint_no_common WORDS _ _ k _ Hd _ _).
    + by rewrite !bloom_of_length.
    + by apply bloom_of_contains.
    + by apply bloom_of_contains.
Qed.

Lemma bloom_sound_witness :
  bloom_contains 16 (bloom_of 16 ([0x1000; 0x2000] ++ [0x3000])) 0x2000 = true ∧ 0x1000 ∉ [0x3000].
Proof.
  destruct (bloom_sound 16 [0x1000; 0x2000] [0x3000] ltac:(lia)) as [H1 H2]. split.
  - apply H1. right. left.
  - apply H2; [vm_compute; reflexivity | left].
Defined.

(** The disjointness test is exact on bits: it answers true iff no bit is set in
    both filters, and every set bit of a filter is selected by an inserted key. *)
Theorem bloom_disjoint_exact WORDS keys1 keys2 :
  0 < WORDS →
  disjoint_with (bloom_of WORDS keys1) (bloom_of WORDS keys2) = false →
  ∃ k1 k2, k1 ∈ keys1 ∧ k2 ∈ keys2 ∧ ∃ ij, ij ∈ key_bits WORDS k1 ∧ ij ∈ key_bits WORDS k2.
Proof.
  intros HW Hd. assert (length (bloom_clear WORDS) = Z.to_nat WORDS) as Hl by apply length_replicate.
  assert (∀ i j, bf_bit (bloom_clear WORDS) i j = false) as Hclear.
  { intros i j. unfold bf_bit, bf_word, bloom_clear.
    destruct (replicate _ 0 !! i) as [w|] eqn:E; simpl; [|apply Z.testbit_0_l].
    apply lookup_replicate in E as [-> _]. apply Z.testbit_0_l. }
  destruct (disjoint_with_shared (bloom_of WORDS keys1) (bloom_of WORDS keys2)) as (i & j & H1 & H2); [|done|].
  { by rewrite !bloom_of_length. }
  apply bloom_of_bit in H1 as [H1|(k1 & ? & ?)]; [by rewrite Hclear in H1| |done|done].
  apply bloom_of_bit in H2 as [H2|(k2 & ? & ?)]; [by rewrite Hclear in H2| |done|done].
  by exists k1, k2; split_and!; [..|exists (i, j)].
Qed.

Lemma bloom_disjoint_exact_witness :
  ∃ k1 k2, k1 ∈ [0x1000] ∧ k2 ∈ [0x1000] ∧ ∃ ij, ij ∈ key_bits 16 k1 ∧ ij ∈ key_bits 16 k2.
Proof. apply bloom_disjoint_exact; [lia|vm_compute; reflexivity]. Defined.

(** The key finalizer is invertible on 64-bit words, so distinct keys have
    distinct hashes before the reduction to bit positions. *)
Theorem bloom_mix64_injective x y :
  is_w 64 x → is_w 64 y → x ≠ y → bloom_mix64 x ≠ bloom_mix64 y.
Proof.
  intros Hx Hy Hne H. apply Hne. rewrite <- (bloom_unmix_mix x Hx), H. by apply bloom_unmix_mix.
Qed.

Lemma bloom_mix64_injective_witness : bloom_mix64 1 ≠ bloom_mix64 2.
Proof. apply bloom_mix64_injective; done. Defined.

(** [popcount] is zero exactly for filters [empty] accepts. *)
Theorem bloom_empty_popcount bf :
  Forall (is_w 64) bf → bloom_popcount bf = 0%nat ↔ bloom_empty bf = true.
Proof. apply bloom_popcount_empty. Qed.

Lemma bloom_empty_popcount_witness : bloom_popcount [0; 4] = 0%nat ↔ bloom_empty [0; 4] = true.
Proof. apply bloom_empty_popcount. repeat constructor; done. Defined.
