(* ===== verification/TxLog.v ===== *)
(** * Accesses, logs and serial executions

    What the models of the lock-based backends share: the bytes an access covers and
    the word it lies in, memories compared byte by byte, and the execution of
    transaction logs one after the other. *)

From S2P Require Import Prelude Memory Values TMSpec LogMerge.
#[local] Open Scope Z_scope.
#[local] Open Scope word_scope.

(** ** Accesses *)

Definition word_base (x : Z) : Z := 8 * (x / 8).
Definition aligned_addr (a : Z) : Prop := is_w 64 a ∧ a mod 8 = 0.

(** Ranges of accesses. *)
Definition in_acc (a : Z) (sz : ValueType) (x : Z) : Prop := a ≤ x < a + nbytes_of sz.

(** Accesses are naturally aligned: they stay inside an 8-byte word. *)
Definition access_ok (a : Z) (sz : ValueType) : bool :=
  (0 <=? a) && (a <? 2 ^ 64) && (byte_offset a + nbytes_of sz <=? 8).

Lemma word_base_split x : word_base x + x mod 8 = x ∧ 0 ≤ x mod 8 < 8.
Proof. unfold word_base. pose proof (Z.div_mod x 8). pose proof (Z.mod_pos_bound x 8). lia. Qed.

Lemma word_base_eq a x : a mod 8 = 0 → word_base x = a ↔ a ≤ x < a + 8.
Proof.
  intros Ha. unfold word_base. pose proof (Z.div_mod a 8). pose proof (Z.div_mod x 8). pose proof (Z.mod_pos_bound x 8). split; [lia|].
  intros ?. assert (x / 8 = a / 8); [|lia]. apply Z.le_antisymm; [|apply Z.div_le_mono; lia].
  assert (x / 8 < a / 8 + 1); [|lia]. apply Z.div_lt_upper_bound; lia.
Qed.

Lemma align_down_base a : is_w 64 a → align_down_8 a = word_base a.
Proof. intros Ha. destruct (align_bits a Ha) as [H _]. exact H. Qed.

Lemma align_down_aligned a : is_w 64 a → aligned_addr (align_down_8 a).
Proof.
  intros Ha. rewrite align_down_base by done. pose proof (word_base_split a). unfold word_base, aligned_addr, is_w in *. split; [lia|].
  rewrite Z.mul_comm. apply Z.mod_mul. lia.
Qed.

Lemma access_ok_spec a sz : access_ok a sz = true ↔ is_w 64 a ∧ in_word sz a.
Proof. unfold access_ok, is_w, in_word. rewrite !andb_true_iff, !Z.leb_le, Z.ltb_lt. lia. Qed.

Lemma acc_base a sz x : is_w 64 a → in_word sz a → in_acc a sz x → word_base x = align_down_8 a ∧ x mod 8 = byte_offset a + (x - a).
Proof.
  intros Ha Hin Hx. unfold in_acc, in_word in *. rewrite byte_offset_mod in *. pose proof (word_base_split a) as [Hs Hm].
  pose proof (word_base_split x) as [Hs' Hm']. rewrite align_down_base by done.
  assert (word_base x = word_base a); [|lia]. apply word_base_eq; [|lia]. unfold word_base. rewrite Z.mul_comm. apply Z.mod_mul. lia.
Qed.

Lemma align_acc a sz x : is_w 64 a → in_word sz a → in_acc a sz x → is_w 64 x ∧ align_down_8 x = align_down_8 a.
Proof.
  intros Ha Hin Hx. destruct (acc_base a sz x Ha Hin Hx) as [Hb _]. pose proof (word_base_split x) as [? ?].
  assert (is_w 64 x) as Hw; [|split; [done|by rewrite (align_down_base x Hw)]]. pose proof (align_down_base a Ha) as Hal. rewrite Hal in Hb.
  unfold word_base in *. assert (a / 8 < 2 ^ 61) by (apply Z.div_lt_upper_bound; [lia|]; destruct Ha; lia).
  assert (0 ≤ a / 8) by (apply Z.div_pos; destruct Ha; lia). unfold is_w. lia.
Qed.

Lemma nth_acc a sz k : (k < type_size sz)%nat → in_acc a sz (a + Z.of_nat k).
Proof. unfold in_acc, nbytes_of. lia. Qed.

(** The bytes a read in progress has taken, latest first. *)
Fixpoint taken (a : Z) (v : nat) (bs : list Z) : list (Z * Z * nat) :=
  match bs with
  | [] => []
  | b :: bs' => taken (a + 1) v bs' ++ [(a, b, v)]
  end.

Lemma taken_snoc a v bs b : taken a v (bs ++ [b]) = (a + Z.of_nat (length bs), b, v) :: taken a v bs.
Proof.
  revert a. induction bs as [|c bs IH]; intros a; cbn [taken app length]; [by rewrite Z.add_0_r|]. rewrite IH.
  by replace (a + 1 + Z.of_nat (length bs)) with (a + Z.of_nat (S (length bs))) by lia.
Qed.

Lemma taken_elem a v bs x val v' : (x, val, v') ∈ taken a v bs ↔ v' = v ∧ ∃ k, bs !! k = Some val ∧ x = a + Z.of_nat k.
Proof.
  revert a. induction bs as [|c bs IH]; intros a; simpl.
  - split; [by intros ?%elem_of_nil|]. intros (_ & k & Hk & _). by rewrite lookup_nil in Hk.
  - rewrite elem_of_app, IH, list_elem_of_singleton. split.
    + intros [(-> & k & Hk & ->)|[= -> -> ->]]; [split; [done|exists (S k)]|split; [done|exists O]]; (split; [done|lia]).
    + intros (-> & [|k] & Hk & ->); simpl in Hk; [right; injection Hk as ->; repeat f_equal; lia|].
      left. split; [done|]. exists k. split; [done|lia].
Qed.

(** Accesses that do not overlap. *)
Definition apart (a1 : Z) (s1 : ValueType) (a2 : Z) (s2 : ValueType) : bool :=
  (a1 + nbytes_of s1 <=? a2) || (a2 + nbytes_of s2 <=? a1).
Lemma apart_spec a1 s1 a2 s2 : apart a1 s1 a2 s2 = true ↔ ∀ b, in_acc a1 s1 b → ¬ in_acc a2 s2 b.
Proof.
  unfold apart, in_acc, nbytes_of. rewrite orb_true_iff, !Z.leb_le. pose proof (type_size_range s1). pose proof (type_size_range s2). split; [lia|].
  intros H1. pose proof (H1 (Z.max a1 a2)). lia.
Qed.

Lemma apart_sym a1 s1 a2 s2 : apart a1 s1 a2 s2 = apart a2 s2 a1 s1.
Proof. apply eq_true_iff_eq. rewrite !apart_spec. naive_solver. Qed.

(** ** Disciplines on logs *)

(** The ranges a log has written, latest first. *)
Fixpoint wlog (acc : list (Z * ValueType)) (evs : list event) : list (Z * ValueType) :=
  match evs with
  | [] => acc
  | EvR _ _ _ :: evs' => wlog acc evs'
  | EvW a sz _ :: evs' => wlog ((a, sz) :: acc) evs'
  end.

Lemma wlog_app acc l1 l2 : wlog acc (l1 ++ l2) = wlog (wlog acc l1) l2.
Proof. revert acc. induction l1 as [|[a sz v|a sz v] l1 IH]; intros acc; simpl; [done|..]; by rewrite IH. Qed.

Section Obeys.
(** What a write, and a read, may be after the given writes. *)
Context (wfit rfit : list (Z * ValueType) → Z → ValueType → bool).

Fixpoint obeys (acc : list (Z * ValueType)) (evs : list event) : bool :=
  match evs with
  | [] => true
  | EvR a sz _ :: evs' => rfit acc a sz && obeys acc evs'
  | EvW a sz _ :: evs' => wfit acc a sz && obeys ((a, sz) :: acc) evs'
  end.

Lemma obeys_app acc l1 l2 : obeys acc (l1 ++ l2) = obeys acc l1 && obeys (wlog acc l1) l2.
Proof. revert acc. induction l1 as [|[a sz v|a sz v] l1 IH]; intros acc; simpl; [done|..]; by rewrite IH, andb_assoc. Qed.

Lemma obeys_snoc acc evs ev :
  obeys acc (evs ++ [ev]) = true ↔ obeys acc evs = true ∧
  match ev with EvR a sz _ => rfit (wlog acc evs) a sz | EvW a sz _ => wfit (wlog acc evs) a sz end = true.
Proof. rewrite obeys_app, andb_true_iff. destruct ev; simpl; by rewrite andb_true_r. Qed.

Lemma obeys_pairwise (R : Z * ValueType → Z * ValueType → Prop) acc evs :
  (∀ acc a sz w, wfit acc a sz = true → w ∈ acc → R (a, sz) w ∧ R w (a, sz)) → (∀ w, R w w) →
  obeys acc evs = true → (∀ w1 w2, w1 ∈ acc → w2 ∈ acc → R w1 w2) → ∀ w1 w2, w1 ∈ wlog acc evs → w2 ∈ wlog acc evs → R w1 w2.
Proof.
  intros Hf Hr. revert acc. induction evs as [|[a sz v|a sz v] evs IH]; intros acc; simpl; [done|..]; intros [Hw Ht]%andb_true_iff Hc; apply IH; try done.
  intros w1 w2 [->|H1]%elem_of_cons [->|H2]%elem_of_cons; [done|by apply (Hf acc)..|by apply Hc].
Qed.

Lemma obeys_writes (P : Z → Prop) acc evs :
  (∀ acc a sz, wfit acc a sz = true → P a) → obeys acc evs = true → (∀ a sz, (a, sz) ∈ acc → P a) → ∀ a sz, (a, sz) ∈ wlog acc evs → P a.
Proof.
  intros Hf. revert acc. induction evs as [|[a sz v|a sz v] evs IH]; intros acc; simpl; [done|..]; intros [Hw Ht]%andb_true_iff Hc; apply IH; try done.
  intros b s [[= -> ->]|H1]%elem_of_cons; [by apply (Hf acc a sz)|by eapply Hc].
Qed.
End Obeys.

(** ** Memories byte by byte *)

Lemma load_bytes_mget m m' a n : (∀ x, a ≤ x < a + Z.of_nat n → mget m x = mget m' x) → load_bytes m a n = load_bytes m' a n.
Proof.
  revert a. induction n as [|n IH]; intros a H; [done|]. cbn [load_bytes]. f_equal; [apply H; lia|]. apply IH. intros x ?. apply H. lia.
Qed.

Lemma read_mget_ext m m' a sz : (∀ x, in_acc a sz x → mget m x = mget m' x) → read_value_from_addr m a sz = read_value_from_addr m' a sz.
Proof.
  intros H. apply read_value_ext, load_bytes_mget. intros x Hx. apply H. unfold in_acc, nbytes_of. lia.
Qed.

Lemma write_value_mget m a v sz x :
  mget (write_value_to_addr m a v sz) x = if decide (in_acc a sz x) then byte_at (u8 v) (x - a) else mget m x.
Proof.
  unfold mget. rewrite write_value_lookup. unfold in_acc. case_decide; zcmp; simpl; try lia; done.
Qed.

Lemma return_read m a sz : return_any_type sz (read_value_from_addr m a sz) = wrap (8 * nbytes_of sz) (le_word (load_bytes m a (type_size sz))).
Proof. unfold return_any_type. rewrite read_value_eq. pose proof (type_size_range sz). by rewrite any_get_wrap by lia. Qed.

Lemma wrap_idem w v : 0 ≤ w → wrap w (wrap w v) = wrap w v.
Proof. intros. unfold wrap. by rewrite Z.mod_mod by lia. Qed.

Lemma shl64_pow k : 0 ≤ k < 64 → 1 .<< k = 2 ^ k.
Proof.
  intros Hk. unfold shl64, wrap64, wrap. rewrite Z.shiftl_1_l. apply Z.mod_small. split; [lia|]. apply Z.pow_lt_mono_r; lia.
Qed.

Lemma land_low v k w : 0 ≤ k ≤ w → wrap k (v .& Z.ones w) = wrap k v.
Proof.
  intros Hk. apply Z.bits_inj'. intros i Hi. rewrite !testbit_wrap, Z.land_spec, testbit_ones by lia. zcmp; simpl; try lia; try done.
  by rewrite andb_true_r.
Qed.

(** One byte more in a word put together byte by byte. *)
Lemma merge_byte merged b i :
  0 ≤ i < 8 → is_w (8 * i) merged → is_w 8 b →
  merged .| (b .<< (i * 8)) = merged + b * 2 ^ (8 * i) ∧ is_w (8 * (i + 1)) (merged .| (b .<< (i * 8))) ∧ 2 ^ (8 * (i + 1)) = 256 * 2 ^ (8 * i).
Proof.
  intros Hi Hm Hb. assert (Hp : 2 ^ (8 * (i + 1)) = 256 * 2 ^ (8 * i)) by (replace (8 * (i + 1)) with (8 + 8 * i) by lia; rewrite Z.pow_add_r by lia; done).
  assert (Hlor : merged .| (b .<< (i * 8)) = merged + b * 2 ^ (8 * i)).
  { unfold shl64, wrap64, wrap. rewrite (Z.mul_comm i), Z.mod_small; [apply lor_shift_add; [lia|done|apply Hb]|].
    rewrite Z.shiftl_mul_pow2 by lia. unfold is_w in Hb. assert (2 ^ (8 * (i + 1)) ≤ 2 ^ 64) by (apply Z.pow_le_mono_r; lia). nia. }
  split; [done|]. split; [|done]. rewrite Hlor. unfold is_w in *. rewrite Hp. nia.
Qed.

Definition holds (m : mem) (ext : list (Z * Z)) : Prop := ∀ a b, (a, b) ∈ ext → mget m a = b.

(** Replaying on memories with the same bytes. *)
Lemma replay_mget m1 m2 evs m1' :
  (∀ x, mget m1 x = mget m2 x) → replay m1 evs = Some m1' → ∃ m2', replay m2 evs = Some m2' ∧ ∀ x, mget m1' x = mget m2' x.
Proof.
  revert m1 m2. induction evs as [|[a sz v|a sz v] evs IH]; intros m1 m2 Hm; cbn [replay].
  - intros [= <-]. by exists m2.
  - rewrite (read_mget_ext m1 m2) by (intros; apply Hm). destruct (_ =? v); [|done]. by apply IH.
  - apply IH. intros x. rewrite !write_value_mget. case_decide; [done|apply Hm].
Qed.

(** ** Serial executions *)

(** The committed logs with versions up to [n], one after the other. *)
Fixpoint serial (m : mem) (h : gmap nat (list event)) (n : nat) : option mem :=
  match n with
  | O => Some m
  | S n' => m' ← serial m h n'; match h !! n with Some evs => replay m' evs | None => Some m' end
  end.

Lemma default_Some {A} (d : A) (o : option A) : match o with Some _ => true | None => false end = true → o = Some (default d o).
Proof. by destruct o. Qed.
