(* ===== verification/Interleave.v ===== *)
(** * Interleaved executions of threads

    A backend whose calls and atomic steps are functions on a shared state and a thread
    runs with any number of threads: at each point some thread starts a call or takes the
    next step of its current one.  Also, mutual exclusion by a lock in the shared state. *)

From S2P Require Import Prelude.

Section Exec.
Context {G T O : Type} (call : O → G → T → option (G * T)) (step : G → T → option (G * T)).

Inductive ix_step : G * list T → G * list T → Prop :=
  | ix_call g ts i t o g' t' : ts !! i = Some t → call o g t = Some (g', t') → ix_step (g, ts) (g', <[i := t']> ts)
  | ix_continue g ts i t g' t' : ts !! i = Some t → step g t = Some (g', t') → ix_step (g, ts) (g', <[i := t']> ts).

Inductive ix_reachable (s0 : G * list T) : G * list T → Prop :=
  | ix_start : ix_reachable s0 s0
  | ix_next s s' : ix_reachable s0 s → ix_step s s' → ix_reachable s0 s'.

(** Thread [i] starts the given call or continues its current one. *)
Definition ix_sched (s : G * list T) (io : nat * option O) : option (G * list T) :=
  t ← s.2 !! io.1;
  gt ← match io.2 with Some o => call o s.1 t | None => step s.1 t end;
  Some (gt.1, <[io.1 := gt.2]> s.2).

Fixpoint ix_run (s : G * list T) (l : list (nat * option O)) : option (G * list T) :=
  match l with
  | [] => Some s
  | io :: l' => s' ← ix_sched s io; ix_run s' l'
  end.

Lemma ix_run_reachable s0 s l s' : ix_reachable s0 s → ix_run s l = Some s' → ix_reachable s0 s'.
Proof.
  revert s. induction l as [|[i o] l IH]; intros s Hr; cbn [ix_run]; [by intros [= <-]|]. destruct (ix_sched s (i, o)) as [s1|] eqn:Hs; [|done].
  apply IH. eapply ix_next; [done|]. destruct s as [g ts]. unfold ix_sched in Hs. simpl in Hs. destruct (ts !! i) as [t|] eqn:Ht; [|done]. simpl in Hs.
  destruct o as [o|].
  - destruct (call o g t) as [[g' t']|] eqn:Hc; [|done]. injection Hs as <-. by eapply ix_call.
  - destruct (step g t) as [[g' t']|] eqn:Hc; [|done]. injection Hs as <-. by eapply ix_continue.
Qed.

(** Induction over executions, one thread at a time. *)
Lemma ix_invariant (P : G → list T → Prop) g0 ts0 :
  P g0 ts0 →
  (∀ g ts i t o g' t', P g ts → ts !! i = Some t → call o g t = Some (g', t') → P g' (<[i := t']> ts)) →
  (∀ g ts i t g' t', P g ts → ts !! i = Some t → step g t = Some (g', t') → P g' (<[i := t']> ts)) →
  ∀ g ts, ix_reachable (g0, ts0) (g, ts) → P g ts.
Proof.
  intros H0 Hc Hs g ts Hr. remember (g, ts) as s eqn:Es. revert g ts Es. induction Hr as [|s s' Hr IH Hst]; intros g ts Es; [injection Es as <- <-; done|].
  subst s'. destruct s as [g1 ts1]. specialize (IH g1 ts1 eq_refl). inversion Hst; subst; eauto.
Qed.

(** Scripts: thread [i] makes a call, takes some steps, or runs until [stop]. *)
Inductive ix_act := ACall (o : O) | ASteps (k : nat) | AUntil (stop : T → bool).

Fixpoint ix_steps (k : nat) (i : nat) (s : G * list T) : option (G * list T) :=
  match k with 0 => Some s | S k' => ix_sched s (i, None) ≫= ix_steps k' i end.

Fixpoint ix_until (fuel : nat) (stop : T → bool) (i : nat) (s : G * list T) : option (G * list T) :=
  match fuel with
  | 0 => None
  | S fuel' => t ← s.2 !! i; if stop t then Some s else ix_sched s (i, None) ≫= ix_until fuel' stop i
  end.

Definition ix_do (s : G * list T) (a : nat * ix_act) : option (G * list T) :=
  match a.2 with
  | ACall o => ix_sched s (a.1, Some o)
  | ASteps k => ix_steps k a.1 s
  | AUntil stop => ix_until 1000 stop a.1 s
  end.

Fixpoint ix_script (s : G * list T) (l : list (nat * ix_act)) : option (G * list T) :=
  match l with [] => Some s | a :: l' => s' ← ix_do s a; ix_script s' l' end.

Lemma ix_sched_reachable s0 s io s' : ix_reachable s0 s → ix_sched s io = Some s' → ix_reachable s0 s'.
Proof. intros Hr Hs. apply (ix_run_reachable s0 s [io]); [done|]. cbn [ix_run]. by rewrite Hs. Qed.

Lemma ix_script_reachable s0 s l s' : ix_reachable s0 s → ix_script s l = Some s' → ix_reachable s0 s'.
Proof.
  revert s. induction l as [|[i a] l IH]; intros s Hr; cbn [ix_script]; [by intros [= <-]|]. destruct (ix_do s (i, a)) as [s1|] eqn:Hd; [|done].
  apply IH. clear IH. unfold ix_do in Hd. cbn [fst snd] in Hd. destruct a as [o|k|stop].
  - by eapply ix_sched_reachable.
  - revert s Hr Hd. induction k as [|k IH]; intros s Hr; cbn [ix_steps]; [by intros [= <-]|]. destruct (ix_sched s (i, None)) as [s2|] eqn:Hs; [|done].
    apply IH. by eapply ix_sched_reachable.
  - revert s Hr Hd. generalize 1000. intros fuel. induction fuel as [|fuel IH]; intros s Hr; cbn [ix_until]; [done|].
    destruct (s.2 !! i) as [t|]; [|done]. cbn. destruct (stop t); [by intros [= <-]|]. destruct (ix_sched s (i, None)) as [s2|] eqn:Hs; [|done].
    apply IH. by eapply ix_sched_reachable.
Qed.
End Exec.
Arguments ACall {T O} o.
Arguments ASteps {T O} k.
Arguments AUntil {T O} stop.

(** A thread after the update of one of them. *)
Lemma update_lookup {T} (ts : list T) i t t' j u :
  ts !! i = Some t → <[i := t']> ts !! j = Some u ↔ (j = i ∧ u = t') ∨ (j ≠ i ∧ ts !! j = Some u).
Proof.
  intros Hi. destruct (decide (j = i)) as [->|Hne]; [|rewrite list_lookup_insert_ne by done; naive_solver].
  rewrite list_lookup_insert_eq by (by eapply lookup_lt_Some). naive_solver.
Qed.

(** ** Mutual exclusion *)

Section Mutex.
(** The threads that have passed the lock. *)
Context {T : Type} (holds : T → bool).

(** At most one thread holds the lock, and the lock says whether one does. *)
Definition mutex (locked : Prop) (ts : list T) : Prop :=
  (∀ i j t u, ts !! i = Some t → ts !! j = Some u → holds t = true → holds u = true → i = j) ∧
  (locked ↔ ∃ i t, ts !! i = Some t ∧ holds t = true).

(** How one thread's step affects the lock. *)
Definition lock_change (locked : Prop) (t : T) (locked' : Prop) (t' : T) : Prop :=
  match holds t, holds t' with
  | true, true => locked' ↔ locked
  | true, false => ¬ locked'
  | false, false => locked' ↔ locked
  | false, true => ¬ locked ∧ locked'
  end.

Lemma lock_change_mutex locked ts i t locked' t' :
  mutex locked ts → ts !! i = Some t → lock_change locked t locked' t' → mutex locked' (<[i := t']> ts).
Proof.
  intros [Hu Hl] Hi Hc. unfold lock_change in Hc. pose proof (λ j u, update_lookup ts i t t' j u Hi) as Hin.
  assert (Hother : ∀ j u, j ≠ i → ts !! j = Some u → holds u = true → holds t = false ∧ locked).
  { intros j u Hne Hj Hh. split; [|apply Hl; eauto]. destruct (holds t) eqn:Ht; [|done]. by destruct Hne; eapply Hu. }
  split.
  - intros j k u w [[-> ->]|[Hj Hju]]%Hin [[-> ->]|[Hk Hkw]]%Hin Hu1 Hw1; [done| | |by eapply Hu].
    + destruct (Hother k w Hk Hkw Hw1) as [Ht Hn]. rewrite Ht, Hu1 in Hc. by destruct Hc as [Hc _].
    + destruct (Hother j u Hj Hju Hu1) as [Ht Hn]. rewrite Ht, Hw1 in Hc. by destruct Hc as [Hc _].
  - setoid_rewrite Hin. split.
    + intros Hn. destruct (holds t') eqn:Ht'; [by exists i, t'; split; [left|]|]. destruct (holds t) eqn:Ht; [done|].
      apply Hc, Hl in Hn as (j & u & Hj & Hh). exists j, u. split; [|done]. right. split; [|done]. intros ->. congruence.
    + intros (j & u & [[-> ->]|[Hj Hju]] & Hh).
      * rewrite Hh in Hc. destruct (holds t) eqn:Ht; [apply Hc, Hl; eauto|apply Hc].
      * destruct (Hother j u Hj Hju Hh) as [Ht Hn]. rewrite Ht in Hc. destruct (holds t'); [apply Hc|by apply Hc].
Qed.
End Mutex.
