(* ===== verification/TinyLock.v ===== *)
(** * TinySTM lock words (tiny_stm/tinystm_common.hpp)

    Every TinySTM design shares the 64-bit lock word: two ownership bits, a 3-bit
    incarnation, a 13-bit owner id and a 46-bit version, and the operations on it.
    Each operation is modelled on the raw word, as the code computes it, and shown
    to act on the four fields as intended.  The second half runs the operations of
    several threads on one lock interleaved and proves mutual exclusion. *)

From S2P Require Import Prelude.
#[local] Open Scope Z_scope.
#[local] Open Scope word_scope.

Definition OWNED_BITS : Z := 2.
Definition INCARNATION_BITS : Z := 3.
Definition LOCK_BITS : Z := OWNED_BITS + INCARNATION_BITS.
Definition THREAD_BITS : Z := 13.
Definition MAX_THREADS : Z := 1 .<< THREAD_BITS.
Definition META_BITS : Z := LOCK_BITS + THREAD_BITS.

Definition WRITE_MASK : Z := 0x01.
Definition READ_MASK : Z := 0x02.
Definition OWNED_MASK : Z := WRITE_MASK .| READ_MASK.
Definition INCARNATION_MASK : Z := 0x7.
Definition THREAD_MASK : Z := MAX_THREADS - 1.

Definition VERSION_MASK : Z :=
  (not64 OWNED_MASK .& not64 (INCARNATION_MASK .<< OWNED_BITS) .& not64 (THREAD_MASK .<< LOCK_BITS))
  .>> META_BITS.
Definition VERSION_MAX : Z := VERSION_MASK.

Definition LOCK_EXTRA_BITS : Z := 3.
Definition LOCK_ARRAY_LOG_SIZE : Z := 14.
Definition LOCK_ARRAY_SIZE : Z := 1 .<< LOCK_ARRAY_LOG_SIZE.
Definition LOCK_ARRAY_MASK : Z := LOCK_ARRAY_SIZE - 1.

(** ** Class Lock: operations on the state word *)

Definition get_owner (s : Z) : Z := (s .& (THREAD_MASK .<< LOCK_BITS)) .>> LOCK_BITS.
Definition is_locked (s : Z) : bool := negb (s .& OWNED_MASK =? 0).
Definition is_locked_by (s tx_id : Z) : bool :=
  negb (s .& OWNED_MASK =? 0) && ((s .& (THREAD_MASK .<< LOCK_BITS)) .>> LOCK_BITS =? tx_id).
Definition get_version (s : Z) : Z := (s .& (VERSION_MASK .<< META_BITS)) .>> META_BITS.
Definition get_incarnation (s : Z) : Z := (s .>> OWNED_BITS) .& INCARNATION_MASK.

(** [unlock]: release, or count an owner mismatch, or nothing. *)
Inductive unlock_result := Released (s : Z) | OwnerMismatch | NotLocked.

Definition unlock (s tx_id : Z) : unlock_result :=
  if is_locked s && (get_owner s =? tx_id)
  then Released (s .& (not64 OWNED_MASK .& not64 (THREAD_MASK .<< LOCK_BITS)))
  else if is_locked s then OwnerMismatch else NotLocked.

(** The state [unlock] leaves. *)
Definition unlock_state (s tx_id : Z) : Z :=
  match unlock s tx_id with Released s' => s' | OwnerMismatch | NotLocked => s end.

Definition reset_version (s : Z) : Z := s .& not64 (VERSION_MASK .<< META_BITS).

(** [None] when the ownership assertion fails. *)
Definition unlock_with_version (s tx_id v : Z) : option Z :=
  if get_owner s =? tx_id then Some ((v .& VERSION_MASK) .<< META_BITS) else None.

Definition unlock_with_version_and_incarnation (s tx_id new_version new_incarnation : Z) : option Z :=
  if get_owner s =? tx_id
  then Some (((new_version .& VERSION_MASK) .<< META_BITS)
             .| ((new_incarnation .& INCARNATION_MASK) .<< OWNED_BITS))
  else None.

(** [try_lock] loads the state, computes the words of its compare-and-swap, and
    performs it; the two atomic operations are separate. *)
Definition try_lock_words (current_state tx_id : Z) : option (Z * Z) :=
  if negb (current_state .& OWNED_MASK =? 0) then None
  else
    let expected := current_state .& not64 OWNED_MASK in
    let desired := (current_state .& (VERSION_MASK .<< META_BITS))
                   .| (((tx_id .& THREAD_MASK) .<< LOCK_BITS) .| WRITE_MASK)
                   .| (current_state .& (INCARNATION_MASK .<< OWNED_BITS)) in
    if negb (expected .& OWNED_MASK =? 0) then None else Some (expected, desired).

Definition compare_exchange_strong (s expected desired : Z) : bool * Z :=
  if s =? expected then (true, desired) else (false, s).

(** [try_lock] without interference between the load and the swap. *)
Definition try_lock (s tx_id : Z) : bool * Z :=
  match try_lock_words s tx_id with
  | None => (false, s)
  | Some (expected, desired) => compare_exchange_strong s expected desired
  end.

Definition try_lock_with_incarnation (s tx_id incarnation : Z) : bool * Z :=
  compare_exchange_strong s 0
    (((tx_id .& THREAD_MASK) .<< LOCK_BITS) .| ((incarnation .& INCARNATION_MASK) .<< OWNED_BITS)).

Definition inc_abort (s current_incarnation : Z) : Z :=
  let new_incarnation := ((s .>> OWNED_BITS) .& INCARNATION_MASK) + 1 in
  let current_version := s .>> META_BITS in
  (current_version .<< META_BITS) .| ((new_incarnation .& INCARNATION_MASK) .<< OWNED_BITS).

(** Class Lock_wbetl: [set_version], its compare-and-swap succeeding at once. *)
Definition wbetl_set_version (s v : Z) : Z := (v .& VERSION_MASK) .| (s .& OWNED_MASK).

(** ** Lock table *)

Definition lock_index (addr : Z) : Z := (addr .>> LOCK_EXTRA_BITS) .& LOCK_ARRAY_MASK.

(** ** The fields *)

Record lockv := LV { lv_owned : Z; lv_inc : Z; lv_tid : Z; lv_ver : Z }.

Definition pack (l : lockv) : Z :=
  Z.lor (Z.shiftl (lv_ver l) 18) (Z.lor (Z.shiftl (lv_tid l) 5) (Z.lor (Z.shiftl (lv_inc l) 2) (lv_owned l))).

Definition unpack (s : Z) : lockv :=
  LV (Z.land s (Z.ones 2)) (Z.land (Z.shiftr s 2) (Z.ones 3)) (Z.land (Z.shiftr s 5) (Z.ones 13)) (Z.shiftr s 18).

Definition lockv_ok (l : lockv) : Prop :=
  is_w 2 (lv_owned l) ∧ is_w 3 (lv_inc l) ∧ is_w 13 (lv_tid l) ∧ is_w 46 (lv_ver l).

(** All masks as runs of ones. *)
Lemma OWNED_MASK_ones : OWNED_MASK = Z.ones 2. Proof. done. Qed.
Lemma INC_MASK_ones : INCARNATION_MASK = Z.ones 3. Proof. done. Qed.
Lemma THREAD_MASK_ones : THREAD_MASK = Z.ones 13. Proof. done. Qed.
Lemma VERSION_MASK_ones : VERSION_MASK = Z.ones 46. Proof. done. Qed.
Lemma LOCK_ARRAY_MASK_ones : LOCK_ARRAY_MASK = Z.ones 14. Proof. done. Qed.

Ltac lock_bits :=
  rewrite ?OWNED_MASK_ones, ?INC_MASK_ones, ?THREAD_MASK_ones, ?VERSION_MASK_ones, ?LOCK_ARRAY_MASK_ones;
  change META_BITS with 18; change LOCK_BITS with 5; change OWNED_BITS with 2;
  unfold WRITE_MASK, shl64, not64; cbn [lv_owned lv_inc lv_tid lv_ver].

Lemma unpack_ok s : is_w 64 s → lockv_ok (unpack s).
Proof.
  intros Hs. unfold lockv_ok, unpack. simpl. split_and!.
  1-3: rewrite Z.land_ones by lia; by apply Z.mod_pos_bound.
  destruct Hs. rewrite Z.shiftr_div_pow2 by lia. split; [apply Z.div_pos; lia|].
  apply Z.div_lt_upper_bound; lia.
Qed.

Lemma pack_unpack s : is_w 64 s → pack (unpack s) = s.
Proof.
  intros Hs. unfold pack, unpack. simpl. bits.
Qed.

Lemma unpack_pack l : lockv_ok l → unpack (pack l) = l.
Proof.
  destruct l as [o n t v]. intros (Ho & Hn & Ht & Hv). simpl in *. unfold unpack, pack. simpl.
  f_equal; bits.
Qed.

Lemma pack_is_w l : lockv_ok l → is_w 64 (pack l).
Proof.
  destruct l as [o n t v]. intros (Ho & Hn & Ht & Hv). unfold pack. simpl in *.
  pose proof Ho as [? _]. pose proof Hn as [? _]. pose proof Ht as [? _]. pose proof Hv as [? _].
  apply word_of_bits; [lia| |].
  - rewrite !Z.lor_nonneg, !Z.shiftl_nonneg. done.
  - intros i Hi. autorewrite with zbits.
    rewrite (testbit_high 2 o), (testbit_high 3 n), (testbit_high 13 t), (testbit_high 46 v) by (done || lia).
    btauto.
Qed.

Section fields.
Context (s : Z) (Hs : is_w 64 s).

Lemma get_owner_field : get_owner s = lv_tid (unpack s).
Proof using Hs. unfold get_owner, unpack. lock_bits. bits. Qed.

Lemma get_incarnation_field : get_incarnation s = lv_inc (unpack s).
Proof using Hs. unfold get_incarnation, unpack. lock_bits. bits. Qed.

Lemma get_version_field : get_version s = lv_ver (unpack s).
Proof using Hs.
  unfold get_version, unpack. lock_bits. bits.
Qed.

Lemma is_locked_field : is_locked s = negb (lv_owned (unpack s) =? 0).
Proof using Hs. unfold is_locked, unpack. by lock_bits. Qed.

Lemma is_locked_by_field tx : is_locked_by s tx = is_locked s && (lv_tid (unpack s) =? tx).
Proof using Hs. unfold is_locked_by, is_locked. f_equal. by rewrite <- get_owner_field. Qed.

Lemma unlock_word :
  s .& (not64 OWNED_MASK .& not64 (THREAD_MASK .<< LOCK_BITS)) =
  pack (LV 0 (lv_inc (unpack s)) 0 (lv_ver (unpack s))).
Proof using Hs.
  unfold pack, unpack. lock_bits. bits.
Qed.

Lemma inc_abort_word c :
  inc_abort s c = pack (LV 0 ((lv_inc (unpack s) + 1) mod 8) 0 (lv_ver (unpack s))).
Proof using Hs.
  unfold inc_abort, pack, unpack. lock_bits. rewrite (Z.land_ones (_ + 1)) by lia.
  change (2 ^ 3) with 8. set (w := _ mod 8).
  assert (is_w 3 w) as Hw by (apply Z.mod_pos_bound; lia).
  bits.
Qed.

Lemma try_lock_words_free tx :
  is_locked s = false →
  try_lock_words s tx = Some (s, pack (LV 1 (lv_inc (unpack s)) (wrap 13 tx) (lv_ver (unpack s)))).
Proof using Hs.
  unfold is_locked, try_lock_words. intros Hl. rewrite Hl.
  apply negb_false_iff, Z.eqb_eq in Hl.
  assert (s .& not64 OWNED_MASK = s) as ->.
  { revert Hl. lock_bits. intros Hl. apply Z.bits_inj'. intros i Hi. autorewrite with zbits.
    apply (f_equal (λ w, Z.testbit w i)) in Hl. rewrite Z.land_spec, testbit_ones, Z.testbit_0_l in Hl by lia.
    destruct (Z.ltb_spec i 64); [|by rewrite (testbit_high 64 s) by (done || lia)].
    revert Hl. zprune; intros; try btauto. rewrite andb_true_r in Hl. by rewrite Hl. }
  rewrite Hl, Z.eqb_refl. simpl. do 2 f_equal. clear Hl.
  assert (tx .& THREAD_MASK = wrap 13 tx) as ->.
  { lock_bits. by rewrite Z.land_ones by lia. }
  assert (is_w 13 (wrap 13 tx)) as Ht by (by apply wrap_is_w).
  set (t := wrap 13 tx) in *. clearbody t.
  unfold pack, unpack. lock_bits. change 1 with (Z.ones 1). bits.
Qed.
End fields.

Lemma try_lock_words_held s tx : is_locked s = true → try_lock_words s tx = None.
Proof. unfold is_locked, try_lock_words. intros Hl. by rewrite Hl. Qed.

Lemma unlock_with_version_word v :
  (v .& VERSION_MASK) .<< META_BITS = pack (LV 0 0 0 (wrap 46 v)).
Proof.
  assert (v .& VERSION_MASK = wrap 46 v) as -> by (lock_bits; by rewrite Z.land_ones by lia).
  assert (is_w 46 (wrap 46 v)) as Hw by (by apply wrap_is_w). set (w := wrap 46 v) in *. clearbody w.
  unfold pack. lock_bits. bits.
Qed.

(** Bounds of the words the operations leave. *)
Lemma lv_free_ok n v : is_w 3 n → is_w 46 v → lockv_ok (LV 0 n 0 v).
Proof. intros. split_and!; try done; unfold is_w; simpl; lia. Qed.

Lemma lv_held_ok n t v : is_w 3 n → is_w 13 t → is_w 46 v → lockv_ok (LV 1 n t v).
Proof. intros. split_and!; try done; unfold is_w; simpl; lia. Qed.

(** The word [try_lock] installs on a free lock. *)
Definition held_word (s tx_id : Z) : Z :=
  pack (LV 1 (lv_inc (unpack s)) (wrap 13 tx_id) (lv_ver (unpack s))).

Lemma unpack_held s tx_id :
  is_w 64 s → unpack (held_word s tx_id) = LV 1 (lv_inc (unpack s)) (wrap 13 tx_id) (lv_ver (unpack s)).
Proof.
  intros Hs. destruct (unpack_ok s Hs) as (_ & ? & _ & ?).
  apply unpack_pack, lv_held_ok; try done. by apply wrap_is_w.
Qed.

Lemma held_word_is_w s tx_id : is_w 64 s → is_w 64 (held_word s tx_id).
Proof.
  intros Hs. destruct (unpack_ok s Hs) as (_ & ? & _ & ?).
  apply pack_is_w, lv_held_ok; try done. by apply wrap_is_w.
Qed.

Lemma held_word_locked_by s tx_id :
  is_w 64 s → is_w 13 tx_id → is_locked_by (held_word s tx_id) tx_id = true.
Proof.
  intros Hs Ht. pose proof (held_word_is_w s tx_id Hs) as Hw.
  rewrite is_locked_by_field, is_locked_field, unpack_held by done. simpl.
  unfold wrap. rewrite Z.mod_small by done. apply Z.eqb_refl.
Qed.

Lemma free_word_unlocked n v :
  is_w 3 n → is_w 46 v → is_locked (pack (LV 0 n 0 v)) = false ∧ is_w 64 (pack (LV 0 n 0 v)).
Proof.
  intros Hn Hv. pose proof (lv_free_ok n v Hn Hv) as Ho. pose proof (pack_is_w _ Ho).
  split; [|done]. by rewrite is_locked_field, unpack_pack by done.
Qed.

(** ** Threads competing for one lock *)

Module Excl.

Inductive lpc := Out | Loaded (expected desired : Z) | Holding.
Record lthread := LT { lt_id : Z; lt_pc : lpc }.

(** How a holder releases: an abort, a commit, or an abort of the write-through design. *)
Inductive release := RAbort | RCommit (version : Z) | RIncAbort.

Definition release_word (s tx_id : Z) (r : release) : option Z :=
  match r with
  | RAbort => Some (unlock_state s tx_id)
  | RCommit v => unlock_with_version s tx_id v
  | RIncAbort => Some (inc_abort s 0)
  end.

(** One atomic operation of a thread. *)
Inductive lstep : Z → lthread → Z → lthread → Prop :=
  | step_load s i e d :
      try_lock_words s i = Some (e, d) → lstep s (LT i Out) s (LT i (Loaded e d))
  | step_busy s i : try_lock_words s i = None → lstep s (LT i Out) s (LT i Out)
  | step_cas_ok s i e d s' :
      compare_exchange_strong s e d = (true, s') → lstep s (LT i (Loaded e d)) s' (LT i Holding)
  | step_cas_fail s i e d s' :
      compare_exchange_strong s e d = (false, s') → lstep s (LT i (Loaded e d)) s' (LT i Out)
  | step_release s i r s' :
      release_word s i r = Some s' → lstep s (LT i Holding) s' (LT i Out).

Inductive lsteps : Z → list lthread → Z → list lthread → Prop :=
  | lsteps_refl s ts : lsteps s ts s ts
  | lsteps_step s ts s1 ts1 i t s2 t' :
      lsteps s ts s1 ts1 → ts1 !! i = Some t → lstep s1 t s2 t' →
      lsteps s ts s2 (<[i := t']> ts1).

(** Threads have distinct ids that fit the owner field. *)
Definition ids_ok (ts : list lthread) : Prop :=
  NoDup (lt_id <$> ts) ∧ Forall (λ t, is_w 13 (lt_id t)) ts.

Definition lt_ok (s : Z) (t : lthread) : Prop :=
  match lt_pc t with
  | Out => True
  | Loaded e d => is_w 64 e ∧ is_locked e = false ∧ d = held_word e (lt_id t)
  | Holding => is_locked_by s (lt_id t) = true
  end.

Definition linv (s : Z) (ts : list lthread) : Prop :=
  is_w 64 s ∧ ids_ok ts ∧ Forall (lt_ok s) ts ∧
  (is_locked s = false ∨ ∃ i t, ts !! i = Some t ∧ lt_pc t = Holding).

Lemma holders_unique s ts i j t u :
  is_w 64 s → ids_ok ts → Forall (lt_ok s) ts → ts !! i = Some t → ts !! j = Some u →
  lt_pc t = Holding → lt_pc u = Holding → i = j.
Proof.
  intros Hs [Hn _] Hf Hi Hj Ht Hu. rewrite Forall_lookup in Hf.
  pose proof (Hf _ _ Hi) as H1. pose proof (Hf _ _ Hj) as H2. unfold lt_ok in *. rewrite Ht in H1. rewrite Hu in H2.
  rewrite is_locked_by_field in H1, H2 by done.
  apply andb_true_iff in H1 as [_ H1%Z.eqb_eq]. apply andb_true_iff in H2 as [_ H2%Z.eqb_eq].
  apply (NoDup_lookup _ i j (lt_id t) Hn); rewrite list_lookup_fmap; [by rewrite Hi|].
  rewrite Hj. simpl. congruence.
Qed.

Lemma ids_insert ts i t t' : ts !! i = Some t → lt_id t' = lt_id t → ids_ok ts → ids_ok (<[i := t']> ts).
Proof.
  intros Hi Hid [Hn Hf]. split.
  - rewrite list_fmap_insert, Hid. rewrite list_insert_id; [done|]. rewrite list_lookup_fmap. by rewrite Hi.
  - apply Forall_insert; [done|]. rewrite Hid. rewrite Forall_lookup in Hf. by apply (Hf i).
Qed.

(** What a successful swap and a release do to the word. *)
Lemma cas_ok_word s e d s' : compare_exchange_strong s e d = (true, s') → s = e ∧ s' = d.
Proof. unfold compare_exchange_strong. destruct (Z.eqb_spec s e); intros [=]; done. Qed.

Lemma cas_fail_word s e d s' : compare_exchange_strong s e d = (false, s') → s' = s.
Proof. unfold compare_exchange_strong. destruct (s =? e); by intros [=]. Qed.

Lemma release_free s i r s' :
  is_w 64 s → is_locked_by s i = true → release_word s i r = Some s' →
  is_locked s' = false ∧ is_w 64 s'.
Proof.
  intros Hs Hl Hr. pose proof Hl as Hl'. rewrite is_locked_by_field in Hl' by done.
  apply andb_true_iff in Hl' as [Hl1 Hl2].
  destruct (unpack_ok s Hs) as (_ & Hn & _ & Hv).
  destruct r; simpl in Hr.
  - injection Hr as <-. unfold unlock_state, unlock. rewrite Hl1, get_owner_field, Hl2 by done. simpl.
    rewrite unlock_word by done. by apply free_word_unlocked.
  - unfold unlock_with_version in Hr. rewrite get_owner_field, Hl2 in Hr by done. injection Hr as <-.
    rewrite unlock_with_version_word. apply free_word_unlocked; [done|]. by apply wrap_is_w.
  - injection Hr as <-. rewrite inc_abort_word by done. apply free_word_unlocked; [|done].
    by apply Z.mod_pos_bound.
Qed.

(** Threads that do not hold are unaffected by a change of the word. *)
Lemma lt_ok_change s s' ts i t' :
  Forall (lt_ok s) ts → lt_ok s' t' →
  (∀ j u, ts !! j = Some u → j ≠ i → lt_pc u ≠ Holding) →
  Forall (lt_ok s') (<[i := t']> ts).
Proof.
  intros Hf Ht Hno. rewrite Forall_lookup in *. intros j u Hj.
  apply list_lookup_insert_Some in Hj as [(-> & <- & _)|[Hne Hj]]; [done|].
  specialize (Hf _ _ Hj). specialize (Hno _ _ Hj ltac:(done)). unfold lt_ok in *.
  by destruct (lt_pc u).
Qed.

Lemma linv_step s ts i t s' t' :
  linv s ts → ts !! i = Some t → lstep s t s' t' → linv s' (<[i := t']> ts).
Proof.
  intros (Hs & Hid & Hf & Hh) Hi Hstep. pose proof Hf as Hf'. rewrite Forall_lookup in Hf'.
  pose proof (Hf' _ _ Hi) as Ht. destruct Hid as [Hn Hb]. pose proof Hb as Hb'. rewrite Forall_lookup in Hb'.
  pose proof (Hb' _ _ Hi) as Hidt. assert (ids_ok ts) as Hid by done.
  pose proof (lookup_lt_Some _ _ _ Hi) as Hlt.
  assert (∀ u, lt_pc t ≠ Holding → (is_locked s = false ∨ ∃ j u, ts !! j = Some u ∧ lt_pc u = Holding) →
     is_locked s = false ∨ ∃ j u0, <[i := u]> ts !! j = Some u0 ∧ lt_pc u0 = Holding) as Hkeep.
  { intros u Hnh [|(j & u0 & Hj & Hu0)]; [by left|]. right. exists j, u0. split; [|done].
    rewrite list_lookup_insert_ne; [done|]. intros ->. congruence. }
  inversion Hstep as [s0 k e d Hw|s0 k Hw|s0 k e d s1 Hc|s0 k e d s1 Hc|s0 k r s1 Hr]; subst; simpl in *.
  - assert (is_locked s' = false) as Hfree.
    { destruct (is_locked s') eqn:E; [|done]. by rewrite try_lock_words_held in Hw. }
    rewrite try_lock_words_free in Hw by done. injection Hw as <- <-.
    split_and!; [done|by eapply ids_insert| |by left]. by apply Forall_insert.
  - split_and!; [done|by eapply ids_insert|by apply Forall_insert|by apply Hkeep].
  - destruct Ht as (He & Hfree & Hd). simpl in Hd. apply cas_ok_word in Hc as [-> ->]. subst d.
    split_and!; [by apply held_word_is_w|by eapply ids_insert| |].
    + apply (lt_ok_change e); [done|by apply held_word_locked_by|].
      intros j u Hj _ Hu. specialize (Hf' _ _ Hj). unfold lt_ok in Hf'. rewrite Hu in Hf'.
      rewrite is_locked_by_field, Hfree in Hf' by done. done.
    + right. exists i. eexists. split; [by apply list_lookup_insert_eq|done].
  - apply cas_fail_word in Hc as ->.
    split_and!; [done|by eapply ids_insert|by apply Forall_insert|by apply Hkeep].
  - destruct (release_free s k r s' Hs Ht Hr) as [Hfree Hs'].
    split_and!; [done|by eapply ids_insert| |by left].
    apply (lt_ok_change s); [done|done|]. intros j u Hj Hne Hu.
    by apply Hne, (holders_unique s ts j i u (LT k Holding)).
Qed.

Lemma linv_steps s ts s' ts' : linv s ts → lsteps s ts s' ts' → linv s' ts'.
Proof. intros Hi. induction 1; [done|]. by eapply linv_step; [apply IHlsteps| |]. Qed.

End Excl.

(** ** Properties *)

(** The lock-word operations act on the fields.  On every 64-bit word, the
    accessors return the owner, version and incarnation fields; [try_lock] fails on an owned
    word and otherwise installs the write bit and the caller's id, keeping version and
    incarnation; the owner's [unlock] clears ownership and keeps version and
    incarnation, [unlock_with_version] publishes the version modulo 2^46, and
    [inc_abort] advances the incarnation modulo 8. *)
Theorem lock_ops_fields s tx :
  is_w 64 s →
  let l := unpack s in
  get_owner s = lv_tid l ∧ get_version s = lv_ver l ∧ get_incarnation s = lv_inc l ∧
  try_lock s tx = (if is_locked s then (false, s) else (true, pack (LV 1 (lv_inc l) (wrap 13 tx) (lv_ver l)))) ∧
  unpack (inc_abort s 0) = LV 0 ((lv_inc l + 1) mod 8) 0 (lv_ver l) ∧
  (is_locked_by s tx = true →
     unpack (unlock_state s tx) = LV 0 (lv_inc l) 0 (lv_ver l) ∧
     ∀ v, unpack <$> unlock_with_version s tx v = Some (LV 0 0 0 (wrap 46 v))).
Proof.
  intros Hs l. destruct (unpack_ok s Hs) as (_ & Hn & _ & Hv).
  rewrite get_owner_field, get_version_field, get_incarnation_field, inc_abort_word by done.
  split_and!; try done.
  - unfold try_lock. destruct (is_locked s) eqn:E; [by rewrite try_lock_words_held|].
    rewrite try_lock_words_free by done. unfold compare_exchange_strong. by rewrite Z.eqb_refl.
  - apply unpack_pack, lv_free_ok; [by apply Z.mod_pos_bound|done].
  - intros Hl. rewrite is_locked_by_field in Hl by done. apply andb_true_iff in Hl as [H1 H2].
    unfold unlock_state, unlock, unlock_with_version. rewrite H1, get_owner_field, H2 by done. simpl. split.
    + rewrite unlock_word by done. by apply unpack_pack, lv_free_ok.
    + intros v. rewrite unlock_with_version_word. f_equal.
      apply unpack_pack, lv_free_ok; [done|by apply wrap_is_w].
Qed.

Lemma lock_ops_fields_witness :
  try_lock (pack (LV 0 2 0 77)) 5 = (true, pack (LV 1 2 5 77)) ∧ get_version (pack (LV 0 2 0 77)) = 77.
Proof.
  destruct (lock_ops_fields (pack (LV 0 2 0 77)) 5 ltac:(split; done)) as (_ & Hv & _ & Ht & _).
  split; [exact Ht|exact Hv].
Defined.

(** C23: at most one transaction holds a lock.  Threads with distinct ids that fit the
    owner field race on a lock word with the atomic load and compare-and-swap of
    [try_lock] and any of the release operations; in every reachable state two
    holders are the same thread, a holder is the recorded owner, and a word nobody
    holds is free. *)
Theorem lock_mutual_exclusion s0 ts0 s ts :
  is_w 64 s0 → is_locked s0 = false → Excl.ids_ok ts0 →
  Forall (λ t, Excl.lt_pc t = Excl.Out) ts0 → Excl.lsteps s0 ts0 s ts →
  (∀ i j t u, ts !! i = Some t → ts !! j = Some u →
     Excl.lt_pc t = Excl.Holding → Excl.lt_pc u = Excl.Holding → i = j) ∧
  (∀ t, t ∈ ts → Excl.lt_pc t = Excl.Holding → is_locked_by s (Excl.lt_id t) = true) ∧
  (Forall (λ t, Excl.lt_pc t ≠ Excl.Holding) ts → is_locked s = false).
Proof.
  intros Hs Hfree Hid Hout Hsteps.
  assert (Excl.linv s0 ts0) as Hinv.
  { split_and!; [done..| |by left]. eapply Forall_impl; [done|]. intros t Ht. unfold Excl.lt_ok. by rewrite Ht. }
  apply (Excl.linv_steps _ _ _ _ Hinv) in Hsteps as (Hs' & Hid' & Hf & Hh). split_and!.
  - intros. by eapply (Excl.holders_unique s ts).
  - intros t Hin Ht. rewrite Forall_forall in Hf. specialize (Hf t Hin). unfold Excl.lt_ok in Hf. by rewrite Ht in Hf.
  - intros Hno. destruct Hh as [|(i & t & Hi & Ht)]; [done|]. rewrite Forall_lookup in Hno. by apply Hno in Hi.
Qed.

Lemma lock_mutual_exclusion_witness :
  is_locked_by (pack (LV 1 0 1 9)) 1 = true.
Proof.
  pose (ts0 := [Excl.LT 1 Excl.Out; Excl.LT 2 Excl.Out]).
  pose (d := pack (LV 1 0 1 9)). pose (s0 := pack (LV 0 0 0 9)).
  assert (Excl.lsteps s0 ts0 s0 (<[0%nat := Excl.LT 1 (Excl.Loaded s0 d)]> ts0)) as H1.
  { eapply Excl.lsteps_step; [apply Excl.lsteps_refl|reflexivity|]. apply Excl.step_load. reflexivity. }
  assert (Excl.lsteps s0 ts0 d (<[0%nat := Excl.LT 1 Excl.Holding]> (<[0%nat := Excl.LT 1 (Excl.Loaded s0 d)]> ts0))) as H2.
  { eapply Excl.lsteps_step; [exact H1|reflexivity|]. apply Excl.step_cas_ok. reflexivity. }
  refine (proj1 (proj2 (lock_mutual_exclusion s0 ts0 d _ _ _ _ _ H2)) (Excl.LT 1 Excl.Holding) _ _).
  - split; done.
  - reflexivity.
  - split; [|repeat constructor; done]. apply (bool_decide_unpack _). vm_compute. exact I.
  - repeat constructor.
  - left.
  - reflexivity.
Defined.

(** An owner id that does not fit the 13-bit field is lost.  For an id of
    [MAX_THREADS] or more, [try_lock] succeeds and leaves the word locked, but
    [is_locked_by] denies the caller the lock it just took, and its [unlock] does not
    release it. *)
Theorem lock_thread_id_overflow s tx :
  is_w 64 s → is_locked s = false → MAX_THREADS ≤ tx →
  let '(acquired, s') := try_lock s tx in
  acquired = true ∧ is_locked s' = true ∧ is_locked_by s' tx = false ∧ unlock_state s' tx = s'.
Proof.
  intros Hs Hfree Htx. unfold try_lock. rewrite try_lock_words_free by done.
  unfold compare_exchange_strong. rewrite Z.eqb_refl.
  pose proof (held_word_is_w s tx Hs) as Hw. fold (held_word s tx).
  assert (is_locked (held_word s tx) = true) as Hl by (by rewrite is_locked_field, unpack_held).
  assert ((get_owner (held_word s tx) =? tx) = false) as Ho.
  { rewrite get_owner_field, unpack_held by done. simpl. apply Z.eqb_neq.
    change MAX_THREADS with (2 ^ 13) in Htx. pose proof (Z.mod_pos_bound tx (2 ^ 13)). unfold wrap. lia. }
  split_and!; [done|done| |].
  - rewrite is_locked_by_field, Hl, <- get_owner_field by done. exact Ho.
  - unfold unlock_state, unlock. by rewrite Hl, Ho.
Qed.

Lemma lock_thread_id_overflow_witness :
  is_locked_by (snd (try_lock 0 8193)) 8193 = false.
Proof.
  refine (proj1 (proj2 (proj2 (lock_thread_id_overflow 0 8193 _ eq_refl _)))); [split; done|].
  vm_compute. discriminate.
Defined.

(** [try_lock_with_incarnation] does not lock: the word it installs has no ownership
    bit, so the lock still reads as free and a second thread acquires it at once. *)
Theorem incarnation_lock_not_exclusive tx inc tx2 :
  let '(acquired, s) := try_lock_with_incarnation 0 tx inc in
  acquired = true ∧ is_locked s = false ∧ (try_lock s tx2).1 = true.
Proof.
  unfold try_lock_with_incarnation, compare_exchange_strong. rewrite Z.eqb_refl.
  set (s := _ .| _).
  assert (is_w 64 s) as Hs.
  { apply word_of_bits; [lia| |].
    - apply Z.lor_nonneg. split; by apply wrap_is_w.
    - intros i Hi. unfold s, shl64. autorewrite with zbits. zprune; btauto. }
  assert (is_locked s = false) as Hl.
  { apply negb_false_iff, Z.eqb_eq. unfold s. lock_bits. bits. }
  split_and!; [done|done|]. unfold try_lock. rewrite try_lock_words_free by done.
  unfold compare_exchange_strong. by rewrite Z.eqb_refl.
Qed.
