(* ===== verification/TinyWriteSet.v ===== *)
(** * TinySTM write set with its lazy index (tiny_stm/tinystm_common.hpp)

    A transaction's write set is a vector of (address, entry) pairs, scanned linearly
    while it is small; past [kWsIndexThreshold] entries an address-to-position map is
    kept beside it.  Both representations are modelled; the results show that they
    implement one finite map, whichever of them is active. *)

From S2P Require Import Prelude.

(** [std::unordered_map<void*, size_t>] used as a finite map. *)
Record wset (E : Type) := WSet { ws_vec : list (Z * E); ws_index : gmap Z nat }.
Arguments WSet {E}.
Arguments ws_vec {E}.
Arguments ws_index {E}.

Definition kWsIndexThreshold : nat := 32.

Section WriteSet.
Context {E : Type}.
Implicit Types (w : wset E) (vec : list (Z * E)).

Definition ws_index_empty w : bool := bool_decide (ws_index w = ∅).

(** The linear scan: position of the first pair with the address. *)
Fixpoint ws_scan vec (addr : Z) : option nat :=
  match vec with
  | [] => None
  | kv :: vec' => if (kv.1 =? addr)%Z then Some 0 else S <$> ws_scan vec' addr
  end.

(** Position of the entry for an address: what [ws_find] returns a pointer to. *)
Definition ws_pos w (addr : Z) : option nat :=
  if negb (ws_index_empty w) then ws_index w !! addr else ws_scan (ws_vec w) addr.

Definition ws_find w (addr : Z) : option E :=
  match ws_pos w addr with
  | Some i => snd <$> ws_vec w !! i
  | None => None
  end.

Definition ws_index_activate w : wset E :=
  WSet (ws_vec w) (foldl (λ ix ikv, <[ikv.2.1 := ikv.1]> ix) ∅ (zip (seq 0 (length (ws_vec w))) (ws_vec w))).

(** [ws_get_or_insert]: the position of the (possibly new, default) entry. *)
Definition ws_get_or_insert (dflt : E) w (addr : Z) : wset E * nat :=
  if negb (ws_index_empty w) then
    match ws_index w !! addr with
    | Some i => (w, i)
    | None =>
        let vec' := ws_vec w ++ [(addr, dflt)] in
        (WSet vec' (<[addr := length vec' - 1]> (ws_index w)), length vec' - 1)
    end
  else
    match ws_scan (ws_vec w) addr with
    | Some i => (w, i)
    | None =>
        let vec' := ws_vec w ++ [(addr, dflt)] in
        let w' := WSet vec' (ws_index w) in
        ((if (kWsIndexThreshold <? length vec') then ws_index_activate w' else w'), length vec' - 1)
    end.

(** Assignment through the reference it returns. *)
Definition ws_assign w (i : nat) (e : E) : wset E :=
  WSet (alter (λ kv, (kv.1, e)) i (ws_vec w)) (ws_index w).

Definition ws_put (dflt : E) w (addr : Z) (e : E) : wset E :=
  let '(w', i) := ws_get_or_insert dflt w addr in ws_assign w' i e.

(** [ws_erase_idx]: swap with the last pair, then pop. *)
Definition ws_erase_idx w (i : nat) : wset E :=
  if length (ws_vec w) <=? i then w
  else
    match ws_vec w !! i, last (ws_vec w) with
    | Some erased, Some back =>
        let ix :=
          if negb (ws_index_empty w) then
            let ix := if (erased.1 =? back.1)%Z then ws_index w else <[back.1 := i]> (ws_index w) in
            delete erased.1 ix
          else ws_index w in
        WSet (take (length (ws_vec w) - 1) (<[i := back]> (ws_vec w))) ix
    | _, _ => w
    end.

Definition ws_erase_addr w (addr : Z) : wset E :=
  if negb (ws_index_empty w) then
    match ws_index w !! addr with
    | Some i => ws_erase_idx w i
    | None => w
    end
  else
    match ws_scan (ws_vec w) addr with
    | Some i => ws_erase_idx w i
    | None => w
    end.

Definition ws_clear w : wset E := WSet [] ∅.

(** ** Invariant and abstraction *)

Definition keys vec : list Z := vec.*1.

(** The index, when active, maps each address to its position. *)
Definition index_exact vec (ix : gmap Z nat) : Prop := ∀ a i, ix !! a = Some i ↔ keys vec !! i = Some a.

Definition wset_wf w : Prop :=
  NoDup (keys (ws_vec w)) ∧ (ws_index w = ∅ ∨ index_exact (ws_vec w) (ws_index w)).

Definition wset_map w : gmap Z E := list_to_map (ws_vec w).

Lemma ws_scan_spec vec addr i :
  NoDup (keys vec) → ws_scan vec addr = Some i ↔ keys vec !! i = Some addr.
Proof.
  revert i. induction vec as [|[a e] vec IH]; intros i Hn; [done|].
  simpl. apply NoDup_cons in Hn as [Hni Hn]. simpl in Hni.
  destruct (Z.eqb_spec a addr) as [->|Hne].
  - split; [by intros [= <-]|]. destruct i as [|i]; [done|]. simpl. intros Hi.
    by apply list_elem_of_lookup_2 in Hi.
  - rewrite fmap_Some. destruct i as [|i]; simpl.
    + split; [by intros (j & _ & ?)|]. by intros [= ->].
    + rewrite <- IH by done. split; [by intros (j & ? & [= ->])|]. intros ?. by exists i.
Qed.

(** Both representations locate the same entry. *)
Lemma ws_pos_spec w addr i :
  wset_wf w → ws_pos w addr = Some i ↔ keys (ws_vec w) !! i = Some addr.
Proof.
  intros [Hn Hix]. unfold ws_pos, ws_index_empty. case_bool_decide as He; simpl.
  - by apply ws_scan_spec.
  - destruct Hix as [|Hix]; [done|]. apply Hix.
Qed.

Lemma wset_map_lookup vec addr e :
  NoDup (keys vec) → (list_to_map vec : gmap Z E) !! addr = Some e ↔ ∃ i, vec !! i = Some (addr, e).
Proof. intros Hn. rewrite <- elem_of_list_to_map by done. apply list_elem_of_lookup. Qed.

Lemma keys_lookup vec i a : keys vec !! i = Some a ↔ ∃ e, vec !! i = Some (a, e).
Proof.
  unfold keys. rewrite list_lookup_fmap, fmap_Some. split.
  - intros ([a' e] & ? & ->). by exists e.
  - intros (e & ?). by exists (a, e).
Qed.

Lemma ws_find_lookup w addr : wset_wf w → ws_find w addr = wset_map w !! addr.
Proof.
  intros Hwf. pose proof Hwf as [Hn _]. unfold ws_find. destruct (ws_pos w addr) as [i|] eqn:Hp.
  - apply (ws_pos_spec w addr i Hwf) in Hp. apply keys_lookup in Hp as [e He]. rewrite He. simpl. symmetry.
    apply wset_map_lookup; [done|]. by exists i.
  - symmetry. destruct (wset_map w !! addr) as [e|] eqn:Hl; [|done]. exfalso.
    apply wset_map_lookup in Hl as [i Hi]; [|done].
    assert (keys (ws_vec w) !! i = Some addr) as Hk by (apply keys_lookup; by exists e).
    apply (ws_pos_spec w addr i Hwf) in Hk. congruence.
Qed.

(** ** Building the index *)

Definition index_of vec : gmap Z nat :=
  foldl (λ ix ikv, <[ikv.2.1 := ikv.1]> ix) ∅ (zip (seq 0 (length vec)) vec).

Lemma index_of_snoc vec kv : index_of (vec ++ [kv]) = <[kv.1 := length vec]> (index_of vec).
Proof.
  unfold index_of. rewrite length_app, seq_app, zip_with_app by (by rewrite length_seq).
  simpl. by rewrite foldl_app.
Qed.

Lemma index_of_exact vec : NoDup (keys vec) → index_exact vec (index_of vec).
Proof.
  induction vec as [|kv vec IH] using rev_ind; intros Hn a i; [done|].
  unfold keys in Hn. rewrite fmap_app in Hn. apply NoDup_app in Hn as (Hn & Hd & _).
  specialize (IH Hn). rewrite index_of_snoc. unfold keys. rewrite fmap_app. simpl.
  rewrite lookup_insert_Some, (IH a i). unfold keys. rewrite lookup_app_Some, length_fmap. split.
  - intros [[<- <-]|[Hne Hi]]; [right|by left]. split; [done|]. by rewrite Nat.sub_diag.
  - intros [Hi|[Hle Hi]].
    + right. split; [|done]. intros <-. apply (Hd kv.1); [by eapply list_elem_of_lookup_2|set_solver].
    + left. destruct (i - length vec) eqn:Hd0; simpl in Hi; [|by rewrite lookup_nil in Hi].
      injection Hi as ->. split; [done|lia].
Qed.

Lemma index_exact_insert vec ix addr e :
  index_exact vec ix → addr ∉ keys vec →
  index_exact (vec ++ [(addr, e)]) (<[addr := length vec]> ix).
Proof.
  intros Hix Hni a i. unfold keys. rewrite fmap_app. simpl.
  rewrite lookup_insert_Some, (Hix a i). unfold keys. rewrite lookup_app_Some, length_fmap. split.
  - intros [[<- <-]|[Hne Hi]]; [right|by left]. split; [done|]. by rewrite Nat.sub_diag.
  - intros [Hi|[Hle Hi]].
    + right. split; [|done]. intros <-. by apply Hni, (list_elem_of_lookup_2 _ i).
    + left. destruct (i - length vec) eqn:E'; simpl in Hi; [|by rewrite lookup_nil in Hi].
      injection Hi as ->. split; [done|lia].
Qed.

(** ** Insertion *)

Lemma ws_pos_none w addr : wset_wf w → ws_pos w addr = None ↔ addr ∉ keys (ws_vec w).
Proof.
  intros Hwf. split.
  - intros Hp (i & Hi)%list_elem_of_lookup_1. apply (ws_pos_spec w addr i Hwf) in Hi. congruence.
  - intros Hni. destruct (ws_pos w addr) as [i|] eqn:Hp; [|done].
    apply (ws_pos_spec w addr i Hwf) in Hp. by apply list_elem_of_lookup_2 in Hp.
Qed.

(** [ws_get_or_insert] in terms of the position, whatever the representation. *)
Lemma ws_get_or_insert_cases dflt w addr :
  wset_wf w →
  match ws_pos w addr with
  | Some i => ws_get_or_insert dflt w addr = (w, i)
  | None => ∃ ix, ws_get_or_insert dflt w addr =
                    (WSet (ws_vec w ++ [(addr, dflt)]) ix, length (ws_vec w)) ∧
                  wset_wf (WSet (ws_vec w ++ [(addr, dflt)]) ix)
  end.
Proof.
  intros Hwf. pose proof (ws_pos_none w addr Hwf) as Hnone. pose proof Hwf as [Hn Hix].
  assert (ws_pos w addr = None → NoDup (keys (ws_vec w ++ [(addr, dflt)]))) as Hn'.
  { intros Hp. unfold keys. rewrite fmap_app. apply NoDup_app. split; [done|]. apply Hnone in Hp.
    split; [set_solver|apply NoDup_singleton]. }
  unfold ws_pos, ws_get_or_insert, ws_index_empty in *. rewrite !length_app. simpl length.
  rewrite Nat.add_sub. case_bool_decide as He; simpl in *.
  - destruct (ws_scan (ws_vec w) addr) as [i|]; [done|]. specialize (Hn' eq_refl).
    destruct (kWsIndexThreshold <? length (ws_vec w) + 1).
    + eexists. split; [reflexivity|]. split; [done|]. right. by apply index_of_exact.
    + eexists. split; [reflexivity|]. split; [done|]. by left.
  - destruct (ws_index w !! addr) as [i|]; [done|]. eexists. split; [reflexivity|]. split; [by apply Hn'|].
    right. destruct Hix as [|Hix]; [done|]. apply index_exact_insert; [done|]. by apply Hnone.
Qed.

Lemma keys_alter vec i e : keys (alter (λ kv, (kv.1, e)) i vec) = keys vec.
Proof.
  unfold keys. revert i. induction vec as [|kv vec IH]; intros [|i]; [done..|]. simpl. f_equal. apply IH.
Qed.

Lemma ws_assign_wf w i e : wset_wf w → wset_wf (ws_assign w i e).
Proof.
  intros [Hn Hix]. unfold wset_wf, ws_assign, index_exact. simpl. rewrite keys_alter. done.
Qed.

Lemma ws_assign_map w i addr e :
  wset_wf w → keys (ws_vec w) !! i = Some addr →
  wset_map (ws_assign w i e) = <[addr := e]> (wset_map w).
Proof.
  intros Hwf Hk. pose proof Hwf as [Hn _]. pose proof (ws_assign_wf w i e Hwf) as [Hn' _].
  apply map_eq. intros b. apply option_eq. intros e'. unfold wset_map. rewrite lookup_insert_Some.
  rewrite !wset_map_lookup by done. simpl. apply keys_lookup in Hk as [e0 He0]. split.
  - intros (j & Hj). destruct (decide (i = j)) as [<-|Hne].
    + left. rewrite list_lookup_alter_eq, He0 in Hj. injection Hj as <- <-. done.
    + rewrite list_lookup_alter_ne in Hj by done. right. split; [|by exists j]. intros <-. apply Hne.
      apply (NoDup_lookup (keys (ws_vec w)) _ _ addr Hn); apply keys_lookup; eauto.
  - intros [[-> ->]|[Hne (j & Hj)]].
    + exists i. rewrite list_lookup_alter_eq, He0. done.
    + exists j. rewrite list_lookup_alter_ne; [done|]. intros ->. congruence.
Qed.

Lemma wset_map_append vec ix ix' addr e :
  addr ∉ keys vec →
  wset_map (WSet (vec ++ [(addr, e)]) ix) = <[addr := e]> (wset_map (WSet vec ix')).
Proof.
  intros Hni. unfold wset_map. simpl. rewrite list_to_map_app. simpl.
  rewrite <- insert_union_r; [by rewrite map_union_empty|]. by apply not_elem_of_list_to_map_1.
Qed.

Lemma ws_put_map dflt w addr e :
  wset_wf w → wset_wf (ws_put dflt w addr e) ∧ wset_map (ws_put dflt w addr e) = <[addr := e]> (wset_map w).
Proof.
  intros Hwf. unfold ws_put. pose proof (ws_get_or_insert_cases dflt w addr Hwf) as Hc.
  destruct (ws_pos w addr) as [i|] eqn:Hp.
  - rewrite Hc. apply (ws_pos_spec w addr i Hwf) in Hp. split; [by apply ws_assign_wf|by apply ws_assign_map].
  - destruct Hc as (ix & -> & Hwf'). apply (ws_pos_none w addr Hwf) in Hp.
    split; [by apply ws_assign_wf|]. rewrite (ws_assign_map _ _ addr); [|done|].
    + destruct w as [vec ix0]. rewrite (wset_map_append _ _ ix0) by done. by rewrite insert_insert_eq.
    + apply keys_lookup. exists dflt. by apply list_lookup_middle.
Qed.

(** ** Erasure *)

Definition swap_pop {A} (l : list A) (i : nat) (back : A) : list A := take (length l - 1) (<[i := back]> l).

Lemma swap_pop_lookup {A} (l : list A) i back j x :
  i < length l →
  swap_pop l i back !! j = Some x ↔ j < length l - 1 ∧ ((j = i ∧ x = back) ∨ (j ≠ i ∧ l !! j = Some x)).
Proof.
  intros Hi. unfold swap_pop. rewrite lookup_take_Some, list_lookup_insert_Some. naive_solver.
Qed.

Lemma fmap_swap_pop {A B} (f : A → B) (l : list A) i back :
  f <$> swap_pop l i back = swap_pop (f <$> l) i (f back).
Proof. unfold swap_pop. by rewrite fmap_take, list_fmap_insert, length_fmap. Qed.

(** Positions of a duplicate-free list after swap-with-last. *)
Lemma swap_pop_positions (ks : list Z) i a bk j b :
  NoDup ks → ks !! i = Some a → ks !! (length ks - 1) = Some bk →
  swap_pop ks i bk !! j = Some b ↔
  b ≠ a ∧ ((b = bk ∧ j = i) ∨ (b ≠ bk ∧ ks !! j = Some b)).
Proof.
  intros Hn Hi Hb. pose proof (lookup_lt_Some _ _ _ Hi) as Hlt.
  assert (∀ k k' x, ks !! k = Some x → ks !! k' = Some x → k = k') as Hinj.
  { intros. by eapply NoDup_lookup. }
  rewrite swap_pop_lookup by done. split.
  - intros [Hj [[-> ->]|[Hne Hjb]]].
    + split; [|by left]. intros ->. specialize (Hinj _ _ _ Hi Hb). lia.
    + split; [intros ->; by apply Hne, (Hinj _ _ a)|]. right. split; [|done].
      intros ->. specialize (Hinj _ _ _ Hjb Hb). lia.
  - intros [Hba [[-> ->]|[Hbb Hj]]].
    + split; [|by left]. assert (i ≠ length ks - 1) by (intros ->; congruence). lia.
    + pose proof (lookup_lt_Some _ _ _ Hj). split; [|right; split; [intros ->; congruence|done]].
      assert (j ≠ length ks - 1) by (intros ->; congruence). lia.
Qed.

Lemma swap_pop_NoDup (ks : list Z) i a bk :
  NoDup ks → ks !! i = Some a → ks !! (length ks - 1) = Some bk → NoDup (swap_pop ks i bk).
Proof.
  intros Hn Hi Hb. apply NoDup_alt. intros j j' b Hj Hj'.
  rewrite (swap_pop_positions ks i a bk) in Hj, Hj' by done.
  destruct Hj as [_ [[-> ->]|[? Hj]]]; destruct Hj' as [_ [[? ->]|[? Hj']]]; try done.
  by eapply NoDup_lookup.
Qed.

Lemma ws_erase_idx_swap w i a x :
  ws_vec w !! i = Some (a, x) →
  ∃ back, last (ws_vec w) = Some back ∧
    ws_erase_idx w i = WSet (swap_pop (ws_vec w) i back)
      (if ws_index_empty w then ws_index w
       else delete a (if (a =? back.1)%Z then ws_index w else <[back.1 := i]> (ws_index w))).
Proof.
  intros Hi. pose proof (lookup_lt_Some _ _ _ Hi) as Hlt.
  destruct (last (ws_vec w)) as [back|] eqn:Hl.
  - exists back. split; [done|]. unfold ws_erase_idx. rewrite Hi, Hl.
    destruct (Nat.leb_spec (length (ws_vec w)) i); [lia|]. by destruct (ws_index_empty w).
  - rewrite last_None in Hl. rewrite Hl in Hlt. simpl in Hlt. lia.
Qed.

Lemma swap_pop_map vec i a x back ix :
  NoDup (keys vec) → vec !! i = Some (a, x) → vec !! (length vec - 1) = Some back →
  NoDup (keys (swap_pop vec i back)) →
  wset_map (WSet (swap_pop vec i back) ix) = delete a (list_to_map vec).
Proof.
  intros Hn Hi Hb Hn'. apply map_eq. intros b. apply option_eq. intros e. unfold wset_map. simpl.
  rewrite lookup_delete_Some, !wset_map_lookup by done. pose proof (lookup_lt_Some _ _ _ Hi) as Hlt.
  assert (∀ k k' c e1 e2, vec !! k = Some (c, e1) → vec !! k' = Some (c, e2) → k = k') as Hinj.
  { intros k k' c e1 e2 Hk Hk'. apply (NoDup_lookup _ _ _ c Hn); apply keys_lookup; eauto. }
  split.
  - intros (j & Hj). apply swap_pop_lookup in Hj as [Hj [[-> <-]|[Hne Hjb]]]; [| |done].
    + split; [|by exists (length vec - 1)]. intros <-. specialize (Hinj _ _ _ _ _ Hi Hb). lia.
    + split; [|by exists j]. intros <-. by apply Hne, (Hinj _ _ a e x).
  - intros [Hne (j & Hj)]. pose proof (lookup_lt_Some _ _ _ Hj).
    destruct (decide (j = length vec - 1)) as [->|Hjn].
    + exists i. apply swap_pop_lookup; [done|]. rewrite Hb in Hj. injection Hj as ->.
      split; [|by left]. assert (i ≠ length vec - 1) by (intros ->; congruence). lia.
    + exists j. apply swap_pop_lookup; [done|]. split; [lia|]. right. split; [|done]. intros ->. congruence.
Qed.

Lemma ws_erase_idx_spec w i a x :
  wset_wf w → ws_vec w !! i = Some (a, x) →
  wset_wf (ws_erase_idx w i) ∧ wset_map (ws_erase_idx w i) = delete a (wset_map w).
Proof.
  intros [Hn Hix] Hi. destruct (ws_erase_idx_swap w i a x Hi) as (back & Hl & ->).
  rewrite last_lookup, <- Nat.sub_1_r in Hl.
  assert (keys (ws_vec w) !! i = Some a) as Hki by (apply keys_lookup; by exists x).
  assert (keys (ws_vec w) !! (length (keys (ws_vec w)) - 1) = Some back.1) as Hkb.
  { replace (length (keys (ws_vec w))) with (length (ws_vec w)) by (symmetry; apply length_fmap).
    apply keys_lookup. exists back.2. rewrite Hl. by destruct back. }
  assert (NoDup (keys (swap_pop (ws_vec w) i back))) as Hn'.
  { unfold keys. rewrite fmap_swap_pop. by eapply swap_pop_NoDup. }
  split; [|by apply (swap_pop_map _ _ _ x)]. split; [done|]. simpl.
  unfold ws_index_empty. case_bool_decide as He; [by left|]. right.
  destruct Hix as [|Hix]; [done|]. intros b j. unfold keys. rewrite fmap_swap_pop.
  rewrite (swap_pop_positions _ i a back.1) by done. rewrite lookup_delete_Some.
  destruct (Z.eqb_spec a back.1) as [Hab|Hab]; rewrite ?lookup_insert_Some, (Hix b j); naive_solver.
Qed.

Lemma ws_erase_addr_spec w addr :
  wset_wf w →
  wset_wf (ws_erase_addr w addr) ∧ wset_map (ws_erase_addr w addr) = delete addr (wset_map w).
Proof.
  intros Hwf. assert (ws_erase_addr w addr = match ws_pos w addr with Some i => ws_erase_idx w i | None => w end) as ->.
  { unfold ws_erase_addr, ws_pos. by destruct (ws_index_empty w). }
  destruct (ws_pos w addr) as [i|] eqn:Hp.
  - apply (ws_pos_spec w addr i Hwf), keys_lookup in Hp as [e He]. by eapply ws_erase_idx_spec.
  - split; [done|]. apply (ws_pos_none w addr Hwf) in Hp. symmetry. apply delete_id.
    by apply not_elem_of_list_to_map_1.
Qed.
End WriteSet.

(** ** Properties *)

(** The TinySTM write set implements a finite map.  From any well-formed state,
    whether it scans its vector or uses its index, lookup, get-or-insert with assignment
    and erasure (swap with last) act as lookup, insert and delete on the address map, and
    keep the representation well formed, also when an insertion crosses the threshold and
    builds the index. *)
Theorem wset_refines_map {E} (dflt : E) w addr e :
  wset_wf w →
  ws_find w addr = wset_map w !! addr ∧
  (wset_wf (ws_put dflt w addr e) ∧ wset_map (ws_put dflt w addr e) = <[addr := e]> (wset_map w)) ∧
  (wset_wf (ws_erase_addr w addr) ∧ wset_map (ws_erase_addr w addr) = delete addr (wset_map w)) ∧
  (wset_wf (ws_clear w) ∧ wset_map (ws_clear w) = ∅).
Proof.
  intros Hwf. split_and!; try (by apply ws_put_map); try (by apply ws_erase_addr_spec).
  - by apply ws_find_lookup.
  - split; [constructor|by left].
  - done.
Qed.

Definition wset_sample : wset Z :=
  foldl (λ w a, ws_put 0%Z w a (a * a)%Z) (WSet [] ∅) (seqZ 100 40).

Lemma wset_sample_wf : wset_wf wset_sample.
Proof.
  split; [apply (bool_decide_unpack _); vm_compute; exact I|]. right.
  replace (ws_index wset_sample) with (index_of (ws_vec wset_sample)) by (vm_compute; reflexivity).
  apply index_of_exact. apply (bool_decide_unpack _). vm_compute. exact I.
Qed.

Lemma wset_refines_map_witness :
  ws_index_empty wset_sample = false ∧
  wset_map (ws_erase_addr wset_sample 117) = delete 117%Z (wset_map wset_sample).
Proof.
  split; [vm_compute; reflexivity|].
  refine (proj2 (proj1 (proj2 (proj2 (wset_refines_map 0%Z wset_sample 117 0%Z wset_sample_wf))))).
Defined.
