(* ===== verification/HashTable.v ===== *)
(** * Open-addressing containers (common/tm_safe_map.hpp, common/tm_hash_set.hpp)

    [TMSafeMap] and [TMSafeHashSet] share one algorithm: linear probing over a
    power-of-two array with load factor 3/4, growth by rehashing, and deletion by
    shifting entries back.  The table is modelled once, over a key and a value type
    and an arbitrary hash function; the map's operations and the set's operations
    are given on it.  The probing loops carry fuel (the capacity), and running out of it is
    shown to be impossible in well-formed tables.

    Lookup, insertion, growth, copying and clearing implement a finite map.
    Deletion does so when its shifting loop runs to the end of the cluster; its early
    exit strands entries, which the last part exhibits. *)

From S2P Require Import Prelude.

Record table (K V : Type) := Tbl { m_data : list (option (K * V)); m_size : nat }.
Arguments Tbl {K V}.
Arguments m_data {K V}.
Arguments m_size {K V}.

Section Table.
Context {K V : Type} `{!EqDecision K} (hash : K → Z).
Implicit Types (t : table K V) (data : list (option (K * V))).

(** [m_cap] is the number of slots; an unoccupied slot is [None]. *)
Definition m_cap t : nat := length (m_data t).
Definition empty_table : table K V := Tbl [] 0.

Definition occupied data (i : nat) : bool :=
  match data !! i with Some (Some _) => true | _ => false end.

Definition hash_idx (cap : nat) (k : K) : nat := Z.to_nat (Z.land (hash k) (Z.of_nat cap - 1)).
Definition next_idx (cap i : nat) : nat := Nat.land (i + 1) (cap - 1).

(** The loop of [find_occupied]; [None] when the fuel runs out. *)
Fixpoint find_loop data (k : K) (fuel i : nat) : option nat :=
  match fuel with
  | O => None
  | S fuel' =>
      match data !! i with
      | Some (Some kv) =>
          if decide (kv.1 = k) then Some i else find_loop data k fuel' (next_idx (length data) i)
      | _ => Some (length data)
      end
  end.

Definition find_occupied t (k : K) : option nat :=
  if m_cap t =? 0 then Some 0 else find_loop (m_data t) k (m_cap t) (hash_idx (m_cap t) k).

(** [while (occupied) i = (i + 1) & (m_cap - 1)]. *)
Fixpoint empty_loop data (fuel i : nat) : option nat :=
  match fuel with
  | O => None
  | S fuel' => if occupied data i then empty_loop data fuel' (next_idx (length data) i) else Some i
  end.

(** Rehash one entry into the new array. *)
Definition rehash_entry (nd : list (option (K * V))) (kv : K * V) : option (list (option (K * V))) :=
  j ← empty_loop nd (length nd) (hash_idx (length nd) kv.1);
  Some (<[j := Some kv]> nd).

Fixpoint rehash data (nd : list (option (K * V))) : option (list (option (K * V))) :=
  match data with
  | [] => Some nd
  | None :: data' => rehash data' nd
  | Some kv :: data' => nd' ← rehash_entry nd kv; rehash data' nd'
  end.

Definition new_cap (cap : nat) : nat := if cap =? 0 then 16 else cap * 2.

Definition grow t : option (table K V) :=
  nd ← rehash (m_data t) (replicate (new_cap (m_cap t)) None);
  Some (Tbl nd (m_size t)).

(** [static_cast<size_t>(m_cap * MAX_LOAD)] with MAX_LOAD = 0.75. *)
Definition max_load (cap : nat) : nat := 3 * cap / 4.

Definition find_empty t (k : K) : option (table K V * nat) :=
  t' ← (if max_load (m_cap t) <=? m_size t then grow t else Some t);
  i ← empty_loop (m_data t') (m_cap t') (hash_idx (m_cap t') k);
  Some (t', i).

(** The shifting loop of [do_erase], from [hole] on; the flag tells whether it ran to an empty
    slot ([true]) or left at an entry that may not slide ([false]). *)
Definition must_slide (h hole next : nat) : bool :=
  if h <=? next then (h <=? hole) && (hole <=? next) else (h <=? hole) || (hole <=? next).

Fixpoint erase_loop data (fuel hole : nat) : option (list (option (K * V)) * bool) :=
  match fuel with
  | O => None
  | S fuel' =>
      let next := next_idx (length data) hole in
      match data !! next with
      | Some (Some kv) =>
          let h := hash_idx (length data) kv.1 in
          if must_slide h hole next
          then erase_loop (<[next := None]> (<[hole := Some kv]> data)) fuel' next
          else Some (data, false)
      | _ => Some (data, true)
      end
  end.

Definition do_erase t (i : nat) : option (table K V * bool) :=
  '(data, full) ← erase_loop (<[i := None]> (m_data t)) (m_cap t) i;
  Some (Tbl data (m_size t - 1), full).

(** ** TMSafeMap *)

(** [find]: the pair found, or [end()]. *)
Definition tm_find t (k : K) : option (option (K * V)) :=
  i ← find_occupied t k;
  Some (if i <? m_cap t then default None (m_data t !! i) else None).

(** [operator[]]: index of the slot, inserting a default value when absent. *)
Definition tm_index (dflt : V) t (k : K) : option (table K V * nat) :=
  i ← find_occupied t k;
  if i <? m_cap t then Some (t, i)
  else
    '(t', j) ← find_empty t k;
    Some (Tbl (<[j := Some (k, dflt)]> (m_data t')) (m_size t' + 1), j).

(** [m[k] = v]. *)
Definition tm_set (dflt : V) t (k : K) (v : V) : option (table K V) :=
  '(t', i) ← tm_index dflt t k;
  Some (Tbl (<[i := Some (k, v)]> (m_data t')) (m_size t')).

Definition tm_erase t (k : K) : option (table K V * nat) :=
  i ← find_occupied t k;
  if m_cap t <=? i then Some (t, 0)
  else r ← do_erase t i; Some (r.1, 1).

Definition tm_clear t : table K V := Tbl (replicate (m_cap t) None) 0.

(** Occupied slots in iteration order, and the copy constructor. *)
Definition tm_elements t : list (K * V) := omap id (m_data t).

Fixpoint tm_copy_from (dflt : V) (src : list (option (K * V))) t : option (table K V) :=
  match src with
  | [] => Some t
  | None :: src' => tm_copy_from dflt src' t
  | Some kv :: src' => t' ← tm_set dflt t kv.1 kv.2; tm_copy_from dflt src' t'
  end.

Definition tm_copy (dflt : V) (o : table K V) : option (table K V) :=
  tm_copy_from dflt (m_data o) empty_table.

(** Assignment clears, keeping the array, then inserts. *)
Definition tm_assign (dflt : V) t (o : table K V) : option (table K V) :=
  tm_copy_from dflt (m_data o) (tm_clear t).
End Table.

(** ** TMSafeHashSet: the same table without values *)

Section Set_.
Context {K : Type} `{!EqDecision K} (hash : K → Z).

Definition hset := table K unit.

Definition hs_contains (t : hset) (v : K) : option bool :=
  i ← find_occupied hash t v; Some (i <? m_cap t).

Definition hs_insert (t : hset) (v : K) : option (hset * bool) :=
  i ← find_occupied hash t v;
  if i <? m_cap t then Some (t, false)
  else
    '(t', j) ← find_empty hash t v;
    Some (Tbl (<[j := Some (v, tt)]> (m_data t')) (m_size t' + 1), true).

Definition hs_erase (t : hset) (v : K) : option (hset * bool) :=
  i ← find_occupied hash t v;
  if m_cap t <=? i then Some (t, false)
  else r ← do_erase hash t i; Some (r.1, true).

Definition hs_clear (t : hset) : hset := tm_clear t.
Definition hs_size (t : hset) : nat := m_size t.
End Set_.

(** ** Well-formed tables *)

Section Correct.
Context {K V : Type} `{!EqDecision K, !Countable K} (hash : K → Z).
Implicit Types (t : table K V) (data : list (option (K * V))) (kv : K * V).

Abbreviation home data k := (hash_idx hash (length data) k).

(** Every entry is reachable: the slots from its home to it are occupied. *)
Definition chained data : Prop :=
  ∀ j kv, data !! j = Some (Some kv) →
    ∃ d, d < length data ∧ (home data kv.1 + d) mod length data = j ∧
         ∀ d', d' < d → occupied data ((home data kv.1 + d') mod length data) = true.

Definition entries data : list (K * V) := omap id data.

Definition data_wf data : Prop := chained data ∧ NoDup (entries data).*1.

Definition table_wf t : Prop :=
  (m_data t = [] ∨ pow2 (m_cap t) ∧ 16 ≤ m_cap t) ∧ data_wf (m_data t) ∧
  m_size t = length (entries (m_data t)) ∧ m_size t ≤ max_load (m_cap t).

Definition table_map t : gmap K V := list_to_map (entries (m_data t)).

(** ** Slots and entries *)

Lemma entries_elem data kv : kv ∈ entries data ↔ ∃ i, data !! i = Some (Some kv).
Proof.
  unfold entries. rewrite list_elem_of_omap. split.
  - intros (x & Hx & Heq). simpl in Heq. subst. by apply list_elem_of_lookup_1.
  - intros (i & Hi). exists (Some kv). split; [|done]. by eapply list_elem_of_lookup_2.
Qed.

Lemma occupied_Some data i : occupied data i = true ↔ ∃ kv, data !! i = Some (Some kv).
Proof.
  unfold occupied. destruct (data !! i) as [[kv|]|]; split; try done; [intros _; by exists kv| |];
    by intros (? & ?).
Qed.

Lemma occupied_false data i : i < length data → occupied data i = false ↔ data !! i = Some None.
Proof.
  intros Hi. unfold occupied. destruct (lookup_lt_is_Some_2 data i Hi) as [o Ho]. rewrite Ho.
  by destruct o.
Qed.

Lemma hash_idx_lt cap k : 0 < cap → hash_idx hash cap k < cap.
Proof. intros Hc. unfold hash_idx. pose proof (land_bounds (hash k) (Z.of_nat cap - 1)). lia. Qed.

Lemma next_idx_mod cap x : pow2 cap → next_idx cap (x mod cap) = (x + 1) mod cap.
Proof. intros Hp. unfold next_idx. rewrite land_pred_mod by done. by rewrite Nat.Div0.add_mod_idemp_l. Qed.

Lemma entries_app l1 l2 : entries (l1 ++ l2) = entries l1 ++ entries l2.
Proof. apply omap_app. Qed.

(** Filling an empty slot adds one entry. *)
Lemma entries_fill data i kv :
  data !! i = Some None → entries (<[i := Some kv]> data) ≡ₚ kv :: entries data.
Proof.
  intros Hi. apply list_elem_of_split_length in Hi as (l1 & l2 & -> & ->).
  rewrite insert_app_r_alt by lia. rewrite Nat.sub_diag. simpl. rewrite !entries_app. simpl.
  symmetry. apply Permutation_middle.
Qed.

Lemma entries_free data : length (entries data) < length data → ∃ j, j < length data ∧ data !! j = Some None.
Proof.
  induction data as [|[kv|] data IH]; simpl; [lia| |].
  - intros Hl. destruct IH as (j & ? & ?); [lia|]. exists (S j). split; [lia|done].
  - intros _. exists 0. split; [lia|done].
Qed.

(** ** Probing *)

Section Probe.
Context (data : list (option (K * V))) (Hp : pow2 (length data)).
Abbreviation cap := (length data).

Lemma find_loop_spec k fuel d de :
  chained data → de < cap → occupied data ((home data k + de) mod cap) = false →
  d ≤ de → de < d + fuel →
  (∀ d', d' < d → ∃ kv, data !! ((home data k + d') mod cap) = Some (Some kv) ∧ kv.1 ≠ k) →
  (∃ i v, find_loop data k fuel ((home data k + d) mod cap) = Some i ∧ data !! i = Some (Some (k, v))) ∨
  (find_loop data k fuel ((home data k + d) mod cap) = Some cap ∧ ∀ v, (k, v) ∉ entries data).
Proof using Hp.
  intros Hch Hde Hemp. pose proof (pow2_pos _ Hp) as Hpos.
  revert d. induction fuel as [|fuel IH]; intros d Hd Hf Hseen; [lia|]. simpl.
  destruct (data !! ((home data k + d) mod cap)) as [[kv|]|] eqn:Hs.
  - destruct (decide (kv.1 = k)) as [Hk|Hk].
    + left. eexists _, kv.2. split; [done|]. subst k. by destruct kv.
    + rewrite next_idx_mod by done. rewrite <- Nat.add_assoc. apply IH.
      * destruct (decide (d = de)) as [->|]; [|lia]. unfold occupied in Hemp. by rewrite Hs in Hemp.
      * lia.
      * intros d' Hd'. destruct (decide (d' = d)) as [->|]; [by exists kv|]. apply Hseen. lia.
  - right. split; [done|]. intros v (j & Hj)%entries_elem.
    destruct (Hch _ _ Hj) as (dk & Hdk & Hjk & Hocc). simpl in *.
    destruct (lt_eq_lt_dec d dk) as [[Hlt|Heq]|Hgt].
    + specialize (Hocc d Hlt). unfold occupied in Hocc. by rewrite Hs in Hocc.
    + subst d. rewrite Hjk in Hs. congruence.
    + destruct (Hseen dk Hgt) as (kv & Hkv & Hne). rewrite Hjk, Hj in Hkv. by injection Hkv as <-.
  - apply lookup_ge_None in Hs. pose proof (Nat.mod_upper_bound (home data k + d) cap). lia.
Qed.

Lemma empty_loop_spec h fuel d de :
  h < cap → de < cap → occupied data ((h + de) mod cap) = false → d ≤ de → de < d + fuel →
  ∃ d1, d ≤ d1 < cap ∧ empty_loop data fuel ((h + d) mod cap) = Some ((h + d1) mod cap) ∧
        data !! ((h + d1) mod cap) = Some None ∧
        ∀ d', d ≤ d' < d1 → occupied data ((h + d') mod cap) = true.
Proof using Hp.
  intros Hh Hde Hemp. pose proof (pow2_pos _ Hp) as Hpos.
  revert d. induction fuel as [|fuel IH]; intros d Hd Hf; [lia|]. simpl.
  destruct (occupied data ((h + d) mod cap)) eqn:Ho.
  - rewrite next_idx_mod by done. rewrite <- Nat.add_assoc.
    destruct (IH (d + 1)) as (d1 & Hd1 & He & Hn & Hb).
    + destruct (decide (d = de)) as [->|]; [congruence|lia].
    + lia.
    + exists d1. split_and!; [lia|lia|done|done|]. intros d' Hd'.
      destruct (decide (d' = d)) as [->|]; [done|]. apply Hb. lia.
  - exists d. split_and!; [lia|lia|done| |lia].
    apply occupied_false; [|done]. apply Nat.mod_upper_bound. lia.
Qed.
End Probe.

Lemma free_slot data h :
  h < length data → length (entries data) < length data →
  ∃ de, de < length data ∧ occupied data ((h + de) mod length data) = false.
Proof.
  intros Hh (j & Hj & Hn)%entries_free. destruct (ring_distance _ h j Hh Hj) as (d & Hd & Hm).
  exists d. split; [done|]. rewrite Hm. by apply occupied_false.
Qed.

(** Lookup in the abstraction is presence of an entry. *)
Lemma entries_map data k v :
  NoDup (entries data).*1 → (list_to_map (entries data) : gmap K V) !! k = Some v ↔ (k, v) ∈ entries data.
Proof. intros Hn. by rewrite elem_of_list_to_map. Qed.

Lemma table_wf_room t : table_wf t → m_cap t ≠ 0 → pow2 (m_cap t) ∧ length (entries (m_data t)) < m_cap t.
Proof.
  intros ([Hnil|[Hp H16]] & _ & Hs & Hl) Hc; [by unfold m_cap in Hc; rewrite Hnil in Hc|].
  split; [done|]. rewrite <- Hs. unfold max_load in Hl. pose proof (Nat.div_mod (3 * m_cap t) 4). lia.
Qed.

Lemma find_occupied_spec t k :
  table_wf t →
  (∃ i v, find_occupied hash t k = Some i ∧ i < m_cap t ∧ m_data t !! i = Some (Some (k, v)) ∧
          table_map t !! k = Some v) ∨
  (find_occupied hash t k = Some (m_cap t) ∧ table_map t !! k = None).
Proof.
  intros Hwf. unfold find_occupied. destruct (Nat.eqb_spec (m_cap t) 0) as [H0|H0].
  { right. rewrite H0. split; [done|]. unfold m_cap in H0. apply nil_length_inv in H0.
    unfold table_map. by rewrite H0. }
  destruct (table_wf_room t Hwf H0) as [Hp Hroom]. destruct Hwf as (_ & [Hch Hn] & _ & _).
  pose proof (hash_idx_lt (m_cap t) k ltac:(lia)) as Hh.
  destruct (free_slot (m_data t) _ Hh Hroom) as (de & Hde & Hemp).
  replace (hash_idx hash (m_cap t) k) with ((hash_idx hash (m_cap t) k + 0) mod m_cap t)
    by (rewrite Nat.add_0_r; by apply Nat.mod_small).
  destruct (find_loop_spec (m_data t) Hp k (m_cap t) 0 de Hch Hde Hemp ltac:(lia) Hde ltac:(lia))
    as [(i & v & Hf & Hi)|[Hf Hno]].
  - left. exists i, v. split_and!; [done|by eapply lookup_lt_Some|done|].
    apply entries_map; [done|]. apply entries_elem. by exists i.
  - right. split; [done|]. destruct (table_map t !! k) as [v|] eqn:E; [|done].
    apply entries_map in E; [|done]. by apply Hno in E.
Qed.

(** ** Insertion *)

Lemma occupied_insert data j kv i :
  j < length data → occupied (<[j := Some kv]> data) i = (i =? j) || occupied data i.
Proof.
  intros Hj. unfold occupied. destruct (Nat.eqb_spec i j) as [->|Hne]; simpl.
  - by rewrite list_lookup_insert_eq.
  - by rewrite list_lookup_insert_ne by done.
Qed.

Lemma data_wf_fill data k v d :
  data_wf data → d < length data →
  data !! ((home data k + d) mod length data) = Some None →
  (∀ d', d' < d → occupied data ((home data k + d') mod length data) = true) →
  k ∉ (entries data).*1 →
  data_wf (<[(home data k + d) mod length data := Some (k, v)]> data).
Proof.
  intros [Hch Hn] Hd Hj Hocc Hk. set (j := (home data k + d) mod length data) in *.
  pose proof (lookup_lt_Some _ _ _ Hj) as Hjl. split.
  - intros i kv Hi. rewrite length_insert. apply list_lookup_insert_Some in Hi as [(<- & [= <-] & _)|[Hne Hi]].
    + exists d. split_and!; [done|done|]. intros d' Hd'. rewrite occupied_insert by done.
      apply orb_true_iff. right. by apply Hocc.
    + destruct (Hch _ _ Hi) as (e & He & Hei & Hoe). exists e. split_and!; [done|done|].
      intros d' Hd'. rewrite occupied_insert by done. apply orb_true_iff. right. by apply Hoe.
  - rewrite (entries_fill data j (k, v) Hj). simpl. by apply NoDup_cons.
Qed.

(** Probing for a free slot and filling it. *)
Lemma probe_fill data k v :
  pow2 (length data) → data_wf data → length (entries data) < length data → k ∉ (entries data).*1 →
  ∃ j, empty_loop data (length data) (home data k) = Some j ∧ data !! j = Some None ∧
       data_wf (<[j := Some (k, v)]> data).
Proof.
  intros Hp Hwf Hroom Hk. pose proof (hash_idx_lt (length data) k ltac:(lia)) as Hh.
  destruct (free_slot data _ Hh Hroom) as (de & Hde & Hemp).
  destruct (empty_loop_spec data Hp _ (length data) 0 de Hh Hde Hemp ltac:(lia) Hde) as (d & Hd & He & Hn & Ho).
  rewrite Nat.add_0_r, Nat.mod_small in He by done. eexists. split_and!; [done|done|].
  apply data_wf_fill; [done|lia|done| |done]. intros d' Hd'. apply Ho. lia.
Qed.

Lemma rehash_spec data nd :
  pow2 (length nd) → data_wf nd → length (entries nd) + length (entries data) < length nd →
  NoDup ((entries nd).*1 ++ (entries data).*1) →
  ∃ nd', rehash hash data nd = Some nd' ∧ length nd' = length nd ∧ data_wf nd' ∧
         entries nd' ≡ₚ entries nd ++ entries data.
Proof.
  revert nd. induction data as [|[kv|] data IH]; intros nd Hp Hwf Hl Hn.
  - exists nd. unfold entries at 2. simpl. by rewrite app_nil_r.
  - change (entries (Some kv :: data)) with (kv :: entries data) in *. simpl in Hl, Hn |- *.
    assert (kv.1 ∉ (entries nd).*1) as Hk.
    { apply NoDup_app in Hn as (_ & Hd & _). intros Hin. apply (Hd _ Hin). left. }
    destruct (probe_fill nd kv.1 kv.2 Hp Hwf ltac:(lia) Hk) as (j & He & Hj & Hwf').
    unfold rehash_entry. rewrite He. simpl. replace (kv.1, kv.2) with kv in Hwf' by (by destruct kv).
    pose proof (entries_fill nd j kv Hj) as Hperm.
    destruct (IH (<[j := Some kv]> nd)) as (nd' & Hr & Hlen & Hwf'' & Hp'').
    + by rewrite length_insert.
    + done.
    + rewrite length_insert, Hperm. simpl. lia.
    + rewrite Hperm. simpl. by rewrite Permutation_middle.
    + exists nd'. rewrite length_insert in Hlen. split_and!; [done|done|done|].
      rewrite Hp'', Hperm. simpl. by rewrite Permutation_middle.
  - apply (IH nd); done.
Qed.

Lemma data_wf_empty n : data_wf (replicate n None).
Proof.
  split.
  - intros j kv [? _]%lookup_replicate. done.
  - replace (entries (replicate n None)) with (@nil (K * V)); [constructor|].
    induction n; [done|]. done.
Qed.

Lemma entries_replicate n : entries (replicate n (@None (K * V))) = [].
Proof. by induction n. Qed.

Lemma new_cap_spec t : table_wf t → pow2 (new_cap (m_cap t)) ∧ 16 ≤ new_cap (m_cap t) ∧
  m_size t < max_load (new_cap (m_cap t)).
Proof.
  intros (Hc & _ & _ & Hl). unfold new_cap. destruct (Nat.eqb_spec (m_cap t) 0) as [H0|H0].
  - rewrite H0 in Hl. unfold max_load in *. simpl in *. split; [by exists 4|lia].
  - destruct Hc as [Hnil|[Hp H16]]; [by unfold m_cap in H0; rewrite Hnil in H0|].
    split; [by apply pow2_double|]. split; [lia|]. unfold max_load in *.
    replace (3 * (m_cap t * 2)) with (3 * m_cap t * 2) by lia.
    pose proof (Nat.div_mod (3 * m_cap t) 4). pose proof (Nat.div_mod (3 * m_cap t * 2) 4).
    pose proof (Nat.mod_upper_bound (3 * m_cap t * 2) 4). lia.
Qed.

Lemma max_load_lt c : 16 ≤ c → max_load c < c.
Proof. intros. unfold max_load. pose proof (Nat.div_mod (3 * c) 4). lia. Qed.

Lemma grow_spec t :
  table_wf t →
  ∃ t', grow hash t = Some t' ∧ table_wf t' ∧ m_cap t' = new_cap (m_cap t) ∧
        entries (m_data t') ≡ₚ entries (m_data t) ∧ m_size t' = m_size t.
Proof.
  intros Hwf. destruct (new_cap_spec t Hwf) as (Hp & H16 & Hl). pose proof (max_load_lt _ H16).
  destruct Hwf as (_ & [Hch Hn] & Hs & _).
  destruct (rehash_spec (m_data t) (replicate (new_cap (m_cap t)) None)) as (nd & Hr & Hlen & Hwf & Hperm).
  - by rewrite length_replicate.
  - apply data_wf_empty.
  - rewrite entries_replicate, length_replicate. simpl. lia.
  - by rewrite entries_replicate.
  - rewrite entries_replicate in Hperm. rewrite length_replicate in Hlen.
    exists (Tbl nd (m_size t)). unfold grow. rewrite Hr. simpl.
    split_and!; [done| |done|done|done]. unfold table_wf, m_cap. simpl. rewrite Hlen.
    split; [right; done|]. split; [done|]. split; [by rewrite Hperm|lia].
Qed.

Lemma entries_map_perm data data' :
  NoDup (entries data).*1 → entries data ≡ₚ entries data' →
  (list_to_map (entries data) : gmap K V) = list_to_map (entries data').
Proof. apply list_to_map_proper. Qed.

Lemma not_in_map data k :
  NoDup (entries data).*1 → (list_to_map (entries data) : gmap K V) !! k = None → k ∉ (entries data).*1.
Proof. intros _. apply not_elem_of_list_to_map_2. Qed.

(** [find_empty] for an absent key: a table with room, and a free slot that may be filled. *)
Lemma find_empty_spec t k v :
  table_wf t → table_map t !! k = None →
  ∃ t' j, find_empty hash t k = Some (t', j) ∧ m_data t' !! j = Some None ∧
    m_size t' = m_size t ∧ entries (m_data t') ≡ₚ entries (m_data t) ∧
    table_wf (Tbl (<[j := Some (k, v)]> (m_data t')) (m_size t' + 1)).
Proof.
  intros Hwf Hk. unfold find_empty.
  assert (∃ t', (if max_load (m_cap t) <=? m_size t then grow hash t else Some t) = Some t' ∧ table_wf t' ∧
    m_size t' < max_load (m_cap t') ∧ 16 ≤ m_cap t' ∧ pow2 (m_cap t') ∧ m_size t' = m_size t ∧
    entries (m_data t') ≡ₚ entries (m_data t)) as (t' & -> & Hwf' & Hl & H16 & Hp & Hs & Hperm).
  { destruct (Nat.leb_spec (max_load (m_cap t)) (m_size t)).
    - destruct (grow_spec t Hwf) as (t' & Hg & Hwf' & Hc & Hperm & Hs).
      destruct (new_cap_spec t Hwf) as (? & ? & ?). exists t'. rewrite Hc, Hs. done.
    - exists t. pose proof Hwf as ([Hnil|[? ?]] & _ & _ & _); [|done].
      unfold m_cap in H. rewrite Hnil in H. unfold max_load in H. simpl in H. lia. }
  pose proof (max_load_lt _ H16). pose proof Hwf' as (_ & Hd & Hs' & _). pose proof Hd as [_ Hn].
  assert (k ∉ (entries (m_data t')).*1) as Hk'.
  { rewrite Hperm. apply not_elem_of_list_to_map_2 in Hk. done. }
  destruct (probe_fill (m_data t') k v Hp Hd ltac:(unfold m_cap in *; lia) Hk') as (j & He & Hj & Hd').
  exists t', j. simpl. unfold m_cap at 1 2. rewrite He. simpl. split_and!; [done..|].
  unfold table_wf, m_cap. simpl. rewrite length_insert. split; [by right|]. split; [done|].
  rewrite (entries_fill (m_data t') j (k, v) Hj). simpl. unfold m_cap in *. lia.
Qed.

Lemma entries_overwrite data i k v v' :
  data !! i = Some (Some (k, v)) →
  ∃ l1 l2, entries data = l1 ++ (k, v) :: l2 ∧ entries (<[i := Some (k, v')]> data) = l1 ++ (k, v') :: l2.
Proof.
  intros Hi. apply list_elem_of_split_length in Hi as (l1 & l2 & -> & ->).
  rewrite insert_app_r_alt by lia. rewrite Nat.sub_diag. simpl. rewrite !entries_app. simpl.
  by exists (entries l1), (entries l2).
Qed.

(** Overwriting the value of an entry. *)
Lemma table_overwrite t i k v v' :
  table_wf t → m_data t !! i = Some (Some (k, v)) →
  let t' := Tbl (<[i := Some (k, v')]> (m_data t)) (m_size t) in
  table_wf t' ∧ table_map t' = <[k := v']> (table_map t).
Proof.
  intros (Hc & [Hch Hn] & Hs & Hl) Hi t'. pose proof (lookup_lt_Some _ _ _ Hi) as Hil.
  destruct (entries_overwrite (m_data t) i k v v' Hi) as (l1 & l2 & He & He').
  assert ((entries (m_data t')).*1 = (entries (m_data t)).*1) as Hkeys.
  { simpl. rewrite He, He', !fmap_app. done. }
  split.
  - unfold table_wf, m_cap. simpl. rewrite length_insert. split_and!.
    + destruct Hc as [Hnil|]; [by rewrite Hnil in Hi|by right].
    + split; [|by rewrite <- Hkeys in Hn]. intros j kv Hj. rewrite length_insert.
      assert (∃ v0, m_data t !! j = Some (Some (kv.1, v0))) as (v0 & Hj0).
      { apply list_lookup_insert_Some in Hj as [(<- & [= <-] & _)|[_ Hj]]; [by exists v|exists kv.2; by destruct kv]. }
      destruct (Hch _ _ Hj0) as (d & Hd & Hdj & Hocc). exists d. split_and!; [done|done|].
      intros d' Hd'. rewrite occupied_insert by done. apply orb_true_iff. right. by apply Hocc.
    + rewrite Hs, He, He', !length_app. done.
    + done.
  - unfold table_map. simpl. rewrite He, He'. rewrite He, fmap_app in Hn. simpl in Hn.
    apply NoDup_app in Hn as (_ & Hd & _).
    assert ((list_to_map l1 : gmap K V) !! k = None) as Hnone.
    { apply not_elem_of_list_to_map_1. intros Hin. apply (Hd _ Hin). left. }
    rewrite !list_to_map_app. simpl.
    rewrite insert_union_r by done. by rewrite insert_insert_eq.
Qed.

Lemma tm_set_spec dflt t k v :
  table_wf t → ∃ t', tm_set hash dflt t k v = Some t' ∧ table_wf t' ∧ table_map t' = <[k := v]> (table_map t).
Proof.
  intros Hwf. unfold tm_set, tm_index.
  destruct (find_occupied_spec t k Hwf) as [(i & v0 & -> & Hi & Hd & _)|[-> Hnone]]; simpl.
  - destruct (Nat.ltb_spec i (m_cap t)); [|lia]. simpl.
    destruct (table_overwrite t i k v0 v Hwf Hd). eauto.
  - rewrite Nat.ltb_irrefl. destruct (find_empty_spec t k dflt Hwf Hnone) as (t' & j & -> & Hj & Hs & Hperm & Hwf').
    simpl. pose proof (lookup_lt_Some _ _ _ Hj) as Hjl.
    destruct (table_overwrite _ j k dflt v Hwf') as [Hwf'' Hmap].
    { simpl. by rewrite list_lookup_insert_eq. }
    eexists. split; [done|]. split; [done|]. etrans; [exact Hmap|]. unfold table_map. simpl.
    destruct Hwf as (_ & [_ Hn] & _). destruct Hwf' as (_ & [_ Hn'] & _). simpl in Hn'.
    rewrite (list_to_map_proper _ ((k, dflt) :: entries (m_data t'))); [|done|by apply entries_fill].
    simpl. rewrite insert_insert_eq. f_equal. symmetry. apply list_to_map_proper; [done|by symmetry].
Qed.

Lemma tm_find_spec t k :
  table_wf t → tm_find hash t k = Some ((λ v, (k, v)) <$> table_map t !! k).
Proof.
  intros Hwf. unfold tm_find.
  destruct (find_occupied_spec t k Hwf) as [(i & v & -> & Hi & Hd & ->)|[-> ->]]; simpl.
  - destruct (Nat.ltb_spec i (m_cap t)); [|lia]. by rewrite Hd.
  - by rewrite Nat.ltb_irrefl.
Qed.

Lemma tm_clear_spec t : table_wf t → table_wf (tm_clear t) ∧ table_map (tm_clear t) = ∅.
Proof.
  intros (Hc & _). unfold table_wf, table_map, tm_clear, m_cap. simpl.
  rewrite entries_replicate, length_replicate. split; [|done]. split_and!; [|apply data_wf_empty|done|lia].
  destruct Hc as [->|]; [by left|by right].
Qed.

Lemma empty_table_wf : table_wf (@empty_table K V).
Proof. split_and!; [by left| |done|simpl; lia]. apply (data_wf_empty 0). Qed.

(** Copying inserts every entry of the source. *)
Lemma tm_copy_from_spec dflt src t :
  table_wf t → NoDup (entries src).*1 →
  ∃ t', tm_copy_from hash dflt src t = Some t' ∧ table_wf t' ∧
        table_map t' = list_to_map (entries src) ∪ table_map t.
Proof.
  revert t. induction src as [|[kv|] src IH]; intros t Hwf Hn.
  - exists t. split_and!; [done|done|]. symmetry. apply (map_empty_union (table_map t)).
  - change (entries (Some kv :: src)) with (kv :: entries src) in *. simpl in Hn |- *.
    apply NoDup_cons in Hn as [Hni Hn]. destruct kv as [k v]. simpl in *.
    destruct (tm_set_spec dflt t k v Hwf) as (t1 & -> & Hwf1 & Hm1). simpl.
    destruct (IH t1 Hwf1 Hn) as (t' & -> & Hwf' & Hm'). exists t'. split_and!; [done|done|].
    rewrite Hm', Hm1. rewrite <- insert_union_r by (by apply not_elem_of_list_to_map_1). apply insert_union_l.
  - apply (IH t Hwf Hn).
Qed.

(** ** Deletion *)

Lemma entries_clear data i kv :
  data !! i = Some (Some kv) → kv :: entries (<[i := None]> data) ≡ₚ entries data.
Proof.
  intros Hi. apply list_elem_of_split_length in Hi as (l1 & l2 & -> & ->).
  rewrite insert_app_r_alt by lia. rewrite Nat.sub_diag. simpl. rewrite !entries_app. simpl.
  apply Permutation_middle.
Qed.

(** Chains, except that they may cross the hole. *)
Definition chained_hole data (hole : nat) : Prop :=
  ∀ j kv, data !! j = Some (Some kv) →
    ∃ d, d < length data ∧ (home data kv.1 + d) mod length data = j ∧
         ∀ d', d' < d → occupied data ((home data kv.1 + d') mod length data) = true ∨
                        (home data kv.1 + d') mod length data = hole.

Lemma occupied_clear data j i : occupied (<[j := None]> data) i = negb (i =? j) && occupied data i.
Proof.
  unfold occupied. destruct (Nat.eqb_spec i j) as [->|Hne]; simpl.
  - destruct (decide (j < length data)); [by rewrite list_lookup_insert_eq|].
    by rewrite list_insert_ge, lookup_ge_None_2 by lia.
  - by rewrite list_lookup_insert_ne by done.
Qed.

Lemma chained_open data i : chained data → chained_hole (<[i := None]> data) i.
Proof.
  intros Hch j kv Hj. rewrite length_insert.
  apply list_lookup_insert_Some in Hj as [(_ & [=] & _)|[Hne Hj]].
  destruct (Hch _ _ Hj) as (d & Hd & Hdj & Ho). exists d. split_and!; [done|done|].
  intros d' Hd'. rewrite occupied_clear, (Ho d' Hd'), andb_true_r.
  destruct (Nat.eqb_spec ((home data kv.1 + d') mod length data) i); [by right|by left].
Qed.

Section Erase.
Context (cap : nat) (Hp : pow2 cap) (H2 : 2 ≤ cap).

Lemma ring_next_ne p : p < cap → (p + 1) mod cap ≠ p.
Proof using H2.
  intros Hpc. destruct (decide (p + 1 < cap)); [rewrite Nat.mod_small by done; lia|].
  replace (p + 1) with (0 + 1 * cap) by lia. rewrite Nat.Div0.mod_add, Nat.mod_small by lia. lia.
Qed.

Lemma ring_next_eq h d p : (h + d) mod cap = p → (h + (d + 1)) mod cap = (p + 1) mod cap.
Proof using. intros <-. by rewrite Nat.Div0.add_mod_idemp_l, Nat.add_assoc. Qed.

(** When the slot after the hole is empty, no chain crosses the hole. *)
Lemma chained_close data p :
  length data = cap → p < cap → occupied data ((p + 1) mod cap) = false → chained_hole data p → chained data.
Proof using H2.
  intros Hl Hpc Hnext Hch j kv Hj. destruct (Hch _ _ Hj) as (d & Hd & Hdj & Ho). rewrite Hl in *.
  exists d. split_and!; [done|done|]. intros d' Hd'. destruct (Ho d' Hd') as [|Hhole]; [done|]. exfalso.
  pose proof (ring_next_eq _ _ _ Hhole) as Hn.
  destruct (decide (d' + 1 = d)) as [<-|Hne].
  - rewrite Hdj in Hn. rewrite <- Hn in Hnext. unfold occupied in Hnext. by rewrite Hj in Hnext.
  - destruct (Ho (d' + 1) ltac:(lia)) as [Hocc|Heq]; [by rewrite Hn, Hnext in Hocc|].
    rewrite Hn in Heq. by apply (ring_next_ne p).
Qed.

Lemma must_slide_home h hole next : hole ≠ next → must_slide h hole next = true → h ≠ next.
Proof using H2.
  intros Hne Hm ->. unfold must_slide in Hm. rewrite Nat.leb_refl in Hm.
  apply andb_true_iff in Hm as [?%Nat.leb_le ?%Nat.leb_le]. lia.
Qed.

(** Sliding the next entry back moves the hole forward. *)
Lemma chained_slide data p kv :
  length data = cap → p < cap → data !! p = Some None → data !! ((p + 1) mod cap) = Some (Some kv) →
  must_slide (home data kv.1) p ((p + 1) mod cap) = true → chained_hole data p →
  chained_hole (<[(p + 1) mod cap := None]> (<[p := Some kv]> data)) ((p + 1) mod cap).
Proof using H2.
  intros Hl Hpc Hpn Hnx Hms Hch. set (next := (p + 1) mod cap) in *.
  pose proof (ring_next_ne p Hpc) as Hne. fold next in Hne.
  assert (∀ i, i ≠ next → i ≠ p → occupied (<[next := None]> (<[p := Some kv]> data)) i = occupied data i) as Hsame.
  { intros i Hi1 Hi2. rewrite occupied_clear, occupied_insert by lia.
    rewrite (proj2 (Nat.eqb_neq i next)), (proj2 (Nat.eqb_neq i p)) by done. done. }
  assert (occupied (<[next := None]> (<[p := Some kv]> data)) p = true) as Hnewp.
  { rewrite occupied_clear, occupied_insert, Nat.eqb_refl by lia. by rewrite (proj2 (Nat.eqb_neq p next)). }
  intros j kv' Hj. rewrite !length_insert. rewrite Hl in *.
  apply list_lookup_insert_Some in Hj as [(_ & [=] & _)|[Hjn Hj]].
  assert (∃ d, d < cap ∧ (hash_idx hash cap kv'.1 + d) mod cap = j ∧
    ∀ d', d' < d → occupied data ((hash_idx hash cap kv'.1 + d') mod cap) = true ∨
                   (hash_idx hash cap kv'.1 + d') mod cap = p) as (d & Hd & Hdj & Ho).
  { apply list_lookup_insert_Some in Hj as [(<- & [= <-] & _)|[Hjp Hj]].
    - destruct (Hch _ _ Hnx) as (d & Hd & Hdj & Ho). rewrite Hl in *.
      pose proof (hash_idx_lt cap kv.1 ltac:(lia)) as Hh.
      assert (d ≠ 0) as Hd0.
      { intros ->. rewrite Nat.add_0_r, Nat.mod_small in Hdj by done. by apply must_slide_home in Hms. }
      exists (d - 1). split_and!; [lia| |intros d' Hd'; apply Ho; lia].
      destruct (ring_distance cap (hash_idx hash cap kv.1) p Hh Hpc) as (dp & Hdp & Hmp).
      pose proof (ring_next_eq _ _ _ Hmp) as Hn. fold next in Hn. rewrite <- Hdj in Hn.
      destruct (decide (dp + 1 < cap)).
      + apply ring_inj in Hn; [|lia..]. by replace (d - 1) with dp by lia.
      + exfalso. replace (dp + 1) with cap in Hn by lia.
        replace (hash_idx hash cap kv.1 + cap) with (hash_idx hash cap kv.1 + 0 + 1 * cap) in Hn by lia.
        rewrite Nat.Div0.mod_add in Hn. apply ring_inj in Hn; lia.
    - destruct (Hch _ _ Hj) as (d & Hd & Hdj & Ho). rewrite Hl in *. by exists d. }
  exists d. split_and!; [done|done|]. intros d' Hd'.
  destruct (decide ((hash_idx hash cap kv'.1 + d') mod cap = next)) as [|Hn]; [by right|]. left.
  destruct (decide ((hash_idx hash cap kv'.1 + d') mod cap = p)) as [->|Hn']; [done|].
  rewrite Hsame by done. by destruct (Ho d' Hd').
Qed.

Lemma erase_loop_spec fuel data p e :
  length data = cap → p < cap → data !! p = Some None → chained_hole data p → NoDup (entries data).*1 →
  1 ≤ e → e ≤ fuel → e < cap → data !! ((p + e) mod cap) = Some None →
  ∃ data' full, erase_loop hash data fuel p = Some (data', full) ∧ length data' = cap ∧
    entries data' ≡ₚ entries data ∧ (full = true → data_wf data').
Proof using Hp H2.
  revert data p e. induction fuel as [|fuel IH]; intros data p e Hl Hpc Hpn Hch Hn He1 He Hec Hfree; [lia|].
  simpl. rewrite Hl. unfold next_idx at 1. rewrite land_pred_mod by done.
  change (next_idx cap p) with (Nat.land (p + 1) (cap - 1)). rewrite land_pred_mod by done.
  set (next := (p + 1) mod cap). assert (next < cap) as Hnx by (apply Nat.mod_upper_bound; lia).
  pose proof (ring_next_ne p Hpc) as Hne. fold next in Hne.
  destruct (data !! next) as [[kv|]|] eqn:Hd.
  - destruct (must_slide (hash_idx hash cap kv.1) p next) eqn:Hms.
    + set (data1 := <[next := None]> (<[p := Some kv]> data)).
      assert (entries data1 ≡ₚ entries data) as Hperm.
      { apply (Permutation_cons_inv (a := kv)). unfold data1. rewrite entries_clear.
        - by apply entries_fill.
        - by rewrite list_lookup_insert_ne. }
      assert ((next + (e - 1)) mod cap = (p + e) mod cap) as Hpe.
      { unfold next. rewrite Nat.Div0.add_mod_idemp_l. f_equal. lia. }
      assert (e ≠ 1) as He2 by (intros ->; fold next in Hfree; congruence).
      destruct (IH data1 next (e - 1)) as (data' & full & Hr & Hlen & Hpm & Hfull).
      * unfold data1. by rewrite !length_insert.
      * done.
      * unfold data1. apply list_lookup_insert_eq. rewrite length_insert. lia.
      * unfold data1, next. apply chained_slide; try done. by rewrite Hl.
      * by rewrite Hperm.
      * lia.
      * lia.
      * lia.
      * rewrite Hpe. unfold data1. rewrite !list_lookup_insert_ne; [done| |].
        -- intros Hpe'. assert (e = 0); [|lia]. apply (ring_inj cap p); [lia|lia|lia|].
           rewrite Nat.add_0_r, (Nat.mod_small p) by lia. done.
        -- intros Heq. rewrite <- Heq in Hfree. congruence.
      * exists data', full. split_and!; [done|done|by rewrite Hpm|done].
    + exists data, false. by split_and!.
  - exists data, true. split_and!; [done|done|done|]. intros _. split; [|done].
    apply (chained_close data p); try done. apply occupied_false; [by rewrite Hl|done].
  - apply lookup_ge_None in Hd. lia.
Qed.
End Erase.

Lemma do_erase_spec t i k v :
  table_wf t → m_data t !! i = Some (Some (k, v)) →
  ∃ t' full, do_erase hash t i = Some (t', full) ∧ table_map t' = delete k (table_map t) ∧
    m_size t' + 1 = m_size t ∧ (full = true → table_wf t').
Proof.
  intros Hwf Hi. pose proof (lookup_lt_Some _ _ _ Hi) as Hil.
  destruct (table_wf_room t Hwf) as [Hp Hroom]; [unfold m_cap; lia|].
  destruct Hwf as (Hc & [Hch Hn] & Hs & Hl).
  assert (16 ≤ m_cap t) as H16 by (destruct Hc as [Hnil|[_ ?]]; [by rewrite Hnil in Hi|done]).
  destruct (entries_free (m_data t) Hroom) as (j & Hj & Hjn).
  destruct (ring_distance (m_cap t) i j Hil Hj) as (e & He & Hej).
  assert (e ≠ 0) as He0.
  { intros ->. rewrite Nat.add_0_r, Nat.mod_small in Hej by done. congruence. }
  pose proof (entries_clear (m_data t) i (k, v) Hi) as Hperm.
  assert (NoDup (k :: (entries (<[i := None]> (m_data t))).*1)) as Hn'.
  { change (k :: (entries (<[i:=None]> (m_data t))).*1) with ((k, v) :: entries (<[i:=None]> (m_data t))).*1.
    by rewrite Hperm. }
  apply NoDup_cons in Hn' as [Hni Hn'].
  destruct (erase_loop_spec (m_cap t) Hp ltac:(lia) (m_cap t) (<[i := None]> (m_data t)) i e)
    as (data' & full & Hr & Hlen & Hpm & Hfull); try done; try lia.
  - apply length_insert.
  - by apply list_lookup_insert_eq.
  - by apply chained_open.
  - rewrite Hej, list_lookup_insert_ne; [done|congruence].
  - exists (Tbl data' (m_size t - 1)), full. unfold do_erase. rewrite Hr. simpl.
    assert (m_size t = S (length (entries data'))) as Hsz.
    { rewrite Hs, Hpm. rewrite <- Hperm. done. }
    split_and!; [done| |lia|].
    + unfold table_map. simpl.
      assert (NoDup (entries data').*1) as Hnd by (by rewrite Hpm).
      assert (NoDup ((k, v) :: entries (<[i:=None]> (m_data t))).*1) as Hnk by (by rewrite Hperm).
      rewrite (list_to_map_proper _ _ Hnd Hpm), <- (list_to_map_proper _ _ Hnk Hperm). simpl.
      rewrite delete_insert_id; [done|]. by apply not_elem_of_list_to_map_1.
    + intros Hf. unfold table_wf, m_cap. simpl. rewrite Hlen. split; [by right|]. split; [by apply Hfull|]. lia.
Qed.

Lemma tm_erase_spec t k :
  table_wf t →
  match table_map t !! k with
  | Some v => ∃ i t' full, find_occupied hash t k = Some i ∧ do_erase hash t i = Some (t', full) ∧
      tm_erase hash t k = Some (t', 1) ∧ table_map t' = delete k (table_map t) ∧
      m_size t' + 1 = m_size t ∧ (full = true → table_wf t')
  | None => tm_erase hash t k = Some (t, 0)
  end.
Proof.
  intros Hwf. unfold tm_erase.
  destruct (find_occupied_spec t k Hwf) as [(i & v & -> & Hi & Hd & ->)|[-> ->]]; simpl.
  - destruct (do_erase_spec t i k v Hwf Hd) as (t' & full & He & ? & ? & ?).
    exists i, t', full. destruct (Nat.leb_spec (m_cap t) i); [lia|]. by rewrite He.
  - by rewrite Nat.leb_refl.
Qed.
End Correct.

(** ** The set *)

Section SetCorrect.
Context {K : Type} `{!EqDecision K, !Countable K} (hash : K → Z).

Definition hset_elems (t : hset (K := K)) : gset K := dom (table_map t).

Lemma table_map_None (t : hset (K := K)) v : table_map t !! v = None ↔ v ∉ hset_elems t.
Proof. unfold hset_elems. by rewrite not_elem_of_dom. Qed.

Lemma hs_contains_spec t v :
  table_wf hash t → hs_contains hash t v = Some (bool_decide (v ∈ hset_elems t)).
Proof.
  intros Hwf. unfold hs_contains.
  destruct (find_occupied_spec hash t v Hwf) as [(i & u & -> & Hi & _ & Hm)|[-> Hm]]; simpl; f_equal.
  - rewrite bool_decide_eq_true_2; [by apply Nat.ltb_lt|]. unfold hset_elems. apply elem_of_dom. by exists u.
  - rewrite bool_decide_eq_false_2; [apply Nat.ltb_irrefl|]. by apply table_map_None.
Qed.

Lemma hs_insert_spec t v :
  table_wf hash t →
  ∃ t', hs_insert hash t v = Some (t', bool_decide (v ∉ hset_elems t)) ∧ table_wf hash t' ∧
        hset_elems t' = {[v]} ∪ hset_elems t.
Proof.
  intros Hwf. unfold hs_insert.
  destruct (find_occupied_spec hash t v Hwf) as [(i & u & -> & Hi & _ & Hm)|[-> Hm]]; simpl.
  - assert (v ∈ hset_elems t) as Hin by (apply elem_of_dom; by exists u).
    destruct (Nat.ltb_spec i (m_cap t)); [|lia]. exists t. rewrite bool_decide_eq_false_2 by auto.
    split_and!; [done|done|set_solver].
  - rewrite Nat.ltb_irrefl. destruct (find_empty_spec hash t v tt Hwf Hm) as (t' & j & -> & Hj & _ & Hperm & Hwf').
    simpl. eexists. rewrite bool_decide_eq_true_2 by (by apply table_map_None).
    split_and!; [done|done|]. unfold hset_elems, table_map. simpl.
    destruct Hwf as (_ & [_ Hn] & _). destruct Hwf' as (_ & [_ Hn'] & _). simpl in Hn'.
    rewrite (list_to_map_proper _ _ Hn' (entries_fill _ _ _ Hj)). simpl. rewrite dom_insert_L. f_equal.
    assert (NoDup (entries (m_data t')).*1) as Hnd by (by rewrite Hperm).
    by rewrite (list_to_map_proper _ _ Hnd Hperm).
Qed.
End SetCorrect.

(** ** Properties *)

(** C17: the open-addressing table implements a finite map.  From a well-formed
    table (power-of-two capacity, entries reachable along their probe chains, load at
    most 3/4), for any hash function: every probing loop ends; [find] returns the stored
    pair; assignment through [operator[]] inserts or overwrites, growing and rehashing
    when the load is reached; [clear], copy construction and copy assignment do what they
    say; and all results are well formed again. *)
Theorem safe_map_refines {K V} `{!EqDecision K, !Countable K} (hash : K → Z) (dflt : V) (t o : table K V) k v :
  table_wf hash t → table_wf hash o →
  tm_find hash t k = Some ((λ x, (k, x)) <$> table_map t !! k) ∧
  (∃ t', tm_set hash dflt t k v = Some t' ∧ table_wf hash t' ∧ table_map t' = <[k := v]> (table_map t)) ∧
  (table_wf hash (tm_clear t) ∧ table_map (tm_clear t) = ∅) ∧
  (∃ c, tm_copy hash dflt o = Some c ∧ table_wf hash c ∧ table_map c = table_map o) ∧
  (∃ a, tm_assign hash dflt t o = Some a ∧ table_wf hash a ∧ table_map a = table_map o).
Proof.
  intros Hwf Hwo. destruct (tm_clear_spec hash t Hwf) as [Hwc Hmc].
  assert (NoDup (entries (m_data o)).*1) as Hn by apply Hwo.
  split_and!; [by apply tm_find_spec|by apply tm_set_spec|done|done| |].
  - destruct (tm_copy_from_spec hash dflt (m_data o) empty_table (empty_table_wf hash) Hn) as (c & ? & ? & Hm).
    exists c. split_and!; [done|done|]. rewrite Hm. apply (map_union_empty (table_map o)).
  - destruct (tm_copy_from_spec hash dflt (m_data o) (tm_clear t) Hwc Hn) as (c & ? & ? & Hm).
    exists c. split_and!; [done|done|]. rewrite Hm, Hmc. apply (map_union_empty (table_map o)).
Qed.

Lemma safe_map_refines_witness :
  tm_find (λ z : Z, z) (@empty_table Z Z) 5%Z = Some None.
Proof.
  refine (proj1 (safe_map_refines (λ z : Z, z) 0%Z (@empty_table Z Z) empty_table 5%Z 7%Z _ _)); apply empty_table_wf.
Defined.

(** The hash set implements a finite set: membership and insertion on well-formed
    tables, with the return value of [insert] telling whether the element was new. *)
Theorem hash_set_refines {K} `{!EqDecision K, !Countable K} (hash : K → Z) (t : hset (K := K)) v :
  table_wf hash t →
  hs_contains hash t v = Some (bool_decide (v ∈ hset_elems t)) ∧
  ∃ t', hs_insert hash t v = Some (t', bool_decide (v ∉ hset_elems t)) ∧ table_wf hash t' ∧
        hset_elems t' = {[v]} ∪ hset_elems t.
Proof. intros Hwf. split; [by apply hs_contains_spec|by apply hs_insert_spec]. Qed.

Lemma hash_set_refines_witness : hs_contains (λ z : Z, z) (@empty_table Z unit) 3%Z = Some false.
Proof. refine (proj1 (hash_set_refines (λ z : Z, z) (@empty_table Z unit) 3%Z _)). apply empty_table_wf. Defined.

(** Erasing, when the shift runs to the end of the cluster.  [erase] of an absent
    key changes nothing and returns 0.  Of a present key it returns 1, decrements the
    size, and the stored entries are those of the map without the key; if its
    shifting loop ended at an empty slot, the table is well formed again. *)
Theorem safe_map_erase {K V} `{!EqDecision K, !Countable K} (hash : K → Z) (t : table K V) k :
  table_wf hash t →
  match table_map t !! k with
  | Some v => ∃ i t' full, find_occupied hash t k = Some i ∧ do_erase hash t i = Some (t', full) ∧
      tm_erase hash t k = Some (t', 1) ∧ table_map t' = delete k (table_map t) ∧
      m_size t' + 1 = m_size t ∧ (full = true → table_wf hash t')
  | None => tm_erase hash t k = Some (t, 0)
  end.
Proof. apply tm_erase_spec. Qed.

Lemma safe_map_erase_witness : tm_erase (λ z : Z, z) (@empty_table Z Z) 5%Z = Some (empty_table, 0).
Proof. exact (safe_map_erase (λ z : Z, z) (@empty_table Z Z) 5%Z (empty_table_wf _)). Defined.

(** The table obtained by inserting keys in order into an empty set. *)
Definition hs_of (hash : Z → Z) (l : list Z) : option (hset (K := Z)) :=
  foldl (λ acc v, t ← acc; r ← hs_insert hash t v; Some r.1) (Some empty_table) l.

(** [erase] loses other elements.  Its shifting loop stops at the first entry that
    sits at its own home slot, although entries further on still probe across the hole.
    With the identity hash, after inserting 0, 1 and 16 and erasing 0 the set of size 2
    no longer finds 16, and inserting 16 again stores it twice. *)
Theorem hash_set_erase_strands :
  ∃ t t' t'', hs_of (λ z, z) [0; 1; 16]%Z = Some t ∧ hs_contains (λ z, z) t 16%Z = Some true ∧
    hs_erase (λ z, z) t 0%Z = Some (t', true) ∧ hs_size t' = 2 ∧ hs_contains (λ z, z) t' 16%Z = Some false ∧
    hs_insert (λ z, z) t' 16%Z = Some (t'', true) ∧ (entries (m_data t'')).*1 = [16; 1; 16]%Z.
Proof. eexists _, _, _. repeat split; vm_compute; reflexivity. Qed.
