(* ===== verification/Vector.v ===== *)
(** * Growable vector (common/tm_vector.hpp)

    [TMSafeVector] manages raw storage with placement construction and explicit
    destruction.  A slot of the model is [Some x] while an object lives in it and [None]
    while it is raw storage; constructing over a live object, destroying or reading
    raw storage, or reading through a reference into storage that has been freed is a
    fault ([None] of the result).  The results: no operation faults on a well-formed
    vector, no object is leaked, and each operation is the expected one on lists.  The
    exception, pushing an element of the vector itself when storage must grow, is shown
    at the end. *)

From S2P Require Import Prelude.
#[local] Open Scope Z_scope.

Record vec (T : Type) := Vec { v_data : list (option T); v_size : nat; v_cap : Z }.
Arguments Vec {T}.
Arguments v_data {T}.
Arguments v_size {T}.
Arguments v_cap {T}.

(** [while (nc < min_cap) nc *= 2] on [size_t]; [None] when the fuel runs out. *)
Fixpoint grow_cap (fuel : nat) (nc min_cap : Z) : option Z :=
  match fuel with
  | O => None
  | S fuel' => if nc <? min_cap then grow_cap fuel' (wrap64 (nc * 2)) min_cap else Some nc
  end.

Section Ops.
Context {T : Type}.
Implicit Types (v : vec T) (data : list (option T)).

(** Placement new and destructor call on a slot. *)
Definition construct data (i : nat) (x : T) : option (list (option T)) :=
  match data !! i with Some None => Some (<[i := Some x]> data) | _ => None end.

Definition destroy data (i : nat) : option (list (option T)) :=
  match data !! i with Some (Some _) => Some (<[i := None]> data) | _ => None end.

Definition load data (i : nat) : option T := mjoin (data !! i).

(** [for (i = lo; i < lo + n; i++)] over the storage. *)
Fixpoint for_range {A} (body : nat → A → option A) (lo n : nat) (a : A) : option A :=
  match n with
  | O => Some a
  | S n' => a' ← body lo a; for_range body (S lo) n' a'
  end.

(** Move element [i] of the old storage to the new one. *)
Definition relocate (i : nat) (nd_md : list (option T) * list (option T))
    : option (list (option T) * list (option T)) :=
  x ← load nd_md.2 i; nd' ← construct nd_md.1 i x; md' ← destroy nd_md.2 i; Some (nd', md').

Definition grow (min_cap : Z) v : option (vec T) :=
  nc ← grow_cap 64 (if v_cap v =? 0 then 4 else v_cap v) min_cap;
  '(nd, md) ← for_range relocate 0 (v_size v) (replicate (Z.to_nat nc) None, v_data v);
  Some (Vec nd (v_size v) nc).

Definition new_vec : vec T := Vec [] 0 0.

Definition reserve (n : Z) v : option (vec T) := if v_cap v <? n then grow n v else Some v.

Definition destroy_range (lo n : nat) data : option (list (option T)) := for_range (λ i d, destroy d i) lo n data.

Definition fill_range (lo n : nat) (val : T) data : option (list (option T)) :=
  for_range (λ i d, construct d i val) lo n data.

(** [resize(n, val)]; [resize(n)] is the same with a value-initialised [val]. *)
Definition resize (n : nat) (val : T) v : option (vec T) :=
  if (n <? v_size v)%nat then
    d ← destroy_range n (v_size v - n) (v_data v); Some (Vec d n (v_cap v))
  else if (v_size v <? n)%nat then
    v' ← reserve (Z.of_nat n) v;
    d ← fill_range (v_size v) (n - v_size v) val (v_data v');
    Some (Vec d n (v_cap v'))
  else Some (Vec (v_data v) n (v_cap v)).

Definition clear v : option (vec T) :=
  d ← destroy_range 0 (v_size v) (v_data v); Some (Vec d 0 (v_cap v)).

(** A reference argument: to an object outside, or to an element of the vector. *)
Inductive ref := Ext (x : T) | Own (i : nat).

(** Reading the reference; [moved] tells that the storage it pointed into was freed. *)
Definition deref (moved : bool) data (r : ref) : option T :=
  match r with
  | Ext x => Some x
  | Own i => if moved then None else load data i
  end.

(** [push_back], in its copying and moving overloads, and [emplace_back]. *)
Definition push_back (r : ref) v : option (vec T) :=
  let full := v_cap v <=? Z.of_nat (v_size v) in
  v' ← (if full then grow (Z.of_nat (v_size v) + 1) v else Some v);
  x ← deref full (v_data v') r;
  d ← construct (v_data v') (v_size v') x;
  Some (Vec d (v_size v' + 1) (v_cap v')).

Definition pop_back v : option (vec T) :=
  if (v_size v =? 0)%nat then Some v
  else d ← destroy (v_data v) (v_size v - 1); Some (Vec d (v_size v - 1) (v_cap v)).

(** Shift element [i] down by [cnt] slots. *)
Definition shift_down (cnt i : nat) data : option (list (option T)) :=
  x ← load data i; d ← construct data (i - cnt) x; destroy d i.

(** [erase(pos)] at index [idx]; out-of-range positions return [end()]. *)
Definition erase_at (idx : nat) v : option (vec T * nat) :=
  if (v_size v <=? idx)%nat then Some (v, v_size v)
  else
    d ← destroy (v_data v) idx;
    d ← for_range (shift_down 1) (idx + 1) (v_size v - (idx + 1)) d;
    Some (Vec d (v_size v - 1) (v_cap v), idx).

(** [erase(first, last)] on indices. *)
Definition erase_range (first last : nat) v : option (vec T * nat) :=
  if (last <=? first)%nat || (v_size v <? first)%nat then Some (v, v_size v)
  else
    let last := if (v_size v <? last)%nat then v_size v else last in
    let cnt := (last - first)%nat in
    d ← destroy_range first cnt (v_data v);
    d ← for_range (shift_down cnt) (first + cnt) (v_size v - (first + cnt)) d;
    Some (Vec d (v_size v - cnt) (v_cap v), first).

(** Copy constructor and copy assignment from another vector. *)
Definition copy_elements (o : vec T) data : option (list (option T)) :=
  for_range (λ i d, x ← load (v_data o) i; construct d i x) 0 (v_size o) data.

Definition copy_construct (o : vec T) : option (vec T) :=
  v ← reserve (Z.of_nat (v_size o)) new_vec;
  d ← copy_elements o (v_data v); Some (Vec d (v_size o) (v_cap v)).

Definition copy_assign (o : vec T) v : option (vec T) :=
  v ← clear v; v ← reserve (Z.of_nat (v_size o)) v;
  d ← copy_elements o (v_data v); Some (Vec d (v_size o) (v_cap v)).

(** Move assignment: destroy, adopt the other's storage, leave it empty. *)
Definition move_assign (o : vec T) v : option (vec T * vec T) :=
  _ ← clear v; Some (o, new_vec).

Definition at_index v (i : nat) : option T := load (v_data v) i.
End Ops.
Arguments ref : clear implicits.

(** ** Capacity *)

Lemma grow_cap_spec fuel nc min_cap :
  0 < nc < 2 ^ 63 → min_cap ≤ 2 ^ 62 → min_cap ≤ nc * 2 ^ Z.of_nat fuel →
  ∃ r, grow_cap (S fuel) nc min_cap = Some r ∧ min_cap ≤ r ∧ nc ≤ r < 2 ^ 63 ∧ (r = nc ∨ r < 2 * min_cap).
Proof.
  revert nc. induction fuel as [|fuel IH]; intros nc Hnc Hm Hf.
  - simpl. destruct (Z.ltb_spec nc min_cap); [simpl in Hf; lia|]. exists nc. split_and!; [done|lia..].
  - change (grow_cap (S (S fuel)) nc min_cap)
      with (if nc <? min_cap then grow_cap (S fuel) (wrap64 (nc * 2)) min_cap else Some nc).
    destruct (Z.ltb_spec nc min_cap); [|exists nc; split_and!; [done|lia..]].
    unfold wrap. rewrite Z.mod_small by lia.
    destruct (IH (nc * 2)) as (r & Hr & ? & ? & ?); [lia|lia| |exists r; split_and!; [done|lia..]].
    replace (Z.of_nat (S fuel)) with (1 + Z.of_nat fuel) in Hf by lia.
    rewrite Z.pow_add_r, Z.mul_assoc in Hf by lia. exact Hf.
Qed.

(** ** Representation *)

Section Correct.
Context {T : Type}.
Implicit Types (v : vec T) (data A B : list (option T)) (l : list T).

(** [v] holds the elements [l] in the first slots; the rest of its storage is raw. *)
Definition vrep v l : Prop :=
  ∃ k, v_data v = (Some <$> l) ++ replicate k None ∧ v_size v = length l ∧
       v_cap v = Z.of_nat (length l + k) ∧ v_cap v < 2 ^ 63.

Lemma construct_at i A B x : i = length A → construct (A ++ None :: B) i x = Some (A ++ Some x :: B).
Proof.
  intros ->. unfold construct. rewrite list_lookup_middle by done.
  rewrite insert_app_r_alt by lia. by rewrite Nat.sub_diag.
Qed.

Lemma destroy_at i A B x : i = length A → destroy (A ++ Some x :: B) i = Some (A ++ None :: B).
Proof.
  intros ->. unfold destroy. rewrite list_lookup_middle by done.
  rewrite insert_app_r_alt by lia. by rewrite Nat.sub_diag.
Qed.

Lemma load_at i A B x : i = length A → load (A ++ Some x :: B) i = Some x.
Proof. intros ->. unfold load. by rewrite list_lookup_middle. Qed.

(** ** Loops *)

Lemma destroy_range_spec l A B :
  destroy_range (length A) (length l) (A ++ (Some <$> l) ++ B) = Some (A ++ replicate (length l) None ++ B).
Proof.
  revert A. induction l as [|x l IH]; intros A; [done|]. cbn. rewrite destroy_at by done. cbn.
  specialize (IH (A ++ [None])). rewrite length_app in IH. simpl in IH.
  rewrite Nat.add_1_r, <- !app_assoc in IH. exact IH.
Qed.

Lemma fill_range_spec n val A B :
  fill_range (length A) n val (A ++ replicate n None ++ B) = Some (A ++ (Some <$> replicate n val) ++ B).
Proof.
  revert A. induction n as [|n IH]; intros A; [done|]. cbn. rewrite construct_at by done. cbn.
  specialize (IH (A ++ [Some val])). rewrite length_app in IH. simpl in IH.
  rewrite Nat.add_1_r, <- !app_assoc in IH. exact IH.
Qed.

Lemma relocate_at i A B C D x :
  i = length A → i = length C →
  relocate i (A ++ None :: B, C ++ Some x :: D) = Some (A ++ Some x :: B, C ++ None :: D).
Proof.
  intros. unfold relocate. cbn. rewrite load_at by done. cbn. rewrite construct_at by done. cbn.
  by rewrite destroy_at by done.
Qed.

Lemma shift_down_at cnt A B x :
  (1 ≤ cnt)%nat →
  shift_down cnt (length A + cnt) (A ++ replicate cnt None ++ Some x :: B) =
  Some (A ++ Some x :: replicate cnt None ++ B).
Proof.
  intros Hc. unfold shift_down.
  rewrite (app_assoc A), load_at by (by rewrite length_app, length_replicate). cbn. rewrite <- app_assoc.
  destruct cnt as [|cnt]; [lia|]. cbn. rewrite construct_at by lia. cbn.
  change (A ++ Some x :: replicate cnt None ++ Some x :: B)
    with (A ++ (Some x :: replicate cnt None) ++ Some x :: B).
  rewrite (app_assoc A), destroy_at by (rewrite length_app; cbn; by rewrite length_replicate).
  rewrite <- app_assoc. cbn. do 3 f_equal. change (None :: B) with ([None] ++ B).
  rewrite app_assoc, <- replicate_S_end. done.
Qed.

Lemma relocate_spec l A C B k :
  length A = length C →
  for_range relocate (length A) (length l) (A ++ replicate (length l + k) None, C ++ (Some <$> l) ++ B) =
  Some (A ++ (Some <$> l) ++ replicate k None, C ++ replicate (length l) None ++ B).
Proof.
  revert A C. induction l as [|x l IH]; intros A C Hl; [done|]. cbn [length for_range Nat.add replicate fmap list_fmap app].
  rewrite relocate_at by done. cbn.
  specialize (IH (A ++ [Some x]) (C ++ [None])). rewrite !length_app in IH. simpl in IH.
  rewrite Nat.add_1_r, <- !app_assoc in IH. apply IH. lia.
Qed.

Lemma shift_down_spec l A B cnt :
  (1 ≤ cnt)%nat →
  for_range (shift_down cnt) (length A + cnt) (length l) (A ++ replicate cnt None ++ (Some <$> l) ++ B) =
  Some (A ++ (Some <$> l) ++ replicate cnt None ++ B).
Proof.
  intros Hc. revert A. induction l as [|x l IH]; intros A; [done|]. cbn [length for_range fmap list_fmap app].
  rewrite shift_down_at by done. cbn.
  specialize (IH (A ++ [Some x])). rewrite length_app in IH. simpl in IH.
  replace (length A + 1 + cnt)%nat with (S (length A + cnt)) in IH by lia.
  rewrite <- !app_assoc in IH. exact IH.
Qed.

Lemma copy_elements_spec (o : vec T) l k n :
  v_data o = (Some <$> l) ++ replicate k None → v_size o = length l → (length l ≤ n)%nat →
  copy_elements o (replicate n None) = Some ((Some <$> l) ++ replicate (n - length l) None).
Proof.
  intros Hd Hs Hn. unfold copy_elements. rewrite Hs.
  assert (∀ l1 l2, l = l1 ++ l2 →
    for_range (λ i d, x ← load (v_data o) i; construct d i x) (length l1) (length l2)
      ((Some <$> l1) ++ replicate (n - length l1) None) =
    Some ((Some <$> l) ++ replicate (n - length l) None)) as Hgen.
  { intros l1 l2. revert l1. induction l2 as [|x l2 IH]; intros l1 Heq; [subst; by rewrite app_nil_r|]. cbn.
    assert (load (v_data o) (length l1) = Some x) as ->.
    { rewrite Hd, Heq, fmap_app, <- app_assoc. apply load_at. by rewrite length_fmap. }
    cbn. rewrite Heq in Hn.
    rewrite length_app in Hn. simpl in Hn.
    replace (n - length l1)%nat with (S (n - length l1 - 1)) by lia. cbn.
    rewrite construct_at by (by rewrite length_fmap). cbn.
    specialize (IH (l1 ++ [x])). rewrite <- app_assoc in IH. specialize (IH Heq).
    rewrite length_app, fmap_app, <- app_assoc in IH. cbn in IH. rewrite Nat.add_1_r in IH.
    replace (n - S (length l1))%nat with (n - length l1 - 1)%nat in IH by lia. exact IH. }
  specialize (Hgen [] l eq_refl). cbn in Hgen. by rewrite Nat.sub_0_r in Hgen.
Qed.

(** ** Operations *)

Lemma grow_vrep v l n :
  vrep v l → n ≤ 2 ^ 62 → ∃ v', grow n v = Some v' ∧ vrep v' l ∧ n ≤ v_cap v' ∧ v_cap v ≤ v_cap v'.
Proof.
  intros (k & Hd & Hs & Hc & Hb) Hn. unfold grow.
  set (nc0 := if v_cap v =? 0 then 4 else v_cap v).
  assert (0 < nc0 < 2 ^ 63 ∧ v_cap v ≤ nc0) as [Hnc0 Hge].
  { unfold nc0. destruct (Z.eqb_spec (v_cap v) 0); lia. }
  destruct (grow_cap_spec 63 nc0 n Hnc0 Hn) as (nc & -> & Hnn & Hnc & _).
  { apply Z.le_trans with (1 * 2 ^ Z.of_nat 63); [simpl; lia|].
    apply Z.mul_le_mono_nonneg_r; [apply Z.pow_nonneg; lia|lia]. }
  cbn. rewrite Hd, Hs.
  pose proof (relocate_spec l [] [] (replicate k None) (Z.to_nat nc - length l) eq_refl) as Hr. cbn in Hr.
  replace (length l + (Z.to_nat nc - length l))%nat with (Z.to_nat nc) in Hr by lia.
  rewrite Hr. cbn. eexists. split; [done|]. split_and!; [|done|cbn; lia].
  exists (Z.to_nat nc - length l)%nat. cbn. split_and!; [done|done|lia|lia].
Qed.

Lemma reserve_vrep v l n :
  vrep v l → n ≤ 2 ^ 62 → ∃ v', reserve n v = Some v' ∧ vrep v' l ∧ n ≤ v_cap v' ∧ v_cap v ≤ v_cap v'.
Proof.
  intros Hv Hn. unfold reserve. destruct (Z.ltb_spec (v_cap v) n); [by apply grow_vrep|].
  exists v. split_and!; [done|done|lia|lia].
Qed.

Lemma push_vrep v l x :
  vrep v l → Z.of_nat (length l) < v_cap v →
  ∃ d, construct (v_data v) (v_size v) x = Some d ∧ vrep (Vec d (v_size v + 1) (v_cap v)) (l ++ [x]).
Proof.
  intros (k & Hd & Hs & Hc & Hb) Hlt. destruct k as [|k]; [lia|]. rewrite Hd, Hs. cbn.
  rewrite construct_at by (by rewrite length_fmap). eexists. split; [done|]. exists k. cbn.
  rewrite fmap_app, <- app_assoc, length_app. cbn. split_and!; [done|lia|lia|lia].
Qed.

Lemma push_back_vrep v l x :
  vrep v l → Z.of_nat (length l) < 2 ^ 62 → ∃ v', push_back (Ext x) v = Some v' ∧ vrep v' (l ++ [x]).
Proof.
  intros Hv Hl. pose proof Hv as (k & Hd & Hs & Hc & Hb). unfold push_back.
  assert (∃ v1, (if v_cap v <=? Z.of_nat (v_size v) then grow (Z.of_nat (v_size v) + 1) v else Some v) = Some v1 ∧
    vrep v1 l ∧ Z.of_nat (length l) < v_cap v1) as (v1 & -> & Hv1 & Hlt).
  { rewrite Hs. destruct (Z.leb_spec (v_cap v) (Z.of_nat (length l))).
    - destruct (grow_vrep v l (Z.of_nat (length l) + 1) Hv ltac:(lia)) as (v1 & ? & ? & ? & ?).
      exists v1. split_and!; [done|done|lia].
    - by exists v. }
  cbn. destruct (push_vrep v1 l x Hv1 Hlt) as (d & -> & Hd'). cbn. eauto.
Qed.

Lemma push_own_vrep v l i x :
  vrep v l → l !! i = Some x → Z.of_nat (length l) < v_cap v → ∃ v', push_back (Own i) v = Some v' ∧ vrep v' (l ++ [x]).
Proof.
  intros Hv Hi Hlt. pose proof Hv as (k & Hd & Hs & Hc & Hb). unfold push_back. rewrite Hs, (proj2 (Z.leb_gt _ _) Hlt). cbn [mbind option_bind deref].
  assert (Hload : load (v_data v) i = Some x).
  { unfold load. rewrite Hd, lookup_app_l by (rewrite length_fmap; by eapply lookup_lt_Some). by rewrite list_lookup_fmap, Hi. }
  rewrite Hload. cbn [mbind option_bind]. destruct (push_vrep v l x Hv Hlt) as (d & Hd' & Hr). rewrite Hs in Hd', Hr. rewrite ?Hs, Hd'. cbn. eauto.
Qed.

Lemma pop_back_vrep v l : vrep v l → ∃ v', pop_back v = Some v' ∧ vrep v' (take (length l - 1) l).
Proof.
  intros (k & Hd & Hs & Hc & Hb). unfold pop_back. rewrite Hs.
  destruct l as [|x l _] using rev_ind.
  { exists v. split; [done|]. by exists k. }
  rewrite length_app in *. cbn in *. rewrite Nat.add_sub, take_app_length in *.
  destruct (Nat.eqb_spec (length l + 1) 0); [lia|].
  rewrite Hd, fmap_app, <- app_assoc. cbn. rewrite destroy_at by (by rewrite length_fmap). cbn.
  eexists. split; [done|]. exists (S k). cbn. split_and!; [done|done|lia|lia].
Qed.

(** Destroying the tail of the elements. *)
Lemma destroy_tail l1 l2 k :
  destroy_range (length l1) (length l2) ((Some <$> l1 ++ l2) ++ replicate k None) =
  Some ((Some <$> l1) ++ replicate (length l2 + k) None).
Proof.
  rewrite fmap_app, <- app_assoc. pose proof (destroy_range_spec l2 (Some <$> l1) (replicate k None)) as H.
  rewrite length_fmap in H. rewrite H. by rewrite replicate_add.
Qed.

Lemma clear_vrep v l : vrep v l → ∃ v', clear v = Some v' ∧ vrep v' [] ∧ v_cap v' = v_cap v.
Proof.
  intros (k & Hd & Hs & Hc & Hb). unfold clear. rewrite Hd, Hs.
  pose proof (destroy_tail [] l k) as H. cbn in H. rewrite H. cbn. eexists. split; [done|]. split; [|done].
  exists (length l + k)%nat. cbn. split_and!; [done|done|lia|lia].
Qed.

Lemma resize_vrep v l n x :
  vrep v l → Z.of_nat n ≤ 2 ^ 62 →
  ∃ v', resize n x v = Some v' ∧ vrep v' (take n l ++ replicate (n - length l) x).
Proof.
  intros Hv Hn. pose proof Hv as (k & Hd & Hs & Hc & Hb). unfold resize. rewrite Hs.
  destruct (Nat.ltb_spec n (length l)) as [Hlt|Hge].
  - replace (n - length l)%nat with 0%nat by lia. cbn. rewrite app_nil_r.
    pose proof (destroy_tail (take n l) (drop n l) k) as H.
    rewrite take_drop, length_take_le, length_drop in H by lia. rewrite Hd, H. cbn.
    eexists. split; [done|]. exists (length l - n + k)%nat. cbn. rewrite length_take_le by lia.
    split_and!; [done|done|lia|lia].
  - rewrite take_ge by lia. destruct (Nat.ltb_spec (length l) n) as [Hlt|Heq].
    + destruct (reserve_vrep v l (Z.of_nat n) Hv Hn) as (v1 & -> & (k1 & Hd1 & Hs1 & Hc1 & Hb1) & Hcap & _).
      cbn. rewrite Hd1. pose proof (fill_range_spec (n - length l) x (Some <$> l) (replicate (k1 - (n - length l)) None)) as H.
      rewrite length_fmap, <- replicate_add in H.
      replace (n - length l + (k1 - (n - length l)))%nat with k1 in H by lia. rewrite H. cbn.
      eexists. split; [done|]. exists (k1 - (n - length l))%nat. cbn.
      rewrite fmap_app, <- app_assoc, length_app, length_replicate. split_and!; [done|lia|lia|lia].
    + replace (n - length l)%nat with 0%nat by lia. cbn. rewrite app_nil_r.
      eexists. split; [done|]. exists k. cbn. split_and!; [done|lia|done|done].
Qed.

(** Removing a block of elements. *)
Lemma erase_block l1 l2 l3 k :
  (1 ≤ length l2)%nat →
  (d ← destroy_range (length l1) (length l2) ((Some <$> l1 ++ l2 ++ l3) ++ replicate k None);
   for_range (shift_down (length l2)) (length l1 + length l2) (length l3) d) =
  Some ((Some <$> l1 ++ l3) ++ replicate (length l2 + k) None).
Proof.
  intros Hl. rewrite !fmap_app, <- !app_assoc.
  pose proof (destroy_range_spec l2 (Some <$> l1) ((Some <$> l3) ++ replicate k None)) as H.
  rewrite length_fmap in H. rewrite H. cbn.
  pose proof (shift_down_spec l3 (Some <$> l1) (replicate k None) (length l2) Hl) as H'.
  rewrite length_fmap in H'. rewrite H'. by rewrite replicate_add.
Qed.

Lemma erase_range_vrep v l first last :
  vrep v l → (first < last)%nat → (first ≤ length l)%nat →
  ∃ v', erase_range first last v = Some (v', first) ∧ vrep v' (take first l ++ drop last l).
Proof.
  intros (k & Hd & Hs & Hc & Hb) Hfl Hle. unfold erase_range. rewrite Hs.
  destruct (decide (first = length l)) as [->|Hne].
  { rewrite (proj2 (Nat.leb_gt _ _) Hfl), Nat.ltb_irrefl, (proj2 (Nat.ltb_lt _ _) Hfl). cbn [orb].
    rewrite Nat.sub_diag, Nat.add_0_r, Nat.sub_diag, Nat.sub_0_r, firstn_all, drop_ge, app_nil_r by lia.
    cbn. eexists. split; [done|]. exists k. cbn. by split_and!. }
  assert (Hf : (first < length l)%nat) by lia.
  destruct (Nat.leb_spec last first); [lia|]. destruct (Nat.ltb_spec (length l) first); [lia|]. cbn [orb].
  set (last' := if (length l <? last)%nat then length l else last).
  assert (last' = Nat.min last (length l)) as Hlast by (unfold last'; destruct (Nat.ltb_spec (length l) last); lia).
  assert (l = take first l ++ drop first (take last' l) ++ drop last' l) as Hsplit.
  { rewrite app_assoc, <- (take_drop last' l) at 1. f_equal. rewrite <- (take_drop first (take last' l)) at 1.
    by rewrite take_take, Nat.min_l by lia. }
  assert (drop last l = drop last' l) as ->.
  { destruct (le_lt_dec last (length l)); [by rewrite Hlast, Nat.min_l by lia|].
    rewrite Hlast, Nat.min_r by lia. rewrite !drop_ge by lia. done. }
  set (l1 := take first l) in *. set (l2 := drop first (take last' l)) in *. set (l3 := drop last' l) in *.
  assert (length l1 = first) as H1 by (apply length_take_le; lia).
  assert (length l2 = last' - first)%nat as H2 by (unfold l2; rewrite length_drop, length_take_le by lia; done).
  assert (length l3 = length l - last')%nat as H3 by apply length_drop.
  pose proof (erase_block l1 l2 l3 k ltac:(lia)) as Hblk.
  rewrite <- Hsplit, H1, H2, H3 in Hblk. rewrite Hd.
  replace (first + (last' - first))%nat with last' in Hblk |- * by lia.
  destruct (destroy_range first (last' - first) ((Some <$> l) ++ replicate k None)) as [d|]; [|done].
  cbn in Hblk |- *. rewrite Hblk. cbn. eexists. split; [done|]. exists (last' - first + k)%nat. cbn.
  rewrite length_app, H1, H3. split_and!; [done|lia|lia|lia].
Qed.

Lemma erase_at_vrep v l idx :
  vrep v l → (idx < length l)%nat →
  ∃ v', erase_at idx v = Some (v', idx) ∧ vrep v' (take idx l ++ drop (S idx) l).
Proof.
  intros (k & Hd & Hs & Hc & Hb) Hi. unfold erase_at. rewrite Hs.
  destruct (Nat.leb_spec (length l) idx); [lia|].
  destruct (lookup_lt_is_Some_2 l idx Hi) as [x Hx].
  pose proof (erase_block (take idx l) [x] (drop (S idx) l) k ltac:(cbn; lia)) as Hblk.
  cbn [length] in Hblk. rewrite length_take_le, length_drop in Hblk by lia.
  replace (take idx l ++ [x] ++ drop (S idx) l) with l in Hblk by (symmetry; by apply take_drop_middle).
  unfold destroy_range in Hblk. cbn in Hblk. rewrite Hd. replace (idx + 1)%nat with (S idx) in * by lia.
  destruct (destroy ((Some <$> l) ++ replicate k None) idx) as [d|]; [|done]. cbn in Hblk |- *. rewrite Hblk.
  cbn. eexists. split; [done|]. exists (S k). cbn. rewrite length_app, length_take_le, length_drop by lia.
  split_and!; [done|lia|lia|lia].
Qed.

Lemma new_vec_vrep : vrep (@new_vec T) [].
Proof. exists 0%nat. cbn. split_and!; [done|done|done|lia]. Qed.

(** Copying into freshly reserved storage. *)
Lemma copy_into o l v :
  vrep o l → vrep v [] → Z.of_nat (length l) ≤ 2 ^ 62 →
  ∃ v', (v1 ← reserve (Z.of_nat (v_size o)) v;
         d ← copy_elements o (v_data v1); Some (Vec d (v_size o) (v_cap v1))) = Some v' ∧ vrep v' l.
Proof.
  intros (k & Hd & Hs & Hc & Hb) Hv Hl.
  destruct (reserve_vrep v [] (Z.of_nat (v_size o)) Hv ltac:(lia)) as (v1 & -> & (k1 & Hd1 & Hs1 & Hc1 & Hb1) & Hcap & _).
  cbn in Hd1, Hs1, Hc1. cbn. rewrite Hd1.
  rewrite (copy_elements_spec o l k k1 Hd Hs ltac:(lia)). cbn. eexists. split; [done|].
  exists (k1 - length l)%nat. cbn. split_and!; [done|done|lia|done].
Qed.
End Correct.

(** ** Properties *)

(** C18: the vector implements lists without object-lifetime errors.  On a vector that
    holds the elements [l] (its capacity below 2^63), each operation, under its own bound
    on the size it is asked for and for values that do not live in storage the operation
    releases, runs without constructing over a live object and without destroying or
    reading raw storage, and its doubling loop ends; the result holds the list the
    operation describes, with all other storage raw.  An element of the vector itself may
    be pushed when there is room; a position outside the vector changes nothing. *)
Theorem vector_refines_list {T} (v : vec T) l :
  vrep v l →
  (∀ x, Z.of_nat (length l) < 2 ^ 62 → ∃ v', push_back (Ext x) v = Some v' ∧ vrep v' (l ++ [x])) ∧
  (∀ i x, l !! i = Some x → Z.of_nat (length l) < v_cap v → ∃ v', push_back (Own i) v = Some v' ∧ vrep v' (l ++ [x])) ∧
  (∃ v', pop_back v = Some v' ∧ vrep v' (take (length l - 1) l)) ∧
  (∀ n, Z.of_nat n ≤ 2 ^ 62 → ∃ v', reserve (Z.of_nat n) v = Some v' ∧ vrep v' l ∧ Z.of_nat n ≤ v_cap v') ∧
  (∀ n x, Z.of_nat n ≤ 2 ^ 62 → ∃ v', resize n x v = Some v' ∧ vrep v' (take n l ++ replicate (n - length l) x)) ∧
  (∃ v', clear v = Some v' ∧ vrep v' [] ∧ v_cap v' = v_cap v) ∧
  (∀ idx, (idx < length l)%nat → ∃ v', erase_at idx v = Some (v', idx) ∧ vrep v' (take idx l ++ drop (S idx) l)) ∧
  (∀ idx, (length l ≤ idx)%nat → erase_at idx v = Some (v, length l)) ∧
  (∀ first last, (first < last)%nat → (first ≤ length l)%nat →
     ∃ v', erase_range first last v = Some (v', first) ∧ vrep v' (take first l ++ drop last l)) ∧
  (∀ first last, (last ≤ first ∨ length l < first)%nat → erase_range first last v = Some (v, length l)) ∧
  (Z.of_nat (length l) ≤ 2 ^ 62 → ∃ v', copy_construct v = Some v' ∧ vrep v' l) ∧
  (∀ w lw, vrep w lw → Z.of_nat (length l) ≤ 2 ^ 62 → ∃ w', copy_assign v w = Some w' ∧ vrep w' l) ∧
  (∀ w lw, vrep w lw → ∃ w' v', move_assign v w = Some (w', v') ∧ vrep w' l ∧ vrep v' []).
Proof.
  intros Hv. pose proof Hv as (k & Hd & Hs & Hc & Hb).
  split_and!; [by intros; apply push_back_vrep|by intros; apply push_own_vrep|by apply pop_back_vrep| |by intros; apply resize_vrep|by apply (clear_vrep v l)
    |by intros; apply erase_at_vrep| |by intros; apply erase_range_vrep| | | |].
  - intros n Hn. destruct (reserve_vrep v l (Z.of_nat n) Hv Hn) as (v' & ? & ? & ? & _). eauto.
  - intros idx Hi. unfold erase_at. rewrite Hs. by rewrite (proj2 (Nat.leb_le _ _) Hi).
  - intros first last Ho. unfold erase_range. rewrite Hs. destruct (Nat.leb_spec last first); [done|].
    by rewrite (proj2 (Nat.ltb_lt _ _)) by lia.
  - intros Hl. apply copy_into; [done|apply new_vec_vrep|done].
  - intros w lw Hw Hl. unfold copy_assign. destruct (clear_vrep w lw Hw) as (v1 & -> & Hv1 & _). by apply copy_into.
  - intros w lw Hw. unfold move_assign. destruct (clear_vrep w lw Hw) as (v1 & -> & _). do 2 eexists. split; [done|]. split; [done|apply new_vec_vrep].
Qed.

Definition vec_sample : vec Z := Vec [Some 10; Some 20; Some 30; None] 3 4.

Lemma vec_sample_vrep : vrep vec_sample [10; 20; 30].
Proof. exists 1%nat. split_and!; [done|done|done|cbn; lia]. Qed.

Lemma vector_refines_list_witness :
  ∃ v', erase_range 0 2 vec_sample = Some (v', 0%nat) ∧ vrep v' [30].
Proof.
  destruct (vector_refines_list vec_sample [10; 20; 30] vec_sample_vrep) as (_ & _ & _ & _ & _ & _ & _ & _ & He & _).
  apply (He 0%nat 2%nat); cbn; lia.
Defined.

(** Pushing an element of the vector itself when it is full reads freed storage:
    [grow] releases the old array before the argument, a reference into it, is copied.
    Pushing a copy made beforehand works. *)
Theorem vector_push_own_dangling {T} (v : vec T) l i x :
  vrep v l → v_cap v = Z.of_nat (length l) → l !! i = Some x → Z.of_nat (length l) < 2 ^ 62 →
  push_back (Own i) v = None ∧ ∃ v', push_back (Ext x) v = Some v' ∧ vrep v' (l ++ [x]).
Proof.
  intros Hv Hc Hi Hl. split; [|by apply push_back_vrep]. pose proof Hv as (k & _ & Hs & _). unfold push_back.
  rewrite Hs, Hc, Z.leb_refl.
  destruct (grow_vrep v l (Z.of_nat (length l) + 1) Hv ltac:(lia)) as (v1 & -> & _). done.
Qed.

Lemma vector_push_own_dangling_witness :
  push_back (Own 0%nat) (Vec [Some 7; Some 8] 2 2) = None.
Proof.
  refine (proj1 (vector_push_own_dangling (Vec [Some 7; Some 8] 2 2) [7; 8] 0%nat 7 _ eq_refl eq_refl _)).
  - exists 0%nat. split_and!; [done|done|done|cbn; lia].
  - cbn. lia.
Defined.
