(* ===== verification/MultiMap.v ===== *)
(** * Sorted multimap (common/tm_safe_map.hpp, class TMSafeMultiMap)

    A sorted array of pairs with binary search.  Keys are compared with a strict weak
    order, as C++ requires of [operator<].  Storage slots beyond [mm_size] are [None]
    until assigned.  The binary searches carry fuel (the element count suffices);
    insertion is shown to keep the array sorted and stable. *)

From Stdlib Require Import Sorting.Sorted.
From S2P Require Import Prelude Vector.

Record multimap (K V : Type) := MM { mm_data : list (option (K * V)); mm_size : nat; mm_cap : Z }.
Arguments MM {K V}.
Arguments mm_data {K V}.
Arguments mm_size {K V}.
Arguments mm_cap {K V}.

(** ** Loops over raw storage *)

Section Slots.
Context {T : Type}.
Implicit Types (data : list (option T)).

(** [nd[i] = m_data[i]] for the elements. *)
Fixpoint copy_slots (src : list (option T)) (i n : nat) (nd : list (option T))
    : option (list (option T)) :=
  match n with
  | O => Some nd
  | S n' => x ← src !! i; copy_slots src (S i) n' (<[i := x]> nd)
  end.

(** [for (i = m_size; i > pos; i--) m_data[i] = m_data[i-1]]. *)
Fixpoint shift_up (n pos : nat) data : option (list (option T)) :=
  match n with
  | O => Some data
  | S n' => x ← data !! (pos + n'); shift_up n' pos (<[pos + n' + 1 := x]> data)
  end.

Lemma copy_slots_spec (src nd : list (option T)) i n :
  i + n ≤ length src → i + n ≤ length nd →
  ∃ nd', copy_slots src i n nd = Some nd' ∧ length nd' = length nd ∧
    ∀ j, nd' !! j = if (i <=? j) && (j <? i + n) then src !! j else nd !! j.
Proof.
  revert i nd. induction n as [|n IH]; intros i nd Hs Hn.
  - exists nd. split_and!; [done|done|]. intros j. destruct (Nat.leb_spec i j), (Nat.ltb_spec j (i + 0)); simpl; try lia; done.
  - simpl. destruct (lookup_lt_is_Some_2 src i ltac:(lia)) as [x Hx]. rewrite Hx. simpl.
    destruct (IH (S i) (<[i := x]> nd)) as (nd' & Hr & Hl & Hlook); [lia|rewrite length_insert; lia|].
    exists nd'. split_and!; [done|by rewrite Hl, length_insert|]. intros j. rewrite Hlook.
    destruct (decide (j = i)) as [->|Hne].
    + destruct (Nat.leb_spec (S i) i), (Nat.leb_spec i i), (Nat.ltb_spec i (i + S n)); simpl; try lia.
      by rewrite list_lookup_insert_eq by lia.
    + rewrite list_lookup_insert_ne by done.
      destruct (Nat.leb_spec (S i) j), (Nat.leb_spec i j), (Nat.ltb_spec j (S i + n)), (Nat.ltb_spec j (i + S n)); simpl; try lia; done.
Qed.

Lemma shift_up_spec n pos (data : list (option T)) :
  pos + n < length data →
  ∃ d, shift_up n pos data = Some d ∧ length d = length data ∧
    ∀ j, d !! j = if (pos <? j) && (j <=? pos + n) then data !! (j - 1) else data !! j.
Proof.
  revert data. induction n as [|n IH]; intros data Hl.
  - exists data. split_and!; [done|done|]. intros j.
    destruct (Nat.ltb_spec pos j), (Nat.leb_spec j (pos + 0)); simpl; try lia; done.
  - simpl. destruct (lookup_lt_is_Some_2 data (pos + n) ltac:(lia)) as [x Hx]. rewrite Hx. simpl.
    destruct (IH (<[pos + n + 1 := x]> data)) as (d & Hr & Hlen & Hlook); [rewrite length_insert; lia|].
    exists d. split_and!; [done|by rewrite Hlen, length_insert|]. intros j. rewrite Hlook.
    destruct (decide (j = pos + n + 1)) as [->|Hne].
    + destruct (Nat.ltb_spec pos (pos + n + 1)), (Nat.leb_spec (pos + n + 1) (pos + n)),
        (Nat.leb_spec (pos + n + 1) (pos + S n)); simpl; try lia.
      rewrite list_lookup_insert_eq by lia. rewrite Nat.add_sub. done.
    + destruct (Nat.ltb_spec pos j), (Nat.leb_spec j (pos + n)), (Nat.leb_spec j (pos + S n)); simpl; try lia;
        rewrite list_lookup_insert_ne by lia; done.
Qed.

End Slots.

Section Ops.
Context {K V : Type} (ltb : K → K → bool).
Implicit Types (t : multimap K V) (data : list (option (K * V))).

Definition new_multimap : multimap K V := MM [] 0 0.

(** The binary-search loop: [right] tells whether to continue to the right of a key. *)
Fixpoint search_loop (right : K → bool) data (fuel first count : nat) : option nat :=
  match fuel with
  | O => None
  | S fuel' =>
      if 0 <? count then
        let step := count / 2 in
        let it := first + step in
        match data !! it with
        | Some (Some kv) =>
            if right kv.1 then search_loop right data fuel' (it + 1) (count - (step + 1))
            else search_loop right data fuel' first step
        | _ => None
        end
      else Some first
  end.

Definition lower_pos t (k : K) : option nat :=
  search_loop (λ x, ltb x k) (mm_data t) (S (mm_size t)) 0 (mm_size t).

Definition upper_pos t (k : K) : option nat :=
  search_loop (λ x, negb (ltb k x)) (mm_data t) (S (mm_size t)) 0 (mm_size t).

Definition mm_grow (min_cap : Z) t : option (multimap K V) :=
  nc ← grow_cap 64 (if (mm_cap t =? 0)%Z then 4%Z else mm_cap t) min_cap;
  nd ← copy_slots (mm_data t) 0 (mm_size t) (replicate (Z.to_nat nc) None);
  Some (MM nd (mm_size t) nc).

Definition mm_reserve (n : Z) t : option (multimap K V) :=
  if (mm_cap t <? n)%Z then mm_grow n t else Some t.

Definition mm_insert (p : K * V) t : option (multimap K V) :=
  pos ← upper_pos t p.1;
  t' ← (if (mm_cap t <=? Z.of_nat (mm_size t))%Z then mm_grow (Z.of_nat (mm_size t) + 1) t else Some t);
  d ← shift_up (mm_size t' - pos) pos (mm_data t');
  if pos <? length d then Some (MM (<[pos := Some p]> d) (mm_size t' + 1) (mm_cap t')) else None.

Definition mm_clear t : multimap K V := MM (mm_data t) 0 (mm_cap t).
Definition lower_bound t (k : K) : option nat := lower_pos t k.
End Ops.

(** ** Representation *)

Section Correct.
Context {K V : Type} (ltb : K → K → bool) `{!StrictWeakOrder ltb}.
Implicit Types (t : multimap K V) (l : list (K * V)).

Definition key_le (x y : K * V) : Prop := ltb y.1 x.1 = false.

Definition mrep t l : Prop :=
  length (mm_data t) = Z.to_nat (mm_cap t) ∧ (Z.of_nat (length l) ≤ mm_cap t < 2 ^ 63)%Z ∧
  mm_size t = length l ∧ (∀ i x, l !! i = Some x → mm_data t !! i = Some (Some x)) ∧
  StronglySorted key_le l.

Lemma sorted_le l i j x y :
  StronglySorted key_le l → i ≤ j → l !! i = Some x → l !! j = Some y → key_le x y.
Proof.
  intros Hs. revert i j. induction Hs as [|z l Hs IH Hf]; intros i j Hij Hi Hj; [done|].
  destruct i as [|i], j as [|j]; simpl in *; try lia.
  - simplify_eq. apply swo_irrefl.
  - simplify_eq. rewrite Forall_lookup in Hf. by eapply Hf.
  - eapply (IH i j); [lia|done..].
Qed.

(** The loop finds the boundary of a predicate that holds on a prefix. *)
Lemma search_loop_spec (right : K → bool) (data : list (option (K * V))) l fuel first count b :
  (∀ i x, l !! i = Some x → data !! i = Some (Some x)) →
  b ≤ length l → (∀ i x, l !! i = Some x → right x.1 = (i <? b)) →
  first ≤ b → b ≤ first + count → first + count ≤ length l → count < fuel →
  search_loop right data fuel first count = Some b.
Proof.
  intros Hd Hb Hr. revert first count. induction fuel as [|fuel IH]; intros first count H1 H2 H3 Hf; [lia|].
  cbn [search_loop]. destruct (Nat.ltb_spec 0 count) as [Hc|Hc]; [|f_equal; lia].
  set (step := count / 2). assert (step < count) as Hst by (apply Nat.div_lt; lia).
  destruct (lookup_lt_is_Some_2 l (first + step) ltac:(lia)) as [x Hx].
  rewrite (Hd _ _ Hx). rewrite (Hr _ _ Hx). destruct (Nat.ltb_spec (first + step) b).
  - apply IH; lia.
  - apply IH; lia.
Qed.

(** Number of elements satisfying a predicate that is a prefix of the sorted list. *)
Fixpoint prefix_len (right : K → bool) l : nat :=
  match l with [] => 0 | x :: l' => if right x.1 then S (prefix_len right l') else 0 end.

Lemma prefix_len_le right l : prefix_len right l ≤ length l.
Proof. induction l as [|x l IH]; simpl; [lia|]. destruct (right x.1); lia. Qed.

Lemma prefix_len_spec right l :
  StronglySorted key_le l → (∀ x y, key_le x y → right y.1 = true → right x.1 = true) →
  ∀ i x, l !! i = Some x → right x.1 = (i <? prefix_len right l).
Proof.
  intros Hs Hmono. induction Hs as [|z l Hs IH Hf]; intros i x Hi; [done|]. simpl.
  destruct i as [|i]; simpl in Hi.
  - simplify_eq. by destruct (right x.1).
  - destruct (right z.1) eqn:Hz; [by rewrite (IH _ _ Hi)|].
    destruct (right x.1) eqn:Hx; [|done]. rewrite Forall_lookup in Hf.
    rewrite (Hmono z x (Hf _ _ Hi) Hx) in Hz. done.
Qed.

Definition lower_right (k : K) (x : K) : bool := ltb x k.
Definition upper_right (k : K) (x : K) : bool := negb (ltb k x).

Lemma lower_mono k x y : key_le x y → lower_right k y.1 = true → lower_right k x.1 = true.
Proof.
  unfold key_le, lower_right. intros Hle Hy. destruct (ltb x.1 k) eqn:E; [done|].
  by rewrite (swo_incomp _ _ _ Hle E) in Hy.
Qed.

Lemma upper_mono k x y : key_le x y → upper_right k y.1 = true → upper_right k x.1 = true.
Proof.
  unfold key_le, upper_right. rewrite !negb_true_iff. intros Hle Hy. by eapply swo_incomp.
Qed.

Lemma lower_pos_spec t l k :
  mrep t l → lower_pos ltb t k = Some (prefix_len (lower_right k) l).
Proof.
  intros (_ & _ & Hsz & Hd & Hs). unfold lower_pos. rewrite Hsz.
  apply (search_loop_spec (lower_right k) _ l); try done; try lia.
  - apply prefix_len_le.
  - apply prefix_len_spec; [done|]. apply lower_mono.
  - apply prefix_len_le.
Qed.

Lemma upper_pos_spec t l k :
  mrep t l → upper_pos ltb t k = Some (prefix_len (upper_right k) l).
Proof.
  intros (_ & _ & Hsz & Hd & Hs). unfold upper_pos. rewrite Hsz.
  apply (search_loop_spec (upper_right k) _ l); try done; try lia.
  - apply prefix_len_le.
  - apply prefix_len_spec; [done|]. apply upper_mono.
  - apply prefix_len_le.
Qed.

(** ** Storage *)

Lemma mm_grow_mrep t l n :
  mrep t l → (n ≤ 2 ^ 62)%Z → ∃ t', mm_grow n t = Some t' ∧ mrep t' l ∧ (n ≤ mm_cap t')%Z.
Proof.
  intros (Hlen & Hcap & Hsz & Hd & Hs) Hn. unfold mm_grow.
  set (nc0 := if (mm_cap t =? 0)%Z then 4%Z else mm_cap t).
  assert (0 < nc0 < 2 ^ 63 ∧ mm_cap t ≤ nc0)%Z as [Hnc0 Hge].
  { unfold nc0. destruct (Z.eqb_spec (mm_cap t) 0); lia. }
  destruct (grow_cap_spec 63 nc0 n Hnc0 Hn) as (nc & -> & Hnn & Hnc & _).
  { apply Z.le_trans with (1 * 2 ^ Z.of_nat 63)%Z; [simpl; lia|].
    apply Z.mul_le_mono_nonneg_r; [apply Z.pow_nonneg; lia|lia]. }
  cbn. destruct (copy_slots_spec (mm_data t) (replicate (Z.to_nat nc) None) 0 (mm_size t)) as (nd & -> & Hl & Hlook).
  { lia. } { rewrite length_replicate. lia. }
  cbn. eexists. split; [done|]. split; [|cbn; lia]. rewrite length_replicate in Hl.
  split_and!; cbn; [done|lia|lia|done| |done]. intros i x Hi. rewrite Hlook.
  apply lookup_lt_Some in Hi as Hlt. simpl. destruct (Nat.ltb_spec i (mm_size t)); [|lia]. by apply Hd.
Qed.

(** Inserting at the upper bound keeps the list sorted. *)
Lemma sorted_insert l p :
  StronglySorted key_le l →
  StronglySorted key_le (take (prefix_len (upper_right p.1) l) l ++ p :: drop (prefix_len (upper_right p.1) l) l).
Proof.
  intros Hs. set (b := prefix_len (upper_right p.1) l).
  pose proof (prefix_len_spec (upper_right p.1) l Hs (upper_mono p.1)) as Hp. fold b in Hp.
  assert (∀ x, x ∈ take b l → key_le x p) as H1.
  { intros x (i & Hi)%list_elem_of_lookup_1. apply lookup_take_Some in Hi as [Hi Hlt]. specialize (Hp _ _ Hi).
    rewrite (proj2 (Nat.ltb_lt i b) Hlt) in Hp. unfold upper_right in Hp. by apply negb_true_iff in Hp. }
  assert (∀ y, y ∈ drop b l → key_le p y) as H2.
  { intros y (i & Hi)%list_elem_of_lookup_1. rewrite lookup_drop in Hi. specialize (Hp _ _ Hi).
    rewrite (proj2 (Nat.ltb_ge (b + i) b)) in Hp by lia. unfold upper_right in Hp. apply negb_false_iff in Hp.
    unfold key_le. destruct (ltb y.1 p.1) eqn:E; [|done].
    pose proof (swo_trans _ _ _ Hp E) as Hc. by rewrite swo_irrefl in Hc. }
  revert Hs. rewrite <- (take_drop b l) at 1. intros Hs. clear Hp.
  induction (take b l) as [|x l1 IH]; simpl in *.
  - constructor; [done|]. rewrite Forall_forall. intros y Hy. by apply H2.
  - apply StronglySorted_inv in Hs as [Hs Hf]. constructor.
    + apply IH; [|done]. intros y Hy. apply H1. by right.
    + apply Forall_app in Hf as [? ?]. apply Forall_app. split; [done|]. constructor; [|done].
      apply H1. left.
Qed.

Lemma mm_insert_mrep t l p :
  mrep t l → (Z.of_nat (length l) < 2 ^ 62)%Z →
  ∃ t', mm_insert ltb p t = Some t' ∧
    mrep t' (take (prefix_len (upper_right p.1) l) l ++ p :: drop (prefix_len (upper_right p.1) l) l).
Proof.
  intros Hm Hl. unfold mm_insert. rewrite (upper_pos_spec t l p.1 Hm). cbn [mbind option_bind].
  set (b := prefix_len (upper_right p.1) l). pose proof (prefix_len_le (upper_right p.1) l) as Hb. fold b in Hb.
  pose proof Hm as (_ & _ & Hsz & _ & Hsort).
  assert (∃ t1, (if (mm_cap t <=? Z.of_nat (mm_size t))%Z then mm_grow (Z.of_nat (mm_size t) + 1) t else Some t) = Some t1 ∧
    mrep t1 l ∧ (Z.of_nat (length l) < mm_cap t1)%Z) as (t1 & -> & (Hlen & Hcap & Hsz1 & Hd & _) & Hlt).
  { rewrite Hsz. destruct (Z.leb_spec (mm_cap t) (Z.of_nat (length l))).
    - destruct (mm_grow_mrep t l (Z.of_nat (length l) + 1) Hm ltac:(lia)) as (t1 & ? & ? & ?).
      exists t1. split_and!; [done|done|lia].
    - by exists t. }
  cbn [mbind option_bind]. rewrite Hsz1. destruct (shift_up_spec (length l - b) b (mm_data t1)) as (d & -> & Hdl & Hlook); [lia|].
  cbn [mbind option_bind]. destruct (Nat.ltb_spec b (length d)); [|lia]. eexists. split; [reflexivity|].
  assert (length (take b l ++ p :: drop b l) = length l + 1) as Hl'.
  { rewrite length_app, length_take_le by done. cbn. rewrite length_drop. lia. }
  unfold mrep. rewrite Hl'. split_and!; cbn; [rewrite length_insert; lia|lia|lia|done| |by apply sorted_insert].
  intros i x Hi. destruct (decide (i = b)) as [->|Hne].
  - rewrite list_lookup_insert_eq by done. rewrite list_lookup_middle in Hi; [congruence|].
    rewrite length_take_le by done. done.
  - rewrite list_lookup_insert_ne by done. rewrite Hlook. apply lookup_app_Some in Hi as [Hi|[Hge Hi]].
    + apply lookup_take_Some in Hi as [Hi Hib]. destruct (Nat.ltb_spec b i); [lia|]. by apply Hd.
    + rewrite length_take_le in Hge, Hi by done. destruct (i - b) as [|k] eqn:E; [lia|]. simpl in Hi.
      rewrite lookup_drop in Hi. apply lookup_lt_Some in Hi as Hlt'.
      destruct (Nat.ltb_spec b i), (Nat.leb_spec i (b + (length l - b))); cbn; try lia.
      apply Hd. by replace (i - 1) with (b + k) by lia.
Qed.
End Correct.

(** ** Properties *)

(** The multimap keeps a sorted array.  For any strict weak order, [insert]
    (binary search for the upper bound, growth, shift, store) yields the array with the
    pair placed after all entries whose key is not greater, hence sorted, and stable for
    equal keys; [lower_bound] returns the number of entries with a smaller key; neither
    search nor shift runs out of its bounds. *)
Theorem multimap_refines_sorted {K V} (ltb : K → K → bool) `{!StrictWeakOrder ltb} (t : multimap K V) l p k :
  mrep ltb t l → (Z.of_nat (length l) < 2 ^ 62)%Z →
  (∃ t' l1 l2, mm_insert ltb p t = Some t' ∧ l = l1 ++ l2 ∧ mrep ltb t' (l1 ++ p :: l2) ∧
     (∀ x, x ∈ l1 → ltb p.1 x.1 = false) ∧ (∀ y, y ∈ l2 → ltb p.1 y.1 = true)) ∧
  (∃ b, lower_bound ltb t k = Some b ∧ ∀ i x, l !! i = Some x → ltb x.1 k = (i <? b)).
Proof.
  intros Hm Hl. pose proof Hm as (_ & _ & _ & _ & Hs). split.
  - destruct (mm_insert_mrep ltb t l p Hm Hl) as (t' & Hi & Hm').
    exists t', (take (prefix_len (upper_right ltb p.1) l) l), (drop (prefix_len (upper_right ltb p.1) l) l).
    pose proof (prefix_len_spec ltb (upper_right ltb p.1) l Hs (upper_mono ltb p.1)) as Hp.
    split_and!; [done|by rewrite take_drop|done| |].
    + intros x (i & Hx)%list_elem_of_lookup_1. apply lookup_take_Some in Hx as [Hx Hlt]. specialize (Hp _ _ Hx).
      rewrite (proj2 (Nat.ltb_lt _ _) Hlt) in Hp. by apply negb_true_iff in Hp.
    + intros y (i & Hy)%list_elem_of_lookup_1. rewrite lookup_drop in Hy. specialize (Hp _ _ Hy).
      rewrite (proj2 (Nat.ltb_ge _ _)) in Hp by lia. by apply negb_false_iff in Hp.
  - eexists. split; [by apply lower_pos_spec|]. intros i x Hx.
    by apply (prefix_len_spec ltb (lower_right ltb k) l Hs (lower_mono ltb k)).
Qed.


Lemma multimap_refines_sorted_witness :
  ∃ b, lower_bound Z.ltb (MM [Some (1%Z, 10%Z); Some (3%Z, 30%Z); None; None] 2 4) 2%Z = Some b ∧
       ∀ i x, [(1%Z, 10%Z); (3%Z, 30%Z)] !! i = Some x → (x.1 <? 2)%Z = (i <? b).
Proof.
  refine (proj2 (multimap_refines_sorted Z.ltb (MM [Some (1%Z, 10%Z); Some (3%Z, 30%Z); None; None] 2 4)
    [(1%Z, 10%Z); (3%Z, 30%Z)] (2%Z, 20%Z) 2%Z _ _)); [|cbn; lia].
  split_and!; [done|cbn; lia|cbn; lia|done| |].
  - intros [|[|i]] x Hi; cbn in Hi |- *; [congruence..|done].
  - repeat constructor.
Defined.
