(* ===== verification/SGL.v ===== *)
(** * Single global lock (single_global_lock/SingleGlobalLock_runtime.cpp)

    The baseline backend: a transaction takes a mutex, accesses memory directly and
    releases the mutex.  Threads are interleaved at the grain of lock operations and
    typed accesses; a wide access is the sequence of its typed ones.  The backend discharges the same interface as NOrec ([Opaque]), with
    no discipline on accesses and no bound on the number of transactions. *)

From S2P Require Import Prelude Memory Values TMSpec.
#[local] Open Scope Z_scope.

Record sgl_thread := SglThread {
  g_in_tx : bool;       (* thread-local flag *)
  holding : bool;       (* between lock() and unlock() *)
  sgl_evs : list event  (* accesses of the current transaction *)
}.

Record sgl_state := SglState {
  sgl_mem : mem;
  global_tx_lock : option nat;       (* owner of the mutex *)
  g_tm_begin_count : Z;
  sgl_threads : list sgl_thread }.

Inductive sgl_op :=
  | SBegin                                     (* real_tm_begin *)
  | SRead (a : Z) (sz : ValueType)             (* real_tm_read_* *)
  | SWrite (a : Z) (sz : ValueType) (v : Z)    (* real_tm_write_* *)
  | SEnd.                                      (* real_tm_end *)

(** Typed accesses: plain loads and stores. *)
Definition real_tm_read (m : mem) (a : Z) (sz : ValueType) : Z := return_any_type sz (read_value_from_addr m a sz).
Definition real_tm_write (m : mem) (a : Z) (sz : ValueType) (v : Z) : mem := write_value_to_addr m a (AnyT v) sz.

(** Multi-word accesses of the plugin interface, word by word. *)
Fixpoint sgl_read_words (m : mem) (a : Z) (n : nat) : list Z :=
  match n with O => [] | S n' => real_tm_read m a UINT64 :: sgl_read_words m (a + 8) n' end.

Fixpoint sgl_write_words (m : mem) (a : Z) (ws : list Z) : mem :=
  match ws with [] => m | w :: ws' => sgl_write_words (real_tm_write m a UINT64 w) (a + 8) ws' end.

Definition sgl_read_z (m : mem) (src : Z) (len : nat) : list Z := load_bytes m src len.
Definition sgl_write_z (m : mem) (dst src : Z) (len : nat) : mem := store_bytes m dst (load_bytes m src len).
Definition sgl_memset (m : mem) (a val : Z) (len : nat) : mem := store_bytes m a (replicate len (wrap 8 val)).

(** One step of a thread.  [real_tm_begin] first raises the flag and counts, then blocks on
    the mutex, then counts again; [real_tm_end] releases and lowers the flag. *)
Definition sgl_tstep (op : sgl_op) (i : nat) (s : sgl_state) (t : sgl_thread)
    : option (label * sgl_state) :=
  let upd t' := <[i := t']> (sgl_threads s) in
  match op with
  | SBegin =>
      if holding t then None
      else if negb (g_in_tx t)
      then Some (LTau, SglState (sgl_mem s) (global_tx_lock s) (g_tm_begin_count s + 1)
                         (upd (SglThread true false [])))
      else match global_tx_lock s with
           | Some _ => Some (LTau, s)
           | None => Some (LBegin i, SglState (sgl_mem s) (Some i) (g_tm_begin_count s + 1)
                                       (upd (SglThread true true [])))
           end
  | SRead a sz =>
      if holding t
      then Some (LTau, SglState (sgl_mem s) (global_tx_lock s) (g_tm_begin_count s)
                         (upd (SglThread true true (sgl_evs t ++ [EvR a sz (real_tm_read (sgl_mem s) a sz)]))))
      else None
  | SWrite a sz v =>
      if holding t
      then Some (LTau, SglState (real_tm_write (sgl_mem s) a sz v) (global_tx_lock s) (g_tm_begin_count s)
                         (upd (SglThread true true (sgl_evs t ++ [EvW a sz v]))))
      else None
  | SEnd =>
      if holding t
      then Some (LCommit i (sgl_evs t), SglState (sgl_mem s) None (g_tm_begin_count s)
                                          (upd (SglThread false false [])))
      else None
  end.

Inductive sgl_step : sgl_state → label → sgl_state → Prop :=
  | sgl_step_intro s i t op l s' :
      sgl_threads s !! i = Some t → sgl_tstep op i s t = Some (l, s') → sgl_step s l s'.

Definition sgl_initial (m : mem) (s : sgl_state) : Prop :=
  sgl_mem s = m ∧ global_tx_lock s = None ∧ Forall (λ t, holding t = false) (sgl_threads s).

#[export] Instance sgl_backend : TMBackend sgl_state := {
  tm_initial := sgl_initial;
  tm_step := sgl_step;
  tm_memory := sgl_mem;
  tm_quiescent s := global_tx_lock s = None;
  tm_in_bounds _ := True;
}.

(** ** Simulation *)

(** The lock owner is the only holder; its accesses replay from the newest committed
    memory to the current one. *)
Definition sgl_inv (s : sgl_state) (a : spec_state) : Prop :=
  match global_tx_lock s with
  | None => newest a = Some (sgl_mem s) ∧ Forall (λ t, holding t = false) (sgl_threads s)
  | Some i => ∃ t m, sgl_threads s !! i = Some t ∧ holding t = true ∧
      newest a = Some m ∧ replay m (sgl_evs t) = Some (sgl_mem s) ∧
      ∀ j u, sgl_threads s !! j = Some u → j ≠ i → holding u = false
  end.

Lemma sgl_holder s a i t :
  sgl_inv s a → sgl_threads s !! i = Some t → holding t = true →
  global_tx_lock s = Some i ∧ ∃ m, newest a = Some m ∧ replay m (sgl_evs t) = Some (sgl_mem s) ∧
    ∀ j u, sgl_threads s !! j = Some u → j ≠ i → holding u = false.
Proof.
  unfold sgl_inv. intros HI Hi Ht. destruct (global_tx_lock s) as [k|].
  - destruct HI as (t' & m & Hk & _ & Hm & Hr & Ho).
    destruct (decide (i = k)) as [->|Hne]; [|by rewrite (Ho i t) in Ht].
    split; [done|]. exists m. by simplify_eq.
  - destruct HI as [_ Hf]. rewrite Forall_lookup in Hf. by rewrite (Hf _ _ Hi) in Ht.
Qed.

(** The holder performs an access. *)
Lemma sgl_access s a i t m' e cnt :
  sgl_inv s a → sgl_threads s !! i = Some t → holding t = true →
  (∀ m, replay m (sgl_evs t) = Some (sgl_mem s) → replay m (sgl_evs t ++ [e]) = Some m') →
  sgl_inv (SglState m' (global_tx_lock s) cnt (<[i := SglThread true true (sgl_evs t ++ [e])]> (sgl_threads s))) a.
Proof.
  intros HI Hi Ht He. destruct (sgl_holder s a i t HI Hi Ht) as (-> & m & Hm & Hr & Ho).
  unfold sgl_inv. simpl. eexists _, m. split; [by apply list_lookup_insert_eq, (lookup_lt_Some _ _ _ Hi)|].
  split_and!; [done|done|by apply He|]. intros j u Hj Hne. rewrite list_lookup_insert_ne in Hj by done. by eapply Ho.
Qed.

Lemma sgl_sim s a l s' : sgl_inv s a → sgl_step s l s' → ∃ a', spec_step a l a' ∧ sgl_inv s' a'.
Proof.
  intros HI Hs. destruct Hs as [s i t op l s' Hi Hstep]. pose proof (lookup_lt_Some _ _ _ Hi) as Hlt.
  destruct op; simpl in Hstep; destruct (holding t) eqn:Ht; try done.
  - destruct (g_in_tx t); simpl in Hstep.
    + destruct (global_tx_lock s) as [k|] eqn:Hk; simplify_eq; [exists a; split; [constructor|done]|].
      eexists. split; [constructor|]. unfold sgl_inv in *. rewrite Hk in HI. simpl.
      destruct HI as [Hm Hf]. eexists _, _. split; [by apply list_lookup_insert_eq|].
      split_and!; [done|done|done|]. intros j u Hj Hne. rewrite list_lookup_insert_ne in Hj by done.
      rewrite Forall_lookup in Hf. by eapply Hf.
    + simplify_eq. exists a. split; [constructor|]. unfold sgl_inv in *. simpl. destruct (global_tx_lock s) as [k|].
      * destruct HI as (u & m & Hk & Hu & Hm & Hr & Ho).
        assert (i ≠ k) as Hik by (intros ->; congruence).
        exists u, m. split; [by rewrite list_lookup_insert_ne|]. split_and!; [done..|].
        intros j w Hj Hne. apply list_lookup_insert_Some in Hj as [(_ & <- & _)|[_ Hj]]; [done|by eapply Ho].
      * destruct HI as [Hm Hf]. split; [done|]. by apply Forall_insert.
  - simplify_eq. exists a. split; [constructor|]. apply (sgl_access s a i t); try done.
    intros m Hm. by apply replay_snoc_read.
  - simplify_eq. exists a. split; [constructor|]. apply (sgl_access s a i t); try done.
    intros m Hm. by apply replay_snoc_write.
  - simplify_eq. destruct (sgl_holder s a i t HI Hi Ht) as (_ & m & Hm & Hr & Ho).
    eexists. split; [by eapply spec_commit_update|]. unfold sgl_inv. simpl. split.
    + unfold newest. simpl. by rewrite last_snoc.
    + rewrite Forall_lookup. intros j u Hj.
      apply list_lookup_insert_Some in Hj as [(_ & <- & _)|[Hne Hj]]; [done|by apply (Ho j)].
Qed.

#[export] Instance sgl_opaque_instance : Opaque sgl_state.
Proof.
  intros m0 s tr s' (Hm & Hl & Hf) He _.
  assert (∃ a, exec spec_step (spec_init m0) tr a ∧ sgl_inv s' a) as (a & Ha & HI).
  { induction He as [s|s tr s1 l s2 He IH Hstep].
    - exists (spec_init m0). split; [constructor|]. unfold sgl_inv. rewrite Hl. split; [by rewrite Hm|done].
    - destruct (IH Hm Hl Hf) as (a & Ha & HI). destruct (sgl_sim _ _ _ _ HI Hstep) as (a' & Hs & HI').
      exists a'. split; [by econstructor|done]. }
  exists a. split; [done|]. simpl. intros Hq. unfold sgl_inv in HI. rewrite Hq in HI. by destruct HI.
Qed.

(** ** Multi-word accesses *)

Lemma real_read_word m a : mem_ok m → real_tm_read m a UINT64 = le_word (load_bytes m a 8).
Proof.
  intros Hm. unfold real_tm_read, return_any_type. rewrite read_value_eq, any_get_wrap by (simpl; lia).
  simpl u8. simpl type_size. apply Z.mod_small.
  pose proof (le_word_range (load_bytes m a 8) (load_bytes_ok m a 8 Hm)) as Hr.
  rewrite length_load_bytes in Hr. exact Hr.
Qed.

Lemma sgl_read_words_write m a ws :
  sgl_read_words (sgl_write_words m a ws) a (length ws) = wrap64 <$> ws.
Proof.
  assert (∀ ws m a b, b + 8 ≤ a → real_tm_read (sgl_write_words m a ws) b UINT64 = real_tm_read m b UINT64) as Hframe.
  { clear. intros ws. induction ws as [|w ws IH]; intros m a b Hb; [done|]. simpl. rewrite IH by lia.
    unfold real_tm_read, real_tm_write. rewrite read_write_disjoint; [done|].
    unfold disjoint_acc. simpl. lia. }
  revert m a. induction ws as [|w ws IH]; intros m a; [done|]. simpl. f_equal; [|apply IH].
  rewrite Hframe by lia. unfold real_tm_read, real_tm_write. rewrite read_write_same by done.
  unfold return_any_type. rewrite any_get_wrap by (simpl; lia). simpl u8. simpl type_size.
  unfold wrap. by rewrite Z.mod_mod.
Qed.

(** ** Properties *)

(** C13: the single-lock backend is opaque.  Under every interleaving of any number of
    threads the trace is one of the abstract transactional memory, and whenever the lock is
    free the shared memory is the newest committed one. *)
Theorem sgl_opaque m0 s tr s' :
  sgl_initial m0 s → exec sgl_step s tr s' →
  ∃ a, exec spec_step (spec_init m0) tr a ∧
       (global_tx_lock s' = None → newest a = Some (sgl_mem s')).
Proof. intros Hi He. exact (sgl_opaque_instance m0 s tr s' Hi He I). Qed.

Definition sgl_demo0 : sgl_state := SglState ∅ None 0 (replicate 2 (SglThread false false [])).

Lemma sgl_opaque_witness :
  ∃ tr s' a, exec sgl_step sgl_demo0 tr s' ∧ exec spec_step (spec_init ∅) tr a ∧
    newest a = Some (sgl_mem s') ∧ real_tm_read (sgl_mem s') 0x100000 UINT32 = 7.
Proof.
  pose (go := λ (i : nat) op s, match sgl_threads s !! i with
    | Some t => match sgl_tstep op i s t with Some (_, s') => s' | None => s end | None => s end).
  pose (s1 := go 0%nat SBegin sgl_demo0). pose (s2 := go 0%nat SBegin s1).
  pose (s3 := go 0%nat (SWrite 0x100000 UINT32 7) s2). pose (s4 := go 0%nat SEnd s3).
  assert (exec sgl_step sgl_demo0 ([] ++ [LTau] ++ [LBegin 0%nat] ++ [LTau] ++ [LCommit 0%nat [EvW 0x100000 UINT32 7]]) s4) as He.
  { eapply exec_cons with (s' := s1); [by eapply (sgl_step_intro _ 0%nat _ SBegin)|].
    eapply exec_cons with (s' := s2); [by eapply (sgl_step_intro _ 0%nat _ SBegin)|].
    eapply exec_cons with (s' := s3); [by eapply (sgl_step_intro _ 0%nat _ (SWrite 0x100000 UINT32 7))|].
    eapply exec_cons with (s' := s4); [by eapply (sgl_step_intro _ 0%nat _ SEnd)|]. constructor. }
  destruct (sgl_opaque ∅ sgl_demo0 _ s4 ltac:(split_and!; [done|done|repeat constructor]) He) as (a & Ha & Hq).
  exists ([] ++ [LTau] ++ [LBegin 0%nat] ++ [LTau] ++ [LCommit 0%nat [EvW 0x100000 UINT32 7]]), s4, a.
  split; [exact He|]. split; [exact Ha|]. split; [exact (Hq eq_refl)|]. vm_compute. reflexivity.
Defined.

(** Wide accesses round-trip: reading back the words of a 16-, 32- or 64-byte store
    returns them, each truncated to 64 bits. *)
Theorem sgl_wide_roundtrip m a ws :
  sgl_read_words (sgl_write_words m a ws) a (length ws) = wrap64 <$> ws.
Proof. apply sgl_read_words_write. Qed.
