(* ===== verification/Support.v ===== *)
(** * Spin token and relative pointers (common/tm_spin_token.hpp, common/rel_ptr.hpp)

    Two small runtime facilities: the global tie-breaker token, a word set by
    compare-and-swap to the id of the one transaction allowed to spin; and
    [RelPtr], offsets from a base address that survive remapping of the region. *)

From S2P Require Import Prelude.
#[local] Open Scope Z_scope.

Module SpinToken.

(** [g_tx_token]: -1 when free. *)
Definition FREE : Z := -1.

Definition tm_token_is_free (tok : Z) : bool := tok =? FREE.

Definition tm_token_try_acquire (tok tx_id : Z) : bool * Z :=
  if tok =? FREE then (true, tx_id) else (false, tok).

Definition tm_token_soft_spin (tok abort_count tx_id threshold : Z) : bool * Z :=
  if abort_count <? threshold then (false, tok)
  else if negb (tm_token_is_free tok) then (false, tok)
  else tm_token_try_acquire tok tx_id.

Definition tm_token_release (tok : Z) : Z := FREE.

Definition tm_token_release_if_held (tok tx_id : Z) : Z := if tok =? tx_id then FREE else tok.

(** Threads using the token: the free check of [soft_spin] and its compare-and-swap are
    two atomic steps.  Aborts release the token only when it holds the aborting id;
    commits call [tm_token_release] whether or not they hold it, so a commit step is
    labelled with the committing thread's situation. *)
Inductive tpc := TOut | TSawFree | THolds.
Record tthread := TT { tt_id : Z; tt_pc : tpc }.
Inductive tlabel := LTau | LCommit (pc : tpc).

Inductive tok_step : Z → tthread → tlabel → Z → tthread → Prop :=
  | tok_check tok i : tm_token_is_free tok = true → tok_step tok (TT i TOut) LTau tok (TT i TSawFree)
  | tok_acquire tok i tok' :
      tm_token_try_acquire tok i = (true, tok') → tok_step tok (TT i TSawFree) LTau tok' (TT i THolds)
  | tok_lost tok i tok' :
      tm_token_try_acquire tok i = (false, tok') → tok_step tok (TT i TSawFree) LTau tok' (TT i TOut)
  | tok_abort tok i pc : tok_step tok (TT i pc) LTau (tm_token_release_if_held tok i) (TT i TOut)
  | tok_commit tok i pc : tok_step tok (TT i pc) (LCommit pc) (tm_token_release tok) (TT i TOut).

Inductive tok_steps : Z → list tthread → list tlabel → Z → list tthread → Prop :=
  | tok_refl tok ts : tok_steps tok ts [] tok ts
  | tok_next tok ts tr tok1 ts1 i t l tok2 t' :
      tok_steps tok ts tr tok1 ts1 → ts1 !! i = Some t → tok_step tok1 t l tok2 t' →
      tok_steps tok ts (tr ++ [l]) tok2 (<[i := t']> ts1).

(** The releases of a run are all by holders. *)
Definition holder_label (l : tlabel) : bool :=
  match l with LTau => true | LCommit THolds => true | LCommit _ => false end.
Definition holder_releases (tr : list tlabel) : bool := forallb holder_label tr.

Definition tinv (tok : Z) (ts : list tthread) : Prop :=
  NoDup (tt_id <$> ts) ∧ Forall (λ t, 0 ≤ tt_id t) ts ∧
  ∀ i t, ts !! i = Some t → tt_pc t = THolds → tok = tt_id t.

Lemma tinv_step tok ts i t l tok' t' :
  tinv tok ts → ts !! i = Some t → tok_step tok t l tok' t' → holder_label l = true → tinv tok' (<[i := t']> ts).
Proof.
  intros (Hn & Hp & Hh) Hi Hs Hl.
  assert (tt_id t' = tt_id t) as Hid by (by inversion Hs).
  assert (0 ≤ tt_id t) as Hpos by (rewrite Forall_lookup in Hp; by eapply Hp).
  split; [|split].
  - rewrite list_fmap_insert, Hid, list_insert_id; [done|]. by rewrite list_lookup_fmap, Hi.
  - apply Forall_insert; [done|lia].
  - intros j u Hj Hu. apply list_lookup_insert_Some in Hj as [(-> & <- & _)|[Hne Hj]].
    + inversion Hs; subst; simpl in *; try done.
      unfold tm_token_try_acquire in *. destruct (_ =? _); congruence.
    + pose proof (Hh _ _ Hj Hu) as Htok.
      assert (tt_id u ≠ tt_id t) as Hdiff.
      { intros Heq. apply Hne. apply (NoDup_lookup _ _ _ (tt_id t) Hn);
          rewrite list_lookup_fmap; [by rewrite Hi|by rewrite Hj; simpl; congruence]. }
      assert (0 ≤ tt_id u) as Hposu by (rewrite Forall_lookup in Hp; by eapply Hp).
      inversion Hs; subst; simpl in *; try done; unfold tm_token_try_acquire, tm_token_release_if_held, FREE in *.
      * destruct (Z.eqb_spec (tt_id u) (-1)); [lia|congruence].
      * destruct (Z.eqb_spec (tt_id u) (-1)); congruence.
      * destruct (Z.eqb_spec (tt_id u) i0); [congruence|done].
      * destruct pc; try done. specialize (Hh _ _ Hi eq_refl). simpl in Hh. congruence.
Qed.

Lemma tinv_steps tok ts tr tok' ts' :
  tinv tok ts → tok_steps tok ts tr tok' ts' → holder_releases tr = true → tinv tok' ts'.
Proof.
  intros Hi. unfold holder_releases. induction 1 as [|tok ts tr tok1 ts1 i t l tok2 t' _ IH Ht Hst]; [done|].
  rewrite forallb_app. simpl. intros (Htr & Hl)%andb_prop. rewrite andb_true_r in Hl.
  by eapply tinv_step; [apply IH| | |].
Qed.

End SpinToken.

Module Rel.

(** A two's-complement 64-bit integer. *)
Definition to_signed (z : Z) : Z := let w := wrap64 z in if w <? 2 ^ 63 then w else w - 2 ^ 64.

(** [off_]; [base] is the process's base address, [None] of the results when it is unset and
    the process aborts. *)
Definition rel_of_ptr (base ptr : Z) : option Z :=
  if ptr =? 0 then Some 0 else if base =? 0 then None else Some (to_signed (ptr - base)).

Definition rel_get (base off : Z) : option Z :=
  if off =? 0 then Some 0 else if base =? 0 then None else Some (wrap64 (base + off)).

Definition rel_bool (off : Z) : bool := negb (off =? 0).
Definition rel_eq (off off' : Z) : bool := off =? off'.

Lemma to_signed_range z : - 2 ^ 63 ≤ to_signed z < 2 ^ 63.
Proof.
  unfold to_signed, wrap. pose proof (Z.mod_pos_bound z (2 ^ 64)). destruct (Z.ltb_spec (z mod 2 ^ 64) (2 ^ 63)); lia.
Qed.

Lemma wrap_to_signed z b : wrap64 (b + to_signed z) = wrap64 (b + z).
Proof.
  unfold to_signed, wrap. destruct (Z.ltb_spec (z mod 2 ^ 64) (2 ^ 63)).
  - by rewrite Z.add_mod_idemp_r by lia.
  - replace (b + (z mod 2 ^ 64 - 2 ^ 64)) with (b + z mod 2 ^ 64 + (-1) * 2 ^ 64) by lia.
    rewrite Z.mod_add by lia. by rewrite Z.add_mod_idemp_r by lia.
Qed.

Lemma to_signed_zero z : to_signed z = 0 ↔ wrap64 z = 0.
Proof.
  unfold to_signed. pose proof (wrap_is_w 64 z ltac:(lia)) as [? ?].
  destruct (Z.ltb_spec (wrap64 z) (2 ^ 63)); lia.
Qed.
End Rel.

(** ** Properties *)

(** Token exclusion, as far as it goes.  Threads with distinct non-negative ids
    check, acquire, lose, abort and commit in any interleaving; as long as only holders
    reach the unconditional release of a commit, two holders are the same thread and the
    token word is the holder's id. *)
Theorem token_exclusive ts0 tr tok ts :
  NoDup (SpinToken.tt_id <$> ts0) → Forall (λ t, 0 ≤ SpinToken.tt_id t) ts0 →
  Forall (λ t, SpinToken.tt_pc t ≠ SpinToken.THolds) ts0 →
  SpinToken.tok_steps SpinToken.FREE ts0 tr tok ts → SpinToken.holder_releases tr = true →
  ∀ i j t u, ts !! i = Some t → ts !! j = Some u →
    SpinToken.tt_pc t = SpinToken.THolds → SpinToken.tt_pc u = SpinToken.THolds →
    i = j ∧ tok = SpinToken.tt_id t.
Proof.
  intros Hn Hp Hh Hs Htr.
  assert (SpinToken.tinv SpinToken.FREE ts0) as Hi.
  { split_and!; [done|done|]. intros i t Hit Ht. rewrite Forall_lookup in Hh. by apply (Hh i) in Ht. }
  apply (SpinToken.tinv_steps _ _ _ _ _ Hi) in Hs as (Hn' & _ & Hh'); [|done].
  intros i j t u Hti Huj Ht Hu. split; [|by apply (Hh' i)].
  apply (NoDup_lookup _ _ _ (SpinToken.tt_id t) Hn'); rewrite list_lookup_fmap; [by rewrite Hti|].
  rewrite Huj. simpl. f_equal. rewrite <- (Hh' _ _ Hti Ht). symmetry. by apply (Hh' j).
Qed.

Lemma token_exclusive_witness : (0 = 0)%nat ∧ 1 = SpinToken.tt_id (SpinToken.TT 1 SpinToken.THolds).
Proof.
  refine (token_exclusive [SpinToken.TT 1 SpinToken.TSawFree; SpinToken.TT 2 SpinToken.TOut] [SpinToken.LTau] 1
    [SpinToken.TT 1 SpinToken.THolds; SpinToken.TT 2 SpinToken.TOut] _ _ _ _ _ 0%nat 0%nat _ _ eq_refl eq_refl eq_refl eq_refl).
  - apply (bool_decide_unpack _). vm_compute. exact I.
  - repeat constructor; simpl; lia.
  - repeat constructor; simpl; discriminate.
  - exact (SpinToken.tok_next _ _ [] SpinToken.FREE
      [SpinToken.TT 1 SpinToken.TSawFree; SpinToken.TT 2 SpinToken.TOut] 0%nat _ _ _ (SpinToken.TT 1 SpinToken.THolds)
      (SpinToken.tok_refl _ _) eq_refl (SpinToken.tok_acquire SpinToken.FREE 1 1 eq_refl)).
  - reflexivity.
Defined.

(** "at most one thread holds the token at any time" fails.  With three threads, the
    first acquires the token, the second commits without ever having asked for it, and
    the release of that commit frees the token for the third: two holders. *)
Theorem token_commit_breaks_exclusion :
  ∃ tr tok, SpinToken.tok_steps SpinToken.FREE
    [SpinToken.TT 1 SpinToken.TOut; SpinToken.TT 2 SpinToken.TOut; SpinToken.TT 3 SpinToken.TOut] tr tok
    [SpinToken.TT 1 SpinToken.THolds; SpinToken.TT 2 SpinToken.TOut; SpinToken.TT 3 SpinToken.THolds].
Proof.
  eexists _, 3.
  refine (SpinToken.tok_next _ _ _ SpinToken.FREE
    [SpinToken.TT 1 SpinToken.THolds; SpinToken.TT 2 SpinToken.TOut; SpinToken.TT 3 SpinToken.TSawFree]
    2%nat _ _ _ (SpinToken.TT 3 SpinToken.THolds) _ eq_refl (SpinToken.tok_acquire SpinToken.FREE 3 3 eq_refl)).
  refine (SpinToken.tok_next _ _ _ SpinToken.FREE
    [SpinToken.TT 1 SpinToken.THolds; SpinToken.TT 2 SpinToken.TOut; SpinToken.TT 3 SpinToken.TOut]
    2%nat _ _ _ (SpinToken.TT 3 SpinToken.TSawFree) _ eq_refl (SpinToken.tok_check SpinToken.FREE 3 eq_refl)).
  refine (SpinToken.tok_next _ _ _ 1
    [SpinToken.TT 1 SpinToken.THolds; SpinToken.TT 2 SpinToken.TOut; SpinToken.TT 3 SpinToken.TOut]
    1%nat _ _ _ (SpinToken.TT 2 SpinToken.TOut) _ eq_refl (SpinToken.tok_commit 1 2 SpinToken.TOut)).
  refine (SpinToken.tok_next _ _ _ SpinToken.FREE
    [SpinToken.TT 1 SpinToken.TSawFree; SpinToken.TT 2 SpinToken.TOut; SpinToken.TT 3 SpinToken.TOut]
    0%nat _ _ _ (SpinToken.TT 1 SpinToken.THolds) _ eq_refl (SpinToken.tok_acquire SpinToken.FREE 1 1 eq_refl)).
  exact (SpinToken.tok_next _ _ [] SpinToken.FREE
    [SpinToken.TT 1 SpinToken.TOut; SpinToken.TT 2 SpinToken.TOut; SpinToken.TT 3 SpinToken.TOut]
    0%nat _ _ _ (SpinToken.TT 1 SpinToken.TSawFree) (SpinToken.tok_refl _ _) eq_refl (SpinToken.tok_check SpinToken.FREE 1 eq_refl)).
Qed.

(** Relative pointers round-trip and survive remapping.  For a non-null 64-bit
    pointer other than the base, the stored offset converts back to the pointer; read under
    another base it denotes the address at the same displacement; null stays null. *)
Theorem relptr_roundtrip base base' ptr :
  is_w 64 ptr → is_w 64 base → base ≠ 0 → base' ≠ 0 → ptr ≠ 0 → ptr ≠ base →
  ∃ off, Rel.rel_of_ptr base ptr = Some off ∧ Rel.rel_bool off = true ∧ Rel.rel_get base off = Some ptr ∧
         Rel.rel_get base' off = Some (wrap64 (base' + (ptr - base))) ∧ Rel.rel_of_ptr base 0 = Some 0.
Proof.
  intros Hp Hb Hb0 Hb0' Hp0 Hne. unfold Rel.rel_of_ptr, Rel.rel_bool, Rel.rel_get.
  rewrite (proj2 (Z.eqb_neq ptr 0)), (proj2 (Z.eqb_neq base 0)) by done.
  assert (Rel.to_signed (ptr - base) ≠ 0) as Hoff.
  { rewrite Rel.to_signed_zero. unfold wrap. intros Hz. apply Hne. unfold is_w in *.
    destruct (Z.lt_ge_cases (ptr - base) 0).
    - replace (ptr - base) with (ptr - base + 2 ^ 64 + (-1) * 2 ^ 64) in Hz by lia.
      rewrite Z.mod_add, Z.mod_small in Hz by lia. lia.
    - rewrite Z.mod_small in Hz by lia. lia. }
  eexists. split; [done|]. rewrite (proj2 (Z.eqb_neq _ 0) Hoff), (proj2 (Z.eqb_neq base' 0)) by done.
  rewrite !Rel.wrap_to_signed. split_and!; [done| |done|done].
  f_equal. replace (base + (ptr - base)) with ptr by lia. by apply Z.mod_small.
Qed.

Lemma relptr_roundtrip_witness :
  ∃ off, Rel.rel_of_ptr 0x7f0000000000 0x7f0000000040 = Some off ∧ Rel.rel_bool off = true ∧
    Rel.rel_get 0x7f0000000000 off = Some 0x7f0000000040 ∧
    Rel.rel_get 0x600000000000 off = Some (wrap64 (0x600000000000 + (0x7f0000000040 - 0x7f0000000000))) ∧
    Rel.rel_of_ptr 0x7f0000000000 0 = Some 0.
Proof. apply relptr_roundtrip; try split; done. Defined.

(** A pointer to the start of the region is stored as null: its offset is 0, which
    the type reserves for the null pointer. *)
Theorem relptr_base_is_null base :
  base ≠ 0 → Rel.rel_of_ptr base base = Some 0 ∧ Rel.rel_bool 0 = false ∧ Rel.rel_get base 0 = Some 0.
Proof.
  intros Hb. unfold Rel.rel_of_ptr. rewrite (proj2 (Z.eqb_neq base 0)) by done. by rewrite Z.sub_diag.
Qed.

Lemma relptr_base_is_null_witness : Rel.rel_of_ptr 0x7f0000000000 0x7f0000000000 = Some 0.
Proof. exact (proj1 (relptr_base_is_null 0x7f0000000000 ltac:(done))). Defined.
