(* ===== verification/RBTree.v ===== *)
(** * Red-black trees: the pointer program (common/tm_rbtree.hpp)

    [TMRBTreeMap] and [TMRBTreeMultiMap] are red-black trees with parent pointers.  The
    heap of nodes is a finite map from locations to node records, a pointer is an optional
    location ([None] is [nullptr]), and every operation is written as the code writes it: a
    sequence of field loads and stores that fails ([None]) on a null or dangling access.
    The mirrored branches of the code (left/right) are one definition with a direction:
    [rotate Lft] is [rotate_left], [rotate Rgt] is [rotate_right].  Loops carry fuel;
    the correctness theorems show that the fuel given is enough. *)

From S2P Require Import Prelude.

Inductive color := RED | BLACK.
#[export] Instance color_eq_dec : EqDecision color.
Proof. solve_decision. Defined.

Inductive dir := Lft | Rgt.
#[export] Instance dir_eq_dec : EqDecision dir.
Proof. solve_decision. Defined.
Definition opp (d : dir) : dir := match d with Lft => Rgt | Rgt => Lft end.

Abbreviation loc := positive.
Abbreviation ptr := (option positive).

Record node (K V : Type) := Node {
  n_key : K; n_val : V; n_color : color; n_left : ptr; n_right : ptr; n_parent : ptr;
}.
Arguments Node {K V}.
Arguments n_key {K V}.
Arguments n_val {K V}.
Arguments n_color {K V}.
Arguments n_left {K V}.
Arguments n_right {K V}.
Arguments n_parent {K V}.

Record rbt (K V : Type) := RBT { heap : gmap loc (node K V); m_root : ptr; m_size : nat }.
Arguments RBT {K V}.
Arguments heap {K V}.
Arguments m_root {K V}.
Arguments m_size {K V}.

Section Access.
Context {K V : Type}.
Implicit Types (n : node K V) (s : rbt K V) (p : ptr).

Definition child (d : dir) n : ptr := match d with Lft => n_left n | Rgt => n_right n end.

Definition set_child (d : dir) p n : node K V :=
  match d with
  | Lft => Node (n_key n) (n_val n) (n_color n) p (n_right n) (n_parent n)
  | Rgt => Node (n_key n) (n_val n) (n_color n) (n_left n) p (n_parent n)
  end.
Definition set_parent p n : node K V :=
  Node (n_key n) (n_val n) (n_color n) (n_left n) (n_right n) p.
Definition set_color (c : color) n : node K V :=
  Node (n_key n) (n_val n) c (n_left n) (n_right n) (n_parent n).
Definition set_val (v : V) n : node K V :=
  Node (n_key n) v (n_color n) (n_left n) (n_right n) (n_parent n).

Definition with_heap s (h : gmap loc (node K V)) : rbt K V := RBT h (m_root s) (m_size s).
Definition with_root s p : rbt K V := RBT (heap s) p (m_size s).
Definition with_size s (n : nat) : rbt K V := RBT (heap s) (m_root s) n.

(** Load of the node a pointer points to, store to one of its fields. *)
Definition ld s p : option (node K V) := l ← p; heap s !! l.
Definition st s p (f : node K V → node K V) : option (rbt K V) :=
  l ← p; n ← heap s !! l; Some (with_heap s (<[l := f n]> (heap s))).
(** [if (p) p->field = ...] *)
Definition st_opt s p (f : node K V → node K V) : option (rbt K V) :=
  match p with None => Some s | Some _ => st s p f end.

Definition par s p : option ptr := n ← ld s p; Some (n_parent n).
(** [p && p->color == RED] and [!p || p->color == BLACK]. *)
Definition is_red s p : option bool :=
  match p with None => Some false | Some _ => n ← ld s p; Some (bool_decide (n_color n = RED)) end.
Definition is_black s p : option bool :=
  match p with None => Some true | Some _ => n ← ld s p; Some (bool_decide (n_color n = BLACK)) end.
End Access.

Section Balance.
Context {K V : Type}.
Implicit Types (n : node K V) (s : rbt K V) (p x y z w : ptr).

(** The statement sequence of the rotations; [fst] is the side of the parent's child
    pointer that the code compares first. *)
Definition rotate_gen (fst d : dir) x s : option (rbt K V) :=
  nx ← ld s x;
  let y := child (opp d) nx in
  ny ← ld s y;
  s ← st s x (set_child (opp d) (child d ny));
  s ← st_opt s (child d ny) (set_parent x);
  px ← par s x;
  s ← st s y (set_parent px);
  s ← (match px with
       | None => Some (with_root s y)
       | Some _ =>
           np ← ld s px;
           if decide (x = child fst np) then st s px (set_child fst y) else st s px (set_child (opp fst) y)
       end);
  s ← st s y (set_child d x);
  st s x (set_parent y).

(** [rotate_left] (d = Lft) and [rotate_right] (d = Rgt). *)
Definition rotate (d : dir) x s : option (rbt K V) := rotate_gen d d x s.

(** One iteration of [insert_fixup]; [z->parent] is the [d] child of [z->parent->parent]. *)
Definition insert_case (d : dir) z s : option (ptr * rbt K V) :=
  p ← par s z; g ← par s p; ng ← ld s g;
  let y := child (opp d) ng in
  yr ← is_red s y;
  if (yr : bool) then
    s ← st s p (set_color BLACK);
    s ← st s y (set_color BLACK);
    s ← st s g (set_color RED);
    Some (g, s)
  else
    np ← ld s p;
    zs ← (if decide (z = child (opp d) np) then s ← rotate d p s; Some (p, s) else Some (z, s));
    let '(z, s) := zs in
    p ← par s z;
    s ← st s p (set_color BLACK);
    g ← par s p;
    s ← st s g (set_color RED);
    s ← rotate (opp d) g s;
    Some (z, s).

Fixpoint insert_loop (fuel : nat) z s : option (rbt K V) :=
  match fuel with
  | O => None
  | S fuel =>
      p ← par s z;
      pr ← is_red s p;
      if (pr : bool) then
        g ← par s p; ng ← ld s g;
        zs ← insert_case (if decide (p = n_left ng) then Lft else Rgt) z s;
        insert_loop fuel zs.1 zs.2
      else Some s
  end.

Definition insert_fixup z s : option (rbt K V) :=
  s ← insert_loop (S (size (heap s))) z s; st s (m_root s) (set_color BLACK).

Definition transplant (u v : ptr) s : option (rbt K V) :=
  pu ← par s u;
  s ← (match pu with
       | None => Some (with_root s v)
       | Some _ =>
           np ← ld s pu;
           if decide (u = n_left np) then st s pu (set_child Lft v) else st s pu (set_child Rgt v)
       end);
  pu ← par s u;
  st_opt s v (set_parent pu).

(** The first part of an iteration of [erase_fixup]: a red sibling is rotated away. *)
Definition erase_red_sibling (d : dir) xp s : option (ptr * rbt K V) :=
  nxp ← ld s xp;
  let w := child (opp d) nxp in
  wr ← is_red s w;
  if (wr : bool) then
    s ← st s w (set_color BLACK);
    s ← st s xp (set_color RED);
    s ← rotate d xp s;
    nxp ← ld s xp; Some (child (opp d) nxp, s)
  else Some (w, s).

(** The end of an iteration whose sibling [w] has a red far child. *)
Definition erase_finish (d : dir) xp w s : option (ptr * ptr * rbt K V) :=
  nxp ← ld s xp;
  s ← st_opt s w (set_color (n_color nxp));
  s ← st s xp (set_color BLACK);
  wc ← (match w with None => Some None | Some _ => nw ← ld s w; Some (child (opp d) nw) end);
  s ← st_opt s wc (set_color BLACK);
  s ← rotate d xp s;
  Some (m_root s, None, s).

(** The rest of the iteration, with the sibling [w]: the next [x], [x_parent]. *)
Definition erase_black_sibling (d : dir) xp w s : option (ptr * ptr * rbt K V) :=
  nw ← ld s w;
  b1 ← is_black s (child d nw);
  b2 ← is_black s (child (opp d) nw);
  if (b1 && b2 : bool) then
    s ← st_opt s w (set_color RED);
    p ← par s xp;
    Some (xp, p, s)
  else
    ws ← (if (b2 : bool) then
            s ← st_opt s (child d nw) (set_color BLACK);
            s ← st_opt s w (set_color RED);
            s ← rotate (opp d) w s;
            nxp ← ld s xp; Some (child (opp d) nxp, s)
          else Some (w, s));
    erase_finish d xp ws.1 ws.2.

(** One iteration of [erase_fixup]; [x] is the [d] child of [xp]. *)
Definition erase_case (d : dir) xp s : option (ptr * ptr * rbt K V) :=
  ws ← erase_red_sibling d xp s; erase_black_sibling d xp ws.1 ws.2.

Fixpoint erase_loop (fuel : nat) x xp s : option (ptr * rbt K V) :=
  match fuel with
  | O => None
  | S fuel =>
      if decide (x = m_root s) then Some (x, s)
      else
        b ← is_black s x;
        if (b : bool) then
          nxp ← ld s xp;
          r ← erase_case (if decide (x = n_left nxp) then Lft else Rgt) xp s;
          erase_loop fuel r.1.1 r.1.2 r.2
        else Some (x, s)
  end.

Definition erase_fixup x xp s : option (rbt K V) :=
  xs ← erase_loop (S (S (size (heap s)))) x xp s;
  st_opt xs.2 xs.1 (set_color BLACK).

(** [while (x && x->left) x = x->left]. *)
Fixpoint minimum_loop (fuel : nat) s x : option ptr :=
  match fuel with
  | O => None
  | S fuel =>
      match x with
      | None => Some None
      | Some _ => n ← ld s x; match n_left n with None => Some x | Some _ => minimum_loop fuel s (n_left n) end
      end
  end.
Definition minimum s x : option ptr := minimum_loop (S (size (heap s))) s x.

Fixpoint clear_subtree (fuel : nat) x s : option (rbt K V) :=
  match fuel with
  | O => None
  | S fuel =>
      match x with
      | None => Some s
      | Some l =>
          n ← ld s x;
          s ← clear_subtree fuel (n_left n) s;
          n ← ld s x;
          s ← clear_subtree fuel (n_right n) s;
          _ ← ld s x;
          Some (with_heap s (delete l (heap s)))
      end
  end.

Definition rb_clear s : option (rbt K V) :=
  s ← clear_subtree (S (size (heap s))) (m_root s) s; Some (RBT (heap s) None 0).

(** [Iterator::operator++]. *)
Fixpoint up_loop (fuel : nat) s (m p : ptr) : option ptr :=
  match fuel with
  | O => None
  | S fuel =>
      match p with
      | None => Some None
      | Some _ => np ← ld s p; if decide (m = n_right np) then up_loop fuel s p (n_parent np) else Some p
      end
  end.

Definition rb_next s (m : ptr) : option ptr :=
  nm ← ld s m;
  match n_right nm with
  | Some _ => minimum s (n_right nm)
  | None => up_loop (S (size (heap s))) s m (n_parent nm)
  end.

Definition rb_begin s : option ptr :=
  match m_root s with None => Some None | Some _ => minimum s (m_root s) end.
End Balance.

Section Maps.
Context {K V : Type} (ltb : K → K → bool).
Implicit Types (s : rbt K V) (p x y z : ptr) (k : K).

(** The search loop of [find] and [erase]. *)
Fixpoint find_loop (fuel : nat) s k x : option ptr :=
  match fuel with
  | O => None
  | S fuel =>
      match x with
      | None => Some None
      | Some _ =>
          n ← ld s x;
          if ltb k (n_key n) then find_loop fuel s k (n_left n)
          else if ltb (n_key n) k then find_loop fuel s k (n_right n)
          else Some x
      end
  end.

Definition rb_find s k : option ptr := find_loop (S (size (heap s))) s k (m_root s).

(** The search loop of [operator[]]: the node found, or the last node visited. *)
Fixpoint index_loop (fuel : nat) s k x p : option (ptr * ptr) :=
  match fuel with
  | O => None
  | S fuel =>
      match x with
      | None => Some (None, p)
      | Some _ =>
          n ← ld s x;
          if ltb k (n_key n) then index_loop fuel s k (n_left n) x
          else if ltb (n_key n) k then index_loop fuel s k (n_right n) x
          else Some (x, x)
      end
  end.

(** [new Node(k, v)] at the address [l] given by the allocator. *)
Definition new_node (l : loc) k (v : V) s : rbt K V :=
  with_heap s (<[l := Node k v RED None None None]> (heap s)).

(** Linking the new node [z] below [p], on the side given by the comparison of the keys. *)
Definition link_node z p (left_of : K → K → bool) s : option (rbt K V) :=
  s ← st s z (set_parent p);
  match p with
  | None => Some (with_root s z)
  | Some _ =>
      nz ← ld s z; np ← ld s p;
      if left_of (n_key nz) (n_key np) then st s p (set_child Lft z) else st s p (set_child Rgt z)
  end.

Definition rb_index (dflt : V) (l : loc) s k : option (loc * rbt K V) :=
  xp ← index_loop (S (size (heap s))) s k (m_root s) None;
  match xp with
  | (Some x, _) => Some (x, s)
  | (None, p) =>
      s ← link_node (Some l) p ltb (new_node l k dflt s);
      s ← insert_fixup (Some l) s;
      Some (l, with_size s (S (m_size s)))
  end.

(** Assignment through the reference returned by [operator[]]. *)
Definition rb_set (dflt : V) (l : loc) s k (v : V) : option (rbt K V) :=
  r ← rb_index dflt l s k; st r.2 (Some r.1) (set_val v).

(** [y] takes the right subtree of [z]. *)
Definition take_right z y s : option (rbt K V) :=
  nz ← ld s z;
  s ← st s y (set_child Rgt (n_right nz));
  ny ← ld s y;
  st_opt s (n_right ny) (set_parent y).

(** [y] takes the place, the left subtree and the colour of [z]. *)
Definition replace_node z y s : option (rbt K V) :=
  s ← transplant z y s;
  nz ← ld s z;
  s ← st s y (set_child Lft (n_left nz));
  ny ← ld s y;
  s ← st_opt s (n_left ny) (set_parent y);
  nz ← ld s z;
  st s y (set_color (n_color nz)).

(** The part of [erase] that unlinks [z]: the removed colour, [x], [x_parent]. *)
Definition unlink z s : option (color * ptr * ptr * rbt K V) :=
  nz ← ld s z;
  match n_left nz, n_right nz with
  | None, _ => s ← transplant z (n_right nz) s; Some (n_color nz, n_right nz, n_parent nz, s)
  | _, None => s ← transplant z (n_left nz) s; Some (n_color nz, n_left nz, n_parent nz, s)
  | _, _ =>
      y ← minimum s (n_right nz);
      ny ← ld s y;
      let x := n_right ny in
      ps ← (if decide (n_parent ny = z) then s ← st_opt s x (set_parent y); Some (y, s)
            else
              let xp := n_parent ny in
              s ← transplant y x s;
              s ← take_right z y s;
              Some (xp, s));
      s ← replace_node z y ps.2;
      Some (n_color ny, x, ps.1, s)
  end.

Definition rb_erase s k : option (nat * rbt K V) :=
  z ← find_loop (S (size (heap s))) s k (m_root s);
  match z with
  | None => Some (0, s)
  | Some l =>
      r ← unlink z s;
      let '(yo, x, xp, s) := r in
      s ← (if decide (yo = BLACK) then erase_fixup x xp s else Some s);
      Some (1, RBT (delete l (heap s)) (m_root s) (m_size s - 1))
  end.

(** ** [TMRBTreeMultiMap]

    The class repeats the map's [minimum], rotations, [insert_fixup], [clear_subtree],
    [begin] and iterator line by line, with a flag [is_red] for the color; duplicates go to
    the left. *)
Definition rbm_insert_fixup z s : option (rbt K V) := insert_fixup z s.
Definition rbm_begin s : option ptr := rb_begin s.
Definition rbm_next s (m : ptr) : option ptr := rb_next s m.
Definition rbm_clear s : option (rbt K V) := rb_clear s.

Fixpoint descend (fuel : nat) s k x p : option ptr :=
  match fuel with
  | O => None
  | S fuel =>
      match x with
      | None => Some p
      | Some _ =>
          n ← ld s x;
          if negb (ltb (n_key n) k) then descend fuel s k (n_left n) x else descend fuel s k (n_right n) x
      end
  end.

Definition rbm_insert (l : loc) s k (v : V) : option (rbt K V) :=
  p ← descend (S (size (heap s))) s k (m_root s) None;
  s ← link_node (Some l) p (λ kz kp, negb (ltb kp kz)) (new_node l k v s);
  s ← rbm_insert_fixup (Some l) s;
  Some (with_size s (S (m_size s))).

Fixpoint lower_loop (fuel : nat) s k x (ans : ptr) : option ptr :=
  match fuel with
  | O => None
  | S fuel =>
      match x with
      | None => Some ans
      | Some _ =>
          n ← ld s x;
          if negb (ltb (n_key n) k) then lower_loop fuel s k (n_left n) x
          else lower_loop fuel s k (n_right n) ans
      end
  end.
Definition rbm_lower_bound s k : option ptr := lower_loop (S (size (heap s))) s k (m_root s) None.
End Maps.

Definition new_rbt {K V} : rbt K V := RBT ∅ None 0.

(** A client loop [for (it = begin(); it != end(); ++it)], collecting the nodes visited. *)
Fixpoint rb_walk {K V} (fuel : nat) (s : rbt K V) (p : ptr) : option (list loc) :=
  match fuel with
  | O => None
  | S fuel => match p with None => Some [] | Some x => q ← rb_next s p; r ← rb_walk fuel s q; Some (x :: r) end
  end.

Fixpoint rbm_walk {K V} (fuel : nat) (s : rbt K V) (p : ptr) : option (list loc) :=
  match fuel with
  | O => None
  | S fuel => match p with None => Some [] | Some x => q ← rbm_next s p; r ← rbm_walk fuel s q; Some (x :: r) end
  end.
