(* ===== verification/RBTreeRep.v ===== *)
(** * Red-black trees: what a heap represents

    Trees whose nodes carry their heap location, the predicate that a heap holds such a
    tree with consistent child and parent pointers, zippers to focus on a subtree, the
    red-black invariant, and the effect of [rotate] and of single field stores on the
    represented tree. *)

From S2P Require Import Prelude RBTree.

Inductive tree (K V : Type) := Leaf | Bin (l : loc) (c : color) (kv : K * V) (a b : tree K V).
Arguments Leaf {K V}.
Arguments Bin {K V}.

(** A node with [x] on side [d] and [y] on the other side. *)
Definition bin {K V} (d : dir) (l : loc) (c : color) (kv : K * V) (x y : tree K V) : tree K V :=
  match d with Lft => Bin l c kv x y | Rgt => Bin l c kv y x end.

Definition mknode {K V} (d : dir) (kv : K * V) (c : color) (x y p : ptr) : node K V :=
  match d with Lft => Node kv.1 kv.2 c x y p | Rgt => Node kv.1 kv.2 c y x p end.

(** One step of the path from a subtree to the root: the subtree is the [f_dir] child. *)
Record frame (K V : Type) := Frm { f_dir : dir; f_loc : loc; f_col : color; f_kv : K * V; f_sib : tree K V }.
Arguments Frm {K V}.
Arguments f_dir {K V}.
Arguments f_loc {K V}.
Arguments f_col {K V}.
Arguments f_kv {K V}.
Arguments f_sib {K V}.

Section Rep.
Context {K V : Type}.
Implicit Types (t a b e : tree K V) (f : frame K V) (c : list (frame K V)) (s : rbt K V) (h : gmap loc (node K V)).

Definition rt t : ptr := match t with Leaf => None | Bin l _ _ _ _ => Some l end.

Fixpoint locs t : list loc := match t with Leaf => [] | Bin l _ _ a b => l :: locs a ++ locs b end.

(** The in-order sequence of nodes with their locations. *)
Fixpoint elements t : list (loc * (K * V)) :=
  match t with Leaf => [] | Bin l _ kv a b => elements a ++ (l, kv) :: elements b end.

Fixpoint tree_at h (p : ptr) t : Prop :=
  match t with
  | Leaf => True
  | Bin l c kv a b =>
      h !! l = Some (Node kv.1 kv.2 c (rt a) (rt b) p) ∧ tree_at h (Some l) a ∧ tree_at h (Some l) b
  end.

Definition plug1 t f : tree K V := bin (f_dir f) (f_loc f) (f_col f) (f_kv f) t (f_sib f).
Fixpoint plug t c : tree K V := match c with [] => t | f :: c => plug (plug1 t f) c end.

Definition cpar c : ptr := match c with [] => None | f :: _ => Some (f_loc f) end.

(** The heap holds the path [c], whose hole is filled by a tree rooted at [p]. *)
Fixpoint ctx_at h (p : ptr) c : Prop :=
  match c with
  | [] => True
  | f :: c =>
      h !! f_loc f = Some (mknode (f_dir f) (f_kv f) (f_col f) p (rt (f_sib f)) (cpar c)) ∧
      tree_at h (Some (f_loc f)) (f_sib f) ∧ ctx_at h (Some (f_loc f)) c
  end.

Fixpoint clocs c : list loc := match c with [] => [] | f :: c => f_loc f :: locs (f_sib f) ++ clocs c end.

Fixpoint croot (p : ptr) c : ptr := match c with [] => p | f :: c => croot (Some (f_loc f)) c end.

(** The elements to the left and to the right of the hole. *)
Fixpoint lefts c : list (loc * (K * V)) :=
  match c with
  | [] => []
  | f :: c => match f_dir f with Lft => lefts c | Rgt => lefts c ++ elements (f_sib f) ++ [(f_loc f, f_kv f)] end
  end.
Fixpoint rights c : list (loc * (K * V)) :=
  match c with
  | [] => []
  | f :: c => match f_dir f with Lft => (f_loc f, f_kv f) :: elements (f_sib f) ++ rights c | Rgt => rights c end
  end.

Definition rep s t : Prop := NoDup (locs t) ∧ tree_at (heap s) None t ∧ m_root s = rt t.

(** ** Zippers *)

Lemma rt_bin d l (col : color) kv a b : rt (bin d l col kv a b) = Some l.
Proof. by destruct d. Qed.

Lemma tree_at_bin h p d l (col : color) kv a b :
  tree_at h p (bin d l col kv a b) ↔
  h !! l = Some (mknode d kv col (rt a) (rt b) p) ∧ tree_at h (Some l) a ∧ tree_at h (Some l) b.
Proof. destruct d; simpl; naive_solver. Qed.

Lemma tree_at_plug h t c : tree_at h None (plug t c) ↔ tree_at h (cpar c) t ∧ ctx_at h (rt t) c.
Proof.
  revert t. induction c as [|f c IH]; intros t; simpl; [tauto|].
  rewrite IH. unfold plug1. rewrite tree_at_bin, rt_bin. tauto.
Qed.

Lemma rt_plug t c : rt (plug t c) = croot (rt t) c.
Proof. revert t. induction c as [|f c IH]; intros t; simpl; [done|]. by rewrite IH; unfold plug1; rewrite rt_bin. Qed.

Lemma locs_bin d l (col : color) kv a b : locs (bin d l col kv a b) ≡ₚ l :: locs a ++ locs b.
Proof. destruct d; simpl; [done|]. by rewrite (comm (++)). Qed.

Lemma locs_plug t c : locs (plug t c) ≡ₚ locs t ++ clocs c.
Proof.
  revert t. induction c as [|f c IH]; intros t; simpl; [by rewrite app_nil_r|].
  rewrite IH. unfold plug1. rewrite locs_bin. simpl. rewrite <- app_assoc. apply Permutation_middle.
Qed.

Lemma elements_plug t c : elements (plug t c) = lefts c ++ elements t ++ rights c.
Proof.
  revert t. induction c as [|f c IH]; intros t; simpl; [by rewrite app_nil_r|].
  rewrite IH. unfold plug1. destruct (f_dir f); simpl; by rewrite <- ?app_assoc.
Qed.

Lemma rep_plug s t c :
  rep s (plug t c) ↔
  NoDup (locs t ++ clocs c) ∧ tree_at (heap s) (cpar c) t ∧ ctx_at (heap s) (rt t) c ∧ m_root s = croot (rt t) c.
Proof. unfold rep. rewrite locs_plug, tree_at_plug, rt_plug. tauto. Qed.

(** ** Framing *)

Lemma tree_at_insert h p t l n : l ∉ locs t → tree_at h p t → tree_at (<[l := n]> h) p t.
Proof.
  revert p. induction t as [|l' c kv a IHa b IHb]; intros p Hl; simpl in *; [done|].
  rewrite not_elem_of_cons, not_elem_of_app in Hl. destruct Hl as (? & ? & ?).
  intros (? & ? & ?). rewrite lookup_insert_ne by done. auto.
Qed.

Lemma ctx_at_insert h p c l n : l ∉ clocs c → ctx_at h p c → ctx_at (<[l := n]> h) p c.
Proof.
  revert p. induction c as [|f c IH]; intros p Hl; simpl in *; [done|].
  rewrite not_elem_of_cons, not_elem_of_app in Hl. destruct Hl as (? & ? & ?).
  intros (? & ? & ?). rewrite lookup_insert_ne by done. auto using tree_at_insert.
Qed.

Lemma tree_at_delete h p t l : l ∉ locs t → tree_at h p t → tree_at (delete l h) p t.
Proof.
  revert p. induction t as [|l' c kv a IHa b IHb]; intros p Hl; simpl in *; [done|].
  rewrite not_elem_of_cons, not_elem_of_app in Hl. destruct Hl as (? & ? & ?).
  intros (? & ? & ?). rewrite lookup_delete_ne by done. auto.
Qed.

Lemma tree_at_locs h p t l : tree_at h p t → l ∈ locs t → is_Some (h !! l).
Proof.
  revert p. induction t as [|l' c kv a IHa b IHb]; intros p; simpl; [by intros _ ?%elem_of_nil|].
  intros (Hl & Ha & Hb) [->|[Hi|Hi]%elem_of_app]%elem_of_cons; [by rewrite Hl|eauto..].
Qed.

Lemma rt_notin t l : l ∉ locs t → Some l ≠ rt t.
Proof. destruct t; simpl; [done|]. rewrite not_elem_of_cons. intros [? _]. congruence. Qed.

(** ** Distinctness facts, normalised to atoms *)

Definition disj (A B : list loc) : Prop := ∀ z, z ∈ A → z ∉ B.

Lemma disj_sym A B : disj A B → disj B A.
Proof. unfold disj. naive_solver. Qed.
Lemma disj_nil_l B : disj [] B ↔ True.
Proof. unfold disj. split; [done|]. by intros _ z ?%elem_of_nil. Qed.
Lemma disj_nil_r A : disj A [] ↔ True.
Proof. unfold disj. split; [done|]. by intros _ z _ ?%elem_of_nil. Qed.
Lemma disj_cons_l x A B : disj (x :: A) B ↔ (x ∉ B) ∧ disj A B.
Proof. unfold disj. setoid_rewrite elem_of_cons. naive_solver. Qed.
Lemma disj_cons_r x A B : disj A (x :: B) ↔ (x ∉ A) ∧ disj A B.
Proof.
  unfold disj. setoid_rewrite not_elem_of_cons. split; [|naive_solver].
  intros H. split; [intros Hx; by destruct (H x Hx)|naive_solver].
Qed.
Lemma disj_app_l A A' B : disj (A ++ A') B ↔ disj A B ∧ disj A' B.
Proof. unfold disj. setoid_rewrite elem_of_app. naive_solver. Qed.
Lemma disj_app_r A B B' : disj A (B ++ B') ↔ disj A B ∧ disj A B'.
Proof.
  unfold disj. setoid_rewrite not_elem_of_app. split; [|naive_solver].
  intros H. split; intros z Hz; by destruct (H z Hz).
Qed.
Lemma NoDup_app_disj (A B : list loc) : NoDup (A ++ B) ↔ NoDup A ∧ disj A B ∧ NoDup B.
Proof. apply NoDup_app. Qed.
Lemma NoDup_nil_True : NoDup (A := loc) [] ↔ True.
Proof. split; [done|]. intros _. constructor. Qed.
Lemma not_elem_of_nil_True (x : loc) : x ∉ [] ↔ True.
Proof. split; [done|]. intros _. apply not_elem_of_nil. Qed.
End Rep.

Ltac nd_rewrite :=
  rewrite ?NoDup_nil_True, ?NoDup_cons, ?NoDup_app_disj, ?disj_nil_l, ?disj_nil_r, ?disj_cons_l, ?disj_cons_r,
    ?disj_app_l, ?disj_app_r, ?not_elem_of_nil_True, ?not_elem_of_cons, ?not_elem_of_app.

(** Split a distinctness hypothesis into atoms. *)
Ltac nd_in H :=
  cbn [locs clocs bin f_loc f_sib f_dir] in H;
  repeat (progress (
    rewrite ?NoDup_nil_True, ?NoDup_cons, ?NoDup_app_disj, ?disj_nil_l, ?disj_nil_r, ?disj_cons_l, ?disj_cons_r,
      ?disj_app_l, ?disj_app_r, ?not_elem_of_nil_True, ?not_elem_of_cons, ?not_elem_of_app in H));
  destruct_and? H.

(** Prove a distinctness goal from the atoms. *)
Ltac nd_solve :=
  cbn [locs clocs bin f_loc f_sib f_dir];
  repeat (progress nd_rewrite);
  split_and?; try done; try (by apply disj_sym); try congruence.

(** Run loads and stores whose addresses are known. *)
Ltac sym :=
  repeat first
    [ rewrite lookup_insert_eq
    | rewrite lookup_insert_ne by congruence
    | match goal with H : ?h !! ?l = Some _ |- context [?h !! ?l] => rewrite H end
    | rewrite decide_True by congruence
    | rewrite decide_False by first [congruence | by apply rt_notin]
    | progress cbv [mbind option_bind heap m_root m_size with_heap with_root with_size ld st st_opt par child opp
        set_child set_parent set_color set_val n_key n_val n_color n_left n_right n_parent mknode rt fst snd
        is_red is_black f_dir f_loc f_col f_kv f_sib bin] ].

Ltac framed :=
  repeat first [assumption | apply tree_at_insert; [assumption|] | apply ctx_at_insert; [assumption|]].

Section Moves.
Context {K V : Type}.
Implicit Types (t a b e : tree K V) (f : frame K V) (c : list (frame K V)) (s : rbt K V) (h : gmap loc (node K V)).

(** Stores keep the set of nodes and the element count. *)
Definition keeps s s' : Prop := dom (heap s') = dom (heap s) ∧ m_size s' = m_size s.

#[export] Instance keeps_preorder : PreOrder keeps.
Proof. split; unfold keeps; [done|]. intros s1 s2 s3 [??] [??]. split; congruence. Qed.

Lemma keeps_st s p (g : node K V → node K V) s' : st s p g = Some s' → keeps s s'.
Proof.
  unfold st. intros (l & -> & (n & Hn & Hs)%bind_Some)%bind_Some. simplify_eq. split; [|done]. simpl.
  by rewrite dom_insert_lookup_L.
Qed.
Lemma keeps_st_opt s p (g : node K V → node K V) s' : st_opt s p g = Some s' → keeps s s'.
Proof. destruct p; [apply keeps_st|]. by intros [= <-]. Qed.
Lemma keeps_root s p : keeps s (with_root s p).
Proof. done. Qed.
End Moves.

(** Decompose a successful run; chain [keeps] along it. *)
Ltac runs :=
  repeat match goal with
    | H : _ ≫= _ = Some _ |- _ => apply bind_Some in H; destruct H as (? & ? & H)
    | H : Some _ = Some _ |- _ => progress simplify_eq
    | H : None = Some _ |- _ => discriminate
    | H : (if ?b then _ else _) = Some _ |- _ => destruct b
    | H : match ?p with None => _ | Some _ => _ end = Some _ |- _ => destruct p
    | H : (let '(_, _) := ?p in _) = Some _ |- _ => destruct p
    end.
Ltac keeps_chain :=
  repeat match goal with
    | H : st ?s _ _ = Some ?s' |- keeps _ ?s' => etrans; [|exact (keeps_st _ _ _ _ H)]
    | H : st_opt ?s _ _ = Some ?s' |- keeps _ ?s' => etrans; [|exact (keeps_st_opt _ _ _ _ H)]
    | |- keeps _ (with_root _ _) => etrans; [|apply keeps_root]
    | |- keeps ?s ?s => reflexivity
    | H : keeps ?s ?s' |- keeps _ ?s' => etrans; [|exact H]
    end.

Section Rotate.
Context {K V : Type}.
Implicit Types (t a b e : tree K V) (f : frame K V) (c : list (frame K V)) (s : rbt K V) (h : gmap loc (node K V)).

Lemma keeps_rotate_gen d0 d x s s' : rotate_gen d0 d x s = Some s' → keeps s s'.
Proof. unfold rotate_gen. intros H. runs; keeps_chain. Qed.
Lemma keeps_rotate d x s s' : rotate d x s = Some s' → keeps s s'.
Proof. apply keeps_rotate_gen. Qed.

Lemma rotate_locs d x (cx : color) kx y (cy : color) ky a b e :
  locs (bin d x cx kx a (bin d y cy ky b e)) ≡ₚ locs (bin d y cy ky (bin d x cx kx a b) e).
Proof.
  rewrite !locs_bin. simpl. rewrite <- app_assoc, perm_swap. apply perm_skip. symmetry. apply Permutation_middle.
Qed.

(** The rotations on the represented tree. *)
Lemma rotate_gen_rep d0 d s x cx kx y cy ky a b e c :
  rep s (plug (bin d x cx kx a (bin d y cy ky b e)) c) →
  ∃ s', rotate_gen d0 d (Some x) s = Some s' ∧ rep s' (plug (bin d y cy ky (bin d x cx kx a b) e) c).
Proof.
  rewrite rep_plug. setoid_rewrite rep_plug. destruct s as [h r n].
  intros (Hnd & Ht & Hc & Hr). pose proof Hnd as Hnd'. rewrite rotate_locs in Hnd'.
  rewrite !locs_bin in Hnd. unfold rotate_gen.
  destruct b as [|lb cb kb b1 b2], c as [|[fd fl fc fk fs] c]; nd_in Hnd.
  all: destruct d; try (destruct fd, d0); cbn in Ht, Hc, Hr; destruct_and? Ht; destruct_and? Hc; subst r.
  all: eexists; split; [sym; reflexivity|].
  all: split; [exact Hnd'|].
  all: cbn [heap m_root m_size bin tree_at ctx_at cpar croot f_dir f_loc f_col f_kv f_sib rt].
  all: split_and?; try done; framed; by sym.
Qed.

Lemma rotate_rep d s x cx kx y cy ky a b e c :
  rep s (plug (bin d x cx kx a (bin d y cy ky b e)) c) →
  ∃ s', rotate d (Some x) s = Some s' ∧ rep s' (plug (bin d y cy ky (bin d x cx kx a b) e) c).
Proof. apply rotate_gen_rep. Qed.
End Rotate.
