(* ===== verification/RBTreeInsert.v ===== *)
(** * Red-black trees: rebalancing after insertion

    The red-black invariant on trees and on paths, and the proof that [insert_fixup]
    turns a tree with a single red node under a red parent into a red-black tree with the
    same in-order elements, never following a null pointer. *)

From S2P Require Import Prelude RBTree RBTreeRep.

(** ** The red-black invariant *)

Inductive is_rb {K V} : tree K V → color → nat → Prop :=
  | rb_leaf : is_rb Leaf BLACK 0
  | rb_red l kv a b n : is_rb a BLACK n → is_rb b BLACK n → is_rb (Bin l RED kv a b) RED n
  | rb_black l kv a b ca cb n : is_rb a ca n → is_rb b cb n → is_rb (Bin l BLACK kv a b) BLACK (S n).

(** Paths that complete a tree of black height [n]; the flag tells whether a red tree is
    acceptable at the hole. *)
Inductive ctx_rb {K V} : list (frame K V) → bool → nat → Prop :=
  | cr_nil n : ctx_rb [] false n
  | cr_red d l kv sib c n : is_rb sib BLACK n → ctx_rb c true n → ctx_rb (Frm d l RED kv sib :: c) false n
  | cr_black d l kv sib c n col ok :
      is_rb sib col n → ctx_rb c ok (S n) → ctx_rb (Frm d l BLACK kv sib :: c) true n.

Section Invariant.
Context {K V : Type}.
Implicit Types (t a b e u : tree K V) (f : frame K V) (c : list (frame K V)) (s : rbt K V).

Lemma rb_bin_red d l kv a b n : is_rb a BLACK n → is_rb b BLACK n → is_rb (bin d l RED kv a b) RED n.
Proof. destruct d; by constructor. Qed.
Lemma rb_bin_black d l kv a b ca cb n : is_rb a ca n → is_rb b cb n → is_rb (bin d l BLACK kv a b) BLACK (S n).
Proof. destruct d; econstructor; eauto. Qed.

Lemma rb_red_inv t n d : is_rb t RED n →
  ∃ l kv a b, t = bin d l RED kv a b ∧ is_rb a BLACK n ∧ is_rb b BLACK n.
Proof. inversion 1; subst. destruct d; [exists l, kv, a, b|exists l, kv, b, a]; eauto. Qed.

Lemma rb_paint_black t col n : is_rb t col n → t = Leaf ∨
  ∃ l col' kv a b n', t = Bin l col' kv a b ∧ is_rb (Bin l BLACK kv a b) BLACK n'.
Proof. destruct 1; [by left|right..]; do 6 eexists; (split; [done|]); econstructor; eauto. Qed.

(** Completing a red-black subtree. *)
Lemma plug_rb t col c ok n :
  is_rb t col n → ctx_rb c ok n → (col = RED → ok = true) → ∃ n', is_rb (plug t c) BLACK n' ∨ (c = [] ∧ is_rb (plug t c) col n').
Proof.
  intros Ht Hc. revert t col Ht. induction Hc as [n|d l kv sib c n Hs Hc IH|d l kv sib c n cs ok Hs Hc IH]; intros t col Ht Hok.
  - exists n. simpl. by right.
  - destruct col; [by specialize (Hok eq_refl)|]. destruct (IH (bin d l RED kv t sib) RED) as [n' Hn'].
    { by apply rb_bin_red. } { done. }
    exists n'. left. destruct Hn' as [|[-> ?]]; [done|]. by inversion Hc.
  - destruct (IH (bin d l BLACK kv t sib) BLACK) as [n' Hn']; [by eapply rb_bin_black|done|].
    exists n'. left. by destruct Hn' as [|[_ ?]].
Qed.

Lemma bin_opp d l (col : color) (kv : K * V) a b : bin (opp d) l col kv a b = bin d l col kv b a.
Proof. by destruct d. Qed.

(** ** Loads and stores at the focus *)

Lemma tree_loc s d l (col : color) kv a b c :
  rep s (plug (bin d l col kv a b) c) → heap s !! l = Some (mknode d kv col (rt a) (rt b) (cpar c)).
Proof. rewrite rep_plug, tree_at_bin. tauto. Qed.

Lemma ld_bin s d l (col : color) kv a b c :
  rep s (plug (bin d l col kv a b) c) → ld s (Some l) = Some (mknode d kv col (rt a) (rt b) (cpar c)).
Proof. apply tree_loc. Qed.

Lemma par_bin s d l (col : color) kv a b c : rep s (plug (bin d l col kv a b) c) → par s (Some l) = Some (cpar c).
Proof. intros H. unfold par. rewrite (ld_bin _ _ _ _ _ _ _ _ H). by destruct d. Qed.

Lemma par_rt s t l c : rep s (plug t c) → rt t = Some l → par s (Some l) = Some (cpar c).
Proof. intros H Hl. destruct t as [|l' col kv a b]; [done|]. simplify_eq/=. by apply (par_bin s Lft _ _ _ _ _ _ H). Qed.

Lemma set_color_bin s d l (col col' : color) kv a b c :
  rep s (plug (bin d l col kv a b) c) →
  ∃ s', st s (Some l) (set_color col') = Some s' ∧ rep s' (plug (bin d l col' kv a b) c).
Proof.
  intros H. pose proof (tree_loc _ _ _ _ _ _ _ _ H) as Hl. unfold st. cbn [mbind option_bind]. rewrite Hl.
  eexists; split; [done|]. revert H. rewrite !rep_plug, !locs_bin, !tree_at_bin, !rt_bin.
  intros (Hnd & (_ & Ha & Hb) & Hc & Hr). pose proof Hnd as Hnd'. nd_in Hnd'. cbn [heap with_heap m_root].
  split_and!; [done| |framed..|done]. rewrite lookup_insert_eq. by destruct d.
Qed.

Definition tcol t : color := match t with Leaf => BLACK | Bin _ col _ _ _ => col end.

Lemma rb_tcol t col n : is_rb t col n → tcol t = col.
Proof. by destruct 1. Qed.

Lemma is_red_rt s t c : rep s (plug t c) → is_red s (rt t) = Some (bool_decide (tcol t = RED)).
Proof.
  intros H. destruct t as [|l col kv a b]; [done|]. cbn [rt is_red].
  by rewrite (ld_bin s Lft l col kv a b c H).
Qed.
Lemma is_black_rt s t c : rep s (plug t c) → is_black s (rt t) = Some (bool_decide (tcol t = BLACK)).
Proof.
  intros H. destruct t as [|l col kv a b]; [done|]. cbn [rt is_black].
  by rewrite (ld_bin s Lft l col kv a b c H).
Qed.

(** A subtree is not its sibling. *)
Lemma rep_sib s t f c l : rep s (plug t (f :: c)) → rt t = Some l → Some l ≠ rt (f_sib f).
Proof.
  intros H Ht. apply rt_notin. apply rep_plug in H as (Hnd & _). destruct t as [|l' col kv a b]; [done|].
  simplify_eq/=. nd_in Hnd. done.
Qed.

(** The test by which the code finds on which side a node hangs. *)
Lemma side_of s t d l' (col : color) kv u c l :
  rep s (plug t (Frm d l' col kv u :: c)) → rt t = Some l →
  (if decide (Some l = n_left (mknode d kv col (Some l) (rt u) (cpar c))) then Lft else Rgt) = d.
Proof.
  intros H Ht. destruct d; simpl; [by rewrite decide_True|].
  rewrite decide_False; [done|]. by apply (rep_sib _ _ _ _ _ H).
Qed.

Lemma child_same d kv (col : color) x y p : child d (mknode (K := K) (V := V) d kv col x y p) = x.
Proof. by destruct d. Qed.
Lemma child_opp d kv (col : color) x y p : child (opp d) (mknode (K := K) (V := V) d kv col x y p) = y.
Proof. by destruct d. Qed.
Lemma mknode_parent d kv (col : color) x y p : n_parent (mknode (K := K) (V := V) d kv col x y p) = p.
Proof. by destruct d. Qed.
Lemma mknode_color d kv (col : color) x y p : n_color (mknode (K := K) (V := V) d kv col x y p) = col.
Proof. by destruct d. Qed.
Lemma mknode_key d kv (col : color) x y p : n_key (mknode (K := K) (V := V) d kv col x y p) = kv.1.
Proof. by destruct d. Qed.
Lemma mknode_opp d kv (col : color) x y p : mknode (K := K) (V := V) (opp d) kv col x y p = mknode d kv col y x p.
Proof. by destruct d. Qed.

(** Moving the focus to the parent, back, and to the sibling. *)
Lemma rep_up s t d l (col : color) kv u c :
  rep s (plug t (Frm d l col kv u :: c)) → rep s (plug (bin d l col kv t u) c).
Proof. done. Qed.
Lemma rep_down s t d l (col : color) kv u c :
  rep s (plug (bin d l col kv t u) c) → rep s (plug t (Frm d l col kv u :: c)).
Proof. done. Qed.

Lemma rep_swap s t d l (col : color) kv u c :
  rep s (plug t (Frm d l col kv u :: c)) → rep s (plug u (Frm (opp d) l col kv t :: c)).
Proof. simpl. unfold plug1. simpl. by rewrite bin_opp. Qed.

Lemma rep_swap' s t d l (col : color) kv u c :
  rep s (plug u (Frm (opp d) l col kv t :: c)) → rep s (plug t (Frm d l col kv u :: c)).
Proof. simpl. unfold plug1. simpl. by rewrite bin_opp. Qed.

Lemma elements_bin_cong d l (col col' : color) kv a b a' b' :
  elements a = elements a' → elements b = elements b' →
  elements (bin d l col kv a b) = elements (bin d l col' kv a' b').
Proof. destruct d; simpl; congruence. Qed.

Lemma almost_cong t t' c : elements t' = elements t → elements (plug t' c) = elements (plug t c).
Proof. intros H. by rewrite !elements_plug, H. Qed.
End Invariant.

(** In-order lists of explicit shapes. *)
Ltac inorder := simpl; repeat (rewrite <- app_assoc; simpl); congruence.

Lemma rotate_elements {K V} d x y (cx cy cx' cy' : color) kx ky (a b e e' : tree K V) :
  elements e = elements e' →
  elements (bin d y cy ky (bin d x cx kx a b) e) = elements (bin d x cx' kx a (bin d y cy' ky b e')).
Proof. intros He. destruct d; inorder. Qed.

(** Loads at the focus. *)
Ltac ldb H := rewrite (ld_bin _ _ _ _ _ _ _ _ H); cbn [mbind option_bind].
Ltac parb H := rewrite (par_bin _ _ _ _ _ _ _ _ H); cbn [mbind option_bind cpar f_loc].

Section Insert.
Context {K V : Type}.
Implicit Types (t a b e u : tree K V) (f : frame K V) (c : list (frame K V)) (s : rbt K V).

(** The stores that recolour parent, uncle and grandparent. *)
Lemma recolor_ok s t d1 p kvp sib d2 g kvg u n c :
  rep s (plug t (Frm d1 p RED kvp sib :: Frm d2 g BLACK kvg u :: c)) → is_rb u RED n →
  ∃ s1 s2 s3 u', st s (Some p) (set_color BLACK) = Some s1 ∧ st s1 (rt u) (set_color BLACK) = Some s2 ∧
    st s2 (Some g) (set_color RED) = Some s3 ∧
    rep s3 (plug (bin d2 g RED kvg (bin d1 p BLACK kvp t sib) u') c) ∧ is_rb u' BLACK (S n) ∧ elements u' = elements u.
Proof.
  intros H Hu. destruct (rb_red_inv _ _ d2 Hu) as (lu & kvu & a & b & -> & Ha & Hb). rewrite rt_bin.
  pose proof (rep_up _ _ _ _ _ _ _ _ H) as Hp.
  destruct (set_color_bin _ _ _ _ BLACK _ _ _ _ Hp) as (s1 & Hs1 & H1). apply rep_swap in H1.
  destruct (set_color_bin _ _ _ _ BLACK _ _ _ _ H1) as (s2 & Hs2 & H2). apply rep_swap', rep_up in H2.
  destruct (set_color_bin _ _ _ _ RED _ _ _ _ H2) as (s3 & Hs3 & H3).
  exists s1, s2, s3, (bin d2 lu BLACK kvu a b). split_and!; [done..|by eapply rb_bin_black|by apply elements_bin_cong].
Qed.

(** Red uncle: recolour and move up two levels. *)
Lemma insert_case_recolor s t z d1 p kvp sib d2 g kvg u n c :
  rep s (plug t (Frm d1 p RED kvp sib :: Frm d2 g BLACK kvg u :: c)) → rt t = Some z → is_rb u RED n →
  ∃ s' u', insert_case d2 (Some z) s = Some (Some g, s') ∧
    rep s' (plug (bin d2 g RED kvg (bin d1 p BLACK kvp t sib) u') c) ∧
    is_rb u' BLACK (S n) ∧ elements u' = elements u.
Proof.
  intros H Hz Hu. pose proof (rep_up _ _ _ _ _ _ _ _ H) as Hp. pose proof (rep_up _ _ _ _ _ _ _ _ Hp) as Hg.
  pose proof (rep_swap _ _ _ _ _ _ _ _ Hp) as Hu'.
  unfold insert_case. rewrite (par_rt _ _ _ _ H Hz). cbn [mbind option_bind cpar f_loc].
  parb Hp. ldb Hg. rewrite child_opp, (is_red_rt _ _ _ Hu'), (rb_tcol _ _ _ Hu). cbn [mbind option_bind].
  rewrite bool_decide_true by done.
  destruct (recolor_ok _ _ _ _ _ _ _ _ _ _ _ _ H Hu) as (s1 & s2 & s3 & u' & -> & Hs2 & Hs3 & H3 & Hu3 & Hel).
  cbn [mbind option_bind]. rewrite Hs2. cbn [mbind option_bind]. rewrite Hs3. by exists s3, u'.
Qed.

(** Black uncle, [z] on the outer side: one rotation. *)
Lemma insert_case_outer s t z p kvp sib d g kvg u c :
  rep s (plug t (Frm d p RED kvp sib :: Frm d g BLACK kvg u :: c)) → rt t = Some z → tcol u = BLACK →
  ∃ s', insert_case d (Some z) s = Some (Some z, s') ∧
    rep s' (plug t (Frm d p BLACK kvp (bin d g RED kvg sib u) :: c)).
Proof.
  intros H Hz Hu. pose proof (rep_up _ _ _ _ _ _ _ _ H) as Hp. pose proof (rep_up _ _ _ _ _ _ _ _ Hp) as Hg.
  pose proof (rep_swap _ _ _ _ _ _ _ _ Hp) as Hu'.
  unfold insert_case. rewrite (par_rt _ _ _ _ H Hz). cbn [mbind option_bind cpar f_loc].
  parb Hp. ldb Hg. rewrite child_opp, (is_red_rt _ _ _ Hu'), Hu. cbn [mbind option_bind].
  rewrite bool_decide_false by done.
  ldb Hp. rewrite child_opp. rewrite decide_False by (by apply (rep_sib _ _ _ _ _ H)). cbn [mbind option_bind].
  rewrite (par_rt _ _ _ _ H Hz). cbn [mbind option_bind cpar f_loc].
  destruct (set_color_bin _ _ _ _ BLACK _ _ _ _ Hp) as (s1 & -> & H1). cbn [mbind option_bind].
  parb H1. apply rep_up in H1.
  destruct (set_color_bin _ _ _ _ RED _ _ _ _ H1) as (s2 & -> & H2). cbn [mbind option_bind].
  rewrite <- (bin_opp d g), <- (bin_opp d p) in H2.
  destruct (rotate_rep _ _ _ _ _ _ _ _ _ _ _ _ H2) as (s3 & -> & H3). cbn [mbind option_bind].
  exists s3. split; [done|]. rewrite !bin_opp in H3. exact H3.
Qed.

(** Black uncle, [z] on the inner side: two rotations. *)
Lemma insert_case_inner s z kv a b p kvp sib d g kvg u c :
  rep s (plug (bin d z RED kv a b) (Frm (opp d) p RED kvp sib :: Frm d g BLACK kvg u :: c)) → tcol u = BLACK →
  ∃ s', insert_case d (Some z) s = Some (Some p, s') ∧
    rep s' (plug (bin d p RED kvp sib a) (Frm d z BLACK kv (bin d g RED kvg b u) :: c)).
Proof.
  intros H Hu. pose proof (rep_up _ _ _ _ _ _ _ _ H) as Hp. rewrite bin_opp in Hp.
  pose proof (rep_up _ _ _ _ _ _ _ _ Hp) as Hg. pose proof (rep_swap _ _ _ _ _ _ _ _ Hp) as Hu'.
  unfold insert_case. parb H. parb Hp. ldb Hg. rewrite child_opp, (is_red_rt _ _ _ Hu'), Hu. cbn [mbind option_bind].
  rewrite bool_decide_false by done. ldb Hp. rewrite child_opp, rt_bin, decide_True by done.
  destruct (rotate_rep _ _ _ _ _ _ _ _ _ _ _ _ Hp) as (s1 & -> & H1). cbn [mbind option_bind].
  pose proof (rep_down _ _ _ _ _ _ _ _ H1) as H1p.
  parb H1p. destruct (set_color_bin _ _ _ _ BLACK _ _ _ _ H1) as (s2 & -> & H2). cbn [mbind option_bind].
  parb H2. apply rep_up in H2.
  destruct (set_color_bin _ _ _ _ RED _ _ _ _ H2) as (s3 & -> & H3). cbn [mbind option_bind].
  rewrite <- (bin_opp d g), <- (bin_opp d z) in H3.
  destruct (rotate_rep _ _ _ _ _ _ _ _ _ _ _ _ H3) as (s4 & -> & H4). cbn [mbind option_bind].
  exists s4. split; [done|]. rewrite !bin_opp in H4. exact H4.
Qed.

Lemma keeps_insert_case d z s z' s' : insert_case d z s = Some (z', s') → keeps s s'.
Proof.
  unfold insert_case. intros H. runs;
    repeat match goal with H : rotate _ _ _ = Some _ |- _ => apply keeps_rotate in H end; keeps_chain.
Qed.

Lemma keeps_insert_loop fuel z s s' : insert_loop fuel z s = Some s' → keeps s s'.
Proof.
  revert z s. induction fuel as [|fuel IH]; intros z s; [done|]. cbn [insert_loop]. intros H.
  runs; [|done]. match goal with H : insert_case _ _ _ = Some ?r |- _ => destruct r as [z1 s1]; apply keeps_insert_case in H end.
  etrans; [done|by eapply IH].
Qed.

(** Leaving the loop: the parent is absent or black. *)
Lemma insert_loop_exit fuel s t z c n ok :
  rep s (plug t c) → rt t = Some z → ctx_rb c ok n → (ok = true ∨ c = []) → 0 < fuel → insert_loop fuel (Some z) s = Some s.
Proof.
  intros H Hz Hc Hok Hf. destruct fuel as [|fuel]; [lia|]. cbn [insert_loop].
  rewrite (par_rt _ _ _ _ H Hz). cbn [mbind option_bind].
  destruct Hc as [n|d l kv sib c n Hs Hc|d l kv sib c n cs ok Hs Hc]; [done|by destruct Hok|].
  cbn [cpar f_loc is_red]. apply rep_up in H. by ldb H; rewrite mknode_color.
Qed.

(** What the loop establishes: a red-black tree up to the colour of its root, with the
    same elements. *)
Definition almost_rb s (l : list (loc * (K * V))) : Prop :=
  ∃ t col n, rep s t ∧ is_rb t col n ∧ elements t = l.

Lemma exit_rb s t col c ok n :
  rep s (plug t c) → is_rb t col n → ctx_rb c ok n → (col = RED → ok = true ∨ c = []) →
  almost_rb s (elements (plug t c)).
Proof.
  intros H Ht Hc Hok. destruct c as [|f c]; [by exists t, col, n|].
  destruct (plug_rb t col (f :: c) ok n Ht Hc) as [n' [Hn'|[? _]]]; [naive_solver|by exists (plug t (f :: c)), BLACK, n'|done].
Qed.

Lemma almost_eq s l l' : almost_rb s l → l = l' → almost_rb s l'.
Proof. congruence. Qed.

(** Black uncle: one iteration, after which the loop stops. *)
Lemma insert_black_uncle s t z d1 p kvp sib d2 g kvg u c n ok :
  rep s (plug t (Frm d1 p RED kvp sib :: Frm d2 g BLACK kvg u :: c)) → rt t = Some z → is_rb t RED n →
  is_rb sib BLACK n → is_rb u BLACK n → ctx_rb c ok (S n) →
  ∃ s' z', insert_case d2 (Some z) s = Some (Some z', s') ∧
    (∀ fuel, 0 < fuel → insert_loop fuel (Some z') s' = Some s') ∧
    almost_rb s' (elements (plug t (Frm d1 p RED kvp sib :: Frm d2 g BLACK kvg u :: c))).
Proof.
  intros H Hz Ht Hsib Hu Hc. apply rb_tcol in Hu as Hub. destruct (decide (d1 = d2)) as [->|Hd].
  - destruct (insert_case_outer _ _ _ _ _ _ _ _ _ _ _ H Hz Hub) as (s1 & Hi & H1).
    assert (ctx_rb (Frm d2 p BLACK kvp (bin d2 g RED kvg sib u) :: c) true n) as Hc1
      by (econstructor; [by apply rb_bin_red|done]).
    exists s1, z. split_and!; [done|intros; eapply insert_loop_exit; eauto|].
    eapply almost_eq; [eapply exit_rb; eauto|]. cbn [plug]. apply almost_cong. destruct d2; inorder.
  - assert (d1 = opp d2) as -> by (by destruct d1, d2).
    destruct (rb_red_inv _ _ d2 Ht) as (z' & kv & a & b & -> & Ha & Hb). rewrite rt_bin in Hz. simplify_eq.
    destruct (insert_case_inner _ _ _ _ _ _ _ _ _ _ _ _ _ H Hub) as (s1 & Hi & H1).
    assert (ctx_rb (Frm d2 z BLACK kv (bin d2 g RED kvg b u) :: c) true n) as Hc1
      by (econstructor; [by apply rb_bin_red|done]).
    exists s1, p. split_and!; [done|intros; eapply insert_loop_exit; eauto using rt_bin|].
    eapply almost_eq; [eapply exit_rb; eauto using rb_bin_red|]. cbn [plug]. apply almost_cong. destruct d2; inorder.
Qed.

Lemma insert_loop_ok fuel s t z c n ok :
  rep s (plug t c) → rt t = Some z → is_rb t RED n → ctx_rb c ok n → length c < fuel →
  ∃ s', insert_loop fuel (Some z) s = Some s' ∧ almost_rb s' (elements (plug t c)).
Proof.
  revert s t z c n ok. induction (lt_wf fuel) as [fuel _ IH]. intros s t z c n ok H Hz Ht Hc Hf.
  destruct ok.
  { exists s. split; [eapply insert_loop_exit; eauto; lia|]. eapply exit_rb; eauto. }
  inversion Hc as [|d1 p kvp sib c1 ? Hsib Hc1|]; subst.
  { exists s. split; [eapply insert_loop_exit; eauto; simpl in *; lia|]. eapply exit_rb; eauto. }
  inversion Hc1 as [| |d2 g kvg u c2 ? cu ok Hu Hc2]; subst. clear Hc Hc1. simpl in Hf.
  destruct fuel as [|fuel]; [lia|]. cbn [insert_loop].
  pose proof (rep_up _ _ _ _ _ _ _ _ H) as Hp. pose proof (rep_up _ _ _ _ _ _ _ _ Hp) as Hg.
  rewrite (par_rt _ _ _ _ H Hz). cbn [mbind option_bind cpar f_loc is_red]. ldb Hp.
  rewrite mknode_color, bool_decide_true by done. parb Hp. ldb Hg.
  rewrite rt_bin, (side_of _ _ _ _ _ _ _ _ _ Hp (rt_bin _ _ _ _ _ _)).
  destruct cu.
  - destruct (insert_case_recolor _ _ _ _ _ _ _ _ _ _ _ _ _ H Hz Hu) as (s1 & u' & -> & H1 & Hu' & Hel).
    cbn [mbind option_bind fst snd].
    destruct (IH fuel ltac:(lia) s1 (bin d2 g RED kvg (bin d1 p BLACK kvp t sib) u') g c2 (S n) ok) as (s2 & -> & Ht2); eauto.
    { apply rt_bin. } { apply rb_bin_red; [by eapply rb_bin_black|done]. } { lia. }
    exists s2. split; [done|]. eapply almost_eq; [exact Ht2|]. cbn [plug]. apply almost_cong.
    apply elements_bin_cong; [by apply elements_bin_cong|done].
  - destruct (insert_black_uncle _ _ _ _ _ _ _ _ _ _ _ _ _ _ H Hz Ht Hsib Hu Hc2) as (s1 & z1 & -> & Hl & H1).
    cbn [mbind option_bind fst snd]. exists s1. split; [apply Hl; lia|done].
Qed.

Lemma keeps_insert_fixup z s s' : insert_fixup z s = Some s' → keeps s s'.
Proof.
  unfold insert_fixup. intros H. runs.
  match goal with H : insert_loop _ _ _ = Some _ |- _ => apply keeps_insert_loop in H end. keeps_chain.
Qed.

(** A heap that holds a red-black tree with black root. *)
Definition rb_tree s (l : list (loc * (K * V))) : Prop := ∃ t n, rep s t ∧ is_rb t BLACK n ∧ elements t = l.

(** Painting the root black. *)
Lemma paint_root s l : almost_rb s l → ∃ s', st_opt s (m_root s) (set_color BLACK) = Some s' ∧ rb_tree s' l.
Proof.
  intros (t & col & n & Ht & Hrb & <-). destruct (rb_paint_black _ _ _ Hrb) as [->|(x & col' & kv & a & b & n' & -> & Hb)].
  - exists s. pose proof Ht as (_ & _ & ->). split; [done|]. exists Leaf, 0. split_and!; [done|constructor|done].
  - pose proof Ht as (_ & _ & ->).
    destruct (set_color_bin s Lft x col' BLACK kv a b [] Ht) as (s' & Hs & H'). exists s'. split; [done|].
    by exists (Bin x BLACK kv a b), n'.
Qed.

Lemma rep_size s t : rep s t → dom (heap s) = list_to_set (locs t) → size (heap s) = length (locs t).
Proof. intros (Hnd & _ & _) Hd. by rewrite <- size_dom, Hd, size_list_to_set. Qed.

Lemma length_clocs c : length c ≤ length (clocs c).
Proof. induction c as [|f c IH]; simpl; [done|]. rewrite length_app. lia. Qed.

Lemma insert_fixup_ok s t z c n ok :
  rep s (plug t c) → rt t = Some z → is_rb t RED n → ctx_rb c ok n → length c ≤ size (heap s) →
  ∃ s', insert_fixup (Some z) s = Some s' ∧ rb_tree s' (elements (plug t c)).
Proof.
  intros H Hz Ht Hc Hsz. unfold insert_fixup.
  destruct (insert_loop_ok (S (size (heap s))) s t z c n ok H Hz Ht Hc ltac:(lia)) as (s1 & -> & H1).
  cbn [mbind option_bind]. destruct (paint_root _ _ H1) as (s2 & Hs2 & H2).
  destruct (m_root s1) as [r|] eqn:Hr; [by exists s2|].
  destruct H1 as (t1 & col1 & n1 & (_ & _ & Hr1) & _ & Hel). destruct t1; [|simpl in *; congruence].
  assert (length (elements (plug t c)) = 0) as Hl by (by rewrite <- Hel).
  rewrite elements_plug, !length_app in Hl. destruct t; [done|]. simpl in Hl. rewrite length_app in Hl. simpl in Hl. lia.
Qed.
End Insert.
