(* ===== verification/RBTreeErase.v ===== *)
(** * Red-black trees: rebalancing after deletion

    [erase_fixup] repairs a tree in which one subtree lacks one black node.  The four
    textbook cases are lemmas on the represented tree; the loop lemma composes them. *)

From S2P Require Import Prelude RBTree RBTreeRep RBTreeInsert.

Section Erase.
Context {K V : Type}.
Implicit Types (t a b e u v : tree K V) (f : frame K V) (c : list (frame K V)) (s : rbt K V).

(** A subtree one black node short of what its context expects: black and red-black of
    height [n], or red and of height [n + 1] once painted black. *)
Definition short t (n : nat) : Prop :=
  is_rb t BLACK n ∨ ∃ l kv a b, t = Bin l RED kv a b ∧ is_rb (Bin l BLACK kv a b) BLACK (S n).

Lemma rb_black_inv t n d : is_rb t BLACK (S n) →
  ∃ l kv a b ca cb, t = bin d l BLACK kv a b ∧ is_rb a ca n ∧ is_rb b cb n.
Proof. inversion 1; subst. destruct d; [exists l, kv, a, b, ca, cb|exists l, kv, b, a, cb, ca]; eauto. Qed.

Lemma is_black_at s t c col n : rep s (plug t c) → is_rb t col n → is_black s (rt t) = Some (bool_decide (col = BLACK)).
Proof. intros H Ht. by rewrite (is_black_rt _ _ _ H), (rb_tcol _ _ _ Ht). Qed.

(** Case 1: the sibling is red. *)
Lemma erase_red_case s t d p cp kvp w kvw u v c :
  rep s (plug t (Frm d p cp kvp (bin d w RED kvw u v) :: c)) →
  ∃ s', erase_red_sibling d (Some p) s = Some (rt u, s') ∧
    rep s' (plug t (Frm d p RED kvp u :: Frm d w BLACK kvw v :: c)).
Proof.
  intros H. pose proof (rep_up _ _ _ _ _ _ _ _ H) as Hp. pose proof (rep_swap _ _ _ _ _ _ _ _ H) as Hw.
  unfold erase_red_sibling. ldb Hp. rewrite child_opp, rt_bin. cbn [is_red]. ldb Hw.
  rewrite mknode_color, bool_decide_true by done.
  destruct (set_color_bin _ _ _ _ BLACK _ _ _ _ Hw) as (s1 & -> & H1). cbn [mbind option_bind].
  apply rep_swap', rep_up in H1.
  destruct (set_color_bin _ _ _ _ RED _ _ _ _ H1) as (s2 & -> & H2). cbn [mbind option_bind].
  destruct (rotate_rep _ _ _ _ _ _ _ _ _ _ _ _ H2) as (s3 & -> & H3). cbn [mbind option_bind].
  apply rep_down in H3. ldb H3. rewrite child_opp. exists s3. split; [done|exact H3].
Qed.

Lemma erase_not_red s t d p cp kvp w c n :
  rep s (plug t (Frm d p cp kvp w :: c)) → is_rb w BLACK n →
  erase_red_sibling d (Some p) s = Some (rt w, s).
Proof.
  intros H Hw. pose proof (rep_up _ _ _ _ _ _ _ _ H) as Hp. pose proof (rep_swap _ _ _ _ _ _ _ _ H) as Hw'.
  unfold erase_red_sibling. ldb Hp. rewrite child_opp, (is_red_rt _ _ _ Hw'), (rb_tcol _ _ _ Hw). done.
Qed.

(** Case 2: black sibling with black children. *)
Lemma erase_recolor s t d p cp kvp w kvw u v c n :
  rep s (plug t (Frm d p cp kvp (bin d w BLACK kvw u v) :: c)) → is_rb u BLACK n → is_rb v BLACK n →
  ∃ s', erase_black_sibling d (Some p) (Some w) s = Some (Some p, cpar c, s') ∧
    rep s' (plug (bin d p cp kvp t (bin d w RED kvw u v)) c).
Proof.
  intros H Hu Hv. pose proof (rep_swap _ _ _ _ _ _ _ _ H) as Hw. pose proof (rep_down _ _ _ _ _ _ _ _ Hw) as Hu'.
  pose proof (rep_swap _ _ _ _ _ _ _ _ Hu') as Hv'.
  unfold erase_black_sibling. ldb Hw. rewrite child_same, child_opp.
  rewrite (is_black_at _ _ _ _ _ Hu' Hu), (is_black_at _ _ _ _ _ Hv' Hv). cbn [mbind option_bind].
  rewrite !bool_decide_true by done. cbn [andb st_opt].
  destruct (set_color_bin _ _ _ _ RED _ _ _ _ Hw) as (s1 & -> & H1). cbn [mbind option_bind].
  apply rep_swap', rep_up in H1. parb H1. exists s1. split; [done|exact H1].
Qed.

(** Case 4. *)
Lemma erase_finish_ok s t d p cp kvp w kvw u lv kvv v1 v2 c :
  rep s (plug t (Frm d p cp kvp (bin d w BLACK kvw u (bin d lv RED kvv v1 v2)) :: c)) →
  ∃ s', erase_finish d (Some p) (Some w) s = Some (m_root s', None, s') ∧
    rep s' (plug (bin d w cp kvw (bin d p BLACK kvp t u) (bin d lv BLACK kvv v1 v2)) c).
Proof.
  intros H. pose proof (rep_up _ _ _ _ _ _ _ _ H) as Hp. pose proof (rep_swap _ _ _ _ _ _ _ _ H) as Hw.
  unfold erase_finish. ldb Hp. rewrite mknode_color. cbn [st_opt].
  destruct (set_color_bin _ _ _ _ cp _ _ _ _ Hw) as (s1 & -> & H1). cbn [mbind option_bind].
  apply rep_swap', rep_up in H1.
  destruct (set_color_bin _ _ _ _ BLACK _ _ _ _ H1) as (s2 & -> & H2). cbn [mbind option_bind].
  apply rep_down, rep_swap in H2. ldb H2. rewrite child_opp, rt_bin. cbn [st_opt].
  apply rep_down, rep_swap in H2.
  destruct (set_color_bin _ _ _ _ BLACK _ _ _ _ H2) as (s3 & -> & H3). cbn [mbind option_bind].
  apply rep_swap', rep_up, rep_swap', rep_up in H3.
  destruct (rotate_rep _ _ _ _ _ _ _ _ _ _ _ _ H3) as (s4 & -> & H4). cbn [mbind option_bind].
  by exists s4.
Qed.

Lemma erase_outer s t d p cp kvp w kvw u cu v n c :
  rep s (plug t (Frm d p cp kvp (bin d w BLACK kvw u v) :: c)) → is_rb u cu n → is_rb v RED n →
  erase_black_sibling d (Some p) (Some w) s = erase_finish d (Some p) (Some w) s.
Proof.
  intros H Hu Hv. pose proof (rep_swap _ _ _ _ _ _ _ _ H) as Hw. pose proof (rep_down _ _ _ _ _ _ _ _ Hw) as Hu'.
  pose proof (rep_swap _ _ _ _ _ _ _ _ Hu') as Hv'.
  unfold erase_black_sibling. ldb Hw. rewrite child_same, child_opp.
  rewrite (is_black_at _ _ _ _ _ Hu' Hu), (is_black_at _ _ _ _ _ Hv' Hv). cbn [mbind option_bind].
  rewrite (bool_decide_false (RED = BLACK)) by done. by rewrite andb_false_r.
Qed.

(** Case 3: black far child, red near child. *)
Lemma erase_inner s t d p cp kvp w kvw lu kvu u1 u2 v n c :
  rep s (plug t (Frm d p cp kvp (bin d w BLACK kvw (bin d lu RED kvu u1 u2) v) :: c)) → is_rb v BLACK n →
  ∃ s', erase_black_sibling d (Some p) (Some w) s = erase_finish d (Some p) (Some lu) s' ∧
    rep s' (plug t (Frm d p cp kvp (bin d lu BLACK kvu u1 (bin d w RED kvw u2 v)) :: c)).
Proof.
  intros H Hv. pose proof (rep_swap _ _ _ _ _ _ _ _ H) as Hw. pose proof (rep_down _ _ _ _ _ _ _ _ Hw) as Hu'.
  pose proof (rep_swap _ _ _ _ _ _ _ _ Hu') as Hv'.
  unfold erase_black_sibling. ldb Hw. rewrite child_same, child_opp.
  rewrite (is_black_rt _ _ _ Hu'), (is_black_at _ _ _ _ _ Hv' Hv). cbn [mbind option_bind].
  replace (tcol (bin d lu RED kvu u1 u2)) with RED by (by destruct d).
  rewrite (bool_decide_false (RED = BLACK)), bool_decide_true by done. cbn [andb]. rewrite rt_bin. cbn [st_opt].
  destruct (set_color_bin _ _ _ _ BLACK _ _ _ _ Hu') as (s1 & -> & H1). cbn [mbind option_bind].
  apply rep_up in H1.
  destruct (set_color_bin _ _ _ _ RED _ _ _ _ H1) as (s2 & -> & H2). cbn [mbind option_bind].
  rewrite <- (bin_opp d w), <- (bin_opp d lu) in H2.
  destruct (rotate_rep _ _ _ _ _ _ _ _ _ _ _ _ H2) as (s3 & -> & H3). cbn [mbind option_bind].
  rewrite !bin_opp in H3. apply rep_swap', rep_up in H3. ldb H3. rewrite child_opp, rt_bin. cbn [fst snd].
  exists s3. split; [done|exact H3].
Qed.

(** Cases 3 and 4 end with a red-black tree up to the colour of the root. *)
Lemma erase_final s t d p cp kvp w kvw u cu v cv n c ok :
  rep s (plug t (Frm d p cp kvp (bin d w BLACK kvw u v) :: c)) → is_rb t BLACK n →
  is_rb u cu n → is_rb v cv n → cu = RED ∨ cv = RED → ctx_rb (Frm d p cp kvp (bin d w BLACK kvw u v) :: c) ok (S n) →
  ∃ s', erase_black_sibling d (Some p) (Some w) s = Some (m_root s', None, s') ∧
    almost_rb s' (elements (plug t (Frm d p cp kvp (bin d w BLACK kvw u v) :: c))).
Proof.
  intros H Ht Hu Hv Hcol Hc.
  assert (∃ s' w' kvw' u' cu' lv kvv v1 v2, erase_black_sibling d (Some p) (Some w) s = erase_finish d (Some p) (Some w') s' ∧
    rep s' (plug t (Frm d p cp kvp (bin d w' BLACK kvw' u' (bin d lv RED kvv v1 v2)) :: c)) ∧
    is_rb u' cu' n ∧ is_rb v1 BLACK n ∧ is_rb v2 BLACK n ∧
    elements (bin d w' BLACK kvw' u' (bin d lv RED kvv v1 v2)) = elements (bin d w BLACK kvw u v))
    as (s1 & w' & kvw' & u' & cu' & lv & kvv & v1 & v2 & -> & H1 & Hu' & Hv1 & Hv2 & Hel).
  { destruct cv.
    - destruct (rb_red_inv _ _ d Hv) as (lv & kvv & v1 & v2 & -> & Hv1 & Hv2).
      exists s, w, kvw, u, cu, lv, kvv, v1, v2. split_and!; [by eapply erase_outer|done..].
    - destruct Hcol as [->|]; [|done]. destruct (rb_red_inv _ _ d Hu) as (lu & kvu & u1 & u2 & -> & Hu1 & Hu2).
      destruct (erase_inner _ _ _ _ _ _ _ _ _ _ _ _ _ _ _ H Hv) as (s1 & Hs1 & H1).
      exists s1, lu, kvu, u1, BLACK, w, kvw, u2, v. split_and!; [done..|]. destruct d; inorder. }
  destruct (erase_finish_ok _ _ _ _ _ _ _ _ _ _ _ _ _ _ H1) as (s2 & Hs2 & H2). exists s2. split; [done|].
  assert (is_rb (bin d p BLACK kvp t u') BLACK (S n)) as Hp by (by eapply rb_bin_black).
  assert (is_rb (bin d lv BLACK kvv v1 v2) BLACK (S n)) as Hlv by (by eapply rb_bin_black).
  eapply (almost_eq s2 (elements (plug (bin d w' cp kvw' (bin d p BLACK kvp t u') (bin d lv BLACK kvv v1 v2)) c))).
  - inversion Hc; subst; (eapply exit_rb; [exact H2| |done|]); eauto using rb_bin_red, rb_bin_black.
    by destruct c.
  - cbn [plug]. apply almost_cong. rewrite (rotate_elements d p w' BLACK cp cp BLACK _ _ _ _ _ (bin d lv RED kvv v1 v2)).
    { by apply elements_bin_cong. } by apply elements_bin_cong.
Qed.

(** ** The loop *)

Lemma croot_in c l : ∃ r, croot (Some l) c = Some r ∧ r ∈ l :: clocs c.
Proof.
  revert l. induction c as [|f c IH]; intros l; simpl; [exists l; set_solver|].
  destruct (IH (f_loc f)) as (r & Hr & Hin). exists r. split; [done|]. set_solver.
Qed.

Lemma root_ne s t f c : rep s (plug t (f :: c)) → rt t ≠ m_root s.
Proof.
  rewrite rep_plug. intros (Hnd & _ & _ & ->). cbn [croot]. destruct (croot_in c (f_loc f)) as (r & -> & Hr).
  destruct t as [|l col kv a b]; [done|]. cbn [rt]. intros [= ->]. cbn [locs clocs] in Hnd.
  apply NoDup_cons in Hnd as [Hnd _]. apply Hnd. set_solver.
Qed.

Lemma side_short s t d l' (col : color) kv u c n cu :
  rep s (plug t (Frm d l' col kv u :: c)) → is_rb u cu (S n) →
  (if decide (rt t = n_left (mknode d kv col (rt t) (rt u) (cpar c))) then Lft else Rgt) = d.
Proof.
  intros H Hu. destruct d; simpl; [by rewrite decide_True|]. rewrite decide_False; [done|].
  destruct t as [|l col' kv' a b]; [by inversion Hu|]. by apply (rep_sib _ _ _ _ l H).
Qed.

(** The loop runs to its end and painting what it returns gives a red-black tree. *)
Definition finishes (fuel : nat) (x xp : ptr) s (l : list (loc * (K * V))) : Prop :=
  ∃ x' s' s'', erase_loop fuel x xp s = Some (x', s') ∧ st_opt s' x' (set_color BLACK) = Some s'' ∧ rb_tree s'' l.

Lemma finish_paint s t c n ok :
  rep s (plug t c) → short t n → ctx_rb c ok (S n) → c = [] ∨ tcol t = RED →
  ∃ s', st_opt s (rt t) (set_color BLACK) = Some s' ∧ rb_tree s' (elements (plug t c)).
Proof.
  intros H Ht Hc Hor. destruct t as [|l col kv a b].
  { destruct Hor as [->|]; [|done]. exists s. split; [done|]. exists Leaf, 0. split_and!; [done|constructor|done]. }
  destruct (set_color_bin s Lft l col BLACK kv a b c H) as (s' & Hs & H'). exists s'. split; [done|].
  assert (∃ m, is_rb (Bin l BLACK kv a b) BLACK m ∧ (m = S n ∨ c = [])) as (m & Hm & Hmn).
  { destruct Ht as [Ht|(? & ? & ? & ? & Heq & Ht)]; [|simplify_eq; eauto]. pose proof (rb_tcol _ _ _ Ht) as Hcol.
    simpl in Hcol. subst col. destruct Hor as [?|?]; [eauto|done]. }
  rewrite <- (almost_cong (Bin l col kv a b) (Bin l BLACK kv a b) c) by done.
  destruct Hmn as [-> | ->]; [|by exists (Bin l BLACK kv a b), m].
  destruct (plug_rb _ _ _ _ _ Hm Hc) as [n' Hn']; [done|]. exists (plug (Bin l BLACK kv a b) c), n'.
  split_and!; [done| |done]. by destruct Hn' as [|[_ ?]].
Qed.

Lemma finishes_exit fuel s t c n ok :
  rep s (plug t c) → short t n → ctx_rb c ok (S n) → c = [] ∨ tcol t = RED → 0 < fuel →
  finishes fuel (rt t) (cpar c) s (elements (plug t c)).
Proof.
  intros H Ht Hc Hor Hf. destruct (finish_paint _ _ _ _ _ H Ht Hc Hor) as (s' & Hs & Hrb).
  exists (rt t), s, s'. split_and!; [|done..]. destruct fuel as [|fuel]; [lia|]. cbn [erase_loop].
  destruct c as [|f c]; [rewrite decide_True; [done|]; by destruct H as (_ & _ & ->)|].
  destruct Hor as [|Hor]; [done|]. rewrite decide_False by (by eapply root_ne).
  by rewrite (is_black_rt _ _ _ H), Hor.
Qed.

Lemma finishes_root fuel s l : almost_rb s l → 0 < fuel → finishes fuel (m_root s) None s l.
Proof.
  intros H Hf. destruct (paint_root _ _ H) as (s' & Hs & Hrb). exists (m_root s), s, s'. split_and!; [|done..].
  destruct fuel as [|fuel]; [lia|]. cbn [erase_loop]. by rewrite decide_True.
Qed.

Definition weight t : nat := match tcol t with BLACK => 1 | RED => 0 end.

Section Step.
Context (fuel : nat) (IH : ∀ s t c n ok, rep s (plug t c) → short t n → ctx_rb c ok (S n) → length c + weight t < fuel →
  finishes fuel (rt t) (cpar c) s (elements (plug t c))).

(** The iteration once the sibling is black. *)
Lemma black_step s t d p cp kvp w c n ok :
  rep s (plug t (Frm d p cp kvp w :: c)) → is_rb t BLACK n → is_rb w BLACK (S n) →
  ctx_rb (Frm d p cp kvp w :: c) ok (S n) → length c + (match cp with BLACK => 1 | RED => 0 end) < fuel →
  ∃ x xp s', erase_black_sibling d (Some p) (rt w) s = Some (x, xp, s') ∧
    finishes fuel x xp s' (elements (plug t (Frm d p cp kvp w :: c))).
Proof.
  intros H Ht Hw Hc Hf. destruct (rb_black_inv _ _ d Hw) as (lw & kvw & u & v & cu & cv & -> & Hu & Hv). rewrite rt_bin.
  destruct (decide (cu = RED ∨ cv = RED)) as [Hred|Hnred].
  - destruct (erase_final _ _ _ _ _ _ _ _ _ _ _ _ _ _ _ H Ht Hu Hv Hred Hc) as (s' & -> & H').
    do 3 eexists. split; [done|]. apply finishes_root; [done|lia].
  - assert (cu = BLACK ∧ cv = BLACK) as [-> ->] by (destruct cu, cv; naive_solver).
    destruct (erase_recolor _ _ _ _ _ _ _ _ _ _ _ _ H Hu Hv) as (s' & -> & H'). do 3 eexists. split; [done|].
    cbn [plug]. rewrite <- (almost_cong _ (bin d p cp kvp t (bin d lw RED kvw u v))).
    2: { apply elements_bin_cong; [done|by apply elements_bin_cong]. }
    rewrite <- (rt_bin d p cp kvp t (bin d lw RED kvw u v)).
    assert (is_rb (bin d p BLACK kvp t (bin d lw RED kvw u v)) BLACK (S n)) as Hb
      by (eapply rb_bin_black; [done|by apply rb_bin_red]).
    inversion Hc; subst; (eapply IH; [done| |done|]).
    + right. destruct d; eauto 10.
    + by destruct d; cbn; lia.
    + by left.
    + by destruct d; cbn; lia.
Qed.
End Step.

Lemma erase_loop_ok fuel s t c n ok :
  rep s (plug t c) → short t n → ctx_rb c ok (S n) → length c + weight t < fuel →
  finishes fuel (rt t) (cpar c) s (elements (plug t c)).
Proof.
  revert s t c n ok. induction fuel as [|fuel IH]; intros s t c n ok H Ht Hc Hf; [lia|].
  destruct (tcol t) eqn:Hcol; [eapply finishes_exit; eauto; lia|].
  destruct Ht as [Ht|(? & ? & ? & ? & -> & _)]; [|done]. unfold weight in Hf. rewrite Hcol in Hf.
  destruct c as [|[d p cp kvp w] c]; [eapply finishes_exit; [done|by left|done|by left|lia]|].
  assert (∃ cw, is_rb w cw (S n)) as [cw Hw] by (inversion Hc; eauto).
  pose proof (rep_up _ _ _ _ _ _ _ _ H) as Hp. cbn [length] in Hf.
  assert (∃ x xp s', erase_case d (Some p) s = Some (x, xp, s') ∧
    finishes fuel x xp s' (elements (plug t (Frm d p cp kvp w :: c)))) as (x & xp & s' & Hs & x' & s1 & s2 & Hl & Hpaint & Hrb).
  { unfold erase_case. destruct cw.
    - destruct (rb_red_inv _ _ d Hw) as (lw & kvw & u & v & -> & Hu & Hv).
      destruct (erase_red_case _ _ _ _ _ _ _ _ _ _ _ H) as (s1 & -> & H1). cbn [mbind option_bind fst snd].
      inversion Hc as [|? ? ? ? ? ? Hw'|]; subst; [by apply rb_tcol in Hw'; destruct d|].
      destruct (black_step fuel IH _ _ _ _ _ _ _ _ n false H1 Ht Hu) as (x & xp & s' & Hs & Hfin).
      { by constructor; [|econstructor]. } { simpl. lia. }
      do 3 eexists. split; [done|]. cbn [plug] in *. erewrite almost_cong; [done|]. symmetry. by apply rotate_elements.
    - rewrite (erase_not_red _ _ _ _ _ _ _ _ _ H Hw). cbn [mbind option_bind fst snd].
      eapply black_step; eauto. destruct cp; lia. }
  exists x', s1, s2. split_and!; [|done..]. cbn [erase_loop]. rewrite decide_False by (by eapply root_ne).
  rewrite (is_black_rt _ _ _ H), Hcol. cbn [mbind option_bind]. rewrite bool_decide_true by done.
  cbn [cpar f_loc]. ldb Hp. rewrite (side_short _ _ _ _ _ _ _ _ _ _ H Hw), Hs. done.
Qed.

Lemma erase_fixup_ok s t c n ok :
  rep s (plug t c) → short t n → ctx_rb c ok (S n) → length c ≤ size (heap s) →
  ∃ s', erase_fixup (rt t) (cpar c) s = Some s' ∧ rb_tree s' (elements (plug t c)).
Proof.
  intros H Ht Hc Hsz.
  destruct (erase_loop_ok (S (S (size (heap s)))) s t c n ok H Ht Hc) as (x' & s1 & s2 & Hl & Hs & Hrb).
  { unfold weight. destruct (tcol t); lia. }
  exists s2. unfold erase_fixup. by rewrite Hl.
Qed.
End Erase.
