(* ===== verification/RBTreeUnlink.v ===== *)
(** * Red-black trees: linking and unlinking nodes

    [transplant], the unlinking part of [erase] and the linking part of insertion on the
    represented tree. *)

From S2P Require Import Prelude RBTree RBTreeRep RBTreeInsert RBTreeErase.

Section Unlink.
Context {K V : Type}.
Implicit Types (t a b e u v : tree K V) (f : frame K V) (c : list (frame K V)) (s : rbt K V).

(** [u] hangs at the hole of [c]; a tree [e] that is somewhere in the heap takes its place. *)
Lemma transplant_ok s x nx e pe c :
  heap s !! x = Some nx → n_parent nx = cpar c → ctx_at (heap s) (Some x) c → m_root s = croot (Some x) c →
  tree_at (heap s) pe e → NoDup (x :: locs e ++ clocs c) →
  ∃ s', transplant (Some x) (rt e) s = Some s' ∧ tree_at (heap s') (cpar c) e ∧ ctx_at (heap s') (rt e) c ∧
    m_root s' = croot (rt e) c ∧ (∀ l, Some l ≠ cpar c → Some l ≠ rt e → heap s' !! l = heap s !! l).
Proof.
  destruct s as [h r n]. cbn [heap m_root]. intros Hx Hp Hc Hr He Hnd. unfold transplant. destruct nx as [xk xv xc xl xr xp].
  cbn [n_parent] in Hp. subst xp r.
  destruct e as [|le ce ke e1 e2], c as [|[fd fl fc fk fs] c]; nd_in Hnd.
  all: try destruct fd; cbn in Hc, He; destruct_and? He; destruct_and? Hc; cbn [cpar f_loc] in *.
  all: eexists; split; [sym; reflexivity|].
  all: cbn [heap m_root tree_at ctx_at cpar croot f_dir f_loc f_col f_kv f_sib rt].
  all: split_and?; try done; framed; try (by sym).
  all: intros l ??; by rewrite ?lookup_insert_ne by congruence.
Qed.

Lemma keeps_transplant x y s s' : transplant x y s = Some s' → keeps s s'.
Proof. unfold transplant. intros H. runs; keeps_chain. Qed.

Lemma keeps_replace z y s s' : replace_node z y s = Some s' → keeps s s'.
Proof.
  unfold replace_node. intros H. runs.
  match goal with H : transplant _ _ _ = Some _ |- _ => apply keeps_transplant in H end. keeps_chain.
Qed.

Lemma tree_at_frame (h h' : gmap loc (node K V)) p t :
  (∀ l, l ∈ locs t → h' !! l = h !! l) → tree_at h p t → tree_at h' p t.
Proof.
  revert p. induction t as [|l col kv a IHa b IHb]; intros p Hl; simpl in *; [done|].
  intros (H & ? & ?). rewrite Hl by set_solver. split_and!; [done|apply IHa|apply IHb]; auto; set_solver.
Qed.

(** [y], whose left subtree is empty, replaces [z]. *)
Lemma replace_ok s z kvz cz a rz y cy kvy py b c :
  heap s !! z = Some (Node kvz.1 kvz.2 cz (rt a) rz (cpar c)) →
  ctx_at (heap s) (Some z) c → m_root s = croot (Some z) c →
  tree_at (heap s) (Some z) a → tree_at (heap s) py (Bin y cy kvy Leaf b) →
  NoDup (z :: y :: locs a ++ locs b ++ clocs c) →
  ∃ s', replace_node (Some z) (Some y) s = Some s' ∧ rep s' (plug (Bin y cz kvy a b) c).
Proof.
  intros Hz Hc Hr Ha Hy Hnd. pose proof Hnd as Hnd'. nd_in Hnd'.
  destruct (transplant_ok s z _ (Bin y cy kvy Leaf b) py c Hz eq_refl Hc Hr Hy) as (s1 & Hs1 & Hy1 & Hc1 & Hr1 & Hf).
  { nd_solve. }
  cbn [rt] in *. unfold replace_node. rewrite Hs1. cbn [mbind option_bind].
  assert (∀ l, l ∉ clocs c → l ≠ y → heap s1 !! l = heap s !! l) as Hf'.
  { intros l Hl Hly. apply Hf; [|congruence]. destruct c as [|f c]; [done|]. simpl in *. set_solver. }
  rewrite <- (Hf' z) in Hz by done. apply (tree_at_frame _ (heap s1)) in Ha.
  2: { intros l Hl. apply Hf'; intros ?; [|by subst].
       match goal with H : disj (locs a) (clocs c) |- _ => by apply (H l) end. }
  destruct Hy1 as (Hy1 & _ & Hb). clear Hc Hr Hy Hf Hf' Hs1. destruct s1 as [h r n]. cbn [heap m_root] in *. subst r.
  destruct a as [|la ca ka a1 a2]; nd_in Hnd; cbn [rt tree_at] in *; destruct_and? Ha.
  all: eexists; split; [sym; reflexivity|].
  all: rewrite rep_plug; cbn [heap m_root tree_at rt].
  all: split; [nd_solve|]; split_and?; try done; framed; by sym.
Qed.

Lemma plug_app t c1 c2 : plug t (c1 ++ c2) = plug (plug t c1) c2.
Proof. revert t. induction c1 as [|f c1 IH]; intros t; simpl; [done|]. apply IH. Qed.
Lemma lefts_app c1 c2 : lefts (c1 ++ c2) = lefts c2 ++ lefts c1.
Proof. induction c1 as [|f c1 IH]; simpl; [by rewrite app_nil_r|]. destruct (f_dir f); rewrite IH; [done|]. by rewrite <- app_assoc. Qed.
Lemma rights_app c1 c2 : rights (c1 ++ c2) = rights c1 ++ rights c2.
Proof. induction c1 as [|f c1 IH]; simpl; [done|]. destruct (f_dir f); rewrite IH; simpl; by rewrite <- ?app_assoc. Qed.

(** The leftmost node of a subtree, as the code finds it. *)
Lemma minimum_ok s l (col : color) kv a b c fuel :
  rep s (plug (Bin l col kv a b) c) → length (locs (Bin l col kv a b)) ≤ fuel →
  ∃ y cy kvy e cb, Bin l col kv a b = plug (Bin y cy kvy Leaf e) cb ∧ lefts cb = [] ∧
    minimum_loop fuel s (Some l) = Some (Some y).
Proof.
  revert l col kv b c fuel. induction a as [|la ca ka a1 IHa a2 _]; intros l col kv b c fuel H Hf.
  - exists l, col, kv, b, []. split_and!; [done..|]. destruct fuel as [|fuel]; simpl in Hf; [lia|].
    cbn [minimum_loop]. by rewrite (ld_bin s Lft _ _ _ _ _ _ H).
  - destruct fuel as [|fuel]; [simpl in Hf; lia|].
    destruct (IHa la ca ka a2 (Frm Lft l col kv b :: c) fuel) as (y & cy & kvy & e & cb & Heq & Hl & Hm).
    { exact H. } { simpl in *. rewrite ?length_app in *; simpl in *; rewrite ?length_app in *; lia. }
    exists y, cy, kvy, e, (cb ++ [Frm Lft l col kv b]). split_and!.
    + rewrite plug_app, <- Heq. done.
    + by rewrite lefts_app, Hl.
    + cbn [minimum_loop]. rewrite (ld_bin s Lft _ _ _ _ _ _ H). exact Hm.
Qed.

Lemma take_right_ok s z kvz cz a b y kvy cy xr py c :
  rep s (plug (Bin z cz kvz a b) c) → b ≠ Leaf →
  heap s !! y = Some (Node kvy.1 kvy.2 cy None xr py) → y ∉ locs (Bin z cz kvz a b) → y ∉ clocs c →
  ∃ s', take_right (Some z) (Some y) s = Some s' ∧
    heap s' !! z = Some (Node kvz.1 kvz.2 cz (rt a) (rt b) (cpar c)) ∧
    ctx_at (heap s') (Some z) c ∧ m_root s' = croot (Some z) c ∧ tree_at (heap s') (Some z) a ∧
    tree_at (heap s') py (Bin y cy kvy Leaf b).
Proof.
  rewrite rep_plug. destruct s as [h r n]. intros (Hnd & Ht & Hc & Hr) Hb Hy Hyt Hyc. unfold take_right.
  destruct b as [|lb cb kb b1 b2]; [done|]. cbn [heap m_root] in *. subst r. nd_in Hnd. nd_in Hyt.
  cbn [rt tree_at] in *. destruct_and? Ht.
  eexists; split; [sym; reflexivity|]. cbn [heap m_root tree_at rt]. split_and!; try done; framed; by sym.
Qed.

Lemma keeps_take_right z y s s' : take_right z y s = Some s' → keeps s s'.
Proof. unfold take_right. intros H. runs; keeps_chain. Qed.

(** A store that writes back the current parent changes nothing. *)
Lemma st_opt_same s e y : tree_at (heap s) y e → st_opt s (rt e) (set_parent y) = Some s.
Proof.
  destruct e as [|l col kv a b]; [done|]. intros (H & _ & _). destruct s as [h r n]. cbn [heap] in H.
  sym. by rewrite insert_id.
Qed.

Lemma rt_plug_Some t f c : is_Some (rt (plug t (f :: c))).
Proof. rewrite rt_plug. cbn [croot]. by destruct (croot_in c (f_loc f)) as (r & -> & _). Qed.
Lemma plug_cons_ne t f c : plug t (f :: c) ≠ Leaf.
Proof. intros Heq. pose proof (rt_plug_Some t f c) as [r Hr]. by rewrite Heq in Hr. Qed.

(** The state before [y] replaces [z]: [y] heads what remains of the right subtree. *)
Definition ready s z (cz : color) (kvz : K * V) a y (cy : color) (kvy : K * V) b c : Prop :=
  (∃ rz, heap s !! z = Some (Node kvz.1 kvz.2 cz (rt a) rz (cpar c))) ∧ ctx_at (heap s) (Some z) c ∧
  m_root s = croot (Some z) c ∧ tree_at (heap s) (Some z) a ∧ ∃ py, tree_at (heap s) py (Bin y cy kvy Leaf b).

(** [y] is the right child of [z]. *)
Lemma ready_child s z cz kvz a y cy kvy e c :
  rep s (plug (Bin z cz kvz a (Bin y cy kvy Leaf e)) c) → ready s z cz kvz a y cy kvy e c.
Proof. rewrite rep_plug. intros (_ & (? & ? & ?) & ? & ?). split_and!; eauto. Qed.

(** [y] is deeper: it leaves its place to its right child and takes the right subtree. *)
Lemma ready_deep s z cz kvz a y cy kvy e f cb c :
  rep s (plug (Bin y cy kvy Leaf e) ((f :: cb) ++ Frm Rgt z cz kvz a :: c)) →
  ∃ s1 s2, transplant (Some y) (rt e) s = Some s1 ∧ take_right (Some z) (Some y) s1 = Some s2 ∧
    ready s2 z cz kvz a y cy kvy (plug e (f :: cb)) c.
Proof.
  intros H. set (C := (f :: cb) ++ Frm Rgt z cz kvz a :: c) in *.
  apply rep_plug in H as (Hnd & (Hy & _ & He) & Hc & Hr). pose proof Hnd as Hnd'. cbn [locs] in Hnd'.
  destruct (transplant_ok s y _ e (Some y) C Hy eq_refl Hc Hr He Hnd') as (s1 & Hs1 & He1 & Hc1 & Hr1 & Hf).
  apply NoDup_cons in Hnd' as [Hynot Hnd']. rewrite not_elem_of_app in Hynot. destruct Hynot as [Hye HyC].
  assert (rep s1 (plug e C)) as H1 by (apply rep_plug; split_and!; [by cbn in Hnd'|done..]).
  assert (heap s1 !! y = heap s !! y) as Hy1.
  { apply Hf; [|by apply rt_notin]. unfold C in *. simpl in *. set_solver. }
  assert (y ∉ locs (plug e C)) as HyP by (rewrite locs_plug; set_solver).
  unfold C in H1, HyP. rewrite plug_app in H1, HyP. change (y ∉ locs (plug (Bin z cz kvz a (plug e (f :: cb))) c)) in HyP.
  rewrite locs_plug, not_elem_of_app in HyP. destruct HyP as [HyP Hyc].
  destruct (take_right_ok s1 z kvz cz a (plug e (f :: cb)) y kvy cy (rt e) (cpar C) c H1) as (s2 & Hs2 & Hz2 & ? & ? & ? & ?).
  { apply plug_cons_ne. } { by rewrite Hy1. } { done. } { done. }
  exists s1, s2. split_and!; [done..|]. split_and!; eauto.
Qed.

(** Detaching the successor [y] of [z], in both situations. *)
Lemma successor_ready s z cz kvz a y cy kvy e cb c :
  rep s (plug (Bin y cy kvy Leaf e) (cb ++ Frm Rgt z cz kvz a :: c)) → z ∉ clocs cb →
  ∃ s', (if decide (cpar (cb ++ Frm Rgt z cz kvz a :: c) = Some z)
      then s ← st_opt s (rt e) (set_parent (Some y)); Some (Some y, s)
      else s ← transplant (Some y) (rt e) s; s ← take_right (Some z) (Some y) s; Some (cpar (cb ++ Frm Rgt z cz kvz a :: c), s))
    = Some (cpar (cb ++ Frm Rgt y cz kvy a :: c), s') ∧ ready s' z cz kvz a y cy kvy (plug e cb) c.
Proof.
  intros Hy Hz. destruct cb as [|f cb].
  - rewrite decide_True by done. rewrite st_opt_same; [|by apply rep_plug in Hy as (_ & (_ & _ & ?) & _)].
    cbn [mbind option_bind]. eexists. split; [done|]. by apply ready_child.
  - rewrite decide_False by (cbn in *; set_solver).
    destruct (ready_deep _ _ _ _ _ _ _ _ _ _ _ _ Hy) as (s1 & s2 & -> & Hs2 & Hr). cbn [mbind option_bind]. rewrite Hs2.
    by exists s2.
Qed.

(** Deleting a node with two children: its successor [y] replaces it. *)
Lemma unlink_two s z cz kvz a b c :
  rep s (plug (Bin z cz kvz a b) c) → a ≠ Leaf → b ≠ Leaf → length (locs b) ≤ size (heap s) →
  ∃ s' y cy kvy e cb, b = plug (Bin y cy kvy Leaf e) cb ∧ lefts cb = [] ∧
    unlink (Some z) s = Some (cy, rt e, cpar (cb ++ Frm Rgt y cz kvy a :: c), s') ∧
    rep s' (plug e (cb ++ Frm Rgt y cz kvy a :: c)).
Proof.
  intros H Ha Hb Hsz. destruct b as [|lb colb kvb b1 b2]; [done|].
  destruct (minimum_ok s lb colb kvb b1 b2 (Frm Rgt z cz kvz a :: c) (S (size (heap s))) H ltac:(lia))
    as (y & cy & kvy & e & cb & Heq & Hl & Hm).
  pose proof (ld_bin s Lft z cz kvz a _ c H) as Hldz.
  assert (rep s (plug (Bin y cy kvy Leaf e) (cb ++ Frm Rgt z cz kvz a :: c))) as Hy by (rewrite plug_app, <- Heq; exact H).
  pose proof (ld_bin s Lft y cy kvy Leaf e _ Hy) as Hldy.
  assert (NoDup (z :: y :: locs a ++ locs (plug e cb) ++ clocs c)) as Hnd.
  { apply rep_plug in H as (Hnd & _). rewrite Heq in Hnd. cbn [locs] in Hnd. rewrite !locs_plug in *. revert Hnd.
    apply NoDup_Permutation_proper. cbn [locs app]. repeat (rewrite <- app_assoc; cbn [app]). apply perm_skip.
    first [apply Permutation_middle | symmetry; apply Permutation_middle]. }
  assert (z ∉ clocs cb) as Hzcb by (apply NoDup_cons in Hnd as [Hz _]; rewrite locs_plug in Hz; set_solver).
  destruct (successor_ready _ _ _ _ _ _ _ _ _ _ _ Hy Hzcb) as (s1 & Hps & (rz & Hz) & Hc & Hr & Hta & (py & Hty)).
  destruct (replace_ok _ _ _ _ _ _ _ _ _ _ _ _ Hz Hc Hr Hta Hty Hnd) as (s2 & Hs2 & H2).
  exists s2, y, cy, kvy, e, cb. split_and!; [done|done| |by rewrite plug_app].
  unfold unlink. rewrite Hldz. destruct a as [|la ca ka a1 a2]; [done|]. cbn [mbind option_bind mknode n_left n_right rt].
  unfold minimum. rewrite Hm. cbn [mbind option_bind]. rewrite Hldy. cbn [mbind option_bind mknode n_parent n_right n_color].
  cbn [mbind option_bind] in Hps. rewrite Hps. cbn [mbind option_bind fst snd]. by rewrite Hs2.
Qed.

(** Deleting a node with at most one child. *)
Lemma unlink_one s d z cz kvz e c :
  rep s (plug (bin d z cz kvz Leaf e) c) → d = Lft ∨ e ≠ Leaf →
  ∃ s', unlink (Some z) s = Some (cz, rt e, cpar c, s') ∧ rep s' (plug e c).
Proof.
  intros H Hd. pose proof (ld_bin _ _ _ _ _ _ _ _ H) as Hld. apply rep_plug in H as (Hnd & Ht & Hc & Hr).
  rewrite locs_bin in Hnd. cbn [locs app] in Hnd. apply tree_at_bin in Ht as (Hz & _ & He). rewrite rt_bin in Hc, Hr.
  destruct (transplant_ok s z _ e (Some z) c Hz (mknode_parent _ _ _ _ _ _) Hc Hr He Hnd) as (s' & Hs' & He' & Hc' & Hr' & _).
  exists s'. split; [|apply rep_plug; split_and!; [by apply NoDup_cons in Hnd as [_ ?]|done..]].
  unfold unlink. rewrite Hld. destruct d; cbn [mbind option_bind mknode n_left n_right n_color n_parent rt].
  - by rewrite Hs'.
  - destruct e as [|le ce ke e1 e2]; [by destruct Hd|]. cbn [rt] in *. by rewrite Hs'.
Qed.

(** ** Colours *)

Lemma unplug_rb t c n : is_rb (plug t c) BLACK n →
  ∃ col m ok, is_rb t col m ∧ ctx_rb c ok m ∧ (col = RED → ok = true).
Proof.
  revert t n. induction c as [|[d l col kv sib] c IH]; intros t n H.
  { exists BLACK, n, false. split_and!; [done|constructor|done]. }
  destruct (IH _ _ H) as (col1 & m & ok & Hb & Hc & Hok). clear IH H. unfold plug1 in Hb. cbn in Hb.
  assert ((col = RED ∧ col1 = RED ∧ is_rb t BLACK m ∧ is_rb sib BLACK m) ∨
    (col = BLACK ∧ ∃ ct cs m', m = S m' ∧ is_rb t ct m' ∧ is_rb sib cs m')) as [(-> & -> & Ht & Hs)|(-> & ct & cs & m' & -> & Ht & Hs)].
  { destruct d; inversion Hb; subst; naive_solver. }
  - exists BLACK, m, false. rewrite Hok in Hc by done. split_and!; [done|by constructor|done].
  - exists ct, m', true. split_and!; [done|by econstructor|done].
Qed.

Lemma ctx_rb_rename cb d l l' (col : color) kv kv' sib c ok n :
  ctx_rb (cb ++ Frm d l col kv sib :: c) ok n → ctx_rb (cb ++ Frm d l' col kv' sib :: c) ok n.
Proof.
  revert ok n. induction cb as [|f cb IH]; intros ok n H; simpl in *; [by inversion H; subst; econstructor|].
  inversion H; subst; [constructor; auto|econstructor; eauto].
Qed.

(** After the unlinking of a node without left (or right) child, [e] is one black node short
    if the node was black. *)
Lemma removed_short d y kvy e m : is_rb (bin d y BLACK kvy Leaf e) BLACK m → ∃ n, m = S n ∧ short e n.
Proof.
  intros H. assert (∃ n ce, m = S n ∧ is_rb (K := K) (V := V) Leaf BLACK n ∧ is_rb e ce n) as (n & ce & -> & Hl & He).
  { destruct d; inversion H; subst; [|]; match goal with H : is_rb Leaf ?c _ |- _ => assert (c = BLACK) as -> by (by inversion H) end; eauto. }
  exists n. split; [done|]. destruct ce; [right|by left]. inversion He; subst. do 4 eexists. split; [done|]. by econstructor.
Qed.

Lemma removed_red d y kvy e m : is_rb (bin d y RED kvy Leaf e) RED m → is_rb e BLACK m.
Proof. destruct d; by inversion 1. Qed.
End Unlink.
