(* ===== verification/RBTreeMap.v ===== *)
(** * Red-black trees: the map operations

    [operator[]], [find], [erase], [clear] and iteration of [TMRBTreeMap], and the
    operations of [TMRBTreeMultiMap], against the in-order sequence of the elements; for
    the map with a total key order, against finite maps. *)

From Stdlib Require Import Sorting.Sorted.
From S2P Require Import Prelude RBTree RBTreeRep RBTreeInsert RBTreeErase RBTreeUnlink.

(** Lengths of concatenations. *)
Ltac lens := repeat (progress (rewrite ?length_app in *; cbn [length] in *)); lia.

Section Structure.
Context {K V : Type}.
Implicit Types (t a b e u v : tree K V) (f : frame K V) (c : list (frame K V)) (s : rbt K V) (l : list (loc * (K * V))).

(** The state represents the sequence [l] of located entries: a red-black tree with these
    nodes in order, and nothing else in the heap. *)
Definition rb_rep s l : Prop := rb_tree s l ∧ size (heap s) = length l ∧ m_size s = length l.

Lemma locs_elements t : (elements t).*1 ≡ₚ locs t.
Proof.
  induction t as [|l col kv a IHa b IHb]; simpl; [done|].
  rewrite fmap_app. simpl. rewrite IHa, IHb. symmetry. apply Permutation_middle.
Qed.

Lemma length_locs t : length (locs t) = length (elements t).
Proof. by rewrite <- locs_elements, length_fmap. Qed.

Lemma keeps_size s s' : keeps s s' → size (heap s') = size (heap s) ∧ m_size s' = m_size s.
Proof. intros [Hd ?]. split; [|done]. by rewrite <- !size_dom, Hd. Qed.

(** ** Removal *)

Lemma keeps_erase_fixup x xp s s' : erase_fixup x xp s = Some s' → keeps s s'.
Proof.
  assert (∀ d xp s r, erase_case d xp s = Some r → keeps s r.2) as Hcase.
  { clear. intros d xp s r. unfold erase_case, erase_red_sibling, erase_black_sibling, erase_finish. intros H.
    runs; repeat match goal with H : rotate _ _ _ = Some _ |- _ => apply keeps_rotate in H end; cbn [fst snd] in *; keeps_chain. }
  assert (∀ fuel x xp s r, erase_loop fuel x xp s = Some r → keeps s r.2) as Hloop.
  { clear x xp s s'. induction fuel as [|fuel IH]; intros x xp s r H; [done|]. cbn [erase_loop] in H. runs; try done.
    etrans; [by eapply Hcase|by eapply IH]. }
  unfold erase_fixup. intros H. runs.
  match goal with H : erase_loop _ _ _ _ = Some _ |- _ => apply Hloop in H end. keeps_chain.
Qed.

Lemma keeps_unlink z s r : unlink z s = Some r → keeps s r.2.
Proof.
  unfold unlink. intros H. runs;
    repeat match goal with
      | H : transplant _ _ _ = Some _ |- _ => apply keeps_transplant in H
      | H : take_right _ _ _ = Some _ |- _ => apply keeps_take_right in H
      | H : replace_node _ _ _ = Some _ |- _ => apply keeps_replace in H
      end; cbn [fst snd] in *; keeps_chain.
Qed.

(** Unlinking leaves [e] in a path [C], the place of a removed node of colour [yo]. *)
Lemma unlink_ok s z cz kvz a b c n :
  rep s (plug (Bin z cz kvz a b) c) → is_rb (plug (Bin z cz kvz a b) c) BLACK n → length (locs b) ≤ size (heap s) →
  ∃ s' yo e C d y kvy m ok, unlink (Some z) s = Some (yo, rt e, cpar C, s') ∧ rep s' (plug e C) ∧
    elements (plug e C) = lefts c ++ (elements a ++ elements b) ++ rights c ∧
    is_rb (bin d y yo kvy Leaf e) yo m ∧ ctx_rb C ok m ∧ (yo = RED → ok = true).
Proof.
  intros H Hrb Hsz. destruct (decide (rt a = None ∨ rt b = None)) as [Hone|Htwo].
  - assert (∃ d e, bin d z cz kvz Leaf e = Bin z cz kvz a b ∧ (d = Lft ∨ e ≠ Leaf) ∧ elements e = elements a ++ elements b)
      as (d & e & Heq & Hd & Hel).
    { destruct a; [exists Lft, b; by auto|]. destruct b; [|by destruct Hone]. eexists Rgt, _. split_and!; [done|by right|].
      by rewrite app_nil_r. }
    rewrite <- Heq in H, Hrb. destruct (unlink_one _ _ _ _ _ _ _ H Hd) as (s' & Hs' & H').
    destruct (unplug_rb _ _ _ Hrb) as (col & m & ok & Hb & Hc & Hok).
    assert (col = cz) as -> by (apply rb_tcol in Hb; by destruct d).
    exists s', cz, e, c, d, z, kvz, m, ok. split_and!; [done|done|by rewrite elements_plug, Hel|done..].
  - destruct (unlink_two s z cz kvz a b c H) as (s' & y & cy & kvy & e & cb & Heq & Hl & Hs' & H').
    { intros ->. naive_solver. } { intros ->. naive_solver. } { done. }
    change (plug (Bin z cz kvz a b) c) with (plug b (Frm Rgt z cz kvz a :: c)) in Hrb. rewrite Heq, <- plug_app in Hrb.
    destruct (unplug_rb _ _ _ Hrb) as (col & m & ok & Hb & Hc & Hok).
    assert (col = cy) as -> by (by apply rb_tcol in Hb).
    exists s', cy, e, (cb ++ Frm Rgt y cz kvy a :: c), Lft, y, kvy, m, ok.
    split_and!; [done|done| |done|by eapply ctx_rb_rename|done].
    rewrite Heq, !elements_plug, !lefts_app, !rights_app, Hl. simpl. repeat (rewrite <- app_assoc; simpl). done.
Qed.

Lemma length_ctx s t c : rep s (plug t c) → length (elements (plug t c)) ≤ size (heap s) → length c ≤ size (heap s).
Proof.
  intros _ Hsz. rewrite <- length_locs, locs_plug, length_app in Hsz. pose proof (length_clocs c). lia.
Qed.

(** The unlinking and rebalancing part of [erase]. *)
Lemma remove_ok s z cz kvz a b c n :
  rep s (plug (Bin z cz kvz a b) c) → is_rb (plug (Bin z cz kvz a b) c) BLACK n →
  length (elements (plug (Bin z cz kvz a b) c)) = size (heap s) →
  ∃ yo x xp s1 s2, unlink (Some z) s = Some (yo, x, xp, s1) ∧
    (if decide (yo = BLACK) then erase_fixup x xp s1 else Some s1) = Some s2 ∧ keeps s s2 ∧
    rb_tree s2 (lefts c ++ (elements a ++ elements b) ++ rights c).
Proof.
  intros H Hrb Hsz.
  assert (length (locs b) ≤ size (heap s)) as Hb.
  { rewrite elements_plug in Hsz. simpl in Hsz. rewrite !length_app in Hsz. simpl in Hsz. rewrite length_locs. lia. }
  destruct (unlink_ok _ _ _ _ _ _ _ _ H Hrb Hb) as (s1 & yo & e & C & d & y & kvy & m & ok & Hs1 & H1 & Hel & Hrm & HC & Hok).
  pose proof (keeps_unlink _ _ _ Hs1) as Hk. destruct (keeps_size _ _ Hk) as [Hsz1 _]. cbn [snd] in *.
  exists yo, (rt e), (cpar C), s1. destruct yo.
  - exists s1. split_and!; [done..|]. destruct (plug_rb e BLACK C ok m) as [n' Hn']; [by eapply removed_red|done|done|].
    exists (plug e C), n'. split_and!; [done|by destruct Hn' as [|[_ ?]]|done].
  - destruct (removed_short _ _ _ _ _ Hrm) as (n' & -> & Hshort).
    destruct (erase_fixup_ok s1 e C n' ok H1 Hshort HC) as (s2 & Hs2 & H2).
    { eapply (length_ctx _ _ _ H1). rewrite Hel, Hsz1, <- Hsz, elements_plug. simpl. rewrite !length_app. simpl. lia. }
    exists s2. rewrite Hel in H2. split_and!; [done..| |done]. etrans; [done|by eapply keeps_erase_fixup].
Qed.

(** The final [delete z]. *)
Lemma delete_ok s l z n : rb_tree s l → z ∉ l.*1 → rb_tree (RBT (delete z (heap s)) (m_root s) n) l.
Proof.
  intros (t & m & (Hnd & Ht & Hr) & Hrb & <-) Hz. rewrite locs_elements in Hz. exists t, m.
  split_and!; [split_and!; [done|by apply tree_at_delete|done]|done..].
Qed.

(** ** Insertion *)

(** The new node hangs on the side of the path's last step. *)
Definition link_side (left_of : K → K → bool) (k : K) c : Prop :=
  match c with [] => True | f :: _ => left_of k (f_kv f).1 = match f_dir f with Lft => true | Rgt => false end end.

Lemma link_ok s c z k (v : V) left_of :
  rep s (plug Leaf c) → heap s !! z = None → link_side left_of k c →
  ∃ s', link_node (Some z) (cpar c) left_of (new_node z k v s) = Some s' ∧
    rep s' (plug (Bin z RED (k, v) Leaf Leaf) c) ∧ size (heap s') = S (size (heap s)) ∧ m_size s' = m_size s.
Proof.
  intros H Hz Hside.
  assert (z ∉ clocs c) as Hzc.
  { intros Hin. destruct H as (_ & Ht & _). assert (z ∈ locs (plug Leaf c)) as Hin' by (rewrite locs_plug; set_solver).
    destruct (tree_at_locs _ _ _ _ Ht Hin') as [? ?]. congruence. }
  apply rep_plug in H as (Hnd & _ & Hc & Hr). destruct s as [h r n]. cbn [heap m_root rt] in *. subst r.
  unfold link_node, new_node. destruct c as [|[fd fl fc [fk fv] fs] c]; cbn [cpar f_loc croot].
  - eexists. split; [sym; reflexivity|]. cbn [heap m_size]. split_and!; [|by rewrite insert_insert_eq, map_size_insert_None|done].
    apply rep_plug. cbn. split_and!; [nd_solve|by sym|done..].
  - cbn in Hside, Hzc, Hc. nd_in Hnd. nd_in Hzc. destruct_and? Hc.
    assert (size (<[z := Node k v RED None None (Some fl)]> (<[z := Node k v RED None None None]> h)) = S (size h)) as Hsz
      by (by rewrite insert_insert_eq, map_size_insert_None).
    assert (∀ n, size (<[fl := n]> (<[z := Node k v RED None None (Some fl)]> (<[z := Node k v RED None None None]> h))) = S (size h)) as Hsz'.
    { intros n'. rewrite map_size_insert_Some; [done|]. rewrite !lookup_insert_ne by congruence. eauto. }
    destruct fd; (eexists; split; [sym; rewrite Hside; sym; reflexivity|]); cbn [heap m_size]; split_and!; try done.
    all: apply rep_plug; cbn [locs app clocs f_loc f_sib tree_at ctx_at rt cpar croot heap m_root]; split; [nd_solve|].
    all: split_and?; try done; framed; by sym.
Qed.
End Structure.

(** ** Ordered sequences *)

Section Sorted.
Context {A : Type} (R : A → A → Prop).

Lemma sorted_app_iff l1 l2 :
  StronglySorted R (l1 ++ l2) ↔ StronglySorted R l1 ∧ StronglySorted R l2 ∧ ∀ x y, x ∈ l1 → y ∈ l2 → R x y.
Proof.
  induction l1 as [|a l1 IH]; simpl.
  { split; [intros H; split_and!; [constructor|done|by intros ?? ?%elem_of_nil]|naive_solver]. }
  split.
  - intros [Hs Hf]%StronglySorted_inv. apply IH in Hs as (Hs1 & Hs2 & Hx). rewrite Forall_app in Hf. destruct Hf as [Hf1 Hf2].
    split_and!; [by constructor|done|]. intros x y [->|Hin]%elem_of_cons Hy; [|by apply Hx].
    rewrite Forall_forall in Hf2. by apply Hf2.
  - intros ([Hs1 Hf]%StronglySorted_inv & Hs2 & Hx). constructor.
    + apply IH. split_and!; [done..|]. intros x y Hin Hy. apply Hx; [by right|done].
    + apply Forall_app. split; [done|]. apply Forall_forall. intros y Hy. apply Hx; [by left|done].
Qed.

Lemma sorted_cons_iff a l : StronglySorted R (a :: l) ↔ StronglySorted R l ∧ Forall (R a) l.
Proof. split; [apply StronglySorted_inv|]. intros [??]. by constructor. Qed.

(** The elements around a position of a sorted sequence. *)
Lemma sorted_middle l1 a l2 :
  StronglySorted R (l1 ++ a :: l2) →
  StronglySorted R l1 ∧ StronglySorted R l2 ∧ Forall (λ x, R x a) l1 ∧ Forall (R a) l2 ∧ ∀ x y, x ∈ l1 → y ∈ l2 → R x y.
Proof.
  rewrite sorted_app_iff, sorted_cons_iff. intros (? & (? & ?) & Hx). split_and!; [done..| |done|].
  - apply Forall_forall. intros x Hin. apply Hx; [done|by left].
  - intros x y ??. apply Hx; [done|by right].
Qed.
End Sorted.

Section Search.
Context {K V : Type} (ltb : K → K → bool) `{!StrictWeakOrder ltb}.
Implicit Types (t a b e u : tree K V) (f : frame K V) (c : list (frame K V)) (s : rbt K V) (l : list (loc * (K * V))) (k : K).

Definition below k (x : loc * (K * V)) : Prop := ltb x.2.1 k = true.
Definition above k (x : loc * (K * V)) : Prop := ltb k x.2.1 = true.
Definition key_lt (x y : loc * (K * V)) : Prop := ltb x.2.1 y.2.1 = true.
Definition sorted l : Prop := StronglySorted key_lt l.

(** The position where the search for [k] ends. *)
Fixpoint zfind k t c : tree K V * list (frame K V) :=
  match t with
  | Leaf => (Leaf, c)
  | Bin l col kv a b =>
      if ltb k kv.1 then zfind k a (Frm Lft l col kv b :: c)
      else if ltb kv.1 k then zfind k b (Frm Rgt l col kv a :: c)
      else (t, c)
  end.

Fixpoint height t : nat := match t with Leaf => 0 | Bin _ _ _ a b => S (Nat.max (height a) (height b)) end.

Lemma zfind_plug k t c : plug (zfind k t c).1 (zfind k t c).2 = plug t c.
Proof.
  revert c. induction t as [|l col kv a IHa b IHb]; intros c; cbn [zfind]; [done|].
  destruct (ltb k kv.1); [by rewrite IHa|]. destruct (ltb kv.1 k); [by rewrite IHb|done].
Qed.

Lemma zfind_key k t c :
  sorted (elements t) → Forall (below k) (lefts c) → Forall (above k) (rights c) →
  Forall (below k) (lefts (zfind k t c).2) ∧ Forall (above k) (rights (zfind k t c).2) ∧
  match (zfind k t c).1 with Leaf => True | Bin _ _ kv _ _ => ltb k kv.1 = false ∧ ltb kv.1 k = false end.
Proof.
  revert c. induction t as [|l col kv a IHa b IHb]; intros c Hs Hl Hr; cbn [zfind]; [done|].
  cbn [elements] in Hs. apply sorted_middle in Hs as (Hsa & Hsb & Ha & Hb & _).
  destruct (ltb k kv.1) eqn:Hk; [apply IHa|destruct (ltb kv.1 k) eqn:Hk'; [apply IHb|done]]; try done; cbn [lefts rights f_dir].
  - constructor; [done|]. apply Forall_app. split; [|done]. eapply Forall_impl; [exact Hb|].
    intros x Hx. exact (swo_trans _ _ _ Hk Hx).
  - rewrite !Forall_app. split_and!; [done| |by constructor]. eapply Forall_impl; [exact Ha|].
    intros x Hx. exact (swo_trans _ _ _ Hx Hk').
Qed.

Lemma find_loop_ok fuel s k t c :
  rep s (plug t c) → height t < fuel → find_loop ltb fuel s k (rt t) = Some (rt (zfind k t c).1).
Proof.
  revert t c. induction fuel as [|fuel IH]; intros t c H Hf; [lia|].
  destruct t as [|l col kv a b]; [done|]. cbn [find_loop rt zfind]. rewrite (ld_bin s Lft _ _ _ _ _ _ H).
  cbn [mbind option_bind mknode n_key n_left n_right]. cbn [height] in Hf.
  destruct (ltb k kv.1); [apply (IH a (Frm Lft l col kv b :: c)); [exact H|lia]|].
  destruct (ltb kv.1 k); [apply (IH b (Frm Rgt l col kv a :: c)); [exact H|lia]|done].
Qed.

Lemma index_loop_ok fuel s k t c :
  rep s (plug t c) → height t < fuel →
  index_loop ltb fuel s k (rt t) (cpar c) =
    Some (rt (zfind k t c).1, match (zfind k t c).1 with Leaf => cpar (zfind k t c).2 | _ => rt (zfind k t c).1 end).
Proof.
  revert t c. induction fuel as [|fuel IH]; intros t c H Hf; [lia|].
  destruct t as [|l col kv a b]; [done|]. cbn [index_loop rt zfind]. rewrite (ld_bin s Lft _ _ _ _ _ _ H).
  cbn [mbind option_bind mknode n_key n_left n_right]. cbn [height] in Hf.
  destruct (ltb k kv.1); [apply (IH a (Frm Lft l col kv b :: c)); [exact H|lia]|].
  destruct (ltb kv.1 k); [apply (IH b (Frm Rgt l col kv a :: c)); [exact H|lia]|done].
Qed.

Lemma height_elements t : height t ≤ length (elements t).
Proof. induction t; simpl; [lia|]. rewrite length_app. simpl. lia. Qed.

(** Red-black trees are shallow. *)
Lemma rb_height t col n : is_rb t col n → height t ≤ 2 * n + match col with RED => 1 | BLACK => 0 end.
Proof.
  induction 1 as [|l kv a b n _ IHa _ IHb|l kv a b ca cb n _ IHa _ IHb]; simpl in *; [lia|lia|].
  destruct ca, cb; lia.
Qed.
Lemma rb_size t col n : is_rb t col n → 2 ^ n ≤ S (length (elements t)).
Proof.
  induction 1 as [|l kv a b n _ IHa _ IHb|l kv a b ca cb n _ IHa _ IHb]; cbn [elements length]; [done|..];
    rewrite length_app; cbn [length]; [lia|].
  rewrite Nat.pow_succ_r'. lia.
Qed.

Lemma rb_height_log t n : is_rb t BLACK n → height t ≤ 2 * Nat.log2 (S (length (elements t))).
Proof.
  intros H. pose proof (rb_height _ _ _ H) as Hh. cbn in Hh. pose proof (rb_size _ _ _ H) as Hs.
  assert (n ≤ Nat.log2 (S (length (elements t)))); [|lia].
  rewrite <- (Nat.log2_pow2 n) by lia. by apply Nat.log2_le_mono.
Qed.

(** ** The operations on sequences *)

Definition rb_wf s l : Prop := rb_rep s l ∧ sorted l.

Definition same_key k (kv : K * V) : Prop := ltb k kv.1 = false ∧ ltb kv.1 k = false.

Lemma locate s l k :
  rb_wf s l → ∃ t c n h, rep s (plug t c) ∧ is_rb (plug t c) BLACK n ∧ elements (plug t c) = l ∧
    Forall (below k) (lefts c) ∧ Forall (above k) (rights c) ∧
    match t with Leaf => True | Bin _ _ kv _ _ => same_key k kv end ∧
    h ≤ length l ∧ h ≤ 2 * Nat.log2 (S (length l)) ∧
    ∀ fuel, h < fuel → find_loop ltb fuel s k (m_root s) = Some (rt t) ∧
      index_loop ltb fuel s k (m_root s) None = Some (rt t, match t with Leaf => cpar c | _ => rt t end).
Proof.
  intros (((t & n & Ht & Hrb & <-) & _) & Hs). pose proof (zfind_plug k t []) as Hp.
  destruct (zfind_key k t [] Hs) as (Hl & Hr & Hk); [constructor..|]. pose proof Ht as (_ & _ & Hroot).
  exists (zfind k t []).1, (zfind k t []).2, n, (height t). rewrite Hp. cbn [plug].
  split_and!; [done..|by destruct (zfind k t []).1|apply height_elements|by eapply rb_height_log|].
  intros fuel Hf. rewrite Hroot. split; [by apply (find_loop_ok _ _ _ _ [])|by apply (index_loop_ok _ _ _ _ [])].
Qed.

Lemma sorted_insert_at l1 l2 z k v :
  sorted (l1 ++ l2) → Forall (below k) l1 → Forall (above k) l2 → sorted (l1 ++ (z, (k, v)) :: l2).
Proof.
  unfold sorted. rewrite !sorted_app_iff, sorted_cons_iff. intros (? & ? & Hx) H1 H2. split_and!; [done..|].
  rewrite Forall_forall in H1. intros x y Hin [->|Hy]%elem_of_cons; [by apply H1|by apply Hx].
Qed.

(** Adding a node at the end of a search path. *)
Lemma add_node_ok s c n z k v left_of :
  rep s (plug Leaf c) → is_rb (plug Leaf c) BLACK n → heap s !! z = None → link_side left_of k c →
  length (elements (plug Leaf c)) = size (heap s) →
  ∃ s1 s2, link_node (Some z) (cpar c) left_of (new_node z k v s) = Some s1 ∧ insert_fixup (Some z) s1 = Some s2 ∧
    rb_tree s2 (lefts c ++ (z, (k, v)) :: rights c) ∧ size (heap s2) = S (size (heap s)) ∧ m_size s2 = m_size s.
Proof.
  intros H Hrb Hz Hside Hsz. destruct (link_ok s c z k v left_of H Hz Hside) as (s1 & Hs1 & H1 & Hsz1 & Hm1).
  destruct (unplug_rb _ _ _ Hrb) as (col & m & ok & Hleaf & Hc & _). assert (m = 0) as -> by (by inversion Hleaf).
  destruct (insert_fixup_ok s1 _ z c 0 ok H1 eq_refl) as (s2 & Hs2 & H2); [by repeat constructor|done| |].
  { rewrite Hsz1, <- Hsz, <- length_locs, locs_plug. pose proof (length_clocs c). simpl. lia. }
  pose proof (keeps_size _ _ (keeps_insert_fixup _ _ _ Hs2)) as [??].
  exists s1, s2. split_and!; [done..| |congruence|congruence]. by rewrite elements_plug in H2.
Qed.

Lemma rb_index_ok s l k z dflt :
  rb_wf s l → heap s !! z = None →
  (∃ x kv l1 l2, rb_index ltb dflt z s k = Some (x, s) ∧ l = l1 ++ (x, kv) :: l2 ∧ same_key k kv) ∨
  (∃ s' l1 l2, rb_index ltb dflt z s k = Some (z, s') ∧ l = l1 ++ l2 ∧ Forall (below k) l1 ∧ Forall (above k) l2 ∧
    rb_wf s' (l1 ++ (z, (k, dflt)) :: l2)).
Proof.
  intros Hwf Hz. destruct (locate s l k Hwf) as (t & c & n & h & Ht & Hrb & Hel & Hl & Hr & Hk & Hh & _ & Hloop).
  destruct Hwf as ((_ & Hsz & Hm) & Hs). unfold rb_index. destruct (Hloop (S (size (heap s))) ltac:(lia)) as [_ ->].
  cbn [mbind option_bind]. rewrite <- Hel, elements_plug in *. destruct t as [|x col kv a b]; cbn [rt elements] in *.
  - right. destruct (add_node_ok s c n z k dflt ltb) as (s1 & s2 & -> & Hs2 & H2 & Hsz2 & Hm2); [done..| |by rewrite elements_plug|].
    { destruct c as [|f c]; [done|]. cbn [link_side lefts rights] in *. destruct (f_dir f).
      - apply Forall_cons in Hr as [Hr _]. exact Hr.
      - rewrite !Forall_app, Forall_singleton in Hl. destruct Hl as (_ & _ & Hl). unfold below in Hl. cbn in Hl.
        destruct (ltb k (f_kv f).1) eqn:Hc; [|done]. pose proof (swo_trans _ _ _ Hc Hl) as Hkk. by rewrite swo_irrefl in Hkk. }
    cbn [mbind option_bind]. rewrite Hs2. cbn [mbind option_bind].
    eexists _, (lefts c), (rights c). split_and!; [done..|]. split; [|by apply sorted_insert_at].
    split_and!; [done| |]; cbn [heap m_size with_size]; rewrite ?length_app in *; cbn [length] in *; lia.
  - left. exists x, kv, (lefts c ++ elements a), (elements b ++ rights c). split_and!; [done| |done].
    by rewrite <- !app_assoc.
Qed.

Lemma rep_NoDup s t : rep s t → NoDup (elements t).*1.
Proof. intros (Hnd & _). by rewrite locs_elements. Qed.

Lemma sorted_remove l1 x l2 : sorted (l1 ++ x :: l2) → sorted (l1 ++ l2).
Proof. unfold sorted. rewrite !sorted_app_iff, sorted_cons_iff. intros (? & (? & _) & Hx). split_and!; [done..|]. set_solver. Qed.

Lemma rb_erase_ok s l k :
  rb_wf s l →
  (∃ x kv l1 l2 s', rb_erase ltb s k = Some (1, s') ∧ l = l1 ++ (x, kv) :: l2 ∧ same_key k kv ∧ rb_wf s' (l1 ++ l2)) ∨
  (∃ l1 l2, rb_erase ltb s k = Some (0, s) ∧ l = l1 ++ l2 ∧ Forall (below k) l1 ∧ Forall (above k) l2).
Proof.
  intros Hwf. destruct (locate s l k Hwf) as (t & c & n & h & Ht & Hrb & Hel & Hl & Hr & Hk & Hh & _ & Hloop).
  destruct Hwf as ((_ & Hsz & Hm) & Hs). unfold rb_erase. destruct (Hloop (S (size (heap s))) ltac:(lia)) as [-> _].
  cbn [mbind option_bind]. destruct t as [|x col kv a b]; cbn [rt].
  - right. exists (lefts c), (rights c). split_and!; [done| |done..]. by rewrite <- Hel, elements_plug.
  - left. destruct (remove_ok s x col kv a b c n Ht Hrb) as (yo & x' & xp & s1 & s2 & -> & Hs2 & Hk2 & H2); [by rewrite Hel|].
    cbn [mbind option_bind]. rewrite Hs2. cbn [mbind option_bind]. destruct (keeps_size _ _ Hk2) as [Hsz2 Hm2].
    pose proof (rep_NoDup _ _ Ht) as Hnd. rewrite elements_plug in Hel, Hnd. cbn [elements] in Hel, Hnd.
    exists x, kv, (lefts c ++ elements a), (elements b ++ rights c). eexists.
    assert (l = (lefts c ++ elements a) ++ (x, kv) :: elements b ++ rights c) as -> by (rewrite <- Hel; by rewrite <- !app_assoc).
    split_and!; [done..|]. split; [|by eapply sorted_remove].
    replace ((lefts c ++ elements a) ++ elements b ++ rights c) with (lefts c ++ (elements a ++ elements b) ++ rights c) by (by rewrite <- !app_assoc).
    assert (is_Some (heap s2 !! x)) as [nx Hx].
    { apply elem_of_dom. rewrite (proj1 Hk2). apply elem_of_dom. eexists. by apply (tree_loc s Lft _ _ _ _ _ _ Ht). }
    split_and!; [apply delete_ok; [done|]| |]; cbn [heap m_size].
    + revert Hnd. rewrite !fmap_app, !fmap_cons. cbn [fst]. rewrite <- !app_assoc, (Permutation_app_comm (lefts c).*1).
      rewrite <- app_assoc. cbn. intros Hnd. nd_in Hnd. intros Hin. set_solver.
    + rewrite map_size_delete_Some by eauto. lens.
    + rewrite Hm2, Hm. lens.
Qed.

(** The node at a position of the sequence, in the tree. *)
Lemma focus t c l1 x kv l2 :
  elements t = l1 ++ (x, kv) :: l2 →
  ∃ col a b c', plug t c = plug (Bin x col kv a b) c' ∧
    lefts c ++ l1 = lefts c' ++ elements a ∧ l2 ++ rights c = elements b ++ rights c'.
Proof.
  revert c l1 l2. induction t as [|y col ky a IHa b IHb]; intros c l1 l2 H; simpl in H; [by destruct l1|].
  apply app_eq_inv in H as [(k & Ha & Hk)|(k & -> & Hk)]; destruct k as [|e k]; simplify_eq/=.
  - rewrite app_nil_r in Ha. subst l1. by exists col, a, b, c.
  - destruct (IHa (Frm Lft y col ky b :: c) _ _ Ha) as (col' & a' & b' & c' & Hp & Hl & Hr).
    exists col', a', b', c'. split_and!; [done..|]. rewrite <- Hr. simpl. by rewrite <- app_assoc.
  - rewrite app_nil_r. by exists col, a, b, c.
  - match goal with H : elements b = _ |- _ => destruct (IHb (Frm Rgt y col ky a :: c) _ _ H) as (col' & a' & b' & c' & Hp & Hl & Hr) end.
    exists col', a', b', c'. split_and!; [done| |done]. rewrite <- Hl. simpl. by rewrite <- !app_assoc.
Qed.

Lemma focus_rep s l1 x kv l2 :
  rb_tree s (l1 ++ (x, kv) :: l2) → ∃ col a b c n, rep s (plug (Bin x col kv a b) c) ∧
    is_rb (plug (Bin x col kv a b) c) BLACK n ∧ l1 = lefts c ++ elements a ∧ l2 = elements b ++ rights c.
Proof.
  intros (t & n & Ht & Hrb & Hel). destruct (focus t [] _ _ _ _ Hel) as (col & a & b & c & Hp & Hl & Hr).
  rewrite app_nil_r in Hr. cbn [plug] in Hp. subst t. by exists col, a, b, c, n.
Qed.

Lemma plug_rb_cong t t' c n :
  (∀ col m, is_rb t col m → is_rb t' col m) → is_rb (plug t c) BLACK n → is_rb (plug t' c) BLACK n.
Proof.
  revert t t' n. induction c as [|f c IH]; intros t t' n Hcong H; [by apply Hcong|]. cbn [plug] in *.
  eapply IH; [|exact H]. intros col m. unfold plug1. destruct (f_dir f); inversion 1; subst; econstructor; eauto.
Qed.

(** Assigning the value of a node. *)
Lemma set_val_ok s l1 x k v v' l2 :
  rb_tree s (l1 ++ (x, (k, v)) :: l2) →
  ∃ s', st s (Some x) (set_val v') = Some s' ∧ keeps s s' ∧ rb_tree s' (l1 ++ (x, (k, v')) :: l2).
Proof.
  intros H. destruct (focus_rep _ _ _ _ _ H) as (col & a & b & c & n & Ht & Hrb & -> & ->).
  pose proof (tree_loc s Lft _ _ _ _ _ _ Ht) as Hx.
  assert (st s (Some x) (set_val v') = Some (with_heap s (<[x := Node k v' col (rt a) (rt b) (cpar c)]> (heap s)))) as Hs
    by (unfold st; cbn [mbind option_bind]; by rewrite Hx).
  eexists. split; [done|]. split; [by eapply keeps_st|]. exists (plug (Bin x col (k, v') a b) c), n. split_and!.
  - apply rep_plug in Ht as (Hnd & Ht & Hc & Hr). apply rep_plug. pose proof Hnd as Hnd'. nd_in Hnd'.
    cbn [tree_at] in Ht. destruct_and? Ht. cbn [tree_at heap with_heap m_root]. split_and!; try done; framed. by sym.
  - eapply plug_rb_cong; [|exact Hrb]. inversion 1; subst; econstructor; eauto.
  - rewrite elements_plug. simpl. by rewrite <- !app_assoc.
Qed.
End Search.

(** ** Iteration and clearing *)

Section Iterate.
Context {K V : Type}.
Implicit Types (t a b e u : tree K V) (f : frame K V) (c : list (frame K V)) (s : rbt K V) (l : list (loc * (K * V))).

Lemma minimum_head s t c : rep s (plug t c) → length (locs t) ≤ size (heap s) → minimum s (rt t) = Some (fst <$> head (elements t)).
Proof.
  intros H Hsz. destruct t as [|l col kv a b]; [done|]. unfold minimum.
  destruct (minimum_ok s l col kv a b c (S (size (heap s))) H ltac:(lia)) as (y & cy & kvy & e & cb & Heq & Hl & Hm).
  cbn [rt]. rewrite Hm, Heq, elements_plug, Hl. done.
Qed.

Lemma up_loop_ok fuel s t m c :
  rep s (plug t c) → rt t = Some m → length c < fuel → up_loop fuel s (Some m) (cpar c) = Some (fst <$> head (rights c)).
Proof.
  revert t m c. induction fuel as [|fuel IH]; intros t m c H Hm Hf; [lia|].
  destruct c as [|[d p col kv sib] c]; [done|]. pose proof (rep_up _ _ _ _ _ _ _ _ H) as Hp.
  cbn [up_loop cpar f_loc rights f_dir]. ldb Hp. destruct d; cbn [mknode n_right n_parent].
  - rewrite decide_False; [done|]. by apply (rep_sib _ _ _ _ _ H).
  - rewrite decide_True by done. apply (IH (bin Rgt p col kv t sib)); [done..|]. simpl in Hf. lia.
Qed.

Lemma head_elements_app (x : loc) (col : color) kv a b (r : list (loc * (K * V))) :
  head (elements (Bin x col kv a b) ++ r) = head (elements (Bin x col kv a b)).
Proof. simpl. by destruct (elements a). Qed.

Lemma rb_begin_ok s l : rb_rep s l → rb_begin s = Some (fst <$> head l).
Proof.
  intros ((t & n & Ht & Hrb & <-) & Hsz & _). pose proof Ht as (_ & _ & Hr). unfold rb_begin. rewrite Hr.
  rewrite <- (minimum_head s t [] Ht) by (rewrite length_locs; lia). by destruct t.
Qed.

Lemma rb_next_ok s l1 x kv l2 :
  rb_rep s (l1 ++ (x, kv) :: l2) → rb_next s (Some x) = Some (fst <$> head l2).
Proof.
  intros (H & Hsz & _). destruct (focus_rep _ _ _ _ _ H) as (col & a & b & c & n & Ht & Hrb & -> & ->).
  unfold rb_next. rewrite (ld_bin s Lft _ _ _ _ _ _ Ht). cbn [mbind option_bind mknode n_right n_parent].
  destruct b as [|lb cb kb b1 b2].
  - cbn [rt elements app]. apply (up_loop_ok _ _ (Bin x col kv a Leaf)); [done..|].
    pose proof (length_clocs c). apply le_n_S. rewrite Hsz. transitivity (length (clocs c)); [done|].
    assert (length (locs (plug (Bin x col kv a Leaf) c)) = length (elements (plug (Bin x col kv a Leaf) c))) as Hl by apply length_locs.
    rewrite locs_plug, elements_plug in Hl. cbn [locs elements] in Hl. lens.
  - cbn [rt]. change (Some lb) with (rt (Bin lb cb kb b1 b2)).
    rewrite (minimum_head s _ (Frm Rgt x col kv a :: c) Ht); [by rewrite head_elements_app|].
    rewrite Hsz, length_locs. lens.
Qed.

(** [clear_subtree] frees exactly the nodes of the subtree. *)
Lemma clear_subtree_ok fuel s t p :
  tree_at (heap s) p t → NoDup (locs t) → height t < fuel →
  ∃ s', clear_subtree fuel (rt t) s = Some s' ∧ m_root s' = m_root s ∧
    (∀ x, x ∈ locs t → heap s' !! x = None) ∧ (∀ x, x ∉ locs t → heap s' !! x = heap s !! x).
Proof.
  revert s t p. induction fuel as [|fuel IH]; intros s t p Ht Hnd Hf; [lia|].
  destruct t as [|l col kv a b]; [exists s; split_and!; [done..|by intros ? ?%elem_of_nil|done]|].
  destruct Ht as (Hl & Ha & Hb). cbn [locs height] in *. nd_in Hnd. cbn [clear_subtree rt]. unfold ld. cbn [mbind option_bind]. rewrite Hl.
  cbn [mbind option_bind n_left n_right].
  destruct (IH s a (Some l)) as (s1 & -> & Hr1 & Hin1 & Hout1); [done..|lia|].
  cbn [mbind option_bind]. rewrite Hout1, Hl by done. cbn [mbind option_bind n_right].
  destruct (IH s1 b (Some l)) as (s2 & -> & Hr2 & Hin2 & Hout2); [|done|lia|].
  { eapply tree_at_frame; [|exact Hb]. intros x Hx. apply Hout1. intros Hxa.
    match goal with H : disj (locs a) (locs b) |- _ => by apply (H x) end. }
  cbn [mbind option_bind]. rewrite Hout2, Hout1, Hl by done. cbn [mbind option_bind].
  eexists. split; [done|]. cbn [m_root with_heap heap]. split_and!; [congruence| |].
  - intros x Hx. destruct (decide (x = l)) as [->|Hne]; [apply lookup_delete_eq|]. rewrite lookup_delete_ne by done.
    destruct (decide (x ∈ locs b)) as [?|Hxb]; [by apply Hin2|]. rewrite Hout2 by done. apply Hin1. set_solver.
  - intros x Hx. rewrite not_elem_of_cons, not_elem_of_app in Hx. destruct Hx as (? & ? & ?).
    rewrite lookup_delete_ne by done. by rewrite Hout2, Hout1.
Qed.

(** Nothing but the nodes of the tree is in the heap. *)
Lemma exact_heap s t x : rep s t → size (heap s) = length (elements t) → is_Some (heap s !! x) → x ∈ locs t.
Proof.
  intros (Hnd & Ht & _) Hsz Hx. rewrite <- length_locs in Hsz.
  assert (list_to_set (C := gset loc) (locs t) = dom (heap s)) as Heq.
  { apply set_subseteq_size_eq.
    - intros y Hy%elem_of_list_to_set. apply elem_of_dom. by eapply tree_at_locs.
    - rewrite size_dom, Hsz, size_list_to_set by done. done. }
  apply elem_of_dom in Hx. rewrite <- Heq in Hx. by apply elem_of_list_to_set in Hx.
Qed.

Lemma rb_clear_ok s l : rb_rep s l → rb_clear s = Some new_rbt.
Proof.
  intros ((t & n & Ht & Hrb & <-) & Hsz & _). pose proof Ht as (Hnd & Htr & Hr). unfold rb_clear. rewrite Hr.
  destruct (clear_subtree_ok (S (size (heap s))) s t None Htr Hnd) as (s' & -> & _ & Hin & Hout).
  { rewrite Hsz. pose proof (height_elements t). lia. }
  cbn [mbind option_bind]. unfold new_rbt. repeat f_equal. apply map_empty. intros x.
  destruct (decide (x ∈ locs t)) as [?|Hx]; [by apply Hin|]. rewrite Hout by done.
  destruct (heap s !! x) eqn:Hs; [|done]. exfalso. apply Hx. eapply exact_heap; eauto.
Qed.
End Iterate.
