(* ===== verification/RBTreeSpec.v ===== *)
(** * Red-black trees: specifications

    [TMRBTreeMap] refines finite maps, keeps its nodes in place, works in logarithmic
    depth and iterates in key order; [TMRBTreeMultiMap] refines sorted sequences. *)

From Stdlib Require Import Sorting.Sorted.
From S2P Require Import Prelude RBTree RBTreeRep RBTreeInsert RBTreeErase RBTreeUnlink RBTreeMap.

(** ** The map *)

Section Map.
Context {K V : Type} `{!EqDecision K, !Countable K} (ltb : K → K → bool) `{!StrictTotalOrder ltb}.
Implicit Types (s : rbt K V) (l : list (loc * (K * V))) (k : K).

(** The finite map of a sequence of located entries. *)
Definition to_map l : gmap K V := list_to_map l.*2.

Lemma same_key_eq k (kv : K * V) : same_key ltb k kv → kv.1 = k.
Proof. intros [??]. symmetry. by apply sto_total. Qed.

Lemma sorted_NoDup l : sorted ltb l → NoDup (l.*2).*1.
Proof.
  unfold sorted. induction 1 as [|[x kv] l Hs IH Hf]; simpl; constructor; [|done]. intros Hin.
  rewrite <- list_fmap_compose in Hin. apply list_elem_of_fmap in Hin as (y & Hy & Hin).
  rewrite Forall_forall in Hf. specialize (Hf _ Hin). unfold key_lt in Hf. cbn in *. rewrite Hy, swo_irrefl in Hf. done.
Qed.

Lemma to_map_insert l1 x k v l2 :
  NoDup ((l1 ++ (x, (k, v)) :: l2).*2).*1 → to_map (l1 ++ (x, (k, v)) :: l2) = <[k := v]> (to_map (l1 ++ l2)).
Proof.
  intros Hnd. unfold to_map. rewrite <- list_to_map_cons. apply list_to_map_proper; [done|].
  rewrite !fmap_app. cbn. symmetry. apply Permutation_middle.
Qed.

Lemma to_map_None l1 k l2 :
  Forall (below ltb k) l1 → Forall (above ltb k) l2 → to_map (l1 ++ l2) !! k = None.
Proof.
  intros H1 H2. apply not_elem_of_list_to_map. rewrite <- list_fmap_compose. intros (y & Hy & Hin)%list_elem_of_fmap.
  cbn in Hy. rewrite Forall_forall in H1, H2. apply elem_of_app in Hin as [Hin|Hin].
  - specialize (H1 _ Hin). unfold below in H1. by rewrite <- Hy, swo_irrefl in H1.
  - specialize (H2 _ Hin). unfold above in H2. by rewrite <- Hy, swo_irrefl in H2.
Qed.

Lemma to_map_remove l1 x k v l2 :
  NoDup ((l1 ++ (x, (k, v)) :: l2).*2).*1 → to_map (l1 ++ l2) = delete k (to_map (l1 ++ (x, (k, v)) :: l2)).
Proof.
  intros Hnd. rewrite to_map_insert by done. rewrite delete_insert_id; [done|].
  apply not_elem_of_list_to_map. rewrite !fmap_app in *. cbn in Hnd. rewrite <- Permutation_middle in Hnd.
  by apply NoDup_cons in Hnd as [? _].
Qed.

Lemma to_map_lookup l1 x k v l2 :
  NoDup ((l1 ++ (x, (k, v)) :: l2).*2).*1 → to_map (l1 ++ (x, (k, v)) :: l2) !! k = Some v.
Proof. intros Hnd. rewrite to_map_insert by done. apply lookup_insert_eq. Qed.

(** Where the search ends tells whether the key is mapped. *)
Lemma zfind_to_map k (t : tree K V) :
  sorted ltb (elements t) →
  match rt (zfind ltb k t []).1 with
  | None => to_map (elements t) !! k = None
  | Some x => ∃ v, (x, (k, v)) ∈ elements t ∧ to_map (elements t) !! k = Some v
  end.
Proof.
  intros Hs. pose proof (zfind_plug ltb k t []) as Hp. destruct (zfind_key ltb k t [] Hs) as (Hl & Hr & Hk); [constructor..|].
  cbn [plug] in Hp. destruct (zfind ltb k t []) as [t' c]. cbn [fst snd] in *. subst t. rewrite elements_plug in *.
  destruct t' as [|x col [k' v] a b]; cbn [rt elements] in *; [by apply to_map_None|].
  apply same_key_eq in Hk. cbn in Hk. subst k'. exists v. rewrite <- app_assoc, (app_assoc (lefts c)) in *. cbn [app] in *.
  split; [set_solver|]. by apply to_map_lookup, sorted_NoDup.
Qed.

Lemma rb_find_map s l k :
  rb_wf ltb s l → ∃ p, rb_find ltb s k = Some p ∧
    match p with None => to_map l !! k = None | Some x => ∃ v, (x, (k, v)) ∈ l ∧ to_map l !! k = Some v end.
Proof.
  intros (((t & n & Ht & Hrb & <-) & Hsz & _) & Hs). pose proof Ht as (_ & _ & Hr). exists (rt (zfind ltb k t []).1).
  unfold rb_find. rewrite Hr. split; [|by apply zfind_to_map].
  apply (find_loop_ok ltb _ s k t []); [done|]. pose proof (height_elements t). lia.
Qed.

Lemma rb_index_map s l k z dflt :
  rb_wf ltb s l → heap s !! z = None → ∃ x s' l', rb_index ltb dflt z s k = Some (x, s') ∧ rb_wf ltb s' l' ∧
    to_map l' = match to_map l !! k with Some _ => to_map l | None => <[k := dflt]> (to_map l) end ∧
    (x, (k, default dflt (to_map l !! k))) ∈ l' ∧ (∀ e, e ∈ l → e ∈ l').
Proof.
  intros Hwf Hz. pose proof Hwf as [_ Hs].
  destruct (rb_index_ok ltb s l k z dflt Hwf Hz) as [(x & [k' v] & l1 & l2 & Hi & -> & Hk%same_key_eq)|(s' & l1 & l2 & Hi & -> & H1 & H2 & Hwf')].
  - cbn in Hk. subst k'. exists x, s, (l1 ++ (x, (k, v)) :: l2). rewrite to_map_lookup by (by apply sorted_NoDup).
    split_and!; [done..|set_solver|done].
  - exists z, s', (l1 ++ (z, (k, dflt)) :: l2). rewrite to_map_None by done.
    split_and!; [done..| |set_solver|set_solver]. apply to_map_insert, sorted_NoDup. by destruct Hwf'.
Qed.

Lemma rb_set_map s l k z dflt v :
  rb_wf ltb s l → heap s !! z = None →
  ∃ s' l', rb_set ltb dflt z s k v = Some s' ∧ rb_wf ltb s' l' ∧ to_map l' = <[k := v]> (to_map l).
Proof.
  intros Hwf Hz. destruct (rb_index_map s l k z dflt Hwf Hz) as (x & s1 & l1 & Hi & ((Ht & Hsz & Hm) & Hs) & Hmap & Hin & _).
  apply list_elem_of_split in Hin as (la & lb & ->).
  destruct (set_val_ok s1 la x k _ v lb Ht) as (s2 & Hs2 & Hk & H2). destruct (keeps_size _ _ Hk) as [??].
  exists s2, (la ++ (x, (k, v)) :: lb). unfold rb_set. rewrite Hi. cbn [mbind option_bind fst snd].
  assert (sorted ltb (la ++ (x, (k, v)) :: lb)) as Hs'.
  { unfold sorted in *. rewrite !sorted_app_iff, !sorted_cons_iff in *. destruct Hs as (? & (? & ?) & Hx).
    split_and!; [done..|]. intros y1 y2 Hy1 [->|Hy2]%elem_of_cons; [|apply Hx; [done|by right]].
    by apply (Hx y1 _ Hy1 (list_elem_of_here _ _)). }
  split_and!; [done| |].
  - split; [|done]. split_and!; [done|rewrite ?length_app in *; cbn [length] in *; lia..].
  - rewrite to_map_insert by (by apply sorted_NoDup). apply sorted_NoDup in Hs. rewrite to_map_insert in Hmap by done.
    apply (f_equal (insert k v)) in Hmap. rewrite insert_insert_eq in Hmap. rewrite Hmap.
    destruct (to_map l !! k); [done|]. by rewrite insert_insert_eq.
Qed.

Lemma rb_erase_map s l k :
  rb_wf ltb s l → ∃ s' l', rb_erase ltb s k = Some (if decide (is_Some (to_map l !! k)) then 1 else 0, s') ∧
    rb_wf ltb s' l' ∧ to_map l' = delete k (to_map l) ∧ (∀ e, e ∈ l' → e ∈ l).
Proof.
  intros Hwf. pose proof Hwf as [_ Hs].
  destruct (rb_erase_ok ltb s l k Hwf) as [(x & [k' v] & l1 & l2 & s' & He & -> & Hk%same_key_eq & Hwf')|(l1 & l2 & He & -> & H1 & H2)].
  - cbn in Hk. subst k'. exists s', (l1 ++ l2). rewrite to_map_lookup by (by apply sorted_NoDup).
    rewrite decide_True by done. split_and!; [done..| |set_solver]. apply to_map_remove. by apply sorted_NoDup.
  - exists s, (l1 ++ l2). rewrite to_map_None by done. rewrite decide_False by (by intros [??]). split_and!; [done..| |done].
    symmetry. apply delete_id. by apply to_map_None.
Qed.
End Map.

(** ** The multimap *)

Section MultiMap.
Context {K V : Type} (ltb : K → K → bool) `{!StrictWeakOrder ltb}.
Implicit Types (t a b : tree K V) (c : list (frame K V)) (s : rbt K V) (l : list (loc * (K * V))) (k : K).

Definition key_le (x y : loc * (K * V)) : Prop := ltb y.2.1 x.2.1 = false.
Definition not_below k (x : loc * (K * V)) : Prop := ltb x.2.1 k = false.
Definition rbm_wf s l : Prop := rb_rep s l ∧ StronglySorted key_le l.

Fixpoint zlower k t c : list (frame K V) :=
  match t with
  | Leaf => c
  | Bin l col kv a b =>
      if negb (ltb kv.1 k) then zlower k a (Frm Lft l col kv b :: c) else zlower k b (Frm Rgt l col kv a :: c)
  end.

Lemma zlower_plug k t c : plug Leaf (zlower k t c) = plug t c.
Proof. revert c. induction t as [|l col kv a IHa b IHb]; intros c; cbn [zlower]; [done|]. destruct (negb _); by rewrite ?IHa, ?IHb. Qed.

Lemma zlower_key k t c :
  StronglySorted key_le (elements t) → Forall (below ltb k) (lefts c) → Forall (not_below k) (rights c) →
  Forall (below ltb k) (lefts (zlower k t c)) ∧ Forall (not_below k) (rights (zlower k t c)).
Proof.
  revert c. induction t as [|l col kv a IHa b IHb]; intros c Hs Hl Hr; cbn [zlower]; [done|].
  cbn [elements] in Hs. apply sorted_middle in Hs as (Hsa & Hsb & Ha & Hb & _).
  destruct (ltb kv.1 k) eqn:Hk; cbn [negb]; [apply IHb|apply IHa]; try done; cbn [lefts rights f_dir].
  - rewrite !Forall_app. split_and!; [done| |by constructor]. eapply Forall_impl; [exact Ha|]. intros x Hx. unfold below.
    destruct (ltb x.2.1 k) eqn:Hxk; [done|]. pose proof (swo_incomp _ _ _ Hx Hxk) as Hkk. cbn in Hkk. congruence.
  - constructor; [done|]. apply Forall_app. split; [|done]. eapply Forall_impl; [exact Hb|]. intros x Hx.
    exact (swo_incomp _ _ _ Hx Hk).
Qed.

Lemma descend_ok fuel s k t c :
  rep s (plug t c) → height t < fuel → descend ltb fuel s k (rt t) (cpar c) = Some (cpar (zlower k t c)).
Proof.
  revert t c. induction fuel as [|fuel IH]; intros t c H Hf; [lia|].
  destruct t as [|l col kv a b]; [done|]. cbn [descend rt zlower]. rewrite (ld_bin s Lft _ _ _ _ _ _ H).
  cbn [mbind option_bind mknode n_key n_left n_right]. cbn [height] in Hf. destruct (negb _).
  - apply (IH a (Frm Lft l col kv b :: c)); [exact H|lia].
  - apply (IH b (Frm Rgt l col kv a :: c)); [exact H|lia].
Qed.

Lemma lower_loop_ok fuel s k t c :
  rep s (plug t c) → height t < fuel →
  lower_loop ltb fuel s k (rt t) (fst <$> head (rights c)) = Some (fst <$> head (rights (zlower k t c))).
Proof.
  revert t c. induction fuel as [|fuel IH]; intros t c H Hf; [lia|].
  destruct t as [|l col kv a b]; [done|]. cbn [lower_loop rt zlower]. rewrite (ld_bin s Lft _ _ _ _ _ _ H).
  cbn [mbind option_bind mknode n_key n_left n_right]. cbn [height] in Hf. destruct (negb _).
  - apply (IH a (Frm Lft l col kv b :: c)); [exact H|lia].
  - apply (IH b (Frm Rgt l col kv a :: c)); [exact H|lia].
Qed.

Lemma rbm_ok s l k :
  rbm_wf s l → ∃ c n l1 l2, rep s (plug Leaf c) ∧ is_rb (plug Leaf c) BLACK n ∧ l = l1 ++ l2 ∧ l1 = lefts c ∧ l2 = rights c ∧
    Forall (below ltb k) l1 ∧ Forall (not_below k) l2 ∧
    descend ltb (S (size (heap s))) s k (m_root s) None = Some (cpar c) ∧
    rbm_lower_bound ltb s k = Some (fst <$> head l2).
Proof.
  intros (((t & n & Ht & Hrb & <-) & Hsz & _) & Hs). pose proof Ht as (_ & _ & Hr). pose proof (height_elements t) as Hh.
  pose proof (zlower_plug k t []) as Hp. cbn [plug] in Hp.
  destruct (zlower_key k t [] Hs) as [H1 H2]; [constructor..|].
  exists (zlower k t []), n, (lefts (zlower k t [])), (rights (zlower k t [])). rewrite Hp, Hr. split_and!; try done.
  - by rewrite <- Hp at 1; rewrite elements_plug.
  - apply (descend_ok _ _ _ _ []); [done|lia].
  - unfold rbm_lower_bound. rewrite Hr. apply (lower_loop_ok _ _ _ _ []); [done|lia].
Qed.

Lemma rbm_insert_ok s l1 l2 c n z k v :
  rb_rep s (l1 ++ l2) → StronglySorted key_le (l1 ++ l2) → rep s (plug Leaf c) → is_rb (plug Leaf c) BLACK n →
  l1 = lefts c → l2 = rights c → Forall (below ltb k) l1 → Forall (not_below k) l2 →
  descend ltb (S (size (heap s))) s k (m_root s) None = Some (cpar c) → heap s !! z = None →
  ∃ s', rbm_insert ltb z s k v = Some s' ∧ rbm_wf s' (l1 ++ (z, (k, v)) :: l2).
Proof.
  intros (_ & Hsz & Hm) Hs Hc Hrb -> -> H1 H2 Hd Hz. unfold rbm_insert, rbm_insert_fixup. rewrite Hd. cbn [mbind option_bind].
  destruct (add_node_ok s c n z k v (λ kz kp, negb (ltb kp kz))) as (s1 & s2 & -> & Hs2 & Ht2 & Hsz2 & Hm2); [done..| |by rewrite elements_plug|].
  { destruct c as [|f c]; [done|]. cbn [link_side lefts rights] in *. destruct (f_dir f).
    - apply Forall_cons in H2 as [H2 _]. unfold not_below in H2. cbn in H2. by rewrite H2.
    - rewrite !Forall_app, Forall_singleton in H1. destruct H1 as (_ & _ & H1). unfold below in H1. cbn in H1. by rewrite H1. }
  cbn [mbind option_bind]. rewrite Hs2. cbn [mbind option_bind]. eexists. split; [done|]. split.
  - split_and!; [done| |]; cbn [heap m_size with_size]; rewrite ?length_app in *; cbn [length] in *; lia.
  - rewrite !sorted_app_iff, sorted_cons_iff in *. destruct Hs as (? & ? & Hx). split_and!; [done..|].
    rewrite Forall_forall in H1. intros x y Hxin [->|Hy]%elem_of_cons; [|by apply Hx]. specialize (H1 _ Hxin). unfold below in H1.
    unfold key_le. cbn. destruct (ltb k x.2.1) eqn:Hkx; [|done]. pose proof (swo_trans _ _ _ Hkx H1) as Hkk.
    by rewrite swo_irrefl in Hkk.
Qed.
End MultiMap.

(** ** Properties *)

Lemma rb_walk_ok {K V} (s : rbt K V) fuel l1 l2 :
  rb_rep s (l1 ++ l2) → length l2 < fuel → rb_walk fuel s (fst <$> head l2) = Some l2.*1.
Proof.
  revert fuel l1. induction l2 as [|[x kv] l2 IH]; intros fuel l1 H Hf; (destruct fuel as [|fuel]; [simpl in Hf; lia|]); [done|].
  cbn [rb_walk head fmap option_fmap option_map fst]. rewrite (rb_next_ok s l1 x kv l2 H). cbn [mbind option_bind].
  rewrite (IH fuel (l1 ++ [(x, kv)])); [done|by rewrite <- app_assoc|simpl in Hf; lia].
Qed.

(** C10: [TMRBTreeMap] implements a finite map.  On a heap that holds exactly a red-black
    tree whose in-order sequence is sorted, [find], [operator[]] (insertion with
    rebalancing), assignment through the returned reference, [erase] (with rebalancing)
    and [clear] never follow a null or dangling pointer, terminate, act as the map
    operations, leave such a heap again (no leak, no use of freed nodes), and keep every
    other node at its address, so that iterators and references stay valid. *)
Theorem rbtree_refines_map {K V} `{!EqDecision K, !Countable K} (ltb : K → K → bool) `{!StrictTotalOrder ltb}
    (s : rbt K V) l k z dflt v :
  rb_wf ltb s l → heap s !! z = None →
  (∃ p, rb_find ltb s k = Some p ∧
    match p with None => to_map l !! k = None | Some x => ∃ v, (x, (k, v)) ∈ l ∧ to_map l !! k = Some v end) ∧
  (∃ x s' l', rb_index ltb dflt z s k = Some (x, s') ∧ rb_wf ltb s' l' ∧
    to_map l' = match to_map l !! k with Some _ => to_map l | None => <[k := dflt]> (to_map l) end ∧
    (x, (k, default dflt (to_map l !! k))) ∈ l' ∧ (∀ e, e ∈ l → e ∈ l')) ∧
  (∃ s' l', rb_set ltb dflt z s k v = Some s' ∧ rb_wf ltb s' l' ∧ to_map l' = <[k := v]> (to_map l)) ∧
  (∃ s' l', rb_erase ltb s k = Some (if decide (is_Some (to_map l !! k)) then 1 else 0, s') ∧
    rb_wf ltb s' l' ∧ to_map l' = delete k (to_map l) ∧ (∀ e, e ∈ l' → e ∈ l)) ∧
  rb_clear s = Some new_rbt ∧ rb_wf ltb (new_rbt : rbt K V) [].
Proof.
  intros Hwf Hz. split_and!; [by apply rb_find_map|by apply rb_index_map|by apply rb_set_map|by apply rb_erase_map| |].
  - destruct Hwf as [Hrep _]. by eapply rb_clear_ok.
  - split; [|constructor]. split_and!; [|done..]. exists Leaf, 0. split_and!; [|constructor|done]. by split_and!; [constructor| |].
Qed.

(** A tree of three nodes. *)
Definition rb_sample : rbt Z Z :=
  RBT {[1%positive := Node 20%Z 200%Z BLACK (Some 2%positive) (Some 3%positive) None;
        2%positive := Node 10%Z 100%Z RED None None (Some 1%positive);
        3%positive := Node 30%Z 300%Z RED None None (Some 1%positive)]} (Some 1%positive) 3.
Definition rb_sample_list : list (loc * (Z * Z)) :=
  [(2%positive, (10%Z, 100%Z)); (1%positive, (20%Z, 200%Z)); (3%positive, (30%Z, 300%Z))].

Lemma rb_sample_wf : rb_wf Z.ltb rb_sample rb_sample_list.
Proof.
  split; [|repeat constructor]. split_and!; [|reflexivity..].
  exists (Bin 1%positive BLACK (20%Z, 200%Z) (Bin 2%positive RED (10%Z, 100%Z) Leaf Leaf) (Bin 3%positive RED (30%Z, 300%Z) Leaf Leaf)), 1.
  split_and!; [|repeat econstructor|reflexivity]. split_and!; [|cbn; split_and!; try reflexivity; done|reflexivity].
  apply (bool_decide_unpack _). vm_compute. exact I.
Qed.

Lemma rbtree_refines_map_witness :
  ∃ s' l', rb_erase Z.ltb rb_sample 20%Z = Some (if decide (is_Some (to_map rb_sample_list !! 20%Z)) then 1 else 0, s') ∧
    rb_wf Z.ltb s' l' ∧ to_map l' = delete 20%Z (to_map rb_sample_list) ∧ (∀ e, e ∈ l' → e ∈ rb_sample_list).
Proof.
  exact (proj1 (proj2 (proj2 (proj2 (rbtree_refines_map Z.ltb rb_sample rb_sample_list 20%Z 4%positive 0%Z 0%Z rb_sample_wf eq_refl))))).
Defined.

(** C29: searches take logarithmic time: from a well-formed state the search loop of
    [find] and [erase] ends after at most 2 log2(n + 1) + 1 iterations. *)
Theorem rbtree_log_depth {K V} (ltb : K → K → bool) `{!StrictWeakOrder ltb} (s : rbt K V) l k :
  rb_wf ltb s l →
  find_loop ltb (S (2 * Nat.log2 (S (m_size s)))) s k (m_root s) = rb_find ltb s k ∧ is_Some (rb_find ltb s k).
Proof.
  intros Hwf. destruct (locate ltb s l k Hwf) as (t & c & n & h & _ & _ & _ & _ & _ & _ & Hh & Hh' & Hloop).
  destruct Hwf as ((_ & Hsz & ->) & _). unfold rb_find. destruct (Hloop (S (size (heap s))) ltac:(lia)) as [-> _].
  destruct (Hloop (S (2 * Nat.log2 (S (length l)))) ltac:(lia)) as [-> _]. done.
Qed.

Lemma rbtree_log_depth_witness :
  find_loop Z.ltb (S (2 * Nat.log2 (S (m_size rb_sample)))) rb_sample 30%Z (m_root rb_sample) = rb_find Z.ltb rb_sample 30%Z ∧
  is_Some (rb_find Z.ltb rb_sample 30%Z).
Proof. exact (rbtree_log_depth Z.ltb rb_sample rb_sample_list 30%Z rb_sample_wf). Defined.

(** C28: iterating from [begin()] to [end()] with [++] visits every node exactly once, in
    key order. *)
Theorem rbtree_iterates {K V} (ltb : K → K → bool) (s : rbt K V) l :
  rb_wf ltb s l → (p ← rb_begin s; rb_walk (S (m_size s)) s p) = Some l.*1 ∧ sorted ltb l.
Proof.
  intros [Hrep Hs]. split; [|done]. rewrite (rb_begin_ok s l Hrep). cbn [mbind option_bind]. apply (rb_walk_ok s _ []); [done|].
  destruct Hrep as (_ & _ & ->). lia.
Qed.

Lemma rbtree_iterates_witness :
  (p ← rb_begin rb_sample; rb_walk (S (m_size rb_sample)) rb_sample p) = Some rb_sample_list.*1 ∧ sorted Z.ltb rb_sample_list.
Proof. exact (rbtree_iterates Z.ltb rb_sample rb_sample_list rb_sample_wf). Defined.

Lemma rbm_walk_walk {K V} fuel (s : rbt K V) p : rbm_walk fuel s p = rb_walk fuel s p.
Proof.
  revert p. induction fuel as [|fuel IH]; intros [x|]; [done..| |done]. cbn [rbm_walk rb_walk]. unfold rbm_next.
  destruct (rb_next s (Some x)); [cbn [mbind option_bind]; by rewrite IH|done].
Qed.

(** C27: [TMRBTreeMultiMap] keeps a sorted sequence: [insert] puts the new pair before the
    first element whose key is not smaller (so before older entries with an equal key)
    and restores the red-black invariant; [lower_bound] returns that first element, and
    iterating from there visits exactly the elements that are not smaller, in order. *)
Theorem rb_multimap_refines {K V} (ltb : K → K → bool) `{!StrictWeakOrder ltb} (s : rbt K V) l k z v :
  rbm_wf ltb s l → heap s !! z = None →
  (p ← rbm_begin s; rbm_walk (S (m_size s)) s p) = Some l.*1 ∧ rbm_clear s = Some new_rbt ∧
  ∃ l1 l2, l = l1 ++ l2 ∧ Forall (below ltb k) l1 ∧ Forall (not_below ltb k) l2 ∧
    rbm_lower_bound ltb s k = Some (fst <$> head l2) ∧ rbm_walk (S (m_size s)) s (fst <$> head l2) = Some l2.*1 ∧
    ∃ s', rbm_insert ltb z s k v = Some s' ∧ rbm_wf ltb s' (l1 ++ (z, (k, v)) :: l2).
Proof.
  intros Hwf Hz. pose proof Hwf as [Hrep Hs]. pose proof Hrep as (_ & _ & Hsz). split_and!.
  - unfold rbm_begin. rewrite (rb_begin_ok s l Hrep). cbn [mbind option_bind]. rewrite rbm_walk_walk. apply (rb_walk_ok s _ []); [done|lia].
  - by eapply rb_clear_ok.
  - destruct (rbm_ok ltb s l k Hwf) as (c & n & l1 & l2 & Hc & Hrb & -> & Hl1 & Hl2 & H1 & H2 & Hd & Hlb).
    exists l1, l2. split_and!; [done..| |by eapply rbm_insert_ok].
    rewrite rbm_walk_walk. apply (rb_walk_ok s _ l1); [done|]. rewrite length_app in Hsz. lia.
Qed.

Lemma rb_sample_mwf : rbm_wf Z.ltb rb_sample rb_sample_list.
Proof. split; [apply rb_sample_wf|repeat constructor]. Qed.

Lemma rb_multimap_refines_witness :
  (p ← rbm_begin rb_sample; rbm_walk (S (m_size rb_sample)) rb_sample p) = Some rb_sample_list.*1 ∧ rbm_clear rb_sample = Some new_rbt ∧
  ∃ l1 l2, rb_sample_list = l1 ++ l2 ∧ Forall (below Z.ltb 20%Z) l1 ∧ Forall (not_below Z.ltb 20%Z) l2 ∧
    rbm_lower_bound Z.ltb rb_sample 20%Z = Some (fst <$> head l2) ∧ rbm_walk (S (m_size rb_sample)) rb_sample (fst <$> head l2) = Some l2.*1 ∧
    ∃ s', rbm_insert Z.ltb 4%positive rb_sample 20%Z 7%Z = Some s' ∧ rbm_wf Z.ltb s' (l1 ++ (4%positive, (20%Z, 7%Z)) :: l2).
Proof. exact (rb_multimap_refines Z.ltb rb_sample rb_sample_list 20%Z 4%positive 7%Z rb_sample_mwf eq_refl). Defined.
