(* ===== verification/ExplicitRBTree.v ===== *)
(** * The policy-based red-black tree (explicit_api/cpp/include/explicit_rbtree.hpp)

    The same tree over caller-allocated nodes, with lookups by key equality and the
    rotations written out in the insertion loop.  Its loads and stores go through
    [MemoryAccess<UseTM>], which is the memory itself inside an isolated transaction and
    outside of one, so it is verified on the heap model of the other trees. *)

From Stdlib Require Import Sorting.Sorted.
From S2P Require Import Prelude RBTree RBTreeRep RBTreeInsert RBTreeErase RBTreeUnlink RBTreeMap RBTreeSpec.

Section Ops.
Context {K V : Type} `{!EqDecision K} (ltb : K → K → bool).
Implicit Types (s : rbt K V) (n t z p g : ptr) (key : K).

Fixpoint ex_lookup_loop (fuel : nat) s key n : option ptr :=
  match fuel with
  | O => None
  | S fuel =>
      match n with
      | None => Some None
      | Some _ =>
          nd ← ld s n;
          if decide (key = n_key nd) then Some n
          else ex_lookup_loop fuel s key (if ltb key (n_key nd) then n_left nd else n_right nd)
      end
  end.

Definition ex_lookup s key : option ptr := ex_lookup_loop (S (size (heap s))) s key (m_root s).
Definition ex_contains s key : option bool := n ← ex_lookup s key; Some (bool_decide (n ≠ None)).

(** The descent of [insert]: the node with the key, or [None] once [z] is linked. *)
Fixpoint ex_descend (fuel : nat) s key z t : option (ptr * rbt K V) :=
  match fuel with
  | O => None
  | S fuel =>
      nt ← ld s t;
      if decide (key = n_key nt) then Some (t, s)
      else
        let d := if ltb key (n_key nt) then Lft else Rgt in
        match child d nt with
        | Some _ => ex_descend fuel s key z (child d nt)
        | None => s ← st s z (set_parent t); s ← st s t (set_child d z); Some (None, s)
        end
  end.

(** The rotations of an iteration with a black uncle; [p] is the [d] child of [g]. *)
Definition ex_rotations (d : dir) z p g s : option (rbt K V) :=
  np ← ld s p;
  ps ← (if decide (z = child (opp d) np)
        then s ← rotate_gen d d p s; p' ← par s p; Some (p', s)
        else Some (p, s));
  let '(p, s) := ps in
  s ← st s p (set_color BLACK);
  s ← st s g (set_color RED);
  rotate_gen d (opp d) g s.

Fixpoint ex_fix_loop (fuel : nat) z s : option (rbt K V) :=
  match fuel with
  | O => None
  | S fuel =>
      if decide (z = m_root s) then Some s
      else
        p ← par s z;
        np ← ld s p;
        if decide (n_color np = RED) then
          match n_parent np with
          | None => Some s
          | Some _ =>
              let g := n_parent np in
              ng ← ld s g;
              let d := if decide (p = n_left ng) then Lft else Rgt in
              let uncle := child (opp d) ng in
              ur ← is_red s uncle;
              if (ur : bool) then
                s ← st s p (set_color BLACK);
                s ← st s uncle (set_color BLACK);
                s ← st s g (set_color RED);
                ex_fix_loop fuel g s
              else ex_rotations d z p g s
          end
        else Some s
  end.

(** Linking the initialised node and rebalancing. *)
Definition ex_place key z s : option (ptr * rbt K V) :=
  match m_root s with
  | None => Some (None, with_root s z)
  | Some _ =>
      r ← ex_descend (S (size (heap s))) s key z (m_root s);
      match r with
      | (Some t, s) => Some (Some t, s)
      | (None, s) =>
          s ← st s z (set_color RED);
          s ← ex_fix_loop (S (size (heap s))) z s;
          s ← st s (m_root s) (set_color BLACK);
          Some (None, s)
      end
  end.

(** [insert]: [None] on success, the existing node otherwise. *)
Definition ex_insert z s : option (ptr * rbt K V) :=
  s ← st s z (set_child Lft None);
  s ← st s z (set_child Rgt None);
  s ← st s z (set_parent None);
  s ← st s z (set_color BLACK);
  nz ← ld s z;
  ex_place (n_key nz) z s.
End Ops.

(** ** Rebalancing *)

Section Fix.
Context {K V : Type}.
Implicit Types (t a b u : tree K V) (c : list (frame K V)) (s : rbt K V).

Lemma ex_outer s t z p kvp sib d g kvg u c :
  rep s (plug t (Frm d p RED kvp sib :: Frm d g BLACK kvg u :: c)) → rt t = Some z →
  ∃ s', ex_rotations d (Some z) (Some p) (Some g) s = Some s' ∧
    rep s' (plug t (Frm d p BLACK kvp (bin d g RED kvg sib u) :: c)).
Proof.
  intros H Hz. pose proof (rep_up _ _ _ _ _ _ _ _ H) as Hp.
  unfold ex_rotations. ldb Hp. rewrite child_opp. rewrite decide_False by (by apply (rep_sib _ _ _ _ _ H)). cbn [mbind option_bind].
  destruct (set_color_bin _ _ _ _ BLACK _ _ _ _ Hp) as (s1 & -> & H1). cbn [mbind option_bind]. apply rep_up in H1.
  destruct (set_color_bin _ _ _ _ RED _ _ _ _ H1) as (s2 & -> & H2). cbn [mbind option_bind].
  rewrite <- (bin_opp d g), <- (bin_opp d p) in H2.
  destruct (rotate_gen_rep d _ _ _ _ _ _ _ _ _ _ _ _ H2) as (s3 & -> & H3).
  exists s3. split; [done|]. rewrite !bin_opp in H3. exact H3.
Qed.

Lemma ex_inner s z kv a b p kvp sib d g kvg u c :
  rep s (plug (bin d z RED kv a b) (Frm (opp d) p RED kvp sib :: Frm d g BLACK kvg u :: c)) →
  ∃ s', ex_rotations d (Some z) (Some p) (Some g) s = Some s' ∧
    rep s' (plug (bin d p RED kvp sib a) (Frm d z BLACK kv (bin d g RED kvg b u) :: c)).
Proof.
  intros H. pose proof (rep_up _ _ _ _ _ _ _ _ H) as Hp. rewrite bin_opp in Hp.
  unfold ex_rotations. ldb Hp. rewrite child_opp, rt_bin, decide_True by done.
  destruct (rotate_gen_rep d _ _ _ _ _ _ _ _ _ _ _ _ Hp) as (s1 & -> & H1). cbn [mbind option_bind].
  pose proof (rep_down _ _ _ _ _ _ _ _ H1) as H1p. parb H1p.
  destruct (set_color_bin _ _ _ _ BLACK _ _ _ _ H1) as (s2 & -> & H2). cbn [mbind option_bind]. apply rep_up in H2.
  destruct (set_color_bin _ _ _ _ RED _ _ _ _ H2) as (s3 & -> & H3). cbn [mbind option_bind].
  rewrite <- (bin_opp d g), <- (bin_opp d z) in H3.
  destruct (rotate_gen_rep d _ _ _ _ _ _ _ _ _ _ _ _ H3) as (s4 & -> & H4).
  exists s4. split; [done|]. rewrite !bin_opp in H4. exact H4.
Qed.

Lemma ex_black_uncle s t z d1 p kvp sib d2 g kvg u c n ok :
  rep s (plug t (Frm d1 p RED kvp sib :: Frm d2 g BLACK kvg u :: c)) → rt t = Some z → is_rb t RED n →
  is_rb sib BLACK n → is_rb u BLACK n → ctx_rb c ok (S n) →
  ∃ s', ex_rotations d2 (Some z) (Some p) (Some g) s = Some s' ∧
    almost_rb s' (elements (plug t (Frm d1 p RED kvp sib :: Frm d2 g BLACK kvg u :: c))).
Proof.
  intros H Hz Ht Hsib Hu Hc. destruct (decide (d1 = d2)) as [->|Hd].
  - destruct (ex_outer _ _ _ _ _ _ _ _ _ _ _ H Hz) as (s1 & Hi & H1). exists s1. split; [done|].
    eapply almost_eq; [eapply exit_rb; [exact H1|done|by econstructor; [apply rb_bin_red|]|by left]|].
    cbn [plug]. apply almost_cong. destruct d2; inorder.
  - assert (d1 = opp d2) as -> by (by destruct d1, d2).
    destruct (rb_red_inv _ _ d2 Ht) as (z' & kv & a & b & -> & Ha & Hb). rewrite rt_bin in Hz. simplify_eq.
    destruct (ex_inner _ _ _ _ _ _ _ _ _ _ _ _ _ H) as (s1 & Hi & H1). exists s1. split; [done|].
    eapply almost_eq; [eapply exit_rb; [exact H1|by apply rb_bin_red|by econstructor; [apply rb_bin_red|]|by left]|].
    cbn [plug]. apply almost_cong. destruct d2; inorder.
Qed.

Lemma ex_fix_loop_ok fuel s t z c n ok :
  rep s (plug t c) → rt t = Some z → is_rb t RED n → ctx_rb c ok n → length c < fuel →
  ∃ s', ex_fix_loop fuel (Some z) s = Some s' ∧ almost_rb s' (elements (plug t c)).
Proof.
  revert s t z c n ok. induction (lt_wf fuel) as [fuel _ IH]. intros s t z c n ok H Hz Ht Hc Hf.
  destruct fuel as [|fuel]; [lia|]. cbn [ex_fix_loop].
  destruct c as [|[d1 p col kvp sib] c].
  { rewrite decide_True by (destruct H as (_ & _ & ->); done). exists s. split; [done|]. by exists t, RED, n. }
  rewrite decide_False by (rewrite <- Hz; by eapply root_ne).
  pose proof (rep_up _ _ _ _ _ _ _ _ H) as Hp. rewrite (par_rt _ _ _ _ H Hz). cbn [mbind option_bind cpar f_loc]. ldb Hp.
  rewrite mknode_color, mknode_parent. destruct col; [rewrite decide_True by done|rewrite decide_False by done].
  2: { exists s. split; [done|]. eapply exit_rb; eauto. inversion Hc; subst; by left. }
  inversion Hc as [|? ? ? ? ? ? Hsib Hc1|]; subst. inversion Hc1 as [| |d2 g kvg u c2 ? cu ok2 Hu Hc2]; subst. clear Hc Hc1.
  cbn [cpar f_loc]. pose proof (rep_up _ _ _ _ _ _ _ _ Hp) as Hg. ldb Hg. cbn [length] in Hf.
  rewrite rt_bin, (side_of _ _ _ _ _ _ _ _ _ Hp (rt_bin _ _ _ _ _ _)), child_opp.
  pose proof (rep_swap _ _ _ _ _ _ _ _ Hp) as Hu'. rewrite (is_red_rt _ _ _ Hu'), (rb_tcol _ _ _ Hu). cbn [mbind option_bind].
  destruct cu; [rewrite bool_decide_true by done|rewrite bool_decide_false by done].
  - destruct (recolor_ok _ _ _ _ _ _ _ _ _ _ _ _ H Hu) as (s1 & s2 & s3 & u' & -> & Hs2 & Hs3 & H3 & Hu3 & Hel).
    cbn [mbind option_bind]. rewrite Hs2. cbn [mbind option_bind]. rewrite Hs3. cbn [mbind option_bind].
    destruct (IH fuel ltac:(lia) s3 _ g c2 (S n) ok2 H3) as (s4 & -> & H4); [apply rt_bin| |done|lia|].
    { apply rb_bin_red; [by eapply rb_bin_black|done]. }
    exists s4. split; [done|]. eapply almost_eq; [exact H4|]. cbn [plug]. apply almost_cong.
    apply elements_bin_cong; [by apply elements_bin_cong|done].
  - by eapply ex_black_uncle.
Qed.

Lemma keeps_ex_fix fuel z s s' : ex_fix_loop fuel z s = Some s' → keeps s s'.
Proof.
  revert z s. induction fuel as [|fuel IH]; intros z s H; [done|]. cbn [ex_fix_loop] in H. unfold ex_rotations in H.
  runs; try done;
    repeat match goal with
      | H : rotate_gen _ _ _ _ = Some _ |- _ => apply keeps_rotate_gen in H
      | H : ex_fix_loop _ _ _ = Some _ |- _ => apply IH in H
      end; keeps_chain.
Qed.
End Fix.

Section Insert.
Context {K V : Type} `{!EqDecision K} (ltb : K → K → bool) `{!StrictTotalOrder ltb}.
Implicit Types (t a b u : tree K V) (c : list (frame K V)) (s : rbt K V) (l : list (loc * (K * V))) (k : K).

(** A node that is in the heap but not in the tree. *)
Definition detached s (z : loc) k (v : V) t : Prop :=
  (z ∉ locs t) ∧ heap s !! z = Some (Node k v BLACK None None None).

(** Hanging the detached node below [p]. *)
Lemma ex_link s d p col kvp sib c z k v :
  rep s (plug Leaf (Frm d p col kvp sib :: c)) → detached s z k v (plug Leaf (Frm d p col kvp sib :: c)) →
  ∃ s1 s2, st s (Some z) (set_parent (Some p)) = Some s1 ∧ st s1 (Some p) (set_child d (Some z)) = Some s2 ∧
    rep s2 (plug (Bin z BLACK (k, v) Leaf Leaf) (Frm d p col kvp sib :: c)).
Proof.
  intros H [Hz Hzn]. rewrite locs_plug in Hz. apply rep_plug in H as (Hnd & _ & Hc & Hr). destruct s as [h r n].
  cbn [heap m_root rt ctx_at croot f_loc f_sib f_kv f_col f_dir] in *. subst r. destruct_and? Hc. nd_in Hnd. nd_in Hz.
  destruct kvp as [kp vp]. destruct d; (do 2 eexists; split_and!; [by sym|sym; reflexivity|]).
  all: apply rep_plug; cbn [locs app clocs f_loc f_sib tree_at ctx_at rt cpar croot heap m_root]; split; [nd_solve|].
  all: cbn [f_dir f_loc f_col f_kv f_sib]; split_and?; try done; framed; by sym.
Qed.

(** The continuation of the descent at a node [t], on side [d] with child [p]. *)
Definition ex_into (fuel : nat) s k (z t : ptr) (d : dir) (p : ptr) : option (ptr * rbt K V) :=
  match p with
  | Some _ => ex_descend ltb fuel s k z p
  | None => s ← st s z (set_parent t); s ← st s t (set_child d z); Some (None, s)
  end.

Lemma ex_descend_ok fuel s z k v t c :
  rep s (plug t c) → detached s z k v (plug t c) → t ≠ Leaf → height t ≤ fuel →
  match (zfind ltb k t c).1 with
  | Bin x _ _ _ _ => ex_descend ltb fuel s k (Some z) (rt t) = Some (Some x, s)
  | Leaf => ∃ s', ex_descend ltb fuel s k (Some z) (rt t) = Some (None, s') ∧
      rep s' (plug (Bin z BLACK (k, v) Leaf Leaf) (zfind ltb k t c).2) ∧ keeps s s'
  end.
Proof.
  revert t c. induction fuel as [|fuel IH]; intros t c H Hz Ht Hf; [by destruct t; simpl in *; [|lia]|].
  destruct t as [|l col kv a b]; [done|]. cbn [ex_descend rt zfind]. rewrite (ld_bin s Lft _ _ _ _ _ _ H).
  cbn [mbind option_bind mknode n_key]. cbn [height] in Hf.
  destruct (decide (k = kv.1)) as [->|Hne]; [by rewrite swo_irrefl|].
  assert (∀ d t' sib, bin d l col kv t' sib = Bin l col kv a b → height t' ≤ fuel →
    match (zfind ltb k t' (Frm d l col kv sib :: c)).1 with
    | Bin x _ _ _ _ => ex_into fuel s k (Some z) (Some l) d (rt t') = Some (Some x, s)
    | Leaf => ∃ s', ex_into fuel s k (Some z) (Some l) d (rt t') = Some (None, s') ∧
        rep s' (plug (Bin z BLACK (k, v) Leaf Leaf) (zfind ltb k t' (Frm d l col kv sib :: c)).2) ∧ keeps s s'
    end) as Hgo.
  { intros d t' sib Heq Hh. rewrite <- Heq in H, Hz. destruct t' as [|l' col' kv' a' b'].
    - cbn [rt zfind fst snd ex_into]. destruct (ex_link _ _ _ _ _ _ _ _ _ _ H Hz) as (s1 & s2 & Hs1 & Hs2 & H2). rewrite Hs1.
      cbn [mbind option_bind]. rewrite Hs2. exists s2. split_and!; [done..|]. keeps_chain.
    - apply (IH (Bin l' col' kv' a' b') (Frm d l col kv sib :: c)); done. }
  destruct (ltb k kv.1) eqn:Hk; cbn [child n_left n_right]; [apply (Hgo Lft a b); [done|lia]|].
  destruct (ltb kv.1 k) eqn:Hk'; [apply (Hgo Rgt b a); [done|lia]|]. exfalso. apply Hne. by apply sto_total.
Qed.

Lemma locs_size s t : rep s t → length (locs t) ≤ size (heap s).
Proof.
  intros (Hnd & Ht & _). rewrite <- size_dom, <- (size_list_to_set (C := gset loc)) by done. apply subseteq_size.
  intros x Hx%elem_of_list_to_set. apply elem_of_dom. by eapply tree_at_locs.
Qed.

(** The four initialising stores. *)
Lemma ex_init s t z nz :
  rep s t → heap s !! z = Some nz → z ∉ locs t →
  ∃ s1 s2 s3 s4, st s (Some z) (set_child Lft None) = Some s1 ∧ st s1 (Some z) (set_child Rgt None) = Some s2 ∧
    st s2 (Some z) (set_parent None) = Some s3 ∧ st s3 (Some z) (set_color BLACK) = Some s4 ∧
    rep s4 t ∧ detached s4 z (n_key nz) (n_val nz) t ∧ keeps s s4.
Proof.
  intros (Hnd & Ht & Hr) Hz Hzt. destruct s as [h r n]. cbn [heap m_root] in *.
  do 4 eexists. split_and!; [sym; reflexivity..| | |].
  - split_and!; [done| |done]. cbn [heap]. by repeat apply tree_at_insert.
  - split; [done|]. by sym.
  - split; [|done]. cbn [heap]. by rewrite !dom_insert_lookup_L by (sym; eauto).
Qed.

(** What [insert] returns and leaves, for the sequence [l] before it. *)
Definition ex_outcome (r : option (ptr * rbt K V)) l (z : loc) k (v : V) : Prop :=
  (∃ x kv l1 l2 s', r = Some (Some x, s') ∧ l = l1 ++ (x, kv) :: l2 ∧ kv.1 = k ∧ rb_tree s' l) ∨
  (∃ s' l1 l2, r = Some (None, s') ∧ l = l1 ++ l2 ∧ Forall (below ltb k) l1 ∧ Forall (above ltb k) l2 ∧
    rb_tree s' (l1 ++ (z, (k, v)) :: l2)).

Lemma ex_rebalance s z k v c n :
  rep s (plug (Bin z BLACK (k, v) Leaf Leaf) c) → is_rb (plug Leaf c) BLACK n →
  ∃ s1 s2 s3, st s (Some z) (set_color RED) = Some s1 ∧ ex_fix_loop (S (size (heap s1))) (Some z) s1 = Some s2 ∧
    st s2 (m_root s2) (set_color BLACK) = Some s3 ∧ rb_tree s3 (lefts c ++ (z, (k, v)) :: rights c).
Proof.
  intros H Hrb. destruct (set_color_bin s Lft _ _ RED _ _ _ _ H) as (s1 & Hs1 & H1).
  destruct (unplug_rb _ _ _ Hrb) as (col & m & ok & Hleaf & Hc & _). assert (m = 0) as -> by (by inversion Hleaf).
  destruct (ex_fix_loop_ok (S (size (heap s1))) s1 (Bin z RED (k, v) Leaf Leaf) z c 0 ok H1 eq_refl) as (s2 & Hs2 & H2).
  { by repeat constructor. } { done. }
  { pose proof (locs_size _ _ H1) as Hsz. cbn [bin] in Hsz. rewrite locs_plug in Hsz. cbn in Hsz.
    pose proof (length_clocs c). lia. }
  destruct (paint_root _ _ H2) as (s3 & Hs3 & H3). rewrite elements_plug in H3. exists s1, s2, s3. split_and!; [done..| |done].
  destruct (m_root s2) eqn:Hr; [done|]. destruct H2 as (t2 & ? & ? & (_ & _ & Hr2) & _ & Hel). rewrite Hr in Hr2.
  destruct t2; [|done]. rewrite elements_plug in Hel. by destruct (lefts c).
Qed.

Lemma ex_place_ok s t n z k v :
  rep s t → is_rb t BLACK n → sorted ltb (elements t) → detached s z k v t →
  ex_outcome (ex_place ltb k (Some z) s) (elements t) z k v.
Proof.
  intros H Hrb Hs Hd. pose proof H as (_ & _ & Hr). unfold ex_place. rewrite Hr. destruct t as [|r col kvr a b].
  { right. exists (with_root s (Some z)), [], []. split_and!; [done|done|constructor|constructor|].
    exists (Bin z BLACK (k, v) Leaf Leaf), 1. split_and!; [|by econstructor; constructor|done].
    split_and!; [by repeat constructor; apply not_elem_of_nil| |done]. cbn. split_and!; [apply Hd|done..]. }
  cbn [rt]. pose proof (locs_size _ _ H) as Hsz. rewrite length_locs in Hsz. set (t := Bin r col kvr a b) in *.
  pose proof (ex_descend_ok (S (size (heap s))) s z k v t [] H Hd) as Hde. cbn [rt t] in Hde. fold t in Hde.
  specialize (Hde ltac:(done)). pose proof (height_elements t). specialize (Hde ltac:(lia)).
  pose proof (zfind_plug ltb k t []) as Hp. cbn [plug] in Hp.
  destruct (zfind_key ltb k t [] Hs) as (Hl & Hrt & Hk); [constructor..|].
  destruct (zfind ltb k t []) as [t' c']. cbn [fst snd] in *. destruct t' as [|x colx kvx a' b'].
  - right. destruct Hde as (s' & -> & H' & _). cbn [mbind option_bind].
    destruct (ex_rebalance s' z k v c' n H') as (s1 & s2 & s3 & -> & Hs2 & Hs3 & H3); [by rewrite Hp|].
    cbn [mbind option_bind]. rewrite Hs2. cbn [mbind option_bind]. rewrite Hs3. cbn [mbind option_bind].
    exists s3, (lefts c'), (rights c'). split_and!; [done| |done..]. by rewrite <- Hp, elements_plug.
  - left. rewrite Hde. cbn [mbind option_bind]. exists x, kvx, (lefts c' ++ elements a'), (elements b' ++ rights c'), s.
    split_and!; [done| | |by exists t, n].
    + rewrite <- Hp, elements_plug. cbn [elements]. by rewrite <- !app_assoc.
    + destruct Hk as [??]. symmetry. by apply sto_total.
Qed.

Lemma ex_insert_ok s l z nz :
  rb_tree s l → sorted ltb l → heap s !! z = Some nz → z ∉ l.*1 →
  ex_outcome (ex_insert ltb (Some z) s) l z (n_key nz) (n_val nz).
Proof.
  intros (t & n & Ht & Hrb & <-) Hs Hz Hzl. rewrite locs_elements in Hzl.
  destruct (ex_init s t z nz Ht Hz Hzl) as (s1 & s2 & s3 & s4 & Hs1 & Hs2 & Hs3 & Hs4 & H4 & Hd & _).
  unfold ex_insert. rewrite Hs1. cbn [mbind option_bind]. rewrite Hs2. cbn [mbind option_bind]. rewrite Hs3.
  cbn [mbind option_bind]. rewrite Hs4. cbn [mbind option_bind]. unfold ld. cbn [mbind option_bind]. rewrite (proj2 Hd).
  cbn [mbind option_bind n_key]. by eapply ex_place_ok.
Qed.

Lemma ex_lookup_loop_ok fuel s k t c :
  rep s (plug t c) → height t < fuel → ex_lookup_loop ltb fuel s k (rt t) = Some (rt (zfind ltb k t c).1).
Proof.
  revert t c. induction fuel as [|fuel IH]; intros t c H Hf; [lia|].
  destruct t as [|l col kv a b]; [done|]. cbn [ex_lookup_loop rt zfind]. rewrite (ld_bin s Lft _ _ _ _ _ _ H).
  cbn [mbind option_bind mknode n_key n_left n_right]. cbn [height] in Hf.
  destruct (decide (k = kv.1)) as [->|Hne]; [by rewrite swo_irrefl|].
  destruct (ltb k kv.1) eqn:Hk; [apply (IH a (Frm Lft l col kv b :: c)); [exact H|lia]|].
  destruct (ltb kv.1 k) eqn:Hk'; [apply (IH b (Frm Rgt l col kv a :: c)); [exact H|lia]|]. by destruct Hne; apply sto_total.
Qed.
End Insert.

(** ** Properties *)

(** C30: the explicit red-black tree implements a finite map.  [lookup] and [contains]
    answer for the represented map; [insert] of a caller-allocated node not yet in the
    tree either returns the node that already holds the key and leaves the sequence
    unchanged, or links the node at its sorted position and restores the red-black
    invariant; no null or dangling pointer is followed and the loops terminate. *)
Theorem explicit_rbtree_refines {K V} `{!EqDecision K, !Countable K} (ltb : K → K → bool) `{!StrictTotalOrder ltb}
    (s : rbt K V) l k z nz :
  rb_tree s l → sorted ltb l → heap s !! z = Some nz → z ∉ l.*1 →
  (∃ p, ex_lookup ltb s k = Some p ∧
    match p with None => to_map l !! k = None | Some x => ∃ v, (x, (k, v)) ∈ l ∧ to_map l !! k = Some v end) ∧
  ex_contains ltb s k = Some (bool_decide (is_Some (to_map l !! k))) ∧
  ∃ r s' l', ex_insert ltb (Some z) s = Some (r, s') ∧ rb_tree s' l' ∧ sorted ltb l' ∧
    match to_map l !! n_key nz with
    | Some v => l' = l ∧ ∃ x, r = Some x ∧ (x, (n_key nz, v)) ∈ l
    | None => r = None ∧ to_map l' = <[n_key nz := n_val nz]> (to_map l)
    end.
Proof.
  intros Ht Hs Hz Hzl.
  assert (∃ p, ex_lookup ltb s k = Some p ∧
    match p with None => to_map l !! k = None | Some x => ∃ v, (x, (k, v)) ∈ l ∧ to_map l !! k = Some v end) as Hlk.
  { destruct Ht as (t & n & Ht & Hrb & <-). pose proof Ht as (_ & _ & Hr). exists (rt (zfind ltb k t []).1).
    unfold ex_lookup. rewrite Hr. split.
    { apply (ex_lookup_loop_ok ltb _ s k t []); [done|]. pose proof (locs_size _ _ Ht) as Hsz. rewrite length_locs in Hsz.
      pose proof (height_elements t). lia. }
    by apply zfind_to_map. }
  split_and!; [done| |].
  - destruct Hlk as (p & Hp & Hm). unfold ex_contains. rewrite Hp. cbn [mbind option_bind]. f_equal. apply bool_decide_ext.
    destruct p as [x|]; [destruct Hm as (v & _ & ->)|rewrite Hm]; split; try done; by intros [??].
  - destruct (ex_insert_ok ltb s l z nz Ht Hs Hz Hzl) as [(x & [k' v] & l1 & l2 & s' & -> & -> & Hk & H')|(s' & l1 & l2 & -> & -> & H1 & H2 & H')].
    + cbn in Hk. subst k'. exists (Some x), s', (l1 ++ (x, (n_key nz, v)) :: l2).
      rewrite to_map_lookup by (by apply (sorted_NoDup ltb)). split_and!; [done..|]. exists x. split; [done|]. set_solver.
    + exists None, s', (l1 ++ (z, (n_key nz, n_val nz)) :: l2). rewrite (to_map_None ltb) by done.
      assert (sorted ltb (l1 ++ (z, (n_key nz, n_val nz)) :: l2)) as Hs' by (by apply sorted_insert_at).
      split_and!; [done..|]. by apply to_map_insert, (sorted_NoDup ltb).
Qed.

(** The sample tree with a fourth, detached node. *)
Definition ex_sample : rbt Z Z := RBT (<[4%positive := Node 5%Z 50%Z RED (Some 9%positive) None None]> (heap rb_sample)) (Some 1%positive) 3.

Lemma ex_sample_tree : rb_tree ex_sample rb_sample_list.
Proof.
  exists (Bin 1%positive BLACK (20%Z, 200%Z) (Bin 2%positive RED (10%Z, 100%Z) Leaf Leaf) (Bin 3%positive RED (30%Z, 300%Z) Leaf Leaf)), 1.
  split_and!; [|repeat econstructor|reflexivity]. split_and!; [|cbn; split_and!; try reflexivity; done|reflexivity].
  apply (bool_decide_unpack _). vm_compute. exact I.
Qed.

Lemma explicit_rbtree_refines_witness :
  ex_contains Z.ltb ex_sample 30%Z = Some (bool_decide (is_Some (to_map rb_sample_list !! 30%Z))).
Proof.
  refine (proj1 (proj2 (explicit_rbtree_refines Z.ltb ex_sample rb_sample_list 30%Z 4%positive (Node 5%Z 50%Z RED (Some 9%positive) None None)
    ex_sample_tree (proj2 rb_sample_wf) eq_refl _))).
  apply (bool_decide_unpack _). vm_compute. exact I.
Defined.
