(* ===== verification/VersionedLocks.v ===== *)
(** * Versioned-lock transactional memories, abstractly

    The protocol shared by the lock-table backends (TinySTM with write-back, TL2): a global
    version clock, a lock and a version per group of addresses, transactions that record
    the version under which they read, and commits that take their version by
    incrementing the clock after their locks are held, validate, write back and release
    the locks with the commit version.

    A state carries a history: the reads and writes of every transaction whose validation
    succeeded, under its commit version.  The invariant shows that executing the history
    one transaction after the other, in version order, gives every transaction exactly
    the values it read, although commits with neighbouring versions validate and write
    back in any real-time order.

    At the end, the words that hold a version and a lock bit (TL2, Romulus). *)

From stdpp Require Import functions.
From S2P Require Import Prelude Memory Values TMSpec LogMerge TxLog.

Record entry := CE { ce_reads : list (Z * Z); ce_writes : list (Z * Z) }.

(** [PInc]: the clock has been incremented, validation is under way.  [PDec]: validated,
    these stores remain to be written back. *)
Inductive phase :=
  | PIdle
  | PActive
  | PInc (cv : nat) (ws : list (Z * Z))
  | PDec (cv : nat) (ws : list (Z * Z))
  | PAbort.

(** Bytes read with the version observed before, bytes read under an own lock, and bytes
    (with the version they were read at) known to be those of the history just before a
    version. *)
Record lvt := LVT { ph : phase; rds : list (Z * Z * nat); lrds : list (Z * Z); fixd : list (Z * Z * nat * nat) }.

Record lvs := LVS {
  lmem : mem; clk : nat; ver : Z → nat; own : Z → option nat; hist : gmap nat entry; thr : nat → lvt;
  obs : list (nat * list (Z * Z));
}.

Section Machine.
(** The lock that guards an address, and the initial memory. *)
Context (lk : Z → Z) (m0 : mem).
Implicit Types (σ : lvs) (t : lvt) (H : gmap nat entry).

(** The byte at [a] after the transactions with versions up to [n]. *)
Fixpoint at_ver H (n : nat) (a : Z) : Z :=
  match n with
  | O => mget m0 a
  | S n' =>
      match H !! n with
      | Some e => if decide (a ∈ (ce_writes e).*1) then mget (wr ∅ (ce_writes e)) a else at_ver H n' a
      | None => at_ver H n' a
      end
  end.

Definition running (p : phase) : Prop := match p with PActive | PInc _ _ => True | _ => False end.
Definition committing (p : phase) : Prop := ∃ cv ws, p = PInc cv ws.

Definition set_thr σ (i : nat) t : lvs := LVS (lmem σ) (clk σ) (ver σ) (own σ) (hist σ) (<[i := t]> (thr σ)) (obs σ).
Definition set_own σ (ℓ : Z) (o : option nat) : lvs := LVS (lmem σ) (clk σ) (ver σ) (<[ℓ := o]> (own σ)) (hist σ) (thr σ) (obs σ).
Definition set_ph t (p : phase) : lvt := LVT p (rds t) (lrds t) (fixd t).

Inductive lv_step (i : nat) : lvs → lvs → Prop :=
  | lv_begin σ : ph (thr σ i) = PIdle → lv_step i σ (set_thr σ i (LVT PActive [] [] []))
  | lv_acquire σ ℓ : ph (thr σ i) = PActive → own σ ℓ = None → lv_step i σ (set_own σ ℓ (Some i))
  | lv_load σ a v t :
      t = thr σ i → ph t = PActive → v ≤ ver σ (lk a) →
      lv_step i σ (set_thr σ i (LVT (ph t) ((a, mget (lmem σ) a, v) :: rds t) (lrds t) (fixd t)))
  | lv_load_own σ a t :
      t = thr σ i → ph t = PActive → own σ (lk a) = Some i →
      lv_step i σ (set_thr σ i (LVT (ph t) (rds t) ((a, mget (lmem σ) a) :: lrds t) (fixd t)))
  | lv_forget σ t r l f :
      t = thr σ i → running (ph t) → r ⊆ rds t → l ⊆ lrds t → f ⊆ fixd t →
      lv_step i σ (set_thr σ i (LVT (ph t) r l f))
  | lv_check σ a val v n t :
      t = thr σ i → running (ph t) → (a, val, v) ∈ rds t → own σ (lk a) = None ∨ own σ (lk a) = Some i →
      ver σ (lk a) ≤ v → v < n → n ≤ S (clk σ) →
      lv_step i σ (set_thr σ i (LVT (ph t) (rds t) (lrds t) ((a, val, v, n) :: fixd t)))
  | lv_increment σ ws :
      ph (thr σ i) = PActive → (∀ a, a ∈ ws.*1 → own σ (lk a) = Some i) →
      lv_step i σ (LVS (lmem σ) (S (clk σ)) (ver σ) (own σ) (hist σ) (<[i := set_ph (thr σ i) (PInc (S (clk σ)) ws)]> (thr σ)) (obs σ))
  | lv_decide σ cv ws :
      ph (thr σ i) = PInc cv ws →
      (∀ a val v, (a, val, v) ∈ rds (thr σ i) → (a, val, v, cv) ∈ fixd (thr σ i)) →
      lv_step i σ (LVS (lmem σ) (clk σ) (ver σ) (own σ)
        (<[cv := CE ((rds (thr σ i)).*1 ++ lrds (thr σ i)) ws]> (hist σ)) (<[i := LVT (PDec cv ws) [] [] []]> (thr σ)) (obs σ))
  | lv_writeback σ cv a b ws :
      ph (thr σ i) = PDec cv ((a, b) :: ws) →
      lv_step i σ (LVS (<[a := b]> (lmem σ)) (clk σ) (ver σ) (own σ) (hist σ) (<[i := LVT (PDec cv ws) [] [] []]> (thr σ)) (obs σ))
  | lv_release_version σ cv ℓ :
      ph (thr σ i) = PDec cv [] → own σ ℓ = Some i →
      lv_step i σ (LVS (lmem σ) (clk σ) (<[ℓ := cv]> (ver σ)) (<[ℓ := None]> (own σ)) (hist σ) (thr σ) (obs σ))
  | lv_abort σ : running (ph (thr σ i)) → lv_step i σ (set_thr σ i (LVT PAbort [] [] []))
  | lv_release σ ℓ : ph (thr σ i) = PAbort → own σ ℓ = Some i → lv_step i σ (set_own σ ℓ None)
  | lv_finish σ cv :
      ph (thr σ i) = PDec cv [] ∨ ph (thr σ i) = PAbort ∨ ph (thr σ i) = PActive → (∀ ℓ, own σ ℓ ≠ Some i) →
      lv_step i σ (set_thr σ i (LVT PIdle [] [] []))
  | lv_observe σ n l :
      running (ph (thr σ i)) → n ≤ clk σ → (∀ a val, (a, val) ∈ l → ∃ v, (a, val, v, S n) ∈ fixd (thr σ i)) →
      (∀ cv ws, ph (thr σ i) = PInc cv ws → n < cv) →
      lv_step i σ (LVS (lmem σ) (clk σ) (ver σ) (own σ) (hist σ) (thr σ) ((n, l) :: obs σ)).

Definition lv_initial σ : Prop :=
  lmem σ = m0 ∧ hist σ = ∅ ∧ obs σ = [] ∧ (∀ ℓ, ver σ ℓ = 0) ∧ (∀ ℓ, own σ ℓ = None) ∧ (∀ i, thr σ i = LVT PIdle [] [] []).

Inductive lv_reachable : lvs → Prop :=
  | lv_init σ : lv_initial σ → lv_reachable σ
  | lv_next σ i σ' : lv_reachable σ → lv_step i σ σ' → lv_reachable σ'.

(** ** The invariant *)

(** The stores still to be written back by the validated owner of a lock. *)
Definition pend σ (ℓ : Z) : list (Z * Z) :=
  match own σ ℓ with
  | Some i => match ph (thr σ i) with PDec _ ws => ws | _ => [] end
  | None => []
  end.

Definition decided_owner σ (ℓ : Z) (c : nat) : Prop :=
  ∃ i ws, own σ ℓ = Some i ∧ ph (thr σ i) = PDec c ws.

(** No undecided commit with a version below [n], of a thread other than [i], can still write at [a]. *)
Definition no_pending σ (i : option nat) (a : Z) (n : nat) : Prop :=
  ∀ j cv ws, Some j ≠ i → ph (thr σ j) = PInc cv ws → cv < n → own σ (lk a) ≠ Some j.

(** What checking a read establishes for good. *)
Definition fixed_at σ (i : nat) (a val : Z) (v n : nat) : Prop :=
  0 < n ≤ S (clk σ) ∧ at_ver (hist σ) (n - 1) a = val ∧ no_pending σ (Some i) a n ∧
  (ver σ (lk a) ≤ v ∨ n ≤ ver σ (lk a)) ∧ (∀ c, decided_owner σ (lk a) c → n ≤ c).

Record lv_inv σ : Prop := LvInv {
  iv_mem : ∀ a, mget (wr (lmem σ) (pend σ (lk a))) a = at_ver (hist σ) (clk σ) a;
  iv_hist : ∀ c e, hist σ !! c = Some e → 0 < c ≤ clk σ ∧
    ∀ a, a ∈ (ce_writes e).*1 → c ≤ ver σ (lk a) ∨ decided_owner σ (lk a) c;
  iv_ver : ∀ ℓ, ver σ ℓ ≤ clk σ;
  iv_inc : ∀ i cv ws, ph (thr σ i) = PInc cv ws → 0 < cv ≤ clk σ ∧ hist σ !! cv = None ∧
    (∀ a, a ∈ ws.*1 → own σ (lk a) = Some i) ∧ (∀ ℓ, own σ ℓ = Some i → ver σ ℓ < cv) ∧
    (∀ a val v, (a, val, v) ∈ rds (thr σ i) → v < cv);
  iv_dec : ∀ i cv ws, ph (thr σ i) = PDec cv ws → is_Some (hist σ !! cv) ∧ cv ≤ clk σ ∧
    (∀ a, a ∈ ws.*1 → own σ (lk a) = Some i) ∧ (∀ ℓ, own σ ℓ = Some i → ver σ ℓ < cv);
  iv_cv : ∀ i j cv ws ws', ph (thr σ i) = PInc cv ws → ph (thr σ j) = PInc cv ws' → i = j;
  iv_rds : ∀ i a val v, (a, val, v) ∈ rds (thr σ i) → v ≤ ver σ (lk a) ∧
    (ver σ (lk a) ≤ v → (∀ c, ¬ decided_owner σ (lk a) c) → mget (lmem σ) a = val);
  iv_lrds : ∀ i a val, (a, val) ∈ lrds (thr σ i) → own σ (lk a) = Some i ∧ mget (lmem σ) a = val ∧ running (ph (thr σ i));
  iv_fix : ∀ i a val v n, (a, val, v, n) ∈ fixd (thr σ i) → fixed_at σ i a val v n;
  iv_obs : ∀ n l, (n, l) ∈ obs σ → n ≤ clk σ ∧
    ∀ a val, (a, val) ∈ l → at_ver (hist σ) n a = val ∧ no_pending σ None a (S n);
  iv_ser : ∀ c e a val, hist σ !! c = Some e → (a, val) ∈ ce_reads e →
    at_ver (hist σ) (c - 1) a = val ∧ no_pending σ None a c;
}.

(** ** Histories *)
Lemma at_ver_skip H n n' a :
  n ≤ n' → (∀ c e, H !! c = Some e → n < c ≤ n' → a ∉ (ce_writes e).*1) → at_ver H n' a = at_ver H n a.
Proof.
  induction 1 as [|n' Hle IH]; intros Hno; [done|]. cbn [at_ver]. rewrite <- IH by (intros c e Hc ?; apply (Hno c e Hc); lia).
  destruct (H !! S n') as [e|] eqn:He; [|done]. rewrite decide_False; [done|]. apply (Hno _ _ He). lia.
Qed.

Lemma at_ver_insert_gt H c e n a : n < c → at_ver (<[c := e]> H) n a = at_ver H n a.
Proof. induction n as [|n IH]; intros Hlt; [done|]. cbn [at_ver]. rewrite IH by lia. rewrite lookup_insert_ne by lia. done. Qed.

Lemma at_ver_insert_ne H c e n a : H !! c = None → a ∉ (ce_writes e).*1 → at_ver (<[c := e]> H) n a = at_ver H n a.
Proof.
  intros Hc Ha. induction n as [|n IH]; [done|]. cbn [at_ver]. rewrite IH. destruct (decide (c = S n)) as [->|Hne].
  - rewrite lookup_insert_eq, Hc. by rewrite decide_False.
  - by rewrite lookup_insert_ne.
Qed.

Lemma at_ver_insert_last H c e n a :
  0 < c → a ∈ (ce_writes e).*1 → c ≤ n → (∀ c' e', H !! c' = Some e' → c < c' ≤ n → a ∉ (ce_writes e').*1) →
  at_ver (<[c := e]> H) n a = mget (wr ∅ (ce_writes e)) a.
Proof.
  intros H0 Ha Hle Hno. rewrite (at_ver_skip _ c n) by
    (done || (intros c' e'; destruct (decide (c' = c)) as [->|]; [lia|rewrite lookup_insert_ne by done; apply Hno])).
  destruct c as [|c]; [lia|]. cbn [at_ver]. rewrite lookup_insert_eq. by rewrite decide_True.
Qed.

(** ** Steps that change only one thread's records *)
Definition dec (p : phase) : option (nat * list (Z * Z)) := match p with PDec c ws => Some (c, ws) | _ => None end.

Lemma pend_dec σ ℓ : pend σ ℓ = from_option snd [] (i ← own σ ℓ; dec (ph (thr σ i))).
Proof. unfold pend. destruct (own σ ℓ) as [i|]; [|done]. simpl. by destruct (ph (thr σ i)). Qed.

Lemma decided_dec σ ℓ c : decided_owner σ ℓ c ↔ fst <$> (i ← own σ ℓ; dec (ph (thr σ i))) = Some c.
Proof.
  split.
  - intros (i & ws & -> & Hp). simpl. by rewrite Hp.
  - destruct (own σ ℓ) as [i|] eqn:Ho; [|done]. simpl. destruct (ph (thr σ i)) as [| | |c' ws|] eqn:Hp; simpl; try done.
    intros [= ->]. by exists i, ws.
Qed.

Lemma no_pending_mono σ σ' o o' a n :
  (∀ j cv ws, Some j ≠ o' → ph (thr σ' j) = PInc cv ws → cv < n → own σ' (lk a) = Some j →
     Some j ≠ o ∧ (∃ ws, ph (thr σ j) = PInc cv ws) ∧ own σ (lk a) = Some j) →
  no_pending σ o a n → no_pending σ' o' a n.
Proof. intros Hs Hn j cv ws Hj Hp Hlt Ho. destruct (Hs j cv ws) as (? & [ws' ?] & ?); [done..|]. by eapply Hn. Qed.

Ltac at_thr j i :=
  destruct (decide (j = i)) as [->|]; simpl in *;
  [rewrite ?fn_lookup_insert in *|rewrite ?fn_lookup_insert_ne in * by done].

Lemma set_thr_dec σ i t ℓ :
  dec (ph t) = None → dec (ph (thr σ i)) = None ∨ (∀ ℓ, own σ ℓ ≠ Some i) →
  (j ← own σ ℓ; dec (ph (thr (set_thr σ i t) j))) = (j ← own σ ℓ; dec (ph (thr σ j))).
Proof.
  intros Ht Hi. destruct (own σ ℓ) as [j|] eqn:Ho; [|done]. simpl. at_thr j i; [|done].
  destruct Hi as [->|Hi]; [done|by destruct (Hi ℓ)].
Qed.

Lemma local_inv σ i t :
  lv_inv σ → dec (ph t) = None → dec (ph (thr σ i)) = None ∨ (∀ ℓ, own σ ℓ ≠ Some i) →
  (∀ cv ws, ph t = PInc cv ws → ph (thr σ i) = PInc cv ws ∧ rds t ⊆ rds (thr σ i)) →
  (∀ a val v, (a, val, v) ∈ rds t → v ≤ ver σ (lk a) ∧
     (ver σ (lk a) ≤ v → (∀ c, ¬ decided_owner σ (lk a) c) → mget (lmem σ) a = val)) →
  (∀ a val, (a, val) ∈ lrds t → own σ (lk a) = Some i ∧ mget (lmem σ) a = val ∧ running (ph t)) →
  (∀ a val v n, (a, val, v, n) ∈ fixd t → fixed_at σ i a val v n) →
  lv_inv (set_thr σ i t).
Proof.
  intros I Ht Hi Hinc Hr Hl Hf. set (σ' := set_thr σ i t).
  assert (HP : ∀ ℓ, (j ← own σ' ℓ; dec (ph (thr σ' j))) = (j ← own σ ℓ; dec (ph (thr σ j)))) by (intros ℓ; exact (set_thr_dec σ i t ℓ Ht Hi)).
  assert (HD : ∀ ℓ c, decided_owner σ' ℓ c ↔ decided_owner σ ℓ c) by (intros; rewrite !decided_dec; by rewrite HP).
  assert (HN : ∀ o a n, no_pending σ o a n → no_pending σ' o a n).
  { intros o a n. apply no_pending_mono. intros j cv ws ? Hp _ Ho. split_and!; [done| |done]. exists ws.
    unfold σ' in Hp. at_thr j i; [by apply Hinc|done]. }
  split.
  - intros a. rewrite pend_dec, HP, <- pend_dec. apply (iv_mem σ I).
  - intros c e He. destruct (iv_hist σ I c e He) as [? Hw]. split; [done|]. intros a Ha. rewrite HD. by apply Hw.
  - exact (iv_ver σ I).
  - intros j cv ws Hp. unfold σ' in *. at_thr j i; [|by apply (iv_inc σ I j cv ws)]. destruct (Hinc _ _ Hp) as [Hp' Hsub].
    destruct (iv_inc σ I i cv ws Hp') as (? & ? & ? & ? & Hv). split; [done|]. split_and!; [done..|]. intros. eapply Hv. by apply Hsub.
  - intros j cv ws Hp. unfold σ' in *. at_thr j i; [by rewrite Hp in Ht|by apply (iv_dec σ I j cv ws)].
  - intros j k cv ws ws' Hj Hk. unfold σ' in *. at_thr j i; at_thr k i; try done.
    + apply Hinc in Hj as [Hj _]. by eapply (iv_cv σ I).
    + apply Hinc in Hk as [Hk _]. by eapply (iv_cv σ I).
    + by eapply (iv_cv σ I).
  - intros j a val v Hin. unfold σ' in Hin. assert (v ≤ ver σ (lk a) ∧
     (ver σ (lk a) ≤ v → (∀ c, ¬ decided_owner σ (lk a) c) → mget (lmem σ) a = val)) as [? HC].
    { at_thr j i; [by apply Hr|by apply (iv_rds σ I j)]. }
    split; [done|]. intros ? Hno. apply HC; [done|]. intros c. rewrite <- HD. apply Hno.
  - intros j a val Hin. unfold σ' in *. at_thr j i; [by apply Hl|by apply (iv_lrds σ I)].
  - intros j a val v n Hin. unfold σ' in Hin. assert (fixed_at σ j a val v n) as (? & ? & ? & ? & Hdo).
    { at_thr j i; [by apply Hf|by apply (iv_fix σ I j)]. }
    split; [done|]. split_and!; [done|by apply HN|done|]. intros c Hc%HD. by apply Hdo.
  - intros n l Hn. destruct (iv_obs σ I n l Hn) as [? Hl']. split; [done|]. intros a val Hin. destruct (Hl' a val Hin). split; [done|by apply HN].
  - intros c e a val He Hin. destruct (iv_ser σ I c e a val He Hin). split; [done|by apply HN].
Qed.

(** Taking or dropping a lock outside of a commit. *)
Lemma own_inv σ i ℓ o :
  lv_inv σ → ph (thr σ i) = PActive ∨ ph (thr σ i) = PAbort → own σ ℓ = None ∨ own σ ℓ = Some i → o = None ∨ o = Some i →
  o = Some i ∨ lrds (thr σ i) = [] → lv_inv (set_own σ ℓ o).
Proof.
  intros I Hp Ho Ho' Hlr. set (σ' := set_own σ ℓ o).
  assert (Hni : ∀ c ws, ph (thr σ i) ≠ PInc c ws ∧ ph (thr σ i) ≠ PDec c ws) by (by intros; destruct Hp as [-> | ->]).
  assert (HO : ∀ ℓ' j, j ≠ i → own σ' ℓ' = Some j ↔ own σ ℓ' = Some j).
  { intros ℓ' j ?. unfold σ'. simpl. at_thr ℓ' ℓ; [|done]. destruct Ho as [-> | ->], Ho' as [-> | ->]; naive_solver. }
  assert (HD : ∀ ℓ c, decided_owner σ' ℓ c ↔ decided_owner σ ℓ c).
  { intros ℓ' c. split; intros (j & ws & Hj & Hd); exists j, ws; (split; [|done]);
      (apply HO; [intros ->; by destruct (Hni c ws)|done]). }
  assert (HP : ∀ ℓ, (j ← own σ' ℓ; dec (ph (thr σ' j))) = (j ← own σ ℓ; dec (ph (thr σ j)))).
  { assert (Hdi : dec (ph (thr σ i)) = None) by (by destruct Hp as [-> | ->]).
    intros ℓ'. unfold σ'. simpl. at_thr ℓ' ℓ; [|done]. destruct Ho as [-> | ->], Ho' as [-> | ->]; simpl; by rewrite ?Hdi. }
  assert (HN : ∀ o a n, no_pending σ o a n → no_pending σ' o a n).
  { intros o' a n. apply no_pending_mono. intros j cv ws ? Hpj _ Hoj. split_and!; [done|by exists ws|].
    apply HO; [intros ->; by destruct (Hni cv ws)|done]. }
  assert (HT : ∀ j cv ws, ph (thr σ j) = PInc cv ws ∨ ph (thr σ j) = PDec cv ws → j ≠ i).
  { intros j cv ws Hj ->. destruct (Hni cv ws). naive_solver. }
  split.
  - intros a. rewrite pend_dec, HP, <- pend_dec. apply (iv_mem σ I).
  - intros c e He. destruct (iv_hist σ I c e He) as [? Hw]. split; [done|]. intros a Ha. rewrite HD. by apply Hw.
  - exact (iv_ver σ I).
  - intros j cv ws Hj. pose proof (HT j cv ws (or_introl Hj)) as Hne. destruct (iv_inc σ I j cv ws Hj) as (? & ? & Hown & Hver & ?).
    split; [done|]. split_and!; [done|..|done]; [intros a Ha; apply HO; [done|by apply Hown]|].
    intros ℓ' Hℓ. apply Hver. by apply HO in Hℓ.
  - intros j cv ws Hj. pose proof (HT j cv ws (or_intror Hj)) as Hne. destruct (iv_dec σ I j cv ws Hj) as (? & ? & Hown & Hver).
    split_and!; [done|done|..]; [intros a Ha; apply HO; [done|by apply Hown]|].
    intros ℓ' Hℓ. apply Hver. by apply HO in Hℓ.
  - exact (iv_cv σ I).
  - intros j a val v Hin. destruct (iv_rds σ I j a val v Hin) as [? HC]. split; [done|]. intros ? Hno. apply HC; [done|].
    intros c. rewrite <- HD. apply Hno.
  - intros j a val Hin. destruct (iv_lrds σ I j a val Hin) as (Hoj & ? & ?). split_and!; [|done..].
    destruct (decide (j = i)) as [->|]; [|by apply HO]. unfold σ'. simpl. at_thr (lk a) ℓ; [|done].
    destruct Hlr as [->|Hlr]; [done|]. rewrite Hlr in Hin. by apply elem_of_nil in Hin.
  - intros j a val v n Hin. destruct (iv_fix σ I j a val v n Hin) as (? & ? & ? & ? & Hdo).
    split; [done|]. split_and!; [done|by apply HN|done|]. intros c Hc%HD. by apply Hdo.
  - intros n l Hn. destruct (iv_obs σ I n l Hn) as [? Hl']. split; [done|]. intros a val Hin. destruct (Hl' a val Hin). split; [done|by apply HN].
  - intros c e a val He Hin. destruct (iv_ser σ I c e a val He Hin). split; [done|by apply HN].
Qed.

(** ** Commit steps *)
Lemma increment_inv σ i ws :
  lv_inv σ → ph (thr σ i) = PActive → (∀ a, a ∈ ws.*1 → own σ (lk a) = Some i) →
  lv_inv (LVS (lmem σ) (S (clk σ)) (ver σ) (own σ) (hist σ) (<[i := set_ph (thr σ i) (PInc (S (clk σ)) ws)]> (thr σ)) (obs σ)).
Proof.
  intros I Hp Hown. set (σ' := LVS _ _ _ _ _ _ _).
  assert (Hfresh : hist σ !! S (clk σ) = None).
  { destruct (hist σ !! S (clk σ)) as [e|] eqn:He; [|done]. apply (iv_hist σ I) in He as [? _]. lia. }
  assert (HP : ∀ ℓ, (j ← own σ' ℓ; dec (ph (thr σ' j))) = (j ← own σ ℓ; dec (ph (thr σ j)))).
  { intros ℓ. simpl. destruct (own σ ℓ) as [j|]; [|done]. simpl. at_thr j i; [by rewrite Hp|done]. }
  assert (HD : ∀ ℓ c, decided_owner σ' ℓ c ↔ decided_owner σ ℓ c) by (intros; rewrite !decided_dec; by rewrite HP).
  assert (HN : ∀ o a n, n ≤ S (clk σ) → no_pending σ o a n → no_pending σ' o a n).
  { intros o a n Hn. apply no_pending_mono. intros j cv ws' ? Hpj ? Ho. split_and!; [done| |done]. unfold σ' in Hpj. at_thr j i; [|by exists ws'].
    injection Hpj as <- <-. lia. }
  split.
  - intros a. rewrite pend_dec, HP, <- pend_dec. simpl. rewrite Hfresh. apply (iv_mem σ I).
  - intros c e He. destruct (iv_hist σ I c e He) as [? Hw]. split; [simpl; lia|]. intros a Ha. rewrite HD. by apply Hw.
  - intros ℓ. simpl. pose proof (iv_ver σ I ℓ). lia.
  - intros j cv ws' Hpj. unfold σ' in *. at_thr j i.
    + injection Hpj as <- <-. split; [lia|]. split_and!; [done..|intros; pose proof (iv_ver σ I ℓ); lia|].
      intros a val v Hin. destruct (iv_rds σ I i a val v Hin) as [? _]. pose proof (iv_ver σ I (lk a)). lia.
    + destruct (iv_inc σ I j cv ws' Hpj) as ([? ?] & ? & ? & ?). split; [lia|done].
  - intros j cv ws' Hpj. unfold σ' in *. at_thr j i; [done|]. destruct (iv_dec σ I j cv ws' Hpj) as (? & ? & ? & ?). split_and!; [done|lia|done..].
  - intros j k cv ws1 ws2 Hj Hk. unfold σ' in *. at_thr j i; at_thr k i; try done.
    + apply (iv_inc σ I) in Hk as ([? ?] & _). injection Hj as <- <-. lia.
    + apply (iv_inc σ I) in Hj as ([? ?] & _). injection Hk as <- <-. lia.
    + by eapply (iv_cv σ I).
  - intros j a val v Hin. assert (Hin' : (a, val, v) ∈ rds (thr σ j)) by (unfold σ' in Hin; at_thr j i; done).
    destruct (iv_rds σ I j a val v Hin') as [? HC]. split; [done|]. intros ? Hno. apply HC; [done|]. intros c. rewrite <- HD. apply Hno.
  - intros j a val Hin. unfold σ' in *. at_thr j i; destruct (iv_lrds σ I _ a val Hin) as (? & ? & ?); done.
  - intros j a val v n Hin. assert (Hin' : (a, val, v, n) ∈ fixd (thr σ j)) by (unfold σ' in Hin; at_thr j i; done).
    destruct (iv_fix σ I j a val v n Hin') as ([? ?] & ? & ? & ? & Hdo). split; [simpl; lia|].
    split_and!; [done|by apply HN; [lia|]|done|]. intros c Hc%HD. by apply Hdo.
  - intros n l Hn. destruct (iv_obs σ I n l Hn) as [? Hl]. split; [simpl; lia|]. intros a val Hin. destruct (Hl a val Hin). split; [done|].
    apply HN; [lia|done].
  - intros c e a val He Hin. destruct (iv_ser σ I c e a val He Hin). split; [done|].
    destruct (iv_hist σ I c e He) as [? _]. apply HN; [lia|done].
Qed.

(** Below the version of a commit no later transaction has written what it owns. *)
Lemma owned_last σ i cv ws a :
  lv_inv σ → ph (thr σ i) = PInc cv ws → own σ (lk a) = Some i →
  ∀ c e, hist σ !! c = Some e → cv - 1 < c → a ∉ (ce_writes e).*1.
Proof.
  intros I Hp Ho c e He Hc Ha. destruct (iv_inc σ I i cv ws Hp) as (_ & _ & _ & Hver & _).
  destruct (iv_hist σ I c e He) as [_ Hw]. specialize (Hver _ Ho). destruct (Hw a Ha) as [?|(j & ws' & Hj & Hd)]; [lia|].
  rewrite Ho in Hj. injection Hj as <-. by rewrite Hp in Hd.
Qed.

Lemma unowned_dec σ ℓ i : own σ ℓ = Some i → dec (ph (thr σ i)) = None → pend σ ℓ = [].
Proof. intros Ho Hd. rewrite pend_dec, Ho. simpl. by rewrite Hd. Qed.

(** The reads of a transaction about to be decided are those of the history before it. *)
Lemma decide_reads σ i cv ws a val :
  lv_inv σ → ph (thr σ i) = PInc cv ws →
  (∀ a val v, (a, val, v) ∈ rds (thr σ i) → (a, val, v, cv) ∈ fixd (thr σ i)) →
  (a, val) ∈ (rds (thr σ i)).*1 ++ lrds (thr σ i) → at_ver (hist σ) (cv - 1) a = val ∧ no_pending σ (Some i) a cv.
Proof.
  intros I Hp Hall [Hin|Hin]%elem_of_app.
  - apply list_elem_of_fmap in Hin as ([[a' val'] v] & [= <- <-] & Hin). destruct (iv_fix σ I i a val v cv) as (_ & ? & ? & _); [by eapply Hall|done].
  - destruct (iv_lrds σ I i a val Hin) as (Ho & <- & _). destruct (iv_inc σ I i cv ws Hp) as ([? ?] & _). split.
    + rewrite <- (at_ver_skip (hist σ) (cv - 1) (clk σ)); [|lia|intros c e He [? ?]; by eapply owned_last].
      rewrite <- (iv_mem σ I). by rewrite (unowned_dec σ (lk a) i) by (done || by rewrite Hp).
    + intros j cv' ws' Hj _ _ Hoj. rewrite Ho in Hoj. by injection Hoj as ->.
Qed.

Lemma decide_mem σ i cv ws e a :
  lv_inv σ → ph (thr σ i) = PInc cv ws → ce_writes e = ws →
  mget (wr (lmem σ) (if decide (own σ (lk a) = Some i) then ws else pend σ (lk a))) a = at_ver (<[cv := e]> (hist σ)) (clk σ) a.
Proof.
  intros I Hp He. destruct (iv_inc σ I i cv ws Hp) as ([? ?] & Hno & Hown & _). destruct (decide (a ∈ ws.*1)) as [Ha|Ha].
  - rewrite decide_True by auto. rewrite at_ver_insert_last; [|done|by rewrite He|lia|].
    + rewrite He. unfold mget. by rewrite (wr_lookup_in _ ∅).
    + intros c' e' He' [? ?]. eapply owned_last; [done..|by apply Hown|done|lia].
  - rewrite at_ver_insert_ne by (done || by rewrite He). rewrite <- (iv_mem σ I). case_decide as Ho; [|done].
    rewrite (unowned_dec σ (lk a) i) by (done || by rewrite Hp). unfold mget. by rewrite wr_lookup_ne.
Qed.

(** The history of the others is not affected by a decision. *)
Lemma decide_at σ i cv ws e o n a :
  lv_inv σ → ph (thr σ i) = PInc cv ws → ce_writes e = ws → Some i ≠ o → no_pending σ o a n →
  at_ver (<[cv := e]> (hist σ)) (n - 1) a = at_ver (hist σ) (n - 1) a.
Proof.
  intros I Hp He Hne Hn. destruct (iv_inc σ I i cv ws Hp) as ([? ?] & Hno & Hown & _).
  destruct (decide (cv < n)) as [Hlt|]; [|apply at_ver_insert_gt; lia].
  apply at_ver_insert_ne; [done|]. rewrite He. intros Ha. by apply (Hn i cv ws Hne Hp Hlt), Hown.
Qed.

Lemma decide_inv σ i cv ws :
  lv_inv σ → ph (thr σ i) = PInc cv ws → (∀ a val v, (a, val, v) ∈ rds (thr σ i) → (a, val, v, cv) ∈ fixd (thr σ i)) →
  lv_inv (LVS (lmem σ) (clk σ) (ver σ) (own σ)
    (<[cv := CE ((rds (thr σ i)).*1 ++ lrds (thr σ i)) ws]> (hist σ)) (<[i := LVT (PDec cv ws) [] [] []]> (thr σ)) (obs σ)).
Proof.
  intros I Hp Hall. set (e := CE _ ws). set (σ' := LVS _ _ _ _ _ _ _).
  destruct (iv_inc σ I i cv ws Hp) as ([? ?] & Hnone & Hown & Hver & _).
  assert (HD : ∀ ℓ c, decided_owner σ ℓ c → decided_owner σ' ℓ c).
  { intros ℓ c (j & ws' & ? & Hj). exists j, ws'. split; [done|]. unfold σ'. at_thr j i; [by rewrite Hp in Hj|done]. }
  assert (HN : ∀ o o' a n, (∀ j, j ≠ i → Some j ≠ o' → Some j ≠ o) → no_pending σ o a n → no_pending σ' o' a n).
  { intros o o' a n Ho. apply no_pending_mono. intros j cv' ws' ? Hpj _ Hoj. unfold σ' in Hpj. at_thr j i; [done|]. split_and!; [by apply Ho|by exists ws'|done]. }
  split.
  - intros a. unfold σ'. simpl. rewrite <- (decide_mem σ i cv ws e a) by done. f_equal. f_equal. unfold pend. simpl.
    case_decide as Ho; [rewrite Ho; by rewrite fn_lookup_insert|].
    destruct (own σ (lk a)) as [j|] eqn:Hj; [|done]. rewrite fn_lookup_insert_ne by congruence. done.
  - intros c e'. unfold σ'. simpl. destruct (decide (c = cv)) as [->|Hc].
    + rewrite lookup_insert_eq. intros [= <-]. split; [lia|]. intros a Ha. right. exists i, ws. simpl. rewrite fn_lookup_insert. split; [by apply Hown|done].
    + rewrite lookup_insert_ne by done. intros He. destruct (iv_hist σ I c e' He) as [? Hw]. split; [done|]. intros a Ha. destruct (Hw a Ha); [by left|right; by apply HD].
  - exact (iv_ver σ I).
  - intros j cv' ws' Hj. unfold σ' in *. at_thr j i; [done|]. destruct (iv_inc σ I j cv' ws' Hj) as (? & ? & ?). split; [done|split; [|done]].
    destruct (decide (cv' = cv)) as [->|Hne]; [by destruct (iv_cv σ I j i cv ws' ws Hj Hp)|by rewrite lookup_insert_ne].
  - intros j cv' ws' Hj. unfold σ' in *. at_thr j i.
    + injection Hj as <- <-. split_and!; [by rewrite lookup_insert_eq|lia|done|done].
    + destruct (iv_dec σ I j cv' ws' Hj) as (? & ? & ? & ?). split_and!; [|done..].
      destruct (decide (cv' = cv)) as [->|]; [rewrite lookup_insert_eq; by eexists|by rewrite lookup_insert_ne].
  - intros j k cv' ws1 ws2 Hj Hk. unfold σ' in *. at_thr j i; at_thr k i; try done. by eapply (iv_cv σ I).
  - intros j a val v Hin. unfold σ' in Hin. at_thr j i; [by apply elem_of_nil in Hin|]. destruct (iv_rds σ I j a val v Hin) as [? HC].
    split; [done|]. intros ? Hno. apply HC; [done|]. intros c Hc. apply (Hno c). by apply HD.
  - intros j a val Hin. unfold σ' in *. at_thr j i; [by apply elem_of_nil in Hin|]. by apply (iv_lrds σ I).
  - intros j a val v n Hin. unfold σ' in Hin. at_thr j i; [by apply elem_of_nil in Hin|].
    destruct (iv_fix σ I j a val v n Hin) as (? & Hat & Hn & ? & Hdo). split; [done|]. split_and!; [|by apply (HN (Some j))|done|].
    + unfold σ'. simpl. rewrite (decide_at σ i cv ws e (Some j)); [done..|congruence|done].
    + intros c (k & ws' & Hk & Hd). unfold σ' in Hk, Hd. at_thr k i; [|apply Hdo; by exists k, ws']. injection Hd as <- <-.
      destruct (decide (n ≤ cv)) as [|Hlt]; [done|]. exfalso. apply (Hn i cv ws); [congruence|done|lia|done].
  - intros n l Hn. destruct (iv_obs σ I n l Hn) as [? Hl]. split; [done|]. intros a val Hin. destruct (Hl a val Hin) as [Hat Hnp].
    split; [|by apply (HN None)]. unfold σ'. simpl. replace n with (S n - 1) by lia. rewrite (decide_at σ i cv ws e None) by done.
    by replace (S n - 1) with n by lia.
  - intros c e' a val. unfold σ'. simpl. destruct (decide (c = cv)) as [->|Hc].
    + rewrite lookup_insert_eq. intros [= <-] Hin. destruct (decide_reads σ i cv ws a val) as [Hat Hn]; [done..|].
      rewrite at_ver_insert_gt by lia. split; [done|]. apply (HN (Some i)); [congruence|done].
    + rewrite lookup_insert_ne by done. intros He Hin. destruct (iv_ser σ I c e' a val He Hin) as [Hat Hn].
      rewrite (decide_at σ i cv ws e None) by done. split; [done|by apply (HN None)].
Qed.

Lemma writeback_inv σ i cv a b ws :
  lv_inv σ → ph (thr σ i) = PDec cv ((a, b) :: ws) →
  lv_inv (LVS (<[a := b]> (lmem σ)) (clk σ) (ver σ) (own σ) (hist σ) (<[i := LVT (PDec cv ws) [] [] []]> (thr σ)) (obs σ)).
Proof.
  intros I Hp. set (σ' := LVS _ _ _ _ _ _ _). destruct (iv_dec σ I i cv _ Hp) as (He & Hcv & Hown & Hver).
  assert (Ha : own σ (lk a) = Some i) by (apply Hown; left).
  assert (HD : ∀ ℓ c, decided_owner σ' ℓ c ↔ decided_owner σ ℓ c).
  { intros ℓ c. split; intros (j & ws' & ? & Hj); unfold σ' in *; (at_thr j i; [|exists j, ws'; split; [done|simpl; by rewrite ?fn_lookup_insert_ne]]).
    - injection Hj as -> ->. exists i, ((a, b) :: ws'). done.
    - rewrite Hp in Hj. injection Hj as -> ?. exists i, ws. simpl. by rewrite fn_lookup_insert. }
  assert (HN : ∀ o a n, no_pending σ o a n → no_pending σ' o a n).
  { intros o a' n. apply no_pending_mono. intros j cv' ws' ? Hpj _ Hoj. unfold σ' in Hpj. at_thr j i; [done|]. split_and!; [done|by exists ws'|done]. }
  assert (Hmem : ∀ a', own σ (lk a') ≠ Some i → mget (<[a := b]> (lmem σ)) a' = mget (lmem σ) a').
  { intros a' Hne. unfold mget. rewrite lookup_insert_ne; [done|congruence]. }
  split.
  - intros a'. unfold σ'. simpl. rewrite <- (iv_mem σ I). unfold pend. simpl. destruct (own σ (lk a')) as [j|] eqn:Hj; [|apply Hmem; congruence].
    at_thr j i; [by rewrite Hp|]. unfold mget.
    assert (Hne : a' ≠ a) by congruence. rewrite <- (lookup_insert_ne (wr (lmem σ) _) a a' b) by done. f_equal.
    pose proof (wr_comm (lmem σ) [(a, b)] (match ph (thr σ j) with PDec _ ws => ws | _ => [] end)) as Hc. simpl in Hc. rewrite Hc; [done|].
    intros x Hx1 Hx2. simpl in Hx1. apply list_elem_of_singleton in Hx1 as ->. destruct (ph (thr σ j)) as [| | |cv' ws'|] eqn:Hpj; simpl in Hx2; try by apply elem_of_nil in Hx2.
    apply (iv_dec σ I j cv' ws' Hpj) in Hx2. congruence.
  - intros c e He'. destruct (iv_hist σ I c e He') as [? Hw]. split; [done|]. intros a' Ha'. rewrite HD. by apply Hw.
  - exact (iv_ver σ I).
  - intros j cv' ws' Hj. unfold σ' in *. at_thr j i; [done|by apply (iv_inc σ I j cv' ws')].
  - intros j cv' ws' Hj. unfold σ' in *. at_thr j i; [|by apply (iv_dec σ I j cv' ws')]. injection Hj as <- <-.
    split_and!; [done..| |done]. intros a' Ha'. apply Hown. by right.
  - intros j k cv' ws1 ws2 Hj Hk. unfold σ' in *. at_thr j i; at_thr k i; try done. by eapply (iv_cv σ I).
  - intros j a' val v Hin. unfold σ' in Hin. at_thr j i; [by apply elem_of_nil in Hin|]. destruct (iv_rds σ I j a' val v Hin) as [? HC].
    split; [done|]. intros ? Hno. simpl. rewrite Hmem; [apply HC; [done|]; intros c; rewrite <- HD; apply Hno|].
    intros Ho. apply (Hno cv). apply HD. by exists i, ((a, b) :: ws).
  - intros j a' val Hin. unfold σ' in *. at_thr j i; [by apply elem_of_nil in Hin|]. destruct (iv_lrds σ I j a' val Hin) as (? & ? & ?).
    split_and!; [done| |done]. rewrite Hmem; [done|congruence].
  - intros j a' val v n Hin. unfold σ' in Hin. at_thr j i; [by apply elem_of_nil in Hin|].
    destruct (iv_fix σ I j a' val v n Hin) as (? & ? & ? & ? & Hdo). split; [done|]. split_and!; [done|by apply HN|done|].
    intros c Hc%HD. by apply Hdo.
  - intros n l Hn. destruct (iv_obs σ I n l Hn) as [? Hl']. split; [done|]. intros a' val Hin. destruct (Hl' a' val Hin). split; [done|by apply HN].
  - intros c e a' val He' Hin. destruct (iv_ser σ I c e a' val He' Hin). split; [done|by apply HN].
Qed.

Lemma release_version_inv σ i cv ℓ :
  lv_inv σ → ph (thr σ i) = PDec cv [] → own σ ℓ = Some i →
  lv_inv (LVS (lmem σ) (clk σ) (<[ℓ := cv]> (ver σ)) (<[ℓ := None]> (own σ)) (hist σ) (thr σ) (obs σ)).
Proof.
  intros I Hp Hℓ. set (σ' := LVS _ _ _ _ _ _ _). destruct (iv_dec σ I i cv _ Hp) as (He & Hcv & Hown & Hver). specialize (Hver ℓ Hℓ) as Hlt.
  assert (HV : ∀ ℓ', ver σ ℓ' ≤ ver σ' ℓ') by (intros ℓ'; unfold σ'; simpl; at_thr ℓ' ℓ; lia).
  assert (HO : ∀ ℓ' j, own σ' ℓ' = Some j → ℓ' ≠ ℓ ∧ own σ ℓ' = Some j).
  { intros ℓ' j. unfold σ'. simpl. at_thr ℓ' ℓ; done. }
  assert (HO' : ∀ ℓ' j, j ≠ i → own σ ℓ' = Some j → ℓ' ≠ ℓ ∧ own σ' ℓ' = Some j).
  { intros ℓ' j ? Ho. assert (ℓ' ≠ ℓ) by congruence. split; [done|]. unfold σ'. simpl. by rewrite fn_lookup_insert_ne. }
  assert (HVne : ∀ ℓ', ℓ' ≠ ℓ → ver σ' ℓ' = ver σ ℓ') by (intros; unfold σ'; simpl; by rewrite fn_lookup_insert_ne).
  assert (HN : ∀ o a n, no_pending σ o a n → no_pending σ' o a n).
  { intros o a n. apply no_pending_mono. intros j cv' ws' ? Hpj _ Hoj. split_and!; [done|by exists ws'|by apply HO]. }
  split.
  - intros a. unfold σ'. simpl. rewrite <- (iv_mem σ I). f_equal. f_equal. unfold pend. simpl. at_thr (lk a) ℓ; [|done]. rewrite Hℓ. by rewrite Hp.
  - intros c e Hc. destruct (iv_hist σ I c e Hc) as [? Hw]. split; [done|]. intros a Ha. specialize (HV (lk a)).
    destruct (Hw a Ha) as [?|(j & ws & Hj & Hd)]; [left; lia|]. destruct (decide (lk a = ℓ)) as [Heq|Hne].
    + left. rewrite Heq in Hj |- *. rewrite Hℓ in Hj. injection Hj as <-. rewrite Hp in Hd. injection Hd as <- _. unfold σ'. simpl. rewrite fn_lookup_insert. lia.
    + right. exists j, ws. unfold σ'. simpl. by rewrite fn_lookup_insert_ne.
  - intros ℓ'. unfold σ'. simpl. at_thr ℓ' ℓ; [done|apply (iv_ver σ I)].
  - intros j cv' ws' Hj. destruct (iv_inc σ I j cv' ws' Hj) as (? & ? & Hoj & Hvj & ?). assert (j ≠ i) by (intros ->; simpl in Hj; congruence).
    split; [done|]. split_and!; [done|intros a Ha; apply HO'; auto| |done]. intros ℓ' [? ?]%HO. rewrite HVne by done. auto.
  - intros j cv' ws' Hj. destruct (iv_dec σ I j cv' ws' Hj) as (? & ? & Hoj & Hvj).
    split_and!; [done..| |intros ℓ' [? ?]%HO; rewrite HVne by done; auto].
    intros a Ha. apply HO'; [|auto]. intros ->. simpl in Hj. rewrite Hp in Hj. injection Hj as <- <-. by apply elem_of_nil in Ha.
  - exact (iv_cv σ I).
  - intros j a val v Hin. destruct (iv_rds σ I j a val v Hin) as [Hle HC]. pose proof (HV (lk a)). split; [lia|]. intros Hle' Hno.
    destruct (decide (lk a = ℓ)) as [Heq|Hne]; [unfold σ' in Hle'; simpl in Hle'; rewrite Heq, fn_lookup_insert in Hle'; rewrite Heq in Hle; lia|].
    apply HC; [lia|]. intros c (k & ws & Hk & Hd). apply (Hno c). exists k, ws. unfold σ'. simpl. by rewrite fn_lookup_insert_ne.
  - intros j a val Hin. destruct (iv_lrds σ I j a val Hin) as (Hoj & ? & Hr). split; [|done]. apply HO'; [|done]. intros ->. simpl in Hin. by rewrite Hp in Hr.
  - intros j a val v n Hin. destruct (iv_fix σ I j a val v n Hin) as (? & ? & ? & Hv & Hdo). split; [done|].
    split_and!; [done|by apply HN| |intros c (k & ws & Hk & Hd); apply HO in Hk as [_ Hk]; apply Hdo; by exists k, ws].
    destruct (decide (lk a = ℓ)) as [Heq|Hne]; [|by rewrite HVne]. right. unfold σ'. simpl. rewrite Heq, fn_lookup_insert.
    apply Hdo. exists i, []. by rewrite Heq.
  - intros n l Hn. destruct (iv_obs σ I n l Hn) as [? Hl']. split; [done|]. intros a' val Hin. destruct (Hl' a' val Hin). split; [done|by apply HN].
  - intros c e a val Hc Hin. destruct (iv_ser σ I c e a val Hc Hin). split; [done|by apply HN].
Qed.

(** A validated entry: the byte read is the history's just before the version checked. *)
Lemma check_fixed σ i a val v n :
  lv_inv σ → dec (ph (thr σ i)) = None → (a, val, v) ∈ rds (thr σ i) → own σ (lk a) = None ∨ own σ (lk a) = Some i →
  ver σ (lk a) ≤ v → v < n → n ≤ S (clk σ) →
  fixed_at σ i a val v n.
Proof.
  intros I Hd Hin Ho Hv Hvn Hn. assert (Hnd : ∀ c, ¬ decided_owner σ (lk a) c).
  { intros c. rewrite decided_dec. destruct Ho as [-> | ->]; [done|]. simpl. by rewrite Hd. }
  assert (Hpend : pend σ (lk a) = []) by (rewrite pend_dec; destruct Ho as [-> | ->]; [done|simpl; by rewrite Hd]).
  destruct (iv_rds σ I i a val v Hin) as [_ HC]. split; [lia|]. split_and!; [| |by left|intros c Hc; by destruct (Hnd c)].
  - rewrite <- (HC Hv Hnd). rewrite <- (at_ver_skip (hist σ) (n - 1) (clk σ)); [by rewrite <- (iv_mem σ I), Hpend|lia|].
    intros c e He [Hc _] Ha. destruct (iv_hist σ I c e He) as [_ Hw]. destruct (Hw a Ha) as [?|Hdo]; [lia|by apply (Hnd c)].
  - intros j cv ws Hj _ _ Hoj. destruct Ho as [Ho|Ho]; congruence.
Qed.

Lemma step_inv σ i σ' : lv_inv σ → lv_step i σ σ' → lv_inv σ'.
Proof.
  intros I Hs. destruct Hs as [σ Hp|σ ℓ Hp Ho|σ a v t -> Hp Hv|σ a t -> Hp Ho|σ t r l f -> Hp Hr Hl Hf|σ a val v n t -> Hp Hin Ho Hv Hvn Hn
    |σ ws Hp Ho|σ cv ws Hp Hall|σ cv a b ws Hp|σ cv ℓ Hp Ho|σ Hp|σ ℓ Hp Ho|σ cv Hp Ho|σ n l Hp Hn Hl Hcv].
  - apply local_inv; [done|done|rewrite Hp; by left|done|..]; intros *; simpl; by intros ?%elem_of_nil.
  - apply (own_inv σ i); [done|by left|by left|by right|by left].
  - apply local_inv; [done|by rewrite Hp|rewrite Hp; by left|by rewrite Hp| | |apply (iv_fix σ I)].
    + intros a' val v' [[= -> -> ->]|Hin]%elem_of_cons; [done|by apply (iv_rds σ I i)].
    + intros *. apply (iv_lrds σ I).
  - apply local_inv; [done|by rewrite Hp|rewrite Hp; by left|by rewrite Hp|apply (iv_rds σ I)| |apply (iv_fix σ I)].
    intros a' val [[= -> ->]|Hin]%elem_of_cons; [simpl; by rewrite Hp|by apply (iv_lrds σ I i)].
  - assert (Hd : dec (ph (thr σ i)) = None) by (by destruct (ph (thr σ i))).
    apply local_inv; [done|done|by left|done| | |]; simpl; intros.
    + apply (iv_rds σ I i). by apply Hr.
    + apply (iv_lrds σ I i). by apply Hl.
    + apply (iv_fix σ I i). by apply Hf.
  - assert (Hd : dec (ph (thr σ i)) = None) by (by destruct (ph (thr σ i))).
    apply local_inv; [done|done|by left|done|apply (iv_rds σ I)|apply (iv_lrds σ I)|].
    intros a' val' v' n' [[= -> -> -> ->]|Hin']%elem_of_cons; [|by apply (iv_fix σ I i)]. by eapply check_fixed.
  - by apply increment_inv.
  - by apply decide_inv.
  - by apply writeback_inv.
  - by eapply release_version_inv.
  - assert (Hd : dec (ph (thr σ i)) = None) by (by destruct (ph (thr σ i))).
    apply local_inv; [done|done|by left|done|..]; intros *; simpl; by intros ?%elem_of_nil.
  - apply (own_inv σ i); [done|by right|by right|by left|right].
    destruct (lrds (thr σ i)) as [|[a val] l] eqn:Hl; [done|]. destruct (iv_lrds σ I i a val) as (_ & _ & Hr); [rewrite Hl; left|by rewrite Hp in Hr].
  - apply local_inv; [done|done|by right|done|..]; intros *; simpl; by intros ?%elem_of_nil.
  - destruct I. split; try done. simpl. intros n' l' [[= -> ->]|Hin]%elem_of_cons; [|by auto]. split; [done|].
    intros a val Ha. destruct (Hl a val Ha) as [v Hf]. destruct (iv_fix0 i a val v (S n) Hf) as (_ & Hat & Hnp & _).
    replace (S n - 1) with n in Hat by lia. split; [done|]. intros j cv ws _ Hj Hlt. destruct (decide (j = i)) as [->|Hne].
    + specialize (Hcv cv ws Hj). lia.
    + apply (Hnp j cv ws); [congruence|done..].
Qed.

Lemma initial_inv σ : lv_initial σ → lv_inv σ.
Proof.
  intros (Hm & Hh & Hob & Hv & Ho & Ht). split.
  - intros a. unfold pend. rewrite Ho, Hh, Hm. simpl. symmetry. apply (at_ver_skip ∅ 0); [lia|]. intros c e He. by rewrite lookup_empty in He.
  - intros c e He. by rewrite Hh, lookup_empty in He.
  - intros ℓ. rewrite Hv. lia.
  - intros i cv ws. by rewrite Ht.
  - intros i cv ws. by rewrite Ht.
  - intros i j cv ws ws'. by rewrite Ht.
  - intros i a val v. rewrite Ht. by intros ?%elem_of_nil.
  - intros i a val. rewrite Ht. by intros ?%elem_of_nil.
  - intros i a val v n. rewrite Ht. by intros ?%elem_of_nil.
  - intros n l. rewrite Hob. by intros ?%elem_of_nil.
  - intros c e a val He. by rewrite Hh, lookup_empty in He.
Qed.

Lemma reachable_inv σ : lv_reachable σ → lv_inv σ.
Proof. induction 1; [by apply initial_inv|by eapply step_inv]. Qed.

(** The history in version order, as a serial execution: each transaction reads exactly
    the bytes its predecessors left, and shared memory is what they all leave, up to the
    stores a validated transaction has not written back yet. *)
Definition serializable σ : Prop :=
  (∀ c e a val, hist σ !! c = Some e → (a, val) ∈ ce_reads e → at_ver (hist σ) (c - 1) a = val) ∧
  (∀ a, (∀ c, ¬ decided_owner σ (lk a) c) → mget (lmem σ) a = at_ver (hist σ) (clk σ) a).

Lemma lv_serializable σ : lv_reachable σ → serializable σ.
Proof.
  intros I%reachable_inv. split; [intros; by eapply (iv_ser σ I)|].
  intros a Hno. rewrite <- (iv_mem σ I). rewrite pend_dec. destruct (own σ (lk a)) as [i|] eqn:Ho; [|done]. simpl.
  destruct (dec (ph (thr σ i))) as [[c ws]|] eqn:Hd; [|done]. destruct (Hno c). rewrite decided_dec, Ho. simpl. by rewrite Hd.
Qed.


(** ** What the other threads' steps leave in place *)
Record lv_frame (i : nat) σ σ' : Prop := LvFrame {
  fr_thr : thr σ' i = thr σ i;
  fr_own : ∀ ℓ, own σ' ℓ = Some i ↔ own σ ℓ = Some i;
  fr_ver : ∀ ℓ, ver σ ℓ ≤ ver σ' ℓ;
  fr_clk : clk σ ≤ clk σ';
}.

Lemma step_mono i σ σ' : lv_inv σ → lv_step i σ σ' → (∀ ℓ, ver σ ℓ ≤ ver σ' ℓ) ∧ clk σ ≤ clk σ'.
Proof.
  intros I Hs. destruct Hs as [| | | | | | | | |σ cv ℓ Hp Ho| | | |]; simpl; try (split; [done|lia]). split; [|lia].
  intros ℓ'. at_thr ℓ' ℓ; [|lia]. destruct (iv_dec σ I i cv [] Hp) as (_ & _ & _ & Hv). specialize (Hv ℓ Ho). lia.
Qed.

Lemma own_other (f : Z → option nat) ℓ o i j ℓ' :
  i ≠ j → f ℓ ≠ Some i → o = None ∨ o = Some j → <[ℓ := o]> f ℓ' = Some i ↔ f ℓ' = Some i.
Proof. intros Hij Hf Ho. at_thr ℓ' ℓ; [|done]. split; [|done]. destruct Ho as [-> | ->]; congruence. Qed.

Lemma step_frame i j σ σ' : lv_inv σ → lv_step j σ σ' → i ≠ j → lv_frame i σ σ'.
Proof.
  intros I Hs Hij. pose proof (step_mono j σ σ' I Hs) as [Hv Hc].
  split; [| |done|done]; destruct Hs; simpl; intros; rewrite ?fn_lookup_insert_ne by done; try done.
  - apply (own_other _ _ _ i j); [done|congruence|by right].
  - apply (own_other _ _ _ i j); [done|congruence|by left].
  - apply (own_other _ _ _ i j); [done|congruence|by left].
Qed.

Lemma steps_frame i j σ σ' : lv_inv σ → rtc (lv_step j) σ σ' → i ≠ j → lv_inv σ' ∧ lv_frame i σ σ'.
Proof.
  intros I Hs Hij. induction Hs as [σ|σ σ1 σ2 H1 Hs IH]; [done|]. destruct IH as [I2 [? Ho ? ?]]; [by eapply step_inv|].
  destruct (step_frame i j σ σ1 I H1 Hij) as [? Ho' ? ?]. split; [done|]. split; [congruence|by intros; rewrite Ho|etrans; eauto|lia].
Qed.

Lemma steps_reachable i σ σ' : lv_reachable σ → rtc (lv_step i) σ σ' → lv_reachable σ'.
Proof. intros Hr Hs. induction Hs as [|? ? ? H1 Hs IH]; [done|]. apply IH. by eapply lv_next. Qed.

(** Steps of one thread of a concrete machine keep a relation of each thread that depends
    only on what other threads cannot change. *)
Lemma steps_threads {T} (rel : lvs → nat → T → Prop) (ts : list T) i (u' : T) σ σ' :
  lv_reachable σ → rtc (lv_step i) σ σ' → (∀ j u σ σ', lv_frame j σ σ' → rel σ j u → rel σ' j u) →
  (∀ j u, ts !! j = Some u → rel σ j u) → rel σ' i u' → lv_reachable σ' ∧ ∀ j u, <[i := u']> ts !! j = Some u → rel σ' j u.
Proof.
  intros Hr Hs Hf HT Ht. split; [by eapply steps_reachable|]. intros j u Hj. apply list_lookup_insert_Some in Hj as [(-> & <- & _)|[Hne Hj]]; [done|].
  destruct (steps_frame j i σ σ' (reachable_inv σ Hr) Hs) as [_ F]; [done|]. eapply Hf; eauto.
Qed.

(** ** One thread seen from a concrete machine *)

(** The locks a thread owns. *)
Definition own_rel σ (i : nat) (ls : list Z) : Prop := NoDup ls ∧ ∀ ℓ, own σ ℓ = Some i ↔ ℓ ∈ ls.

Lemma own_frame σ σ' i ls : lv_frame i σ σ' → own_rel σ i ls → own_rel σ' i ls.
Proof. intros F [Hnd Ho]. split; [done|]. intros ℓ. by rewrite (fr_own _ _ _ F). Qed.

(** Only the records of thread [i] change. *)
Record upd (i : nat) σ σ' (T : lvt) : Prop := Upd {
  up_mem : lmem σ' = lmem σ; up_clk : clk σ' = clk σ; up_ver : ver σ' = ver σ; up_own : own σ' = own σ;
  up_hist : hist σ' = hist σ; up_obs : obs σ' = obs σ; up_thr : thr σ' i = T;
}.

Lemma upd_set_thr i σ T : upd i σ (set_thr σ i T) T.
Proof. split; try done. simpl. by rewrite fn_lookup_insert. Qed.

Lemma upd_trans i σ1 σ2 σ3 T T' : upd i σ1 σ2 T → upd i σ2 σ3 T' → upd i σ1 σ3 T'.
Proof. intros [] []. split; congruence. Qed.

Lemma own_upd i σ σ' T ls : upd i σ σ' T → own_rel σ i ls → own_rel σ' i ls.
Proof. intros U. unfold own_rel. by rewrite (up_own _ _ _ _ U). Qed.

Lemma forget_step i σ r l f :
  running (ph (thr σ i)) → r ⊆ rds (thr σ i) → l ⊆ lrds (thr σ i) → f ⊆ fixd (thr σ i) →
  ∃ σ', rtc (lv_step i) σ σ' ∧ upd i σ σ' (LVT (ph (thr σ i)) r l f).
Proof.
  intros. eexists. split; [|apply upd_set_thr]. apply rtc_once. by eapply lv_forget.
Qed.

(** Checking a list of reads at a version. *)
Lemma check_steps i σ c (l : list (Z * Z * nat)) :
  running (ph (thr σ i)) → (c ≤ S (clk σ)) →
  (∀ a val v, (a, val, v) ∈ l → (a, val, v) ∈ rds (thr σ i) ∧ (own σ (lk a) = None ∨ own σ (lk a) = Some i) ∧
     (ver σ (lk a) ≤ v) ∧ (v < c)) →
  ∃ σ' F, rtc (lv_step i) σ σ' ∧ upd i σ σ' (LVT (ph (thr σ i)) (rds (thr σ i)) (lrds (thr σ i)) F) ∧
    fixd (thr σ i) ⊆ F ∧ ∀ a val v, (a, val, v) ∈ l → (a, val, v, c) ∈ F.
Proof.
  intros Hr Hc. induction l as [|[[a val] v] l IH]; intros Hl.
  - exists σ, (fixd (thr σ i)). split_and!; [done|by split; try done; destruct (thr σ i)|done|]. intros *. by intros ?%elem_of_nil.
  - destruct IH as (σ1 & F & Hs & U & HF & Hin); [intros; apply Hl; by right|]. destruct (Hl a val v) as (H1 & H2 & H3 & H4); [left|].
    exists (set_thr σ1 i (LVT (ph (thr σ i)) (rds (thr σ i)) (lrds (thr σ i)) ((a, val, v, c) :: F))), ((a, val, v, c) :: F).
    pose proof U as [_ Uc Uv Uo _ _ Ut]. split_and!.
    + eapply rtc_r; [done|]. pose proof (lv_check i σ1 a val v c (thr σ1 i) eq_refl) as Hk. rewrite Ut in Hk. simpl in Hk.
      apply Hk; rewrite ?Uc, ?Uv, ?Uo; done.
    + eapply upd_trans; [done|apply upd_set_thr].
    + intros x Hx. right. by apply HF.
    + intros a' val' v' [[= -> -> ->]|Hx]%elem_of_cons; [left|right; by apply Hin].
Qed.

Lemma own_release σ σ' i ℓ ls : own_rel σ i (ℓ :: ls) → own σ' = <[ℓ := None]> (own σ) → own_rel σ' i ls.
Proof.
  intros [Hnd Ho] Hσ. apply NoDup_cons in Hnd as [Hni Hnd]. split; [done|]. intros ℓ'. rewrite Hσ.
  destruct (decide (ℓ' = ℓ)) as [->|]; [rewrite fn_lookup_insert; naive_solver|]. rewrite fn_lookup_insert_ne by done. rewrite Ho. set_solver.
Qed.

(** The locks a thread owns, as a predicate. *)
Definition owns σ (i : nat) (P : Z → Prop) : Prop := ∀ ℓ, own σ ℓ = Some i ↔ P ℓ.

Lemma owns_frame σ σ' i P : lv_frame i σ σ' → owns σ i P → owns σ' i P.
Proof. intros F Ho ℓ. by rewrite (fr_own _ _ _ F). Qed.

Lemma owns_upd i σ σ' T P : upd i σ σ' T → owns σ i P → owns σ' i P.
Proof. intros U Ho ℓ. by rewrite (up_own _ _ _ _ U). Qed.

(** The end of a transaction that owns no lock. *)
Lemma finish_steps i σ :
  owns σ i (λ _, False) →
  ph (thr σ i) = PIdle ∨ ph (thr σ i) = PActive ∨ ph (thr σ i) = PAbort ∨ (∃ cv, ph (thr σ i) = PDec cv []) →
  ∃ σ' T, rtc (lv_step i) σ σ' ∧ upd i σ σ' T ∧ ph T = PIdle.
Proof.
  intros Ho Hp. assert (ph (thr σ i) = PIdle ∨ ph (thr σ i) ≠ PIdle) as [Hi|Hni] by (destruct (ph (thr σ i)); auto).
  - exists σ, (thr σ i). by split_and!.
  - exists (set_thr σ i (LVT PIdle [] [] [])), (LVT PIdle [] [] []). split_and!; [|apply upd_set_thr|done]. apply rtc_once.
    apply (lv_finish _ _ (match ph (thr σ i) with PDec cv _ => cv | _ => O end)); [|by intros ℓ Hℓ%Ho].
    destruct Hp as [?|[?|[?|[cv Hp]]]]; [done|by auto..|]. left. by rewrite Hp.
Qed.

Lemma no_locks σ i : own_rel σ i [] → ∀ ℓ, own σ ℓ ≠ Some i.
Proof. intros [_ Ho] ℓ Hℓ%Ho. by apply elem_of_nil in Hℓ. Qed.
End Machine.

(** ** Histories as serial executions of logs *)

(** A log that replays, on any memory with the bytes an entry read, to what the entry writes. *)
Definition explains (evs : list event) (e : entry) : Prop :=
  ∀ m, holds m (ce_reads e) → ∃ m', replay m evs = Some m' ∧ ∀ x, mget m' x = mget (wr m (ce_writes e)) x.
Definition log_rel (h : option (list event)) (e : option entry) : Prop :=
  match h, e with
  | Some evs, Some e => explains evs e
  | None, None => True
  | _, _ => False
  end.

(** A history in which every entry read the bytes its predecessors left is the serial
    execution of the logs that explain its entries. *)
Lemma serial_entries m (H : gmap nat entry) (h : gmap nat (list event)) k :
  (∀ c e a val, H !! c = Some e → (a, val) ∈ ce_reads e → at_ver m H (c - 1) a = val) → (∀ c, log_rel (h !! c) (H !! c)) →
  ∃ M, serial m h k = Some M ∧ ∀ x, mget M x = at_ver m H k x.
Proof.
  intros Hser Hl. induction k as [|k (M & HM & Hx)]; [by exists m|]. cbn [serial]. rewrite HM. cbn [mbind option_bind].
  pose proof (Hl (S k)) as Hh. unfold log_rel in Hh. destruct (h !! S k) as [evs|] eqn:Hg, (H !! S k) as [e|] eqn:He; try done.
  - destruct (Hh M) as (M' & HM' & Hx').
    + intros a b Hin. rewrite Hx. pose proof (Hser _ _ _ _ He Hin) as Hat. by replace (S k - 1) with k in Hat by lia.
    + exists M'. split; [done|]. intros x. rewrite Hx'. cbn [at_ver]. rewrite He. case_decide as Hxw.
      * unfold mget. by rewrite (wr_lookup_in _ ∅).
      * rewrite <- Hx. unfold mget. by rewrite wr_lookup_ne.
  - exists M. split; [done|]. intros x. cbn [at_ver]. by rewrite He.
Qed.

Lemma serial_history lk m σ (h : gmap nat (list event)) k :
  lv_inv lk m σ → (∀ c, log_rel (h !! c) (hist σ !! c)) →
  ∃ M, serial m h k = Some M ∧ ∀ x, mget M x = at_ver m (hist σ) k x.
Proof. intros I. apply serial_entries. intros c e a val He Hin. by eapply (iv_ser _ _ σ I). Qed.

(** ** Version words with a lock bit

    The guards of TL2 and the entries of Romulus's version table: a version shifted by one
    and a lock bit.  The word does not say who holds the lock; the models do. *)

#[local] Open Scope Z_scope.
#[local] Open Scope word_scope.

Definition gword (v : nat) (o : option nat) : Z := 2 * Z.of_nat v + (match o with Some _ => 1 | None => 0 end).
Definition gver_ok (v : nat) : Prop := Z.of_nat v < 2 ^ 63.

Lemma gword_w v o : gver_ok v → is_w 64 (gword v o).
Proof. unfold gver_ok, is_w, gword. destruct o; lia. Qed.

Lemma gword_half v o : gword v o / 2 = Z.of_nat v.
Proof. unfold gword. symmetry. apply Z.div_unique with (r := match o with Some _ => 1 | None => 0 end); destruct o; lia. Qed.

Lemma gword_bit v o : negb (gword v o .& 1 =? 0) = bool_decide (is_Some o).
Proof.
  change 1 with (Z.ones 1). rewrite Z.land_ones by lia. change (2 ^ 1) with 2.
  unfold gword. replace (2 * Z.of_nat v) with (Z.of_nat v * 2) by lia. rewrite Z.add_comm, Z.mod_add by lia. by destruct o.
Qed.

Lemma gword_set_bit v i : gword v None .| 1 = gword v (Some i).
Proof.
  unfold gword. pose proof (lor_shift_add 1 (Z.of_nat v) 1) as H. rewrite Z.shiftl_mul_pow2 in H by lia.
  rewrite Z.add_0_r, Z.lor_comm. change (2 ^ 1) with 2 in H. rewrite (Z.mul_comm 2). rewrite H; unfold is_w; lia.
Qed.

(** Setting the bit of a locked word changes nothing. *)
Lemma gword_set_bit_again v i : gword v (Some i) .| 1 = gword v (Some i).
Proof. rewrite <- (gword_set_bit v i), <- Z.lor_assoc. by rewrite Z.lor_diag. Qed.

Lemma gword_free v v' o' : gword v' o' = gword v None → v' = v ∧ o' = None.
Proof. unfold gword. destruct o'; intros ?; [exfalso; lia|]. split; [lia|done]. Qed.
