(* ===== verification/LockWord.v ===== *)
(** * TinySTM lock words as versions with owners

    The word of a lock in the lock table of the write-back designs, from its version and
    the index of the thread that owns it (thread ids count from one).  Every operation
    the designs perform on lock words is computed on this form. *)

From S2P Require Import Prelude TinyLock.
#[local] Open Scope Z_scope.
#[local] Open Scope word_scope.

Definition tid (i : nat) : Z := Z.of_nat i + 1.

(** With version [v], incarnation [c] and owner [o]. *)
Definition iword (v : nat) (c : Z) (o : option nat) : Z :=
  match o with
  | None => pack (LV 0 c 0 (Z.of_nat v))
  | Some i => pack (LV 1 c (tid i) (Z.of_nat v))
  end.

(** The write-back designs never change the incarnation. *)
Definition word_of (v : nat) (o : option nat) : Z := iword v 0 o.

(** Versions and thread ids fit their fields. *)
Definition ver_ok (v : nat) : Prop := Z.of_nat v < 2 ^ 46.
Definition own_ok (o : option nat) : Prop := match o with None => True | Some i => tid i < 2 ^ 13 end.

Section IWords.
Context (v : nat) (c : Z) (o : option nat) (Hv : ver_ok v) (Hc : 0 ≤ c < 8) (Ho : own_ok o).

Lemma iword_unpack :
  is_w 64 (iword v c o) ∧
  unpack (iword v c o) = LV (match o with None => 0 | Some _ => 1 end) c (match o with None => 0 | Some i => tid i end) (Z.of_nat v).
Proof using Hv Hc Ho.
  unfold ver_ok, own_ok, tid in *.
  assert (lockv_ok (LV (match o with None => 0 | Some _ => 1 end) c (match o with None => 0 | Some i => tid i end) (Z.of_nat v))) as Hok.
  { unfold lockv_ok, is_w, tid. simpl. destruct o as [i|]; split_and!; try lia. }
  destruct o; split; first [by apply pack_is_w|by apply unpack_pack].
Qed.

Lemma iword_locked : is_locked (iword v c o) = bool_decide (is_Some o).
Proof using Hv Hc Ho. destruct iword_unpack as [Hw Hu]. rewrite is_locked_field, Hu by done. by destruct o. Qed.

Lemma iword_owner : get_owner (iword v c o) = match o with None => 0 | Some i => tid i end.
Proof using Hv Hc Ho. destruct iword_unpack as [Hw Hu]. by rewrite get_owner_field, Hu. Qed.

Lemma iword_version : get_version (iword v c o) = Z.of_nat v.
Proof using Hv Hc Ho. destruct iword_unpack as [Hw Hu]. by rewrite get_version_field, Hu. Qed.

Lemma iword_inc : get_incarnation (iword v c o) = c.
Proof using Hv Hc Ho. destruct iword_unpack as [Hw Hu]. by rewrite get_incarnation_field, Hu. Qed.

Lemma iword_locked_by i : is_locked_by (iword v c o) (tid i) = bool_decide (o = Some i).
Proof using Hv Hc Ho.
  destruct iword_unpack as [Hw Hu]. rewrite is_locked_by_field, iword_locked, Hu by done. simpl. destruct o as [j|]; simpl.
  - unfold tid. case_bool_decide as Hd; [injection Hd as ->; apply Z.eqb_refl|]. apply Z.eqb_neq. intros ?. apply Hd. f_equal. lia.
  - done.
Qed.

Lemma iword_owned i : (get_owner (iword v c o) =? tid i) = bool_decide (o = Some i).
Proof using Hv Hc Ho.
  rewrite iword_owner. unfold tid. case_bool_decide as Hd; [subst; apply Z.eqb_refl|]. apply Z.eqb_neq. destruct o as [j|]; [|lia].
  intros ?. apply Hd. f_equal. lia.
Qed.
End IWords.

Lemma iword_inj v c o v' c' o' :
  ver_ok v → 0 ≤ c < 8 → own_ok o → ver_ok v' → 0 ≤ c' < 8 → own_ok o' → iword v c o = iword v' c' o' → v = v' ∧ c = c' ∧ o = o'.
Proof.
  intros Hv Hc Ho Hv' Hc' Ho' Heq. destruct (iword_unpack v c o Hv Hc Ho) as [_ Hu]. destruct (iword_unpack v' c' o' Hv' Hc' Ho') as [_ Hu'].
  rewrite Heq, Hu' in Hu. injection Hu as H1 H2 H3 H4. split; [lia|]. split; [done|]. destruct o, o'; simpl in *; try done. unfold tid in *. f_equal. lia.
Qed.

Lemma iword_try_free v c i :
  ver_ok v → 0 ≤ c < 8 → own_ok (Some i) → try_lock_words (iword v c None) (tid i) = Some (iword v c None, iword v c (Some i)).
Proof.
  intros Hv Hc Hi. destruct (iword_unpack v c None Hv Hc I) as [Hw Hu]. rewrite try_lock_words_free; [|done|by rewrite iword_locked].
  rewrite Hu. simpl. do 3 f_equal. unfold wrap. f_equal. apply Z.mod_small. unfold own_ok, tid in *. lia.
Qed.

Lemma iword_try_held v c i j : ver_ok v → 0 ≤ c < 8 → own_ok (Some j) → try_lock_words (iword v c (Some j)) (tid i) = None.
Proof. intros Hv Hc Hj. apply try_lock_words_held. by rewrite iword_locked. Qed.

Lemma iword_release v c i cv : ver_ok v → 0 ≤ c < 8 → own_ok (Some i) → ver_ok cv →
  unlock_with_version (iword v c (Some i)) (tid i) (Z.of_nat cv) = Some (iword cv 0 None).
Proof.
  intros Hv Hcc Hi Hc. unfold unlock_with_version. rewrite iword_owner by done. rewrite Z.eqb_refl. f_equal.
  rewrite unlock_with_version_word. unfold iword, wrap. do 2 f_equal. apply Z.mod_small. unfold ver_ok in *. lia.
Qed.

(** An abort releases the lock with the next incarnation. *)
Lemma iword_inc_abort v c o z : ver_ok v → 0 ≤ c < 7 → own_ok o → inc_abort (iword v c o) z = iword v (c + 1) None.
Proof.
  intros Hv Hc Ho. destruct (iword_unpack v c o Hv ltac:(lia) Ho) as [Hw Hu]. rewrite inc_abort_word, Hu by done. simpl.
  unfold iword. by rewrite Z.mod_small by lia.
Qed.

Lemma inc_zero : 0 ≤ 0 < 8.
Proof. lia. Qed.

Section Words.
Context (v : nat) (o : option nat) (Hv : ver_ok v) (Ho : own_ok o).

Lemma word_of_unpack :
  is_w 64 (word_of v o) ∧
  unpack (word_of v o) = LV (match o with None => 0 | Some _ => 1 end) 0 (match o with None => 0 | Some i => tid i end) (Z.of_nat v).
Proof using Hv Ho. exact (iword_unpack v 0 o Hv inc_zero Ho). Qed.

Lemma word_is_w : is_w 64 (word_of v o).
Proof using Hv Ho. apply word_of_unpack. Qed.

Lemma word_locked : is_locked (word_of v o) = bool_decide (is_Some o).
Proof using Hv Ho. exact (iword_locked v 0 o Hv inc_zero Ho). Qed.

Lemma word_owner : get_owner (word_of v o) = match o with None => 0 | Some i => tid i end.
Proof using Hv Ho. exact (iword_owner v 0 o Hv inc_zero Ho). Qed.

Lemma word_version : get_version (word_of v o) = Z.of_nat v.
Proof using Hv Ho. exact (iword_version v 0 o Hv inc_zero Ho). Qed.

Lemma word_locked_by i : is_locked_by (word_of v o) (tid i) = bool_decide (o = Some i).
Proof using Hv Ho. exact (iword_locked_by v 0 o Hv inc_zero Ho i). Qed.

Lemma word_owned i : (get_owner (word_of v o) =? tid i) = bool_decide (o = Some i).
Proof using Hv Ho. exact (iword_owned v 0 o Hv inc_zero Ho i). Qed.
End Words.

Lemma word_inj v o v' o' : ver_ok v → own_ok o → ver_ok v' → own_ok o' → word_of v o = word_of v' o' → v = v' ∧ o = o'.
Proof. intros Hv Ho Hv' Ho' Heq. by destruct (iword_inj v 0 o v' 0 o' Hv inc_zero Ho Hv' inc_zero Ho' Heq) as (? & _ & ?). Qed.

Lemma word_try_free v i : ver_ok v → own_ok (Some i) → try_lock_words (word_of v None) (tid i) = Some (word_of v None, word_of v (Some i)).
Proof. intros Hv Hi. exact (iword_try_free v 0 i Hv inc_zero Hi). Qed.

Lemma word_try_held v i j : ver_ok v → own_ok (Some j) → try_lock_words (word_of v (Some j)) (tid i) = None.
Proof. intros Hv Hj. exact (iword_try_held v 0 i j Hv inc_zero Hj). Qed.

Lemma word_unlock v o : ver_ok v → own_ok o → word_of v o .& (not64 OWNED_MASK .& not64 (THREAD_MASK .<< LOCK_BITS)) = word_of v None.
Proof. intros Hv Ho. destruct (word_of_unpack v o Hv Ho) as [Hw Hu]. rewrite unlock_word by done. by rewrite Hu. Qed.

Lemma word_release v i cv : ver_ok v → own_ok (Some i) → ver_ok cv →
  unlock_with_version (word_of v (Some i)) (tid i) (Z.of_nat cv) = Some (word_of cv None).
Proof. intros Hv Hi Hc. exact (iword_release v 0 i cv Hv inc_zero Hi Hc). Qed.

(** The test of [validate] on a lock word, for an entry read at version [u]. *)
Lemma word_valid v o i u :
  ver_ok v → own_ok o → negb ((is_locked (word_of v o) && negb (get_owner (word_of v o) =? tid i)) || (u <? get_version (word_of v o))) = true →
  (o = None ∨ o = Some i) ∧ Z.of_nat v ≤ u.
Proof.
  intros Hv Ho. rewrite word_locked, word_owned, word_version by done.
  rewrite negb_true_iff, orb_false_iff, andb_false_iff, negb_false_iff, Z.ltb_ge, bool_decide_eq_false, bool_decide_eq_true.
  intros [[Hn'|Hi] Hle]; (split; [|done]); [left|by right]. destruct o as [j|]; [destruct Hn'; by eexists|done].
Qed.
