(* ===== verification/TinyShared.v ===== *)
(** * TinySTM: the state the variants share (tiny_stm/tinystm_common.hpp)

    The clock, the lock table, the spin token and the memory, with the ghost histories of
    committed transactions; the byte-wise loads of [read_value_from_addr]. *)

From stdpp Require Import functions.
From S2P Require Import Prelude Memory Values TMSpec LogMerge TinyLock Support.
Import SpinToken.
#[local] Open Scope Z_scope.

(** Shared state; [g_hist] and [g_ro] are ghost: the logs of the committed update
    transactions by commit version, and of the read-only ones with the versions they
    started and ended at. *)
Record wglobal := WG {
  g_mem : mem; g_clock : Z; g_locks : Z → Z; g_token : Z;
  g_hist : gmap nat (list event); g_ro : list (Z * Z * list event);
}.

(** [g_locks_wbetl.get(bo.base_addr)] for the word of an address. *)
Definition lock_of (addr : Z) : Z := lock_index (base_addr (ByteOffset_of (align_down_8 addr))).

Definition set_lock (g : wglobal) (l s : Z) : wglobal :=
  WG (g_mem g) (g_clock g) (<[l := s]> (g_locks g)) (g_token g) (g_hist g) (g_ro g).
Definition set_token (g : wglobal) (tok : Z) : wglobal :=
  WG (g_mem g) (g_clock g) (g_locks g) tok (g_hist g) (g_ro g).

(** The value of the bytes read, in the union. *)
Definition bytes_value (bs : list Z) : any_type_t := setp (AnyT 0) bs.

(** The next byte of [read_value_from_addr]. *)
Definition next_byte (g : wglobal) (a : Z) (bs : list Z) : list Z := bs ++ [mget (g_mem g) (a + Z.of_nat (length bs))].
Definition all_read (sz : ValueType) (bs : list Z) : bool := (type_size sz <=? length bs)%nat.

(** [init]: the clock is one, all locks are zero, the token is free. *)
Definition winit (m : mem) : wglobal := WG m 1 (λ _, 0) FREE ∅ [].
