(* ===== verification/TinySim.v ===== *)
(** * TinySTM: the shared state against the versioned-lock machine

    The relation between the state the TinySTM variants share and a state of the abstract
    machine of [VersionedLocks], and how the abstract steps of commits act on it.  The
    histories are related for the logs that satisfy a discipline [disc] of the variant. *)

From stdpp Require Import functions.
From S2P Require Import Prelude Memory Values TMSpec LogMerge TxLog TinyLock Support LockWord VersionedLocks TinyShared.
#[local] Open Scope Z_scope.

Lemma lock_of_acc a sz x : is_w 64 a → in_word sz a → in_acc a sz x → lock_of x = lock_of a.
Proof. intros Ha Hin Hx. unfold lock_of. by destruct (align_acc a sz x Ha Hin Hx) as [_ ->]. Qed.

Lemma align_idem a : is_w 64 a → align_down_8 (align_down_8 a) = align_down_8 a.
Proof.
  intros Ha. destruct (align_down_aligned a Ha) as [Hw Hm]. rewrite (align_down_base _ Hw). apply word_base_eq; [done|lia].
Qed.

Lemma lock_of_align a : is_w 64 a → lock_of (align_down_8 a) = lock_of a.
Proof. intros Ha. unfold lock_of. by rewrite align_idem. Qed.

(** A lock word loaded earlier for the word of [a]. *)
Definition seen (σ : lvs) (a l : Z) (o : option nat) (v : nat) : Prop :=
  l = word_of v o ∧ ver_ok v ∧ own_ok o ∧ (v ≤ ver σ (lock_of a))%nat.

Lemma seen_frame σ σ' i a l o v : lv_frame i σ σ' → seen σ a l o v → seen σ' a l o v.
Proof. intros F (-> & ? & ? & ?). split_and!; [done..|]. pose proof (fr_ver _ _ _ F (lock_of a)). lia. Qed.

Section Rel.
(** The discipline, the initial memory and the number of threads, which fits the owner field. *)
Context (disc : list event → bool) (m0 : mem) (n : nat) (Hn : Z.of_nat n < MAX_THREADS).
Implicit Types (σ : lvs) (g : wglobal).
#[local] Abbreviation lv_inv := (lv_inv lock_of m0).

Definition hist_rel (h : option (list event)) (e : option entry) : Prop :=
  match h, e with
  | Some evs, Some e => disc evs = true → explains evs e
  | None, None => True
  | _, _ => False
  end.

(** A log that reads the bytes [l] and writes nothing. *)
Definition observes (evs : list event) (l : list (Z * Z)) : Prop :=
  ∀ m, holds m l → ∃ m', replay m evs = Some m' ∧ ∀ x, mget m' x = mget m x.

Definition ro_rel σ (r : Z * Z * list event) : Prop :=
  0 ≤ r.1.1 ≤ r.1.2 ∧ r.1.2 ≤ Z.of_nat (clk σ) ∧
  ∃ l, (Z.to_nat r.1.2, l) ∈ obs σ ∧ (disc r.2 = true → observes r.2 l).

Record g_rel g σ : Prop := GRel {
  gr_mem : g_mem g = lmem σ;
  gr_clock : g_clock g = Z.of_nat (clk σ);
  gr_max : Z.of_nat (clk σ) < VERSION_MAX;
  gr_locks : ∀ ℓ, g_locks g ℓ = word_of (ver σ ℓ) (own σ ℓ);
  gr_own : ∀ ℓ j, own σ ℓ = Some j → (j < n)%nat;
  gr_hist : ∀ c, hist_rel (g_hist g !! c) (hist σ !! c);
  gr_ro : ∀ r, r ∈ g_ro g → ro_rel σ r;
}.

Lemma g_upd i g σ σ' T : upd i σ σ' T → g_rel g σ → g_rel g σ'.
Proof.
  intros [Um Uc Uv Uo Uh Ub _] [H1 H2 H3 H4 H5 H6 H7]. split; rewrite ?Um, ?Uc, ?Uv, ?Uo, ?Uh; try done.
  intros r Hr. unfold ro_rel. rewrite Uc, Ub. by apply H7.
Qed.

Lemma tid_ok i : (i < n)%nat → own_ok (Some i).
Proof using Hn. unfold own_ok, tid. change MAX_THREADS with (2 ^ 13) in Hn. lia. Qed.

Lemma lock_word g σ ℓ : lv_inv σ → g_rel g σ → ver_ok (ver σ ℓ) ∧ own_ok (own σ ℓ).
Proof using Hn.
  intros I G. split.
  - pose proof (iv_ver _ _ σ I ℓ). pose proof (gr_max g σ G) as Hm. unfold ver_ok. unfold VERSION_MAX in Hm. rewrite VERSION_MASK_ones in Hm.
    rewrite Z.ones_equiv in Hm. lia.
  - destruct (own σ ℓ) as [j|] eqn:Ho; [|done]. apply tid_ok. by eapply (gr_own g σ G).
Qed.

Lemma g_set_own g σ ℓ o : g_rel g σ → (∀ j, o = Some j → (j < n)%nat) → g_rel (set_lock g ℓ (word_of (ver σ ℓ) o)) (set_own σ ℓ o).
Proof.
  intros [H1 H2 H3 H4 H5 H6 H7] Ho. split; try done.
  - intros ℓ'. simpl. destruct (decide (ℓ' = ℓ)) as [->|]; [by rewrite !fn_lookup_insert|by rewrite !fn_lookup_insert_ne].
  - intros ℓ' j. simpl. destruct (decide (ℓ' = ℓ)) as [->|]; [rewrite fn_lookup_insert; apply Ho|rewrite fn_lookup_insert_ne by done; apply H5].
Qed.

Lemma g_set_token g σ tok : g_rel g σ → g_rel (set_token g tok) σ.
Proof. by intros []. Qed.

Lemma ver_ok_le g σ v : g_rel g σ → (v ≤ clk σ)%nat → ver_ok v.
Proof. intros G Hv. pose proof (gr_max g σ G) as Hm. unfold VERSION_MAX in Hm. rewrite VERSION_MASK_ones, Z.ones_equiv in Hm. unfold ver_ok. lia. Qed.

(** ** Steps of a commit *)

Lemma g_increment i g σ ws :
  g_rel g σ → (VERSION_MAX <=? g_clock g + 1) = false → ph (thr σ i) = PActive → (∀ a, a ∈ ws.*1 → own σ (lock_of a) = Some i) →
  let σ' := LVS (lmem σ) (S (clk σ)) (ver σ) (own σ) (hist σ) (<[i := set_ph (thr σ i) (PInc (S (clk σ)) ws)]> (thr σ)) (obs σ) in
  lv_step lock_of i σ σ' ∧ g_rel (WG (g_mem g) (g_clock g + 1) (g_locks g) (g_token g) (g_hist g) (g_ro g)) σ'.
Proof.
  intros G Hmax%Z.leb_gt Hp Ho. split; [by apply lv_increment|]. pose proof (gr_clock g σ G). destruct G as [H1 H2 H3 H4 H5 H6 H7].
  split; try done; simpl; [lia|lia|]. intros r Hr. destruct (H7 r Hr) as (? & ? & ?). split; [done|]. split; [simpl; lia|done].
Qed.

Lemma g_decide i g σ cv ws evs :
  g_rel g σ → ph (thr σ i) = PInc cv ws →
  (∀ a val v, (a, val, v) ∈ rds (thr σ i) → (a, val, v, cv) ∈ fixd (thr σ i)) →
  let e := CE ((rds (thr σ i)).*1 ++ lrds (thr σ i)) ws in
  let σ' := LVS (lmem σ) (clk σ) (ver σ) (own σ) (<[cv := e]> (hist σ)) (<[i := LVT (PDec cv ws) [] [] []]> (thr σ)) (obs σ) in
  (disc evs = true → explains evs e) →
  lv_step lock_of i σ σ' ∧ g_rel (WG (g_mem g) (g_clock g) (g_locks g) (g_token g) (<[cv := evs]> (g_hist g)) (g_ro g)) σ'.
Proof.
  intros G Hp Hf e σ' He. split; [by apply lv_decide|]. destruct G as [H1 H2 H3 H4 H5 H6 H7]. split; try done. intros c. simpl.
  destruct (decide (c = cv)) as [->|Hne]; [by rewrite !lookup_insert_eq|rewrite !lookup_insert_ne by done; apply H6].
Qed.

Lemma g_writeback i g σ cv a b st :
  g_rel g σ → ph (thr σ i) = PDec cv ((a, b) :: st) →
  let σ' := LVS (<[a := b]> (lmem σ)) (clk σ) (ver σ) (own σ) (hist σ) (<[i := LVT (PDec cv st) [] [] []]> (thr σ)) (obs σ) in
  lv_step lock_of i σ σ' ∧ g_rel (WG (<[a := b]> (g_mem g)) (g_clock g) (g_locks g) (g_token g) (g_hist g) (g_ro g)) σ'.
Proof.
  intros G Hp. split; [by apply lv_writeback|]. destruct G as [H1 H2 H3 H4 H5 H6 H7]. split; try done. simpl. by rewrite H1.
Qed.

Lemma g_release i g σ cv ℓ :
  lv_inv σ → g_rel g σ → ph (thr σ i) = PDec cv [] → own σ ℓ = Some i →
  let σ' := LVS (lmem σ) (clk σ) (<[ℓ := cv]> (ver σ)) (<[ℓ := None]> (own σ)) (hist σ) (thr σ) (obs σ) in
  unlock_with_version (g_locks g ℓ) (tid i) (Z.of_nat cv) = Some (word_of cv None) ∧
  lv_step lock_of i σ σ' ∧ g_rel (set_lock g ℓ (word_of cv None)) σ'.
Proof using Hn.
  intros I G Hp Ho. destruct (lock_word g σ ℓ I G) as [Hv Hok]. rewrite (gr_locks g σ G), Ho in *. destruct (iv_dec _ _ σ I i _ _ Hp) as (_ & Hle & _).
  split; [|split; [by apply lv_release_version|]].
  - apply word_release; [done|done|by eapply ver_ok_le].
  - destruct G as [H1 H2 H3 H4 H5 H6 H7]. split; try done.
    + intros ℓ'. simpl. destruct (decide (ℓ' = ℓ)) as [->|]; [by rewrite !fn_lookup_insert|by rewrite !fn_lookup_insert_ne].
    + intros ℓ' j. simpl. destruct (decide (ℓ' = ℓ)) as [->|]; [by rewrite fn_lookup_insert|rewrite fn_lookup_insert_ne by done; apply H5].
Qed.

Lemma g_observe i g σ s e evs l :
  g_rel g σ → ph (thr σ i) = PActive → 0 ≤ s ≤ e → e ≤ Z.of_nat (clk σ) →
  (∀ a val, (a, val) ∈ l → ∃ v, (a, val, v, S (Z.to_nat e)) ∈ fixd (thr σ i)) → (disc evs = true → observes evs l) →
  let σ' := LVS (lmem σ) (clk σ) (ver σ) (own σ) (hist σ) (thr σ) ((Z.to_nat e, l) :: obs σ) in
  lv_step lock_of i σ σ' ∧ g_rel (WG (g_mem g) (g_clock g) (g_locks g) (g_token g) (g_hist g) ((s, e, evs) :: g_ro g)) σ'.
Proof.
  intros G Hp Hs He Hf Hobs. split.
  - apply lv_observe; [by rewrite Hp|lia|done|by rewrite Hp].
  - destruct G as [H1 H2 H3 H4 H5 H6 H7]. split; try done. intros r [->|Hr]%elem_of_cons.
    + split; [done|]. split; [done|]. exists l. split; [left|done].
    + destruct (H7 r Hr) as (? & ? & l' & ? & ?). split; [done|]. split; [done|]. exists l'. split; [by right|done].
Qed.

(** ** Serial executions *)

Definition all_disc (h : gmap nat (list event)) : Prop := ∀ c evs, h !! c = Some evs → disc evs = true.

Lemma serial_at g σ k :
  lv_inv σ → g_rel g σ → all_disc (g_hist g) →
  ∃ M, serial m0 (g_hist g) k = Some M ∧ ∀ x, mget M x = at_ver m0 (hist σ) k x.
Proof.
  intros I G Hd. eapply serial_history; [done|]. intros c. pose proof (gr_hist g σ G c) as Hh. unfold hist_rel, log_rel in *.
  destruct (g_hist g !! c) as [evs|] eqn:Hg, (hist σ !! c) as [e|]; try done. by apply Hh, (Hd c).
Qed.

(** The read-only transactions that have committed. *)
Lemma ro_serial g σ s e evs :
  lv_inv σ → g_rel g σ → all_disc (g_hist g) → (s, e, evs) ∈ g_ro g → disc evs = true → 0 ≤ s ≤ e ∧ e ≤ g_clock g ∧
  ∃ m1 m2, serial m0 (g_hist g) (Z.to_nat e) = Some m1 ∧ replay m1 evs = Some m2 ∧ ∀ x, mget m2 x = mget m1 x.
Proof.
  intros I G Hd Hin Hde. destruct (gr_ro g σ G _ Hin) as (Hse & Hec & l & Hobs & Hl). simpl in *.
  rewrite (gr_clock g σ G). split; [done|]. split; [done|]. destruct (serial_at g σ (Z.to_nat e) I G Hd) as (M & HM & Hx).
  destruct (Hl Hde M) as (M' & ? & ?); [|by exists M, M']. intros a b Hab. rewrite Hx. destruct (iv_obs _ _ σ I _ _ Hobs) as [_ Ho]. by apply Ho.
Qed.
End Rel.
