(* ===== verification/WBETL.v ===== *)
(** * TinySTM, write-back with encounter-time locking (tiny_stm/tinystm_wbetl.hpp)

    The transaction operations as interleaved steps of threads on the shared clock,
    lock table, token and memory.  Every atomic access of the code to shared data is a
    step of its own; the computation between two accesses belongs to the step before
    it.  Lock words are the 64-bit words of the code, memory is read and written byte
    by byte.  The clock reset past [VERSION_MAX] (after 2^46 commits) has no step: an
    execution that reaches it is not continued.  Statistics counters, event logging and
    back-off delays are left out.

    Each thread carries a ghost log of the reads and writes its current transaction has
    performed; the shared state carries the logs of committed transactions. *)

From stdpp Require Import functions.
From S2P Require Import Prelude Memory Values TMSpec LogMerge TxLog TinyLock TinyWriteSet Support TinyShared.
Import SpinToken.
#[local] Open Scope Z_scope.
#[local] Open Scope word_scope.

(** [WriteLogEntry_wbetl]: a bitmap entry and the version of the lock when taken. *)
Record WriteLogEntry_wbetl := WLE { wle_redo : BitmapRedoEntry; wle_version : Z }.
Definition wle_none : WriteLogEntry_wbetl := WLE (MkRedo 0 0 0) 0.

Record wtx := WTx {
  w_id : Z; w_start : Z; w_end : Z; w_active : bool; w_ro : bool; w_aborts : Z; w_retry : bool;
  w_rset : list BitmapReadEntry; w_wset : wset WriteLogEntry_wbetl; w_held : list Z;
}.

(** A write in progress: address, type, value. *)
Record wacc := WAcc { wa_addr : Z; wa_sz : ValueType; wa_val : any_type_t }.

(** The four [try_lock] calls of [write_word_etl] and its two spin loops. *)
Inductive attempt := First | Second | AfterSpin | Third.
Inductive spin := SpinForeign | SpinFree.

(** Callers of [validate]. *)
Inductive vcaller := VRead (a : Z) (sz : ValueType) (l : Z) | VWrite (w : wacc) | VCommit (cv : Z).

Inductive wpc :=
  | Idle
  | BClock
  | RLockedBy (a : Z) (sz : ValueType)
  | ROwn (a : Z) (sz : ValueType) (bs : list Z)
  | RGet (a : Z) (sz : ValueType)
  | RLoop (a : Z) (sz : ValueType) (l : Z)
  | RBytes (a : Z) (sz : ValueType) (l : Z) (bs : list Z)
  | RRecheck (a : Z) (sz : ValueType) (l : Z) (bs : list Z)
  | EClock (k : vcaller)
  | VLoop (k : vcaller) (last_version : Z) (rs : list BitmapReadEntry)
  | WLocked (w : wacc)
  | WOwner (w : wacc)
  | WSoft (w : wacc) (k : spin)
  | WSoftCas (w : wacc) (k : spin)
  | WSpin (w : wacc) (k : spin)
  | WSpinOwner (w : wacc)
  | WSpinEnd (w : wacc)
  | WTry (w : wacc) (n : attempt)
  | WCas (w : wacc) (n : attempt) (expected desired : Z)
  | WOwned (w : wacc)
  | WVersion (w : wacc)
  | CInc
  | CWrite (cv : Z) (st : list (Z * Z))
  | CRelease (cv : Z) (ls : list Z)
  | CToken
  | AUnlock (ls : list Z)
  | AOwner (l : Z) (ls : list Z)
  | AClear (l : Z) (ls : list Z)
  | AToken.

Record wthread := WT { w_tx : wtx; w_pc : wpc; w_log : list event }.

Definition at_pc (t : wthread) (p : wpc) : wthread := WT (w_tx t) p (w_log t).
Definition with_tx (t : wthread) (x : wtx) (p : wpc) : wthread := WT x p (w_log t).
Definition tx_begin (x : wtx) (clock : Z) : wtx :=
  WTx (w_id x) clock clock true true (if w_retry x then w_aborts x else 0) false (w_rset x) (w_wset x) (w_held x).
Definition tx_reset (x : wtx) : wtx := WTx (w_id x) 0 0 false true 0 false [] (ws_clear (w_wset x)) [].
Definition tx_clear (x : wtx) : wtx :=
  WTx (w_id x) (w_start x) (w_end x) (w_active x) (w_ro x) (w_aborts x) (w_retry x) [] (ws_clear (w_wset x)) [].
Definition tx_aborted (x : wtx) : wtx :=
  WTx (w_id x) (w_start x) (w_end x) (w_active x) (w_ro x) (w_aborts x + 1) true (w_rset x) (w_wset x) (w_held x).
Definition tx_extended (x : wtx) (last_version : Z) : wtx :=
  WTx (w_id x) (w_start x) last_version (w_active x) (w_ro x) (w_aborts x) (w_retry x) (w_rset x) (w_wset x) (w_held x).
Definition tx_set_rset (x : wtx) (rs : list BitmapReadEntry) : wtx :=
  WTx (w_id x) (w_start x) (w_end x) (w_active x) (w_ro x) (w_aborts x) (w_retry x) rs (w_wset x) (w_held x).
Definition tx_set_wset (x : wtx) (w : wset WriteLogEntry_wbetl) : wtx :=
  WTx (w_id x) (w_start x) (w_end x) (w_active x) (w_ro x) (w_aborts x) (w_retry x) (w_rset x) w (w_held x).
Definition tx_set_held (x : wtx) (ls : list Z) : wtx :=
  WTx (w_id x) (w_start x) (w_end x) (w_active x) (w_ro x) (w_aborts x) (w_retry x) (w_rset x) (w_wset x) ls.
Definition tx_writes (x : wtx) : wtx :=
  WTx (w_id x) (w_start x) (w_end x) (w_active x) false (w_aborts x) (w_retry x) (w_rset x) (w_wset x) (w_held x).

Definition abort_tx (t : wthread) : wthread := at_pc t (AUnlock (w_held (w_tx t))).

(** One entry of [validate]: the lock word [l] of its address. *)
Definition validate_entry (l tx_id : Z) (r : BitmapReadEntry) : bool :=
  negb ((is_locked l && negb (get_owner l =? tx_id)) || (bread_version r <? get_version l)).

(** The read set after a validated read: merge into the word's entry, or a new entry. *)
Fixpoint record_read (rs : list BitmapReadEntry) (aligned version : Z) (val : any_type_t) (sz : ValueType) (addr : Z)
    : list BitmapReadEntry :=
  match rs with
  | [] => [make_read_entry aligned version val sz addr]
  | r :: rs' =>
      if bread_addr r =? aligned then merge_read r version val sz addr :: rs'
      else r :: record_read rs' aligned version val sz addr
  end.

(** The write-back loop of [commit]: the bytes present, entry by entry. *)
Definition wle_stores (aw : Z * WriteLogEntry_wbetl) : list (Z * Z) :=
  bitmap_stores aw.1 (redo_value (wle_redo aw.2)) (redo_valid (wle_redo aw.2)).
Definition ws_stores (w : wset WriteLogEntry_wbetl) : list (Z * Z) := concat (wle_stores <$> ws_vec w).

(** [locks_held.push_back] unless already there. *)
Definition push_lock (ls : list Z) (l : Z) : list Z := if bool_decide (l ∈ ls) then ls else ls ++ [l].

(** Return of [read_word_etl]. *)
Definition read_return (t : wthread) (x : wtx) (a : Z) (sz : ValueType) (v : any_type_t) : wthread :=
  WT x Idle (w_log t ++ [EvR a sz (return_any_type sz v)]).

Definition try_failed (t : wthread) (w : wacc) (n : attempt) : wthread :=
  match n with
  | First => at_pc t (VLoop (VWrite w) 0 (w_rset (w_tx t)))
  | Second => at_pc t (WSoft w SpinFree)
  | AfterSpin | Third => abort_tx t
  end.

(** ** Operations called by the program *)

Inductive wop := OpBegin | OpRead (a : Z) (sz : ValueType) | OpWrite (a : Z) (sz : ValueType) (v : any_type_t) | OpCommit.

Definition call_read (t : wthread) (a : Z) (sz : ValueType) : wthread :=
  match ws_find (w_wset (w_tx t)) (align_down_8 a) with
  | Some w =>
      match bitmap_read (AnyT 0) (redo_value (wle_redo w)) (redo_valid (wle_redo w)) sz a with
      | Some result => read_return t (w_tx t) a sz result
      | None => at_pc t (RLockedBy a sz)
      end
  | None => at_pc t (RLockedBy a sz)
  end.

Definition call_write (t : wthread) (a : Z) (sz : ValueType) (v : any_type_t) : wthread :=
  let x := tx_writes (w_tx t) in
  let aligned := align_down_8 a in
  match ws_pos (w_wset x) aligned, ws_find (w_wset x) aligned with
  | Some i, Some w =>
      let '(value, valid) := bitmap_write (redo_value (wle_redo w)) (redo_valid (wle_redo w)) v sz a in
      let w' := WLE (MkRedo (redo_addr (wle_redo w)) value valid) (wle_version w) in
      WT (tx_set_wset x (ws_assign (w_wset x) i w')) Idle (w_log t ++ [EvW a sz (u8 v)])
  | _, _ => with_tx t x (WLocked (WAcc a sz v))
  end.

Definition wcall (o : wop) (g : wglobal) (t : wthread) : option (wglobal * wthread) :=
  match w_pc t with
  | Idle =>
      match o with
      | OpBegin => Some (g, if w_active (w_tx t) then t else at_pc t BClock)
      | OpRead a sz => if w_active (w_tx t) && access_ok a sz then Some (g, call_read t a sz) else None
      | OpWrite a sz v => if w_active (w_tx t) && access_ok a sz then Some (g, call_write t a sz v) else None
      | OpCommit =>
          if w_active (w_tx t) then
            if w_ro (w_tx t) then
              Some (WG (g_mem g) (g_clock g) (g_locks g) (g_token g) (g_hist g)
                       ((w_start (w_tx t), w_end (w_tx t), w_log t) :: g_ro g), at_pc t CToken)
            else Some (g, at_pc t CInc)
          else None
      end
  | _ => None
  end.

(** ** Steps of a call in progress *)

(** [begin]: the clock is not being reset. *)
Definition begin_clock (g : wglobal) (t : wthread) : option (wglobal * wthread) :=
  if VERSION_MASK <=? g_clock g then Some (g, t)
  else Some (g, WT (tx_begin (w_tx t) (g_clock g)) Idle []).

Definition read_step (g : wglobal) (t : wthread) : option (wglobal * wthread) :=
  let x := w_tx t in
  match w_pc t with
  | RLockedBy a sz =>
      Some (g, at_pc t (if is_locked_by (g_locks g (lock_of a)) (w_id x) then ROwn a sz [] else RGet a sz))
  | ROwn a sz bs =>
      let bs' := next_byte g a bs in
      Some (g, if all_read sz bs' then read_return t x a sz (bytes_value bs') else at_pc t (ROwn a sz bs'))
  | RGet a sz => Some (g, at_pc t (RLoop a sz (g_locks g (lock_of a))))
  | RLoop a sz l => Some (g, if is_locked l then abort_tx t else at_pc t (RBytes a sz l []))
  | RBytes a sz l bs =>
      let bs' := next_byte g a bs in
      Some (g, at_pc t (if all_read sz bs' then RRecheck a sz l bs' else RBytes a sz l bs'))
  | RRecheck a sz l bs =>
      let l2 := g_locks g (lock_of a) in
      if negb (l =? l2) then Some (g, at_pc t (RLoop a sz l2))
      else if w_end x <? get_version l then Some (g, at_pc t (EClock (VRead a sz l)))
      else
        let v := bytes_value bs in
        Some (g, read_return t (tx_set_rset x (record_read (w_rset x) (align_down_8 a) (get_version l) v sz a)) a sz v)
  | _ => None
  end.

(** [extend] and [validate], and where their callers continue. *)
Definition validated (g : wglobal) (t : wthread) (k : vcaller) (last_version : Z) : wglobal * wthread :=
  let x := w_tx t in
  match k with
  | VRead a sz l => (g, with_tx t (tx_extended x last_version) (RLoop a sz l))
  | VWrite w => (g, at_pc t (WTry w Second))
  | VCommit cv =>
      (WG (g_mem g) (g_clock g) (g_locks g) (g_token g) (<[Z.to_nat cv := w_log t]> (g_hist g)) (g_ro g),
       with_tx t (tx_extended x last_version) (CWrite cv (ws_stores (w_wset x))))
  end.

Definition validate_step (g : wglobal) (t : wthread) : option (wglobal * wthread) :=
  match w_pc t with
  | EClock k =>
      if VERSION_MASK <=? g_clock g then Some (g, t)
      else Some (g, at_pc t (VLoop k (g_clock g) (w_rset (w_tx t))))
  | VLoop k last_version [] => Some (validated g t k last_version)
  | VLoop k last_version (r :: rs) =>
      Some (g, if validate_entry (g_locks g (lock_of (bread_addr r))) (w_id (w_tx t)) r
               then at_pc t (VLoop k last_version rs) else abort_tx t)
  | _ => None
  end.

Definition write_step (g : wglobal) (t : wthread) : option (wglobal * wthread) :=
  let x := w_tx t in
  let s w := g_locks g (lock_of (wa_addr w)) in
  match w_pc t with
  | WLocked w => Some (g, at_pc t (if is_locked (s w) then WOwner w else WTry w First))
  | WOwner w => Some (g, at_pc t (if get_owner (s w) =? w_id x then WOwned w else WSoft w SpinForeign))
  | WSoft w k =>
      Some (g, if (w_aborts x <? 3) || negb (tm_token_is_free (g_token g)) then abort_tx t else at_pc t (WSoftCas w k))
  | WSoftCas w k =>
      let '(won, tok) := tm_token_try_acquire (g_token g) (w_id x) in
      Some (set_token g tok, if won then at_pc t (WSpin w k) else abort_tx t)
  | WSpin w SpinForeign => Some (g, at_pc t (if is_locked (s w) then WSpinOwner w else WSpinEnd w))
  | WSpinOwner w => Some (g, at_pc t (if get_owner (s w) =? w_id x then WSpinEnd w else WSpin w SpinForeign))
  | WSpinEnd w => Some (g, at_pc t (if get_owner (s w) =? w_id x then WOwned w else WTry w AfterSpin))
  | WSpin w SpinFree => Some (g, at_pc t (if is_locked (s w) then WSpin w SpinFree else WTry w Third))
  | WTry w n =>
      Some (g, match try_lock_words (s w) (w_id x) with
               | None => try_failed t w n
               | Some (expected, desired) => at_pc t (WCas w n expected desired)
               end)
  | WCas w n expected desired =>
      let '(won, s') := compare_exchange_strong (s w) expected desired in
      Some (if won then (set_lock g (lock_of (wa_addr w)) s', at_pc t (WOwned w)) else (g, try_failed t w n))
  | WOwned w =>
      Some (g, if is_locked_by (s w) (w_id x)
               then with_tx t (tx_set_held x (push_lock (w_held x) (lock_of (wa_addr w)))) (WVersion w)
               else abort_tx t)
  | WVersion w =>
      let aligned := align_down_8 (wa_addr w) in
      let e := WLE (make_write_entry aligned (wa_val w) (wa_sz w) (wa_addr w)) (get_version (s w)) in
      Some (g, WT (tx_set_wset x (ws_put wle_none (w_wset x) aligned e)) Idle
                  (w_log t ++ [EvW (wa_addr w) (wa_sz w) (u8 (wa_val w))]))
  | _ => None
  end.

(** [None] where the clock would be reset, or where an assertion fails. *)
Definition commit_step (g : wglobal) (t : wthread) : option (wglobal * wthread) :=
  let x := w_tx t in
  match w_pc t with
  | CInc =>
      let res := g_clock g + 1 in
      if VERSION_MAX <=? res then None
      else Some (WG (g_mem g) res (g_locks g) (g_token g) (g_hist g) (g_ro g), at_pc t (EClock (VCommit res)))
  | CWrite cv ((a, b) :: st) =>
      Some (WG (<[a := b]> (g_mem g)) (g_clock g) (g_locks g) (g_token g) (g_hist g) (g_ro g), at_pc t (CWrite cv st))
  | CWrite cv [] => Some (g, at_pc t (CRelease cv (w_held x)))
  | CRelease cv (l :: ls) =>
      s' ← unlock_with_version (g_locks g l) (w_id x) cv; Some (set_lock g l s', at_pc t (CRelease cv ls))
  | CRelease cv [] => Some (g, at_pc t CToken)
  | CToken => Some (set_token g (tm_token_release (g_token g)), WT (tx_reset x) Idle [])
  | _ => None
  end.

(** [abort_tx]: [unlock] of every held lock, in its three accesses; then the jump back,
    with the transaction still marked active. *)
Definition abort_step (g : wglobal) (t : wthread) : option (wglobal * wthread) :=
  let x := w_tx t in
  match w_pc t with
  | AUnlock (l :: ls) => Some (g, at_pc t (if is_locked (g_locks g l) then AOwner l ls else AUnlock ls))
  | AOwner l ls => Some (g, at_pc t (if get_owner (g_locks g l) =? w_id x then AClear l ls else AUnlock ls))
  | AClear l ls =>
      Some (set_lock g l (g_locks g l .& (not64 OWNED_MASK .& not64 (THREAD_MASK .<< LOCK_BITS))), at_pc t (AUnlock ls))
  | AUnlock [] => Some (g, with_tx t (tx_aborted (tx_clear x)) AToken)
  | AToken => Some (set_token g (tm_token_release_if_held (g_token g) (w_id x)), WT x Idle [])
  | _ => None
  end.

Definition wstep (g : wglobal) (t : wthread) : option (wglobal * wthread) :=
  match w_pc t with
  | Idle => None
  | BClock => begin_clock g t
  | RLockedBy _ _ | ROwn _ _ _ | RGet _ _ | RLoop _ _ _ | RBytes _ _ _ _ | RRecheck _ _ _ _ => read_step g t
  | EClock _ | VLoop _ _ _ => validate_step g t
  | CInc | CWrite _ _ | CRelease _ _ | CToken => commit_step g t
  | AUnlock _ | AOwner _ _ | AClear _ _ | AToken => abort_step g t
  | _ => write_step g t
  end.

(** ** Interleaved executions *)

Inductive wexec_step : wglobal * list wthread → wglobal * list wthread → Prop :=
  | wexec_call g ts i t o g' t' :
      ts !! i = Some t → wcall o g t = Some (g', t') → wexec_step (g, ts) (g', <[i := t']> ts)
  | wexec_run g ts i t g' t' :
      ts !! i = Some t → wstep g t = Some (g', t') → wexec_step (g, ts) (g', <[i := t']> ts).

(** [init] and [init_thread]: the clock is one, all locks are zero, thread ids count
    from one and fit the owner field. *)
Definition tx_init (id : Z) : wtx := WTx id 0 0 false true 0 false [] (WSet [] ∅) [].
Definition wthread_init (id : Z) : wthread := WT (tx_init id) Idle [].

Inductive wreachable (m : mem) (n : nat) : wglobal * list wthread → Prop :=
  | wreach_init : wreachable m n (winit m, wthread_init <$> seqZ 1 (Z.of_nat n))
  | wreach_step s s' : wreachable m n s → wexec_step s s' → wreachable m n s'.

(** ** Serial executions of the logs *)

(** The bytes a log has written. *)
Fixpoint written (evs : list event) : list Z :=
  match evs with
  | [] => []
  | EvR _ _ _ :: evs' => written evs'
  | EvW a sz _ :: evs' => seqZ a (nbytes_of sz) ++ written evs'
  end.

(** No read straddles bytes the transaction has written and bytes it has not. *)
Definition unmixed (ws : list Z) (a : Z) (sz : ValueType) : bool :=
  let r := seqZ a (nbytes_of sz) in
  forallb (λ x, bool_decide (x ∈ ws)) r || forallb (λ x, bool_decide (x ∉ ws)) r.

Fixpoint disciplined_from (ws : list Z) (evs : list event) : bool :=
  match evs with
  | [] => true
  | EvR a sz _ :: evs' => unmixed ws a sz && disciplined_from ws evs'
  | EvW a sz _ :: evs' => disciplined_from (ws ++ seqZ a (nbytes_of sz)) evs'
  end.
Definition disciplined (evs : list event) : bool := disciplined_from [] evs.

(** ** Running a schedule *)

(** Thread [i] either starts the given call or continues its current one. *)
Definition wsched (s : wglobal * list wthread) (io : nat * option wop) : option (wglobal * list wthread) :=
  t ← s.2 !! io.1;
  gt ← match io.2 with Some o => wcall o s.1 t | None => wstep s.1 t end;
  Some (gt.1, <[io.1 := gt.2]> s.2).

Fixpoint wrun (s : wglobal * list wthread) (l : list (nat * option wop)) : option (wglobal * list wthread) :=
  match l with
  | [] => Some s
  | io :: l' => s' ← wsched s io; wrun s' l'
  end.

Lemma wrun_reachable m n s l s' : wreachable m n s → wrun s l = Some s' → wreachable m n s'.
Proof.
  revert s. induction l as [|[i o] l IH]; intros s Hr; cbn [wrun]; [by intros [= <-]|]. destruct (wsched s (i, o)) as [s1|] eqn:Hs; [|done].
  apply IH. eapply wreach_step; [done|]. destruct s as [g ts]. unfold wsched in Hs. simpl in Hs. destruct (ts !! i) as [t|] eqn:Ht; [|done]. simpl in Hs.
  destruct o as [o|].
  - destruct (wcall o g t) as [[g' t']|] eqn:Hc; [|done]. injection Hs as <-. by eapply wexec_call.
  - destruct (wstep g t) as [[g' t']|] eqn:Hc; [|done]. injection Hs as <-. by eapply wexec_run.
Qed.
