(* ===== verification/WBETLLog.v ===== *)
(** * TinySTM write-back logs against serial execution

    What the write set of a running transaction denotes, byte by byte, and the relation
    [log_ok] between the log of a transaction and its buffer: on any memory that holds
    the bytes the transaction took from shared memory, replaying the log succeeds and
    leaves the memory the write-back would leave. *)

From S2P Require Import Prelude Memory Values TMSpec LogMerge TxLog TinyLock TinyWriteSet TinyShared WBETL.
#[local] Open Scope Z_scope.

Implicit Types (w : wset WriteLogEntry_wbetl) (vec : list (Z * WriteLogEntry_wbetl)).

(** Entries sit at aligned 64-bit addresses. *)
Definition wset_ok w : Prop := wset_wf w ∧ ∀ a e, wset_map w !! a = Some e → aligned_addr a.

(** The buffered byte at an address. *)
Definition buf w (x : Z) : option Z :=
  e ← wset_map w !! word_base x; entry_byte (redo_value (wle_redo e)) (redo_valid (wle_redo e)) (x mod 8).

Lemma wset_ok_empty : wset_ok (WSet [] ∅).
Proof.
  split; [split; [apply NoDup_nil_2|by left]|]. intros a e. unfold wset_map. simpl. by rewrite lookup_empty.
Qed.

Lemma vec_stores_lookup vec m x :
  NoDup (keys vec) → (∀ a e, (a, e) ∈ vec → a mod 8 = 0) →
  wr m (concat (wle_stores <$> vec)) !! x =
  match (list_to_map vec : gmap Z WriteLogEntry_wbetl) !! word_base x with
  | Some e => if Z.testbit (redo_valid (wle_redo e)) (x mod 8) then Some (byte_at (redo_value (wle_redo e)) (x mod 8)) else m !! x
  | None => m !! x
  end.
Proof.
  revert m. induction vec as [|[a e] vec IH]; intros m Hn Ha; [done|]. cbn [fmap list_fmap concat list_to_map foldr]. rewrite wr_app.
  apply NoDup_cons in Hn as [Hna Hn]. rewrite IH by (try done; intros; eapply Ha; by right). clear IH.
  assert (Ham : a mod 8 = 0) by (eapply Ha; left). pose proof (word_base_split x) as [Hs Hr].
  unfold wle_stores. rewrite !bitmap_stores_lookup. cbn [fst snd uncurry].
  destruct (decide (word_base x = a)) as [Heq|Hne].
  - rewrite Heq, lookup_insert_eq. rewrite not_elem_of_list_to_map_1 by done.
    replace (x - a) with (x mod 8) by lia. zcmp; simpl; try lia. done.
  - rewrite lookup_insert_ne by done. assert ((a <=? x) && (x <? a + 8) = false) as ->; [|done].
    pose proof (proj2 (word_base_eq a x Ham)). zcmp; simpl; try done. exfalso. apply Hne. auto.
Qed.

Lemma ws_stores_mget w m x : wset_ok w → mget (wr m (ws_stores w)) x = default (mget m x) (buf w x).
Proof.
  intros [[Hn Hi] Ha]. unfold mget, ws_stores, buf. rewrite vec_stores_lookup; [|done|].
  - unfold wset_map. destruct (list_to_map (ws_vec w) !! word_base x) as [e|]; [|done]. simpl. unfold entry_byte.
    by destruct (Z.testbit _ _).
  - intros a e Hin. apply (Ha a e). by apply elem_of_list_to_map_1.
Qed.

(** The addresses of the write-back. *)
Lemma ws_stores_addr w x : wset_ok w → x ∈ (ws_stores w).*1 → is_Some (wset_map w !! word_base x).
Proof.
  intros [[Hn Hi] Ha]. unfold ws_stores. intros Hx. apply list_elem_of_fmap in Hx as ([a b] & -> & Hx). simpl.
  apply list_elem_of_In, in_concat in Hx as (l & Hl%list_elem_of_In & Hab%list_elem_of_In). apply list_elem_of_fmap in Hl as ([a' e] & -> & Hin).
  pose proof Hin as Hlk. apply elem_of_list_to_map_1 in Hlk; [|done]. exists e. unfold wset_map. rewrite <- Hlk. f_equal.
  apply word_base_eq; [by apply (Ha a' e)|]. unfold wle_stores, bitmap_stores in Hab. cbn [fst snd] in Hab.
  assert (Hgen : ∀ n i, (a, b) ∈ bitmap_stores_from n i a' (redo_value (wle_redo e)) (redo_valid (wle_redo e)) → a' + i ≤ a < a' + i + Z.of_nat n).
  { induction n as [|n IH]; intros i Hh; [by apply elem_of_nil in Hh|]. cbn [bitmap_stores_from] in Hh. apply elem_of_app in Hh as [Hh|Hh].
    - destruct (Z.testbit _ _); [|by apply elem_of_nil in Hh]. apply list_elem_of_singleton in Hh as [= -> _]. lia.
    - apply IH in Hh. lia. }
  apply Hgen in Hab. lia.
Qed.

(** ** Reads and writes of the buffer *)

Lemma read_hit w e m a sz r out :
  wset_ok w → is_w 64 a → in_word sz a → wset_map w !! align_down_8 a = Some e →
  bitmap_read out (redo_value (wle_redo e)) (redo_valid (wle_redo e)) sz a = Some r →
  r = read_value_from_addr (wr m (ws_stores w)) a sz ∧ ∀ x, in_acc a sz x → is_Some (buf w x).
Proof.
  intros Hw Ha Hin He Hr. assert (Hb : ∀ x, in_acc a sz x → buf w x = Some (byte_at (redo_value (wle_redo e)) (x mod 8))).
  { intros x Hx. destruct (acc_base a sz x Ha Hin Hx) as [Hb Hm]. unfold buf. rewrite Hb, He. simpl. unfold entry_byte.
    rewrite bitmap_read_eq in Hr by done. destruct (forallb _ _) eqn:Hall; [|done]. rewrite forallb_forall in Hall.
    rewrite Hall; [done|]. apply list_elem_of_In, elem_of_seqZ. unfold in_acc in Hx. lia. }
  split; [|intros x Hx; rewrite Hb by done; by eexists].
  rewrite (bitmap_read_stores m out _ _ sz a r Ha Hin Hr). apply read_mget_ext. intros x Hx.
  rewrite ws_stores_mget, Hb by done. simpl. unfold mget. rewrite bitmap_stores_lookup. pose proof (Hb x Hx) as Hbx. unfold buf in Hbx.
  destruct (acc_base a sz x Ha Hin Hx) as [Hbase Hm]. rewrite Hbase, He in Hbx. simpl in Hbx. unfold entry_byte in Hbx.
  pose proof (word_base_split x) as [Hs Hm']. replace (x - align_down_8 a) with (x mod 8) by lia.
  destruct (Z.testbit _ _); [|done]. zcmp; simpl; try lia; done.
Qed.

(** A read not served by the buffer has a byte that is not buffered. *)
Lemma read_miss w a sz :
  is_w 64 a → in_word sz a →
  match wset_map w !! align_down_8 a with
  | Some e => bitmap_read (AnyT 0) (redo_value (wle_redo e)) (redo_valid (wle_redo e)) sz a = None
  | None => True
  end → ∃ x, in_acc a sz x ∧ buf w x = None.
Proof.
  intros Ha Hin Hm. pose proof (nbytes_range sz) as Hnb. destruct (wset_map w !! align_down_8 a) as [e|] eqn:He.
  - rewrite bitmap_read_eq in Hm by done. destruct (forallb _ _) eqn:Hall; [done|].
    apply not_true_iff_false in Hall. destruct (decide (Exists (λ i, Z.testbit (redo_valid (wle_redo e)) i = false) (seqZ (byte_offset a) (nbytes_of sz)))) as [Hex|Hn].
    + apply Exists_exists in Hex as (i & Hi%elem_of_seqZ & Hf). exists (a + (i - byte_offset a)). assert (Hx : in_acc a sz (a + (i - byte_offset a))) by (unfold in_acc; lia).
      split; [done|]. destruct (acc_base a sz _ Ha Hin Hx) as [Hb Hmd]. unfold buf. rewrite Hb, He. simpl. unfold entry_byte. rewrite Hmd.
      replace (byte_offset a + (a + (i - byte_offset a) - a)) with i by lia. by rewrite Hf.
    + destruct Hall. apply forallb_forall. intros i Hi. destruct (Z.testbit _ i) eqn:Hb; [done|]. destruct Hn. apply Exists_exists. exists i.
      by rewrite list_elem_of_In.
  - assert (Hx : in_acc a sz a) by (unfold in_acc; lia). exists a. split; [done|]. destruct (acc_base a sz a Ha Hin Hx) as [Hb _].
    unfold buf. by rewrite Hb, He.
Qed.

(** The write set after [bitmap_write] into the entry [e] (or into the empty entry). *)
Lemma write_buf w w' a sz v old e' x :
  is_w 64 a → in_word sz a → wset_map w' = <[align_down_8 a := e']> (wset_map w) →
  (match wset_map w !! align_down_8 a with Some e => old = (redo_value (wle_redo e), redo_valid (wle_redo e)) | None => old = (0, 0) end) →
  bitmap_write old.1 old.2 v sz a = (redo_value (wle_redo e'), redo_valid (wle_redo e')) →
  buf w' x = if decide (in_acc a sz x) then Some (byte_at (u8 v) (x - a)) else buf w x.
Proof.
  intros Ha Hin Hw' Hold Hb. unfold buf. rewrite Hw'. pose proof (word_base_split x) as [Hs Hr].
  destruct (decide (word_base x = align_down_8 a)) as [Heq|Hne].
  - rewrite Heq, lookup_insert_eq. simpl. rewrite (bitmap_write_byte _ _ _ _ _ (x mod 8) _ _ Hin Hr Hb).
    pose proof (align_down_split a Ha) as Hsp. unfold in_acc. case_decide as Hd.
    + replace ((byte_offset a <=? x mod 8) && (x mod 8 <? byte_offset a + nbytes_of sz)) with true by (zcmp; simpl; try lia; done).
      do 2 f_equal. lia.
    + replace ((byte_offset a <=? x mod 8) && (x mod 8 <? byte_offset a + nbytes_of sz)) with false by (zcmp; simpl; try lia; done).
      destruct (wset_map w !! align_down_8 a) as [e|]; subst old; [done|]. simpl. unfold entry_byte. by rewrite Z.testbit_0_l.
  - rewrite lookup_insert_ne by done. rewrite decide_False; [done|]. intros Hx. by destruct (acc_base a sz x Ha Hin Hx).
Qed.

(** ** Logs *)

Lemma written_app e1 e2 : written (e1 ++ e2) = written e1 ++ written e2.
Proof. induction e1 as [|[a sz v|a sz v] e1 IH]; simpl; [done..|]. rewrite IH. by rewrite <- app_assoc. Qed.

Lemma disciplined_app ws e1 e2 : disciplined_from ws (e1 ++ e2) = disciplined_from ws e1 && disciplined_from (ws ++ written e1) e2.
Proof.
  revert ws. induction e1 as [|[a sz v|a sz v] e1 IH]; intros ws; simpl; [by rewrite app_nil_r| |].
  - rewrite IH. by rewrite andb_assoc.
  - rewrite IH. by rewrite <- app_assoc.
Qed.

Lemma unmixed_spec ws a sz :
  unmixed ws a sz = true ↔ (∀ x, in_acc a sz x → x ∈ ws) ∨ (∀ x, in_acc a sz x → x ∉ ws).
Proof.
  unfold unmixed. rewrite orb_true_iff, !forallb_forall.
  split; (intros [H|H]; [left|right]); intros x Hx; try (apply bool_decide_eq_true; apply H; apply list_elem_of_In, elem_of_seqZ in Hx; unfold in_acc; lia).
  all: specialize (H x); rewrite bool_decide_eq_true in H; apply H, list_elem_of_In, elem_of_seqZ; unfold in_acc in Hx; lia.
Qed.

(** The log and the buffer of a transaction that took the bytes [ext] from memory. *)
Record log_ok (ext : list (Z * Z)) w (evs : list event) : Prop := LogOk {
  lo_written : ∀ x, x ∈ written evs ↔ is_Some (buf w x);
  lo_replay : disciplined evs = true → ∀ m, holds m ext →
    ∃ m', replay m evs = Some m' ∧ ∀ x, mget m' x = mget (wr m (ws_stores w)) x;
}.

Lemma log_mono ext ext' w evs : (∀ ab, ab ∈ ext → ab ∈ ext') → log_ok ext w evs → log_ok ext' w evs.
Proof. intros Hs [H1 H2]. split; [done|]. intros Hd m Hm. apply H2; [done|]. intros a b Hin. by apply Hm, Hs. Qed.

Lemma log_nil ext w : ws_vec w = [] → log_ok ext w [].
Proof.
  intros Hv. split.
  - intros x. simpl. unfold buf, wset_map. rewrite Hv. simpl. split; [by intros ?%elem_of_nil|]. by intros [? ?].
  - intros _ m _. exists m. split; [done|]. intros x. unfold ws_stores. by rewrite Hv.
Qed.

Lemma log_read ext w evs a sz v :
  log_ok ext w evs →
  (unmixed (written evs) a sz = true → ∀ m m', holds m ext → (∀ x, mget m' x = mget (wr m (ws_stores w)) x) →
     return_any_type sz (read_value_from_addr m' a sz) = v) →
  log_ok ext w (evs ++ [EvR a sz v]).
Proof.
  intros [H1 H2] Hr. split.
  - intros x. rewrite written_app. simpl. rewrite app_nil_r. apply H1.
  - unfold disciplined in *. rewrite disciplined_app, andb_true_iff. simpl. rewrite andb_true_r. intros [Hd Hu] m Hm.
    destruct (H2 Hd m Hm) as (m' & Hm' & Hx). exists m'. split; [|done]. apply replay_snoc_read; [done|]. by eapply Hr.
Qed.

Lemma log_read_hit ext w evs a sz e r :
  log_ok ext w evs → wset_ok w → is_w 64 a → in_word sz a → wset_map w !! align_down_8 a = Some e →
  bitmap_read (AnyT 0) (redo_value (wle_redo e)) (redo_valid (wle_redo e)) sz a = Some r →
  log_ok ext w (evs ++ [EvR a sz (return_any_type sz r)]).
Proof.
  intros Hl Hw Ha Hin He Hr. apply log_read; [done|]. intros _ m m' Hm Hx. f_equal.
  destruct (read_hit w e m a sz r _ Hw Ha Hin He Hr) as [-> _]. by apply read_mget_ext.
Qed.

Lemma log_read_shared ext w evs a sz bs :
  log_ok ext w evs → wset_ok w → (∃ x, in_acc a sz x ∧ buf w x = None) → length bs = type_size sz →
  (∀ k b, bs !! k = Some b → (a + Z.of_nat k, b) ∈ ext) →
  log_ok ext w (evs ++ [EvR a sz (return_any_type sz (bytes_value bs))]).
Proof.
  intros Hl Hw (x0 & Hx0 & Hnone) Hlen Hext. apply log_read; [done|]. intros Hu m m' Hm Hx. f_equal.
  apply unmixed_spec in Hu as [Hu|Hu]; [apply Hu, (lo_written _ _ _ Hl) in Hx0; rewrite Hnone in Hx0; by destruct Hx0|].
  unfold read_value_from_addr, bytes_value, fill_any_type. f_equal.
  apply list_eq_same_length with (n := type_size sz); [done|apply length_load_bytes|].
  intros k b b' Hk Hb Hb'. rewrite load_bytes_prefix in Hb by done. injection Hb as <-. rewrite <- (Hm (a + Z.of_nat k) b') by auto.
  rewrite Hx, ws_stores_mget by done. assert (Hacc : in_acc a sz (a + Z.of_nat k)) by (unfold in_acc, nbytes_of; lia).
  destruct (buf w (a + Z.of_nat k)) as [c|] eqn:Hb; [|done]. exfalso. apply (Hu _ Hacc), (lo_written _ _ _ Hl). by rewrite Hb.
Qed.

Lemma log_write ext w w' evs a sz v :
  log_ok ext w evs → wset_ok w → wset_ok w' →
  (∀ x, buf w' x = if decide (in_acc a sz x) then Some (byte_at (u8 v) (x - a)) else buf w x) →
  log_ok ext w' (evs ++ [EvW a sz (u8 v)]).
Proof.
  intros [H1 H2] Hw Hw' Hb. split.
  - intros x. rewrite written_app, elem_of_app, H1, Hb. simpl. rewrite app_nil_r, elem_of_seqZ. unfold in_acc. case_decide; naive_solver.
  - unfold disciplined in *. rewrite disciplined_app, andb_true_iff. intros [Hd _] m Hm. destruct (H2 Hd m Hm) as (m' & Hm' & Hx).
    exists (write_value_to_addr m' a (AnyT (u8 v)) sz). split; [by apply replay_snoc_write|]. intros x.
    rewrite write_value_mget, ws_stores_mget, Hb by done. case_decide; [done|]. by rewrite Hx, ws_stores_mget.
Qed.

