(* ===== verification/WBETLSim.v ===== *)
(** * TinySTM write-back with encounter-time locking is serializable

    Every interleaved execution of [WBETL] is matched by an execution of the abstract
    versioned-lock machine ([VersionedLocks]): lock words are versions with owners, a
    recorded read is a checked read, a successful validation is a decision.  The
    serialization of the abstract history then gives the serial execution of the
    committed transactions' logs. *)

From stdpp Require Import functions.
From S2P Require Import Prelude Memory Values TMSpec LogMerge TxLog TinyLock TinyWriteSet Support LockWord VersionedLocks TinyShared TinySim WBETL WBETLLog.
Import SpinToken.
#[local] Open Scope Z_scope.

Section Sim.
(** The initial memory and the number of threads, which fits the owner field. *)
Context (m0 : mem) (n : nat) (Hn : Z.of_nat n < MAX_THREADS).
Implicit Types (σ : lvs) (t : wthread) (g : wglobal).

#[local] Abbreviation lv_steps i := (rtc (lv_step lock_of i)).
#[local] Abbreviation lv_inv := (lv_inv lock_of m0).
#[local] Abbreviation g_rel := (g_rel disciplined n).
#[local] Abbreviation gr_mem := (gr_mem disciplined n).
#[local] Abbreviation gr_clock := (gr_clock disciplined n).
#[local] Abbreviation gr_locks := (gr_locks disciplined n).
#[local] Abbreviation lock_word := (lock_word disciplined m0 n Hn).

(** ** The relation *)

(** A recorded read: an entry of the read set has its word and its version. *)
Definition in_rset (rs : list BitmapReadEntry) (a : Z) (v : nat) : Prop :=
  ∃ r, r ∈ rs ∧ bread_addr r = align_down_8 a ∧ bread_version r = Z.of_nat v.

Record tx_rel σ (i : nat) (x : wtx) (evs : list event) (pending rec : list (Z * Z * nat)) : Prop := TxRel {
  tr_rds : rds (thr σ i) = pending ++ rec;
  tr_log : log_ok (rec.*1 ++ lrds (thr σ i)) (w_wset x) evs;
  tr_rec : ∀ a val v, (a, val, v) ∈ rec → is_w 64 a ∧ in_rset (w_rset x) a v ∧ Z.of_nat v ≤ w_end x ∧
    (a, val, v, S (Z.to_nat (w_end x))) ∈ fixd (thr σ i);
  tr_end : 0 ≤ w_start x ≤ w_end x ∧ w_end x ≤ Z.of_nat (clk σ);
  tr_wset : wset_ok (w_wset x) ∧ ∀ a, is_Some (wset_map (w_wset x) !! a) → lock_of a ∈ w_held x;
  tr_ro : w_ro x = true → w_held x = [];
}.

(** A transaction in phase [p] that holds the locks [ls]. *)
Definition run_rel σ (i : nat) t (p : phase) (pending rec : list (Z * Z * nat)) (ls : list Z) : Prop :=
  ph (thr σ i) = p ∧ w_active (w_tx t) = true ∧ tx_rel σ i (w_tx t) (w_log t) pending rec ∧ own_rel σ i ls.

Definition act_rel σ (i : nat) t : Prop := ∃ rec, run_rel σ i t PActive [] rec (w_held (w_tx t)).

Definition empty_tx (x : wtx) : Prop := w_rset x = [] ∧ w_wset x = WSet [] ∅ ∧ w_held x = [].

Definition inactive_rel σ (i : nat) t : Prop :=
  ph (thr σ i) = PIdle ∧ w_active (w_tx t) = false ∧ empty_tx (w_tx t) ∧ own_rel σ i [].

Definition abort_rel σ (i : nat) t (ls : list Z) : Prop :=
  ph (thr σ i) = PAbort ∧ w_active (w_tx t) = true ∧ own_rel σ i ls ∧
  0 ≤ w_start (w_tx t) ≤ w_end (w_tx t) ∧ w_end (w_tx t) ≤ Z.of_nat (clk σ).

(** A read the buffer does not serve, a write to a word that has no entry. *)
Definition rmiss t (a : Z) (sz : ValueType) : Prop :=
  is_w 64 a ∧ in_word sz a ∧ ∃ x, in_acc a sz x ∧ buf (w_wset (w_tx t)) x = None.
Definition wmiss t (w : wacc) : Prop :=
  is_w 64 (wa_addr w) ∧ in_word (wa_sz w) (wa_addr w) ∧ wset_map (w_wset (w_tx t)) !! align_down_8 (wa_addr w) = None ∧
  w_ro (w_tx t) = false.

(** Reads are validated at version [c] except those of the entries [rs]. *)
Definition todo σ (i : nat) (rec : list (Z * Z * nat)) (rs : list BitmapReadEntry) (c : nat) : Prop :=
  ∀ a val v, (a, val, v) ∈ rec → (a, val, v, c) ∈ fixd (thr σ i) ∨ in_rset rs a v.

Definition commit_rel σ (i : nat) t (cv : Z) (rec : list (Z * Z * nat)) : Prop :=
  0 ≤ cv ∧ run_rel σ i t (PInc (Z.to_nat cv) (ws_stores (w_wset (w_tx t)))) [] rec (w_held (w_tx t)).

Definition pc_rel σ (i : nat) t : Prop :=
  match w_pc t with
  | Idle => if w_active (w_tx t) then act_rel σ i t else inactive_rel σ i t
  | BClock => inactive_rel σ i t
  | RLockedBy a sz | RGet a sz => rmiss t a sz ∧ act_rel σ i t
  | ROwn a sz bs =>
      rmiss t a sz ∧ act_rel σ i t ∧ own σ (lock_of a) = Some i ∧ (length bs < type_size sz)%nat ∧
      ∀ k b, bs !! k = Some b → (a + Z.of_nat k, b) ∈ lrds (thr σ i)
  | RLoop a sz l => rmiss t a sz ∧ act_rel σ i t ∧ ∃ o v, seen σ a l o v
  | RBytes a sz l bs =>
      rmiss t a sz ∧ (length bs < type_size sz)%nat ∧
      ∃ v rec, seen σ a l None v ∧ run_rel σ i t PActive (taken a v bs) rec (w_held (w_tx t))
  | RRecheck a sz l bs =>
      rmiss t a sz ∧ length bs = type_size sz ∧
      ∃ v rec, seen σ a l None v ∧ run_rel σ i t PActive (taken a v bs) rec (w_held (w_tx t))
  | EClock k =>
      match k with
      | VRead a sz l => rmiss t a sz ∧ act_rel σ i t ∧ ∃ v, seen σ a l None v
      | VWrite w => False
      | VCommit cv => ∃ rec, commit_rel σ i t cv rec
      end
  | VLoop k last rs =>
      match k with
      | VRead a sz l =>
          rmiss t a sz ∧ (∃ v, seen σ a l None v) ∧ w_end (w_tx t) ≤ last ≤ Z.of_nat (clk σ) ∧
          ∃ rec, run_rel σ i t PActive [] rec (w_held (w_tx t)) ∧ todo σ i rec rs (S (Z.to_nat last))
      | VWrite w => wmiss t w ∧ act_rel σ i t
      | VCommit cv => ∃ rec, commit_rel σ i t cv rec ∧ todo σ i rec rs (Z.to_nat cv)
      end
  | WLocked w | WOwner w | WSoft w _ | WSoftCas w _ | WSpin w _ | WSpinOwner w | WSpinEnd w | WTry w _ =>
      wmiss t w ∧ act_rel σ i t
  | WCas w _ e d => wmiss t w ∧ act_rel σ i t ∧ ∃ v, ver_ok v ∧ e = word_of v None ∧ d = word_of v (Some i)
  | WOwned w =>
      wmiss t w ∧ ∃ rec ls, run_rel σ i t PActive [] rec ls ∧
        (∀ ℓ, ℓ ∈ ls ↔ ℓ ∈ w_held (w_tx t) ∨ ℓ = lock_of (wa_addr w)) ∧ NoDup (w_held (w_tx t))
  | WVersion w => wmiss t w ∧ act_rel σ i t ∧ lock_of (wa_addr w) ∈ w_held (w_tx t)
  | CInc => act_rel σ i t
  | CWrite cv st => 0 ≤ cv ∧ ph (thr σ i) = PDec (Z.to_nat cv) st ∧ own_rel σ i (w_held (w_tx t))
  | CRelease cv ls => 0 ≤ cv ∧ ph (thr σ i) = PDec (Z.to_nat cv) [] ∧ own_rel σ i ls
  | CToken => ((∃ cv, ph (thr σ i) = PDec cv []) ∨ ph (thr σ i) = PActive) ∧ own_rel σ i []
  | AUnlock ls => abort_rel σ i t ls
  | AOwner l ls | AClear l ls => abort_rel σ i t (l :: ls)
  | AToken => abort_rel σ i t [] ∧ empty_tx (w_tx t)
  end.

Definition t_rel σ (i : nat) t : Prop := w_id (w_tx t) = tid i ∧ pc_rel σ i t.

(** ** Addresses and locks *)

(** The write-back touches only words whose locks are held. *)
Lemma stores_held w (ls : list Z) x :
  wset_ok w → (∀ a, is_Some (wset_map w !! a) → lock_of a ∈ ls) → x ∈ (ws_stores w).*1 → lock_of x ∈ ls.
Proof.
  intros Hw Hl Hx. pose proof (ws_stores_addr w x Hw Hx) as Hs. pose proof (Hl _ Hs) as Hh. destruct Hs as [e He].
  destruct Hw as [_ Hal]. destruct (Hal _ _ He) as [Hb _]. pose proof (word_base_split x) as [? ?].
  assert (is_w 64 x) as Hx64.
  { unfold word_base, is_w in *. assert (x / 8 < 2 ^ 61); [|lia]. destruct Hb as [_ Hb]. lia. }
  rewrite <- lock_of_align by done. by rewrite align_down_base.
Qed.

(** ** Stability *)

Lemma tx_frame σ σ' i x evs pend rec : lv_frame i σ σ' → tx_rel σ i x evs pend rec → tx_rel σ' i x evs pend rec.
Proof. intros [Ht Ho Hv Hc] [H1 H2 H3 H4 H5 H6]. split; try rewrite Ht; try done. lia. Qed.

Lemma run_frame σ σ' i t p pend rec ls : lv_frame i σ σ' → run_rel σ i t p pend rec ls → run_rel σ' i t p pend rec ls.
Proof.
  intros F (Hp & ? & ? & ?). unfold run_rel. rewrite (fr_thr _ _ _ F). split_and!; [done..|by eapply tx_frame|by eapply own_frame].
Qed.

Lemma act_frame σ σ' i t : lv_frame i σ σ' → act_rel σ i t → act_rel σ' i t.
Proof. intros F [rec H]. exists rec. by eapply run_frame. Qed.

Lemma abort_frame σ σ' i t ls : lv_frame i σ σ' → abort_rel σ i t ls → abort_rel σ' i t ls.
Proof.
  intros F (? & ? & ? & ? & ?). unfold abort_rel. rewrite (fr_thr _ _ _ F). pose proof (fr_clk _ _ _ F).
  split_and!; [done..|by eapply own_frame|lia|lia|lia].
Qed.

Lemma todo_frame σ σ' i rec rs c : lv_frame i σ σ' → todo σ i rec rs c → todo σ' i rec rs c.
Proof. intros F H a val v Hin. rewrite (fr_thr _ _ _ F). by apply H. Qed.

Lemma commit_frame σ σ' i t cv rec : lv_frame i σ σ' → commit_rel σ i t cv rec → commit_rel σ' i t cv rec.
Proof. intros F [? H]. split; [done|]. by eapply run_frame. Qed.

Lemma t_frame σ σ' i t : lv_frame i σ σ' → t_rel σ i t → t_rel σ' i t.
Proof.
  intros F [Hid Hp]. split; [done|]. unfold pc_rel in *. pose proof (fr_clk _ _ _ F).
  assert (Hin : ∀ t, inactive_rel σ i t → inactive_rel σ' i t).
  { intros t' (? & ? & ? & ?). unfold inactive_rel. rewrite (fr_thr _ _ _ F). split_and!; [done..|by eapply own_frame]. }
  destruct (w_pc t) as [| | | | | | | |k|k last rs| | | | | | | | | | | | | | | | | | |];
    try destruct k; rewrite ?(fr_thr _ _ _ F), ?(fr_own _ _ _ F); try destruct (w_active (w_tx t));
    repeat match goal with
      | H : _ ∧ _ |- _ => destruct H
      | H : ∃ _, _ |- _ => destruct H
      end;
    repeat match goal with |- _ ∧ _ => split | |- ∃ _, _ => eexists end; try done; try lia;
    eauto using run_frame, act_frame, abort_frame, todo_frame, commit_frame, seen_frame, own_frame.
Qed.

(** ** Abstract steps of one thread *)

Definition sim (i : nat) σ (gt : wglobal * wthread) : Prop := ∃ σ', lv_steps i σ σ' ∧ g_rel gt.1 σ' ∧ t_rel σ' i gt.2.

Lemma wsim_stay i σ g t : g_rel g σ → t_rel σ i t → sim i σ (g, t).
Proof. intros. by exists σ. Qed.

Lemma abort_sim i σ g t p pend rec :
  g_rel g σ → w_id (w_tx t) = tid i → run_rel σ i t p pend rec (w_held (w_tx t)) → running p → sim i σ (g, abort_tx t).
Proof.
  intros G Hid (Hp & Hact & X & Ho) Hr. pose proof (upd_set_thr i σ (LVT PAbort [] [] [])) as U.
  exists (set_thr σ i (LVT PAbort [] [] [])). split_and!.
  - apply rtc_once. apply lv_abort. by rewrite Hp.
  - by eapply g_upd.
  - split; [done|]. pose proof (tr_end _ _ _ _ _ _ X). change (abort_rel (set_thr σ i (LVT PAbort [] [] [])) i t (w_held (w_tx t))).
    split_and!; [by rewrite (up_thr _ _ _ _ U)|done|by eapply own_upd|lia|lia|simpl; lia].
Qed.

Lemma run_upd i σ σ' T t p pend pend' rec ls :
  run_rel σ i t p pend rec ls → upd i σ σ' T → ph T = p → rds T = pend' ++ rec → lrds (thr σ i) ⊆ lrds T →
  fixd (thr σ i) ⊆ fixd T → run_rel σ' i t p pend' rec ls.
Proof.
  intros (Hp & Hact & [H1 H2 H3 H4 H5 H6] & Ho) U HpT Hrd Hl Hf. split_and!; [by rewrite (up_thr _ _ _ _ U)|done| |by eapply own_upd].
  split; rewrite ?(up_thr _ _ _ _ U), ?(up_clk _ _ _ _ U); try done.
  - eapply log_mono; [|done]. intros ab. rewrite !elem_of_app. intros [?|?]; [by left|right; by apply Hl].
  - intros a val v Hin. destruct (H3 a val v Hin) as (? & ? & ? & ?). split_and!; [done..|by apply Hf].
Qed.

Lemma idle_rel σ i t : w_id (w_tx t) = tid i → w_pc t = Idle → w_active (w_tx t) = true → act_rel σ i t → t_rel σ i t.
Proof. intros ? Hpc Ha ?. split; [done|]. unfold pc_rel. by rewrite Hpc, Ha. Qed.

(** ** Reads *)

Lemma own_read_sim i σ g t a sz bs :
  g_rel g σ → w_id (w_tx t) = tid i → rmiss t a sz → act_rel σ i t → own σ (lock_of a) = Some i →
  (length bs < type_size sz)%nat → (∀ k b, bs !! k = Some b → (a + Z.of_nat k, b) ∈ lrds (thr σ i)) →
  sim i σ (g, if all_read sz (next_byte g a bs) then read_return t (w_tx t) a sz (bytes_value (next_byte g a bs))
              else at_pc t (ROwn a sz (next_byte g a bs))).
Proof.
  intros G Hid (Ha & Hin & Hbuf) [rec R] Ho Hlen Hbs. set (bs' := next_byte g a bs). set (x := a + Z.of_nat (length bs)).
  assert (Hacc : in_acc a sz x) by (by apply nth_acc). pose proof R as (Hp & Hact & X & Hown).
  set (T := LVT PActive (rds (thr σ i)) ((x, mget (lmem σ) x) :: lrds (thr σ i)) (fixd (thr σ i))). pose proof (upd_set_thr i σ T) as U.
  assert (Hl : lrds (thr σ i) ⊆ lrds T) by (intros e He; by right).
  assert (R' : run_rel (set_thr σ i T) i t PActive [] rec (w_held (w_tx t))) by (eapply run_upd; [done..|apply X|done|done]).
  assert (Hbs' : ∀ k b, bs' !! k = Some b → (a + Z.of_nat k, b) ∈ lrds (thr (set_thr σ i T) i)).
  { intros k b Hk. rewrite (up_thr _ _ _ _ U). unfold bs', next_byte in Hk. apply lookup_app_Some in Hk as [Hk|[Hge Hk]]; [right; by apply Hbs|].
    apply list_lookup_singleton_Some in Hk as [Hk <-]. assert (k = length bs) as -> by lia. rewrite (gr_mem g σ G). left. }
  exists (set_thr σ i T). split_and!.
  - apply rtc_once. pose proof (lv_load_own lock_of i σ x (thr σ i) eq_refl Hp) as Hs. rewrite Hp in Hs. apply Hs.
    by rewrite (lock_of_acc a sz x).
  - by eapply g_upd.
  - assert (Hlen' : length bs' = S (length bs)) by (unfold bs', next_byte; rewrite length_app; simpl; lia).
    simpl snd. unfold all_read. destruct (Nat.leb_spec (type_size sz) (length bs')) as [Hfull|Hpart].
    + apply idle_rel; [done..|]. exists rec. destruct R' as (Hp' & _ & [H1 H2 H3 H4 H5 H6] & Ho'). split_and!; [done..| |done].
      split; try done. apply log_read_shared; [done|apply H5|done|lia|]. intros k b Hk. apply elem_of_app. right. by apply Hbs'.
    + split; [done|]. split; [done|]. split; [by exists rec|]. split; [done|]. split; [|done]. fold bs'. lia.
Qed.

Lemma shared_byte_sim i σ g t a sz l bs v rec :
  g_rel g σ → w_id (w_tx t) = tid i → rmiss t a sz → (length bs < type_size sz)%nat → seen σ a l None v →
  run_rel σ i t PActive (taken a v bs) rec (w_held (w_tx t)) →
  sim i σ (g, at_pc t (if all_read sz (next_byte g a bs) then RRecheck a sz l (next_byte g a bs) else RBytes a sz l (next_byte g a bs))).
Proof.
  intros G Hid Hmiss Hlen Hseen R. pose proof Hmiss as (Ha & Hin & Hbuf). set (x := a + Z.of_nat (length bs)).
  assert (Hacc : in_acc a sz x) by (by apply nth_acc). pose proof R as (Hp & Hact & X & Hown).
  set (T := LVT PActive ((x, mget (lmem σ) x, v) :: rds (thr σ i)) (lrds (thr σ i)) (fixd (thr σ i))). pose proof (upd_set_thr i σ T) as U.
  assert (Hnb : next_byte g a bs = bs ++ [mget (lmem σ) x]) by (unfold next_byte; by rewrite (gr_mem g σ G)).
  assert (R' : run_rel (set_thr σ i T) i t PActive (taken a v (next_byte g a bs)) rec (w_held (w_tx t))).
  { eapply run_upd; [done..| |done|done]. rewrite Hnb, taken_snoc. simpl. by rewrite (tr_rds _ _ _ _ _ _ X). }
  exists (set_thr σ i T). split_and!.
  - apply rtc_once. pose proof (lv_load lock_of i σ x v (thr σ i) eq_refl Hp) as Hs. rewrite Hp in Hs. apply Hs.
    rewrite (lock_of_acc a sz x) by done. by destruct Hseen as (_ & _ & _ & ?).
  - by eapply g_upd.
  - assert (Hlen' : length (next_byte g a bs) = S (length bs)) by (rewrite Hnb, length_app; simpl; lia).
    split; [done|]. cbn [snd]. unfold all_read. destruct (Nat.leb_spec (type_size sz) (length (next_byte g a bs))).
    + split; [done|]. split; [lia|]. by exists v, rec.
    + split; [done|]. split; [lia|]. by exists v, rec.
Qed.

(** A changed or too new lock word: the bytes taken are dropped. *)
Lemma drop_sim i σ t p pend rec ls :
  run_rel σ i t p pend rec ls → running p → ∃ σ', lv_steps i σ σ' ∧ upd i σ σ' (LVT p rec (lrds (thr σ i)) (fixd (thr σ i))) ∧
    run_rel σ' i t p [] rec ls.
Proof.
  intros R Hr. pose proof R as (Hp & _ & X & _). destruct (forget_step lock_of i σ rec (lrds (thr σ i)) (fixd (thr σ i))) as (σ' & Hs & U).
  - by rewrite Hp.
  - rewrite (tr_rds _ _ _ _ _ _ X). intros e He. apply elem_of_app. by right.
  - done.
  - done.
  - rewrite Hp in U. exists σ'. split_and!; [done|done|]. by eapply run_upd.
Qed.

Lemma record_read_new rs al v val sz a : ∃ r, r ∈ record_read rs al v val sz a ∧ bread_addr r = al ∧ bread_version r = v.
Proof.
  induction rs as [|r rs IH]; simpl; [eexists; split; [left|done]|]. destruct (Z.eqb_spec (bread_addr r) al) as [Heq|].
  - eexists. split; [left|]. done.
  - destruct IH as (r' & ? & ? & ?). exists r'. split; [by right|done].
Qed.

Lemma record_read_old rs al v val sz a x u :
  in_rset rs x u → (align_down_8 x = al → Z.of_nat u = v) → in_rset (record_read rs al v val sz a) x u.
Proof.
  intros (r & Hr & Hra & Hrv) Hu. induction rs as [|r' rs IH]; [by apply elem_of_nil in Hr|]. simpl.
  destruct (Z.eqb_spec (bread_addr r') al) as [Heq|Hne].
  - apply elem_of_cons in Hr as [->|Hr]; [|exists r; split; [by right|done]]. exists (merge_read r' v val sz a). split; [left|].
    simpl. split; [done|]. rewrite Hra in Heq. by rewrite Hu.
  - apply elem_of_cons in Hr as [->|Hr]; [exists r'; split; [left|done]|]. destruct (IH Hr) as (r'' & ? & ? & ?).
    exists r''. split; [by right|done].
Qed.

(** The versions recorded for a word agree as long as the lock's version is within the snapshot. *)
Lemma version_agrees σ i t pend rec a sz x val u :
  lv_inv σ → tx_rel σ i (w_tx t) (w_log t) pend rec → is_w 64 a → in_word sz a → (x, val, u) ∈ rec → align_down_8 x = align_down_8 a →
  Z.of_nat (ver σ (lock_of a)) ≤ w_end (w_tx t) → u = ver σ (lock_of a).
Proof.
  intros I X Ha Hin Hx Hal Hle. destruct (tr_rec _ _ _ _ _ _ X x val u Hx) as (Hw & _ & _ & Hf).
  assert (lock_of x = lock_of a) as Hl by (unfold lock_of; by rewrite Hal).
  destruct (iv_fix _ _ σ I i _ _ _ _ Hf) as (_ & _ & _ & Hv & _). rewrite Hl in Hv.
  destruct (iv_rds _ _ σ I i x val u) as [Hu _]; [rewrite (tr_rds _ _ _ _ _ _ X); apply elem_of_app; by right|]. rewrite Hl in Hu. lia.
Qed.

Lemma record_sim i σ g t a sz bs v rec :
  lv_inv σ → g_rel g σ → w_id (w_tx t) = tid i → rmiss t a sz → length bs = type_size sz → ver σ (lock_of a) = v → own σ (lock_of a) = None →
  Z.of_nat v ≤ w_end (w_tx t) → run_rel σ i t PActive (taken a v bs) rec (w_held (w_tx t)) →
  sim i σ (g, read_return t (tx_set_rset (w_tx t) (record_read (w_rset (w_tx t)) (align_down_8 a) (Z.of_nat v) (bytes_value bs) sz a)) a sz (bytes_value bs)).
Proof.
  intros I G Hid (Ha & Hin & Hbuf) Hlen Hv Ho Hle R. pose proof R as (Hp & Hact & X & Hown).
  assert (Htk : ∀ x val u, (x, val, u) ∈ taken a v bs → u = v ∧ in_acc a sz x ∧ is_w 64 x ∧ align_down_8 x = align_down_8 a ∧ lock_of x = lock_of a).
  { intros x val u (-> & k & Hk & ->)%taken_elem. apply lookup_lt_Some in Hk. assert (in_acc a sz (a + Z.of_nat k)) as Hacc by (apply nth_acc; lia).
    destruct (align_acc a sz _ Ha Hin Hacc). split_and!; [done..|by eapply lock_of_acc]. }
  pose proof (tr_end _ _ _ _ _ _ X) as Hend.
  destruct (check_steps lock_of i σ (S (Z.to_nat (w_end (w_tx t)))) (taken a v bs)) as (σ' & F & Hs & U & HF & Hnew).
  { by rewrite Hp. }
  { lia. }
  { intros x val u Hx. destruct (Htk x val u Hx) as (-> & _ & _ & _ & ->). split_and!; [|by left|lia|lia].
    rewrite (tr_rds _ _ _ _ _ _ X). apply elem_of_app. by left. }
  exists σ'. split_and!; [done|by eapply g_upd|]. apply idle_rel; [done..|]. exists (taken a v bs ++ rec).
  split_and!; [by rewrite (up_thr _ _ _ _ U)|done| |by eapply own_upd]. destruct X as [H1 H2 H3 H4 H5 H6].
  split; rewrite ?(up_thr _ _ _ _ U), ?(up_clk _ _ _ _ U); try done; cbn [w_tx w_log read_return tx_set_rset w_wset w_rset w_end].
  - apply log_read_shared; [|apply H5|done|lia|].
    + eapply log_mono; [|done]. intros ab. rewrite fmap_app, !elem_of_app. naive_solver.
    + intros k b Hk. rewrite fmap_app, !elem_of_app. left; left. apply list_elem_of_fmap. exists (a + Z.of_nat k, b, v). split; [done|].
      apply taken_elem. split; [done|]. by exists k.
  - intros x val u [Hx|Hx]%elem_of_app.
    + destruct (Htk x val u Hx) as (-> & _ & Hw & Hal & _). split; [done|]. split_and!; [|done|by apply Hnew].
      destruct (record_read_new (w_rset (w_tx t)) (align_down_8 a) (Z.of_nat v) (bytes_value bs) sz a) as (r & ? & ? & ?). exists r.
      by rewrite Hal.
    + destruct (H3 x val u Hx) as (? & Hrs & ? & ?). split; [done|]. split_and!; [|done|by apply HF].
      apply record_read_old; [done|]. intros Hal. rewrite <- Hv. f_equal. eapply (version_agrees σ i t _ rec a sz x val); try done. lia.
Qed.

Lemma recheck_sim i σ g t a sz l bs g' t' :
  lv_inv σ → g_rel g σ → t_rel σ i t → w_pc t = RRecheck a sz l bs → read_step g t = Some (g', t') → sim i σ (g', t').
Proof using Hn.
  intros I G [Hid Hpc] Heq Hs. unfold pc_rel in Hpc. rewrite Heq in Hpc. destruct Hpc as (Hmiss & Hlen & v & rec & Hseen & R).
  pose proof Hseen as (-> & Hvok & _ & Hle). destruct (lock_word g σ (lock_of a) I G) as [Hv Ho].
  unfold read_step in Hs. rewrite Heq, (gr_locks g σ G) in Hs. destruct (Z.eqb_spec (word_of v None) (word_of (ver σ (lock_of a)) (own σ (lock_of a)))) as [Hw|Hw].
  - apply word_inj in Hw as [Hve Hoe]; [|done..]. cbn [negb] in Hs. rewrite word_version in Hs by done.
    destruct (Z.ltb_spec (w_end (w_tx t)) (Z.of_nat v)); injection Hs as <- <-.
    + destruct (drop_sim i σ t _ _ _ _ R Logic.I) as (σ' & Hst & U & R'). exists σ'. split_and!; [done|by eapply g_upd|]. split; [done|].
      split; [done|]. split; [by exists rec|]. exists v. split_and!; [done..|]. by rewrite (up_ver _ _ _ _ U).
    + by eapply record_sim.
  - injection Hs as <- <-. destruct (drop_sim i σ t _ _ _ _ R Logic.I) as (σ' & Hst & U & R'). exists σ'. split_and!; [done|by eapply g_upd|].
    split; [done|]. split; [done|]. split; [by exists rec|]. exists (own σ (lock_of a)), (ver σ (lock_of a)). split_and!; [done..|].
    by rewrite (up_ver _ _ _ _ U).
Qed.

Lemma read_sim i σ g t g' t' :
  lv_inv σ → g_rel g σ → t_rel σ i t → read_step g t = Some (g', t') → sim i σ (g', t').
Proof using Hn.
  intros I G Ht Hs. pose proof Ht as [Hid Hpc]. unfold pc_rel in Hpc. pose proof Hs as Hs'. unfold read_step in Hs'. destruct (w_pc t) eqn:Heq; try done.
  - injection Hs' as <- <-. destruct Hpc as [Hm Ha]. destruct (lock_word g σ (lock_of a) I G). apply wsim_stay; [done|]. split; [done|].
    rewrite (gr_locks g σ G), Hid, word_locked_by by done. case_bool_decide; [|done]. split; [done|]. split; [done|]. split; [done|].
    split; [simpl; pose proof (type_size_range sz); lia|]. intros k b Hk. by rewrite lookup_nil in Hk.
  - injection Hs' as <- <-. destruct Hpc as (? & ? & ? & ? & ?). by apply own_read_sim.
  - injection Hs' as <- <-. destruct Hpc as [Hm Ha]. destruct (lock_word g σ (lock_of a) I G). apply wsim_stay; [done|]. split; [done|].
    split; [done|]. split; [done|]. rewrite (gr_locks g σ G). eexists _, _. by split_and!.
  - destruct Hpc as (Hm & [rec R] & o & v & Hseen). pose proof Hseen as (-> & ? & ? & ?). rewrite word_locked in Hs' by done. destruct o as [j|].
    + rewrite bool_decide_true in Hs' by done. injection Hs' as <- <-. by eapply abort_sim.
    + rewrite bool_decide_false in Hs' by (by intros [? ?]). injection Hs' as <- <-. apply wsim_stay; [done|]. split; [done|]. split; [done|].
      split; [simpl; pose proof (type_size_range sz); lia|]. by exists v, rec.
  - injection Hs' as <- <-. destruct Hpc as (? & ? & v & rec & ? & ?). by eapply shared_byte_sim.
  - by eapply recheck_sim.
Qed.

(** ** Validation *)

(** One validated entry at version [c]. *)
Lemma validate_entry_sim i σ g t r rs rec p c :
  lv_inv σ → g_rel g σ → w_id (w_tx t) = tid i → run_rel σ i t p [] rec (w_held (w_tx t)) → running p → todo σ i rec (r :: rs) c →
  (c ≤ S (clk σ))%nat → (∀ a val v, (a, val, v) ∈ rec → (v < c)%nat) →
  validate_entry (g_locks g (lock_of (bread_addr r))) (w_id (w_tx t)) r = true →
  ∃ σ', lv_steps i σ σ' ∧ g_rel g σ' ∧ run_rel σ' i t p [] rec (w_held (w_tx t)) ∧ todo σ' i rec rs c ∧ clk σ' = clk σ ∧
    (∀ ℓ, ver σ' ℓ = ver σ ℓ).
Proof using Hn.
  intros I G Hid R Hr Htodo Hc Hlt Hval. pose proof R as (Hp & _ & X & _). destruct (lock_word g σ (lock_of (bread_addr r)) I G) as [Hv Ho].
  rewrite (gr_locks g σ G), Hid in Hval. apply word_valid in Hval as [Hown Hle]; [|done..].
  set (ok := λ e : Z * Z * nat, bread_addr r = align_down_8 e.1.1 ∧ bread_version r = Z.of_nat e.2).
  destruct (check_steps lock_of i σ c (filter ok rec)) as (σ' & F & Hs & U & HF & Hnew).
  - by rewrite Hp.
  - done.
  - intros a val v [[Hra Hrv] Hin]%list_elem_of_filter. simpl in Hra, Hrv. destruct (tr_rec _ _ _ _ _ _ X a val v Hin) as (Hw & _).
    assert (lock_of (bread_addr r) = lock_of a) as Hl by (rewrite Hra; by apply lock_of_align). rewrite Hl in Hown, Hle.
    split_and!; [by rewrite (tr_rds _ _ _ _ _ _ X)|done|lia|by eapply Hlt].
  - exists σ'. split_and!; [done|by eapply g_upd| | |by rewrite (up_clk _ _ _ _ U)|intros; by rewrite (up_ver _ _ _ _ U)].
    + eapply run_upd; [done..|simpl; apply X|done|done].
    + intros a val v Hin. rewrite (up_thr _ _ _ _ U). simpl. destruct (Htodo a val v Hin) as [Hf|(r' & Hr' & Hra & Hrv)]; [left; by apply HF|].
      apply elem_of_cons in Hr' as [->|Hr']; [|right; by exists r']. left. apply Hnew. apply list_elem_of_filter. done.
Qed.

Lemma todo_start σ i t p pend rec ls c : run_rel σ i t p pend rec ls → todo σ i rec (w_rset (w_tx t)) c.
Proof. intros (_ & _ & X & _) a val v Hin. right. by destruct (tr_rec _ _ _ _ _ _ X a val v Hin) as (_ & ? & _). Qed.

Lemma todo_done σ i rec c : todo σ i rec [] c → ∀ a val v, (a, val, v) ∈ rec → (a, val, v, c) ∈ fixd (thr σ i).
Proof. intros H a val v Hin. destruct (H a val v Hin) as [?|(r & Hr & _)]; [done|by apply elem_of_nil in Hr]. Qed.

Lemma decide_sim i σ g t cv rec last :
  lv_inv σ → g_rel g σ → w_id (w_tx t) = tid i → commit_rel σ i t cv rec → todo σ i rec [] (Z.to_nat cv) →
  sim i σ (validated g t (VCommit cv) last).
Proof.
  intros I G Hid [Hcv R] Htodo. pose proof R as (Hp & Hact & X & Hown). pose proof (tr_rds _ _ _ _ _ _ X) as Hrd. simpl in Hrd.
  destruct (g_decide disciplined n i g σ _ _ (w_log t) G Hp) as [Hstep G'].
  - rewrite Hrd. by apply todo_done.
  - intros Hd. rewrite Hrd. unfold explains. cbn [ce_reads ce_writes]. by apply (lo_replay _ _ _ (tr_log _ _ _ _ _ _ X)).
  - eexists. split_and!; [apply rtc_once, Hstep|done|]. split; [done|]. split; [done|]. split; [|done]. simpl. by rewrite fn_lookup_insert.
Qed.

Lemma extended_sim i σ g t a sz l rec last :
  g_rel g σ → w_id (w_tx t) = tid i → rmiss t a sz → (∃ v, seen σ a l None v) → w_end (w_tx t) ≤ last ≤ Z.of_nat (clk σ) →
  run_rel σ i t PActive [] rec (w_held (w_tx t)) → todo σ i rec [] (S (Z.to_nat last)) → sim i σ (validated g t (VRead a sz l) last).
Proof.
  intros G Hid Hm [v Hseen] Hlast (Hp & Hact & [H1 H2 H3 H4 H5 H6] & Hown) Htodo. apply wsim_stay; [done|]. split; [done|]. split; [done|].
  split; [|by exists None, v]. exists rec. split_and!; [done..| |done]. split; try done; cbn [w_tx w_log with_tx tx_extended w_end w_start w_rset]; [|lia].
  intros a' val u Hin. destruct (H3 a' val u Hin) as (? & ? & ? & ?). split; [done|]. split_and!; [done|lia|by eapply todo_done].
Qed.

Lemma validate_sim i σ g t g' t' :
  lv_inv σ → g_rel g σ → t_rel σ i t → validate_step g t = Some (g', t') → sim i σ (g', t').
Proof using Hn.
  intros I G Ht Hs. pose proof Ht as [Hid Hpc]. unfold pc_rel in Hpc. unfold validate_step in Hs. destruct (w_pc t) as [| | | | | | | |k|k last rs| | | | | | | | | | | | | | | | | | |] eqn:Heq; try done.
  - destruct (VERSION_MASK <=? g_clock g); injection Hs as <- <-; [by apply wsim_stay|]. apply wsim_stay; [done|]. split; [done|].
    rewrite (gr_clock g σ G). destruct k as [a sz l|w|cv]; [|done|].
    + destruct Hpc as (? & [rec R] & ?). split; [done|]. split; [done|]. pose proof R as (_ & _ & X & _). pose proof (tr_end _ _ _ _ _ _ X).
      split; [simpl; lia|]. exists rec. split; [done|]. by eapply todo_start.
    + destruct Hpc as (rec & Hcv & R). exists rec. split; [by split|]. by eapply todo_start.
  - destruct rs as [|r rs].
    + injection Hs as Hs. rewrite <- Hs. destruct k as [a sz l|w|cv].
      * destruct Hpc as (? & ? & ? & rec & ? & ?). by eapply extended_sim.
      * apply wsim_stay; [done|]. by split.
      * destruct Hpc as (rec & ? & ?). by eapply decide_sim.
    + destruct (validate_entry _ _ _) eqn:Hval; injection Hs as <- <-; destruct k as [a sz l|w|cv].
      * destruct Hpc as (? & [v Hseen] & Hlast & rec & R & Htodo). destruct (validate_entry_sim i σ g t r rs rec PActive (S (Z.to_nat last))) as (σ' & ? & ? & ? & ? & Hc & Hv); try done.
        { lia. }
        { intros a' val u Hin. destruct R as (_ & _ & X & _). destruct (tr_rec _ _ _ _ _ _ X a' val u Hin) as (_ & _ & ? & _). lia. }
        exists σ'. split_and!; [done..|]. split; [done|]. split; [done|]. split; [exists v; unfold seen; by rewrite Hv|]. split; [by rewrite Hc|]. by exists rec.
      * apply wsim_stay; [done|]. by split.
      * destruct Hpc as (rec & [Hcv R] & Htodo). pose proof R as (Hp & _ & X & _). destruct (iv_inc _ _ σ I i _ _ Hp) as ([? ?] & _ & _ & _ & Hlt).
        rewrite (tr_rds _ _ _ _ _ _ X) in Hlt. destruct (validate_entry_sim i σ g t r rs rec _ (Z.to_nat cv) I G Hid R) as (σ' & ? & ? & ? & ? & _); try done; [lia|].
        exists σ'. split_and!; [done..|]. split; [done|]. by exists rec.
      * destruct Hpc as (_ & _ & _ & rec & R & _). by eapply abort_sim.
      * destruct Hpc as (_ & [rec R]). by eapply abort_sim.
      * destruct Hpc as (rec & [_ R] & _). by eapply abort_sim.
Qed.

(** ** Writes *)

Lemma tx_eq σ σ' i x evs pend rec : thr σ' i = thr σ i → clk σ' = clk σ → tx_rel σ i x evs pend rec → tx_rel σ' i x evs pend rec.
Proof. intros Ht Hc [H1 H2 H3 H4 H5 H6]. split; rewrite ?Ht, ?Hc; done. Qed.

Lemma acquire_sim i σ g t w :
  lv_inv σ → g_rel g σ → (i < n)%nat → w_id (w_tx t) = tid i → wmiss t w → act_rel σ i t → own σ (lock_of (wa_addr w)) = None →
  sim i σ (set_lock g (lock_of (wa_addr w)) (word_of (ver σ (lock_of (wa_addr w))) (Some i)), at_pc t (WOwned w)).
Proof.
  intros I G Hi Hid Hm [rec R] Hfree. set (ℓ := lock_of (wa_addr w)) in *. destruct R as (Hp & Hact & X & Hnd & Hown).
  exists (set_own σ ℓ (Some i)). split_and!.
  - apply rtc_once. by apply lv_acquire.
  - apply g_set_own; [done|]. by intros j [= <-].
  - split; [done|]. split; [done|]. exists rec, (ℓ :: w_held (w_tx t)). split; [|split; [|done]].
    + split; [done|]. split; [done|]. split; [by apply (tx_eq σ)|]. split.
      * constructor; [|done]. intros Hin. apply Hown in Hin. congruence.
      * intros ℓ'. simpl. rewrite elem_of_cons. destruct (decide (ℓ' = ℓ)) as [->|]; [rewrite fn_lookup_insert; naive_solver|].
        rewrite fn_lookup_insert_ne by done. rewrite Hown. naive_solver.
    + intros ℓ'. rewrite elem_of_cons. naive_solver.
Qed.

Lemma owned_already i σ t w : wmiss t w → act_rel σ i t → own σ (lock_of (wa_addr w)) = Some i → pc_rel σ i (at_pc t (WOwned w)).
Proof.
  intros Hm [rec R] Ho. split; [done|]. pose proof R as (_ & _ & _ & Hnd & Hown). exists rec, (w_held (w_tx t)). split; [done|]. split; [|done].
  intros ℓ. split; [by left|]. intros [? | ->]; [done|by apply Hown].
Qed.

Lemma try_failed_sim i σ g t w k :
  g_rel g σ → w_id (w_tx t) = tid i → wmiss t w → act_rel σ i t → sim i σ (g, try_failed t w k).
Proof.
  intros G Hid Hm Ha. destruct k; simpl; try (apply wsim_stay; [done|by split]).
  all: destruct Ha as [rec R]; by eapply abort_sim.
Qed.

Lemma cas_sim i σ g t w k e d g' t' :
  lv_inv σ → g_rel g σ → (i < n)%nat → t_rel σ i t → w_pc t = WCas w k e d → write_step g t = Some (g', t') → sim i σ (g', t').
Proof using Hn.
  intros I G Hi [Hid Hpc] Heq Hs. unfold pc_rel in Hpc. rewrite Heq in Hpc. destruct Hpc as (Hm & Ha & v & Hv & -> & ->).
  unfold write_step, compare_exchange_strong in Hs. rewrite Heq, (gr_locks g σ G) in Hs. set (ℓ := lock_of (wa_addr w)) in *.
  destruct (lock_word g σ ℓ I G) as [Hvo Ho]. destruct (Z.eqb_spec (word_of (ver σ ℓ) (own σ ℓ)) (word_of v None)) as [Hw|Hw].
  - apply word_inj in Hw as [<- Hfree]; [|done..]. injection Hs as <- <-. by apply acquire_sim.
  - injection Hs as <- <-. by apply try_failed_sim.
Qed.

Lemma push_lock_rel σ i held ls ℓ :
  own_rel σ i ls → NoDup held → (∀ ℓ', ℓ' ∈ ls ↔ ℓ' ∈ held ∨ ℓ' = ℓ) → own_rel σ i (push_lock held ℓ) ∧ ℓ ∈ push_lock held ℓ ∧ held ⊆ push_lock held ℓ.
Proof.
  intros [_ Hown] Hnd Hls. unfold push_lock. case_bool_decide as Hin.
  - split_and!; [|done|done]. split; [done|]. intros ℓ'. rewrite Hown, Hls. naive_solver.
  - split_and!; [|set_solver|set_solver]. split; [apply NoDup_app; split_and!; [done|set_solver|apply NoDup_singleton]|].
    intros ℓ'. rewrite Hown, Hls. set_solver.
Qed.

Lemma owned_sim i σ g t w g' t' :
  lv_inv σ → g_rel g σ → t_rel σ i t → w_pc t = WOwned w → write_step g t = Some (g', t') → sim i σ (g', t').
Proof using Hn.
  intros I G [Hid Hpc] Heq Hs. unfold pc_rel in Hpc. rewrite Heq in Hpc. destruct Hpc as (Hm & rec & ls & (Hp & Hact & X & Hown) & Hls & Hnd).
  set (ℓ := lock_of (wa_addr w)) in *. destruct (push_lock_rel σ i _ ls ℓ Hown Hnd Hls) as (Hown' & Hin & Hsub).
  assert (Ho : own σ ℓ = Some i) by (apply Hown, Hls; by right). destruct (lock_word g σ ℓ I G).
  unfold write_step in Hs. rewrite Heq in Hs. fold ℓ in Hs. rewrite (gr_locks g σ G), Hid, word_locked_by, bool_decide_true in Hs by done. injection Hs as <- <-.
  apply wsim_stay; [done|]. split; [done|]. split; [done|]. split; [|done]. exists rec. split_and!; [done..| |done].
  destruct X as [H1 H2 H3 H4 H5 H6]. split; try done.
  - split; [apply H5|]. intros a Has. by apply Hsub, H5.
  - intros Hro. destruct Hm as (_ & _ & _ & Hf). simpl in Hro. congruence.
Qed.

Lemma put_ok w al e : wset_ok w → aligned_addr al →
  wset_ok (ws_put wle_none w al e) ∧ wset_map (ws_put wle_none w al e) = <[al := e]> (wset_map w).
Proof.
  intros [Hwf Hal] Ha. destruct (ws_put_map wle_none w al e Hwf) as [Hwf' Hm]. split; [|done]. split; [done|]. intros a' e'. rewrite Hm.
  intros [[-> _]|[_ ?]]%lookup_insert_Some; [done|by eapply Hal].
Qed.

(** A write that reaches the buffer: the entry [e'] for its word. *)
Lemma buffered_sim i σ g t x' p rec w w' a sz v old e' :
  g_rel g σ → w_id (w_tx t) = tid i → run_rel σ i t PActive [] rec (w_held (w_tx t)) → w = w_wset (w_tx t) →
  is_w 64 a → in_word sz a → wset_ok w' → wset_map w' = <[align_down_8 a := e']> (wset_map w) → lock_of a ∈ w_held (w_tx t) →
  match wset_map w !! align_down_8 a with Some e => old = (redo_value (wle_redo e), redo_valid (wle_redo e)) | None => old = (0, 0) end →
  bitmap_write old.1 old.2 v sz a = (redo_value (wle_redo e'), redo_valid (wle_redo e')) →
  x' = tx_set_wset (tx_writes (w_tx t)) w' → p = Idle → sim i σ (g, WT x' p (w_log t ++ [EvW a sz (u8 v)])).
Proof.
  intros G Hid (Hp & Hact & X & Hown) -> Ha Hin Hw' Hmap Hheld Hold Hb -> ->. apply wsim_stay; [done|]. apply idle_rel; [done..|].
  exists rec. split_and!; [done..| |done]. destruct X as [H1 H2 H3 H4 [H5 H5'] H6]. split; try done.
  - cbn. eapply log_write; [done..|]. intros x. by eapply write_buf.
  - split; [done|]. cbn [w_wset tx_set_wset tx_writes w_tx w_held]. intros al. rewrite Hmap. intros [e He]. apply lookup_insert_Some in He as [[<- _]|[_ He]].
    + by rewrite lock_of_align.
    + apply H5'. by eexists.
Qed.

Lemma version_sim i σ g t w g' t' :
  g_rel g σ → t_rel σ i t → w_pc t = WVersion w → write_step g t = Some (g', t') → sim i σ (g', t').
Proof.
  intros G [Hid Hpc] Heq Hs. unfold pc_rel in Hpc. rewrite Heq in Hpc. destruct Hpc as ((Ha & Hin & Hnone & Hro) & [rec R] & Hheld).
  unfold write_step in Hs. rewrite Heq in Hs. injection Hs as <- <-. pose proof R as (_ & _ & X & _). destruct (tr_wset _ _ _ _ _ _ X) as [Hok _].
  destruct (put_ok (w_wset (w_tx t)) (align_down_8 (wa_addr w))
    (WLE (make_write_entry (align_down_8 (wa_addr w)) (wa_val w) (wa_sz w) (wa_addr w)) (get_version (g_locks g (lock_of (wa_addr w)))))) as [Hok' Hmap]; [done|by apply align_down_aligned|].
  eapply (buffered_sim i σ g t _ Idle rec _ _ _ _ _ (0, 0)); [done|done|done|done|done|done|exact Hok'|exact Hmap|done|by rewrite Hnone| | |done].
  - cbn [fst snd wle_redo]. unfold make_write_entry, init_write. by destruct (bitmap_write 0 0 (wa_val w) (wa_sz w) (wa_addr w)).
  - unfold tx_set_wset, tx_writes. simpl. by rewrite Hro.
Qed.

Lemma write_sim i σ g t g' t' :
  lv_inv σ → g_rel g σ → (i < n)%nat → t_rel σ i t → write_step g t = Some (g', t') → sim i σ (g', t').
Proof using Hn.
  intros I G Hi Ht Hs. pose proof Ht as [Hid Hpc]. unfold pc_rel in Hpc. pose proof Hs as Hs'. unfold write_step in Hs'.
  destruct (w_pc t) as [| | | | | | | | | |w|w|w k|w k|w k|w|w|w k|w k e d|w|w| | | | | | | |] eqn:Heq; try done;
    try (destruct (lock_word g σ (lock_of (wa_addr w)) I G) as [Hv Ho]; rewrite ?(gr_locks g σ G), ?Hid in Hs').
  - injection Hs' as <- <-. apply wsim_stay; [done|]. split; [done|]. by destruct (is_locked _).
  - rewrite word_owned in Hs' by done. injection Hs' as <- <-. apply wsim_stay; [done|]. split; [done|]. destruct Hpc.
    case_bool_decide; [by apply owned_already|done].
  - destruct (_ || _); injection Hs' as <- <-; [|apply wsim_stay; [done|by split]]. destruct Hpc as (_ & rec & R). by eapply abort_sim.
  - unfold tm_token_try_acquire in Hs'. destruct (_ =? FREE); injection Hs' as <- <-.
    + apply wsim_stay; [by apply g_set_token|by split].
    + destruct Hpc as (_ & rec & R). eapply abort_sim; [by apply g_set_token|done..].
  - destruct k; injection Hs' as <- <-; (apply wsim_stay; [done|]); (split; [done|]); by destruct (is_locked _).
  - rewrite word_owned in Hs' by done. injection Hs' as <- <-. apply wsim_stay; [done|]. split; [done|]. by case_bool_decide.
  - rewrite word_owned in Hs' by done. injection Hs' as <- <-. apply wsim_stay; [done|]. split; [done|]. destruct Hpc.
    case_bool_decide; [by apply owned_already|done].
  - destruct Hpc as [Hm Ha]. destruct (own σ (lock_of (wa_addr w))) as [j|].
    + rewrite word_try_held in Hs' by done. injection Hs' as <- <-. by apply try_failed_sim.
    + rewrite word_try_free in Hs' by (done || by apply (tid_ok n)). injection Hs' as <- <-. apply wsim_stay; [done|]. split; [done|]. split; [done|]. split; [done|].
      by eexists.
  - by eapply cas_sim.
  - by eapply owned_sim.
  - by eapply version_sim.
Qed.

(** ** Commit and abort *)

Lemma increment_sim i σ g t g' t' :
  lv_inv σ → g_rel g σ → t_rel σ i t → w_pc t = CInc → commit_step g t = Some (g', t') → sim i σ (g', t').
Proof.
  intros I G [Hid Hpc] Heq Hs. unfold pc_rel in Hpc. rewrite Heq in Hpc. destruct Hpc as [rec (Hp & Hact & X & Hown)].
  unfold commit_step in Hs. rewrite Heq in Hs. destruct (Z.leb_spec VERSION_MAX (g_clock g + 1)) as [|Hmax]; [done|]. injection Hs as <- <-.
  destruct (tr_wset _ _ _ _ _ _ X) as [Hok Hheld]. pose proof (gr_clock g σ G) as Hclk.
  destruct (g_increment disciplined n i g σ (ws_stores (w_wset (w_tx t))) G) as [Hstep G']; [by apply Z.leb_gt|done| |].
  { intros a Ha. apply Hown. by eapply stores_held. }
  eexists. split_and!; [apply rtc_once, Hstep|done|]. split; [done|]. exists rec. split; [lia|]. split_and!; [|done| |done].
  - simpl. rewrite fn_lookup_insert. simpl. f_equal. lia.
  - destruct X as [H1 H2 H3 H4 H5 H6]. split; simpl; rewrite ?fn_lookup_insert; try done. lia.
Qed.

Lemma writeback_sim i σ g t cv a b st :
  g_rel g σ → w_id (w_tx t) = tid i → 0 ≤ cv → ph (thr σ i) = PDec (Z.to_nat cv) ((a, b) :: st) → own_rel σ i (w_held (w_tx t)) →
  sim i σ (WG (<[a := b]> (g_mem g)) (g_clock g) (g_locks g) (g_token g) (g_hist g) (g_ro g), at_pc t (CWrite cv st)).
Proof.
  intros G Hid Hcv Hp Hown. destruct (g_writeback disciplined n i g σ _ _ _ _ G Hp) as [Hstep G']. eexists. split_and!; [apply rtc_once, Hstep|done|].
  split; [done|]. split; [done|]. split; [|done]. simpl. by rewrite fn_lookup_insert.
Qed.

Lemma release_sim i σ g t cv ℓ ls g' t' :
  lv_inv σ → g_rel g σ → t_rel σ i t → w_pc t = CRelease cv (ℓ :: ls) → commit_step g t = Some (g', t') → sim i σ (g', t').
Proof using Hn.
  intros I G [Hid Hpc] Heq Hs. unfold pc_rel in Hpc. rewrite Heq in Hpc. destruct Hpc as (Hcv & Hp & Hown).
  assert (Ho : own σ ℓ = Some i) by (apply Hown; left). destruct (g_release disciplined m0 n Hn i g σ _ ℓ I G Hp Ho) as (Hu & Hstep & G').
  unfold commit_step in Hs. rewrite Heq, Hid in Hs. rewrite Z2Nat.id in Hu by done. rewrite Hu in Hs. injection Hs as <- <-.
  eexists. split_and!; [apply rtc_once, Hstep|done|]. split; [done|]. split; [lia|]. split; [done|]. by eapply own_release.
Qed.

Lemma commit_sim i σ g t g' t' :
  lv_inv σ → g_rel g σ → t_rel σ i t → commit_step g t = Some (g', t') → sim i σ (g', t').
Proof using Hn.
  intros I G Ht Hs. pose proof Ht as [Hid Hpc]. unfold pc_rel in Hpc. pose proof Hs as Hs'. unfold commit_step in Hs'.
  destruct (w_pc t) as [| | | | | | | | | | | | | | | | | | | | | |cv st|cv ls| | | | |] eqn:Heq; try done.
  - by eapply increment_sim.
  - destruct Hpc as (? & ? & ?). destruct st as [|[a b] st]; injection Hs' as <- <-; [|by apply writeback_sim]. by apply wsim_stay.
  - destruct ls as [|ℓ ls]; [|by eapply release_sim]. injection Hs' as <- <-. destruct Hpc as (? & ? & ?). apply wsim_stay; [done|]. split; [done|].
    split; [left; by eexists|done].
  - injection Hs' as <- <-. destruct Hpc as [Hp Ho]. pose proof (upd_set_thr i σ (LVT PIdle [] [] [])) as U.
    exists (set_thr σ i (LVT PIdle [] [] [])). split_and!.
    + apply rtc_once. destruct Hp as [[cv Hp]|Hp]; (eapply (lv_finish _ _ _ ltac:(first [exact cv|exact O])); [|by apply no_locks]); [by left|by right; right].
    + apply g_set_token. by eapply g_upd.
    + split; [done|]. split; [by rewrite (up_thr _ _ _ _ U)|]. split; [done|]. split; [done|by eapply own_upd].
Qed.

Lemma unlock_sim i σ g t ℓ ls :
  lv_inv σ → g_rel g σ → w_id (w_tx t) = tid i → abort_rel σ i t (ℓ :: ls) →
  sim i σ (set_lock g ℓ (Z.land (g_locks g ℓ) (Z.land (not64 OWNED_MASK) (not64 (shl64 THREAD_MASK LOCK_BITS)))), at_pc t (AUnlock ls)).
Proof using Hn.
  intros I G Hid (Hp & Hact & Hown & Hb). assert (Ho : own σ ℓ = Some i) by (apply Hown; left). destruct (lock_word g σ ℓ I G).
  rewrite (gr_locks g σ G), word_unlock by done. eexists. split_and!; [apply rtc_once; by eapply lv_release|by apply g_set_own|].
  split; [done|]. split; [done|]. split; [done|]. split; [by eapply own_release|done].
Qed.

Lemma fresh_rel i σ σ' x :
  upd i σ σ' (LVT PActive [] [] []) → own_rel σ i [] → w_active x = true → empty_tx x →
  0 ≤ w_start x ≤ w_end x ∧ w_end x ≤ Z.of_nat (clk σ) → act_rel σ' i (WT x Idle []).
Proof.
  intros U Hown Hact (Hrs & Hws & Hh) Hb. exists []. split; [by rewrite (up_thr _ _ _ _ U)|]. split; [done|]. split; [|simpl; rewrite Hh; by eapply own_upd].
  split; rewrite ?(up_thr _ _ _ _ U), ?(up_clk _ _ _ _ U); simpl; rewrite ?Hws; try done.
  - by apply log_nil.
  - intros *. by intros ?%elem_of_nil.
  - split; [apply wset_ok_empty|]. intros a [e He]. unfold wset_map in He. simpl in He. by rewrite lookup_empty in He.
Qed.

Lemma restart_sim i σ g t :
  g_rel g σ → w_id (w_tx t) = tid i → abort_rel σ i t [] → empty_tx (w_tx t) →
  sim i σ (set_token g (tm_token_release_if_held (g_token g) (w_id (w_tx t))), WT (w_tx t) Idle []).
Proof.
  intros G Hid (Hp & Hact & Hown & Hb) He. set (σ1 := set_thr σ i (LVT PIdle [] [] [])). set (σ2 := set_thr σ1 i (LVT PActive [] [] [])).
  assert (U1 : upd i σ σ1 (LVT PIdle [] [] [])) by apply upd_set_thr. assert (U : upd i σ σ2 (LVT PActive [] [] [])) by (eapply upd_trans; [done|apply upd_set_thr]).
  exists σ2. split_and!.
  - eapply rtc_l; [apply (lv_finish _ _ σ O); [by right; left|by apply no_locks]|]. apply rtc_once. apply lv_begin. change (ph (thr σ1 i) = PIdle).
    by rewrite (up_thr _ _ _ _ U1).
  - apply g_set_token. by eapply g_upd.
  - apply idle_rel; [done..|]. by eapply fresh_rel.
Qed.

Lemma abort_steps_sim i σ g t g' t' :
  lv_inv σ → g_rel g σ → t_rel σ i t → abort_step g t = Some (g', t') → sim i σ (g', t').
Proof using Hn.
  intros I G [Hid Hpc] Hs. unfold pc_rel in Hpc. unfold abort_step in Hs. destruct (w_pc t) as [| | | | | | | | | | | | | | | | | | | | | | | | |ls|ℓ ls|ℓ ls|]; try done.
  - destruct ls as [|ℓ ls]; injection Hs as <- <-.
    + apply wsim_stay; [done|]. split; [done|]. by split.
    + assert (Ho : own σ ℓ = Some i) by (apply Hpc; left). destruct (lock_word g σ ℓ I G) as [? Hok]. rewrite (gr_locks g σ G), word_locked by done.
      rewrite bool_decide_true by (rewrite Ho; by eexists). apply wsim_stay; [done|by split].
  - injection Hs as <- <-. assert (Ho : own σ ℓ = Some i) by (apply Hpc; left). destruct (lock_word g σ ℓ I G) as [? Hok].
    rewrite (gr_locks g σ G), Hid, word_owned by done. rewrite bool_decide_true by done. apply wsim_stay; [done|by split].
  - injection Hs as <- <-. by apply unlock_sim.
  - injection Hs as <- <-. destruct Hpc. by apply restart_sim.
Qed.

(** ** Calls *)

Lemma begin_sim i σ g t g' t' : g_rel g σ → t_rel σ i t → w_pc t = BClock → begin_clock g t = Some (g', t') → sim i σ (g', t').
Proof.
  intros G Ht Heq Hs. pose proof Ht as [Hid Hpc]. unfold pc_rel in Hpc. rewrite Heq in Hpc. destruct Hpc as (Hp & Hact & He & Hown).
  unfold begin_clock in Hs. destruct (_ <=? _); injection Hs as <- <-; [by apply wsim_stay|]. pose proof (upd_set_thr i σ (LVT PActive [] [] [])) as U.
  eexists. split_and!; [apply rtc_once; by apply lv_begin|by eapply g_upd|]. apply idle_rel; [done..|].
  eapply fresh_rel; [done|done|done|by destruct He as (? & ? & ?)|]. simpl. rewrite (gr_clock g σ G). lia.
Qed.

Lemma call_read_sim i σ g t a sz :
  g_rel g σ → w_id (w_tx t) = tid i → w_active (w_tx t) = true → act_rel σ i t → access_ok a sz = true → sim i σ (g, call_read t a sz).
Proof.
  intros G Hid Hact Ha [H64 Hin]%access_ok_spec. apply wsim_stay; [done|]. pose proof Ha as [rec R]. pose proof R as (_ & _ & X & _).
  destruct (tr_wset _ _ _ _ _ _ X) as [Hok _]. pose proof (read_miss (w_wset (w_tx t)) a sz H64 Hin) as Hmiss.
  unfold call_read. rewrite ws_find_lookup by apply Hok. destruct (wset_map (w_wset (w_tx t)) !! align_down_8 a) as [e|] eqn:He.
  - destruct (bitmap_read _ _ _ _ _) as [r|] eqn:Hr.
    + apply idle_rel; [done..|]. exists rec. destruct R as (Hp & _ & [H1 H2 H3 H4 H5 H6] & Hown). split; [done|]. split; [done|]. split; [|done].
      split; try done. simpl. by eapply log_read_hit.
    + split; [done|]. split; [|done]. split; [done|]. split; [done|]. by apply Hmiss.
  - split; [done|]. split; [|done]. split; [done|]. split; [done|]. by apply Hmiss.
Qed.

Lemma call_write_sim i σ g t a sz v :
  g_rel g σ → w_id (w_tx t) = tid i → act_rel σ i t → access_ok a sz = true → sim i σ (g, call_write t a sz v).
Proof.
  intros G Hid Ha [H64 Hin]%access_ok_spec. pose proof Ha as [rec R]. pose proof R as (Hp & Hact & X & Hown).
  destruct (tr_wset _ _ _ _ _ _ X) as [Hok Hheld]. unfold call_write. cbn [tx_writes w_wset].
  pose proof (ws_find_lookup (w_wset (w_tx t)) (align_down_8 a) (proj1 Hok)) as Hfind.
  destruct (ws_find (w_wset (w_tx t)) (align_down_8 a)) as [e|] eqn:He.
  - destruct (ws_pos (w_wset (w_tx t)) (align_down_8 a)) as [k|] eqn:Hk; [|unfold ws_find in He; by rewrite Hk in He].
    destruct (bitmap_write _ _ _ _ _) as [value valid] eqn:Hb. apply ws_pos_spec in Hk; [|apply Hok].
    set (e' := WLE (MkRedo (redo_addr (wle_redo e)) value valid) (wle_version e)).
    pose proof (ws_assign_map (w_wset (w_tx t)) k _ e' (proj1 Hok) Hk) as Hmap.
    eapply (buffered_sim i σ g t _ Idle rec _ (ws_assign (w_wset (w_tx t)) k e') a sz v (redo_value (wle_redo e), redo_valid (wle_redo e)) e'); try done.
    + split; [by apply ws_assign_wf, Hok|]. intros a' e''. rewrite Hmap. destruct Hok as [_ Hok].
      intros [[<- _]|[_ ?]]%lookup_insert_Some; [by apply align_down_aligned|by eapply Hok].
    + rewrite <- lock_of_align by done. apply Hheld. rewrite <- Hfind. by eexists.
    + by rewrite <- Hfind.
  - assert (Hm : sim i σ (g, with_tx t (tx_writes (w_tx t)) (WLocked (WAcc a sz v)))); [|by destruct (ws_pos _ _)].
    apply wsim_stay; [done|]. split; [done|]. split; [done|]. exists rec. split; [done|]. split; [done|]. split; [|done].
    destruct X as [H1 H2 H3 H4 H5 H6]. by split.
Qed.

Lemma held_nil_empty w : wset_ok w → (∀ a, is_Some (wset_map w !! a) → lock_of a ∈ ([] : list Z)) → ws_vec w = [].
Proof.
  intros [[Hnd _] _] Hh. destruct (ws_vec w) as [|[a e] vec] eqn:Hv; [done|]. assert (lock_of a ∈ ([] : list Z)) as H%elem_of_nil; [|done]. apply Hh.
  unfold wset_map. rewrite Hv. simpl. rewrite lookup_insert_eq. by eexists.
Qed.

Lemma ro_commit_sim i σ g t :
  lv_inv σ → g_rel g σ → w_id (w_tx t) = tid i → act_rel σ i t → w_ro (w_tx t) = true →
  sim i σ (WG (g_mem g) (g_clock g) (g_locks g) (g_token g) (g_hist g) ((w_start (w_tx t), w_end (w_tx t), w_log t) :: g_ro g), at_pc t CToken).
Proof.
  intros I G Hid [rec (Hp & Hact & X & Hown)] Hro. pose proof (tr_ro _ _ _ _ _ _ X Hro) as Hh. rewrite Hh in Hown.
  destruct (tr_wset _ _ _ _ _ _ X) as [Hok Hheld]. rewrite Hh in Hheld. pose proof (tr_end _ _ _ _ _ _ X) as Hb.
  assert (Hl : lrds (thr σ i) = []).
  { destruct (lrds (thr σ i)) as [|[a val] l] eqn:Hl; [done|]. destruct (iv_lrds _ _ σ I i a val) as (Ho & _); [rewrite Hl; left|].
    by destruct (no_locks σ i Hown (lock_of a)). }
  destruct (g_observe disciplined n i g σ (w_start (w_tx t)) (w_end (w_tx t)) (w_log t) rec.*1 G Hp) as [Hstep G']; [lia|lia|..].
  - intros a val Hin. apply list_elem_of_fmap in Hin as ([[a' val'] v] & [= -> ->] & Hin). exists v. by apply (tr_rec _ _ _ _ _ _ X).
  - intros Hd M HM. pose proof (tr_log _ _ _ _ _ _ X) as Hlog. rewrite Hl, app_nil_r in Hlog.
    destruct (lo_replay _ _ _ Hlog Hd M HM) as (M' & ? & Hx). exists M'. split; [done|]. intros x. rewrite Hx. unfold ws_stores. by rewrite held_nil_empty.
  - eexists. split_and!; [apply rtc_once, Hstep|done|]. split; [done|]. split; [by right|done].
Qed.

Lemma call_sim i σ g t o g' t' :
  lv_inv σ → g_rel g σ → t_rel σ i t → wcall o g t = Some (g', t') → sim i σ (g', t').
Proof.
  intros I G Ht Hs. pose proof Ht as [Hid Hpc]. unfold pc_rel in Hpc. unfold wcall in Hs. destruct (w_pc t) eqn:Heq; try done.
  destruct o as [|a sz|a sz v|]; destruct (w_active (w_tx t)) eqn:Hact; simpl in Hs; try done.
  - injection Hs as <- <-. by apply wsim_stay.
  - injection Hs as <- <-. apply wsim_stay; [done|]. by split.
  - destruct (access_ok a sz) eqn:Hok; [|done]. injection Hs as <- <-. by apply call_read_sim.
  - destruct (access_ok a sz) eqn:Hok; [|done]. injection Hs as <- <-. by apply call_write_sim.
  - destruct (w_ro (w_tx t)) eqn:Hro; injection Hs as <- <-; [by apply ro_commit_sim|]. apply wsim_stay; [done|]. by split.
Qed.

Lemma wstep_sim i σ g t g' t' :
  lv_inv σ → g_rel g σ → (i < n)%nat → t_rel σ i t → wstep g t = Some (g', t') → sim i σ (g', t').
Proof using Hn.
  intros I G Hi Ht Hs. unfold wstep in Hs. destruct (w_pc t) eqn:Heq; try done;
    first [by eapply begin_sim|by eapply read_sim|by eapply validate_sim|by eapply commit_sim|by eapply abort_steps_sim|by eapply write_sim].
Qed.
End Sim.
