(* ===== verification/WBETLSpec.v ===== *)
(** * What TinySTM (write-back, encounter-time locking) guarantees

    The properties of every interleaved execution, from the simulation of [WBETLSim]:
    the committed transactions are serializable in the order of their commit versions,
    readers see a snapshot at every moment, and locks are only released by their
    owners. *)

From S2P Require Import Prelude Memory Values TMSpec LogMerge TxLog TinyLock TinyWriteSet Support LockWord VersionedLocks TinyShared TinySim WBETL WBETLLog WBETLSim.
#[local] Open Scope Z_scope.

#[local] Abbreviation g_rel := (g_rel disciplined).
#[local] Abbreviation gr_mem := (gr_mem disciplined).
#[local] Abbreviation gr_clock := (gr_clock disciplined).
#[local] Abbreviation gr_locks := (gr_locks disciplined).
#[local] Abbreviation gr_own := (gr_own disciplined).
#[local] Abbreviation all_disciplined := (all_disc disciplined).

(** ** Executions *)

Lemma init_rel m n :
  ∃ σ, lv_reachable lock_of m σ ∧ g_rel n (winit m) σ ∧
    ∀ i t, (wthread_init <$> seqZ 1 (Z.of_nat n)) !! i = Some t → t_rel σ i t.
Proof.
  exists (LVS m 1 (λ _, O) (λ _, None) ∅ (λ _, LVT PIdle [] [] []) []). split_and!.
  - apply lv_init. by split_and!.
  - split; try done.
    intros r. by intros ?%elem_of_nil.
  - intros i t Ht. apply list_lookup_fmap_Some in Ht as (z & -> & [-> _]%lookup_seqZ). split; [simpl; unfold tid; lia|].
    split; [done|]. split; [done|]. split; [done|]. split; [apply NoDup_nil_2|]. intros ℓ. simpl. split; [done|by intros ?%elem_of_nil].
Qed.

Lemma wreachable_sim m n g ts :
  Z.of_nat n < MAX_THREADS → wreachable m n (g, ts) →
  ∃ σ, lv_reachable lock_of m σ ∧ g_rel n g σ ∧ length ts = n ∧ ∀ i t, ts !! i = Some t → t_rel σ i t.
Proof.
  intros Hn Hr. remember (g, ts) as s eqn:Es. revert g ts Es. induction Hr as [|s s' Hr IH Hs]; intros g ts Es.
  - injection Es as <- <-. destruct (init_rel m n) as (σ & ? & ? & ?). exists σ. split_and!; [done..| |done].
    rewrite length_fmap, length_seqZ. lia.
  - subst s'. destruct s as [g1 ts1]. destruct (IH g1 ts1 eq_refl) as (σ & Hreach & G & Hlen & HT).
    pose proof (reachable_inv _ _ σ Hreach) as I.
    assert (∃ i t t', ts1 !! i = Some t ∧ ts = <[i := t']> ts1 ∧ sim n i σ (g, t')) as (i & t & t' & Hi & -> & σ' & Hsteps & G' & T').
    { inversion Hs as [? ? i t o ? t' Ht Hc|? ? i t ? t' Ht Hc]; subst; exists i, t, t'; (split_and!; [done..|]).
      - eapply call_sim; eauto.
      - eapply wstep_sim; eauto. by eapply lookup_lt_Some. }
    exists σ'. destruct (steps_threads _ _ t_rel ts1 i t' σ σ' Hreach Hsteps) as [? ?]; [intros *; apply (t_frame n)|exact HT|exact T'|].
    by split_and!; [|done|rewrite length_insert|].
Qed.

(** ** Running threads *)

(** A log without writes on a memory that holds the bytes it read. *)
Lemma observed_replay l w evs M :
  ws_vec w = [] → log_ok l w evs → disciplined evs = true → holds M l →
  ∃ M', replay M evs = Some M' ∧ ∀ x, mget M' x = mget M x.
Proof.
  intros Hw Hlog Hd HM. destruct (lo_replay _ _ _ Hlog Hd M HM) as (M' & ? & Hx). exists M'. split; [done|]. intros x. rewrite Hx.
  unfold ws_stores. by rewrite Hw.
Qed.

(** A thread in the middle of its write-back. *)
Definition writing_back (t : wthread) : bool := match w_pc t with CWrite _ (_ :: _) => true | _ => false end.

Lemma quiescent_mem m n g ts σ x :
  lv_inv lock_of m σ → g_rel n g σ → length ts = n → (∀ i t, ts !! i = Some t → t_rel σ i t) → forallb (negb ∘ writing_back) ts = true →
  mget (g_mem g) x = at_ver m (hist σ) (clk σ) x.
Proof.
  intros I G Hlen HT Hq. rewrite <- (iv_mem _ _ σ I), (gr_mem n g σ G). unfold pend. destruct (own σ (lock_of x)) as [i|] eqn:Ho; [|done].
  destruct (ph (thr σ i)) as [| | |cv ws|] eqn:Hp; try done. destruct ws as [|s ws]; [done|]. exfalso.
  destruct (lookup_lt_is_Some_2 ts i) as [t Ht]; [rewrite Hlen; by eapply (gr_own n g σ G)|].
  destruct (HT i t Ht) as [_ Hpc]. rewrite forallb_forall in Hq. specialize (Hq t). unfold writing_back, pc_rel, compose in *.
  assert (In t ts) as Hin by (apply list_elem_of_In; by eapply list_elem_of_lookup_2). specialize (Hq Hin). destruct (w_pc t);
    repeat match goal with k : vcaller |- _ => destruct k end; try destruct (w_active (w_tx t));
    unfold act_rel, inactive_rel, abort_rel, commit_rel, run_rel in *; dexs; try congruence.
  all: try match goal with H : ph _ = PDec _ ?st |- _ => rewrite Hp in H; by injection H as _ <- end.
  all: match goal with H : _ ∨ _ |- _ => destruct H as [[? ?]|?] end; congruence.
Qed.

(** ** Properties *)

(** C2: TinySTM with write-back and encounter-time locking is serializable.  In every
    interleaved execution, replaying the logs of the committed update transactions one
    after the other, in the order of their commit versions, succeeds: every read returns
    what it returned in the execution.  Whenever no thread is writing back, the result is
    the shared memory.  Every committed read-only transaction read a state of that serial
    execution, not older than its begin and not newer than its commit.  (Reads that
    straddle bytes written and not written by their own transaction are excluded: the
    code reads memory for all of them.) *)
Theorem wbetl_serializable m n g ts :
  Z.of_nat n < MAX_THREADS → wreachable m n (g, ts) → all_disciplined (g_hist g) →
  (∃ m', serial m (g_hist g) (Z.to_nat (g_clock g)) = Some m' ∧
     (forallb (negb ∘ writing_back) ts = true → ∀ x, mget m' x = mget (g_mem g) x)) ∧
  (∀ s e evs, (s, e, evs) ∈ g_ro g → disciplined evs = true → 0 ≤ s ≤ e ∧ e ≤ g_clock g ∧
     ∃ m1 m2, serial m (g_hist g) (Z.to_nat e) = Some m1 ∧ replay m1 evs = Some m2 ∧ ∀ x, mget m2 x = mget m1 x).
Proof.
  intros Hn Hr Hd. destruct (wreachable_sim m n g ts Hn Hr) as (σ & Hreach & G & Hlen & HT). pose proof (reachable_inv _ _ σ Hreach) as I.
  split; [|by intros; eapply ro_serial].
  rewrite (gr_clock n g σ G), Nat2Z.id. destruct (serial_at disciplined m n g σ (clk σ) I G Hd) as (M & HM & Hx). exists M. split; [done|].
  intros Hq x. rewrite Hx. symmetry. by eapply quiescent_mem.
Qed.

(** Two threads: the first reads a word and writes it plus its neighbour, while the
    second writes another word; both commit. *)
Definition wbetl_schedule : list (nat * option wop) :=
  let run k i := replicate k (i, None) in
  [(0%nat, Some OpBegin); (0%nat, None); (1%nat, Some OpBegin); (1%nat, None); (0%nat, Some (OpRead 4096 UINT16))] ++ run 5%nat 0%nat ++ run 1%nat 0%nat ++
  [(1%nat, Some (OpWrite 8200 UINT8 (AnyT 9)))] ++ run 5%nat 1%nat ++ [(0%nat, Some (OpWrite 4100 UINT32 (AnyT 77)))] ++ run 5%nat 0%nat ++
  [(1%nat, Some OpCommit); (0%nat, Some OpCommit); (0%nat, None); (1%nat, None)] ++ run 10%nat 0%nat ++ run 5%nat 1%nat.

Definition wbetl_end : wglobal * list wthread :=
  default (winit ∅, []) (wrun (winit ∅, wthread_init <$> seqZ 1 2) wbetl_schedule).

Lemma wbetl_end_reachable : wreachable ∅ 2 (wbetl_end.1, wbetl_end.2).
Proof. rewrite <- surjective_pairing. eapply (wrun_reachable ∅ 2 _ wbetl_schedule); [apply wreach_init|]. apply default_Some. vm_compute. reflexivity. Qed.

Lemma wbetl_end_disciplined : all_disciplined (g_hist wbetl_end.1).
Proof.
  assert (map_Forall (λ _ evs, disciplined evs = true) (g_hist wbetl_end.1)) as H; [|exact H].
  apply (bool_decide_unpack _). vm_compute. exact I.
Qed.

Lemma wbetl_serializable_witness :
  ∃ m', serial ∅ (g_hist wbetl_end.1) (Z.to_nat (g_clock wbetl_end.1)) = Some m' ∧
    mget m' 4100 = mget (g_mem wbetl_end.1) 4100 ∧ mget (g_mem wbetl_end.1) 4100 = 77.
Proof.
  destruct (proj1 (wbetl_serializable ∅ 2 wbetl_end.1 wbetl_end.2 eq_refl wbetl_end_reachable wbetl_end_disciplined)) as (m' & Hm & Hq).
  exists m'. split; [exact Hm|]. split; [apply Hq; vm_compute; reflexivity|vm_compute; reflexivity].
Defined.

(** C12: a reader never sees an inconsistent state, whatever it will do later.  Between
    two of its calls, the reads of a running transaction that has not written return the
    values of one state of the serial execution, the one at its [end_version], which lies
    between its begin and the present (for disciplined logs: no read straddles bytes
    written and not written by its own transaction). *)
Theorem wbetl_reader_snapshot m n g ts i t :
  Z.of_nat n < MAX_THREADS → wreachable m n (g, ts) → all_disciplined (g_hist g) → ts !! i = Some t →
  w_pc t = Idle → w_active (w_tx t) = true → w_ro (w_tx t) = true → disciplined (w_log t) = true →
  w_start (w_tx t) ≤ w_end (w_tx t) ≤ g_clock g ∧
  ∃ m1 m2, serial m (g_hist g) (Z.to_nat (w_end (w_tx t))) = Some m1 ∧ replay m1 (w_log t) = Some m2 ∧ ∀ x, mget m2 x = mget m1 x.
Proof.
  intros Hn Hr Hd Hi Hpc Hact Hro Hdl. destruct (wreachable_sim m n g ts Hn Hr) as (σ & Hreach & G & Hlen & HT).
  pose proof (reachable_inv _ _ σ Hreach) as I. destruct (HT i t Hi) as [_ Hrel]. unfold pc_rel in Hrel. rewrite Hpc, Hact in Hrel.
  destruct Hrel as [rec (_ & _ & X & Hown)]. pose proof (tr_end _ _ _ _ _ _ X). rewrite (gr_clock n g σ G). split; [lia|].
  pose proof (tr_ro _ _ _ _ _ _ X Hro) as Hh. destruct (tr_wset _ _ _ _ _ _ X) as [Hok Hheld]. rewrite Hh in Hown, Hheld.
  destruct (serial_at disciplined m n g σ (Z.to_nat (w_end (w_tx t))) I G Hd) as (M & HM & Hx).
  destruct (observed_replay _ _ (w_log t) M (held_nil_empty _ Hok Hheld) (tr_log _ _ _ _ _ _ X) Hdl) as (M' & ? & ?); [|by exists M, M'].
  intros a b [Hab|Hab]%elem_of_app.
  - apply list_elem_of_fmap in Hab as ([[a' b'] v] & [= -> ->] & Hin). destruct (tr_rec _ _ _ _ _ _ X _ _ _ Hin) as (_ & _ & _ & Hf).
    destruct (iv_fix _ _ σ I _ _ _ _ _ Hf) as (_ & Hat & _). rewrite Hx. by replace (S (Z.to_nat (w_end (w_tx t))) - 1)%nat with (Z.to_nat (w_end (w_tx t))) in Hat by lia.
  - destruct (iv_lrds _ _ σ I i a b Hab) as [Ho _]. by destruct (no_locks σ i Hown (lock_of a)).
Qed.

(** The same run, stopped while the first thread has only read. *)
Definition wbetl_mid : wglobal * list wthread :=
  default (winit ∅, []) (wrun (winit ∅, wthread_init <$> seqZ 1 2) (take 11 wbetl_schedule)).

Lemma wbetl_mid_reachable : wreachable ∅ 2 (wbetl_mid.1, wbetl_mid.2).
Proof. rewrite <- surjective_pairing. eapply (wrun_reachable ∅ 2 _ (take 11 wbetl_schedule)); [apply wreach_init|]. apply default_Some. vm_compute. reflexivity. Qed.

Lemma wbetl_mid_disciplined : all_disciplined (g_hist wbetl_mid.1).
Proof.
  assert (map_Forall (λ _ evs, disciplined evs = true) (g_hist wbetl_mid.1)) as H; [|exact H].
  apply (bool_decide_unpack _). vm_compute. exact I.
Qed.

Definition wbetl_reader : wthread := default (wthread_init 0) (wbetl_mid.2 !! 0%nat).

Lemma wbetl_reader_snapshot_witness :
  length (w_log wbetl_reader) = 1%nat ∧
  ∃ m1 m2, serial ∅ (g_hist wbetl_mid.1) (Z.to_nat (w_end (w_tx wbetl_reader))) = Some m1 ∧ replay m1 (w_log wbetl_reader) = Some m2.
Proof.
  split; [vm_compute; reflexivity|].
  destruct (wbetl_reader_snapshot ∅ 2 wbetl_mid.1 wbetl_mid.2 0%nat wbetl_reader eq_refl wbetl_mid_reachable) as (_ & m1 & m2 & H1 & H2 & _);
    [exact wbetl_mid_disciplined|apply default_Some; vm_compute; reflexivity|vm_compute; reflexivity..|]. exists m1, m2. by split.
Defined.

(** Locks are released by their owners only.  Whenever a commit or an abort is about
    to release a lock, the lock word carries the releasing transaction's id: the
    assertion in [unlock_with_version] holds, and the owner-mismatch branch of [unlock]
    (counted in [g_unlock_owner_mismatch]) is never taken; a transaction that has taken
    a lock for a write finds itself its owner. *)
Theorem wbetl_release_owner m n g ts i t :
  Z.of_nat n < MAX_THREADS → wreachable m n (g, ts) → ts !! i = Some t →
  match w_pc t with
  | CRelease cv (l :: _) => is_Some (unlock_with_version (g_locks g l) (w_id (w_tx t)) cv)
  | AUnlock (l :: _) | AOwner l _ | AClear l _ => unlock (g_locks g l) (w_id (w_tx t)) ≠ OwnerMismatch ∧ is_locked (g_locks g l) = true
  | WOwned w => is_locked_by (g_locks g (lock_of (wa_addr w))) (w_id (w_tx t)) = true
  | _ => True
  end.
Proof.
  intros Hn Hr Hi. destruct (wreachable_sim m n g ts Hn Hr) as (σ & Hreach & G & Hlen & HT). pose proof (reachable_inv _ _ σ Hreach) as I.
  destruct (HT i t Hi) as [Hid Hrel].
  assert (Hw : ∀ l, own σ l = Some i → is_locked_by (g_locks g l) (w_id (w_tx t)) = true ∧ (get_owner (g_locks g l) =? w_id (w_tx t)) = true ∧ is_locked (g_locks g l) = true).
  { intros l Ho. destruct (lock_word disciplined m n Hn g σ l I G). rewrite Hid, (gr_locks n g σ G), word_locked_by, word_owned, word_locked by done.
    rewrite !bool_decide_true by (done || (rewrite Ho; by eexists)). done. }
  assert (Hu : ∀ l, own σ l = Some i → unlock (g_locks g l) (w_id (w_tx t)) ≠ OwnerMismatch ∧ is_locked (g_locks g l) = true).
  { intros l Ho. destruct (Hw l Ho) as (_ & H2 & H3). unfold unlock. by rewrite H2, H3. }
  unfold pc_rel in Hrel. destruct (w_pc t) as [| | | | | | | | | | | | | | | | | | |w| | | |cv ls| |ls|l ls|l ls|]; try done.
  - destruct Hrel as (_ & rec & ls & (_ & _ & _ & _ & Ho) & Hls & _). apply Hw, Ho, Hls. by right.
  - destruct ls as [|l ls]; [done|]. destruct Hrel as (_ & _ & _ & Ho). assert (own σ l = Some i) as Hl by (apply Ho; left).
    unfold unlock_with_version. destruct (Hw l Hl) as (_ & -> & _). by eexists.
  - destruct ls as [|l ls]; [done|]. apply Hu, Hrel. left.
  - apply Hu, Hrel. left.
  - apply Hu, Hrel. left.
Qed.

(** The run stopped just before the first release. *)
Definition wbetl_releasing : wglobal * list wthread :=
  default (winit ∅, []) (wrun (winit ∅, wthread_init <$> seqZ 1 2) (take 35 wbetl_schedule)).

Lemma wbetl_releasing_reachable : wreachable ∅ 2 (wbetl_releasing.1, wbetl_releasing.2).
Proof. rewrite <- surjective_pairing. eapply (wrun_reachable ∅ 2 _ (take 35 wbetl_schedule)); [apply wreach_init|]. apply default_Some. vm_compute. reflexivity. Qed.

Definition wbetl_releaser : wthread := default (wthread_init 0) (wbetl_releasing.2 !! 0%nat).

Lemma wbetl_release_owner_witness :
  w_pc wbetl_releaser = CRelease 2 [512] ∧ is_Some (unlock_with_version (g_locks wbetl_releasing.1 512) (w_id (w_tx wbetl_releaser)) 2).
Proof.
  assert (w_pc wbetl_releaser = CRelease 2 [512]) as Hpc by (vm_compute; reflexivity). split; [exact Hpc|].
  pose proof (wbetl_release_owner ∅ 2 wbetl_releasing.1 wbetl_releasing.2 0%nat wbetl_releaser eq_refl wbetl_releasing_reachable) as H.
  rewrite Hpc in H. apply H. apply default_Some. vm_compute. reflexivity.
Defined.
