(* ===== verification/TL2.v ===== *)
(** * TL2 (tl2/tl2.hpp)

    Commit-time locking with a global version clock and a table of guards, each a
    version and a lock bit.  The transaction-local data (the typed write set in its
    union storage, the 64-bit Bloom word, the lookup of reads in the write set) are
    modelled as the code computes them; the operations on shared memory are interleaved
    steps, one per atomic access.  The build without the plugin is modelled: addresses
    outside the transactional region fail an assertion there instead of being accessed
    directly.  The clock is a 64-bit word; an execution that exhausts it (2^63 commits)
    is not continued. *)

From stdpp Require Import functions sorting.
From S2P Require Import Prelude Memory Values TMSpec LogMerge TxLog.
#[local] Open Scope Z_scope.
#[local] Open Scope word_scope.

Definition GUARD_TABLE_LOG : Z := 13.
Definition GUARD_TABLE_SIZE : Z := 1 .<< GUARD_TABLE_LOG.
Definition LOCK_MASK : Z := 1.
Definition VERSION_MASK : Z := not64 LOCK_MASK.

Inductive DataType := DT_UINT8 | DT_UINT16 | DT_UINT32 | DT_UINT64 | DT_PTR | DT_FLOAT | DT_DOUBLE.

#[export] Instance DataType_eq_dec : EqDecision DataType.
Proof. solve_decision. Defined.

(** [dtype_size], which nothing calls. *)
Definition dtype_size (dt : DataType) : Z :=
  match dt with
  | DT_UINT8 | DT_FLOAT => 1
  | DT_UINT16 => 2
  | DT_UINT32 | DT_PTR => 4
  | DT_UINT64 | DT_DOUBLE => 8
  end.

(** The widths used by reads ([swapSize]) and writes ([dataWidth]). *)
Definition swapSize (dt : DataType) : nat :=
  match dt with
  | DT_UINT8 => 1
  | DT_UINT16 => 2
  | DT_UINT32 | DT_FLOAT => 4
  | DT_UINT64 | DT_DOUBLE | DT_PTR => 8
  end.

(** The value type of the accessor instantiated with a data type. *)
Definition vtype (dt : DataType) : ValueType :=
  match dt with
  | DT_UINT8 => UINT8
  | DT_UINT16 => UINT16
  | DT_UINT32 => UINT32
  | DT_UINT64 => UINT64
  | DT_PTR => POINTER
  | DT_FLOAT => FLOAT
  | DT_DOUBLE => DOUBLE
  end.

(** ** Write-set entries: two values of the data type in a 16-byte union *)

Record WriteSetEntry := WSE { we_addr : Z; we_dtype : DataType; we_values : list Z }.

#[export] Instance WriteSetEntry_eq_dec : EqDecision WriteSetEntry.
Proof. solve_decision. Defined.

Definition Values_zero : list Z := replicate 16 0.

(** Element [k] of the member array with elements of [w] bytes. *)
Definition union_get (vs : list Z) (w k : nat) : Z := le_word (take w (drop (k * w) vs)).
Definition union_set (vs : list Z) (w k : nat) (v : Z) : list Z :=
  take (k * w) vs ++ le_bytes w v ++ drop (k * w + w) vs.

Definition old_value (e : WriteSetEntry) : Z := union_get (we_values e) (swapSize (we_dtype e)) 0.
Definition new_value (e : WriteSetEntry) : Z := union_get (we_values e) (swapSize (we_dtype e)) 1.
Definition set_old (e : WriteSetEntry) (v : Z) : WriteSetEntry :=
  WSE (we_addr e) (we_dtype e) (union_set (we_values e) (swapSize (we_dtype e)) 0 v).
Definition set_new (e : WriteSetEntry) (v : Z) : WriteSetEntry :=
  WSE (we_addr e) (we_dtype e) (union_set (we_values e) (swapSize (we_dtype e)) 1 v).

(** [to_word] and [from_word]: a value of the type as a word, and back. *)
Definition to_word (dt : DataType) (val : Z) : Z := wrap (8 * Z.of_nat (swapSize dt)) val.
Definition from_word (dt : DataType) (w : Z) : Z := wrap (8 * Z.of_nat (swapSize dt)) w.

Record ReadSetEntry := RSE { re_guard : Z; re_data : Z; re_version : Z; re_dtype : DataType; re_locked : bool }.

Record tl2_tx := TL2Tx {
  x_active : bool; x_aborted : bool; x_start : Z; x_commit : Z;
  x_wset : list WriteSetEntry; x_rset : list ReadSetEntry; x_bloom : Z;
}.

(** ** Guards and the Bloom word *)

Definition get_guard_idx (addr : Z) : Z := ((addr .>> 3) .^ (addr .>> 48)) .& (GUARD_TABLE_SIZE - 1).

Definition bloom_hash (a : Z) : Z := (a .^ (a .>> 17)) .& 63.

Definition bloom_set (bloom addr : Z) : Z :=
  foldl (λ b off, b .| (1 .<< bloom_hash (wrap64 (addr + off)))) bloom (seqZ 0 8).

Definition bloom_might_contain (bloom addr : Z) : bool := negb ((bloom .>> bloom_hash addr) .& 1 =? 0).

Definition guard_version (guard : Z) : Z := (guard .& VERSION_MASK) .>> 1.
Definition guard_locked (guard : Z) : bool := negb (guard .& LOCK_MASK =? 0).
Definition guard_lock (guard : Z) : Z := guard .| LOCK_MASK.
Definition release_guard (guard : Z) : Z := guard .& not64 LOCK_MASK.
Definition versioned_guard (version : Z) : Z := (version .<< 1) .& VERSION_MASK.

(** ** Writes *)

(** One entry per address: an existing entry takes the new data type and value. *)
Fixpoint write_set_put (ws : list WriteSetEntry) (addr : Z) (dt : DataType) (val : Z) : option (list WriteSetEntry) :=
  match ws with
  | [] => None
  | e :: ws' =>
      if we_addr e =? addr then Some (set_new (WSE (we_addr e) dt (we_values e)) (to_word dt val) :: ws')
      else cons e <$> write_set_put ws' addr dt val
  end.

Definition write_impl (x : tl2_tx) (dt : DataType) (addr val : Z) : tl2_tx :=
  match write_set_put (x_wset x) addr dt val with
  | Some ws => TL2Tx (x_active x) (x_aborted x) (x_start x) (x_commit x) ws (x_rset x) (x_bloom x)
  | None =>
      TL2Tx (x_active x) (x_aborted x) (x_start x) (x_commit x)
        (x_wset x ++ [set_new (WSE addr dt Values_zero) (to_word dt val)]) (x_rset x) (bloom_set (x_bloom x) addr)
  end.

(** ** Reads from the write set *)

(** Exact data type at the address. *)
Definition lookup_exact (ws : list WriteSetEntry) (dt : DataType) (addr : Z) : option Z :=
  e ← head (filter (λ e, we_addr e = addr ∧ we_dtype e = dt) ws); Some (from_word dt (new_value e)).

(** Another data type at the same address: same width of eight bytes, or wider. *)
Definition interchange (dt : DataType) (e : WriteSetEntry) : option Z :=
  let entry_sz := swapSize (we_dtype e) in
  let req_sz := swapSize dt in
  if ((entry_sz =? req_sz) && (entry_sz =? 8))%nat then Some (from_word dt (new_value e))
  else if ((entry_sz =? 8) && (req_sz =? 4))%nat then Some (from_word dt (new_value e .& 0xFFFFFFFF))
  else if ((entry_sz =? 8) && (req_sz =? 2))%nat then Some (from_word dt (new_value e .& 0xFFFF))
  else if ((entry_sz =? 8) && (req_sz =? 1))%nat then Some (from_word dt (new_value e .& 0xFF))
  else if ((entry_sz =? 4) && (req_sz =? 2))%nat then Some (from_word dt (new_value e .& 0xFFFF))
  else if ((entry_sz =? 4) && (req_sz =? 1))%nat then Some (from_word dt (new_value e .& 0xFF))
  else if ((entry_sz =? 2) && (req_sz =? 1))%nat then Some (from_word dt (new_value e .& 0xFF))
  else None.

Fixpoint first_some {A B} (f : A → option B) (l : list A) : option B :=
  match l with
  | [] => None
  | a :: l' => match f a with Some b => Some b | None => first_some f l' end
  end.

Definition lookup_interchange (ws : list WriteSetEntry) (dt : DataType) (addr : Z) : option Z :=
  first_some (λ e, if we_addr e =? addr then interchange dt e else None) ws.

(** A wider entry that starts before the address and spans past it. *)
Definition covering (dt : DataType) (addr : Z) (e : WriteSetEntry) : option Z :=
  let entry_sz := swapSize (we_dtype e) in
  let req_sz2 := swapSize dt in
  if we_addr e =? addr then None
  else if (entry_sz <=? req_sz2)%nat then None
  else if (we_addr e <=? addr) && (addr <? we_addr e + Z.of_nat entry_sz) then
    let offset := addr - we_addr e in
    let shifted := new_value e .>> (offset * 8) in
    let mask := if (req_sz2 =? 8)%nat then not64 0 else (1 .<< (Z.of_nat req_sz2 * 8)) - 1 in
    Some (from_word dt (shifted .& mask))
  else None.

Definition lookup_covering (ws : list WriteSetEntry) (dt : DataType) (addr : Z) : option Z := first_some (covering dt addr) ws.

(** Eight one-byte entries at consecutive addresses. *)
Definition byte_entry (ws : list WriteSetEntry) (addr : Z) : option Z :=
  e ← head (filter (λ e, we_addr e = addr ∧ we_dtype e = DT_UINT8) ws); Some (new_value e .& 0xFF).
Fixpoint merge_bytes_from (ws : list WriteSetEntry) (addr : Z) (n : nat) (i merged : Z) : option Z :=
  match n with
  | O => Some merged
  | S n' => b ← byte_entry ws (wrap64 (addr + i)); merge_bytes_from ws addr n' (i + 1) (merged .| (b .<< (i * 8)))
  end.
Definition lookup_bytes (ws : list WriteSetEntry) (dt : DataType) (addr : Z) : option Z :=
  if (swapSize dt =? 8)%nat then from_word dt <$> merge_bytes_from ws addr 8 0 0 else None.

Definition orelse {A} (o1 o2 : option A) : option A := match o1 with Some a => Some a | None => o2 end.

Definition wset_lookup (x : tl2_tx) (dt : DataType) (addr : Z) : option Z :=
  if bloom_might_contain (x_bloom x) addr then
    orelse (lookup_exact (x_wset x) dt addr)
      (orelse (lookup_interchange (x_wset x) dt addr)
        (orelse (lookup_covering (x_wset x) dt addr) (lookup_bytes (x_wset x) dt addr)))
  else None.

(** ** Operations as steps on shared memory

    Plain loads and stores of [*addr] are not atomic in the code; they are modelled byte
    by byte, which includes the executions where they are not torn. *)

Inductive tpc :=
  | TIdle
  | TGuard (dt : DataType) (a : Z)
  | TBytes (dt : DataType) (a : Z) (bs : list Z)
  | TLock (rem : list WriteSetEntry) (held : list Z)
  | TCas (e : WriteSetEntry) (rem : list WriteSetEntry) (held : list Z) (guard : Z)
  | TUndo (rem : list WriteSetEntry) (held : list Z)
  | TCheck (rs : list ReadSetEntry) (held : list Z)
  | TWrite (st : list (Z * Z))
  | TRelease (rem : list WriteSetEntry) (released : list Z).

(** A thread: its transaction, the point its current call has reached, and (ghost) the
    reads and writes of the transaction so far. *)
Record tthread := TT { t_tx : tl2_tx; t_pc : tpc; t_log : list event }.

(** Shared state; [h_hist] and [h_ro] are ghost: the logs of the committed update
    transactions by commit version, and those of the read-only ones with the clock at
    their begin and commit. *)
Record tglobal := TG {
  h_mem : mem; h_clock : Z; h_guards : Z → Z;
  h_hist : gmap nat (list event); h_ro : list (Z * Z * list event);
}.

Definition set_guard (g : tglobal) (idx s : Z) : tglobal :=
  TG (h_mem g) (h_clock g) (<[idx := s]> (h_guards g)) (h_hist g) (h_ro g).

Definition goto (t : tthread) (p : tpc) : tthread := TT (t_tx t) p (t_log t).

Definition tx_begun (x : tl2_tx) (clock : Z) : tl2_tx := TL2Tx true false clock (x_commit x) [] [] 0.
Definition tx_committed (x : tl2_tx) : tl2_tx :=
  TL2Tx false (x_aborted x) (x_start x) (x_commit x) (x_wset x) (x_rset x) (x_bloom x).
Definition tx_failed (x : tl2_tx) : tl2_tx :=
  TL2Tx false true (x_start x) (x_commit x) (x_wset x) (x_rset x) (x_bloom x).
Definition tx_version (x : tl2_tx) (cv : Z) : tl2_tx :=
  TL2Tx (x_active x) (x_aborted x) (x_start x) cv (x_wset x) (x_rset x) (x_bloom x).
Definition tx_sorted (x : tl2_tx) (ws : list WriteSetEntry) : tl2_tx :=
  TL2Tx (x_active x) (x_aborted x) (x_start x) (x_commit x) ws (x_rset x) (x_bloom x).
Definition tx_push_read (x : tl2_tx) (re : ReadSetEntry) : tl2_tx :=
  TL2Tx (x_active x) (x_aborted x) (x_start x) (x_commit x) (x_wset x) (x_rset x ++ [re]) (x_bloom x).

(** The comparison of the sort in [commit]. *)
Definition addr_le (e1 e2 : WriteSetEntry) : Prop := we_addr e1 ≤ we_addr e2.
#[export] Instance addr_le_dec : RelDecision addr_le.
Proof. intros e1 e2. unfold addr_le. apply _. Defined.

(** The byte stores of the write-back, entry by entry. *)
Definition entry_stores (e : WriteSetEntry) : list (Z * Z) :=
  at_addr (we_addr e) (le_bytes (swapSize (we_dtype e)) (new_value e)).
Definition tl2_stores (ws : list WriteSetEntry) : list (Z * Z) := concat (entry_stores <$> ws).

(** A load of a read set entry's guard passes validation. *)
Definition validate_read (guard : Z) (held : list Z) (re : ReadSetEntry) : bool :=
  negb ((guard_locked guard && negb (bool_decide (re_guard re ∈ held))) || negb (guard_version guard =? re_version re)).

Definition read_done (t : tthread) (dt : DataType) (a v : Z) : tthread :=
  TT (t_tx t) TIdle (t_log t ++ [EvR a (vtype dt) v]).

Inductive top := TBegin | TRead (dt : DataType) (a : Z) | TWriteOp (dt : DataType) (a v : Z) | TCommit | TAbort.

(** Calls of the program: what happens before the first access to shared data ([begin]
    only loads the clock). *)
Definition tl2_call (o : top) (g : tglobal) (t : tthread) : option (tglobal * tthread) :=
  let x := t_tx t in
  match t_pc t with
  | TIdle =>
      match o with
      | TBegin => Some (g, TT (tx_begun x (h_clock g)) TIdle [])
      | TRead dt a =>
          if x_active x && access_ok a (vtype dt) then
            Some (g, match wset_lookup x dt a with
                     | Some v => read_done t dt a v
                     | None => goto t (TGuard dt a)
                     end)
          else None
      | TWriteOp dt a v =>
          if x_active x && access_ok a (vtype dt) then
            Some (g, TT (write_impl x dt a v) TIdle (t_log t ++ [EvW a (vtype dt) (to_word dt v)]))
          else None
      | TCommit =>
          if negb (x_active x) then Some (g, t)
          else
            match x_wset x with
            | [] =>
                Some (TG (h_mem g) (h_clock g) (h_guards g) (h_hist g) ((x_start x, h_clock g, t_log t) :: h_ro g),
                      TT (tx_committed x) TIdle [])
            | _ :: _ =>
                let ws := merge_sort addr_le (x_wset x) in
                Some (g, TT (tx_sorted x ws) (TLock ws []) (t_log t))
            end
      | TAbort => Some (g, TT (tx_failed x) TIdle [])
      end
  | _ => None
  end.

(** [read_impl] after the write set: the guard, the read set entry, the data. *)
Definition tread_step (g : tglobal) (t : tthread) : option (tglobal * tthread) :=
  match t_pc t with
  | TGuard dt a =>
      let guard := h_guards g (get_guard_idx a) in
      let re := RSE (get_guard_idx a) a (guard_version guard) dt (guard_locked guard) in
      Some (g, TT (tx_push_read (t_tx t) re) (TBytes dt a []) (t_log t))
  | TBytes dt a bs =>
      let bs' := bs ++ [mget (h_mem g) (a + Z.of_nat (length bs))] in
      Some (g, if (swapSize dt <=? length bs')%nat then read_done t dt a (from_word dt (to_word dt (le_word bs')))
               else goto t (TBytes dt a bs'))
  | _ => None
  end.

(** Step 3 of [commit] with [try_acquire_guard]: an already held guard is skipped; a
    guard that is free is taken by compare-and-swap, again if it changed meanwhile; a
    locked one fails the commit.  The compare-and-swap is the weak one: [weak] says that
    it fails although the guard has the expected value, and the loop tests the guard
    again. *)
Definition guard_seen (t : tthread) (e : WriteSetEntry) (rem : list WriteSetEntry) (held : list Z) (guard : Z) : tthread :=
  if guard_locked guard then goto t (TUndo (x_wset (t_tx t)) held) else goto t (TCas e rem held guard).

Definition tlock_step (weak : bool) (g : tglobal) (t : tthread) : option (tglobal * tthread) :=
  match t_pc t with
  | TLock (e :: rem) held =>
      let idx := get_guard_idx (we_addr e) in
      Some (g, if bool_decide (idx ∈ held) then goto t (TLock rem held) else guard_seen t e rem held (h_guards g idx))
  | TCas e rem held guard =>
      let idx := get_guard_idx (we_addr e) in
      Some (if negb weak && (h_guards g idx =? guard) then (set_guard g idx (guard_lock guard), goto t (TLock rem (idx :: held)))
            else (g, guard_seen t e rem held (h_guards g idx)))
  | TLock [] held =>
      let cv := h_clock g + 1 in
      if 2 ^ 63 <=? cv then None
      else
        Some (TG (h_mem g) cv (h_guards g) (h_hist g) (h_ro g),
              TT (tx_version (t_tx t) cv) (TCheck (x_rset (t_tx t)) held) (t_log t))
  | _ => None
  end.

(** The guards taken are released on failure, each once, with their versions. *)
Definition tundo_step (g : tglobal) (t : tthread) : option (tglobal * tthread) :=
  match t_pc t with
  | TUndo (e :: rem) held =>
      let idx := get_guard_idx (we_addr e) in
      Some (if bool_decide (idx ∈ held)
            then (set_guard g idx (release_guard (h_guards g idx)), goto t (TUndo rem (filter (.≠ idx) held)))
            else (g, goto t (TUndo rem held)))
  | TUndo [] _ => Some (g, TT (tx_failed (t_tx t)) TIdle [])
  | _ => None
  end.

(** Steps 5 and 7 of [commit]: validation, write-back, release with the new version. *)
Definition tcommit_step (g : tglobal) (t : tthread) : option (tglobal * tthread) :=
  let x := t_tx t in
  match t_pc t with
  | TCheck (re :: rs) held =>
      Some (g, if validate_read (h_guards g (re_guard re)) held re then goto t (TCheck rs held) else goto t (TUndo (x_wset x) held))
  | TCheck [] _ =>
      Some (TG (h_mem g) (h_clock g) (h_guards g) (<[Z.to_nat (x_commit x) := t_log t]> (h_hist g)) (h_ro g),
            goto t (TWrite (tl2_stores (x_wset x))))
  | TWrite ((a, b) :: st) =>
      Some (TG (<[a := b]> (h_mem g)) (h_clock g) (h_guards g) (h_hist g) (h_ro g), goto t (TWrite st))
  | TWrite [] => Some (g, goto t (TRelease (x_wset x) []))
  | TRelease (e :: rem) released =>
      let idx := get_guard_idx (we_addr e) in
      Some (if bool_decide (idx ∈ released) then (g, goto t (TRelease rem released))
            else (set_guard g idx (versioned_guard (x_commit x)), goto t (TRelease rem (idx :: released))))
  | TRelease [] _ => Some (g, TT (tx_committed x) TIdle [])
  | _ => None
  end.

(** One step; [weak] matters at the compare-and-swap only. *)
Definition tl2_step (weak : bool) (g : tglobal) (t : tthread) : option (tglobal * tthread) :=
  match t_pc t with
  | TIdle => None
  | TGuard _ _ | TBytes _ _ _ => tread_step g t
  | TLock _ _ | TCas _ _ _ _ => tlock_step weak g t
  | TUndo _ _ => tundo_step g t
  | TCheck _ _ | TWrite _ | TRelease _ _ => tcommit_step g t
  end.

(** ** Interleaved executions *)

Inductive texec_step : tglobal * list tthread → tglobal * list tthread → Prop :=
  | texec_call g ts i t o g' t' :
      ts !! i = Some t → tl2_call o g t = Some (g', t') → texec_step (g, ts) (g', <[i := t']> ts)
  | texec_run weak g ts i t g' t' :
      ts !! i = Some t → tl2_step weak g t = Some (g', t') → texec_step (g, ts) (g', <[i := t']> ts).

(** [init], and [init_thread] for [n] threads. *)
Definition tthread_init : tthread := TT (TL2Tx false false 0 0 [] [] 0) TIdle [].
Definition tinit (m : mem) : tglobal := TG m 1 (λ _, 0) ∅ [].

Inductive treachable (m : mem) (n : nat) : tglobal * list tthread → Prop :=
  | treach_init : treachable m n (tinit m, replicate n tthread_init)
  | treach_step s s' : treachable m n s → texec_step s s' → treachable m n s'.

(** Thread [i] starts the given call or continues its current one (no compare-and-swap
    of these schedules fails without a reason). *)
Definition tsched (s : tglobal * list tthread) (io : nat * option top) : option (tglobal * list tthread) :=
  t ← s.2 !! io.1;
  gt ← match io.2 with Some o => tl2_call o s.1 t | None => tl2_step false s.1 t end;
  Some (gt.1, <[io.1 := gt.2]> s.2).

Fixpoint trun (s : tglobal * list tthread) (l : list (nat * option top)) : option (tglobal * list tthread) :=
  match l with
  | [] => Some s
  | io :: l' => s' ← tsched s io; trun s' l'
  end.

Lemma trun_reachable m n s l s' : treachable m n s → trun s l = Some s' → treachable m n s'.
Proof.
  revert s. induction l as [|[i o] l IH]; intros s Hr; cbn [trun]; [by intros [= <-]|]. destruct (tsched s (i, o)) as [s1|] eqn:Hs; [|done].
  apply IH. eapply treach_step; [done|]. destruct s as [g ts]. unfold tsched in Hs. simpl in Hs. destruct (ts !! i) as [t|] eqn:Ht; [|done]. simpl in Hs.
  destruct o as [o|].
  - destruct (tl2_call o g t) as [[g' t']|] eqn:Hc; [|done]. injection Hs as <-. by eapply texec_call.
  - destruct (tl2_step false g t) as [[g' t']|] eqn:Hc; [|done]. injection Hs as <-. by eapply texec_run.
Qed.

(** ** The logs for which the write set is transparent

    A write repeats the range of an earlier one (with the same type, or an eight-byte
    type) or is disjoint from all earlier ones; a read is disjoint from the bytes written,
    or inside a write that is wider or of the same type (or of eight bytes), or of eight
    bytes all written one by one. *)

Definition same_class (s1 s2 : ValueType) : bool :=
  bool_decide (s1 = s2) || ((type_size s1 =? 8) && (type_size s2 =? 8))%nat.
Definition inside (a : Z) (sz : ValueType) (w : Z * ValueType) : bool :=
  (w.1 <=? a) && (a + nbytes_of sz <=? w.1 + nbytes_of w.2) && ((type_size sz <? type_size w.2)%nat || same_class sz w.2).
Definition bytewise (ws : list (Z * ValueType)) (a : Z) (sz : ValueType) : bool :=
  (type_size sz =? 8)%nat && forallb (λ i, bool_decide ((a + i, UINT8) ∈ ws)) (seqZ 0 8).

Definition write_fits (ws : list (Z * ValueType)) (a : Z) (sz : ValueType) : bool :=
  forallb (λ w, ((w.1 =? a) && same_class sz w.2) || apart a sz w.1 w.2) ws.
Definition read_fits (ws : list (Z * ValueType)) (a : Z) (sz : ValueType) : bool :=
  forallb (λ w, apart a sz w.1 w.2) ws || existsb (inside a sz) ws || bytewise ws a sz.

Definition transparent (evs : list event) : bool := obeys write_fits read_fits [] evs.
