(* ===== verification/TL2Log.v ===== *)
(** * The TL2 write set against serial execution

    Laws of the union storage, what the write set of a running transaction denotes byte
    by byte, and the relation [tlog_ok] between the log of a transaction and its write
    set: for transparent logs, on any memory that holds the bytes the transaction took
    from shared memory, replaying the log succeeds and leaves the memory that the
    write-back leaves. *)

From S2P Require Import Prelude Memory Values TMSpec LogMerge TxLog TL2.
#[local] Open Scope Z_scope.
#[local] Open Scope word_scope.

Implicit Types (ws : list WriteSetEntry) (e : WriteSetEntry) (x : tl2_tx) (dt : DataType).

Lemma vtype_size dt : type_size (vtype dt) = swapSize dt.
Proof. by destruct dt. Qed.

Lemma vtype_nbytes dt : nbytes_of (vtype dt) = Z.of_nat (swapSize dt).
Proof. by destruct dt. Qed.

Lemma swapSize_cases dt : swapSize dt = 1%nat ∨ swapSize dt = 2%nat ∨ swapSize dt = 4%nat ∨ swapSize dt = 8%nat.
Proof. destruct dt; auto. Qed.

Lemma swapSize_range dt : (1 ≤ swapSize dt ≤ 8)%nat.
Proof. destruct (swapSize_cases dt) as [->|[->|[->| ->]]]; lia. Qed.

(** ** The union *)

Lemma union_set_length vs w k v : length vs = 16%nat → (k ≤ 1)%nat → (w ≤ 8)%nat → length (union_set vs w k v) = 16%nat.
Proof. intros Hl Hk Hw. unfold union_set. rewrite !length_app, length_take, length_le_bytes, length_drop. nia. Qed.

Lemma union_get_set vs w k v : length vs = 16%nat → (k ≤ 1)%nat → (w ≤ 8)%nat → union_get (union_set vs w k v) w k = wrap (8 * Z.of_nat w) v.
Proof.
  intros Hl Hk Hw. unfold union_get, union_set. rewrite drop_app_length' by (rewrite length_take; nia).
  rewrite take_app_length' by (by rewrite length_le_bytes). apply le_word_le_bytes.
Qed.

Lemma union_get_old vs w v : length vs = 16%nat → (w ≤ 8)%nat → union_get (union_set vs w 1 v) w 0 = union_get vs w 0.
Proof.
  intros Hl Hw. unfold union_get, union_set. rewrite !Nat.mul_1_l, !Nat.mul_0_l, !drop_0. rewrite take_app_length' by (rewrite length_take; lia). done.
Qed.

Lemma union_get_new vs w v : length vs = 16%nat → (w ≤ 8)%nat → union_get (union_set vs w 0 v) w 1 = union_get vs w 1.
Proof.
  intros Hl Hw. unfold union_get, union_set. rewrite !Nat.mul_1_l, !Nat.mul_0_l, take_0, app_nil_l, Nat.add_0_l.
  by rewrite drop_app_length' by (by rewrite length_le_bytes).
Qed.

Lemma new_value_set e v : length (we_values e) = 16%nat → new_value (set_new e v) = wrap (8 * Z.of_nat (swapSize (we_dtype e))) v.
Proof. intros Hl. pose proof (swapSize_range (we_dtype e)). apply union_get_set; [done|lia..]. Qed.

(** ** The Bloom word *)

Lemma bloom_hash_range a : 0 ≤ bloom_hash a < 64.
Proof. unfold bloom_hash. change 63 with (Z.ones 6). rewrite Z.land_ones by lia. apply Z.mod_pos_bound. lia. Qed.

Lemma bloom_contains b a : bloom_might_contain b a = Z.testbit b (bloom_hash a).
Proof.
  unfold bloom_might_contain. pose proof (bloom_hash_range a). change 1 with (Z.ones 1). rewrite Z.land_ones by lia. rewrite <- Z.bit0_mod.
  rewrite Z.shiftr_spec, Z.add_0_l by lia. by destruct (Z.testbit b _).
Qed.

Lemma bloom_fold addr b l i :
  Z.testbit (foldl (λ b off, b .| (1 .<< bloom_hash (wrap64 (addr + off)))) b l) i = true ↔
  Z.testbit b i = true ∨ ∃ off, off ∈ l ∧ bloom_hash (wrap64 (addr + off)) = i.
Proof.
  revert b. induction l as [|o l IH]; intros b; simpl.
  - split; [by left|]. intros [?|(? & ?%elem_of_nil & _)]; done.
  - rewrite IH, Z.lor_spec, orb_true_iff. pose proof (bloom_hash_range (wrap64 (addr + o))). rewrite shl64_pow, Z.pow2_bits_eqb, Z.eqb_eq by lia.
    split.
    + intros [[?|?]|(off & ? & ?)]; [by left|right; exists o; split; [left|done]|right; exists off; split; [by right|done]].
    + intros [?|(off & [->|?]%elem_of_cons & ?)]; [by left; left|by left; right|right; by exists off].
Qed.

Lemma bloom_set_keeps b addr a : bloom_might_contain b a = true → bloom_might_contain (bloom_set b addr) a = true.
Proof. rewrite !bloom_contains. intros H. apply bloom_fold. by left. Qed.

Lemma bloom_set_covers b addr a : is_w 64 a → addr ≤ a < addr + 8 → bloom_might_contain (bloom_set b addr) a = true.
Proof.
  intros Ha Hr. rewrite bloom_contains. apply bloom_fold. right. exists (a - addr). split; [apply elem_of_seqZ; lia|].
  replace (addr + (a - addr)) with a by lia. unfold wrap64, wrap. unfold is_w in Ha. by rewrite Z.mod_small.
Qed.

(** ** Entries *)

(** The bytes an entry covers. *)
Definition covers e (a : Z) : Prop := we_addr e ≤ a < we_addr e + Z.of_nat (swapSize (we_dtype e)).

Definition entry_ok e : Prop :=
  length (we_values e) = 16%nat ∧ is_w (8 * Z.of_nat (swapSize (we_dtype e))) (new_value e) ∧ access_ok (we_addr e) (vtype (we_dtype e)) = true.

Record wset_wf x : Prop := WsetWf {
  wf_nodup : NoDup (we_addr <$> x_wset x);
  wf_entry : ∀ e, e ∈ x_wset x → entry_ok e;
  wf_bloom : ∀ e a, e ∈ x_wset x → is_w 64 a → we_addr e ≤ a < we_addr e + 8 → bloom_might_contain (x_bloom x) a = true;
}.

(** Entries of the write set overlap only with themselves. *)
Definition separate ws : Prop := ∀ e1 e2 a, e1 ∈ ws → e2 ∈ ws → covers e1 a → covers e2 a → e1 = e2.

Lemma covers_word e a : entry_ok e → covers e a → is_w 64 a ∧ get_guard_idx a = get_guard_idx (we_addr e).
Proof.
  intros (_ & _ & Hok) Hc. apply access_ok_spec in Hok as [Ha Hin]. assert (in_acc (we_addr e) (vtype (we_dtype e)) a) as Hacc by (unfold in_acc; by rewrite vtype_nbytes).
  destruct (align_acc _ _ _ Ha Hin Hacc) as [Hw Hal]. split; [done|]. rewrite !align_down_base in Hal by done. unfold word_base in Hal.
  assert (a / 8 = we_addr e / 8) as Hd by lia. unfold get_guard_idx. rewrite !Z.shiftr_div_pow2 by lia. change (2 ^ 3) with 8. change (2 ^ 48) with (8 * 2 ^ 45).
  by rewrite <- !Z.div_div, Hd by lia.
Qed.

Lemma entry_stores_addr e a : a ∈ (entry_stores e).*1 ↔ covers e a.
Proof. unfold entry_stores, covers. by rewrite at_addr_fst, length_le_bytes. Qed.

Lemma entry_stores_mget e m a :
  mget (wr m (entry_stores e)) a = if decide (covers e a) then byte_at (new_value e) (a - we_addr e) else mget m a.
Proof.
  unfold mget. case_decide as Hc.
  - unfold covers in Hc. unfold entry_stores. rewrite wr_at_addr. rewrite length_le_bytes. zcmp; simpl; try lia. rewrite le_bytes_at by lia. simpl. f_equal. lia.
  - by rewrite wr_lookup_ne by (by rewrite entry_stores_addr).
Qed.

Lemma tl2_stores_addr ws a : a ∈ (tl2_stores ws).*1 ↔ ∃ e, e ∈ ws ∧ covers e a.
Proof.
  induction ws as [|e ws IH]; simpl; [set_solver|]. unfold tl2_stores in *. simpl. rewrite fmap_app, elem_of_app, IH, entry_stores_addr. set_solver.
Qed.

Lemma tl2_stores_in ws e m a : separate ws → e ∈ ws → covers e a → mget (wr m (tl2_stores ws)) a = byte_at (new_value e) (a - we_addr e).
Proof.
  intros Hs He Hc. unfold tl2_stores. revert m. induction ws as [|e' ws IH]; intros m; [set_solver|]. cbn [fmap list_fmap concat]. rewrite wr_app.
  destruct (decide (e ∈ ws)) as [Hin|Hn].
  - apply IH; [|done]. intros e1 e2 b ? ?. apply Hs; by right.
  - apply elem_of_cons in He as [<-|?]; [|done]. unfold mget at 1. rewrite wr_lookup_ne.
    + change (mget (wr m (entry_stores e)) a = byte_at (new_value e) (a - we_addr e)). rewrite entry_stores_mget. by rewrite decide_True.
    + intros (e2 & He2 & Hc2)%tl2_stores_addr. destruct Hn. rewrite (Hs e e2 a); [done|left|by right|done..].
Qed.

Lemma tl2_stores_out ws m a : (∀ e, e ∈ ws → ¬ covers e a) → mget (wr m (tl2_stores ws)) a = mget m a.
Proof. intros H. unfold mget. rewrite wr_lookup_ne; [done|]. intros (e & ? & ?)%tl2_stores_addr. by eapply H. Qed.

(** The write-back in another order of the entries. *)
Lemma tl2_stores_perm ws ws' m a : separate ws → ws ≡ₚ ws' → mget (wr m (tl2_stores ws')) a = mget (wr m (tl2_stores ws)) a.
Proof.
  intros Hs Hp. assert (separate ws') as Hs' by (intros e1 e2 b; rewrite <- !Hp; apply Hs).
  destruct (decide (a ∈ (tl2_stores ws).*1)) as [(e & He & Hc)%tl2_stores_addr|Hn].
  - rewrite (tl2_stores_in ws e), (tl2_stores_in ws' e); try done. by rewrite <- Hp.
  - rewrite !tl2_stores_out; [done|..]; intros e He Hc; apply Hn, tl2_stores_addr; exists e; [|by rewrite <- Hp in He]. done.
Qed.

(** ** Values read from the write set *)

Lemma from_word_read dt m a : from_word dt (to_word dt (le_word (load_bytes m a (swapSize dt)))) = return_any_type (vtype dt) (read_value_from_addr m a (vtype dt)).
Proof. rewrite return_read, vtype_size, vtype_nbytes. unfold from_word, to_word. apply wrap_idem. lia. Qed.

(** A read inside one entry. *)
Lemma read_inside ws e dt m a :
  separate ws → e ∈ ws → we_addr e ≤ a → a + Z.of_nat (swapSize dt) ≤ we_addr e + Z.of_nat (swapSize (we_dtype e)) →
  return_any_type (vtype dt) (read_value_from_addr (wr m (tl2_stores ws)) a (vtype dt)) = from_word dt (new_value e .>> (8 * (a - we_addr e))).
Proof.
  intros Hs He Hlo Hhi. rewrite return_read, vtype_size, vtype_nbytes. unfold from_word.
  replace (load_bytes _ a _) with (le_bytes (swapSize dt) (new_value e .>> (8 * (a - we_addr e)))).
  - rewrite le_word_le_bytes. apply wrap_idem. lia.
  - apply list_eq_same_length with (n := swapSize dt); [by rewrite length_load_bytes|by rewrite length_le_bytes|].
    intros k b b' Hk Hb Hb'. rewrite le_bytes_at in Hb by done. rewrite load_bytes_prefix in Hb' by done. injection Hb as <-. injection Hb' as <-.
    rewrite byte_at_shift by lia. rewrite (tl2_stores_in ws e) by (done || (unfold covers; lia)). f_equal. lia.
Qed.

Lemma interchange_value dt e v :
  interchange dt e = Some v → (swapSize dt ≤ swapSize (we_dtype e))%nat ∧ v = from_word dt (new_value e).
Proof.
  unfold interchange. intros H. change 0xFFFFFFFF with (Z.ones 32) in H. change 0xFFFF with (Z.ones 16) in H. change 0xFF with (Z.ones 8) in H.
  pose proof (swapSize_cases dt) as H1. pose proof (swapSize_cases (we_dtype e)) as H2. unfold from_word in *.
  destruct H1 as [H1|[H1|[H1|H1]]], H2 as [H2|[H2|[H2|H2]]]; rewrite H1, H2 in *; cbn [Nat.eqb andb] in H; try done.
  all: injection H as <-; split; [lia|]; try done; by rewrite land_low by lia.
Qed.

Lemma interchange_some dt e :
  (swapSize dt < swapSize (we_dtype e))%nat ∨ (swapSize dt = 8 ∧ swapSize (we_dtype e) = 8)%nat → is_Some (interchange dt e).
Proof.
  unfold interchange. pose proof (swapSize_cases dt) as H1. pose proof (swapSize_cases (we_dtype e)) as H2.
  destruct H1 as [H1|[H1|[H1|H1]]], H2 as [H2|[H2|[H2|H2]]]; rewrite H1, H2; cbn [Nat.eqb andb]; intros ?; try lia; by eexists.
Qed.

Lemma first_some_some {A B} (f : A → option B) l b : first_some f l = Some b → ∃ a, a ∈ l ∧ f a = Some b.
Proof.
  induction l as [|a l IH]; simpl; [done|]. destruct (f a) as [b'|] eqn:Ha.
  - intros [= <-]. exists a. split; [left|done].
  - intros (a' & ? & ?)%IH. exists a'. split; [by right|done].
Qed.

Lemma first_some_none {A B} (f : A → option B) l a : first_some f l = None → a ∈ l → f a = None.
Proof.
  induction l as [|a' l IH]; simpl; [by intros _ ?%elem_of_nil|]. destruct (f a') eqn:Ha; [done|].
  intros Hn [->|?]%elem_of_cons; [done|by apply IH].
Qed.

Lemma lookup_head {P : WriteSetEntry → Prop} `{∀ e, Decision (P e)} ws e : head (filter P ws) = Some e → P e ∧ e ∈ ws.
Proof.
  intros H1. assert (e ∈ filter P ws) as He; [|by apply list_elem_of_filter in He]. destruct (filter P ws); [done|]. injection H1 as ->. left.
Qed.

Lemma lookup_head_some {P : WriteSetEntry → Prop} `{∀ e, Decision (P e)} ws e : P e → e ∈ ws → ∃ e', head (filter P ws) = Some e'.
Proof.
  intros HP He. assert (e ∈ filter P ws) as Hf by (by apply list_elem_of_filter). destruct (filter P ws) as [|e' l]; [by apply elem_of_nil in Hf|].
  by exists e'.
Qed.

(** ** Writing to the write set *)

Lemma write_set_put_some ws a dt v ws' :
  write_set_put ws a dt v = Some ws' → ∃ l e r, ws = l ++ e :: r ∧ we_addr e = a ∧
    ws' = l ++ set_new (WSE (we_addr e) dt (we_values e)) (to_word dt v) :: r.
Proof.
  revert ws'. induction ws as [|e ws IH]; intros ws'; simpl; [done|]. destruct (Z.eqb_spec (we_addr e) a) as [Heq|Hne].
  - intros [= <-]. by exists [], e, ws.
  - intros (ws1 & (l & e1 & r & -> & ? & ->)%IH & ->)%fmap_Some. by exists (e :: l), e1, r.
Qed.

Lemma write_set_put_none ws a dt v : write_set_put ws a dt v = None → a ∉ we_addr <$> ws.
Proof.
  induction ws as [|e ws IH]; simpl; [by intros _ ?%elem_of_nil|]. destruct (Z.eqb_spec (we_addr e) a) as [Heq|Hne]; [done|].
  intros Hn%fmap_None. intros [Heq|?]%elem_of_cons; [by rewrite Heq in Hne|by apply IH].
Qed.

Lemma new_entry_ok a dt vs v : length vs = 16%nat → access_ok a (vtype dt) = true → entry_ok (set_new (WSE a dt vs) (to_word dt v)).
Proof.
  intros Hl Ha. pose proof (swapSize_range dt).
  split_and!; [cbn [we_values set_new we_dtype]; apply union_set_length; [done|lia..]| |done].
  rewrite new_value_set by done. apply wrap_is_w. simpl. lia.
Qed.

Lemma write_impl_spec x dt a v :
  wset_wf x → access_ok a (vtype dt) = true →
  wset_wf (write_impl x dt a v) ∧ ∃ e', we_addr e' = a ∧ we_dtype e' = dt ∧ new_value e' = to_word dt v ∧
    ∀ e, e ∈ x_wset (write_impl x dt a v) ↔ e = e' ∨ (e ∈ x_wset x ∧ we_addr e ≠ a).
Proof.
  intros [Hn He Hb] Ha. unfold write_impl.
  assert (Hnew : ∀ vs, length vs = 16%nat → new_value (set_new (WSE a dt vs) (to_word dt v)) = to_word dt v).
  { intros vs Hl. rewrite new_value_set by done. apply wrap_idem. simpl. lia. }
  destruct (write_set_put (x_wset x) a dt v) as [ws|] eqn:Hp.
  - apply write_set_put_some in Hp as (l & e & r & Hws & Hae & ->). set (e' := set_new (WSE (we_addr e) dt (we_values e)) (to_word dt v)).
    rewrite Hws in Hn, He, Hb. destruct (He e) as (Hl & _ & _); [set_solver|]. assert (NoDup (we_addr <$> l ++ e' :: r)) as Hn'.
    { rewrite fmap_app, fmap_cons in *. exact Hn. }
    assert (Hae' : we_addr e' = a) by (by simpl). split.
    + split; cbn [x_wset x_bloom]; [done|..].
      * intros e1 [?|[->|?]%elem_of_cons]%elem_of_app; [apply He; set_solver| |apply He; set_solver]. rewrite <- Hae in Ha. by apply new_entry_ok.
      * intros e1 b [?|[->|?]%elem_of_cons]%elem_of_app; [apply Hb; set_solver|apply (Hb e); set_solver|apply Hb; set_solver].
    + exists e'. split_and!; [done|done|unfold e'; rewrite Hae; by apply Hnew|]. intros e1. cbn [x_wset]. rewrite Hws, !elem_of_app, !elem_of_cons.
      rewrite fmap_app, fmap_cons in Hn. apply NoDup_app in Hn as (Hn1 & Hn2 & [Hn3 _]%NoDup_cons).
      assert (Hout : e1 ∈ l ∨ e1 ∈ r → we_addr e1 ≠ a).
      { intros [Hin|Hin] Heq; apply (list_elem_of_fmap_2 we_addr) in Hin; rewrite Heq, <- Hae in Hin; [apply (Hn2 _ Hin); left|done]. }
      split; [naive_solver|]. intros [->|([?|[->|?]] & ?)]; naive_solver.
  - apply write_set_put_none in Hp. set (e' := set_new (WSE a dt Values_zero) (to_word dt v)). split.
    + split; cbn [x_wset x_bloom].
      * rewrite fmap_app. apply NoDup_app. split_and!; [done| |apply NoDup_singleton]. intros z Hz ->%list_elem_of_singleton. done.
      * intros e1 [?| ->%list_elem_of_singleton]%elem_of_app; [by apply He|by apply new_entry_ok].
      * intros e1 b [?| ->%list_elem_of_singleton]%elem_of_app ? ?; [apply bloom_set_keeps; by eapply Hb|by apply bloom_set_covers].
    + exists e'. split_and!; [done|done|by apply Hnew|]. intros e1. cbn [x_wset]. rewrite elem_of_app, list_elem_of_singleton.
      split; [|naive_solver]. intros [Hin|?]; [|by left]. right. split; [done|]. intros Heq. apply Hp. rewrite <- Heq. by apply list_elem_of_fmap_2.
Qed.

(** ** Logs *)

Lemma same_class_spec s1 s2 : same_class s1 s2 = true ↔ s1 = s2 ∨ (type_size s1 = 8 ∧ type_size s2 = 8)%nat.
Proof. unfold same_class. rewrite orb_true_iff, andb_true_iff, bool_decide_eq_true, !Nat.eqb_eq. done. Qed.

Lemma same_class_size s1 s2 : same_class s1 s2 = true → type_size s1 = type_size s2.
Proof. intros [->|[-> ->]]%same_class_spec; done. Qed.

Lemma same_class_sym s1 s2 : same_class s1 s2 = same_class s2 s1.
Proof. apply eq_true_iff_eq. rewrite !same_class_spec. naive_solver. Qed.

(** Two writes of a transparent log. *)
Definition compatible (w1 w2 : Z * ValueType) : Prop :=
  (w1.1 = w2.1 ∧ same_class w1.2 w2.2 = true) ∨ apart w1.1 w1.2 w2.1 w2.2 = true.

Lemma write_fits_spec acc a sz : write_fits acc a sz = true ↔ ∀ w, w ∈ acc → compatible (a, sz) w.
Proof.
  assert (Hw : ∀ w, ((w.1 =? a) && same_class sz w.2 || apart a sz w.1 w.2) = true ↔ compatible (a, sz) w).
  { intros w. unfold compatible. rewrite orb_true_iff, andb_true_iff, Z.eqb_eq. simpl. naive_solver. }
  unfold write_fits. rewrite forallb_forall. setoid_rewrite <- list_elem_of_In. by setoid_rewrite Hw.
Qed.

Lemma transparent_compatible evs acc :
  obeys write_fits read_fits acc evs = true → (∀ w1 w2, w1 ∈ acc → w2 ∈ acc → compatible w1 w2) →
  ∀ w1 w2, w1 ∈ wlog acc evs → w2 ∈ wlog acc evs → compatible w1 w2.
Proof.
  apply (obeys_pairwise _ _ compatible); [|intros w; left; split; [done|]; apply same_class_spec; by left].
  intros acc' a sz w Hf Hw. rewrite write_fits_spec in Hf. specialize (Hf w Hw). split; [done|].
  destruct Hf as [[Heq ?]|?]; [left|right]; simpl in *; [by rewrite same_class_sym|by rewrite apart_sym].
Qed.

(** The log and the write set of a transaction that took the bytes [ext] from memory. *)
Record tlog_ok (ext : list (Z * Z)) x (evs : list event) : Prop := TlogOk {
  tl_wf : wset_wf x;
  tl_in : ∀ e, e ∈ x_wset x → (we_addr e, vtype (we_dtype e)) ∈ wlog [] evs;
  tl_of : transparent evs = true → ∀ a sz, (a, sz) ∈ wlog [] evs → ∃ e, e ∈ x_wset x ∧ we_addr e = a ∧ same_class sz (vtype (we_dtype e)) = true;
  tl_replay : transparent evs = true → ∀ m, holds m ext →
    ∃ m', replay m evs = Some m' ∧ ∀ a, mget m' a = mget (wr m (tl2_stores (x_wset x))) a;
}.

Lemma entry_unique x e1 e2 : wset_wf x → e1 ∈ x_wset x → e2 ∈ x_wset x → we_addr e1 = we_addr e2 → e1 = e2.
Proof.
  intros [Hn _ _]. induction (x_wset x) as [|e ws IH]; [by intros ?%elem_of_nil|]. rewrite fmap_cons in Hn. apply NoDup_cons in Hn as [Hni Hn].
  intros [->|H1]%elem_of_cons [->|H2]%elem_of_cons Heq; auto; destruct Hni; [rewrite Heq|rewrite <- Heq]; by apply list_elem_of_fmap_2.
Qed.

Lemma covers_acc e a : covers e a ↔ in_acc (we_addr e) (vtype (we_dtype e)) a.
Proof. unfold covers, in_acc. by rewrite vtype_nbytes. Qed.

Lemma log_separate x evs :
  wset_wf x → (∀ e, e ∈ x_wset x → (we_addr e, vtype (we_dtype e)) ∈ wlog [] evs) → transparent evs = true → separate (x_wset x).
Proof.
  intros Hwf Hin Ht e1 e2 a H1 H2 C1%covers_acc C2%covers_acc.
  destruct (transparent_compatible evs [] Ht) with (w1 := (we_addr e1, vtype (we_dtype e1))) (w2 := (we_addr e2, vtype (we_dtype e2))) as [[Heq _]|Hap]; auto.
  - by intros w1 w2 ?%elem_of_nil.
  - by apply (entry_unique x).
  - simpl in Hap. rewrite apart_spec in Hap. by destruct (Hap a C1).
Qed.

(** ** Reads served by the write set *)

Lemma byte_entry_value ws m a b :
  separate ws → byte_entry ws a = Some b → ∃ e, e ∈ ws ∧ we_addr e = a ∧ b = mget (wr m (tl2_stores ws)) a.
Proof.
  intros Hs. unfold byte_entry. intros (e & ((<- & Hd) & He)%lookup_head & [= <-])%bind_Some. exists e. split_and!; [done..|].
  rewrite (tl2_stores_in ws e) by (done || (unfold covers; rewrite Hd; simpl; lia)). rewrite Z.sub_diag. unfold byte_at.
  rewrite Z.mul_0_r, Z.shiftr_0_r. change 0xFF with (Z.ones 8). by rewrite Z.land_ones by lia.
Qed.

Lemma merge_bytes_value ws m a k i merged v :
  separate ws → is_w 64 a → a + i + Z.of_nat k ≤ 2 ^ 64 → 0 ≤ i → i + Z.of_nat k ≤ 8 → is_w (8 * i) merged →
  merge_bytes_from ws a k i merged = Some v → v = merged + 2 ^ (8 * i) * le_word (load_bytes (wr m (tl2_stores ws)) (a + i) k).
Proof.
  intros Hs Ha. revert i merged. induction k as [|k IH]; intros i merged Hr Hi Hi8 Hm; cbn [merge_bytes_from load_bytes le_word]; [intros [= ->]; lia|].
  intros (b & Hb & Hv)%bind_Some. unfold wrap64, wrap in Hb. rewrite Z.mod_small in Hb by (unfold is_w in Ha; lia).
  apply (byte_entry_value ws m) in Hb as Hb'; [|done]. destruct Hb' as (e & _ & _ & Hbv). rewrite <- Hbv.
  assert (is_w 8 b) as Hb8.
  { unfold byte_entry in Hb. apply bind_Some in Hb as (e' & _ & [= <-]). change 0xFF with (Z.ones 8). rewrite Z.land_ones by lia. apply Z.mod_pos_bound. lia. }
  destruct (merge_byte merged b i) as (Hlor & Hw & Hp); [lia|done..|]. rewrite Hlor in *. apply IH in Hv; [|lia..|done].
  rewrite Hv, Hp. replace (a + (i + 1)) with (a + i + 1) by lia. lia.
Qed.

Lemma read_fits_spec acc a sz :
  read_fits acc a sz = true ↔
  (∀ w, w ∈ acc → apart a sz w.1 w.2 = true) ∨ (∃ w, w ∈ acc ∧ inside a sz w = true) ∨ bytewise acc a sz = true.
Proof.
  unfold read_fits. rewrite !orb_true_iff, forallb_forall, existsb_exists. setoid_rewrite <- list_elem_of_In. tauto.
Qed.

Lemma bytewise_spec acc a sz :
  bytewise acc a sz = true ↔ type_size sz = 8%nat ∧ ∀ i, 0 ≤ i < 8 → (a + i, UINT8) ∈ acc.
Proof.
  unfold bytewise. rewrite andb_true_iff, Nat.eqb_eq, forallb_forall. setoid_rewrite bool_decide_eq_true. setoid_rewrite <- list_elem_of_In.
  setoid_rewrite elem_of_seqZ. split; (intros [? H]; split; [done|]; intros; apply H; lia).
Qed.

Lemma inside_spec a sz w :
  inside a sz w = true ↔ w.1 ≤ a ∧ a + nbytes_of sz ≤ w.1 + nbytes_of w.2 ∧ ((type_size sz < type_size w.2)%nat ∨ same_class sz w.2 = true).
Proof. unfold inside. rewrite !andb_true_iff, orb_true_iff, !Z.leb_le, Nat.ltb_lt. tauto. Qed.

(** The entry a fitting read meets contains it. *)
Lemma read_contained ext x evs dt a e :
  tlog_ok ext x evs → transparent evs = true → read_fits (wlog [] evs) a (vtype dt) = true → e ∈ x_wset x → covers e a →
  (swapSize dt < swapSize (we_dtype e))%nat → a + Z.of_nat (swapSize dt) ≤ we_addr e + Z.of_nat (swapSize (we_dtype e)).
Proof.
  intros [Hwf Hin Hof _] Ht Hf He Hc Hlt. pose proof (log_separate x evs Hwf Hin Ht) as Hs. pose proof (swapSize_range dt).
  apply read_fits_spec in Hf as [Hap|[([a' sz'] & Hw & (Hlo & Hhi & _)%inside_spec)|[H8 _]%bytewise_spec]].
  - specialize (Hap _ (Hin e He)). rewrite apart_spec in Hap. destruct (Hap a); [unfold in_acc; rewrite vtype_nbytes; lia|by apply covers_acc].
  - simpl in *. destruct (Hof Ht _ _ Hw) as (e' & He' & <- & Hsc%same_class_size). unfold nbytes_of in Hhi. rewrite Hsc, !vtype_size in Hhi.
    rewrite <- (Hs e' e a); [done..| |done]. unfold covers. lia.
  - rewrite vtype_size in H8. pose proof (swapSize_range (we_dtype e)). lia.
Qed.

Lemma covering_value dt a e v :
  covering dt a e = Some v → covers e a ∧ (swapSize dt < swapSize (we_dtype e))%nat ∧ v = from_word dt (new_value e .>> (8 * (a - we_addr e))).
Proof.
  unfold covering, covers. destruct (we_addr e =? a); [done|]. destruct (Nat.leb_spec (swapSize (we_dtype e)) (swapSize dt)) as [|Hlt]; [done|].
  destruct ((we_addr e <=? a) && _) eqn:Hr; [|done]. apply andb_true_iff in Hr as [Hr1%Z.leb_le Hr2%Z.ltb_lt]. intros [= <-]. split_and!; [lia..|].
  pose proof (swapSize_range (we_dtype e)). pose proof (swapSize_range dt). rewrite (proj2 (Nat.eqb_neq _ 8)) by lia.
  rewrite shl64_pow, Z.sub_1_r, <- Z.ones_equiv by lia. unfold from_word. rewrite (Z.mul_comm (a - _)), (Z.mul_comm (Z.of_nat _)). by rewrite land_low by lia.
Qed.

Lemma lookup_hit ext x evs dt a v m :
  tlog_ok ext x evs → transparent evs = true → access_ok a (vtype dt) = true → read_fits (wlog [] evs) a (vtype dt) = true →
  wset_lookup x dt a = Some v → v = return_any_type (vtype dt) (read_value_from_addr (wr m (tl2_stores (x_wset x))) a (vtype dt)).
Proof.
  intros L Ht Hok Hf. pose proof L as [Hwf Hin Hof _]. pose proof (log_separate x evs Hwf Hin Ht) as Hs. apply access_ok_spec in Hok as [Ha Hword].
  unfold wset_lookup. destruct (bloom_might_contain (x_bloom x) a); [|done].
  destruct (lookup_exact (x_wset x) dt a) as [v1|] eqn:H1; cbn [orelse].
  { intros [= <-]. unfold lookup_exact in H1. apply bind_Some in H1 as (e & [[<- <-] He]%lookup_head & [= <-]).
    rewrite (read_inside _ e) by (done || lia). by rewrite Z.sub_diag, Z.shiftr_0_r. }
  destruct (lookup_interchange (x_wset x) dt a) as [v2|] eqn:H2; cbn [orelse].
  { intros [= <-]. apply first_some_some in H2 as (e & He & H2). destruct (Z.eqb_spec (we_addr e) a) as [<-|]; [|done].
    apply interchange_value in H2 as [? ->]. rewrite (read_inside _ e) by (done || lia). by rewrite Z.sub_diag, Z.shiftr_0_r. }
  destruct (lookup_covering (x_wset x) dt a) as [v3|] eqn:H3; cbn [orelse].
  { intros [= <-]. apply first_some_some in H3 as (e & He & (Hc & Hlt & ->)%covering_value).
    pose proof (read_contained ext x evs dt a e L Ht Hf He Hc Hlt). unfold covers in Hc. by rewrite (read_inside _ e) by (done || lia). }
  unfold lookup_bytes. destruct (Nat.eqb_spec (swapSize dt) 8) as [H8|]; [|done]. intros (r & Hr & ->)%fmap_Some.
  unfold in_word in Hword. rewrite vtype_nbytes, H8, byte_offset_mod in Hword. pose proof (Z.mod_pos_bound a 8).
  pose proof (Z.div_mod a 8). unfold is_w in Ha. apply (merge_bytes_value _ m) in Hr; [|done|done|..|unfold is_w; lia]; [|assert (a / 8 < 2 ^ 61) by (apply Z.div_lt_upper_bound; lia); lia|lia..].
  rewrite return_read, vtype_size, vtype_nbytes, H8. unfold from_word. rewrite H8, Hr. f_equal. rewrite Z.add_0_r. lia.
Qed.

(** The chain of lookups finds an entry that contains the read. *)
Lemma lookup_inside x dt a e :
  wset_wf x → e ∈ x_wset x → is_w 64 a → we_addr e ≤ a → a + Z.of_nat (swapSize dt) ≤ we_addr e + Z.of_nat (swapSize (we_dtype e)) →
  (swapSize dt < swapSize (we_dtype e))%nat ∨ same_class (vtype dt) (vtype (we_dtype e)) = true → is_Some (wset_lookup x dt a).
Proof.
  intros Hwf He Ha Hlo Hhi Hsz. pose proof (swapSize_range dt). pose proof (swapSize_range (we_dtype e)).
  unfold wset_lookup. rewrite (wf_bloom x Hwf e) by (done || lia).
  destruct (lookup_exact (x_wset x) dt a) as [v1|] eqn:H1; cbn [orelse]; [by eexists|].
  destruct (lookup_interchange (x_wset x) dt a) as [v2|] eqn:H2; cbn [orelse]; [by eexists|].
  destruct (lookup_covering (x_wset x) dt a) as [v3|] eqn:H3; cbn [orelse]; [by eexists|]. exfalso.
  apply (first_some_none _ _ e) in H2; [|done]. apply (first_some_none _ _ e) in H3; [|done].
  cbn beta in H2. unfold covering in H3. revert H2 H3. destruct (Z.eqb_spec (we_addr e) a) as [Heq|Hne]; intros H2 H3.
  - destruct Hsz as [Hlt|[Hdt|[H8 H8']]%same_class_spec].
    + destruct (interchange_some dt e) as [v Hv]; [by left|]. by rewrite Hv in H2.
    + assert (we_dtype e = dt) as Hd by (by destruct dt, (we_dtype e)).
      destruct (lookup_head_some (P := λ e, we_addr e = a ∧ we_dtype e = dt) (x_wset x) e) as [e' He']; [done..|].
      unfold lookup_exact in H1. by rewrite He' in H1.
    + rewrite !vtype_size in *. destruct (interchange_some dt e) as [v Hv]; [by right|]. by rewrite Hv in H2.
  - destruct (Nat.leb_spec (swapSize (we_dtype e)) (swapSize dt)) as [Hle|Hlt]; [lia|].
    destruct ((we_addr e <=? a) && _) eqn:Hr; [done|]. apply andb_false_iff in Hr as [?%Z.leb_gt|?%Z.ltb_ge]; lia.
Qed.

Lemma merge_bytes_some ws a k i merged :
  is_w 64 a → 0 ≤ i → a + i + Z.of_nat k ≤ 2 ^ 64 → (∀ j, i ≤ j < i + Z.of_nat k → ∃ e, e ∈ ws ∧ we_addr e = a + j ∧ we_dtype e = DT_UINT8) →
  is_Some (merge_bytes_from ws a k i merged).
Proof.
  intros Ha. revert i merged. induction k as [|k IH]; intros i merged Hi Hr He; cbn [merge_bytes_from]; [by eexists|].
  unfold wrap64, wrap. rewrite Z.mod_small by (unfold is_w in Ha; lia). destruct (He i) as (e & Hin & Hae & Hd); [lia|].
  destruct (lookup_head_some (P := λ e, we_addr e = a + i ∧ we_dtype e = DT_UINT8) ws e) as [e' He']; [done..|].
  unfold byte_entry. rewrite He'. simpl. apply IH; [lia..|]. intros j ?. apply He. lia.
Qed.

Lemma lookup_bytewise x dt a :
  wset_wf x → is_w 64 a → in_word (vtype dt) a → swapSize dt = 8%nat →
  (∀ i, 0 ≤ i < 8 → ∃ e, e ∈ x_wset x ∧ we_addr e = a + i ∧ we_dtype e = DT_UINT8) → is_Some (wset_lookup x dt a).
Proof.
  intros Hwf Ha Hword H8 He. destruct (He 0) as (e & Hin & Hae & _); [lia|]. unfold wset_lookup. rewrite (wf_bloom x Hwf e) by (done || lia).
  destruct (lookup_exact (x_wset x) dt a) as [v1|]; cbn [orelse]; [by eexists|].
  destruct (lookup_interchange (x_wset x) dt a) as [v2|]; cbn [orelse]; [by eexists|].
  destruct (lookup_covering (x_wset x) dt a) as [v3|]; cbn [orelse]; [by eexists|]. unfold lookup_bytes. rewrite H8. cbn [Nat.eqb].
  unfold in_word in Hword. rewrite vtype_nbytes, H8, byte_offset_mod in Hword. pose proof (Z.mod_pos_bound a 8). pose proof (Z.div_mod a 8).
  destruct (merge_bytes_some (x_wset x) a 8 0 0) as [r Hr]; [done|done| |by intros j ?; apply He; lia|rewrite Hr; by eexists].
  unfold is_w in Ha. assert (a / 8 < 2 ^ 61) by (apply Z.div_lt_upper_bound; lia). lia.
Qed.

Lemma lookup_miss ext x evs dt a :
  tlog_ok ext x evs → transparent evs = true → access_ok a (vtype dt) = true → read_fits (wlog [] evs) a (vtype dt) = true →
  wset_lookup x dt a = None → ∀ e b, e ∈ x_wset x → in_acc a (vtype dt) b → ¬ covers e b.
Proof.
  intros [Hwf Hin Hof _] Ht Hok Hf Hn e b He Hb Hc. apply access_ok_spec in Hok as [Ha Hword].
  assert (Hno : ¬ is_Some (wset_lookup x dt a)) by (rewrite Hn; by intros [? ?]).
  apply read_fits_spec in Hf as [Hap|[([a' sz'] & Hw & (Hlo & Hhi & Hsz)%inside_spec)|[H8 Hby]%bytewise_spec]].
  - specialize (Hap _ (Hin e He)). rewrite apart_spec in Hap. apply (Hap b Hb). by apply covers_acc.
  - simpl in *. destruct (Hof Ht _ _ Hw) as (e' & He' & <- & Hsc). pose proof (same_class_size _ _ Hsc) as Hss.
    unfold nbytes_of in Hhi. rewrite Hss, !vtype_size in Hhi. apply Hno, (lookup_inside x dt a e'); try done.
    rewrite Hss, !vtype_size in Hsz. destruct Hsz as [?|Hs]; [by left|right]. apply same_class_spec. apply same_class_spec in Hs, Hsc. naive_solver congruence.
  - rewrite vtype_size in H8. apply Hno, lookup_bytewise; try done. intros i Hi. destruct (Hof Ht _ _ (Hby i Hi)) as (e' & He' & Hae & Hsc).
    exists e'. split_and!; [done..|]. apply same_class_spec in Hsc as [Hsc|[? _]]; [|done]. by destruct (we_dtype e').
Qed.

(** ** Logs of running transactions *)

Lemma tlog_mono ext ext' x evs : (∀ ab, ab ∈ ext → ab ∈ ext') → tlog_ok ext x evs → tlog_ok ext' x evs.
Proof. intros Hs [H1 H2 H3 H4]. split; try done. intros Ht m Hm. apply H4; [done|]. intros a b Hin. by apply Hm, Hs. Qed.

Lemma tlog_nil ext x : x_wset x = [] → tlog_ok ext x [].
Proof.
  intros Hw. split; [split; rewrite Hw; [apply NoDup_nil_2|..]|rewrite Hw|..]; try by intros ? ?%elem_of_nil.
  - by intros ? ? ?%elem_of_nil.
  - intros _ ? ? ?%elem_of_nil. done.
  - intros _ m _. exists m. by rewrite Hw.
Qed.

(** The components of a transaction that do not matter for its log. *)
Lemma tlog_ext ext x x' evs : x_wset x' = x_wset x → x_bloom x' = x_bloom x → tlog_ok ext x evs → tlog_ok ext x' evs.
Proof. intros Hw Hb [[? ? ?] ? ? ?]. split; [split|..]; rewrite ?Hw, ?Hb; done. Qed.

Lemma tlog_read ext x evs a sz v :
  tlog_ok ext x evs →
  (transparent evs = true → read_fits (wlog [] evs) a sz = true → ∀ m, holds m ext →
     return_any_type sz (read_value_from_addr (wr m (tl2_stores (x_wset x))) a sz) = v) →
  tlog_ok ext x (evs ++ [EvR a sz v]).
Proof.
  intros [H1 H2 H3 H4] Hr. assert (Hw : wlog [] (evs ++ [EvR a sz v]) = wlog [] evs) by (by rewrite wlog_app). split; rewrite ?Hw; try done.
  - intros [Ht _]%obeys_snoc. by apply H3.
  - intros [Ht Hf]%obeys_snoc m Hm.  destruct (H4 Ht m Hm) as (m' & Hm' & Hx). exists m'. split; [|done].
    apply replay_snoc_read; [done|]. rewrite <- (Hr Ht Hf m Hm). f_equal. by apply read_mget_ext.
Qed.

Lemma tlog_read_hit ext x evs dt a v :
  tlog_ok ext x evs → access_ok a (vtype dt) = true → wset_lookup x dt a = Some v → tlog_ok ext x (evs ++ [EvR a (vtype dt) v]).
Proof. intros L Hok Hl. apply tlog_read; [done|]. intros Ht Hf m _. symmetry. by eapply lookup_hit. Qed.

Lemma tlog_read_shared ext x evs dt a bs :
  tlog_ok ext x evs → access_ok a (vtype dt) = true → wset_lookup x dt a = None → length bs = swapSize dt →
  (∀ k b, bs !! k = Some b → (a + Z.of_nat k, b) ∈ ext) →
  tlog_ok ext x (evs ++ [EvR a (vtype dt) (from_word dt (to_word dt (le_word bs)))]).
Proof.
  intros L Hok Hl Hlen Hext. apply tlog_read; [done|]. intros Ht Hf m Hm. rewrite <- from_word_read. do 3 f_equal.
  apply list_eq_same_length with (n := swapSize dt); [done|by rewrite length_load_bytes|].
  intros k b b' Hk Hb Hb'. rewrite load_bytes_prefix in Hb by done. injection Hb as <-. rewrite <- (Hm (a + Z.of_nat k) b') by auto.
  apply tl2_stores_out. intros e He. eapply lookup_miss; try done. unfold in_acc. rewrite vtype_nbytes. lia.
Qed.

Lemma tlog_write ext x evs dt a v :
  tlog_ok ext x evs → access_ok a (vtype dt) = true → tlog_ok ext (write_impl x dt a v) (evs ++ [EvW a (vtype dt) (to_word dt v)]).
Proof.
  intros L Hok. pose proof L as [Hwf Hin Hof Hrep]. destruct (write_impl_spec x dt a v Hwf Hok) as (Hwf' & e' & Hae & Hde & Hne & Hws). set (x' := write_impl x dt a v) in *.
  assert (Hw : wlog [] (evs ++ [EvW a (vtype dt) (to_word dt v)]) = (a, vtype dt) :: wlog [] evs) by (by rewrite wlog_app).
  assert (Hin' : ∀ e, e ∈ x_wset x' → (we_addr e, vtype (we_dtype e)) ∈ wlog [] (evs ++ [EvW a (vtype dt) (to_word dt v)])).
  { rewrite Hw. intros e [->|[He _]]%Hws; [rewrite Hae, Hde; left|right; by apply Hin]. }
  split; [done|done|..].
  - rewrite Hw. intros [Ht Hf]%obeys_snoc b sz [[= -> ->]|Hb]%elem_of_cons.
    + exists e'. rewrite Hde. split_and!; [apply Hws; by left|done|apply same_class_spec; by left].
    + destruct (Hof Ht b sz Hb) as (e & He & Hbe & Hsc). destruct (decide (we_addr e = a)) as [Heq|Hneq].
      * exists e'. split_and!; [apply Hws; by left|congruence|]. rewrite Hde.  rewrite write_fits_spec in Hf.
        destruct (Hf _ Hb) as [[_ Hsc']|Hap]; simpl in *; [by rewrite same_class_sym|]. rewrite apart_spec in Hap. pose proof (type_size_range sz).
        pose proof (type_size_range (vtype dt)). destruct (Hap a); unfold in_acc, nbytes_of; lia.
      * exists e. split_and!; [apply Hws; by right|done..].
  - intros Ht' m Hm. pose proof (log_separate x' _ Hwf' Hin' Ht') as Hs'. apply obeys_snoc in Ht' as [Ht Hf].
    pose proof (log_separate x evs Hwf Hin Ht) as Hs. destruct (Hrep Ht m Hm) as (m' & Hm' & Hx).
    exists (write_value_to_addr m' a (AnyT (to_word dt v)) (vtype dt)). split; [by apply replay_snoc_write|]. intros b.
    rewrite write_value_mget. cbn [u8]. assert (Hce : covers e' b ↔ in_acc a (vtype dt) b) by (by rewrite covers_acc, Hae, Hde).
    case_decide as Hb.
    + apply Hce in Hb. rewrite (tl2_stores_in _ e'); [by rewrite Hne, Hae|done|apply Hws; by left|done].
    + rewrite Hx. destruct (decide (b ∈ (tl2_stores (x_wset x)).*1)) as [(e & He & Hc)%tl2_stores_addr|Hno].
      * destruct (decide (we_addr e = a)) as [Heq|Hneq].
        -- exfalso. apply Hb.  rewrite write_fits_spec in Hf. apply covers_acc in Hc. rewrite Heq in Hc.
           destruct (Hf _ (Hin e He)) as [[_ Hsc%same_class_size]|Hap]; simpl in *; [unfold in_acc, nbytes_of in *; by rewrite Hsc|].
           rewrite apart_spec in Hap. pose proof (type_size_range (vtype dt)). destruct (Hap a); [unfold in_acc, nbytes_of; lia|]. rewrite Heq. unfold in_acc in *. lia.
        -- rewrite (tl2_stores_in _ e), (tl2_stores_in (x_wset x') e); try done. apply Hws. by right.
      * rewrite tl2_stores_out by (intros e He Hc; apply Hno, tl2_stores_addr; by exists e).
        rewrite tl2_stores_out; [done|]. intros e [->|[He _]]%Hws Hc; [by apply Hb, Hce|]. apply Hno, tl2_stores_addr. by exists e.
Qed.

(** The write set sorted for the commit. *)
Lemma tlog_sorted ext x ws evs : tlog_ok ext x evs → x_wset x ≡ₚ ws → tlog_ok ext (tx_sorted x ws) evs.
Proof.
  intros L Hp. pose proof L as [[Hn He Hb] Hin Hof Hrep]. split; [split|..]; cbn [tx_sorted x_wset x_bloom]; try by setoid_rewrite <- Hp.
  intros Ht m Hm. destruct (Hrep Ht m Hm) as (m' & ? & Hx). exists m'. split; [done|]. intros a. rewrite Hx. symmetry.
  apply tl2_stores_perm; [|done]. by eapply log_separate; [destruct L|..].
Qed.
