(* ===== verification/TL2Sim.v ===== *)
(** * TL2 simulates the versioned-lock machine

    Every interleaved execution of [TL2] is matched by an execution of the abstract
    machine of [VersionedLocks]: a guard word is a version with an owner (known only to
    the model: the word has just the lock bit), a load after the read set entry was pushed
    is an abstract load at the version recorded, the validation loop checks all reads at
    the commit version. *)

From stdpp Require Import functions sorting.
From S2P Require Import Prelude Memory Values TMSpec LogMerge TxLog VersionedLocks TL2 TL2Log.
#[local] Open Scope Z_scope.
#[local] Open Scope word_scope.

(** ** Guard words *)

Lemma VERSION_MASK_clear s : is_w 64 s → s .& VERSION_MASK = 2 * (s / 2).
Proof.
  intros Hs. transitivity (Z.shiftl (Z.shiftr s 1) 1).
  - unfold VERSION_MASK, LOCK_MASK, not64. apply Z.bits_inj'. intros i Hi. destruct (Z.ltb_spec i 64).
    + rewrite Z.land_spec, testbit_wrap, testbit_not, testbit_shl, testbit_shr by lia. change 1 with (Z.ones 1) at 1. rewrite testbit_ones by lia.
      replace (i - 1 + 1) with i by lia. zcmp; simpl; try lia; btauto.
    + rewrite Z.land_spec, (testbit_high 64 s) by (try done; lia). rewrite testbit_shl, testbit_shr. replace (i - 1 + 1) with i by lia.
      rewrite (testbit_high 64 s) by (try done; lia). simpl. btauto.
  - rewrite Z.shiftl_mul_pow2, Z.shiftr_div_pow2 by lia. change (2 ^ 1) with 2. lia.
Qed.

Lemma gword_version v o : gver_ok v → guard_version (gword v o) = Z.of_nat v.
Proof.
  intros Hv. unfold guard_version. rewrite VERSION_MASK_clear by (by apply gword_w). rewrite gword_half, Z.shiftr_div_pow2 by lia.
  change (2 ^ 1) with 2. rewrite Z.mul_comm. by apply Z.div_mul.
Qed.

Lemma gword_locked v o : guard_locked (gword v o) = bool_decide (is_Some o).
Proof. apply gword_bit. Qed.

Lemma gword_lock v i : guard_lock (gword v None) = gword v (Some i).
Proof. apply gword_set_bit. Qed.

Lemma gword_release v o : gver_ok v → release_guard (gword v o) = gword v None.
Proof.
  intros Hv. unfold release_guard. change (not64 LOCK_MASK) with VERSION_MASK. rewrite VERSION_MASK_clear by (by apply gword_w). rewrite gword_half.
  unfold gword. lia.
Qed.

Lemma gword_versioned v : gver_ok v → versioned_guard (Z.of_nat v) = gword v None.
Proof.
  intros Hv. unfold versioned_guard, shl64, wrap64, wrap. rewrite Z.shiftl_mul_pow2 by lia. unfold gver_ok in Hv. rewrite Z.mod_small by lia.
  rewrite VERSION_MASK_clear by (unfold is_w; lia). change (2 ^ 1) with 2. rewrite Z.div_mul by lia. unfold gword. lia.
Qed.

Section Sim.
Context (m0 : mem) (n : nat).
Implicit Types (σ : lvs) (t : tthread) (g : tglobal).

#[local] Abbreviation lk := get_guard_idx.
#[local] Abbreviation lv_steps i := (rtc (lv_step get_guard_idx i)).
#[local] Abbreviation lv_inv := (lv_inv get_guard_idx m0).

(** ** The relation *)

Definition thist_rel (h : option (list event)) (e : option entry) : Prop :=
  match h, e with
  | Some evs, Some e => ∃ x, ce_writes e = tl2_stores (x_wset x) ∧ tlog_ok (ce_reads e) x evs
  | None, None => True
  | _, _ => False
  end.

Record tg_rel g σ : Prop := TGRel {
  tg_mem : h_mem g = lmem σ;
  tg_clock : h_clock g = Z.of_nat (clk σ);
  tg_max : gver_ok (clk σ);
  tg_guards : ∀ ℓ, h_guards g ℓ = gword (ver σ ℓ) (own σ ℓ);
  tg_own : ∀ ℓ j, own σ ℓ = Some j → (j < n)%nat;
  tg_hist : ∀ c, thist_rel (h_hist g !! c) (hist σ !! c);
}.

(** An entry of the read set recorded the version for the guard of an address. *)
Definition in_reads (rs : list ReadSetEntry) (a : Z) (v : nat) : Prop :=
  ∃ re, re ∈ rs ∧ re_guard re = lk a ∧ re_version re = Z.of_nat v.

(** The guards of the entries of a write set. *)
Definition guard_in (ws : list WriteSetEntry) (ℓ : Z) : Prop := ∃ e, e ∈ ws ∧ lk (we_addr e) = ℓ.

(** A transaction in phase [p]. *)
Record ttx_rel σ (i : nat) (x : tl2_tx) (evs : list event) (p : phase) : Prop := TTxRel {
  tr_ph : ph (thr σ i) = p;
  tr_active : x_active x = true;
  tr_lrds : lrds (thr σ i) = [];
  tr_log : tlog_ok (rds (thr σ i)).*1 x evs;
  tr_reads : ∀ a val v, (a, val, v) ∈ rds (thr σ i) → in_reads (x_rset x) a v;
}.
Definition trun_rel σ (i : nat) t (p : phase) : Prop := ttx_rel σ i (t_tx t) (t_log t) p.

(** A read the write set does not serve. *)
Definition tmiss t (dt : DataType) (a : Z) : Prop := access_ok a (vtype dt) = true ∧ wset_lookup (t_tx t) dt a = None.

(** Reads are checked at version [c] except those of the entries [rs]. *)
Definition ttodo σ (i : nat) (rs : list ReadSetEntry) (c : nat) : Prop :=
  ∀ a val v, (a, val, v) ∈ rds (thr σ i) → (a, val, v, c) ∈ fixd (thr σ i) ∨ in_reads rs a v.

Definition acquiring σ (i : nat) t (rem : list WriteSetEntry) (held : list Z) : Prop :=
  trun_rel σ i t PActive ∧ owns σ i (.∈ held) ∧
  (∀ ℓ, guard_in (x_wset (t_tx t)) ℓ ↔ ℓ ∈ held ∨ guard_in rem ℓ).

Definition tpc_rel σ (i : nat) t : Prop :=
  match t_pc t with
  | TIdle =>
      owns σ i (λ _, False) ∧
      if x_active (t_tx t) then trun_rel σ i t PActive else ph (thr σ i) = PIdle
  | TGuard dt a => owns σ i (λ _, False) ∧ trun_rel σ i t PActive ∧ tmiss t dt a
  | TBytes dt a bs =>
      owns σ i (λ _, False) ∧ trun_rel σ i t PActive ∧ tmiss t dt a ∧ (length bs < swapSize dt)%nat ∧
      (∀ k b, bs !! k = Some b → (a + Z.of_nat k, b) ∈ (rds (thr σ i)).*1) ∧
      ∃ v, in_reads (x_rset (t_tx t)) a v ∧ (v ≤ ver σ (lk a))%nat
  | TLock rem held => acquiring σ i t rem held
  | TCas e rem held guard => acquiring σ i t (e :: rem) held ∧ ∃ v, guard = gword v None
  | TUndo rem held => ph (thr σ i) = PAbort ∧ owns σ i (.∈ held) ∧ ∀ ℓ, ℓ ∈ held → guard_in rem ℓ
  | TCheck rs held =>
      0 ≤ x_commit (t_tx t) ∧
      trun_rel σ i t (PInc (Z.to_nat (x_commit (t_tx t))) (tl2_stores (x_wset (t_tx t)))) ∧
      owns σ i (.∈ held) ∧ (∀ ℓ, guard_in (x_wset (t_tx t)) ℓ ↔ ℓ ∈ held) ∧ ttodo σ i rs (Z.to_nat (x_commit (t_tx t)))
  | TWrite st =>
      0 ≤ x_commit (t_tx t) ∧ ph (thr σ i) = PDec (Z.to_nat (x_commit (t_tx t))) st ∧ owns σ i (guard_in (x_wset (t_tx t)))
  | TRelease rem released =>
      0 ≤ x_commit (t_tx t) ∧ ph (thr σ i) = PDec (Z.to_nat (x_commit (t_tx t))) [] ∧
      owns σ i (λ ℓ, guard_in rem ℓ ∧ ℓ ∉ released)
  end.

(** ** Stability *)

Lemma trun_frame σ σ' i t p : lv_frame i σ σ' → trun_rel σ i t p → trun_rel σ' i t p.
Proof. intros [Ht Ho Hv Hc] [H1 H2 H3 H4 H5]. split; rewrite ?Ht; done. Qed.

Lemma tpc_frame σ σ' i t : lv_frame i σ σ' → tpc_rel σ i t → tpc_rel σ' i t.
Proof.
  intros F. unfold tpc_rel, acquiring, ttodo. assert (Hv : ∀ a v, (v ≤ ver σ (lk a))%nat → (v ≤ ver σ' (lk a))%nat).
  { intros a v ?. pose proof (fr_ver _ _ _ F (lk a)). lia. }
  destruct (t_pc t); try destruct (x_active (t_tx t)); rewrite ?(fr_thr _ _ _ F); naive_solver eauto using owns_frame, trun_frame.
Qed.

Lemma tg_upd i g σ σ' T : upd i σ σ' T → tg_rel g σ → tg_rel g σ'.
Proof. intros [Um Uc Uv Uo Uh Ub _] [H1 H2 H3 H4 H5 H6]. split; rewrite ?Um, ?Uc, ?Uv, ?Uo, ?Uh; done. Qed.

Definition tsim (i : nat) σ (gt : tglobal * tthread) : Prop := ∃ σ', lv_steps i σ σ' ∧ tg_rel gt.1 σ' ∧ tpc_rel σ' i gt.2.

Lemma tsim_stay i σ g t : tg_rel g σ → tpc_rel σ i t → tsim i σ (g, t).
Proof. intros. by exists σ. Qed.

Lemma gver_le g σ v : tg_rel g σ → (v ≤ clk σ)%nat → gver_ok v.
Proof. intros G Hv. pose proof (tg_max g σ G). unfold gver_ok in *. lia. Qed.

Lemma guard_ok g σ ℓ : lv_inv σ → tg_rel g σ → gver_ok (ver σ ℓ).
Proof. intros I G. eapply gver_le; [done|]. apply (iv_ver _ _ σ I). Qed.

(** ** Begin, abort and the end of a transaction *)

Lemma finish_sim i σ g t :
  tg_rel g σ → t_pc t = TIdle → x_active (t_tx t) = false → owns σ i (λ _, False) →
  ph (thr σ i) = PIdle ∨ ph (thr σ i) = PActive ∨ ph (thr σ i) = PAbort ∨ (∃ cv, ph (thr σ i) = PDec cv []) → tsim i σ (g, t).
Proof.
  intros G Hpc Ha Ho Hp. destruct (finish_steps get_guard_idx i σ Ho Hp) as (σ' & T & Hs & U & HT). exists σ'. split_and!; [done|by eapply tg_upd|].
  unfold tpc_rel. cbn [snd]. rewrite Hpc, Ha. split; [by eapply owns_upd|]. by rewrite (up_thr _ _ _ _ U).
Qed.

Lemma tidle_phase σ i t : t_pc t = TIdle → tpc_rel σ i t → owns σ i (λ _, False) ∧ (ph (thr σ i) = PIdle ∨ ph (thr σ i) = PActive).
Proof. unfold tpc_rel. intros -> [Ho H]. split; [done|]. destruct (x_active (t_tx t)); [right; by apply (tr_ph _ _ _ _ _ H)|by left]. Qed.

Lemma tbegin_sim i σ g t :
  tg_rel g σ → t_pc t = TIdle → tpc_rel σ i t → tsim i σ (g, TT (tx_begun (t_tx t) (h_clock g)) TIdle []).
Proof.
  intros G Hpc Hrel. destruct (tidle_phase σ i t Hpc Hrel) as [Ho Hp]. destruct (finish_steps get_guard_idx i σ Ho) as (σ1 & T & Hs & U & HT); [naive_solver|].
  pose proof (upd_set_thr i σ1 (LVT PActive [] [] [])) as U'. exists (set_thr σ1 i (LVT PActive [] [] [])). split_and!.
  - eapply rtc_r; [done|]. apply lv_begin. by rewrite (up_thr _ _ _ _ U).
  - eapply tg_upd; [done|]. by eapply tg_upd.
  - split; [eapply owns_upd; [done|]; by eapply owns_upd|]. cbn [snd t_tx x_active tx_begun]. split; rewrite ?(up_thr _ _ _ _ U'); try done.
    + by apply tlog_nil.
    + intros a val v. by intros ?%elem_of_nil.
Qed.

(** ** Reads *)

(** A step that adds read records to the abstract thread. *)
Lemma tread_sim i σ g t dt a :
  tg_rel g σ → t_pc t = TIdle → tpc_rel σ i t → x_active (t_tx t) = true → access_ok a (vtype dt) = true →
  tsim i σ (g, match wset_lookup (t_tx t) dt a with Some v => read_done t dt a v | None => goto t (TGuard dt a) end).
Proof.
  intros G Hpc Hrel Ha Hok. unfold tpc_rel in Hrel. rewrite Hpc, Ha in Hrel. destruct Hrel as [Ho R]. apply tsim_stay; [done|].
  destruct (wset_lookup (t_tx t) dt a) as [v|] eqn:Hl; [|by split].
  split; [done|]. cbn [t_tx read_done]. rewrite Ha.
  destruct R as [H1 H2 H3 H4 H5]. split; try done. by apply tlog_read_hit.
Qed.

Lemma twrite_sim i σ g t dt a v :
  tg_rel g σ → t_pc t = TIdle → tpc_rel σ i t → x_active (t_tx t) = true → access_ok a (vtype dt) = true →
  tsim i σ (g, TT (write_impl (t_tx t) dt a v) TIdle (t_log t ++ [EvW a (vtype dt) (to_word dt v)])).
Proof.
  intros G Hpc Hrel Ha Hok. unfold tpc_rel in Hrel. rewrite Hpc, Ha in Hrel. destruct Hrel as [Ho [H1 H2 H3 H4 H5]]. apply tsim_stay; [done|].
  assert (Hw : x_active (write_impl (t_tx t) dt a v) = true ∧ x_rset (write_impl (t_tx t) dt a v) = x_rset (t_tx t)).
  { unfold write_impl. by destruct (write_set_put _ _ _ _). }
  destruct Hw as [Hwa Hwr]. split; [done|]. cbn [t_tx]. rewrite Hwa. split; cbn [t_tx t_log]; rewrite ?Hwr; try done. by apply tlog_write.
Qed.

Lemma tguard_sim i σ g t dt a :
  lv_inv σ → tg_rel g σ → t_pc t = TGuard dt a → tpc_rel σ i t →
  let guard := h_guards g (lk a) in
  let re := RSE (lk a) a (guard_version guard) dt (guard_locked guard) in
  tsim i σ (g, TT (tx_push_read (t_tx t) re) (TBytes dt a []) (t_log t)).
Proof.
  intros I G Hpc Hrel guard re. unfold tpc_rel in Hrel. rewrite Hpc in Hrel. destruct Hrel as (Ho & [H1 H2 H3 H4 H5] & Hok & Hmiss).
  apply tsim_stay; [done|]. split; [done|]. split; [|split; [done|split; [pose proof (swapSize_range dt); simpl; lia|split; [done|]]]].
  - split; try done; cbn [t_tx t_log x_rset tx_push_read]; [by apply (tlog_ext _ (t_tx t))|]. intros b val v Hin. destruct (H5 b val v Hin) as (r & ? & ? & ?).
    exists r. split; [|done]. apply elem_of_app. by left.
  - exists (ver σ (lk a)). split; [|done]. exists re. cbn [x_rset tx_push_read re re_guard re_version]. split_and!; [apply elem_of_app; right; left|done|].
    unfold guard. rewrite (tg_guards g σ G). apply gword_version. by eapply guard_ok.
Qed.

Lemma acc_guard a dt b : access_ok a (vtype dt) = true → in_acc a (vtype dt) b → lk b = lk a.
Proof.
  intros Hok Hb. apply access_ok_spec in Hok as [Ha Hin]. destruct (align_acc _ _ _ Ha Hin Hb) as [Hw Hal]. rewrite !align_down_base in Hal by done.
  unfold word_base in Hal. unfold get_guard_idx. rewrite !Z.shiftr_div_pow2 by lia. change (2 ^ 3) with 8. change (2 ^ 48) with (8 * 2 ^ 45).
  rewrite <- !Z.div_div by lia. by replace (b / 8) with (a / 8) by lia.
Qed.

Lemma tbyte_sim i σ g t dt a bs :
  tg_rel g σ → t_pc t = TBytes dt a bs → tpc_rel σ i t →
  let bs' := bs ++ [mget (h_mem g) (a + Z.of_nat (length bs))] in
  tsim i σ (g, if (swapSize dt <=? length bs')%nat then read_done t dt a (from_word dt (to_word dt (le_word bs'))) else goto t (TBytes dt a bs')).
Proof.
  intros G Hpc Hrel bs'. unfold tpc_rel in Hrel. rewrite Hpc in Hrel. destruct Hrel as (Ho & [H1 H2 H3 H4 H5] & [Hok Hmiss] & Hlen & Hbs & v & Hv & Hle).
  set (b := a + Z.of_nat (length bs)) in *. assert (Hb : in_acc a (vtype dt) b) by (unfold in_acc, b; rewrite vtype_nbytes; lia).
  pose proof (acc_guard a dt b Hok Hb) as Hlk. set (T := LVT PActive ((b, mget (lmem σ) b, v) :: rds (thr σ i)) (lrds (thr σ i)) (fixd (thr σ i))).
  pose proof (upd_set_thr i σ T) as U. exists (set_thr σ i T). split_and!.
  - apply rtc_once. pose proof (lv_load get_guard_idx i σ b v (thr σ i) eq_refl H1) as Hs. rewrite H1 in Hs. apply Hs. by rewrite Hlk.
  - by eapply tg_upd.
  - assert (R : trun_rel (set_thr σ i T) i t PActive).
    { split; rewrite ?(up_thr _ _ _ _ U); try done; cbn [T ph rds lrds fixd].
      - eapply tlog_mono; [|done]. intros ab ?. rewrite fmap_cons. by right.
      - intros b' val v' [[= -> -> ->]|?]%elem_of_cons; [|by eapply H5]. destruct Hv as (re & ? & ? & ?). exists re. by rewrite Hlk. }
    assert (Hbs' : ∀ k c, bs' !! k = Some c → (a + Z.of_nat k, c) ∈ (rds (thr (set_thr σ i T) i)).*1).
    { intros k c Hk. rewrite (up_thr _ _ _ _ U). cbn [T rds]. rewrite fmap_cons. apply lookup_app_Some in Hk as [Hk|[Hge Hk]]; [right; by apply Hbs|].
      apply list_lookup_singleton_Some in Hk as [Hk <-]. assert (k = length bs) as -> by lia. rewrite (tg_mem g σ G). left. }
    assert (length bs' = S (length bs)) as Hlen' by (unfold bs'; rewrite length_app; simpl; lia).
    assert (Ho' : owns (set_thr σ i T) i (λ _, False)) by (by eapply owns_upd). cbn [snd].
    destruct (Nat.leb_spec (swapSize dt) (length bs')) as [Hfull|Hpart].
    + split; [done|]. cbn [t_tx read_done]. rewrite H2. destruct R as [R1 R2 R3 R4 R5]. split; try done. cbn [t_tx t_log read_done].
      apply tlog_read_shared; [done..|lia|done].
    + do 3 (split; [done|]). split; [done|]. split; [done|]. exists v. by rewrite (up_ver _ _ _ _ U).
Qed.

(** ** Taking and dropping guards *)

Lemma guard_in_cons e ws ℓ : guard_in (e :: ws) ℓ ↔ lk (we_addr e) = ℓ ∨ guard_in ws ℓ.
Proof. unfold guard_in. set_solver. Qed.

Lemma guard_in_nil ℓ : ¬ guard_in [] ℓ.
Proof. intros (e & ?%elem_of_nil & _). done. Qed.

Lemma tabort_sim i σ g t p held :
  tg_rel g σ → trun_rel σ i t p → running p → owns σ i (.∈ held) → (∀ ℓ, ℓ ∈ held → guard_in (x_wset (t_tx t)) ℓ) →
  tsim i σ (g, goto t (TUndo (x_wset (t_tx t)) held)).
Proof.
  intros G R Hr Ho Hh. pose proof (upd_set_thr i σ (LVT PAbort [] [] [])) as U. exists (set_thr σ i (LVT PAbort [] [] [])). split_and!.
  - apply rtc_once, lv_abort. by rewrite (tr_ph _ _ _ _ _ R).
  - by eapply tg_upd.
  - split; [by rewrite (up_thr _ _ _ _ U)|]. split; [by eapply owns_upd|done].
Qed.

Lemma guard_seen_sim i σ g t e rem held :
  tg_rel g σ → acquiring σ i t (e :: rem) held → tsim i σ (g, guard_seen t e rem held (h_guards g (lk (we_addr e)))).
Proof.
  intros G A. pose proof A as (R & Ho & Hh). unfold guard_seen. rewrite (tg_guards g σ G), gword_locked.
  destruct (own σ (lk (we_addr e))) as [j|]; cbn [bool_decide].
  - rewrite bool_decide_true by (by eexists). eapply tabort_sim; try done. intros ℓ Hℓ. apply Hh. by left.
  - rewrite bool_decide_false by (by intros [? ?]). apply tsim_stay; [done|]. split; [done|]. by eexists.
Qed.

Lemma tcas_sim weak i σ g t e rem held guard g' t' :
  (i < n)%nat → tg_rel g σ → t_pc t = TCas e rem held guard → tpc_rel σ i t → tlock_step weak g t = Some (g', t') → tsim i σ (g', t').
Proof.
  intros Hi G Hpc Hrel Hs. unfold tpc_rel in Hrel. unfold tlock_step in Hs. rewrite Hpc in Hrel, Hs. destruct Hrel as (A & v & ->).
  set (idx := lk (we_addr e)) in *. destruct weak; cbn [negb andb] in Hs; [injection Hs as <- <-; by apply guard_seen_sim|].
  destruct (Z.eqb_spec (h_guards g idx) (gword v None)) as [Heq|Hne]; injection Hs as <- <-;
    [|by apply guard_seen_sim].
  rewrite (tg_guards g σ G) in Heq. apply gword_free in Heq as [Hv Hnone]. destruct A as (R & Ho & Hh).
  exists (set_own σ idx (Some i)). split_and!.
  - apply rtc_once, lv_acquire; [apply (tr_ph _ _ _ _ _ R)|done].
  - destruct G as [H1 H2 H3 H4 H5 H6]. split; try done; cbn [fst set_guard h_guards set_own ver own].
    + intros ℓ. destruct (decide (ℓ = idx)) as [->|]; [rewrite !fn_lookup_insert, Hv; apply gword_lock|rewrite !fn_lookup_insert_ne by done; apply H4].
    + intros ℓ j. destruct (decide (ℓ = idx)) as [->|]; [rewrite fn_lookup_insert; by intros [= <-]|rewrite fn_lookup_insert_ne by done; apply H5].
  - split; [by destruct R|]. split.
    + intros ℓ. cbn [set_own own]. destruct (decide (ℓ = idx)) as [->|]; [rewrite fn_lookup_insert; set_solver|].
      rewrite fn_lookup_insert_ne by done. rewrite (Ho ℓ). set_solver.
    + intros ℓ. cbn [t_tx goto]. rewrite Hh, guard_in_cons, elem_of_cons. fold idx. naive_solver.
Qed.

Lemma tinc_sim weak i σ g t held g' t' :
  tg_rel g σ → t_pc t = TLock [] held → tpc_rel σ i t → tlock_step weak g t = Some (g', t') → tsim i σ (g', t').
Proof.
  intros G Hpc Hrel Hs. unfold tpc_rel in Hrel. unfold tlock_step in Hs. rewrite Hpc in Hrel, Hs. destruct Hrel as (R & Ho & Hh).
  destruct (Z.leb_spec (2 ^ 63) (h_clock g + 1)) as [|Hlt]; [done|]. injection Hs as <- <-.
  assert (Hh' : ∀ ℓ, guard_in (x_wset (t_tx t)) ℓ ↔ ℓ ∈ held) by (intros ℓ; rewrite Hh; pose proof (guard_in_nil ℓ); naive_solver).
  pose proof (tg_clock g σ G) as Hc. assert (Hcv : Z.to_nat (h_clock g + 1) = S (clk σ)) by lia. destruct R as [H1 H2 H3 H4 H5].
  eexists. split_and!; [apply rtc_once, (lv_increment _ _ _ (tl2_stores (x_wset (t_tx t))) H1)| |].
  - intros a (e & He & Hcov)%tl2_stores_addr. apply Ho, Hh'. exists e. split; [done|].
    destruct (covers_word e a) as [_ ->]; [by apply (wf_entry _ (tl_wf _ _ _ H4))|done..].
  - destruct G as [G1 G2 G3 G4 G5 G6]. split; try done; cbn [fst h_clock clk]; [lia|]. unfold gver_ok. lia.
  - split; [cbn; lia|]. cbn [snd t_tx t_log x_wset x_rset x_commit tx_version]. rewrite Hcv. split; [|split; [done|split; [done|]]].
    + split; cbn [thr]; rewrite ?fn_lookup_insert; try done. cbn [t_tx t_log set_ph rds lrds]. by apply (tlog_ext _ (t_tx t)).
    + intros a val v. cbn [thr]. rewrite fn_lookup_insert. intros ?%H5. by right.
Qed.

Lemma tlock_sim weak i σ g t g' t' :
  (i < n)%nat → lv_inv σ → tg_rel g σ → tpc_rel σ i t → tlock_step weak g t = Some (g', t') → tsim i σ (g', t').
Proof.
  intros Hi I G Hrel Hs. pose proof Hrel as Hrel'. unfold tpc_rel in Hrel. pose proof Hs as Hs'. unfold tlock_step in Hs.
  destruct (t_pc t) as [| | |[|e rem] held|e rem held guard| | | |] eqn:Hpc; try done.
  - by eapply tinc_sim.
  - injection Hs as <- <-. case_bool_decide as Hin; [|by apply guard_seen_sim]. apply tsim_stay; [done|]. destruct Hrel as (R & Ho & Hh).
    split; [done|]. split; [done|]. intros ℓ. cbn [t_tx goto]. rewrite Hh, guard_in_cons. naive_solver.
  - by eapply tcas_sim.
Qed.

Lemma tundo_sim i σ g t g' t' :
  lv_inv σ → tg_rel g σ → tpc_rel σ i t → tundo_step g t = Some (g', t') → tsim i σ (g', t').
Proof.
  intros I G Hrel Hs. unfold tpc_rel in Hrel. unfold tundo_step in Hs. destruct (t_pc t) as [| | | | |[|e rem] held| | |] eqn:Hpc; try done.
  - destruct Hrel as (Hp & Ho & Hh). injection Hs as <- <-. apply finish_sim; [done..| |by auto]. intros ℓ. rewrite (Ho ℓ). split; [|done].
    intros ?%Hh. by eapply guard_in_nil.
  - destruct Hrel as (Hp & Ho & Hh). set (idx := lk (we_addr e)) in *. case_bool_decide as Hin; injection Hs as <- <-.
    + exists (set_own σ idx None). split_and!.
      * apply rtc_once, lv_release; [done|]. by apply Ho.
      * pose proof (guard_ok g σ idx I G) as Hv. destruct G as [H1 H2 H3 H4 H5 H6]. split; try done; cbn [fst set_guard h_guards set_own ver own].
        -- intros ℓ. destruct (decide (ℓ = idx)) as [->|]; [rewrite !fn_lookup_insert, H4; by apply gword_release|].
           rewrite !fn_lookup_insert_ne by done. apply H4.
        -- intros ℓ j. destruct (decide (ℓ = idx)) as [->|]; [by rewrite fn_lookup_insert|rewrite fn_lookup_insert_ne by done; apply H5].
      * split; [done|]. split; intros ℓ.
        -- cbn [set_own own]. rewrite list_elem_of_filter. destruct (decide (ℓ = idx)) as [->|]; [rewrite fn_lookup_insert; naive_solver|].
           rewrite fn_lookup_insert_ne by done. rewrite (Ho ℓ). naive_solver.
        -- intros [Hne Hℓ]%list_elem_of_filter. apply Hh in Hℓ. rewrite guard_in_cons in Hℓ. fold idx in Hℓ. naive_solver.
    + apply tsim_stay; [done|]. split; [done|]. split; [done|]. intros ℓ Hℓ. pose proof (Hh ℓ Hℓ) as Hg. rewrite guard_in_cons in Hg. fold idx in Hg.
      naive_solver.
Qed.

(** ** Validation and write-back *)

Lemma validate_read_spec g σ i held re :
  lv_inv σ → tg_rel g σ → owns σ i (.∈ held) → validate_read (h_guards g (re_guard re)) held re = true →
  (own σ (re_guard re) = None ∨ own σ (re_guard re) = Some i) ∧ Z.of_nat (ver σ (re_guard re)) = re_version re.
Proof.
  intros I G Ho. unfold validate_read. rewrite (tg_guards g σ G), gword_locked, gword_version by (by eapply guard_ok).
  rewrite negb_true_iff, orb_false_iff, negb_false_iff, Z.eqb_eq, andb_false_iff, negb_false_iff, bool_decide_eq_false, bool_decide_eq_true.
  intros [Hl Hv]. split; [|done]. destruct Hl as [Hl|Hl]; [|right; by apply Ho]. left. destruct (own σ (re_guard re)); [|done]. by destruct Hl.
Qed.

Lemma tcheck_sim i σ g t re rs held :
  lv_inv σ → tg_rel g σ → t_pc t = TCheck (re :: rs) held → tpc_rel σ i t →
  tsim i σ (g, if validate_read (h_guards g (re_guard re)) held re then goto t (TCheck rs held) else goto t (TUndo (x_wset (t_tx t)) held)).
Proof.
  intros I G Hpc Hrel. unfold tpc_rel in Hrel. rewrite Hpc in Hrel. destruct Hrel as (Hcv & R & Ho & Hh & Htodo).
  destruct (validate_read _ _ _) eqn:Hval; [|eapply tabort_sim; try done; intros ℓ ?; by apply Hh].
  destruct (validate_read_spec g σ i held re I G Ho Hval) as [Hown Hver]. pose proof R as [H1 H2 H3 H4 H5]. set (cv := Z.to_nat (x_commit (t_tx t))) in *.
  destruct (iv_inc _ _ σ I i _ _ H1) as ((Hc0 & Hc) & _ & _ & _ & Hlt).
  set (l := filter (λ r : Z * Z * nat, lk r.1.1 = re_guard re ∧ r.2 = ver σ (re_guard re)) (rds (thr σ i))).
  destruct (check_steps get_guard_idx i σ cv l) as (σ' & F & Hs & U & HF & Hnew).
  { by rewrite H1. }
  { lia. }
  { intros a val v [[Hg Hv] Hin]%list_elem_of_filter. simpl in *. rewrite Hg, Hv. split_and!; [by rewrite Hv in Hin|done|done|].
    rewrite <- Hv. by apply (Hlt a val). }
  exists σ'. split_and!; [done|by eapply tg_upd|]. split; [done|]. split; [|split; [by eapply owns_upd|split; [done|]]].
  - split; rewrite ?(up_thr _ _ _ _ U); done.
  - intros a val v. rewrite (up_thr _ _ _ _ U). cbn [rds fixd]. intros Hin. destruct (Htodo a val v Hin) as [Hf|(r & [->|Hr]%elem_of_cons & Hrg & Hrv)].
    + left. by apply HF.
    + left. apply Hnew, list_elem_of_filter. split; [simpl; split; [done|lia]|done].
    + right. by exists r.
Qed.

Lemma tdecide_sim i σ g t held :
  tg_rel g σ → t_pc t = TCheck [] held → tpc_rel σ i t →
  tsim i σ (TG (h_mem g) (h_clock g) (h_guards g) (<[Z.to_nat (x_commit (t_tx t)) := t_log t]> (h_hist g)) (h_ro g),
            goto t (TWrite (tl2_stores (x_wset (t_tx t))))).
Proof.
  intros G Hpc Hrel. unfold tpc_rel in Hrel. rewrite Hpc in Hrel. destruct Hrel as (Hcv & [H1 H2 H3 H4 H5] & Ho & Hh & Htodo).
  eexists. split_and!; [apply rtc_once, (lv_decide _ _ _ _ _ H1)| |].
  - intros a val v Hin. destruct (Htodo a val v Hin) as [?|(r & ?%elem_of_nil & _)]; done.
  - destruct G as [G1 G2 G3 G4 G5 G6]. split; try done. intros c. cbn [fst h_hist hist]. destruct (decide (c = Z.to_nat (x_commit (t_tx t)))) as [->|].
    + rewrite !lookup_insert_eq. exists (t_tx t). split; [done|]. cbn [ce_reads]. by rewrite H3, app_nil_r.
    + by rewrite !lookup_insert_ne.
  - split; [done|]. split; [cbn [thr]; by rewrite fn_lookup_insert|]. intros ℓ. cbn [own]. rewrite (Ho ℓ). cbn [t_tx goto]. by rewrite Hh.
Qed.

Lemma twriteback_sim i σ g t a b st :
  tg_rel g σ → t_pc t = TWrite ((a, b) :: st) → tpc_rel σ i t →
  tsim i σ (TG (<[a := b]> (h_mem g)) (h_clock g) (h_guards g) (h_hist g) (h_ro g), goto t (TWrite st)).
Proof.
  intros G Hpc Hrel. unfold tpc_rel in Hrel. rewrite Hpc in Hrel. destruct Hrel as (Hcv & Hp & Ho).
  eexists. split_and!; [apply rtc_once, (lv_writeback _ _ _ _ _ _ _ Hp)| |].
  - destruct G as [G1 G2 G3 G4 G5 G6]. split; try done. cbn [fst h_mem lmem]. by rewrite G1.
  - split; [done|]. split; [cbn [thr]; by rewrite fn_lookup_insert|done].
Qed.

Lemma trelease_sim i σ g t e rem released :
  lv_inv σ → tg_rel g σ → t_pc t = TRelease (e :: rem) released → tpc_rel σ i t → lk (we_addr e) ∉ released →
  tsim i σ (set_guard g (lk (we_addr e)) (versioned_guard (x_commit (t_tx t))), goto t (TRelease rem (lk (we_addr e) :: released))).
Proof.
  intros I G Hpc Hrel Hnew. unfold tpc_rel in Hrel. rewrite Hpc in Hrel. destruct Hrel as (Hcv & Hp & Ho). set (idx := lk (we_addr e)) in *.
  assert (Hown : own σ idx = Some i) by (apply Ho; split; [rewrite guard_in_cons; by left|done]).
  destruct (iv_dec _ _ σ I i _ _ Hp) as (_ & Hle & _). eexists. split_and!; [apply rtc_once, (lv_release_version _ _ _ _ _ Hp Hown)| |].
  - assert (Hvok : gver_ok (Z.to_nat (x_commit (t_tx t)))) by (by eapply gver_le).
    pose proof (gword_versioned _ Hvok) as Hgw. rewrite Z2Nat.id in Hgw by done. destruct G as [G1 G2 G3 G4 G5 G6]. split; try done; cbn [fst set_guard h_guards ver own].
    + intros ℓ. destruct (decide (ℓ = idx)) as [->|]; [by rewrite !fn_lookup_insert|by rewrite !fn_lookup_insert_ne].
    + intros ℓ j. destruct (decide (ℓ = idx)) as [->|]; [by rewrite fn_lookup_insert|rewrite fn_lookup_insert_ne by done; apply G5].
  - split; [done|]. split; [done|]. intros ℓ. cbn [own]. rewrite elem_of_cons. destruct (decide (ℓ = idx)) as [->|].
    + rewrite fn_lookup_insert. naive_solver.
    + rewrite fn_lookup_insert_ne by done. rewrite (Ho ℓ), guard_in_cons. fold idx. naive_solver.
Qed.

Lemma tcommit_sim i σ g t g' t' :
  lv_inv σ → tg_rel g σ → tpc_rel σ i t → tcommit_step g t = Some (g', t') → tsim i σ (g', t').
Proof.
  intros I G Hrel Hs. unfold tcommit_step in Hs. destruct (t_pc t) as [| | | | | |[|re rs] held|[|[a b] st]|[|e rem] released] eqn:Hpc; try done.
  - injection Hs as <- <-. by eapply tdecide_sim.
  - injection Hs as <- <-. by apply tcheck_sim.
  - injection Hs as <- <-. unfold tpc_rel in Hrel. rewrite Hpc in Hrel. destruct Hrel as (? & ? & Ho). apply tsim_stay; [done|].
    split; [done|]. split; [done|]. intros ℓ. rewrite (Ho ℓ). cbn [t_tx goto]. set_solver.
  - injection Hs as <- <-. by apply twriteback_sim.
  - injection Hs as <- <-. unfold tpc_rel in Hrel. rewrite Hpc in Hrel. destruct Hrel as (? & Hp & Ho). apply finish_sim; [done..| |].
    + intros ℓ. rewrite (Ho ℓ). pose proof (guard_in_nil ℓ). naive_solver.
    + right. right. right. by eexists.
  - case_bool_decide as Hin; injection Hs as <- <-; [|by apply trelease_sim]. unfold tpc_rel in Hrel. rewrite Hpc in Hrel. destruct Hrel as (? & Hp & Ho).
    apply tsim_stay; [done|]. split; [done|]. split; [done|]. intros ℓ. rewrite (Ho ℓ), guard_in_cons. naive_solver.
Qed.

(** ** Every step and every call *)

Lemma tstep_sim weak i σ g t g' t' :
  (i < n)%nat → lv_inv σ → tg_rel g σ → tpc_rel σ i t → tl2_step weak g t = Some (g', t') → tsim i σ (g', t').
Proof.
  intros Hi I G Hrel Hs. unfold tl2_step in Hs. destruct (t_pc t) eqn:Hpc; try done.
  - unfold tread_step in Hs. rewrite Hpc in Hs. injection Hs as <- <-. by apply tguard_sim.
  - unfold tread_step in Hs. rewrite Hpc in Hs. injection Hs as <- <-. by apply tbyte_sim.
  - by eapply tlock_sim.
  - by eapply tlock_sim.
  - by eapply tundo_sim.
  - by eapply tcommit_sim.
  - by eapply tcommit_sim.
  - by eapply tcommit_sim.
Qed.

Lemma tcommit_call_sim i σ g t :
  tg_rel g σ → t_pc t = TIdle → tpc_rel σ i t → x_active (t_tx t) = true →
  let ws := merge_sort addr_le (x_wset (t_tx t)) in tsim i σ (g, TT (tx_sorted (t_tx t) ws) (TLock ws []) (t_log t)).
Proof.
  intros G Hpc Hrel Ha ws. unfold tpc_rel in Hrel. rewrite Hpc, Ha in Hrel. destruct Hrel as [Ho [H1 H2 H3 H4 H5]]. apply tsim_stay; [done|].
  assert (Hp : x_wset (t_tx t) ≡ₚ ws) by (symmetry; apply merge_sort_Permutation). split; [|split].
  - split; try done. by apply tlog_sorted.
  - intros ℓ. rewrite (Ho ℓ). set_solver.
  - intros ℓ. cbn [t_tx x_wset tx_sorted]. set_solver.
Qed.

Lemma tcall_sim i σ g t o g' t' :
  tg_rel g σ → tpc_rel σ i t → tl2_call o g t = Some (g', t') → tsim i σ (g', t').
Proof.
  intros G Hrel Hs. unfold tl2_call in Hs. destruct (t_pc t) eqn:Hpc; try done. destruct (tidle_phase σ i t Hpc Hrel) as [Ho Hp]. destruct o as [|dt a|dt a v| |].
  - injection Hs as <- <-. by apply tbegin_sim.
  - destruct (x_active (t_tx t)) eqn:Ha, (access_ok a (vtype dt)) eqn:Hok; simpl in Hs; try done. injection Hs as <- <-. by apply tread_sim.
  - destruct (x_active (t_tx t)) eqn:Ha, (access_ok a (vtype dt)) eqn:Hok; simpl in Hs; try done. injection Hs as <- <-. by apply twrite_sim.
  - destruct (x_active (t_tx t)) eqn:Ha; cbn [negb] in Hs; [|injection Hs as <- <-; by apply tsim_stay]. destruct (x_wset (t_tx t)) as [|e ws] eqn:Hw.
    + injection Hs as <- <-. apply finish_sim; [by destruct G|done|done|done|naive_solver].
    + injection Hs as <- <-. rewrite <- Hw. by apply tcommit_call_sim.
  - injection Hs as <- <-. apply finish_sim; [done..|naive_solver].
Qed.
End Sim.
