(* ===== verification/TL2Spec.v ===== *)
(** * What TL2 guarantees

    The committed update transactions of every interleaved execution are serializable in
    the order of their commit versions; guards are never left locked; a call that runs
    alone returns after a bounded number of steps; a transaction reads its own writes.
    Two limits of the code are shown by executions: a read-only transaction commits
    without validation and may have read an inconsistent state, and a narrow write over a
    wider one at the same address loses the rest of the wider one. *)

From S2P Require Import Prelude Memory Values TMSpec LogMerge TxLog VersionedLocks TL2 TL2Log TL2Sim.
#[local] Open Scope Z_scope.

(** ** Executions *)

Lemma tinit_rel m n :
  ∃ σ, lv_reachable get_guard_idx m σ ∧ tg_rel n (tinit m) σ ∧
    ∀ i t, replicate n tthread_init !! i = Some t → tpc_rel σ i t.
Proof.
  exists (LVS m 1 (λ _, O) (λ _, None) ∅ (λ _, LVT PIdle [] [] []) []). split_and!.
  - apply lv_init. by split_and!.
  - by split.
  - intros i t [-> _]%lookup_replicate. by split.
Qed.

Lemma treachable_sim m n g ts :
  treachable m n (g, ts) →
  ∃ σ, lv_reachable get_guard_idx m σ ∧ tg_rel n g σ ∧ length ts = n ∧ ∀ i t, ts !! i = Some t → tpc_rel σ i t.
Proof.
  intros Hr. remember (g, ts) as s eqn:Es. revert g ts Es. induction Hr as [|s s' Hr IH Hs]; intros g ts Es.
  - injection Es as <- <-. destruct (tinit_rel m n) as (σ & ? & ? & ?). exists σ. split_and!; [done..| |done]. apply length_replicate.
  - subst s'. destruct s as [g1 ts1]. destruct (IH g1 ts1 eq_refl) as (σ & Hreach & G & Hlen & HT).
    pose proof (reachable_inv _ _ σ Hreach) as I.
    assert (∃ i t t', ts1 !! i = Some t ∧ ts = <[i := t']> ts1 ∧ tsim n i σ (g, t')) as (i & t & t' & Hi & -> & σ' & Hsteps & G' & T').
    { inversion Hs as [? ? i t o ? t' Ht Hc|weak ? ? i t ? t' Ht Hc]; subst; exists i, t, t'; (split_and!; [done..|]).
      - eapply tcall_sim; eauto.
      - eapply tstep_sim; eauto. by eapply lookup_lt_Some. }
    exists σ'. destruct (steps_threads _ _ tpc_rel ts1 i t' σ σ' Hreach Hsteps) as [? ?]; [intros *; apply tpc_frame|exact HT|exact T'|].
    by split_and!; [|done|rewrite length_insert|].
Qed.

Definition all_transparent (h : gmap nat (list event)) : Prop := ∀ c evs, h !! c = Some evs → transparent evs = true.

Lemma tserial_at m n g σ k :
  lv_inv get_guard_idx m σ → tg_rel n g σ → all_transparent (h_hist g) →
  ∃ M, serial m (h_hist g) k = Some M ∧ ∀ x, mget M x = at_ver m (hist σ) k x.
Proof.
  intros I G Hd. eapply serial_history; [done|]. intros c. pose proof (tg_hist n g σ G c) as Hh. unfold thist_rel, log_rel in *.
  destruct (h_hist g !! c) as [evs|] eqn:Hg, (hist σ !! c) as [e|]; try done. destruct Hh as (x & Hw & Hlog).
  intros M HM. rewrite Hw. by apply (tl_replay _ _ _ Hlog (Hd _ _ Hg)).
Qed.

(** A thread in the middle of its write-back. *)
Definition twriting (t : tthread) : bool := match t_pc t with TWrite (_ :: _) => true | _ => false end.

Lemma tquiescent_mem m n g ts σ x :
  lv_inv get_guard_idx m σ → tg_rel n g σ → length ts = n → (∀ i t, ts !! i = Some t → tpc_rel σ i t) → forallb (negb ∘ twriting) ts = true →
  mget (h_mem g) x = at_ver m (hist σ) (clk σ) x.
Proof.
  intros I G Hlen HT Hq. rewrite <- (iv_mem _ _ σ I), (tg_mem n g σ G). unfold pend. destruct (own σ (get_guard_idx x)) as [i|] eqn:Ho; [|done].
  destruct (ph (thr σ i)) as [| | |cv ws|] eqn:Hp; try done. destruct ws as [|s ws]; [done|]. exfalso.
  destruct (lookup_lt_is_Some_2 ts i) as [t Ht]; [rewrite Hlen; by eapply (tg_own n g σ G)|].
  pose proof (HT i t Ht) as Hpc. rewrite forallb_forall in Hq. specialize (Hq t).
  assert (In t ts) as Hin by (apply list_elem_of_In; by eapply list_elem_of_lookup_2). specialize (Hq Hin).
  unfold twriting, tpc_rel, acquiring, trun_rel, compose in *. destruct (t_pc t); try destruct (x_active (t_tx t));
    repeat match goal with H : _ ∧ _ |- _ => destruct H | H : ttx_rel _ _ _ _ _ |- _ => destruct H end; try congruence.
  all: match goal with H : ph _ = PDec _ _ |- _ => rewrite Hp in H; by simplify_eq end.
Qed.

(** ** Properties *)

(** C4: TL2's update transactions are serializable.  In every interleaved execution,
    replaying the logs of the committed update transactions one after the other, in the
    order of their commit versions, succeeds: every read returns what it returned in the
    execution.  Whenever no thread is writing back, the result is the shared memory.
    (For logs whose accesses the write set can represent: [transparent].) *)
Theorem tl2_serializable m n g ts :
  treachable m n (g, ts) → all_transparent (h_hist g) →
  ∃ m', serial m (h_hist g) (Z.to_nat (h_clock g)) = Some m' ∧
    (forallb (negb ∘ twriting) ts = true → ∀ x, mget m' x = mget (h_mem g) x).
Proof.
  intros Hr Hd. destruct (treachable_sim m n g ts Hr) as (σ & Hreach & G & Hlen & HT). pose proof (reachable_inv _ _ σ Hreach) as I.
  rewrite (tg_clock n g σ G), Nat2Z.id. destruct (tserial_at m n g σ (clk σ) I G Hd) as (M & HM & Hx). exists M. split; [done|].
  intros Hq x. rewrite Hx. symmetry. by eapply tquiescent_mem.
Qed.

(** Two threads: the first reads a word and writes another, while the second commits a
    write of a third word in between. *)
Definition tl2_schedule : list (nat * option top) :=
  let run k i := replicate k (i, None) in
  [(0%nat, Some TBegin); (0%nat, Some (TRead DT_UINT16 4096))] ++ run 3%nat 0%nat ++
  [(1%nat, Some TBegin); (1%nat, Some (TWriteOp DT_UINT8 8200 9)); (1%nat, Some TCommit)] ++
  [(0%nat, Some (TWriteOp DT_UINT32 4108 77)); (0%nat, Some TCommit)] ++ run 3%nat 1%nat ++ run 3%nat 0%nat ++ run 5%nat 1%nat ++ run 9%nat 0%nat.

Definition tl2_end : tglobal * list tthread := default (tinit ∅, []) (trun (tinit ∅, replicate 2 tthread_init) tl2_schedule).

Lemma tl2_end_reachable : treachable ∅ 2 (tl2_end.1, tl2_end.2).
Proof. rewrite <- surjective_pairing. eapply (trun_reachable ∅ 2 _ tl2_schedule); [apply treach_init|]. apply default_Some. vm_compute. reflexivity. Qed.

Lemma tl2_end_transparent : all_transparent (h_hist tl2_end.1).
Proof.
  assert (map_Forall (λ _ evs, transparent evs = true) (h_hist tl2_end.1)) as H; [|exact H].
  apply (bool_decide_unpack _). vm_compute. exact I.
Qed.

Lemma tl2_serializable_witness :
  size (h_hist tl2_end.1) = 2%nat ∧
  ∃ m', serial ∅ (h_hist tl2_end.1) (Z.to_nat (h_clock tl2_end.1)) = Some m' ∧
    mget m' 4108 = mget (h_mem tl2_end.1) 4108 ∧ mget (h_mem tl2_end.1) 4108 = 77.
Proof.
  split; [vm_compute; reflexivity|].
  destruct (tl2_serializable ∅ 2 tl2_end.1 tl2_end.2 tl2_end_reachable tl2_end_transparent) as (m' & Hm & Hq).
  exists m'. split; [exact Hm|]. split; [apply Hq; vm_compute; reflexivity|vm_compute; reflexivity].
Defined.

(** No guard is left locked.  Whenever no call is in progress, every guard is
    unlocked, whether the transactions committed or failed at any point; and a guard's
    version never exceeds the clock. *)
Theorem tl2_guards_released m n g ts :
  treachable m n (g, ts) → forallb (λ t, match t_pc t with TIdle => true | _ => false end) ts = true →
  ∀ ℓ, guard_locked (h_guards g ℓ) = false ∧ guard_version (h_guards g ℓ) ≤ h_clock g.
Proof.
  intros Hr Hq ℓ. destruct (treachable_sim m n g ts Hr) as (σ & Hreach & G & Hlen & HT). pose proof (reachable_inv _ _ σ Hreach) as I.
  rewrite (tg_guards n g σ G), gword_locked, gword_version, (tg_clock n g σ G) by (by eapply guard_ok). pose proof (iv_ver _ _ σ I ℓ). split; [|lia].
  destruct (own σ ℓ) as [i|] eqn:Ho; [|done]. exfalso. destruct (lookup_lt_is_Some_2 ts i) as [t Ht]; [rewrite Hlen; by eapply (tg_own n g σ G)|].
  pose proof (HT i t Ht) as Hpc. rewrite forallb_forall in Hq. specialize (Hq t).
  assert (In t ts) as Hin by (apply list_elem_of_In; by eapply list_elem_of_lookup_2). specialize (Hq Hin).
  unfold tpc_rel in Hpc. destruct (t_pc t); try done. destruct Hpc as [Hown _]. by apply Hown in Ho.
Qed.

Lemma tl2_guards_released_witness :
  guard_version (h_guards tl2_end.1 (get_guard_idx 4108)) = 3 ∧ guard_locked (h_guards tl2_end.1 (get_guard_idx 4108)) = false.
Proof.
  split; [vm_compute; reflexivity|].
  apply (tl2_guards_released ∅ 2 tl2_end.1 tl2_end.2 tl2_end_reachable). vm_compute. reflexivity.
Defined.

(** A transaction reads its own writes.  In every reachable state, a read of the
    type and address just written is served from the write set and returns the value
    written, truncated to the type's width, whatever the transaction wrote before. *)
Theorem tl2_read_own_write m n g ts i t dt a v :
  treachable m n (g, ts) → ts !! i = Some t → t_pc t = TIdle → x_active (t_tx t) = true → access_ok a (vtype dt) = true →
  ∃ t', tl2_call (TWriteOp dt a v) g t = Some (g, t') ∧ tl2_call (TRead dt a) g t' = Some (g, read_done t' dt a (to_word dt v)).
Proof.
  intros Hr Hi Hpc Ha Hok. destruct (treachable_sim m n g ts Hr) as (σ & Hreach & G & Hlen & HT). pose proof (HT i t Hi) as Hrel.
  unfold tpc_rel in Hrel. rewrite Hpc, Ha in Hrel. destruct Hrel as [_ R]. pose proof (tl_wf _ _ _ (tr_log _ _ _ _ _ R)) as Hwf.
  destruct (write_impl_spec (t_tx t) dt a v Hwf Hok) as (Hwf' & e' & Hae & Hde & Hne & Hws).
  eexists. unfold tl2_call. rewrite Hpc, Ha, Hok. cbn [andb]. split; [done|]. cbn [t_pc t_tx].
  assert (x_active (write_impl (t_tx t) dt a v) = true) as -> by (unfold write_impl; by destruct (write_set_put _ _ _ _)). cbn [andb].
  apply access_ok_spec in Hok as [Haw _]. unfold wset_lookup. assert (He' : e' ∈ x_wset (write_impl (t_tx t) dt a v)) by (apply Hws; by left).
  rewrite (wf_bloom _ Hwf' e') by (done || lia). unfold lookup_exact.
  destruct (lookup_head_some (P := λ e, we_addr e = a ∧ we_dtype e = dt) (x_wset (write_impl (t_tx t) dt a v)) e') as [e Hh]; [done..|].
  rewrite Hh. apply lookup_head in Hh as [[Hea Hed] He]. rewrite (entry_unique _ e e' Hwf') by (done || congruence). simpl.
  rewrite Hne. unfold from_word, to_word. by rewrite wrap_idem by lia.
Qed.

(** The first thread of a run that has begun. *)
Definition tl2_begun : tglobal * list tthread := default (tinit ∅, []) (trun (tinit ∅, replicate 1 tthread_init) [(0%nat, Some TBegin)]).

Lemma tl2_begun_reachable : treachable ∅ 1 (tl2_begun.1, tl2_begun.2).
Proof.
  rewrite <- surjective_pairing. eapply (trun_reachable ∅ 1 _ [(0%nat, Some TBegin)]); [apply treach_init|]. apply default_Some. vm_compute. reflexivity.
Qed.

Definition tl2_begun_thread : tthread := default tthread_init (tl2_begun.2 !! 0%nat).

Lemma tl2_read_own_write_witness :
  ∃ t', tl2_call (TWriteOp DT_UINT16 4096 70000) tl2_begun.1 tl2_begun_thread = Some (tl2_begun.1, t') ∧
    tl2_call (TRead DT_UINT16 4096) tl2_begun.1 t' = Some (tl2_begun.1, read_done t' DT_UINT16 4096 4464).
Proof.
  apply (tl2_read_own_write ∅ 1 tl2_begun.1 tl2_begun.2 0%nat tl2_begun_thread DT_UINT16 4096 70000 tl2_begun_reachable).
  - apply default_Some. vm_compute. reflexivity.
  - vm_compute. reflexivity.
  - vm_compute. reflexivity.
  - vm_compute. reflexivity.
Defined.

(** ** Progress *)

(** A thread that runs alone until its call returns, for at most the given steps; each
    entry says whether a compare-and-swap fails at that step although it could succeed. *)
Fixpoint tsolo (weaks : list bool) (g : tglobal) (t : tthread) : option (tglobal * tthread) :=
  match t_pc t with
  | TIdle => Some (g, t)
  | _ =>
      match weaks with
      | [] => None
      | weak :: weaks' => gt ← tl2_step weak g t; tsolo weaks' gt.1 gt.2
      end
  end.

(** How often a compare-and-swap of the schedule may fail without a reason. *)
Definition spurious (weaks : list bool) : nat := length (filter (.= true) weaks).

(** Steps left: after the locks are taken, and in all. *)
Definition commit_left (x : tl2_tx) : nat := length (x_rset x) + length (tl2_stores (x_wset x)) + length (x_wset x) + 4.
Definition steps_left (g : tglobal) (t : tthread) : nat :=
  match t_pc t with
  | TIdle => 0
  | TGuard dt _ => 1 + swapSize dt
  | TBytes dt _ bs => swapSize dt - length bs
  | TLock rem _ => 3 * length rem + commit_left (t_tx t)
  | TCas e rem _ guard => 3 * length rem + 1 + (if h_guards g (get_guard_idx (we_addr e)) =? guard then 0 else 1) + commit_left (t_tx t)
  | TUndo rem _ => length rem + 1
  | TCheck rs _ => length rs + length (tl2_stores (x_wset (t_tx t))) + length (x_wset (t_tx t)) + 3
  | TWrite st => length st + length (x_wset (t_tx t)) + 2
  | TRelease rem _ => length rem + 1
  end.

(** The next commit version still fits its word. *)
Definition clock_room (g : tglobal) (t : tthread) : Prop :=
  match t_pc t with TLock _ _ | TCas _ _ _ _ => h_clock g + 1 < 2 ^ 63 | TBytes dt _ bs => (length bs < swapSize dt)%nat | _ => True end.

Lemma guard_seen_left g t e rem held :
  clock_room g (goto t (TCas e rem held 0)) → let t' := guard_seen t e rem held (h_guards g (get_guard_idx (we_addr e))) in
  clock_room g t' ∧ (steps_left g t' ≤ 3 * length rem + 1 + commit_left (t_tx t))%nat.
Proof.
  intros Hc. unfold guard_seen. destruct (guard_locked _); cbn -[Nat.mul].
  - split; [done|]. unfold commit_left. lia.
  - split; [done|]. rewrite Z.eqb_refl. lia.
Qed.

(** Every step makes progress, but for a compare-and-swap that fails without a reason. *)
Lemma tstep_left weak g t :
  t_pc t ≠ TIdle → clock_room g t →
  ∃ g' t', tl2_step weak g t = Some (g', t') ∧ clock_room g' t' ∧ (steps_left g' t' < steps_left g t + if weak then 1 else 0)%nat.
Proof.
  assert (Hw : ∀ k, (k ≤ k + if weak then 1 else 0)%nat) by (intros k; destruct weak; lia).
  assert (Hlt : ∀ j k, (j < k)%nat → (j < k + if weak then 1 else 0)%nat) by (intros j k; specialize (Hw k); lia).
  destruct t as [x pc l]. intros Hpc Hc. unfold tl2_step. destruct pc as [|dt a|dt a bs|[|e rem] held|e rem held guard|[|e rem] held|[|re rs] held|[|[a b] st]|[|e rem] released];
    cbn [t_pc] in *; try done; unfold clock_room in Hc; cbn [t_pc] in Hc.
  - do 2 eexists. split; [done|]. pose proof (swapSize_range dt). cbn -[swapSize]. lia.
  - do 2 eexists. split; [done|]. cbn -[swapSize Nat.sub Nat.leb]. rewrite length_app. cbn [length]. destruct (Nat.leb_spec (swapSize dt) (length bs + 1)).
    + cbn -[swapSize Nat.sub]. split; [done|lia].
    + cbn -[swapSize Nat.sub]. rewrite length_app. cbn [length]. lia.
  - unfold tlock_step. cbn [t_pc t_tx]. rewrite (proj2 (Z.leb_gt _ _) Hc). do 2 eexists. split; [done|]. split; [done|]. unfold steps_left, commit_left. cbn [t_pc t_tx tx_version x_rset x_wset length]. lia.
  - unfold tlock_step. cbn [t_pc t_tx]. case_bool_decide.
    + do 2 eexists. split; [done|]. split; [done|]. cbn -[commit_left Nat.mul]. lia.
    + do 2 eexists. split; [done|]. destruct (guard_seen_left g (TT x (TLock (e :: rem) held) l) e rem held Hc) as [? ?]. split; [done|].
      cbn -[commit_left Nat.mul guard_seen] in *. lia.
  - unfold tlock_step. cbn [t_pc t_tx]. destruct weak; cbn [negb andb].
    { do 2 eexists. split; [done|]. destruct (guard_seen_left g (TT x (TCas e rem held guard) l) e rem held Hc) as [? ?]. split; [done|].
      cbn -[commit_left Nat.mul guard_seen] in *. lia. }
    destruct (Z.eqb_spec (h_guards g (get_guard_idx (we_addr e))) guard) as [Heq|Hne].
    + do 2 eexists. split; [done|]. split; [done|]. cbn -[commit_left Nat.mul]. lia.
    + do 2 eexists. split; [done|]. destruct (guard_seen_left g (TT x (TCas e rem held guard) l) e rem held Hc) as [? ?]. split; [done|].
      cbn -[commit_left Nat.mul guard_seen] in *. rewrite (proj2 (Z.eqb_neq _ _) Hne). lia.
  - do 2 eexists. split; [done|]. cbn. split; [done|lia].
  - unfold tundo_step. cbn [t_pc t_tx]. case_bool_decide; do 2 eexists; (split; [done|]); cbn; (split; [done|lia]).
  - do 2 eexists. split; [done|]. cbn. split; [done|lia].
  - unfold tcommit_step. cbn [t_pc t_tx]. do 2 eexists. split; [done|]. destruct (validate_read _ _ _); cbn; (split; [done|lia]).
  - do 2 eexists. split; [done|]. cbn. split; [done|lia].
  - do 2 eexists. split; [done|]. cbn. split; [done|lia].
  - do 2 eexists. split; [done|]. cbn. split; [done|lia].
  - unfold tcommit_step. cbn [t_pc t_tx]. case_bool_decide; do 2 eexists; (split; [done|]); cbn; (split; [done|lia]).
Qed.

Lemma tsolo_returns weaks g t :
  clock_room g t → (steps_left g t + spurious weaks ≤ length weaks)%nat → ∃ g' t', tsolo weaks g t = Some (g', t') ∧ t_pc t' = TIdle.
Proof.
  revert g t. induction weaks as [|weak weaks IH]; intros g t Hc Hk; (assert (t_pc t = TIdle ∨ t_pc t ≠ TIdle) as [Hi|Hi] by (destruct (t_pc t); auto)).
  - exists g, t. simpl. by rewrite Hi.
  - destruct (tstep_left false g t Hi Hc) as (g' & t' & _ & _ & ?). cbn in Hk. lia.
  - exists g, t. simpl. by rewrite Hi.
  - destruct (tstep_left weak g t Hi Hc) as (g1 & t1 & Hs & Hc1 & Hlt). destruct (IH g1 t1 Hc1) as (g2 & t2 & H2 & ?).
    { unfold spurious in *. rewrite filter_cons in Hk. destruct weak; cbn [length] in Hk; [rewrite decide_True in Hk by done|rewrite decide_False in Hk by done]; cbn [length] in Hk; lia. }
    exists g2, t2.
    split; [|done]. cbn [tsolo]. rewrite Hs. by destruct (t_pc t).
Qed.

(** C15: commit never blocks.  A commit (at any point other threads have left the guards
    in, even locked by threads that are stopped) returns, committed or aborted, once it
    runs alone: within three steps per written address to take the guards, one per read
    to validate and one per byte and address to write back and release, and one more for
    each time its weak compare-and-swaps fail without a reason.  The clock must have room
    for one more version. *)
Theorem tl2_commit_returns g t :
  t_pc t = TIdle → h_clock g + 1 < 2 ^ 63 →
  ∃ g1 t1, tl2_call TCommit g t = Some (g1, t1) ∧
  ∀ weaks, (4 * length (x_wset (t_tx t1)) + length (tl2_stores (x_wset (t_tx t1))) + length (x_rset (t_tx t1)) + 4 + spurious weaks ≤ length weaks)%nat →
  ∃ g2 t2, tsolo weaks g1 t1 = Some (g2, t2) ∧ t_pc t2 = TIdle.
Proof.
  intros Hpc Hc. unfold tl2_call. rewrite Hpc. destruct (x_active (t_tx t)); cbn [negb]; [destruct (x_wset (t_tx t)) as [|e ws] eqn:Hw|]; do 2 eexists; (split; [done|]); intros weaks Hk; apply tsolo_returns.
  - done.
  - cbn. cbn in Hk. lia.
  - done.
  - unfold steps_left, commit_left. cbn [t_pc t_tx tx_sorted x_rset x_wset] in *. lia.
  - unfold clock_room. by rewrite Hpc.
  - unfold steps_left. rewrite Hpc. lia.
Qed.

(** A commit while another thread is stopped holding the second guard it needs; taking
    the first one fails twice without a reason. *)
Definition tl2_blocked : tglobal * list tthread :=
  default (tinit ∅, []) (trun (tinit ∅, replicate 2 tthread_init)
    [(0%nat, Some TBegin); (0%nat, Some (TWriteOp DT_UINT8 8200 9)); (0%nat, Some TCommit); (0%nat, None); (0%nat, None);
     (1%nat, Some TBegin); (1%nat, Some (TWriteOp DT_UINT8 8201 5)); (1%nat, Some (TWriteOp DT_UINT8 4096 5))]).
Definition tl2_blocked_thread : tthread := default tthread_init (tl2_blocked.2 !! 1%nat).

Lemma tl2_commit_returns_witness :
  length (x_wset (t_tx tl2_blocked_thread)) = 2%nat ∧ guard_locked (h_guards tl2_blocked.1 (get_guard_idx 8201)) = true ∧
  ∃ g1 t1, tl2_call TCommit tl2_blocked.1 tl2_blocked_thread = Some (g1, t1) ∧
  ∃ g2 t2, tsolo ([false; true; true] ++ replicate 20 false) g1 t1 = Some (g2, t2) ∧ t_pc t2 = TIdle.
Proof.
  split; [vm_compute; reflexivity|]. split; [vm_compute; reflexivity|].
  destruct (tl2_commit_returns tl2_blocked.1 tl2_blocked_thread) as (g1 & t1 & Hc & Hs); [vm_compute; reflexivity..|].
  exists g1, t1. split; [exact Hc|]. apply Hs. clear Hs. destruct t1 as [x pc l]. cbn [t_tx].
  assert (Hx : tl2_call TCommit tl2_blocked.1 tl2_blocked_thread = Some (g1, TT x pc l)) by exact Hc.
  apply (f_equal (fmap (λ gt, (length (x_wset (t_tx gt.2)), length (tl2_stores (x_wset (t_tx gt.2))), length (x_rset (t_tx gt.2)))))) in Hx.
  revert Hx. cbn [fmap option_fmap option_map snd t_tx].
  generalize (length (x_wset x)), (length (tl2_stores (x_wset x))), (length (x_rset x)). intros a b c Hx.
  assert (E : (2%nat, 2%nat, 0%nat) = (a, b, c)) by (apply (inj Some); rewrite <- Hx; vm_compute; reflexivity).
  injection E as <- <- <-. vm_compute. lia.
Defined.

(** ** Limits *)

Lemma serial_beyond m h k k' : (k ≤ k')%nat → (∀ c, (k < c)%nat → h !! c = None) → serial m h k' = serial m h k.
Proof.
  induction 1 as [|k' Hle IH]; intros Hn; [done|]. cbn [serial]. rewrite IH, Hn by (done || lia). by destruct (serial m h k).
Qed.

(** The first thread reads one word before and another after the second thread commits
    writes to both. *)
Definition tl2_skew_schedule : list (nat * option top) :=
  [(0%nat, Some TBegin); (0%nat, Some (TRead DT_UINT8 4096)); (0%nat, None); (0%nat, None);
   (1%nat, Some TBegin); (1%nat, Some (TWriteOp DT_UINT8 4096 1)); (1%nat, Some (TWriteOp DT_UINT8 8192 1)); (1%nat, Some TCommit)] ++
  replicate 12 (1%nat, None) ++
  [(0%nat, Some (TRead DT_UINT8 8192)); (0%nat, None); (0%nat, None); (0%nat, Some TCommit)].
Definition tl2_skew : tglobal * list tthread := default (tinit ∅, []) (trun (tinit ∅, replicate 2 tthread_init) tl2_skew_schedule).

Lemma tl2_skew_reachable : treachable ∅ 2 (tl2_skew.1, tl2_skew.2).
Proof.
  rewrite <- surjective_pairing. eapply (trun_reachable ∅ 2 _ tl2_skew_schedule); [apply treach_init|]. apply default_Some. vm_compute. reflexivity.
Qed.

(** A read-only transaction commits although no state of the serial execution, at any
    version, explains what it read. *)
Theorem tl2_read_only_inconsistent :
  ∃ g ts s e evs, treachable ∅ 2 (g, ts) ∧ (s, e, evs) ∈ h_ro g ∧ transparent evs = true ∧
    ∀ k m', serial ∅ (h_hist g) k = Some m' → replay m' evs = None.
Proof.
  exists tl2_skew.1, tl2_skew.2, 1, 2, [EvR 4096 UINT8 0; EvR 8192 UINT8 1]. split; [apply tl2_skew_reachable|].
  split; [|split; [done|]].
  { assert (h_ro tl2_skew.1 = [(1, 2, [EvR 4096 UINT8 0; EvR 8192 UINT8 1])]) as -> by (vm_compute; reflexivity). left. }
  assert (Hk : ∀ k, from_option (λ m, replay m [EvR 4096 UINT8 0; EvR 8192 UINT8 1]) None (serial ∅ (h_hist tl2_skew.1) k) = None).
  { assert (Hb : ∀ c, (2 < c)%nat → h_hist tl2_skew.1 !! c = None).
    { assert (map_Forall (λ c _, (c ≤ 2)%nat) (h_hist tl2_skew.1)) as H by (apply (bool_decide_unpack _); vm_compute; exact I).
      intros c Hc. destruct (h_hist tl2_skew.1 !! c) eqn:Hl; [|done]. apply H in Hl. lia. }
    intros [|[|[|k]]]; [vm_compute; reflexivity..|]. rewrite (serial_beyond _ _ 2) by (done || lia). vm_compute. reflexivity. }
  intros k m' Hs. specialize (Hk k). by rewrite Hs in Hk.
Qed.

(** A one-byte write after an eight-byte write to the same address: the entry keeps the
    address and becomes a one-byte entry, the other seven bytes are not written back. *)
Theorem tl2_narrow_write_drops x a v b :
  x_wset x = [] → 0 ≤ b < 256 →
  tl2_stores (x_wset (write_impl (write_impl x DT_UINT64 a v) DT_UINT8 a b)) = [(a, b)].
Proof.
  intros Hw Hb. unfold write_impl at 2. rewrite Hw. cbn [write_set_put]. unfold write_impl. cbn [x_wset app write_set_put we_addr set_new].
  rewrite Z.eqb_refl. cbn [x_wset]. unfold tl2_stores, entry_stores. cbn [fmap list_fmap concat we_addr set_new]. rewrite app_nil_r.
  rewrite new_value_set; [|apply union_set_length; simpl; lia]. cbn [we_dtype swapSize set_new le_bytes at_addr]. unfold to_word, wrap. simpl.
  change (2 ^ (8 * Z.of_nat 1)) with 256. by rewrite !Z.mod_mod, Z.mod_small by lia.
Qed.
