(* ===== verification/WBCTL.v ===== *)
(** * TinySTM, write-back with commit-time locking (tiny_stm/tinystm_wbctl.hpp)

    The transaction operations as interleaved steps of threads on the shared clock, lock
    table, token and memory, as for the encounter-time variant.  Reads and writes keep
    typed entries keyed by address; the rules by which the code serves a read from
    entries of other widths and merges or drops a write are modelled as they are.  The
    clock reset, assertions, statistics and the serialization locks of [abort_tx] are left
    out.

    The steps are parametrized by [skip], the test of the write-back phase that an address
    belongs to a dead stack frame, by transaction id and address; [ctl_skip] is the test
    of the code. *)

From stdpp Require Import functions sorting.
From S2P Require Import Prelude Memory Values TMSpec LogMerge TxLog TinyLock TinyWriteSet Support TinyShared.
Import SpinToken.
#[local] Open Scope Z_scope.
#[local] Open Scope word_scope.

Record ReadLogEntry_wbctl := CRE { cr_type : ValueType; cr_addr : Z; cr_version : Z; cr_val : any_type_t }.
Record WriteLogEntry_wbctl := CWE { cw_type : ValueType; cw_addr : Z; cw_version : Z; cw_val : any_type_t }.
Definition cwe_none : WriteLogEntry_wbctl := CWE UINT8 0 0 (AnyT 0).
#[local] Abbreviation cset := (wset WriteLogEntry_wbctl).

Record ctx := CTx {
  c_id : Z; c_start : Z; c_end : Z; c_commit : Z; c_active : bool; c_ro : bool; c_aborts : Z; c_retry : bool;
  c_rset : list ReadLogEntry_wbctl; c_wset : wset WriteLogEntry_wbctl; c_held : list Z;
}.

(** Null and low addresses have no memory. *)
Definition low_addr (addr : Z) : bool := (addr =? 0) || (addr <? 0x100000).

(** ** Reads served from the write set: [read_word_ctl] *)

(** A value assigned to a member of a fresh union. *)
Definition any_of (v : Z) : any_type_t := AnyT v.

(** Eight (or fewer) one-byte entries at consecutive addresses. *)
Fixpoint ctl_merge (w : cset) (addr : Z) (n : nat) (i merged : Z) : option Z :=
  match n with
  | O => Some merged
  | S n' =>
      match ws_find w (wrap64 (addr + i)) with
      | Some e =>
          if bool_decide (cw_type e = UINT8) then ctl_merge w addr n' (i + 1) (merged .| (u1 (cw_val e) .<< (i * 8))) else None
      | None => None
      end
  end.

Inductive found := FHit (v : any_type_t) | FMiss | FMemory.

(** An entry at the address itself; [FMemory] is the jump past the other lookups. *)
Definition ctl_exact (w : cset) (e : WriteLogEntry_wbctl) (addr : Z) (sz : ValueType) : found :=
  let ty := cw_type e in
  let v := cw_val e in
  if bool_decide (ty = sz) then FHit v
  else if bool_decide ((sz = POINTER ∧ ty = UINT64) ∨ (sz = UINT64 ∧ ty = POINTER)) then FHit v
  else if bool_decide ((sz = UINT64 ∨ sz = POINTER) ∧ (ty = UINT8 ∨ ty = UINT16 ∨ ty = UINT32)) then
    match ctl_merge w addr 8 0 0 with Some merged => FHit (any_of merged) | None => FMemory end
  else if bool_decide (sz = UINT8 ∧ ty = UINT64) then FHit (any_of (u8 v .& 0xFF))
  else if bool_decide (sz = UINT8 ∧ ty = UINT32) then FHit (any_of (u4 v .& 0xFF))
  else if bool_decide (sz = UINT8 ∧ ty = UINT16) then FHit (any_of (u2 v .& 0xFF))
  else if bool_decide (sz = UINT16 ∧ ty = UINT64) then FHit (any_of (u8 v .& 0xFFFF))
  else if bool_decide (sz = UINT32 ∧ ty = UINT64) then FHit (any_of (u8 v .& 0xFFFFFFFF))
  else FMiss.

(** Any read from one-byte entries. *)
Definition ctl_bytes (w : cset) (addr : Z) (sz : ValueType) : option any_type_t :=
  any_of <$> ctl_merge w addr (type_size sz) 0 0.

(** Entries of eight, four and two bytes at the enclosing aligned addresses. *)
Definition ctl_in64 (w : cset) (addr : Z) (sz : ValueType) : option any_type_t :=
  let bo := ByteOffset_of addr in
  let shift := offset bo * 8 in
  e ← ws_find w (base_addr bo);
  if bool_decide (cw_type e = UINT64) then
    match sz with
    | UINT8 => Some (any_of (wrap 8 (u8 (cw_val e) .>> shift)))
    | UINT16 => Some (any_of (wrap 16 (u8 (cw_val e) .>> shift)))
    | UINT32 => Some (any_of (wrap 32 (u8 (cw_val e) .>> shift)))
    | _ => None
    end
  else None.

Definition ctl_in32 (w : cset) (addr : Z) (sz : ValueType) : option any_type_t :=
  let u32_addr := addr .& not64 3 in
  let byte_off := addr - u32_addr in
  e ← ws_find w u32_addr;
  if bool_decide (cw_type e = UINT32) then
    match sz with
    | UINT8 => Some (any_of (wrap 8 (u4 (cw_val e) .>> (byte_off * 8))))
    | UINT16 => if byte_off <=? 2 then Some (any_of (wrap 16 (u4 (cw_val e) .>> (byte_off * 8)))) else None
    | _ => None
    end
  else None.

Definition ctl_in16 (w : cset) (addr : Z) (sz : ValueType) : option any_type_t :=
  let u16_addr := addr .& not64 1 in
  let byte_off := addr - u16_addr in
  e ← ws_find w u16_addr;
  if bool_decide (cw_type e = UINT16) && (byte_off <? 2) && bool_decide (sz = UINT8)
  then Some (any_of (wrap 8 (u2 (cw_val e) .>> (byte_off * 8)))) else None.

Definition ctl_or {A} (o1 o2 : option A) : option A := match o1 with Some a => Some a | None => o2 end.

Definition ctl_lookup (w : cset) (addr : Z) (sz : ValueType) : option any_type_t :=
  let rest :=
    ctl_or (ctl_bytes w addr sz)
      (if offset (ByteOffset_of addr) =? 0 then None
       else ctl_or (ctl_in64 w addr sz) (ctl_or (ctl_in32 w addr sz) (ctl_in16 w addr sz))) in
  match ws_find w addr with
  | Some e => match ctl_exact w e addr sz with FHit v => Some v | FMemory => None | FMiss => rest end
  | None => rest
  end.

(** ** Writes to the write set: [write_word_ctl] up to its lock loop *)

Definition cwe_set (e : WriteLogEntry_wbctl) (v : any_type_t) : WriteLogEntry_wbctl := CWE (cw_type e) (cw_addr e) (cw_version e) v.

(** Assignment through the pointer [ws_find] returned. *)
Definition ctl_set (w : cset) (addr : Z) (v : any_type_t) : cset :=
  match ws_pos w addr, ws_find w addr with
  | Some i, Some e => ws_assign w i (cwe_set e v)
  | _, _ => w
  end.

(** Mask and value of a sub-word write merged into an eight-byte entry. *)
Definition sub_mask (sz : ValueType) (val : any_type_t) : option (Z * Z) :=
  match sz with
  | UINT8 => Some (0xFF, u1 val)
  | UINT16 => Some (0xFFFF, u2 val)
  | UINT32 => Some (0xFFFFFFFF, u4 val)
  | _ => None
  end.

(** [None]: no entry takes the write, or covers it, and it goes on to the lock loop. *)
Definition ctl_write_exact (w : cset) (addr : Z) (val : any_type_t) (sz : ValueType) : option cset :=
  e ← ws_find w addr;
  if bool_decide (cw_type e = sz) then Some (ctl_set w addr val)
  else if bool_decide (cw_type e = UINT64 ∧ sz = UINT8)
  then Some (ctl_set w addr (AnyT ((u8 (cw_val e) .& not64 0xFF) .| u1 val)))
  else None.

Definition ctl_write_merge (w : cset) (addr : Z) (val : any_type_t) (sz : ValueType) : option cset :=
  let bo := ByteOffset_of addr in
  if offset bo =? 0 then None
  else
    e ← ws_find w (base_addr bo);
    if bool_decide (cw_type e = UINT64) then
      mv ← sub_mask sz val;
      let shift := offset bo * 8 in
      let mask := mv.1 .<< shift in
      Some (ctl_set w (base_addr bo) (AnyT ((u8 (cw_val e) .& not64 mask) .| (mv.2 .<< shift))))
    else None.

(** The two guards: a wider entry at the address, or at the base of its word, keeps the
    write out. *)
Definition ctl_covered (w : cset) (addr : Z) (sz : ValueType) : bool :=
  let bo := ByteOffset_of addr in
  match ws_find w addr with
  | Some e => bool_decide (cw_type e ≠ sz) && (nbytes_of sz <? nbytes_of (cw_type e))
  | None => false
  end ||
  (negb (offset bo =? 0) &&
   match ws_find w (base_addr bo) with
   | Some e => bool_decide (cw_type e ≠ sz) && (nbytes_of sz + offset bo <=? nbytes_of (cw_type e))
   | None => false
   end).

(** Narrower entries under a wide write are erased. *)
Fixpoint ctl_erase (w : cset) (addr : Z) (sz : ValueType) (n : nat) (i : Z) : cset :=
  match n with
  | O => w
  | S n' =>
      let sub := wrap64 (addr + i) in
      let w' := match ws_find w sub with
                | Some e => if bool_decide (cw_type e ≠ sz) && (nbytes_of (cw_type e) <? nbytes_of sz) then ws_erase_addr w sub else w
                | None => w
                end in
      ctl_erase w' addr sz n' (i + 1)
  end.

Definition ctl_make_room (w : cset) (addr : Z) (sz : ValueType) : cset :=
  if 1 <? nbytes_of sz then ctl_erase w addr sz (type_size sz) 0 else w.

(** [inl]: the write is done (or dropped); [inr]: the write set with room for an entry. *)
Definition ctl_write_local (w : cset) (addr : Z) (val : any_type_t) (sz : ValueType) : cset + cset :=
  match ctl_write_exact w addr val sz with
  | Some w' => inl w'
  | None =>
      match ctl_write_merge w addr val sz with
      | Some w' => inl w'
      | None => if ctl_covered w addr sz then inl w else inr (ctl_make_room w addr sz)
      end
  end.

(** ** Threads *)

(** A write in progress: address, type, value. *)
Record cacc := CAcc { ca_addr : Z; ca_sz : ValueType; ca_val : any_type_t }.

(** Callers of [validate] and [extend]: a read that saw the word [l], a write that spins on
    a locked word, a write that saw a newer version, the lock loop of [commit], and the
    two validations of [commit] after the increment. *)
Inductive ccaller :=
  | KRead (a : Z) (sz : ValueType) (l : Z) (spin : nat)
  | KSpin (w : cacc)
  | KWrite (w : cacc)
  | KLock (a : Z) (rem : list Z) (retries : nat)
  | KGap (cv : Z)
  | KFinal (cv : Z).

Inductive cpc :=
  | CIdle
  | CBegin
  | CRGet (a : Z) (sz : ValueType)
  | CRLoop (a : Z) (sz : ValueType) (l : Z) (spin : nat)
  | CRBytes (a : Z) (sz : ValueType) (l : Z) (spin : nat) (bs : list Z)
  | CRCheck (a : Z) (sz : ValueType) (l : Z) (spin : nat) (bs : list Z)
  | CEClock (k : ccaller)
  | CVLoop (k : ccaller) (last : Z) (rs : list ReadLogEntry_wbctl)
  | CSoft (k : ccaller)
  | CSoftCas (k : ccaller)
  | CWGet (w : cacc)
  | CWCheck (w : cacc) (l : Z)
  | CClock
  | CAddr (rem : list Z)
  | CTry (a : Z) (rem : list Z) (retries : nat)
  | CCas (a : Z) (rem : list Z) (retries : nat) (expected desired : Z)
  | CIncr
  | CBack (cv : Z) (st : list (Z * Z))
  | CRel (cv : Z) (es : list Z)
  | CRelVersion (cv : Z) (a : Z) (es : list Z)
  | CRelUnlock (cv : Z) (a : Z) (es : list Z)
  | CTok (cv : Z)
  | CUnlock (ls : list Z)
  | COwner (l : Z) (ls : list Z)
  | CClear (l : Z) (ls : list Z)
  | CUntok.

Record cthread := CT { c_tx : ctx; c_pc : cpc; c_log : list event }.

Definition c_at (t : cthread) (p : cpc) : cthread := CT (c_tx t) p (c_log t).
Definition c_with (t : cthread) (x : ctx) (p : cpc) : cthread := CT x p (c_log t).

Definition ctx_clear (x : ctx) : ctx :=
  CTx (c_id x) (c_start x) (c_end x) (c_commit x) (c_active x) (c_ro x) (c_aborts x) (c_retry x) [] (ws_clear (c_wset x)) [].
Definition ctx_begin (x : ctx) (clock : Z) : ctx :=
  CTx (c_id x) clock clock (c_commit x) true true (if c_retry x then c_aborts x else 0) false (c_rset x) (c_wset x) (c_held x).
Definition ctx_reset (x : ctx) (cv : Z) : ctx := CTx (c_id x) 0 0 cv false true 0 false [] (ws_clear (c_wset x)) [].
Definition ctx_aborted (x : ctx) : ctx :=
  CTx (c_id x) (c_start x) (c_end x) (c_commit x) (c_active x) (c_ro x) (c_aborts x + 1) true (c_rset x) (c_wset x) (c_held x).
Definition ctx_extended (x : ctx) (last : Z) : ctx :=
  CTx (c_id x) (c_start x) last (c_commit x) (c_active x) (c_ro x) (c_aborts x) (c_retry x) (c_rset x) (c_wset x) (c_held x).
Definition ctx_read (x : ctx) (r : ReadLogEntry_wbctl) : ctx :=
  CTx (c_id x) (c_start x) (c_end x) (c_commit x) (c_active x) (c_ro x) (c_aborts x) (c_retry x) (c_rset x ++ [r]) (c_wset x) (c_held x).
Definition ctx_wset (x : ctx) (w : wset WriteLogEntry_wbctl) : ctx :=
  CTx (c_id x) (c_start x) (c_end x) (c_commit x) (c_active x) false (c_aborts x) (c_retry x) (c_rset x) w (c_held x).
Definition ctx_hold (x : ctx) (l : Z) : ctx :=
  CTx (c_id x) (c_start x) (c_end x) (c_commit x) (c_active x) (c_ro x) (c_aborts x) (c_retry x) (c_rset x) (c_wset x) (c_held x ++ [l]).
Definition ctx_unheld (x : ctx) : ctx :=
  CTx (c_id x) (c_start x) (c_end x) (c_commit x) (c_active x) (c_ro x) (c_aborts x) (c_retry x) (c_rset x) (c_wset x) [].

Definition ctl_abort (t : cthread) : cthread := c_at t (CUnlock (c_held (c_tx t))).

(** One entry of [validate]: the lock word [l] of its address. *)
Definition ctl_validate (l tx_id : Z) (r : ReadLogEntry_wbctl) : bool :=
  negb ((is_locked l && negb (get_owner l =? tx_id)) || (cr_version r <? get_version l)).

(** Where a failed [validate] leads: the callers that try the token, and the others. *)
Definition ctl_invalid (t : cthread) (k : ccaller) : cthread :=
  match k with
  | KRead _ _ _ _ | KSpin _ | KLock _ _ _ => c_at t (CSoft k)
  | KWrite _ | KGap _ | KFinal _ => ctl_abort t
  end.

(** The point a caller goes back to when it continues its loop. *)
Definition ctl_continue (t : cthread) (k : ccaller) : cthread :=
  match k with
  | KRead a sz l spin => c_at t (CRLoop a sz l spin)
  | KSpin w | KWrite w => c_at t (CWGet w)
  | KLock a rem retries => c_at t (CTry a rem retries)
  | KGap cv | KFinal cv => c_at t (CVLoop (KFinal cv) 0 (c_rset (c_tx t)))
  end.

(** Whether an address is near the address [marker] of a local variable. *)
Definition is_stack_addr (marker addr : Z) : bool :=
  let d := if marker <? addr then addr - marker else marker - addr in d <? 32 * 1024 * 1024.

(** The entries the write-back leaves out; [marker] gives the stack of a transaction. *)
Definition ctl_skip (g_tm_expli_mode : bool) (isTMAddress : Z → bool) (marker : Z → Z) (id addr : Z) : bool :=
  negb g_tm_expli_mode && negb (isTMAddress addr) && is_stack_addr (marker id) addr.

Section Steps.
Context (skip : Z → Z → bool).

(** The write-back phase: typed stores, entry by entry. *)
Definition ctl_entry_stores (id : Z) (ae : Z * WriteLogEntry_wbctl) : list (Z * Z) :=
  if skip id ae.1 || low_addr ae.1 then [] else value_stores ae.1 (cw_val ae.2) (cw_type ae.2).
Definition ctl_stores (id : Z) (w : cset) : list (Z * Z) := concat (ctl_entry_stores id <$> ws_vec w).

(** ** Operations called by the program *)

Inductive cop := COpBegin | COpRead (a : Z) (sz : ValueType) | COpWrite (a : Z) (sz : ValueType) (v : any_type_t) | COpCommit.

Definition ctl_call_read (t : cthread) (a : Z) (sz : ValueType) : cthread :=
  match ctl_lookup (c_wset (c_tx t)) a sz with
  | Some v => CT (c_tx t) CIdle (c_log t ++ [EvR a sz (return_any_type sz v)])
  | None =>
      if low_addr a then CT (c_tx t) CIdle (c_log t ++ [EvR a sz (return_any_type sz (AnyT 0))])
      else c_at t (CRGet a sz)
  end.

Definition ctl_call_write (t : cthread) (a : Z) (sz : ValueType) (v : any_type_t) : cthread :=
  match ctl_write_local (c_wset (c_tx t)) a v sz with
  | inl w => CT (ctx_wset (c_tx t) w) CIdle (c_log t ++ [EvW a sz (u8 v)])
  | inr w => c_with t (ctx_wset (c_tx t) w) (CWGet (CAcc a sz v))
  end.

Definition ctl_call (o : cop) (g : wglobal) (t : cthread) : option (wglobal * cthread) :=
  match c_pc t with
  | CIdle =>
      match o with
      | COpBegin => Some (g, if c_active (c_tx t) then t else c_with t (ctx_clear (c_tx t)) CBegin)
      | COpRead a sz => if c_active (c_tx t) && access_ok a sz then Some (g, ctl_call_read t a sz) else None
      | COpWrite a sz v => if c_active (c_tx t) && access_ok a sz then Some (g, ctl_call_write t a sz v) else None
      | COpCommit => if c_active (c_tx t) then Some (g, c_at t CClock) else None
      end
  | _ => None
  end.

(** ** Steps of a call in progress *)

(** [get_clock] waits while the clock is being reset. *)
Definition ctl_clock (g : wglobal) (t : cthread) (k : Z → cthread) : option (wglobal * cthread) :=
  if VERSION_MASK <=? g_clock g then Some (g, t) else Some (g, k (g_clock g)).

Definition ctl_read_step (g : wglobal) (t : cthread) : option (wglobal * cthread) :=
  let x := c_tx t in
  match c_pc t with
  | CRGet a sz => Some (g, c_at t (CRLoop a sz (g_locks g (lock_of a)) 0))
  | CRLoop a sz l spin =>
      Some (g, if is_locked l then
                 if (5000 <? S spin)%nat then ctl_abort t else c_at t (CRLoop a sz (g_locks g (lock_of a)) (S spin))
               else c_at t (CRBytes a sz l spin []))
  | CRBytes a sz l spin bs =>
      let bs' := next_byte g a bs in
      Some (g, c_at t (if all_read sz bs' then CRCheck a sz l spin bs' else CRBytes a sz l spin bs'))
  | CRCheck a sz l spin bs =>
      let l2 := g_locks g (lock_of a) in
      let version := get_version l in
      if negb (l =? l2) then Some (g, c_at t (CRLoop a sz l2 spin))
      else if c_end x <? version then Some (g, c_at t (CEClock (KRead a sz l spin)))
      else
        let v := bytes_value bs in
        Some (g, CT (ctx_read x (CRE sz a version v)) CIdle (c_log t ++ [EvR a sz (return_any_type sz v)]))
  | _ => None
  end.

(** [extend] (the clock, then [validate]), the continuation of each caller, and
    [tm_token_soft_spin]. *)
Definition ctl_validated (g : wglobal) (t : cthread) (k : ccaller) (last : Z) : wglobal * cthread :=
  let x := c_tx t in
  match k with
  | KRead _ _ _ _ | KWrite _ | KGap _ => (g, ctl_continue (c_with t (ctx_extended x last) (c_pc t)) k)
  | KSpin _ => (g, ctl_continue t k)
  | KLock a rem retries =>
      let t' := c_with t (ctx_extended x last) (c_pc t) in
      (g, if (1000 <=? S retries)%nat then ctl_abort t' else ctl_continue t' (KLock a rem (S retries)))
  | KFinal cv =>
      (WG (g_mem g) (g_clock g) (g_locks g) (g_token g) (<[Z.to_nat cv := c_log t]> (g_hist g)) (g_ro g),
       c_at t (CBack cv (ctl_stores (c_id x) (c_wset x))))
  end.

Definition ctl_validate_step (g : wglobal) (t : cthread) : option (wglobal * cthread) :=
  let x := c_tx t in
  match c_pc t with
  | CEClock k => ctl_clock g t (λ last, c_at t (CVLoop k last (c_rset x)))
  | CVLoop k last [] => Some (ctl_validated g t k last)
  | CVLoop k last (r :: rs) =>
      Some (g, if ctl_validate (g_locks g (lock_of (cr_addr r))) (c_id x) r then c_at t (CVLoop k last rs) else ctl_invalid t k)
  | CSoft k => Some (g, if (c_aborts x <? 5) || negb (tm_token_is_free (g_token g)) then ctl_abort t else c_at t (CSoftCas k))
  | CSoftCas k =>
      let '(won, tok) := tm_token_try_acquire (g_token g) (c_id x) in
      Some (set_token g tok, if won then ctl_continue t k else ctl_abort t)
  | _ => None
  end.

(** The lock loop of [write_word_ctl]. *)
Definition ctl_write_step (g : wglobal) (t : cthread) : option (wglobal * cthread) :=
  let x := c_tx t in
  match c_pc t with
  | CWGet w =>
      let l := g_locks g (lock_of (ca_addr w)) in
      Some (g, if is_locked l then c_at t (CVLoop (KSpin w) 0 (c_rset x)) else c_at t (CWCheck w l))
  | CWCheck w l =>
      let l2 := g_locks g (lock_of (ca_addr w)) in
      let version := get_version l2 in
      if negb (l =? l2) then Some (g, c_at t (CWGet w))
      else if c_end x <? version then Some (g, c_at t (CEClock (KWrite w)))
      else
        let e := CWE (ca_sz w) (ca_addr w) version (ca_val w) in
        let x' := ctx_wset x (ws_put cwe_none (c_wset x) (ca_addr w) e) in
        Some (g, CT (ctx_read x' (CRE (ca_sz w) (ca_addr w) version (ca_val w))) CIdle
                    (c_log t ++ [EvW (ca_addr w) (ca_sz w) (u8 (ca_val w))]))
  | _ => None
  end.

(** The addresses of the write set in the order of acquisition. *)
Definition sorted_addrs (w : cset) : list Z := merge_sort (≤) (ws_vec w).*1.

(** [commit]: the locks, the clock, the write-back and the release. *)
Definition ctl_lock_step (g : wglobal) (t : cthread) : option (wglobal * cthread) :=
  let x := c_tx t in
  match c_pc t with
  | CClock =>
      if VERSION_MASK <=? g_clock g then Some (g, t)
      else if c_ro x then
        Some (WG (g_mem g) (g_clock g) (g_locks g) (g_token g) (g_hist g) ((c_start x, c_end x, c_log t) :: g_ro g),
              c_at t (CTok (g_clock g)))
      else Some (g, c_at t (CAddr (sorted_addrs (c_wset x))))
  | CAddr [] => Some (g, c_at t CIncr)
  | CAddr (a :: rem) =>
      Some (g, if low_addr a then c_at t (CAddr rem)
               else if get_owner (g_locks g (lock_of a)) =? c_id x then c_at t (CAddr rem) else c_at t (CTry a rem 0))
  | CTry a rem retries =>
      Some (g, match try_lock_words (g_locks g (lock_of a)) (c_id x) with
               | None => c_at t (CEClock (KLock a rem retries))
               | Some (expected, desired) => c_at t (CCas a rem retries expected desired)
               end)
  | CCas a rem retries expected desired =>
      let '(won, s') := compare_exchange_strong (g_locks g (lock_of a)) expected desired in
      Some (if won then (set_lock g (lock_of a) s', c_with t (ctx_hold x (lock_of a)) (CAddr rem))
            else (g, c_at t (CEClock (KLock a rem retries))))
  | CIncr =>
      let res := g_clock g + 1 in
      if VERSION_MAX <=? res then None
      else
        let g' := WG (g_mem g) res (g_locks g) (g_token g) (g_hist g) (g_ro g) in
        Some (g', if res <? c_end x then ctl_abort t
                  else if negb (res =? c_end x + 1) then c_at t (CEClock (KGap res))
                  else c_at t (CVLoop (KFinal res) 0 (c_rset x)))
  | _ => None
  end.

(** The release of the locks, entry by entry; a lock shared by several entries is skipped
    once it is free. *)
Definition ctl_release_step (g : wglobal) (t : cthread) : option (wglobal * cthread) :=
  let x := c_tx t in
  match c_pc t with
  | CBack cv ((a, b) :: st) =>
      Some (WG (<[a := b]> (g_mem g)) (g_clock g) (g_locks g) (g_token g) (g_hist g) (g_ro g), c_at t (CBack cv st))
  | CBack cv [] => Some (g, c_at t (CRel cv (ws_vec (c_wset x)).*1))
  | CRel cv (a :: es) =>
      Some (g, if low_addr a then c_at t (CRel cv es)
               else if is_locked_by (g_locks g (lock_of a)) (c_id x) then c_at t (CRelVersion cv a es) else c_at t (CRel cv es))
  | CRelVersion cv a es =>
      if cv <? get_version (g_locks g (lock_of a)) then
        match unlock (g_locks g (lock_of a)) (c_id x) with
        | Released s' => Some (set_lock g (lock_of a) s', c_at t (CRel cv es))
        | _ => Some (g, c_at t (CRel cv es))
        end
      else Some (g, c_at t (CRelUnlock cv a es))
  | CRelUnlock cv a es =>
      s' ← unlock_with_version (g_locks g (lock_of a)) (c_id x) cv; Some (set_lock g (lock_of a) s', c_at t (CRel cv es))
  | CRel cv [] => Some (g, c_with t (ctx_unheld x) (CTok cv))
  | CTok cv => Some (set_token g (tm_token_release (g_token g)), CT (ctx_reset x cv) CIdle [])
  | _ => None
  end.

(** [abort_tx]: [unlock] of every held lock, in its three accesses; then the jump back,
    with the transaction still marked active. *)
Definition ctl_abort_step (g : wglobal) (t : cthread) : option (wglobal * cthread) :=
  let x := c_tx t in
  match c_pc t with
  | CUnlock (l :: ls) => Some (g, c_at t (if is_locked (g_locks g l) then COwner l ls else CUnlock ls))
  | COwner l ls => Some (g, c_at t (if get_owner (g_locks g l) =? c_id x then CClear l ls else CUnlock ls))
  | CClear l ls =>
      Some (set_lock g l (g_locks g l .& (not64 OWNED_MASK .& not64 (THREAD_MASK .<< LOCK_BITS))), c_at t (CUnlock ls))
  | CUnlock [] => Some (g, c_with t (ctx_aborted (ctx_clear x)) CUntok)
  | CUntok => Some (set_token g (tm_token_release_if_held (g_token g) (c_id x)), CT x CIdle [])
  | _ => None
  end.

Definition ctl_step (g : wglobal) (t : cthread) : option (wglobal * cthread) :=
  match c_pc t with
  | CIdle => None
  | CBegin => ctl_clock g t (λ clock, CT (ctx_begin (c_tx t) clock) CIdle [])
  | CRGet _ _ | CRLoop _ _ _ _ | CRBytes _ _ _ _ _ | CRCheck _ _ _ _ _ => ctl_read_step g t
  | CEClock _ | CVLoop _ _ _ | CSoft _ | CSoftCas _ => ctl_validate_step g t
  | CWGet _ | CWCheck _ _ => ctl_write_step g t
  | CClock | CAddr _ | CTry _ _ _ | CCas _ _ _ _ _ | CIncr => ctl_lock_step g t
  | CBack _ _ | CRel _ _ | CRelVersion _ _ _ | CRelUnlock _ _ _ | CTok _ => ctl_release_step g t
  | CUnlock _ | COwner _ _ | CClear _ _ | CUntok => ctl_abort_step g t
  end.

(** ** Interleaved executions *)

Inductive cexec_step : wglobal * list cthread → wglobal * list cthread → Prop :=
  | cexec_call g ts i t o g' t' :
      ts !! i = Some t → ctl_call o g t = Some (g', t') → cexec_step (g, ts) (g', <[i := t']> ts)
  | cexec_run g ts i t g' t' :
      ts !! i = Some t → ctl_step g t = Some (g', t') → cexec_step (g, ts) (g', <[i := t']> ts).

(** [init_thread]: thread ids count from one. *)
Definition cthread_init (id : Z) : cthread := CT (CTx id 0 0 0 false true 0 false [] (WSet [] ∅) []) CIdle [].

Inductive creachable (m : mem) (n : nat) : wglobal * list cthread → Prop :=
  | creach_init : creachable m n (winit m, cthread_init <$> seqZ 1 (Z.of_nat n))
  | creach_step s s' : creachable m n s → cexec_step s s' → creachable m n s'.

Definition csched (s : wglobal * list cthread) (io : nat * option cop) : option (wglobal * list cthread) :=
  t ← s.2 !! io.1;
  gt ← match io.2 with Some o => ctl_call o s.1 t | None => ctl_step s.1 t end;
  Some (gt.1, <[io.1 := gt.2]> s.2).

Fixpoint crun (s : wglobal * list cthread) (l : list (nat * option cop)) : option (wglobal * list cthread) :=
  match l with
  | [] => Some s
  | io :: l' => s' ← csched s io; crun s' l'
  end.

Lemma crun_reachable m n s l s' : creachable m n s → crun s l = Some s' → creachable m n s'.
Proof.
  revert s. induction l as [|[i o] l IH]; intros s Hr; cbn [crun]; [by intros [= <-]|]. destruct (csched s (i, o)) as [s1|] eqn:Hs; [|done].
  apply IH. eapply creach_step; [done|]. destruct s as [g ts]. unfold csched in Hs. simpl in Hs. destruct (ts !! i) as [t|] eqn:Ht; [|done]. simpl in Hs.
  destruct o as [o|].
  - destruct (ctl_call o g t) as [[g' t']|] eqn:Hc; [|done]. injection Hs as <-. by eapply cexec_call.
  - destruct (ctl_step g t) as [[g' t']|] eqn:Hc; [|done]. injection Hs as <-. by eapply cexec_run.
Qed.
End Steps.
