(* ===== verification/WBCTLLog.v ===== *)
(** * Write sets with commit-time locking against serial execution

    What a write set of typed entries denotes byte by byte, which reads the lookups of
    [read_word_ctl] serve and with which value, and the relation [clog_ok] between the log of
    a transaction and its write set.  The discipline [ctl_transparent]: writes repeat the
    address and type of an earlier one or are disjoint from all of them; reads are
    disjoint from them, or inside one in a way the lookups know, or of bytes written one by
    one; no access is to low memory, no write to a stack. *)

From S2P Require Import Prelude Memory Values TMSpec LogMerge TxLog TinyLock TinyWriteSet TinyShared WBCTL.
#[local] Open Scope Z_scope.
#[local] Open Scope word_scope.

Implicit Types (w : wset WriteLogEntry_wbctl) (e : WriteLogEntry_wbctl) (sz : ValueType).

(** ** Discipline *)

Definition sub_word (sz : ValueType) : bool := bool_decide (sz = UINT8 ∨ sz = UINT16 ∨ sz = UINT32).

(** The reads an entry of type [w.2] at [w.1] serves. *)
Definition served (a : Z) sz (w : Z * ValueType) : bool :=
  bool_decide (w.1 = a ∧ (w.2 = sz ∨ (sz = POINTER ∧ w.2 = UINT64) ∨ (sz = UINT64 ∧ w.2 = POINTER) ∨
    (sz = UINT8 ∧ (w.2 = UINT64 ∨ w.2 = UINT32 ∨ w.2 = UINT16)) ∨ (sz = UINT16 ∧ w.2 = UINT64) ∨ (sz = UINT32 ∧ w.2 = UINT64))) ||
  (negb (offset (ByteOffset_of a) =? 0) &&
    ((bool_decide (w.1 = base_addr (ByteOffset_of a) ∧ w.2 = UINT64) && sub_word sz) ||
     (bool_decide (w.1 = a .& not64 3 ∧ w.2 = UINT32) && (bool_decide (sz = UINT8) || bool_decide (sz = UINT16) && (a - (a .& not64 3) <=? 2))) ||
     (bool_decide (w.1 = a .& not64 1 ∧ w.2 = UINT16) && bool_decide (sz = UINT8)))).

Definition bytes_written (acc : list (Z * ValueType)) (a : Z) sz : bool :=
  forallb (λ i, bool_decide ((a + i, UINT8) ∈ acc)) (seqZ 0 (nbytes_of sz)).

Section Discipline.
Context (skip : Z → Z → bool) (n : nat).

Definition not_stack (a : Z) : bool := forallb (λ id, negb (skip id a)) (seqZ 1 (Z.of_nat n)).

Definition ctl_write_fits (acc : list (Z * ValueType)) (a : Z) sz : bool :=
  negb (low_addr a) && not_stack a && forallb (λ p, bool_decide (p = (a, sz)) || apart a sz p.1 p.2) acc.
Definition ctl_read_fits (acc : list (Z * ValueType)) (a : Z) sz : bool :=
  negb (low_addr a) && (forallb (λ p, apart a sz p.1 p.2) acc || existsb (served a sz) acc || bytes_written acc a sz).
Definition ctl_transparent (evs : list event) : bool := obeys ctl_write_fits ctl_read_fits [] evs.
End Discipline.

(** ** Entries *)

Definition e_covers (a : Z) e (x : Z) : Prop := in_acc a (cw_type e) x.

Record cset_ok w : Prop := CsetOk {
  co_wf : wset_wf w;
  co_acc : ∀ a e, wset_map w !! a = Some e → access_ok a (cw_type e) = true;
}.

(** Entries overlap only with themselves. *)
Definition c_separate w : Prop :=
  ∀ a1 e1 a2 e2 x, wset_map w !! a1 = Some e1 → wset_map w !! a2 = Some e2 → e_covers a1 e1 x → e_covers a2 e2 x → a1 = a2.

Lemma cset_ok_empty : cset_ok (WSet [] ∅).
Proof. split; [split; [apply NoDup_nil_2|by left]|]. intros a e. unfold wset_map. simpl. by rewrite lookup_empty. Qed.

Section Stores.
Context (skip : Z → Z → bool) (id : Z).
#[local] Abbreviation stores := (ctl_stores skip id).

(** Entries the write-back does not skip. *)
Definition kept (a : Z) : Prop := skip id a = false ∧ low_addr a = false.

Lemma entry_stores_in a e x :
  x ∈ (ctl_entry_stores skip id (a, e)).*1 → e_covers a e x.
Proof.
  unfold ctl_entry_stores. simpl. destruct (_ || _); [by intros ?%elem_of_nil|]. intros Hx%value_stores_range. unfold e_covers, in_acc, nbytes_of. lia.
Qed.

Lemma ctl_stores_in w x : wset_wf w → x ∈ (stores w).*1 → ∃ a e, wset_map w !! a = Some e ∧ e_covers a e x ∧ kept a.
Proof.
  intros [Hn _] Hx. apply list_elem_of_fmap in Hx as ([y b] & -> & Hx). unfold ctl_stores in Hx.
  apply list_elem_of_In, in_concat in Hx as (l & Hl%list_elem_of_In & Hyb%list_elem_of_In). apply list_elem_of_fmap in Hl as ([a e] & -> & Hin).
  exists a, e. split; [by apply elem_of_list_to_map_1|]. split.
  - apply entry_stores_in. by apply (list_elem_of_fmap_2 fst) in Hyb.
  - unfold ctl_entry_stores, kept in *. simpl in Hyb. destruct (skip id a), (low_addr a); simpl in Hyb; try done; by apply elem_of_nil in Hyb.
Qed.

Lemma ctl_stores_out w m x : wset_wf w → (∀ a e, wset_map w !! a = Some e → ¬ e_covers a e x) → mget (wr m (stores w)) x = mget m x.
Proof. intros Hwf Hn. unfold mget. rewrite wr_lookup_ne; [done|]. intros (a & e & He & Hc & _)%ctl_stores_in; [|done]. by eapply Hn. Qed.

Lemma value_store_byte m a v sz x : mget (wr m (value_stores a v sz)) x = if decide (in_acc a sz x) then byte_at (u8 v) (x - a) else mget m x.
Proof. apply (write_value_mget m a v sz x). Qed.

Lemma ctl_stores_at w m a e x :
  wset_wf w → c_separate w → wset_map w !! a = Some e → kept a → e_covers a e x → mget (wr m (stores w)) x = byte_at (u8 (cw_val e)) (x - a).
Proof.
  intros [Hn _] Hs He [Hk1 Hk2] Hc. unfold ctl_stores.
  assert (Hsep : ∀ a' e', (a', e') ∈ ws_vec w → e_covers a' e' x → a' = a).
  { intros a' e' Hin Hc'. apply elem_of_list_to_map_1 in Hin; [|done]. by eapply (Hs a' e' a e). }
  apply elem_of_list_to_map_2 in He. clear Hs. revert m. induction (ws_vec w) as [|[a' e'] vec IH]; intros m; [by apply elem_of_nil in He|].
  cbn [fmap list_fmap concat]. rewrite wr_app. simpl in Hn. apply NoDup_cons in Hn as [Hni Hn].
  apply elem_of_cons in He as [[= <- <-]|He].
  - unfold mget at 1. rewrite wr_lookup_ne.
    + change (mget (wr m (ctl_entry_stores skip id (a, e))) x = byte_at (u8 (cw_val e)) (x - a)). unfold ctl_entry_stores. simpl.
      rewrite Hk1, Hk2. cbn [orb]. rewrite value_store_byte. by rewrite decide_True.
    + intros Hx. apply list_elem_of_fmap in Hx as ([y b] & -> & Hx). apply list_elem_of_In, in_concat in Hx as (l & Hl%list_elem_of_In & Hyb%list_elem_of_In).
      apply list_elem_of_fmap in Hl as ([a2 e2] & -> & Hin). apply (list_elem_of_fmap_2 fst) in Hyb. apply entry_stores_in in Hyb. simpl in *.
      assert (a2 = a) as -> by (apply (Hsep a2 e2); [by right|done]). apply Hni. by apply (list_elem_of_fmap_2 fst) in Hin.
  - apply IH; [done|done|]. intros a2 e2 Hin. apply Hsep. by right.
Qed.

(** A read inside one entry. *)
Lemma c_read_inside w m a' e a sz :
  wset_wf w → c_separate w → wset_map w !! a' = Some e → kept a' → a' ≤ a → a + nbytes_of sz ≤ a' + nbytes_of (cw_type e) →
  return_any_type sz (read_value_from_addr (wr m (stores w)) a sz) = wrap (8 * nbytes_of sz) (u8 (cw_val e) .>> (8 * (a - a'))).
Proof.
  intros Hwf Hs He Hk Hlo Hhi. pose proof (nbytes_range sz). rewrite return_read.
  replace (load_bytes _ a _) with (le_bytes (type_size sz) (u8 (cw_val e) .>> (8 * (a - a')))).
  - rewrite le_word_le_bytes. unfold nbytes_of. apply wrap_idem. lia.
  - apply list_eq_same_length with (n := type_size sz); [by rewrite length_load_bytes|by rewrite length_le_bytes|].
    intros k b b' Hk' Hb Hb'. rewrite le_bytes_at in Hb by done. rewrite load_bytes_prefix in Hb' by done. injection Hb as <-. injection Hb' as <-.
    rewrite byte_at_shift by lia. rewrite (ctl_stores_at w m a' e) by (done || (unfold e_covers, in_acc, nbytes_of in *; lia)). f_equal. lia.
Qed.

(** One-byte entries put together. *)
Lemma ctl_merge_value w m a k i merged v :
  cset_ok w → c_separate w → (∀ a' e, wset_map w !! a' = Some e → kept a') →
  is_w 64 a → a + i + Z.of_nat k ≤ 2 ^ 64 → 0 ≤ i → i + Z.of_nat k ≤ 8 → is_w (8 * i) merged →
  ctl_merge w a k i merged = Some v → v = merged + 2 ^ (8 * i) * le_word (load_bytes (wr m (stores w)) (a + i) k).
Proof.
  intros [Hwf _] Hs Hk Ha. revert i merged. induction k as [|k IH]; intros i merged Hr Hi Hi8 Hm; cbn [ctl_merge load_bytes le_word]; [intros [= ->]; lia|].
  unfold wrap64, wrap. rewrite Z.mod_small by (unfold is_w in Ha; lia). rewrite ws_find_lookup by done.
  destruct (wset_map w !! (a + i)) as [e|] eqn:He; [|done]. case_bool_decide as Ht; [|done].
  rewrite (ctl_stores_at w m (a + i) e); [|by try eapply Hk..|unfold e_covers, in_acc; rewrite Ht; unfold nbytes_of; simpl; lia].
  rewrite Z.sub_diag. unfold byte_at. rewrite Z.mul_0_r, Z.shiftr_0_r. fold (u1 (cw_val e)). set (b := u1 (cw_val e)).
  assert (is_w 8 b) as Hb by (apply wrap_is_w; lia). intros Hv. destruct (merge_byte merged b i) as (Hlor & Hw & Hp); [lia|done..|].
  rewrite Hlor in *. apply IH in Hv; [|lia..|done]. rewrite Hv, Hp. replace (a + (i + 1)) with (a + i + 1) by lia. lia.
Qed.
End Stores.

Lemma ctl_merge_some w a k i merged :
  cset_ok w → is_w 64 a → 0 ≤ i → a + i + Z.of_nat k ≤ 2 ^ 64 → (∀ j, i ≤ j < i + Z.of_nat k → ∃ e, wset_map w !! (a + j) = Some e ∧ cw_type e = UINT8) →
  is_Some (ctl_merge w a k i merged).
Proof.
  intros [Hwf _] Ha. revert i merged. induction k as [|k IH]; intros i merged Hi Hr He; cbn [ctl_merge]; [by eexists|].
  unfold wrap64, wrap. rewrite Z.mod_small by (unfold is_w in Ha; lia). destruct (He i) as (e & Hin & Ht); [lia|]. rewrite ws_find_lookup, Hin by done.
  rewrite bool_decide_true by done. apply IH; [lia..|]. intros j ?. apply He. lia.
Qed.

(** ** Reads served by the write set *)

Lemma access_end a sz : access_ok a sz = true → is_w 64 a ∧ a mod 8 + nbytes_of sz ≤ 8 ∧ a + nbytes_of sz ≤ 2 ^ 64.
Proof.
  intros [Ha Hw]%access_ok_spec. unfold in_word in Hw. rewrite byte_offset_mod in Hw. split; [done|]. split; [done|].
  pose proof (Z.div_mod a 8). unfold is_w in Ha. assert (a / 8 < 2 ^ 61) by (apply Z.div_lt_upper_bound; lia). lia.
Qed.

Lemma any_of_value sz v : return_any_type sz (any_of v) = wrap (8 * nbytes_of sz) v.
Proof. unfold return_any_type. pose proof (type_size_range sz). by rewrite any_get_wrap by lia. Qed.

Lemma any_value sz v : return_any_type sz v = wrap (8 * nbytes_of sz) (u8 v).
Proof. unfold return_any_type. pose proof (type_size_range sz). by rewrite any_get_wrap by lia. Qed.

(** Members of the union seen through narrower ones. *)
Lemma wrap_shift k l v s : 0 ≤ s → 0 ≤ k → k + s ≤ l → wrap k (wrap l v .>> s) = wrap k (v .>> s).
Proof. intros. apply Z.bits_inj'. intros i Hi. rewrite !testbit_wrap, !Z.shiftr_spec, testbit_wrap by lia. zcmp; simpl; try lia; done. Qed.

Lemma wrap_wrap k l v : 0 ≤ k ≤ l → wrap k (wrap l v) = wrap k v.
Proof. intros. apply Z.bits_inj'. intros i Hi. rewrite !testbit_wrap by lia. zcmp; simpl; try lia; done. Qed.

(** What a lookup found: a value that an entry containing the access gives, or merged bytes. *)
Definition hit_at w (a : Z) sz (v : any_type_t) : Prop :=
  (∃ a' e, wset_map w !! a' = Some e ∧ a' ≤ a ∧ a + nbytes_of sz ≤ a' + nbytes_of (cw_type e) ∧
     return_any_type sz v = wrap (8 * nbytes_of sz) (u8 (cw_val e) .>> (8 * (a - a')))) ∨
  (∃ r, ctl_merge w a (type_size sz) 0 0 = Some r ∧ v = any_of r).

Lemma ctl_exact_hit w e a sz v :
  wset_map w !! a = Some e → ctl_exact w e a sz = FHit v → hit_at w a sz v.
Proof.
  intros He. unfold ctl_exact. change 0xFFFFFFFF with (Z.ones 32). change 0xFFFF with (Z.ones 16). change 0xFF with (Z.ones 8).
  intros H1.
  assert (Hat : nbytes_of sz ≤ nbytes_of (cw_type e) → return_any_type sz v = wrap (8 * nbytes_of sz) (u8 (cw_val e)) → hit_at w a sz v).
  { intros ? Hv. left. exists a, e. split_and!; [done|lia|lia|]. by rewrite Z.sub_diag, Z.mul_0_r, Z.shiftr_0_r. }
  case_bool_decide as H2; [injection H1 as <-; apply Hat; [by rewrite H2|apply any_value]|]. clear H2.
  case_bool_decide as H2.
  { injection H1 as <-. apply Hat; [by destruct H2 as [[-> ->]|[-> ->]]|apply any_value]. }
  clear H2. case_bool_decide as H2.
  { destruct (ctl_merge w a 8 0 0) as [r|] eqn:Hm; [|done]. injection H1 as <-. right. exists r. by destruct H2 as [[->| ->] _]. }
  clear H2. do 5 (case_bool_decide as H2; [destruct H2 as [-> Ht]; injection H1 as <-; apply Hat;
    [by rewrite Ht|rewrite any_of_value; unfold u4, u2; rewrite land_low by done; try rewrite wrap_wrap by done; done]|clear H2]). done.
Qed.

(** Rounding an address down inside its word. *)
Lemma round_down a k : is_w 64 a → 0 ≤ k ≤ 64 → ∃ r, a = a .& not64 (Z.ones k) + r ∧ 0 ≤ r < 2 ^ k ∧ (a .& not64 (Z.ones k)) mod 2 ^ k = 0.
Proof.
  intros Ha Hk. rewrite align_low by done. exists (a mod 2 ^ k). pose proof (Z.mod_pos_bound a (2 ^ k)). pose proof (Z.div_mod a (2 ^ k)).
  split_and!; [lia..|]. rewrite Z.mul_comm. apply Z.mod_mul. lia.
Qed.

Lemma base_split a : is_w 64 a → base_addr (ByteOffset_of a) + offset (ByteOffset_of a) = a ∧ offset (ByteOffset_of a) = a mod 8.
Proof.
  intros Ha. destruct (ByteOffset_split a Ha) as (H1 & H2 & H3). split; [done|]. rewrite <- H1 at 2. rewrite Z.add_mod, H2, Z.add_0_l, Z.mod_mod by lia.
  by rewrite Z.mod_small.
Qed.

Lemma ctl_in64_hit w a sz v :
  cset_ok w → access_ok a sz = true → ctl_in64 w a sz = Some v → hit_at w a sz v.
Proof.
  intros [Hwf _] (Ha & Hin & _)%access_end. destruct (base_split a Ha) as [Hb Ho]. pose proof (Z.mod_pos_bound a 8). unfold ctl_in64. rewrite ws_find_lookup by done.
  intros (e & He & Hv)%bind_Some. case_bool_decide as Ht; [|done]. left. exists (base_addr (ByteOffset_of a)), e. rewrite Ht. change (nbytes_of UINT64) with 8.
  split_and!; [done|lia|lia|]. replace (a - _) with (offset (ByteOffset_of a)) by lia. rewrite (Z.mul_comm 8 (offset _)).
  destruct sz; try done; injection Hv as <-; rewrite any_of_value; apply wrap_wrap; done.
Qed.

Lemma ctl_in32_hit w a sz v :
  cset_ok w → access_ok a sz = true → ctl_in32 w a sz = Some v → hit_at w a sz v.
Proof.
  intros [Hwf _] (Ha & Hin & _)%access_end. unfold ctl_in32. rewrite ws_find_lookup by done. intros (e & He & Hv)%bind_Some. case_bool_decide as Ht; [|done].
  destruct (round_down a 2 Ha) as (r & Hr & Hr2 & _); [done|]. change (Z.ones 2) with 3 in *. set (b := a .& not64 3) in *. left. exists b, e. rewrite Ht. change (nbytes_of UINT32) with 4.
  change (2 ^ 2) with 4 in Hr2. rewrite (Z.mul_comm 8 (a - b)). destruct sz; try done; [|destruct (Z.leb_spec (a - b) 2); [|done]]; injection Hv as <-.
  all: rewrite any_of_value; unfold nbytes_of; cbn [type_size]; split_and!; [done|lia|lia|].
  all: rewrite wrap_wrap by done; unfold u4; apply wrap_shift; lia.
Qed.

Lemma ctl_in16_hit w a sz v :
  cset_ok w → access_ok a sz = true → ctl_in16 w a sz = Some v → hit_at w a sz v.
Proof.
  intros [Hwf _] (Ha & Hin & _)%access_end. unfold ctl_in16. rewrite ws_find_lookup by done. intros (e & He & Hv)%bind_Some.
  destruct (_ && _) eqn:Hc in Hv; [|done]. rewrite !andb_true_iff, !bool_decide_eq_true, Z.ltb_lt in Hc. destruct Hc as [[Ht Hlt] ->]. injection Hv as <-.
  destruct (round_down a 1 Ha) as (r & Hr & Hr2 & _); [done|]. change (Z.ones 1) with 1 in *. set (b := a .& not64 1) in *. left. exists b, e. rewrite Ht. change (nbytes_of UINT16) with 2.
  change (2 ^ 1) with 2 in Hr2. rewrite (Z.mul_comm 8 (a - b)), any_of_value. change (nbytes_of UINT8) with 1. split_and!; [done|lia|lia|].
  rewrite wrap_wrap by done. unfold u2. apply wrap_shift; lia.
Qed.

Lemma ctl_lookup_hit_at w a sz v : cset_ok w → access_ok a sz = true → ctl_lookup w a sz = Some v → hit_at w a sz v.
Proof.
  intros Hok Ha. pose proof Hok as [Hwf _]. unfold ctl_lookup.
  assert (Hrest : ctl_or (ctl_bytes w a sz) (if offset (ByteOffset_of a) =? 0 then None
     else ctl_or (ctl_in64 w a sz) (ctl_or (ctl_in32 w a sz) (ctl_in16 w a sz))) = Some v → hit_at w a sz v).
  { unfold ctl_or. destruct (ctl_bytes w a sz) as [v1|] eqn:H1.
    - intros [= <-]. unfold ctl_bytes in H1. apply fmap_Some in H1 as (r & Hr & ->). right. by exists r.
    - destruct (offset (ByteOffset_of a) =? 0); [done|]. destruct (ctl_in64 w a sz) as [v2|] eqn:H2; [intros [= <-]; by apply ctl_in64_hit|].
      destruct (ctl_in32 w a sz) as [v3|] eqn:H3; [intros [= <-]; by apply ctl_in32_hit|]. by apply ctl_in16_hit. }
  rewrite ws_find_lookup by done. destruct (wset_map w !! a) as [e|] eqn:He; [|done]. destruct (ctl_exact w e a sz) as [v1| |] eqn:H1; [|done|done].
  intros [= <-]. by eapply ctl_exact_hit.
Qed.

(** The value a lookup returns is the one the write-back leaves. *)
Lemma ctl_lookup_value skip id w m a sz v :
  cset_ok w → c_separate w → (∀ a' e, wset_map w !! a' = Some e → kept skip id a') → access_ok a sz = true → ctl_lookup w a sz = Some v →
  return_any_type sz v = return_any_type sz (read_value_from_addr (wr m (ctl_stores skip id w)) a sz).
Proof.
  intros Hok Hs Hk Ha. destruct (access_end a sz Ha) as (Hw & _ & Hend). pose proof (nbytes_range sz).
  intros [(a' & e & He & Hlo & Hhi & ->)|(r & Hr & ->)]%ctl_lookup_hit_at; try done.
  - symmetry. apply c_read_inside; try done; [apply Hok|by eapply Hk].
  - rewrite any_of_value, return_read. f_equal. apply (ctl_merge_value skip id w m) in Hr; try done; unfold is_w, nbytes_of in *; try lia.
    rewrite Hr, Z.add_0_r. lia.
Qed.

(** ** Reads the write set serves *)

Lemma ctl_or_some {A} (o1 o2 : option A) : is_Some o1 ∨ is_Some o2 → is_Some (ctl_or o1 o2).
Proof. destruct o1; simpl; [by eexists|]. by intros [[? ?]|?]. Qed.

Definition ctl_rest w (a : Z) sz : option any_type_t :=
  ctl_or (ctl_bytes w a sz) (if offset (ByteOffset_of a) =? 0 then None
    else ctl_or (ctl_in64 w a sz) (ctl_or (ctl_in32 w a sz) (ctl_in16 w a sz))).

Lemma ctl_lookup_rest w a sz :
  cset_ok w → is_Some (ctl_rest w a sz) → (∀ e, wset_map w !! a = Some e → ctl_exact w e a sz ≠ FMemory) → is_Some (ctl_lookup w a sz).
Proof.
  intros [Hwf _] Hr Hx. unfold ctl_lookup. rewrite ws_find_lookup by done. destruct (wset_map w !! a) as [e|]; [|done].
  specialize (Hx e eq_refl). destruct (ctl_exact w e a sz); [by eexists|done|done].
Qed.

(** The jump to memory needs a narrower entry under an eight-byte read. *)
Lemma ctl_exact_memory w e a sz :
  ctl_exact w e a sz = FMemory → (sz = UINT64 ∨ sz = POINTER) ∧ (cw_type e = UINT8 ∨ cw_type e = UINT16 ∨ cw_type e = UINT32) ∧ ctl_merge w a 8 0 0 = None.
Proof.
  unfold ctl_exact. do 2 (case_bool_decide; [done|]). case_bool_decide as H2; [|by repeat case_bool_decide].
  destruct (ctl_merge w a 8 0 0); [done|]. by destruct H2.
Qed.

Lemma served_exact w e a sz :
  cset_ok w → wset_map w !! a = Some e →
  cw_type e = sz ∨ (sz = POINTER ∧ cw_type e = UINT64) ∨ (sz = UINT64 ∧ cw_type e = POINTER) ∨
  (sz = UINT8 ∧ (cw_type e = UINT64 ∨ cw_type e = UINT32 ∨ cw_type e = UINT16)) ∨ (sz = UINT16 ∧ cw_type e = UINT64) ∨ (sz = UINT32 ∧ cw_type e = UINT64) →
  is_Some (ctl_lookup w a sz).
Proof.
  intros [Hwf _] He Hs. unfold ctl_lookup. rewrite ws_find_lookup, He by done. unfold ctl_exact.
  destruct Hs as [->|[[-> ->]|[[-> ->]|[[-> [->|[->| ->]]]|[[-> ->]|[-> ->]]]]]]; [by rewrite bool_decide_true|by eexists..].
Qed.

Lemma served_lookup w a sz a' e :
  cset_ok w → is_w 64 a → wset_map w !! a' = Some e → served a sz (a', cw_type e) = true → is_Some (ctl_lookup w a sz).
Proof.
  intros Hok Ha He. pose proof Hok as [Hwf _]. unfold served. rewrite orb_true_iff, andb_true_iff, !orb_true_iff, !andb_true_iff, negb_true_iff, !bool_decide_eq_true.
  cbn [fst snd]. intros [[-> Hs]|[Hof Hs]]; [by eapply served_exact|].
  assert (Hsz : sz = UINT8 ∨ sz = UINT16 ∨ sz = UINT32).
  { unfold sub_word in Hs. rewrite orb_true_iff, andb_true_iff, !bool_decide_eq_true in Hs. destruct Hs as [[[_ ?]|[_ [?|[? _]]]]|[_ ?]]; auto. }
  apply ctl_lookup_rest; [done|unfold ctl_rest; rewrite Hof; apply ctl_or_some; right|].
  2: { intros e' _ ([-> | ->] & _)%ctl_exact_memory; by destruct Hsz as [?|[?|?]]. }
  destruct Hs as [[[[-> Ht] _]|[[-> Ht] Hs]]|[[-> Ht] ->]].
  - apply ctl_or_some. left. unfold ctl_in64. rewrite ws_find_lookup, He by done. simpl. rewrite bool_decide_true by done.
    destruct Hsz as [->|[->| ->]]; by eexists.
  - apply ctl_or_some. right. apply ctl_or_some. left. unfold ctl_in32. rewrite ws_find_lookup, He by done. simpl. rewrite bool_decide_true by done.
    rewrite orb_true_iff, andb_true_iff, !bool_decide_eq_true in Hs. destruct Hs as [->|[-> ->]]; by eexists.
  - apply ctl_or_some. right. apply ctl_or_some. right. unfold ctl_in16. rewrite ws_find_lookup, He by done. simpl. rewrite !bool_decide_true by done.
    destruct (round_down a 1 Ha) as (r & Hr & Hr2 & _); [done|]. change (Z.ones 1) with 1 in *. change (2 ^ 1) with 2 in Hr2.
    destruct (Z.ltb_spec (a - (a .& not64 1)) 2); [by eexists|lia].
Qed.

Lemma bytes_lookup w a sz :
  cset_ok w → access_ok a sz = true → (∀ i, 0 ≤ i < nbytes_of sz → ∃ e, wset_map w !! (a + i) = Some e ∧ cw_type e = UINT8) → is_Some (ctl_lookup w a sz).
Proof.
  intros Hok (Ha & _ & Hend)%access_end He. destruct (ctl_merge_some w a (type_size sz) 0 0) as [r Hr]; [done|done|done|unfold nbytes_of in *; lia|done|].
  apply ctl_lookup_rest; [done|..].
  - unfold ctl_rest. apply ctl_or_some. left. unfold ctl_bytes. rewrite Hr. by eexists.
  - intros e _ ([-> | ->] & _ & Hn)%ctl_exact_memory; by pose proof (eq_trans (eq_sym Hn) Hr).
Qed.

(** ** Writing to the write set *)

(** A write that overlaps only an entry of its own address and type. *)
Definition no_overlap w (a : Z) sz : Prop :=
  ∀ a' e x, wset_map w !! a' = Some e → e_covers a' e x → in_acc a sz x → a' = a ∧ cw_type e = sz.

(** The write set after a write: no entry of a type never written; an entry more, or
    replaced, when nothing overlaps. *)
Record written w (a : Z) sz (v : any_type_t) (w' : wset WriteLogEntry_wbctl) : Prop := Written {
  wn_wf : wset_wf w';
  wn_types : ∀ a' e', wset_map w' !! a' = Some e' → (∃ e, wset_map w !! a' = Some e ∧ cw_type e = cw_type e') ∨ (a' = a ∧ cw_type e' = sz);
  wn_map : no_overlap w a sz → ∃ e', cw_type e' = sz ∧ cw_val e' = v ∧ wset_map w' = <[a := e']> (wset_map w);
}.

Lemma ctl_set_map w a v :
  wset_wf w → wset_wf (ctl_set w a v) ∧ (∀ e, wset_map w !! a = Some e → wset_map (ctl_set w a v) = <[a := cwe_set e v]> (wset_map w)).
Proof.
  intros Hwf. unfold ctl_set. pose proof (ws_find_lookup w a Hwf) as Hf. destruct (ws_pos w a) as [i|] eqn:Hp.
  - destruct (ws_find w a) as [e|]; rewrite <- Hf; [|by split]. split; [by apply ws_assign_wf|]. intros e' [= <-]. apply ws_assign_map; [done|].
    by apply ws_pos_spec in Hp.
  - split; [done|]. intros e He. unfold ws_find in Hf. rewrite Hp, He in Hf. done.
Qed.

(** An entry replaced by one of the same type. *)
Lemma set_types w a v e a' e' :
  wset_map w !! a = Some e → wset_map (ctl_set w a v) = <[a := cwe_set e v]> (wset_map w) → wset_map (ctl_set w a v) !! a' = Some e' →
  ∃ e0, wset_map w !! a' = Some e0 ∧ cw_type e0 = cw_type e'.
Proof. intros He ->. rewrite lookup_insert_Some. intros [[<- <-]|[_ ?]]; [by exists e|by exists e']. Qed.

Lemma ctl_write_exact_written w a v sz w' : wset_wf w → ctl_write_exact w a v sz = Some w' → written w a sz v w'.
Proof.
  intros Hwf. unfold ctl_write_exact. rewrite ws_find_lookup by done. intros (e & He & Hw)%bind_Some.
  pose proof (type_size_range (cw_type e)). pose proof (type_size_range sz). case_bool_decide as Ht; [|case_bool_decide; [|done]]; injection Hw as <-.
  all: destruct (ctl_set_map w a v Hwf) as [_ Hm1]; edestruct (ctl_set_map w a) as [Hwf' Hm]; [done|]; specialize (Hm e He).
  all: split; [exact Hwf'|intros a' e' He'; left; by eapply set_types|intros Hno].
  - by exists (cwe_set e v).
  - exfalso. destruct (Hno a e a He); [unfold e_covers, in_acc, nbytes_of; lia..|done].
Qed.

Lemma ctl_write_merge_written w a v sz w' : wset_wf w → access_ok a sz = true → ctl_write_merge w a v sz = Some w' → written w a sz v w'.
Proof.
  intros Hwf (Ha & Hin & _)%access_end. destruct (base_split a Ha) as [Hb Ho]. pose proof (Z.mod_pos_bound a 8). pose proof (nbytes_range sz).
  unfold ctl_write_merge. rewrite ws_find_lookup by done. destruct (Z.eqb_spec (offset (ByteOffset_of a)) 0) as [|Hz]; [done|].
  intros (e & He & Hw)%bind_Some. case_bool_decide as Ht; [|done]. apply bind_Some in Hw as (mv & _ & [= <-]).
  edestruct (ctl_set_map w (base_addr (ByteOffset_of a))) as [Hwf' Hm]; [done|]. specialize (Hm e He).
  split; [exact Hwf'|intros a' e' He'; left; by eapply set_types|intros Hno]. exfalso.
  destruct (Hno _ e a He) as [? _]; [unfold e_covers, in_acc; rewrite Ht; change (nbytes_of UINT64) with 8; lia|unfold in_acc; lia|lia].
Qed.

Lemma ctl_covered_overlap w a sz : wset_wf w → access_ok a sz = true → ctl_covered w a sz = true → ¬ no_overlap w a sz.
Proof.
  intros Hwf (Ha & Hin & _)%access_end Hc Hno. destruct (base_split a Ha) as [Hb Ho]. pose proof (Z.mod_pos_bound a 8). pose proof (nbytes_range sz).
  unfold ctl_covered in Hc. rewrite !ws_find_lookup in Hc by done. apply orb_true_iff in Hc as [Hc|[Hz%negb_true_iff%Z.eqb_neq Hc]%andb_true_iff].
  - destruct (wset_map w !! a) as [e|] eqn:He; [|done]. rewrite andb_true_iff, bool_decide_eq_true, Z.ltb_lt in Hc. destruct Hc as [Ht ?].
    destruct (Hno a e a He); [unfold e_covers, in_acc; lia..|done].
  - destruct (wset_map w !! base_addr _) as [e|] eqn:He; [|done]. rewrite andb_true_iff, bool_decide_eq_true, Z.leb_le in Hc. destruct Hc as [Ht ?].
    destruct (Hno _ e a He); [unfold e_covers, in_acc; lia..|done].
Qed.

Lemma ctl_erase_map w a sz k i :
  wset_wf w → is_w 64 a → 0 ≤ i → a + i + Z.of_nat k ≤ 2 ^ 64 → i + Z.of_nat k ≤ nbytes_of sz →
  wset_wf (ctl_erase w a sz k i) ∧ wset_map (ctl_erase w a sz k i) ⊆ wset_map w ∧
  (no_overlap w a sz → wset_map (ctl_erase w a sz k i) = wset_map w).
Proof.
  intros Hwf Ha. revert w Hwf i. induction k as [|k IH]; intros w Hwf i Hi Hr Hn; cbn [ctl_erase]; [done|].
  unfold wrap64, wrap. rewrite Z.mod_small by (unfold is_w in Ha; lia). rewrite ws_find_lookup by done. pose proof (nbytes_range sz).
  destruct (wset_map w !! (a + i)) as [e|] eqn:He; [|apply IH; [done|lia..]]. destruct (_ && _) eqn:Hc; [|apply IH; [done|lia..]].
  rewrite andb_true_iff, bool_decide_eq_true in Hc. destruct Hc as [Ht _]. destruct (ws_erase_addr_spec w (a + i) Hwf) as [Hwf' Hm].
  destruct (IH _ Hwf' (i + 1)) as (? & Hs & _); [lia..|]. split; [done|]. split; [etrans; [exact Hs|]; rewrite Hm; apply delete_subseteq|].
  intros Hno. pose proof (nbytes_range (cw_type e)). destruct (Hno _ e (a + i) He); [unfold e_covers, in_acc; lia..|done].
Qed.

Lemma ctl_make_room_map w a sz :
  wset_wf w → access_ok a sz = true →
  wset_wf (ctl_make_room w a sz) ∧ wset_map (ctl_make_room w a sz) ⊆ wset_map w ∧ (no_overlap w a sz → wset_map (ctl_make_room w a sz) = wset_map w).
Proof.
  intros Hwf (Ha & _ & ?)%access_end. unfold ctl_make_room. destruct (1 <? nbytes_of sz); [|done]. apply ctl_erase_map; try done; unfold nbytes_of in *; lia.
Qed.

Lemma ctl_write_local_written w a v sz w' : wset_wf w → access_ok a sz = true → ctl_write_local w a v sz = inl w' → written w a sz v w'.
Proof.
  intros Hwf Ha. unfold ctl_write_local. destruct (ctl_write_exact w a v sz) as [w1|] eqn:H1; [intros [= <-]; by apply ctl_write_exact_written|].
  destruct (ctl_write_merge w a v sz) as [w2|] eqn:H2; [intros [= <-]; by apply ctl_write_merge_written|].
  destruct (ctl_covered w a sz) eqn:H3; [|done]. intros [= <-]. split; [done|intros a' e' ?; left; by exists e'|].
  intros Hno. by destruct (ctl_covered_overlap w a sz Hwf Ha H3).
Qed.

Lemma ctl_write_put_written w a v sz w1 e :
  wset_wf w → access_ok a sz = true → ctl_write_local w a v sz = inr w1 → cw_type e = sz → cw_val e = v → written w a sz v (ws_put cwe_none w1 a e).
Proof.
  intros Hwf Ha. unfold ctl_write_local. destruct (ctl_write_exact w a v sz) as [?|]; [done|]. destruct (ctl_write_merge w a v sz) as [?|]; [done|].
  destruct (ctl_covered w a sz); [done|]. intros [= <-] Ht Hv. destruct (ctl_make_room_map w a sz Hwf Ha) as (Hwf1 & Hs & Hm).
  destruct (ws_put_map cwe_none _ a e Hwf1) as [Hwf2 Hm2]. split; [done|..].
  - rewrite Hm2. intros a' e'. rewrite lookup_insert_Some. intros [[<- <-]|[_ He']]; [by right|left]. exists e'. split; [|done]. by eapply lookup_weaken.
  - intros Hno. exists e. split_and!; [done..|]. by rewrite Hm2, Hm.
Qed.

(** ** Logs *)

Section Logs.
Context (skip : Z → Z → bool) (n : nat).
#[local] Abbreviation ctl_transparent := (ctl_transparent skip n).
#[local] Abbreviation write_fits := (ctl_write_fits skip n).

Lemma ctl_write_fits_spec acc a sz :
  write_fits acc a sz = true ↔ low_addr a = false ∧ not_stack skip n a = true ∧ ∀ p, p ∈ acc → p = (a, sz) ∨ apart a sz p.1 p.2 = true.
Proof.
  assert (Hp : ∀ p, (bool_decide (p = (a, sz)) || apart a sz p.1 p.2) = true ↔ p = (a, sz) ∨ apart a sz p.1 p.2 = true).
  { intros p. by rewrite orb_true_iff, bool_decide_eq_true. }
  unfold ctl_write_fits. rewrite !andb_true_iff, negb_true_iff, forallb_forall. setoid_rewrite <- list_elem_of_In. setoid_rewrite Hp.
  split; [by intros [[? ?] ?]|by intros (? & ? & ?)].
Qed.

Lemma ctl_read_fits_spec acc a sz :
  ctl_read_fits acc a sz = true ↔ low_addr a = false ∧
  ((∀ p, p ∈ acc → apart a sz p.1 p.2 = true) ∨ (∃ p, p ∈ acc ∧ served a sz p = true) ∨ (∀ i, 0 ≤ i < nbytes_of sz → (a + i, UINT8) ∈ acc)).
Proof.
  unfold ctl_read_fits, bytes_written. rewrite andb_true_iff, negb_true_iff, !orb_true_iff, !forallb_forall, existsb_exists. setoid_rewrite bool_decide_eq_true.
  setoid_rewrite <- list_elem_of_In. setoid_rewrite elem_of_seqZ.
  split; (intros [Hl Hf]; split; [done|]); [destruct Hf as [[?|?]|?]|destruct Hf as [?|[?|?]]]; auto.
Qed.

(** Two writes of a disciplined log. *)
Lemma ctl_compatible evs p1 p2 :
  ctl_transparent evs = true → p1 ∈ wlog [] evs → p2 ∈ wlog [] evs → p1 = p2 ∨ apart p1.1 p1.2 p2.1 p2.2 = true.
Proof.
  intros Ht. apply (obeys_pairwise write_fits ctl_read_fits (λ p1 p2, p1 = p2 ∨ apart p1.1 p1.2 p2.1 p2.2 = true) [] evs); [|by left|exact Ht|by intros ? ? ?%elem_of_nil].
  intros acc a sz p (_ & _ & Hf)%ctl_write_fits_spec Hp. destruct (Hf p Hp) as [->|?]; [by split; left|]. split; right; [done|by rewrite apart_sym].
Qed.

Lemma ctl_kept evs a sz id : ctl_transparent evs = true → 1 ≤ id ≤ Z.of_nat n → (a, sz) ∈ wlog [] evs → kept skip id a.
Proof.
  intros Ht Hid. apply (obeys_writes write_fits ctl_read_fits (kept skip id) [] evs); [|exact Ht|by intros ? ? ?%elem_of_nil].
  intros acc b s (Hl & Hst & _)%ctl_write_fits_spec. split; [|done]. unfold not_stack in Hst. rewrite forallb_forall in Hst.
  apply negb_true_iff, Hst, list_elem_of_In, elem_of_seqZ. lia.
Qed.

Context (id : Z) (Hid : 1 ≤ id ≤ Z.of_nat n).
#[local] Abbreviation stores := (ctl_stores skip id).

(** The log and the write set of a transaction that took the bytes [ext] from memory. *)
Record clog_ok (ext : list (Z * Z)) w (evs : list event) : Prop := ClogOk {
  cl_ok : cset_ok w;
  cl_in : ∀ a e, wset_map w !! a = Some e → (a, cw_type e) ∈ wlog [] evs;
  cl_of : ctl_transparent evs = true → ∀ a sz, (a, sz) ∈ wlog [] evs → ∃ e, wset_map w !! a = Some e ∧ cw_type e = sz;
  cl_replay : ctl_transparent evs = true → ∀ m, holds m ext →
    ∃ m', replay m evs = Some m' ∧ ∀ x, mget m' x = mget (wr m (stores w)) x;
}.

Lemma clog_separate w evs : (∀ a e, wset_map w !! a = Some e → (a, cw_type e) ∈ wlog [] evs) → ctl_transparent evs = true → c_separate w.
Proof.
  intros Hin Ht a1 e1 a2 e2 x H1 H2 C1 C2. destruct (ctl_compatible evs _ _ Ht (Hin _ _ H1) (Hin _ _ H2)) as [[= ->]|Hap]; [done|].
  simpl in Hap. rewrite apart_spec in Hap. by destruct (Hap x C1).
Qed.

Lemma clog_kept w evs a e : (∀ a e, wset_map w !! a = Some e → (a, cw_type e) ∈ wlog [] evs) → ctl_transparent evs = true → wset_map w !! a = Some e → kept skip id a.
Proof using Hid. intros Hin Ht He. by eapply ctl_kept, Hin. Qed.

Lemma clog_mono ext ext' w evs : (∀ ab, ab ∈ ext → ab ∈ ext') → clog_ok ext w evs → clog_ok ext' w evs.
Proof. intros Hs [H1 H2 H3 H4]. split; try done. intros Ht m Hm. apply H4; [done|]. intros a b Hin. by apply Hm, Hs. Qed.

Lemma clog_nil ext w : ws_vec w = [] → ws_index w = ∅ → clog_ok ext w [].
Proof.
  intros Hv Hi. destruct w as [vec ix]. simpl in *. subst. split; [apply cset_ok_empty|..].
  - intros a e. unfold wset_map. simpl. by rewrite lookup_empty.
  - by intros _ a sz ?%elem_of_nil.
  - intros _ m _. by exists m.
Qed.

Lemma clog_read ext w evs a sz v :
  clog_ok ext w evs →
  (ctl_transparent evs = true → ctl_read_fits (wlog [] evs) a sz = true → ∀ m, holds m ext →
     return_any_type sz (read_value_from_addr (wr m (stores w)) a sz) = v) →
  clog_ok ext w (evs ++ [EvR a sz v]).
Proof.
  intros [H1 H2 H3 H4] Hr. assert (Hw : wlog [] (evs ++ [EvR a sz v]) = wlog [] evs) by (by rewrite wlog_app). split; rewrite ?Hw; try done.
  - intros [Ht _]%obeys_snoc. by apply H3.
  - intros [Ht Hf]%obeys_snoc m Hm. destruct (H4 Ht m Hm) as (m' & Hm' & Hx). exists m'. split; [|done].
    apply replay_snoc_read; [done|]. rewrite <- (Hr Ht Hf m Hm). f_equal. by apply read_mget_ext.
Qed.

Lemma clog_read_hit ext w evs a sz v :
  clog_ok ext w evs → access_ok a sz = true → ctl_lookup w a sz = Some v → clog_ok ext w (evs ++ [EvR a sz (return_any_type sz v)]).
Proof using Hid.
  intros L Ha Hl. pose proof L as [Hok Hin _ _]. apply clog_read; [done|]. intros Ht Hf m _. symmetry. apply ctl_lookup_value; try done.
  - by eapply clog_separate.
  - intros a' e He. by eapply clog_kept.
Qed.

Lemma ctl_lookup_miss ext w evs a sz :
  clog_ok ext w evs → ctl_transparent evs = true → access_ok a sz = true → ctl_read_fits (wlog [] evs) a sz = true → ctl_lookup w a sz = None →
  ∀ a' e x, wset_map w !! a' = Some e → in_acc a sz x → ¬ e_covers a' e x.
Proof.
  intros [Hok Hin Hof _] Ht Ha Hf Hn a' e x He Hx Hc. assert (Hno : ¬ is_Some (ctl_lookup w a sz)) by (rewrite Hn; by intros [? ?]).
  apply ctl_read_fits_spec in Hf as (_ & [Hap|[([b s] & Hw & Hsv)|Hby]]).
  - specialize (Hap _ (Hin a' e He)). rewrite apart_spec in Hap. by apply (Hap x Hx).
  - destruct (Hof Ht _ _ Hw) as (e' & He' & <-). apply Hno. eapply served_lookup; try done. by apply access_end in Ha as (? & _).
  - apply Hno, bytes_lookup; [done..|]. intros i Hi. by apply Hof, Hby.
Qed.

Lemma clog_read_shared ext w evs a sz bs :
  clog_ok ext w evs → access_ok a sz = true → ctl_lookup w a sz = None → length bs = type_size sz →
  (∀ k b, bs !! k = Some b → (a + Z.of_nat k, b) ∈ ext) →
  clog_ok ext w (evs ++ [EvR a sz (return_any_type sz (bytes_value bs))]).
Proof.
  intros L Ha Hl Hlen Hext. pose proof L as [[Hwf _] _ _ _]. apply clog_read; [done|]. intros Ht Hf m Hm. unfold read_value_from_addr, bytes_value, fill_any_type. do 2 f_equal.
  apply list_eq_same_length with (n := type_size sz); [done|by rewrite length_load_bytes|]. intros k b b' Hk Hb Hb'.
  rewrite load_bytes_prefix in Hb by done. injection Hb as <-. rewrite <- (Hm (a + Z.of_nat k) b') by auto.
  apply ctl_stores_out; [done|]. intros a' e He. eapply ctl_lookup_miss; try done. by apply nth_acc.
Qed.

(** A write, as an entry more or in place of an earlier one of its address and type. *)
Lemma clog_write ext w w' evs a sz v :
  clog_ok ext w evs → access_ok a sz = true → written w a sz v w' → clog_ok ext w' (evs ++ [EvW a sz (u8 v)]).
Proof using Hid.
  intros [Hok Hin Hof Hrep] Ha [Hwf' Hty Hmap].
  assert (Hw : wlog [] (evs ++ [EvW a sz (u8 v)]) = (a, sz) :: wlog [] evs) by (by rewrite wlog_app).
  assert (Hin' : ∀ b e, wset_map w' !! b = Some e → (b, cw_type e) ∈ wlog [] (evs ++ [EvW a sz (u8 v)])).
  { rewrite Hw. intros a' e' [(e & He & <-)|[-> ->]]%Hty; [right; by apply Hin|left]. }
  assert (Hno : ctl_transparent (evs ++ [EvW a sz (u8 v)]) = true → no_overlap w a sz).
  { intros (_ & (_ & _ & Hf)%ctl_write_fits_spec)%obeys_snoc a' e x He Hc Hx. destruct (Hf _ (Hin _ _ He)) as [[= -> ->]|Hap]; [done|].
    simpl in Hap. rewrite apart_spec in Hap. by destruct (Hap x Hx). }
  split; [split; [done|]|done|..].
  - intros a' e' [(e & He & <-)|[-> ->]]%Hty; [by apply (co_acc w Hok)|done].
  - intros Ht'. destruct (Hmap (Hno Ht')) as (e' & Hte & _ & ->). apply obeys_snoc in Ht' as [Ht (_ & _ & Hf)%ctl_write_fits_spec]. rewrite Hw.
    intros b s [[= -> ->]|Hb]%elem_of_cons; [exists e'; by rewrite lookup_insert_eq|]. destruct (decide (b = a)) as [->|Hne].
    + exists e'. rewrite lookup_insert_eq, Hte. split; [done|]. destruct (Hf _ Hb) as [[= ->]|Hap]; [done|]. simpl in Hap. rewrite apart_spec in Hap.
      pose proof (nbytes_range s). pose proof (nbytes_range sz). destruct (Hap a); unfold in_acc; lia.
    + rewrite lookup_insert_ne by done. by apply Hof.
  - intros Ht' m Hm. destruct (Hmap (Hno Ht')) as (e' & Hte & Hve & Hm').
    pose proof (clog_separate w' _ Hin' Ht') as Hs'. assert (Hk' : ∀ a e, wset_map w' !! a = Some e → kept skip id a) by (intros ? ? ?; by eapply clog_kept).
    pose proof (Hno Ht') as Hnov. apply obeys_snoc in Ht' as [Ht _]. pose proof (clog_separate w evs Hin Ht) as Hs.
    destruct (Hrep Ht m Hm) as (m' & Hr & Hx). exists (write_value_to_addr m' a v sz). split; [destruct v; by apply replay_snoc_write|].
    intros b. rewrite write_value_mget. case_decide as Hb.
    + rewrite (ctl_stores_at skip id w' m a e') by (done || (by rewrite Hm', lookup_insert_eq) || (unfold e_covers; by rewrite Hte) || (eapply Hk'; by rewrite Hm', lookup_insert_eq)).
      by rewrite Hve.
    + rewrite Hx. destruct (decide (map_Exists (λ a' e, in_acc a' (cw_type e) b) (wset_map w))) as [(a' & e & He & Hc)|Hnone].
      * assert (a' ≠ a) as Hne. { intros ->. apply Hb. destruct (Hnov a e a He) as [_ <-]; [|pose proof (nbytes_range sz)|done]; unfold e_covers, in_acc in *; lia. }
        assert (wset_map w' !! a' = Some e) as He2 by (by rewrite Hm', lookup_insert_ne).
        rewrite (ctl_stores_at skip id w m a' e), (ctl_stores_at skip id w' m a' e); try done; [by eapply Hk'|apply Hok|by eapply Hk'].
      * rewrite !ctl_stores_out; [done|done| |apply Hok|].
        -- rewrite Hm'. intros a' e. rewrite lookup_insert_Some. intros [[<- <-]|[_ He]] Hc; [apply Hb; unfold e_covers in Hc; by rewrite Hte in Hc|].
           apply Hnone. by exists a', e.
        -- intros a' e He Hc. apply Hnone. by exists a', e.
Qed.
End Logs.
