(* ===== verification/WBCTLSim.v ===== *)
(** * TinySTM write-back with commit-time locking simulates the versioned-lock machine

    Every interleaved execution of [WBCTL] is matched by an execution of the abstract
    machine of [VersionedLocks].  Locks are taken only during [commit], in address order;
    a snapshot is kept by the checks of the reads and by extension, and the validation
    after the increment of the clock decides the commit. *)

From stdpp Require Import functions sorting.
From S2P Require Import Prelude Memory Values TMSpec LogMerge TxLog TinyLock TinyWriteSet Support LockWord VersionedLocks TinyShared TinySim WBCTL WBCTLLog.
Import SpinToken.
#[local] Open Scope Z_scope.

Section Sim.
Context (skip : Z → Z → bool) (m0 : mem) (n : nat) (Hn : Z.of_nat n < MAX_THREADS).
Implicit Types (σ : lvs) (t : cthread) (g : wglobal) (w : wset WriteLogEntry_wbctl) (rec : list (Z * Z * nat)).

#[local] Abbreviation disc := (ctl_transparent skip n).
#[local] Abbreviation lv_steps i := (rtc (lv_step lock_of i)).
#[local] Abbreviation lv_inv := (lv_inv lock_of m0).
#[local] Abbreviation g_rel := (g_rel disc n).
#[local] Abbreviation gr_mem := (gr_mem disc n).
#[local] Abbreviation gr_clock := (gr_clock disc n).
#[local] Abbreviation gr_locks := (gr_locks disc n).
#[local] Abbreviation lock_word := (lock_word disc m0 n Hn).
#[local] Abbreviation stores i := (ctl_stores skip (tid i)).

(** ** The relation *)

Definition in_rset (rs : list ReadLogEntry_wbctl) (a : Z) (v : nat) : Prop :=
  ∃ r, r ∈ rs ∧ lock_of (cr_addr r) = lock_of a ∧ cr_version r = Z.of_nat v.

(** [w] is the write set of the log: that of the transaction, except during a write. *)
Record tx_rel σ (i : nat) (x : ctx) w (evs : list event) (pending : list (Z * Z * nat)) rec : Prop := CtxRel {
  cr_rds : rds (thr σ i) = pending ++ rec;
  cr_lrds : lrds (thr σ i) = [];
  cr_log : clog_ok skip n (tid i) rec.*1 w evs;
  cr_rec : ∀ a val v, (a, val, v) ∈ rec → in_rset (c_rset x) a v;
  cr_end : 0 ≤ c_start x ≤ c_end x ∧ c_end x ≤ Z.of_nat (clk σ);
  cr_ro : c_ro x = true → ws_vec w = [];
}.

Definition run_rel σ (i : nat) t w (p : phase) (pending : list (Z * Z * nat)) rec : Prop :=
  ph (thr σ i) = p ∧ c_active (c_tx t) = true ∧ tx_rel σ i (c_tx t) w (c_log t) pending rec ∧ own_rel σ i (c_held (c_tx t)).

(** The reads are those of the snapshot at the end version. *)
Definition snap σ (i : nat) (e : Z) rec : Prop :=
  ∀ a val v, (a, val, v) ∈ rec → Z.of_nat v ≤ e ∧ (a, val, v, S (Z.to_nat e)) ∈ fixd (thr σ i).

Definition live σ (i : nat) t w (pending : list (Z * Z * nat)) rec : Prop :=
  run_rel σ i t w PActive pending rec ∧ snap σ i (c_end (c_tx t)) rec.

Definition act_rel σ (i : nat) t : Prop := ∃ rec, live σ i t (c_wset (c_tx t)) [] rec ∧ c_held (c_tx t) = [].

Definition empty_ctx (x : ctx) : Prop := c_rset x = [] ∧ c_wset x = WSet [] ∅ ∧ c_held x = [].

Definition inactive_rel σ (i : nat) t : Prop := ph (thr σ i) = PIdle ∧ c_active (c_tx t) = false ∧ own_rel σ i [].

Definition abort_rel σ (i : nat) t (ls : list Z) : Prop :=
  ph (thr σ i) = PAbort ∧ c_active (c_tx t) = true ∧ own_rel σ i ls ∧
  0 ≤ c_start (c_tx t) ≤ c_end (c_tx t) ∧ c_end (c_tx t) ≤ Z.of_nat (clk σ).

Definition rmiss t (a : Z) (sz : ValueType) : Prop := access_ok a sz = true ∧ ctl_lookup (c_wset (c_tx t)) a sz = None.

(** A write on its way to an entry of its own. *)
Definition wpend σ (i : nat) t (c : cacc) rec : Prop :=
  access_ok (ca_addr c) (ca_sz c) = true ∧ c_ro (c_tx t) = false ∧ c_held (c_tx t) = [] ∧
  ∃ w, ctl_write_local w (ca_addr c) (ca_val c) (ca_sz c) = inr (c_wset (c_tx t)) ∧ live σ i t w [] rec.

(** The lock of an entry that is written back. *)
Definition lock_in (as_ : list Z) (ℓ : Z) : Prop := ∃ a, a ∈ as_ ∧ low_addr a = false ∧ lock_of a = ℓ.

(** The lock loop of [commit], with the addresses still to lock. *)
Definition lock_rel σ (i : nat) t rec (rem : list Z) : Prop :=
  live σ i t (c_wset (c_tx t)) [] rec ∧ (∀ ℓ, ℓ ∈ c_held (c_tx t) → lock_in (ws_vec (c_wset (c_tx t))).*1 ℓ) ∧
  rem ⊆ (ws_vec (c_wset (c_tx t))).*1 ∧
  (∀ a, a ∈ (ws_vec (c_wset (c_tx t))).*1 → low_addr a = true ∨ lock_of a ∈ c_held (c_tx t) ∨ a ∈ rem).

Definition commit_rel σ (i : nat) t (cv : Z) rec : Prop :=
  0 ≤ cv ∧ run_rel σ i t (c_wset (c_tx t)) (PInc (Z.to_nat cv) (stores i (c_wset (c_tx t)))) [] rec ∧
  (∀ ℓ, ℓ ∈ c_held (c_tx t) → lock_in (ws_vec (c_wset (c_tx t))).*1 ℓ).

(** The callers of [validate] and [extend]. *)
Definition k_rel σ (i : nat) t (k : ccaller) rec : Prop :=
  match k with
  | KRead a sz l _ => rmiss t a sz ∧ (∃ v, seen σ a l None v) ∧ live σ i t (c_wset (c_tx t)) [] rec ∧ c_held (c_tx t) = []
  | KSpin c | KWrite c => wpend σ i t c rec
  | KLock a rem _ => lock_rel σ i t rec (a :: rem) ∧ low_addr a = false
  | KGap cv | KFinal cv => commit_rel σ i t cv rec
  end.

(** Reads are validated at version [c] except those of the entries [rs]. *)
Definition todo σ (i : nat) rec (rs : list ReadLogEntry_wbctl) (c : nat) : Prop :=
  ∀ a val v, (a, val, v) ∈ rec → (a, val, v, c) ∈ fixd (thr σ i) ∨ in_rset rs a v.

Definition in_validation σ (i : nat) t (k : ccaller) (last : Z) (rs : list ReadLogEntry_wbctl) rec : Prop :=
  match k with
  | KRead _ _ _ _ | KWrite _ | KLock _ _ _ => c_end (c_tx t) ≤ last ≤ Z.of_nat (clk σ) ∧ todo σ i rec rs (S (Z.to_nat last))
  | KSpin _ => True
  | KGap _ => c_end (c_tx t) ≤ last ≤ Z.of_nat (clk σ)
  | KFinal cv => todo σ i rec rs (Z.to_nat cv)
  end.

Definition soft_caller (k : ccaller) : Prop := match k with KRead _ _ _ _ | KSpin _ | KLock _ _ _ => True | _ => False end.

(** The release loop: the addresses [es] still to visit have the locks still held. *)
Definition rel_rel σ (i : nat) (cv : Z) (es : list Z) : Prop :=
  0 ≤ cv ∧ ph (thr σ i) = PDec (Z.to_nat cv) [] ∧ ∃ ls, own_rel σ i ls ∧ ∀ ℓ, ℓ ∈ ls → lock_in es ℓ.

Definition pc_rel σ (i : nat) t : Prop :=
  match c_pc t with
  | CIdle => if c_active (c_tx t) then act_rel σ i t else inactive_rel σ i t
  | CBegin => inactive_rel σ i t ∧ empty_ctx (c_tx t)
  | CRGet a sz => rmiss t a sz ∧ act_rel σ i t
  | CRLoop a sz l _ => rmiss t a sz ∧ act_rel σ i t ∧ ∃ o v, seen σ a l o v
  | CRBytes a sz l _ bs =>
      rmiss t a sz ∧ (length bs < type_size sz)%nat ∧ c_held (c_tx t) = [] ∧
      ∃ v rec, seen σ a l None v ∧ live σ i t (c_wset (c_tx t)) (taken a v bs) rec
  | CRCheck a sz l _ bs =>
      rmiss t a sz ∧ length bs = type_size sz ∧ c_held (c_tx t) = [] ∧
      ∃ v rec, seen σ a l None v ∧ live σ i t (c_wset (c_tx t)) (taken a v bs) rec
  | CEClock k => ∃ rec, k_rel σ i t k rec
  | CVLoop k last rs => ∃ rec, k_rel σ i t k rec ∧ in_validation σ i t k last rs rec
  | CSoft k | CSoftCas k => soft_caller k ∧ ∃ rec, k_rel σ i t k rec
  | CWGet c | CWCheck c _ => ∃ rec, wpend σ i t c rec
  | CClock => act_rel σ i t
  | CAddr rem => ∃ rec, lock_rel σ i t rec rem
  | CTry a rem _ => ∃ rec, lock_rel σ i t rec (a :: rem) ∧ low_addr a = false
  | CCas a rem _ e d =>
      (∃ rec, lock_rel σ i t rec (a :: rem) ∧ low_addr a = false) ∧ ∃ v, ver_ok v ∧ e = word_of v None ∧ d = word_of v (Some i)
  | CIncr => ∃ rec, lock_rel σ i t rec []
  | CBack cv st =>
      0 ≤ cv ∧ ph (thr σ i) = PDec (Z.to_nat cv) st ∧ own_rel σ i (c_held (c_tx t)) ∧
      ∀ ℓ, ℓ ∈ c_held (c_tx t) → lock_in (ws_vec (c_wset (c_tx t))).*1 ℓ
  | CRel cv es => rel_rel σ i cv es
  | CRelVersion cv a es | CRelUnlock cv a es => rel_rel σ i cv (a :: es) ∧ own σ (lock_of a) = Some i
  | CTok _ => ((∃ cv, ph (thr σ i) = PDec cv []) ∨ ph (thr σ i) = PActive) ∧ own_rel σ i []
  | CUnlock ls => abort_rel σ i t ls
  | COwner l ls | CClear l ls => abort_rel σ i t (l :: ls)
  | CUntok => abort_rel σ i t [] ∧ empty_ctx (c_tx t)
  end.

Definition t_rel σ (i : nat) t : Prop := c_id (c_tx t) = tid i ∧ pc_rel σ i t.

(** ** Stability *)

Lemma ctx_frame σ σ' i x w evs pend rec : lv_frame i σ σ' → tx_rel σ i x w evs pend rec → tx_rel σ' i x w evs pend rec.
Proof. intros [Ht Ho Hv Hc] [H1 H2 H3 H4 H5 H6]. split; try rewrite Ht; try done. lia. Qed.

Lemma crun_frame σ σ' i t w p pend rec : lv_frame i σ σ' → run_rel σ i t w p pend rec → run_rel σ' i t w p pend rec.
Proof.
  intros F (Hp & ? & ? & ?). unfold run_rel. rewrite (fr_thr _ _ _ F). split_and!; [done..|by eapply ctx_frame|by eapply own_frame].
Qed.

Lemma live_frame σ σ' i t w pend rec : lv_frame i σ σ' → live σ i t w pend rec → live σ' i t w pend rec.
Proof. intros F [R Sn]. split; [by eapply crun_frame|]. intros a val v. rewrite (fr_thr _ _ _ F). apply Sn. Qed.

Lemma cact_frame σ σ' i t : lv_frame i σ σ' → act_rel σ i t → act_rel σ' i t.
Proof. intros F (rec & H & ?). exists rec. split; [by eapply live_frame|done]. Qed.

Lemma cabort_frame σ σ' i t ls : lv_frame i σ σ' → abort_rel σ i t ls → abort_rel σ' i t ls.
Proof.
  intros F (? & ? & ? & ? & ?). unfold abort_rel. rewrite (fr_thr _ _ _ F). pose proof (fr_clk _ _ _ F).
  split_and!; [done..|by eapply own_frame|lia|lia|lia].
Qed.

Lemma ctodo_frame σ σ' i rec rs c : lv_frame i σ σ' → todo σ i rec rs c → todo σ' i rec rs c.
Proof. intros F H a val v Hin. rewrite (fr_thr _ _ _ F). by apply H. Qed.

Lemma wpend_frame σ σ' i t c rec : lv_frame i σ σ' → wpend σ i t c rec → wpend σ' i t c rec.
Proof. intros F (? & ? & ? & w & ? & ?). split_and!; [done..|]. exists w. split; [done|by eapply live_frame]. Qed.

Lemma lock_frame σ σ' i t rec rem : lv_frame i σ σ' → lock_rel σ i t rec rem → lock_rel σ' i t rec rem.
Proof. intros F [? ?]. split; [by eapply live_frame|done]. Qed.

Lemma k_frame σ σ' i t k rec : lv_frame i σ σ' → k_rel σ i t k rec → k_rel σ' i t k rec.
Proof.
  intros F. destruct k; simpl.
  - intros (? & [v ?] & ? & ?). split_and!; [done|exists v; by eapply seen_frame|by eapply live_frame|done].
  - by apply wpend_frame.
  - by apply wpend_frame.
  - intros [? ?]. split; [by eapply lock_frame|done].
  - intros (? & ? & ?). split; [done|]. split; [by eapply crun_frame|done].
  - intros (? & ? & ?). split; [done|]. split; [by eapply crun_frame|done].
Qed.

Lemma validation_frame σ σ' i t k last rs rec : lv_frame i σ σ' → in_validation σ i t k last rs rec → in_validation σ' i t k last rs rec.
Proof.
  intros F. pose proof (fr_clk _ _ _ F). destruct k; simpl; try done; try lia; try by apply ctodo_frame.
  all: intros [? ?]; split; [lia|by eapply ctodo_frame].
Qed.

Lemma rel_frame σ σ' i cv es : lv_frame i σ σ' → rel_rel σ i cv es → rel_rel σ' i cv es.
Proof. intros F (? & ? & ls & ? & ?). split; [done|]. rewrite (fr_thr _ _ _ F). split; [done|]. exists ls. split; [by eapply own_frame|done]. Qed.

Lemma ct_frame σ σ' i t : lv_frame i σ σ' → t_rel σ i t → t_rel σ' i t.
Proof.
  intros F [Hid Hp]. split; [done|]. unfold pc_rel in *. pose proof (fr_clk _ _ _ F).
  assert (Hin : ∀ t, inactive_rel σ i t → inactive_rel σ' i t).
  { intros t' (? & ? & ?). unfold inactive_rel. rewrite (fr_thr _ _ _ F). split_and!; [done..|by eapply own_frame]. }
  destruct (c_pc t); rewrite ?(fr_thr _ _ _ F), ?(fr_own _ _ _ F); try destruct (c_active (c_tx t));
    repeat match goal with
      | H : _ ∧ _ |- _ => destruct H
      | H : ∃ _, _ |- _ => destruct H
      end;
    repeat match goal with |- _ ∧ _ => split | |- ∃ _, _ => eexists end; try done; try lia;
    eauto using live_frame, cact_frame, cabort_frame, k_frame, validation_frame, wpend_frame, lock_frame, rel_frame, seen_frame, own_frame.
Qed.

(** ** Abstract steps of one thread *)

Definition sim (i : nat) σ (gt : wglobal * cthread) : Prop := ∃ σ', lv_steps i σ σ' ∧ g_rel gt.1 σ' ∧ t_rel σ' i gt.2.

Lemma csim_stay i σ g t : g_rel g σ → t_rel σ i t → sim i σ (g, t).
Proof. intros. by exists σ. Qed.

Lemma ctl_abort_sim i σ g t w p pend rec :
  g_rel g σ → c_id (c_tx t) = tid i → run_rel σ i t w p pend rec → running p → sim i σ (g, ctl_abort t).
Proof.
  intros G Hid (Hp & Hact & X & Ho) Hr. pose proof (upd_set_thr i σ (LVT PAbort [] [] [])) as U.
  exists (set_thr σ i (LVT PAbort [] [] [])). split_and!.
  - apply rtc_once. apply lv_abort. by rewrite Hp.
  - by eapply g_upd.
  - split; [done|]. pose proof (cr_end _ _ _ _ _ _ _ X). change (abort_rel (set_thr σ i (LVT PAbort [] [] [])) i t (c_held (c_tx t))).
    split_and!; [by rewrite (up_thr _ _ _ _ U)|done|by eapply own_upd|lia|lia|simpl; lia].
Qed.

Lemma crun_upd i σ σ' T t w p pend pend' rec :
  run_rel σ i t w p pend rec → upd i σ σ' T → ph T = p → rds T = pend' ++ rec → lrds T = [] → run_rel σ' i t w p pend' rec.
Proof.
  intros (Hp & Hact & [H1 H2 H3 H4 H5 H6] & Ho) U HpT Hrd Hl. split_and!; [by rewrite (up_thr _ _ _ _ U)|done| |by eapply own_upd].
  split; rewrite ?(up_thr _ _ _ _ U), ?(up_clk _ _ _ _ U); done.
Qed.

Lemma snap_upd i σ σ' T e rec : upd i σ σ' T → fixd (thr σ i) ⊆ fixd T → snap σ i e rec → snap σ' i e rec.
Proof. intros U Hf Sn a val v Hin. rewrite (up_thr _ _ _ _ U). destruct (Sn a val v Hin). split; [done|by apply Hf]. Qed.

Lemma cidle_rel σ i t : c_id (c_tx t) = tid i → c_pc t = CIdle → c_active (c_tx t) = true → act_rel σ i t → t_rel σ i t.
Proof. intros ? Hpc Ha ?. split; [done|]. unfold pc_rel. by rewrite Hpc, Ha. Qed.

(** ** Reads *)

Lemma ctl_byte_sim i σ g t a sz l spin bs v rec :
  g_rel g σ → c_id (c_tx t) = tid i → rmiss t a sz → (length bs < type_size sz)%nat → c_held (c_tx t) = [] → seen σ a l None v →
  live σ i t (c_wset (c_tx t)) (taken a v bs) rec →
  sim i σ (g, c_at t (if all_read sz (next_byte g a bs) then CRCheck a sz l spin (next_byte g a bs) else CRBytes a sz l spin (next_byte g a bs))).
Proof.
  intros G Hid Hmiss Hlen Hh Hseen [R Sn]. pose proof Hmiss as [[Ha Hin]%access_ok_spec Hlk]. set (x := a + Z.of_nat (length bs)).
  assert (Hacc : in_acc a sz x) by (by apply nth_acc). pose proof R as (Hp & Hact & X & Hown).
  set (T := LVT PActive ((x, mget (lmem σ) x, v) :: rds (thr σ i)) (lrds (thr σ i)) (fixd (thr σ i))). pose proof (upd_set_thr i σ T) as U.
  assert (Hnb : next_byte g a bs = bs ++ [mget (lmem σ) x]) by (unfold next_byte; by rewrite (gr_mem g σ G)).
  assert (L' : live (set_thr σ i T) i t (c_wset (c_tx t)) (taken a v (next_byte g a bs)) rec).
  { split; [|by eapply snap_upd]. eapply crun_upd; [done..| |apply X]. rewrite Hnb, taken_snoc. simpl. by rewrite (cr_rds _ _ _ _ _ _ _ X). }
  exists (set_thr σ i T). split_and!.
  - apply rtc_once. pose proof (lv_load lock_of i σ x v (thr σ i) eq_refl Hp) as Hs. rewrite Hp in Hs. apply Hs.
    rewrite (lock_of_acc a sz x) by done. by destruct Hseen as (_ & _ & _ & ?).
  - by eapply g_upd.
  - assert (Hlen' : length (next_byte g a bs) = S (length bs)) by (rewrite Hnb, length_app; simpl; lia).
    split; [done|]. cbn [snd]. unfold all_read.
    destruct (Nat.leb_spec (type_size sz) (length (next_byte g a bs))); (split; [done|]; split; [lia|]; split; [done|]; by exists v, rec).
Qed.

(** The bytes taken are dropped. *)
Lemma ctl_drop_sim i σ t w pend rec :
  live σ i t w pend rec → ∃ σ', lv_steps i σ σ' ∧ upd i σ σ' (LVT PActive rec [] (fixd (thr σ i))) ∧ live σ' i t w [] rec.
Proof.
  intros [R Sn]. pose proof R as (Hp & _ & X & _). destruct (forget_step lock_of i σ rec [] (fixd (thr σ i))) as (σ' & Hs & U).
  - by rewrite Hp.
  - rewrite (cr_rds _ _ _ _ _ _ _ X). intros e He. apply elem_of_app. by right.
  - by intros ? ?%elem_of_nil.
  - done.
  - rewrite Hp in U. exists σ'. split_and!; [done|done|]. split; [by eapply crun_upd|by eapply snap_upd].
Qed.

Lemma in_rset_app rs r a v : in_rset rs a v → in_rset (rs ++ [r]) a v.
Proof. intros (r' & ? & ?). exists r'. split; [set_solver|done]. Qed.

Lemma ctl_record_sim i σ g t a sz bs v rec :
  (i < n)%nat → g_rel g σ → c_id (c_tx t) = tid i → rmiss t a sz → length bs = type_size sz → c_held (c_tx t) = [] →
  ver σ (lock_of a) = v → own σ (lock_of a) = None →
  Z.of_nat v ≤ c_end (c_tx t) → live σ i t (c_wset (c_tx t)) (taken a v bs) rec →
  sim i σ (g, CT (ctx_read (c_tx t) (CRE sz a (Z.of_nat v) (bytes_value bs))) CIdle (c_log t ++ [EvR a sz (return_any_type sz (bytes_value bs))])).
Proof.
  intros Hi G Hid [Hok Hlk] Hlen Hh Hv Ho Hle [R Sn]. pose proof Hok as [Ha Hin]%access_ok_spec. pose proof R as (Hp & Hact & X & Hown).
  assert (Htk : ∀ x val u, (x, val, u) ∈ taken a v bs → u = v ∧ lock_of x = lock_of a).
  { intros x val u (-> & k & Hk & ->)%taken_elem. apply lookup_lt_Some in Hk. split; [done|]. apply (lock_of_acc a sz); [done..|apply nth_acc; lia]. }
  pose proof (cr_end _ _ _ _ _ _ _ X) as Hend.
  destruct (check_steps lock_of i σ (S (Z.to_nat (c_end (c_tx t)))) (taken a v bs)) as (σ' & F & Hs & U & HF & Hnew).
  { by rewrite Hp. }
  { lia. }
  { intros x val u Hx. destruct (Htk x val u Hx) as [-> ->]. split_and!; [|by left|lia|lia].
    rewrite (cr_rds _ _ _ _ _ _ _ X). apply elem_of_app. by left. }
  exists σ'. split_and!; [done|by eapply g_upd|]. apply cidle_rel; [done..|]. exists (taken a v bs ++ rec). split; [|done].
  assert (Hsnap : snap σ' i (c_end (c_tx t)) (taken a v bs ++ rec)).
  { intros x val u. rewrite (up_thr _ _ _ _ U). intros [Hx|Hx]%elem_of_app; [destruct (Htk x val u Hx) as [-> _]; split; [done|by apply Hnew]|].
    destruct (Sn x val u Hx). split; [done|by apply HF]. }
  split; [|done]. split_and!; [by rewrite (up_thr _ _ _ _ U)|done| |by eapply own_upd]. destruct X as [H1 H2 H3 H4 H5 H6].
  split; rewrite ?(up_thr _ _ _ _ U), ?(up_clk _ _ _ _ U); try done; cbn [c_tx c_log ctx_read c_wset c_rset c_end].
  - eapply clog_read_shared; [|done|done|done|].
    + eapply clog_mono; [|done]. intros ab. rewrite fmap_app, elem_of_app. by right.
    + intros k b Hk. rewrite fmap_app, elem_of_app. left. apply list_elem_of_fmap. exists (a + Z.of_nat k, b, v). split; [done|].
      apply taken_elem. split; [done|]. by exists k.
  - intros x val u [Hx|Hx]%elem_of_app; [|by eapply in_rset_app, H4]. destruct (Htk x val u Hx) as [-> Hl].
    eexists. split; [apply elem_of_app; right; by apply list_elem_of_singleton|]. done.
Qed.

Lemma ctl_check_sim i σ g t a sz l spin bs g' t' :
  lv_inv σ → g_rel g σ → (i < n)%nat → t_rel σ i t → c_pc t = CRCheck a sz l spin bs → ctl_read_step g t = Some (g', t') → sim i σ (g', t').
Proof using Hn.
  intros I G Hi [Hid Hpc] Heq Hs. unfold pc_rel in Hpc. rewrite Heq in Hpc. destruct Hpc as (Hmiss & Hlen & Hh & v & rec & Hseen & L).
  pose proof Hseen as (-> & Hvok & _ & Hle). destruct (lock_word g σ (lock_of a) I G) as [Hv Ho].
  unfold ctl_read_step in Hs. rewrite Heq, (gr_locks g σ G) in Hs. destruct (Z.eqb_spec (word_of v None) (word_of (ver σ (lock_of a)) (own σ (lock_of a)))) as [Hw|Hw].
  - apply word_inj in Hw as [Hve Hoe]; [|done..]. cbn [negb] in Hs. rewrite word_version in Hs by done.
    destruct (Z.ltb_spec (c_end (c_tx t)) (Z.of_nat v)); injection Hs as <- <-; [|by eapply ctl_record_sim].
    destruct (ctl_drop_sim i σ t _ _ _ L) as (σ' & Hst & U & L'). exists σ'. split_and!; [done|by eapply g_upd|]. split; [done|]. exists rec.
    split; [done|]. split; [|done]. exists v. split_and!; [done..|]. by rewrite (up_ver _ _ _ _ U).
  - injection Hs as <- <-. destruct (ctl_drop_sim i σ t _ _ _ L) as (σ' & Hst & U & L'). exists σ'. split_and!; [done|by eapply g_upd|].
    split; [done|]. split; [done|]. split; [by exists rec|]. exists (own σ (lock_of a)), (ver σ (lock_of a)). split_and!; [done..|].
    by rewrite (up_ver _ _ _ _ U).
Qed.

Lemma ctl_read_sim i σ g t g' t' :
  lv_inv σ → g_rel g σ → (i < n)%nat → t_rel σ i t → ctl_read_step g t = Some (g', t') → sim i σ (g', t').
Proof using Hn.
  intros I G Hi Ht Hs. pose proof Ht as [Hid Hpc]. unfold pc_rel in Hpc. pose proof Hs as Hs'. unfold ctl_read_step in Hs'.
  assert (Hnew : ∀ a sz spin, rmiss t a sz → act_rel σ i t → sim i σ (g, c_at t (CRLoop a sz (g_locks g (lock_of a)) spin))).
  { intros a sz spin Hm Ha. destruct (lock_word g σ (lock_of a) I G). apply csim_stay; [done|]. split; [done|]. split; [done|]. split; [done|].
    rewrite (gr_locks g σ G). eexists _, _. by split_and!. }
  destruct (c_pc t) as [| |a sz|a sz l spin|a sz l spin bs|a sz l spin bs| | | | | | | | | | | | | | | | | | | |] eqn:Heq; try done.
  - injection Hs' as <- <-. destruct Hpc. by apply Hnew.
  - destruct Hpc as (Hm & Ha & o & v & Hseen). pose proof Hseen as (-> & ? & ? & ?). rewrite word_locked in Hs' by done. destruct o as [j|].
    + rewrite bool_decide_true in Hs' by done. destruct (5000 <? S spin)%nat; injection Hs' as <- <-; [|by apply Hnew].
      destruct Ha as (rec & [R _] & _). by eapply ctl_abort_sim.
    + rewrite bool_decide_false in Hs' by (by intros [? ?]). injection Hs' as <- <-. apply csim_stay; [done|]. destruct Ha as (rec & L & Hh). split; [done|].
      split; [done|]. split; [simpl; pose proof (type_size_range sz); lia|]. split; [done|]. by exists v, rec.
  - injection Hs' as <- <-. destruct Hpc as (? & ? & ? & v & rec & ? & ?). by eapply ctl_byte_sim.
  - by eapply ctl_check_sim.
Qed.

(** ** Validation *)

Lemma k_run σ i t k rec : k_rel σ i t k rec → ∃ w p, running p ∧ run_rel σ i t w p [] rec.
Proof.
  destruct k; simpl.
  - intros (_ & _ & [? _] & _). eexists _, _; split; [|eassumption]; done.
  - intros (_ & _ & _ & w0 & _ & [? _]). eexists _, _; split; [|eassumption]; done.
  - intros (_ & _ & _ & w0 & _ & [? _]). eexists _, _; split; [|eassumption]; done.
  - intros [[[? _] _] _]. eexists _, _; split; [|eassumption]; done.
  - intros (_ & ? & _). eexists _, _; split; [|eassumption]; done.
  - intros (_ & ? & _). eexists _, _; split; [|eassumption]; done.
Qed.

Lemma ctl_abort_k i σ g t k rec : g_rel g σ → c_id (c_tx t) = tid i → k_rel σ i t k rec → sim i σ (g, ctl_abort t).
Proof. intros G Hid (w & p & Hr & R)%k_run. by eapply ctl_abort_sim. Qed.

(** More checked reads change nothing else. *)
Lemma live_upd i σ σ' t w rec F :
  live σ i t w [] rec → upd i σ σ' (LVT (ph (thr σ i)) (rds (thr σ i)) (lrds (thr σ i)) F) → fixd (thr σ i) ⊆ F → live σ' i t w [] rec.
Proof.
  intros [R Sn] U HF. pose proof R as (Hp & _ & X & _). split; [|by eapply snap_upd]. eapply crun_upd; [done..|apply X|apply X].
Qed.

Lemma k_upd i σ σ' t k rec F :
  k_rel σ i t k rec → upd i σ σ' (LVT (ph (thr σ i)) (rds (thr σ i)) (lrds (thr σ i)) F) → fixd (thr σ i) ⊆ F → k_rel σ' i t k rec.
Proof.
  intros K U HF. assert (Hc : ∀ cv, commit_rel σ i t cv rec → commit_rel σ' i t cv rec).
  { intros cv (? & R & ?). split; [done|]. split; [|done]. pose proof R as (Hp & _ & X & _). eapply crun_upd; [done..|apply X|apply X]. }
  assert (Hw : ∀ c, wpend σ i t c rec → wpend σ' i t c rec).
  { intros c (? & ? & ? & w & ? & ?). split_and!; [done..|]. exists w. split; [done|by eapply live_upd]. }
  destruct k; simpl in *; auto.
  - destruct K as (? & (v & ? & ? & ? & ?) & ? & ?). split_and!; [done| |by eapply live_upd|done]. exists v. split_and!; [done..|]. by rewrite (up_ver _ _ _ _ U).
  - destruct K as [[? ?] ?]. split; [|done]. split; [by eapply live_upd|done].
Qed.

Lemma ctl_entry_sim i σ g t k r rs rec c :
  lv_inv σ → g_rel g σ → c_id (c_tx t) = tid i → k_rel σ i t k rec → todo σ i rec (r :: rs) c → (c ≤ S (clk σ))%nat →
  (∀ a val v, (a, val, v) ∈ rec → (v < c)%nat) → ctl_validate (g_locks g (lock_of (cr_addr r))) (c_id (c_tx t)) r = true →
  ∃ σ', lv_steps i σ σ' ∧ g_rel g σ' ∧ k_rel σ' i t k rec ∧ todo σ' i rec rs c ∧ clk σ' = clk σ.
Proof using Hn.
  intros I G Hid K Htodo Hc Hlt Hval. destruct (k_run σ i t k rec K) as (w & p & Hr & R). pose proof R as (Hp & _ & X & _).
  destruct (lock_word g σ (lock_of (cr_addr r)) I G) as [Hv Ho]. unfold ctl_validate in Hval. rewrite (gr_locks g σ G), Hid in Hval.
  apply word_valid in Hval as [Hown Hle]; [|done..].
  set (ok := λ e : Z * Z * nat, lock_of (cr_addr r) = lock_of e.1.1 ∧ cr_version r = Z.of_nat e.2).
  destruct (check_steps lock_of i σ c (filter ok rec)) as (σ' & F & Hs & U & HF & Hnew).
  - by rewrite Hp.
  - done.
  - intros a val v [[Hl Hrv] Hin]%list_elem_of_filter. simpl in Hl, Hrv. rewrite Hl in Hown, Hle.
    split_and!; [by rewrite (cr_rds _ _ _ _ _ _ _ X)|done|lia|by eapply Hlt].
  - exists σ'. split_and!; [done|by eapply g_upd|by eapply k_upd| |by rewrite (up_clk _ _ _ _ U)].
    intros a val v Hin. rewrite (up_thr _ _ _ _ U). simpl. destruct (Htodo a val v Hin) as [Hf|(r' & Hr' & Hra & Hrv)]; [left; by apply HF|].
    apply elem_of_cons in Hr' as [->|Hr']; [|right; by exists r']. left. apply Hnew. by apply list_elem_of_filter.
Qed.

Lemma ctodo_start σ i t k rec c : k_rel σ i t k rec → todo σ i rec (c_rset (c_tx t)) c.
Proof. intros (w & p & _ & _ & _ & X & _)%k_run a val v Hin. right. by eapply (cr_rec _ _ _ _ _ _ _ X). Qed.

Lemma ctodo_done σ i rec c : todo σ i rec [] c → ∀ a val v, (a, val, v) ∈ rec → (a, val, v, c) ∈ fixd (thr σ i).
Proof. intros H a val v Hin. destruct (H a val v Hin) as [?|(r & Hr & _)]; [done|by apply elem_of_nil in Hr]. Qed.

(** The snapshot moved to a later version. *)
Lemma crun_extended σ i t w p rec last :
  run_rel σ i t w p [] rec → c_end (c_tx t) ≤ last ≤ Z.of_nat (clk σ) → run_rel σ i (c_with t (ctx_extended (c_tx t) last) (c_pc t)) w p [] rec.
Proof. intros (? & ? & [H1 H2 H3 H4 H5 H6] & ?) Hl. split_and!; [done..| |done]. split; try done. simpl. lia. Qed.

Lemma live_extended σ i t w rec last :
  live σ i t w [] rec → c_end (c_tx t) ≤ last ≤ Z.of_nat (clk σ) → todo σ i rec [] (S (Z.to_nat last)) →
  live σ i (c_with t (ctx_extended (c_tx t) last) (c_pc t)) w [] rec.
Proof.
  intros [R Sn] Hl Ht. split; [by apply crun_extended|]. intros a val v Hin. destruct (Sn a val v Hin). simpl. split; [lia|by eapply ctodo_done].
Qed.

Lemma ctl_decide_sim i σ g t cv rec last :
  g_rel g σ → c_id (c_tx t) = tid i → commit_rel σ i t cv rec → todo σ i rec [] (Z.to_nat cv) →
  sim i σ (ctl_validated skip g t (KFinal cv) last).
Proof.
  intros G Hid (Hcv & R & Hh) Htodo. pose proof R as (Hp & Hact & X & Hown). pose proof (cr_rds _ _ _ _ _ _ _ X) as Hrd. simpl in Hrd.
  destruct (g_decide disc n i g σ _ _ (c_log t) G Hp) as [Hstep G'].
  - rewrite Hrd. by apply ctodo_done.
  - intros Hd. rewrite Hrd, (cr_lrds _ _ _ _ _ _ _ X), app_nil_r. unfold explains. cbn [ce_reads ce_writes].
    by apply (cl_replay _ _ _ _ _ _ (cr_log _ _ _ _ _ _ _ X)).
  - eexists. split_and!; [apply rtc_once, Hstep|done|]. split; [done|]. split; [done|]. split; [|done]. simpl. rewrite fn_lookup_insert, Hid. done.
Qed.

Lemma ctl_validated_sim i σ g t k last rec :
  g_rel g σ → c_id (c_tx t) = tid i → k_rel σ i t k rec → in_validation σ i t k last [] rec → sim i σ (ctl_validated skip g t k last).
Proof.
  intros G Hid K V. destruct k as [a sz l spin|c|c|a rem retries|cv|cv]; simpl in K, V.
  - destruct K as (? & [v ?] & L & ?), V. apply csim_stay; [done|]. split; [done|]. split; [done|]. split; [|by exists None, v].
    exists rec. split; [|done]. by apply live_extended.
  - apply csim_stay; [done|]. split; [done|]. by exists rec.
  - destruct K as (? & ? & ? & w & ? & L), V. apply csim_stay; [done|]. split; [done|]. exists rec. split_and!; [done..|]. exists w. split; [done|]. by apply live_extended.
  - destruct K as [[L ?] ?], V as [Hl Ht]. cbn [ctl_validated]. pose proof (live_extended σ i t _ rec last L Hl Ht) as L'.
    destruct (1000 <=? S retries)%nat; [destruct L' as [R' _]; by eapply ctl_abort_sim|]. apply csim_stay; [done|]. split; [done|]. exists rec.
    split; [|done]. by split.
  - destruct K as (? & R & ?). apply csim_stay; [done|]. split; [done|]. exists rec. split.
    + split; [done|]. split; [|done]. by apply crun_extended.
    + simpl. intros a val v Hin. right. destruct R as (_ & _ & X & _). by eapply (cr_rec _ _ _ _ _ _ _ X).
  - by eapply ctl_decide_sim.
Qed.

(** Where a caller goes on, without a validation. *)
Lemma ctl_continue_sim i σ g t k rec :
  g_rel g σ → c_id (c_tx t) = tid i → soft_caller k → k_rel σ i t k rec → sim i σ (g, ctl_continue t k).
Proof.
  intros G Hid Hs K. apply csim_stay; [done|]. destruct k; try done; simpl in K; (split; [done|]).
  - destruct K as (? & [v ?] & ? & ?). split; [done|]. split; [by exists rec|]. by exists None, v.
  - by exists rec.
  - by exists rec.
Qed.

Lemma ctl_invalid_sim i σ g t k rec : g_rel g σ → c_id (c_tx t) = tid i → k_rel σ i t k rec → sim i σ (g, ctl_invalid t k).
Proof.
  intros G Hid K. destruct k; try (by eapply ctl_abort_k); (apply csim_stay; [done|]; split; [done|]; split; [done|by exists rec]).
Qed.

(** Bounds of the checks of a validation. *)
Lemma validation_bounds i σ t k last rs rec c :
  lv_inv σ → k_rel σ i t k rec → in_validation σ i t k last rs rec →
  match k with KRead _ _ _ _ | KWrite _ | KLock _ _ _ => c = S (Z.to_nat last) | KFinal cv => c = Z.to_nat cv | _ => False end →
  todo σ i rec rs c ∧ (c ≤ S (clk σ))%nat ∧ (∀ a val v, (a, val, v) ∈ rec → (v < c)%nat) ∧
  (∀ σ' rs', clk σ' = clk σ → todo σ' i rec rs' c → in_validation σ' i t k last rs' rec).
Proof.
  intros I K V Hc.
  assert (Hlive : ∀ w, live σ i t w [] rec → c_end (c_tx t) ≤ last ≤ Z.of_nat (clk σ) → c = S (Z.to_nat last) → (c ≤ S (clk σ))%nat ∧ ∀ a val v, (a, val, v) ∈ rec → (v < c)%nat).
  { intros w [_ Sn] ? ->. split; [lia|]. intros a val v Hin. destruct (Sn a val v Hin). lia. }
  destruct k as [a sz l spin|x|x|a rem retries|cv|cv]; try done; simpl in *.
  - destruct K as (_ & _ & L & _), V as [Hl V]. destruct (Hlive _ L Hl Hc). subst c. split_and!; [done..|]. intros σ' rs' ->. done.
  - destruct K as (_ & _ & _ & w & _ & L), V as [Hl V]. destruct (Hlive _ L Hl Hc). subst c. split_and!; [done..|]. intros σ' rs' ->. done.
  - destruct K as [[L _] _], V as [Hl V]. destruct (Hlive _ L Hl Hc). subst c. split_and!; [done..|]. intros σ' rs' ->. done.
  - subst c. destruct K as (Hcv & (Hp & _ & X & _) & _). destruct (iv_inc _ _ σ I i _ _ Hp) as ([? ?] & _ & _ & _ & Hlt).
    rewrite (cr_rds _ _ _ _ _ _ _ X) in Hlt. split_and!; [done|lia|done|done].
Qed.

Lemma ctl_validate_sim i σ g t g' t' :
  lv_inv σ → g_rel g σ → t_rel σ i t → ctl_validate_step skip g t = Some (g', t') → sim i σ (g', t').
Proof using Hn.
  intros I G Ht Hs. pose proof Ht as [Hid Hpc]. unfold pc_rel in Hpc. unfold ctl_validate_step in Hs.
  destruct (c_pc t) as [| | | | | |k|k last rs|k|k| | | | | | | | | | | | | | | |] eqn:Heq; try done.
  - unfold ctl_clock in Hs. destruct (VERSION_MASK <=? g_clock g); injection Hs as <- <-; [by apply csim_stay|]. apply csim_stay; [done|]. split; [done|].
    rewrite (gr_clock g σ G). destruct Hpc as [rec K]. exists rec. split; [done|]. pose proof (ctodo_start σ i t k rec) as Htd.
    destruct (k_run σ i t k rec K) as (w & p & _ & _ & _ & X & _). pose proof (cr_end _ _ _ _ _ _ _ X).
    destruct k; simpl; try done; try (split; [lia|]); try lia; by apply Htd.
  - destruct Hpc as (rec & K & V). destruct rs as [|r rs]; [injection Hs as Hs; rewrite <- Hs; by eapply ctl_validated_sim|].
    destruct (ctl_validate _ _ _) eqn:Hval; injection Hs as <- <-; [|by eapply ctl_invalid_sim].
    pose proof (λ c, validation_bounds i σ t k last (r :: rs) rec c I K V) as Hb.
    assert (Hc : ∀ c, match k with KRead _ _ _ _ | KWrite _ | KLock _ _ _ => c = S (Z.to_nat last) | KFinal cv => c = Z.to_nat cv | _ => False end →
      sim i σ (g, c_at t (CVLoop k last rs))).
    { intros c Hc. destruct (Hb c Hc) as (Htd & ? & ? & Hv). destruct (ctl_entry_sim i σ g t k r rs rec c I G Hid K Htd) as (σ' & ? & ? & ? & ? & ?); [done..|].
      exists σ'. split_and!; [done..|]. split; [done|]. exists rec. split; [done|by apply Hv]. }
    destruct k; simpl in Hc; try (by eapply Hc); (apply csim_stay; [done|]; split; [done|]; by exists rec).
  - destruct Hpc as (Hk & rec & K). destruct (_ || _); injection Hs as <- <-; [by eapply ctl_abort_k|]. apply csim_stay; [done|]. split; [done|]. split; [done|by exists rec].
  - destruct Hpc as (Hk & rec & K). unfold tm_token_try_acquire in Hs. destruct (_ =? FREE); injection Hs as <- <-.
    + by eapply ctl_continue_sim; [apply g_set_token|..].
    + by eapply ctl_abort_k; [apply g_set_token|..].
Qed.

(** ** Writes *)

Lemma ctl_insert_sim i σ g t c rec :
  (i < n)%nat → g_rel g σ → c_id (c_tx t) = tid i → wpend σ i t c rec → ∀ version e,
  cw_type e = ca_sz c → cw_val e = ca_val c →
  sim i σ (g, CT (ctx_read (ctx_wset (c_tx t) (ws_put cwe_none (c_wset (c_tx t)) (ca_addr c) e)) (CRE (ca_sz c) (ca_addr c) version (ca_val c))) CIdle
                 (c_log t ++ [EvW (ca_addr c) (ca_sz c) (u8 (ca_val c))])).
Proof.
  intros Hi G Hid (Hok & Hro & Hh & w & Hl & [(Hp & Hact & X & Hown) Sn]) version e He Hv. apply csim_stay; [done|]. apply cidle_rel; [done..|].
  exists rec. split; [|done]. split; [|done]. split_and!; [done..| |done]. destruct X as [H1 H2 H3 H4 H5 H6]. split; try done.
  - assert (Hid' : 1 ≤ tid i ≤ Z.of_nat n) by (unfold tid; lia). eapply clog_write; [done..|]. eapply ctl_write_put_written; try done. apply (cl_ok _ _ _ _ _ _ H3).
  - intros a val v Hin. by eapply in_rset_app, H4.
Qed.

Lemma ctl_write_sim i σ g t g' t' :
  (i < n)%nat → g_rel g σ → t_rel σ i t → ctl_write_step g t = Some (g', t') → sim i σ (g', t').
Proof.
  intros Hi G [Hid Hpc] Hs. unfold pc_rel in Hpc. unfold ctl_write_step in Hs. destruct (c_pc t); try done.
  - destruct Hpc as [rec W]. destruct (is_locked _); injection Hs as <- <-; (apply csim_stay; [done|]; split; [done|]; by exists rec).
  - destruct Hpc as [rec W]. destruct (negb _); [injection Hs as <- <-; apply csim_stay; [done|]; split; [done|]; by exists rec|].
    destruct (_ <? _); injection Hs as <- <-; [apply csim_stay; [done|]; split; [done|]; by exists rec|]. by eapply ctl_insert_sim.
Qed.

(** ** Commit: the locks and the clock *)

Lemma ctx_eq σ σ' i x w evs pend rec : thr σ' i = thr σ i → clk σ' = clk σ → tx_rel σ i x w evs pend rec → tx_rel σ' i x w evs pend rec.
Proof. intros Ht Hc [H1 H2 H3 H4 H5 H6]. split; rewrite ?Ht, ?Hc; done. Qed.

Lemma own_acquire σ i ls ℓ : own_rel σ i ls → own σ ℓ = None → own_rel (set_own σ ℓ (Some i)) i (ls ++ [ℓ]).
Proof.
  intros [Hnd Hown] Hfree. split.
  - apply NoDup_app. split_and!; [done| |apply NoDup_singleton]. intros ℓ' Hin ->%list_elem_of_singleton. apply Hown in Hin. congruence.
  - intros ℓ'. simpl. rewrite elem_of_app, list_elem_of_singleton. destruct (decide (ℓ' = ℓ)) as [->|]; [rewrite fn_lookup_insert; naive_solver|].
    rewrite fn_lookup_insert_ne by done. rewrite Hown. naive_solver.
Qed.

Lemma ctl_acquire_sim i σ g t a rem rec :
  (i < n)%nat → g_rel g σ → c_id (c_tx t) = tid i → lock_rel σ i t rec (a :: rem) → low_addr a = false → own σ (lock_of a) = None →
  sim i σ (set_lock g (lock_of a) (word_of (ver σ (lock_of a)) (Some i)), c_with t (ctx_hold (c_tx t) (lock_of a)) (CAddr rem)).
Proof.
  intros Hi G Hid ([(Hp & Hact & X & Hown) Sn] & Hh & Hrem & Hcov) Hlow Hfree. exists (set_own σ (lock_of a) (Some i)). split_and!.
  - apply rtc_once. by apply lv_acquire.
  - apply g_set_own; [done|]. by intros j [= <-].
  - split; [done|]. exists rec. split; [split; [|done]|split_and!]; cbn [snd c_tx c_with ctx_hold c_wset c_held].
    + split_and!; [done|done| |by apply own_acquire]. apply (ctx_eq σ); [done..|]. by destruct X.
    + intros ℓ [?| ->%list_elem_of_singleton]%elem_of_app; [by apply Hh|]. exists a. split; [apply Hrem; left|done].
    + intros b Hb. apply Hrem. by right.
    + intros b Hb. rewrite elem_of_app, list_elem_of_singleton. destruct (Hcov b Hb) as [?|[?|[->|?]%elem_of_cons]]; auto.
Qed.

(** The write-back touches only bytes under held locks. *)
Lemma ctl_stores_held i σ t rec x :
  lock_rel σ i t rec [] → x ∈ (stores i (c_wset (c_tx t))).*1 → lock_of x ∈ c_held (c_tx t).
Proof.
  intros ([(_ & _ & X & _) _] & _ & _ & Hcov) Hx. destruct (cl_ok _ _ _ _ _ _ (cr_log _ _ _ _ _ _ _ X)) as [Hwf Hacc].
  destruct (ctl_stores_in skip (tid i) _ x Hwf Hx) as (a & e & He & Hc & _ & Hlow). pose proof (Hacc a e He) as [Ha Hin]%access_ok_spec.
  rewrite (lock_of_acc a (cw_type e) x) by done. destruct (Hcov a) as [?|[?|?%elem_of_nil]]; [|congruence|done|done].
  apply elem_of_list_to_map_2 in He. by apply (list_elem_of_fmap_2 fst) in He.
Qed.

Lemma ctl_increment_sim i σ g t g' t' :
  g_rel g σ → t_rel σ i t → c_pc t = CIncr → ctl_lock_step g t = Some (g', t') → sim i σ (g', t').
Proof.
  intros G [Hid Hpc] Heq Hs. unfold pc_rel in Hpc. rewrite Heq in Hpc. destruct Hpc as (rec & Lk).
  unfold ctl_lock_step in Hs. rewrite Heq in Hs. destruct (VERSION_MAX <=? g_clock g + 1) eqn:Hmax; [done|]. injection Hs as <- <-.
  pose proof Lk as ([(Hp & Hact & X & Hown) Sn] & Hh & _ & _). pose proof (gr_clock g σ G) as Hclk.
  destruct (g_increment disc n i g σ (stores i (c_wset (c_tx t))) G) as [Hstep G']; [done|done| |].
  { intros a Ha. apply Hown. by eapply ctl_stores_held. }
  set (σ' := LVS _ _ _ _ _ _ _) in Hstep, G'.
  assert (K : commit_rel σ' i t (g_clock g + 1) rec).
  { split; [lia|]. split; [|done]. split_and!; [|done| |done].
    - simpl. rewrite fn_lookup_insert. simpl. f_equal. lia.
    - destruct X as [H1 H2 H3 H4 H5 H6]. split; simpl; rewrite ?fn_lookup_insert; try done. lia. }
  destruct (_ <? c_end (c_tx t)).
  - destruct K as (_ & R & _). destruct (ctl_abort_sim i σ' _ t _ _ _ _ G' Hid R Logic.I) as (σ2 & ? & ? & ?). exists σ2. split_and!; [|done..].
    by eapply rtc_l.
  - exists σ'. split_and!; [by apply rtc_once|done|]. cbn [snd]. destruct (negb _); (split; [done|]); exists rec; [done|].
    split; [done|]. by apply (ctodo_start σ' i t (KFinal (g_clock g + 1))).
Qed.

Lemma ctl_ro_sim i σ g t cv :
  g_rel g σ → c_id (c_tx t) = tid i → act_rel σ i t → c_ro (c_tx t) = true →
  sim i σ (WG (g_mem g) (g_clock g) (g_locks g) (g_token g) (g_hist g) ((c_start (c_tx t), c_end (c_tx t), c_log t) :: g_ro g), c_at t (CTok cv)).
Proof.
  intros G Hid (rec & [(Hp & Hact & X & Hown) Sn] & Hh) Hro. rewrite Hh in Hown. pose proof (cr_end _ _ _ _ _ _ _ X) as Hb.
  destruct (g_observe disc n i g σ (c_start (c_tx t)) (c_end (c_tx t)) (c_log t) rec.*1 G Hp) as [Hstep G']; [lia|lia|..].
  - intros a val Hin. apply list_elem_of_fmap in Hin as ([[a' val'] v] & [= -> ->] & Hin). exists v. by apply Sn.
  - intros Hd M HM. destruct (cl_replay _ _ _ _ _ _ (cr_log _ _ _ _ _ _ _ X) Hd M HM) as (M' & ? & Hx). exists M'. split; [done|].
    intros x. rewrite Hx. unfold ctl_stores. by rewrite (cr_ro _ _ _ _ _ _ _ X Hro).
  - eexists. split_and!; [apply rtc_once, Hstep|done|]. split; [done|]. split; [by right|done].
Qed.

Lemma lock_skip σ i t rec a rem : lock_rel σ i t rec (a :: rem) → low_addr a = true ∨ lock_of a ∈ c_held (c_tx t) → lock_rel σ i t rec rem.
Proof.
  intros (L & Hh & Hrem & Hcov) Ha. split_and!; [done|done|by intros b Hb; apply Hrem; right|].
  intros b Hb. destruct (Hcov b Hb) as [?|[?|[->|?]%elem_of_cons]]; auto. destruct Ha; auto.
Qed.

Lemma ctl_lock_sim i σ g t g' t' :
  lv_inv σ → g_rel g σ → (i < n)%nat → t_rel σ i t → ctl_lock_step g t = Some (g', t') → sim i σ (g', t').
Proof using Hn.
  intros I G Hi Ht Hs. pose proof Ht as [Hid Hpc]. unfold pc_rel in Hpc. pose proof Hs as Hs'. unfold ctl_lock_step in Hs'.
  destruct (c_pc t) as [| | | | | | | | | | | | |rem|a rem retries|a rem retries e d| | | | | | | | | |] eqn:Heq; try done.
  - destruct (VERSION_MASK <=? g_clock g); [injection Hs' as <- <-; by apply csim_stay|].
    destruct (c_ro (c_tx t)) eqn:Hro; injection Hs' as <- <-; [by apply ctl_ro_sim|]. destruct Hpc as (rec & L & Hh).
    apply csim_stay; [done|]. split; [done|]. exists rec. pose proof (merge_sort_Permutation (≤) (ws_vec (c_wset (c_tx t))).*1) as Hp.
    split_and!; [done|cbn; rewrite Hh; by intros ? ?%elem_of_nil|..]; cbn; unfold sorted_addrs; setoid_rewrite Hp; auto.
  - destruct Hpc as (rec & Lk). destruct rem as [|a rem]; [injection Hs' as <- <-; apply csim_stay; [done|]; split; [done|by exists rec]|].
    pose proof Lk as ([(_ & _ & _ & Hown) _] & _). destruct (lock_word g σ (lock_of a) I G) as [Hv Ho].
    rewrite (gr_locks g σ G), Hid, word_owned in Hs' by done. destruct (low_addr a) eqn:Hlow; [|case_bool_decide as Hd]; injection Hs' as <- <-;
      (apply csim_stay; [done|]; split; [done|]; exists rec); [apply (lock_skip _ _ _ _ a); auto|apply (lock_skip _ _ _ _ a); [done|right; by apply Hown]|done].
  - destruct Hpc as (rec & Lk & Hlow). destruct (lock_word g σ (lock_of a) I G) as [Hv Ho]. rewrite (gr_locks g σ G), Hid in Hs'.
    destruct (own σ (lock_of a)) as [j|].
    + rewrite word_try_held in Hs' by done. injection Hs' as <- <-. apply csim_stay; [done|]. split; [done|]. by exists rec.
    + rewrite word_try_free in Hs' by (done || by apply (tid_ok n)). injection Hs' as <- <-. apply csim_stay; [done|]. split; [done|]. split; [by exists rec|]. by eexists.
  - destruct Hpc as ((rec & Lk & Hlow) & v & Hv & -> & ->). unfold compare_exchange_strong in Hs'. rewrite (gr_locks g σ G) in Hs'.
    destruct (lock_word g σ (lock_of a) I G) as [Hvo Ho]. destruct (Z.eqb_spec (word_of (ver σ (lock_of a)) (own σ (lock_of a))) (word_of v None)) as [Hw|Hw].
    + apply word_inj in Hw as [<- Hfree]; [|done..]. injection Hs' as <- <-. by eapply ctl_acquire_sim.
    + injection Hs' as <- <-. apply csim_stay; [done|]. split; [done|]. by exists rec.
  - by eapply ctl_increment_sim.
Qed.

(** ** Commit: write-back and release *)

Lemma own_drop σ σ' i ls ℓ : own_rel σ i ls → own σ' = <[ℓ := None]> (own σ) → own_rel σ' i (filter (λ ℓ', ℓ' ≠ ℓ) ls).
Proof.
  intros [Hnd Hown] Hσ. split; [by apply NoDup_filter|]. intros ℓ'. rewrite Hσ, list_elem_of_filter.
  destruct (decide (ℓ' = ℓ)) as [->|]; [rewrite fn_lookup_insert; naive_solver|]. rewrite fn_lookup_insert_ne by done. rewrite Hown. naive_solver.
Qed.

Lemma rel_skip σ i cv a es : rel_rel σ i cv (a :: es) → low_addr a = true ∨ own σ (lock_of a) ≠ Some i → rel_rel σ i cv es.
Proof.
  intros (? & ? & ls & Hown & Hin) Ha. split; [done|]. split; [done|]. exists ls. split; [done|]. intros ℓ Hℓ.
  destruct (Hin ℓ Hℓ) as (b & [->|?]%elem_of_cons & ? & <-); [|by exists b]. destruct Ha as [?|Ha]; [congruence|]. destruct Ha. by apply Hown.
Qed.

Lemma ctl_unlock_sim i σ g t cv a es g' t' :
  lv_inv σ → g_rel g σ → t_rel σ i t → c_pc t = CRelUnlock cv a es → ctl_release_step g t = Some (g', t') → sim i σ (g', t').
Proof using Hn.
  intros I G [Hid Hpc] Heq Hs. unfold pc_rel in Hpc. rewrite Heq in Hpc. destruct Hpc as ((Hcv & Hp & ls & Hown & Hin) & Ho).
  destruct (g_release disc m0 n Hn i g σ _ (lock_of a) I G Hp Ho) as (Hu & Hstep & G'). unfold ctl_release_step in Hs. rewrite Heq, Hid in Hs.
  rewrite Z2Nat.id in Hu by done. rewrite Hu in Hs. injection Hs as <- <-. eexists. split_and!; [apply rtc_once, Hstep|done|]. split; [done|].
  split; [done|]. split; [done|]. exists (filter (λ ℓ', ℓ' ≠ lock_of a) ls). split; [by eapply own_drop|].
  intros ℓ [Hne Hℓ]%list_elem_of_filter. destruct (Hin ℓ Hℓ) as (b & [->|?]%elem_of_cons & ? & <-); [done|by exists b].
Qed.

Lemma ctl_release_sim i σ g t g' t' :
  lv_inv σ → g_rel g σ → t_rel σ i t → ctl_release_step g t = Some (g', t') → sim i σ (g', t').
Proof using Hn.
  intros I G Ht Hs. pose proof Ht as [Hid Hpc]. unfold pc_rel in Hpc. pose proof Hs as Hs'. unfold ctl_release_step in Hs'.
  destruct (c_pc t) as [| | | | | | | | | | | | | | | | |cv st|cv es|cv a es|cv a es| | | | |] eqn:Heq; try done.
  - destruct Hpc as (? & Hp & ? & ?). destruct st as [|[a b] st]; injection Hs' as <- <-.
    + apply csim_stay; [done|]. split; [done|]. split; [done|]. split; [done|]. by exists (c_held (c_tx t)).
    + destruct (g_writeback disc n i g σ _ _ _ _ G Hp) as [Hstep G']. eexists. split_and!; [apply rtc_once, Hstep|done|].
      split; [done|]. split; [done|]. split; [|done]. simpl. by rewrite fn_lookup_insert.
  - destruct es as [|a es].
    + injection Hs' as <- <-. destruct Hpc as (? & ? & ls & [Hnd Hown] & Hin). apply csim_stay; [done|]. split; [done|]. split; [left; by eexists|].
      split; [apply NoDup_nil_2|]. intros ℓ. rewrite Hown. split; [|by intros ?%elem_of_nil]. intros (a & ?%elem_of_nil & _)%Hin. done.
    + destruct (lock_word g σ (lock_of a) I G) as [Hv Ho]. rewrite (gr_locks g σ G), Hid, word_locked_by in Hs' by done.
      destruct (low_addr a) eqn:Hlow; [|case_bool_decide as Hd]; injection Hs' as <- <-; (apply csim_stay; [done|]; split; [done|]);
        [apply (rel_skip _ _ _ a); auto|done|apply (rel_skip _ _ _ a); auto].
  - destruct Hpc as (Hr & Ho). pose proof Hr as (Hcv & Hp & _). destruct (lock_word g σ (lock_of a) I G) as [Hv Hok].
    destruct (iv_dec _ _ σ I i _ _ Hp) as (_ & _ & _ & Hlt). specialize (Hlt _ Ho). rewrite (gr_locks g σ G), word_version in Hs' by done.
    destruct (Z.ltb_spec cv (Z.of_nat (ver σ (lock_of a)))); [lia|]. injection Hs' as <- <-. apply csim_stay; [done|]. split; [done|]. done.
  - by eapply ctl_unlock_sim.
  - injection Hs' as <- <-. destruct Hpc as [Hp Ho]. pose proof (upd_set_thr i σ (LVT PIdle [] [] [])) as U.
    exists (set_thr σ i (LVT PIdle [] [] [])). split_and!.
    + apply rtc_once. destruct Hp as [[c Hp]|Hp]; (eapply (lv_finish _ _ _ ltac:(first [exact c|exact O])); [|by apply no_locks]); [by left|by right; right].
    + apply g_set_token. by eapply g_upd.
    + split; [done|]. split; [by rewrite (up_thr _ _ _ _ U)|]. split; [done|by eapply own_upd].
Qed.

(** ** Aborts *)

Lemma cfresh_rel i σ σ' x :
  (i < n)%nat → upd i σ σ' (LVT PActive [] [] []) → own_rel σ i [] → c_active x = true → empty_ctx x →
  0 ≤ c_start x ≤ c_end x ∧ c_end x ≤ Z.of_nat (clk σ) → act_rel σ' i (CT x CIdle []).
Proof.
  intros Hi U Hown Hact (Hrs & Hws & Hh) Hb. exists []. split; [|done]. split; [|by intros ? ? ? ?%elem_of_nil].
  split; [by rewrite (up_thr _ _ _ _ U)|]. split; [done|]. split; [|simpl; rewrite Hh; by eapply own_upd].
  split; rewrite ?(up_thr _ _ _ _ U), ?(up_clk _ _ _ _ U); simpl; rewrite ?Hws; try done.
  - by apply clog_nil.
  - intros *. by intros ?%elem_of_nil.
Qed.

Lemma ctl_restart_sim i σ g t :
  (i < n)%nat → g_rel g σ → c_id (c_tx t) = tid i → abort_rel σ i t [] → empty_ctx (c_tx t) →
  sim i σ (set_token g (tm_token_release_if_held (g_token g) (c_id (c_tx t))), CT (c_tx t) CIdle []).
Proof.
  intros Hi G Hid (Hp & Hact & Hown & Hb) He. set (σ1 := set_thr σ i (LVT PIdle [] [] [])). set (σ2 := set_thr σ1 i (LVT PActive [] [] [])).
  assert (U1 : upd i σ σ1 (LVT PIdle [] [] [])) by apply upd_set_thr. assert (U : upd i σ σ2 (LVT PActive [] [] [])) by (eapply upd_trans; [done|apply upd_set_thr]).
  exists σ2. split_and!.
  - eapply rtc_l; [apply (lv_finish _ _ σ O); [by right; left|by apply no_locks]|]. apply rtc_once. apply lv_begin. change (ph (thr σ1 i) = PIdle).
    by rewrite (up_thr _ _ _ _ U1).
  - apply g_set_token. by eapply g_upd.
  - apply cidle_rel; [done..|]. by eapply cfresh_rel.
Qed.

Lemma ctl_abort_steps_sim i σ g t g' t' :
  lv_inv σ → g_rel g σ → (i < n)%nat → t_rel σ i t → ctl_abort_step g t = Some (g', t') → sim i σ (g', t').
Proof using Hn.
  intros I G Hi [Hid Hpc] Hs. unfold pc_rel in Hpc. unfold ctl_abort_step in Hs. destruct (c_pc t) as [| | | | | | | | | | | | | | | | | | | | | |ls|ℓ ls|ℓ ls|]; try done.
  - destruct ls as [|ℓ ls]; injection Hs as <- <-.
    + apply csim_stay; [done|]. split; [done|]. by split.
    + assert (Ho : own σ ℓ = Some i) by (apply Hpc; left). destruct (lock_word g σ ℓ I G) as [? Hok]. rewrite (gr_locks g σ G), word_locked by done.
      rewrite bool_decide_true by (rewrite Ho; by eexists). apply csim_stay; [done|by split].
  - injection Hs as <- <-. assert (Ho : own σ ℓ = Some i) by (apply Hpc; left). destruct (lock_word g σ ℓ I G) as [? Hok].
    rewrite (gr_locks g σ G), Hid, word_owned by done. rewrite bool_decide_true by done. apply csim_stay; [done|by split].
  - injection Hs as <- <-. destruct Hpc as (Hp & Hact & Hown & Hb). assert (Ho : own σ ℓ = Some i) by (apply Hown; left). destruct (lock_word g σ ℓ I G).
    rewrite (gr_locks g σ G), word_unlock by done. eexists. split_and!; [apply rtc_once; by eapply lv_release|by apply g_set_own|].
    split; [done|]. split; [done|]. split; [done|]. split; [by eapply own_release|done].
  - injection Hs as <- <-. destruct Hpc. by apply ctl_restart_sim.
Qed.

(** ** Calls *)

Lemma ctl_begin_sim i σ g t g' t' :
  (i < n)%nat → g_rel g σ → t_rel σ i t → c_pc t = CBegin → ctl_clock g t (λ clock, CT (ctx_begin (c_tx t) clock) CIdle []) = Some (g', t') → sim i σ (g', t').
Proof.
  intros Hi G Ht Heq Hs. pose proof Ht as [Hid Hpc]. unfold pc_rel in Hpc. rewrite Heq in Hpc. destruct Hpc as [(Hp & Hact & Hown) He].
  unfold ctl_clock in Hs. destruct (_ <=? _); injection Hs as <- <-; [by apply csim_stay|]. pose proof (upd_set_thr i σ (LVT PActive [] [] [])) as U.
  eexists. split_and!; [apply rtc_once; by apply lv_begin|by eapply g_upd|]. apply cidle_rel; [done..|].
  eapply cfresh_rel; [done|done|done|done|by destruct He as (? & ? & ?)|]. simpl. rewrite (gr_clock g σ G). lia.
Qed.

(** An access that ends with an event in the log. *)
Lemma ctl_event_sim i σ g t rec w ro ev :
  g_rel g σ → c_id (c_tx t) = tid i → live σ i t (c_wset (c_tx t)) [] rec → c_held (c_tx t) = [] → (ro = true → ws_vec w = []) →
  clog_ok skip n (tid i) rec.*1 w (c_log t ++ [ev]) →
  sim i σ (g, CT (CTx (c_id (c_tx t)) (c_start (c_tx t)) (c_end (c_tx t)) (c_commit (c_tx t)) (c_active (c_tx t)) ro (c_aborts (c_tx t)) (c_retry (c_tx t)) (c_rset (c_tx t)) w (c_held (c_tx t))) CIdle (c_log t ++ [ev])).
Proof.
  intros G Hid [(Hp & Hact & X & Hown) Sn] Hh Hro Hlog. apply csim_stay; [done|]. apply cidle_rel; [done..|]. exists rec. split; [|done]. split; [|done].
  split_and!; [done..| |done]. destruct X as [H1 H2 H3 H4 H5 H6]. by split.
Qed.

Lemma ctl_call_read_sim i σ g t a sz :
  (i < n)%nat → g_rel g σ → c_id (c_tx t) = tid i → act_rel σ i t → access_ok a sz = true → sim i σ (g, ctl_call_read t a sz).
Proof.
  intros Hi G Hid Ha Hok. pose proof Ha as (rec & L & Hh). pose proof L as [(_ & _ & X & _) _]. destruct X as [_ _ Hlog _ _ Hro].
  assert (Hid' : 1 ≤ tid i ≤ Z.of_nat n) by (unfold tid; lia).
  assert (Hev : ∀ ev, clog_ok skip n (tid i) rec.*1 (c_wset (c_tx t)) (c_log t ++ [ev]) → sim i σ (g, CT (c_tx t) CIdle (c_log t ++ [ev]))).
  { intros ev Hl. pose proof (ctl_event_sim i σ g t rec (c_wset (c_tx t)) (c_ro (c_tx t)) ev G Hid L Hh Hro Hl) as H. by destruct (c_tx t). }
  unfold ctl_call_read. destruct (ctl_lookup (c_wset (c_tx t)) a sz) as [v|] eqn:Hlk; [by apply Hev, clog_read_hit|].
  destruct (low_addr a) eqn:Hlow; [|apply csim_stay; [done|]; split; [done|]; by split].
  apply Hev, clog_read; [done|]. intros _ (Hl & _)%ctl_read_fits_spec. congruence.
Qed.

Lemma ctl_call_write_sim i σ g t a sz v :
  (i < n)%nat → g_rel g σ → c_id (c_tx t) = tid i → act_rel σ i t → access_ok a sz = true → sim i σ (g, ctl_call_write t a sz v).
Proof.
  intros Hi G Hid Ha Hok. pose proof Ha as (rec & L & Hh). pose proof L as [(Hp & Hact & X & Hown) Sn]. pose proof X as [H1 H2 Hlog H4 H5 H6].
  assert (Hid' : 1 ≤ tid i ≤ Z.of_nat n) by (unfold tid; lia). unfold ctl_call_write.
  destruct (ctl_write_local (c_wset (c_tx t)) a v sz) as [w|w] eqn:Hl.
  - apply (ctl_event_sim i σ g t rec w false); [done..|]. eapply clog_write; [done..|]. apply ctl_write_local_written; [|done..]. apply (cl_ok _ _ _ _ _ _ Hlog).
  - apply csim_stay; [done|]. split; [done|]. exists rec. split_and!; [done..|]. exists (c_wset (c_tx t)). split; [done|]. split; [|done].
    split_and!; [done..| |done]. by split.
Qed.

Lemma ctl_call_sim i σ g t o g' t' :
  (i < n)%nat → g_rel g σ → t_rel σ i t → ctl_call o g t = Some (g', t') → sim i σ (g', t').
Proof.
  intros Hi G Ht Hs. pose proof Ht as [Hid Hpc]. unfold pc_rel in Hpc. unfold ctl_call in Hs. destruct (c_pc t) eqn:Heq; try done.
  destruct o as [|a sz|a sz v|]; destruct (c_active (c_tx t)) eqn:Hact; simpl in Hs; try done.
  - injection Hs as <- <-. by apply csim_stay.
  - injection Hs as <- <-. apply csim_stay; [done|]. split; [done|]. by split.
  - destruct (access_ok a sz) eqn:Hok; [|done]. injection Hs as <- <-. by apply ctl_call_read_sim.
  - destruct (access_ok a sz) eqn:Hok; [|done]. injection Hs as <- <-. by apply ctl_call_write_sim.
  - injection Hs as <- <-. by apply csim_stay.
Qed.

Lemma ctl_step_sim i σ g t g' t' :
  lv_inv σ → g_rel g σ → (i < n)%nat → t_rel σ i t → ctl_step skip g t = Some (g', t') → sim i σ (g', t').
Proof using Hn.
  intros I G Hi Ht Hs. unfold ctl_step in Hs. destruct (c_pc t) eqn:Heq; try done;
    first [by eapply ctl_begin_sim|by eapply ctl_read_sim|by eapply ctl_validate_sim|by eapply ctl_lock_sim|by eapply ctl_release_sim
          |by eapply ctl_abort_steps_sim|by eapply ctl_write_sim].
Qed.
End Sim.
