(* ===== verification/WBCTLSpec.v ===== *)
(** * What TinySTM (write-back, commit-time locking) guarantees

    The properties of every interleaved execution, from the simulation of [WBCTLSim], and
    of the sub-word rules of the write set. *)

From S2P Require Import Prelude Memory Values TMSpec LogMerge TxLog TinyLock TinyWriteSet Support LockWord VersionedLocks TinyShared TinySim WBCTL WBCTLLog WBCTLSim.
#[local] Open Scope Z_scope.
#[local] Open Scope word_scope.

(** ** Sub-word writes into an eight-byte entry *)

Lemma merged_bits ev v k s j :
  0 ≤ s → 0 ≤ k → s + k ≤ 64 → 0 ≤ j < 64 →
  Z.testbit ((ev .& not64 (Z.ones k .<< s)) .| (wrap k v .<< s)) j = if (s <=? j) && (j <? s + k) then Z.testbit v (j - s) else Z.testbit ev j.
Proof.
  intros. unfold not64, shl64. rewrite Z.lor_spec, Z.land_spec, !testbit_wrap, Z.lnot_spec, !testbit_wrap, !testbit_shl, testbit_ones, testbit_wrap by lia.
  destruct (Z.ltb_spec j s) as [Hlt|]; [rewrite (Z.testbit_neg_r v (j - s)) by lia|];
    zcmp; simpl; try lia; by rewrite ?andb_false_r, ?andb_true_r, ?orb_false_r.
Qed.

Lemma merged_byte ev v k s i :
  0 ≤ s → 0 ≤ k → s + k ≤ 8 → 0 ≤ i < 8 →
  byte_at ((ev .& not64 (Z.ones (8 * k) .<< (8 * s))) .| (wrap (8 * k) v .<< (8 * s))) i = if (s <=? i) && (i <? s + k) then byte_at v (i - s) else byte_at ev i.
Proof.
  intros. unfold byte_at. apply Z.bits_inj'. intros j Hj.
  destruct ((s <=? i) && (i <? s + k)) eqn:Hc; rewrite !testbit_wrap, !Z.shiftr_spec by lia; (destruct (Z.ltb_spec j 8); [|done]); cbn [andb];
    rewrite merged_bits by lia; zcmp; simpl in *; try lia; try done. f_equal. lia.
Qed.

(** The write-back after an entry got another value. *)
Lemma ctl_set_stores skip id w m b e v x :
  cset_ok w → c_separate w → wset_map w !! b = Some e → kept skip id b →
  mget (wr m (ctl_stores skip id (ctl_set w b v))) x =
    if decide (e_covers b e x) then byte_at (u8 v) (x - b) else mget (wr m (ctl_stores skip id w)) x.
Proof.
  intros [Hwf Hacc] Hs He Hk. destruct (ctl_set_map w b v Hwf) as [Hwf' Hm]. specialize (Hm e He).
  assert (Hs' : c_separate (ctl_set w b v)).
  { intros a1 e1 a2 e2 y H1 H2 C1 C2. apply (set_types w b v e) in H1 as (e1' & H1 & T1); [|done..]. apply (set_types w b v e) in H2 as (e2' & H2 & T2); [|done..].
    apply (Hs a1 e1' a2 e2' y); unfold e_covers in *; rewrite ?T1, ?T2; done. }
  case_decide as Hc.
  - rewrite (ctl_stores_at skip id _ m b (cwe_set e v)); try done. rewrite Hm. apply lookup_insert_eq.
  - destruct (decide (map_Exists (λ a' e', in_acc a' (cw_type e') x) (wset_map w))) as [(a' & e' & He' & Hc')|Hnone].
    + assert (Hne : b ≠ a') by (intros <-; rewrite He in He'; by injection He' as <-).
      destruct (decide (kept skip id a')) as [Hk'|Hk'].
      * rewrite (ctl_stores_at skip id w m a' e'), (ctl_stores_at skip id (ctl_set w b v) m a' e'); try done. by rewrite Hm, lookup_insert_ne.
      * unfold mget. rewrite !wr_lookup_ne; [done|..]; intros Hx.
        -- apply ctl_stores_in in Hx as (a2 & e2 & H2 & C2 & K2); [|done]. destruct Hk'. by rewrite (Hs a' e' a2 e2 x).
        -- apply ctl_stores_in in Hx as (a2 & e2 & H2 & C2 & K2); [|done]. destruct Hk'.
           rewrite (Hs' a' e' a2 e2 x); try done. by rewrite Hm, lookup_insert_ne.
    + rewrite !ctl_stores_out; try done.
      * intros a' e' He' Hc'. apply Hnone. by exists a', e'.
      * intros a' e' He' Hc'. apply (set_types w b v e) in He' as (e1 & H1 & T1); [|done..]. apply Hnone. exists a', e1. unfold e_covers in Hc'. by rewrite T1.
Qed.

(** The masks of the merge rules. *)
Lemma sub_mask_ones sz v : sub_word sz = true → sub_mask sz v = Some (Z.ones (8 * nbytes_of sz), wrap (8 * nbytes_of sz) (u8 v)).
Proof. unfold sub_word. rewrite bool_decide_eq_true. by intros [->|[->| ->]]. Qed.

(** The entry at the base of the word keeps other entries out of it. *)
Lemma word_entry_alone w a b e : c_separate w → is_w 64 a → base_addr (ByteOffset_of a) = b → offset (ByteOffset_of a) ≠ 0 →
  wset_map w !! b = Some e → cw_type e = UINT64 → wset_map w !! a = None.
Proof.
  intros Hs Ha <- Ho He Ht. destruct (wset_map w !! a) as [e'|] eqn:He'; [|done]. exfalso. destruct (base_split a Ha) as [Hb Hof].
  pose proof (Z.mod_pos_bound a 8). pose proof (nbytes_range (cw_type e')).
  assert (a = base_addr (ByteOffset_of a)); [|lia]. apply (Hs a e' _ e a); [done|done|unfold e_covers, in_acc; lia|].
  unfold e_covers, in_acc. rewrite Ht. change (nbytes_of UINT64) with 8. lia.
Qed.

Lemma merge_local w a sz v b e :
  cset_ok w → c_separate w → is_w 64 a → base_addr (ByteOffset_of a) = b → wset_map w !! b = Some e → cw_type e = UINT64 →
  sz = UINT8 ∨ (sub_word sz = true ∧ offset (ByteOffset_of a) ≠ 0) →
  ctl_write_local w a v sz = inl (ctl_set w b (AnyT ((u8 (cw_val e) .& not64 (Z.ones (8 * nbytes_of sz) .<< (8 * offset (ByteOffset_of a)))) .|
                                                     (wrap (8 * nbytes_of sz) (u8 v) .<< (8 * offset (ByteOffset_of a)))))).
Proof.
  intros [Hwf _] Hs Ha Hb He Ht Hsz. unfold ctl_write_local. destruct (base_split a Ha) as [Hbo _]. destruct (Z.eq_dec (offset (ByteOffset_of a)) 0) as [Hz|Hz].
  - destruct Hsz as [->|[_ ?]]; [|done]. assert (b = a) as -> by lia. rewrite Hz. unfold ctl_write_exact. rewrite ws_find_lookup, He by done.
    cbn [mbind option_bind]. rewrite Ht, bool_decide_false, bool_decide_true by done. change (Z.ones (8 * nbytes_of UINT8) .<< (8 * 0)) with 0xFF.
    do 3 f_equal. unfold shl64, u1. rewrite Z.mul_0_r, Z.shiftl_0_r. change (8 * nbytes_of UINT8) with 8.
    pose proof (wrap_is_w 8 (u8 v)) as Hw. unfold is_w in Hw. f_equal. symmetry. apply Z.mod_small. lia.
  - assert (sub_word sz = true) as Hsw by (by destruct Hsz as [->|[? _]]). pose proof (word_entry_alone w a b e Hs Ha Hb Hz He Ht) as Hnone.
    unfold ctl_write_exact. rewrite ws_find_lookup, Hnone by done. cbn [mbind option_bind]. unfold ctl_write_merge.
    rewrite (proj2 (Z.eqb_neq _ _) Hz), Hb, ws_find_lookup, He by done. cbn [mbind option_bind]. rewrite bool_decide_true by done.
    rewrite sub_mask_ones by done. cbn [mbind option_bind fst snd]. by rewrite (Z.mul_comm _ 8).
Qed.

(** C24: a sub-word write over a buffered eight-byte value changes its bytes and no
    others.  The write of one byte anywhere in the word, or of two or four bytes away
    from its base, is merged into the eight-byte entry by mask and shift; whatever
    is written back then is, byte for byte, what storing the value over the earlier
    write-back would give. *)
Theorem ctl_subword_merge skip id w m a sz v e :
  cset_ok w → c_separate w → access_ok a sz = true → wset_map w !! base_addr (ByteOffset_of a) = Some e → cw_type e = UINT64 →
  kept skip id (base_addr (ByteOffset_of a)) → sz = UINT8 ∨ (sub_word sz = true ∧ offset (ByteOffset_of a) ≠ 0) →
  ∃ w', ctl_write_local w a v sz = inl w' ∧
    ∀ x, mget (wr m (ctl_stores skip id w')) x = mget (write_value_to_addr (wr m (ctl_stores skip id w)) a v sz) x.
Proof.
  intros Hok Hs Hacc He Ht Hk Hsz. destruct (access_end a sz Hacc) as (Ha & Hin & _). destruct (base_split a Ha) as [Hb Ho].
  pose proof (nbytes_range sz). pose proof (Z.mod_pos_bound a 8). eexists. split; [by apply (merge_local w a sz v (base_addr (ByteOffset_of a)) e)|]. intros x.
  rewrite (ctl_set_stores skip id w m _ e) by done. rewrite write_value_mget. set (b := base_addr (ByteOffset_of a)) in *. set (o := offset (ByteOffset_of a)) in *.
  unfold e_covers. rewrite Ht. unfold in_acc at 1. change (nbytes_of UINT64) with 8. destruct (decide (b ≤ x < b + 8)) as [Hx|Hx].
  - cbn [u8]. rewrite merged_byte by lia. unfold in_acc. case_decide as Hc.
    + rewrite (proj2 (Z.leb_le _ _)), (proj2 (Z.ltb_lt _ _)) by lia. cbn [andb]. f_equal. lia.
    + destruct (_ && _) eqn:Hc'; [rewrite andb_true_iff, Z.leb_le, Z.ltb_lt in Hc'; lia|].
      symmetry. apply ctl_stores_at; try done; [apply Hok|]. unfold e_covers, in_acc. by rewrite Ht.
  - rewrite decide_False; [done|]. unfold in_acc. lia.
Qed.

(** Stacks far from the addresses below, in plugin mode. *)
Definition far_stack : Z → Z → bool := ctl_skip false (λ _, false) (λ id, 0x7F0000000000 + id * 0x10000000).

(** An eight-byte value written, then two of its bytes. *)
Definition merge_base : wset WriteLogEntry_wbctl := ws_put cwe_none (WSet [] ∅) 0x100008 (CWE UINT64 0x100008 0 (AnyT 0x1122334455667788)).

Lemma merge_base_map : wset_map merge_base = {[0x100008 := CWE UINT64 0x100008 0 (AnyT 0x1122334455667788)]}.
Proof. unfold merge_base. by destruct (ws_put_map cwe_none (WSet [] ∅) 0x100008 (CWE UINT64 0x100008 0 (AnyT 0x1122334455667788)) (co_wf _ cset_ok_empty)) as [_ ->]. Qed.

Lemma ctl_subword_merge_witness :
  ∃ w', ctl_write_local merge_base 0x10000A (AnyT 0xABCD) UINT16 = inl w' ∧ return_any_type UINT64 (read_value_from_addr (wr ∅ (ctl_stores far_stack 1 w')) 0x100008 UINT64) = 0x11223344ABCD7788.
Proof.
  destruct (ctl_subword_merge far_stack 1 merge_base ∅ 0x10000A UINT16 (AnyT 0xABCD) (CWE UINT64 0x100008 0 (AnyT 0x1122334455667788))) as (w' & Hw & Hx).
  - split; [apply (ws_put_map cwe_none (WSet [] ∅)), cset_ok_empty|]. intros a e. rewrite merge_base_map. intros [<- <-]%lookup_singleton_Some. reflexivity.
  - intros a1 e1 a2 e2 x. rewrite merge_base_map. by intros [<- <-]%lookup_singleton_Some [<- <-]%lookup_singleton_Some.
  - reflexivity.
  - rewrite merge_base_map. reflexivity.
  - reflexivity.
  - split; reflexivity.
  - right. split; [reflexivity|vm_compute; discriminate].
  - exists w'. split; [exact Hw|]. rewrite (read_mget_ext _ _ 0x100008 UINT64 (λ x _, Hx x)). vm_compute. reflexivity.
Defined.

(** ** Executions *)

Section Executions.
Context (skip : Z → Z → bool).
#[local] Abbreviation t_rel := (t_rel skip).
#[local] Abbreviation all_transparent n := (all_disc (ctl_transparent skip n)).
#[local] Abbreviation g_rel n := (g_rel (ctl_transparent skip n) n).
#[local] Abbreviation creachable := (creachable skip).

Lemma cinit_rel m n :
  ∃ σ, lv_reachable lock_of m σ ∧ g_rel n (winit m) σ ∧ ∀ i t, (cthread_init <$> seqZ 1 (Z.of_nat n)) !! i = Some t → t_rel n σ i t.
Proof.
  exists (LVS m 1 (λ _, O) (λ _, None) ∅ (λ _, LVT PIdle [] [] []) []). split_and!.
  - apply lv_init. by split_and!.
  - split; try done. intros r. by intros ?%elem_of_nil.
  - intros i t Ht. apply list_lookup_fmap_Some in Ht as (z & -> & [-> _]%lookup_seqZ). split; [simpl; unfold tid; lia|].
    split; [done|]. split; [done|]. split; [apply NoDup_nil_2|]. intros ℓ. simpl. split; [done|by intros ?%elem_of_nil].
Qed.

Lemma creachable_sim m n g ts :
  Z.of_nat n < MAX_THREADS → creachable m n (g, ts) →
  ∃ σ, lv_reachable lock_of m σ ∧ g_rel n g σ ∧ length ts = n ∧ ∀ i t, ts !! i = Some t → t_rel n σ i t.
Proof.
  intros Hn Hr. remember (g, ts) as s eqn:Es. revert g ts Es. induction Hr as [|s s' Hr IH Hs]; intros g ts Es.
  - injection Es as <- <-. destruct (cinit_rel m n) as (σ & ? & ? & ?). exists σ. split_and!; [done..| |done].
    rewrite length_fmap, length_seqZ. lia.
  - subst s'. destruct s as [g1 ts1]. destruct (IH g1 ts1 eq_refl) as (σ & Hreach & G & Hlen & HT).
    pose proof (reachable_inv _ _ σ Hreach) as I.
    assert (∃ i t t', ts1 !! i = Some t ∧ ts = <[i := t']> ts1 ∧ sim skip n i σ (g, t')) as (i & t & t' & Hi & -> & σ' & Hsteps & G' & T').
    { inversion Hs as [? ? i t o ? t' Ht Hc|? ? i t ? t' Ht Hc]; subst; exists i, t, t'; (split_and!; [done..|]).
      - eapply ctl_call_sim; eauto using lookup_lt_Some.
      - eapply ctl_step_sim; eauto using lookup_lt_Some. }
    exists σ'. destruct (steps_threads _ _ (t_rel n) ts1 i t' σ σ' Hreach Hsteps) as [? ?]; [intros *; apply ct_frame|exact HT|exact T'|].
    by split_and!; [|done|rewrite length_insert|].
Qed.

(** A thread in the middle of its write-back. *)
Definition cwriting_back (t : cthread) : bool := match c_pc t with CBack _ (_ :: _) => true | _ => false end.

Lemma cquiescent_mem m n g ts σ x :
  lv_inv lock_of m σ → g_rel n g σ → length ts = n → (∀ i t, ts !! i = Some t → t_rel n σ i t) → forallb (negb ∘ cwriting_back) ts = true →
  mget (g_mem g) x = at_ver m (hist σ) (clk σ) x.
Proof.
  intros I G Hlen HT Hq. rewrite <- (iv_mem _ _ σ I), (gr_mem _ n g σ G). unfold pend. destruct (own σ (lock_of x)) as [i|] eqn:Ho; [|done].
  destruct (ph (thr σ i)) as [| | |cv ws|] eqn:Hp; try done. destruct ws as [|s ws]; [done|]. exfalso.
  destruct (lookup_lt_is_Some_2 ts i) as [t Ht]; [rewrite Hlen; by eapply (gr_own _ n g σ G)|].
  destruct (HT i t Ht) as [_ Hpc]. rewrite forallb_forall in Hq. specialize (Hq t). unfold cwriting_back, pc_rel, compose in *.
  assert (In t ts) as Hin by (apply list_elem_of_In; by eapply list_elem_of_lookup_2). specialize (Hq Hin).
  destruct (c_pc t); repeat match goal with k : ccaller |- _ => destruct k end; try destruct (c_active (c_tx t)); simpl in Hpc;
    unfold act_rel, inactive_rel, abort_rel, commit_rel, lock_rel, wpend, rel_rel, live, run_rel in *; dexs; try congruence; try done.
  all: try match goal with H : ph _ = PDec _ ?st |- _ => rewrite Hp in H; by injection H as _ <- end.
  all: match goal with H : _ ∨ _ |- _ => destruct H as [[? ?]|?] end; congruence.
Qed.

(** C3: TinySTM with write-back and commit-time locking is serializable.  In every
    interleaved execution, replaying the logs of the committed update transactions one
    after the other, in the order of their commit versions, succeeds: every read returns
    what it returned in the execution.  Whenever no thread is writing back, the result is
    the shared memory.  Every committed read-only transaction read a state of that
    serial execution, not older than its begin and not newer than its commit.  (For the
    accesses of [ctl_transparent]: the write set drops or misses some overlapping
    accesses of different widths.) *)
Theorem wbctl_serializable m n g ts :
  Z.of_nat n < MAX_THREADS → creachable m n (g, ts) → all_transparent n (g_hist g) →
  (∃ m', serial m (g_hist g) (Z.to_nat (g_clock g)) = Some m' ∧
     (forallb (negb ∘ cwriting_back) ts = true → ∀ x, mget m' x = mget (g_mem g) x)) ∧
  (∀ s e evs, (s, e, evs) ∈ g_ro g → ctl_transparent skip n evs = true → 0 ≤ s ≤ e ∧ e ≤ g_clock g ∧
     ∃ m1 m2, serial m (g_hist g) (Z.to_nat e) = Some m1 ∧ replay m1 evs = Some m2 ∧ ∀ x, mget m2 x = mget m1 x).
Proof.
  intros Hn Hr Hd. destruct (creachable_sim m n g ts Hn Hr) as (σ & Hreach & G & Hlen & HT). pose proof (reachable_inv _ _ σ Hreach) as I.
  split; [|by intros; eapply ro_serial].
  rewrite (gr_clock _ n g σ G), Nat2Z.id. destruct (serial_at _ m n g σ (clk σ) I G Hd) as (M & HM & Hx). exists M. split; [done|].
  intros Hq x. rewrite Hx. symmetry. by eapply cquiescent_mem.
Qed.

(** The part of [commit] and [abort_tx] that may hold locks. *)
Definition may_hold (t : cthread) : bool :=
  match c_pc t with
  | CEClock k | CVLoop k _ _ | CSoft k | CSoftCas k => match k with KLock _ _ _ | KGap _ | KFinal _ => true | _ => false end
  | CAddr _ | CTry _ _ _ | CCas _ _ _ _ _ | CIncr | CBack _ _ | CRel _ _ | CRelVersion _ _ _ | CRelUnlock _ _ _ => true
  | CUnlock _ | COwner _ _ | CClear _ _ => true
  | _ => false
  end.

Lemma holds_none n σ i t : t_rel n σ i t → may_hold t = false → own_rel σ i [].
Proof.
  intros [_ Hpc] Hm. unfold pc_rel, may_hold in *. destruct (c_pc t); try done;
    repeat match goal with k : ccaller |- _ => destruct k end; try done; try destruct (c_active (c_tx t)); simpl in Hpc;
    unfold act_rel, inactive_rel, abort_rel, wpend, live, run_rel in *; dexs; try done;
    match goal with H : c_held _ = [], H' : own_rel _ _ _ |- _ => by rewrite H in H' end.
Qed.

(** Locks are held only while committing.  In every reachable state, a locked lock
    word carries the id of a thread that is between the lock loop of its [commit] and the
    end of its release loop, or unlocking in [abort_tx]; so when no thread is there, all
    locks are free. *)
Theorem wbctl_commit_time_locks m n g ts ℓ :
  Z.of_nat n < MAX_THREADS → creachable m n (g, ts) → is_locked (g_locks g ℓ) = true →
  ∃ i t, ts !! i = Some t ∧ may_hold t = true ∧ get_owner (g_locks g ℓ) = c_id (c_tx t).
Proof.
  intros Hn Hr Hl. destruct (creachable_sim m n g ts Hn Hr) as (σ & Hreach & G & Hlen & HT). pose proof (reachable_inv _ _ σ Hreach) as I.
  destruct (lock_word _ m n Hn g σ ℓ I G) as [Hv Ho]. rewrite (gr_locks _ n g σ G) in *. rewrite word_locked in Hl by done. apply bool_decide_eq_true in Hl as [i Hi].
  destruct (lookup_lt_is_Some_2 ts i) as [t Ht]; [rewrite Hlen; by eapply (gr_own _ n g σ G)|]. exists i, t. split_and!; [done|..].
  - destruct (may_hold t) eqn:Hm; [done|]. destruct (no_locks σ i (holds_none n σ i t (HT i t Ht) Hm) ℓ Hi).
  - rewrite word_owner by done. rewrite Hi. by destruct (HT i t Ht) as [-> _].
Qed.
End Executions.

(** Two threads: the first reads a word and writes beside it, the second writes another
    word and commits while the first holds its lock; the first then finds a gap. *)

Definition wbctl_schedule : list (nat * option cop) :=
  let run k i := replicate k (i, None) in
  [(0%nat, Some COpBegin); (0%nat, None); (1%nat, Some COpBegin); (1%nat, None); (0%nat, Some (COpRead 0x101000 UINT16))] ++ run 5%nat 0%nat ++
  [(1%nat, Some (COpWrite 0x102008 UINT8 (AnyT 9)))] ++ run 2%nat 1%nat ++ [(0%nat, Some (COpWrite 0x101004 UINT32 (AnyT 77)))] ++ run 2%nat 0%nat ++
  [(0%nat, Some COpCommit)] ++ run 4%nat 0%nat ++ [(1%nat, Some COpCommit)] ++ run 15%nat 1%nat ++ run 19%nat 0%nat.

Definition wbctl_after (k : nat) : wglobal * list cthread :=
  default (winit ∅, []) (crun far_stack (winit ∅, cthread_init <$> seqZ 1 2) (take k wbctl_schedule)).

Lemma wbctl_after_reachable k :
  match crun far_stack (winit ∅, cthread_init <$> seqZ 1 2) (take k wbctl_schedule) with Some _ => true | None => false end = true →
  creachable far_stack ∅ 2 ((wbctl_after k).1, (wbctl_after k).2).
Proof. intros H. rewrite <- surjective_pairing. eapply (crun_reachable far_stack ∅ 2 _ (take k wbctl_schedule)); [apply creach_init|]. by apply default_Some. Qed.

Lemma wbctl_serializable_witness :
  ∃ m', serial ∅ (g_hist (wbctl_after 60).1) (Z.to_nat (g_clock (wbctl_after 60).1)) = Some m' ∧
    mget m' 0x101004 = mget (g_mem (wbctl_after 60).1) 0x101004 ∧ mget (g_mem (wbctl_after 60).1) 0x101004 = 77.
Proof.
  destruct (proj1 (wbctl_serializable far_stack ∅ 2 (wbctl_after 60).1 (wbctl_after 60).2 eq_refl (wbctl_after_reachable 60 ltac:(vm_compute; reflexivity))
    ltac:(assert (map_Forall (λ _ evs, ctl_transparent far_stack 2 evs = true) (g_hist (wbctl_after 60).1)) as H;
          [apply (bool_decide_unpack _); vm_compute; exact I|exact H]))) as (m' & Hm & Hq).
  exists m'. split; [exact Hm|]. split; [apply Hq; vm_compute; reflexivity|vm_compute; reflexivity].
Defined.

(** The first thread holds the lock of its word, before the second commits. *)
Lemma wbctl_commit_time_locks_witness :
  ∃ i t, (wbctl_after 21).2 !! i = Some t ∧ may_hold t = true ∧ get_owner (g_locks (wbctl_after 21).1 (lock_of 0x101004)) = c_id (c_tx t).
Proof.
  apply (wbctl_commit_time_locks far_stack ∅ 2 _ (wbctl_after 21).2 (lock_of 0x101004) eq_refl (wbctl_after_reachable 21 ltac:(vm_compute; reflexivity))).
  vm_compute. reflexivity.
Defined.

(** ** Well-typed states *)

(** The values of the reads in a log fit the width of their type. *)
Definition log_typed (evs : list event) : Prop := ∀ a sz v, EvR a sz v ∈ evs → is_w (8 * nbytes_of sz) v.

Definition thread_typed (t : cthread) : Prop :=
  log_typed (c_log t) ∧ match c_pc t with CBack _ st => Forall (λ ab, is_byte ab.2) st | _ => True end.

Record global_typed (g : wglobal) : Prop := GlobalTyped {
  gt_mem : mem_ok (g_mem g);
  gt_clock : 1 ≤ g_clock g;
  gt_hist : ∀ c evs, g_hist g !! c = Some evs → log_typed evs;
  gt_ro : ∀ s e evs, (s, e, evs) ∈ g_ro g → log_typed evs;
}.

Lemma log_typed_nil : log_typed [].
Proof. by intros a sz v ?%elem_of_nil. Qed.

Lemma log_typed_read evs a sz v : log_typed evs → log_typed (evs ++ [EvR a sz (return_any_type sz v)]).
Proof.
  intros H a' sz' v' [?|Heq%list_elem_of_singleton]%elem_of_app; [by eapply H|]. injection Heq as -> -> ->. rewrite any_value. apply wrap_is_w.
  pose proof (nbytes_range sz). lia.
Qed.

Lemma log_typed_write evs a sz v : log_typed evs → log_typed (evs ++ [EvW a sz v]).
Proof. intros H a' sz' v' [?|Heq%list_elem_of_singleton]%elem_of_app; [by eapply H|done]. Qed.

Lemma ctl_stores_bytes skip id w : Forall (λ ab, is_byte ab.2) (ctl_stores skip id w).
Proof.
  unfold ctl_stores. apply Forall_concat, Forall_fmap, Forall_true. intros [a e]. unfold compose, ctl_entry_stores. destruct (_ || _); [constructor|].
  apply value_stores_bytes.
Qed.

#[local] Hint Resolve log_typed_nil log_typed_read log_typed_write ctl_stores_bytes : core.

Lemma call_typed o g t g' t' : global_typed g → thread_typed t → ctl_call o g t = Some (g', t') → global_typed g' ∧ thread_typed t'.
Proof.
  intros G [Hl Hb] Hs. unfold ctl_call, ctl_call_read, ctl_call_write in Hs. repeat (case_match; simplify_eq/=); (split; [done|]); split; simpl; auto; by case_match.
Qed.

(** States of other locks, tokens and clocks. *)
Lemma global_typed_same g g' : g_mem g' = g_mem g → g_hist g' = g_hist g → g_ro g' = g_ro g → g_clock g ≤ g_clock g' → global_typed g → global_typed g'.
Proof. intros H1 H2 H3 H4 [? ? ? ?]. split; rewrite ?H1, ?H2, ?H3; try done. lia. Qed.

Lemma thread_typed_at g g' t t' :
  g_mem g' = g_mem g ∧ g_hist g' = g_hist g ∧ g_ro g' = g_ro g ∧ g_clock g ≤ g_clock g' → global_typed g → (c_log t' = c_log t ∨ log_typed (c_log t')) →
  match c_pc t' with CBack _ st => Forall (λ ab, is_byte ab.2) st | _ => True end → log_typed (c_log t) → global_typed g' ∧ thread_typed t'.
Proof. intros (? & ? & ? & ?) G Hl Hp Ht. split; [by apply (global_typed_same g)|]. split; [destruct Hl as [->|?]; done|done]. Qed.

Lemma step_typed skip g t g' t' : global_typed g → thread_typed t → ctl_step skip g t = Some (g', t') → global_typed g' ∧ thread_typed t'.
Proof.
  intros G [Hl Hb] Hs. unfold ctl_step in Hs. destruct (c_pc t) eqn:Heq; try done.
  all: unfold ctl_clock, ctl_read_step, ctl_validate_step, ctl_write_step, ctl_lock_step, ctl_release_step, ctl_abort_step in Hs; rewrite ?Heq in Hs.
  all: unfold ctl_validated, ctl_invalid, ctl_continue, ctl_clock, compare_exchange_strong, SpinToken.tm_token_try_acquire in Hs.
  all: repeat (case_match; try done); try injection Hs as <- <-.
  all: try (eapply (thread_typed_at g); [split_and!; [done..|simpl; lia]|done|first [by left|by right; auto]|try done; cbn; by rewrite ?Heq|done]).
  - split; [done|]. split; [by apply log_typed_read|done].
  - split; [|by split; [done|apply ctl_stores_bytes]]. destruct G as [? ? Hh ?]. split; try done. simpl. intros c evs.
    rewrite lookup_insert_Some. intros [[<- <-]|[_ ?]]; [done|by eapply Hh].
  - split; [done|]. split; [by apply log_typed_write|done].
  - split; [|done]. destruct G as [? ? ? Hr]. split; try done. simpl. intros s e evs [Heq'|?]%elem_of_cons; [by injection Heq' as -> -> ->|by eapply Hr].
  - apply Forall_cons in Hb as [Hb1 Hb2]. split; [|done]. destruct G as [Hm ? ? ?]. split; try done. simpl. apply (wr_mem_ok _ [(z, z0)]); [done|by constructor].
  - apply bind_Some in Hs as (s & _ & Hs). injection Hs as <- <-. by eapply (thread_typed_at g); [split_and!; [done..|simpl; lia]|done|left|..].
Qed.

Lemma creachable_typed skip m n g ts :
  mem_ok m → creachable skip m n (g, ts) → global_typed g ∧ ∀ i t, ts !! i = Some t → thread_typed t.
Proof.
  intros Hm Hr. remember (g, ts) as s eqn:Es. revert g ts Es. induction Hr as [|s s' Hr IH Hs]; intros g ts Es.
  - injection Es as <- <-. split; [split; try done; by intros s e evs ?%elem_of_nil|]. intros i t Ht. apply list_lookup_fmap_Some in Ht as (z & -> & _).
    split; [apply log_typed_nil|done].
  - subst s'. destruct s as [g1 ts1]. destruct (IH g1 ts1 eq_refl) as [G HT].
    assert (∃ i t', ts = <[i := t']> ts1 ∧ global_typed g ∧ thread_typed t') as (i & t' & -> & G' & T').
    { inversion Hs as [? ? i t o ? t' Ht Hc|? ? i t ? t' Ht Hc]; subst; exists i, t'; (split; [done|]).
      - by eapply call_typed; eauto.
      - by eapply step_typed; eauto. }
    split; [done|]. intros j u Hj. apply list_lookup_insert_Some in Hj as [(-> & <- & _)|[Hne Hj]]; [done|by eapply HT].
Qed.

(** C25: every reachable state is well typed.  Starting from a memory of bytes, the memory
    stays one through every interleaving and every partial write-back; lock words are
    64-bit words whose version does not exceed the clock, which stays below its
    maximum; thread ids are distinct and fit the owner field; and each value a
    transaction has read, running or committed, fits the width of the type it was read
    at. *)
Theorem wbctl_well_typed skip m n g ts :
  Z.of_nat n < MAX_THREADS → mem_ok m → creachable skip m n (g, ts) →
  mem_ok (g_mem g) ∧ 1 ≤ g_clock g < VERSION_MAX ∧
  (∀ ℓ, is_w 64 (g_locks g ℓ) ∧ get_version (g_locks g ℓ) ≤ g_clock g) ∧
  (∀ i t, ts !! i = Some t → c_id (c_tx t) = Z.of_nat i + 1 ∧ c_id (c_tx t) ≤ THREAD_MASK ∧ log_typed (c_log t)) ∧
  (∀ c evs, g_hist g !! c = Some evs → log_typed evs).
Proof.
  intros Hn Hm Hr.
  destruct (creachable_typed skip m n g ts Hm Hr) as [[Hgm Hc Hgh _] Ht]. destruct (creachable_sim skip m n g ts Hn Hr) as (σ & Hreach & G & Hlen & HT).
  pose proof (reachable_inv _ _ σ Hreach) as I. pose proof (gr_clock _ n g σ G) as Hclk. pose proof (gr_max _ n g σ G).
  split_and!; [done|lia|lia|..|done].
  - intros ℓ. destruct (lock_word _ m n Hn g σ ℓ I G) as [Hv Ho]. rewrite (gr_locks _ n g σ G), word_version by done. split; [by apply word_is_w|].
    pose proof (iv_ver _ _ σ I ℓ). lia.
  - intros i t Hi. destruct (HT i t Hi) as [Hid _]. apply lookup_lt_Some in Hi as Hlt. split_and!; [rewrite Hid; unfold tid; lia| |by apply (Ht i)].
    rewrite Hid. unfold tid. change THREAD_MASK with (2 ^ 13 - 1). change MAX_THREADS with (2 ^ 13) in Hn. lia.
Qed.

Lemma wbctl_well_typed_witness :
  get_version (g_locks (wbctl_after 60).1 (lock_of 0x101004)) = 3 ∧ g_clock (wbctl_after 60).1 = 3 ∧
  get_version (g_locks (wbctl_after 60).1 (lock_of 0x101004)) ≤ g_clock (wbctl_after 60).1.
Proof.
  split; [vm_compute; reflexivity|]. split; [vm_compute; reflexivity|].
  assert (mem_ok ∅) as Hm by (intros a; unfold mget; rewrite lookup_empty; split; vm_compute; congruence).
  apply (proj1 (proj2 (proj2 (wbctl_well_typed far_stack ∅ 2 (wbctl_after 60).1 (wbctl_after 60).2 eq_refl Hm (wbctl_after_reachable 60 ltac:(vm_compute; reflexivity)))))).
Defined.

(** ** Overlapping writes of different widths *)

(** A two-byte or four-byte write to the base of a buffered eight-byte value is dropped:
    the write set does not change, and the log says it did. *)
Lemma ctl_base_write_dropped sz v :
  sz = UINT16 ∨ sz = UINT32 → ctl_write_local merge_base 0x100008 v sz = inl merge_base.
Proof. intros [->| ->]; vm_compute; reflexivity. Qed.

(** A one-byte write into a buffered four-byte value is dropped as well. *)
Lemma ctl_byte_write_dropped v :
  let w := ws_put cwe_none (WSet [] ∅) 0x100008 (CWE UINT32 0x100008 0 (AnyT 0x11223344)) in
  ctl_write_local w 0x100009 v UINT8 = inl w.
Proof. vm_compute. reflexivity. Qed.

(** A two-byte read at the base of a buffered four-byte value goes to memory. *)
Lemma ctl_base_read_missed :
  ctl_lookup (ws_put cwe_none (WSet [] ∅) 0x100008 (CWE UINT32 0x100008 0 (AnyT 0x11223344))) 0x100008 UINT16 = None.
Proof. vm_compute. reflexivity. Qed.
