(* ===== verification/Region.v ===== *)
(** * Region allocator (common/tm_region_allocator.hpp, tm_region_allocator.cpp)

    All transactional memory comes from one mapped region, cut into slabs that threads
    claim with an atomic counter.  A thread carves its slab into 64 KB chunks, one size
    class each, and into large blocks; freed blocks go to lists of the freeing thread.
    All metadata (chunk headers, bitmaps, free-list links, large headers) lives in the
    memory that is handed out, so the model runs on byte memory and every access of the
    code is a load or store at the address the code computes.  An operation is a function
    on the memory, the shared slab counter and the thread-local variables of the calling
    thread; [None] is [std::abort] (region exhausted). *)

From stdpp Require Import functions.
From S2P Require Import Prelude Memory.
#[local] Open Scope Z_scope.
#[local] Open Scope word_scope.

(** ** Constants *)

Definition TM_REGION_SIZE : Z := 16 * 1024 * 1024 * 1024.
Definition TM_SLAB_PAGES : Z := 256.
Definition CHUNK_SIZE : Z := 65536.
Definition CHUNK_MASK : Z := CHUNK_SIZE - 1.
Definition CHUNK_HEADER_SZ : Z := 32.
Definition MAX_CLASSES : nat := 32.
Definition BITMAP_THRESHOLD : Z := 256.
Definition CHUNK_MAGIC : Z := 0x544D4348.
Definition LARGE_MAGIC : Z := 0x544D4C52.
(** [sizeof(LargeHdr)]: two 32-bit fields and a pointer. *)
Definition LARGE_HDR : Z := 16.

(** Typed loads and stores of [n]-byte unsigned integers. *)
Definition ldn (n : nat) (m : mem) (a : Z) : Z := le_word (load_bytes m a n).
Definition stn (n : nat) (m : mem) (a v : Z) : mem := store_bytes m a (le_bytes n v).

(** [__builtin_ctzll], the number of trailing zero bits of a nonzero word. *)
Fixpoint ctz_loop (fuel : nat) (w i : Z) : Z :=
  match fuel with
  | O => i
  | S fuel' => if Z.testbit w i then i else ctz_loop fuel' w (i + 1)
  end.
Definition ctzll (w : Z) : Z := ctz_loop 64 w 0.

(** ** Size classes (tm_region_init) *)

Definition kSizeTable : list Z :=
  [16; 24; 32; 40; 48; 56; 64; 80; 96; 112; 128; 160; 192; 224; 256; 320; 384; 448; 512; 640; 768; 896;
   1024; 1280; 1536; 1792; 2048; 2560; 3072; 3584; 4096; 0].

(** A row of the four size-class tables. *)
Record sc_row := Row { r_size : Z; r_count : Z; r_bitmap : Z; r_off : Z }.

(** The largest number of blocks that fits behind header and bitmap. *)
Fixpoint bitmap_fit (bs : Z) (bc : nat) : sc_row :=
  match bc with
  | O => Row bs 0 0 0
  | S bc' =>
      let c := Z.of_nat bc in
      let bm_bytes := (c + 7) .>> 3 in
      let hdr_total := CHUNK_HEADER_SZ + bm_bytes in
      let data_off := (hdr_total + 4095) .& wrap 32 (Z.lnot 4095) in
      let total := data_off + c * bs in
      if total <=? CHUNK_SIZE then Row bs (wrap 16 c) (wrap 16 bm_bytes) (wrap 16 data_off)
      else bitmap_fit bs bc'
  end.

Definition sc_compute (bs : Z) : sc_row :=
  if bs <=? BITMAP_THRESHOLD then bitmap_fit bs (Z.to_nat ((CHUNK_SIZE - CHUNK_HEADER_SZ) / bs))
  else Row bs (wrap 16 ((CHUNK_SIZE - 4096) / bs)) 0 4096.

(** The loop over the classes; it stops at the first size 0, the rest stays zero. *)
Fixpoint sc_tables (sizes : list Z) : list sc_row :=
  match sizes with
  | [] => []
  | bs :: sizes' => if bs =? 0 then [Row 0 0 0 0] else sc_compute bs :: sc_tables sizes'
  end.

(** ** Region *)

Record tm_range := Range { rg_start : Z; rg_end : Z }.

Record region := Region {
  g_region_inited : bool;
  g_tm_region_start : Z;
  g_tm_region_end : Z;
  g_slab_size : Z;
  g_slab_size_shift : Z;
  g_chunks_per_slab : Z;
  g_sc : list sc_row;
  g_num_slabs : Z;
  g_tm_globals : list tm_range;
}.

Definition no_region : region := Region false 0 0 0 0 0 [] 0 [].

Definition isTMGlobal (r : region) (a : Z) : bool :=
  existsb (λ g, (rg_start g <=? a) && (a <? rg_end g)) (g_tm_globals r).

Definition isTMAddress (r : region) (a : Z) : bool :=
  (g_tm_region_start r <=? a) && (a <? g_tm_region_end r).

(** [g_tm_stack_low] and [g_tm_stack_high] of the calling thread. *)
Definition isOnCurrentThreadStack (low high a : Z) : bool :=
  if (low =? 0) || (high =? 0) then false else (low <=? a) && (a <? high).

Definition with_globals (r : region) (l : list tm_range) : region :=
  Region (g_region_inited r) (g_tm_region_start r) (g_tm_region_end r) (g_slab_size r) (g_slab_size_shift r)
    (g_chunks_per_slab r) (g_sc r) (g_num_slabs r) l.

Definition tm_register_global (addr size : Z) (r : region) : region :=
  with_globals r (g_tm_globals r ++ [Range addr (addr + size)]).

(** The table of annotated globals that the plugin emits: addresses and sizes. *)
Fixpoint registerStaticTMSymbols (syms : list (Z * Z)) (globals : list tm_range) : list tm_range :=
  match syms with
  | [] => globals
  | (addr, size) :: syms' =>
      if (addr =? 0) || (size =? 0) then registerStaticTMSymbols syms' globals
      else if existsb (λ g, rg_start g =? addr) globals then registerStaticTMSymbols syms' globals
      else registerStaticTMSymbols syms' (globals ++ [Range addr (addr + size)])
  end.

(** On a 64-bit target.  [mmap] is the result of the system call, [None] for MAP_FAILED. *)
Definition tm_region_init (page_size : Z) (mmap : option Z) (syms : list (Z * Z)) (r : region) : Z * region :=
  if g_region_inited r then (0, r)
  else
    let region_size := TM_REGION_SIZE in
    let slab_size := TM_SLAB_PAGES * page_size in
    let shift := ctzll slab_size in
    let chunks := slab_size .>> ctzll CHUNK_SIZE in
    let tables := sc_tables kSizeTable in
    match mmap with
    | None =>
        (-1, Region false (g_tm_region_start r) (g_tm_region_end r) slab_size shift chunks tables
               (g_num_slabs r) (g_tm_globals r))
    | Some addr =>
        let aligned_start := wrap64 (addr + CHUNK_MASK) .& not64 CHUNK_MASK in
        let aligned_size := region_size .& not64 CHUNK_MASK in
        let aligned_size :=
          if addr + region_size <? aligned_start + aligned_size then aligned_size - CHUNK_SIZE else aligned_size in
        (0, Region true aligned_start (aligned_start + aligned_size) slab_size shift chunks tables
              (aligned_size .>> shift) (registerStaticTMSymbols syms (g_tm_globals r)))
    end.

(** ** Thread-local state and operations *)

Record fl_list := FL { fl_head : Z; fl_count : Z }.

Record tls := TLS {
  slab_bump : Z;
  slab_end : Z;
  tl_free_lists : nat → fl_list;
  tl_hot_chunks : nat → Z;
  tl_large_free_list : Z;
}.

Definition tls_init : tls := TLS 0 0 (λ _, FL 0 0) (λ _, 0) 0.

Record heap := Heap { hmem : mem; g_next_slab_idx : Z; tl : tls }.

(** State passing with abort. *)
Definition AM (A : Type) : Type := heap → option (A * heap).
#[export] Instance am_ret : MRet AM := λ A x h, Some (x, h).
#[export] Instance am_bind : MBind AM := λ A B f c h, match c h with Some (x, h') => f x h' | None => None end.

Definition am_abort {A} : AM A := λ _, None.
Definition get_tl : AM tls := λ h, Some (tl h, h).
Definition set_tl (t : tls) : AM unit := λ h, Some ((), Heap (hmem h) (g_next_slab_idx h) t).
Definition load (n : nat) (a : Z) : AM Z := λ h, Some (ldn n (hmem h) a, h).
Definition store (n : nat) (a v : Z) : AM unit := λ h, Some ((), Heap (stn n (hmem h) a v) (g_next_slab_idx h) (tl h)).
Definition memset0 (a : Z) (n : nat) : AM unit :=
  λ h, Some ((), Heap (store_bytes (hmem h) a (replicate n 0)) (g_next_slab_idx h) (tl h)).
Definition memcpy (dst src : Z) (n : nat) : AM unit :=
  λ h, Some ((), Heap (store_bytes (hmem h) dst (load_bytes (hmem h) src n)) (g_next_slab_idx h) (tl h)).
Definition fetch_add_slab (n : Z) : AM Z :=
  λ h, Some (g_next_slab_idx h, Heap (hmem h) (wrap64 (g_next_slab_idx h + n)) (tl h)).

Definition set_slab (bump en : Z) : AM unit :=
  t ← get_tl; set_tl (TLS bump en (tl_free_lists t) (tl_hot_chunks t) (tl_large_free_list t)).
Definition set_free_list (sc : nat) (l : fl_list) : AM unit :=
  t ← get_tl; set_tl (TLS (slab_bump t) (slab_end t) (<[sc := l]> (tl_free_lists t)) (tl_hot_chunks t) (tl_large_free_list t)).
Definition set_hot (sc : nat) (c : Z) : AM unit :=
  t ← get_tl; set_tl (TLS (slab_bump t) (slab_end t) (tl_free_lists t) (<[sc := c]> (tl_hot_chunks t)) (tl_large_free_list t)).
Definition set_large (p : Z) : AM unit :=
  t ← get_tl; set_tl (TLS (slab_bump t) (slab_end t) (tl_free_lists t) (tl_hot_chunks t) p).

Section Ops.
Context (r : region).

Definition sc_get (sc : nat) : sc_row := default (Row 0 0 0 0) (g_sc r !! sc).
Definition g_sc_block_size (sc : nat) : Z := r_size (sc_get sc).
Definition g_sc_block_count (sc : nat) : Z := r_count (sc_get sc).
Definition g_sc_bitmap_bytes (sc : nat) : Z := r_bitmap (sc_get sc).
Definition g_sc_data_off (sc : nat) : Z := r_off (sc_get sc).

Fixpoint size_class_loop (rows : list sc_row) (i : nat) (sz : Z) : nat :=
  match rows with
  | [] => MAX_CLASSES
  | row :: rows' =>
      if r_size row =? 0 then MAX_CLASSES
      else if sz <=? r_size row then i
      else size_class_loop rows' (S i) sz
  end.
Definition size_class_for (sz : Z) : nat := size_class_loop (g_sc r) 0 sz.

Definition chunk_start (p : Z) : Z := p .& not64 CHUNK_MASK.
Definition chunk_block_ptr (base idx : Z) (sc : nat) : Z := base + g_sc_data_off sc + idx * g_sc_block_size sc.
Definition chunk_block_idx (base p : Z) (sc : nat) : Z := wrap64 (p - base - g_sc_data_off sc) / g_sc_block_size sc.
Definition chunk_bitmap (hdr : Z) : Z := hdr + CHUNK_HEADER_SZ.

(** One pass of [bitmap_find_free] over the words [i], ..., [i + n - 1]. *)
Fixpoint find_free_pass (m : mem) (bm block_count : Z) (i : Z) (n : nat) : option Z :=
  match n with
  | O => None
  | S n' =>
      let w := ldn 8 m (bm + 8 * i) in
      let idx := (i .<< 6) .| ctzll (not64 w) in
      if negb (w =? not64 0) && (idx <? block_count) then Some idx
      else find_free_pass m bm block_count (i + 1) n'
  end.

(** Two passes, the second from the first word; -1 if every block is taken. *)
Definition bitmap_find_free (bm block_count hint : Z) : AM Z := λ h,
  let words := (block_count + 63) .>> 6 in
  let start_w := hint .>> 6 in
  let res :=
    match find_free_pass (hmem h) bm block_count start_w (Z.to_nat (words - start_w)) with
    | Some idx => idx
    | None => default (-1) (find_free_pass (hmem h) bm block_count 0 (Z.to_nat words))
    end in
  Some (res, h).

Definition bitmap_set (bm idx : Z) : AM unit :=
  w ← load 8 (bm + 8 * (idx .>> 6));
  store 8 (bm + 8 * (idx .>> 6)) (w .| (1 .<< (idx .& 63))).

Definition bitmap_clear (bm idx : Z) : AM unit :=
  w ← load 8 (bm + 8 * (idx .>> 6));
  store 8 (bm + 8 * (idx .>> 6)) (w .& not64 (1 .<< (idx .& 63))).

Definition fl_next (base off : Z) : AM Z := if off =? 0 then mret 0 else load 4 (base + off).
Definition fl_set_next (base off nxt : Z) : AM unit := store 4 (base + off) nxt.

Definition tl_fl_push (sc : nat) (p : Z) : AM unit :=
  t ← get_tl;
  let fl := tl_free_lists t sc in
  store 8 p (fl_head fl);;
  set_free_list sc (FL p (wrap 32 (fl_count fl + 1))).

Definition tl_fl_pop (sc : nat) : AM Z :=
  t ← get_tl;
  let fl := tl_free_lists t sc in
  if fl_head fl =? 0 then mret 0
  else
    hd ← load 8 (fl_head fl);
    set_free_list sc (FL hd (wrap 32 (fl_count fl - 1)));;
    mret (fl_head fl).

(** [size] bytes from the current slab, or from [needed] fresh slabs. *)
Definition slab_carve (size needed : Z) : AM Z :=
  t ← get_tl;
  let p := slab_bump t in
  let next := wrap64 (p + size) in
  if slab_end t <? next then
    idx ← fetch_add_slab needed;
    let slab := wrap64 (g_tm_region_start r + idx * g_slab_size r) in
    if g_tm_region_end r <? wrap64 (slab + needed * g_slab_size r) then am_abort
    else
      set_slab (wrap64 (slab + size)) (wrap64 (slab + needed * g_slab_size r));;
      mret slab
  else
    set_slab next (slab_end t);;
    mret p.

(** Links of the blocks [i], ..., of a fresh freelist chunk, [n] of them. *)
Fixpoint link_blocks (p d_off bs : Z) (i : Z) (n : nat) : AM unit :=
  match n with
  | O => mret ()
  | S n' =>
      store 4 (p + (d_off + i * bs)) (d_off + (i + 1) * bs);;
      link_blocks p d_off bs (i + 1) n'
  end.

(** The header and the bitmap or free list of a fresh chunk. *)
Definition chunk_init (p : Z) (sc : nat) : AM unit :=
  store 4 p CHUNK_MAGIC;;
  store 2 (p + 4) (Z.of_nat sc);;
  store 2 (p + 6) 0;;
  store 4 (p + 8) (g_sc_block_size sc);;
  store 4 (p + 12) (g_sc_block_count sc);;
  store 4 (p + 16) (g_sc_block_count sc);;
  if 0 <? g_sc_bitmap_bytes sc then
    store 2 (p + 6) 1;;
    store 4 (p + 20) 0;;
    memset0 (chunk_bitmap p) (Z.to_nat (g_sc_bitmap_bytes sc))
  else
    let bs := g_sc_block_size sc in
    let bcnt := g_sc_block_count sc in
    let d_off := g_sc_data_off sc in
    link_blocks p d_off bs 0 (Z.to_nat (bcnt - 1));;
    store 4 (p + (d_off + (bcnt - 1) * bs)) 0;;
    store 4 (p + 20) d_off.

Definition tm_region_chunk_alloc (sc : nat) : AM Z :=
  p ← slab_carve CHUNK_SIZE 1;
  chunk_init p sc;;
  mret p.

(** The part of [tm_region_malloc] for requests above the largest class. *)
Definition malloc_bump_large (sz : Z) : AM Z :=
  let alloc_sz := wrap64 (wrap64 (sz + LARGE_HDR) + 15) .& not64 15 in
  let needed := wrap64 (alloc_sz + g_slab_size r - 1) .>> g_slab_size_shift r in
  p ← slab_carve alloc_sz needed;
  store 4 p LARGE_MAGIC;;
  store 4 (p + 4) sz;;
  store 8 (p + 8) 0;;
  mret (p + LARGE_HDR).

Definition malloc_large (sz : Z) : AM Z :=
  t ← get_tl;
  let h := tl_large_free_list t in
  if h =? 0 then malloc_bump_large sz
  else
    size ← load 4 (h + 4);
    if sz <=? size then
      next ← load 8 (h + 8);
      set_large next;;
      store 4 (h + 4) sz;;
      mret (h + LARGE_HDR)
    else malloc_bump_large sz.

Definition fresh_hot (sc : nat) : AM Z :=
  chunk ← tm_region_chunk_alloc sc;
  set_hot sc chunk;;
  mret chunk.

(** Step 2 of [tm_region_malloc]: a hot chunk with a free block. *)
Definition malloc_hot (sc : nat) : AM Z :=
  t ← get_tl;
  chunk ← (if tl_hot_chunks t sc =? 0 then fresh_hot sc else mret (tl_hot_chunks t sc));
  free_count ← load 4 (chunk + 16);
  if free_count =? 0 then fresh_hot sc else mret chunk.

(** Step 3: a block of the chunk. *)
Definition malloc_block (sc : nat) (chunk : Z) : AM Z :=
  if 0 <? g_sc_bitmap_bytes sc then
    block_count ← load 4 (chunk + 12);
    hint ← load 4 (chunk + 20);
    found ← bitmap_find_free (chunk_bitmap chunk) block_count hint;
    chunk ← (if found <? 0 then fresh_hot sc else mret chunk);
    let idx := if found <? 0 then 0 else found in
    bitmap_set (chunk_bitmap chunk) idx;;
    store 4 (chunk + 20) (idx + 1);;
    free_count ← load 4 (chunk + 16);
    store 4 (chunk + 16) (free_count - 1);;
    mret (chunk_block_ptr chunk idx sc)
  else
    off0 ← load 4 (chunk + 20);
    chunk ← (if off0 =? 0 then fresh_hot sc else mret chunk);
    off ← (if off0 =? 0 then load 4 (chunk + 20) else mret off0);
    nxt ← fl_next chunk off;
    store 4 (chunk + 20) nxt;;
    free_count ← load 4 (chunk + 16);
    store 4 (chunk + 16) (free_count - 1);;
    mret (chunk + off).

Definition malloc_small (sc : nat) : AM Z :=
  p ← tl_fl_pop sc;
  if negb (p =? 0) then mret p
  else chunk ← malloc_hot sc; malloc_block sc chunk.

Definition malloc_round (sz : Z) : Z :=
  let sz := if sz <? 16 then 16 else sz in
  wrap64 (sz + 15) .& not64 15.

Definition tm_region_malloc (sz : Z) : AM Z :=
  let sz := malloc_round sz in
  let sc := size_class_for sz in
  if (MAX_CLASSES <=? sc)%nat || (g_sc_block_size sc =? 0) then malloc_large sz else malloc_small sc.

Definition tm_region_calloc (nmemb sz : Z) : AM Z :=
  let total := wrap64 (nmemb * sz) in
  p ← tm_region_malloc total;
  memset0 p (Z.to_nat total);;
  mret p.

Definition tm_region_free (p : Z) : AM unit :=
  if p =? 0 then mret ()
  else if negb (isTMAddress r p) then mret ()
  else
    let chunk := chunk_start p in
    magic ← load 4 chunk;
    size_class ← load 2 (chunk + 4);
    if (magic =? CHUNK_MAGIC) && (size_class <? Z.of_nat MAX_CLASSES) &&
       (0 <? g_sc_block_size (Z.to_nat size_class))
    then tl_fl_push (Z.to_nat size_class) p
    else
      let lh := p - LARGE_HDR in
      lmagic ← load 4 lh;
      if lmagic =? LARGE_MAGIC then
        t ← get_tl;
        store 8 (lh + 8) (tl_large_free_list t);;
        set_large lh
      else mret ().

(** The size [tm_region_realloc] finds for the old block. *)
Definition realloc_old_size (p new_sz : Z) : AM Z :=
  let chunk := chunk_start p in
  magic ← load 4 chunk;
  size_class ← load 2 (chunk + 4);
  if (magic =? CHUNK_MAGIC) && (size_class <? Z.of_nat MAX_CLASSES - 1)
  then mret (g_sc_block_size (Z.to_nat size_class))
  else
    let lh := p - LARGE_HDR in
    lmagic ← load 4 lh;
    if lmagic =? LARGE_MAGIC then load 4 (lh + 4) else mret new_sz.

Definition tm_region_realloc (p new_sz : Z) : AM Z :=
  if p =? 0 then tm_region_malloc new_sz
  else if new_sz =? 0 then tm_region_free p;; mret 0
  else
    old_sz ← realloc_old_size p new_sz;
    np ← tm_region_malloc new_sz;
    (if negb (np =? 0) then memcpy np p (Z.to_nat (if old_sz <? new_sz then old_sz else new_sz)) else mret ());;
    tm_region_free p;;
    mret np.

(** Retained for external callers. *)
Definition tm_region_slow_alloc (sz : Z) : AM Z :=
  let slab_sz := g_slab_size r in
  let needed := if slab_sz <? sz then wrap64 (sz + slab_sz - 1) .>> g_slab_size_shift r else 1 in
  idx ← fetch_add_slab needed;
  let slab := wrap64 (g_tm_region_start r + idx * slab_sz) in
  if g_tm_region_end r <? wrap64 (slab + needed * slab_sz) then am_abort
  else
    set_slab (wrap64 (slab + sz)) (wrap64 (slab + needed * slab_sz));;
    mret slab.
End Ops.
