(* ===== verification/RegionInv.v ===== *)
(** * Region allocator: layout and invariant

    The ghost view of the region: the items cut from slabs so far (chunks with the number
    of blocks handed out, large blocks with their capacity), the blocks in the free lists
    of every thread and class, and the live blocks with their requested sizes.  The
    invariant relates it to the bytes in memory and to the thread-local variables. *)

From stdpp Require Import functions.
From S2P Require Import Prelude Memory Region.
#[local] Open Scope Z_scope.
#[local] Open Scope word_scope.

(** ** Typed loads and stores *)

Lemma ldn_ext n m m' a : (∀ x, a ≤ x < a + Z.of_nat n → m !! x = m' !! x) → ldn n m a = ldn n m' a.
Proof. intros H. unfold ldn. by rewrite (load_bytes_ext m m'). Qed.

Lemma stn_lookup n m a v x : x < a ∨ a + Z.of_nat n ≤ x → stn n m a v !! x = m !! x.
Proof.
  intros H. unfold stn, store_bytes. apply wr_lookup_ne. rewrite at_addr_fst, length_le_bytes. lia.
Qed.

Lemma ldn_stn n m a v : ldn n (stn n m a v) a = wrap (8 * Z.of_nat n) v.
Proof.
  unfold ldn, stn. pose proof (load_store_same m a (le_bytes n v)) as H. rewrite length_le_bytes in H.
  rewrite H. apply le_word_le_bytes.
Qed.

Lemma ldn_stn_small n m a v : is_w (8 * Z.of_nat n) v → ldn n (stn n m a v) a = v.
Proof. intros H. rewrite ldn_stn. by apply Z.mod_small. Qed.

Lemma ldn_stn_ne n k m a b v :
  b + Z.of_nat k ≤ a ∨ a + Z.of_nat n ≤ b → ldn k (stn n m a v) b = ldn k m b.
Proof. intros H. apply ldn_ext. intros x Hx. apply stn_lookup. lia. Qed.

Lemma store_bytes_lookup m a bs x : x < a ∨ a + Z.of_nat (length bs) ≤ x → store_bytes m a bs !! x = m !! x.
Proof. intros H. unfold store_bytes. apply wr_lookup_ne. rewrite at_addr_fst. lia. Qed.

Lemma stn_ok n m a v : mem_ok m → mem_ok (stn n m a v).
Proof.
  intros Hm. apply wr_mem_ok; [done|]. generalize (le_bytes_ok n v). generalize a. induction (le_bytes n v) as [|b bs IH].
  - constructor.
  - intros c [??]%Forall_cons. simpl. constructor; [done|]. by apply IH.
Qed.

Lemma store_bytes_ok m a bs : mem_ok m → Forall is_byte bs → mem_ok (store_bytes m a bs).
Proof.
  intros Hm. unfold store_bytes. intros Hb. apply wr_mem_ok; [done|]. revert a.
  induction Hb as [|b bs Hb Hbs IH]; intros a; simpl; [constructor|]. constructor; [done|]. apply IH.
Qed.

Lemma ldn_range n m a : mem_ok m → is_w (8 * Z.of_nat n) (ldn n m a).
Proof.
  intros Hm. pose proof (le_word_range _ (load_bytes_ok m a n Hm)) as H. by rewrite length_load_bytes in H.
Qed.

(** Bits of a little-endian word are bits of its bytes. *)
Lemma testbit_le_word bs (i : Z) :
  Forall is_byte bs → 0 ≤ i →
  Z.testbit (le_word bs) i = Z.testbit (default 0 (bs !! Z.to_nat (i / 8))) (i mod 8).
Proof.
  intros Hb. revert i. induction Hb as [|b bs Hb Hbs IH]; intros i Hi.
  - rewrite lookup_nil. cbn [le_word default]. by rewrite !Z.testbit_0_l.
  - simpl le_word. assert (Z.land b (Z.shiftl (le_word bs) 8) = 0) as Hl.
    { apply Z.bits_inj'. intros j Hj. rewrite Z.land_spec, Z.shiftl_spec, Z.bits_0 by done.
      destruct (Z.lt_ge_cases j 8); [by rewrite (Z.testbit_neg_r _ (j - 8)), andb_false_r by lia|].
      by rewrite (testbit_high 8 b j) by (exact Hb || lia). }
    replace (b + 256 * le_word bs) with (Z.lor b (Z.shiftl (le_word bs) 8)).
    2:{ pose proof (Z.add_lor_land b (Z.shiftl (le_word bs) 8)) as E.
        rewrite Hl, (Z.shiftl_mul_pow2 (le_word bs) 8) in E by lia. rewrite Z.shiftl_mul_pow2; lia. }
    rewrite Z.lor_spec, Z.shiftl_spec by lia. destruct (Z.lt_ge_cases i 8).
    + rewrite (Z.testbit_neg_r _ (i - 8)) by lia. rewrite orb_false_r, Z.div_small, Z.mod_small by lia. done.
    + rewrite (testbit_high 8 b i) by (exact Hb || lia). simpl. rewrite IH by lia.
      replace i with ((i - 8) + 1 * 8) at 3 4 by lia. rewrite Z.div_add, Z.mod_add by lia.
      replace (Z.to_nat ((i - 8) / 8 + 1)) with (S (Z.to_nat ((i - 8) / 8))); [done|].
      pose proof (Z.div_pos (i - 8) 8 ltac:(lia) ltac:(lia)). lia.
Qed.

Lemma ldn_zero_bits m a n i :
  mem_ok m → 0 ≤ i → mget m (a + i / 8) = 0 → Z.testbit (ldn n m a) i = false.
Proof.
  intros Hm Hi Hz. unfold ldn. rewrite testbit_le_word by (done || by apply load_bytes_ok).
  pose proof (Z.div_pos i 8 Hi ltac:(lia)).
  destruct (le_lt_dec n (Z.to_nat (i / 8))).
  - rewrite lookup_ge_None_2; [apply Z.testbit_0_l|]. by rewrite length_load_bytes.
  - rewrite load_bytes_prefix by done. simpl. rewrite Z2Nat.id, Hz by done. apply Z.testbit_0_l.
Qed.

(** ** Counting trailing zeros *)

Lemma ctz_loop_spec fuel w i k :
  i ≤ k < i + Z.of_nat fuel → Z.testbit w k = true → (∀ j, i ≤ j < k → Z.testbit w j = false) →
  ctz_loop fuel w i = k.
Proof.
  revert i. induction fuel as [|fuel IH]; intros i Hk Ht Hz; [lia|]. simpl.
  destruct (Z.eq_dec i k) as [->|]; [by rewrite Ht|]. rewrite Hz by lia.
  apply IH; [lia|done|]. intros j ?. apply Hz. lia.
Qed.

Lemma ctzll_spec w k :
  0 ≤ k < 64 → Z.testbit w k = true → (∀ j, 0 ≤ j < k → Z.testbit w j = false) → ctzll w = k.
Proof. intros. apply ctz_loop_spec; [lia|done|done]. Qed.

Lemma ctzll_pow2 k : 0 ≤ k < 64 → ctzll (2 ^ k) = k.
Proof.
  intros Hk. apply ctzll_spec; [done|apply Z.pow2_bits_true; lia|].
  intros j Hj. apply Z.pow2_bits_false. lia.
Qed.

(** ** Masks *)

Lemma land_not64 a k : 0 ≤ a < 2 ^ 64 → 0 ≤ k < 64 → a .& not64 (2 ^ k - 1) = a - a mod 2 ^ k.
Proof.
  intros Ha Hk. assert (is_w 64 a) by done.
  assert (Z.land a (not64 (2 ^ k - 1)) = Z.ldiff a (Z.ones k)) as ->.
  { unfold not64. rewrite Z.ones_equiv, <- Z.sub_1_r. bits. }
  rewrite Z.ldiff_ones_r, Z.shiftl_mul_pow2, Z.shiftr_div_pow2 by lia.
  pose proof (Z.div_mod a (2 ^ k) ltac:(pose proof (Z.pow_pos_nonneg 2 k); lia)). lia.
Qed.

(** ** Regions *)

Record region_ok (r : region) : Prop := {
  ro_start : 0 < g_tm_region_start r ∧ g_tm_region_start r mod CHUNK_SIZE = 0;
  ro_end : g_tm_region_start r ≤ g_tm_region_end r ≤ 2 ^ 47;
  ro_slab : ∃ k, 20 ≤ k ≤ 40 ∧ g_slab_size_shift r = k ∧ g_slab_size r = 2 ^ k;
  ro_sc : g_sc r = sc_tables kSizeTable;
}.

Lemma region_init_ok k addr syms r :
  12 ≤ k ≤ 32 → 0 < addr → addr + TM_REGION_SIZE ≤ 2 ^ 47 →
  tm_region_init (2 ^ k) (Some addr) syms no_region = (0, r) → region_ok r.
Proof.
  intros Hk Ha Hb [= <-]. change CHUNK_MASK with (2 ^ 16 - 1).
  assert (TM_SLAB_PAGES * 2 ^ k = 2 ^ (k + 8)) as Hs.
  { rewrite Z.pow_add_r by lia. change (2 ^ 8) with 256. unfold TM_SLAB_PAGES. lia. }
  assert (wrap64 (addr + (2 ^ 16 - 1)) = addr + (2 ^ 16 - 1)) as Hw by (apply Z.mod_small; unfold TM_REGION_SIZE in Hb; lia).
  pose proof (Z.mod_pos_bound (addr + (2 ^ 16 - 1)) (2 ^ 16) ltac:(lia)) as Hm.
  change (TM_REGION_SIZE .& not64 (2 ^ 16 - 1)) with TM_REGION_SIZE.
  rewrite Hs, Hw, land_not64 by (unfold TM_REGION_SIZE in Hb; lia).
  set (s := addr + (2 ^ 16 - 1) - (addr + (2 ^ 16 - 1)) mod 2 ^ 16) in *.
  assert (addr ≤ s < addr + 2 ^ 16) as Hs' by (unfold s; lia).
  split; cbn [g_tm_region_start g_tm_region_end g_slab_size g_slab_size_shift g_sc].
  - split; [lia|]. unfold s. rewrite Zminus_mod_idemp_r, Z.sub_diag. done.
  - unfold TM_REGION_SIZE, CHUNK_SIZE in *. zcmp; lia.
  - exists (k + 8). rewrite ctzll_pow2 by lia. split; [lia|done].
  - done.
Qed.

Section Classes.
Context (r : region) (Hr : region_ok r).

(** What the size-class tables provide for every class in use. *)
Definition row_ok (row : sc_row) : bool :=
  (16 <=? r_size row) && (r_size row <=? 4096) && (1 <=? r_count row) && (r_off row =? 4096) &&
  (4096 + r_count row * r_size row <=? CHUNK_SIZE) && (0 <=? r_bitmap row) && (r_bitmap row <=? 4064) &&
  ((r_bitmap row =? 0) || ((r_count row <=? 8 * r_bitmap row) && (CHUNK_HEADER_SZ + 8 * ((r_count row + 63) / 64) <=? 4096))).

Lemma rows_ok : forallb (λ row, (r_size row =? 0) || row_ok row) (sc_tables kSizeTable) = true.
Proof. vm_compute. reflexivity. Qed.

Lemma class_row sc : 0 < g_sc_block_size r sc → row_ok (sc_get r sc) = true ∧ (sc < MAX_CLASSES)%nat.
Proof.
  unfold g_sc_block_size, sc_get. rewrite (ro_sc r Hr). intros Hs.
  destruct (sc_tables kSizeTable !! sc) as [row|] eqn:E; simpl in *; [|lia].
  split.
  - pose proof rows_ok as Hf. rewrite forallb_forall in Hf. specialize (Hf row).
    apply list_elem_of_lookup_2, list_elem_of_In in E. apply Hf in E. apply orb_true_iff in E as [E|E]; [|done].
    apply Z.eqb_eq in E. lia.
  - apply lookup_lt_Some in E. done.
Qed.

Lemma class_facts sc :
  0 < g_sc_block_size r sc →
  16 ≤ g_sc_block_size r sc ≤ 4096 ∧ 1 ≤ g_sc_block_count r sc ∧ g_sc_data_off r sc = 4096 ∧
  4096 + g_sc_block_count r sc * g_sc_block_size r sc ≤ CHUNK_SIZE ∧ 0 ≤ g_sc_bitmap_bytes r sc ≤ 4064 ∧
  (0 < g_sc_bitmap_bytes r sc →
   g_sc_block_count r sc ≤ 8 * g_sc_bitmap_bytes r sc ∧ 32 + 8 * ((g_sc_block_count r sc + 63) / 64) ≤ 4096) ∧
  (sc < MAX_CLASSES)%nat.
Proof.
  intros Hs. destruct (class_row sc Hs) as [Hrow ?].
  unfold row_ok in Hrow. rewrite !andb_true_iff, orb_true_iff, andb_true_iff, !Z.leb_le, !Z.eqb_eq in Hrow.
  unfold g_sc_block_size, g_sc_block_count, g_sc_data_off, g_sc_bitmap_bytes, CHUNK_HEADER_SZ in *.
  destruct Hrow as (((((((? & ?) & ?) & ?) & ?) & ?) & ?) & Hbm). split_and!; try lia.
Qed.

(** The class found for a rounded request holds it and keeps blocks 16-aligned; there is
    none exactly when the request exceeds 4096 bytes. *)
Lemma size_class_spec sz :
  16 ≤ sz → sz mod 16 = 0 → let sc := size_class_for r sz in
  (sc = MAX_CLASSES ∧ 4096 < sz) ∨
  (sz ≤ 4096 ∧ (sc < MAX_CLASSES)%nat ∧ sz ≤ g_sc_block_size r sc ∧ g_sc_block_size r sc mod 16 = 0).
Proof.
  intros H1 H2. unfold size_class_for, g_sc_block_size, sc_get. rewrite (ro_sc r Hr).
  set (T := sc_tables kSizeTable). vm_compute in T. subst T. cbn [size_class_loop r_size Z.eqb].
  repeat (match goal with |- context [sz <=? ?b] => destruct (Z.leb_spec sz b) end;
    [right; split; [lia|]; split; [unfold MAX_CLASSES; lia|]; cbn; split; [lia|try done]|]).
  all: try (exfalso; pose proof (Z.div_mod sz 16 ltac:(lia)); lia).
  left. split; [done|lia].
Qed.
End Classes.

Lemma malloc_round_spec sz :
  0 ≤ sz ≤ 2 ^ 63 → let s := malloc_round sz in sz ≤ s ∧ 16 ≤ s ∧ s ≤ 2 ^ 63 + 15 ∧ s mod 16 = 0 ∧ (sz ≤ 4096 → s ≤ 4096).
Proof.
  intros Hs. unfold malloc_round. cbv zeta. set (s1 := if sz <? 16 then 16 else sz).
  assert (sz ≤ s1 ∧ 16 ≤ s1 ∧ s1 ≤ 2 ^ 63) as (?&?&?) by (unfold s1; zcmp; lia).
  assert (wrap64 (s1 + 15) .& not64 15 = s1 + 15 - (s1 + 15) mod 16) as ->.
  { assert (wrap64 (s1 + 15) = s1 + 15) as -> by (apply Z.mod_small; lia). apply (land_not64 (s1 + 15) 4); lia. }
  pose proof (Z.mod_pos_bound (s1 + 15) 16 ltac:(lia)). split_and!; [lia..| |].
  - rewrite Zminus_mod_idemp_r, Z.sub_diag. done.
  - intros. assert (s1 ≤ 4096) by (unfold s1; zcmp; lia).
    pose proof (Z.div_mod (s1 + 15) 16 ltac:(lia)). lia.
Qed.

(** ** Ghost view *)

(** What a part of a slab has become: a chunk of a class with the number of blocks handed
    out so far, or a large block with its capacity. *)
Inductive item := IChunk (sc : nat) (k : Z) | ILarge (cap : Z).

Record ghost := Ghost {
  items : gmap Z item;
  lists : nat → nat → list Z;
  live : gmap Z Z;
}.

Definition item_len (it : item) : Z := match it with IChunk _ _ => CHUNK_SIZE | ILarge cap => LARGE_HDR + cap end.

(** A free list through blocks [ps]: the nodes of the list of large blocks are their headers. *)
Definition node_of (c : nat) (p : Z) : Z := if (c =? MAX_CLASSES)%nat then p - LARGE_HDR else p.
Definition link_of (c : nat) (p : Z) : Z := if (c =? MAX_CLASSES)%nat then p - 8 else p.
Definition list_head (t : tls) (c : nat) : Z :=
  if (c =? MAX_CLASSES)%nat then tl_large_free_list t else fl_head (tl_free_lists t c).

Fixpoint chain (c : nat) (m : mem) (head : Z) (ps : list Z) : Prop :=
  match ps with
  | [] => head = 0
  | p :: ps' => head = node_of c p ∧ chain c m (ldn 8 m (link_of c p)) ps'
  end.

Section Inv.
(** [al]: the program only asks for small blocks, so that every chunk is aligned. *)
Context (r : region) (al : bool).
Implicit Types (m : mem) (I : gmap Z item) (g : ghost) (T : nat → tls) (p x : Z).

Abbreviation bs := (g_sc_block_size r).
Abbreviation bc := (g_sc_block_count r).
Abbreviation rs := (g_tm_region_start r).

Definition item_ok (it : item) : Prop :=
  match it with
  | IChunk sc k => 0 < bs sc ∧ bs sc mod 16 = 0 ∧ 0 ≤ k ≤ bc sc
  | ILarge cap => 0 < cap ∧ cap mod 16 = 0
  end.

(** The header, and the bitmap or free list, of a chunk with [k] blocks handed out. *)
Definition chunk_ok m (b : Z) (sc : nat) (k : Z) : Prop :=
  ldn 4 m b = CHUNK_MAGIC ∧ ldn 2 m (b + 4) = Z.of_nat sc ∧
  ldn 4 m (b + 12) = bc sc ∧ ldn 4 m (b + 16) = bc sc - k ∧
  if 0 <? g_sc_bitmap_bytes r sc then
    ldn 4 m (b + 20) = k ∧
    ∀ i, 0 ≤ i < bc sc → Z.testbit (ldn 8 m (chunk_bitmap b + 8 * (i / 64))) (i mod 64) = (i <? k)
  else
    ldn 4 m (b + 20) = (if k <? bc sc then 4096 + k * bs sc else 0) ∧
    ∀ i, k ≤ i < bc sc → ldn 4 m (chunk_block_ptr r b i sc) = (if i + 1 <? bc sc then 4096 + (i + 1) * bs sc else 0).

(** A block that has been handed out at least once: address, class, capacity. *)
Definition block_at I (p : Z) (c : nat) (cap : Z) : Prop :=
  (∃ b k i, I !! b = Some (IChunk c k) ∧ 0 ≤ i < k ∧ p = chunk_block_ptr r b i c ∧ cap = bs c) ∨
  (c = MAX_CLASSES ∧ I !! (p - LARGE_HDR) = Some (ILarge cap)).

(** The class [tm_region_malloc] serves a request from. *)
Definition class_of (sz : Z) : nat := size_class_for r (malloc_round sz).

(** Either interval is empty or they do not meet. *)
Definition apart_iv (a b c d : Z) : Prop := b ≤ a ∨ d ≤ c ∨ b ≤ c ∨ d ≤ a.

Record inv m (next : Z) T g : Prop := {
  iv_mem : mem_ok m;
  iv_next : 0 ≤ next ∧ rs + next * g_slab_size r ≤ g_tm_region_end r;
  iv_in b it : items g !! b = Some it →
    item_ok it ∧ rs ≤ b ∧ b + item_len it ≤ rs + next * g_slab_size r ∧ b mod 16 = 0;
  iv_sep b it b' it' : items g !! b = Some it → items g !! b' = Some it' → b ≠ b' →
    b + item_len it ≤ b' ∨ b' + item_len it' ≤ b;
  iv_rest t : 0 ≤ slab_bump (T t) ≤ slab_end (T t) ∧ (slab_bump (T t) = slab_end (T t) ∨ rs ≤ slab_bump (T t)) ∧
    slab_end (T t) ≤ rs + next * g_slab_size r ∧ slab_bump (T t) mod 16 = 0;
  iv_rest_item t b it : items g !! b = Some it →
    apart_iv b (b + item_len it) (slab_bump (T t)) (slab_end (T t));
  iv_rest_rest t t' : t ≠ t' →
    apart_iv (slab_bump (T t)) (slab_end (T t)) (slab_bump (T t')) (slab_end (T t'));
  iv_chunk b sc k : items g !! b = Some (IChunk sc k) → chunk_ok m b sc k;
  iv_large h cap : items g !! h = Some (ILarge cap) → ldn 4 m h = LARGE_MAGIC ∧ ldn 4 m (h + 4) ≤ cap;
  iv_hot t sc : tl_hot_chunks (T t) sc = 0 ∨ ∃ k, items g !! tl_hot_chunks (T t) sc = Some (IChunk sc k);
  iv_hot_inj t t' sc sc' : tl_hot_chunks (T t) sc ≠ 0 → tl_hot_chunks (T t) sc = tl_hot_chunks (T t') sc' → t = t';
  iv_chain t c : (c ≤ MAX_CLASSES)%nat → chain c m (list_head (T t) c) (lists g t c);
  iv_free t c p : p ∈ lists g t c → (∃ cap, block_at (items g) p c cap) ∧ live g !! p = None;
  iv_nodup t c : NoDup (lists g t c);
  iv_disj t c t' c' p : p ∈ lists g t c → p ∈ lists g t' c' → t = t' ∧ c = c';
  iv_live p n : live g !! p = Some n → ∃ c cap, block_at (items g) p c cap ∧ 0 ≤ n ≤ cap ∧ c = class_of n;
  iv_align : al = true →
    (∀ b it, items g !! b = Some it → b mod CHUNK_SIZE = 0 ∧ ∃ sc k, it = IChunk sc k) ∧
    ∀ t, slab_bump (T t) mod CHUNK_SIZE = 0;
}.

(** Addresses whose bytes the invariant speaks about. *)
Definition meta g (x : Z) : Prop :=
  (∃ b sc k, items g !! b = Some (IChunk sc k) ∧
     (b ≤ x < b + 4096 ∨ ∃ i, k ≤ i < bc sc ∧ chunk_block_ptr r b i sc ≤ x < chunk_block_ptr r b i sc + bs sc)) ∨
  (∃ h cap, items g !! h = Some (ILarge cap) ∧ h ≤ x < h + LARGE_HDR) ∨
  (∃ t c p cap, p ∈ lists g t c ∧ block_at (items g) p c cap ∧ p ≤ x < p + cap).

(** No byte of a live block has changed. *)
Definition keeps g m m' : Prop :=
  ∀ p n c cap x, live g !! p = Some n → block_at (items g) p c cap → p ≤ x < p + cap → m' !! x = m !! x.

Lemma mul_step (i j s : Z) : 0 ≤ s → i < j → i * s + s ≤ j * s.
Proof. nia. Qed.

Section Facts.
Context (Hr : region_ok r) (m : mem) (next : Z) (T : nat → tls) (g : ghost) (Hinv : inv m next T g).

Lemma slab_pos : 0 < g_slab_size r ∧ g_slab_size r mod 16 = 0 ∧ g_slab_size r mod CHUNK_SIZE = 0.
Proof.
  destruct (ro_slab r Hr) as (k & Hk & _ & ->). split; [apply Z.pow_pos_nonneg; lia|]. split.
  - replace k with (4 + (k - 4)) by lia. rewrite Z.pow_add_r, Z.mul_comm by lia. by apply Z.mod_mul.
  - replace k with (16 + (k - 16)) by lia. rewrite Z.pow_add_r, Z.mul_comm by lia. by apply Z.mod_mul.
Qed.

Lemma rs_mod16 : rs mod 16 = 0 ∧ 0 < rs.
Proof.
  destruct (ro_start r Hr) as [? H]. split; [|done]. unfold CHUNK_SIZE in H.
  apply Z.div_exact in H; [|lia]. replace rs with (4096 * (rs / 65536) * 16) by lia. by apply Z.mod_mul.
Qed.

Lemma chunk_facts b sc k :
  items g !! b = Some (IChunk sc k) →
  16 ≤ bs sc ≤ 4096 ∧ bs sc mod 16 = 0 ∧ 0 ≤ k ≤ bc sc ∧ 1 ≤ bc sc ∧ g_sc_data_off r sc = 4096 ∧
  4096 + bc sc * bs sc ≤ CHUNK_SIZE ∧ rs ≤ b ∧ b mod 16 = 0 ∧ (sc < MAX_CLASSES)%nat.
Proof.
  intros Hb. destruct (iv_in _ _ _ _ Hinv _ _ Hb) as ((H1 & H2 & H3) & H4 & H5 & H6).
  destruct (class_facts r Hr sc H1) as (?&?&?&?&?&?&?). split_and!; try lia.
Qed.

(** A block lies in its item, behind the metadata at the item's start. *)
Lemma block_in p c cap :
  block_at (items g) p c cap →
  ∃ b it, items g !! b = Some it ∧ b + 16 ≤ p ∧ p + cap ≤ b + item_len it ∧ 16 ≤ cap ∧ cap mod 16 = 0 ∧ p mod 16 = 0 ∧
    match it with
    | IChunk sc k => c = sc ∧ cap = bs sc ∧ ∃ i, 0 ≤ i < k ∧ p = chunk_block_ptr r b i sc
    | ILarge cap' => c = MAX_CLASSES ∧ cap' = cap ∧ p = b + LARGE_HDR
    end.
Proof.
  intros [(b & k & i & Hb & Hi & -> & ->)|[-> Hb]].
  - destruct (chunk_facts _ _ _ Hb) as (?&?&?&?&Hoff&?&?&?&?). exists b, (IChunk c k).
    unfold chunk_block_ptr, item_len. rewrite Hoff.
    pose proof (mul_step i k (bs c) ltac:(lia) ltac:(lia)).
    pose proof (Z.mul_le_mono_nonneg_r k (bc c) (bs c) ltac:(lia) ltac:(lia)).
    pose proof (Z.mul_nonneg_nonneg i (bs c) ltac:(lia) ltac:(lia)).
    split_and!; try done; try lia.
    + rewrite Z.add_mod, (Z.add_mod b), (Z.mul_mod i) by lia. replace (bs c mod 16) with 0. replace (b mod 16) with 0.
      rewrite Z.mul_0_r. done.
    + eauto.
  - destruct (iv_in _ _ _ _ Hinv _ _ Hb) as ((H1 & H2) & H4 & H5 & H6). unfold LARGE_HDR in *.
    exists (p - 16), (ILarge cap). cbn. unfold LARGE_HDR. split_and!; try done; try lia.
    + pose proof (Z.div_mod cap 16 ltac:(lia)). lia.
    + rewrite <- H6. replace p with ((p - 16) + 1 * 16) at 1 by lia. by rewrite Z.mod_add by lia.
Qed.

Lemma block_sep p c cap p' c' cap' :
  block_at (items g) p c cap → block_at (items g) p' c' cap' → p ≠ p' → p + cap ≤ p' ∨ p' + cap' ≤ p.
Proof.
  intros (b & it & Hb & H1 & H2 & _ & _ & _ & H3)%block_in (b' & it' & Hb' & H1' & H2' & _ & _ & _ & H3')%block_in Hne.
  destruct (decide (b = b')) as [<-|Hbb].
  - rewrite Hb in Hb'. injection Hb' as <-. destruct it as [sc k|cap0].
    + destruct H3 as (-> & -> & i & Hi & ->), H3' as (-> & -> & i' & Hi' & ->).
      destruct (chunk_facts _ _ _ Hb) as (?&?&?&?&?&?&?&?&?). unfold chunk_block_ptr in *.
      destruct (Z.lt_trichotomy i i') as [Hlt|[->|Hlt]]; [|done|].
      * pose proof (mul_step i i' (bs sc) ltac:(lia) Hlt). lia.
      * pose proof (mul_step i' i (bs sc) ltac:(lia) Hlt). lia.
    + lia.
  - destruct (iv_sep _ _ _ _ Hinv _ _ _ _ Hb Hb' Hbb); lia.
Qed.

Lemma block_unique p c cap c' cap' :
  block_at (items g) p c cap → block_at (items g) p c' cap' → c = c' ∧ cap = cap'.
Proof.
  intros (b & it & Hb & H1 & H2 & ? & _ & _ & H3)%block_in (b' & it' & Hb' & H1' & H2' & ? & _ & _ & H3')%block_in.
  destruct (decide (b = b')) as [<-|Hbb].
  - rewrite Hb in Hb'. injection Hb' as <-. destruct it as [sc k|cap0].
    + destruct H3 as (-> & -> & _), H3' as (-> & -> & _). done.
    + destruct H3 as (-> & -> & _), H3' as (-> & -> & _). done.
  - destruct (iv_sep _ _ _ _ Hinv _ _ _ _ Hb Hb' Hbb); lia.
Qed.

(** A handed-out block that is in no free list holds no metadata. *)
Lemma owned_not_meta p c cap x :
  block_at (items g) p c cap → (∀ t c', p ∉ lists g t c') → p ≤ x < p + cap → ¬ meta g x.
Proof.
  intros Hp Hf Hx [(b & sc & k & Hb & Hm)|[(h & cap' & Hh & Hm)|(t & c' & p' & cap' & Hp' & Hblk & Hm)]].
  - destruct (block_in _ _ _ Hp) as (b1 & it & Hb1 & H1 & H2 & _ & _ & _ & H3).
    destruct (chunk_facts _ _ _ Hb) as (?&?&?&?&Hoff&?&?&?&?).
    assert (b ≤ x < b + CHUNK_SIZE) as Hxb.
    { unfold chunk_block_ptr in Hm. rewrite Hoff in Hm. unfold CHUNK_SIZE in *. destruct Hm as [|(i & ? & ?)]; [lia|].
      pose proof (mul_step i (bc sc) (bs sc) ltac:(lia) ltac:(lia)).
      pose proof (Z.mul_nonneg_nonneg i (bs sc) ltac:(lia) ltac:(lia)). lia. }
    destruct (decide (b = b1)) as [<-|Hbb].
    + rewrite Hb in Hb1. injection Hb1 as <-. destruct H3 as (-> & -> & j & Hj & ->).
      unfold chunk_block_ptr in *. rewrite Hoff in *.
      pose proof (Z.mul_nonneg_nonneg j (bs sc) ltac:(lia) ltac:(lia)). destruct Hm as [|(i & ? & ?)]; [lia|].
      pose proof (mul_step j i (bs sc) ltac:(lia) ltac:(lia)). lia.
    + destruct (iv_sep _ _ _ _ Hinv _ _ _ _ Hb Hb1 Hbb) as [Hs|Hs]; cbn [item_len] in Hs; lia.
  - destruct (block_in _ _ _ Hp) as (b1 & it & Hb1 & H1 & H2 & _ & _ & _ & H3). destruct (decide (h = b1)) as [<-|Hbb].
    + rewrite Hh in Hb1. injection Hb1 as <-. unfold LARGE_HDR in *. lia.
    + destruct (iv_in _ _ _ _ Hinv _ _ Hh) as ((? & ?) & _).
      destruct (iv_sep _ _ _ _ Hinv _ _ _ _ Hh Hb1 Hbb) as [Hs|Hs]; cbn [item_len] in Hs; lia.
  - destruct (decide (p = p')) as [<-|Hne]; [by eapply Hf|].
    destruct (block_sep _ _ _ _ _ _ Hp Hblk Hne); lia.
Qed.

Lemma live_not_listed p n t c : live g !! p = Some n → p ∉ lists g t c.
Proof. intros Hl Hp. destruct (iv_free _ _ _ _ Hinv _ _ _ Hp) as [_ ?]. congruence. Qed.
End Facts.
End Inv.
