(* ===== verification/RegionOps.v ===== *)
(** * Region allocator: the operations preserve the invariant *)

From stdpp Require Import functions.
From S2P Require Import Prelude Memory Region RegionInv.
#[local] Open Scope Z_scope.
#[local] Open Scope word_scope.

Section Ops.
Context (r : region) (al : bool) (Hr : region_ok r).
Implicit Types (m : mem) (I : gmap Z item) (g : ghost) (T : nat → tls) (p x : Z) (t : nat).

Abbreviation bs := (g_sc_block_size r).
Abbreviation bc := (g_sc_block_count r).
Abbreviation rs := (g_tm_region_start r).

(** ** Framing *)

(** Position of a block's bitmap word. *)
Lemma bitmap_word sc i :
  0 < bs sc → 0 < g_sc_bitmap_bytes r sc → 0 ≤ i < bc sc → 0 ≤ 8 * (i / 64) ∧ 32 + 8 * (i / 64) + 8 ≤ 4096.
Proof.
  intros Hs Hbm Hi. destruct (class_facts r Hr sc Hs) as (_&_&_&_&_&H&_). destruct (H Hbm) as [_ H2].
  pose proof (Z.div_pos i 64 ltac:(lia) ltac:(lia)). split; [lia|].
  assert (i / 64 < (bc sc + 63) / 64); [|lia].
  pose proof (Z.div_mod i 64 ltac:(lia)). pose proof (Z.mod_pos_bound i 64 ltac:(lia)).
  pose proof (Z.div_mod (bc sc + 63) 64 ltac:(lia)). pose proof (Z.mod_pos_bound (bc sc + 63) 64 ltac:(lia)). lia.
Qed.

Lemma chunk_ok_frame m m' b sc k :
  0 < bs sc → 0 ≤ k → chunk_ok r m b sc k → (∀ x, b ≤ x < b + 4096 → m' !! x = m !! x) →
  (∀ i x, k ≤ i < bc sc → chunk_block_ptr r b i sc ≤ x < chunk_block_ptr r b i sc + bs sc → m' !! x = m !! x) →
  chunk_ok r m' b sc k.
Proof.
  intros Hs Hk (H1 & H2 & H3 & H4 & H5) Hh Hb. destruct (class_facts r Hr sc Hs) as ((?&?)&_).
  assert (∀ n a, b ≤ a → a + Z.of_nat n ≤ b + 4096 → ldn n m' a = ldn n m a) as E.
  { intros n a ??. apply ldn_ext. intros x ?. apply Hh. lia. }
  unfold chunk_ok. rewrite !E by (unfold chunk_bitmap, CHUNK_HEADER_SZ; lia). split_and!; [done..|].
  destruct (Z.ltb_spec 0 (g_sc_bitmap_bytes r sc)) as [Hbm|Hbm].
  - destruct H5 as [H5 H6]. split; [done|]. intros i Hi. destruct (bitmap_word sc i Hs Hbm Hi).
    rewrite E by (unfold chunk_bitmap, CHUNK_HEADER_SZ; lia). by apply H6.
  - destruct H5 as [H5 H6]. split; [done|]. intros i Hi. rewrite <- (H6 i Hi). apply ldn_ext.
    intros x Hx. apply (Hb i); [done|]. lia.
Qed.

Lemma chain_frame c m m' ps hd :
  chain c m hd ps → (∀ p x, p ∈ ps → link_of c p ≤ x < link_of c p + 8 → m' !! x = m !! x) → chain c m' hd ps.
Proof.
  revert hd. induction ps as [|p ps IH]; intros hd; [done|]. intros [-> Hc] Hm. split; [done|].
  rewrite (ldn_ext 8 m' m) by (intros; apply (Hm p); [left|lia]).
  apply IH; [done|]. intros q x Hq. apply Hm. by right.
Qed.

(** The link of a listed block is in the block or in its header. *)
Lemma link_meta m next T g t c p x :
  inv r al m next T g → p ∈ lists g t c → link_of c p ≤ x < link_of c p + 8 → meta r g x.
Proof.
  intros Hinv Hp Hx. destruct (iv_free _ _ _ _ _ _ Hinv _ _ _ Hp) as [(cap & Hblk) _]. pose proof Hblk as Hblk'.
  apply (block_in r al Hr m next T g Hinv) in Hblk as (b & it & Hb & H1 & H2 & H3 & _ & _ & H4).
  unfold link_of in Hx. destruct (Nat.eqb_spec c MAX_CLASSES) as [->|Hc].
  - destruct it as [sc k|cap'].
    + destruct H4 as (<- & _). destruct (chunk_facts r al Hr _ _ _ _ Hinv _ _ _ Hb) as (?&?&?&?&?&?&?&?&?). lia.
    + destruct H4 as (_ & -> & ->). right. left. exists b, cap. split; [done|]. unfold LARGE_HDR in *. lia.
  - right. right. exists t, c, p, cap. split_and!; [done|done|lia..].
Qed.

Lemma inv_frame m m' next T g :
  inv r al m next T g → mem_ok m' → (∀ x, meta r g x → m' !! x = m !! x) → inv r al m' next T g.
Proof.
  intros Hinv Hok Hm. pose proof Hinv as []. split; try done.
  - intros b sc k Hb. destruct (iv_in _ _ Hb) as ((? & ? & ?) & _).
    apply (chunk_ok_frame m); [done|lia|by apply iv_chunk| |].
    + intros x Hx. apply Hm. left. exists b, sc, k. auto.
    + intros i x Hi Hx. apply Hm. left. exists b, sc, k. split; [done|]. right. eauto.
  - intros h cap Hh. destruct (iv_large _ _ Hh) as [H1 H2].
    assert (∀ x, h ≤ x < h + 16 → m' !! x = m !! x) as E.
    { intros x Hx. apply Hm. right. left. exists h, cap. split; [done|]. unfold LARGE_HDR. lia. }
    rewrite (ldn_ext 4 m' m h), (ldn_ext 4 m' m (h + 4)) by (intros; apply E; lia). done.
  - intros t c Hc. apply (chain_frame c m); [by apply iv_chain|]. intros p x Hp Hx. apply Hm.
    by apply (link_meta m next T g t c p).
Qed.

(** ** Slabs *)

(** A part of the region that is in no item and no thread's slab. *)
Record carved (next : Z) T g (p size : Z) : Prop := {
  cv_in : rs ≤ p ∧ p + size ≤ rs + next * g_slab_size r ∧ p mod 16 = 0;
  cv_item b it : items g !! b = Some it → b + item_len it ≤ p ∨ p + size ≤ b;
  cv_rest t : apart_iv p (p + size) (slab_bump (T t)) (slab_end (T t));
  cv_al : al = true → p mod CHUNK_SIZE = 0;
}.

Definition with_slab (u : tls) (bump en : Z) : tls :=
  TLS bump en (tl_free_lists u) (tl_hot_chunks u) (tl_large_free_list u).

Lemma inv_slab m next next' T g t bump en :
  inv r al m next T g → next ≤ next' → rs + next' * g_slab_size r ≤ g_tm_region_end r →
  0 ≤ bump ≤ en → rs ≤ bump → en ≤ rs + next' * g_slab_size r → bump mod 16 = 0 →
  (∀ b it, items g !! b = Some it → apart_iv b (b + item_len it) bump en) →
  (∀ t', t' ≠ t → apart_iv bump en (slab_bump (T t')) (slab_end (T t'))) →
  (al = true → bump mod CHUNK_SIZE = 0) →
  inv r al m next' (<[t := with_slab (T t) bump en]> T) g.
Proof.
  intros Hinv Hn He Hb Hrs Hen Hmod Hi Ht Hal. pose proof Hinv as [].
  destruct (slab_pos r Hr) as [Hp _].
  pose proof (Z.mul_le_mono_nonneg_r next next' (g_slab_size r) ltac:(lia) Hn).
  assert (∀ t0, tl_hot_chunks (<[t := with_slab (T t) bump en]> T t0) = tl_hot_chunks (T t0) ∧
    tl_free_lists (<[t := with_slab (T t) bump en]> T t0) = tl_free_lists (T t0) ∧
    tl_large_free_list (<[t := with_slab (T t) bump en]> T t0) = tl_large_free_list (T t0)) as E.
  { intros t0. destruct (decide (t = t0)) as [<-|]; [by rewrite fn_lookup_insert|by rewrite fn_lookup_insert_ne]. }
  split; try done.
  - lia.
  - intros b it Hit. destruct (iv_in _ _ Hit) as (?&?&?&?). split_and!; [done|lia..].
  - intros t0. destruct (decide (t = t0)) as [<-|]; [rewrite fn_lookup_insert|rewrite fn_lookup_insert_ne by done].
    + cbn. split_and!; try lia.
    + destruct (iv_rest t0) as (?&?&?&?). split_and!; try lia.
  - intros t0 b it Hit. destruct (decide (t = t0)) as [<-|]; [rewrite fn_lookup_insert|rewrite fn_lookup_insert_ne by done].
    + by apply Hi.
    + by apply iv_rest_item.
  - intros t1 t2 Hne. destruct (decide (t = t1)) as [<-|]; [rewrite fn_lookup_insert|rewrite (fn_lookup_insert_ne _ _ t1) by done].
    + rewrite fn_lookup_insert_ne by done. apply Ht. done.
    + destruct (decide (t = t2)) as [<-|]; [rewrite fn_lookup_insert|rewrite fn_lookup_insert_ne by done].
      * specialize (Ht t1 ltac:(done)). unfold apart_iv in *. cbn. lia.
      * by apply iv_rest_rest.
  - intros t0 sc. destruct (E t0) as (-> & _). apply iv_hot.
  - intros t1 t2 sc sc'. destruct (E t1) as (-> & _), (E t2) as (-> & _). apply iv_hot_inj.
  - intros t0 c Hc. unfold list_head. destruct (E t0) as (_ & -> & ->). by apply iv_chain.
  - intros Ha. destruct (iv_align Ha) as [? Hb']. split; [done|]. intros t0.
    destruct (decide (t = t0)) as [<-|]; [rewrite fn_lookup_insert; by apply Hal|by rewrite fn_lookup_insert_ne].
Qed.

Lemma carve_spec m next T g t size needed :
  inv r al m next T g → 0 < size ≤ 2 ^ 63 + 2 ^ 42 → size mod 16 = 0 →
  1 ≤ needed → size ≤ needed * g_slab_size r < size + 2 ^ 41 → (al = true → size mod CHUNK_SIZE = 0) →
  match slab_carve r size needed (Heap m next (T t)) with
  | None => g_tm_region_end r < rs + (next + needed) * g_slab_size r
  | Some (p, h') => ∃ next' bump en, h' = Heap m next' (with_slab (T t) bump en) ∧
      inv r al m next' (<[t := with_slab (T t) bump en]> T) g ∧
      carved next' (<[t := with_slab (T t) bump en]> T) g p size
  end.
Proof.
  intros Hinv Hsz Hmod Hn Hnd Hal. pose proof Hinv as []. destruct (slab_pos r Hr) as (Hsp & Hsm & Hsc).
  destruct (rs_mod16 r Hr) as [Hrm Hrp]. pose proof (ro_end r Hr) as Hend.
  destruct (iv_rest t) as (Hb & Hbr & He & Hbm). destruct iv_next as [Hn0 Hn1].
  unfold slab_carve, get_tl, mbind, am_bind. cbn [tl].
  assert (wrap64 (slab_bump (T t) + size) = slab_bump (T t) + size) as Hw by (apply Z.mod_small; lia).
  rewrite Hw. destruct (Z.ltb_spec (slab_end (T t)) (slab_bump (T t) + size)) as [Hlt|Hge].
  - unfold fetch_add_slab. cbn [hmem g_next_slab_idx tl].
    assert (0 ≤ next * g_slab_size r) by (apply Z.mul_nonneg_nonneg; lia).
    assert (wrap64 (rs + next * g_slab_size r) = rs + next * g_slab_size r) as -> by (apply Z.mod_small; lia).
    assert (wrap64 (rs + next * g_slab_size r + needed * g_slab_size r) = rs + (next + needed) * g_slab_size r) as ->.
    { replace (rs + (next + needed) * g_slab_size r) with (rs + next * g_slab_size r + needed * g_slab_size r) by lia.
      apply Z.mod_small. lia. }
    destruct (Z.ltb_spec (g_tm_region_end r) (rs + (next + needed) * g_slab_size r)) as [|Hok]; [done|].
    assert (next + needed ≤ 2 ^ 47).
    { apply Z.le_trans with ((next + needed) * g_slab_size r); [|lia].
      pose proof (Z.mul_le_mono_nonneg_l 1 (g_slab_size r) (next + needed) ltac:(lia) ltac:(lia)). lia. }
    assert (wrap64 (next + needed) = next + needed) as -> by (apply Z.mod_small; lia).
    unfold set_slab, get_tl, set_tl, mbind, am_bind. cbn.
    assert (wrap64 (rs + next * g_slab_size r + size) = rs + next * g_slab_size r + size) as -> by (apply Z.mod_small; lia).
    set (p := rs + next * g_slab_size r) in *. exists (next + needed), (p + size), (rs + (next + needed) * g_slab_size r).
    assert (p mod 16 = 0) as Hpm.
    { unfold p. rewrite Z.add_mod, Z.mul_mod, Hrm, Hsm, Z.mul_0_r by lia. done. }
    assert ((p + size) mod 16 = 0) by (rewrite Z.add_mod, Hpm, Hmod by lia; done).
    assert (p mod CHUNK_SIZE = 0) as Hpc.
    { unfold p. rewrite Z.add_mod, Z.mul_mod, (proj2 (ro_start r Hr)), Hsc, Z.mul_0_r by (unfold CHUNK_SIZE; lia). done. }
    split; [done|]. split.
    + apply (inv_slab m next); try done; try lia.
      3:{ intros Ha. rewrite Z.add_mod, Hpc, (Hal Ha) by (unfold CHUNK_SIZE; lia). done. }
      * intros b it Hit. destruct (iv_in _ _ Hit) as (_ & _ & ? & _). unfold apart_iv. lia.
      * intros t' Ht'. destruct (iv_rest t') as (?&?&?&?). unfold apart_iv. lia.
    + split; [lia| | |done].
      * intros b it Hit. destruct (iv_in _ _ Hit) as (_ & _ & ? & _). lia.
      * intros t'. unfold apart_iv. destruct (decide (t = t')) as [<-|]; [rewrite fn_lookup_insert|rewrite fn_lookup_insert_ne by done].
        -- cbn. lia.
        -- destruct (iv_rest t') as (?&?&?&?). lia.
  - unfold set_slab, get_tl, set_tl, mbind, am_bind. cbn. exists next, (slab_bump (T t) + size), (slab_end (T t)).
    assert ((slab_bump (T t) + size) mod 16 = 0) by (rewrite Z.add_mod, Hbm, Hmod by lia; done).
    split; [done|]. split.
    + apply (inv_slab m next); try done; try lia.
      3:{ intros Ha. rewrite Z.add_mod, (proj2 (iv_align Ha)), (Hal Ha) by (unfold CHUNK_SIZE; lia). done. }
      * intros b it Hit. pose proof (iv_rest_item t _ _ Hit) as Ha. unfold apart_iv in *. lia.
      * intros t' Ht'. pose proof (iv_rest_rest t t' ltac:(done)) as Ha. unfold apart_iv in *. lia.
    + split; [lia| | |intros Ha; by apply iv_align].
      * intros b it Hit. pose proof (iv_rest_item t _ _ Hit) as Ha. destruct (iv_in _ _ Hit) as (Hio & _).
        assert (0 < item_len it) by (destruct it; cbn in *; unfold CHUNK_SIZE, LARGE_HDR; lia).
        unfold apart_iv in *. lia.
      * intros t'. unfold apart_iv. destruct (decide (t = t')) as [<-|]; [rewrite fn_lookup_insert|rewrite fn_lookup_insert_ne by done].
        -- cbn. lia.
        -- pose proof (iv_rest_rest t t' ltac:(done)) as Ha. unfold apart_iv in *. lia.
Qed.

(** ** New items *)

Lemma block_at_mono I p it q c cap :
  I !! p = None → block_at r I q c cap → block_at r (<[p := it]> I) q c cap.
Proof.
  intros Hp [(b & k & i & Hb & H)|[-> Hb]]; [left; exists b, k, i|right; split; [done|]];
    rewrite lookup_insert_ne by congruence; done.
Qed.

Lemma item_pos m next T g b it : inv r al m next T g → items g !! b = Some it → 0 < item_len it.
Proof.
  intros Hinv Hb. destruct (iv_in _ _ _ _ _ _ Hinv _ _ Hb) as (Hio & _).
  destruct it; cbn in *; unfold CHUNK_SIZE, LARGE_HDR; lia.
Qed.

(** Metadata and handed-out blocks lie in items. *)
Lemma meta_item m next T g x :
  inv r al m next T g → meta r g x → ∃ b it, items g !! b = Some it ∧ b ≤ x < b + item_len it.
Proof.
  intros Hinv [(b & sc & k & Hb & Hm)|[(h & cap' & Hh & Hm)|(t & c' & p' & cap' & Hp' & Hblk & Hm)]].
  - exists b, (IChunk sc k). split; [done|]. destruct (chunk_facts r al Hr _ _ _ _ Hinv _ _ _ Hb) as (?&?&?&?&Hoff&?&?&?&?).
    unfold chunk_block_ptr in Hm. rewrite Hoff in Hm. cbn. unfold CHUNK_SIZE in *. destruct Hm as [|(i & ? & ?)]; [lia|].
    pose proof (mul_step i (bc sc) (bs sc) ltac:(lia) ltac:(lia)).
    pose proof (Z.mul_nonneg_nonneg i (bs sc) ltac:(lia) ltac:(lia)). lia.
  - exists h, (ILarge cap'). split; [done|]. destruct (iv_in _ _ _ _ _ _ Hinv _ _ Hh) as ((?&?) & _). cbn. lia.
  - apply (block_in r al Hr _ _ _ _ Hinv) in Hblk as (b & it & Hb & ? & ? & _). exists b, it. split; [done|]. lia.
Qed.

Lemma carved_fresh m next T g p it :
  inv r al m next T g → item_ok r it → carved next T g p (item_len it) → items g !! p = None.
Proof.
  intros Hinv Hio Hcv. destruct (items g !! p) as [it'|] eqn:E; [|done]. exfalso.
  pose proof (item_pos _ _ _ _ _ _ Hinv E). destruct (cv_item _ _ _ _ _ Hcv _ _ E); [lia|].
  assert (0 < item_len it); [|lia]. destruct it; cbn in *; unfold CHUNK_SIZE, LARGE_HDR; lia.
Qed.

Definition add_item g (p : Z) (it : item) : ghost := Ghost (<[p := it]> (items g)) (lists g) (live g).

Definition item_content m (p : Z) (it : item) : Prop :=
  match it with
  | IChunk sc k => chunk_ok r m p sc k
  | ILarge cap => ldn 4 m p = LARGE_MAGIC ∧ ldn 4 m (p + 4) ≤ cap
  end.

Lemma inv_add_item m m' next T g p it :
  inv r al m next T g → carved next T g p (item_len it) → item_ok r it → (al = true → ∃ sc k, it = IChunk sc k) → mem_ok m' →
  (∀ x, x < p ∨ p + item_len it ≤ x → m' !! x = m !! x) → item_content m' p it →
  inv r al m' next T (add_item g p it) ∧ keeps r g m m'.
Proof.
  intros Hinv Hcv Hio Hal Hok Hm Hct. pose proof (carved_fresh _ _ _ _ _ _ Hinv Hio Hcv) as Hnone.
  assert (inv r al m' next T g) as Hinv'.
  { apply (inv_frame m); [done|done|]. intros x Hx. apply Hm.
    destruct (meta_item _ _ _ _ _ Hinv Hx) as (b & it' & Hb & ?). destruct (cv_item _ _ _ _ _ Hcv _ _ Hb); lia. }
  split.
  2:{ intros q n c cap x _ Hblk Hx. apply Hm. apply (block_in r al Hr _ _ _ _ Hinv) in Hblk as (b & it' & Hb & ? & ? & _).
      destruct (cv_item _ _ _ _ _ Hcv _ _ Hb); lia. }
  pose proof Hinv' as []. pose proof Hcv as [].
  split; cbn; try done.
  - intros b it' [[<- <-]|[Hne Hb]]%lookup_insert_Some; [|by apply iv_in]. split_and!; [done|lia..].
  - intros b it1 b' it2 [[<- <-]|[Hne Hb]]%lookup_insert_Some [[<- <-]|[Hne' Hb']]%lookup_insert_Some Hbb;
      [done| | |by apply iv_sep].
    + destruct (cv_item0 _ _ Hb'); lia.
    + destruct (cv_item0 _ _ Hb); lia.
  - intros t b it' [[<- <-]|[Hne Hb]]%lookup_insert_Some; [|by apply iv_rest_item]. apply cv_rest0.
  - intros b sc k [[<- ->]|[Hne Hb]]%lookup_insert_Some; [done|by apply iv_chunk].
  - intros h cap [[<- ->]|[Hne Hh]]%lookup_insert_Some; [done|by apply iv_large].
  - intros t sc. destruct (iv_hot t sc) as [|[k Hk]]; [by left|]. right. exists k. rewrite lookup_insert_ne by congruence. done.
  - intros t c q Hq. destruct (iv_free _ _ _ Hq) as [[cap Hblk] ?]. split; [|done]. exists cap. by apply block_at_mono.
  - intros q n Hq. destruct (iv_live _ _ Hq) as (c & cap & Hblk & ?). exists c, cap. split; [|done]. by apply block_at_mono.
  - intros Ha. destruct (iv_align Ha) as [H1 H2]. split; [|done].
    intros b it' [[<- <-]|[Hne Hb]]%lookup_insert_Some; [split; auto|by apply H1].
Qed.

(** *** Contents of a fresh chunk *)

Lemma link_blocks_run p d s n : ∀ i m next u,
  4 ≤ s → 0 ≤ i → 0 ≤ d → d + (i + Z.of_nat n) * s < 2 ^ 32 → mem_ok m →
  ∃ m', link_blocks p d s i n (Heap m next u) = Some ((), Heap m' next u) ∧ mem_ok m' ∧
    (∀ x, x < p + d + i * s ∨ p + d + (i + Z.of_nat n) * s ≤ x → m' !! x = m !! x) ∧
    (∀ j, i ≤ j < i + Z.of_nat n → ldn 4 m' (p + d + j * s) = d + (j + 1) * s).
Proof.
  induction n as [|n IH]; intros i m next u Hs Hi Hd Hlt Hok.
  - exists m. split; [done|]. split; [done|]. split; [done|]. intros j Hj. lia.
  - cbn [link_blocks]. unfold store, mbind, am_bind. cbn [hmem g_next_slab_idx tl].
    set (m1 := stn 4 m (p + (d + i * s)) (d + (i + 1) * s)).
    destruct (IH (i + 1) m1 next u) as (m' & E & Hok' & Hout & Hin); [done|lia|done|lia|by apply stn_ok|].
    exists m'. split; [exact E|]. split; [done|]. split.
    + intros x Hx. rewrite Hout by lia. apply stn_lookup. lia.
    + intros j Hj. destruct (Z.eq_dec j i) as [->|Hne]; [|apply Hin; lia].
      rewrite (ldn_ext 4 m' m1) by (intros; apply Hout; lia).
      unfold m1. replace (p + d + i * s) with (p + (d + i * s)) by lia. apply ldn_stn_small.
      unfold is_w. cbn. pose proof (mul_step i (i + Z.of_nat (S n)) s). nia.
Qed.

Ltac ld_ne := rewrite ldn_stn_ne by lia.

Lemma chunk_init_run m next u p sc :
  0 < bs sc → mem_ok m →
  ∃ m', chunk_init r p sc (Heap m next u) = Some ((), Heap m' next u) ∧ mem_ok m' ∧
    (∀ x, x < p ∨ p + CHUNK_SIZE ≤ x → m' !! x = m !! x) ∧ chunk_ok r m' p sc 0.
Proof.
  intros Hs Hok. destruct (class_facts r Hr sc Hs) as (Hbs & Hbc & Hoff & Hfit & Hbm & Hbm' & Hsc).
  assert (bc sc ≤ 4096) as Hbc'.
  { unfold CHUNK_SIZE in Hfit. pose proof (Z.mul_le_mono_nonneg_l 16 (bs sc) (bc sc) ltac:(lia) ltac:(lia)). lia. }
  unfold CHUNK_SIZE in *. unfold MAX_CLASSES in Hsc.
  unfold chunk_init, store, memset0, mbind, am_bind. cbn [hmem g_next_slab_idx tl].
  set (mh := stn 4 (stn 4 (stn 4 (stn 2 (stn 2 (stn 4 m p CHUNK_MAGIC) (p + 4) (Z.of_nat sc)) (p + 6) 0)
     (p + 8) (bs sc)) (p + 12) (bc sc)) (p + 16) (bc sc)).
  assert (mem_ok mh) as Hmh by (unfold mh; by repeat apply stn_ok).
  assert (∀ x, x < p ∨ p + 20 ≤ x → mh !! x = m !! x) as Hout by (intros x Hx; unfold mh; by rewrite !stn_lookup by lia).
  assert (ldn 4 mh p = CHUNK_MAGIC ∧ ldn 2 mh (p + 4) = Z.of_nat sc ∧ ldn 4 mh (p + 12) = bc sc ∧ ldn 4 mh (p + 16) = bc sc)
    as (H1 & H2 & H3 & H4).
  { unfold mh. split_and!.
    - do 5 ld_ne. apply ldn_stn_small. unfold is_w, CHUNK_MAGIC. cbn. lia.
    - do 4 ld_ne. apply ldn_stn_small. unfold is_w. cbn. lia.
    - ld_ne. apply ldn_stn_small. unfold is_w. cbn. lia.
    - apply ldn_stn_small. unfold is_w. cbn. lia. }
  clearbody mh. unfold chunk_ok. rewrite Z.sub_0_r.
  destruct (Z.ltb_spec 0 (g_sc_bitmap_bytes r sc)) as [Hb|Hb].
  - set (m2 := stn 4 (stn 2 mh (p + 6) 1) (p + 20) 0). set (z := replicate (Z.to_nat (g_sc_bitmap_bytes r sc)) 0).
    assert (mem_ok m2) by (unfold m2; by repeat apply stn_ok).
    assert (Z.of_nat (length z) = g_sc_bitmap_bytes r sc) as Hz by (unfold z; rewrite length_replicate; lia).
    exists (store_bytes m2 (chunk_bitmap p) z). unfold chunk_bitmap, CHUNK_HEADER_SZ. split; [done|].
    assert (mem_ok (store_bytes m2 (p + 32) z)) as Hok'.
    { apply store_bytes_ok; [done|]. apply Forall_replicate. unfold is_byte. lia. }
    assert (∀ n a, a + Z.of_nat n ≤ p + 32 → ldn n (store_bytes m2 (p + 32) z) a = ldn n m2 a) as E.
    { intros n a ?. apply ldn_ext. intros x ?. apply store_bytes_lookup. lia. }
    split_and!; [done| | | | | | |].
    + intros x Hx. rewrite store_bytes_lookup by lia. unfold m2. rewrite !stn_lookup by lia. apply Hout. lia.
    + rewrite E by lia. unfold m2. by do 2 ld_ne.
    + rewrite E by lia. unfold m2. by do 2 ld_ne.
    + rewrite E by lia. unfold m2. by do 2 ld_ne.
    + rewrite E by lia. unfold m2. by do 2 ld_ne.
    + rewrite E by lia. unfold m2. apply ldn_stn_small. unfold is_w. cbn. lia.
    + intros i Hi. destruct (Hbm' Hb). rewrite (proj2 (Z.ltb_ge i 0)) by lia.
      pose proof (Z.mod_pos_bound i 64 ltac:(lia)). apply ldn_zero_bits; [done|lia|].
      pose proof (Z.div_mod i 64 ltac:(lia)). pose proof (Z.div_pos i 64 ltac:(lia) ltac:(lia)).
      pose proof (Z.div_mod (i mod 64) 8 ltac:(lia)). pose proof (Z.mod_pos_bound (i mod 64) 8 ltac:(lia)).
      pose proof (Z.div_pos (i mod 64) 8 ltac:(lia) ltac:(lia)).
      unfold mget, store_bytes. rewrite wr_at_addr. zprune. unfold z.
      rewrite lookup_replicate_2; [done|]. lia.
  - rewrite Hoff. destruct (link_blocks_run p 4096 (bs sc) (Z.to_nat (bc sc - 1)) 0 mh next u) as (m2 & -> & Hok2 & Hout2 & Hin2);
      [lia|lia|lia|rewrite Z2Nat.id; lia|done|]. rewrite Z2Nat.id in Hout2, Hin2 by lia. cbn [hmem g_next_slab_idx tl].
    eexists. split; [reflexivity|]. set (m3 := stn 4 m2 (p + (4096 + (bc sc - 1) * bs sc)) 0).
    assert (0 ≤ (bc sc - 1) * bs sc) by (apply Z.mul_nonneg_nonneg; lia).
    assert ((bc sc - 1) * bs sc + bs sc = bc sc * bs sc) by lia.
    assert (∀ n a, a + Z.of_nat n ≤ p + 20 → ldn n (stn 4 m3 (p + 20) 4096) a = ldn n mh a) as E.
    { intros n a ?. ld_ne. unfold m3. ld_ne. apply ldn_ext. intros x ?. apply Hout2. lia. }
    split_and!; [by repeat apply stn_ok| | | | | | |].
    + intros x Hx. unfold m3. rewrite !stn_lookup by lia. rewrite Hout2 by lia. apply Hout. lia.
    + by rewrite E by lia.
    + by rewrite E by lia.
    + by rewrite E by lia.
    + by rewrite E by lia.
    + rewrite (proj2 (Z.ltb_lt 0 (bc sc))) by lia. rewrite ldn_stn_small; [lia|]. unfold is_w. cbn. lia.
    + intros i Hi. unfold chunk_block_ptr. rewrite Hoff.
      pose proof (Z.mul_nonneg_nonneg i (bs sc) ltac:(lia) ltac:(lia)). ld_ne. unfold m3.
      destruct (Z.ltb_spec (i + 1) (bc sc)) as [Hlt|Hge].
      * pose proof (mul_step i (bc sc - 1) (bs sc) ltac:(lia) ltac:(lia)). ld_ne. apply Hin2. lia.
      * replace i with (bc sc - 1) by lia. rewrite <- Z.add_assoc. apply ldn_stn_small. unfold is_w. cbn. lia.
Qed.

(** ** Changes of one thread's lists, hot chunks and the live blocks *)

Lemma inv_local m next T g t u (L : nat → nat → list Z) (V : gmap Z Z) :
  inv r al m next T g → slab_bump u = slab_bump (T t) → slab_end u = slab_end (T t) →
  (∀ sc, tl_hot_chunks u sc = 0 ∨ ∃ k, items g !! tl_hot_chunks u sc = Some (IChunk sc k)) →
  (∀ sc t' sc', t' ≠ t → tl_hot_chunks u sc ≠ 0 → tl_hot_chunks u sc ≠ tl_hot_chunks (T t') sc') →
  (∀ t', t' ≠ t → L t' = lists g t') →
  (∀ c, (c ≤ MAX_CLASSES)%nat → chain c m (list_head u c) (L t c)) →
  (∀ c p, p ∈ L t c → (∃ cap, block_at r (items g) p c cap) ∧ ∀ t' c', t' ≠ t → p ∉ lists g t' c') →
  (∀ c, NoDup (L t c)) →
  (∀ p n, V !! p = Some n → (∃ c cap, block_at r (items g) p c cap ∧ 0 ≤ n ≤ cap ∧ c = class_of r n) ∧ ∀ t' c, p ∉ L t' c) →
  inv r al m next (<[t := u]> T) (Ghost (items g) L V).
Proof.
  intros Hinv Hb He Hhot Hhot' HLo Hch HL Hnd HV. pose proof Hinv as [].
  assert (∀ t0, slab_bump (<[t := u]> T t0) = slab_bump (T t0) ∧ slab_end (<[t := u]> T t0) = slab_end (T t0)) as E.
  { intros t0. destruct (decide (t = t0)) as [<-|]; [rewrite fn_lookup_insert; by split|by rewrite fn_lookup_insert_ne]. }
  split; cbn [items lists live]; try done.
  - intros t0. destruct (E t0) as [-> ->]. done.
  - intros t0. destruct (E t0) as [-> ->]. apply iv_rest_item.
  - intros t1 t2. destruct (E t1) as [-> ->], (E t2) as [-> ->]. apply iv_rest_rest.
  - intros t0 sc. destruct (decide (t = t0)) as [<-|]; [rewrite fn_lookup_insert|rewrite fn_lookup_insert_ne by done]; [apply Hhot|apply iv_hot].
  - intros t1 t2 sc sc'. destruct (decide (t = t1)) as [<-|], (decide (t = t2)) as [<-|];
      rewrite ?fn_lookup_insert, ?fn_lookup_insert_ne by done; intros H1 H2.
    + done.
    + exfalso. by eapply (Hhot' sc t2 sc').
    + exfalso. eapply (Hhot' sc' t1 sc); [done|congruence|done].
    + by eapply iv_hot_inj.
  - intros t0 c Hc. destruct (decide (t = t0)) as [<-|]; rewrite ?fn_lookup_insert, ?fn_lookup_insert_ne by done; [by apply Hch|].
    rewrite HLo by done. by apply iv_chain.
  - intros t0 c p Hp. split.
    + destruct (decide (t = t0)) as [<-|]; [by apply HL|]. rewrite HLo in Hp by done. by apply (iv_free t0).
    + destruct (V !! p) as [n|] eqn:EV; [|done]. exfalso. by apply (proj2 (HV _ _ EV) t0 c).
  - intros t0 c. destruct (decide (t = t0)) as [<-|]; [apply Hnd|]. rewrite HLo by done. apply iv_nodup.
  - intros t1 c t2 c' p H1 H2. destruct (decide (t = t1)) as [<-|], (decide (t = t2)) as [<-|];
      try (rewrite HLo in H1 by congruence); try (rewrite HLo in H2 by congruence).
    + split; [done|]. destruct (HL _ _ H1) as [[cap Hb1] _], (HL _ _ H2) as [[cap' Hb2] _].
      by apply (block_unique r al Hr _ _ _ _ Hinv _ _ _ _ _ Hb1 Hb2).
    + exfalso. apply (proj2 (HL _ _ H1) t2 c'); [congruence|done].
    + exfalso. apply (proj2 (HL _ _ H2) t1 c); [congruence|done].
    + by eapply iv_disj.
  - intros p n Hp. by apply HV.
  - intros Ha. destruct (iv_align Ha) as [H1 H2]. split; [done|]. intros t0. destruct (E t0) as [-> _]. done.
Qed.

Lemma inv_tls_ext m next T T' g : inv r al m next T g → (∀ t, T' t = T t) → inv r al m next T' g.
Proof.
  intros [] E. split; try done.
  - intros t. rewrite E. apply iv_rest.
  - intros t. rewrite E. apply iv_rest_item.
  - intros t t'. rewrite !E. apply iv_rest_rest.
  - intros t. rewrite E. apply iv_hot.
  - intros t t'. rewrite !E. apply iv_hot_inj.
  - intros t. rewrite E. apply iv_chain.
  - intros Ha. destruct (iv_align Ha) as [H1 H2]. split; [done|]. intros t. rewrite E. done.
Qed.

Lemma insert_twice T t u u' t' : (<[t := u']> (<[t := u]> T) : nat → tls) t' = (<[t := u']> T : nat → tls) t'.
Proof. destruct (decide (t = t')) as [<-|]; [by rewrite !fn_lookup_insert|by rewrite !fn_lookup_insert_ne]. Qed.

Definition with_hot (u : tls) (sc : nat) (c : Z) : tls :=
  TLS (slab_bump u) (slab_end u) (tl_free_lists u) (<[sc := c]> (tl_hot_chunks u)) (tl_large_free_list u).
Definition with_fl (u : tls) (sc : nat) (l : fl_list) : tls :=
  TLS (slab_bump u) (slab_end u) (<[sc := l]> (tl_free_lists u)) (tl_hot_chunks u) (tl_large_free_list u).
Definition with_large (u : tls) (p : Z) : tls :=
  TLS (slab_bump u) (slab_end u) (tl_free_lists u) (tl_hot_chunks u) p.

Lemma inv_hot m next T g t sc b k :
  inv r al m next T g → items g !! b = Some (IChunk sc k) → (∀ t' sc', tl_hot_chunks (T t') sc' ≠ b) →
  inv r al m next (<[t := with_hot (T t) sc b]> T) g.
Proof.
  intros Hinv Hb Hn. pose proof Hinv as []. destruct g as [I L V].
  apply (inv_local m next T (Ghost I L V)); cbn in *; try done.
  - intros sc'. destruct (decide (sc = sc')) as [<-|]; [rewrite fn_lookup_insert|rewrite fn_lookup_insert_ne by done]; eauto.
  - intros sc1 t' sc' Hne. destruct (decide (sc = sc1)) as [<-|]; [rewrite fn_lookup_insert|rewrite fn_lookup_insert_ne by done].
    + intros _ ->. by eapply Hn.
    + intros H1 H2. apply Hne. symmetry. by eapply iv_hot_inj.
  - intros c Hc. apply (iv_chain t c Hc).
  - intros c p Hp. split; [by apply (iv_free t c p)|]. intros t' c' Hne Hp'. by destruct (iv_disj _ _ _ _ _ Hp Hp').
  - intros p n Hp. split; [by apply iv_live|]. intros t' c Hp'. destruct (iv_free _ _ _ Hp'). congruence.
Qed.

Lemma inv_set_live m next T g p n c cap :
  inv r al m next T g → block_at r (items g) p c cap → 0 ≤ n ≤ cap → c = class_of r n → (∀ t c, p ∉ lists g t c) →
  inv r al m next T (Ghost (items g) (lists g) (<[p := n]> (live g))).
Proof.
  intros Hinv Hb Hn Hc Hf. pose proof Hinv as []. split; cbn; try done.
  - intros t0 c0 q Hq. destruct (iv_free _ _ _ Hq) as [? ?]. split; [done|]. rewrite lookup_insert_ne; [done|].
    intros ->. by eapply Hf.
  - intros q n0 [[<- <-]|[Hne Hq]]%lookup_insert_Some; [eauto|by apply iv_live].
Qed.

Lemma inv_del_live m next T g p :
  inv r al m next T g → inv r al m next T (Ghost (items g) (lists g) (delete p (live g))).
Proof.
  intros Hinv. pose proof Hinv as []. split; cbn; try done.
  - intros t0 c0 q Hq. destruct (iv_free _ _ _ Hq) as [? ?]. split; [done|]. by rewrite lookup_delete_None; right.
  - intros q n0 [Hne Hq]%lookup_delete_Some. by apply iv_live.
Qed.

(** ** Chunks *)

Lemma chunk_alloc_spec m next T g t sc :
  inv r al m next T g → 0 < bs sc → bs sc mod 16 = 0 →
  match tm_region_chunk_alloc r sc (Heap m next (T t)) with
  | None => g_tm_region_end r < rs + (next + 1) * g_slab_size r
  | Some (p, h') => ∃ m' next' bump en, h' = Heap m' next' (with_slab (T t) bump en) ∧ items g !! p = None ∧ p ≠ 0 ∧
      inv r al m' next' (<[t := with_slab (T t) bump en]> T) (add_item g p (IChunk sc 0)) ∧ keeps r g m m'
  end.
Proof.
  intros Hinv Hs Hs16. unfold tm_region_chunk_alloc, mbind, am_bind.
  assert (CHUNK_SIZE ≤ 1 * g_slab_size r < CHUNK_SIZE + 2 ^ 41) as Hsl.
  { destruct (ro_slab r Hr) as (k & Hk & _ & ->). unfold CHUNK_SIZE.
    pose proof (Z.pow_le_mono_r 2 20 k). pose proof (Z.pow_le_mono_r 2 k 40). lia. }
  pose proof (carve_spec m next T g t CHUNK_SIZE 1 Hinv) as Hc. unfold CHUNK_SIZE in Hc at 1 2.
  specialize (Hc ltac:(lia) ltac:(done) ltac:(lia) Hsl ltac:(done)).
  destruct (slab_carve r CHUNK_SIZE 1 (Heap m next (T t))) as [[p h']|]; [|done].
  destruct Hc as (next' & bump & en & -> & Hinv1 & Hcv).
  destruct (chunk_init_run m next' (with_slab (T t) bump en) p sc Hs (iv_mem _ _ _ _ _ _ Hinv)) as (m' & -> & Hok' & Hout & Hck).
  destruct (class_facts r Hr sc Hs) as (_ & Hbc & _).
  assert (item_ok r (IChunk sc 0)) as Hio by (cbn; lia).
  exists m', next', bump, en. destruct (rs_mod16 r Hr). pose proof (cv_in _ _ _ _ _ Hcv). split_and!; [done|by eapply carved_fresh|lia| |].
  - apply (inv_add_item m m' next' _ g p (IChunk sc 0)); eauto.
  - eapply (inv_add_item m m' next' _ g p (IChunk sc 0)); eauto.
Qed.

Lemma fresh_hot_spec m next T g t sc :
  inv r al m next T g → 0 < bs sc → bs sc mod 16 = 0 →
  match fresh_hot r sc (Heap m next (T t)) with
  | None => g_tm_region_end r < rs + (next + 1) * g_slab_size r
  | Some (p, h') => ∃ m' next' u, h' = Heap m' next' u ∧ items g !! p = None ∧
      tl_hot_chunks u sc = p ∧ p ≠ 0 ∧
      inv r al m' next' (<[t := u]> T) (add_item g p (IChunk sc 0)) ∧ keeps r g m m'
  end.
Proof.
  intros Hinv Hs Hs16. unfold fresh_hot, mbind, am_bind.
  pose proof (chunk_alloc_spec m next T g t sc Hinv Hs Hs16) as Hc.
  destruct (tm_region_chunk_alloc r sc (Heap m next (T t))) as [[p h']|]; [|done].
  destruct Hc as (m' & next' & bump & en & -> & Hnone & Hp0 & Hinv1 & Hk). cbn.
  set (u := with_slab (T t) bump en) in *. exists m', next', (with_hot u sc p). split_and!; try done.
  - cbn. by rewrite fn_lookup_insert.
  - pose proof (inv_hot m' next' (<[t := u]> T) (add_item g p (IChunk sc 0)) t sc p 0 Hinv1) as H.
    rewrite fn_lookup_insert in H. eapply inv_tls_ext; [apply H|]; [by cbn; rewrite lookup_insert_eq| |intros t'; by rewrite insert_twice].
    intros t' sc' E. assert (tl_hot_chunks (<[t := u]> T t') sc' = tl_hot_chunks (T t') sc') as E'.
    { destruct (decide (t = t')) as [<-|]; [by rewrite fn_lookup_insert|by rewrite fn_lookup_insert_ne]. }
    rewrite E' in E. destruct (iv_hot _ _ _ _ _ _ Hinv t' sc') as [H0|[k Hk']]; congruence.
Qed.

(** ** Blocks of a chunk *)

Lemma block_at_bump I b sc k q c cap :
  I !! b = Some (IChunk sc k) → block_at r I q c cap → block_at r (<[b := IChunk sc (k + 1)]> I) q c cap.
Proof.
  intros Hb [(b' & k' & i & Hb' & Hi & -> & ->)|[-> Hb']].
  - left. destruct (decide (b = b')) as [<-|Hne].
    + rewrite Hb in Hb'. injection Hb' as <- <-. exists b, (k + 1), i. rewrite lookup_insert_eq. split_and!; [done|lia..|done|done].
    + exists b', k', i. rewrite lookup_insert_ne by done. done.
  - right. split; [done|]. rewrite lookup_insert_ne; [done|]. congruence.
Qed.

(** The first block that has not been handed out is no block yet. *)
Lemma next_block_new m next T g b sc k c cap :
  inv r al m next T g → items g !! b = Some (IChunk sc k) → k < bc sc →
  ¬ block_at r (items g) (chunk_block_ptr r b k sc) c cap.
Proof.
  intros Hinv Hb Hk Hblk. destruct (chunk_facts r al Hr _ _ _ _ Hinv _ _ _ Hb) as (?&?&?&?&Hoff&?&?&?&?).
  apply (block_in r al Hr _ _ _ _ Hinv) in Hblk as (b' & it & Hb' & Hlo & Hhi & Hcap & _ & _ & Hit).
  pose proof (mul_step k (bc sc) (bs sc) ltac:(lia) ltac:(lia)).
  pose proof (Z.mul_nonneg_nonneg k (bs sc) ltac:(lia) ltac:(lia)).
  unfold chunk_block_ptr in *. rewrite Hoff in *. destruct (decide (b = b')) as [<-|Hne].
  - rewrite Hb in Hb'. injection Hb' as <-. destruct Hit as (-> & -> & i & Hi & E).
    rewrite Hoff in E. pose proof (mul_step i k (bs sc) ltac:(lia) ltac:(lia)). lia.
  - destruct (iv_sep _ _ _ _ _ _ Hinv _ _ _ _ Hb Hb' Hne) as [Hs|Hs]; cbn in Hs; lia.
Qed.

(** Handed-out blocks and large headers are outside the header page of a chunk. *)
Lemma block_off_header m next T g b sc k q c cap :
  inv r al m next T g → items g !! b = Some (IChunk sc k) → block_at r (items g) q c cap →
  let lo := if (c =? MAX_CLASSES)%nat then q - LARGE_HDR else q in q + cap ≤ b ∨ b + 4096 ≤ lo.
Proof.
  intros Hinv Hb Hblk. destruct (chunk_facts r al Hr _ _ _ _ Hinv _ _ _ Hb) as (?&?&?&?&Hoff&?&?&?&?).
  apply (block_in r al Hr _ _ _ _ Hinv) in Hblk as (b' & it & Hb' & Hlo & Hhi & Hcap & _ & _ & Hit).
  unfold LARGE_HDR, CHUNK_SIZE in *. destruct (decide (b = b')) as [<-|Hne].
  - rewrite Hb in Hb'. injection Hb' as <-. destruct Hit as (-> & -> & i & Hi & ->). cbv zeta.
    rewrite (proj2 (Nat.eqb_neq sc MAX_CLASSES)) by lia. unfold chunk_block_ptr. rewrite Hoff.
    pose proof (Z.mul_nonneg_nonneg i (bs sc) ltac:(lia) ltac:(lia)). lia.
  - destruct (iv_sep _ _ _ _ _ _ Hinv _ _ _ _ Hb Hb' Hne) as [Hs|Hs]; cbn in Hs; unfold CHUNK_SIZE in Hs.
    + right. destruct (Nat.eqb c MAX_CLASSES); lia.
    + left. lia.
Qed.

Lemma inv_bump_chunk m m' next T g b sc k :
  inv r al m next T g → items g !! b = Some (IChunk sc k) → k < bc sc → mem_ok m' →
  (∀ x, x < b ∨ b + 4096 ≤ x → m' !! x = m !! x) → chunk_ok r m' b sc (k + 1) →
  inv r al m' next T (add_item g b (IChunk sc (k + 1))) ∧ keeps r g m m'.
Proof.
  intros Hinv Hb Hk Hok Hm Hck. pose proof Hinv as [].
  destruct (chunk_facts r al Hr _ _ _ _ Hinv _ _ _ Hb) as (Hbs&?&?&?&Hoff&Hfit&?&?&?). split.
  2:{ intros q n c cap x _ Hblk Hx. apply Hm. pose proof (block_off_header _ _ _ _ _ _ _ _ _ _ Hinv Hb Hblk) as Ho.
      unfold LARGE_HDR in Ho. destruct (Nat.eqb c MAX_CLASSES); lia. }
  assert (∀ b' it', <[b := IChunk sc (k + 1)]> (items g) !! b' = Some it' →
    ∃ it, items g !! b' = Some it ∧ item_len it = item_len it' ∧ (item_ok r it → item_ok r it')) as Hold.
  { intros b' it' [[<- <-]|[Hne Hb']]%lookup_insert_Some; [|eauto]. exists (IChunk sc k). cbn. split_and!; [done..|lia]. }
  split; cbn [add_item items lists live]; try done.
  - intros b' it' (it & Hb' & <- & Himp)%Hold. destruct (iv_in _ _ Hb') as (?&?&?&?). auto.
  - intros b1 it1 b2 it2 (it1' & Hi1 & <- & _)%Hold (it2' & Hi2 & <- & _)%Hold. by apply iv_sep.
  - intros t b' it' (it & Hb' & <- & _)%Hold. by apply iv_rest_item.
  - intros b' sc' k' [[<- [= <- <-]]|[Hne Hb']]%lookup_insert_Some; [done|].
    destruct (iv_in _ _ Hb') as ((? & ? & ?) & _). destruct (iv_sep _ _ _ _ Hb Hb' Hne) as [Hs|Hs]; cbn in Hs; unfold CHUNK_SIZE in *;
      destruct (chunk_facts r al Hr _ _ _ _ Hinv _ _ _ Hb') as (?&?&?&?&Hoff'&?&?&?&?); unfold CHUNK_SIZE in *.
    + apply (chunk_ok_frame m); [done|lia|by apply iv_chunk|intros x Hx; apply Hm; lia|].
      intros i x Hi. unfold chunk_block_ptr. rewrite Hoff'. intros Hx. apply Hm.
      pose proof (Z.mul_nonneg_nonneg i (bs sc') ltac:(lia) ltac:(lia)). lia.
    + apply (chunk_ok_frame m); [done|lia|by apply iv_chunk|intros x Hx; apply Hm; lia|].
      intros i x Hi. unfold chunk_block_ptr. rewrite Hoff'. intros Hx. apply Hm.
      pose proof (mul_step i (bc sc') (bs sc') ltac:(lia) ltac:(lia)). lia.
  - intros h cap [[<- ?]|[Hne Hh]]%lookup_insert_Some; [done|]. destruct (iv_in _ _ Hh) as ((? & ?) & _).
    destruct (iv_large _ _ Hh) as [E1 E2]. 
    assert (∀ x, h ≤ x < h + 8 → m' !! x = m !! x) as E.
    { intros x Hx. apply Hm. destruct (iv_sep _ _ _ _ Hb Hh Hne) as [Hs|Hs]; cbn in Hs; unfold CHUNK_SIZE, LARGE_HDR in *; lia. }
    by rewrite (ldn_ext 4 m' m h), (ldn_ext 4 m' m (h + 4)) by (intros; apply E; lia).
  - intros t sc'. destruct (iv_hot t sc') as [|[k' Hk']]; [by left|]. right.
    destruct (decide (b = tl_hot_chunks (T t) sc')) as [E|]; [|rewrite lookup_insert_ne by done; eauto].
    rewrite <- E, Hb in Hk'. injection Hk' as <- <-. rewrite <- E, lookup_insert_eq. eauto.
  - intros t c Hc. apply (chain_frame c m); [by apply iv_chain|]. intros q x Hq Hx. apply Hm.
    destruct (iv_free _ _ _ Hq) as [[cap Hblk] _]. pose proof (block_off_header _ _ _ _ _ _ _ _ _ _ Hinv Hb Hblk) as Ho.
    apply (block_in r al Hr _ _ _ _ Hinv) in Hblk as (b' & it & Hb' & Hlo & Hhi & Hcap & _).
    unfold link_of in Hx. unfold LARGE_HDR in Ho. destruct (Nat.eqb c MAX_CLASSES); lia.
  - intros t c q Hq. destruct (iv_free _ _ _ Hq) as [[cap Hblk] ?]. split; [|done]. exists cap. by apply block_at_bump.
  - intros q n Hq. destruct (iv_live _ _ Hq) as (c & cap & Hblk & ?). exists c, cap. split; [|done]. by apply block_at_bump.
  - intros Ha. destruct (iv_align Ha) as [Ha1 Ha2]. split; [|done].
    intros b' it' [[<- <-]|[Hne Hb']]%lookup_insert_Some; [split; [by eapply Ha1|eauto]|by apply Ha1].
Qed.

Lemma word_index k : 0 ≤ k → k < 2 ^ 32 → (k / 64) .<< 6 .| (k mod 64) = k.
Proof.
  intros H0 H1. pose proof (Z.mod_pos_bound k 64 ltac:(lia)). pose proof (Z.div_mod k 64 ltac:(lia)).
  pose proof (Z.div_pos k 64 H0 ltac:(lia)).
  unfold shl64. rewrite Z.shiftl_mul_pow2 by lia. unfold wrap. rewrite Z.mod_small by lia.
  rewrite <- Z.shiftl_mul_pow2 by lia.
  assert (Z.land (Z.shiftl (k / 64) 6) (k mod 64) = 0) as Hl.
  { apply Z.bits_inj'. intros j Hj. rewrite Z.land_spec, Z.shiftl_spec, Z.bits_0 by done.
    destruct (Z.lt_ge_cases j 6); [by rewrite (Z.testbit_neg_r _ (j - 6)) by lia|].
    rewrite (testbit_high 6 (k mod 64) j), andb_false_r by (unfold is_w; cbn; lia). done. }
  pose proof (Z.add_lor_land (Z.shiftl (k / 64) 6) (k mod 64)) as E. rewrite Hl in E.
  rewrite (Z.shiftl_mul_pow2 (k / 64) 6) in E at 2 by lia. lia.
Qed.

Lemma land63 k : 0 ≤ k → k .& 63 = k mod 64.
Proof. intros. change 63 with (Z.ones 6). by rewrite Z.land_ones. Qed.

Lemma bitmap_find_run m b sc k next u :
  mem_ok m → 0 < bs sc → 0 < g_sc_bitmap_bytes r sc → 0 ≤ k < bc sc → chunk_ok r m b sc k →
  bitmap_find_free (chunk_bitmap b) (bc sc) k (Heap m next u) = Some (k, Heap m next u).
Proof.
  intros Hok Hs Hb Hk (_ & _ & _ & _ & Hc). destruct (class_facts r Hr sc Hs) as (Hbs & Hbc & Hoff & Hfit & _ & _ & _).
  rewrite (proj2 (Z.ltb_lt _ _) Hb) in Hc. destruct Hc as [_ Hbit].
  assert (bc sc ≤ 4096) as Hbc'.
  { unfold CHUNK_SIZE in Hfit. pose proof (Z.mul_le_mono_nonneg_l 16 (bs sc) (bc sc) ltac:(lia) ltac:(lia)). lia. }
  unfold bitmap_find_free. cbn [hmem]. rewrite !Z.shiftr_div_pow2 by lia. change (2 ^ 6) with 64.
  pose proof (Z.mod_pos_bound k 64 ltac:(lia)) as Hm. pose proof (Z.div_mod k 64 ltac:(lia)) as Hd.
  destruct (Z.to_nat ((bc sc + 63) / 64 - k / 64)) as [|n] eqn:En.
  { pose proof (Z.div_mod (bc sc + 63) 64 ltac:(lia)). pose proof (Z.mod_pos_bound (bc sc + 63) 64 ltac:(lia)). lia. }
  cbn [find_free_pass]. set (w := ldn 8 m (chunk_bitmap b + 8 * (k / 64))).
  assert (Z.testbit w (k mod 64) = false) as Hf by (unfold w; rewrite Hbit by lia; apply Z.ltb_irrefl).
  assert (ctzll (not64 w) = k mod 64) as ->.
  { apply ctzll_spec; [done| |].
    - unfold not64. rewrite testbit_wrap, testbit_not, Hf by lia. zprune. done.
    - intros j Hj. unfold not64. rewrite testbit_wrap, testbit_not by lia.
      assert (Z.testbit w j = true) as ->; [|by rewrite !andb_false_r].
      specialize (Hbit (64 * (k / 64) + j) ltac:(lia)).
      replace ((64 * (k / 64) + j) / 64) with (k / 64) in Hbit by (apply (Z.div_unique _ _ _ j); lia).
      replace ((64 * (k / 64) + j) mod 64) with j in Hbit by (apply (Z.mod_unique _ _ (k / 64)); lia).
      unfold w. rewrite Hbit. apply Z.ltb_lt. lia. }
  rewrite word_index by lia.
  assert (w ≠ not64 0) as Hne.
  { intros E. rewrite E in Hf. unfold not64 in Hf. rewrite testbit_wrap, testbit_not, Z.testbit_0_l in Hf by lia.
    revert Hf. zprune. done. }
  rewrite (proj2 (Z.eqb_neq _ _) Hne), (proj2 (Z.ltb_lt _ _)) by lia. done.
Qed.

(** The bitmap after setting the bit of block [k]. *)
Lemma bitmap_set_bits m b sc k w i :
  0 < bs sc → 0 < g_sc_bitmap_bytes r sc → 0 ≤ k < bc sc → 0 ≤ i < bc sc → mem_ok m →
  w = ldn 8 m (chunk_bitmap b + 8 * (k / 64)) →
  Z.testbit (ldn 8 (stn 8 m (chunk_bitmap b + 8 * (k / 64)) (w .| (1 .<< (k mod 64)))) (chunk_bitmap b + 8 * (i / 64))) (i mod 64)
  = (i =? k) || Z.testbit (ldn 8 m (chunk_bitmap b + 8 * (i / 64))) (i mod 64).
Proof.
  intros Hs Hb Hk Hi Hok ->. pose proof (Z.mod_pos_bound k 64 ltac:(lia)). pose proof (Z.div_mod k 64 ltac:(lia)).
  pose proof (Z.mod_pos_bound i 64 ltac:(lia)). pose proof (Z.div_mod i 64 ltac:(lia)).
  destruct (Z.eq_dec (i / 64) (k / 64)) as [E|Hne].
  - rewrite E. set (w := ldn 8 m _). rewrite ldn_stn. rewrite testbit_wrap by lia. change (8 * Z.of_nat 8) with 64.
    rewrite Z.lor_spec. unfold shl64. rewrite testbit_wrap, testbit_shl by lia. zprune.
    + subst i. rewrite Z.sub_diag. by rewrite orb_true_r.
    + assert (i mod 64 ≠ k mod 64) as Hm by lia.
      change 1 with (2 ^ 0). rewrite Z.pow2_bits_eqb by lia. rewrite (proj2 (Z.eqb_neq _ _)) by lia. by rewrite orb_false_r.
  - rewrite ldn_stn_ne by lia. assert (i ≠ k) by congruence. by rewrite (proj2 (Z.eqb_neq _ _)).
Qed.

Lemma malloc_block_run m b sc k next u :
  mem_ok m → 0 < bs sc → 0 ≤ k < bc sc → chunk_ok r m b sc k →
  ∃ m', malloc_block r sc b (Heap m next u) = Some (chunk_block_ptr r b k sc, Heap m' next u) ∧ mem_ok m' ∧
    (∀ x, x < b ∨ b + 4096 ≤ x → m' !! x = m !! x) ∧ chunk_ok r m' b sc (k + 1).
Proof.
  intros Hok Hs Hk Hc. pose proof Hc as (H1 & H2 & H3 & H4 & H5).
  destruct (class_facts r Hr sc Hs) as (Hbs & Hbc & Hoff & Hfit & _ & _ & _).
  assert (bc sc ≤ 4096) as Hbc'.
  { unfold CHUNK_SIZE in Hfit. pose proof (Z.mul_le_mono_nonneg_l 16 (bs sc) (bc sc) ltac:(lia) ltac:(lia)). lia. }
  unfold malloc_block, chunk_ok. destruct (Z.ltb_spec 0 (g_sc_bitmap_bytes r sc)) as [Hb|Hb].
  - destruct H5 as [H5 H6]. unfold mbind, am_bind, load. cbn [hmem]. rewrite H3, H5, bitmap_find_run by done.
    rewrite (proj2 (Z.ltb_ge k 0)) by lia. unfold mret, am_ret, bitmap_set, load, store, mbind, am_bind.
    cbn [hmem g_next_slab_idx tl]. rewrite land63, Z.shiftr_div_pow2 by lia. change (2 ^ 6) with 64.
    destruct (bitmap_word sc k Hs Hb Hk) as [Hw1 Hw2].
    set (m1 := stn 8 m _ _). set (m2 := stn 4 m1 (b + 20) (k + 1)).
    assert (∀ n a, a + Z.of_nat n ≤ b + 20 → ldn n m2 a = ldn n m a) as E.
    { intros n a ?. unfold m2, m1, chunk_bitmap, CHUNK_HEADER_SZ. by do 2 ld_ne. }
    rewrite (E 4%nat (b + 16)), H4 by lia. eexists. split; [reflexivity|]. split_and!.
    + by repeat apply stn_ok.
    + intros x Hx. unfold m2, m1, chunk_bitmap, CHUNK_HEADER_SZ. by rewrite !stn_lookup by lia.
    + ld_ne. by rewrite E by lia.
    + ld_ne. by rewrite E by lia.
    + ld_ne. by rewrite E by lia.
    + rewrite ldn_stn_small; [lia|]. unfold is_w. cbn. lia.
    + ld_ne. unfold m2. apply ldn_stn_small. unfold is_w. cbn. lia.
    + intros i Hi. destruct (bitmap_word sc i Hs Hb Hi). unfold chunk_bitmap, CHUNK_HEADER_SZ. ld_ne. unfold m2. ld_ne.
      change (b + 32) with (chunk_bitmap b). unfold m1. rewrite (bitmap_set_bits m b sc) by done. rewrite H6 by done. zcmp; simpl; lia || done.
  - destruct H5 as [H5 H6]. rewrite (proj2 (Z.ltb_lt k (bc sc))) in H5 by lia.
    assert (0 ≤ k * bs sc) by (apply Z.mul_nonneg_nonneg; lia).
    pose proof (mul_step k (bc sc) (bs sc) ltac:(lia) ltac:(lia)). unfold CHUNK_SIZE in *.
    unfold load, mbind, am_bind. cbn [hmem]. rewrite H5, (proj2 (Z.eqb_neq _ 0)) by lia.
    unfold mret, am_ret, fl_next, load, store. rewrite (proj2 (Z.eqb_neq _ 0)) by lia. cbn [hmem g_next_slab_idx tl].
    assert (ldn 4 m (b + (4096 + k * bs sc)) = if k + 1 <? bc sc then 4096 + (k + 1) * bs sc else 0) as ->.
    { rewrite <- (H6 k) by lia. unfold chunk_block_ptr. rewrite Hoff. f_equal. lia. }
    rewrite ldn_stn_ne, H4 by lia. eexists. split.
    { unfold chunk_block_ptr. rewrite Hoff, Z.add_assoc. reflexivity. }
    split_and!.
    + by repeat apply stn_ok.
    + intros x Hx. by rewrite !stn_lookup by lia.
    + by do 2 ld_ne.
    + by do 2 ld_ne.
    + by do 2 ld_ne.
    + rewrite ldn_stn_small; [lia|]. unfold is_w. cbn. lia.
    + ld_ne. apply ldn_stn_small. unfold is_w. cbn. 
      destruct (Z.ltb_spec (k + 1) (bc sc)); [|lia]. pose proof (mul_step (k + 1) (bc sc) (bs sc) ltac:(lia) ltac:(lia)). lia.
    + intros i Hi. unfold chunk_block_ptr. rewrite Hoff. pose proof (Z.mul_nonneg_nonneg i (bs sc) ltac:(lia) ltac:(lia)).
      do 2 ld_ne. rewrite <- (H6 i) by lia. unfold chunk_block_ptr. by rewrite Hoff.
Qed.

(** ** Free lists *)

Lemma block_nonzero m next T g p c cap : inv r al m next T g → block_at r (items g) p c cap → rs < node_of c p + 16 ∧ rs < p ∧ node_of c p ≠ 0.
Proof.
  intros Hinv Hblk. apply (block_in r al Hr _ _ _ _ Hinv) in Hblk as (b & it & Hb & Hlo & _).
  destruct (iv_in _ _ _ _ _ _ Hinv _ _ Hb) as (_ & ? & _). destruct (rs_mod16 r Hr).
  unfold node_of, LARGE_HDR. destruct (Nat.eqb c MAX_CLASSES); lia.
Qed.

(** A change of a large block's header that keeps what the invariant says of it. *)
Lemma inv_large_hdr m m' next T g h cap :
  inv r al m next T g → items g !! h = Some (ILarge cap) → mem_ok m' →
  (∀ x, x < h ∨ h + LARGE_HDR ≤ x → m' !! x = m !! x) → ldn 4 m' h = LARGE_MAGIC → ldn 4 m' (h + 4) ≤ cap →
  (∀ x, h + 8 ≤ x < h + LARGE_HDR → m' !! x = m !! x) ∨ (∀ t c, h + LARGE_HDR ∉ lists g t c) →
  inv r al m' next T g ∧ keeps r g m m'.
Proof.
  intros Hinv Hh Hok Hm Hm1 Hm2 Hlk. pose proof Hinv as []. destruct (iv_in _ _ Hh) as ((Hcap & _) & _). unfold LARGE_HDR in *. split.
  2:{ intros q n c cap' x _ Hblk Hx. apply Hm. apply (block_in r al Hr _ _ _ _ Hinv) in Hblk as (b & it & Hb & Hlo & Hhi & _).
      destruct (decide (b = h)) as [->|Hne]; [lia|]. destruct (iv_sep _ _ _ _ Hb Hh Hne) as [Hs|Hs]; cbn in Hs; unfold LARGE_HDR in Hs; lia. }
  split; try done.
  - intros b sc k Hb. assert (b ≠ h) as Hne by congruence. destruct (chunk_facts r al Hr _ _ _ _ Hinv _ _ _ Hb) as (?&?&?&?&Hoff&Hfit&?&?&?).
    assert (∀ x, b ≤ x < b + CHUNK_SIZE → m' !! x = m !! x) as E.
    { intros x Hx. apply Hm. destruct (iv_sep _ _ _ _ Hb Hh Hne) as [Hs|Hs]; cbn in Hs; unfold LARGE_HDR in Hs; lia. }
    unfold CHUNK_SIZE in *. apply (chunk_ok_frame m); [lia|lia|by apply iv_chunk|intros; apply E; lia|].
    intros i x Hi. unfold chunk_block_ptr. rewrite Hoff. intros Hx. apply E.
    pose proof (Z.mul_nonneg_nonneg i (bs sc) ltac:(lia) ltac:(lia)).
    pose proof (mul_step i (bc sc) (bs sc) ltac:(lia) ltac:(lia)). lia.
  - intros h' cap' Hh'. destruct (decide (h' = h)) as [->|Hne]; [split; [done|]; rewrite Hh in Hh'; by injection Hh' as <-|].
    destruct (iv_large _ _ Hh') as [E1 E2]. destruct (iv_in _ _ Hh') as ((? & _) & _).
    assert (∀ x, h' ≤ x < h' + 8 → m' !! x = m !! x) as E.
    { intros x Hx. apply Hm. destruct (iv_sep _ _ _ _ Hh' Hh Hne) as [Hs|Hs]; cbn in Hs; unfold LARGE_HDR in Hs; lia. }
    by rewrite (ldn_ext 4 m' m h'), (ldn_ext 4 m' m (h' + 4)) by (intros; apply E; lia).
  - intros t c Hc. apply (chain_frame c m); [by apply iv_chain|]. intros q x Hq Hx.
    destruct (iv_free _ _ _ Hq) as [[cap' Hblk] _]. apply (block_in r al Hr _ _ _ _ Hinv) in Hblk as (b & it & Hb & Hlo & Hhi & Hc16 & _ & _ & Hit).
    unfold link_of in Hx. destruct (decide (b = h)) as [->|Hne].
    + rewrite Hh in Hb. injection Hb as <-. destruct Hit as (-> & -> & ->). rewrite Nat.eqb_refl in Hx. unfold LARGE_HDR in *.
      destruct Hlk as [Hlk|Hlk]; [apply Hlk; lia|]. exfalso. by eapply Hlk.
    + apply Hm. destruct (iv_sep _ _ _ _ Hb Hh Hne) as [Hs|Hs]; cbn in Hs; unfold LARGE_HDR in Hs; destruct (Nat.eqb c MAX_CLASSES); lia.
Qed.

(** Taking the first block off a list of thread [t]: [u] has the new head. *)
Lemma inv_pop m next T g t c p ps u :
  inv r al m next T g → (c ≤ MAX_CLASSES)%nat → lists g t c = p :: ps →
  slab_bump u = slab_bump (T t) → slab_end u = slab_end (T t) → tl_hot_chunks u = tl_hot_chunks (T t) →
  (∀ c', list_head u c' = if (c' =? c)%nat then ldn 8 m (link_of c p) else list_head (T t) c') →
  inv r al m next (<[t := u]> T) (Ghost (items g) (<[t := <[c := ps]> (lists g t)]> (lists g)) (live g)) ∧
  (∀ t' c', p ∉ (<[t := <[c := ps]> (lists g t)]> (lists g) : nat → nat → list Z) t' c').
Proof.
  intros Hinv Hc Hl Hu1 Hu2 Hu3 Hu4. pose proof Hinv as []. set (L := <[t := <[c := ps]> (lists g t)]> (lists g)).
  assert (∀ c', L t c' = if (c' =? c)%nat then ps else lists g t c') as EL.
  { intros c'. unfold L. rewrite fn_lookup_insert. destruct (Nat.eqb_spec c' c) as [->|Hne]; [by rewrite fn_lookup_insert|].
    by rewrite fn_lookup_insert_ne. }
  assert (∀ t', t' ≠ t → L t' = lists g t') as EL' by (intros t' Ht'; unfold L; by rewrite fn_lookup_insert_ne).
  assert (∀ t' c' q, q ∈ L t' c' → q ∈ lists g t' c') as Hsub.
  { intros t' c' q Hq. destruct (decide (t' = t)) as [->|]; [|by rewrite EL' in Hq]. rewrite EL in Hq.
    destruct (Nat.eqb_spec c' c) as [->|]; [|done]. rewrite Hl. by right. }
  pose proof (iv_nodup t c) as Hnd. rewrite Hl in Hnd. apply NoDup_cons in Hnd as [Hp Hnd]. split.
  2:{ intros t' c' Hq. assert (p ∈ lists g t c) as Hpl by (rewrite Hl; left). destruct (iv_disj _ _ _ _ _ (Hsub _ _ _ Hq) Hpl) as [-> ->].
      rewrite EL, Nat.eqb_refl in Hq. done. }
  apply (inv_local m next T g t u L); try done.
  - rewrite Hu3. apply iv_hot.
  - intros sc t' sc' Hne H1 H2. rewrite Hu3 in H1, H2. apply Hne. symmetry. by eapply iv_hot_inj.
  - intros c' Hc'. rewrite Hu4, EL. destruct (Nat.eqb_spec c' c) as [->|]; [|by apply iv_chain].
    pose proof (iv_chain t c Hc) as Hch. rewrite Hl in Hch. apply Hch.
  - intros c' q Hq. apply Hsub in Hq as Hq'. split; [by apply (iv_free t)|]. intros t' c2 Hne Hq2.
    by destruct (iv_disj _ _ _ _ _ Hq' Hq2).
  - intros c'. rewrite EL. destruct (Nat.eqb_spec c' c); [done|apply iv_nodup].
  - intros q n Hq. split; [by apply iv_live|]. intros t' c' Hq'%Hsub. destruct (iv_free _ _ _ Hq'). congruence.
Qed.

(** Pushing an owned block, whose link has been stored, onto a list of thread [t]. *)
Lemma inv_push m next T g t c p cap u :
  inv r al m next T g → block_at r (items g) p c cap → (∀ t' c', p ∉ lists g t' c') → live g !! p = None →
  ldn 8 m (link_of c p) = list_head (T t) c →
  slab_bump u = slab_bump (T t) → slab_end u = slab_end (T t) → tl_hot_chunks u = tl_hot_chunks (T t) →
  (∀ c', list_head u c' = if (c' =? c)%nat then node_of c p else list_head (T t) c') →
  inv r al m next (<[t := u]> T) (Ghost (items g) (<[t := <[c := p :: lists g t c]> (lists g t)]> (lists g)) (live g)).
Proof.
  intros Hinv Hblk Hf Hnl Hlk Hu1 Hu2 Hu3 Hu4. pose proof Hinv as []. set (L := <[t := <[c := p :: lists g t c]> (lists g t)]> (lists g)).
  assert (∀ c', L t c' = if (c' =? c)%nat then p :: lists g t c else lists g t c') as EL.
  { intros c'. unfold L. rewrite fn_lookup_insert. destruct (Nat.eqb_spec c' c) as [->|Hne]; [by rewrite fn_lookup_insert|].
    by rewrite fn_lookup_insert_ne. }
  assert (∀ t', t' ≠ t → L t' = lists g t') as EL' by (intros t' Ht'; unfold L; by rewrite fn_lookup_insert_ne).
  apply (inv_local m next T g t u L); try done.
  - rewrite Hu3. apply iv_hot.
  - intros sc t' sc' Hne H1 H2. rewrite Hu3 in H1, H2. apply Hne. symmetry. by eapply iv_hot_inj.
  - intros c' Hc'. rewrite Hu4, EL. destruct (Nat.eqb_spec c' c) as [->|]; [|by apply iv_chain].
    split; [done|]. rewrite Hlk. by apply iv_chain.
  - intros c' q Hq. rewrite EL in Hq. destruct (Nat.eqb_spec c' c) as [->|].
    + apply elem_of_cons in Hq as [->|Hq]; [split; [eauto|intros; apply Hf]|].
      split; [by apply (iv_free t)|]. intros t' c2 Hne Hq2. by destruct (iv_disj _ _ _ _ _ Hq Hq2).
    + split; [by apply (iv_free t)|]. intros t' c2 Hne Hq2. by destruct (iv_disj _ _ _ _ _ Hq Hq2).
  - intros c'. rewrite EL. destruct (Nat.eqb_spec c' c); [|apply iv_nodup]. constructor; [apply Hf|apply iv_nodup].
  - intros q n Hq. split; [by apply iv_live|]. intros t' c' Hq'.
    assert (q ∈ lists g t' c') as Hq2.
    { destruct (decide (t' = t)) as [->|]; [|by rewrite EL' in Hq']. rewrite EL in Hq'.
      destruct (Nat.eqb_spec c' c) as [E|]; [rewrite E|done]. apply elem_of_cons in Hq' as [->|]; [congruence|done]. }
    destruct (iv_free _ _ _ Hq2). congruence.
Qed.
End Ops.
