(* ===== verification/RegionSpec.v ===== *)
(** * Region allocator: what malloc, calloc, realloc and free guarantee

    Each operation of a thread takes the invariant to the invariant with the live blocks
    changed as its contract says, and changes no byte of another live block.  The last
    part runs operations of any number of threads, and arbitrary stores of the program
    into live blocks, in any order. *)

From stdpp Require Import functions.
From S2P Require Import Prelude Memory Region RegionInv RegionOps.
#[local] Open Scope Z_scope.
#[local] Open Scope word_scope.

Section Spec.
Context (r : region) (al : bool) (Hr : region_ok r).
Implicit Types (m : mem) (I : gmap Z item) (g : ghost) (T : nat → tls) (p x : Z) (t : nat) (u : tls).

Abbreviation bs := (g_sc_block_size r).
Abbreviation bc := (g_sc_block_count r).
Abbreviation rs := (g_tm_region_start r).

(** Same live blocks, and every block is still one. *)
Definition ext g g' : Prop :=
  live g' = live g ∧ ∀ p c cap, block_at r (items g) p c cap → block_at r (items g') p c cap.

Lemma keeps_trans g g' m m1 m2 : ext g g' → keeps r g m m1 → keeps r g' m1 m2 → keeps r g m m2.
Proof.
  intros [El Hb] H1 H2 p n c cap x Hp Hblk Hx.
  rewrite (H2 p n c cap x); [by eapply H1|by rewrite El|by apply Hb|done].
Qed.

Lemma ext_trans g g1 g2 : ext g g1 → ext g1 g2 → ext g g2.
Proof. intros [E1 H1] [E2 H2]. split; [congruence|]. auto. Qed.

Lemma ext_refl g : ext g g.
Proof. by split. Qed.

Lemma keeps_refl g m : keeps r g m m.
Proof. by intros ????????. Qed.

Definition unlisted g p : Prop := ∀ t c, p ∉ lists g t c.

(** A thread's operation has produced block [p] of class [c], of at least [sz] bytes, that
    nobody has. *)
Definition produced t m T g (sz : Z) (c : nat) (p : Z) (h' : heap) : Prop :=
  ∃ g' cap, inv r al (hmem h') (g_next_slab_idx h') (<[t := tl h']> T) g' ∧ ext g g' ∧ keeps r g m (hmem h') ∧
    block_at r (items g') p c cap ∧ sz ≤ cap ∧ unlisted g' p ∧ live g !! p = None.

(** ** Small blocks *)

Lemma pop_spec m next T g t sc :
  inv r al m next T g → (sc < MAX_CLASSES)%nat →
  ∃ p h', tl_fl_pop sc (Heap m next (T t)) = Some (p, h') ∧
    if p =? 0 then h' = Heap m next (T t) else produced t m T g (bs sc) sc p h'.
Proof.
  intros Hinv Hsc. pose proof (iv_chain _ _ _ _ _ _ Hinv t sc ltac:(lia)) as Hch.
  assert ((sc =? MAX_CLASSES)%nat = false) as Hne by (apply Nat.eqb_neq; lia).
  unfold tl_fl_pop, get_tl, mbind, am_bind. cbn [tl]. unfold list_head in Hch. rewrite Hne in Hch.
  destruct (lists g t sc) as [|p ps] eqn:El.
  - cbn in Hch. rewrite Hch. rewrite Z.eqb_refl. exists 0, (Heap m next (T t)). done.
  - destruct Hch as [Hp _]. unfold node_of in Hp. rewrite Hne in Hp. rewrite Hp.
    assert (p ∈ lists g t sc) as Hin by (rewrite El; left).
    destruct (iv_free _ _ _ _ _ _ Hinv _ _ _ Hin) as [(cap & Hblk) Hnl].
    destruct (block_nonzero r al Hr _ _ _ _ _ _ _ Hinv Hblk) as (_ & Hp0 & _). destruct (rs_mod16 r Hr).
    rewrite (proj2 (Z.eqb_neq p 0)) by lia. unfold load, set_free_list, get_tl, set_tl, mbind, am_bind. cbn [hmem tl g_next_slab_idx].
    exists p. eexists. split; [reflexivity|]. rewrite (proj2 (Z.eqb_neq p 0)) by lia.
    edestruct (inv_pop r al Hr m next T g t sc p ps) as [Hinv' Hun]; [done|lia|done| | | | |].
    5:{ exists (Ghost (items g) (<[t := <[sc := ps]> (lists g t)]> (lists g)) (live g)), cap.
        cbn [hmem tl g_next_slab_idx]. split_and!; [exact Hinv'|done|apply keeps_refl|done| |exact Hun|done].
        destruct Hblk as [(?&?&?&?&?&?&->)|[-> _]]; lia. }
    1-3: done.
    intros c'. unfold list_head. cbn. unfold link_of. rewrite Hne. destruct (Nat.eqb_spec c' sc) as [->|Hc].
    + rewrite Hne, fn_lookup_insert. done.
    + by rewrite fn_lookup_insert_ne.
Qed.

Lemma add_item_ext m next T g b it : inv r al m next T g → items g !! b = None → ext g (add_item g b it).
Proof. intros Hinv Hb. split; [done|]. intros p c cap. by apply block_at_mono. Qed.

(** A chunk of thread [t] with a free block. *)
Lemma hot_spec m next T g t sc :
  inv r al m next T g → 0 < bs sc → bs sc mod 16 = 0 →
  match malloc_hot r sc (Heap m next (T t)) with
  | None => g_tm_region_end r < rs + (next + 1) * g_slab_size r
  | Some (b, h') => ∃ g' k, inv r al (hmem h') (g_next_slab_idx h') (<[t := tl h']> T) g' ∧ ext g g' ∧ keeps r g m (hmem h') ∧
      items g' !! b = Some (IChunk sc k) ∧ k < bc sc
  end.
Proof.
  intros Hinv Hs Hs16. pose proof (fresh_hot_spec r al Hr m next T g t sc Hinv Hs Hs16) as Hfresh.
  destruct (class_facts r Hr sc Hs) as (_ & Hbc & _).
  assert (∀ g m' next' T' b k, inv r al m' next' T' g → items g !! b = Some (IChunk sc k) → ldn 4 m' (b + 16) = bc sc - k) as Hfc.
  { intros g0 m' next' T' b k Hi Hb. apply (iv_chunk _ _ _ _ _ _ Hi) in Hb as (_ & _ & _ & ? & _). done. }
  unfold malloc_hot, get_tl, mbind, am_bind. cbn [tl].
  assert (∀ p m' next' u, items g !! p = None → inv r al m' next' (<[t := u]> T) (add_item g p (IChunk sc 0)) → keeps r g m m' →
    ∃ g' k, inv r al m' next' (<[t := u]> T) g' ∧ ext g g' ∧ keeps r g m m' ∧ items g' !! p = Some (IChunk sc k) ∧ k < bc sc) as Hdone.
  { intros p m' next' u Hn Hi Hk. exists (add_item g p (IChunk sc 0)), 0. split_and!; [done|by eapply add_item_ext|done| |lia].
    by cbn; rewrite lookup_insert_eq. }
  destruct (Z.eqb_spec (tl_hot_chunks (T t) sc) 0) as [H0|H0].
  - destruct (fresh_hot r sc (Heap m next (T t))) as [[p h']|]; [|done].
    destruct Hfresh as (m' & next' & u & -> & Hn & _ & Hp & Hi & Hk). unfold load. cbn [hmem].
    rewrite (Hfc _ _ _ _ _ 0 Hi) by (by cbn; rewrite lookup_insert_eq).
    rewrite (proj2 (Z.eqb_neq _ 0)) by lia. cbn. by apply Hdone.
  - destruct (iv_hot _ _ _ _ _ _ Hinv t sc) as [|[k Hk]]; [done|]. unfold mret, am_ret, load. cbn [hmem].
    rewrite (Hfc _ _ _ _ _ k Hinv Hk). destruct (Z.eqb_spec (bc sc - k) 0) as [Hf|Hf].
    + destruct (fresh_hot r sc (Heap m next (T t))) as [[p h']|]; [|done].
      destruct Hfresh as (m' & next' & u & -> & Hn & _ & Hp & Hi & Hk'). cbn. by apply Hdone.
    + cbn. exists g, k. split_and!; [|apply ext_refl|apply keeps_refl|done|].
      * eapply inv_tls_ext; [done|]. intros t'. destruct (decide (t = t')) as [<-|]; [by rewrite fn_lookup_insert|by rewrite fn_lookup_insert_ne].
      * destruct (iv_in _ _ _ _ _ _ Hinv _ _ Hk) as ((_ & _ & ?) & _). lia.
Qed.

Lemma small_spec m next T g t sc :
  inv r al m next T g → 0 < bs sc → bs sc mod 16 = 0 → (sc < MAX_CLASSES)%nat →
  match malloc_small r sc (Heap m next (T t)) with
  | None => g_tm_region_end r < rs + (next + 1) * g_slab_size r
  | Some (p, h') => produced t m T g (bs sc) sc p h'
  end.
Proof.
  intros Hinv Hs Hs16 Hsc. unfold malloc_small. unfold mbind, am_bind.
  destruct (pop_spec m next T g t sc Hinv Hsc) as (p & h' & -> & Hpop).
  destruct (Z.eqb_spec p 0) as [->|Hp]; cbn [negb]; [|done]. subst h'.
  pose proof (hot_spec m next T g t sc Hinv Hs Hs16) as Hhot.
  destruct (malloc_hot r sc (Heap m next (T t))) as [[b h']|]; [|done].
  destruct Hhot as (g1 & k & Hinv1 & Hext & Hk1 & Hb & Hk).
  pose proof (iv_in _ _ _ _ _ _ Hinv1 _ _ Hb) as ((_ & _ & Hk0) & _). destruct h' as [m1 next1 u]. cbn [hmem tl g_next_slab_idx] in *.
  destruct (malloc_block_run r Hr m1 b sc k next1 u (iv_mem _ _ _ _ _ _ Hinv1) Hs ltac:(lia) (iv_chunk _ _ _ _ _ _ Hinv1 _ _ _ Hb))
    as (m2 & -> & Hok & Hout & Hck).
  destruct (inv_bump_chunk r al Hr m1 m2 next1 _ g1 b sc k Hinv1 Hb Hk Hok Hout Hck) as [Hinv2 Hk2].
  exists (add_item g1 b (IChunk sc (k + 1))), (bs sc). cbn [hmem tl g_next_slab_idx].
  assert (∀ c cap, ¬ block_at r (items g1) (chunk_block_ptr r b k sc) c cap) as Hnew.
  { intros c cap. by eapply (next_block_new r al Hr). }
  split_and!; [done| |by eapply keeps_trans| |lia| |].
  - eapply ext_trans; [done|]. split; [done|]. intros q c cap. by apply block_at_bump.
  - left. exists b, (k + 1), k. cbn. rewrite lookup_insert_eq. split_and!; [done|lia..|done|done].
  - intros t' c Hq. destruct (iv_free _ _ _ _ _ _ Hinv1 _ _ _ Hq) as [[cap Hblk] _]. by eapply Hnew.
  - destruct (live g !! _) as [n|] eqn:El; [|done]. destruct Hext as [E _]. rewrite <- E in El.
    destruct (iv_live _ _ _ _ _ _ Hinv1 _ _ El) as (c & cap & Hblk & _). by eapply Hnew in Hblk.
Qed.

(** ** Large blocks *)

(** Slabs a request may need. *)
Definition slabs_for (sz : Z) : Z := (sz + LARGE_HDR + g_slab_size r - 1) / g_slab_size r.

Lemma slabs_for_bounds sz :
  0 ≤ sz → 1 ≤ slabs_for sz ∧ sz + LARGE_HDR ≤ slabs_for sz * g_slab_size r < sz + LARGE_HDR + g_slab_size r.
Proof.
  intros Hs. destruct (slab_pos r Hr) as [Hp _]. unfold slabs_for, LARGE_HDR.
  pose proof (Z.div_mod (sz + 16 + g_slab_size r - 1) (g_slab_size r) ltac:(lia)).
  pose proof (Z.mod_pos_bound (sz + 16 + g_slab_size r - 1) (g_slab_size r) ltac:(lia)).
  set (q := (sz + 16 + g_slab_size r - 1) / g_slab_size r) in *. split; [|lia]. nia.
Qed.

Lemma bump_large_spec m next T g t sz :
  inv r al m next T g → al = false → 16 ≤ sz ≤ 2 ^ 63 + 15 → sz mod 16 = 0 →
  match malloc_bump_large r sz (Heap m next (T t)) with
  | None => g_tm_region_end r < rs + (next + slabs_for sz) * g_slab_size r
  | Some (p, h') => produced t m T g sz MAX_CLASSES p h'
  end.
Proof.
  intros Hinv Hal Hsz Hmod. unfold malloc_bump_large. destruct (ro_slab r Hr) as (k & Hk & Hsh & Hsl).
  pose proof (Z.pow_le_mono_r 2 k 40 ltac:(lia) ltac:(lia)) as Hp40. pose proof (Z.pow_pos_nonneg 2 k ltac:(lia) ltac:(lia)).
  assert (wrap64 (wrap64 (sz + LARGE_HDR) + 15) .& not64 15 = sz + 16) as ->.
  { unfold LARGE_HDR. assert (wrap64 (sz + 16) = sz + 16) as -> by (apply Z.mod_small; lia).
    assert (wrap64 (sz + 16 + 15) = sz + 31) as -> by (unfold wrap; rewrite Z.mod_small; lia).
    change 15 with (2 ^ 4 - 1). rewrite (land_not64 (sz + 31) 4) by lia. change (2 ^ 4) with 16.
    replace ((sz + 31) mod 16) with 15; [lia|]. apply (Z.mod_unique _ _ (sz / 16 + 1)); [lia|].
    pose proof (Z.div_mod sz 16 ltac:(lia)). lia. }
  assert (wrap64 (sz + 16 + g_slab_size r - 1) .>> g_slab_size_shift r = slabs_for sz) as ->.
  { rewrite Hsh, Z.shiftr_div_pow2 by lia. unfold slabs_for, LARGE_HDR. rewrite Hsl. f_equal. apply Z.mod_small. lia. }
  destruct (slabs_for_bounds sz ltac:(lia)) as (Hn1 & Hn2 & Hn3). unfold LARGE_HDR in Hn2, Hn3.
  assert ((sz + 16) mod 16 = 0) as Hm16 by (rewrite <- Hmod; replace (sz + 16) with (sz + 1 * 16) by lia; by rewrite Z.mod_add).
  pose proof (carve_spec r al Hr m next T g t (sz + 16) (slabs_for sz) Hinv ltac:(lia) Hm16 Hn1 ltac:(lia) ltac:(congruence)) as Hc.
  unfold mbind, am_bind. destruct (slab_carve r (sz + 16) (slabs_for sz) (Heap m next (T t))) as [[p h']|]; [|done].
  destruct Hc as (next' & bump & en & -> & Hinv1 & Hcv). unfold store. cbn [hmem tl g_next_slab_idx].
  set (m' := stn 8 (stn 4 (stn 4 m p LARGE_MAGIC) (p + 4) sz) (p + 8) 0).
  assert (sz + 16 = item_len (ILarge sz)) as El by (cbn; unfold LARGE_HDR; lia). rewrite El in Hcv.
  assert (item_ok r (ILarge sz)) as Hio by (cbn; lia).
  pose proof (carved_fresh r al _ _ _ _ _ _ Hinv1 Hio Hcv) as Hnone.
  destruct (inv_add_item r al Hr m m' next' _ g p (ILarge sz) Hinv1 Hcv Hio ltac:(congruence)) as [Hinv2 Hkp].
  - unfold m'. repeat apply stn_ok. apply (iv_mem _ _ _ _ _ _ Hinv).
  - intros x Hx. cbn in Hx. unfold LARGE_HDR in Hx. unfold m'. by rewrite !stn_lookup by lia.
  - cbn [item_content]. unfold m'. split.
    + rewrite !ldn_stn_ne by lia. apply ldn_stn_small. unfold is_w, LARGE_MAGIC. cbn. lia.
    + rewrite ldn_stn_ne by lia. rewrite ldn_stn. apply Z.mod_le; cbn; lia.
  - exists (add_item g p (ILarge sz)), sz. cbn [hmem tl g_next_slab_idx].
    assert (∀ c cap, ¬ block_at r (items g) (p + LARGE_HDR) c cap) as Hnew.
    { intros c cap Hblk. apply (block_in r al Hr _ _ _ _ Hinv) in Hblk as (b & it & Hb & Hlo & Hhi & ? & _).
      destruct (cv_item _ _ _ _ _ _ _ Hcv _ _ Hb) as [?|Hc]; [unfold LARGE_HDR in *; lia|].
      cbn in Hc. unfold LARGE_HDR in *. lia. }
    split_and!; [done|by eapply add_item_ext|done| |lia| |].
    + right. split; [done|]. cbn. replace (p + LARGE_HDR - LARGE_HDR) with p by lia. by rewrite lookup_insert_eq.
    + intros t' c Hq. destruct (iv_free _ _ _ _ _ _ Hinv _ _ _ Hq) as [[cap Hblk] _]. by eapply Hnew.
    + destruct (live g !! _) as [n|] eqn:E; [|done].
      destruct (iv_live _ _ _ _ _ _ Hinv _ _ E) as (c & cap & Hblk & _). by eapply Hnew in Hblk.
Qed.

Lemma large_spec m next T g t sz :
  inv r al m next T g → al = false → 16 ≤ sz ≤ 2 ^ 63 + 15 → sz mod 16 = 0 →
  match malloc_large r sz (Heap m next (T t)) with
  | None => g_tm_region_end r < rs + (next + slabs_for sz) * g_slab_size r
  | Some (p, h') => produced t m T g sz MAX_CLASSES p h'
  end.
Proof.
  intros Hinv Hal Hsz Hmod. pose proof (bump_large_spec m next T g t sz Hinv Hal Hsz Hmod) as Hbump.
  pose proof (iv_chain _ _ _ _ _ _ Hinv t MAX_CLASSES ltac:(lia)) as Hch.
  unfold malloc_large, get_tl, mbind, am_bind. cbn [tl].
  change (list_head (T t) MAX_CLASSES) with (tl_large_free_list (T t)) in Hch.
  destruct (lists g t MAX_CLASSES) as [|p ps] eqn:El.
  { cbn in Hch. by rewrite Hch, Z.eqb_refl. }
  destruct Hch as [Hh Hch]. change (node_of MAX_CLASSES p) with (p - LARGE_HDR) in Hh. rewrite Hh.
  assert (p ∈ lists g t MAX_CLASSES) as Hin by (rewrite El; left).
  destruct (iv_free _ _ _ _ _ _ Hinv _ _ _ Hin) as [(cap & Hblk) Hnl].
  destruct (block_nonzero r al Hr _ _ _ _ _ _ _ Hinv Hblk) as (_ & Hp0 & Hn0). change (node_of MAX_CLASSES p) with (p - LARGE_HDR) in Hn0.
  rewrite (proj2 (Z.eqb_neq _ 0) Hn0). unfold load. cbn [hmem].
  assert (items g !! (p - LARGE_HDR) = Some (ILarge cap)) as Hit.
  { destruct Hblk as [(b & k & i & Hb & _)|[_ Hb]]; [|done].
    destruct (chunk_facts r al Hr _ _ _ _ Hinv _ _ _ Hb) as (?&?&?&?&?&?&?&?&?). lia. }
  destruct (iv_large _ _ _ _ _ _ Hinv _ _ Hit) as [Hmg Hszc].
  destruct (Z.leb_spec sz (ldn 4 m (p - LARGE_HDR + 4))) as [Hle|]; [|done].
  unfold set_large, store, get_tl, set_tl, mbind, am_bind. cbn [hmem tl g_next_slab_idx].
  set (u := TLS _ _ _ _ _). set (m' := stn 4 m (p - LARGE_HDR + 4) sz).
  destruct (inv_pop r al Hr m next T g t MAX_CLASSES p ps u Hinv) as [Hinv1 Hun]; [lia|done|done|done|done| |].
  { intros c'. unfold list_head, u. cbn [tl_large_free_list tl_free_lists]. destruct (Nat.eqb_spec c' MAX_CLASSES) as [->|]; [|done].
    cbn [link_of]. unfold link_of. rewrite Nat.eqb_refl. f_equal. unfold LARGE_HDR. lia. }
  set (g1 := Ghost _ _ _) in *. unfold LARGE_HDR in *.
  destruct (inv_large_hdr r al Hr m m' next _ g1 (p - 16) cap Hinv1 Hit) as [Hinv2 Hkp].
  - apply stn_ok, (iv_mem _ _ _ _ _ _ Hinv).
  - intros x Hx. apply stn_lookup. unfold LARGE_HDR in *. lia.
  - unfold m'. by rewrite ldn_stn_ne by lia.
  - unfold m'. rewrite ldn_stn. apply Z.le_trans with sz; [apply Z.mod_le; cbn; lia|lia].
  - left. intros x Hx. apply stn_lookup. lia.
  - replace (p - 16 + 16) with p by lia. exists g1, cap. cbn [hmem tl g_next_slab_idx].
    split_and!; [done|done|done|done|lia|done|done].
Qed.

(** ** malloc *)

Lemma produced_weaken t m T g sz sz' c p h' : sz' ≤ sz → produced t m T g sz c p h' → produced t m T g sz' c p h'.
Proof. intros Hle (g' & cap & ? & ? & ? & ? & ? & ? & ?). exists g', cap. split_and!; try done. lia. Qed.

Lemma malloc_spec m next T g t sz :
  inv r al m next T g → 0 ≤ sz ≤ 2 ^ 63 → (al = true → sz ≤ 4096) →
  match tm_region_malloc r sz (Heap m next (T t)) with
  | None => g_tm_region_end r < rs + (next + slabs_for (malloc_round sz)) * g_slab_size r
  | Some (p, h') => produced t m T g sz (class_of r sz) p h'
  end.
Proof.
  intros Hinv Hsz Hal. unfold tm_region_malloc, class_of. destruct (malloc_round_spec sz Hsz) as (H1 & H2 & H3 & H4 & H5).
  set (s := malloc_round sz) in *. destruct (size_class_spec r Hr s H2 H4) as [[-> Hbig]|(Hle & Hsc & Hfit & H16)].
  - assert (al = false) as Ha by (destruct al; [specialize (Hal eq_refl); lia|done]).
    pose proof (large_spec m next T g t s Hinv Ha ltac:(lia) H4) as Hl.
    rewrite Nat.leb_refl. cbn [orb]. destruct (malloc_large r s (Heap m next (T t))) as [[p h']|]; [|done].
    by eapply produced_weaken.
  - rewrite (proj2 (Nat.leb_gt _ _) Hsc), (proj2 (Z.eqb_neq _ 0)) by lia. cbn [orb].
    pose proof (small_spec m next T g t (size_class_for r s) Hinv ltac:(lia) H16 Hsc) as Hl.
    destruct (malloc_small r (size_class_for r s) (Heap m next (T t))) as [[p h']|].
    + eapply produced_weaken; [|done]. lia.
    + destruct (slabs_for_bounds s ltac:(lia)) as (? & _). destruct (slab_pos r Hr) as [? _].
      pose proof (Z.mul_le_mono_nonneg_r (next + 1) (next + slabs_for s) (g_slab_size r) ltac:(lia) ltac:(lia)). lia.
Qed.

(** ** free *)

(** What [tm_region_free] takes for a chunk header. *)
Definition looks_chunk m (a : Z) : bool :=
  (ldn 4 m a =? CHUNK_MAGIC) && (ldn 2 m (a + 4) <? Z.of_nat MAX_CLASSES) && (0 <? bs (Z.to_nat (ldn 2 m (a + 4)))).

(** The bytes at the chunk boundary below [p] name the class [c] of the block, or, for a
    large block, do not look like a chunk header. *)
Definition header_found m (p : Z) (c : nat) : Prop :=
  if (c =? MAX_CLASSES)%nat then looks_chunk m (chunk_start p) = false
  else looks_chunk m (chunk_start p) = true ∧ ldn 2 m (chunk_start p + 4) = Z.of_nat c.

Lemma head_range m next T g t c : inv r al m next T g → (c ≤ MAX_CLASSES)%nat → is_w 64 (list_head (T t) c).
Proof.
  intros Hinv Hc. pose proof (iv_chain _ _ _ _ _ _ Hinv t c Hc) as Hch. unfold is_w. destruct (lists g t c) as [|p ps] eqn:El.
  - cbn in Hch. rewrite Hch. lia.
  - destruct Hch as [-> _]. assert (p ∈ lists g t c) as Hin by (rewrite El; left).
    destruct (iv_free _ _ _ _ _ _ Hinv _ _ _ Hin) as [(cap & Hblk) _].
    destruct (block_in r al Hr _ _ _ _ Hinv _ _ _ Hblk) as (b & it & Hb & Hlo & Hhi & Hcap & _).
    destruct (iv_in _ _ _ _ _ _ Hinv _ _ Hb) as (_ & Hb1 & Hb2 & _). pose proof (iv_next _ _ _ _ _ _ Hinv) as [_ Hn].
    pose proof (ro_end r Hr). destruct (rs_mod16 r Hr). unfold node_of, LARGE_HDR. destruct (Nat.eqb c MAX_CLASSES); lia.
Qed.

(** The bytes of a block that is neither live nor listed may be overwritten. *)
Lemma inv_owned_write m m' next T g p c cap :
  inv r al m next T g → block_at r (items g) p c cap → unlisted g p → live g !! p = None → mem_ok m' →
  (∀ x, x < p ∨ p + cap ≤ x → m' !! x = m !! x) → inv r al m' next T g ∧ keeps r g m m'.
Proof.
  intros Hinv Hblk Hun Hnl Hok Hm. split.
  - apply (inv_frame r al Hr m); [done|done|]. intros x Hx. apply Hm. destruct (Z.lt_ge_cases x p); [by left|].
    destruct (Z.lt_ge_cases x (p + cap)); [|by right]. exfalso.
    by apply (owned_not_meta r al Hr _ _ _ _ Hinv p c cap x Hblk Hun).
  - intros q n c' cap' x Hq Hblk' Hx. apply Hm. destruct (decide (p = q)) as [<-|Hne]; [congruence|].
    destruct (block_sep r al Hr _ _ _ _ Hinv _ _ _ _ _ _ Hblk Hblk' Hne); lia.
Qed.

Lemma push_spec m next T g t p c cap u :
  inv r al m next T g → block_at r (items g) p c cap → unlisted g p → live g !! p = None →
  slab_bump u = slab_bump (T t) → slab_end u = slab_end (T t) → tl_hot_chunks u = tl_hot_chunks (T t) →
  (∀ c', list_head u c' = if (c' =? c)%nat then node_of c p else list_head (T t) c') →
  let m' := stn 8 m (link_of c p) (list_head (T t) c) in
  let g' := Ghost (items g) (<[t := <[c := p :: lists g t c]> (lists g t)]> (lists g)) (live g) in
  inv r al m' next (<[t := u]> T) g' ∧ keeps r g m m'.
Proof.
  intros Hinv Hblk Hun Hnl Hu1 Hu2 Hu3 Hu4 m' g'.
  destruct (block_in r al Hr _ _ _ _ Hinv _ _ _ Hblk) as (b & it & Hb & Hlo & Hhi & Hcap & _ & _ & Hit).
  assert (mem_ok m') as Hok by (apply stn_ok, (iv_mem _ _ _ _ _ _ Hinv)).
  assert ((c ≤ MAX_CLASSES)%nat) as Hc.
  { destruct it; [|lia]. destruct Hit as (-> & _). destruct (chunk_facts r al Hr _ _ _ _ Hinv _ _ _ Hb) as (?&?&?&?&?&?&?&?&?). lia. }
  assert (ldn 8 m' (link_of c p) = list_head (T t) c) as Hlk.
  { apply ldn_stn_small. by eapply head_range. }
  assert (inv r al m' next T g ∧ keeps r g m m') as [Hinv' Hkp].
  { destruct it as [sc k|cap'].
    - destruct Hit as (-> & -> & _). destruct (chunk_facts r al Hr _ _ _ _ Hinv _ _ _ Hb) as (?&?&?&?&?&?&?&?&?).
      apply (inv_owned_write m m' next T g p sc (bs sc)); try done. intros x Hx. unfold m', link_of.
      rewrite (proj2 (Nat.eqb_neq _ _)) by lia. apply stn_lookup. lia.
    - destruct Hit as (-> & -> & ->). destruct (iv_large _ _ _ _ _ _ Hinv _ _ Hb) as [Hm1 Hm2]. unfold m', link_of.
      rewrite Nat.eqb_refl. unfold LARGE_HDR in *.
      apply (inv_large_hdr r al Hr m _ next T g b cap Hinv Hb); try done.
      + intros x Hx. apply stn_lookup. unfold LARGE_HDR in *. lia.
      + by rewrite ldn_stn_ne by lia.
      + by rewrite ldn_stn_ne by lia.
      + right. exact Hun. }
  split; [|done]. by eapply (inv_push r al Hr m' next T g t c p cap u).
Qed.

Lemma free_spec m next T g t p n :
  inv r al m next T g → live g !! p = Some n → header_found m p (class_of r n) →
  ∃ h' g' c cap, tm_region_free r p (Heap m next (T t)) = Some ((), h') ∧
    inv r al (hmem h') (g_next_slab_idx h') (<[t := tl h']> T) g' ∧
    items g' = items g ∧ live g' = delete p (live g) ∧ block_at r (items g) p c cap ∧
    lists g' t c = p :: lists g t c ∧ keeps r g' m (hmem h').
Proof.
  intros Hinv Hl Hf. destruct (iv_live _ _ _ _ _ _ Hinv _ _ Hl) as (c & cap & Hblk & _ & Ec). rewrite <- Ec in Hf. unfold header_found in Hf.
  pose proof (inv_del_live r al _ _ _ _ p Hinv) as Hinv0. set (g0 := Ghost _ _ _) in Hinv0.
  assert (unlisted g0 p) as Hun by (intros t' c' Hq; destruct (iv_free _ _ _ _ _ _ Hinv _ _ _ Hq); congruence).
  assert (live g0 !! p = None) as Hnl by apply lookup_delete_eq.
  destruct (block_in r al Hr _ _ _ _ Hinv _ _ _ Hblk) as (b & it & Hb & Hlo & Hhi & Hcap & _ & _ & Hit).
  destruct (iv_in _ _ _ _ _ _ Hinv _ _ Hb) as (_ & Hb1 & Hb2 & _). pose proof (iv_next _ _ _ _ _ _ Hinv) as [_ Hn].
  destruct (rs_mod16 r Hr). unfold tm_region_free, isTMAddress. rewrite (proj2 (Z.eqb_neq p 0)) by lia.
  rewrite (proj2 (Z.leb_le _ _)), (proj2 (Z.ltb_lt _ _)) by lia. cbn [negb andb].
  assert (∀ u, slab_bump u = slab_bump (T t) → slab_end u = slab_end (T t) → tl_hot_chunks u = tl_hot_chunks (T t) →
    (∀ c', list_head u c' = if (c' =? c)%nat then node_of c p else list_head (T t) c') →
    ∃ g' c0 cap0, inv r al (stn 8 m (link_of c p) (list_head (T t) c)) next (<[t := u]> T) g' ∧
      items g' = items g ∧ live g' = delete p (live g) ∧ block_at r (items g) p c0 cap0 ∧
      lists g' t c0 = p :: lists g t c0 ∧ keeps r g' m (stn 8 m (link_of c p) (list_head (T t) c))) as Hdone.
  { intros u Hu1 Hu2 Hu3 Hu4. destruct (push_spec m next T g0 t p c cap u Hinv0 Hblk Hun Hnl Hu1 Hu2 Hu3 Hu4) as [Hi Hk].
    eexists _, c, cap. split; [exact Hi|]. split_and!; try done. cbn. by rewrite fn_lookup_insert, fn_lookup_insert. }
  unfold load, mbind, am_bind. cbn [hmem]. destruct it as [sc k|cap'].
  - destruct Hit as (-> & -> & _). destruct (chunk_facts r al Hr _ _ _ _ Hinv _ _ _ Hb) as (?&?&?&?&?&?&?&?&?).
    rewrite (proj2 (Nat.eqb_neq _ _)) in Hf by lia. destruct Hf as [Hlc Hsc]. unfold looks_chunk in Hlc.
    rewrite Hlc, Hsc, Nat2Z.id. unfold tl_fl_push, get_tl, store, set_free_list, set_tl, mbind, am_bind. cbn [hmem tl g_next_slab_idx].
    edestruct Hdone as (g' & c0 & cap0 & Hd); cycle 4.
    + eexists _, g', c0, cap0. split; [reflexivity|]. cbn [hmem tl g_next_slab_idx].
      unfold link_of, list_head in Hd. rewrite (proj2 (Nat.eqb_neq _ _)) in Hd by lia. exact Hd.
    + done.
    + done.
    + done.
    + intros c'. unfold list_head, node_of. cbn. rewrite (proj2 (Nat.eqb_neq sc _)) by lia.
      destruct (Nat.eqb_spec c' sc) as [->|]; [rewrite (proj2 (Nat.eqb_neq sc _)), fn_lookup_insert by lia; done|].
      by rewrite fn_lookup_insert_ne.
  - destruct Hit as (-> & -> & ->). rewrite Nat.eqb_refl in Hf. unfold looks_chunk in Hf. rewrite Hf.
    replace (b + LARGE_HDR - LARGE_HDR) with b by lia. cbn [hmem]. destruct (iv_large _ _ _ _ _ _ Hinv _ _ Hb) as [-> _].
    rewrite Z.eqb_refl. unfold get_tl, store, set_large, get_tl, set_tl, mbind, am_bind. cbn [hmem tl g_next_slab_idx].
    edestruct Hdone as (g' & c0 & cap0 & Hd); cycle 4.
    + eexists _, g', c0, cap0. split; [reflexivity|]. cbn [hmem tl g_next_slab_idx].
      unfold link_of, list_head in Hd. rewrite Nat.eqb_refl in Hd. replace (b + LARGE_HDR - 8) with (b + 8) in Hd by (unfold LARGE_HDR; lia). exact Hd.
    + done.
    + done.
    + done.
    + intros c'. unfold list_head, node_of. rewrite Nat.eqb_refl. cbn [tl_large_free_list tl_free_lists].
      replace (b + LARGE_HDR - LARGE_HDR) with b by lia. by destruct (Nat.eqb c' MAX_CLASSES).
Qed.

(** A chunk at a multiple of 64 KB is found from every block in it. *)
Lemma aligned_header m next T g p b c k :
  inv r al m next T g → items g !! b = Some (IChunk c k) → b mod CHUNK_SIZE = 0 → b ≤ p < b + CHUNK_SIZE →
  header_found m p c.
Proof.
  intros Hinv Hb Hal Hp. destruct (chunk_facts r al Hr _ _ _ _ Hinv _ _ _ Hb) as (?&?&?&?&?&?&?&?&?).
  unfold header_found. rewrite (proj2 (Nat.eqb_neq _ _)) by lia.
  destruct (iv_in _ _ _ _ _ _ Hinv _ _ Hb) as (_ & Hb1 & Hb2 & _). pose proof (iv_next _ _ _ _ _ _ Hinv) as [_ Hn].
  pose proof (ro_end r Hr). destruct (rs_mod16 r Hr). cbn in Hb2.
  assert (chunk_start p = b) as ->.
  { unfold chunk_start. change CHUNK_MASK with (2 ^ 16 - 1). rewrite land_not64 by lia. change (2 ^ 16) with CHUNK_SIZE.
    replace (p mod CHUNK_SIZE) with (p - b); [lia|]. unfold CHUNK_SIZE in *.
    apply Z.div_exact in Hal; [|lia]. apply (Z.mod_unique _ _ (b / 65536)); lia. }
  destruct (iv_chunk _ _ _ _ _ _ Hinv _ _ _ Hb) as (Hm1 & Hm2 & _). split; [|done].
  unfold looks_chunk. rewrite Hm1, Hm2, Nat2Z.id, Z.eqb_refl.
  rewrite (proj2 (Z.ltb_lt _ _)), (proj2 (Z.ltb_lt 0 _)) by lia. done.
Qed.

Lemma aligned_found m next T g p n :
  inv r al m next T g → al = true → live g !! p = Some n → header_found m p (class_of r n).
Proof.
  intros Hinv Ha Hl. destruct (iv_live _ _ _ _ _ _ Hinv _ _ Hl) as (c & cap & Hblk & _ & <-).
  destruct (block_in r al Hr _ _ _ _ Hinv _ _ _ Hblk) as (b & it & Hb & Hlo & Hhi & Hcap & _ & _ & Hit).
  destruct (proj1 (iv_align _ _ _ _ _ _ Hinv Ha) _ _ Hb) as [Hal (sc & k & ->)]. destruct Hit as (-> & _).
  cbn in Hhi. eapply aligned_header; [done|done|done|lia].
Qed.

(** ** calloc and realloc *)

(** A block just produced becomes live after its bytes have been set. *)
Lemma produced_write t m T g sz p h' (bytes : list Z) :
  0 ≤ sz → Z.of_nat (length bytes) ≤ sz → Forall is_byte bytes → produced t m T g sz (class_of r sz) p h' →
  let m' := store_bytes (hmem h') p bytes in
  ∃ g', inv r al m' (g_next_slab_idx h') (<[t := tl h']> T) g' ∧ live g' = <[p := sz]> (live g) ∧ live g !! p = None ∧
    keeps r g m m' ∧ ∀ q c cap, block_at r (items g) q c cap → block_at r (items g') q c cap.
Proof.
  intros Hsz Hlen Hbytes (g' & cap & Hinv & [El Hb] & Hk & Hblk & Hcap & Hun & Hnl) m'.
  destruct (inv_owned_write (hmem h') m' _ _ g' p (class_of r sz) cap Hinv Hblk Hun) as [Hinv' Hk'].
  - by rewrite El.
  - apply store_bytes_ok; [apply (iv_mem _ _ _ _ _ _ Hinv)|done].
  - intros x Hx. apply store_bytes_lookup. lia.
  - exists (Ghost (items g') (lists g') (<[p := sz]> (live g'))). split_and!.
    + by eapply inv_set_live.
    + cbn. by rewrite El.
    + done.
    + eapply keeps_trans; [split; [exact El|exact Hb]|done|done].
    + done.
Qed.

Lemma produced_live t m T g sz p h' :
  0 ≤ sz → produced t m T g sz (class_of r sz) p h' →
  ∃ g', inv r al (hmem h') (g_next_slab_idx h') (<[t := tl h']> T) g' ∧ live g' = <[p := sz]> (live g) ∧ live g !! p = None ∧
    keeps r g m (hmem h') ∧ ∀ q c cap, block_at r (items g) q c cap → block_at r (items g') q c cap.
Proof. intros Hsz Hp. by apply (produced_write t m T g sz p h' []). Qed.

Lemma calloc_spec m next T g t nmemb sz :
  inv r al m next T g → 0 ≤ nmemb * sz ≤ 2 ^ 63 → (al = true → nmemb * sz ≤ 4096) →
  match tm_region_calloc r nmemb sz (Heap m next (T t)) with
  | None => g_tm_region_end r < rs + (next + slabs_for (malloc_round (nmemb * sz))) * g_slab_size r
  | Some (p, h') => ∃ g', inv r al (hmem h') (g_next_slab_idx h') (<[t := tl h']> T) g' ∧
      live g' = <[p := nmemb * sz]> (live g) ∧ live g !! p = None ∧ keeps r g m (hmem h') ∧
      ∀ x, p ≤ x < p + nmemb * sz → mget (hmem h') x = 0
  end.
Proof.
  intros Hinv Hsz Hal. unfold tm_region_calloc. assert (wrap64 (nmemb * sz) = nmemb * sz) as -> by (apply Z.mod_small; lia).
  pose proof (malloc_spec m next T g t (nmemb * sz) Hinv Hsz Hal) as Hm. unfold mbind, am_bind.
  destruct (tm_region_malloc r (nmemb * sz) (Heap m next (T t))) as [[p h']|]; [|done]. cbn.
  destruct (produced_write t m T g (nmemb * sz) p h' (replicate (Z.to_nat (nmemb * sz)) 0)) as (g' & ? & ? & ? & ? & _);
    [lia|rewrite length_replicate; lia|apply Forall_replicate; unfold is_byte; lia|done|].
  exists g'. split_and!; try done. intros x Hx. unfold mget, store_bytes. rewrite wr_at_addr, length_replicate.
  zprune. rewrite lookup_replicate_2 by lia. done.
Qed.

Lemma old_size_run m next T g p n new_sz h :
  inv r al m next T g → live g !! p = Some n → (class_of r n < MAX_CLASSES)%nat → header_found m p (class_of r n) →
  hmem h = m → realloc_old_size r p new_sz h = Some (bs (class_of r n), h).
Proof.
  intros Hinv Hl Hc Hf <-. destruct (iv_live _ _ _ _ _ _ Hinv _ _ Hl) as (c & cap & Hblk & _ & ->).
  unfold header_found in Hf. rewrite (proj2 (Nat.eqb_neq _ _)) in Hf by lia. destruct Hf as [Hlc Hsc].
  unfold looks_chunk in Hlc. apply andb_true_iff in Hlc as [[Hmg Hlt]%andb_true_iff Hpos].
  unfold realloc_old_size, load, mbind, am_bind. rewrite Hmg, Hsc, Nat2Z.id.
  assert ((class_of r n < MAX_CLASSES - 1)%nat).
  { destruct (decide (class_of r n = MAX_CLASSES - 1)%nat) as [E|]; [|lia].
    rewrite Hsc, Nat2Z.id, E in Hpos. unfold g_sc_block_size, sc_get in Hpos. rewrite (ro_sc r Hr) in Hpos. done. }
  rewrite (proj2 (Z.ltb_lt _ _)) by (unfold MAX_CLASSES in *; lia). done.
Qed.

Lemma realloc_spec m next T g t p n sz :
  inv r al m next T g → al = true → live g !! p = Some n → 0 < sz ≤ 4096 →
  match tm_region_realloc r p sz (Heap m next (T t)) with
  | None => g_tm_region_end r < rs + (next + slabs_for (malloc_round sz)) * g_slab_size r
  | Some (q, h') => ∃ g', inv r al (hmem h') (g_next_slab_idx h') (<[t := tl h']> T) g' ∧
      live g' = delete p (<[q := sz]> (live g)) ∧ live g !! q = None ∧
      (∀ x, 0 ≤ x < n → x < sz → mget (hmem h') (q + x) = mget m (p + x)) ∧
      ∀ p' n' x, p' ≠ p → live g !! p' = Some n' → p' ≤ x < p' + n' → hmem h' !! x = m !! x
  end.
Proof.
  intros Hinv Ha Hl Hsz. destruct (iv_live _ _ _ _ _ _ Hinv _ _ Hl) as (c & cap & Hblk & Hn & Ec).
  pose proof (aligned_found m next T g p n Hinv Ha Hl) as Hf.
  destruct (block_nonzero r al Hr _ _ _ _ _ _ _ Hinv Hblk) as (_ & Hp0 & _). destruct (rs_mod16 r Hr).
  destruct (block_in r al Hr _ _ _ _ Hinv _ _ _ Hblk) as (b & it & Hb & _ & _ & _ & _ & _ & Hit).
  destruct (proj1 (iv_align _ _ _ _ _ _ Hinv Ha) _ _ Hb) as [_ (sc & k & ->)]. destruct Hit as (-> & -> & _).
  destruct (chunk_facts r al Hr _ _ _ _ Hinv _ _ _ Hb) as (?&?&?&?&?&?&?&?&?).
  unfold tm_region_realloc. rewrite (proj2 (Z.eqb_neq p 0)), (proj2 (Z.eqb_neq sz 0)) by lia. unfold mbind at 1, am_bind at 1.
  rewrite (old_size_run m next T g p n) by (done || congruence). rewrite <- Ec.
  pose proof (malloc_spec m next T g t sz Hinv ltac:(lia) ltac:(lia)) as Hm. unfold mbind at 1, am_bind at 1.
  destruct (tm_region_malloc r sz (Heap m next (T t))) as [[q h1]|]; [|done].
  set (cnt := Z.to_nat (if bs sc <? sz then bs sc else sz)).
  assert (Z.of_nat cnt ≤ sz ∧ Z.of_nat cnt ≤ bs sc) as [Hc1 Hc2] by (unfold cnt; zcmp; lia).
  destruct (produced_write t m T g sz q h1 (load_bytes (hmem h1) p cnt)) as (g1 & Hinv1 & Hlv & Hq & Hk & Hmono);
    [lia|rewrite length_load_bytes; lia| |done|].
  { apply load_bytes_ok. destruct Hm as (? & ? & Hi & _). apply (iv_mem _ _ _ _ _ _ Hi). }
  destruct Hm as (g0 & cap0 & Hinv0 & _ & Hk0 & Hblk0 & _).
  destruct (block_nonzero r al Hr _ _ _ _ _ _ _ Hinv0 Hblk0) as (_ & Hq0 & _).
  rewrite (proj2 (Z.eqb_neq q 0)) by lia. cbn [negb]. unfold memcpy, mbind, am_bind. cbn [hmem g_next_slab_idx tl].
  set (m1 := store_bytes (hmem h1) q (load_bytes (hmem h1) p cnt)) in *.
  assert (p ≠ q) as Hpq by congruence. assert (live g1 !! p = Some n) as Hl1 by (rewrite Hlv, lookup_insert_ne by done; done).
  pose proof (free_spec m1 _ _ g1 t p n Hinv1 Hl1 (aligned_found _ _ _ _ _ _ Hinv1 Ha Hl1)) as
    (h' & g' & c2 & cap2 & Hrun & Hinv' & Hit' & Hlv' & _ & _ & Hk').
  rewrite fn_lookup_insert in Hrun. rewrite Hrun. unfold mret, am_ret.
  assert (∀ p' n' x, p' ≠ p → live g !! p' = Some n' → p' ≤ x < p' + n' → hmem h' !! x = m1 !! x ∧ m1 !! x = m !! x) as Hsame.
  { intros p' n' x Hne Hp' Hx. destruct (iv_live _ _ _ _ _ _ Hinv _ _ Hp') as (c3 & cap3 & Hb3 & ? & _). split.
    - eapply (Hk' p' n' c3 cap3); [rewrite Hlv', lookup_delete_ne, Hlv, lookup_insert_ne by congruence; done| |lia].
      rewrite Hit'. by apply Hmono.
    - eapply (Hk p' n' c3 cap3); [done|done|lia]. }
  exists g'. split_and!.
  - eapply inv_tls_ext; [exact Hinv'|]. intros t'. by rewrite insert_twice.
  - by rewrite Hlv', Hlv.
  - done.
  - intros x Hx Hxs. unfold mget.
    assert (live g1 !! q = Some sz) as Hq1 by (rewrite Hlv; apply lookup_insert_eq).
    destruct (iv_live _ _ _ _ _ _ Hinv1 _ _ Hq1) as (c3 & cap3 & Hb3 & ? & _).
    rewrite (Hk' q sz c3 cap3 (q + x)); [|rewrite Hlv', lookup_delete_ne by done; done|by rewrite Hit'|lia].
    assert (Z.to_nat x < cnt)%nat by (unfold cnt; zcmp; lia).
    unfold m1, store_bytes. rewrite wr_at_addr, length_load_bytes. zprune. rewrite load_bytes_prefix by lia.
    replace (p + Z.of_nat (Z.to_nat (q + x - q))) with (p + x) by lia. cbn. unfold mget.
    rewrite (Hk0 p n sc (bs sc) (p + x)); [done|done|done|lia].
  - intros p' n' x Hne Hp' Hx. destruct (Hsame p' n' x Hne Hp' Hx). congruence.
Qed.
End Spec.
