(* ===== verification/RegionSys.v ===== *)
(** * Region allocator: threads, programs and the guarantees

    Threads allocate and free, and the program stores bytes into live blocks, in any
    order.  An allocator call is one step: it works on variables of its thread and on
    memory no other thread's call touches (its slab, its hot chunks, which are private by
    the invariant, and blocks it owns), apart from the atomic increment of the slab
    counter. *)

From stdpp Require Import functions.
From S2P Require Import Prelude Memory Region RegionInv RegionOps RegionSpec.
#[local] Open Scope Z_scope.
#[local] Open Scope word_scope.

(** [slive]: the blocks the program holds, with the sizes it asked for. *)
Record sys := Sys { smem : mem; snext : Z; stls : nat → tls; slive : gmap Z Z }.

Section System.
Context (r : region) (small : bool) (m0 : mem).
Implicit Types (s : sys) (t : nat).

Definition sheap s t : heap := Heap (smem s) (snext s) (stls s t).
Definition after s t (h : heap) (V : gmap Z Z) : sys := Sys (hmem h) (g_next_slab_idx h) (<[t := tl h]> (stls s)) V.

(** The condition on a free: see [header_found]; programs with small requests only meet it. *)
Definition free_ok s (p n : Z) : Prop := small = false → header_found r (smem s) p (class_of r n).
Definition request_ok (sz : Z) : Prop := 0 ≤ sz ≤ 2 ^ 63 ∧ (small = true → sz ≤ 4096).

Inductive astep s : sys → Prop :=
  | a_malloc t sz p h' :
      request_ok sz → tm_region_malloc r sz (sheap s t) = Some (p, h') →
      astep s (after s t h' (<[p := sz]> (slive s)))
  | a_calloc t nmemb sz p h' :
      request_ok (nmemb * sz) → tm_region_calloc r nmemb sz (sheap s t) = Some (p, h') →
      astep s (after s t h' (<[p := nmemb * sz]> (slive s)))
  | a_free t p n h' :
      slive s !! p = Some n → free_ok s p n → tm_region_free r p (sheap s t) = Some ((), h') →
      astep s (after s t h' (delete p (slive s)))
  | a_realloc t p n sz q h' :
      small = true → slive s !! p = Some n → 0 < sz ≤ 4096 → tm_region_realloc r p sz (sheap s t) = Some (q, h') →
      astep s (after s t h' (delete p (<[q := sz]> (slive s))))
  | a_store p n a v :
      slive s !! p = Some n → p ≤ a < p + n → is_byte v →
      astep s (Sys (<[a := v]> (smem s)) (snext s) (stls s) (slive s)).

Definition sys_init : sys := Sys m0 0 (λ _, tls_init) ∅.
Definition areach s : Prop := rtc astep sys_init s.

Definition sys_inv s : Prop := ∃ g, inv r small (smem s) (snext s) (stls s) g ∧ live g = slive s.

Context (Hr : region_ok r) (Hm0 : mem_ok m0).

Lemma sys_init_inv : sys_inv sys_init.
Proof.
  exists (Ghost ∅ (λ _ _, []) ∅). split; [|done]. pose proof (ro_end r Hr). pose proof (ro_start r Hr).
  split; cbn; try done.
  - lia.
  - intros t. split_and!; try lia. done.
  - intros. unfold apart_iv. lia.
  - intros. by left.
  - intros t c _. unfold list_head. by destruct (c =? MAX_CLASSES)%nat.
  - intros t c p Hp. by apply not_elem_of_nil in Hp.
  - intros. constructor.
  - intros t c t' c' p Hp. by apply not_elem_of_nil in Hp.
Qed.

Lemma store_inv s p n a v :
  sys_inv s → slive s !! p = Some n → p ≤ a < p + n → is_byte v →
  sys_inv (Sys (<[a := v]> (smem s)) (snext s) (stls s) (slive s)).
Proof.
  intros (g & Hinv & Hl) Hp Ha Hv. exists g. split; [|done]. cbn. rewrite <- Hl in Hp.
  destruct (iv_live _ _ _ _ _ _ Hinv _ _ Hp) as (c & cap & Hblk & Hn & _).
  apply (inv_frame r small Hr (smem s)); [done| |].
  - apply (wr_mem_ok _ [(a, v)]); [apply (iv_mem _ _ _ _ _ _ Hinv)|]. constructor; [done|constructor].
  - intros x Hx. destruct (decide (a = x)) as [<-|]; [|by rewrite lookup_insert_ne]. exfalso.
    apply (owned_not_meta r small Hr _ _ _ _ Hinv p c cap a Hblk); [|lia|done].
    intros t' c' Hq. destruct (iv_free _ _ _ _ _ _ Hinv _ _ _ Hq). congruence.
Qed.

Lemma free_ok_found s g p n :
  inv r small (smem s) (snext s) (stls s) g → live g !! p = Some n → free_ok s p n → header_found r (smem s) p (class_of r n).
Proof.
  intros Hinv Hl Hok. unfold free_ok in Hok. destruct small eqn:E; [|by apply Hok]. by eapply aligned_found.
Qed.

Lemma astep_inv s s' : sys_inv s → astep s s' → sys_inv s'.
Proof.
  intros Hs Hst. pose proof Hs as (g & Hinv & Hl). destruct Hst as [t sz p h' [Hsz Hal] Hrun|t k sz p h' [Hsz Hal] Hrun|t p n h' Hp Hf Hrun|t p n sz q h' Hsm Hp Hsz Hrun|p n a v Hp Ha Hv].
  - pose proof (malloc_spec r small Hr _ _ _ g t sz Hinv Hsz Hal) as Hm. unfold sheap in Hrun. rewrite Hrun in Hm.
    destruct (produced_live r small Hr t _ _ g sz p h' ltac:(lia) Hm) as (g' & Hinv' & Hlv & _). exists g'. split; [done|]. cbn. congruence.
  - pose proof (calloc_spec r small Hr _ _ _ g t k sz Hinv Hsz Hal) as Hm. unfold sheap in Hrun. rewrite Hrun in Hm.
    destruct Hm as (g' & Hinv' & Hlv & _). exists g'. split; [done|]. cbn. congruence.
  - rewrite <- Hl in Hp. destruct (free_spec r small Hr _ _ _ g t p n Hinv Hp (free_ok_found _ _ _ _ Hinv Hp Hf))
      as (h2 & g' & c & cap & Hrun' & Hinv' & _ & Hlv & _). unfold sheap in Hrun. rewrite Hrun in Hrun'. injection Hrun' as <-.
    exists g'. split; [done|]. cbn. congruence.
  - rewrite <- Hl in Hp. pose proof (realloc_spec r small Hr _ _ _ g t p n sz Hinv Hsm Hp Hsz) as Hm. unfold sheap in Hrun. rewrite Hrun in Hm.
    destruct Hm as (g' & Hinv' & Hlv & _). exists g'. split; [done|]. cbn. congruence.
  - by eapply store_inv.
Qed.

Lemma areach_inv s : areach s → sys_inv s.
Proof.
  unfold areach. intros Hs. remember sys_init as s0 eqn:E. assert (sys_inv s0) as H0 by (rewrite E; apply sys_init_inv). clear E.
  induction Hs as [|s1 s2 s3 H12 _ IH]; [done|]. apply IH. by eapply astep_inv.
Qed.

(** Where a live block lies. *)
Lemma live_place s p n :
  sys_inv s → slive s !! p = Some n →
  p mod 16 = 0 ∧ 0 ≤ n ∧ g_tm_region_start r ≤ p ∧ p + n ≤ g_tm_region_end r.
Proof.
  intros (g & Hinv & <-) Hp. destruct (iv_live _ _ _ _ _ _ Hinv _ _ Hp) as (c & cap & Hblk & Hn & _).
  destruct (block_in r small Hr _ _ _ _ Hinv _ _ _ Hblk) as (b & it & Hb & Hlo & Hhi & _ & _ & Hp16 & _).
  destruct (iv_in _ _ _ _ _ _ Hinv _ _ Hb) as (_ & Hb1 & Hb2 & _). pose proof (iv_next _ _ _ _ _ _ Hinv) as [_ Hnx].
  split_and!; [done|lia..].
Qed.

Lemma live_sep s p n p' n' :
  sys_inv s → slive s !! p = Some n → slive s !! p' = Some n' → p ≠ p' → p + n ≤ p' ∨ p' + n' ≤ p.
Proof.
  intros (g & Hinv & <-) Hp Hp' Hne. destruct (iv_live _ _ _ _ _ _ Hinv _ _ Hp) as (c & cap & Hblk & Hn & _).
  destruct (iv_live _ _ _ _ _ _ Hinv _ _ Hp') as (c' & cap' & Hblk' & Hn' & _).
  destruct (block_sep r small Hr _ _ _ _ Hinv _ _ _ _ _ _ Hblk Hblk' Hne); lia.
Qed.

Lemma keeps_live s g m' p n x :
  inv r small (smem s) (snext s) (stls s) g → live g = slive s → keeps r g (smem s) m' →
  slive s !! p = Some n → p ≤ x < p + n → m' !! x = smem s !! x.
Proof.
  intros Hinv <- Hk Hp Hx. destruct (iv_live _ _ _ _ _ _ Hinv _ _ Hp) as (c & cap & Hblk & Hn & _).
  eapply Hk; [done|done|lia].
Qed.

(** The head of a list is what the next request of its class gets. *)
Lemma malloc_head m next T g t sz p ps :
  inv r small m next T g → 0 ≤ sz ≤ 4096 → lists g t (class_of r sz) = p :: ps →
  ∃ h', tm_region_malloc r sz (Heap m next (T t)) = Some (p, h') ∧ hmem h' = m ∧ g_next_slab_idx h' = next.
Proof.
  intros Hinv Hsz Hl. unfold tm_region_malloc. destruct (malloc_round_spec sz ltac:(lia)) as (H1 & H2 & H3 & H4 & H5).
  change (size_class_for r (malloc_round sz)) with (class_of r sz). destruct (size_class_spec r Hr (malloc_round sz) H2 H4) as [[_ ?]|(Hle & Hsc & Hfit & H16)]; [lia|].
  fold (class_of r sz) in Hsc, Hfit, H16. rewrite (proj2 (Nat.leb_gt _ _) Hsc), (proj2 (Z.eqb_neq _ 0)) by lia. cbn [orb].
  pose proof (iv_chain _ _ _ _ _ _ Hinv t (class_of r sz) ltac:(lia)) as Hch. rewrite Hl in Hch. destruct Hch as [Hhd _].
  unfold list_head, node_of in Hhd. rewrite (proj2 (Nat.eqb_neq _ _)) in Hhd by lia.
  assert (p ∈ lists g t (class_of r sz)) as Hin by (rewrite Hl; left).
  destruct (iv_free _ _ _ _ _ _ Hinv _ _ _ Hin) as [(cap & Hblk) _].
  destruct (block_nonzero r small Hr _ _ _ _ _ _ _ Hinv Hblk) as (_ & Hp0 & _). destruct (rs_mod16 r Hr).
  unfold malloc_small, tl_fl_pop, get_tl, mbind, am_bind. cbn [tl]. rewrite Hhd, (proj2 (Z.eqb_neq p 0)) by lia.
  unfold load, set_free_list, get_tl, set_tl, mbind, am_bind, mret, am_ret. cbn [hmem tl g_next_slab_idx].
  rewrite (proj2 (Z.eqb_neq p 0)) by lia. eexists. split; [reflexivity|]. done.
Qed.
End System.

(** ** Properties *)

(** C31: live blocks of the region allocator never overlap.  Whatever the threads allocate,
    free, reallocate and store, in any order, in a region set up by [tm_region_init]: every
    block the program holds is 16-byte aligned, lies in the region, and is disjoint from
    every other block it holds, as long as frees meet [free_ok] (the header found below the
    block names its class), which programs with requests up to 4096 bytes always do;
    reallocation is for such programs. *)
Theorem region_blocks_disjoint k addr syms r small m0 s :
  12 ≤ k ≤ 32 → 0 < addr → addr + TM_REGION_SIZE ≤ 2 ^ 47 →
  tm_region_init (2 ^ k) (Some addr) syms no_region = (0, r) → mem_ok m0 → areach r small m0 s →
  ∀ p n, slive s !! p = Some n →
    p mod 16 = 0 ∧ g_tm_region_start r ≤ p ∧ p + n ≤ g_tm_region_end r ∧
    ∀ p' n', slive s !! p' = Some n' → p' ≠ p → p + n ≤ p' ∨ p' + n' ≤ p.
Proof.
  intros Hk Ha Hb Hi Hm Hs p n Hp. pose proof (region_init_ok k addr syms r Hk Ha Hb Hi) as Hr.
  pose proof (areach_inv r small m0 Hr Hm s Hs) as Hinv.
  destruct (live_place r small Hr s p n Hinv Hp) as (? & ? & ? & ?). split_and!; try done.
  intros p' n' Hp' Hne. apply (live_sep r small Hr s p n p' n'); congruence.
Qed.

(** C32: what [tm_region_malloc] returns.  In every state reached by frees that meet
    [free_ok], or with requests up to 4096 bytes only, a request of up to 2^63 bytes (4096
    in the second case) either yields a block that is disjoint from every live block, with the bytes of
    all live blocks unchanged, or the process aborts because fewer slabs are left than the
    request needs. *)
Theorem region_malloc_correct r small m0 s t sz :
  region_ok r → mem_ok m0 → areach r small m0 s → request_ok small sz →
  match tm_region_malloc r sz (sheap s t) with
  | Some (p, h') =>
      p mod 16 = 0 ∧ g_tm_region_start r ≤ p ∧ p + sz ≤ g_tm_region_end r ∧
      (∀ p' n', slive s !! p' = Some n' → p + sz ≤ p' ∨ p' + n' ≤ p) ∧
      ∀ p' n' x, slive s !! p' = Some n' → p' ≤ x < p' + n' → hmem h' !! x = smem s !! x
  | None => g_tm_region_end r < g_tm_region_start r + (snext s + slabs_for r (malloc_round sz)) * g_slab_size r
  end.
Proof.
  intros Hr Hm Hs [Hsz Hal]. pose proof (areach_inv r small m0 Hr Hm s Hs) as (g & Hinv & Hl).
  pose proof (malloc_spec r small Hr _ _ _ g t sz Hinv Hsz Hal) as Hmal. unfold sheap.
  destruct (tm_region_malloc r sz (Heap (smem s) (snext s) (stls s t))) as [[p h']|]; [|done].
  destruct (produced_live r small Hr t _ _ g sz p h' ltac:(lia) Hmal) as (g' & Hinv' & Hlv & Hnl & Hk & _).
  set (s' := Sys (hmem h') (g_next_slab_idx h') (<[t := tl h']> (stls s)) (live g')).
  assert (sys_inv r small s') as Hs' by (exists g'; done).
  assert (slive s' !! p = Some sz) as Hp by (cbn; rewrite Hlv; apply lookup_insert_eq).
  destruct (live_place r small Hr s' p sz Hs' Hp) as (? & ? & ? & ?). split_and!; try done.
  - intros p' n' Hp'. rewrite <- Hl in Hp'. apply (live_sep r small Hr s' p sz p' n' Hs' Hp); [|congruence].
    cbn. rewrite Hlv, lookup_insert_ne by congruence. done.
  - intros p' n' x Hp' Hx. by eapply keeps_live.
Qed.

(** C33: a freed block is reused and nothing else changes.  In every such state a free
    of a live block (that meets [free_ok]) returns, leaves the bytes of the other live
    blocks alone, and the same thread's next small request of the block's class gets that
    very block (requests up to 4096 bytes), without touching memory or the slab counter. *)
Theorem region_free_recycles r small m0 s t p n :
  region_ok r → mem_ok m0 → areach r small m0 s → slive s !! p = Some n → free_ok r small s p n →
  ∃ h, tm_region_free r p (sheap s t) = Some ((), h) ∧
    (∀ p' n' x, p' ≠ p → slive s !! p' = Some n' → p' ≤ x < p' + n' → hmem h !! x = smem s !! x) ∧
    ∀ sz, 0 ≤ sz ≤ 4096 → class_of r sz = class_of r n →
      ∃ h', tm_region_malloc r sz h = Some (p, h') ∧ hmem h' = hmem h ∧ g_next_slab_idx h' = g_next_slab_idx h.
Proof.
  intros Hr Hm Hs Hp Hf. pose proof (areach_inv r small m0 Hr Hm s Hs) as (g & Hinv & Hl). rewrite <- Hl in Hp.
  destruct (free_spec r small Hr _ _ _ g t p n Hinv Hp (free_ok_found r small Hr _ _ _ _ Hinv Hp Hf))
    as (h & g' & c & cap & Hrun & Hinv' & Hit & Hlv & Hblk & Hls & Hk).
  exists h. split; [done|]. split.
  - intros p' n' x Hne Hp' Hx. rewrite <- Hl in Hp'. destruct (iv_live _ _ _ _ _ _ Hinv _ _ Hp') as (c' & cap' & Hblk' & Hn' & _).
    eapply Hk; [rewrite Hlv, lookup_delete_ne by done; done|by rewrite Hit|lia].
  - intros sz Hsz Hc. destruct (iv_live _ _ _ _ _ _ Hinv _ _ Hp) as (c' & cap' & Hblk' & _ & Ec).
    destruct (block_unique r small Hr _ _ _ _ Hinv _ _ _ _ _ Hblk Hblk') as [-> _].
    rewrite Ec, <- Hc in Hls. pose proof (malloc_head r small Hr (hmem h) (g_next_slab_idx h) (<[t := tl h]> (stls s)) g' t sz p _ Hinv' Hsz Hls) as Hh.
    rewrite fn_lookup_insert in Hh. by destruct h.
Qed.

(** C34: [tm_region_realloc] keeps the contents.  In programs whose requests are all up to
    4096 bytes, in every reachable state, reallocating a live block of [n] bytes to [sz],
    1 to 4096, yields a block whose
    first min(n, sz) bytes are those of the old one, disjoint from every other live block,
    whose bytes are unchanged, or aborts because no slab is left. *)
Theorem region_realloc_preserves r m0 s t p n sz :
  region_ok r → mem_ok m0 → areach r true m0 s → slive s !! p = Some n → 0 < sz ≤ 4096 →
  match tm_region_realloc r p sz (sheap s t) with
  | Some (q, h') =>
      (∀ x, 0 ≤ x < n → x < sz → mget (hmem h') (q + x) = mget (smem s) (p + x)) ∧
      (∀ p' n', p' ≠ p → slive s !! p' = Some n' → q + sz ≤ p' ∨ p' + n' ≤ q) ∧
      ∀ p' n' x, p' ≠ p → slive s !! p' = Some n' → p' ≤ x < p' + n' → hmem h' !! x = smem s !! x
  | None => g_tm_region_end r < g_tm_region_start r + (snext s + slabs_for r (malloc_round sz)) * g_slab_size r
  end.
Proof.
  intros Hr Hm Hs Hp Hsz. pose proof (areach_inv r true m0 Hr Hm s Hs) as (g & Hinv & Hl). rewrite <- Hl in Hp.
  pose proof (realloc_spec r true Hr _ _ _ g t p n sz Hinv eq_refl Hp Hsz) as Hre. unfold sheap.
  destruct (tm_region_realloc r p sz (Heap (smem s) (snext s) (stls s t))) as [[q h']|]; [|done].
  destruct Hre as (g' & Hinv' & Hlv & Hq & Hcopy & Hrest). split_and!; [done| |].
  - intros p' n' Hne Hp'. rewrite <- Hl in Hp'. set (s' := Sys (hmem h') (g_next_slab_idx h') (<[t := tl h']> (stls s)) (live g')).
    apply (live_sep r true Hr s' q sz p' n'); [by exists g'| | |congruence]; cbn; rewrite Hlv.
    + rewrite lookup_delete_ne by congruence. apply lookup_insert_eq.
    + rewrite lookup_delete_ne, lookup_insert_ne by congruence. done.
  - intros p' n' x Hne Hp' Hx. rewrite <- Hl in Hp'. by eapply Hrest.
Qed.

(** ** Concrete programs *)

Definition demo_region : region := (tm_region_init 4096 (Some 0x100000000) [] no_region).2.

Fixpoint run_mallocs (r : region) (s : sys) (l : list (nat * Z)) : option sys :=
  match l with
  | [] => Some s
  | (t, sz) :: l' =>
      match tm_region_malloc r sz (sheap s t) with
      | Some (p, h') => run_mallocs r (after s t h' (<[p := sz]> (slive s))) l'
      | None => None
      end
  end.

Lemma run_mallocs_steps r small s l s' :
  Forall (λ x : nat * Z, request_ok small x.2) l → run_mallocs r s l = Some s' → rtc (astep r small) s s'.
Proof.
  intros Hf. revert s. induction Hf as [|[t sz] l Hsz _ IH]; intros s; simpl.
  - intros [= <-]. constructor.
  - destruct (tm_region_malloc r sz (sheap s t)) as [[p h']|] eqn:E; [|done]. intros Hrun.
    eapply rtc_l; [by eapply a_malloc|]. by apply IH.
Qed.

Lemma demo_region_ok : region_ok demo_region.
Proof. apply (region_init_ok 12 0x100000000 []); [lia|lia|unfold TM_REGION_SIZE; lia|reflexivity]. Qed.

(** Two threads: small and large requests. *)
Definition demo_mixed : sys := default (sys_init ∅) (run_mallocs demo_region (sys_init ∅) [(0%nat, 24); (1%nat, 5000); (0%nat, 100)]).
(** One thread, small requests. *)
Definition demo_small : sys := default (sys_init ∅) (run_mallocs demo_region (sys_init ∅) [(0%nat, 24); (0%nat, 100)]).

Lemma demo_mixed_reach : areach demo_region false ∅ demo_mixed.
Proof.
  unfold areach, demo_mixed. destruct (run_mallocs _ _ _) as [s|] eqn:E; [|constructor].
  eapply run_mallocs_steps; [|exact E]. repeat constructor; cbn; try lia; done.
Qed.

Lemma demo_small_reach : areach demo_region true ∅ demo_small.
Proof.
  unfold areach, demo_small. destruct (run_mallocs _ _ _) as [s|] eqn:E; [|constructor].
  eapply run_mallocs_steps; [|exact E]. repeat constructor; cbn; try lia; done.
Qed.

Definition ran {A} (x : option A) : bool := match x with Some _ => true | None => false end.
Lemma ran_None {A} (x : option A) : x = None → ran x = false.
Proof. by intros ->. Qed.

Lemma region_blocks_disjoint_witness :
  slive demo_mixed !! 0x100001000 = Some 24 ∧ 0x100001000 mod 16 = 0 ∧
  ∀ p' n', slive demo_mixed !! p' = Some n' → p' ≠ 0x100001000 → 0x100001000 + 24 ≤ p' ∨ p' + n' ≤ 0x100001000.
Proof.
  assert (slive demo_mixed !! 0x100001000 = Some 24) as Hp by (vm_compute; reflexivity).
  destruct (region_blocks_disjoint 12 0x100000000 [] demo_region false ∅ demo_mixed ltac:(lia) ltac:(lia)
    ltac:(unfold TM_REGION_SIZE; lia) eq_refl mem_ok_empty demo_mixed_reach _ _ Hp) as (? & _ & _ & ?). auto.
Defined.

Lemma region_malloc_correct_witness :
  match tm_region_malloc demo_region 300 (sheap demo_mixed 2) with
  | Some (p, _) => p mod 16 = 0
  | None => False
  end.
Proof.
  assert (request_ok false 300) as Hq by (split; [lia|done]).
  pose proof (region_malloc_correct demo_region false ∅ demo_mixed 2 300 demo_region_ok mem_ok_empty demo_mixed_reach Hq) as H.
  destruct (tm_region_malloc demo_region 300 (sheap demo_mixed 2)) as [[p h]|] eqn:E; [apply H|].
  apply ran_None in E. vm_compute in E. discriminate E.
Defined.

Lemma region_free_recycles_witness :
  ∃ h h', tm_region_free demo_region 0x100001000 (sheap demo_small 0) = Some ((), h) ∧
          tm_region_malloc demo_region 30 h = Some (0x100001000, h').
Proof.
  assert (slive demo_small !! 0x100001000 = Some 24) as Hp by (vm_compute; reflexivity).
  assert (free_ok demo_region true demo_small 0x100001000 24) as Hok by (intros H; discriminate H).
  destruct (region_free_recycles demo_region true ∅ demo_small 0 0x100001000 24 demo_region_ok mem_ok_empty demo_small_reach
    Hp Hok) as (h & Hf & _ & Hm).
  destruct (Hm 30 ltac:(lia) ltac:(vm_compute; reflexivity)) as (h' & Hm' & _). eauto.
Defined.

Lemma region_realloc_preserves_witness :
  match tm_region_realloc demo_region 0x100001000 200 (sheap demo_small 0) with
  | Some (q, h') => ∀ x, 0 ≤ x < 24 → x < 200 → mget (hmem h') (q + x) = mget (smem demo_small) (0x100001000 + x)
  | None => False
  end.
Proof.
  assert (slive demo_small !! 0x100001000 = Some 24) as Hp by (vm_compute; reflexivity).
  pose proof (region_realloc_preserves demo_region ∅ demo_small 0 0x100001000 24 200 demo_region_ok mem_ok_empty demo_small_reach
    Hp ltac:(lia)) as H.
  destruct (tm_region_realloc demo_region 0x100001000 200 (sheap demo_small 0)) as [[q h]|] eqn:E; [apply H|].
  apply ran_None in E. vm_compute in E. discriminate E.
Defined.

(** ** Limits *)

Definition demo_heap : heap := Heap ∅ 0 tls_init.

(** After a large allocation the next chunk of the slab is not 64 KB aligned: its blocks do
    not find their header, and a freed block is lost instead of recycled. *)
Definition free_after_large : option (Z * Z) :=
  '(_, h) ← tm_region_malloc demo_region 5000 demo_heap;
  '(p, h) ← tm_region_malloc demo_region 16 h;
  '(_, h) ← tm_region_free demo_region p h;
  '(q, _) ← tm_region_malloc demo_region 16 h;
  Some (p, q).

Lemma region_misaligned_chunk_leaks : ∃ p q, free_after_large = Some (p, q) ∧ q = p + 16.
Proof. eexists _, _. vm_compute. split; reflexivity. Qed.

(** On such a chunk a block that holds the right eight bytes of user data makes the free of
    its neighbour put it on the list of large blocks: a later large request overlaps a
    block that is still live. *)
Definition free_after_data : option (Z * Z) :=
  '(_, h) ← tm_region_malloc demo_region 5000 demo_heap;
  '(b0, h) ← tm_region_malloc demo_region 16 h;
  '(b1, h) ← tm_region_malloc demo_region 16 h;
  '(b2, h) ← tm_region_malloc demo_region 16 h;
  '(_, h) ← store 4 b0 LARGE_MAGIC h;
  '(_, h) ← store 4 (b0 + 4) 65536 h;
  '(_, h) ← tm_region_free demo_region b1 h;
  '(c, _) ← tm_region_malloc demo_region 5000 h;
  Some (b2, c).

Lemma region_header_confusion : ∃ b2 c, free_after_data = Some (b2, c) ∧ c ≤ b2 ∧ b2 + 16 ≤ c + 5000.
Proof. eexists _, _. split; [vm_compute; reflexivity|]. lia. Qed.

(** Requests just below 2^64 wrap around when rounded and get a 16-byte block. *)
Lemma region_malloc_wraps r sz :
  region_ok r → 2 ^ 64 - 15 ≤ sz < 2 ^ 64 → tm_region_malloc r sz = malloc_small r 0 ∧ g_sc_block_size r 0 = 16.
Proof.
  intros Hr Hsz. unfold tm_region_malloc. assert (malloc_round sz = 0) as ->.
  { unfold malloc_round. rewrite (proj2 (Z.ltb_ge _ _)) by lia.
    assert (wrap64 (sz + 15) = sz + 15 - 2 ^ 64) as ->.
    { unfold wrap. symmetry. apply (Z.mod_unique _ _ 1); lia. }
    rewrite (land_not64 _ 4) by lia. rewrite Z.mod_small by lia. lia. }
  unfold size_class_for, g_sc_block_size, sc_get. rewrite (ro_sc r Hr).
  assert (∃ l, sc_tables kSizeTable = Row 16 3840 480 4096 :: l) as [l ->] by (eexists; vm_compute; reflexivity).
  split; reflexivity.
Qed.
