(* ===== verification/FlatMap.v ===== *)
(** * Sorted-vector containers of the explicit interface (tm_map.hpp, tm_concurrent_map.hpp)

    [flat_map], [flat_multimap] and [flat_set] keep their elements sorted in one array from
    [tm_malloc].  A slot is raw ([None]) until an element is constructed in it and after
    its element is destroyed; reading or destroying a raw slot, or one past the capacity,
    is a failure ([None]), as is running out of the fuel of a binary search.  The code
    constructs over live elements when it shifts them, and [erase] leaves the last one in
    its slot: both are as in the code, so slots beyond [m_size] need not be raw.
    [ts_map] wraps every operation of a [flat_map] in a mutex, so that the calls of all
    threads are some sequence of the operations below.  The maps refine finite maps and
    sets, operation by operation and over every sequence of operations. *)

From Stdlib Require Import Sorting.Sorted.
From stdpp Require Import sorting.
From S2P Require Import Prelude MultiMap.

Record fvec (E : Type) := FV { fv_data : list (option E); fv_size : nat; fv_cap : Z }.
Arguments FV {E}.
Arguments fv_data {E}.
Arguments fv_size {E}.
Arguments fv_cap {E}.

Section Storage.
Context {E : Type}.
Implicit Types (t : fvec E) (data : list (option E)).

Definition fv_new : fvec E := FV [] 0 0.
Definition fv_get data (i : nat) : option E := mjoin (data !! i).

Definition fv_grow (nc : Z) t : option (fvec E) :=
  nd ← copy_slots (fv_data t) 0 (fv_size t) (replicate (Z.to_nat nc) None);
  Some (FV nd (fv_size t) nc).

(** [if (m_size >= m_cap) grow(m_cap ? m_cap * 2 : 64)]. *)
Definition fv_room t : option (fvec E) :=
  if (fv_cap t <=? Z.of_nat (fv_size t))%Z then fv_grow (if (fv_cap t =? 0)%Z then 64%Z else wrap64 (fv_cap t * 2)) t
  else Some t.

(** [for (j = m_size; j > i; j--) m_data[j] = m_data[j-1]; m_data[i] = x; m_size++]. *)
Definition fv_place (i : nat) (x : E) t : option (fvec E) :=
  d ← shift_up (fv_size t - i) i (fv_data t);
  if i <? length d then Some (FV (<[i := Some x]> d) (fv_size t + 1) (fv_cap t)) else None.

(** [for (j = i; j + 1 < m_size; j++) m_data[j] = m_data[j+1]], [n] iterations. *)
Fixpoint fv_shift_down (i n : nat) data : option (list (option E)) :=
  match n with
  | O => Some data
  | S n' => x ← fv_get data (i + 1); fv_shift_down (i + 1) n' (<[i := Some x]> data)
  end.

(** [m_data[i].~P()]. *)
Definition fv_destroy data (i : nat) : option (list (option E)) :=
  _ ← fv_get data i; Some (<[i := None]> data).

Definition fv_remove (i : nat) t : option (fvec E) :=
  d ← fv_destroy (fv_data t) i;
  d ← fv_shift_down i (fv_size t - 1 - i) d;
  Some (FV d (fv_size t - 1) (fv_cap t)).

(** [while (lo < hi) ...]: the first element that is not [less]. *)
Fixpoint lower_loop (less : E → bool) data (fuel lo hi : nat) : option nat :=
  match fuel with
  | O => None
  | S fuel' =>
      if lo <? hi then
        let mid := (lo + hi) / 2 in
        x ← fv_get data mid;
        if less x then lower_loop less data fuel' (mid + 1) hi else lower_loop less data fuel' lo mid
      else Some lo
  end.

(** [for (i = 0; i < m_size; i++) m_data[i].~P()], [n] iterations from [i]. *)
Fixpoint fv_destroy_all (i n : nat) data : option (list (option E)) :=
  match n with
  | O => Some data
  | S n' => d ← fv_destroy data i; fv_destroy_all (i + 1) n' d
  end.

Definition fv_clear t : option (fvec E) :=
  d ← fv_destroy_all 0 (fv_size t) (fv_data t); Some (FV d 0 (fv_cap t)).
End Storage.

(** ** flat_map *)

Section Map.
Context {K V : Type} (ltb : K → K → bool).
Implicit Types (t : fvec (K * V)).

Definition fm_lower_bound t (k : K) : option nat :=
  lower_loop (λ x : K * V, ltb x.1 k) (fv_data t) (S (fv_size t)) 0 (fv_size t).

(** [i < m_size && !(m_data[i].first < k) && !(k < m_data[i].first)]. *)
Definition fm_hit t (k : K) (i : nat) : option bool :=
  if i <? fv_size t then
    x ← fv_get (fv_data t) i;
    Some (negb (ltb x.1 k) && negb (ltb k x.1))
  else Some false.

(** The slot of the value, if any. *)
Definition fm_find t (k : K) : option (option nat) :=
  i ← fm_lower_bound t k; hit ← fm_hit t k i;
  Some (if hit : bool then Some i else None).

Definition fm_set_val t (i : nat) (v : V) : option (fvec (K * V)) :=
  x ← fv_get (fv_data t) i; Some (FV (<[i := Some (x.1, v)]> (fv_data t)) (fv_size t) (fv_cap t)).

Definition fm_insert t (k : K) (v : V) : option (fvec (K * V)) :=
  i ← fm_lower_bound t k; hit ← fm_hit t k i;
  if hit : bool then fm_set_val t i v
  else t' ← fv_room t; fv_place i (k, v) t'.

Definition fm_erase t (k : K) : option (fvec (K * V)) :=
  i ← fm_lower_bound t k;
  if fv_size t <=? i then Some t
  else
    x ← fv_get (fv_data t) i;
    if ltb x.1 k || ltb k x.1 then Some t else fv_remove i t.

(** The slot of the value, which is created if there is none. *)
Definition fm_index (dflt : V) t (k : K) : option (fvec (K * V) * nat) :=
  i ← fm_lower_bound t k; hit ← fm_hit t k i;
  if hit : bool then Some (t, i)
  else t' ← fv_room t; t'' ← fv_place i (k, dflt) t'; Some (t'', i).

Definition fm_size t : nat := fv_size t.
Definition fm_empty t : bool := fv_size t =? 0.

(** *** ts_map: the same operations under a mutex, [find] returning a copy. *)
Inductive ts_op := TsFind (k : K) | TsInsert (k : K) (v : V) | TsErase (k : K) | TsIndex (k : K) | TsClear | TsSize.
Inductive ts_out := OutVal (v : option V) | OutUnit | OutNat (n : nat).

Definition ts_find t (k : K) : option (option V) :=
  p ← fm_find t k;
  match p with
  | Some i => x ← fv_get (fv_data t) i; Some (Some x.2)
  | None => Some None
  end.

Definition ts_index (dflt : V) t (k : K) : option (fvec (K * V) * V) :=
  '(t', i) ← fm_index dflt t k; x ← fv_get (fv_data t') i; Some (t', x.2).

Definition ts_exec (dflt : V) t (o : ts_op) : option (fvec (K * V) * ts_out) :=
  match o with
  | TsFind k => v ← ts_find t k; Some (t, OutVal v)
  | TsInsert k v => t' ← fm_insert t k v; Some (t', OutUnit)
  | TsErase k => t' ← fm_erase t k; Some (t', OutUnit)
  | TsIndex k => '(t', v) ← ts_index dflt t k; Some (t', OutVal (Some v))
  | TsClear => t' ← fv_clear t; Some (t', OutUnit)
  | TsSize => Some (t, OutNat (fm_size t))
  end.

Fixpoint ts_run (dflt : V) t (ops : list ts_op) : option (fvec (K * V) * list ts_out) :=
  match ops with
  | [] => Some (t, [])
  | o :: ops' => '(t', x) ← ts_exec dflt t o; '(t'', xs) ← ts_run dflt t' ops'; Some (t'', x :: xs)
  end.

(** ** flat_multimap *)

Fixpoint fmm_scan (k : K) (data : list (option (K * V))) (i n : nat) : option nat :=
  match n with
  | O => Some i
  | S n' => x ← fv_get data i; if negb (ltb x.1 k) then Some i else fmm_scan k data (S i) n'
  end.

Definition fmm_insert t (k : K) (v : V) : option (fvec (K * V)) :=
  t' ← fv_room t;
  i ← fmm_scan k (fv_data t') 0 (fv_size t');
  fv_place i (k, v) t'.

Fixpoint fmm_find_loop (k : K) (data : list (option (K * V))) (i n : nat) : option (option nat) :=
  match n with
  | O => Some None
  | S n' =>
      x ← fv_get data i;
      if negb (ltb x.1 k) && negb (ltb k x.1) then Some (Some i) else fmm_find_loop k data (S i) n'
  end.

Definition fmm_find_first t (k : K) : option (option nat) := fmm_find_loop k (fv_data t) 0 (fv_size t).

(** Iterators are positions. *)
Definition fmm_begin t : nat := 0.
Definition fmm_end t : nat := fv_size t.
Definition fmm_lower_bound t (k : K) : option nat :=
  lower_loop (λ x : K * V, ltb x.1 k) (fv_data t) (S (fv_size t)) 0 (fv_size t).
End Map.
Arguments OutUnit {V}.
Arguments OutNat {V}.
Arguments TsFind {K V}.
Arguments TsErase {K V}.
Arguments TsIndex {K V}.
Arguments TsClear {K V}.
Arguments TsSize {K V}.

(** ** flat_set *)

Section FSet.
Context {K : Type} (ltb : K → K → bool).
Implicit Types (t : fvec K).

Definition fs_lower_bound t (k : K) : option nat :=
  lower_loop (λ x, ltb x k) (fv_data t) (S (fv_size t)) 0 (fv_size t).

Definition fs_contains t (k : K) : option bool :=
  i ← fs_lower_bound t k;
  if i <? fv_size t then x ← fv_get (fv_data t) i; Some (negb (ltb x k) && negb (ltb k x)) else Some false.

Definition fs_insert t (k : K) : option (fvec K) :=
  b ← fs_contains t k;
  if b : bool then Some t
  else t' ← fv_room t; i ← fs_lower_bound t' k; fv_place i k t'.

Definition fs_erase t (k : K) : option (fvec K) :=
  i ← fs_lower_bound t k;
  if fv_size t <=? i then Some t
  else x ← fv_get (fv_data t) i; if ltb x k || ltb k x then Some t else fv_remove i t.
End FSet.

(** ** Storage against lists *)

Section Rep.
Context {E : Type}.
Implicit Types (t : fvec E) (l : list E).

Definition frep t l : Prop :=
  length (fv_data t) = Z.to_nat (fv_cap t) ∧ (Z.of_nat (length l) ≤ fv_cap t < 2 ^ 63)%Z ∧
  fv_size t = length l ∧ ∀ i x, l !! i = Some x → fv_data t !! i = Some (Some x).

Lemma frep_new : frep fv_new [].
Proof. split_and!; simpl; try lia; done. Qed.

Lemma frep_get t l i x : frep t l → l !! i = Some x → fv_get (fv_data t) i = Some x.
Proof. intros (_ & _ & _ & H) Hx. unfold fv_get. by rewrite (H _ _ Hx). Qed.

Lemma fv_destroy_all_spec n i (data : list (option E)) :
  (∀ j, i ≤ j < i + n → ∃ x, data !! j = Some (Some x)) → ∃ d, fv_destroy_all i n data = Some d ∧ length d = length data.
Proof.
  revert i data. induction n as [|n IH]; intros i data Hx; cbn [fv_destroy_all]; [by exists data|].
  destruct (Hx i) as [x Hi]; [lia|]. unfold fv_destroy, fv_get. rewrite Hi. cbn [mbind option_bind mjoin option_join].
  destruct (IH (i + 1) (<[i := None]> data)) as (d & -> & Hl); [|exists d; by rewrite Hl, length_insert].
  intros j Hj. rewrite list_lookup_insert_ne by lia. apply Hx. lia.
Qed.

Lemma frep_clear t l : frep t l → ∃ t', fv_clear t = Some t' ∧ frep t' [].
Proof.
  intros (H1 & H2 & H3 & H4). unfold fv_clear. destruct (fv_destroy_all_spec (fv_size t) 0 (fv_data t)) as (d & -> & Hl).
  - intros j Hj. destruct (lookup_lt_is_Some_2 l j ltac:(lia)) as [x Hx]. eauto.
  - cbn. eexists. split; [done|]. split_and!; simpl; [by rewrite Hl|lia|lia|done|done].
Qed.

Lemma room_spec t l :
  frep t l → (Z.of_nat (length l) < 2 ^ 62)%Z → ∃ t', fv_room t = Some t' ∧ frep t' l ∧ (Z.of_nat (length l) < fv_cap t')%Z.
Proof.
  intros (Hlen & Hcap & Hsz & Hd) Hl. unfold fv_room. rewrite Hsz.
  destruct (Z.leb_spec (fv_cap t) (Z.of_nat (length l))) as [Hle|Hgt]; [|by exists t].
  set (nc := if (fv_cap t =? 0)%Z then 64%Z else wrap64 (fv_cap t * 2)).
  assert (Z.of_nat (length l) < nc < 2 ^ 63)%Z as Hnc.
  { unfold nc. destruct (Z.eqb_spec (fv_cap t) 0); [lia|]. unfold wrap. rewrite Z.mod_small; lia. }
  unfold fv_grow. destruct (copy_slots_spec (fv_data t) (replicate (Z.to_nat nc) None) 0 (fv_size t)) as (nd & -> & Hnl & Hlook).
  { lia. } { rewrite length_replicate. lia. }
  cbn. rewrite length_replicate in Hnl. eexists. split; [done|]. split; [|cbn; lia].
  split_and!; cbn; [done|lia|lia|done|]. intros i x Hi. rewrite Hlook. apply lookup_lt_Some in Hi as Hlt. simpl.
  destruct (Nat.ltb_spec i (fv_size t)); [|lia]. by apply Hd.
Qed.

Lemma place_spec t l i x :
  frep t l → i ≤ length l → (Z.of_nat (length l) < fv_cap t)%Z →
  ∃ t', fv_place i x t = Some t' ∧ frep t' (take i l ++ x :: drop i l).
Proof.
  intros (Hlen & Hcap & Hsz & Hd) Hi Hlt. unfold fv_place. rewrite Hsz.
  destruct (shift_up_spec (length l - i) i (fv_data t)) as (d & -> & Hdl & Hlook); [lia|]. cbn [mbind option_bind].
  destruct (Nat.ltb_spec i (length d)); [|lia]. eexists. split; [reflexivity|].
  assert (length (take i l ++ x :: drop i l) = length l + 1) as Hl'.
  { rewrite length_app, length_take_le by done. cbn. rewrite length_drop. lia. }
  unfold frep. rewrite Hl'. split_and!; cbn; [rewrite length_insert; lia|lia|lia|lia|].
  intros j y Hj. destruct (decide (j = i)) as [->|Hne].
  - rewrite list_lookup_insert_eq by done. rewrite list_lookup_middle in Hj; [congruence|]. by rewrite length_take_le.
  - rewrite list_lookup_insert_ne by done. rewrite Hlook. apply lookup_app_Some in Hj as [Hj|[Hge Hj]].
    + apply lookup_take_Some in Hj as [Hj Hib]. destruct (Nat.ltb_spec i j); [lia|]. by apply Hd.
    + rewrite length_take_le in Hge, Hj by done. destruct (j - i) as [|k] eqn:E'; [lia|]. simpl in Hj.
      rewrite lookup_drop in Hj. apply lookup_lt_Some in Hj as Hlt'.
      destruct (Nat.ltb_spec i j), (Nat.leb_spec j (i + (length l - i))); cbn; try lia.
      apply Hd. by replace (j - 1) with (i + k) by lia.
Qed.

Lemma fv_shift_down_spec n i (data : list (option E)) :
  (∀ j, i < j ≤ i + n → ∃ x, data !! j = Some (Some x)) →
  ∃ d, fv_shift_down i n data = Some d ∧ length d = length data ∧
    ∀ j, d !! j = if (i <=? j) && (j <? i + n) then data !! (j + 1) else data !! j.
Proof.
  revert i data. induction n as [|n IH]; intros i data Hx.
  - exists data. split_and!; [done|done|]. intros j. destruct (Nat.leb_spec i j), (Nat.ltb_spec j (i + 0)); cbn [andb]; try lia; done.
  - destruct (Hx (i + 1)) as [x Hi]; [lia|]. apply lookup_lt_Some in Hi as Hlt. cbn [fv_shift_down]. unfold fv_get. rewrite Hi. cbn [mbind option_bind mjoin option_join].
    destruct (IH (i + 1) (<[i := Some x]> data)) as (d & -> & Hl & Hlook).
    { intros j Hj. rewrite list_lookup_insert_ne by lia. apply Hx. lia. }
    exists d. split_and!; [done|by rewrite Hl, length_insert|]. intros j. rewrite Hlook.
    destruct (decide (j = i)) as [->|Hne].
    + destruct (Nat.leb_spec (i + 1) i), (Nat.leb_spec i i), (Nat.ltb_spec i (i + S n)); cbn [andb]; try lia.
      by rewrite list_lookup_insert_eq, Hi by lia.
    + destruct (Nat.leb_spec (i + 1) j), (Nat.leb_spec i j), (Nat.ltb_spec j (i + 1 + n)), (Nat.ltb_spec j (i + S n)); cbn [andb]; try lia;
        by rewrite list_lookup_insert_ne by lia.
Qed.

Lemma remove_spec t l i :
  frep t l → i < length l → ∃ t', fv_remove i t = Some t' ∧ frep t' (take i l ++ drop (S i) l).
Proof.
  intros (Hlen & Hcap & Hsz & Hd) Hi. unfold fv_remove. rewrite Hsz.
  destruct (lookup_lt_is_Some_2 l i Hi) as [xi Hxi]. unfold fv_destroy, fv_get. rewrite (Hd _ _ Hxi). cbn [mbind option_bind mjoin option_join].
  destruct (fv_shift_down_spec (length l - 1 - i) i (<[i := None]> (fv_data t))) as (d & -> & Hdl & Hlook).
  { intros j Hj. rewrite list_lookup_insert_ne by lia. destruct (lookup_lt_is_Some_2 l j ltac:(lia)) as [x Hx]. eauto. }
  rewrite length_insert in Hdl.
  cbn. eexists. split; [reflexivity|]. assert (length (take i l ++ drop (S i) l) = length l - 1) as Hl'.
  { rewrite length_app, length_take_le, length_drop by lia. lia. }
  unfold frep. rewrite Hl'. split_and!; cbn; [lia|lia|lia|lia|]. intros j x Hj. rewrite Hlook.
  apply lookup_app_Some in Hj as [Hj|[Hge Hj]].
  - apply lookup_take_Some in Hj as [Hj Hji]. destruct (Nat.leb_spec i j); [lia|]. cbn [andb]. rewrite list_lookup_insert_ne by lia. by apply Hd.
  - rewrite length_take_le in Hge, Hj by lia. rewrite lookup_drop in Hj. apply lookup_lt_Some in Hj as Hlt.
    destruct (Nat.leb_spec i j), (Nat.ltb_spec j (i + (length l - 1 - i))); cbn [andb]; try lia.
    rewrite list_lookup_insert_ne by lia. apply Hd. by replace (j + 1) with (S i + (j - i)) by lia.
Qed.

Lemma overwrite_spec t l i x y :
  frep t l → l !! i = Some y → frep (FV (<[i := Some x]> (fv_data t)) (fv_size t) (fv_cap t)) (<[i := x]> l).
Proof.
  intros (Hlen & Hcap & Hsz & Hd) Hi. unfold frep. cbn. rewrite !length_insert. split_and!; [done|lia|lia|done|].
  intros j z Hj. apply lookup_lt_Some in Hi as Hlt. destruct (decide (j = i)) as [->|Hne].
  - rewrite list_lookup_insert_eq in Hj by done. rewrite list_lookup_insert_eq by lia. congruence.
  - rewrite list_lookup_insert_ne in Hj by done. rewrite list_lookup_insert_ne by done. by apply Hd.
Qed.

(** The number of elements in the prefix on which a predicate holds. *)
Fixpoint bound (less : E → bool) l : nat :=
  match l with [] => 0 | x :: l' => if less x then S (bound less l') else 0 end.

Lemma bound_le less l : bound less l ≤ length l.
Proof. induction l as [|x l IH]; simpl; [lia|]. destruct (less x); lia. Qed.

Lemma bound_spec (R : E → E → Prop) less l :
  StronglySorted R l → (∀ x y, R x y → less y = true → less x = true) →
  ∀ i x, l !! i = Some x → less x = (i <? bound less l).
Proof.
  intros Hs Hmono. induction Hs as [|z l Hs IH Hf]; intros i x Hi; [done|]. simpl.
  destruct i as [|i]; simpl in Hi.
  - simplify_eq. by destruct (less x).
  - destruct (less z) eqn:Hz; [by rewrite (IH _ _ Hi)|].
    destruct (less x) eqn:Hx; [|done]. rewrite Forall_lookup in Hf. by rewrite (Hmono z x (Hf _ _ Hi) Hx) in Hz.
Qed.

Lemma lower_loop_spec less t l fuel lo hi :
  frep t l → (∀ i x, l !! i = Some x → less x = (i <? bound less l)) →
  lo ≤ bound less l → bound less l ≤ hi → hi ≤ length l → hi - lo < fuel →
  lower_loop less (fv_data t) fuel lo hi = Some (bound less l).
Proof.
  intros Ht Hb. revert lo hi. induction fuel as [|fuel IH]; intros lo hi H1 H2 H3 Hf; [lia|]. cbn [lower_loop].
  destruct (Nat.ltb_spec lo hi); [|f_equal; lia].
  assert (lo ≤ (lo + hi) / 2 < hi) as Hm.
  { split; [apply Nat.div_le_lower_bound; lia|apply Nat.Div0.div_lt_upper_bound; lia]. }
  destruct (lookup_lt_is_Some_2 l ((lo + hi) / 2) ltac:(lia)) as [x Hx]. rewrite (frep_get t l _ _ Ht Hx). cbn [mbind option_bind].
  rewrite (Hb _ _ Hx). destruct (Nat.ltb_spec ((lo + hi) / 2) (bound less l)); apply IH; lia.
Qed.

Lemma lower_spec (R : E → E → Prop) less t l :
  frep t l → StronglySorted R l → (∀ x y, R x y → less y = true → less x = true) →
  lower_loop less (fv_data t) (S (fv_size t)) 0 (fv_size t) = Some (bound less l).
Proof.
  intros Ht Hs Hm. destruct Ht as (?&?&Hsz&?) eqn:E'. rewrite Hsz.
  apply lower_loop_spec; [done|by eapply bound_spec|lia|apply bound_le|lia|lia].
Qed.
End Rep.

(** ** Sorted lists and keys *)

Lemma sorted_lookup {E} (R : E → E → Prop) l i j x y :
  StronglySorted R l → i < j → l !! i = Some x → l !! j = Some y → R x y.
Proof.
  intros Hs. revert i j. induction Hs as [|z l Hs IH Hf]; intros i j Hij Hi Hj; [done|].
  destruct i as [|i], j as [|j]; simpl in *; try lia.
  - simplify_eq. rewrite Forall_lookup in Hf. by eapply Hf.
  - eapply (IH i j); [lia|done..].
Qed.

Section Keyed.
Context {E K : Type} (key : E → K) (ltb : K → K → bool) `{!StrictTotalOrder ltb}.
Implicit Types (l : list E).

Definition klt (x y : E) : Prop := ltb (key x) (key y) = true.
Definition below (k : K) (x : E) : bool := ltb (key x) k.

Lemma klt_below k x y : klt x y → below k y = true → below k x = true.
Proof. unfold klt, below. intros. by eapply swo_trans. Qed.

Lemma bound_split l k :
  StronglySorted klt l →
  (∀ x, x ∈ take (bound (below k) l) l → ltb (key x) k = true) ∧
  (∀ x, x ∈ drop (bound (below k) l) l → ltb (key x) k = false).
Proof.
  intros Hs. pose proof (bound_spec klt (below k) l Hs (klt_below k)) as Hb. unfold below in Hb at 1. split.
  - intros x (i & Hx)%list_elem_of_lookup_1. apply lookup_take_Some in Hx as [Hx Hlt]. rewrite (Hb _ _ Hx). by apply Nat.ltb_lt.
  - intros x (i & Hx)%list_elem_of_lookup_1. rewrite lookup_drop in Hx. rewrite (Hb _ _ Hx). apply Nat.ltb_ge. lia.
Qed.

(** The element at the bound has the key, or no element has. *)
Lemma bound_hit l k :
  StronglySorted klt l →
  match l !! bound (below k) l with
  | Some x => ltb (key x) k = false ∧ (ltb k (key x) = true → ∀ y, y ∈ l → key y ≠ k)
  | None => ∀ y, y ∈ l → key y ≠ k
  end.
Proof.
  intros Hs. pose proof (bound_spec klt (below k) l Hs (klt_below k)) as Hb. unfold below in Hb at 1.
  destruct (l !! bound (below k) l) as [x|] eqn:Ex.
  - split; [rewrite (Hb _ _ Ex); apply Nat.ltb_irrefl|]. intros Hlt y (i & Hy)%list_elem_of_lookup_1 <-.
    pose proof (Hb _ _ Hy) as Hby. rewrite swo_irrefl in Hby. symmetry in Hby. apply Nat.ltb_ge in Hby.
    destruct (decide (i = bound (below (key y)) l)) as [->|Hne].
    + rewrite Ex in Hy. injection Hy as ->. by rewrite swo_irrefl in Hlt.
    + assert (klt x y) as Hxy. { eapply sorted_lookup; [exact Hs| |exact Ex|exact Hy]. lia. }
      unfold klt in Hxy. pose proof (swo_trans _ _ _ Hlt Hxy) as Hc. by rewrite swo_irrefl in Hc.
  - intros y (i & Hy)%list_elem_of_lookup_1 <-. pose proof (Hb _ _ Hy) as Hby. rewrite swo_irrefl in Hby. symmetry in Hby.
    apply Nat.ltb_ge in Hby. apply lookup_ge_None in Ex. apply lookup_lt_Some in Hy. lia.
Qed.

Lemma klt_nodup l : StronglySorted klt l → NoDup (key <$> l).
Proof.
  induction 1 as [|x l Hs IH Hf]; simpl; [constructor|]. constructor; [|done].
  intros (y & Ey & Hy)%list_elem_of_fmap. rewrite Forall_forall in Hf. specialize (Hf _ Hy). unfold klt in Hf.
  rewrite Ey, swo_irrefl in Hf. done.
Qed.

Lemma sorted_place l k x :
  StronglySorted klt l → (∀ y, y ∈ l → key y ≠ k) → key x = k →
  StronglySorted klt (take (bound (below k) l) l ++ x :: drop (bound (below k) l) l).
Proof.
  intros Hs Hn Hk. destruct (bound_split l k Hs) as [H1 H2]. set (b := bound (below k) l) in *.
  rewrite <- (take_drop b l) in Hs. apply StronglySorted_app in Hs as (Hx & Hs1 & Hs2).
  assert (∀ y, y ∈ drop b l → klt x y) as Hxd.
  { intros y Hy. unfold klt. rewrite Hk. destruct (ltb k (key y)) eqn:E'; [done|]. exfalso. apply (Hn y).
    - rewrite <- (take_drop b l). apply elem_of_app. by right.
    - symmetry. apply sto_total; [done|by apply H2]. }
  apply StronglySorted_app. split_and!; [|done|].
  - intros y z Hy [->|Hz]%elem_of_cons; [unfold klt; rewrite Hk; by apply H1|by apply Hx].
  - constructor; [done|]. rewrite Forall_forall. auto.
Qed.

Lemma flat_sorted_remove l i : StronglySorted klt l → StronglySorted klt (take i l ++ drop (S i) l).
Proof.
  intros Hs. destruct (l !! i) as [x|] eqn:Ex.
  - rewrite <- (take_drop_middle l i x Ex) in Hs. apply StronglySorted_app in Hs as (Hx & Hs1 & Hs2).
    apply StronglySorted_inv in Hs2 as [Hs2 _]. apply StronglySorted_app. split_and!; [|done|done].
    intros y z Hy Hz. apply Hx; [done|by right].
  - apply lookup_ge_None in Ex. rewrite take_ge, drop_ge, app_nil_r by lia. done.
Qed.

Lemma sorted_overwrite l i x y :
  StronglySorted klt l → l !! i = Some x → key y = key x → StronglySorted klt (<[i := y]> l).
Proof.
  intros Hs Hx Hk. apply lookup_lt_Some in Hx as Hlt. rewrite insert_take_drop by done.
  rewrite <- (take_drop_middle l i x Hx) in Hs. apply StronglySorted_app in Hs as (H12 & Hs1 & Hs2).
  apply StronglySorted_inv in Hs2 as [Hs2 Hf]. apply StronglySorted_app. split_and!; [|done|].
  - intros z w Hz [->|Hw]%elem_of_cons; [unfold klt; rewrite Hk; apply H12; [done|left]|apply H12; [done|by right]].
  - constructor; [done|]. eapply Forall_impl; [exact Hf|]. intros z. unfold klt. by rewrite Hk.
Qed.
End Keyed.

(** ** flat_map and ts_map against finite maps *)

Section MapCorrect.
Context {K V : Type} `{!EqDecision K, !Countable K} (ltb : K → K → bool) `{!StrictTotalOrder ltb}.
Implicit Types (t : fvec (K * V)) (l : list (K * V)) (M : gmap K V).

Definition fm_rep t M : Prop := ∃ l, frep t l ∧ StronglySorted (klt fst ltb) l ∧ M = list_to_map l.

Lemma fm_lookup l k v : StronglySorted (klt fst ltb) l → (list_to_map l : gmap K V) !! k = Some v ↔ (k, v) ∈ l.
Proof. intros Hs. symmetry. apply elem_of_list_to_map. exact (klt_nodup fst ltb l Hs). Qed.

Lemma fm_lookup_None l k : (∀ x, x ∈ l → x.1 ≠ k) → (list_to_map l : gmap K V) !! k = None.
Proof. intros H. apply not_elem_of_list_to_map_1. intros (x & -> & Hx)%list_elem_of_fmap. by eapply H. Qed.

(** What the search and the test that follow it tell. *)
Lemma fm_search t l k :
  frep t l → StronglySorted (klt fst ltb) l →
  ∃ b, fm_lower_bound ltb t k = Some b ∧ b = bound (below fst ltb k) l ∧
    ((∃ v, l !! b = Some (k, v) ∧ fm_hit ltb t k b = Some true) ∨
     ((∀ x, x ∈ l → x.1 ≠ k) ∧ fm_hit ltb t k b = Some false)).
Proof.
  intros Ht Hs. exists (bound (below fst ltb k) l). split.
  { by apply (lower_spec (klt fst ltb)); [..|apply klt_below]. }
  split; [done|]. pose proof (bound_hit fst ltb l k Hs) as Hh. destruct Ht as (Hl & Hc & Hsz & Hd) eqn:Et.
  unfold fm_hit. rewrite Hsz. destruct (l !! bound (below fst ltb k) l) as [[k' v]|] eqn:Ex.
  - apply lookup_lt_Some in Ex as Hlt. rewrite (proj2 (Nat.ltb_lt _ _) Hlt). clear Et.
    rewrite (frep_get t l _ _ ltac:(done) Ex). cbn in *. destruct Hh as [H1 H2]. rewrite H1. cbn.
    destruct (ltb k k') eqn:E'; cbn; [right; split; [by apply H2|done]|].
    left. exists v. assert (k' = k) as -> by (by apply sto_total). done.
  - apply lookup_ge_None in Ex. rewrite (proj2 (Nat.ltb_ge _ _) Ex). right. done.
Qed.

Lemma fm_place_map l b k v :
  StronglySorted (klt fst ltb) (take b l ++ (k, v) :: drop b l) →
  (list_to_map (take b l ++ (k, v) :: drop b l) : gmap K V) = <[k := v]> (list_to_map l).
Proof.
  intros Hs. rewrite <- list_to_map_cons. apply list_to_map_proper; [exact (klt_nodup fst ltb _ Hs)|].
  rewrite <- Permutation_middle. by rewrite take_drop.
Qed.

Lemma fm_find_spec t M k :
  fm_rep t M → ∃ p, fm_find ltb t k = Some p ∧
    match p with Some i => ∃ v, fv_get (fv_data t) i = Some (k, v) ∧ M !! k = Some v | None => M !! k = None end.
Proof.
  intros (l & Ht & Hs & ->). unfold fm_find. destruct (fm_search t l k Ht Hs) as (b & -> & Hb & [(v & Hx & Hh)|[Hn Hh]]); cbn; rewrite Hh; cbn.
  - eexists. split; [done|]. exists v. split; [by eapply frep_get|]. apply fm_lookup; [done|]. by eapply list_elem_of_lookup_2.
  - eexists. split; [done|]. by apply fm_lookup_None.
Qed.

(** A new key goes to its place. *)
Lemma fm_new t l k v b :
  frep t l → StronglySorted (klt fst ltb) l → (Z.of_nat (length l) < 2 ^ 62)%Z → b = bound (below fst ltb k) l →
  (∀ x, x ∈ l → x.1 ≠ k) →
  ∃ t1 t2, fv_room t = Some t1 ∧ fv_place b (k, v) t1 = Some t2 ∧ fm_rep t2 (<[k := v]> (list_to_map l)) ∧
    fv_get (fv_data t2) b = Some (k, v).
Proof.
  intros Ht Hs Hl -> Hn. destruct (room_spec t l Ht Hl) as (t1 & -> & Ht1 & Hc).
  destruct (place_spec t1 l (bound (below fst ltb k) l) (k, v) Ht1 (bound_le _ _) Hc) as (t2 & Hp & Ht2).
  pose proof (sorted_place fst ltb l k (k, v) Hs Hn eq_refl) as Hs2. exists t1, t2. split_and!; [done|done| |].
  - eexists. split; [done|]. split; [done|]. symmetry. by apply fm_place_map.
  - eapply frep_get; [done|]. apply list_lookup_middle. by rewrite length_take_le by apply bound_le.
Qed.

Lemma fm_insert_spec t M k v :
  fm_rep t M → (Z.of_nat (size M) < 2 ^ 62)%Z → ∃ t', fm_insert ltb t k v = Some t' ∧ fm_rep t' (<[k := v]> M).
Proof.
  intros (l & Ht & Hs & ->) Hsz. rewrite map_size_list_to_map in Hsz by exact (klt_nodup fst ltb l Hs).
  unfold fm_insert. destruct (fm_search t l k Ht Hs) as (b & -> & Hb & [(v0 & Hx & Hh)|[Hn Hh]]); cbn [mbind option_bind]; rewrite Hh; cbn [mbind option_bind].
  - unfold fm_set_val. rewrite (frep_get t l _ _ Ht Hx). cbn. eexists. split; [done|].
    exists (<[b := (k, v)]> l). split; [by eapply overwrite_spec|]. split; [by eapply sorted_overwrite|].
    pose proof (sorted_overwrite fst ltb l b (k, v0) (k, v) Hs Hx eq_refl) as Hs'.
    apply map_eq. intros k'. apply option_eq. intros v'. rewrite fm_lookup by done.
    apply lookup_lt_Some in Hx as Hlt. destruct (decide (k = k')) as [<-|Hne].
    + rewrite lookup_insert_eq. split; [intros [= <-]; apply list_elem_of_lookup_2 with b; by apply list_lookup_insert_eq|].
      intros Hin. assert ((k, v) ∈ <[b := (k, v)]> l) as Hin' by (apply list_elem_of_lookup_2 with b; by apply list_lookup_insert_eq).
      apply (fm_lookup _ _ _ Hs') in Hin, Hin'. congruence.
    + rewrite lookup_insert_ne by done. rewrite fm_lookup by done. split.
      * intros (j & Hj)%list_elem_of_lookup_1. apply list_elem_of_lookup_2 with j. rewrite list_lookup_insert_ne; [done|]. congruence.
      * intros (j & Hj)%list_elem_of_lookup_1. destruct (decide (j = b)) as [->|].
        -- rewrite list_lookup_insert_eq in Hj by done. congruence.
        -- rewrite list_lookup_insert_ne in Hj by done. by eapply list_elem_of_lookup_2.
  - destruct (fm_new t l k v b Ht Hs Hsz Hb Hn) as (t1 & t2 & -> & Hp & Hrep & _). cbn. eauto.
Qed.

Lemma fm_erase_spec t M k : fm_rep t M → ∃ t', fm_erase ltb t k = Some t' ∧ fm_rep t' (delete k M).
Proof.
  intros (l & Ht & Hs & ->). unfold fm_erase.
  assert (fm_lower_bound ltb t k = Some (bound (below fst ltb k) l)) as -> by (by apply (lower_spec (klt fst ltb)); [..|apply klt_below]).
  cbn [mbind option_bind]. set (b := bound (below fst ltb k) l). pose proof (bound_hit fst ltb l k Hs) as Hh. fold b in Hh.
  assert (fv_size t = length l) as Hsz by apply Ht. rewrite Hsz.
  assert ((∀ y, y ∈ l → y.1 ≠ k) → fm_rep t (delete k (list_to_map l))) as Hsame.
  { intros Hn. exists l. split_and!; [done|done|]. apply delete_id. by apply fm_lookup_None. }
  destruct (l !! b) as [[k' v]|] eqn:Ex.
  2:{ apply lookup_ge_None in Ex. rewrite (proj2 (Nat.leb_le _ _) Ex). eauto. }
  apply lookup_lt_Some in Ex as Hlt. rewrite (proj2 (Nat.leb_gt _ _) Hlt), (frep_get t l _ _ Ht Ex). cbn [mbind option_bind fst].
  cbn [fst] in Hh. destruct Hh as [H1 H2]. rewrite H1. cbn [orb]. destruct (ltb k k') eqn:E'; [eauto|].
  assert (k' = k) as -> by (by apply sto_total). destruct (remove_spec t l b Ht Hlt) as (t' & -> & Ht').
  eexists. split; [done|]. pose proof (flat_sorted_remove fst ltb l b Hs) as Hs'. exists (take b l ++ drop (S b) l). split_and!; [done|done|].
  assert ((list_to_map l : gmap K V) = <[k := v]> (list_to_map (take b l ++ drop (S b) l))) as ->.
  { rewrite <- list_to_map_cons. apply list_to_map_proper; [exact (klt_nodup fst ltb l Hs)|].
    rewrite Permutation_middle, take_drop_middle by done. done. }
  rewrite delete_insert_id; [done|]. pose proof (klt_nodup fst ltb l Hs) as Hnd. rewrite <- (take_drop_middle l b _ Ex) in Hnd.
  rewrite fmap_app, fmap_cons in Hnd. apply NoDup_app in Hnd as (_ & Hd & [Hk _]%NoDup_cons). cbn in *.
  apply fm_lookup_None. intros x [Hx|Hx]%elem_of_app Ek.
  - apply (Hd x.1); [by apply list_elem_of_fmap_2|]. rewrite Ek. left.
  - apply Hk. rewrite <- Ek. by apply list_elem_of_fmap_2.
Qed.

Lemma fm_index_spec dflt t M k :
  fm_rep t M → (Z.of_nat (size M) < 2 ^ 62)%Z →
  ∃ t' i v, fm_index ltb dflt t k = Some (t', i) ∧ fv_get (fv_data t') i = Some (k, v) ∧
    v = default dflt (M !! k) ∧ fm_rep t' (<[k := v]> M).
Proof.
  intros (l & Ht & Hs & ->) Hsz. rewrite map_size_list_to_map in Hsz by exact (klt_nodup fst ltb l Hs).
  unfold fm_index. destruct (fm_search t l k Ht Hs) as (b & -> & Hb & [(v0 & Hx & Hh)|[Hn Hh]]); cbn [mbind option_bind]; rewrite Hh; cbn [mbind option_bind].
  - assert ((list_to_map l : gmap K V) !! k = Some v0) as El by (apply fm_lookup; [done|by eapply list_elem_of_lookup_2]).
    exists t, b, v0. rewrite El. split_and!; [done|by eapply frep_get|done|]. rewrite insert_id by done. by exists l.
  - destruct (fm_new t l k dflt b Ht Hs Hsz Hb Hn) as (t1 & t2 & -> & Hp & Hrep & Hg). cbn [mbind option_bind]. rewrite Hp. cbn.
    exists t2, b, dflt. rewrite fm_lookup_None by done. done.
Qed.

(** *** Sequences of operations *)

Definition spec_exec (dflt : V) M (o : ts_op) : gmap K V * ts_out (V := V) :=
  match o with
  | TsFind k => (M, OutVal (M !! k))
  | TsInsert k v => (<[k := v]> M, OutUnit)
  | TsErase k => (delete k M, OutUnit)
  | TsIndex k => (<[k := default dflt (M !! k)]> M, OutVal (Some (default dflt (M !! k))))
  | TsClear => (∅, OutUnit)
  | TsSize => (M, OutNat (size M))
  end.

Fixpoint spec_run (dflt : V) M (ops : list ts_op) : gmap K V * list ts_out :=
  match ops with
  | [] => (M, [])
  | o :: ops' => let '(M', x) := spec_exec dflt M o in let '(M'', xs) := spec_run dflt M' ops' in (M'', x :: xs)
  end.

Lemma ts_exec_spec dflt t M o :
  fm_rep t M → (Z.of_nat (size M) < 2 ^ 62)%Z →
  ∃ t', ts_exec ltb dflt t o = Some (t', (spec_exec dflt M o).2) ∧ fm_rep t' (spec_exec dflt M o).1 ∧
    size (spec_exec dflt M o).1 ≤ S (size M).
Proof.
  intros Hrep Hsz. destruct o as [k|k v|k|k| |]; cbn [ts_exec spec_exec fst snd].
  - destruct (fm_find_spec t M k Hrep) as (p & Hf & Hp). unfold ts_find. rewrite Hf. cbn. exists t. destruct p as [i|].
    + destruct Hp as (v & -> & ->). cbn. split; [done|]. split; [done|lia].
    + rewrite Hp. split; [done|]. split; [done|lia].
  - destruct (fm_insert_spec t M k v Hrep Hsz) as (t' & -> & Ht'). exists t'. split; [done|]. split; [done|].
    rewrite map_size_insert. destruct (M !! k); simpl; lia.
  - destruct (fm_erase_spec t M k Hrep) as (t' & -> & Ht'). exists t'. split; [done|]. split; [done|].
    rewrite map_size_delete. destruct (M !! k); simpl; lia.
  - destruct (fm_index_spec dflt t M k Hrep Hsz) as (t' & i & v & Hi & Hg & Ev & Ht'). unfold ts_index. rewrite Hi. cbn. rewrite Hg. cbn.
    rewrite <- Ev. exists t'. split; [done|]. split; [done|]. rewrite map_size_insert. destruct (M !! k); simpl; lia.
  - destruct Hrep as (l & Ht & _). destruct (frep_clear t l Ht) as (t' & -> & Ht'). exists t'. split; [done|]. split; [|rewrite map_size_empty; lia]. exists [].
    split_and!; [done|constructor|done].
  - exists t. destruct Hrep as (l & Ht & Hs & ->). split; [|split; [by exists l|lia]].
    rewrite map_size_list_to_map by exact (klt_nodup fst ltb l Hs). unfold fm_size. destruct Ht as (_ & _ & -> & _). done.
Qed.

Lemma fm_empty_spec t M : fm_rep t M → fm_empty t = bool_decide (M = ∅).
Proof.
  intros (l & Ht & Hs & ->). unfold fm_empty. destruct Ht as (_ & _ & -> & _). destruct l as [|[k v] l]; [done|]. rewrite bool_decide_false by (apply insert_non_empty). done.
Qed.

Lemma ts_run_spec dflt t M ops :
  fm_rep t M → (Z.of_nat (size M + length ops) < 2 ^ 62)%Z →
  ∃ t', ts_run ltb dflt t ops = Some (t', (spec_run dflt M ops).2) ∧ fm_rep t' (spec_run dflt M ops).1.
Proof.
  revert t M. induction ops as [|o ops IH]; intros t M Hrep Hsz; simpl in *; [eauto|].
  destruct (ts_exec_spec dflt t M o Hrep ltac:(lia)) as (t1 & -> & Hrep1 & Hs1). cbn.
  destruct (spec_exec dflt M o) as [M1 x] eqn:Eo. cbn in *.
  destruct (IH t1 M1 Hrep1 ltac:(lia)) as (t2 & -> & Hrep2). destruct (spec_run dflt M1 ops) as [M2 xs]. cbn in *. eauto.
Qed.
End MapCorrect.

(** ** flat_multimap against sorted sequences *)

Section MultiCorrect.
Context {K V : Type} (ltb : K → K → bool) `{!StrictWeakOrder ltb}.
Implicit Types (t : fvec (K * V)) (l : list (K * V)).

Definition fmm_rep t l : Prop := frep t l ∧ StronglySorted (key_le ltb) l.

Lemma key_le_mono k x y : key_le ltb (V := V) x y → below fst ltb k y = true → below fst ltb k x = true.
Proof. exact (lower_mono ltb k x y). Qed.

Lemma fmm_scan_spec t l k n i :
  frep t l → (∀ j x, l !! j = Some x → ltb x.1 k = (j <? bound (below fst ltb k) l)) →
  i ≤ bound (below fst ltb k) l → i + n = length l →
  fmm_scan ltb k (fv_data t) i n = Some (bound (below fst ltb k) l).
Proof.
  intros Ht Hb. revert i. induction n as [|n IH]; intros i Hi Hn; cbn [fmm_scan].
  - f_equal. pose proof (bound_le (below fst ltb k) l). lia.
  - destruct (lookup_lt_is_Some_2 l i ltac:(lia)) as [x Hx]. rewrite (frep_get t l _ _ Ht Hx). cbn [mbind option_bind].
    rewrite (Hb _ _ Hx). destruct (Nat.ltb_spec i (bound (below fst ltb k) l)); cbn [negb]; [apply IH; lia|f_equal; lia].
Qed.

Lemma fmm_insert_spec t l k v :
  fmm_rep t l → (Z.of_nat (length l) < 2 ^ 62)%Z →
  ∃ t' l1 l2, fmm_insert ltb t k v = Some t' ∧ l = l1 ++ l2 ∧ fmm_rep t' (l1 ++ (k, v) :: l2) ∧
    (∀ x, x ∈ l1 → ltb x.1 k = true) ∧ (∀ x, x ∈ l2 → ltb x.1 k = false).
Proof.
  intros [Ht Hs] Hl. unfold fmm_insert. destruct (room_spec t l Ht Hl) as (t1 & -> & Ht1 & Hc). cbn [mbind option_bind].
  pose proof (bound_spec (key_le ltb) (below fst ltb k) l Hs (key_le_mono k)) as Hb. unfold below in Hb at 1. set (b := bound (below fst ltb k) l) in *.
  assert (fv_size t1 = length l) as Hsz by apply Ht1.
  rewrite (fmm_scan_spec t1 l k (fv_size t1) 0) by (done || lia). cbn [mbind option_bind]. fold b.
  destruct (place_spec t1 l b (k, v) Ht1 (bound_le _ _) Hc) as (t2 & -> & Ht2).
  assert (∀ x, x ∈ take b l → ltb x.1 k = true) as H1.
  { intros x (i & Hx)%list_elem_of_lookup_1. apply lookup_take_Some in Hx as [Hx Hlt]. rewrite (Hb _ _ Hx). by apply Nat.ltb_lt. }
  assert (∀ x, x ∈ drop b l → ltb x.1 k = false) as H2.
  { intros x (i & Hx)%list_elem_of_lookup_1. rewrite lookup_drop in Hx. rewrite (Hb _ _ Hx). apply Nat.ltb_ge. lia. }
  exists t2, (take b l), (drop b l). split_and!; [done|by rewrite take_drop|split; [done|]|done|done].
  revert Hs. rewrite <- (take_drop b l) at 1. intros (Hx & Hs1 & Hs2)%StronglySorted_app. apply StronglySorted_app. split_and!; [|done|].
  - intros y z Hy [->|Hz]%elem_of_cons; [|by apply Hx]. unfold key_le. cbn. destruct (ltb k y.1) eqn:E'; [|done].
    pose proof (swo_trans _ _ _ E' (H1 _ Hy)) as Hc'. by rewrite swo_irrefl in Hc'.
  - constructor; [done|]. rewrite Forall_forall. intros y Hy. by apply H2.
Qed.

Lemma fmm_lower_spec t l k : fmm_rep t l → fmm_lower_bound ltb t k = Some (bound (below fst ltb k) l).
Proof. intros [Ht Hs]. by apply (lower_spec (key_le ltb)); [..|apply key_le_mono]. Qed.

Lemma fmm_find_loop_spec t l k n i :
  frep t l → i + n = length l →
  ∃ p, fmm_find_loop ltb k (fv_data t) i n = Some p ∧
    let hit (x : K * V) := negb (ltb x.1 k) && negb (ltb k x.1) in
    match p with
    | Some j => i ≤ j ∧ (∃ x, l !! j = Some x ∧ hit x = true) ∧ ∀ j' x, i ≤ j' < j → l !! j' = Some x → hit x = false
    | None => ∀ j' x, i ≤ j' → l !! j' = Some x → hit x = false
    end.
Proof.
  intros Ht. revert i. induction n as [|n IH]; intros i Hn; cbn [fmm_find_loop].
  - eexists. split; [done|]. intros j x Hj Hx. apply lookup_lt_Some in Hx. lia.
  - destruct (lookup_lt_is_Some_2 l i ltac:(lia)) as [x Hx]. rewrite (frep_get t l _ _ Ht Hx). cbn [mbind option_bind].
    destruct (negb (ltb x.1 k) && negb (ltb k x.1)) eqn:Eh.
    + eexists. split; [done|]. split_and!; [done|by exists x|]. intros j' y Hj. lia.
    + destruct (IH (S i) ltac:(lia)) as (p & -> & Hp). exists p. split; [done|]. destruct p as [j|].
      * destruct Hp as (? & ? & Hp). split_and!; [lia|done|]. intros j' y Hj Hy. destruct (decide (j' = i)) as [->|]; [congruence|].
        apply (Hp j'); [lia|done].
      * intros j' y Hj Hy. destruct (decide (j' = i)) as [->|]; [congruence|]. apply (Hp j'); [lia|done].
Qed.
End MultiCorrect.

(** ** flat_set against finite sets *)

Section SetCorrect.
Context {K : Type} `{!EqDecision K, !Countable K} (ltb : K → K → bool) `{!StrictTotalOrder ltb}.
Implicit Types (t : fvec K) (l : list K).

Definition fs_rep t (X : gset K) : Prop := ∃ l, frep t l ∧ StronglySorted (klt id ltb) l ∧ X = list_to_set l.

Lemma fs_lower_spec t l k :
  frep t l → StronglySorted (klt id ltb) l → fs_lower_bound ltb t k = Some (bound (below id ltb k) l).
Proof. intros Ht Hs. by apply (lower_spec (klt id ltb)); [..|apply klt_below]. Qed.

Lemma fs_search t l k :
  frep t l → StronglySorted (klt id ltb) l →
  let b := bound (below id ltb k) l in
  match l !! b with
  | Some x => ltb x k = false ∧ (ltb k x = false → x = k) ∧ (ltb k x = true → k ∉ l)
  | None => k ∉ l
  end.
Proof.
  intros Ht Hs b. pose proof (bound_hit id ltb l k Hs) as Hh. fold b in Hh. destruct (l !! b) as [x|] eqn:Ex; cbn in *.
  - destruct Hh as [H1 H2]. split_and!; [done|intros; by apply sto_total|]. intros H3 Hk. by apply (H2 H3 k).
  - intros Hk. by apply (Hh k).
Qed.

Lemma fs_contains_spec t X k : fs_rep t X → fs_contains ltb t k = Some (bool_decide (k ∈ X)).
Proof.
  intros (l & Ht & Hs & ->). unfold fs_contains. rewrite (fs_lower_spec t l k Ht Hs). cbn [mbind option_bind].
  pose proof (fs_search t l k Ht Hs) as Hh. cbn zeta in Hh. set (b := bound (below id ltb k) l) in *.
  assert (fv_size t = length l) as -> by apply Ht. destruct (l !! b) as [x|] eqn:Ex.
  - apply lookup_lt_Some in Ex as Hlt. rewrite (proj2 (Nat.ltb_lt _ _) Hlt), (frep_get t l _ _ Ht Ex). cbn.
    destruct Hh as (H1 & H2 & H3). rewrite H1. cbn. f_equal. symmetry. destruct (ltb k x) eqn:E'; cbn.
    + rewrite bool_decide_eq_false, elem_of_list_to_set. by apply H3.
    + rewrite bool_decide_eq_true, elem_of_list_to_set. rewrite <- (H2 eq_refl). by eapply list_elem_of_lookup_2.
  - apply lookup_ge_None in Ex. rewrite (proj2 (Nat.ltb_ge _ _) Ex). f_equal. symmetry.
    by rewrite bool_decide_eq_false, elem_of_list_to_set.
Qed.

Lemma fs_insert_spec t X k :
  fs_rep t X → (Z.of_nat (size X) < 2 ^ 62)%Z → ∃ t', fs_insert ltb t k = Some t' ∧ fs_rep t' ({[k]} ∪ X).
Proof.
  intros Hrep Hsz. unfold fs_insert. rewrite (fs_contains_spec t X k Hrep). cbn [mbind option_bind].
  destruct Hrep as (l & Ht & Hs & EX). case_bool_decide as Hk.
  - exists t. split; [done|]. exists l. split_and!; [done|done|]. set_solver.
  - subst X. rewrite elem_of_list_to_set in Hk. rewrite size_list_to_set in Hsz by (rewrite <- (list_fmap_id l); exact (klt_nodup id ltb l Hs)).
    destruct (room_spec t l Ht Hsz) as (t1 & -> & Ht1 & Hc). cbn [mbind option_bind].
    rewrite (fs_lower_spec t1 l k Ht1 Hs). cbn [mbind option_bind].
    destruct (place_spec t1 l (bound (below id ltb k) l) k Ht1 (bound_le _ _) Hc) as (t2 & -> & Ht2). eexists. split; [done|].
    eexists. split; [done|]. split; [apply (sorted_place id ltb l k k Hs); [intros y Hy Ey; unfold id in Ey; congruence|done]|].
    rewrite <- (take_drop (bound (below id ltb k) l) l) at 1. set_solver.
Qed.

Lemma fs_erase_spec t X k : fs_rep t X → ∃ t', fs_erase ltb t k = Some t' ∧ fs_rep t' (X ∖ {[k]}).
Proof.
  intros (l & Ht & Hs & ->). unfold fs_erase. rewrite (fs_lower_spec t l k Ht Hs). cbn [mbind option_bind].
  pose proof (fs_search t l k Ht Hs) as Hh. cbn zeta in Hh. set (b := bound (below id ltb k) l) in *.
  assert (fv_size t = length l) as -> by apply Ht.
  assert (k ∉ l → fs_rep t (list_to_set l ∖ {[k]})) as Hsame.
  { intros Hk. exists l. split_and!; [done|done|]. set_solver. }
  destruct (l !! b) as [x|] eqn:Ex.
  2:{ apply lookup_ge_None in Ex. rewrite (proj2 (Nat.leb_le _ _) Ex). eauto. }
  apply lookup_lt_Some in Ex as Hlt. rewrite (proj2 (Nat.leb_gt _ _) Hlt), (frep_get t l _ _ Ht Ex). cbn [mbind option_bind].
  destruct Hh as (H1 & H2 & H3). rewrite H1. cbn [orb]. destruct (ltb k x) eqn:E'; [eauto|]. rewrite (H2 eq_refl) in Ex.
  destruct (remove_spec t l b Ht Hlt) as (t' & -> & Ht'). eexists. split; [done|].
  eexists. split; [done|]. split; [by apply flat_sorted_remove|]. pose proof (klt_nodup id ltb l Hs) as Hnd. rewrite list_fmap_id in Hnd.
  rewrite <- (take_drop_middle l b k Ex) in Hnd. apply NoDup_app in Hnd as (_ & Hd & [Hk _]%NoDup_cons).
  rewrite <- (take_drop_middle l b k Ex) at 1. set_solver.
Qed.
End SetCorrect.

(** ** Properties *)

(** C35: [ts_map] (and the [flat_map] in it) is a finite map.  Every sequence of calls to
    find, insert, erase, operator[], clear and size, as the mutex orders them, runs without
    touching raw or foreign storage and returns what a finite map returns, and the array
    stays sorted and represents the map the calls leave; [empty] then tells whether that
    map is empty.  Fewer than 2^62 calls. *)
Theorem flat_map_refines {K V} `{!EqDecision K, !Countable K} (ltb : K → K → bool) `{!StrictTotalOrder ltb} (dflt : V) ops :
  (Z.of_nat (length ops) < 2 ^ 62)%Z →
  ∃ t', ts_run ltb dflt fv_new ops = Some (t', (spec_run dflt ∅ ops).2) ∧ fm_rep ltb t' (spec_run dflt ∅ ops).1 ∧
    fm_empty t' = bool_decide ((spec_run dflt ∅ ops).1 = ∅).
Proof.
  intros Hl. destruct (ts_run_spec ltb dflt fv_new ∅ ops) as (t' & Ht & Hr); [|rewrite map_size_empty; done|exists t'; split_and!; [done..|by apply (fm_empty_spec ltb)]].
  exists []. split_and!; [apply frep_new|constructor|done].
Qed.

Lemma flat_map_refines_witness :
  ∃ t', ts_run Z.ltb 0%Z fv_new [TsInsert 5%Z 50%Z; TsInsert 3%Z 30%Z; TsFind 5%Z; TsErase 5%Z; TsFind 5%Z; TsIndex 3%Z; TsSize; TsClear]
    = Some (t', [OutUnit; OutUnit; OutVal (Some 50%Z); OutUnit; OutVal None; OutVal (Some 30%Z); OutNat 1; OutUnit]) ∧ fm_empty t' = true.
Proof.
  destruct (flat_map_refines Z.ltb 0%Z
    [TsInsert 5%Z 50%Z; TsInsert 3%Z 30%Z; TsFind 5%Z; TsErase 5%Z; TsFind 5%Z; TsIndex 3%Z; TsSize; TsClear]) as (t' & Ht & _ & He); [simpl; lia|].
  exists t'. split; [exact Ht|]. rewrite He. apply bool_decide_eq_true. reflexivity.
Defined.

(** [flat_multimap] keeps a sorted sequence: [insert] puts the pair before the entries whose
    key is not smaller, [lower_bound] counts the smaller ones, [find_first] finds the first
    equivalent key. *)
Theorem flat_multimap_sorted {K V} (ltb : K → K → bool) `{!StrictWeakOrder ltb} (t : fvec (K * V)) l k v :
  fmm_rep ltb t l → (Z.of_nat (length l) < 2 ^ 62)%Z →
  (∃ t' l1 l2, fmm_insert ltb t k v = Some t' ∧ l = l1 ++ l2 ∧ fmm_rep ltb t' (l1 ++ (k, v) :: l2) ∧
     (∀ x, x ∈ l1 → ltb x.1 k = true) ∧ (∀ x, x ∈ l2 → ltb x.1 k = false)) ∧
  (∃ b, fmm_lower_bound ltb t k = Some b ∧ ∀ i x, l !! i = Some x → ltb x.1 k = (i <? b)) ∧
  (∃ p, fmm_find_first ltb t k = Some p ∧
     match p with
     | Some j => ∃ x, l !! j = Some x ∧ ltb x.1 k = false ∧ ltb k x.1 = false
     | None => ∀ x, x ∈ l → ltb x.1 k = true ∨ ltb k x.1 = true
     end).
Proof.
  intros Hr Hl. pose proof Hr as [Ht Hs]. split_and!; [by apply fmm_insert_spec| |].
  - eexists. split; [by apply fmm_lower_spec|]. exact (bound_spec (key_le ltb) (below fst ltb k) l Hs (key_le_mono ltb k)).
  - unfold fmm_find_first. assert (fv_size t = length l) as Hsz by apply Ht.
    destruct (fmm_find_loop_spec ltb t l k (fv_size t) 0 Ht Hsz) as (p & -> & Hp). exists p. split; [done|]. destruct p as [j|].
    + destruct Hp as (_ & (x & Hx & [H1 H2]%andb_true_iff) & _). exists x. by rewrite !negb_true_iff in *.
    + intros x (i & Hx)%list_elem_of_lookup_1. specialize (Hp i x ltac:(lia) Hx). cbn in Hp.
      destruct (ltb x.1 k); [by left|]. destruct (ltb k x.1); [by right|done].
Qed.

(** [flat_set] is a finite set. *)
Theorem flat_set_refines {K} `{!EqDecision K, !Countable K} (ltb : K → K → bool) `{!StrictTotalOrder ltb} (t : fvec K) X k :
  fs_rep ltb t X → (Z.of_nat (size X) < 2 ^ 62)%Z →
  fs_contains ltb t k = Some (bool_decide (k ∈ X)) ∧
  (∃ t', fs_insert ltb t k = Some t' ∧ fs_rep ltb t' ({[k]} ∪ X)) ∧
  (∃ t', fs_erase ltb t k = Some t' ∧ fs_rep ltb t' (X ∖ {[k]})) ∧
  (∃ t', fv_clear t = Some t' ∧ fs_rep ltb t' (∅ : gset K)).
Proof.
  intros Hr Hs. split_and!; [by apply fs_contains_spec|by apply fs_insert_spec|by apply fs_erase_spec|].
  destruct Hr as (l & Ht & _). destruct (frep_clear t l Ht) as (t' & Hc & Ht'). exists t'. split; [done|]. exists []. split_and!; [done|constructor|done].
Qed.
