(* ===== verification/ExplicitHashMap.v ===== *)
(** * Open-addressing hash map of the explicit interface (explicit_hashmap.hpp)

    Linear probing with tombstones over a fixed array of slots that the caller provides.
    The accesses go through [MemoryAccess<UseTM>]: inside a transaction they are the typed
    reads and writes of the backend, so that the operation runs in isolation; the model is
    the operation on the slots.  Key and value of a slot are raw ([None]) until stored; an
    access outside the array or a read of a raw key is a failure ([None]). *)

From S2P Require Import Prelude.

Inductive SlotState := EMPTY | OCCUPIED | TOMBSTONE.
#[export] Instance SlotState_eq_dec : EqDecision SlotState.
Proof. solve_decision. Defined.

Record slot (K V : Type) := Slot { sl_state : SlotState; sl_key : option K; sl_val : option V }.
Arguments Slot {K V}.
Arguments sl_state {K V}.
Arguments sl_key {K V}.
Arguments sl_val {K V}.

Record ehmap (K V : Type) := EHMap { eh_slots : list (slot K V); eh_capacity : nat; eh_size : nat }.
Arguments EHMap {K V}.
Arguments eh_slots {K V}.
Arguments eh_capacity {K V}.
Arguments eh_size {K V}.

Section Ops.
Context {K V : Type} `{!EqDecision K} (hasher : K → Z).
Implicit Types (t : ehmap K V) (slots : list (slot K V)).

Definition eh_home (cap : nat) (k : K) : nat := Z.to_nat (hasher k mod Z.of_nat cap).

(** Iterations [i], ..., of the probe loop of [find], [n] of them. *)
Fixpoint eh_find_loop slots (key : K) (cap idx i n : nat) : option (option nat) :=
  match n with
  | O => Some None
  | S n' =>
      let j := (idx + i) mod cap in
      s ← slots !! j;
      match sl_state s with
      | EMPTY => Some None
      | OCCUPIED =>
          k ← sl_key s;
          if decide (k = key) then Some (Some j) else eh_find_loop slots key cap idx (S i) n'
      | TOMBSTONE => eh_find_loop slots key cap idx (S i) n'
      end
  end.

(** The slot whose value [find] points to. *)
Definition eh_find t (key : K) : option (option nat) :=
  if eh_capacity t =? 0 then Some None
  else eh_find_loop (eh_slots t) key (eh_capacity t) (eh_home (eh_capacity t) key) 0 (eh_capacity t).

Fixpoint eh_insert_loop t (key : K) (val : V) (cap idx : nat) (first_tomb : option nat) (i n : nat)
    : option (ehmap K V * bool) :=
  match n with
  | O => Some (t, false)
  | S n' =>
      let j := (idx + i) mod cap in
      s ← eh_slots t !! j;
      match sl_state s with
      | EMPTY =>
          let ins := match first_tomb with Some f => f | None => j end in
          if ins <? length (eh_slots t) then
            Some (EHMap (<[ins := Slot OCCUPIED (Some key) (Some val)]> (eh_slots t)) (eh_capacity t) (eh_size t + 1), true)
          else None
      | OCCUPIED =>
          k ← sl_key s;
          if decide (k = key) then
            Some (EHMap (<[j := Slot OCCUPIED (Some k) (Some val)]> (eh_slots t)) (eh_capacity t) (eh_size t), false)
          else eh_insert_loop t key val cap idx first_tomb (S i) n'
      | TOMBSTONE =>
          eh_insert_loop t key val cap idx (match first_tomb with None => Some j | Some _ => first_tomb end) (S i) n'
      end
  end.

Definition eh_insert t (key : K) (val : V) : option (ehmap K V * bool) :=
  if eh_capacity t =? 0 then Some (t, false)
  else eh_insert_loop t key val (eh_capacity t) (eh_home (eh_capacity t) key) None 0 (eh_capacity t).

Fixpoint eh_erase_loop t (key : K) (cap idx i n : nat) : option (ehmap K V * bool) :=
  match n with
  | O => Some (t, false)
  | S n' =>
      let j := (idx + i) mod cap in
      s ← eh_slots t !! j;
      match sl_state s with
      | EMPTY => Some (t, false)
      | OCCUPIED =>
          k ← sl_key s;
          if decide (k = key) then
            Some (EHMap (<[j := Slot TOMBSTONE (sl_key s) (sl_val s)]> (eh_slots t)) (eh_capacity t) (eh_size t - 1), true)
          else eh_erase_loop t key cap idx (S i) n'
      | TOMBSTONE => eh_erase_loop t key cap idx (S i) n'
      end
  end.

Definition eh_erase t (key : K) : option (ehmap K V * bool) :=
  if eh_capacity t =? 0 then Some (t, false)
  else eh_erase_loop t key (eh_capacity t) (eh_home (eh_capacity t) key) 0 (eh_capacity t).
End Ops.

(** ** Correctness *)

Section Correct.
Context {K V : Type} `{!EqDecision K, !Countable K} (hasher : K → Z).
Implicit Types (t : ehmap K V) (slots : list (slot K V)) (k : K) (v : V).

Abbreviation home t k := (eh_home hasher (eh_capacity t) k).

Definition holds slots (j : nat) k v : Prop := slots !! j = Some (Slot OCCUPIED (Some k) (Some v)).

(** Slots [home], ..., [home + d - 1] of a key's probe sequence are not empty. *)
Definition reaches slots (cap h d : nat) : Prop :=
  ∀ e, e < d → ∃ s, slots !! ((h + e) mod cap) = Some s ∧ sl_state s ≠ EMPTY.

Record eh_wf t : Prop := {
  eh_len : length (eh_slots t) = eh_capacity t;
  eh_full j s : eh_slots t !! j = Some s → sl_state s = OCCUPIED → ∃ k v, s = Slot OCCUPIED (Some k) (Some v);
  eh_chain j k v d : holds (eh_slots t) j k v → d < eh_capacity t → (home t k + d) mod eh_capacity t = j →
    reaches (eh_slots t) (eh_capacity t) (home t k) d;
  eh_uniq i j k v v' : holds (eh_slots t) i k v → holds (eh_slots t) j k v' → i = j;
}.

(** The map a table stands for, and the slots that have never been used. *)
Definition eh_repr t (M : gmap K V) : Prop :=
  eh_wf t ∧ (∀ k v, M !! k = Some v ↔ ∃ j, holds (eh_slots t) j k v) ∧ eh_size t = size M.
Definition has_empty t : Prop := ∃ j s, eh_slots t !! j = Some s ∧ sl_state s = EMPTY.

Lemma home_lt cap k : 0 < cap → eh_home hasher cap k < cap.
Proof. intros H. unfold eh_home. pose proof (Z.mod_pos_bound (hasher k) (Z.of_nat cap)). lia. Qed.

Lemma probe_slot t h i : eh_wf t → 0 < eh_capacity t → ∃ s, eh_slots t !! ((h + i) mod eh_capacity t) = Some s.
Proof.
  intros Ht Hc. apply lookup_lt_is_Some_2. rewrite (eh_len t Ht). apply Nat.mod_upper_bound. lia.
Qed.

(** The key is not in the first [i] slots of its probe sequence. *)
Definition missed t k (i : nat) : Prop := ∀ e v, e < i → ¬ holds (eh_slots t) ((home t k + e) mod eh_capacity t) k v.

(** A key is absent if its probe sequence misses it up to an empty slot, or everywhere. *)
Lemma absent t k i :
  eh_wf t → 0 < eh_capacity t → missed t k i →
  (∃ s, eh_slots t !! ((home t k + i) mod eh_capacity t) = Some s ∧ sl_state s = EMPTY) ∨ i = eh_capacity t →
  ∀ j v, ¬ holds (eh_slots t) j k v.
Proof.
  intros Ht Hc Hm Hstop j v Hj. pose proof (home_lt (eh_capacity t) k Hc) as Hh.
  assert (j < eh_capacity t) as Hjl by (rewrite <- (eh_len t Ht); by eapply lookup_lt_Some).
  destruct (ring_distance (eh_capacity t) (home t k) j Hh Hjl) as (d & Hd & Hdj).
  destruct (Nat.lt_ge_cases d i) as [Hlt|Hge]; [apply (Hm d v Hlt); by rewrite Hdj|].
  destruct Hstop as [(s & Hs & He)| ->]; [|lia].
  destruct (decide (d = i)) as [->|Hne].
  - rewrite Hdj in Hs. unfold holds in Hj. rewrite Hj in Hs. injection Hs as <-. done.
  - destruct (eh_chain t Ht j k v d Hj Hd Hdj i ltac:(lia)) as (s' & Hs' & Hne'). congruence.
Qed.

(** One step of a probe that has not met the key. *)
Lemma missed_step t k i s :
  eh_wf t → missed t k i → eh_slots t !! ((home t k + i) mod eh_capacity t) = Some s →
  (sl_state s = TOMBSTONE ∨ ∃ k', sl_key s = Some k' ∧ k' ≠ k) → missed t k (S i).
Proof.
  intros Ht Hm Hs Hc e v He. destruct (decide (e = i)) as [->|]; [|apply Hm; lia]. unfold holds. rewrite Hs. intros [= ->].
  destruct Hc as [?|(k' & ? & ?)]; cbn in *; congruence.
Qed.

Lemma eh_find_loop_spec t k i n :
  eh_wf t → 0 < eh_capacity t → i + n = eh_capacity t → missed t k i →
  ∃ p, eh_find_loop (eh_slots t) k (eh_capacity t) (home t k) i n = Some p ∧
    match p with Some j => ∃ v, holds (eh_slots t) j k v | None => ∀ j v, ¬ holds (eh_slots t) j k v end.
Proof.
  intros Ht Hc. revert i. induction n as [|n IH]; intros i Hin Hm; cbn [eh_find_loop].
  - exists None. split; [done|]. cbv beta iota. apply (absent t k i Ht Hc Hm). right. lia.
  - destruct (probe_slot t (home t k) i Ht Hc) as [s Hs]. rewrite Hs. cbn [mbind option_bind].
    destruct (sl_state s) eqn:Es.
    + exists None. split; [done|]. cbv beta iota. apply (absent t k i Ht Hc Hm). left. eauto.
    + destruct (eh_full t Ht _ _ Hs Es) as (k' & v & ->). cbn. destruct (decide (k' = k)) as [->|Hne].
      * eexists. split; [done|]. by exists v.
      * apply IH; [lia|]. eapply missed_step; [done|done|done|]. right. cbn. eauto.
    + apply IH; [lia|]. eapply missed_step; eauto.
Qed.

Lemma eh_find_spec t M k :
  eh_repr t M → ∃ p, eh_find hasher t k = Some p ∧
    match p with Some j => ∃ v, holds (eh_slots t) j k v ∧ M !! k = Some v | None => M !! k = None end.
Proof.
  intros (Ht & HM & _). unfold eh_find. destruct (Nat.eqb_spec (eh_capacity t) 0) as [H0|Hc].
  - eexists. split; [done|]. apply eq_None_not_Some. intros [v Hv]. apply HM in Hv as [j Hj]. apply lookup_lt_Some in Hj. rewrite (eh_len t Ht) in Hj. lia.
  - destruct (eh_find_loop_spec t k 0 (eh_capacity t) Ht ltac:(lia) ltac:(lia)) as (p & -> & Hp); [intros e v He; lia|].
    exists p. split; [done|]. destruct p as [j|].
    + destruct Hp as [v Hv]. exists v. split; [done|]. apply HM. eauto.
    + apply eq_None_not_Some. intros [v Hv]. apply HM in Hv as [j Hj]. by eapply Hp.
Qed.

(** *** Updates of one slot *)

(** Filling or marking a slot keeps every probe sequence connected. *)
Lemma reaches_update slots cap h d j s s' :
  slots !! j = Some s → sl_state s' ≠ EMPTY → reaches slots cap h d → reaches (<[j := s']> slots) cap h d.
Proof.
  intros Hj Hs Hr e He. destruct (Hr e He) as (s0 & H0 & H1). destruct (decide (j = (h + e) mod cap)) as [<-|Hne].
  - exists s'. split; [|done]. apply list_lookup_insert_eq. by eapply lookup_lt_Some.
  - exists s0. split; [|done]. by rewrite list_lookup_insert_ne.
Qed.

Lemma holds_update slots j s s' i k v :
  slots !! j = Some s → holds (<[j := s']> slots) i k v ↔ (i = j ∧ s' = Slot OCCUPIED (Some k) (Some v)) ∨ (i ≠ j ∧ holds slots i k v).
Proof.
  intros Hj. unfold holds. apply lookup_lt_Some in Hj. destruct (decide (i = j)) as [->|Hne].
  - rewrite list_lookup_insert_eq by done. naive_solver.
  - rewrite list_lookup_insert_ne by done. naive_solver.
Qed.

Definition put t (j : nat) (s' : slot K V) (n : nat) : ehmap K V := EHMap (<[j := s']> (eh_slots t)) (eh_capacity t) n.

(** A slot is overwritten with a key that is nowhere else and whose probe sequence reaches it. *)
Lemma put_wf t j s k v d n :
  eh_wf t → eh_slots t !! j = Some s → (∀ i v', holds (eh_slots t) i k v' → i = j) →
  d < eh_capacity t → (home t k + d) mod eh_capacity t = j → reaches (eh_slots t) (eh_capacity t) (home t k) d →
  eh_wf (put t j (Slot OCCUPIED (Some k) (Some v)) n).
Proof.
  intros Ht Hj Hu Hd Hdj Hr. pose proof Ht as []. split; cbn.
  - by rewrite length_insert.
  - intros i s0. destruct (decide (i = j)) as [->|Hne].
    + rewrite list_lookup_insert_eq by (by eapply lookup_lt_Some). intros [= <-] _. eauto.
    + rewrite list_lookup_insert_ne by done. apply eh_full0.
  - intros i k' v' d' Hi Hd' Hdi. apply (reaches_update _ _ _ _ _ s); [done|done|].
    apply (holds_update _ _ _ _ _ _ _ Hj) in Hi as [(-> & [= <- <-])|(Hne & Hi)].
    + assert (d' = d) as ->; [|done]. apply (ring_inj (eh_capacity t) (home t k)); [done|done|apply home_lt; lia|congruence].
    + by eapply eh_chain0.
  - intros i i' k' v1 v2 H1 H2. apply (holds_update _ _ _ _ _ _ _ Hj) in H1 as [(-> & E1)|(Hn1 & H1)];
      apply (holds_update _ _ _ _ _ _ _ Hj) in H2 as [(-> & E2)|(Hn2 & H2)]; [done| | |by eapply eh_uniq0].
    + injection E1 as <- _. exfalso. apply Hn2. by eapply Hu.
    + injection E2 as <- _. exfalso. apply Hn1. by eapply Hu.
Qed.

Lemma put_repr t M j s k v d n :
  eh_repr t M → eh_slots t !! j = Some s → (∀ i v', holds (eh_slots t) i k v' → i = j) →
  (∀ k' v', s = Slot OCCUPIED (Some k') (Some v') → k' = k) →
  d < eh_capacity t → (home t k + d) mod eh_capacity t = j → reaches (eh_slots t) (eh_capacity t) (home t k) d →
  n = size (<[k := v]> M) → eh_repr (put t j (Slot OCCUPIED (Some k) (Some v)) n) (<[k := v]> M).
Proof.
  intros (Ht & HM & Hsz) Hj Hu Hs Hd Hdj Hr Hn. split; [by eapply put_wf|]. split; [|done]. intros k' v'. cbn.
  setoid_rewrite (holds_update _ _ _ _ _ _ _ Hj). destruct (decide (k = k')) as [<-|Hne].
  - rewrite lookup_insert_eq. split; [intros [= <-]; exists j; by left|].
    intros (i & [(-> & [= ->])|(Hne & Hi)]); [done|]. exfalso. apply Hne. by eapply Hu.
  - rewrite lookup_insert_ne by done. rewrite HM. split.
    + intros (i & Hi). exists i. right. split; [|done]. intros ->. unfold holds in Hi. rewrite Hj in Hi. injection Hi as ->. apply Hne. symmetry. by eapply Hs.
    + intros (i & [(-> & [= ? ?])|(? & Hi)]); [congruence|eauto].
Qed.

(** The tombstone the insertion loop remembers. *)
Definition tomb_ok t k (i : nat) (ft : option nat) : Prop :=
  match ft with
  | Some f => ∃ e s, e < i ∧ (home t k + e) mod eh_capacity t = f ∧ eh_slots t !! f = Some s ∧ sl_state s = TOMBSTONE
  | None => True
  end.

Lemma insert_loop_spec t M k v i n ft :
  eh_repr t M → 0 < eh_capacity t → i + n = eh_capacity t → missed t k i → tomb_ok t k i ft →
  reaches (eh_slots t) (eh_capacity t) (home t k) i →
  ∃ t' b, eh_insert_loop t k v (eh_capacity t) (home t k) ft i n = Some (t', b) ∧
    match M !! k with
    | Some _ => b = false ∧ eh_repr t' (<[k := v]> M)
    | None => if b then eh_repr t' (<[k := v]> M) else t' = t ∧ ¬ has_empty t
    end.
Proof.
  intros Hrep Hc. pose proof Hrep as (Ht & HM & Hsz). revert i ft. induction n as [|n IH]; intros i ft Hin Hm Hft Hr; cbn [eh_insert_loop].
  - exists t, false. split; [done|]. destruct (M !! k) as [v0|] eqn:Ek.
    + exfalso. apply HM in Ek as [j Hj]. revert Hj. apply (absent t k i Ht Hc Hm). right. lia.
    + split; [done|]. intros (j & s & Hj & He). assert (j < eh_capacity t) as Hjl by (rewrite <- (eh_len t Ht); by eapply lookup_lt_Some).
      destruct (ring_distance (eh_capacity t) (home t k) j (home_lt _ _ Hc) Hjl) as (d & Hd & <-).
      destruct (Hr d ltac:(lia)) as (s' & Hs' & Hne). congruence.
  - destruct (probe_slot t (home t k) i Ht Hc) as [s Hs]. rewrite Hs. cbn [mbind option_bind].
    assert (sl_state s ≠ EMPTY → reaches (eh_slots t) (eh_capacity t) (home t k) (S i)) as Hr'.
    { intros Hne e He. destruct (decide (e = i)) as [->|]; [eauto|]. apply Hr. lia. }
    destruct (sl_state s) eqn:Es.
    + assert (∀ j v0, ¬ holds (eh_slots t) j k v0) as Ha by (apply (absent t k i Ht Hc Hm); left; eauto).
      assert (M !! k = None) as Ek by (apply eq_None_not_Some; intros [v0 Hv0]; apply HM in Hv0 as [j Hj]; by eapply Ha).
      rewrite Ek. set (ins := match ft with Some f => f | None => (home t k + i) mod eh_capacity t end).
      assert (∃ d s0, d ≤ i ∧ (home t k + d) mod eh_capacity t = ins ∧ eh_slots t !! ins = Some s0 ∧ sl_state s0 ≠ OCCUPIED)
        as (d & s0 & Hd & Hdi & Hs0 & Hns).
      { destruct ft as [f|]; [destruct Hft as (e & s0 & ? & ? & ? & Hst); exists e, s0; split_and!; [lia|done|done|by rewrite Hst]|].
        exists i, s. split_and!; [done|done|done|by rewrite Es]. }
      rewrite (proj2 (Nat.ltb_lt _ _)) by (by eapply lookup_lt_Some). eexists _, true. split; [done|].
      apply (put_repr t M ins s0 k v d); [done|done| | |lia|done| |].
      * intros j v' Hj. by apply Ha in Hj.
      * intros k' v' ->. by cbn in Hns.
      * intros e He. apply Hr. lia.
      * rewrite map_size_insert_None by done. lia.
    + destruct (eh_full t Ht _ _ Hs Es) as (k' & v0 & ->). cbn. destruct (decide (k' = k)) as [->|Hne].
      * eexists _, false. split; [done|]. assert (M !! k = Some v0) as -> by (apply HM; eauto). split; [done|].
        apply (put_repr t M _ (Slot OCCUPIED (Some k) (Some v0)) k v i); [done|done| | |lia|done|done|].
        -- intros j v' Hj. eapply eh_uniq; [done|exact Hj|exact Hs].
        -- by intros k' v' [= ->].
        -- rewrite map_size_insert_Some; [done|]. exists v0. apply HM. eauto.
      * apply IH; [lia| | |by apply Hr'].
        -- eapply missed_step; [done|done|done|]. right. cbn. eauto.
        -- destruct ft as [f|]; [|done]. destruct Hft as (e & s0 & ? & ? & ? & ?). exists e, s0. split_and!; [lia|done..].
    + apply IH; [lia| | |by apply Hr'].
      * eapply missed_step; eauto.
      * destruct ft as [f|]; [destruct Hft as (e & s0 & ? & ? & ? & ?); exists e, s0; split_and!; [lia|done..]|].
        exists i, s. split_and!; [lia|done..].
Qed.

Lemma eh_insert_spec t M k v :
  eh_repr t M → ∃ t' b, eh_insert hasher t k v = Some (t', b) ∧
    match M !! k with
    | Some _ => b = false ∧ eh_repr t' (<[k := v]> M)
    | None => if b then eh_repr t' (<[k := v]> M) else t' = t ∧ ¬ has_empty t
    end.
Proof.
  intros Hrep. pose proof Hrep as (Ht & HM & _). unfold eh_insert. destruct (Nat.eqb_spec (eh_capacity t) 0) as [H0|Hc].
  - exists t, false. split; [done|]. assert (eh_slots t = []) as En by (apply length_zero_iff_nil; rewrite (eh_len t Ht); done).
    destruct (M !! k) as [v0|] eqn:Ek; [apply HM in Ek as [j Hj]; unfold holds in Hj; by rewrite En in Hj|].
    split; [done|]. intros (j & s & Hj & _). by rewrite En in Hj.
  - apply insert_loop_spec; [done|lia|lia|intros e v' He; lia|done|intros e He; lia].
Qed.

(** *** Erase *)

Lemma tomb_repr t M j k v (k0 : option K) (v0 : option V) :
  eh_repr t M → holds (eh_slots t) j k v →
  eh_repr (put t j (Slot TOMBSTONE k0 v0) (eh_size t - 1)) (delete k M).
Proof.
  intros (Ht & HM & Hsz) Hj. pose proof Ht as []. assert (M !! k = Some v) as Ek by (apply HM; eauto). split; [split; cbn|split].
  - by rewrite length_insert.
  - intros i s0. destruct (decide (i = j)) as [->|Hne].
    + rewrite list_lookup_insert_eq by (by eapply lookup_lt_Some). by intros [= <-].
    + rewrite list_lookup_insert_ne by done. apply eh_full0.
  - intros i k' v' d' Hi Hd' Hdi. apply (reaches_update _ _ _ _ _ _ _ Hj); [done|].
    apply (holds_update _ _ _ _ _ _ _ Hj) in Hi as [(_ & ?)|(_ & Hi)]; [done|]. by eapply eh_chain0.
  - intros i i' k' v1 v2 H1 H2. apply (holds_update _ _ _ _ _ _ _ Hj) in H1 as [(_ & ?)|(_ & H1)]; [done|].
    apply (holds_update _ _ _ _ _ _ _ Hj) in H2 as [(_ & ?)|(_ & H2)]; [done|]. by eapply eh_uniq0.
  - intros k' v'. cbn. setoid_rewrite (holds_update _ _ _ _ _ _ _ Hj). rewrite lookup_delete_Some, HM. split.
    + intros (Hne & i & Hi). exists i. right. split; [|done]. intros ->. unfold holds in Hi, Hj. congruence.
    + intros (i & [(_ & ?)|(Hne & Hi)]); [done|]. split; [|eauto]. intros ->. apply Hne. by eapply eh_uniq0.
  - cbn. rewrite map_size_delete_Some by eauto. lia.
Qed.

Lemma eh_erase_loop_spec t M k i n :
  eh_repr t M → 0 < eh_capacity t → i + n = eh_capacity t → missed t k i →
  ∃ t', eh_erase_loop t k (eh_capacity t) (home t k) i n = Some (t', bool_decide (is_Some (M !! k))) ∧ eh_repr t' (delete k M).
Proof.
  intros Hrep Hc. pose proof Hrep as (Ht & HM & Hsz). revert i. induction n as [|n IH]; intros i Hin Hm; cbn [eh_erase_loop].
  - assert (M !! k = None) as Ek.
    { apply eq_None_not_Some. intros [v0 Hv0]. apply HM in Hv0 as [j Hj]. revert Hj. apply (absent t k i Ht Hc Hm). right. lia. }
    exists t. rewrite Ek, delete_id by done. done.
  - destruct (probe_slot t (home t k) i Ht Hc) as [s Hs]. rewrite Hs. cbn [mbind option_bind]. destruct (sl_state s) eqn:Es.
    + assert (M !! k = None) as Ek.
      { apply eq_None_not_Some. intros [v0 Hv0]. apply HM in Hv0 as [j Hj]. revert Hj. apply (absent t k i Ht Hc Hm). left. eauto. }
      exists t. rewrite Ek, delete_id by done. done.
    + destruct (eh_full t Ht _ _ Hs Es) as (k' & v0 & ->). cbn. destruct (decide (k' = k)) as [->|Hne].
      * assert (M !! k = Some v0) as -> by (apply HM; eauto). eexists. split; [done|]. by eapply tomb_repr.
      * apply IH; [lia|]. eapply missed_step; [done|done|done|]. right. cbn. eauto.
    + apply IH; [lia|]. eapply missed_step; eauto.
Qed.

Lemma eh_erase_spec t M k :
  eh_repr t M → ∃ t', eh_erase hasher t k = Some (t', bool_decide (is_Some (M !! k))) ∧ eh_repr t' (delete k M).
Proof.
  intros Hrep. pose proof Hrep as (Ht & HM & _). unfold eh_erase. destruct (Nat.eqb_spec (eh_capacity t) 0) as [H0|Hc].
  - assert (eh_slots t = []) as En by (apply length_zero_iff_nil; rewrite (eh_len t Ht); done).
    assert (M !! k = None) as Ek.
    { apply eq_None_not_Some. intros [v0 Hv0]. apply HM in Hv0 as [j Hj]. unfold holds in Hj. by rewrite En in Hj. }
    exists t. rewrite Ek, delete_id by done. done.
  - apply eh_erase_loop_spec; [done|lia|lia|]. intros e v' He. lia.
Qed.

Definition eh_fresh (cap : nat) : ehmap K V := EHMap (replicate cap (Slot EMPTY None None)) cap 0.

Lemma eh_fresh_repr cap : eh_repr (eh_fresh cap) ∅.
Proof.
  assert (∀ j k v, ¬ holds (eh_slots (eh_fresh cap)) j k v) as Hn by (intros j k v [? _]%lookup_replicate_1; done).
  split; [split|split]; cbn.
  - apply length_replicate.
  - intros j s [-> _]%lookup_replicate_1 ?. done.
  - intros j k v d Hj. by apply Hn in Hj.
  - intros i j k v v' Hi. by apply Hn in Hi.
  - intros k v. rewrite lookup_empty. split; [done|]. intros [j Hj]. by apply Hn in Hj.
  - by rewrite map_size_empty.
Qed.
End Correct.

(** ** Properties *)

(** C36: the hash map of the explicit interface is a finite map of bounded capacity.  For
    every hash function and on every table reached from an empty one: [find] points to the
    slot holding the key exactly if the map has it; [insert] updates a key that is there
    (and returns false), adds one that is not (and returns true), or, only when no slot has
    remained unused, returns false and changes nothing; [erase] removes the key and says
    whether it was there; [size] counts the keys; no probe leaves the array. *)
Theorem explicit_hashmap_refines {K V} `{!EqDecision K, !Countable K} (hasher : K → Z) (t : ehmap K V) M k v :
  eh_repr hasher t M →
  (∃ p, eh_find hasher t k = Some p ∧
     match p with Some j => ∃ w, holds (eh_slots t) j k w ∧ M !! k = Some w | None => M !! k = None end) ∧
  (∃ t' b, eh_insert hasher t k v = Some (t', b) ∧
     match M !! k with
     | Some _ => b = false ∧ eh_repr hasher t' (<[k := v]> M)
     | None => if b then eh_repr hasher t' (<[k := v]> M) else t' = t ∧ ¬ has_empty t
     end) ∧
  (∃ t', eh_erase hasher t k = Some (t', bool_decide (is_Some (M !! k))) ∧ eh_repr hasher t' (delete k M)) ∧
  eh_size t = size M.
Proof.
  intros Hrep. split_and!; [by apply eh_find_spec|by apply eh_insert_spec|by apply eh_erase_spec|apply Hrep].
Qed.

Lemma explicit_hashmap_refines_witness :
  ∃ t' b, eh_insert id (eh_fresh (K := Z) (V := Z) 4) 7%Z 70%Z = Some (t', b) ∧
    (if b : bool then eh_repr id t' {[7%Z := 70%Z]} else t' = eh_fresh 4 ∧ ¬ has_empty (eh_fresh (K := Z) (V := Z) 4)).
Proof.
  exact (proj1 (proj2 (explicit_hashmap_refines id (eh_fresh 4) ∅ 7%Z 70%Z (eh_fresh_repr id 4)))).
Defined.

(** Erased slots are never given back: once every slot has been used, no key can be added,
    even to an empty map. *)
Theorem explicit_hashmap_tombstones_fill :
  ∃ t1 t2, eh_insert id (eh_fresh (K := Z) (V := Z) 1) 1%Z 10%Z = Some (t1, true) ∧ eh_erase id t1 1%Z = Some (t2, true) ∧
    eh_size t2 = 0 ∧ eh_insert id t2 2%Z 20%Z = Some (t2, false).
Proof. eexists _, _. split_and!; [reflexivity|reflexivity|reflexivity|reflexivity]. Qed.
