(* ===== verification/SortedList.v ===== *)
(** * Sorted linked list of the explicit interface (explicit_sorted_list.hpp)

    A singly linked list without duplicates over a store of nodes; every access goes through
    [MemoryAccess<UseTM>], so that inside a transaction the operation runs in isolation.
    The traversal loops carry a fuel; the theorems show that one more than the number of
    nodes is always enough.  An access to an address without a node is a failure ([None]). *)

From stdpp Require Import sorting.
From S2P Require Import Prelude.

Section Ops.
Context {T : Type} `{!EqDecision T} (ltb : T → T → bool).

Record lnode := LNode { ln_data : T; ln_next : Z }.
Record slist := SList { sl_head : Z; sl_nodes : gmap Z lnode }.

Definition set_next (s : slist) (a n : Z) : option slist :=
  x ← sl_nodes s !! a; Some (SList (sl_head s) (<[a := LNode (ln_data x) n]> (sl_nodes s))).

(** Where the loop of [insert] stops: at a duplicate, or before the node [curr]. *)
Inductive insert_pos := Duplicate | Between (prev : Z).

Fixpoint sl_insert_loop (fuel : nat) (s : slist) (node prev curr : Z) : option insert_pos :=
  match fuel with
  | O => None
  | S fuel' =>
      if decide (curr = 0%Z) then Some (Between prev)
      else
        n ← sl_nodes s !! node;
        c ← sl_nodes s !! curr;
        if decide (ln_data n = ln_data c) then Some Duplicate
        else if ltb (ln_data n) (ln_data c) then Some (Between prev)
        else sl_insert_loop fuel' s node curr (ln_next c)
  end.

Definition sl_insert (fuel : nat) (s : slist) (node : Z) : option (slist * bool) :=
  pos ← sl_insert_loop fuel s node 0 (sl_head s);
  match pos with
  | Duplicate => Some (s, false)
  | Between prev =>
      if decide (prev = 0%Z) then
        s1 ← set_next s node (sl_head s);
        Some (SList node (sl_nodes s1), true)
      else
        p ← sl_nodes s !! prev;
        s1 ← set_next s node (ln_next p);
        s2 ← set_next s1 prev node;
        Some (s2, true)
  end.

Fixpoint sl_remove_loop (fuel : nat) (s : slist) (data : T) (prev curr : Z) : option (slist * bool) :=
  match fuel with
  | O => None
  | S fuel' =>
      if decide (curr = 0%Z) then Some (s, false)
      else
        c ← sl_nodes s !! curr;
        if decide (ln_data c = data) then
          if decide (prev = 0%Z) then Some (SList (ln_next c) (sl_nodes s), true)
          else s1 ← set_next s prev (ln_next c); Some (s1, true)
        else sl_remove_loop fuel' s data curr (ln_next c)
  end.

Definition sl_remove (fuel : nat) (s : slist) (data : T) : option (slist * bool) :=
  sl_remove_loop fuel s data 0 (sl_head s).

Fixpoint sl_contains_loop (fuel : nat) (s : slist) (data : T) (curr : Z) : option bool :=
  match fuel with
  | O => None
  | S fuel' =>
      if decide (curr = 0%Z) then Some false
      else
        c ← sl_nodes s !! curr;
        if decide (ln_data c = data) then Some true else sl_contains_loop fuel' s data (ln_next c)
  end.

Definition sl_contains (fuel : nat) (s : slist) (data : T) : option bool := sl_contains_loop fuel s data (sl_head s).
End Ops.

Arguments lnode : clear implicits.
Arguments slist : clear implicits.
Arguments LNode {T}.
Arguments SList {T}.

Section Correct.
Context {T : Type} `{!EqDecision T} (ltb : T → T → bool) `{!StrictTotalOrder ltb}.
Implicit Types (nodes : gmap Z (lnode T)) (l : list (Z * T)) (s : slist T).

(** The nodes of [l] chained from [p] to [q]. *)
Fixpoint lseg nodes (p : Z) l (q : Z) : Prop :=
  match l with
  | [] => p = q
  | (a, d) :: l' => p = a ∧ a ≠ 0%Z ∧ ∃ n, nodes !! a = Some (LNode d n) ∧ lseg nodes n l' q
  end.

Definition dlt (x y : Z * T) : Prop := ltb x.2 y.2 = true.

(** The list [l] of nodes in order of their data. *)
Definition sl_repr s l : Prop := lseg (sl_nodes s) (sl_head s) l 0 ∧ StronglySorted dlt l.

(** The node before position [l1], 0 at the head. *)
Definition prev_of l1 : Z := match last l1 with Some x => x.1 | None => 0%Z end.

Lemma lseg_app nodes p l1 l2 q : lseg nodes p (l1 ++ l2) q ↔ ∃ m, lseg nodes p l1 m ∧ lseg nodes m l2 q.
Proof.
  revert p. induction l1 as [|[a d] l1 IH]; intros p; cbn; [naive_solver|]. split.
  - intros (-> & Ha & n & Hn & (m & Hm & H2)%IH). eauto 10.
  - intros (m & (-> & Ha & n & Hn & H1) & H2). split_and!; [done|done|]. exists n. split; [done|]. apply IH. eauto.
Qed.

Lemma lseg_frame nodes p l q a x : a ∉ l.*1 → lseg nodes p l q → lseg (<[a := x]> nodes) p l q.
Proof.
  revert p. induction l as [|[b d] l IH]; intros p; cbn; [done|]. intros Ha (-> & Hb & n & Hn & Hl).
  apply not_elem_of_cons in Ha as [Hne Ha]. split_and!; [done|done|]. exists n. rewrite lookup_insert_ne by done. eauto.
Qed.

Lemma dlt_ne x y : dlt x y → x.2 ≠ y.2.
Proof. unfold dlt. intros H E. rewrite E, swo_irrefl in H. done. Qed.

Lemma lseg_lookup nodes p l q a d : lseg nodes p l q → (a, d) ∈ l → ∃ n, nodes !! a = Some (LNode d n).
Proof.
  revert p. induction l as [|[b e] l IH]; intros p; cbn; [by intros _ ?%elem_of_nil|]. intros (-> & Hb & n & Hn & Hl).
  rewrite elem_of_cons. intros [[= -> ->]|Hin]; [eauto|]. by eapply IH.
Qed.

(** The addresses of a sorted list are distinct: equal ones would hold equal data. *)
Lemma sorted_addrs nodes p l q : lseg nodes p l q → StronglySorted dlt l → NoDup l.*1.
Proof.
  revert p. induction l as [|[a d] l IH]; intros p; cbn; [intros; apply NoDup_nil_2|].
  intros (-> & Ha & n & Hn & Hl) Hs. inversion Hs as [|? ? Hs' Hf]; subst. apply NoDup_cons. split; [|by eapply IH].
  intros Hin. apply list_elem_of_fmap in Hin as ([b e] & -> & Hin). rewrite Forall_forall in Hf.
  destruct (lseg_lookup _ _ _ _ _ _ Hl Hin) as [n' Hn']. cbn in *. rewrite Hn in Hn'. injection Hn' as -> _. by apply (dlt_ne _ _ (Hf _ Hin)).
Qed.

(** *** Insertion *)

Lemma insert_loop_stops s l1 l2 node d n curr fuel :
  sl_nodes s !! node = Some (LNode d n) → lseg (sl_nodes s) curr l2 0 → length l2 < fuel →
  StronglySorted dlt l2 →
  (d ∈ l2.*2 ∧ sl_insert_loop ltb fuel s node (prev_of l1) curr = Some Duplicate) ∨
  (∃ k1 k2, l2 = k1 ++ k2 ∧ Forall (λ x, ltb x.2 d = true) k1 ∧ Forall (λ x, ltb d x.2 = true) k2 ∧
     sl_insert_loop ltb fuel s node (prev_of l1) curr = Some (Between (prev_of (l1 ++ k1)))).
Proof.
  intros Hnode. revert l1 curr fuel. induction l2 as [|[a e] l2 IH]; intros l1 curr [|fuel] Hseg Hf Hs; cbn in Hf; [lia| |lia|].
  - cbn in Hseg. subst. right. exists [], []. split_and!; [done|apply Forall_nil_2|apply Forall_nil_2|]. by rewrite app_nil_r.
  - cbn in Hseg. destruct Hseg as (-> & Ha & m & Hm & Hl). inversion Hs as [|? ? Hs' Hf']; subst.
    cbn [sl_insert_loop]. rewrite decide_False by done. rewrite Hnode, Hm. cbn.
    destruct (decide (d = e)) as [->|Hne]; [left; split; [cbn; apply elem_of_cons; by left|done]|]. destruct (ltb d e) eqn:Ed.
    + right. exists [], ((a, e) :: l2). rewrite app_nil_r. split_and!; [done|apply Forall_nil_2| |done]. constructor; [done|].
      eapply Forall_impl; [exact Hf'|]. intros x Hx. eapply swo_trans; [exact Ed|exact Hx].
    + assert (ltb e d = true) as Eed. { destruct (ltb e d) eqn:E; [done|]. exfalso. apply Hne. by apply sto_total. }
      destruct (IH (l1 ++ [(a, e)]) m fuel Hl ltac:(lia) Hs') as [(Hin & E)|(k1 & k2 & -> & H1 & H2 & E)].
      * left. split; [by right|]. unfold prev_of in E. by rewrite last_snoc in E.
      * right. exists ((a, e) :: k1), k2. split_and!; [done|by constructor|done|].
        unfold prev_of in E at 1. rewrite last_snoc in E. cbn in E. rewrite E, <- app_assoc. done.
Qed.

(** Linking a node that is not in the list between [k1] and [k2]. *)
Lemma link_node s k1 k2 node d n :
  sl_nodes s !! node = Some (LNode d n) → node ≠ 0%Z → node ∉ (k1 ++ k2).*1 → NoDup (k1 ++ k2).*1 →
  lseg (sl_nodes s) (sl_head s) (k1 ++ k2) 0 →
  ∃ s', (if decide (prev_of k1 = 0%Z) then
           s1 ← set_next s node (sl_head s); Some (SList node (sl_nodes s1), true)
         else
           p ← sl_nodes s !! prev_of k1; s1 ← set_next s node (ln_next p); s2 ← set_next s1 (prev_of k1) node; Some (s2, true))
        = Some (s', true) ∧ lseg (sl_nodes s') (sl_head s') (k1 ++ (node, d) :: k2) 0 ∧
    (∀ a, a ≠ node → a ∉ k1.*1 → sl_nodes s' !! a = sl_nodes s !! a).
Proof.
  intros Hnode Hn0 Hni Hnd Hseg. destruct k1 as [|[a e] k0 _] using rev_ind.
  - cbn. unfold set_next. rewrite Hnode. cbn. eexists. split; [done|]. cbn. split.
    + split_and!; [done|done|]. exists (sl_head s). rewrite lookup_insert_eq. split; [done|]. by apply lseg_frame.
    + intros a Ha _. by rewrite lookup_insert_ne.
  - unfold prev_of. rewrite last_snoc. cbn [fst]. rewrite <- app_assoc in Hseg. cbn [app] in Hseg.
    apply lseg_app in Hseg as (m & H1 & (-> & Ha & q & Hq & H2)).
    rewrite <- app_assoc, fmap_app in Hni, Hnd. cbn in Hni, Hnd.
    apply not_elem_of_app in Hni as [Hni1 Hni2]. apply not_elem_of_cons in Hni2 as [Hna Hni2].
    apply NoDup_app in Hnd as (_ & Hd1 & Hd2). apply NoDup_cons in Hd2 as [Had2 _].
    assert (a ∉ k0.*1) as Had1 by (intros Hin; apply (Hd1 a Hin); left).
    rewrite decide_False by done. rewrite Hq. cbn. unfold set_next. rewrite Hnode. cbn.
    rewrite lookup_insert_ne by done. rewrite Hq. cbn. eexists. split; [done|]. cbn. split.
    + rewrite <- app_assoc. apply lseg_app. exists a. split; [by do 2 (apply lseg_frame; [done|])|]. cbn. split_and!; [done|done|].
      exists node. rewrite lookup_insert_eq. split; [done|]. split_and!; [done|done|]. exists q.
      rewrite lookup_insert_ne, lookup_insert_eq by done. split; [done|]. by do 2 (apply lseg_frame; [done|]).
    + intros b Hb Hbk. rewrite fmap_app in Hbk. apply not_elem_of_app in Hbk as [_ Hba]. cbn in Hba. apply not_elem_of_cons in Hba as [Hba _].
      by rewrite !lookup_insert_ne by done.
Qed.

Lemma sorted_insert_mid k1 k2 node d :
  StronglySorted dlt (k1 ++ k2) → Forall (λ x, ltb x.2 d = true) k1 → Forall (λ x, ltb d x.2 = true) k2 →
  StronglySorted dlt (k1 ++ (node, d) :: k2).
Proof.
  rewrite !StronglySorted_app. intros (Hx & H1 & H2) F1 F2. rewrite !Forall_forall in *. split_and!; [|done|].
  - intros x y Hin Hy. apply elem_of_cons in Hy as [->|Hy]; [by apply F1|by apply Hx].
  - constructor; [done|]. by apply Forall_forall.
Qed.

Lemma sl_insert_spec s l node d n fuel :
  sl_repr s l → sl_nodes s !! node = Some (LNode d n) → node ≠ 0%Z → length l < fuel →
  ∃ s' l', sl_insert ltb fuel s node = Some (s', bool_decide (d ∉ l.*2)) ∧ sl_repr s' l' ∧
    (if decide (d ∈ l.*2) then s' = s ∧ l' = l
     else ∃ k1 k2, l = k1 ++ k2 ∧ l' = k1 ++ (node, d) :: k2) ∧
    (∀ a, a ≠ node → a ∉ l.*1 → sl_nodes s' !! a = sl_nodes s !! a).
Proof.
  intros [Hseg Hs] Hnode Hn0 Hf. unfold sl_insert.
  destruct (insert_loop_stops s [] l node d n (sl_head s) fuel Hnode Hseg Hf Hs) as [(Hin & E)|(k1 & k2 & -> & F1 & F2 & E)].
  - change (prev_of []) with 0%Z in E. rewrite E. cbn [mbind option_bind]. rewrite bool_decide_false by (intros H; by apply H).
    exists s, l. rewrite decide_True by done. split_and!; done.
  - change (prev_of []) with 0%Z in E. rewrite E. cbn [app mbind option_bind].
    assert (d ∉ (k1 ++ k2).*2) as Hni.
    { intros Hin. apply list_elem_of_fmap in Hin as (x & -> & Hx). rewrite !Forall_forall in *.
      apply elem_of_app in Hx as [Hx|Hx]; [specialize (F1 x Hx)|specialize (F2 x Hx)]; cbn in *; by rewrite swo_irrefl in *. }
    assert (node ∉ (k1 ++ k2).*1) as Hna.
    { intros Hin. apply list_elem_of_fmap in Hin as ([b e] & -> & Hx). apply Hni. apply list_elem_of_fmap. exists (b, e). split; [|done].
      destruct (lseg_lookup _ _ _ _ _ _ Hseg Hx) as [n' Hn']. cbn in *. congruence. }
    destruct (link_node s k1 k2 node d n Hnode Hn0 Hna (sorted_addrs _ _ _ _ Hseg Hs) Hseg) as (s' & -> & Hseg' & Hfr).
    exists s', (k1 ++ (node, d) :: k2). rewrite bool_decide_true, decide_False by done. split_and!; [done| |eauto|].
    + split; [done|]. by apply sorted_insert_mid.
    + intros a Ha Hal. apply Hfr; [done|]. rewrite fmap_app in Hal. by apply not_elem_of_app in Hal as [? _].
Qed.

(** *** Removal and membership *)

Lemma remove_loop_spec s k1 k2 data fuel curr :
  lseg (sl_nodes s) (sl_head s) k1 curr → lseg (sl_nodes s) curr k2 0 → NoDup (k1 ++ k2).*1 → length k2 < fuel →
  ∃ s', sl_remove_loop fuel s data (prev_of k1) curr = Some (s', bool_decide (data ∈ k2.*2)) ∧
    (if decide (data ∈ k2.*2) then
       ∃ j1 a j2, k2 = j1 ++ (a, data) :: j2 ∧ (data ∉ j1.*2) ∧ lseg (sl_nodes s') (sl_head s') (k1 ++ j1 ++ j2) 0
     else s' = s) ∧
    (∀ b, b ∉ (k1 ++ k2).*1 → sl_nodes s' !! b = sl_nodes s !! b).
Proof.
  revert k1 curr fuel. induction k2 as [|[a e] k2 IH]; intros k1 curr [|fuel] H1 H2 Hnd Hf; cbn in Hf; [lia| |lia|].
  - cbn in H2. subst. exists s. done.
  - cbn in H2. destruct H2 as (-> & Ha & m & Hm & H2). cbn [sl_remove_loop]. rewrite decide_False by done. rewrite Hm. cbn.
    destruct (decide (e = data)) as [->|Hne].
    + assert (data ∈ data :: k2.*2) as Hin by (apply elem_of_cons; by left). rewrite bool_decide_true by done.
      destruct (decide (data ∈ data :: k2.*2)) as [_|?]; [|done]. destruct k1 as [|[p d] k0 _] using rev_ind.
      * cbn. eexists. split; [done|]. split; [|done]. exists [], a, k2. split_and!; [done|by apply not_elem_of_nil|]. done.
      * unfold prev_of. rewrite last_snoc. cbn [fst]. apply lseg_app in H1 as (q & H0 & (-> & Hp & n & Hn & Heq)). cbn in Heq. subst n.
        rewrite <- app_assoc, fmap_app in Hnd. cbn in Hnd. apply NoDup_app in Hnd as (_ & Hd1 & Hd2).
        apply NoDup_cons in Hd2 as [Hpd Hd2]. apply not_elem_of_cons in Hpd as [Hpa Hp2].
        rewrite decide_False by done. unfold set_next. rewrite Hn. cbn. eexists. split; [done|]. cbn. split.
        -- exists [], a, k2. split_and!; [done|by apply not_elem_of_nil|]. cbn. rewrite <- app_assoc. apply lseg_app. exists p. split.
           ++ apply lseg_frame; [intros Hp0; apply (Hd1 p Hp0); left|done].
           ++ cbn. split_and!; [done|done|]. exists m. rewrite lookup_insert_eq. split; [done|]. by apply lseg_frame.
        -- intros b Hb. rewrite lookup_insert_ne; [done|]. intros <-. apply Hb. rewrite !fmap_app. apply elem_of_app. left. apply elem_of_app. right. left.
    + destruct (IH (k1 ++ [(a, e)]) m fuel) as (s' & E & Hc & Hfr); [|done| |lia|].
      * apply lseg_app. exists a. split; [done|]. cbn. eauto.
      * by rewrite <- app_assoc.
      * unfold prev_of in E. rewrite last_snoc in E. cbn in E. rewrite <- app_assoc in Hfr. exists s'. rewrite E. split; [|split; [|done]].
        -- do 2 f_equal. apply bool_decide_ext. rewrite elem_of_cons. naive_solver.
        -- destruct (decide (data ∈ k2.*2)) as [Hin|Hin].
           ++ rewrite decide_True by (by right). destruct Hc as (j1 & b & j2 & -> & Hj & Hl). exists ((a, e) :: j1), b, j2.
              rewrite <- app_assoc in Hl. split_and!; [done|by apply not_elem_of_cons|done].
           ++ rewrite decide_False; [done|]. by apply not_elem_of_cons.
Qed.

Lemma sl_remove_spec s l data fuel :
  sl_repr s l → length l < fuel →
  ∃ s' l', sl_remove fuel s data = Some (s', bool_decide (data ∈ l.*2)) ∧ sl_repr s' l' ∧
    (if decide (data ∈ l.*2) then ∃ j1 a j2, l = j1 ++ (a, data) :: j2 ∧ l' = j1 ++ j2 else s' = s ∧ l' = l) ∧
    (∀ b, b ∉ l.*1 → sl_nodes s' !! b = sl_nodes s !! b).
Proof.
  intros [Hseg Hs] Hf.
  destruct (remove_loop_spec s [] l data fuel (sl_head s)) as (s' & E & Hc & Hfr); [done|done|by eapply sorted_addrs|done|].
  change (prev_of []) with 0%Z in E. unfold sl_remove. rewrite E. destruct (decide (data ∈ l.*2)) as [Hin|Hin].
  - destruct Hc as (j1 & a & j2 & -> & Hj & Hl). exists s', (j1 ++ j2). split_and!; [done| |eauto|done]. split; [done|].
    rewrite StronglySorted_app in Hs |- *. destruct Hs as (Hx & H1 & H2). inversion H2; subst. split_and!; [|done|done].
    intros x y Hx1 Hy. apply Hx; [done|]. by right.
  - subst s'. exists s, l. split_and!; [done|by split|done|done|done].
Qed.

Lemma contains_loop_spec s l data fuel curr :
  lseg (sl_nodes s) curr l 0 → length l < fuel → sl_contains_loop fuel s data curr = Some (bool_decide (data ∈ l.*2)).
Proof.
  revert curr fuel. induction l as [|[a e] l IH]; intros curr [|fuel] Hseg Hf; cbn in Hf; [lia| |lia|].
  - cbn in Hseg. by subst.
  - cbn in Hseg. destruct Hseg as (-> & Ha & m & Hm & Hl). cbn [sl_contains_loop]. rewrite decide_False by done. rewrite Hm. cbn.
    destruct (decide (e = data)) as [->|Hne]; [by rewrite bool_decide_true by left|].
    rewrite (IH m fuel Hl) by lia. f_equal. apply bool_decide_ext. rewrite elem_of_cons. naive_solver.
Qed.
End Correct.

(** ** Properties *)

(** C37: the sorted list is a set.  On a list whose nodes hold strictly increasing data, with
    one more step of fuel than it has nodes: [insert] of a node links it at its place and
    returns true if its data is not there, and otherwise returns false and changes nothing;
    [remove] unlinks the node that holds the data and says whether there was one; [contains]
    is membership.  The list stays strictly increasing, and no node outside the list and the
    one inserted is written. *)
Theorem sorted_list_refines {T} `{!EqDecision T} (ltb : T → T → bool) `{!StrictTotalOrder ltb} (s : slist T) l node d n data fuel :
  sl_repr ltb s l → sl_nodes s !! node = Some (LNode d n) → node ≠ 0%Z → length l < fuel →
  (∃ s' l', sl_insert ltb fuel s node = Some (s', bool_decide (d ∉ l.*2)) ∧ sl_repr ltb s' l' ∧
     (if decide (d ∈ l.*2) then s' = s ∧ l' = l else ∃ k1 k2, l = k1 ++ k2 ∧ l' = k1 ++ (node, d) :: k2) ∧
     (∀ a, a ≠ node → a ∉ l.*1 → sl_nodes s' !! a = sl_nodes s !! a)) ∧
  (∃ s' l', sl_remove fuel s data = Some (s', bool_decide (data ∈ l.*2)) ∧ sl_repr ltb s' l' ∧
     (if decide (data ∈ l.*2) then ∃ j1 a j2, l = j1 ++ (a, data) :: j2 ∧ l' = j1 ++ j2 else s' = s ∧ l' = l) ∧
     (∀ b, b ∉ l.*1 → sl_nodes s' !! b = sl_nodes s !! b)) ∧
  sl_contains fuel s data = Some (bool_decide (data ∈ l.*2)).
Proof.
  intros Hrep Hnode Hn0 Hf. split_and!.
  - by eapply sl_insert_spec.
  - by apply sl_remove_spec.
  - apply contains_loop_spec; [apply Hrep|done].
Qed.

Lemma sorted_list_refines_witness :
  sl_contains 3 (SList 8%Z {[8%Z := LNode 1%Z 16%Z; 16%Z := LNode 5%Z 0%Z; 24%Z := LNode 3%Z 0%Z]}) 5%Z = Some true.
Proof.
  refine (proj2 (proj2 (sorted_list_refines Z.ltb _ [(8%Z, 1%Z); (16%Z, 5%Z)] 24%Z 3%Z 0%Z 5%Z 3 _ _ _ _))).
  - split; cbn.
    + split_and!; [done|done|]. exists 16%Z. split; [done|]. split_and!; [done|done|]. exists 0%Z. split; done.
    + repeat constructor.
  - done.
  - done.
  - cbn. lia.
Defined.
