(* ===== verification/AddrSet.v ===== *)
(** * Write sets keyed by address (romulus.hpp, leftright.hpp)

    Romulus and Left-right keep a transaction's writes in an [unordered_map] from the
    exact address of a write to its type and value; the iteration order of the map is not
    specified.  This file has that structure, what it denotes byte by byte, and the
    relation [aw_log] between the log of a transaction and its write set.  The map is
    transparent for logs in which a write repeats an earlier address at the same width or
    is disjoint from the earlier writes, and a read is disjoint from them or starts where
    one of them does and is no wider: [keyed]. *)

From stdpp Require Import sorting.
From S2P Require Import Prelude Memory Values TMSpec LogMerge TxLog.
#[local] Open Scope Z_scope.

Record WriteEntry := WEntry { aw_type : ValueType; aw_addr : Z; aw_new : any_type_t }.

Abbreviation awset := (gmap Z WriteEntry).

(** [write_set[addr] = entry]. *)
Definition aw_put (ws : awset) (addr : Z) (val : any_type_t) (sz : ValueType) : awset := <[addr := WEntry sz addr val]> ws.

(** The addresses of the write set, sorted. *)
Definition aw_sorted (ws : awset) : list Z := merge_sort Z.le (map_to_list ws).*1.

(** The byte stores of writing back the entries of the given addresses in order. *)
Definition aw_entry_stores (ws : awset) (addr : Z) : list (Z * Z) :=
  match ws !! addr with Some w => value_stores addr (aw_new w) (aw_type w) | None => [] end.
Definition aw_stores (ws : awset) (addrs : list Z) : list (Z * Z) := concat (aw_entry_stores ws <$> addrs).

(** ** What the write set denotes *)

Implicit Types (ws : awset) (e : WriteEntry) (sz : ValueType).

Definition aw_separate ws : Prop :=
  ∀ a1 e1 a2 e2, ws !! a1 = Some e1 → ws !! a2 = Some e2 → a1 ≠ a2 → apart a1 (aw_type e1) a2 (aw_type e2) = true.

Lemma aw_sorted_elem ws a : a ∈ aw_sorted ws ↔ is_Some (ws !! a).
Proof.
  unfold aw_sorted. rewrite merge_sort_Permutation, list_elem_of_fmap. split.
  - intros ([a' e] & -> & Hin%elem_of_map_to_list). by exists e.
  - intros [e He]. exists (a, e). split; [done|by apply elem_of_map_to_list].
Qed.

Lemma aw_stores_addr ws addrs x : x ∈ (aw_stores ws addrs).*1 ↔ ∃ a e, a ∈ addrs ∧ ws !! a = Some e ∧ in_acc a (aw_type e) x.
Proof.
  unfold aw_stores. induction addrs as [|b addrs IH]; cbn [fmap list_fmap concat]; [set_solver|]. rewrite fmap_app, elem_of_app, IH. unfold aw_entry_stores at 1. split.
  - intros [Hx|(a & e & ? & ? & ?)]; [|exists a, e; split_and!; [by right|done..]]. destruct (ws !! b) as [e|] eqn:He; [|by apply elem_of_nil in Hx].
    apply value_stores_range in Hx. exists b, e. split_and!; [left|done|done].
  - intros (a & e & [->|Ha]%elem_of_cons & He & Hx); [left; rewrite He; by apply value_stores_range|right; eauto].
Qed.

Lemma elem_of_concat {A} (x : A) ls : x ∈ concat ls ↔ ∃ l, l ∈ ls ∧ x ∈ l.
Proof. rewrite list_elem_of_In, in_concat. by setoid_rewrite list_elem_of_In. Qed.

Lemma aw_stores_bytes ws addrs : Forall (λ ab, is_byte ab.2) (aw_stores ws addrs).
Proof.
  apply Forall_forall. intros ab (l & (a & -> & _)%list_elem_of_fmap & Hin)%elem_of_concat. unfold aw_entry_stores in Hin.
  destruct (ws !! a) as [w|]; [|by apply elem_of_nil in Hin]. pose proof (value_stores_bytes a (aw_new w) (aw_type w)) as Hb. rewrite Forall_forall in Hb. by apply Hb.
Qed.

Lemma aw_stores_in ws addrs m a e x :
  aw_separate ws → a ∈ addrs → ws !! a = Some e → in_acc a (aw_type e) x → mget (wr m (aw_stores ws addrs)) x = byte_at (u8 (aw_new e)) (x - a).
Proof.
  intros Hs Ha He Hx. revert m. induction addrs as [|b addrs IH]; intros m; [by apply elem_of_nil in Ha|]. unfold aw_stores. cbn [fmap list_fmap concat]. rewrite wr_app.
  destruct (decide (a ∈ addrs)) as [Hin|Hn]; [by apply IH|]. apply elem_of_cons in Ha as [<-|?]; [|done]. fold (aw_stores ws addrs). unfold mget at 1. rewrite wr_lookup_ne.
  - unfold aw_entry_stores. rewrite He. change (mget (write_value_to_addr m a (aw_new e) (aw_type e)) x = byte_at (u8 (aw_new e)) (x - a)).
    rewrite write_value_mget. by rewrite decide_True.
  - intros (c & f & Hc & Hf & Hx')%aw_stores_addr. assert (a ≠ c) as Hne by congruence. pose proof (Hs a e c f He Hf Hne) as Hap. rewrite apart_spec in Hap. by apply (Hap x).
Qed.

Lemma aw_stores_out ws addrs m x : (∀ a e, ws !! a = Some e → ¬ in_acc a (aw_type e) x) → mget (wr m (aw_stores ws addrs)) x = mget m x.
Proof. intros H. unfold mget. rewrite wr_lookup_ne; [done|]. intros (a & e & _ & He & Hx)%aw_stores_addr. by apply (H a e). Qed.

(** The memory [m'] is [m] with the write set written over it. *)
Definition aw_over ws (m m' : mem) : Prop :=
  (∀ a e x, ws !! a = Some e → in_acc a (aw_type e) x → mget m' x = byte_at (u8 (aw_new e)) (x - a)) ∧
  (∀ x, (∀ a e, ws !! a = Some e → ¬ in_acc a (aw_type e) x) → mget m' x = mget m x).

Lemma aw_covered_dec ws x : (∃ a e, ws !! a = Some e ∧ in_acc a (aw_type e) x) ∨ (∀ a e, ws !! a = Some e → ¬ in_acc a (aw_type e) x).
Proof.
  destruct (decide (map_Exists (λ a e, a ≤ x ∧ x < a + nbytes_of (aw_type e)) ws)) as [(a & e & He & ?)|Hn]; [left|right].
  - exists a, e. split; [done|]. unfold in_acc. lia.
  - intros a e He Hx. apply Hn. exists a, e. split; [done|]. unfold in_acc in Hx. lia.
Qed.

(** Any order of the addresses gives that memory. *)
Lemma aw_over_stores ws addrs m m' x :
  aw_separate ws → (∀ a, a ∈ addrs ↔ is_Some (ws !! a)) → aw_over ws m m' → mget m' x = mget (wr m (aw_stores ws addrs)) x.
Proof.
  intros Hs Ha [Hin Hout]. destruct (aw_covered_dec ws x) as [(a & e & He & Hx)|Hn].
  - rewrite (Hin a e x He Hx). symmetry. apply aw_stores_in; [done|apply Ha; eauto|done|done].
  - rewrite (Hout x Hn). symmetry. by apply aw_stores_out.
Qed.

(** ** Logs the write set represents *)

Definition key_write_fits (acc : list (Z * ValueType)) (a : Z) sz : bool :=
  forallb (λ w, ((w.1 =? a) && (type_size sz =? type_size w.2)%nat) || apart a sz w.1 w.2) acc.
Definition key_read_fits (acc : list (Z * ValueType)) (a : Z) sz : bool :=
  forallb (λ w, apart a sz w.1 w.2) acc || existsb (λ w, (w.1 =? a) && (type_size sz <=? type_size w.2)%nat) acc.
Definition keyed (evs : list event) : bool := obeys key_write_fits key_read_fits [] evs.

Definition key_compatible (w1 w2 : Z * ValueType) : Prop :=
  (w1.1 = w2.1 ∧ type_size w1.2 = type_size w2.2) ∨ apart w1.1 w1.2 w2.1 w2.2 = true.

Lemma key_write_spec acc a sz : key_write_fits acc a sz = true ↔ ∀ w, w ∈ acc → key_compatible (a, sz) w.
Proof.
  assert (Hw : ∀ w, ((w.1 =? a) && (type_size sz =? type_size w.2)%nat || apart a sz w.1 w.2) = true ↔ key_compatible (a, sz) w).
  { intros w. unfold key_compatible. rewrite orb_true_iff, andb_true_iff, Z.eqb_eq, Nat.eqb_eq. cbn [fst snd]. naive_solver. }
  unfold key_write_fits. rewrite forallb_forall. setoid_rewrite <- list_elem_of_In. by setoid_rewrite Hw.
Qed.

Lemma key_read_spec acc a sz :
  key_read_fits acc a sz = true ↔ (∀ w, w ∈ acc → apart a sz w.1 w.2 = true) ∨ (∃ s, (a, s) ∈ acc ∧ (type_size sz ≤ type_size s)%nat).
Proof.
  unfold key_read_fits. rewrite orb_true_iff, forallb_forall, existsb_exists. setoid_rewrite <- list_elem_of_In.
  setoid_rewrite andb_true_iff. setoid_rewrite Z.eqb_eq. setoid_rewrite Nat.leb_le. split; (intros [?|Hx]; [by left|right]).
  - destruct Hx as ([b s] & ? & <- & ?). by exists s.
  - destruct Hx as (s & ? & ?). by exists (a, s).
Qed.

Lemma keyed_compatible evs : keyed evs = true → ∀ w1 w2, w1 ∈ wlog [] evs → w2 ∈ wlog [] evs → key_compatible w1 w2.
Proof.
  intros Hk. apply (obeys_pairwise key_write_fits key_read_fits key_compatible); [|by left|done|by intros ? ? ?%elem_of_nil].
  intros acc a sz w Hf Hw. rewrite key_write_spec in Hf. specialize (Hf w Hw). split; [done|]. destruct Hf as [[? ?]|?]; [by left|right]. by rewrite apart_sym.
Qed.

Lemma apart_not_self a s1 s2 : apart a s1 a s2 = false.
Proof. unfold apart, nbytes_of. pose proof (type_size_range s1). pose proof (type_size_range s2). zcmp; simpl; try lia; done. Qed.

Lemma apart_size a1 s1 a2 s2 s1' s2' : type_size s1 = type_size s1' → type_size s2 = type_size s2' → apart a1 s1 a2 s2 = apart a1 s1' a2 s2'.
Proof. unfold apart, nbytes_of. by intros -> ->. Qed.

Lemma in_acc_size a s s' x : type_size s = type_size s' → in_acc a s x ↔ in_acc a s' x.
Proof. unfold in_acc, nbytes_of. by intros ->. Qed.

(** The log and the write set of a transaction that took the bytes [ext] from memory. *)
Record aw_log (ext : list (Z * Z)) ws (evs : list event) : Prop := AwLog {
  al_ok : ∀ a e, ws !! a = Some e → access_ok a (aw_type e) = true;
  al_in : ∀ a e, ws !! a = Some e → (a, aw_type e) ∈ wlog [] evs;
  al_of : ∀ a s, (a, s) ∈ wlog [] evs → is_Some (ws !! a);
  al_replay : keyed evs = true → ∀ m, holds m ext → ∃ m', replay m evs = Some m' ∧ aw_over ws m m';
}.

Lemma aw_log_size ext ws evs a e s :
  aw_log ext ws evs → keyed evs = true → ws !! a = Some e → (a, s) ∈ wlog [] evs → type_size s = type_size (aw_type e).
Proof.
  intros L Hk He Hs. destruct (keyed_compatible evs Hk (a, s) (a, aw_type e) Hs (al_in _ _ _ L _ _ He)) as [[_ ?]|Hap]; [done|].
  by rewrite apart_not_self in Hap.
Qed.

Lemma aw_log_separate ext ws evs : aw_log ext ws evs → keyed evs = true → aw_separate ws.
Proof.
  intros L Hk a1 e1 a2 e2 H1 H2 Hne. destruct (keyed_compatible evs Hk _ _ (al_in _ _ _ L _ _ H1) (al_in _ _ _ L _ _ H2)) as [[? _]|?]; done.
Qed.

Lemma aw_log_mono ext ext' ws evs : (∀ ab, ab ∈ ext → ab ∈ ext') → aw_log ext ws evs → aw_log ext' ws evs.
Proof. intros Hs [H1 H2 H3 H4]. split; try done. intros Hk m Hm. apply H4; [done|]. intros a b Hin. by apply Hm, Hs. Qed.

Lemma aw_log_nil ext : aw_log ext ∅ [].
Proof.
  split; try (by intros *; rewrite lookup_empty).
  - by intros a s ?%elem_of_nil.
  - intros _ m _. exists m. split; [done|]. split; [by intros *; rewrite lookup_empty|done].
Qed.

Lemma aw_log_read ext ws evs a sz v :
  aw_log ext ws evs →
  (keyed evs = true → key_read_fits (wlog [] evs) a sz = true → ∀ m m', holds m ext → aw_over ws m m' →
     return_any_type sz (read_value_from_addr m' a sz) = v) →
  aw_log ext ws (evs ++ [EvR a sz v]).
Proof.
  intros [H1 H2 H3 H4] Hr. assert (Hw : wlog [] (evs ++ [EvR a sz v]) = wlog [] evs) by (by rewrite wlog_app). split; rewrite ?Hw; try done.
  intros [Hk Hf]%obeys_snoc m Hm. destruct (H4 Hk m Hm) as (m' & Hm' & Hx). exists m'. split; [|done]. apply replay_snoc_read; [done|]. by eapply Hr.
Qed.

(** A typed read of the bytes of a word. *)
Lemma read_of_word m a sz w :
  (∀ k, (k < type_size sz)%nat → mget m (a + Z.of_nat k) = byte_at w (Z.of_nat k)) →
  return_any_type sz (read_value_from_addr m a sz) = wrap (8 * Z.of_nat (type_size sz)) w.
Proof.
  intros Hb. rewrite return_read. replace (load_bytes m a (type_size sz)) with (le_bytes (type_size sz) w).
  - rewrite le_word_le_bytes. apply wrap_idem. lia.
  - apply list_eq_same_length with (n := type_size sz); [by rewrite length_load_bytes|by rewrite length_le_bytes|].
    intros k b b' Hk H1 H2. rewrite le_bytes_at in H1 by done. rewrite load_bytes_prefix in H2 by done. injection H1 as <-. injection H2 as <-. symmetry. by apply Hb.
Qed.

(** A read of an address in the write set returns the value's low bytes. *)
Lemma aw_log_hit ext ws evs a sz e :
  aw_log ext ws evs → ws !! a = Some e → aw_log ext ws (evs ++ [EvR a sz (return_any_type sz (aw_new e))]).
Proof.
  intros L He. apply aw_log_read; [done|]. intros Hk Hf m m' _ [Hin _].
  assert (type_size sz ≤ type_size (aw_type e))%nat as Hle.
  { apply key_read_spec in Hf as [Hap|(s & Hs & Hle)]; [|by rewrite <- (aw_log_size _ _ _ _ _ _ L Hk He Hs)].
    specialize (Hap _ (al_in _ _ _ L _ _ He)). by rewrite apart_not_self in Hap. }
  pose proof (type_size_range sz). unfold return_any_type at 2. rewrite any_get_wrap by lia. apply read_of_word.
  intros k Hkl. rewrite (Hin a e); [f_equal; lia|done|]. unfold in_acc, nbytes_of. lia.
Qed.

(** A read that misses the write set returns the bytes of memory. *)
Lemma aw_log_miss ext ws evs a sz bs :
  aw_log ext ws evs → ws !! a = None → length bs = type_size sz → (∀ k b, bs !! k = Some b → (a + Z.of_nat k, b) ∈ ext) →
  aw_log ext ws (evs ++ [EvR a sz (return_any_type sz (AnyT (le_word bs)))]).
Proof.
  intros L Hn Hlen Hext. apply aw_log_read; [done|]. intros Hk Hf m m' Hm [_ Hout].
  assert (∀ w, w ∈ wlog [] evs → apart a sz w.1 w.2 = true) as Hap.
  { apply key_read_spec in Hf as [Hap|(s & Hs & _)]; [done|]. destruct (al_of _ _ _ L _ _ Hs) as [e He]. congruence. }
  rewrite return_read. pose proof (type_size_range sz). unfold return_any_type. rewrite any_get_wrap by lia. unfold nbytes_of. cbn [u8]. do 2 f_equal.
  apply list_eq_same_length with (n := type_size sz); [done|by rewrite length_load_bytes|].
  intros k b b' Hkl Hb Hb'. rewrite load_bytes_prefix in Hb by done. injection Hb as <-. rewrite <- (Hm (a + Z.of_nat k) b') by auto.
  apply Hout. intros c e He Hc. specialize (Hap _ (al_in _ _ _ L _ _ He)). rewrite apart_spec in Hap. apply (Hap (a + Z.of_nat k)); [|done]. by apply nth_acc.
Qed.

Lemma byte_at_wrap w v i : 0 ≤ i → 8 * i + 8 ≤ w → byte_at (wrap w v) i = byte_at v i.
Proof.
  intros Hi Hw. unfold byte_at. apply Z.bits_inj'. intros j Hj. rewrite !testbit_wrap by lia. destruct (Z.ltb_spec j 8); [|done].
  rewrite !Z.shiftr_spec, testbit_wrap by lia. zcmp; simpl; try lia; done.
Qed.

Lemma aw_log_put ext ws evs a sz val :
  aw_log ext ws evs → access_ok a sz = true → aw_log ext (aw_put ws a val sz) (evs ++ [EvW a sz (return_any_type sz val)]).
Proof.
  intros L Hok. pose proof L as [H1 H2 H3 H4]. unfold aw_put.
  assert (Hw : wlog [] (evs ++ [EvW a sz (return_any_type sz val)]) = (a, sz) :: wlog [] evs) by (by rewrite wlog_app). split; rewrite ?Hw.
  - intros b e [[<- <-]|[Hne He]]%lookup_insert_Some; [done|by apply H1].
  - intros b e [[<- <-]|[Hne He]]%lookup_insert_Some; [left|right; by apply H2].
  - intros b s [[= -> ->]|Hb]%elem_of_cons; [by rewrite lookup_insert_eq|]. rewrite lookup_insert_is_Some'. right. by eapply H3.
  - intros Hk m Hm. apply obeys_snoc in Hk as [Hk Hf]. destruct (H4 Hk m Hm) as (m' & Hm' & Hin & Hout).
    rewrite key_write_spec in Hf. eexists. split; [by apply replay_snoc_write|]. pose proof (type_size_range sz). split.
    + intros b e x [[<- <-]|[Hne He]]%lookup_insert_Some Hx; cbn [aw_type aw_new] in *; rewrite write_value_mget.
      * rewrite decide_True by done. cbn [u8]. unfold return_any_type. rewrite any_get_wrap by lia. unfold in_acc, nbytes_of in Hx. apply byte_at_wrap; lia.
      * rewrite decide_False; [by apply (Hin b e)|]. destruct (Hf _ (H2 _ _ He)) as [[? _]|Hap]; [done|]. rewrite apart_spec in Hap. intros Hx'. by apply (Hap x).
    + intros x Hx. rewrite write_value_mget. pose proof (Hx a (WEntry sz a val) ltac:(by rewrite lookup_insert_eq)) as Hxa. rewrite decide_False by done.
      apply Hout. intros b e He Hb. destruct (decide (b = a)) as [->|Hne].
      * destruct (Hf _ (H2 _ _ He)) as [[_ Hsz]|Hap]; [|cbn in Hap; by rewrite apart_not_self in Hap]. apply Hxa. cbn in *. by apply (in_acc_size a sz _ x Hsz).
      * apply (Hx b e); [by rewrite lookup_insert_ne|done].
Qed.

(** What a committed log says of the bytes written back, in any order of the addresses. *)
Lemma aw_log_commit ext ws evs addrs m :
  aw_log ext ws evs → (∀ a, a ∈ addrs ↔ is_Some (ws !! a)) → keyed evs = true → holds m ext →
  ∃ m', replay m evs = Some m' ∧ ∀ x, mget m' x = mget (wr m (aw_stores ws addrs)) x.
Proof.
  intros L Ha Hk Hm. destruct (al_replay _ _ _ L Hk m Hm) as (m' & Hm' & Hov). exists m'. split; [done|]. intros x.
  apply aw_over_stores; [by eapply aw_log_separate|done|done].
Qed.
