(* ===== verification/Romulus.v ===== *)
(** * Romulus (romulus/romulus.hpp)

    Commit-time validation with a global commit lock, a clock and a table of version words
    (version and lock bit) indexed by address.  Reads check the version word before and
    after the data; an update commit takes the commit lock, validates its write set and
    read set, sets the lock bits, increments the clock, writes back and stores the new
    versions.  Operations on shared memory are interleaved steps, one per atomic access;
    plain loads and stores of data go byte by byte.  The spin token and the abort counter
    are updated in the step that ends the call.  The clock is a 64-bit word; an execution
    that exhausts it (2^63 commits) is not continued.  [shared] stands for
    [isTMAddress(a) || isTMGlobal(a)] ([Region]). *)

From stdpp Require Import functions sorting.
From S2P Require Import Prelude Memory Values TMSpec LogMerge TxLog Interleave Support AddrSet.
#[local] Open Scope Z_scope.
#[local] Open Scope word_scope.

Definition VERSION_TABLE_SIZE : Z := 1 .<< 20.
Definition version_index (addr : Z) : Z := (addr .>> 3) .& (VERSION_TABLE_SIZE - 1).

Definition VERSION_LOCK_BIT : Z := 1.
Definition make_version_entry (ver : Z) : Z := ver .<< 1.
Definition read_version (entry : Z) : Z := entry .>> 1.
Definition entry_locked (entry : Z) : bool := negb (entry .& VERSION_LOCK_BIT =? 0).

Record ReadEntry := REnt { rd_addr : Z; rd_version : Z }.

Record rtx := RTx {
  rx_id : Z; rx_timestamp : Z; rx_active : bool; rx_read_only : bool; rx_abort_count : Z; rx_is_retry : bool;
  rx_ws : awset; rx_rs : list ReadEntry;
}.

Definition rtx_clear (x : rtx) : rtx :=
  RTx (rx_id x) (rx_timestamp x) (rx_active x) (rx_read_only x) (rx_abort_count x) (rx_is_retry x) ∅ [].
Definition rtx_reset (x : rtx) : rtx := rtx_clear (RTx (rx_id x) 0 false true 0 false (rx_ws x) (rx_rs x)).

(** The point a call has reached.  [RValW], [RValR]: phase 2 of [commit]; [RSet]: phase 3;
    [RWb], [RVer]: phases 5 and 6 with the commit timestamp. *)
Inductive rpc :=
  | RIdle
  | REntry (sz : ValueType) (a : Z)
  | RBytes (sz : ValueType) (a before : Z) (bs : list Z)
  | RAfter (sz : ValueType) (a before : Z) (bs : list Z)
  | RDirect (sz : ValueType) (a : Z) (bs : list Z)
  | RLockLoad
  | RLockXchg
  | RValW (rem : list Z)
  | RValR (rem : list ReadEntry)
  | RFail
  | RSet (rem : list Z)
  | RInc
  | RWb (ts : Z) (st : list (Z * Z))
  | RVer (ts : Z) (rem : list Z)
  | RUnlock.

(** A thread: its transaction, the point of its call, the value last returned, and
    (ghost) the transactional reads and writes so far. *)
Record rthread := RT { rt_tx : rtx; rt_pc : rpc; rt_ret : Z; rt_log : list event }.

(** Shared state; [rg_hist] and [rg_ro] are ghost: the logs of the committed update
    transactions by commit timestamp, and those of the transactions that committed without
    writes. *)
Record rglobal := RG {
  rg_mem : mem; rg_clock : Z; rg_table : Z → Z; rg_commit_lock : Z; rg_token : Z; rg_aborts : Z;
  rg_hist : gmap nat (list event); rg_ro : list (list event);
}.

Definition rg_set_entry (g : rglobal) (idx s : Z) : rglobal :=
  RG (rg_mem g) (rg_clock g) (<[idx := s]> (rg_table g)) (rg_commit_lock g) (rg_token g) (rg_aborts g) (rg_hist g) (rg_ro g).
Definition rg_set_lock (g : rglobal) (l : Z) : rglobal :=
  RG (rg_mem g) (rg_clock g) (rg_table g) l (rg_token g) (rg_aborts g) (rg_hist g) (rg_ro g).
Definition rg_set_token (g : rglobal) (tok : Z) : rglobal :=
  RG (rg_mem g) (rg_clock g) (rg_table g) (rg_commit_lock g) tok (rg_aborts g) (rg_hist g) (rg_ro g).

Definition rgoto (t : rthread) (p : rpc) : rthread := RT (rt_tx t) p (rt_ret t) (rt_log t).

(** [begin] for a transaction that is not active. *)
Definition rtx_begun (x : rtx) (clock : Z) : rtx :=
  RTx (rx_id x) clock true true (if rx_is_retry x then rx_abort_count x else 0) false ∅ [].

(** [abort_tx]: back to the start of the transaction ([siglongjmp]). *)
Definition abort_tx (g : rglobal) (t : rthread) : rglobal * rthread :=
  let x := rt_tx t in
  (RG (rg_mem g) (rg_clock g) (rg_table g) (rg_commit_lock g) (SpinToken.tm_token_release_if_held (rg_token g) (rx_id x)) (rg_aborts g + 1) (rg_hist g) (rg_ro g),
   RT (RTx (rx_id x) (rx_timestamp x) false (rx_read_only x) (rx_abort_count x + 1) true ∅ []) RIdle (rt_ret t) []).

(** The end of [commit]. *)
Definition commit_end (g : rglobal) (t : rthread) : rglobal * rthread :=
  (rg_set_token g (SpinToken.tm_token_release (rg_token g)), RT (rtx_reset (rt_tx t)) RIdle 1 []).

(** [return_any_type] of the value read. *)
Definition rread_done (t : rthread) (sz : ValueType) (a v : Z) : rthread :=
  RT (rt_tx t) RIdle v (rt_log t ++ [EvR a sz v]).

Definition write_word (x : rtx) (addr : Z) (val : any_type_t) (sz : ValueType) : rtx :=
  RTx (rx_id x) (rx_timestamp x) (rx_active x) false (rx_abort_count x) (rx_is_retry x) (aw_put (rx_ws x) addr val sz) (rx_rs x).

Definition push_read (x : rtx) (re : ReadEntry) : rtx :=
  RTx (rx_id x) (rx_timestamp x) (rx_active x) (rx_read_only x) (rx_abort_count x) (rx_is_retry x) (rx_ws x) (rx_rs x ++ [re]).

(** [junk]: what the local [any_type_t] of [tm_write] holds before it is filled. *)
Inductive rop := RBegin | RRead (sz : ValueType) (a : Z) | RWriteOp (sz : ValueType) (a v : Z) (junk : any_type_t) | RCommit | RAbort.

Section Steps.
Context (shared : Z → bool).

Definition rom_call (o : rop) (g : rglobal) (t : rthread) : option (rglobal * rthread) :=
  let x := rt_tx t in
  match rt_pc t with
  | RIdle =>
      match o with
      | RBegin => Some (g, if rx_active x then t else RT (rtx_begun x (rg_clock g)) RIdle 1 [])
      | RRead sz a =>
          if rx_active x && access_ok a sz then
            Some (g, match rx_ws x !! a with
                     | Some w => rread_done t sz a (return_any_type sz (aw_new w))
                     | None => if shared a then rgoto t (REntry sz a) else rgoto t (RDirect sz a [])
                     end)
          else None
      | RWriteOp sz a v junk =>
          if rx_active x && access_ok a sz then
            let w := fill_any_type junk (λ n, le_bytes n v) sz in
            Some (g, RT (write_word x a w sz) RIdle (rt_ret t) (rt_log t ++ [EvW a sz (return_any_type sz w)]))
          else None
      | RCommit =>
          if negb (rx_active x) then Some (g, t)
          else if negb (rx_read_only x) && negb (bool_decide (rx_ws x = ∅)) then Some (g, rgoto t RLockLoad)
          else
            Some (commit_end (RG (rg_mem g) (rg_clock g) (rg_table g) (rg_commit_lock g) (rg_token g) (rg_aborts g) (rg_hist g) (rt_log t :: rg_ro g)) t)
      | RAbort => if rx_active x then Some (abort_tx g t) else None
      end
  | _ => None
  end.

(** [read_word] after the write set. *)
Definition rread_step (g : rglobal) (t : rthread) : option (rglobal * rthread) :=
  match rt_pc t with
  | REntry sz a =>
      let entry_before := rg_table g (version_index a) in
      Some (if entry_locked entry_before then abort_tx g t else (g, rgoto t (RBytes sz a entry_before [])))
  | RBytes sz a before bs =>
      let bs' := bs ++ [mget (rg_mem g) (a + Z.of_nat (length bs))] in
      Some (g, if (type_size sz <=? length bs')%nat then rgoto t (RAfter sz a before bs') else rgoto t (RBytes sz a before bs'))
  | RAfter sz a before bs =>
      let entry_after := rg_table g (version_index a) in
      Some (if before =? entry_after
            then (g, rread_done (RT (push_read (rt_tx t) (REnt a (read_version before))) RIdle (rt_ret t) (rt_log t))
                       sz a (return_any_type sz (AnyT (le_word bs))))
            else abort_tx g t)
  | RDirect sz a bs =>
      let bs' := bs ++ [mget (rg_mem g) (a + Z.of_nat (length bs))] in
      Some (g, if (type_size sz <=? length bs')%nat
               then RT (rt_tx t) RIdle (return_any_type sz (AnyT (le_word bs'))) (rt_log t)
               else rgoto t (RDirect sz a bs'))
  | _ => None
  end.

(** Phases 1 and 2 of [commit]. *)
Definition rvalidate_step (g : rglobal) (t : rthread) : option (rglobal * rthread) :=
  let x := rt_tx t in
  match rt_pc t with
  | RLockLoad => Some (g, if rg_commit_lock g =? 0 then rgoto t RLockXchg else t)
  | RLockXchg =>
      Some (rg_set_lock g 1, if rg_commit_lock g =? 0 then rgoto t (RValW (aw_sorted (rx_ws x))) else rgoto t RLockLoad)
  | RValW (addr :: rem) =>
      let entry := rg_table g (version_index addr) in
      Some (g, if entry_locked entry || (rx_timestamp x <? read_version entry) then rgoto t RFail else rgoto t (RValW rem))
  | RValW [] => Some (g, rgoto t (RValR (rx_rs x)))
  | RValR (re :: rem) =>
      let entry := rg_table g (version_index (rd_addr re)) in
      Some (g, if entry_locked entry || negb (read_version entry =? rd_version re) then rgoto t RFail else rgoto t (RValR rem))
  | RValR [] => Some (g, rgoto t (RSet (aw_sorted (rx_ws x))))
  | RFail => Some (abort_tx (rg_set_lock g 0) t)
  | _ => None
  end.

(** Phases 3 to 6. *)
Definition rcommit_step (g : rglobal) (t : rthread) : option (rglobal * rthread) :=
  let x := rt_tx t in
  match rt_pc t with
  | RSet (addr :: rem) =>
      let idx := version_index addr in
      Some (rg_set_entry g idx (rg_table g idx .| VERSION_LOCK_BIT), rgoto t (RSet rem))
  | RSet [] => Some (g, rgoto t RInc)
  | RInc =>
      let commit_ts := rg_clock g + 1 in
      if 2 ^ 63 <=? commit_ts then None
      else
        Some (RG (rg_mem g) commit_ts (rg_table g) (rg_commit_lock g) (rg_token g) (rg_aborts g)
                (<[Z.to_nat commit_ts := rt_log t]> (rg_hist g)) (rg_ro g),
              rgoto t (RWb commit_ts (aw_stores (rx_ws x) (aw_sorted (rx_ws x)))))
  | RWb ts ((a, b) :: st) =>
      Some (RG (<[a := b]> (rg_mem g)) (rg_clock g) (rg_table g) (rg_commit_lock g) (rg_token g) (rg_aborts g) (rg_hist g) (rg_ro g),
            rgoto t (RWb ts st))
  | RWb ts [] => Some (g, rgoto t (RVer ts (aw_sorted (rx_ws x))))
  | RVer ts (addr :: rem) => Some (rg_set_entry g (version_index addr) (make_version_entry ts), rgoto t (RVer ts rem))
  | RVer ts [] => Some (g, rgoto t RUnlock)
  | RUnlock => Some (commit_end (rg_set_lock g 0) t)
  | _ => None
  end.

Definition rom_step (g : rglobal) (t : rthread) : option (rglobal * rthread) :=
  match rt_pc t with
  | RIdle => None
  | REntry _ _ | RBytes _ _ _ _ | RAfter _ _ _ _ | RDirect _ _ _ => rread_step g t
  | RLockLoad | RLockXchg | RValW _ | RValR _ | RFail => rvalidate_step g t
  | RSet _ | RInc | RWb _ _ | RVer _ _ | RUnlock => rcommit_step g t
  end.

(** ** Interleaved executions *)

(** [init], and [init_thread] for [n] threads: ids count from one. *)
Definition rthread_init (i : nat) : rthread := RT (RTx (Z.of_nat i + 1) 0 false true 0 false ∅ []) RIdle 0 [].
Definition rom_init (m : mem) : rglobal := RG m 1 (λ _, make_version_entry 0) 0 SpinToken.FREE 0 ∅ [].

Definition rreachable (m : mem) (n : nat) : rglobal * list rthread → Prop :=
  ix_reachable rom_call rom_step (rom_init m, rthread_init <$> seq 0 n).
End Steps.
