(* ===== verification/RomulusSim.v ===== *)
(** * Romulus simulates the versioned-lock machine

    Every interleaved execution of [Romulus] is matched by one of [VersionedLocks].  A
    version word is a version with an owner; the validation of a read under the commit lock
    is a check at the next version, which the commit takes after it has set its lock bits:
    the commit lock keeps the clock and the versions still in between. *)

From stdpp Require Import functions sorting.
From S2P Require Import Prelude Memory Values TMSpec LogMerge TxLog Interleave VersionedLocks Support AddrSet Romulus.
#[local] Open Scope Z_scope.
#[local] Open Scope word_scope.

(** ** Version words *)

Lemma entry_locked_word v o : entry_locked (gword v o) = bool_decide (is_Some o).
Proof. apply gword_bit. Qed.

Lemma read_version_word v o : read_version (gword v o) = Z.of_nat v.
Proof. unfold read_version. rewrite Z.shiftr_div_pow2 by lia. apply gword_half. Qed.

Lemma make_entry_word v : gver_ok v → make_version_entry (Z.of_nat v) = gword v None.
Proof.
  intros Hv. unfold make_version_entry, shl64, wrap64, wrap, gver_ok in *. rewrite Z.shiftl_mul_pow2 by lia. rewrite Z.mod_small by lia. unfold gword. lia.
Qed.

(** The bytes of an access share the index of its address. *)
Lemma acc_index a sz x : access_ok a sz = true → in_acc a sz x → version_index x = version_index a.
Proof.
  intros Hok Hx. apply access_ok_spec in Hok as [Ha Hin]. destruct (align_acc _ _ _ Ha Hin Hx) as [Hw Hal]. rewrite !align_down_base in Hal by done.
  unfold word_base in Hal. unfold version_index. rewrite !Z.shiftr_div_pow2 by lia. change (2 ^ 3) with 8. by replace (x / 8) with (a / 8) by lia.
Qed.

Section Sim.
Context (m0 : mem) (n : nat).
Implicit Types (σ : lvs) (t : rthread) (g : rglobal).

#[local] Abbreviation lk := version_index.
#[local] Abbreviation lv_steps i := (rtc (lv_step version_index i)).
#[local] Abbreviation lv_inv := (lv_inv version_index m0).

(** ** The relation *)

Definition rhist_rel (h : option (list event)) (e : option entry) : Prop :=
  match h, e with
  | Some evs, Some e => ∃ ws, ce_writes e = aw_stores ws (aw_sorted ws) ∧ aw_log (ce_reads e) ws evs
  | None, None => True
  | _, _ => False
  end.

Record rg_rel g σ : Prop := RGRel {
  rr_mem : rg_mem g = lmem σ;
  rr_clock : rg_clock g = Z.of_nat (clk σ);
  rr_max : gver_ok (clk σ);
  rr_table : ∀ ℓ, rg_table g ℓ = gword (ver σ ℓ) (own σ ℓ);
  rr_own : ∀ ℓ j, own σ ℓ = Some j → (j < n)%nat;
  rr_hist : ∀ c, rhist_rel (rg_hist g !! c) (hist σ !! c);
}.

(** An entry of the read set recorded the version for the index of an address. *)
Definition in_reads (rs : list ReadEntry) (a : Z) (v : nat) : Prop :=
  ∃ re, re ∈ rs ∧ lk (rd_addr re) = lk a ∧ rd_version re = Z.of_nat v.

Definition idx_in (addrs : list Z) (ℓ : Z) : Prop := ℓ ∈ version_index <$> addrs.

(** A running transaction whose reads are recorded in [rs]. *)
Record rtx_rel σ (i : nat) (x : rtx) (evs : list event) (rs : list ReadEntry) : Prop := RTxRel {
  rl_ph : ph (thr σ i) = PActive;
  rl_active : rx_active x = true;
  rl_lrds : lrds (thr σ i) = [];
  rl_log : aw_log (rds (thr σ i)).*1 (rx_ws x) evs;
  rl_reads : ∀ a val v, (a, val, v) ∈ rds (thr σ i) → in_reads rs a v;
}.
Definition rrun_rel σ (i : nat) t : Prop := rtx_rel σ i (rt_tx t) (rt_log t) (rx_rs (rt_tx t)).

(** A read in progress: the bytes taken so far, under the version seen before. *)
Definition rreading σ (i : nat) t (sz : ValueType) (a before : Z) (bs : list Z) : Prop :=
  ∃ v, before = gword v None ∧ (v ≤ ver σ (lk a))%nat ∧ access_ok a sz = true ∧ rx_ws (rt_tx t) !! a = None ∧
    rtx_rel σ i (rt_tx t) (rt_log t) (rx_rs (rt_tx t) ++ [REnt a (Z.of_nat v)]) ∧
    (∀ k b, bs !! k = Some b → (a + Z.of_nat k, b) ∈ (rds (thr σ i)).*1).

Definition rpc_rel σ (i : nat) t : Prop :=
  match rt_pc t with
  | RIdle =>
      owns σ i (λ _, False) ∧ if rx_active (rt_tx t) then rrun_rel σ i t else ph (thr σ i) = PIdle
  | REntry sz a => owns σ i (λ _, False) ∧ rrun_rel σ i t ∧ access_ok a sz = true ∧ rx_ws (rt_tx t) !! a = None
  | RBytes sz a before bs => owns σ i (λ _, False) ∧ rreading σ i t sz a before bs ∧ (length bs < type_size sz)%nat
  | RAfter sz a before bs => owns σ i (λ _, False) ∧ rreading σ i t sz a before bs ∧ length bs = type_size sz
  | RDirect _ _ _ | RLockLoad | RLockXchg | RValW _ | RValR _ | RFail => owns σ i (λ _, False) ∧ rrun_rel σ i t
  | RSet rem =>
      rrun_rel σ i t ∧ ∃ dn, aw_sorted (rx_ws (rt_tx t)) = dn ++ rem ∧ owns σ i (idx_in dn)
  | RInc => rrun_rel σ i t ∧ owns σ i (idx_in (aw_sorted (rx_ws (rt_tx t))))
  | RWb ts st => 0 ≤ ts ∧ ph (thr σ i) = PDec (Z.to_nat ts) st ∧ owns σ i (idx_in (aw_sorted (rx_ws (rt_tx t))))
  | RVer ts rem =>
      0 ≤ ts ∧ ph (thr σ i) = PDec (Z.to_nat ts) [] ∧
      ∃ dn, aw_sorted (rx_ws (rt_tx t)) = dn ++ rem ∧ owns σ i (λ ℓ, idx_in rem ℓ ∧ ¬ idx_in dn ℓ)
  | RUnlock => owns σ i (λ _, False) ∧ ∃ cv, ph (thr σ i) = PDec cv []
  end.

(** The thread holds the commit lock. *)
Definition holder (p : rpc) : bool :=
  match p with RValW _ | RValR _ | RFail | RSet _ | RInc | RWb _ _ | RVer _ _ | RUnlock => true | _ => false end.

(** Reads are checked at version [c] except those of the entries [rs]. *)
Definition rtodo σ (i : nat) (rs : list ReadEntry) (c : nat) : Prop :=
  ∀ a val v, (a, val, v) ∈ rds (thr σ i) → (a, val, v, c) ∈ fixd (thr σ i) ∨ in_reads rs a v.

(** What holds as long as nobody else commits. *)
Definition rlock_rel σ (i : nat) t : Prop :=
  match rt_pc t with
  | RValR rem => rtodo σ i rem (S (clk σ))
  | RSet _ | RInc => rtodo σ i [] (S (clk σ))
  | RVer ts rem => ∀ dn ℓ, aw_sorted (rx_ws (rt_tx t)) = dn ++ rem → idx_in dn ℓ → ver σ ℓ = Z.to_nat ts
  | _ => True
  end.

(** ** Stability *)

Lemma rtx_frame σ σ' i x evs rs : lv_frame i σ σ' → rtx_rel σ i x evs rs → rtx_rel σ' i x evs rs.
Proof. intros [Ht Ho Hv Hc] [H1 H2 H3 H4 H5]. split; rewrite ?Ht; done. Qed.

Lemma rreading_frame σ σ' i t sz a before bs : lv_frame i σ σ' → rreading σ i t sz a before bs → rreading σ' i t sz a before bs.
Proof.
  intros F (v & ? & Hv & ? & ? & ? & ?). exists v. pose proof (fr_ver _ _ _ F (lk a)). split_and!; [done|lia|done|done|by eapply rtx_frame|].
  by rewrite (fr_thr _ _ _ F).
Qed.

Lemma rpc_frame σ σ' i t : lv_frame i σ σ' → rpc_rel σ i t → rpc_rel σ' i t.
Proof.
  intros F. unfold rpc_rel, rrun_rel. destruct (rt_pc t); try destruct (rx_active (rt_tx t)); rewrite ?(fr_thr _ _ _ F);
    naive_solver eauto using owns_frame, rtx_frame, rreading_frame.
Qed.

Lemma rlock_frame σ σ' i t : thr σ' i = thr σ i → clk σ' = clk σ → ver σ' = ver σ → rlock_rel σ i t → rlock_rel σ' i t.
Proof. intros Ht Hc Hv. unfold rlock_rel, rtodo. by rewrite Ht, Hc, Hv. Qed.

Lemma rlock_idle σ i t : holder (rt_pc t) = false → rlock_rel σ i t.
Proof. unfold rlock_rel. by destruct (rt_pc t). Qed.

Lemma rg_upd i g σ σ' T : upd i σ σ' T → rg_rel g σ → rg_rel g σ'.
Proof. intros [Um Uc Uv Uo Uh Ub _] [H1 H2 H3 H4 H5 H6]. split; rewrite ?Um, ?Uc, ?Uv, ?Uo, ?Uh; done. Qed.

(** A step of thread [i] from [t]: matched, and invisible in clock and versions unless
    the thread holds the commit lock. *)
Definition rsim (i : nat) σ t (gt : rglobal * rthread) : Prop :=
  ∃ σ', lv_steps i σ σ' ∧ rg_rel gt.1 σ' ∧ rpc_rel σ' i gt.2 ∧ rlock_rel σ' i gt.2 ∧
    (holder (rt_pc t) = false → clk σ' = clk σ ∧ ver σ' = ver σ).

Lemma rsim_stay i σ t g t' : rg_rel g σ → rpc_rel σ i t' → rlock_rel σ i t' → rsim i σ t (g, t').
Proof. intros. by exists σ. Qed.

Lemma rsim_upd i σ t g t' σ' T : lv_steps i σ σ' → upd i σ σ' T → rg_rel g σ → rpc_rel σ' i t' → rlock_rel σ' i t' → rsim i σ t (g, t').
Proof. intros Hs U G R L. exists σ'. split_and!; [done|by eapply rg_upd|done|done|]. intros _. by rewrite (up_clk _ _ _ _ U), (up_ver _ _ _ _ U). Qed.

(** Components of the global state the relation does not mention. *)
Lemma rg_other g g' σ :
  rg_mem g' = rg_mem g → rg_clock g' = rg_clock g → rg_table g' = rg_table g → rg_hist g' = rg_hist g → rg_rel g σ → rg_rel g' σ.
Proof. intros Hm Hc Ht Hh []. split; rewrite ?Hm, ?Hc, ?Ht, ?Hh; done. Qed.

Lemma rgver_le g σ v : rg_rel g σ → (v ≤ clk σ)%nat → gver_ok v.
Proof. intros G Hv. pose proof (rr_max g σ G). unfold gver_ok in *. lia. Qed.

(** ** Begin, abort and the end of a transaction *)

Lemma rfinish_sim i σ t g t' :
  rg_rel g σ → rt_pc t' = RIdle → rx_active (rt_tx t') = false → owns σ i (λ _, False) →
  ph (thr σ i) = PIdle ∨ ph (thr σ i) = PActive ∨ ph (thr σ i) = PAbort ∨ (∃ cv, ph (thr σ i) = PDec cv []) → rsim i σ t (g, t').
Proof.
  intros G Hpc Ha Ho Hp. destruct (finish_steps version_index i σ Ho Hp) as (σ' & T & Hs & U & HT). eapply rsim_upd; [done..| |].
  - unfold rpc_rel. rewrite Hpc, Ha. split; [by eapply owns_upd|]. by rewrite (up_thr _ _ _ _ U).
  - apply rlock_idle. by rewrite Hpc.
Qed.

Lemma rabort_sim i σ t g t0 :
  rg_rel g σ → owns σ i (λ _, False) → ph (thr σ i) = PActive → rsim i σ t0 (abort_tx g t).
Proof. intros G Ho Hp. apply rfinish_sim; [|done|done|done|by auto]. by apply (rg_other g). Qed.

Lemma rbegin_sim i σ t g :
  rg_rel g σ → rt_pc t = RIdle → rx_active (rt_tx t) = false → rpc_rel σ i t →
  rsim i σ t (g, RT (rtx_begun (rt_tx t) (rg_clock g)) RIdle 1 []).
Proof.
  intros G Hpc Ha Hrel. unfold rpc_rel in Hrel. rewrite Hpc, Ha in Hrel. destruct Hrel as [Ho Hp].
  pose proof (upd_set_thr i σ (LVT PActive [] [] [])) as U. eapply rsim_upd; [|done|done| |done].
  - apply rtc_once. by apply lv_begin.
  - split; [by eapply owns_upd|]. cbn [rt_tx rx_active rtx_begun]. split; rewrite ?(up_thr _ _ _ _ U); try done.
    + apply aw_log_nil.
    + intros a val v. by intros ?%elem_of_nil.
Qed.

(** ** Reads and writes *)

Lemma rcall_read_sim (shared : Z → bool) i σ t g sz a :
  rg_rel g σ → rt_pc t = RIdle → rpc_rel σ i t → rx_active (rt_tx t) = true → access_ok a sz = true →
  rsim i σ t (g, match rx_ws (rt_tx t) !! a with
                 | Some w => rread_done t sz a (return_any_type sz (aw_new w))
                 | None => if shared a then rgoto t (REntry sz a) else rgoto t (RDirect sz a [])
                 end).
Proof.
  intros G Hpc Hrel Ha Hok. unfold rpc_rel in Hrel. rewrite Hpc, Ha in Hrel. destruct Hrel as [Ho R].
  destruct (rx_ws (rt_tx t) !! a) as [w|] eqn:Hw; [|destruct (shared a)]; (apply rsim_stay; [done| |done]); [|done|done].
  split; [done|]. cbn [rt_tx rread_done]. rewrite Ha. destruct R as [H1 H2 H3 H4 H5]. split; try done. by apply aw_log_hit.
Qed.

Lemma rcall_write_sim i σ t g sz a w :
  rg_rel g σ → rt_pc t = RIdle → rpc_rel σ i t → rx_active (rt_tx t) = true → access_ok a sz = true →
  rsim i σ t (g, RT (write_word (rt_tx t) a w sz) RIdle (rt_ret t) (rt_log t ++ [EvW a sz (return_any_type sz w)])).
Proof.
  intros G Hpc Hrel Ha Hok. unfold rpc_rel in Hrel. rewrite Hpc, Ha in Hrel. destruct Hrel as [Ho [H1 H2 H3 H4 H5]]. apply rsim_stay; [done| |done].
  split; [done|]. cbn [rt_tx write_word rx_active]. rewrite Ha. split; try done. by apply aw_log_put.
Qed.

Lemma rentry_sim i σ t g sz a :
  rg_rel g σ → rt_pc t = REntry sz a → rpc_rel σ i t →
  let e := rg_table g (version_index a) in
  rsim i σ t (if entry_locked e then abort_tx g t else (g, rgoto t (RBytes sz a e []))).
Proof.
  intros G Hpc Hrel e. unfold rpc_rel in Hrel. rewrite Hpc in Hrel. destruct Hrel as (Ho & R & Hok & Hw). unfold e. rewrite (rr_table g σ G), entry_locked_word.
  pose proof R as [H1 H2 H3 H4 H5]. destruct (own σ (lk a)) as [j|]; cbn [bool_decide].
  - rewrite bool_decide_true by eauto. by apply rabort_sim.
  - rewrite bool_decide_false by (by intros [? ?]). apply rsim_stay; [done| |done]. split; [done|]. split; [|pose proof (type_size_range sz); simpl; lia].
    exists (ver σ (lk a)). split_and!; [done..| |intros k b Hb; by rewrite lookup_nil in Hb]. split; try done. intros b val v Hin. destruct (H5 b val v Hin) as (re & ? & ?).
    exists re. split; [apply elem_of_app; by left|done].
Qed.

Lemma rbytes_sim i σ t g sz a before bs :
  rg_rel g σ → rt_pc t = RBytes sz a before bs → rpc_rel σ i t →
  let bs' := bs ++ [mget (rg_mem g) (a + Z.of_nat (length bs))] in
  rsim i σ t (g, if (type_size sz <=? length bs')%nat then rgoto t (RAfter sz a before bs') else rgoto t (RBytes sz a before bs')).
Proof.
  intros G Hpc Hrel bs'. unfold rpc_rel in Hrel. rewrite Hpc in Hrel. destruct Hrel as (Ho & (v & -> & Hv & Hok & Hw & [H1 H2 H3 H4 H5] & Hbs) & Hlen).
  set (b := a + Z.of_nat (length bs)) in *. assert (Hb : in_acc a sz b) by (by apply nth_acc). pose proof (acc_index a sz b Hok Hb) as Hlk.
  set (T := LVT PActive ((b, mget (lmem σ) b, v) :: rds (thr σ i)) (lrds (thr σ i)) (fixd (thr σ i))). pose proof (upd_set_thr i σ T) as U.
  assert (length bs' = S (length bs)) as Hlen' by (unfold bs'; rewrite length_app; simpl; lia).
  assert (Ho' : owns (set_thr σ i T) i (λ _, False)) by (by eapply owns_upd).
  assert (RD : rreading (set_thr σ i T) i t sz a (gword v None) bs').
  { exists v. split_and!; [done|done|done|done| |].
    - split; rewrite ?(up_thr _ _ _ _ U); try done; cbn [T ph rds lrds fixd].
      + eapply aw_log_mono; [|done]. intros ab ?. rewrite fmap_cons. by right.
      + intros b' val v' [[= -> -> ->]|?]%elem_of_cons; [|by eapply H5]. exists (REnt a (Z.of_nat v)). split_and!; [apply elem_of_app; right; left|by rewrite Hlk|done].
    - intros k c Hk. rewrite (up_thr _ _ _ _ U). cbn [T rds]. rewrite fmap_cons. apply lookup_app_Some in Hk as [Hk|[Hge Hk]]; [right; by apply Hbs|].
      apply list_lookup_singleton_Some in Hk as [Hk <-]. assert (k = length bs) as -> by lia. rewrite (rr_mem g σ G). left. }
  eapply rsim_upd; [|done|done| |].
  - apply rtc_once. pose proof (lv_load version_index i σ b v (thr σ i) eq_refl H1) as Hs. rewrite H1 in Hs. apply Hs. by rewrite Hlk.
  - destruct (Nat.leb_spec (type_size sz) (length bs')) as [Hfull|Hpart]; (split; [done|split; [done|lia]]).
  - destruct (type_size sz <=? length bs')%nat; by apply rlock_idle.
Qed.

Lemma rafter_sim i σ t g sz a before bs :
  rg_rel g σ → rt_pc t = RAfter sz a before bs → rpc_rel σ i t →
  rsim i σ t (if before =? rg_table g (version_index a)
              then (g, rread_done (RT (push_read (rt_tx t) (REnt a (read_version before))) RIdle (rt_ret t) (rt_log t))
                         sz a (return_any_type sz (AnyT (le_word bs))))
              else abort_tx g t).
Proof.
  intros G Hpc Hrel. unfold rpc_rel in Hrel. rewrite Hpc in Hrel. destruct Hrel as (Ho & (v & -> & Hv & Hok & Hw & [H1 H2 H3 H4 H5] & Hbs) & Hlen).
  destruct (_ =? _); [|by apply rabort_sim]. rewrite read_version_word. apply rsim_stay; [done| |done].
  split; [done|]. cbn [rt_tx rread_done push_read rx_active]. rewrite H2. split; try done. by apply aw_log_miss.
Qed.

Lemma rread_step_sim i σ t g g' t' :
  rg_rel g σ → rpc_rel σ i t → rread_step g t = Some (g', t') → rsim i σ t (g', t').
Proof.
  intros G Hrel Hs. unfold rread_step in Hs. destruct (rt_pc t) as [|sz a|sz a before bs|sz a before bs|sz a bs| | | | | | | | | |] eqn:Hpc; try done; apply (inj Some) in Hs; rewrite <- Hs.
  - by apply rentry_sim.
  - by apply rbytes_sim.
  - by apply rafter_sim.
  - unfold rpc_rel in Hrel. rewrite Hpc in Hrel. destruct Hrel as [Ho R]. apply rsim_stay; [done| |]; destruct (type_size sz <=? _)%nat; try done.
    split; [done|]. cbn [rt_tx]. by rewrite (rl_active _ _ _ _ _ R).
Qed.

(** ** Commit: lock and validation *)

Lemma entry_checked g σ a :
  rg_rel g σ → entry_locked (rg_table g (lk a)) = false → own σ (lk a) = None ∧ read_version (rg_table g (lk a)) = Z.of_nat (ver σ (lk a)).
Proof.
  intros G. rewrite (rr_table g σ G), entry_locked_word, read_version_word, bool_decide_eq_false. intros Hn. split; [|done].
  destruct (own σ (lk a)); [|done]. destruct Hn. by eexists.
Qed.

Lemma rcheck_sim i σ t g re rem :
  lv_inv σ → rg_rel g σ → rt_pc t = RValR (re :: rem) → rpc_rel σ i t → rlock_rel σ i t →
  let e := rg_table g (version_index (rd_addr re)) in
  rsim i σ t (g, if entry_locked e || negb (read_version e =? rd_version re) then rgoto t RFail else rgoto t (RValR rem)).
Proof.
  intros I G Hpc Hrel Hlock e. unfold rpc_rel in Hrel. unfold rlock_rel in Hlock. rewrite Hpc in Hrel, Hlock. destruct Hrel as [Ho R].
  destruct (entry_locked e) eqn:El; cbn [orb]; [by apply rsim_stay|]. destruct (entry_checked g σ (rd_addr re) G El) as [Hown Hver]. unfold e. rewrite Hver.
  destruct (Z.eqb_spec (Z.of_nat (ver σ (lk (rd_addr re)))) (rd_version re)) as [Heq|]; cbn [negb]; [|by apply rsim_stay].
  pose proof R as [H1 H2 H3 H4 H5]. set (ℓ := lk (rd_addr re)) in *.
  set (l := filter (λ r : Z * Z * nat, lk r.1.1 = ℓ ∧ r.2 = ver σ ℓ) (rds (thr σ i))).
  destruct (check_steps version_index i σ (S (clk σ)) l) as (σ' & F & Hs & U & HF & Hnew).
  { by rewrite H1. }
  { done. }
  { intros a val v [[Hg Hv] Hin]%list_elem_of_filter. simpl in *. rewrite Hg, Hv in *. pose proof (iv_ver _ _ σ I ℓ). split_and!; [done|by left|done|lia]. }
  eapply rsim_upd; [done|done|done| |].
  - split; [by eapply owns_upd|]. split; rewrite ?(up_thr _ _ _ _ U); done.
  - unfold rlock_rel, rtodo. cbn [rt_pc rgoto]. rewrite (up_thr _ _ _ _ U), (up_clk _ _ _ _ U). cbn [rds fixd]. intros a val v Hin.
    destruct (Hlock a val v Hin) as [Hf|(r & [->|Hr]%elem_of_cons & Hrg & Hrv)].
    + left. by apply HF.
    + left. apply Hnew, list_elem_of_filter. split; [simpl; split; [done|unfold ℓ in *; lia]|done].
    + right. by exists r.
Qed.

Lemma rvalidate_sim i σ t g g' t' :
  lv_inv σ → rg_rel g σ → rpc_rel σ i t → rlock_rel σ i t → rvalidate_step g t = Some (g', t') → rsim i σ t (g', t').
Proof.
  intros I G Hrel Hlock Hs. pose proof Hrel as Hrel'. unfold rpc_rel in Hrel. unfold rvalidate_step in Hs.
  destruct (rt_pc t) as [| | | | | | |[|addr rem]|[|re rem]| | | | | |] eqn:Hpc; try done; apply (inj Some) in Hs; rewrite <- Hs; destruct Hrel as [Ho R].
  - destruct (_ =? _); (apply rsim_stay; [done| |]); [done|done|done|by rewrite Hpc in Hlock || (apply rlock_idle; by rewrite Hpc)].
  - destruct (_ =? _); (apply rsim_stay; [by apply (rg_other g)|done|done]).
  - apply rsim_stay; [done|done|]. intros a val v Hin. right. by eapply (rl_reads _ _ _ _ _ R).
  - destruct (_ || _); by apply rsim_stay.
  - unfold rlock_rel in Hlock. rewrite Hpc in Hlock. apply rsim_stay; [done| |done]. split; [done|]. exists []. split; [done|].
    intros ℓ. rewrite (Ho ℓ). unfold idx_in. cbn. by rewrite elem_of_nil.
  - by apply rcheck_sim.
  - apply rabort_sim; [by apply (rg_other g)|done|apply (rl_ph _ _ _ _ _ R)].
Qed.

(** ** Commit: locking, write-back and release *)

Lemma idx_in_app l1 l2 ℓ : idx_in (l1 ++ l2) ℓ ↔ idx_in l1 ℓ ∨ idx_in l2 ℓ.
Proof. unfold idx_in. by rewrite fmap_app, elem_of_app. Qed.
Lemma idx_in_cons a l ℓ : idx_in (a :: l) ℓ ↔ ℓ = lk a ∨ idx_in l ℓ.
Proof. unfold idx_in. cbn. by rewrite elem_of_cons. Qed.
Lemma idx_in_nil ℓ : ¬ idx_in [] ℓ.
Proof. unfold idx_in. cbn. apply not_elem_of_nil. Qed.

(** Only the holder of the commit lock owns entries. *)
Definition exclusive σ (i : nat) : Prop := ∀ ℓ j, own σ ℓ = Some j → j = i.

Lemma rset_sim i σ t g addr rem :
  (i < n)%nat → rg_rel g σ → rt_pc t = RSet (addr :: rem) → rpc_rel σ i t → rlock_rel σ i t → exclusive σ i →
  rsim i σ t (rg_set_entry g (lk addr) (rg_table g (lk addr) .| VERSION_LOCK_BIT), rgoto t (RSet rem)).
Proof.
  intros Hi G Hpc Hrel Hlock Hex. unfold rpc_rel in Hrel. unfold rlock_rel in Hlock. rewrite Hpc in Hrel, Hlock. destruct Hrel as (R & dn & Hdn & Ho). set (idx := lk addr) in *.
  assert (Hdn' : aw_sorted (rx_ws (rt_tx t)) = (dn ++ [addr]) ++ rem) by (by rewrite <- app_assoc).
  destruct (own σ idx) as [j|] eqn:Hown.
  - assert (j = i) as -> by (by eapply Hex). apply rsim_stay; [|split; [done|exists (dn ++ [addr])]; split; [done|]|done].
    + destruct G as [G1 G2 G3 G4 G5 G6]. split; try done. intros ℓ. cbn [rg_table rg_set_entry]. destruct (decide (ℓ = idx)) as [->|].
      * rewrite fn_lookup_insert, G4, Hown. apply gword_set_bit_again.
      * by rewrite fn_lookup_insert_ne.
    + intros ℓ. rewrite (Ho ℓ), idx_in_app, idx_in_cons. fold idx. split; [by left|]. intros [?|[->|Hx]]; [done| |by apply idx_in_nil in Hx]. by apply Ho.
  - exists (set_own σ idx (Some i)). split_and!.
    + apply rtc_once, lv_acquire; [apply (rl_ph _ _ _ _ _ R)|done].
    + destruct G as [G1 G2 G3 G4 G5 G6]. split; try done; cbn [fst rg_table rg_set_entry set_own own ver].
      * intros ℓ. destruct (decide (ℓ = idx)) as [->|]; [|by rewrite !fn_lookup_insert_ne]. rewrite !fn_lookup_insert, G4, Hown. apply gword_set_bit.
      * intros ℓ j. destruct (decide (ℓ = idx)) as [->|]; [rewrite fn_lookup_insert; by intros [= <-]|rewrite fn_lookup_insert_ne by done; apply G5].
    + split; [by destruct R|]. exists (dn ++ [addr]). split; [done|]. intros ℓ. cbn [set_own own]. rewrite idx_in_app, idx_in_cons. fold idx.
      pose proof (idx_in_nil ℓ). destruct (decide (ℓ = idx)) as [->|]; [rewrite fn_lookup_insert; naive_solver|].
      rewrite fn_lookup_insert_ne by done. rewrite (Ho ℓ). naive_solver.
    + done.
    + done.
Qed.

Lemma rinc_sim i σ t g g' t' :
  rg_rel g σ → rt_pc t = RInc → rpc_rel σ i t → rlock_rel σ i t → rcommit_step g t = Some (g', t') → rsim i σ t (g', t').
Proof.
  intros G Hpc Hrel Hlock Hs. unfold rpc_rel in Hrel. unfold rlock_rel in Hlock. unfold rcommit_step in Hs. rewrite Hpc in Hrel, Hlock, Hs. destruct Hrel as [R Ho].
  destruct (Z.leb_spec (2 ^ 63) (rg_clock g + 1)) as [|Hlt]; [done|]. injection Hs as <- <-. pose proof R as [H1 H2 H3 H4 H5].
  set (ws := rx_ws (rt_tx t)) in *. set (st := aw_stores ws (aw_sorted ws)). pose proof (rr_clock g σ G) as Hc. assert (Hcv : Z.to_nat (rg_clock g + 1) = S (clk σ)) by lia.
  assert (Hown : ∀ a, a ∈ st.*1 → own σ (lk a) = Some i).
  { intros x (a & e & Ha & He & Hx)%aw_stores_addr. apply Ho. rewrite (acc_index a (aw_type e) x); [|by eapply al_ok|done]. unfold idx_in. by apply list_elem_of_fmap_2. }
  pose proof (lv_increment version_index i σ st H1 Hown) as S1. set (σ1 := LVS _ _ _ _ _ _ _) in S1.
  assert (Hp1 : ph (thr σ1 i) = PInc (S (clk σ)) st) by (unfold σ1; cbn [thr]; by rewrite fn_lookup_insert).
  assert (Ht1 : rds (thr σ1 i) = rds (thr σ i) ∧ lrds (thr σ1 i) = [] ∧ fixd (thr σ1 i) = fixd (thr σ i)) by (unfold σ1; cbn [thr]; by rewrite fn_lookup_insert).
  destruct Ht1 as (Hr1 & Hl1 & Hf1). assert (S2 := lv_decide version_index i σ1 (S (clk σ)) st Hp1). rewrite Hr1, Hl1, Hf1, app_nil_r in S2.
  eexists. split_and!; [eapply rtc_l; [exact S1|]; apply rtc_once, S2| | |done|by rewrite Hpc].
  - intros a val v Hin. destruct (Hlock a val v Hin) as [?|(r & ?%elem_of_nil & _)]; done.
  - destruct G as [G1 G2 G3 G4 G5 G6]. split; try done; cbn [fst rg_clock clk σ1 rg_hist hist rg_table ver own].
    + lia.
    + unfold gver_ok. lia.
    + intros c. rewrite Hcv. destruct (decide (c = S (clk σ))) as [->|]; [|by rewrite !lookup_insert_ne]. rewrite !lookup_insert_eq. exists ws. done.
  - split; [cbn; lia|]. cbn [snd]. rewrite Hcv. cbn [thr]. rewrite fn_lookup_insert. split; [done|]. exact Ho.
Qed.

Lemma rver_sim i σ t g ts addr rem :
  lv_inv σ → rg_rel g σ → rt_pc t = RVer ts (addr :: rem) → rpc_rel σ i t → rlock_rel σ i t → exclusive σ i →
  rsim i σ t (rg_set_entry g (lk addr) (make_version_entry ts), rgoto t (RVer ts rem)).
Proof.
  intros I G Hpc Hrel Hlock Hex. unfold rpc_rel in Hrel. unfold rlock_rel in Hlock. rewrite Hpc in Hrel, Hlock. destruct Hrel as (Hts & Hp & dn & Hdn & Ho). set (idx := lk addr) in *.
  destruct (iv_dec _ _ σ I i _ _ Hp) as (_ & Hle & _). pose proof (make_entry_word _ (rgver_le g σ _ G Hle)) as Hme. rewrite Z2Nat.id in Hme by done.
  assert (Hdn' : aw_sorted (rx_ws (rt_tx t)) = (dn ++ [addr]) ++ rem) by (by rewrite <- app_assoc).
  destruct (decide (idx ∈ version_index <$> dn)) as [Hd|Hd].
  - assert (own σ idx = None) as Hnone. { destruct (own σ idx) as [j|] eqn:Hj; [|done]. assert (j = i) as -> by (by eapply Hex). apply Ho in Hj. naive_solver. }
    apply rsim_stay.
    + destruct G as [G1 G2 G3 G4 G5 G6]. split; try done. intros ℓ. cbn [rg_table rg_set_entry]. destruct (decide (ℓ = idx)) as [->|]; [|by rewrite fn_lookup_insert_ne].
      rewrite fn_lookup_insert, Hnone, (Hlock dn idx Hdn Hd). done.
    + split; [done|]. split; [done|]. exists (dn ++ [addr]). split; [done|]. intros ℓ. rewrite (Ho ℓ), idx_in_app, !idx_in_cons. fold idx. pose proof (idx_in_nil ℓ). naive_solver.
    + unfold rlock_rel. cbn [rt_pc rgoto]. intros dn2 ℓ Hd2 Hin. cbn [rt_tx rgoto] in Hd2. rewrite Hdn' in Hd2. apply app_inv_tail in Hd2 as <-. apply idx_in_app in Hin as [Hin|Hin]; [by eapply Hlock|].
      apply idx_in_cons in Hin as [->|Hx]; [by eapply Hlock|by apply idx_in_nil in Hx].
  - assert (Hown : own σ idx = Some i) by (apply Ho; split; [apply idx_in_cons; by left|done]).
    eexists. split_and!; [apply rtc_once, (lv_release_version _ _ _ _ _ Hp Hown)| | | |by rewrite Hpc].
    + destruct G as [G1 G2 G3 G4 G5 G6]. split; try done; cbn [fst rg_table rg_set_entry ver own].
      * intros ℓ. destruct (decide (ℓ = idx)) as [->|]; [by rewrite !fn_lookup_insert|by rewrite !fn_lookup_insert_ne].
      * intros ℓ j. destruct (decide (ℓ = idx)) as [->|]; [by rewrite fn_lookup_insert|rewrite fn_lookup_insert_ne by done; apply G5].
    + split; [done|]. split; [done|]. exists (dn ++ [addr]). split; [done|]. intros ℓ. cbn [own]. rewrite idx_in_app, idx_in_cons. fold idx. pose proof (idx_in_nil ℓ).
      destruct (decide (ℓ = idx)) as [->|]; [rewrite fn_lookup_insert; naive_solver|]. rewrite fn_lookup_insert_ne by done. rewrite (Ho ℓ), idx_in_cons. fold idx. naive_solver.
    + unfold rlock_rel. cbn [snd rt_pc rgoto]. intros dn2 ℓ Hd2 Hin. cbn [rt_tx rgoto ver] in *. rewrite Hdn' in Hd2. apply app_inv_tail in Hd2 as <-.
      destruct (decide (ℓ = idx)) as [->|]; [by rewrite fn_lookup_insert|]. rewrite fn_lookup_insert_ne by done. apply idx_in_app in Hin as [Hin|Hin]; [by eapply Hlock|].
      apply idx_in_cons in Hin as [->|Hx]; [done|by apply idx_in_nil in Hx].
Qed.

Lemma rcommit_sim i σ t g g' t' :
  (i < n)%nat → lv_inv σ → rg_rel g σ → rpc_rel σ i t → rlock_rel σ i t → exclusive σ i → rcommit_step g t = Some (g', t') → rsim i σ t (g', t').
Proof.
  intros Hi I G Hrel Hlock Hex Hs. pose proof Hs as Hs'. pose proof Hrel as Hrel'. unfold rpc_rel in Hrel. unfold rcommit_step in Hs.
  destruct (rt_pc t) as [| | | | | | | | | |[|addr rem]| |ts [|[a b] st]|ts [|addr rem]|] eqn:Hpc; try done.
  - injection Hs as <- <-. destruct Hrel as (R & dn & Hdn & Ho). rewrite app_nil_r in Hdn. unfold rlock_rel in Hlock. rewrite Hpc in Hlock.
    apply rsim_stay; [done| |done]. split; [done|]. cbn [rt_tx rgoto]. by rewrite Hdn.
  - injection Hs as <- <-. by apply rset_sim.
  - by eapply rinc_sim.
  - injection Hs as <- <-. destruct Hrel as (? & ? & Ho). apply rsim_stay; [done| |].
    + split; [done|]. split; [done|]. exists []. split; [done|]. intros ℓ. rewrite (Ho ℓ). cbn [rt_tx rgoto]. pose proof (idx_in_nil ℓ). naive_solver.
    + unfold rlock_rel. cbn [rt_pc rgoto]. intros dn ℓ Hd Hin. cbn [rt_tx rgoto] in Hd. apply (app_inv_tail _ [] dn) in Hd as <-. by apply idx_in_nil in Hin.
  - injection Hs as <- <-. destruct Hrel as (? & Hp & Ho). eexists. split_and!; [apply rtc_once, (lv_writeback _ _ _ _ _ _ _ Hp)| | |done|done].
    + destruct G as [G1 G2 G3 G4 G5 G6]. split; try done. cbn [fst rg_mem lmem]. by rewrite G1.
    + split; [done|]. split; [cbn [thr]; by rewrite fn_lookup_insert|done].
  - injection Hs as <- <-. destruct Hrel as (? & ? & dn & Hdn & Ho). apply rsim_stay; [done| |done]. split; [|by eexists]. intros ℓ. rewrite (Ho ℓ). pose proof (idx_in_nil ℓ). naive_solver.
  - injection Hs as <- <-. by apply rver_sim.
  - injection Hs as <- <-. destruct Hrel as (Ho & cv & Hp). apply rfinish_sim; [by apply (rg_other g)|done|done|done|]. right. right. right. by exists cv.
Qed.

(** ** Every step and every call *)

Lemma rstep_sim i σ t g g' t' :
  (i < n)%nat → lv_inv σ → rg_rel g σ → rpc_rel σ i t → rlock_rel σ i t → (holder (rt_pc t) = true → exclusive σ i) →
  rom_step g t = Some (g', t') → rsim i σ t (g', t').
Proof.
  intros Hi I G Hrel Hlock Hex Hs. unfold rom_step in Hs.
  destruct (rt_pc t) eqn:Hpc; try done; first [by eapply rread_step_sim | by eapply rvalidate_sim | eapply rcommit_sim; eauto].
Qed.

Lemma rcall_sim shared i σ t o g g' t' : rg_rel g σ → rpc_rel σ i t → rom_call shared o g t = Some (g', t') → rsim i σ t (g', t').
Proof.
  intros G Hrel Hs. unfold rom_call in Hs. destruct (rt_pc t) eqn:Hpc; try done. pose proof Hrel as Hrel'. unfold rpc_rel in Hrel'. rewrite Hpc in Hrel'. destruct Hrel' as [Ho Hr].
  assert (Hstay : ∀ t', t' = t → rsim i σ t (g, t')) by (intros ? ->; apply rsim_stay; [done|done|apply rlock_idle; by rewrite Hpc]).
  destruct o as [|sz a|sz a v junk| |].
  - injection Hs as <- <-. destruct (rx_active (rt_tx t)) eqn:Ha; [by apply Hstay|by apply rbegin_sim].
  - destruct (rx_active (rt_tx t)) eqn:Ha, (access_ok a sz) eqn:Hok; cbn [andb] in Hs; try done. injection Hs as <- <-. by apply rcall_read_sim.
  - destruct (rx_active (rt_tx t)) eqn:Ha, (access_ok a sz) eqn:Hok; cbn [andb] in Hs; try done. injection Hs as <- <-. by apply rcall_write_sim.
  - destruct (rx_active (rt_tx t)) eqn:Ha; cbn [negb] in Hs; [|injection Hs as <- <-; by apply Hstay]. destruct (negb (rx_read_only (rt_tx t)) && _).
    + injection Hs as <- <-. apply rsim_stay; [done| |done]. by split.
    + injection Hs as <- <-. apply rfinish_sim; [by apply (rg_other g)|done|done|done|]. right. left. apply (rl_ph _ _ _ _ _ Hr).
  - destruct (rx_active (rt_tx t)) eqn:Ha; [|done]. apply (inj Some) in Hs. rewrite <- Hs. apply rabort_sim; [done|done|apply (rl_ph _ _ _ _ _ Hr)].
Qed.
End Sim.
