(* ===== verification/RomulusSpec.v ===== *)
(** * What Romulus guarantees

    The committed update transactions of every interleaved execution are serializable in
    the order of their timestamps; the commit lock is held by one thread at a time, and it
    and the lock bits are free whenever no call is in progress; a commit that finds the
    lock free and runs alone returns.  Limits shown by executions: a transaction without
    writes commits unvalidated and may have read an inconsistent state, and a read wider
    than the write it meets returns bytes that were never stored. *)

From stdpp Require Import functions sorting.
From S2P Require Import Prelude Memory Values TMSpec LogMerge TxLog Interleave VersionedLocks Support AddrSet Romulus RomulusSim.
#[local] Open Scope Z_scope.

(** ** The commit lock *)

#[local] Abbreviation rholds := (λ t, holder (rt_pc t)).
#[local] Abbreviation rlocked g := (rg_commit_lock g ≠ 0).
Definition rlock_inv (g : rglobal) (ts : list rthread) : Prop := mutex rholds (rlocked g) ts.
#[local] Abbreviation rlock_change g t g' t' := (lock_change rholds (rlocked g) t (rlocked g') t').

Lemma rstep_lock g t g' t' : rom_step g t = Some (g', t') → rlock_change g t g' t'.
Proof.
  unfold rom_step, rread_step, rvalidate_step, rcommit_step, abort_tx, commit_end, lock_change. intros Hs.
  destruct (rt_pc t) as [|sz a|sz a before bs|sz a before bs|sz a bs| | |[|addr rem]|[|re rem]| |[|addr rem]| |cts [|[a b] st]|cts [|addr rem]|] eqn:Hpc; try done; cbn [holder];
    repeat match type of Hs with context [if ?b then _ else _] => destruct b eqn:?; cbn in Hs end; simplify_eq; cbn; rewrite ?Hpc; cbn; try done.
  - split; [|done]. rewrite (proj1 (Z.eqb_eq _ _)) by done. by intros Hn.
  - split; [|done]. intros _. by apply Z.eqb_neq.
  - lia.
  - lia.
Qed.

Lemma rcall_lock shared o g t g' t' : rom_call shared o g t = Some (g', t') → rlock_change g t g' t'.
Proof.
  unfold rom_call, abort_tx, commit_end, lock_change. intros Hs. destruct (rt_pc t) eqn:Hpc; try done. cbn [holder].
  assert (rg_commit_lock g' = rg_commit_lock g ∧ holder (rt_pc t') = false) as [-> ->]; [|done].
  destruct o; repeat match type of Hs with
    | context [if ?b then _ else _] => destruct b eqn:?; cbn in Hs
    | context [match ?b with Some _ => _ | None => _ end] => destruct b eqn:?; cbn in Hs
    end; simplify_eq; cbn; by rewrite ?Hpc.
Qed.

(** ** Executions *)

(** The relation of an execution to one of the abstract machine. *)
Definition rsys_rel (m : mem) (n : nat) (g : rglobal) (ts : list rthread) (σ : lvs) : Prop :=
  lv_reachable version_index m σ ∧ rg_rel n g σ ∧ length ts = n ∧ (∀ i t, ts !! i = Some t → rpc_rel σ i t ∧ rlock_rel σ i t) ∧ rlock_inv g ts.

Lemma rinit_rel m n : ∃ σ, rsys_rel m n (rom_init m) (rthread_init <$> seq 0 n) σ.
Proof.
  exists (LVS m 1 (λ _, O) (λ _, None) ∅ (λ _, LVT PIdle [] [] []) []).
  assert (Ht : ∀ i t, (rthread_init <$> seq 0 n) !! i = Some t → t = rthread_init i).
  { intros i t. rewrite list_lookup_fmap. intros (k & Hk & ->)%fmap_Some. apply lookup_seq in Hk as [-> _]. done. }
  split_and!; [| | | |split].
  - apply lv_init. by split_and!.
  - by split.
  - by rewrite length_fmap, length_seq.
  - intros i t ->%Ht. split; [|by apply rlock_idle]. by split.
  - by intros i j t u ->%Ht _ ?.
  - split; [done|]. intros (i & t & ->%Ht & ?). done.
Qed.

(** Entries are owned only by the thread in a commit. *)
Lemma rowner_holder m n g ts σ ℓ j :
  rsys_rel m n g ts σ → own σ ℓ = Some j → ∃ u, ts !! j = Some u ∧ holder (rt_pc u) = true.
Proof.
  intros (_ & G & Hlen & HT & _) Ho. destruct (lookup_lt_is_Some_2 ts j) as [u Hu]; [rewrite Hlen; by eapply (rr_own n g σ G)|]. exists u. split; [done|].
  destruct (HT j u Hu) as [Hp _]. unfold rpc_rel in Hp. destruct (rt_pc u); try done; destruct Hp as [Hown _]; by apply Hown in Ho.
Qed.

Lemma rsys_step m n g ts σ i t g' t' :
  rsys_rel m n g ts σ → ts !! i = Some t → rsim n i σ t (g', t') → rlock_change g t g' t' → ∃ σ', rsys_rel m n g' (<[i := t']> ts) σ'.
Proof.
  intros (Hreach & G & Hlen & HT & HL) Hi (σ' & Hs & G' & Rp & Rl & Hq) Hc. exists σ'. destruct (HT i t Hi) as [Hp _].
  destruct (steps_threads _ _ rpc_rel ts i t' σ σ' Hreach Hs) as [Hreach' HT']; [intros *; apply rpc_frame|intros j u Hj; by apply HT|done|].
  pose proof (lock_change_mutex _ _ _ _ _ _ _ HL Hi Hc) as HL'.
  split_and!; [done|done|by rewrite length_insert| |done].
  intros j u Hj. split; [by apply HT'|]. destruct (decide (j = i)) as [->|Hne].
  - rewrite list_lookup_insert_eq in Hj by (by eapply lookup_lt_Some). by injection Hj as <-.
  - rewrite list_lookup_insert_ne in Hj by done. destruct (holder (rt_pc u)) eqn:Hh; [|by apply rlock_idle].
    destruct (holder (rt_pc t)) eqn:Ht; [by destruct Hne; eapply (proj1 HL)|]. destruct (Hq eq_refl) as [Hc1 Hv1].
    destruct (steps_frame _ _ j i σ σ' (reachable_inv _ _ σ Hreach) Hs) as [_ F]; [done|]. apply (rlock_frame σ); [apply (fr_thr _ _ _ F)|done|done|by apply HT].
Qed.

Lemma rreachable_sim shared m n g ts : rreachable shared m n (g, ts) → ∃ σ, rsys_rel m n g ts σ.
Proof.
  revert g ts. apply (ix_invariant _ _ (λ g ts, ∃ σ, rsys_rel m n g ts σ)); [apply rinit_rel|..].
  - intros g ts i t o g' t' (σ & R) Ht Hc. pose proof R as (_ & G & _ & HT & _). destruct (HT i t Ht) as [Hp Hk].
    eapply rsys_step; [done|done|by eapply rcall_sim|by eapply rcall_lock].
  - intros g ts i t g' t' (σ & R) Ht Hc. pose proof R as (Hreach & G & Hlen & HT & HL). destruct (HT i t Ht) as [Hp Hk].
    eapply rsys_step; [done|done| |by eapply rstep_lock]. eapply rstep_sim; eauto; [rewrite <- Hlen; by eapply lookup_lt_Some|by apply (reachable_inv _ _ σ)|].
    intros Hh ℓ j Ho. destruct (rowner_holder m _ g ts σ ℓ j R Ho) as (u & Hu & Hhu). by eapply (proj1 HL).
Qed.

Definition all_keyed (h : gmap nat (list event)) : Prop := ∀ c evs, h !! c = Some evs → keyed evs = true.

Lemma rserial_at m n g σ k :
  lv_inv version_index m σ → rg_rel n g σ → all_keyed (rg_hist g) →
  ∃ M, serial m (rg_hist g) k = Some M ∧ ∀ x, mget M x = at_ver m (hist σ) k x.
Proof.
  intros I G Hd. eapply serial_history; [done|]. intros c. pose proof (rr_hist n g σ G c) as Hh. unfold rhist_rel, log_rel in *.
  destruct (rg_hist g !! c) as [evs|] eqn:Hg, (hist σ !! c) as [e|]; try done. destruct Hh as (ws & Hw & Hlog).
  intros M HM. rewrite Hw. apply (aw_log_commit (ce_reads e)); [done|apply aw_sorted_elem|by eapply Hd|done].
Qed.

(** A thread in the middle of its write-back. *)
Definition rwriting (t : rthread) : bool := match rt_pc t with RWb _ (_ :: _) => true | _ => false end.

Lemma rquiescent_mem m n g ts σ x :
  rsys_rel m n g ts σ → forallb (negb ∘ rwriting) ts = true → mget (rg_mem g) x = at_ver m (hist σ) (clk σ) x.
Proof.
  intros R Hq. pose proof R as (Hreach & G & Hlen & HT & _). pose proof (reachable_inv _ _ σ Hreach) as I.
  rewrite <- (iv_mem _ _ σ I), (rr_mem n g σ G). unfold pend. destruct (own σ (version_index x)) as [i|] eqn:Ho; [|done].
  destruct (ph (thr σ i)) as [| | |cv ws|] eqn:Hp; try done. destruct ws as [|s ws]; [done|]. exfalso.
  destruct (rowner_holder m n g ts σ _ i R Ho) as (t & Ht & Hh). destruct (HT i t Ht) as [Hpc _]. rewrite forallb_forall in Hq. specialize (Hq t).
  assert (In t ts) as Hin by (apply list_elem_of_In; by eapply list_elem_of_lookup_2). specialize (Hq Hin).
  unfold rwriting, rpc_rel, rrun_rel, compose in *. destruct (rt_pc t); try done;
    repeat match goal with H : _ ∧ _ |- _ => destruct H | H : rtx_rel _ _ _ _ _ |- _ => destruct H | H : ∃ _, _ |- _ => destruct H end; try congruence.
  all: match goal with H : ph _ = PDec _ _ |- _ => rewrite Hp in H; by simplify_eq end.
Qed.

(** ** Properties *)

(** C9: Romulus's update transactions are serializable.  In every interleaved execution,
    replaying the logs of the committed update transactions one after the other, in the
    order of their timestamps, succeeds: every read returns what it returned in the
    execution.  Whenever no thread is writing back, the result is the shared memory.  (For
    logs the address-keyed write set can represent: [keyed].) *)
Theorem romulus_serializable shared m n g ts :
  rreachable shared m n (g, ts) → all_keyed (rg_hist g) →
  ∃ m', serial m (rg_hist g) (Z.to_nat (rg_clock g)) = Some m' ∧
    (forallb (negb ∘ rwriting) ts = true → ∀ x, mget m' x = mget (rg_mem g) x).
Proof.
  intros Hr Hd. destruct (rreachable_sim shared m n g ts Hr) as (σ & R). pose proof R as (Hreach & G & _). pose proof (reachable_inv _ _ σ Hreach) as I.
  rewrite (rr_clock n g σ G), Nat2Z.id. destruct (rserial_at m n g σ (clk σ) I G Hd) as (M & HM & Hx). exists M. split; [done|].
  intros Hq x. rewrite Hx. symmetry. by eapply rquiescent_mem.
Qed.

(** Two threads: the first reads a word and writes another, while the second commits a
    write of a third word in between. *)
Definition romulus_schedule : list (nat * option rop) :=
  let run k i := replicate k (i, None) in
  [(0%nat, Some RBegin); (0%nat, Some (RRead UINT16 4096))] ++ run 4%nat 0%nat ++
  [(1%nat, Some RBegin); (1%nat, Some (RWriteOp UINT8 8200 9 (AnyT 0))); (1%nat, Some RCommit)] ++ run 3%nat 1%nat ++
  [(0%nat, Some (RWriteOp UINT32 4108 77 (AnyT 0))); (0%nat, Some RCommit)] ++ run 2%nat 0%nat ++ run 10%nat 1%nat ++ run 17%nat 0%nat.

Definition romulus_end : rglobal * list rthread :=
  default (rom_init ∅, []) (ix_run (rom_call (λ _, true)) rom_step (rom_init ∅, rthread_init <$> seq 0 2) romulus_schedule).

Lemma romulus_end_reachable : rreachable (λ _, true) ∅ 2 (romulus_end.1, romulus_end.2).
Proof. rewrite <- surjective_pairing. eapply (ix_run_reachable _ _ _ _ romulus_schedule); [apply ix_start|]. apply default_Some. vm_compute. reflexivity. Qed.

Lemma romulus_end_keyed : all_keyed (rg_hist romulus_end.1).
Proof.
  assert (map_Forall (λ _ evs, keyed evs = true) (rg_hist romulus_end.1)) as H; [|exact H].
  apply (bool_decide_unpack _). vm_compute. exact I.
Qed.

Lemma romulus_serializable_witness :
  size (rg_hist romulus_end.1) = 2%nat ∧
  ∃ m', serial ∅ (rg_hist romulus_end.1) (Z.to_nat (rg_clock romulus_end.1)) = Some m' ∧
    mget m' 4108 = mget (rg_mem romulus_end.1) 4108 ∧ mget (rg_mem romulus_end.1) 4108 = 77.
Proof.
  split; [vm_compute; reflexivity|].
  destruct (romulus_serializable (λ _, true) ∅ 2 romulus_end.1 romulus_end.2 romulus_end_reachable romulus_end_keyed) as (m' & Hm & Hq).
  exists m'. split; [exact Hm|]. split; [apply Hq; vm_compute; reflexivity|vm_compute; reflexivity].
Defined.

(** Locks are released: whenever no call is in progress, the commit lock is free, no entry
    of the version table is locked, and no version exceeds the clock; and at most one
    thread is ever past the commit lock. *)
Theorem romulus_locks_released shared m n g ts :
  rreachable shared m n (g, ts) →
  (∀ i j t u, ts !! i = Some t → ts !! j = Some u → holder (rt_pc t) = true → holder (rt_pc u) = true → i = j) ∧
  (forallb (λ t, match rt_pc t with RIdle => true | _ => false end) ts = true →
   rg_commit_lock g = 0 ∧ ∀ ℓ, entry_locked (rg_table g ℓ) = false ∧ read_version (rg_table g ℓ) ≤ rg_clock g).
Proof.
  intros Hr. destruct (rreachable_sim shared m n g ts Hr) as (σ & R). pose proof R as (Hreach & G & Hlen & HT & HL). split; [apply HL|]. intros Hq.
  assert (Hno : ∀ j u, ts !! j = Some u → holder (rt_pc u) = false).
  { intros j u Hu. rewrite forallb_forall in Hq. specialize (Hq u). rewrite <- list_elem_of_In in Hq. specialize (Hq (list_elem_of_lookup_2 _ _ _ Hu)). by destruct (rt_pc u). }
  split.
  - destruct (Z.eq_dec (rg_commit_lock g) 0) as [|Hne]; [done|]. apply HL in Hne as (i & t & Hi & Hh). by rewrite (Hno i t Hi) in Hh.
  - intros ℓ. rewrite (rr_table n g σ G), entry_locked_word, read_version_word, (rr_clock n g σ G). pose proof (iv_ver _ _ σ (reachable_inv _ _ σ Hreach) ℓ). split; [|lia].
    destruct (own σ ℓ) as [i|] eqn:Ho; [|done]. destruct (rowner_holder m n g ts σ ℓ i R Ho) as (u & Hu & Hh). by rewrite (Hno i u Hu) in Hh.
Qed.

(** ** Progress *)

(** A thread that runs alone until its call returns, for at most [k] steps. *)
Fixpoint rsolo (k : nat) (g : rglobal) (t : rthread) : option (rglobal * rthread) :=
  match rt_pc t with
  | RIdle => Some (g, t)
  | _ => match k with O => None | S k' => gt ← rom_step g t; rsolo k' gt.1 gt.2 end
  end.

Definition rsteps_left (t : rthread) : nat :=
  let ws := rx_ws (rt_tx t) in
  let addrs := length (aw_sorted ws) in
  let stores := length (aw_stores ws (aw_sorted ws)) in
  match rt_pc t with
  | RIdle => 0
  | REntry sz _ => 2 + type_size sz
  | RBytes sz _ _ bs => 1 + (type_size sz - length bs)
  | RAfter _ _ _ _ => 1
  | RDirect sz _ bs => type_size sz - length bs
  | RLockLoad => 3 * addrs + length (rx_rs (rt_tx t)) + stores + 9
  | RLockXchg => 3 * addrs + length (rx_rs (rt_tx t)) + stores + 8
  | RValW rem => length rem + length (rx_rs (rt_tx t)) + 2 * addrs + stores + 7
  | RValR rem => length rem + 2 * addrs + stores + 6
  | RFail => 1
  | RSet rem => length rem + addrs + stores + 5
  | RInc => addrs + stores + 4
  | RWb _ st => length st + addrs + 3
  | RVer _ rem => length rem + 2
  | RUnlock => 1
  end.

Definition rcan_run (g : rglobal) (t : rthread) : Prop :=
  rg_clock g + 1 < 2 ^ 63 ∨ (match rt_pc t with RWb _ _ | RVer _ _ | RUnlock => True | _ => False end).
Definition rready (g : rglobal) (t : rthread) : Prop :=
  rcan_run g t ∧
  match rt_pc t with
  | RLockLoad | RLockXchg => rg_commit_lock g = 0
  | RBytes sz _ _ bs | RDirect sz _ bs => (length bs < type_size sz)%nat
  | _ => True
  end.

Lemma rstep_left g t :
  rt_pc t ≠ RIdle → rready g t → ∃ g' t', rom_step g t = Some (g', t') ∧ (rt_pc t' = RIdle ∨ rready g' t') ∧ (rsteps_left t' < rsteps_left t)%nat.
Proof.
  destruct t as [x pc r l]. intros Hpc [Hc Hr]. unfold rom_step.
  destruct pc as [|sz a|sz a before bs|sz a before bs|sz a bs| | |[|addr rem]|[|re rem]| |[|addr rem]| |cts [|[a b] st]|cts [|addr rem]|];
    cbn [rt_pc] in *; try done; unfold rread_step, rvalidate_step, rcommit_step; cbn [rt_pc rt_tx].
  - destruct (entry_locked _); do 2 eexists; (split; [done|]); cbn; [split; [by left|lia]|]. pose proof (type_size_range sz). split; [right; split; [by left; destruct Hc|cbn; lia]|lia].
  - do 2 eexists. split; [done|]. rewrite length_app. cbn [length]. destruct (Nat.leb_spec (type_size sz) (length bs + 1)); cbn; rewrite ?length_app; cbn.
    + split; [right; split; [by left; destruct Hc|done]|lia].
    + split; [right; split; [by left; destruct Hc|cbn; rewrite length_app; cbn; lia]|lia].
  - destruct (_ =? _); do 2 eexists; (split; [done|]); cbn; (split; [by left|lia]).
  - do 2 eexists. split; [done|]. rewrite length_app. cbn [length]. destruct (Nat.leb_spec (type_size sz) (length bs + 1)); cbn; rewrite ?length_app; cbn.
    + split; [by left|lia].
    + split; [right; split; [by left; destruct Hc|cbn; rewrite length_app; cbn; lia]|lia].
  - rewrite Hr, Z.eqb_refl. do 2 eexists. split; [done|]. split; [right; split; [by left; destruct Hc|done]|]. cbn -[aw_sorted aw_stores Nat.mul]. lia.
  - rewrite Hr, Z.eqb_refl. do 2 eexists. split; [done|]. split; [right; split; [by left; destruct Hc|done]|]. cbn -[aw_sorted aw_stores Nat.mul]. lia.
  - do 2 eexists. split; [done|]. split; [right; split; [by left; destruct Hc|done]|]. cbn -[aw_sorted aw_stores Nat.mul]. lia.
  - destruct (_ || _); do 2 eexists; (split; [done|]); (split; [right; split; [by left; destruct Hc|done]|]); cbn -[aw_sorted aw_stores Nat.mul]; lia.
  - do 2 eexists. split; [done|]. split; [right; split; [by left; destruct Hc|done]|]. cbn -[aw_sorted aw_stores Nat.mul]. lia.
  - destruct (_ || _); do 2 eexists; (split; [done|]); (split; [right; split; [by left; destruct Hc|done]|]); cbn -[aw_sorted aw_stores Nat.mul]; lia.
  - do 2 eexists. split; [done|]. split; [by left|]. cbn. lia.
  - do 2 eexists. split; [done|]. split; [right; split; [by left; destruct Hc|done]|]. cbn -[aw_sorted aw_stores Nat.mul]. lia.
  - do 2 eexists. split; [done|]. split; [right; split; [by left; destruct Hc|done]|]. cbn -[aw_sorted aw_stores Nat.mul]. lia.
  - destruct Hc as [Hc|[]]. rewrite (proj2 (Z.leb_gt _ _) Hc). do 2 eexists. split; [done|]. split; [right; split; [by right|done]|]. cbn -[aw_sorted aw_stores Nat.mul]. lia.
  - do 2 eexists. split; [done|]. split; [right; split; [by right|done]|]. cbn -[aw_sorted aw_stores Nat.mul]. lia.
  - do 2 eexists. split; [done|]. split; [right; split; [by right|done]|]. cbn -[aw_sorted aw_stores Nat.mul]. lia.
  - do 2 eexists. split; [done|]. split; [right; split; [by right|done]|]. cbn -[aw_sorted aw_stores Nat.mul]. lia.
  - do 2 eexists. split; [done|]. split; [right; split; [by right|done]|]. cbn -[aw_sorted aw_stores Nat.mul]. lia.
  - do 2 eexists. split; [done|]. split; [by left|]. cbn. lia.
Qed.

Lemma rsolo_returns k g t : rt_pc t = RIdle ∨ rready g t → (rsteps_left t ≤ k)%nat → ∃ g' t', rsolo k g t = Some (g', t') ∧ rt_pc t' = RIdle.
Proof.
  revert g t. induction k as [|k IH]; intros g t Hc Hk; (assert (rt_pc t = RIdle ∨ rt_pc t ≠ RIdle) as [Hi|Hi] by (destruct (rt_pc t); auto)).
  - exists g, t. simpl. by rewrite Hi.
  - destruct Hc as [?|Hc]; [done|]. destruct (rstep_left g t Hi Hc) as (g' & t' & _ & _ & ?). lia.
  - exists g, t. simpl. by rewrite Hi.
  - destruct Hc as [?|Hc]; [done|]. destruct (rstep_left g t Hi Hc) as (g1 & t1 & Hs & Hc1 & Hlt). destruct (IH g1 t1 Hc1) as (g2 & t2 & H2 & ?); [lia|]. exists g2, t2.
    split; [|done]. cbn [rsolo]. rewrite Hs. by destruct (rt_pc t).
Qed.

(** A commit that finds the commit lock free and runs alone returns, committed or aborted,
    within three steps per written address, one per read and one per byte written back. *)
Theorem romulus_commit_returns shared g t :
  rt_pc t = RIdle → rg_clock g + 1 < 2 ^ 63 → rg_commit_lock g = 0 →
  ∃ g1 t1, rom_call shared RCommit g t = Some (g1, t1) ∧
    let ws := rx_ws (rt_tx t) in
    ∃ g2 t2, rsolo (3 * length (aw_sorted ws) + length (rx_rs (rt_tx t)) + length (aw_stores ws (aw_sorted ws)) + 9) g1 t1 = Some (g2, t2) ∧ rt_pc t2 = RIdle.
Proof.
  intros Hpc Hc Hl. unfold rom_call. rewrite Hpc. destruct (rx_active (rt_tx t)); cbn [negb]; [destruct (_ && _)|];
    do 2 eexists; (split; [done|]); apply rsolo_returns.
  - right. split; [by left|done].
  - done.
  - by left.
  - cbn. lia.
  - by left.
  - unfold rsteps_left. rewrite Hpc. lia.
Qed.

(** ** Limits *)

(** The first thread reads one word before and another after the second thread commits
    writes to both, and commits without writes. *)
Definition romulus_skew_schedule : list (nat * option rop) :=
  [(0%nat, Some RBegin); (0%nat, Some (RRead UINT8 4096)); (0%nat, None); (0%nat, None); (0%nat, None);
   (1%nat, Some RBegin); (1%nat, Some (RWriteOp UINT8 4096 1 (AnyT 0))); (1%nat, Some (RWriteOp UINT8 8192 1 (AnyT 0))); (1%nat, Some RCommit)] ++
  replicate 17 (1%nat, None) ++
  [(0%nat, Some (RRead UINT8 8192)); (0%nat, None); (0%nat, None); (0%nat, None); (0%nat, Some RCommit)].
Definition romulus_skew : rglobal * list rthread :=
  default (rom_init ∅, []) (ix_run (rom_call (λ _, true)) rom_step (rom_init ∅, rthread_init <$> seq 0 2) romulus_skew_schedule).

Lemma romulus_skew_reachable : rreachable (λ _, true) ∅ 2 (romulus_skew.1, romulus_skew.2).
Proof. rewrite <- surjective_pairing. eapply (ix_run_reachable _ _ _ _ romulus_skew_schedule); [apply ix_start|]. apply default_Some. vm_compute. reflexivity. Qed.

(** A transaction without writes commits although no state of the serial execution, at any
    timestamp, explains what it read. *)
Theorem romulus_read_only_inconsistent :
  ∃ g ts evs, rreachable (λ _, true) ∅ 2 (g, ts) ∧ evs ∈ rg_ro g ∧ keyed evs = true ∧ (∀ c, (2 < c)%nat → rg_hist g !! c = None) ∧
    ∀ k m', (k ≤ 2)%nat → serial ∅ (rg_hist g) k = Some m' → replay m' evs = None.
Proof.
  exists romulus_skew.1, romulus_skew.2, [EvR 4096 UINT8 0; EvR 8192 UINT8 1]. split; [apply romulus_skew_reachable|].
  assert (rg_ro romulus_skew.1 = [[EvR 4096 UINT8 0; EvR 8192 UINT8 1]]) as -> by (vm_compute; reflexivity). split; [left|]. split; [done|]. split.
  - assert (map_Forall (λ c _, (c ≤ 2)%nat) (rg_hist romulus_skew.1)) as H by (apply (bool_decide_unpack _); vm_compute; exact I).
    intros c Hc. destruct (rg_hist romulus_skew.1 !! c) eqn:Hl; [|done]. apply H in Hl. lia.
  - assert (Hk : ∀ k, (k ≤ 2)%nat → from_option (λ m, replay m [EvR 4096 UINT8 0; EvR 8192 UINT8 1]) None (serial ∅ (rg_hist romulus_skew.1) k) = None).
    { intros k Hk. destruct k as [|[|[|k]]]; [vm_compute; reflexivity..|lia]. }
    intros k m' Hle Hs. specialize (Hk k Hle). by rewrite Hs in Hk.
Qed.

(** A byte stored over a union that holds other bytes above it. *)
Lemma fill_low_byte b junk :
  0 ≤ b < 256 → 0 ≤ junk < 2 ^ 56 → u8 (fill_any_type (AnyT (256 * junk)) (λ n, le_bytes n b) UINT8) = 256 * junk + b.
Proof.
  intros Hb Hj. transitivity (b mod 256 + 256 * le_word (le_bytes 7 (256 * junk / 256))); [reflexivity|].
  rewrite (Z.mul_comm 256 junk), Z.div_mul, le_word_le_bytes by lia. unfold wrap. change (8 * Z.of_nat 7) with 56.
  rewrite (Z.mod_small junk), (Z.mod_small b) by lia. lia.
Qed.

(** A read that is wider than the write it meets returns the bytes the local union of the
    write happened to hold, not those of memory. *)
Theorem romulus_wide_read_junk shared g t a b junk :
  rt_pc t = RIdle → rx_active (rt_tx t) = true → access_ok a UINT8 = true → access_ok a UINT64 = true → 0 ≤ b < 256 → 0 ≤ junk < 2 ^ 56 →
  ∃ t1 t2, rom_call shared (RWriteOp UINT8 a b (AnyT (256 * junk))) g t = Some (g, t1) ∧ rom_call shared (RRead UINT64 a) g t1 = Some (g, t2) ∧
    rt_ret t2 = 256 * junk + b.
Proof.
  intros Hpc Ha H1 H8 Hb Hj. unfold rom_call. rewrite Hpc, Ha, H1. cbn [andb]. do 2 eexists. split; [done|]. cbn [rt_pc rt_tx write_word rx_active rx_ws]. rewrite Ha, H8. cbn [andb]. unfold aw_put.
  rewrite lookup_insert_eq. split; [done|]. cbn [rt_ret rread_done aw_new]. unfold return_any_type. rewrite any_get_wrap by (cbn; lia). cbn [type_size].
  rewrite fill_low_byte by done. unfold wrap. change (8 * Z.of_nat 8) with 64. apply Z.mod_small. lia.
Qed.
