(* ===== verification/LeftRight.v ===== *)
(** * Left-right (leftright/leftright.hpp)

    Optimistic transactions with a global commit lock and value-based validation: the first
    read of an address logs the clock and the value; an update commit takes the lock,
    compares every logged value with memory, increments the clock, writes back and releases
    the lock.  Addresses outside the transactional region are read and written in place.
    When the queue runtime is active ([queue]: [isQueueActive]), reads are not logged and a
    commit writes back without the lock.

    Operations on shared memory are interleaved steps, one per atomic access; data are
    loaded and stored byte by byte.  Executions in which the 64-bit clock would wrap are
    not followed further.  The iteration order of the hash tables is not
    specified: a commit is given the orders in which it meets the read set and the write
    set.  [shared] stands for [isTMAddress(a) || isTMGlobal(a)] ([Region]). *)

From stdpp Require Import functions sorting.
From S2P Require Import Prelude Memory Values TMSpec LogMerge TxLog Interleave Support AddrSet.
#[local] Open Scope Z_scope.

Record ReadLogEntry := RLE { rl_type : ValueType; rl_addr : Z; rl_version : Z; rl_value : any_type_t }.

Record ltx := LTx {
  lx_id : Z; lx_start : Z; lx_end : Z; lx_active : bool; lx_read_only : bool; lx_abort_count : Z; lx_is_retry : bool;
  lx_rs : gmap Z ReadLogEntry; lx_ws : awset;
}.

(** [Transaction::reset] and [clear]. *)
Definition ltx_reset (x : ltx) : ltx := LTx (lx_id x) 0 0 false true 0 false ∅ ∅.
Definition ltx_begun (x : ltx) (clock : Z) : ltx :=
  LTx (lx_id x) clock clock true true (if lx_is_retry x then lx_abort_count x else 0) false ∅ ∅.
Definition ltx_aborted (x : ltx) : ltx :=
  LTx (lx_id x) (lx_start x) (lx_end x) false (lx_read_only x) (lx_abort_count x + 1) true ∅ ∅.
Definition ltx_written (x : ltx) : ltx :=
  LTx (lx_id x) (lx_start x) (lx_end x) (lx_active x) false (lx_abort_count x) (lx_is_retry x) (lx_rs x) (lx_ws x).
Definition ltx_put (x : ltx) (addr : Z) (val : any_type_t) (sz : ValueType) : ltx :=
  LTx (lx_id x) (lx_start x) (lx_end x) (lx_active x) false (lx_abort_count x) (lx_is_retry x) (lx_rs x) (aw_put (lx_ws x) addr val sz).
Definition ltx_log (x : ltx) (addr : Z) (e : ReadLogEntry) : ltx :=
  LTx (lx_id x) (lx_start x) (lx_end x) (lx_active x) (lx_read_only x) (lx_abort_count x) (lx_is_retry x) (<[addr := e]> (lx_rs x)) (lx_ws x).

(** [validate]: no read was logged at a clock beyond the transaction's end version. *)
Definition lr_validate (x : ltx) : bool := bool_decide (map_Forall (λ _ r, rl_version r ≤ lx_end x) (lx_rs x)).

(** [extend], which nothing calls. *)
Definition lr_extend (x : ltx) (clock : Z) : option ltx :=
  if lr_validate x then
    Some (LTx (lx_id x) (lx_start x) clock (lx_active x) (lx_read_only x) (lx_abort_count x) (lx_is_retry x) (lx_rs x) (lx_ws x))
  else None.

(** The point a call has reached; [ro] and [wo] are the orders of the read and write set
    still to visit. *)
Inductive lpc :=
  | LIdle
  | LBytes (sz : ValueType) (a : Z) (bs : list Z)
  | LClock (sz : ValueType) (a : Z) (val : any_type_t)
  | LDirectR (sz : ValueType) (a : Z) (bs : list Z)
  | LDirectW (st : list (Z * Z))
  | LLock (ro wo : list Z)
  | LCheck (ro wo : list Z) (bs : list Z)
  | LInc (wo : list Z)
  | LWb (st : list (Z * Z))
  | LUnlock
  | LFail
  | LQInc (wo : list Z)
  | LQWb (st : list (Z * Z)).

(** A thread: its transaction, the point of its call, the value last returned, and (ghost)
    the transactional reads and writes so far. *)
Record lthread := LT { lt_tx : ltx; lt_pc : lpc; lt_ret : Z; lt_log : list event }.

(** Shared state; [lg_hist] and [lg_ro] are ghost: the logs of the committed update
    transactions by commit version, and those of the transactions without writes. *)
Record lglobal := LG {
  lg_mem : mem; lg_clock : Z; lg_lock : Z; lg_token : Z; lg_aborts : Z; lg_hist : gmap nat (list event); lg_ro : list (list event);
}.

Definition lg_set_lock (g : lglobal) (l : Z) : lglobal := LG (lg_mem g) (lg_clock g) l (lg_token g) (lg_aborts g) (lg_hist g) (lg_ro g).
Definition lg_store (g : lglobal) (a b : Z) : lglobal :=
  LG (<[a := b]> (lg_mem g)) (lg_clock g) (lg_lock g) (lg_token g) (lg_aborts g) (lg_hist g) (lg_ro g).
(** The next value of the clock does not fit its word. *)
Definition clock_full (g : lglobal) : bool := 2 ^ 64 <=? lg_clock g + 1.
(** [increment_clock], recording the log of the transaction under the new version. *)
Definition lg_increment (g : lglobal) (evs : list event) : lglobal :=
  LG (lg_mem g) (lg_clock g + 1) (lg_lock g) (lg_token g) (lg_aborts g) (<[Z.to_nat (lg_clock g + 1) := evs]> (lg_hist g)) (lg_ro g).

Definition lgoto (t : lthread) (p : lpc) : lthread := LT (lt_tx t) p (lt_ret t) (lt_log t).

(** [abort_tx]: back to the start of the transaction ([siglongjmp]). *)
Definition lr_abort (g : lglobal) (t : lthread) : lglobal * lthread :=
  (LG (lg_mem g) (lg_clock g) (lg_lock g) (SpinToken.tm_token_release_if_held (lg_token g) (lx_id (lt_tx t))) (lg_aborts g + 1) (lg_hist g) (lg_ro g),
   LT (ltx_aborted (lt_tx t)) LIdle (lt_ret t) []).

(** The end of [commit]. *)
Definition lr_commit_end (g : lglobal) (t : lthread) : lglobal * lthread :=
  (LG (lg_mem g) (lg_clock g) (lg_lock g) (SpinToken.tm_token_release (lg_token g)) (lg_aborts g) (lg_hist g) (lg_ro g),
   LT (ltx_reset (lt_tx t)) LIdle 1 []).

Definition lread_done (t : lthread) (sz : ValueType) (a v : Z) : lthread :=
  LT (lt_tx t) LIdle v (lt_log t ++ [EvR a sz v]).

(** An order of the keys of a map. *)
Definition key_order {E} (l : list Z) (m : gmap Z E) : bool := bool_decide (NoDup l ∧ list_to_set (C := gset Z) l = dom m).

Inductive lop :=
  | LBegin
  | LRead (sz : ValueType) (a : Z)
  | LWriteOp (sz : ValueType) (a v : Z) (junk : any_type_t)
  | LCommit (ro wo : list Z)
  | LAbort.

Section Steps.
Context (shared : Z → bool) (queue : bool).

Definition lr_call (o : lop) (g : lglobal) (t : lthread) : option (lglobal * lthread) :=
  let x := lt_tx t in
  match lt_pc t with
  | LIdle =>
      match o with
      | LBegin => Some (g, if lx_active x then t else LT (ltx_begun x (lg_clock g)) LIdle 1 [])
      | LRead sz a =>
          if lx_active x && access_ok a sz then
            Some (g, match lx_ws x !! a with
                     | Some w => lread_done t sz a (return_any_type sz (aw_new w))
                     | None => if shared a then lgoto t (LBytes sz a []) else lgoto t (LDirectR sz a [])
                     end)
          else None
      | LWriteOp sz a v junk =>
          if lx_active x && access_ok a sz then
            let w := fill_any_type junk (λ n, le_bytes n v) sz in
            Some (g, if shared a
                     then LT (ltx_put x a w sz) LIdle (lt_ret t) (lt_log t ++ [EvW a sz (return_any_type sz w)])
                     else LT (ltx_written x) (LDirectW (value_stores a w sz)) (lt_ret t) (lt_log t))
          else None
      | LCommit ro wo =>
          if negb (lx_active x) then Some (g, t)
          else if lx_read_only x then
            Some (lr_commit_end (LG (lg_mem g) (lg_clock g) (lg_lock g) (lg_token g) (lg_aborts g) (lg_hist g) (lt_log t :: lg_ro g)) t)
          else if key_order ro (lx_rs x) && key_order wo (lx_ws x) then
            Some (if lr_validate x then (g, lgoto t (if queue then LQInc wo else LLock ro wo)) else lr_abort g t)
          else None
      | LAbort => if lx_active x then Some (lr_abort g t) else None
      end
  | _ => None
  end.

(** [read_word] and [write_word] in memory. *)
Definition laccess_step (g : lglobal) (t : lthread) : option (lglobal * lthread) :=
  let x := lt_tx t in
  match lt_pc t with
  | LBytes sz a bs =>
      let bs' := bs ++ [mget (lg_mem g) (a + Z.of_nat (length bs))] in
      Some (g, if (type_size sz <=? length bs')%nat then
                 let val := AnyT (le_word bs') in
                 if negb queue && negb (bool_decide (is_Some (lx_rs x !! a))) then lgoto t (LClock sz a val)
                 else lread_done t sz a (return_any_type sz val)
               else lgoto t (LBytes sz a bs'))
  | LClock sz a val =>
      Some (g, lread_done (LT (ltx_log x a (RLE sz a (lg_clock g) val)) LIdle (lt_ret t) (lt_log t)) sz a (return_any_type sz val))
  | LDirectR sz a bs =>
      let bs' := bs ++ [mget (lg_mem g) (a + Z.of_nat (length bs))] in
      Some (g, if (type_size sz <=? length bs')%nat
               then LT x LIdle (return_any_type sz (AnyT (le_word bs'))) (lt_log t)
               else lgoto t (LDirectR sz a bs'))
  | LDirectW ((a, b) :: st) => Some (lg_store g a b, lgoto t (LDirectW st))
  | LDirectW [] => Some (g, lgoto t LIdle)
  | _ => None
  end.

(** Phases 2 to 5 of [commit], and its queue mode. *)
Definition lcommit_step (g : lglobal) (t : lthread) : option (lglobal * lthread) :=
  let x := lt_tx t in
  match lt_pc t with
  | LLock ro wo =>
      Some (if lg_lock g =? 0 then (lg_set_lock g 1, lgoto t (if lr_validate x then LCheck ro wo [] else LFail)) else (g, t))
  | LCheck (a :: ro) wo bs =>
      match lx_rs x !! a with
      | Some r =>
          let bs' := bs ++ [mget (lg_mem g) (rl_addr r + Z.of_nat (length bs))] in
          Some (g, if (type_size (rl_type r) <=? length bs')%nat then
                     if bool_decide (any_store (type_size (rl_type r)) (AnyT (le_word bs')) = any_store (type_size (rl_type r)) (rl_value r))
                     then lgoto t (LCheck ro wo []) else lgoto t LFail
                   else lgoto t (LCheck (a :: ro) wo bs'))
      | None => None
      end
  | LCheck [] wo _ => Some (g, lgoto t (LInc wo))
  | LInc wo => if clock_full g then None else Some (lg_increment g (lt_log t), lgoto t (LWb (aw_stores (lx_ws x) wo)))
  | LWb ((a, b) :: st) => Some (lg_store g a b, lgoto t (LWb st))
  | LWb [] => Some (g, lgoto t LUnlock)
  | LUnlock => Some (lr_commit_end (lg_set_lock g 0) t)
  | LFail => Some (lr_abort (lg_set_lock g 0) t)
  | LQInc wo => if clock_full g then None else Some (lg_increment g (lt_log t), lgoto t (LQWb (aw_stores (lx_ws x) wo)))
  | LQWb ((a, b) :: st) => Some (lg_store g a b, lgoto t (LQWb st))
  | LQWb [] => Some (lr_commit_end g t)
  | _ => None
  end.

Definition lr_step (g : lglobal) (t : lthread) : option (lglobal * lthread) :=
  match lt_pc t with
  | LIdle => None
  | LBytes _ _ _ | LClock _ _ _ | LDirectR _ _ _ | LDirectW _ => laccess_step g t
  | _ => lcommit_step g t
  end.

(** ** Interleaved executions *)

(** [init], and [init_thread] for [n] threads: ids count from one. *)
Definition lthread_init (i : nat) : lthread := LT (LTx (Z.of_nat i + 1) 0 0 false true 0 false ∅ ∅) LIdle 0 [].
Definition lr_init (m : mem) : lglobal := LG m 1 0 SpinToken.FREE 0 ∅ [].

Definition lreachable (m : mem) (n : nat) : lglobal * list lthread → Prop :=
  ix_reachable lr_call lr_step (lr_init m, lthread_init <$> seq 0 n).
End Steps.
