(* ===== verification/LeftRightSpec.v ===== *)
(** * What Left-right guarantees

    Outside the queue mode, the committed update transactions are serializable in the order
    of their commit versions, provided that no transaction reads an address twice from
    memory ([single_reads]; [repeatable] is all the proof needs): only the first read of an
    address is logged and validated.  Limits shown by executions: such a second read, a transaction without
    writes, and two workers of the queue mode. *)

From stdpp Require Import functions sorting.
From S2P Require Import Prelude Memory Values TMSpec LogMerge TxLog Interleave VersionedLocks Support AddrSet LeftRight.
#[local] Open Scope Z_scope.

(** ** Repeated reads *)

(** Addresses written, first reads of addresses not written before, and whether the later
    reads of such an address repeat the first. *)
Record reads := Reads { rr_written : list Z; rr_first : gmap Z (ValueType * Z); rr_ok : bool }.

Definition reads_step (r : reads) (ev : event) : reads :=
  match ev with
  | EvW a _ _ => Reads (a :: rr_written r) (rr_first r) (rr_ok r)
  | EvR a sz v =>
      if bool_decide (a ∈ rr_written r) then r
      else match rr_first r !! a with
           | Some (sz0, v0) => Reads (rr_written r) (rr_first r) (rr_ok r && bool_decide (sz = sz0 ∧ v = v0))
           | None => Reads (rr_written r) (<[a := (sz, v)]> (rr_first r)) (rr_ok r)
           end
  end.
Definition reads_of (evs : list event) : reads := foldl reads_step (Reads [] ∅ true) evs.
Definition repeatable (evs : list event) : bool := rr_ok (reads_of evs).

(** No address is read twice from memory: a condition on the calls alone, not on what they
    return. *)
Fixpoint reads_once (written seen : list Z) (evs : list event) : bool :=
  match evs with
  | [] => true
  | EvW a _ _ :: evs' => reads_once (a :: written) seen evs'
  | EvR a _ _ :: evs' =>
      if bool_decide (a ∈ written) then reads_once written seen evs'
      else bool_decide (a ∉ seen) && reads_once written (a :: seen) evs'
  end.
Definition single_reads (evs : list event) : bool := reads_once [] [] evs.

Lemma reads_once_ok evs r seen :
  rr_ok r = true → (∀ a, is_Some (rr_first r !! a) → a ∈ seen) → reads_once (rr_written r) seen evs = true → rr_ok (foldl reads_step r evs) = true.
Proof.
  revert r seen. induction evs as [|[a sz v|a sz v] evs IH]; intros r seen Hok Hf Hr; cbn [foldl reads_once reads_step] in *; [done| |].
  - case_bool_decide; [by eapply IH|]. apply andb_prop in Hr as [Hn%bool_decide_eq_true Hr]. destruct (rr_first r !! a) as [[sz0 v0]|] eqn:Ha.
    + destruct Hn. apply Hf. by rewrite Ha.
    + eapply IH; [done| |exact Hr]. cbn [rr_first]. intros b [x [[-> _]|[_ Hb]]%lookup_insert_Some]; [by left|]. right. apply Hf. by eexists.
  - by eapply IH.
Qed.

Lemma single_reads_repeatable evs : single_reads evs = true → repeatable evs = true.
Proof. intros Hs. eapply reads_once_ok; [done| |exact Hs]. intros a [x Hx]. cbn in Hx. by rewrite lookup_empty in Hx. Qed.

Lemma reads_snoc evs ev : reads_of (evs ++ [ev]) = reads_step (reads_of evs) ev.
Proof. unfold reads_of. by rewrite foldl_app. Qed.

(** ** The bytes a read set holds *)

Definition entry_bytes (e : ReadLogEntry) : list Z := any_store (type_size (rl_type e)) (rl_value e).
Definition captured (rs : gmap Z ReadLogEntry) : list (Z * Z) := concat ((λ p, at_addr p.1 (entry_bytes p.2)) <$> map_to_list rs).

Lemma entry_bytes_length e : length (entry_bytes e) = type_size (rl_type e).
Proof. unfold entry_bytes. pose proof (type_size_range (rl_type e)). by rewrite any_store_le, length_le_bytes by lia. Qed.

Lemma entry_bytes_value e : return_any_type (rl_type e) (AnyT (le_word (entry_bytes e))) = return_any_type (rl_type e) (rl_value e).
Proof.
  unfold entry_bytes, return_any_type. pose proof (type_size_range (rl_type e)). rewrite any_store_le by lia. rewrite !any_get_wrap by lia. cbn [u8].
  rewrite le_word_le_bytes. apply wrap_idem. lia.
Qed.

Lemma at_addr_elem a bs x b : (x, b) ∈ at_addr a bs ↔ ∃ k, bs !! k = Some b ∧ x = a + Z.of_nat k.
Proof.
  revert a. induction bs as [|c bs IH]; intros a; cbn [at_addr].
  - split; [by intros ?%elem_of_nil|]. intros (k & Hk & _). by rewrite lookup_nil in Hk.
  - rewrite elem_of_cons, IH. split.
    + intros [[= -> ->]|(k & Hk & ->)]; [exists O|exists (S k)]; (split; [done|lia]).
    + intros ([|k] & Hk & ->); cbn in Hk; [left; injection Hk as ->; f_equal; lia|right; exists k; split; [done|lia]].
Qed.

Lemma captured_elem rs x b : (x, b) ∈ captured rs ↔ ∃ a e k, rs !! a = Some e ∧ entry_bytes e !! k = Some b ∧ x = a + Z.of_nat k.
Proof.
  unfold captured. rewrite elem_of_concat. split.
  - intros (l & ([a e] & -> & He%elem_of_map_to_list)%list_elem_of_fmap & Hin). apply at_addr_elem in Hin as (k & Hk & ->). eauto 10.
  - intros (a & e & k & He & Hk & ->). exists (at_addr a (entry_bytes e)). split; [|apply at_addr_elem; eauto].
    apply list_elem_of_fmap. exists (a, e). split; [done|by apply elem_of_map_to_list].
Qed.

Section Correct.
Context (shared : Z → bool).
(** Accesses stay inside a word, and words are wholly inside or outside the region. *)
Hypothesis shared_acc : ∀ a sz x, access_ok a sz = true → in_acc a sz x → shared x = shared a.
Implicit Types (g : lglobal) (t : lthread) (M : mem).

(** ** Running transactions *)

Record lrun_rel (x : ltx) (evs : list event) : Prop := LRunRel {
  lr_active : lx_active x = true;
  lr_rs : ∀ a e, lx_rs x !! a = Some e →
    rl_addr e = a ∧ access_ok a (rl_type e) = true ∧ shared a = true ∧
    rr_first (reads_of evs) !! a = Some (rl_type e, return_any_type (rl_type e) (rl_value e));
  lr_first : ∀ a, is_Some (rr_first (reads_of evs) !! a) → is_Some (lx_rs x !! a);
  lr_written : ∀ a, a ∈ rr_written (reads_of evs) ↔ is_Some (lx_ws x !! a);
  lr_ws : ∀ a e, lx_ws x !! a = Some e → shared a = true ∧ access_ok a (aw_type e) = true;
  lr_log : repeatable evs = true → aw_log (captured (lx_rs x)) (lx_ws x) evs;
}.

Lemma lrun_begin x clock : lrun_rel (ltx_begun x clock) [].
Proof.
  split; cbn; try done.
  - by intros a [? ?].
  - intros a. rewrite lookup_empty. split; [by intros ?%elem_of_nil|by intros [? ?]].
  - intros _. apply aw_log_nil.
Qed.

Lemma lrun_hit x evs a sz w :
  lrun_rel x evs → lx_ws x !! a = Some w → lrun_rel x (evs ++ [EvR a sz (return_any_type sz (aw_new w))]).
Proof.
  intros [H1 H2 H3 H4 H5 H6] Hw. assert (Ha : a ∈ rr_written (reads_of evs)) by (apply H4; eauto).
  assert (Hr : reads_of (evs ++ [EvR a sz (return_any_type sz (aw_new w))]) = reads_of evs) by (rewrite reads_snoc; cbn; by rewrite bool_decide_true).
  split; unfold repeatable; rewrite ?Hr; try done. intros Hk. by apply aw_log_hit; [apply H6|].
Qed.

(** A value read under an entry of the read set. *)
Lemma lrun_entry_log x evs a e :
  repeatable evs = true → lrun_rel x evs → lx_ws x !! a = None → ∀ rs, rs !! a = Some e → (∀ ab, ab ∈ captured (lx_rs x) → ab ∈ captured rs) →
  aw_log (captured rs) (lx_ws x) (evs ++ [EvR a (rl_type e) (return_any_type (rl_type e) (rl_value e))]).
Proof.
  intros Hk R Hw rs He Hsub. rewrite <- entry_bytes_value. apply aw_log_miss; [|done|apply entry_bytes_length|].
  - eapply aw_log_mono; [exact Hsub|]. by apply (lr_log _ _ R).
  - intros k b Hb. apply captured_elem. by exists a, e, k.
Qed.

Lemma lrun_reread x evs a sz val :
  lrun_rel x evs → lx_ws x !! a = None → is_Some (lx_rs x !! a) → lrun_rel x (evs ++ [EvR a sz (return_any_type sz val)]).
Proof.
  intros R Hw [e He]. pose proof R as [H1 H2 H3 H4 H5 H6]. destruct (H2 a e He) as (_ & _ & _ & Hf).
  assert (Ha : a ∉ rr_written (reads_of evs)) by (rewrite H4, Hw; by intros [? ?]).
  assert (Hr : reads_of (evs ++ [EvR a sz (return_any_type sz val)]) =
    Reads (rr_written (reads_of evs)) (rr_first (reads_of evs))
      (rr_ok (reads_of evs) && bool_decide (sz = rl_type e ∧ return_any_type sz val = return_any_type (rl_type e) (rl_value e)))).
  { rewrite reads_snoc. cbn. rewrite bool_decide_false by done. by rewrite Hf. }
  split; unfold repeatable; rewrite ?Hr; cbn [rr_first rr_written rr_ok]; try done.
  intros [Hk [-> Hv]%bool_decide_eq_true]%andb_true_iff. rewrite Hv. by apply lrun_entry_log.
Qed.

Lemma lrun_first x evs a sz val c :
  lrun_rel x evs → lx_ws x !! a = None → lx_rs x !! a = None → shared a = true → access_ok a sz = true →
  lrun_rel (ltx_log x a (RLE sz a c val)) (evs ++ [EvR a sz (return_any_type sz val)]).
Proof.
  intros R Hw Hn Hs Hok. pose proof R as [H1 H2 H3 H4 H5 H6]. set (e := RLE sz a c val).
  assert (Ha : a ∉ rr_written (reads_of evs)) by (rewrite H4, Hw; by intros [? ?]).
  assert (Hf : rr_first (reads_of evs) !! a = None) by (apply eq_None_not_Some; intros [? ?]%H3; congruence).
  assert (Hr : reads_of (evs ++ [EvR a sz (return_any_type sz val)]) =
    Reads (rr_written (reads_of evs)) (<[a := (sz, return_any_type sz val)]> (rr_first (reads_of evs))) (rr_ok (reads_of evs))).
  { rewrite reads_snoc. cbn. rewrite bool_decide_false by done. by rewrite Hf. }
  split; unfold repeatable; rewrite ?Hr; cbn [rr_first rr_written rr_ok ltx_log lx_rs lx_ws lx_active]; try done.
  - intros b f [[<- <-]|[Hne He]]%lookup_insert_Some; [by rewrite lookup_insert_eq|]. rewrite lookup_insert_ne by done. by apply H2.
  - intros b. rewrite !lookup_insert_is_Some'. intros [->|?]; [by left|right; by apply H3].
  - intros Hk. apply (lrun_entry_log x evs a e Hk R Hw); [by rewrite lookup_insert_eq|].
    intros [y b] (a' & e' & k & He & Hb & ->)%captured_elem. apply captured_elem. exists a', e', k. rewrite lookup_insert_ne by congruence. done.
Qed.

Lemma lrun_write x evs a sz w :
  lrun_rel x evs → shared a = true → access_ok a sz = true → lrun_rel (ltx_put x a w sz) (evs ++ [EvW a sz (return_any_type sz w)]).
Proof.
  intros [H1 H2 H3 H4 H5 H6] Hs Hok.
  assert (Hr : reads_of (evs ++ [EvW a sz (return_any_type sz w)]) = Reads (a :: rr_written (reads_of evs)) (rr_first (reads_of evs)) (rr_ok (reads_of evs))) by apply reads_snoc.
  split; unfold repeatable; rewrite ?Hr; cbn [rr_first rr_written rr_ok ltx_put lx_rs lx_ws lx_active]; try done.
  - intros b. unfold aw_put. rewrite elem_of_cons, lookup_insert_is_Some', H4. naive_solver.
  - intros b e. unfold aw_put. intros [[<- <-]|[Hne He]]%lookup_insert_Some; [done|by apply H5].
  - intros Hk. apply aw_log_put; [by apply H6|done].
Qed.

Lemma lrun_written x evs : lrun_rel x evs → lrun_rel (ltx_written x) evs.
Proof. by intros []. Qed.

(** ** Threads *)

(** Memory holds the value logged for an entry. *)
Definition confirmed M (e : ReadLogEntry) : Prop := ∀ k b, entry_bytes e !! k = Some b → mget M (rl_addr e + Z.of_nat k) = b.

Definition keys_of {E} (l : list Z) (m : gmap Z E) : Prop := ∀ a, a ∈ l ↔ is_Some (m !! a).

Definition lpc_rel M t : Prop :=
  let x := lt_tx t in
  let run := lrun_rel x (lt_log t) in
  match lt_pc t with
  | LIdle => lx_active x = true → run
  | LBytes sz a bs => run ∧ access_ok a sz = true ∧ shared a = true ∧ lx_ws x !! a = None
  | LClock sz a _ => run ∧ access_ok a sz = true ∧ shared a = true ∧ lx_ws x !! a = None ∧ lx_rs x !! a = None
  | LDirectR _ _ _ => run
  | LDirectW st => run ∧ Forall (λ ab, is_byte ab.2 ∧ shared ab.1 = false) st
  | LLock ro wo => run ∧ keys_of ro (lx_rs x) ∧ keys_of wo (lx_ws x)
  | LCheck ro wo bs =>
      run ∧ keys_of wo (lx_ws x) ∧ (∀ a, a ∈ ro → is_Some (lx_rs x !! a)) ∧ (∀ a e, lx_rs x !! a = Some e → a ∈ ro ∨ confirmed M e) ∧
      ∀ a e, head ro = Some a → lx_rs x !! a = Some e →
        (∀ k b, bs !! k = Some b → mget M (rl_addr e + Z.of_nat k) = b) ∧ (length bs < type_size (rl_type e))%nat
  | LInc wo => run ∧ keys_of wo (lx_ws x) ∧ ∀ a e, lx_rs x !! a = Some e → confirmed M e
  | LWb st => Forall (λ ab, is_byte ab.2 ∧ shared ab.1 = true) st
  | LUnlock | LFail => True
  | LQInc _ | LQWb _ => False
  end.

Definition lholder (p : lpc) : bool := match p with LCheck _ _ _ | LInc _ | LWb _ | LUnlock | LFail => true | _ => false end.
(** The stores the thread has still to write back. *)
Definition lpend t : list (Z * Z) := match lt_pc t with LWb st => st | _ => [] end.

Lemma lpc_any M M' t : lholder (lt_pc t) = false → lpc_rel M t → lpc_rel M' t.
Proof. unfold lpc_rel. by destruct (lt_pc t). Qed.

Lemma entry_addr e k b : access_ok (rl_addr e) (rl_type e) = true → entry_bytes e !! k = Some b → shared (rl_addr e + Z.of_nat k) = shared (rl_addr e).
Proof.
  intros Hok Hb. apply lookup_lt_Some in Hb. rewrite entry_bytes_length in Hb. eapply shared_acc; [done|]. by apply nth_acc.
Qed.

Lemma lpc_stable M M' t : (∀ x, shared x = true → mget M' x = mget M x) → lpc_rel M t → lpc_rel M' t.
Proof.
  intros Hm. unfold lpc_rel.
  assert (Hc : lrun_rel (lt_tx t) (lt_log t) → ∀ a e, lx_rs (lt_tx t) !! a = Some e → confirmed M e → confirmed M' e).
  { intros R a e He Hcf k b Hb. destruct (lr_rs _ _ R a e He) as (<- & Hok & Hs & _). rewrite Hm; [by apply Hcf|]. by rewrite (entry_addr e k b). }
  destruct (lt_pc t) as [| | | | | |ro wo bs| | | | | |]; try done.
  - intros (R & Hwo & Hro & Hall & Hhd). split_and!; [done|done|done| |].
    + intros a e He. destruct (Hall a e He); [by left|right; by eapply Hc].
    + intros a e Ha He. destruct (Hhd a e Ha He) as [Hbs Hlen]. split; [|done]. intros k b Hb.
      destruct (lr_rs _ _ R a e He) as (<- & Hok & Hs & _). rewrite Hm; [by apply Hbs|]. apply lookup_lt_Some in Hb. rewrite (shared_acc (rl_addr e) (rl_type e)); [done..|].
      apply nth_acc. lia.
  - intros (R & Hwo & Hall). split_and!; [done|done|]. intros a e He. eapply Hc; eauto.
Qed.

(** ** The invariant of an execution *)

Definition lhist_rel (h : option (list event)) (e : option entry) : Prop :=
  match h, e with
  | Some evs, Some e => ∃ ws wo, ce_writes e = aw_stores ws wo ∧ keys_of wo ws ∧ (repeatable evs = true → aw_log (ce_reads e) ws evs)
  | None, None => True
  | _, _ => False
  end.

Section Inv.
Context (m0 : mem).

Record lsys (H : gmap nat entry) g (ts : list lthread) : Prop := LSys {
  ls_bytes : mem_ok (lg_mem g);
  ls_clock : 0 < lg_clock g;
  ls_hist : ∀ c, lhist_rel (lg_hist g !! c) (H !! c);
  ls_ver : ∀ c e, H !! c = Some e → (0 < c ≤ Z.to_nat (lg_clock g))%nat ∧
    ∀ a val, (a, val) ∈ ce_reads e → at_ver m0 H (c - 1) a = val;
  ls_holder : ∀ i t, ts !! i = Some t → lholder (lt_pc t) = true →
    ∀ x, shared x = true → mget (wr (lg_mem g) (lpend t)) x = at_ver m0 H (Z.to_nat (lg_clock g)) x;
  ls_free : lg_lock g = 0 → ∀ x, shared x = true → mget (lg_mem g) x = at_ver m0 H (Z.to_nat (lg_clock g)) x;
  ls_pc : ∀ i t, ts !! i = Some t → lpc_rel (lg_mem g) t;
  ls_mutex : mutex (λ t, lholder (lt_pc t)) (lg_lock g ≠ 0) ts;
}.

Definition lchange g t g' t' : Prop := lock_change (λ u, lholder (lt_pc u)) (lg_lock g ≠ 0) t (lg_lock g' ≠ 0) t'.

(** The other threads after a step of thread [i] that leaves shared memory as it is. *)
Lemma ls_others H g ts i t g' t' :
  lsys H g ts → ts !! i = Some t → (∀ x, shared x = true → mget (lg_mem g') x = mget (lg_mem g) x) → lpc_rel (lg_mem g') t' →
  ∀ j u, <[i := t']> ts !! j = Some u → lpc_rel (lg_mem g') u.
Proof.
  intros Sy Hi Hm Ht j u [[-> ->]|[_ Hj]]%(update_lookup ts i t t' j u Hi); [done|]. eapply lpc_stable; [exact Hm|]. by eapply (ls_pc _ _ _ Sy).
Qed.

(** A step that changes neither shared memory, nor the clock, nor the history. *)
Lemma quiet_step H g ts i t g' t' :
  lsys H g ts → ts !! i = Some t → mem_ok (lg_mem g') → (∀ x, shared x = true → mget (lg_mem g') x = mget (lg_mem g) x) →
  lg_clock g' = lg_clock g → lg_hist g' = lg_hist g → lpend t = [] → lpend t' = [] → lpc_rel (lg_mem g') t' → lchange g t g' t' →
  lsys H g' (<[i := t']> ts).
Proof.
  intros Sy Hi Hok Hm Hc Hh Hp Hp' Ht Hl. pose proof Sy as [S1 S2 S3 S4 S5 S6 S7 S8].
  assert (Hnone : lholder (lt_pc t) = true ∨ lg_lock g = 0 → ∀ x, shared x = true → mget (lg_mem g') x = at_ver m0 H (Z.to_nat (lg_clock g)) x).
  { intros Hw x Hx. rewrite Hm by done. destruct Hw as [Hw|Hw]; [|by apply S6]. rewrite <- (S5 i t Hi Hw x Hx). by rewrite Hp. }
  split; rewrite ?Hc, ?Hh; try done.
  - intros j u [[-> ->]|[Hne Hj]]%(update_lookup ts i t t' j u Hi) Hu x Hx.
    + rewrite Hp'. cbn. unfold lchange, lock_change in Hl. rewrite Hu in Hl. destruct (lholder (lt_pc t)) eqn:Ht0; apply Hnone; auto.
      right. destruct Hl as [Hl _]. by destruct (Z.eq_dec (lg_lock g) 0).
    + assert (Hlk : lg_lock g ≠ 0) by (apply S8; eauto). rewrite <- (S5 j u Hj Hu x Hx). unfold mget.
      destruct (decide (x ∈ (lpend u).*1)) as [Hin|Hni]; [by rewrite (wr_lookup_in _ (lg_mem g))|]. rewrite !wr_lookup_ne by done. by apply Hm.
  - intros Hl0. apply Hnone. unfold lchange, lock_change in Hl. destruct (lholder (lt_pc t)) eqn:Ht0; [by left|right].
    destruct (lholder (lt_pc t')); [by destruct Hl|]. destruct (Z.eq_dec (lg_lock g) 0) as [|Hn]; [done|]. by apply Hl in Hn.
  - by eapply ls_others.
  - by eapply lock_change_mutex.
Qed.

(** The increment of the clock decides the transaction. *)
Lemma inc_step H g ts i t wo :
  lsys H g ts → ts !! i = Some t → lt_pc t = LInc wo →
  ∃ H', lsys H' (lg_increment g (lt_log t)) (<[i := lgoto t (LWb (aw_stores (lx_ws (lt_tx t)) wo))]> ts).
Proof.
  intros Sy Hi Hpc. pose proof Sy as [S1 S2 S3 S4 S5 S6 S7 S8]. pose proof (S7 i t Hi) as Ht. unfold lpc_rel in Ht. rewrite Hpc in Ht. destruct Ht as (R & Hwo & Hcf).
  set (x := lt_tx t) in *. set (st := aw_stores (lx_ws x) wo). set (c := Z.to_nat (lg_clock g)) in *. assert (Hcv : Z.to_nat (lg_clock g + 1) = S c) by lia.
  assert (Hhold : lholder (lt_pc t) = true) by (by rewrite Hpc).
  assert (Hmem : ∀ y, shared y = true → mget (lg_mem g) y = at_ver m0 H c y) by (intros y Hy; rewrite <- (S5 i t Hi Hhold y Hy); unfold lpend; by rewrite Hpc).
  set (e := CE (captured (lx_rs x)) st). exists (<[S c := e]> H).
  assert (Hfresh : H !! S c = None) by (destruct (H !! S c) as [e'|] eqn:He; [|done]; apply S4 in He as [? _]; lia).
  split; cbn [lg_increment lg_mem lg_clock lg_hist lg_lock]; rewrite ?Hcv.
  - done.
  - lia.
  - intros k. destruct (decide (k = S c)) as [->|]; [|by rewrite !lookup_insert_ne]. rewrite !lookup_insert_eq. exists (lx_ws x), wo. split_and!; [done|done|]. apply (lr_log _ _ R).
  - intros k e' He'. apply lookup_insert_Some in He' as [[<- <-]|[Hne He']].
    + split; [lia|]. intros a val (b & f & j & Hf & Hb & ->)%captured_elem. rewrite at_ver_insert_gt by lia. replace (S c - 1)%nat with c by lia.
      destruct (lr_rs _ _ R b f Hf) as (Hadr & Hok & Hs & _). rewrite <- Hadr in *. rewrite <- Hmem; [by apply (Hcf (rl_addr f) f Hf)|]. by rewrite (entry_addr f j val).
    + destruct (S4 k e' He') as [Hk Hr]. split; [lia|]. intros a val Hin. rewrite at_ver_insert_gt by lia. by apply Hr.
  - intros j u Hj Hu y Hy. apply (update_lookup ts i t) in Hj as [[-> ->]|[Hne Hj]]; [|by destruct Hne; eapply (proj1 S8)|done].
    cbn [lpend lgoto lt_pc]. cbn [at_ver]. rewrite lookup_insert_eq. unfold e. cbn [ce_writes]. case_decide as Hin.
    + unfold mget. by rewrite (wr_lookup_in _ ∅).
    + rewrite at_ver_insert_gt, <- Hmem by (done || lia). unfold mget. by rewrite wr_lookup_ne.
  - intros Hl0. exfalso. assert (lg_lock g ≠ 0) by (apply S8; eauto). done.
  - eapply (ls_others H g ts i t (lg_increment g (lt_log t))); [done|done|done|]. cbn. apply Forall_forall. intros [a b] Hin. cbn. split.
    + pose proof (aw_stores_bytes (lx_ws x) wo) as Hb. rewrite Forall_forall in Hb. by apply (Hb (a, b)).
    + assert (Hst : a ∈ st.*1) by (apply list_elem_of_fmap; by exists (a, b)). apply aw_stores_addr in Hst as (y & w & _ & Hw & Hacc). destruct (lr_ws _ _ R y w Hw) as [Hs Hok].
      by rewrite (shared_acc y (aw_type w)).
  - eapply lock_change_mutex; [exact S8|exact Hi|]. unfold lock_change. rewrite Hhold. cbn. done.
Qed.

(** A byte of the write-back. *)
Lemma wb_step H g ts i t a b st :
  lsys H g ts → ts !! i = Some t → lt_pc t = LWb ((a, b) :: st) → lsys H (lg_store g a b) (<[i := lgoto t (LWb st)]> ts).
Proof.
  intros Sy Hi Hpc. pose proof Sy as [S1 S2 S3 S4 S5 S6 S7 S8]. pose proof (S7 i t Hi) as Ht. unfold lpc_rel in Ht. rewrite Hpc in Ht. apply Forall_cons in Ht as [[Hb Ha] Ht].
  assert (Hhold : lholder (lt_pc t) = true) by (by rewrite Hpc). cbn in Hb, Ha.
  assert (Hother : ∀ j u, j ≠ i → ts !! j = Some u → lholder (lt_pc u) = false).
  { intros j u Hne Hj. destruct (lholder (lt_pc u)) eqn:Hu; [|done]. by destruct Hne; eapply (proj1 S8). }
  split; cbn [lg_store lg_mem lg_clock lg_hist lg_lock]; try done.
  - apply (wr_mem_ok (lg_mem g) [(a, b)]); [done|]. by apply Forall_singleton.
  - intros j u Hj Hu y Hy. apply (update_lookup ts i t) in Hj as [[-> ->]|[Hne Hj]]; [|by rewrite (Hother j u Hne Hj) in Hu|done].
    cbn. rewrite <- (S5 i t Hi Hhold y Hy). unfold lpend. by rewrite Hpc.
  - intros Hl0. exfalso. assert (lg_lock g ≠ 0) by (apply S8; eauto). done.
  - intros j u Hj. apply (update_lookup ts i t) in Hj as [[-> ->]|[Hne Hj]]; [done| |done]. eapply lpc_any; [by eapply Hother|]. by eapply S7.
  - eapply lock_change_mutex; [exact S8|exact Hi|]. unfold lock_change. rewrite Hhold. cbn. done.
Qed.

(** Steps that only change the thread. *)
Lemma local_step H g ts i t t' :
  lsys H g ts → ts !! i = Some t → lpend t = [] → lpend t' = [] → lholder (lt_pc t') = lholder (lt_pc t) → lpc_rel (lg_mem g) t' →
  lsys H g (<[i := t']> ts).
Proof.
  intros Sy Hi Hp Hp' Hh Ht. eapply quiet_step; try done; [apply (ls_bytes _ _ _ Sy)|]. unfold lchange, lock_change. rewrite Hh. by destruct (lholder (lt_pc t)).
Qed.

(** For a thread whose program counter the equation gives. *)
#[local] Ltac local_change E := eapply local_step; [eassumption|eassumption|unfold lpend; try rewrite E; done|done|by rewrite E|].

Lemma abort_step H g ts i t g1 :
  lsys H g ts → ts !! i = Some t → lpend t = [] → lg_mem g1 = lg_mem g → lg_clock g1 = lg_clock g → lg_hist g1 = lg_hist g →
  lg_lock g1 = (if lholder (lt_pc t) then 0 else lg_lock g) → lsys H (lr_abort g1 t).1 (<[i := (lr_abort g1 t).2]> ts).
Proof.
  intros Sy Hi Hp Hm Hc Hh Hl. apply (quiet_step H g ts i t); cbn; rewrite ?Hm; try done; [apply (ls_bytes _ _ _ Sy)|]. unfold lchange, lock_change. cbn. rewrite Hl. destruct (lholder (lt_pc t)); [by intros ?|done].
Qed.

Lemma end_step H g ts i t g1 :
  lsys H g ts → ts !! i = Some t → lpend t = [] → lg_mem g1 = lg_mem g → lg_clock g1 = lg_clock g → lg_hist g1 = lg_hist g →
  lg_lock g1 = (if lholder (lt_pc t) then 0 else lg_lock g) → lsys H (lr_commit_end g1 t).1 (<[i := (lr_commit_end g1 t).2]> ts).
Proof.
  intros Sy Hi Hp Hm Hc Hh Hl. apply (quiet_step H g ts i t); cbn; rewrite ?Hm; try done; [apply (ls_bytes _ _ _ Sy)|]. unfold lchange, lock_change. cbn. rewrite Hl. destruct (lholder (lt_pc t)); [by intros ?|done].
Qed.

Lemma key_order_spec {E} l (m : gmap Z E) : key_order l m = true → keys_of l m.
Proof.
  unfold key_order. intros [_ Hd]%bool_decide_eq_true a. rewrite <- elem_of_dom, <- Hd. by rewrite elem_of_list_to_set.
Qed.

Lemma lcall_inv H g ts i t o g' t' :
  lsys H g ts → ts !! i = Some t → lr_call shared false o g t = Some (g', t') → lsys H g' (<[i := t']> ts).
Proof.
  intros Sy Hi Hs. unfold lr_call in Hs. destruct (lt_pc t) eqn:Hpc; try done. pose proof (ls_pc _ _ _ Sy i t Hi) as Ht. unfold lpc_rel in Ht. rewrite Hpc in Ht.
  assert (Hp : lpend t = []) by (unfold lpend; by rewrite Hpc). assert (Hh : lholder (lt_pc t) = false) by (by rewrite Hpc).
  assert (Hid : <[i := t]> ts = ts) by (by apply list_insert_id). destruct o as [|sz a|sz a v junk|ro wo|].
  - injection Hs as <- <-. destruct (lx_active (lt_tx t)); [by rewrite Hid|]. local_change Hh. intros _. apply lrun_begin.
  - destruct (lx_active (lt_tx t)) eqn:Ha; [|done]. specialize (Ht eq_refl). destruct (access_ok a sz) eqn:Hok; [|done]. injection Hs as <- <-.
    destruct (lx_ws (lt_tx t) !! a) as [w|] eqn:Hw; [|destruct (shared a) eqn:Hsh]; (local_change Hh).
    + intros _. by apply lrun_hit.
    + by split_and!.
    + done.
  - destruct (lx_active (lt_tx t)) eqn:Ha; [|done]. specialize (Ht eq_refl). destruct (access_ok a sz) eqn:Hok; [|done]. injection Hs as <- <-.
    destruct (shared a) eqn:Hsh; (local_change Hh).
    + intros _. by apply lrun_write.
    + split; [by apply lrun_written|]. apply Forall_forall. intros [y b] Hin. split.
      * pose proof (value_stores_bytes a (fill_any_type junk (λ n, le_bytes n v) sz) sz) as Hb. rewrite Forall_forall in Hb. by apply Hb.
      * assert (Hy : y ∈ (value_stores a (fill_any_type junk (λ n, le_bytes n v) sz) sz).*1) by (apply list_elem_of_fmap; by exists (y, b)).
        apply value_stores_range in Hy. cbn. by rewrite (shared_acc a sz y).
  - destruct (lx_active (lt_tx t)) eqn:Ha; cbn [negb] in Hs; [|injection Hs as <- <-; by rewrite Hid]. specialize (Ht eq_refl). destruct (lx_read_only (lt_tx t)).
    + apply (inj Some) in Hs. pose proof (end_step H g ts i t (LG (lg_mem g) (lg_clock g) (lg_lock g) (lg_token g) (lg_aborts g) (lg_hist g) (lt_log t :: lg_ro g)) Sy Hi Hp) as He.
      rewrite Hs, Hh in He. by apply He.
    + destruct (key_order ro (lx_rs (lt_tx t))) eqn:Hro; [|done]. destruct (key_order wo (lx_ws (lt_tx t))) eqn:Hwo; [|done]. apply (inj Some) in Hs. destruct (lr_validate (lt_tx t)).
      * injection Hs as <- <-. local_change Hh. split_and!; [done|by apply key_order_spec|by apply key_order_spec].
      * pose proof (abort_step H g ts i t g Sy Hi Hp) as He. rewrite Hs, Hh in He. by apply He.
  - destruct (lx_active (lt_tx t)); [|done]. apply (inj Some) in Hs. pose proof (abort_step H g ts i t g Sy Hi Hp) as He. rewrite Hs, Hh in He. by apply He.
Qed.

Lemma laccess_inv H g ts i t g' t' :
  lsys H g ts → ts !! i = Some t → laccess_step false g t = Some (g', t') → lsys H g' (<[i := t']> ts).
Proof.
  intros Sy Hi Hs. unfold laccess_step in Hs. pose proof (ls_pc _ _ _ Sy i t Hi) as Ht. unfold lpc_rel in Ht.
  destruct (lt_pc t) as [|sz a bs|sz a val|sz a bs|[|[a b] st]| | | | | | | |] eqn:Hpc; try done;
    assert (Hp : lpend t = []) by (unfold lpend; by rewrite Hpc); assert (Hh : lholder (lt_pc t) = false) by (by rewrite Hpc).
  - destruct Ht as (R & Hok & Hsh & Hw). injection Hs as <- <-. destruct (_ <=? _)%nat; [|local_change Hh; done].
    case_bool_decide as Hrs; (local_change Hh); cbn [negb andb].
    + intros _. by apply lrun_reread.
    + split_and!; try done. by apply eq_None_not_Some.
  - destruct Ht as (R & Hok & Hsh & Hw & Hrs). injection Hs as <- <-. local_change Hh. intros _. by apply lrun_first.
  - injection Hs as <- <-. destruct (_ <=? _)%nat; local_change Hh; [intros _|]; exact Ht.
  - destruct Ht as [R _]. injection Hs as <- <-. local_change Hh. intros _. exact R.
  - destruct Ht as [R [[Hb Ha] Hst]%Forall_cons]. cbn in Hb, Ha. injection Hs as <- <-. eapply quiet_step; try done; cbn [lg_store lg_mem].
    + apply (wr_mem_ok (lg_mem g) [(a, b)]); [apply (ls_bytes _ _ _ Sy)|]. by apply Forall_singleton.
    + intros y Hy. unfold mget. rewrite lookup_insert_ne; [done|]. intros ->. congruence.
    + unfold lchange, lock_change. by rewrite Hh.
Qed.

(** The bytes compared are the bytes logged. *)
Lemma confirm_entry M e bs :
  (∀ k b, bs !! k = Some b → mget M (rl_addr e + Z.of_nat k) = b) → length bs = type_size (rl_type e) → Forall is_byte bs →
  any_store (type_size (rl_type e)) (AnyT (le_word bs)) = entry_bytes e → confirmed M e.
Proof.
  intros Hbs Hlen Hb Heq k b Hk. apply Hbs. rewrite <- Heq, any_store_le in Hk by (pose proof (type_size_range (rl_type e)); lia). cbn [u8] in Hk.
  rewrite <- Hlen in Hk. by rewrite le_bytes_le_word in Hk.
Qed.

Lemma check_step H g ts i t a ro wo bs g' t' :
  lsys H g ts → ts !! i = Some t → lt_pc t = LCheck (a :: ro) wo bs → lcommit_step g t = Some (g', t') → lsys H g' (<[i := t']> ts).
Proof.
  intros Sy Hi Hpc Hs. pose proof (ls_pc _ _ _ Sy i t Hi) as Ht. unfold lpc_rel in Ht. unfold lcommit_step in Hs. rewrite Hpc in Ht, Hs.
  destruct Ht as (R & Hwo & Hro & Hall & Hhd). destruct (lx_rs (lt_tx t) !! a) as [e|] eqn:He; [|done]. injection Hs as <- <-.
  destruct (Hhd a e eq_refl He) as [Hbs Hlen]. set (bs' := bs ++ [_]).
  assert (Hp : lpend t = []) by (unfold lpend; by rewrite Hpc). assert (Hh : lholder (lt_pc t) = true) by (by rewrite Hpc).
  assert (length bs' = S (length bs)) as Hlen' by (unfold bs'; rewrite length_app; cbn; lia).
  assert (Hbs' : ∀ k b, bs' !! k = Some b → mget (lg_mem g) (rl_addr e + Z.of_nat k) = b).
  { intros k b Hk. apply lookup_app_Some in Hk as [Hk|[Hge Hk]]; [by apply Hbs|]. apply list_lookup_singleton_Some in Hk as [Hk <-]. do 2 f_equal. lia. }
  destruct (Nat.leb_spec (type_size (rl_type e)) (length bs')) as [Hfull|Hpart].
  - case_bool_decide as Heq; local_change Hh; [|done]. split_and!; [done|done|intros b Hb; apply Hro; by right| |].
    + intros b f Hf. cbn [lgoto lt_tx] in Hf. destruct (Hall b f Hf) as [[->|?]%elem_of_cons|?]; [|by left|by right]. right. assert (f = e) as -> by congruence.
      apply (confirm_entry _ e bs'); [done|lia| |done]. apply Forall_forall. intros b [k Hk]%list_elem_of_lookup. rewrite <- (Hbs' k b Hk). apply (ls_bytes _ _ _ Sy).
    + intros b f Hb Hf. split; [by intros k c Hk; rewrite lookup_nil in Hk|]. cbn. pose proof (type_size_range (rl_type f)). lia.
  - local_change Hh. split_and!; [done..|]. intros b f [= <-] Hf. cbn [lgoto lt_tx] in Hf. assert (f = e) as -> by congruence. split; [done|lia].
Qed.

Lemma lcommit_inv H g ts i t g' t' :
  lsys H g ts → ts !! i = Some t → lcommit_step g t = Some (g', t') → ∃ H', lsys H' g' (<[i := t']> ts).
Proof.
  intros Sy Hi Hs. pose proof Hs as Hs'. unfold lcommit_step in Hs. pose proof (ls_pc _ _ _ Sy i t Hi) as Ht. unfold lpc_rel in Ht.
  destruct (lt_pc t) as [| | | | |ro wo|[|a ro] wo bs|wo|[|[a b] st]| | | |] eqn:Hpc; try done.
  - exists H. destruct Ht as (R & Hro & Hwo). destruct (Z.eqb_spec (lg_lock g) 0) as [H0|Hn0].
    + injection Hs as <- <-. eapply quiet_step; try done; [apply (ls_bytes _ _ _ Sy)|unfold lpend; by rewrite Hpc|by destruct (lr_validate _)| |].
      * destruct (lr_validate (lt_tx t)); [|done]. split_and!; [done|done|by intros a ?%Hro| |].
        -- intros a e He. left. apply Hro. eauto.
        -- intros a e _ He. split; [by intros k c Hk; rewrite lookup_nil in Hk|]. cbn. pose proof (type_size_range (rl_type e)). lia.
      * unfold lchange, lock_change. rewrite Hpc. cbn. destruct (lr_validate (lt_tx t)); cbn; (split; [by intros Hn; apply Hn|done]).
    + injection Hs as <- <-. by rewrite list_insert_id.
  - exists H. destruct Ht as (R & Hwo & Hro & Hall & Hhd). injection Hs as <- <-. local_change Hpc.
    split_and!; [done|done|]. intros a e He. destruct (Hall a e He) as [?%elem_of_nil|?]; done.
  - exists H. by eapply check_step.
  - destruct (clock_full g); [done|]. injection Hs as <- <-. by eapply inc_step.
  - exists H. injection Hs as <- <-. local_change Hpc. done.
  - exists H. injection Hs as <- <-. by apply wb_step.
  - exists H. apply (inj Some) in Hs. pose proof (end_step H g ts i t (lg_set_lock g 0) Sy Hi) as He. rewrite Hs, Hpc in He. apply He; try done. unfold lpend. by rewrite Hpc.
  - exists H. apply (inj Some) in Hs. pose proof (abort_step H g ts i t (lg_set_lock g 0) Sy Hi) as He. rewrite Hs, Hpc in He. apply He; try done. unfold lpend. by rewrite Hpc.
Qed.

Lemma linit_inv n : mem_ok m0 → lsys ∅ (lr_init m0) (lthread_init <$> seq 0 n).
Proof.
  intros Hok. assert (Ht : ∀ i t, (lthread_init <$> seq 0 n) !! i = Some t → t = lthread_init i).
  { intros i t. rewrite list_lookup_fmap. intros (k & Hk & ->)%fmap_Some. apply lookup_seq in Hk as [-> _]. done. }
  split; cbn; try done.
  - by intros i t ->%Ht.
  - by intros i t ->%Ht.
  - split; [by intros i j t u ->%Ht _ ?|]. split; [done|]. by intros (i & t & ->%Ht & ?).
Qed.

Lemma lreachable_inv n g ts : mem_ok m0 → lreachable shared false m0 n (g, ts) → ∃ H, lsys H g ts.
Proof.
  intros Hok. revert g ts. apply (ix_invariant _ _ (λ g ts, ∃ H, lsys H g ts)); [exists ∅; by apply linit_inv|..].
  - intros g ts i t o g' t' (H & Sy) Ht Hc. exists H. by eapply lcall_inv.
  - intros g ts i t g' t' (H & Sy) Ht Hc. unfold lr_step in Hc. destruct (lt_pc t) eqn:Hpc; try done;
      first [by eapply lcommit_inv | exists H; by eapply laccess_inv].
Qed.
End Inv.
End Correct.

(** A thread in the middle of its write-back. *)
Definition lwriting (t : lthread) : bool := match lt_pc t with LWb (_ :: _) => true | _ => false end.

(** ** Properties *)

(** C14: Left-right's update transactions are serializable outside the queue mode.  In every
    interleaved execution in which each committed transaction reads no address twice from
    memory, and accesses what it has written at the address and within the size of that
    write or not at all ([keyed]), replaying the committed logs one after the other, in the order
    of their commit versions, succeeds: every read returns what it returned in the
    execution.  Whenever no thread is writing back, the result agrees with shared memory
    on the transactional region, whatever is written in place outside of it. *)
Theorem leftright_serializable shared m n g ts :
  (∀ a sz x, access_ok a sz = true → in_acc a sz x → shared x = shared a) → mem_ok m →
  lreachable shared false m n (g, ts) → (∀ c evs, lg_hist g !! c = Some evs → keyed evs = true ∧ single_reads evs = true) →
  ∃ m', serial m (lg_hist g) (Z.to_nat (lg_clock g)) = Some m' ∧
    (forallb (negb ∘ lwriting) ts = true → ∀ x, shared x = true → mget m' x = mget (lg_mem g) x).
Proof.
  intros Hsh Hok Hr Hd. destruct (lreachable_inv shared Hsh m n g ts Hok Hr) as (H & Sy). pose proof Sy as [S1 S2 S3 S4 S5 S6 S7 S8].
  destruct (serial_entries m H (lg_hist g) (Z.to_nat (lg_clock g))) as (M & HM & Hx).
  - intros c e a val He Hin. by apply (proj2 (S4 c e He)).
  - intros c. specialize (S3 c). unfold lhist_rel, log_rel in *. destruct (lg_hist g !! c) as [evs|] eqn:Hg, (H !! c) as [e|]; try done.
    destruct S3 as (ws & wo & Hw & Hwo & Hlog). destruct (Hd c evs Hg) as [Hk Hrep%single_reads_repeatable]. intros M HM. rewrite Hw. by apply (aw_log_commit (ce_reads e)); [apply Hlog|..].
  - exists M. split; [done|]. intros Hq x Hs. rewrite Hx. symmetry. destruct (Z.eq_dec (lg_lock g) 0) as [H0|Hn]; [by apply S6|].
    apply S8 in Hn as (i & t & Hi & Hh). rewrite <- (S5 i t Hi Hh x Hs). rewrite forallb_forall in Hq. specialize (Hq t).
    assert (In t ts) as Hin by (apply list_elem_of_In; by eapply list_elem_of_lookup_2). specialize (Hq Hin). unfold compose, lwriting, lpend in *. destruct (lt_pc t) as [| | | | | | | |[|]| | | |]; done.
Qed.

(** Two threads: the first reads a word and writes another, while the second commits a
    write of a third word in between. *)
Definition leftright_schedule : list (nat * option lop) :=
  let run k i := replicate k (i, None) in
  [(0%nat, Some LBegin); (0%nat, Some (LRead UINT16 4096))] ++ run 3%nat 0%nat ++
  [(1%nat, Some LBegin); (1%nat, Some (LWriteOp UINT8 8200 9 (AnyT 0))); (1%nat, Some (LCommit [] [8200]))] ++ run 2%nat 1%nat ++
  [(0%nat, Some (LWriteOp UINT32 4108 77 (AnyT 0))); (0%nat, Some (LCommit [4096] [4108]))] ++ run 2%nat 0%nat ++ run 4%nat 1%nat ++ run 11%nat 0%nat.

Definition leftright_run (queue : bool) (sched : list (nat * option lop)) : lglobal * list lthread :=
  default (lr_init ∅, []) (ix_run (lr_call (λ _, true) queue) (lr_step queue) (lr_init ∅, lthread_init <$> seq 0 2) sched).
Definition leftright_end : lglobal * list lthread := leftright_run false leftright_schedule.

Lemma leftright_run_reachable queue sched :
  match ix_run (lr_call (λ _, true) queue) (lr_step queue) (lr_init ∅, lthread_init <$> seq 0 2) sched with Some _ => true | None => false end = true →
  lreachable (λ _, true) queue ∅ 2 ((leftright_run queue sched).1, (leftright_run queue sched).2).
Proof. intros Hs. rewrite <- surjective_pairing. eapply (ix_run_reachable _ _ _ _ sched); [apply ix_start|]. by apply default_Some. Qed.

Lemma leftright_serializable_witness :
  size (lg_hist leftright_end.1) = 2%nat ∧
  ∃ m', serial ∅ (lg_hist leftright_end.1) (Z.to_nat (lg_clock leftright_end.1)) = Some m' ∧
    mget m' 4108 = mget (lg_mem leftright_end.1) 4108 ∧ mget (lg_mem leftright_end.1) 4108 = 77.
Proof.
  split; [vm_compute; reflexivity|].
  assert (Hlogs : ∀ c evs, lg_hist leftright_end.1 !! c = Some evs → keyed evs = true ∧ single_reads evs = true).
  { assert (map_Forall (λ _ evs, keyed evs = true ∧ single_reads evs = true) (lg_hist leftright_end.1)) as H; [|exact H].
    apply (bool_decide_unpack _). vm_compute. exact I. }
  destruct (leftright_serializable (λ _, true) ∅ 2 leftright_end.1 leftright_end.2) as (m' & Hm & Hq).
  - reflexivity.
  - intros a. unfold mget. rewrite lookup_empty. split; [discriminate|reflexivity].
  - apply leftright_run_reachable. vm_compute. reflexivity.
  - exact Hlogs.
  - exists m'. split; [exact Hm|]. split; [apply Hq; [vm_compute; reflexivity|reflexivity]|vm_compute; reflexivity].
Defined.

(** ** Limits *)

(** Two workers of the queue mode increment the same byte: both read 0. *)
Definition leftright_queue_schedule : list (nat * option lop) :=
  [(0%nat, Some LBegin); (0%nat, Some (LRead UINT8 4096)); (0%nat, None);
   (1%nat, Some LBegin); (1%nat, Some (LRead UINT8 4096)); (1%nat, None);
   (0%nat, Some (LWriteOp UINT8 4096 1 (AnyT 0))); (0%nat, Some (LCommit [] [4096])); (0%nat, None); (0%nat, None); (0%nat, None);
   (1%nat, Some (LWriteOp UINT8 4096 1 (AnyT 0))); (1%nat, Some (LCommit [] [4096])); (1%nat, None); (1%nat, None); (1%nat, None)].
Definition leftright_queue_end : lglobal * list lthread := leftright_run true leftright_queue_schedule.

(** In the queue mode with two workers an update is lost: both transactions commit and no
    serial execution of them explains what they read. *)
Theorem leftright_queue_lost_update :
  lreachable (λ _, true) true ∅ 2 (leftright_queue_end.1, leftright_queue_end.2) ∧
  lg_hist leftright_queue_end.1 = <[3%nat := [EvR 4096 UINT8 0; EvW 4096 UINT8 1]]> (<[2%nat := [EvR 4096 UINT8 0; EvW 4096 UINT8 1]]> ∅) ∧
  mget (lg_mem leftright_queue_end.1) 4096 = 1 ∧
  serial ∅ (lg_hist leftright_queue_end.1) (Z.to_nat (lg_clock leftright_queue_end.1)) = None.
Proof.
  split; [apply leftright_run_reachable; vm_compute; reflexivity|]. split; [vm_compute; reflexivity|]. split; vm_compute; reflexivity.
Qed.

(** The first thread reads a byte before and after the second commits 1 to it; the second
    then commits 0 again. *)
Definition leftright_reread_schedule : list (nat * option lop) :=
  let commit v := [(1%nat, Some LBegin); (1%nat, Some (LWriteOp UINT8 4096 v (AnyT 0))); (1%nat, Some (LCommit [] [4096]))] ++ replicate 6 (1%nat, None) in
  [(0%nat, Some LBegin); (0%nat, Some (LRead UINT8 4096)); (0%nat, None); (0%nat, None)] ++ commit 1 ++
  [(0%nat, Some (LRead UINT8 4096)); (0%nat, None)] ++ commit 0 ++
  [(0%nat, Some (LWriteOp UINT8 8192 7 (AnyT 0))); (0%nat, Some (LCommit [4096] [8192]))] ++ replicate 7 (0%nat, None).
Definition leftright_reread_end : lglobal * list lthread := leftright_run false leftright_reread_schedule.

(** A second read of an address is not validated: a transaction that read two different
    values of the same byte commits. *)
Theorem leftright_reread_commits :
  lreachable (λ _, true) false ∅ 2 (leftright_reread_end.1, leftright_reread_end.2) ∧
  lg_hist leftright_reread_end.1 !! 4%nat = Some [EvR 4096 UINT8 0; EvR 4096 UINT8 1; EvW 8192 UINT8 7] ∧
  mget (lg_mem leftright_reread_end.1) 8192 = 7.
Proof. split; [apply leftright_run_reachable; vm_compute; reflexivity|]. split; vm_compute; reflexivity. Qed.

(** A transaction without writes commits without validation. *)
Definition leftright_skew_schedule : list (nat * option lop) :=
  [(0%nat, Some LBegin); (0%nat, Some (LRead UINT8 4096)); (0%nat, None); (0%nat, None);
   (1%nat, Some LBegin); (1%nat, Some (LWriteOp UINT8 4096 1 (AnyT 0))); (1%nat, Some (LWriteOp UINT8 8192 1 (AnyT 0)));
   (1%nat, Some (LCommit [] [4096; 8192]))] ++ replicate 7 (1%nat, None) ++
  [(0%nat, Some (LRead UINT8 8192)); (0%nat, None); (0%nat, None); (0%nat, Some (LCommit [] []))].
Definition leftright_skew_end : lglobal * list lthread := leftright_run false leftright_skew_schedule.

Theorem leftright_read_only_inconsistent :
  lreachable (λ _, true) false ∅ 2 (leftright_skew_end.1, leftright_skew_end.2) ∧
  lg_ro leftright_skew_end.1 = [[EvR 4096 UINT8 0; EvR 8192 UINT8 1]] ∧
  ∀ k, (k ≤ 2)%nat → (m ← serial ∅ (lg_hist leftright_skew_end.1) k; replay m [EvR 4096 UINT8 0; EvR 8192 UINT8 1]) = None.
Proof.
  split; [apply leftright_run_reachable; vm_compute; reflexivity|]. split; [vm_compute; reflexivity|].
  intros k Hk. destruct k as [|[|[|k]]]; [vm_compute; reflexivity..|lia].
Qed.
