(* ===== verification/NOrecBF.v ===== *)
(** * NOrec with Bloom-filter validation (norec_bf/NOrec_BF.hpp)

    NOrec_BF.hpp is NOrec with two additions: [commit] inserts the addresses it
    wrote into a global filter [g_gc] while it holds the clock, and [validate]
    returns without re-reading memory when the filter generation is the one the
    transaction saw at its begin and its read filter is disjoint from [g_gc].  The
    rest of the text is that of NOrec.hpp, so a thread here is a NOrec thread
    (NOrecConc.v) with its read filter and generation, and a program point is a
    point of NOrec or one of the points added ([fpc]).  Filters are read, filled
    and cleared one word at a time.

    NOrecBFSpec.v shows that the fast path is sound for disciplined accesses. *)

From S2P Require Import Prelude Memory Values TMSpec NOrec NOrecConc Bloom.
#[local] Open Scope Z_scope.
#[local] Open Scope word_scope.

Definition kBloomWords : Z := 64.
Definition nwords : nat := Z.to_nat kBloomWords.

(** ** State *)

Record bfglobal := BG { bg : gstate; g_gc : bloom; g_gc_gen : Z }.

(** Points the variant adds; during them the NOrec thread stays at the point named
    on the right. *)
Inductive fpc :=
  | FNorec                          (* the point of the NOrec thread *)
  | FBeginGen                       (* [Running]: gen = g_gc_gen.load() *)
  | FGen                            (* [ValEntry], nothing copied: gen == g_gc_gen.load() *)
  | FDisjoint (i : nat)             (* word i of disjoint_with(g_gc) *)
  | FFastClock                      (* time == get_clock() *)
  | FInsert (ors : list (nat * Z))  (* [WriteBack], nothing pending: g_gc.insert *)
  | FPopcount (i n : nat)           (* g_gc.popcount() *)
  | FBump                           (* g_gc_gen.fetch_add(1) *)
  | FClear (i : nat)                (* g_gc.clear() *)
  | FRelease.                       (* set_clock(expect + 2) *)

Record bfthread := BT { b_thr : thread; read_bf : bloom; gen : Z; b_pc : fpc }.

Definition no_bits : bloom := bloom_clear kBloomWords.

(** [new Transaction()] and [init_thread]. *)
Definition bf_thread_init : bfthread := BT (MkThread new_Transaction Idle []) no_bits 0 FNorec.
Definition bf_global_init (m : mem) : bfglobal := BG (MkG m 0 0) no_bits 0.

(** ** Steps *)

(** A step of the NOrec text.  [tx->clear()] of an abort also clears the read
    filter, [tx->reset()] of a commit clears it and the generation. *)
Definition after_norec (g : bfglobal) (t : bfthread) (res : label * gstate * thread) : label * bfglobal * bfthread :=
  let '(l, g', t') := res in
  (l, BG g' (g_gc g) (g_gc_gen g),
   match l with
   | LAbort _ _ => BT t' no_bits (gen t) FNorec
   | LCommit _ _ => BT t' no_bits 0 FNorec
   | _ => BT t' (read_bf t) (gen t) FNorec
   end).

Definition at_point (g : bfglobal) (t : bfthread) (p : fpc) : label * bfglobal * bfthread :=
  (LTau, g, BT (b_thr t) (read_bf t) (gen t) p).

(** [begin]: once the clock is even the logs and the read filter are cleared; the
    generation is loaded next. *)
Definition bf_begin (i : nat) (g : bfglobal) (t : bfthread) : label * bfglobal * bfthread :=
  let '(l, g', t') := begin_step i (bg g) (b_thr t) in
  if is_odd (global_lock (bg g)) then after_norec g t (l, g', t')
  else (l, BG g' (g_gc g) (g_gc_gen g), BT t' no_bits (gen t) FBeginGen).

Definition bf_begin_gen (g : bfglobal) (t : bfthread) : label * bfglobal * bfthread :=
  (LTau, g, BT (b_thr t) (read_bf t) (g_gc_gen g) FNorec).

(** The end of [read_word_norec]: the entry is logged and its address inserted into
    the read filter. *)
Definition bf_read_snap (g : bfglobal) (t : bfthread) (a : Z) (sz : ValueType) (v : any_type_t)
    : label * bfglobal * bfthread :=
  let '(l, g', t') := read_snap (bg g) (b_thr t) a sz v in
  (l, BG g' (g_gc g) (g_gc_gen g),
   BT t' (if snapshot (t_tx (b_thr t)) =? global_lock (bg g) then bloom_insert kBloomWords (read_bf t) a else read_bf t)
     (gen t) FNorec).

(** [validate], head of the loop: with an even clock and a non-empty read set the
    fast path is tried. *)
Definition bf_validate_clock (g : bfglobal) (t : bfthread) (k : kont) : label * bfglobal * bfthread :=
  let '(l, g', t') := validate_clock (bg g) (b_thr t) k in
  (l, BG g' (g_gc g) (g_gc_gen g),
   BT t' (read_bf t) (gen t) (match t_pc t' with ValEntry _ _ _ _ => FGen | _ => FNorec end)).

Definition bf_validate_gen (g : bfglobal) (t : bfthread) : label * bfglobal * bfthread :=
  if gen t =? g_gc_gen g then at_point g t (FDisjoint 0) else at_point g t FNorec.

(** [disjoint_with]: a common bit sends [validate] to the exact comparison. *)
Definition bf_validate_word (g : bfglobal) (t : bfthread) (i : nat) : label * bfglobal * bfthread :=
  if (i <? nwords)%nat
  then if negb (bf_word (read_bf t) i .& bf_word (g_gc g) i =? 0) then at_point g t FNorec
       else at_point g t (FDisjoint (S i))
  else at_point g t FFastClock.

(** The filters are disjoint: return if the clock is still the one read, else
    [continue]. *)
Definition bf_validate_fast (g : bfglobal) (t : bfthread) : option (label * bfglobal * bfthread) :=
  match t_pc (b_thr t) with
  | ValEntry k time _ _ =>
      Some (after_norec g t
              (if time =? global_lock (bg g) then validate_return (bg g) (b_thr t) k time
               else stay (bg g) (b_thr t) (ValClock k)))
  | _ => None
  end.

(** [commit]: the write-back skips null and low addresses. *)
Definition bf_skipped (w : WriteLogEntry) : bool := (w_addr w =? 0) || (w_addr w <? LOW_ADDR).
Definition bf_writeback_stores (ws : list WriteLogEntry) : list (Z * Z) :=
  concat (map (λ w, if bf_skipped w then [] else entry_stores w) ws).

Definition bf_commit_cas (g : bfglobal) (t : bfthread) : label * bfglobal * bfthread :=
  let tx := t_tx (b_thr t) in
  let expect := snapshot tx in
  if global_lock (bg g) =? expect
  then (LTau, BG (MkG (g_mem (bg g)) (wrap64 (expect + 1)) (g_tm_abort_count (bg g))) (g_gc g) (g_gc_gen g),
        BT (MkThread tx (WriteBack expect (bf_writeback_stores (write_set tx))) (t_evs (b_thr t))) (read_bf t) (gen t) FNorec)
  else after_norec g t (stay (bg g) (b_thr t) (ValClock KCommit)).

(** The atomic operations of [g_gc.insert] over the write set. *)
Definition key_ors (key : Z) : list (nat * Z) :=
  (λ h, (bit_index kBloomWords h, bit_mask h)) <$> [bloom_mix64 key; bloom_mix64 (bloom_key2 key)].
Definition filter_ors (ws : list WriteLogEntry) : list (nat * Z) :=
  concat (map (λ w, if w_addr w =? 0 then [] else key_ors (w_addr w)) ws).

Definition with_filter (g : bfglobal) (bf : bloom) : bfglobal := BG (bg g) bf (g_gc_gen g).

(** The part of [commit] between the write-back and the release of the clock. *)
Definition bf_commit_filter (g : bfglobal) (t : bfthread) : label * bfglobal * bfthread :=
  match b_pc t with
  | FInsert ((i, mask) :: ors) => at_point (with_filter g (fetch_or (g_gc g) i mask)) t (FInsert ors)
  | FInsert [] => at_point g t (FPopcount 0 0)
  | FPopcount i n =>
      if (i <? nwords)%nat then at_point g t (FPopcount (S i) (n + builtin_popcountll (bf_word (g_gc g) i)))
      else if kBloomWords * 64 / 2 <? Z.of_nat n then at_point g t FBump else at_point g t FRelease
  | FBump => at_point (BG (bg g) (g_gc g) (wrap64 (g_gc_gen g + 1))) t (FClear 0)
  | FClear i =>
      if (i <? nwords)%nat then at_point (with_filter g (<[i := 0]> (g_gc g))) t (FClear (S i))
      else at_point g t FRelease
  | p => at_point g t p
  end.

Definition bf_release (i : nat) (g : bfglobal) (t : bfthread) : option (label * bfglobal * bfthread) :=
  match t_pc (b_thr t) with
  | WriteBack expect _ => Some (after_norec g t (commit_writeback i (bg g) (b_thr t) expect []))
  | _ => None
  end.

(** The operations of the user code, up to their first access to shared state. *)
Definition bf_read_word (on_stack : Z → bool) (g : bfglobal) (t : bfthread) (a : Z) (sz : ValueType) (junk : any_type_t)
    : label * bfglobal * bfthread :=
  after_norec g t (read_word_start on_stack (bg g) (b_thr t) a sz junk).
Definition bf_write_word (on_stack : Z → bool) (g : bfglobal) (t : bfthread) (a : Z) (sz : ValueType) (v : Z) (junk : any_type_t)
    : label * bfglobal * bfthread :=
  after_norec g t (write_step on_stack (bg g) (b_thr t) a sz v junk).
Definition bf_commit_start (i : nat) (g : bfglobal) (t : bfthread) : label * bfglobal * bfthread :=
  after_norec g t (commit_start i (bg g) (b_thr t)).

(** The double-checked copy of [read_word_norec] and the copy after a validation. *)
Definition bf_read_value (i : nat) (g : bfglobal) (t : bfthread) : option (label * bfglobal * bfthread) :=
  match t_pc (b_thr t) with
  | ReadClock a sz => Some (after_norec g t (read_clock (bg g) (b_thr t) a sz))
  | ReadBytes a sz before got =>
      Some (after_norec g t match copy_byte (g_mem (bg g)) a sz got with
                            | inl got' => stay (bg g) (b_thr t) (ReadBytes a sz before got')
                            | inr v => stay (bg g) (b_thr t) (ReadAfter a sz before v)
                            end)
  | ReadAfter a sz before v => Some (after_norec g t (read_after (bg g) (b_thr t) a sz before v))
  | ReRead a sz got =>
      Some (after_norec g t match copy_byte (g_mem (bg g)) a sz got with
                            | inl got' => stay (bg g) (b_thr t) (ReRead a sz got')
                            | inr v => reread_done i (bg g) (b_thr t) a sz v
                            end)
  | _ => None
  end.

(** The exact comparison of [validate]. *)
Definition bf_validate_entry (i : nat) (g : bfglobal) (t : bfthread) (k : kont) (time : Z) (todo : list ReadLogEntry) (got : list Z)
    : label * bfglobal * bfthread :=
  after_norec g t (validate_entry i (bg g) (b_thr t) k time todo got).

(** The write-back of [commit]; when it is complete the filter comes next. *)
Definition bf_writeback (i : nat) (g : bfglobal) (t : bfthread) (expect : Z) (pending : list (Z * Z)) : label * bfglobal * bfthread :=
  match pending with
  | [] => at_point g t (FInsert (filter_ors (write_set (t_tx (b_thr t)))))
  | _ => after_norec g t (commit_writeback i (bg g) (b_thr t) expect pending)
  end.

(** Steps at the points of NOrec. *)
Definition bf_norec_step (on_stack : Z → bool) (op : uop) (i : nat) (g : bfglobal) (t : bfthread)
    : option (label * bfglobal * bfthread) :=
  match t_pc (b_thr t), op with
  | Idle, UBegin => Some (after_norec g t (stay (bg g) (b_thr t) Begin))
  | Running, URead a sz junk => Some (bf_read_word on_stack g t a sz junk)
  | Running, UWrite a sz v junk => Some (bf_write_word on_stack g t a sz v junk)
  | Running, UCommit => Some (bf_commit_start i g t)
  | Idle, _ | Running, UBegin | Fault, _ => None
  | Begin, _ => Some (bf_begin i g t)
  | ReadClock _ _, _ | ReadBytes _ _ _ _, _ | ReadAfter _ _ _ _, _ | ReRead _ _ _, _ => bf_read_value i g t
  | ReadSnap a sz v, _ => Some (bf_read_snap g t a sz v)
  | ValClock k, _ => Some (bf_validate_clock g t k)
  | ValEntry k time todo got, _ => Some (bf_validate_entry i g t k time todo got)
  | CommitCAS, _ => Some (bf_commit_cas g t)
  | WriteBack expect pending, _ => Some (bf_writeback i g t expect pending)
  end.

Definition bf_tstep (on_stack : Z → bool) (op : uop) (i : nat) (g : bfglobal) (t : bfthread)
    : option (label * bfglobal * bfthread) :=
  match b_pc t with
  | FNorec => bf_norec_step on_stack op i g t
  | FBeginGen => Some (bf_begin_gen g t)
  | FGen => Some (bf_validate_gen g t)
  | FDisjoint w => Some (bf_validate_word g t w)
  | FFastClock => bf_validate_fast g t
  | FRelease => bf_release i g t
  | _ => Some (bf_commit_filter g t)
  end.

Record bfsys := BSys { bs_g : bfglobal; bs_thr : list bfthread }.

Inductive bf_step (acc : Z → ValueType → Prop) (on_stack : nat → Z → bool) : bfsys → label → bfsys → Prop :=
  | bf_step_intro s i t op l g' t' :
      bs_thr s !! i = Some t → uop_ok acc op →
      bf_tstep (on_stack i) op i (bs_g s) t = Some (l, g', t') →
      bf_step acc on_stack s l (BSys g' (<[i := t']> (bs_thr s))).

Definition bf_initial (m : mem) (s : bfsys) : Prop :=
  bs_g s = bf_global_init m ∧ Forall (λ t, t = bf_thread_init) (bs_thr s).

(** ** Running a schedule *)

Fixpoint bf_run (on_stack : nat → Z → bool) (sched : list (nat * uop)) (s : bfsys) : option (list label * bfsys) :=
  match sched with
  | [] => Some ([], s)
  | (i, op) :: sched' =>
      match bs_thr s !! i with
      | Some t =>
          match bf_tstep (on_stack i) op i (bs_g s) t with
          | Some (l, g', t') =>
              match bf_run on_stack sched' (BSys g' (<[i := t']> (bs_thr s))) with
              | Some (tr, s') => Some (l :: tr, s')
              | None => None
              end
          | None => None
          end
      | None => None
      end
  end.

Lemma bf_run_exec acc on_stack sched s tr s' :
  Forall (λ io, uop_ok acc io.2) sched → bf_run on_stack sched s = Some (tr, s') →
  exec (bf_step acc on_stack) s tr s'.
Proof.
  revert s tr s'. induction sched as [|[i op] sched IH]; intros s tr s' Hok Hr; simpl in Hr.
  - simplify_eq. constructor.
  - apply Forall_cons in Hok as [Hop Hok].
    destruct (bs_thr s !! i) as [t|] eqn:Ei; [|done].
    destruct (bf_tstep (on_stack i) op i (bs_g s) t) as [[[l g'] t']|] eqn:Et; [|done].
    destruct (bf_run on_stack sched _) as [[tr' s1]|] eqn:Er; [|done]. simplify_eq.
    eapply exec_cons; [by econstructor|]. by apply IH.
Qed.
