(* ===== verification/NOrecBFSpec.v ===== *)
(** * The Bloom-filter fast path of NOrec-BF is sound

    The simulation of NOrecOpaque.v is reused for the NOrec part of each thread.
    What is added is the invariant of the filters: for every transaction that saw
    the current generation, an entry of its read set either still agrees with the
    newest committed memory or has its address in the global filter.  A commit
    preserves it because, for disciplined accesses, two accesses that overlap start
    at the same address, which is the key of the filters; a rebuild preserves it
    because transactions that carry the new generation have read nothing yet.

    Without the discipline the fast path is not sound ([norecbf_overlap_missed]). *)

From S2P Require Import Prelude Memory Values TMSpec NOrec NOrecConc NOrecOpaque Bloom NOrecBF.
#[local] Open Scope Z_scope.
#[local] Open Scope word_scope.

(** ** Filter facts *)

Abbreviation has_key bf a := (bloom_contains kBloomWords bf a = true).

Lemma has_key_bits bf a :
  has_key bf a ↔ ∀ i j, (i, j) ∈ key_bits kBloomWords a → bf_bit bf i j = true.
Proof.
  rewrite bloom_contains_bits, forallb_forall. split.
  - intros H i j Hin. apply (H (i, j)). by apply list_elem_of_In.
  - intros H [i j] Hin. apply H. by apply list_elem_of_In.
Qed.

(** What [fetch_or]s that are still to come will set. *)
Definition owed (gc : bloom) (ors : list (nat * Z)) (i : nat) (j : Z) : Prop :=
  bf_bit gc i j = true ∨ ∃ h, (i, bit_mask h) ∈ ors ∧ j = h .& 63.

Lemma owed_start gc ws w i j :
  w ∈ ws → w_addr w ≠ 0 → (i, j) ∈ key_bits kBloomWords (w_addr w) → owed gc (filter_ors ws) i j.
Proof.
  intros Hw Hne Hb. right. unfold key_bits in Hb. apply list_elem_of_fmap in Hb as (h & [= -> ->] & Hh).
  exists h. split; [|done]. unfold filter_ors. apply list_elem_of_In, in_concat.
  exists (key_ors (w_addr w)). split; [|apply list_elem_of_In, list_elem_of_fmap; by exists h].
  apply in_map_iff. exists w. by rewrite (proj2 (Z.eqb_neq _ _) Hne), <- list_elem_of_In.
Qed.

Lemma fetch_or_keeps gc i h i' j :
  bf_bit gc i' j = true → bf_bit (fetch_or gc i (bit_mask h)) i' j = true.
Proof.
  unfold bf_bit, bf_word, fetch_or. destruct (decide (i' = i)) as [->|Hne].
  - rewrite list_lookup_alter_eq. destruct (gc !! i); simpl; [|by rewrite Z.testbit_0_l].
    by rewrite Z.lor_spec, orb_true_iff; left.
  - by rewrite list_lookup_alter_ne.
Qed.

Lemma filter_ors_masks ws i mask :
  (i, mask) ∈ filter_ors ws → ∃ h, mask = bit_mask h ∧ (i < nwords)%nat.
Proof.
  unfold filter_ors. intros Hin%list_elem_of_In. apply in_concat in Hin as (l & Hl & Hin).
  apply in_map_iff in Hl as (w & <- & _). destruct (w_addr w =? 0); [by destruct Hin|].
  apply list_elem_of_In, list_elem_of_fmap in Hin as (h & [= -> ->] & _). exists h.
  split; [done|]. by apply bit_index_lt.
Qed.

Lemma owed_pay gc i h ors i' j :
  (i < length gc)%nat → owed gc ((i, bit_mask h) :: ors) i' j → owed (fetch_or gc i (bit_mask h)) ors i' j.
Proof.
  intros Hi [Hb|(h' & Hin & ->)]; [left; by apply fetch_or_keeps|].
  apply elem_of_cons in Hin as [[= -> Hm]|Hin]; [|right; eauto].
  left. rewrite fetch_or_bit by done.
  assert (h' .& 63 = h .& 63) as ->.
  { apply (f_equal (λ m, Z.testbit m (h' .& 63))) in Hm.
    rewrite !bit_mask_bit, Z.eqb_refl in Hm. symmetry in Hm. by apply Z.eqb_eq in Hm. }
  by rewrite bool_decide_eq_true_2, Z.eqb_refl, orb_true_r by done.
Qed.

Lemma has_key_fetch_or gc i h a : has_key gc a → has_key (fetch_or gc i (bit_mask h)) a.
Proof. rewrite !has_key_bits. intros H i' j Hin. by apply fetch_or_keeps, H. Qed.

(** Word-wise disjointness excludes a common key. *)
Lemma words_no_common a b key :
  length a = nwords → length b = nwords →
  (∀ i, (i < nwords)%nat → bf_word a i .& bf_word b i = 0) →
  has_key a key → has_key b key → False.
Proof.
  intros Ha Hb Hw. rewrite !has_key_bits. intros H1 H2.
  assert ((bit_index kBloomWords (bloom_mix64 key), bloom_mix64 key .& 63) ∈ key_bits kBloomWords key) as Hin by left.
  specialize (H1 _ _ Hin). specialize (H2 _ _ Hin).
  specialize (Hw _ (bit_index_lt kBloomWords (bloom_mix64 key) ltac:(done))).
  apply (f_equal (λ w, Z.testbit w (bloom_mix64 key .& 63))) in Hw.
  rewrite Z.land_spec, Z.testbit_0_l in Hw. unfold bf_bit in H1, H2. by rewrite H1, H2 in Hw.
Qed.

Section Soundness.
Context (acc : Z → ValueType → Prop) `{!Discipline acc}.
Context (on_stack : nat → Z → bool).
Context (acc_off_stack : ∀ i a sz, acc a sz → on_stack i a = false).

(** ** Invariant *)

Definition erase (s : bfsys) : sys := MkSys (bg (bs_g s)) (b_thr <$> bs_thr s).

#[local] Abbreviation rset t := (read_set (t_tx (b_thr t))).
#[local] Abbreviation wset t := (write_set (t_tx (b_thr t))).
#[local] Abbreviation npc t := (t_pc (b_thr t)).

(** A running transaction that has loaded its generation. *)
Definition settled (t : bfthread) : Prop := live (npc t) ∧ b_pc t ≠ FBeginGen.

Definition covered (bf : bloom) (r : ReadLogEntry) : Prop :=
  acc (r_addr r) (r_type r) ∧ has_key bf (r_addr r).
Definition current (m : mem) (gc : bloom) (r : ReadLogEntry) : Prop :=
  read_value_from_addr m (r_addr r) (r_type r) = observed_val r ∨ has_key gc (r_addr r).

(** Where the NOrec thread stands during the added points. *)
Definition shape (t : bfthread) : Prop :=
  match b_pc t with
  | FNorec => True
  | FBeginGen => npc t = Running ∧ rset t = []
  | FGen | FDisjoint _ | FFastClock => ∃ k time, npc t = ValEntry k time (rset t) []
  | _ => ∃ e, npc t = WriteBack e []
  end.

(** The first [i] words have been found disjoint, as long as the clock stands. *)
Definition agreed (lock : Z) (gc : bloom) (gn : Z) (t : bfthread) (i : nat) : Prop :=
  ∀ k time rs got, npc t = ValEntry k time rs got → lock = time →
    gen t = gn ∧ ∀ j, (j < i)%nat → bf_word (read_bf t) j .& bf_word gc j = 0.

Record bt_ok (lock : Z) (m : mem) (gc : bloom) (gn : Z) (t : bfthread) : Prop := BTOk {
  bt_shape : shape t;
  bt_length : length (read_bf t) = nwords;
  bt_reads : live (npc t) → Forall (covered (read_bf t)) (rset t);
  bt_gen : settled t → gen t ≤ gn;
  bt_current : settled t → gen t = gn → Forall (current m gc) (rset t);
  bt_fast : match b_pc t with
            | FDisjoint i => agreed lock gc gn t i
            | FFastClock => agreed lock gc gn t nwords
            | _ => True
            end }.

Definition written (gc : bloom) (t : bfthread) : Prop := Forall (λ w, has_key gc (w_addr w)) (wset t).

(** Transactions of the current generation have read nothing yet. *)
Definition fresh (gn : Z) (thr : list bfthread) : Prop :=
  ∀ j u, thr !! j = Some u → settled u → gen u = gn → rset u = [].

Definition phase (gc : bloom) (gn : Z) (thr : list bfthread) (t : bfthread) : Prop :=
  match b_pc t with
  | FInsert ors =>
      (∀ w i j, w ∈ wset t → (i, j) ∈ key_bits kBloomWords (w_addr w) → owed gc ors i j) ∧
      ∀ i mask, (i, mask) ∈ ors → ∃ h, mask = bit_mask h ∧ (i < nwords)%nat
  | FPopcount _ _ | FBump => written gc t
  | FClear _ => fresh gn thr
  | FRelease => written gc t ∨ fresh gn thr
  | _ => True
  end.

Definition bumped (t : bfthread) : Prop := match b_pc t with FClear _ | FRelease => True | _ => False end.

Record bf_ok (s : bfsys) (n : nat) (m : mem) : Prop := BFOk {
  bo_length : length (g_gc (bs_g s)) = nwords;
  bo_gen : 0 ≤ g_gc_gen (bs_g s) ≤ Z.of_nat n ∨
           (∃ i t, bs_thr s !! i = Some t ∧ bumped t) ∧ 0 ≤ g_gc_gen (bs_g s) ≤ Z.of_nat n + 1;
  bo_thr : ∀ i t, bs_thr s !! i = Some t →
           bt_ok (global_lock (bg (bs_g s))) m (g_gc (bs_g s)) (g_gc_gen (bs_g s)) t;
  bo_phase : ∀ i t, bs_thr s !! i = Some t →
           phase (g_gc (bs_g s)) (g_gc_gen (bs_g s)) (bs_thr s) t }.

Definition BFInv (s : bfsys) (a : spec_state) : Prop :=
  Inv acc (erase s) a ∧ ∃ n m, length (hist a) = S n ∧ hist a !! n = Some m ∧ bf_ok s n m.

(** ** Facts from the NOrec invariant *)

Lemma erase_lookup s i t : bs_thr s !! i = Some t → s_thr (erase s) !! i = Some (b_thr t).
Proof. intros H. simpl. by rewrite list_lookup_fmap, H. Qed.

Lemma erase_insert s g' i t' :
  erase (BSys g' (<[i := t']> (bs_thr s))) = MkSys (bg g') (<[i := b_thr t']> (s_thr (erase s))).
Proof. unfold erase. simpl. by rewrite list_fmap_insert. Qed.

(** The state of the clock and memory, at the newest committed memory. *)
Lemma inv_state s a n m :
  Inv acc s a → length (hist a) = S n → hist a !! n = Some m →
  mem_state (s_g s) (s_thr s) n m ∧ 2 * Z.of_nat n + 2 < 2 ^ 64 ∧
  ∀ i t, s_thr s !! i = Some t → thread_ok acc a (global_lock (s_g s)) (g_mem (s_g s)) i t.
Proof.
  intros (n' & m' & Hn' & Hb & Hm' & Hst & Hthr) Hn Hm. assert (n' = n) as -> by lia.
  rewrite Hm in Hm'. simplify_eq. done.
Qed.

Lemma spec_step_hist a l a' : spec_step a l a' → ∃ h, hist a' = hist a ++ h.
Proof. intros H. destruct H; simpl; eauto; exists []; by rewrite app_nil_r. Qed.

(** While the clock stays within one commit, so does the history. *)
Lemma same_hist a l s' a' n :
  Inv acc s' a' → spec_step a l a' → length (hist a) = S n →
  global_lock (s_g s') ≤ 2 * Z.of_nat n + 1 → hist a' = hist a.
Proof.
  intros (n' & m' & Hn' & _ & _ & Hst & _) Hs Hn Hlk. apply mem_state_range in Hst.
  destruct (spec_step_hist _ _ _ Hs) as [h Hh]. rewrite Hh, length_app in Hn'.
  destruct h as [|x h]; [by rewrite app_nil_r in Hh|]. simpl in Hn'. lia.
Qed.

Lemma writer_locked g thr n m i t :
  mem_state g thr n m → thr !! i = Some t → writer t → global_lock g = 2 * Z.of_nat n + 1.
Proof. intros [? ? Hno|? ? ? Hl] Hi Hw; [by destruct (Hno _ _ Hi)|done]. Qed.

Lemma writers_unique g thr n m i t j u :
  mem_state g thr n m → thr !! i = Some t → writer t → thr !! j = Some u → writer u → i = j.
Proof.
  intros [? ? Hno|k v ? ? ? ? ? Hu] Hi Hw Hj Hwu; [by destruct (Hno _ _ Hi)|].
  by rewrite (Hu _ _ Hi Hw), (Hu _ _ Hj Hwu).
Qed.

(** Points of [commit] after the write-back. *)
Definition filtering (t : bfthread) : Prop :=
  match b_pc t with FInsert _ | FPopcount _ _ | FBump | FClear _ | FRelease => True | _ => False end.

Lemma filtering_writer t : shape t → filtering t → writer (b_thr t).
Proof.
  unfold shape, filtering, writer. destruct (b_pc t); try done; intros [e ->] _; done.
Qed.

Lemma phase_idle gc gn thr t : ¬ filtering t → phase gc gn thr t.
Proof. unfold filtering, phase. destruct (b_pc t); try done; intros H; by destruct (H I). Qed.

(** ** Steps that leave the filter alone *)

Lemma bt_ok_lock lock lock' m gc gn t :
  lock ≤ lock' → (∀ k time rs got, npc t = ValEntry k time rs got → time ≤ lock) →
  bt_ok lock m gc gn t → bt_ok lock' m gc gn t.
Proof.
  intros Hle Ht [? ? ? ? ? Hf]. split; try done.
  assert (∀ i, agreed lock gc gn t i → agreed lock' gc gn t i) as Hag.
  { intros i Ha k time rs got Hp ->. apply (Ha k _ rs got Hp). specialize (Ht _ _ _ _ Hp). lia. }
  destruct (b_pc t); auto.
Qed.

Lemma val_time a lock m i t k time rs got :
  thread_ok acc a lock m i t → t_pc t = ValEntry k time rs got → time ≤ lock.
Proof. intros Hok Hp. destruct Hok as [_ Hpc]; rewrite Hp in *; [done|]. simpl in Hpc. lia. Qed.

(** The change of a transaction that keeps [fresh]. *)
Definition fresh_move (gn : Z) (t t' : bfthread) : Prop :=
  settled t' → gen t' = gn → rset t' = [] ∨ (settled t ∧ gen t = gn ∧ rset t' = rset t).

Lemma fresh_insert gn thr i t t' :
  thr !! i = Some t → fresh gn thr → fresh_move gn t t' → fresh gn (<[i := t']> thr).
Proof.
  intros Hi Hf Hm j u Hj Hs Hg. apply list_lookup_insert_Some in Hj as [(-> & -> & _)|[_ Hj]]; [|by eapply Hf].
  destruct (Hm Hs Hg) as [?|(? & ? & ->)]; [done|by eapply Hf].
Qed.

Lemma bf_local s a n m i t l g' t' a' :
  Inv acc (erase s) a → length (hist a) = S n → hist a !! n = Some m → bf_ok s n m →
  bs_thr s !! i = Some t → spec_step a l a' →
  Inv acc (erase (BSys g' (<[i := t']> (bs_thr s)))) a' →
  g_gc g' = g_gc (bs_g s) → g_gc_gen g' = g_gc_gen (bs_g s) →
  global_lock (bg (bs_g s)) ≤ global_lock (bg g') ≤ 2 * Z.of_nat n + 1 →
  bt_ok (global_lock (bg g')) m (g_gc (bs_g s)) (g_gc_gen (bs_g s)) t' →
  (bumped t → bumped t') →
  phase (g_gc (bs_g s)) (g_gc_gen (bs_g s)) (<[i := t']> (bs_thr s)) t' →
  (is_odd (global_lock (bg (bs_g s))) = true → fresh_move (g_gc_gen (bs_g s)) t t') →
  ∃ a', spec_step a l a' ∧ BFInv (BSys g' (<[i := t']> (bs_thr s))) a'.
Proof.
  intros HI Hn Hm [Hlen Hgen Hthr Hph] Hi Hs HI' Hgc Hgn Hlk Ht' Hb Hp' Hfm.
  assert (hist a' = hist a) as Hh by (eapply same_hist; [done|done|done|simpl; lia]).
  exists a'. split; [done|]. split; [done|]. exists n, m. rewrite Hh. split_and!; [done..|].
  destruct (inv_state _ _ _ _ HI Hn Hm) as (Hst & _ & Hok).
  split; simpl; rewrite ?Hgc, ?Hgn; [done| | |].
  - destruct Hgen as [?|[(j & u & Hj & Hbu) ?]]; [by left|]. right. split; [|done].
    destruct (decide (j = i)) as [->|Hne].
    + simplify_eq. exists i, t'. split; [|auto]. apply list_lookup_insert_eq. by eapply lookup_lt_Some.
    + exists j, u. by rewrite list_lookup_insert_ne.
  - intros j u Hj. apply list_lookup_insert_Some in Hj as [(-> & -> & _)|[_ Hj]]; [done|].
    eapply bt_ok_lock; [|intros k time rs got Hp|by eapply Hthr]; [lia|].
    apply erase_lookup in Hj. exact (val_time _ _ _ _ _ _ _ _ _ (Hok _ _ Hj) Hp).
  - intros j u Hj. apply list_lookup_insert_Some in Hj as [(-> & -> & _)|[Hne Hj]]; [done|].
    pose proof (Hph _ _ Hj) as Hpu. unfold phase in *.
    assert (filtering u → is_odd (global_lock (bg (bs_g s))) = true) as Hodd.
    { intros Hf. apply filtering_writer in Hf; [|by eapply Hthr].
      erewrite (writer_locked _ _ _ _ j) by (try done; by apply erase_lookup). apply is_odd_odd. }
    unfold filtering in Hodd.
    destruct (b_pc u); try done; [|destruct Hpu as [?|Hpu]; [by left|right]];
      (eapply fresh_insert; [done|done|by apply Hfm, Hodd]).
Qed.

(** A step of the NOrec text at a point the variant does not touch. *)
Lemma tstep_frame os op i g t l g' t' :
  tstep os op i g t = Some (l, g', t') →
  (match t_pc t with Begin | ReadSnap _ _ _ | CommitCAS | WriteBack _ [] => False | _ => True end) →
  global_lock g' = global_lock g ∧
  (live (t_pc t') → l = LTau ∧ live (t_pc t) ∧ read_set (t_tx t') = read_set (t_tx t)).
Proof.
  unfold tstep. intros Hs Hp. destruct (t_pc t) eqn:Ep; try done.
  - unfold stay in Hs. destruct op; simplify_eq/=. split; [done|by intros []].
  - destruct op as [|a sz junk|a sz v junk|]; simplify_eq.
    + unfold read_word_start, stay in Hs. repeat case_match; by simplify_eq/=.
    + unfold write_step, tm_write, write_word_norec, stay in Hs. repeat case_match; by simplify_eq/=.
    + unfold commit_start, stay in Hs. case_match; simplify_eq/=; [split; [done|by intros []]|done].
  - unfold read_clock, stay in Hs. repeat case_match; by simplify_eq/=.
  - unfold stay in Hs. repeat case_match; by simplify_eq/=.
  - unfold read_after, stay in Hs. repeat case_match; by simplify_eq/=.
  - unfold reread_done, stay, abort_tx in Hs. repeat case_match; simplify_eq/=; try done; (split; [done|by intros []]).
  - unfold validate_clock, validate_return, stay in Hs. repeat case_match; by simplify_eq/=.
  - unfold validate_entry, validate_return, stay, abort_tx in Hs. repeat case_match; simplify_eq/=; try done; (split; [done|by intros []]).
  - destruct pending as [|[x b] pending]; [done|]. unfold commit_writeback in Hs. by simplify_eq/=.
Qed.

(** A thread back at a NOrec point with its read set, filter and generation, or
    with no running transaction. *)
Lemma bt_ok_norec lock lock' m gc gn t t' :
  bt_ok lock m gc gn t → b_pc t' = FNorec → length (read_bf t') = nwords →
  (live (npc t') → settled t ∧ rset t' = rset t ∧ read_bf t' = read_bf t ∧ gen t' = gen t) →
  bt_ok lock' m gc gn t'.
Proof.
  intros [? ? Hr Hg Hc _] Hp Hl Hsame. split; rewrite ?Hp; try done.
  - unfold shape. by rewrite Hp.
  - intros Hlive. destruct (Hsame Hlive) as ([Ht ?] & -> & -> & _). auto.
  - intros [Hlive _]. destruct (Hsame Hlive) as (Hset & _ & _ & ->). auto.
  - intros [Hlive _]. destruct (Hsame Hlive) as (Hset & -> & _ & ->). auto.
Qed.

Lemma fresh_move_same gn t t' :
  (live (npc t') → settled t ∧ rset t' = rset t ∧ gen t' = gen t) → fresh_move gn t t'.
Proof. intros H [Hl _] Hg. destruct (H Hl) as (? & ? & Hgen). right. by rewrite Hgen in Hg. Qed.

Lemma no_bits_length : length no_bits = nwords.
Proof. apply length_replicate. Qed.

Section OneStep.
Context (s : bfsys) (a : spec_state) (n : nat) (m : mem) (i : nat) (t : bfthread).
Context (HI : Inv acc (erase s) a) (Hn : length (hist a) = S n) (Hm : hist a !! n = Some m).
Context (Hok : bf_ok s n m) (Hi : bs_thr s !! i = Some t).
Context (Hb : 2 * Z.of_nat (length (hist a)) + 2 < 2 ^ 64).

#[local] Abbreviation g := (bs_g s).
#[local] Abbreviation lock := (global_lock (bg (bs_g s))).

Definition bf_sim (res : label * bfglobal * bfthread) : Prop :=
  let '(l, g', t') := res in
  ∃ a', spec_step a l a' ∧ BFInv (BSys g' (<[i := t']> (bs_thr s))) a'.

Lemma my_ok : bt_ok lock m (g_gc g) (g_gc_gen g) t.
Proof. by eapply Hok. Qed.

Lemma my_state :
  mem_state (bg g) (b_thr <$> bs_thr s) n m ∧ 2 * Z.of_nat n ≤ lock ≤ 2 * Z.of_nat n + 1 ∧
  thread_ok acc a lock (g_mem (bg g)) i (b_thr t).
Proof.
  destruct (inv_state _ _ _ _ HI Hn Hm) as (Hst & _ & Ht). split; [done|].
  split; [by apply mem_state_range in Hst|]. by apply Ht, erase_lookup.
Qed.

Lemma my_odd : writer (b_thr t) → is_odd lock = true.
Proof.
  intros Hw. destruct my_state as (Hst & _ & _).
  erewrite (writer_locked _ _ _ _ i) by (try done; by apply erase_lookup). apply is_odd_odd.
Qed.

(** The NOrec part of a step taken from its text. *)
Definition norec_res (res : label * gstate * thread) : Prop :=
  let '(l, g', t') := res in
  ∃ a', spec_step a l a' ∧ ∀ gc gn bf ge p, Inv acc (erase (BSys (BG g' gc gn) (<[i := BT t' bf ge p]> (bs_thr s)))) a'.

Lemma norec_sim op res :
  uop_ok acc op → tstep (on_stack i) op i (bg g) (b_thr t) = Some res → norec_res res.
Proof.
  destruct res as [[l g'] t']. intros Hop Hs. destruct (sim_step acc on_stack acc_off_stack (erase s) a l
    (MkSys g' (<[i := t']> (s_thr (erase s))))) as (a' & Hsp & HI'); [done| |done|].
  { econstructor; [by apply erase_lookup|done|done]. }
  exists a'. split; [done|]. intros. by rewrite erase_insert.
Qed.

(** A step that leaves the NOrec part alone. *)
Lemma same_sim g' bf ge p :
  bg g' = bg g → Inv acc (erase (BSys g' (<[i := BT (b_thr t) bf ge p]> (bs_thr s)))) a.
Proof.
  intros Hg. rewrite erase_insert, Hg. simpl. rewrite list_insert_id by (by apply erase_lookup). apply HI.
Qed.

Lemma point_sim bf ge p :
  bt_ok lock m (g_gc g) (g_gc_gen g) (BT (b_thr t) bf ge p) →
  (bumped t → bumped (BT (b_thr t) bf ge p)) →
  phase (g_gc g) (g_gc_gen g) (<[i := BT (b_thr t) bf ge p]> (bs_thr s)) (BT (b_thr t) bf ge p) →
  fresh_move (g_gc_gen g) t (BT (b_thr t) bf ge p) →
  bf_sim (LTau, g, BT (b_thr t) bf ge p).
Proof.
  intros Ht Hbu Hph Hf. destruct my_state as (_ & Hr & _).
  eapply bf_local; [done..|constructor|by apply same_sim|done|done|lia|done|done|done|done].
Qed.

Lemma lifted_sim op l g' t' :
  b_pc t = FNorec → uop_ok acc op → tstep (on_stack i) op i (bg g) (b_thr t) = Some (l, g', t') →
  (match npc t with Begin | ReadSnap _ _ _ | CommitCAS | WriteBack _ [] => False | _ => True end) →
  bf_sim (after_norec g t (l, g', t')).
Proof.
  intros Hp Hop Hs Hpt. destruct (norec_sim _ _ Hop Hs) as (a' & Hsp & HI').
  destruct (tstep_frame _ _ _ _ _ _ _ _ Hs Hpt) as [Hlk Hlive]. destruct my_state as (_ & Hr & _).
  pose proof my_ok as Ht.
  assert (∃ bf ge, after_norec g t (l, g', t') = (l, BG g' (g_gc g) (g_gc_gen g), BT t' bf ge FNorec) ∧
    length bf = nwords ∧ (live (t_pc t') → settled t ∧ read_set (t_tx t') = rset t ∧ bf = read_bf t ∧ ge = gen t))
    as (bf & ge & -> & Hlen & Hsame).
  { unfold settled. rewrite Hp. destruct l; simpl; eexists _, _; (split; [done|]);
      (split; [apply Ht || apply no_bits_length|]); intros Hl; destruct (Hlive Hl) as (? & ? & ?); done. }
  eapply bf_local; [done..|apply HI'|done|done| | | | |].
  - simpl. rewrite Hlk. lia.
  - eapply bt_ok_norec; [done|done|done|]. intros Hl. by apply Hsame.
  - unfold bumped. by rewrite Hp.
  - apply phase_idle; by intros [].
  - intros _. apply fresh_move_same. intros Hl. destruct (Hsame Hl) as (? & ? & ? & ?). done.
Qed.

Lemma bf_begin_sim : b_pc t = FNorec → npc t = Begin → bf_sim (bf_begin i g t).
Proof.
  intros Hp Hpt. pose proof (norec_sim UCommit (begin_step i (bg g) (b_thr t)) I ltac:(unfold tstep; by rewrite Hpt)) as HN.
  pose proof my_ok as Ht. destruct my_state as (_ & Hr & _).
  unfold bf_begin, begin_step, stay in *. destruct (is_odd lock) eqn:Eo; simpl in *; destruct HN as (a' & Hsp & HI').
  - eapply bf_local; [done..|apply HI'|done|done| | | | |].
    + simpl. lia.
    + eapply bt_ok_norec; [done|done|apply Ht|by intros []].
    + unfold bumped. by rewrite Hp.
    + apply phase_idle; by intros [].
    + intros _. apply fresh_move_same. by intros [].
  - eapply bf_local; [done..|apply HI'|done|done| | | | |].
    + simpl. lia.
    + split; try done; intros [_ []]; done.
    + unfold bumped. by rewrite Hp.
    + apply phase_idle; by intros [].
    + intros _ [_ []]. done.
Qed.

Lemma begin_gen_sim : b_pc t = FBeginGen → bf_sim (bf_begin_gen g t).
Proof.
  intros Hp. pose proof my_ok as [Hs ? Hr _ _ _]. unfold shape in Hs. rewrite Hp in Hs. destruct Hs as [Hpt Hrs].
  apply point_sim.
  - split; simpl; try done. intros _ _. rewrite Hrs. constructor.
  - unfold bumped. by rewrite Hp.
  - apply phase_idle; by intros [].
  - intros _ _. by left.
Qed.

(** The value logged is that of the newest committed memory. *)
Lemma read_snap_sim ad sz v :
  b_pc t = FNorec → npc t = ReadSnap ad sz v → bf_sim (bf_read_snap g t ad sz v).
Proof.
  intros Hp Hpt. pose proof (norec_sim UCommit (read_snap (bg g) (b_thr t) ad sz v) I ltac:(unfold tstep; by rewrite Hpt)) as HN.
  pose proof my_ok as Ht. destruct my_state as (Hst & Hr & Htok).
  assert (settled t) as Hset by (split; [by rewrite Hpt|by rewrite Hp]).
  destruct Htok as [Htx Hpc]; [by rewrite Hpt|]. rewrite Hpt in Hpc. destruct Hpc as [[Hacc _] Hv].
  destruct (tx_ok_snapshot _ _ _ _ _ _ Htx Hn) as [Ho _].
  unfold bf_read_snap, read_snap, stay in *.
  destruct (Z.eqb_spec (snapshot (t_tx (b_thr t))) lock) as [E|E]; destruct HN as (a' & Hsp & HI').
  - rewrite E in Ho. destruct (mem_state_even _ _ _ _ Hst Ho) as [_ Hg].
    eapply bf_local; [done..|apply HI'|done|done|simpl; lia| | | |].
    + destruct Ht as [_ Hlen Hrd Hgn Hcur _]. split; simpl; try done.
      * by rewrite bloom_insert_length.
      * intros _. apply Forall_app. split; [|apply Forall_singleton; split; [done|by apply bloom_contains_insert]].
        eapply Forall_impl; [by apply Hrd, Hset|]. intros r [? Hk]. split; [done|].
        eapply bloom_contains_mono; [|done]. by apply bloom_insert_le.
      * intros _. by apply Hgn.
      * intros _ Hge. apply Forall_app. split; [by apply Hcur|]. apply Forall_singleton. left. simpl.
        rewrite Hv by done. by rewrite Hg.
    + unfold bumped. by rewrite Hp.
    + apply phase_idle; by intros [].
    + by rewrite Ho.
  - eapply bf_local; [done..|apply HI'|done|done|simpl; lia| | | |].
    + eapply bt_ok_norec; [done|done|apply Ht|]. done.
    + unfold bumped. by rewrite Hp.
    + apply phase_idle; by intros [].
    + intros _. by apply fresh_move_same.
Qed.

Lemma validate_clock_sim k :
  b_pc t = FNorec → npc t = ValClock k → bf_sim (bf_validate_clock g t k).
Proof.
  intros Hp Hpt. pose proof (norec_sim UCommit (validate_clock (bg g) (b_thr t) k) I ltac:(unfold tstep; by rewrite Hpt)) as HN.
  pose proof my_ok as Ht. destruct my_state as (_ & Hr & _).
  assert (settled t) as Hset by (split; [by rewrite Hpt|by rewrite Hp]).
  unfold bf_validate_clock. destruct (validate_clock (bg g) (b_thr t) k) as [[l g'] t'] eqn:Ev.
  destruct HN as (a' & Hsp & HI').
  assert (global_lock g' = lock ∧ read_set (t_tx t') = rset t ∧
    match t_pc t' with ValEntry k time rs got => rs = rset t ∧ got = [] | _ => True end) as (Hlk & Hrs & Hve).
  { unfold validate_clock, validate_return, stay in Ev. repeat case_match; by simplify_eq/=. }
  eapply bf_local; [done..|apply HI'|done|done|simpl; lia| | | |].
  - destruct Ht as [_ Hlen Hrd Hgn Hcur _]. split; simpl; rewrite ?Hrs.
    + unfold shape. simpl. destruct (t_pc t'); try done. destruct Hve as [-> ->]. rewrite Hrs. eauto.
    + done.
    + intros _. by apply Hrd, Hset.
    + intros _. by apply Hgn.
    + intros _. by apply Hcur.
    + by destruct (t_pc t').
  - unfold bumped. by rewrite Hp.
  - apply phase_idle. unfold filtering. simpl. destruct (t_pc t'); by intros [].
  - intros _ _ Hg. right. done.
Qed.

(** Moving between the added points of [validate]. *)
Lemma validate_point_sim p :
  (∃ k time, npc t = ValEntry k time (rset t) []) →
  ¬ filtering t → ¬ filtering (BT (b_thr t) (read_bf t) (gen t) p) → b_pc t ≠ FBeginGen → p ≠ FBeginGen →
  match p with
  | FDisjoint w => agreed lock (g_gc g) (g_gc_gen g) t w
  | FFastClock => agreed lock (g_gc g) (g_gc_gen g) t nwords
  | _ => True
  end → bf_sim (at_point g t p).
Proof.
  intros Hpt Hnf Hnf' Hb1 Hb2 Hag. pose proof my_ok as [_ Hlen Hrd Hgn Hcur _].
  assert (settled t) as Hset by (destruct Hpt as (? & ? & Hpt); split; [by rewrite Hpt|done]).
  apply point_sim.
  - split; simpl; try done.
    + unfold shape. unfold filtering in Hnf'. simpl in *. destruct p; try done; by destruct Hnf'.
    + intros _. by apply Hgn.
    + intros _. by apply Hcur.
  - unfold bumped. unfold filtering in Hnf. destruct (b_pc t); try done; by destruct Hnf.
  - by apply phase_idle.
  - intros _ Hg. by right.
Qed.

Lemma validate_gen_sim : b_pc t = FGen → bf_sim (bf_validate_gen g t).
Proof.
  intros Hp. pose proof (bt_shape _ _ _ _ _ my_ok) as Hs. unfold shape in Hs. rewrite Hp in Hs.
  unfold bf_validate_gen. destruct (Z.eqb_spec (gen t) (g_gc_gen g)) as [E|E];
    (apply validate_point_sim; [done|unfold filtering; rewrite Hp; tauto|by intros []|by rewrite Hp|done|]); [|done].
  intros k time rs got _ _. split; [done|]. intros j Hj. lia.
Qed.

Lemma validate_word_sim w : b_pc t = FDisjoint w → bf_sim (bf_validate_word g t w).
Proof.
  intros Hp. pose proof my_ok as [Hs _ _ _ _ Hf]. unfold shape in Hs. rewrite Hp in Hs, Hf.
  unfold bf_validate_word. destruct (Nat.ltb_spec w nwords) as [Hw|Hw];
    [destruct (Z.eqb_spec (bf_word (read_bf t) w .& bf_word (g_gc g) w) 0) as [E|E]; simpl|];
    (apply validate_point_sim; [done|unfold filtering; rewrite Hp; tauto|by intros []|by rewrite Hp|done|]); try done.
  - intros k time rs got Hpt Hl. destruct (Hf _ _ _ _ Hpt Hl) as [? Hd]. split; [done|].
    intros j Hj. destruct (decide (j = w)) as [->|]; [done|]. apply Hd. lia.
  - intros k time rs got Hpt Hl. destruct (Hf _ _ _ _ Hpt Hl) as [? Hd]. split; [done|].
    intros j Hj. apply Hd. lia.
Qed.

(** The fast path: disjoint filters under an unchanged clock mean that the read set
    agrees with memory. *)
Lemma fast_match k time rs got :
  b_pc t = FFastClock → npc t = ValEntry k time rs got → time = lock → rs_match m (rset t).
Proof.
  intros Hp Hpt Hl. pose proof my_ok as [_ Hlen Hrd _ Hcur Hf]. rewrite Hp in Hf.
  destruct (Hf _ _ _ _ Hpt (eq_sym Hl)) as [Hg Hd].
  assert (settled t) as Hset by (split; [by rewrite Hpt|by rewrite Hp]).
  specialize (Hrd (proj1 Hset)). specialize (Hcur Hset Hg). unfold rs_match.
  rewrite Forall_forall in Hrd, Hcur |- *. intros r Hr.
  destruct (Hcur r Hr) as [?|Hk]; [done|]. destruct (Hrd r Hr) as [_ Hk']. exfalso.
  eapply (words_no_common (read_bf t) (g_gc g)); eauto. apply Hok.
Qed.

Lemma validate_fast_sim :
  b_pc t = FFastClock → ∃ res, bf_validate_fast g t = Some res ∧ bf_sim res.
Proof.
  intros Hp. pose proof my_ok as Ht. pose proof (bt_shape _ _ _ _ _ Ht) as Hs. unfold shape in Hs. rewrite Hp in Hs.
  destruct Hs as (k & time & Hpt). unfold bf_validate_fast. rewrite Hpt. eexists. split; [done|].
  destruct my_state as (Hst & Hr & Htok). pose proof Htok as [Htx Hpc]; [by rewrite Hpt|].
  rewrite Hpt in Hpc. destruct Hpc as (Hk & Ho & Hle & _).
  assert (settled t) as Hset by (split; [by rewrite Hpt|by rewrite Hp]).
  assert (∀ res, sim_local acc a i (bg g) res → read_set (t_tx res.2) = rset t → res.1.1 = LTau →
    bf_sim (after_norec g t res)) as Hgo.
  { intros [[l g'] t'] Hsim Hrs Hl. simpl in Hrs, Hl. subst l.
    destruct (Inv_local acc (erase s) a i (b_thr t) LTau g' t') as (a' & Hsp & HI'); [done|by apply erase_lookup| |done|].
    { unfold writer. rewrite Hpt. tauto. }
    destruct Hsim as (_ & Hlk & _). eapply bf_local; [done..|by rewrite erase_insert|done|done|simpl; lia| | | |].
    - eapply bt_ok_norec; [done|done|apply Ht|]. done.
    - unfold bumped. by rewrite Hp.
    - apply phase_idle; by intros [].
    - intros _. by apply fresh_move_same. }
  destruct (Z.eqb_spec time lock) as [->|E]; apply Hgo.
  - destruct (mem_state_even _ _ _ _ Hst Ho) as [Hlk Hg].
    eapply sim_validate_return; [done|done|done|done|done|]. by eapply fast_match.
  - by destruct k.
  - by destruct k.
  - apply sim_stay; [done|]. intros _. by split.
  - done.
  - done.
Qed.

(** ** Commit *)

Lemma writeback_same ws : Forall (acc_entry acc) ws → bf_writeback_stores ws = writeback_stores ws.
Proof.
  unfold bf_writeback_stores, writeback_stores. induction 1 as [|w ws Hw _ IH]; [done|]. simpl. rewrite IH.
  pose proof (acc_range _ _ Hw) as Hw'. unfold bf_skipped, LOW_ADDR in *.
  by rewrite (proj2 (Z.eqb_neq (w_addr w) 0)), (proj2 (Z.ltb_ge (w_addr w) 0x100000)) by lia.
Qed.

Lemma my_writes : live (npc t) → Forall (acc_entry acc) (wset t).
Proof. intros Hl. destruct my_state as (_ & _ & Htok). by destruct (Htok Hl) as [[[[? _] _] _] _]. Qed.

Lemma commit_cas_sim : b_pc t = FNorec → npc t = CommitCAS → bf_sim (bf_commit_cas g t).
Proof.
  intros Hp Hpt. pose proof (norec_sim UCommit (commit_cas (bg g) (b_thr t)) I ltac:(unfold tstep; by rewrite Hpt)) as HN.
  pose proof my_ok as Ht. destruct my_state as (Hst & Hr & Htok).
  assert (settled t) as Hset by (split; [by rewrite Hpt|by rewrite Hp]).
  destruct Htok as [Htx _]; [by rewrite Hpt|]. destruct (tx_ok_snapshot _ _ _ _ _ _ Htx Hn) as [Ho _].
  unfold bf_commit_cas, commit_cas, stay in *. rewrite writeback_same by (apply my_writes; by rewrite Hpt).
  destruct (Z.eqb_spec lock (snapshot (t_tx (b_thr t)))) as [E|E]; destruct HN as (a' & Hsp & HI').
  - assert (wrap64 (snapshot (t_tx (b_thr t)) + 1) = 2 * Z.of_nat n + 1) as Hw.
    { rewrite <- E in *. destruct (mem_state_even _ _ _ _ Hst Ho) as [-> _]. apply Z.mod_small. lia. }
    eapply bf_local; [done..|apply HI'|done|done|simpl; lia| | | |].
    + eapply bt_ok_norec; [done|done|apply Ht|]. done.
    + unfold bumped. by rewrite Hp.
    + apply phase_idle; by intros [].
    + intros _. by apply fresh_move_same.
  - eapply bf_local; [done..|apply HI'|done|done|simpl; lia| | | |].
    + eapply bt_ok_norec; [done|done|apply Ht|]. done.
    + unfold bumped. by rewrite Hp.
    + apply phase_idle; by intros [].
    + intros _. by apply fresh_move_same.
Qed.

Lemma insert_start_sim e :
  b_pc t = FNorec → npc t = WriteBack e [] → bf_sim (at_point g t (FInsert (filter_ors (wset t)))).
Proof.
  intros Hp Hpt. pose proof my_ok as [_ Hlen Hrd Hgn Hcur _].
  assert (settled t) as Hset by (split; [by rewrite Hpt|by rewrite Hp]).
  apply point_sim.
  - split; simpl; try done; [by exists e|by intros _; apply Hgn|by intros _; apply Hcur].
  - unfold bumped. by rewrite Hp.
  - split; simpl.
    + intros w j b Hw Hbits. eapply owed_start; [done| |done].
      pose proof (my_writes (proj1 Hset)) as Hws. rewrite Forall_forall in Hws.
      pose proof (acc_range _ _ (Hws _ Hw)) as Hra. unfold LOW_ADDR in Hra. lia.
    + apply filter_ors_masks.
  - by intros _ Hg; right.
Qed.

(** A step of the writer on the filter or the generation. *)
Lemma filter_sim gc' gn' p :
  let t' := BT (b_thr t) (read_bf t) (gen t) p in
  filtering t → filtering t' → length gc' = nwords → g_gc_gen g ≤ gn' →
  (0 ≤ gn' ≤ Z.of_nat n ∨ bumped t' ∧ 0 ≤ gn' ≤ Z.of_nat n + 1) →
  (∀ j u, bs_thr s !! j = Some u → settled u → gen u = gn' → Forall (current m gc') (rset u)) →
  phase gc' gn' (<[i := t']> (bs_thr s)) t' →
  bf_sim (LTau, BG (bg g) gc' gn', t').
Proof.
  intros t' Hf Hf' Hlen Hgn Hgb Hcur Hph.
  assert (writer (b_thr t)) as Hw by (apply filtering_writer; [apply my_ok|done]).
  assert (Hset : settled t' ↔ settled t).
  { unfold settled. simpl. split; intros [? _]; (split; [done|]); [|by intros ->].
    unfold filtering in Hf. by destruct (b_pc t). }
  exists a. split; [constructor|]. split; [by apply same_sim|]. exists n, m. split_and!; [done..|].
  destruct (inv_state _ _ _ _ HI Hn Hm) as (Hst & _ & Hthr). pose proof (my_odd Hw) as Ho.
  split; simpl; [done| | |].
  - destruct Hgb as [?|[? ?]]; [by left|right]. split; [|done]. exists i, t'. split; [|done].
    apply list_lookup_insert_eq. by eapply lookup_lt_Some.
  - intros j u Hj. apply list_lookup_insert_Some in Hj as [(<- & <- & _)|[Hne Hj]].
    + destruct my_ok as [Hsh ? Hrd Hge _ _]. split; try done.
      * unfold filtering, shape in *. simpl in *. destruct p; try done; by destruct (b_pc t).
      * intros Hs%Hset. specialize (Hge Hs). simpl. lia.
      * intros Hs%Hset Hge'. exact (Hcur i t Hi Hs Hge').
      * simpl. unfold filtering in Hf'. by destruct p.
    + destruct (bo_thr _ _ _ Hok _ _ Hj) as [? ? ? Hge _ Hfast]. split; try done.
      * intros Hs. specialize (Hge Hs). lia.
      * intros Hs Hge'. by eapply Hcur.
      * assert (∀ w, agreed lock gc' gn' u w) as Hag; [|by destruct (b_pc u)].
        intros w k time rs got Hpu Hl. exfalso. apply erase_lookup in Hj.
        destruct (Hthr _ _ Hj) as [_ Hpc]; [by rewrite Hpu|]. rewrite Hpu in Hpc.
        destruct Hpc as (_ & Hto & _). rewrite Hl in Ho. congruence.
  - intros j u Hj. apply list_lookup_insert_Some in Hj as [(<- & <- & _)|[Hne Hj]]; [done|].
    apply phase_idle. intros Hfu. apply Hne. apply filtering_writer in Hfu; [|by eapply Hok].
    eapply (writers_unique _ _ _ _ i (b_thr t) j (b_thr u)); try done; by apply erase_lookup.
Qed.

(** Before the generation is bumped, it is at most the number of commits. *)
Lemma my_gen : filtering t → ¬ bumped t → 0 ≤ g_gc_gen g ≤ Z.of_nat n.
Proof.
  intros Hf Hnb. destruct (bo_gen _ _ _ Hok) as [?|[(j & u & Hj & Hbu) _]]; [done|]. exfalso.
  destruct (inv_state _ _ _ _ HI Hn Hm) as (Hst & _).
  assert (filtering u) as Hfu by (unfold filtering, bumped in *; by destruct (b_pc u)).
  assert (i = j) as ->; [|by simplify_eq].
  eapply (writers_unique _ _ _ _ i (b_thr t) j (b_thr u)); try done; try (by apply erase_lookup);
    (apply filtering_writer; [by eapply Hok|done]).
Qed.

Lemma my_gen_any : filtering t → bumped t → 0 ≤ g_gc_gen g ≤ Z.of_nat n + 1.
Proof. intros _ _. destruct (bo_gen _ _ _ Hok) as [?|[_ ?]]; lia. Qed.

Lemma my_phase : phase (g_gc g) (g_gc_gen g) (bs_thr s) t.
Proof. by eapply Hok. Qed.

(** The writer itself does not change what [fresh] says. *)
Lemma fresh_self gn p :
  p ≠ FBeginGen → b_pc t ≠ FBeginGen → fresh gn (bs_thr s) →
  fresh gn (<[i := BT (b_thr t) (read_bf t) (gen t) p]> (bs_thr s)).
Proof.
  intros Hp Ht Hf. eapply fresh_insert; [done|done|]. intros [Hl _] Hg. right. done.
Qed.

(** Steps of the writer that only read the filter. *)
Lemma filter_read_sim p :
  filtering t → filtering (BT (b_thr t) (read_bf t) (gen t) p) →
  (bumped t → bumped (BT (b_thr t) (read_bf t) (gen t) p)) →
  phase (g_gc g) (g_gc_gen g) (<[i := BT (b_thr t) (read_bf t) (gen t) p]> (bs_thr s)) (BT (b_thr t) (read_bf t) (gen t) p) →
  bf_sim (at_point g t p).
Proof.
  intros Hf Hf' Hbu Hph. destruct my_ok as [Hsh ? Hrd Hge Hcur _].
  assert (b_pc t ≠ FBeginGen) as Hnb by (unfold filtering in Hf; by destruct (b_pc t)).
  apply point_sim; [|done|done|].
  - split; simpl; try done.
    + unfold filtering, shape in *. simpl in *. destruct p; try done; by destruct (b_pc t).
    + intros [Hl _]. by apply Hge.
    + intros [Hl _]. by apply Hcur.
    + unfold filtering in Hf'. by destruct p.
  - intros [Hl _] Hg. right. done.
Qed.

Lemma filter_insert_sim b mask ors :
  b_pc t = FInsert ((b, mask) :: ors) → bf_sim (at_point (with_filter g (fetch_or (g_gc g) b mask)) t (FInsert ors)).
Proof.
  intros Hp. pose proof my_phase as Hph. unfold phase in Hph. rewrite Hp in Hph. destruct Hph as [Howed Hmask].
  destruct (Hmask b mask) as (h & -> & Hlt); [left|].
  assert (filtering t) as Hf by (unfold filtering; by rewrite Hp).
  apply filter_sim; [done|done| |lia| | |].
  - rewrite fetch_or_length. apply Hok.
  - left. apply my_gen; [done|]. unfold bumped. rewrite Hp. tauto.
  - intros j u Hj Hs Hg. eapply Forall_impl; [by eapply (bt_current _ _ _ _ _ (bo_thr _ _ _ Hok _ _ Hj))|].
    intros r [?|Hk]; [by left|right]. by apply has_key_fetch_or.
  - split; simpl.
    + intros w x y Hw Hxy. apply owed_pay; [rewrite (bo_length _ _ _ Hok); done|]. by eapply Howed.
    + intros x mk Hin. apply Hmask. by right.
Qed.

Lemma filter_bump_sim :
  b_pc t = FBump → bf_sim (at_point (BG (bg g) (g_gc g) (wrap64 (g_gc_gen g + 1))) t (FClear 0)).
Proof.
  intros Hp. assert (filtering t) as Hf by (unfold filtering; by rewrite Hp).
  pose proof (my_gen Hf ltac:(unfold bumped; rewrite Hp; tauto)) as Hg.
  assert (wrap64 (g_gc_gen g + 1) = g_gc_gen g + 1) as -> by (apply Z.mod_small; lia).
  assert (∀ j u, bs_thr s !! j = Some u → settled u → gen u ≠ g_gc_gen g + 1) as Hnone.
  { intros j u Hj Hs. pose proof (bt_gen _ _ _ _ _ (bo_thr _ _ _ Hok _ _ Hj) Hs). lia. }
  apply filter_sim; [done|done|apply Hok|lia| | |].
  - right. split; [done|lia].
  - intros j u Hj Hs Hge. by destruct (Hnone _ _ Hj Hs).
  - apply fresh_self; [done|by rewrite Hp|]. intros j u Hj Hs Hge. by destruct (Hnone _ _ Hj Hs).
Qed.

Lemma filter_clear_sim b :
  b_pc t = FClear b → bf_sim (at_point (with_filter g (<[b := 0]> (g_gc g))) t (FClear (S b))).
Proof.
  intros Hp. pose proof my_phase as Hph. unfold phase in Hph. rewrite Hp in Hph.
  assert (filtering t) as Hf by (unfold filtering; by rewrite Hp).
  apply filter_sim; [done|done| |lia| | |].
  - rewrite length_insert. apply Hok.
  - right. split; [done|]. apply my_gen_any; [done|]. unfold bumped. by rewrite Hp.
  - intros j u Hj Hs Hge. rewrite (Hph _ _ Hj Hs Hge). constructor.
  - apply fresh_self; [done|by rewrite Hp|done].
Qed.

Lemma commit_filter_sim :
  filtering t → b_pc t ≠ FRelease → bf_sim (bf_commit_filter g t).
Proof.
  intros Hf Hnr. pose proof my_phase as Hph. unfold phase in Hph. unfold bf_commit_filter.
  unfold filtering in Hf.
  destruct (b_pc t) as [| | | | |[|[b mask] ors]|b c| |b|] eqn:Hp; try done.
  - apply filter_read_sim; [unfold filtering; by rewrite Hp|done|unfold bumped; by rewrite Hp|].
    unfold phase. simpl. apply Forall_forall. intros w Hw. apply has_key_bits. intros x y Hxy.
    destruct Hph as [Howed _]. destruct (Howed w x y Hw Hxy) as [?|(h & Hin & _)]; [done|].
    by apply elem_of_nil in Hin.
  - by apply filter_insert_sim.
  - destruct (b <? nwords)%nat;
      [apply filter_read_sim; [unfold filtering; by rewrite Hp|done|unfold bumped; by rewrite Hp|done]|].
    destruct (_ <? _);
      (apply filter_read_sim; [unfold filtering; by rewrite Hp|done|unfold bumped; by rewrite Hp|]); [done|by left].
  - by apply filter_bump_sim.
  - destruct (b <? nwords)%nat; [by apply filter_clear_sim|].
    apply filter_read_sim; [unfold filtering; by rewrite Hp|done|done|]. right.
    apply fresh_self; [done|by rewrite Hp|done].
Qed.

(** An entry that agreed with memory still agrees after the commit, or its address
    was inserted by it. *)
Lemma current_commit bf r :
  Forall (acc_entry acc) (wset t) → written (g_gc g) t → covered bf r →
  current m (g_gc g) r → current (apply_ws (wset t) m) (g_gc g) r.
Proof.
  intros Hws Hwr [Hacc _] [Hr|Hk]; [|by right].
  destruct (decide (r_addr r ∈ map w_addr (wset t))) as [Hin|Hni].
  - right. apply list_elem_of_fmap in Hin as (w & -> & Hw). unfold written in Hwr.
    rewrite Forall_forall in Hwr. by apply Hwr.
  - left. by rewrite (read_apply_miss acc).
Qed.

Lemma bf_release_sim : b_pc t = FRelease → ∃ res, bf_release i g t = Some res ∧ bf_sim res.
Proof.
  intros Hp. pose proof my_ok as Ht. pose proof (bt_shape _ _ _ _ _ Ht) as Hs. unfold shape in Hs. rewrite Hp in Hs.
  destruct Hs as (e & Hpt). unfold bf_release. rewrite Hpt. eexists. split; [done|].
  pose proof (norec_sim UCommit (commit_writeback i (bg g) (b_thr t) e []) I ltac:(unfold tstep; by rewrite Hpt)) as HN.
  destruct HN as (a' & Hsp & HI'). simpl in *.
  destruct (inv_state _ _ _ _ HI Hn Hm) as (Hst & Hb2 & Hthr).
  destruct (writer_state _ _ _ _ _ _ _ _ Hst (erase_lookup _ _ _ Hi) Hpt) as (Hlk & -> & Hwr & _). simpl in Hwr, Hlk.
  assert (wrap64 (2 * Z.of_nat n + 2) = 2 * Z.of_nat (S n)) as Hw by (unfold wrap; rewrite Z.mod_small; lia).
  specialize (HI' (g_gc g) (g_gc_gen g) no_bits 0 FNorec).
  pose proof HI' as (n' & m' & Hn' & _ & Hm' & Hst' & _). simpl in Hst'. rewrite Hw in Hst'.
  pose proof (mem_state_range _ _ _ _ Hst') as Hrg. simpl in Hrg. assert (n' = S n) as -> by lia.
  destruct (mem_state_even _ _ _ _ Hst') as [_ Hmm]; [apply is_odd_even|]. simpl in Hmm. rewrite Hwr in Hmm. subst m'.
  exists a'. split; [done|]. split; [exact HI'|]. exists (S n), (apply_ws (wset t) m).
  split_and!; [done..|]. rewrite Hw.
  assert (Forall (acc_entry acc) (wset t)) as Hws by (apply my_writes; by rewrite Hpt).
  pose proof my_phase as Hph. unfold phase in Hph. rewrite Hp in Hph.
  split; simpl; [apply Hok| | |].
  - left. pose proof (my_gen_any ltac:(unfold filtering; by rewrite Hp) ltac:(unfold bumped; by rewrite Hp)). lia.
  - intros j u Hj. apply list_lookup_insert_Some in Hj as [(<- & <- & _)|[Hne Hj]].
    { split; try done; by intros []. }
    destruct (bo_thr _ _ _ Hok _ _ Hj) as [? ? Hrd Hge Hcur Hfast]. split; try done.
    + intros Hs Hg. specialize (Hcur Hs Hg). specialize (Hrd (proj1 Hs)).
      destruct Hph as [Hwritten|Hfresh]; [|rewrite (Hfresh _ _ Hj Hs Hg); constructor].
      rewrite Forall_forall in Hrd, Hcur |- *. intros r Hr. eapply current_commit; eauto.
    + assert (∀ w, agreed (2 * Z.of_nat (S n)) (g_gc g) (g_gc_gen g) u w) as Hag; [|by destruct (b_pc u)].
      intros w k time rs got Hpu Hl. exfalso.
      pose proof (val_time _ _ _ _ _ _ _ _ _ (Hthr _ _ (erase_lookup _ _ _ Hj)) Hpu) as Hle. simpl in Hle. lia.
  - intros j u Hj. apply list_lookup_insert_Some in Hj as [(<- & <- & _)|[Hne Hj]]; [done|].
    apply phase_idle. intros Hfu. apply Hne. apply filtering_writer in Hfu; [|by eapply Hok].
    eapply (writers_unique _ _ _ _ i (b_thr t) j (b_thr u));
      [exact Hst|by apply erase_lookup|unfold writer; by rewrite Hpt|by apply erase_lookup|done].
Qed.

Lemma norec_step_sim op res :
  b_pc t = FNorec → uop_ok acc op → bf_norec_step (on_stack i) op i g t = Some res → bf_sim res.
Proof.
  intros Hp Hop Hs.
  assert (∀ op' res', uop_ok acc op' → tstep (on_stack i) op' i (bg g) (b_thr t) = Some res' →
    (match npc t with Begin | ReadSnap _ _ _ | CommitCAS | WriteBack _ [] => False | _ => True end) →
    bf_sim (after_norec g t res')) as Hlift.
  { intros op' [[l g'] t'] ???. by eapply lifted_sim. }
  unfold bf_norec_step, bf_read_value, bf_writeback in Hs.
  destruct (npc t) as [| | | | | | | | | | |e [|sb pending]|] eqn:Hpt; destruct op; try done;
    apply (inj Some) in Hs as <-;
    first [ by apply bf_begin_sim | by apply read_snap_sim | by apply validate_clock_sim | by apply commit_cas_sim
          | by eapply insert_start_sim
          | eapply (Hlift UBegin); [done|unfold tstep; by rewrite Hpt|done]
          | eapply Hlift; [exact Hop|unfold tstep; by rewrite Hpt|done] ].
Qed.

Lemma bf_tstep_sim op res :
  uop_ok acc op → bf_tstep (on_stack i) op i g t = Some res → bf_sim res.
Proof.
  intros Hop Hs. unfold bf_tstep in Hs. destruct (b_pc t) eqn:Hp.
  - by eapply norec_step_sim.
  - apply (inj Some) in Hs as <-. by apply begin_gen_sim.
  - apply (inj Some) in Hs as <-. by apply validate_gen_sim.
  - apply (inj Some) in Hs as <-. by apply validate_word_sim.
  - destruct (validate_fast_sim Hp) as (res' & E & ?). by simplify_eq.
  - apply (inj Some) in Hs as <-. apply commit_filter_sim; [unfold filtering|]; by rewrite Hp.
  - apply (inj Some) in Hs as <-. apply commit_filter_sim; [unfold filtering|]; by rewrite Hp.
  - apply (inj Some) in Hs as <-. apply commit_filter_sim; [unfold filtering|]; by rewrite Hp.
  - apply (inj Some) in Hs as <-. apply commit_filter_sim; [unfold filtering|]; by rewrite Hp.
  - destruct (bf_release_sim Hp) as (res' & E & ?). by simplify_eq.
Qed.
End OneStep.

(** ** The simulation *)

Lemma bf_step_sim s a l s' :
  BFInv s a → bf_step acc on_stack s l s' → 2 * Z.of_nat (length (hist a)) + 2 < 2 ^ 64 →
  ∃ a', spec_step a l a' ∧ BFInv s' a'.
Proof.
  intros (HI & n & m & Hn & Hm & Hok) Hs Hb. destruct Hs as [s i t op l g' t' Hi Hop Hstep].
  exact (bf_tstep_sim s a n m i t HI Hn Hm Hok Hi Hb op (l, g', t') Hop Hstep).
Qed.

Lemma BFInv_initial m s : bf_initial m s → BFInv s (spec_init m).
Proof.
  intros [Hg Hthr]. rewrite Forall_lookup in Hthr. split.
  - apply Inv_initial. unfold norec_initial. simpl. rewrite Hg. split_and!; [done..|].
    apply Forall_fmap, Forall_lookup. intros i t Hi. by rewrite (Hthr _ _ Hi).
  - exists 0%nat, m. split_and!; [done..|]. split; rewrite Hg; simpl; [apply no_bits_length|by left| |].
    + intros i t Hi. rewrite (Hthr _ _ Hi). split; try done; by intros [].
    + intros i t Hi. by rewrite (Hthr _ _ Hi).
Qed.

Lemma bf_simulation m0 s tr s' :
  bf_initial m0 s → exec (bf_step acc on_stack) s tr s' → norec_in_bounds tr →
  ∃ a, exec spec_step (spec_init m0) tr a ∧ BFInv s' a.
Proof.
  intros Hi He. induction He as [s|s tr s' l s'' He IH Hs]; intros Hb.
  - exists (spec_init m0). split; [constructor|by apply BFInv_initial].
  - unfold norec_in_bounds in *. rewrite commits_app in Hb.
    destruct (IH Hi) as (a & Ha & HI); [lia|]. pose proof (spec_hist_length _ _ _ Ha) as Hlen.
    destruct (bf_step_sim s' a l s'' HI Hs) as (a' & Hsp & HI'); [lia|].
    exists a'. split; [by econstructor|done].
Qed.
End Soundness.

(** ** NOrec-BF as an opaque backend *)

Definition bf_quiescent (s : bfsys) : Prop := Forall (λ t, ¬ writer (b_thr t)) (bs_thr s).

#[export] Instance bf_backend (acc : Z → ValueType → Prop) (on_stack : nat → Z → bool) : TMBackend bfsys := {
  tm_initial := bf_initial;
  tm_step := bf_step acc on_stack;
  tm_memory s := g_mem (bg (bs_g s));
  tm_quiescent := bf_quiescent;
  tm_in_bounds := norec_in_bounds;
}.

Lemma bf_opaque_aux acc `{!Discipline acc} on_stack m0 s tr s' :
  (∀ i a sz, acc a sz → on_stack i a = false) →
  bf_initial m0 s → exec (bf_step acc on_stack) s tr s' → norec_in_bounds tr →
  ∃ a, exec spec_step (spec_init m0) tr a ∧
       (bf_quiescent s' → newest a = Some (g_mem (bg (bs_g s')))).
Proof.
  intros Hst Hi He Hb. destruct (bf_simulation acc on_stack Hst m0 s tr s' Hi He Hb) as (a & Ha & HI & n & m & Hn & Hm & _).
  exists a. split; [done|]. intros Hq. destruct (inv_state acc _ _ _ _ HI Hn Hm) as (Hms & _).
  unfold newest. rewrite last_lookup, Hn. simpl. rewrite Hm.
  destruct Hms as [|k u pending _ Hk Hpc]; [by simplify_eq/=|]. exfalso.
  unfold bf_quiescent in Hq. rewrite Forall_lookup in Hq. simpl in Hk. rewrite list_lookup_fmap in Hk.
  apply fmap_Some in Hk as (v & Hv & ->). apply (Hq _ _ Hv). unfold writer. by rewrite Hpc.
Qed.

(** The interface of TMSpec, for aligned words. *)
#[export] Instance bf_opaque_instance : @Opaque bfsys (bf_backend word_acc (λ _ _, false)).
Proof. intros m0 s tr s' Hi He Hb. by eapply (bf_opaque_aux word_acc). Qed.

(** ** Demonstrations *)

Definition bf_go (i n : nat) : list (nat * uop) := replicate n (i, UCommit).
Definition bf_begin_ops (i : nat) : list (nat * uop) := replicate 3 (i, UBegin).
Definition bf_junk : any_type_t := AnyT 0xABCDEF.

(** Thread 0 reads one word; thread 1 reads and writes others and commits; thread 0
    writes and commits, its validation taking the fast path. *)
Definition bf_cross (a0 : Z) (t0 : ValueType) (n0 : nat) (a1 v1 b : Z) : list (nat * uop) :=
  bf_begin_ops 0 ++ [(0%nat, URead a0 t0 bf_junk)] ++ bf_go 0 n0 ++
  bf_begin_ops 1 ++ [(1%nat, URead b UINT64 bf_junk)] ++ bf_go 1 11 ++
  [(1%nat, UWrite a1 UINT64 v1 bf_junk)] ++ bf_go 1 80 ++
  [(0%nat, UWrite b UINT64 1 bf_junk)] ++ bf_go 0 149.

Definition bf_demo_init : bfsys := BSys (bf_global_init ∅) (replicate 2 bf_thread_init).
Definition bf_demo_sched : list (nat * uop) := bf_cross 0x100000 UINT64 11 0x100008 5 0x100010.
Definition bf_demo_result : list label * bfsys :=
  Eval vm_compute in default ([], bf_demo_init) (bf_run (λ _ _, false) bf_demo_sched bf_demo_init).

Lemma bf_demo_run : bf_run (λ _ _, false) bf_demo_sched bf_demo_init = Some bf_demo_result.
Proof. vm_compute. reflexivity. Qed.

Lemma bf_demo_ok : Forall (λ io, uop_ok word_acc io.2) bf_demo_sched.
Proof.
  assert (∀ a, a ∈ [0x100000; 0x100008; 0x100010] → word_acc a UINT64) as Hacc.
  { intros a Ha. unfold word_acc, LOW_ADDR. split; [done|].
    repeat (apply elem_of_cons in Ha as [->|Ha]; [split; [lia|done]|]). by apply elem_of_nil in Ha. }
  unfold bf_demo_sched, bf_cross. cbn [bf_begin_ops bf_go replicate app].
  repeat (apply Forall_cons; split; [try exact I; try (apply Hacc; set_solver)|]). constructor.
Qed.

Lemma bf_demo_initial : bf_initial ∅ bf_demo_init.
Proof. split; [done|]. by repeat constructor. Qed.

(** The transactions of [bf_cross] when the second one overwrites, with a wider
    access, the half word the first one read. *)
Definition bf_overlap_sched : list (nat * uop) := bf_cross 0x100004 UINT32 7 0x100000 (2 ^ 32) 0x100010.

(** ** Properties *)

(** C8: NOrec with Bloom-filter validation is opaque.  Under any interleaving, at the
    grain of single atomic operations, single copied bytes and single words of a
    filter, of threads whose accesses follow a discipline and avoid the stack, the trace is one
    of the abstract transactional memory: the fast path returns only when the exact
    comparison would have succeeded, also while other threads fill, saturate and
    rebuild the global filter.  The clock must not wrap. *)
Theorem norecbf_opaque acc `{!Discipline acc} on_stack m0 s tr s' :
  (∀ i a sz, acc a sz → on_stack i a = false) →
  bf_initial m0 s → exec (bf_step acc on_stack) s tr s' → norec_in_bounds tr →
  ∃ a, exec spec_step (spec_init m0) tr a ∧
       (bf_quiescent s' → newest a = Some (g_mem (bg (bs_g s')))).
Proof. apply bf_opaque_aux; done. Qed.

Lemma norecbf_opaque_witness :
  ∃ a, exec spec_step (spec_init ∅) bf_demo_result.1 a ∧
       newest a = Some (g_mem (bg (bs_g bf_demo_result.2))) ∧ commits bf_demo_result.1 = 2%nat.
Proof.
  destruct (norecbf_opaque word_acc (λ _ _, false) ∅ bf_demo_init bf_demo_result.1 bf_demo_result.2
    ltac:(done) bf_demo_initial
    (bf_run_exec word_acc (λ _ _, false) bf_demo_sched bf_demo_init _ _ bf_demo_ok
      (eq_trans bf_demo_run (f_equal Some (surjective_pairing bf_demo_result))))
    ltac:(vm_compute; reflexivity)) as (a & Ha & Hq).
  exists a. split; [exact Ha|]. split; [|reflexivity]. apply Hq.
  repeat constructor; intros [].
Defined.

(** The filters are keyed by the first byte of an access.  A committed
    eight-byte write over a four-byte field that another transaction has read at
    its own address is not seen by the fast path: both transactions commit, and
    neither serial order explains what they read. *)
Theorem norecbf_overlap_missed :
  ∃ tr s' evs0 evs1,
    bf_run (λ _ _, false) bf_overlap_sched bf_demo_init = Some (tr, s') ∧
    (LCommit 0 evs0 ∈ tr) ∧ (LCommit 1 evs1 ∈ tr) ∧ commits tr = 2%nat ∧
    replay ∅ (evs0 ++ evs1) = None ∧ replay ∅ (evs1 ++ evs0) = None.
Proof.
  destruct (bf_run (λ _ _, false) bf_overlap_sched bf_demo_init) as [[tr s']|] eqn:E; [|by vm_compute in E].
  exists tr, s', [EvR 0x100004 UINT32 0; EvW 0x100010 UINT64 1],
    [EvR 0x100010 UINT64 0; EvW 0x100000 UINT64 (2 ^ 32)].
  assert (default [] (fst <$> bf_run (λ _ _, false) bf_overlap_sched bf_demo_init) = tr) as <- by (by rewrite E).
  split; [done|]. split_and!; [eapply (list_elem_of_lookup_2 _ 256)|eapply (list_elem_of_lookup_2 _ 106)| | |];
    vm_compute; reflexivity.
Qed.
