(* ===== verification/TinyWT.v ===== *)
(** * TinySTM, write-through (tiny_stm/tinystm_wt.hpp)

    The transaction operations of the write-through design as interleaved steps of
    threads on the shared clock, lock table, token and memory.  A write stores into
    shared memory at once, under the lock of its word; an abort restores the old
    values and releases the locks with their incarnation incremented.  Every atomic
    access of the code to shared data, and every byte of a [memcpy], is a step of its
    own; the computation between two accesses belongs to the step before it.

    All log entries hold aligned 8-byte words; narrower accesses extract from the word
    or read it, merge and write it back.  The clock reset past [VERSION_MAX] has no step.
    Event logging, statistics, the serialization mutex and back-off delays are left
    out.  Each thread carries a ghost log of the accesses of its current transaction;
    the shared state carries the logs of committed transactions and a ghost flag that
    is set when the incarnation of a lock wraps around. *)

From stdpp Require Import functions.
From S2P Require Import Prelude Memory Values TMSpec LogMerge TxLog Interleave TinyLock TinyWriteSet Support TinyShared.
Import SpinToken.
#[local] Open Scope Z_scope.
#[local] Open Scope word_scope.

Definition TOKEN_SOFT_SPIN_THRESHOLD : Z := 3.
Definition SPIN_LIMIT : Z := 5000.

(** ** Log entries and transactions *)

Record ReadLogEntry_wt := RLT { rt_addr : Z; rt_version : Z; rt_inc : Z; rt_val : Z }.
Record WriteLogEntry_wt := WLT { wt_old : Z; wt_new : Z; wt_version : Z; wt_inc : Z }.
Definition wlt_none : WriteLogEntry_wt := WLT 0 0 0 0.

Record ttx := TTx {
  x_id : Z; x_start : Z; x_end : Z; x_active : bool; x_ro : bool; x_aborts : Z; x_retry : bool;
  x_rset : list ReadLogEntry_wt; x_wset : wset WriteLogEntry_wt; x_held : list Z;
}.

(** An access of the program: a read, or a write with its value; [junk] is the
    indeterminate upper half of the local word of [tm_write_f4]. *)
Inductive tacc := RdAcc (a : Z) (sz : ValueType) | WrAcc (a : Z) (sz : ValueType) (v junk : Z).
Definition acc_addr (k : tacc) : Z := match k with RdAcc a _ | WrAcc a _ _ _ => a end.
Definition word_addr (k : tacc) : Z := align_down_8 (acc_addr k).

Inductive tpc :=
  | TIdle
  | TBClock
  | RLockedBy (k : tacc)
  | ROwn (k : tacc) (bs : list Z)
  | RGet (k : tacc)
  | RLoop (k : tacc) (l c : Z)
  | RBytes (k : tacc) (l c : Z) (bs : list Z)
  | RRecheck (k : tacc) (l c : Z) (bs : list Z)
  | XScan (k : tacc) (l c : Z) (rs : list ReadLogEntry_wt)
  | XShared (k : tacc) (l c : Z)
  | XClock (k : tacc) (l c : Z)
  | XValid (k : tacc) (l c last : Z) (rs : list ReadLogEntry_wt)
  | WGet (k : tacc) (w c : Z)
  | WTry (k : tacc) (w l c : Z)
  | WCas (k : tacc) (w l c expected desired : Z)
  | WFailed (k : tacc) (w l c : Z)
  | WSoft (k : tacc) (w c : Z)
  | WSoftCas (k : tacc) (w c : Z)
  | WSpin (k : tacc) (w c ts : Z)
  | WHeld (k : tacc) (w l c : Z)
  | WAcquired (k : tacc) (w : Z)
  | WOld (k : tacc) (w version inc : Z) (acquired : bool) (bs : list Z)
  | WStore (k : tacc) (st : list (Z * Z))
  | CInc
  | CValid (cv : Z) (rs : list ReadLogEntry_wt)
  | CRel (cv : Z) (as_ : list Z)
  | CRelStore (cv a : Z) (as_ : list Z)
  | CToken
  | ARestore (st : list (Z * Z))
  | AInc (ls : list Z)
  | AIncStore (l s : Z) (ls : list Z)
  | AToken.

Record tthread := TT { y_tx : ttx; y_pc : tpc; y_log : list event }.

(** [tg_wrapped]: an incarnation has wrapped around. *)
Record tglobal := TG { tg : wglobal; tg_wrapped : bool }.

Definition tgoto (t : tthread) (p : tpc) : tthread := TT (y_tx t) p (y_log t).
Definition twith (t : tthread) (x : ttx) (p : tpc) : tthread := TT x p (y_log t).

Definition ttx_begin (x : ttx) (clock : Z) : ttx :=
  TTx (x_id x) clock clock true true (if x_retry x then x_aborts x else 0) false [] (ws_clear (x_wset x)) [].
Definition ttx_reset (x : ttx) : ttx := TTx (x_id x) 0 0 false true 0 false [] (ws_clear (x_wset x)) [].
(** The end of [abort_tx]: clear, inactive, one more abort. *)
Definition ttx_aborted (x : ttx) : ttx :=
  TTx (x_id x) (x_start x) (x_end x) false (x_ro x) (x_aborts x + 1) true [] (ws_clear (x_wset x)) [].
Definition ttx_extended (x : ttx) (last : Z) : ttx :=
  TTx (x_id x) (x_start x) last (x_active x) (x_ro x) (x_aborts x) (x_retry x) (x_rset x) (x_wset x) (x_held x).
Definition ttx_read (x : ttx) (r : ReadLogEntry_wt) : ttx :=
  TTx (x_id x) (x_start x) (x_end x) (x_active x) (x_ro x) (x_aborts x) (x_retry x) (x_rset x ++ [r]) (x_wset x) (x_held x).
Definition ttx_writes (x : ttx) (ws : wset WriteLogEntry_wt) (held : list Z) : ttx :=
  TTx (x_id x) (x_start x) (x_end x) (x_active x) false (x_aborts x) (x_retry x) (x_rset x) ws held.

Definition tset_lock (g : tglobal) (l s : Z) : tglobal := TG (set_lock (tg g) l s) (tg_wrapped g).
Definition tset_token (g : tglobal) (tok : Z) : tglobal := TG (set_token (tg g) tok) (tg_wrapped g).
Definition tset_mem (g : tglobal) (m : mem) : tglobal :=
  TG (WG m (g_clock (tg g)) (g_locks (tg g)) (g_token (tg g)) (g_hist (tg g)) (g_ro (tg g))) (tg_wrapped g).
Definition tlock (g : tglobal) (a : Z) : Z := g_locks (tg g) (lock_of a).

(** ** Words *)

(** The narrow value in a word, and a word with a narrow value merged in. *)
Definition wt_sub_word (word a : Z) (sz : ValueType) : Z := wrap (8 * nbytes_of sz) (word .>> (byte_offset a * 8)).
Definition merge_word (word a : Z) (sz : ValueType) (v junk : Z) : Z :=
  let mask := (2 ^ (8 * nbytes_of sz) - 1) .<< (byte_offset a * 8) in
  let bits := match sz with FLOAT => wrap 32 v .| (wrap 32 junk .<< 32) | _ => wrap (8 * nbytes_of sz) v end in
  (word .& not64 mask) .| (bits .<< (byte_offset a * 8)).

(** The store of a word, byte by byte; the words of the write set to restore. *)
Definition word_stores (a w : Z) : list (Z * Z) := value_stores a (AnyT w) UINT64.
Definition restore_stores (ws : wset WriteLogEntry_wt) : list (Z * Z) :=
  concat ((λ ae : Z * WriteLogEntry_wt, word_stores ae.1 (wt_old ae.2)) <$> ws_vec ws).

(** [abort_tx]: restore, then release. *)
Definition tabort (t : tthread) : tthread := tgoto t (ARestore (restore_stores (x_wset (y_tx t)))).

(** ** Calls *)

(** The local part of [write_word_wt]: an existing entry is updated in place. *)
Definition write_word (t : tthread) (x : ttx) (k : tacc) (w : Z) : tthread :=
  let a := word_addr k in
  match ws_pos (x_wset x) a, ws_find (x_wset x) a with
  | Some i, Some e =>
      twith t (ttx_writes x (ws_assign (x_wset x) i (WLT (wt_old e) w (wt_version e) (wt_inc e))) (x_held x))
        (WStore k (word_stores a w))
  | _, _ => twith t (ttx_writes x (x_wset x) (x_held x)) (WGet k w 0)
  end.

(** Return of [read_word_wt] to the typed wrapper. *)
Definition wt_read_done (t : tthread) (x : ttx) (k : tacc) (word : Z) : tthread :=
  match k with
  | RdAcc a sz => TT x TIdle (y_log t ++ [EvR a sz (wt_sub_word word a sz)])
  | WrAcc a sz v junk => write_word t x k (merge_word word a sz v junk)
  end.

(** The local part of [read_word_wt]: the write set first. *)
Definition read_word (t : tthread) (k : tacc) : tthread :=
  match ws_find (x_wset (y_tx t)) (word_addr k) with
  | Some e => wt_read_done t (y_tx t) k (wt_new e)
  | None => tgoto t (RLockedBy k)
  end.

(** The typed wrappers: eight-byte writes need no read. *)
Definition access_word (t : tthread) (k : tacc) : tthread :=
  match k with
  | RdAcc _ _ => read_word t k
  | WrAcc a sz v _ => if nbytes_of sz =? 8 then write_word t (y_tx t) k (wrap64 v) else read_word t k
  end.

Inductive top := TBegin | TAccess (k : tacc) | TCommit.

(** A commit without writes: nothing to validate. *)
Definition commit_call (g : tglobal) (t : tthread) : tglobal * tthread :=
  let x := y_tx t in
  if negb (x_ro x) && negb (bool_decide (ws_vec (x_wset x) = [])) then (g, tgoto t CInc)
  else (TG (WG (g_mem (tg g)) (g_clock (tg g)) (g_locks (tg g)) (g_token (tg g)) (g_hist (tg g))
              ((x_start x, x_end x, y_log t) :: g_ro (tg g))) (tg_wrapped g), TT (ttx_reset x) CToken []).

Definition acc_size (k : tacc) : ValueType := match k with RdAcc _ sz | WrAcc _ sz _ _ => sz end.

Definition twt_call (o : top) (g : tglobal) (t : tthread) : option (tglobal * tthread) :=
  match y_pc t with
  | TIdle =>
      match o with
      | TBegin => Some (g, if x_active (y_tx t) then t else tgoto t TBClock)
      | TAccess k => if x_active (y_tx t) && access_ok (acc_addr k) (acc_size k) then Some (g, access_word t k) else None
      | TCommit => if x_active (y_tx t) then Some (commit_call g t) else None
      end
  | _ => None
  end.

(** ** Steps of a call in progress *)

(** [get_clock] waits while the clock is being reset. *)
Definition clock_resetting (g : tglobal) : bool := VERSION_MASK <=? g_clock (tg g).

Definition wt_begin_step (g : tglobal) (t : tthread) : tglobal * tthread :=
  if clock_resetting g then (g, t) else (g, TT (ttx_begin (y_tx t) (g_clock (tg g))) TIdle []).

(** The next byte of a word. *)
Definition word_byte (g : tglobal) (k : tacc) (bs : list Z) : list Z := next_byte (tg g) (word_addr k) bs.
Definition word_read (bs : list Z) : bool := all_read UINT64 bs.

Definition wt_read_step (g : tglobal) (t : tthread) : option (tglobal * tthread) :=
  let x := y_tx t in
  match y_pc t with
  | RLockedBy k => Some (g, tgoto t (if is_locked_by (tlock g (word_addr k)) (x_id x) then ROwn k [] else RGet k))
  | ROwn k bs =>
      let bs' := word_byte g k bs in
      Some (g, if word_read bs' then wt_read_done t x k (le_word bs') else tgoto t (ROwn k bs'))
  | RGet k => Some (g, tgoto t (RLoop k (tlock g (word_addr k)) 0))
  | RLoop k l c =>
      Some (g, if is_locked l
               then if SPIN_LIMIT <? c + 1 then tabort t else tgoto t (RLoop k (tlock g (word_addr k)) (c + 1))
               else tgoto t (RBytes k l c []))
  | RBytes k l c bs =>
      let bs' := word_byte g k bs in
      Some (g, tgoto t (if word_read bs' then RRecheck k l c bs' else RBytes k l c bs'))
  | RRecheck k l c bs =>
      let l2 := tlock g (word_addr k) in
      Some (g, if negb (l =? l2) then tgoto t (RLoop k l2 c)
               else if x_end x <? get_version l
                    then if x_ro x then tabort t else tgoto t (XScan k l c (x_rset x))
                    else wt_read_done t (ttx_read x (RLT (word_addr k) (get_version l) (get_incarnation l) (le_word bs))) k (le_word bs))
  | _ => None
  end.

(** The extension inside [read_word_wt]: the first loop looks for a read word whose
    version is past the start, and if there is one the end version is moved without
    validation. *)
Definition wt_extend_step (g : tglobal) (t : tthread) : option (tglobal * tthread) :=
  let x := y_tx t in
  match y_pc t with
  | XScan k l c (r :: rs) =>
      Some (g, tgoto t (if x_start x <? get_version (tlock g (rt_addr r)) then XShared k l c else XScan k l c rs))
  | XScan k l c [] => Some (g, tgoto t (XClock k l c))
  | XShared k l c =>
      if clock_resetting g then Some (g, t)
      else
        let last := g_clock (tg g) in
        let t' := twith t (ttx_extended x last) (RLoop k l c) in
        Some (g, if last <? get_version l then tabort t' else t')
  | XClock k l c =>
      if clock_resetting g then Some (g, t) else Some (g, tgoto t (XValid k l c (g_clock (tg g)) (x_rset x)))
  | XValid k l c last (r :: rs) =>
      Some (g, if rt_version r <? get_version (tlock g (rt_addr r)) then tabort t else tgoto t (XValid k l c last rs))
  | XValid k l c last [] =>
      let t' := twith t (ttx_extended x last) (RLoop k l c) in
      Some (g, if last <? get_version l then tabort t' else t')
  | _ => None
  end.

(** [write_word_wt]: taking the lock. *)
Definition wt_lock_step (g : tglobal) (t : tthread) : option (tglobal * tthread) :=
  let x := y_tx t in
  match y_pc t with
  | WGet k w c =>
      let l := tlock g (word_addr k) in
      Some (g, tgoto t (if is_locked l then WHeld k w l c else WTry k w l c))
  | WTry k w l c =>
      Some (g, match try_lock_words (tlock g (word_addr k)) (x_id x) with
               | None => tgoto t (WFailed k w l c)
               | Some (expected, desired) => tgoto t (WCas k w l c expected desired)
               end)
  | WCas k w l c expected desired =>
      let '(won, s') := compare_exchange_strong (tlock g (word_addr k)) expected desired in
      Some (if won then (tset_lock g (lock_of (word_addr k)) s', tgoto t (WAcquired k w)) else (g, tgoto t (WFailed k w l c)))
  | WFailed k w l c =>
      Some (g, tgoto t (if is_locked_by (tlock g (word_addr k)) (x_id x)
                        then WOld k w (get_version l) (get_incarnation l) false [] else WSoft k w c))
  | WSoft k w c =>
      Some (g, if (x_aborts x <? TOKEN_SOFT_SPIN_THRESHOLD) || negb (tm_token_is_free (g_token (tg g)))
               then tabort t else tgoto t (WSoftCas k w c))
  | WSoftCas k w c =>
      let '(won, tok) := tm_token_try_acquire (g_token (tg g)) (x_id x) in
      Some (tset_token g tok, if won then tgoto t (WSpin k w c 0) else tabort t)
  | WSpin k w c ts =>
      Some (g, if is_locked (tlock g (word_addr k))
               then if SPIN_LIMIT <? ts + 1 then tabort t else tgoto t (WSpin k w c (ts + 1))
               else tgoto t (WGet k w c))
  | WHeld k w l c =>
      Some (g, if is_locked_by (tlock g (word_addr k)) (x_id x)
               then tgoto t (WOld k w (get_version l) (get_incarnation l) false [])
               else if SPIN_LIMIT <? c + 1 then tabort t else tgoto t (WGet k w (c + 1)))
  | WAcquired k w =>
      let s := tlock g (word_addr k) in
      Some (g, tgoto t (WOld k w (get_version s) (get_incarnation s) true []))
  | _ => None
  end.

(** [write_word_wt]: save the old word, enter it in the write set, write through. *)
Definition wt_store_step (g : tglobal) (t : tthread) : option (tglobal * tthread) :=
  let x := y_tx t in
  match y_pc t with
  | WOld k w version inc acquired bs =>
      let bs' := word_byte g k bs in
      let a := word_addr k in
      Some (g, if word_read bs'
               then twith t (ttx_writes x (ws_put wlt_none (x_wset x) a (WLT (le_word bs') w version inc))
                                (if acquired then x_held x ++ [lock_of a] else x_held x))
                      (WStore k (word_stores a w))
               else tgoto t (WOld k w version inc acquired bs'))
  | WStore k ((a, b) :: st) => Some (tset_mem g (<[a := b]> (g_mem (tg g))), tgoto t (WStore k st))
  | WStore k [] =>
      Some (g, match k with
               | WrAcc a sz v _ => TT x TIdle (y_log t ++ [EvW a sz v])
               | RdAcc _ _ => tgoto t TIdle
               end)
  | _ => None
  end.

(** One entry of [validate_read_set_wt]. *)
Definition wt_validate_entry (x : ttx) (l : Z) (r : ReadLogEntry_wt) : bool :=
  let locked := negb (l .& OWNED_MASK =? 0) in
  if locked && negb (get_owner l =? x_id x) then false
  else if negb locked && (negb (get_version l =? rt_version r) || negb (get_incarnation l =? rt_inc r)) then false
  else if locked && (get_owner l =? x_id x)
       then match ws_find (x_wset x) (rt_addr r) with
            | Some w => rt_version r =? wt_version w
            | None => true
            end
       else true.

Definition record_commit (g : tglobal) (cv : Z) (evs : list event) : tglobal :=
  TG (WG (g_mem (tg g)) (g_clock (tg g)) (g_locks (tg g)) (g_token (tg g)) (<[Z.to_nat cv := evs]> (g_hist (tg g))) (g_ro (tg g)))
    (tg_wrapped g).

Definition wt_commit_step (g : tglobal) (t : tthread) : option (tglobal * tthread) :=
  let x := y_tx t in
  match y_pc t with
  | CInc =>
      let cv := g_clock (tg g) + 1 in
      if VERSION_MAX <=? cv then None
      else
        Some (TG (WG (g_mem (tg g)) cv (g_locks (tg g)) (g_token (tg g)) (g_hist (tg g)) (g_ro (tg g))) (tg_wrapped g),
              if cv <? x_end x then tabort t
              else tgoto t (CValid cv (if cv <=? x_start x + 1 then [] else x_rset x)))
  | CValid cv (r :: rs) =>
      Some (g, if wt_validate_entry x (tlock g (rt_addr r)) r then tgoto t (CValid cv rs) else tabort t)
  | CValid cv [] => Some (record_commit g cv (y_log t), tgoto t (CRel cv (keys (ws_vec (x_wset x)))))
  | CRel cv (a :: rem) =>
      Some (g, tgoto t (if is_locked_by (tlock g a) (x_id x) then CRelStore cv a rem else CRel cv rem))
  | CRelStore cv a rem =>
      s' ← unlock_with_version (tlock g a) (x_id x) cv; Some (tset_lock g (lock_of a) s', tgoto t (CRel cv rem))
  | CRel cv [] => Some (g, TT (ttx_reset x) CToken [])
  | CToken => Some (tset_token g (tm_token_release (g_token (tg g))), tgoto t TIdle)
  | _ => None
  end.

(** [abort_tx]: restore the old words, release the locks with [inc_abort], release the
    token, jump back. *)
Definition wt_abort_step (g : tglobal) (t : tthread) : option (tglobal * tthread) :=
  let x := y_tx t in
  match y_pc t with
  | ARestore ((a, b) :: st) => Some (tset_mem g (<[a := b]> (g_mem (tg g))), tgoto t (ARestore st))
  | ARestore [] => Some (g, tgoto t (AInc (x_held x)))
  | AInc (l :: ls) => Some (g, tgoto t (AIncStore l (g_locks (tg g) l) ls))
  | AIncStore l s ls =>
      Some (TG (set_lock (tg g) l (inc_abort s 0)) (tg_wrapped g || (get_incarnation s =? INCARNATION_MASK)), tgoto t (AInc ls))
  | AInc [] => Some (g, tgoto t AToken)
  | AToken => Some (tset_token g (tm_token_release_if_held (g_token (tg g)) (x_id x)), TT (ttx_aborted x) TIdle [])
  | _ => None
  end.

Definition twt_step (g : tglobal) (t : tthread) : option (tglobal * tthread) :=
  match y_pc t with
  | TIdle => None
  | TBClock => Some (wt_begin_step g t)
  | RLockedBy _ | ROwn _ _ | RGet _ | RLoop _ _ _ | RBytes _ _ _ _ | RRecheck _ _ _ _ => wt_read_step g t
  | XScan _ _ _ _ | XShared _ _ _ | XClock _ _ _ | XValid _ _ _ _ _ => wt_extend_step g t
  | WOld _ _ _ _ _ _ | WStore _ _ => wt_store_step g t
  | CInc | CValid _ _ | CRel _ _ | CRelStore _ _ _ | CToken => wt_commit_step g t
  | ARestore _ | AInc _ | AIncStore _ _ _ | AToken => wt_abort_step g t
  | _ => wt_lock_step g t
  end.

(** ** Interleaved executions

    [acc] says which accesses the program performs. *)
Definition twt_allowed (acc : tacc → bool) (o : top) (g : tglobal) (t : tthread) : option (tglobal * tthread) :=
  match o with
  | TAccess k => if acc k then twt_call o g t else None
  | _ => twt_call o g t
  end.

(** [init] and [init_thread]. *)
Definition wt_thread_init (i : nat) : tthread := TT (TTx (Z.of_nat i + 1) 0 0 false true 0 false [] (WSet [] ∅) []) TIdle [].
Definition wt_init (m : mem) : tglobal := TG (winit m) false.

Definition wt_reachable (acc : tacc → bool) (m : mem) (n : nat) : tglobal * list tthread → Prop :=
  ix_reachable (twt_allowed acc) twt_step (wt_init m, wt_thread_init <$> seq 0 n).
