(* ===== verification/TinyWTLog.v ===== *)
(** * TinySTM write-through logs against serial execution

    The words of the write set laid over a memory, the narrow accesses of the typed
    wrappers byte by byte, and the relation [wtlog] between the log of a transaction and
    its write set: on any memory that holds the bytes the transaction read from shared
    memory, replaying the log succeeds and leaves the new words over that memory. *)

From S2P Require Import Prelude Memory Values TMSpec LogMerge TxLog TinyLock TinyWriteSet TinyShared TinyWT.
#[local] Open Scope Z_scope.
#[local] Open Scope word_scope.

Implicit Types (ws : wset WriteLogEntry_wt) (e : WriteLogEntry_wt).

(** Well-formed write sets have entries at aligned addresses. *)
Definition wts_ok ws : Prop := wset_wf ws ∧ ∀ a, is_Some (wset_map ws !! a) → a mod 8 = 0.

(** The words [f] of the entries over the bytes [m]. *)
Definition over (f : WriteLogEntry_wt → Z) ws (m : Z → Z) (x : Z) : Z :=
  match wset_map ws !! word_base x with Some e => byte_at (f e) (x mod 8) | None => m x end.

Definition ws_words (f : WriteLogEntry_wt → Z) ws : list (Z * Z) :=
  concat ((λ ae : Z * WriteLogEntry_wt, word_stores ae.1 (f ae.2)) <$> ws_vec ws).

Lemma word_stores_mget m a w x : mget (wr m (word_stores a w)) x = if decide (a ≤ x < a + 8) then byte_at w (x - a) else mget m x.
Proof. exact (write_value_mget m a (AnyT w) UINT64 x). Qed.

Lemma word_stores_addr a w x : x ∈ (word_stores a w).*1 ↔ a ≤ x < a + 8.
Proof. apply (value_stores_range a (AnyT w) UINT64). Qed.

Lemma word_stores_bytes a w : Forall (λ ab, is_byte ab.2) (word_stores a w).
Proof. apply value_stores_bytes. Qed.

Lemma ws_words_mget f ws m x : wts_ok ws → mget (wr m (ws_words f ws)) x = over f ws (mget m) x.
Proof.
  intros [[Hn _] Hal]. unfold ws_words, over, wset_map in *. destruct ws as [vec ix]. cbn [ws_vec] in *. revert m.
  induction vec as [|[a e] vec IH]; intros m; [done|]. cbn [fmap list_fmap concat list_to_map foldr fst snd] in *. rewrite wr_app.
  apply NoDup_cons in Hn as [Hna Hn]. assert (Ham : a mod 8 = 0) by (apply Hal; rewrite lookup_insert_eq; by eexists).
  rewrite IH; [|done|]. 2: { intros b Hb. destruct (decide (b = a)) as [->|]; [done|]. apply Hal. by rewrite lookup_insert_ne by done. }
  clear IH. pose proof (word_base_split x) as [Hs Hr]. cbn [uncurry]. destruct (decide (word_base x = a)) as [Heq|Hne].
  - rewrite Heq, lookup_insert_eq, not_elem_of_list_to_map_1, word_stores_mget by done. rewrite decide_True by lia. f_equal. lia.
  - rewrite lookup_insert_ne by done. rewrite word_stores_mget, decide_False; [done|]. intros ?. apply Hne. by apply word_base_eq.
Qed.

Lemma ws_words_addr f ws x : wts_ok ws → x ∈ (ws_words f ws).*1 → is_Some (wset_map ws !! word_base x).
Proof.
  intros [[Hn _] Hal] Hx. apply list_elem_of_fmap in Hx as ([a b] & -> & Hx). unfold ws_words in Hx.
  apply list_elem_of_In, in_concat in Hx as (l & Hl%list_elem_of_In & Hab%list_elem_of_In). apply list_elem_of_fmap in Hl as ([a' e] & -> & Hin).
  cbn [fst snd] in *. apply elem_of_list_to_map_1 in Hin; [|done]. exists e. unfold wset_map. rewrite <- Hin. f_equal.
  apply word_base_eq; [apply Hal; by exists e|]. apply (word_stores_addr a' (f e)). apply list_elem_of_fmap. by exists (a, b).
Qed.

Lemma ws_words_bytes f ws : Forall (λ ab, is_byte ab.2) (ws_words f ws).
Proof. unfold ws_words. induction (ws_vec ws) as [|ae vec IH]; [by apply Forall_nil_2|]. cbn [fmap list_fmap concat]. apply Forall_app. split; [apply word_stores_bytes|done]. Qed.

Lemma over_insert f ws ws' a e m x :
  wset_map ws' = <[a := e]> (wset_map ws) → over f ws' m x = if decide (word_base x = a) then byte_at (f e) (x mod 8) else over f ws m x.
Proof.
  intros Hm. unfold over. rewrite Hm. case_decide as Hd; [by rewrite Hd, lookup_insert_eq|by rewrite lookup_insert_ne].
Qed.

(** ** Words *)

Lemma byte_le_word bs k b : Forall is_byte bs → bs !! k = Some b → byte_at (le_word bs) (Z.of_nat k) = b.
Proof.
  intros Hb Hk. pose proof (lookup_lt_Some _ _ _ Hk). pose proof (le_bytes_at (length bs) (le_word bs) k) as H'.
  rewrite le_bytes_le_word in H' by done. rewrite Hk in H'. by injection H' as <-.
Qed.

Lemma word_bytes m a n w : (∀ k, (k < n)%nat → mget m (a + Z.of_nat k) = byte_at w (Z.of_nat k)) → load_bytes m a n = le_bytes n w.
Proof.
  intros H. apply list_eq. intros k. destruct (decide (k < n)%nat) as [Hk|Hk].
  - by rewrite load_bytes_prefix, le_bytes_at, H.
  - rewrite !lookup_ge_None_2; [done|rewrite length_le_bytes; lia|rewrite length_load_bytes; lia].
Qed.

(** A merged word: the value in its bytes, the old word elsewhere. *)
Definition merges (k : tacc) : Prop :=
  match k with
  | WrAcc a FLOAT _ junk => byte_offset a = 4 ∨ wrap 32 junk = 0
  | _ => True
  end.

Lemma merge_word_patch word a sz v junk :
  nbytes_of sz ≠ 8 → in_word sz a → merges (WrAcc a sz v junk) → merge_word word a sz v junk = patch word v (nbytes_of sz) (byte_offset a).
Proof.
  intros Hn Hin Hm. pose proof (nbytes_range sz). pose proof (byte_offset_range a). unfold in_word in Hin. unfold merge_word, patch.
  replace (8 * byte_offset a) with (byte_offset a * 8) by lia. rewrite BYTE_MASK_ones by lia.
  assert (Hones : 2 ^ (8 * nbytes_of sz) - 1 = Z.ones (8 * nbytes_of sz)) by (rewrite Z.ones_equiv; lia). rewrite Hones. f_equal.
  assert (Hw : wrap (8 * nbytes_of sz) v = v .& Z.ones (8 * nbytes_of sz)) by (rewrite Z.land_ones by lia; done). rewrite <- Hw.
  destruct sz; try done. cbn [merges] in Hm. change (8 * nbytes_of FLOAT) with 32. apply Z.bits_inj'. intros i Hi.
  unfold shl64. rewrite !(testbit_wrap 64) by lia. destruct (i <? 64) eqn:Hi64; [|done]. apply Z.ltb_lt in Hi64. cbn [andb]. rewrite !Z.shiftl_spec by lia.
  rewrite Z.lor_spec. destruct Hm as [Ho|Hj].
  - rewrite Ho. rewrite (testbit_wrap 64) by lia.
    destruct (Z.ltb_spec (i - 4 * 8) 0); [rewrite !testbit_neg by lia; by rewrite andb_false_r|]. rewrite (Z.shiftl_spec _ 32) by lia.
    rewrite (testbit_neg _ (i - 4 * 8 - 32)) by lia. by rewrite andb_false_r, orb_false_r.
  - rewrite Hj, Z.shiftl_0_l. unfold wrap. by rewrite Z.mod_0_l, Z.testbit_0_l, orb_false_r by lia.
Qed.

Lemma merge_word_byte word a sz v junk i :
  nbytes_of sz ≠ 8 → in_word sz a → merges (WrAcc a sz v junk) → 0 ≤ i < 8 →
  byte_at (merge_word word a sz v junk) i =
    if (byte_offset a <=? i) && (i <? byte_offset a + nbytes_of sz) then byte_at v (i - byte_offset a) else byte_at word i.
Proof.
  intros Hn Hin Hm Hi. rewrite merge_word_patch by done. pose proof (nbytes_range sz). pose proof (byte_offset_range a). unfold in_word in Hin.
  rewrite patch_byte by lia. done.
Qed.

(** ** Logs *)

Definition wtlog (ext : list (Z * Z)) ws (evs : list event) : Prop :=
  ∀ m, holds m ext → ∃ m', replay m evs = Some m' ∧ ∀ x, mget m' x = over wt_new ws (mget m) x.

Lemma wtlog_nil ext : wtlog ext (WSet [] ∅) [].
Proof. intros m _. by exists m. Qed.

Lemma wtlog_mono ext ext' ws evs : ext ⊆ ext' → wtlog ext ws evs → wtlog ext' ws evs.
Proof. intros Hs Hl m Hm. apply Hl. intros a b Hab. apply Hm. by apply Hs. Qed.

(** The bytes of the word of an address, as the transaction sees them. *)
Definition sees (ext : list (Z * Z)) ws (a word : Z) : Prop :=
  ∀ m x, holds m ext → word_base x = a → over wt_new ws (mget m) x = byte_at word (x mod 8).

Lemma sees_hit ext ws a e : wset_map ws !! a = Some e → sees ext ws a (wt_new e).
Proof. intros He m x _ Hx. unfold over. by rewrite Hx, He. Qed.

Lemma sees_read ext ws a bs v rec :
  a mod 8 = 0 → Forall is_byte bs → length bs = 8%nat → wset_map ws !! a = None → (taken a v bs ++ rec).*1 ⊆ ext → sees ext ws a (le_word bs).
Proof.
  intros Ha Hb Hlen Hn Hsub m x Hm Hx. unfold over. rewrite Hx, Hn. pose proof (word_base_split x) as [Hs Hr].
  destruct (lookup_lt_is_Some_2 bs (Z.to_nat (x mod 8))) as [b Hk]; [lia|]. rewrite <- (Z2Nat.id (x mod 8)) by lia.
  rewrite (byte_le_word bs _ b) by done. apply Hm, Hsub. rewrite fmap_app. apply elem_of_app. left. apply list_elem_of_fmap. exists (x, b, v).
  split; [done|]. apply taken_elem. split; [done|]. exists (Z.to_nat (x mod 8)). split; [done|lia].
Qed.

Lemma wtlog_read ext ws evs a sz word :
  is_w 64 a → in_word sz a → sees ext ws (align_down_8 a) word → wtlog ext ws evs → wtlog ext ws (evs ++ [EvR a sz (wt_sub_word word a sz)]).
Proof.
  intros Ha Hin Hsees Hl m Hm. destruct (Hl m Hm) as (m' & Hr & Hx). exists m'. split; [|done]. apply replay_snoc_read; [done|].
  rewrite return_read. pose proof (nbytes_range sz). pose proof (byte_offset_range a).
  rewrite (word_bytes m' a (type_size sz) (word .>> (8 * byte_offset a))).
  - rewrite le_word_le_bytes. fold (nbytes_of sz). rewrite wrap_idem by lia. unfold wt_sub_word. do 2 f_equal. lia.
  - intros k Hk. pose proof (nth_acc a sz k Hk) as Hacc. destruct (acc_base a sz _ Ha Hin Hacc) as [Hb Hmod].
    rewrite Hx, (Hsees m _ Hm Hb), Hmod, byte_at_shift by lia. f_equal. lia.
Qed.

(** The word [w] that the access [k] leaves. *)
Definition leaves (ext : list (Z * Z)) ws (k : tacc) (w : Z) : Prop :=
  match k with
  | RdAcc _ _ => False
  | WrAcc a sz v _ => ∀ m x, holds m ext → word_base x = align_down_8 a →
      byte_at w (x mod 8) = if decide (in_acc a sz x) then byte_at v (x - a) else over wt_new ws (mget m) x
  end.

Lemma leaves_mono ext ext' ws k w : ext ⊆ ext' → leaves ext ws k w → leaves ext' ws k w.
Proof. destruct k as [|a sz v j]; [done|]. intros Hs Hl m x Hm Hx. apply Hl; [|done]. intros c b Hcb. apply Hm. by apply Hs. Qed.

Lemma leaves_merge ext ws a sz v junk word :
  nbytes_of sz ≠ 8 → is_w 64 a → in_word sz a → merges (WrAcc a sz v junk) → sees ext ws (align_down_8 a) word →
  leaves ext ws (WrAcc a sz v junk) (merge_word word a sz v junk).
Proof.
  intros Hn Ha Hin Hmg Hs m x Hm Hx. pose proof (word_base_split x) as [Hsp Hr]. rewrite merge_word_byte by done.
  pose proof (align_down_split a Ha) as Hal. unfold in_acc. case_decide as Hd.
  - replace (_ && _) with true by (zcmp; simpl; try lia; done). f_equal. lia.
  - replace (_ && _) with false by (zcmp; simpl; try lia; done). by rewrite (Hs m x Hm Hx).
Qed.

Lemma leaves_whole ext ws a sz v junk :
  nbytes_of sz = 8 → is_w 64 a → in_word sz a → leaves ext ws (WrAcc a sz v junk) (wrap64 v).
Proof.
  intros Hn Ha Hin m x _ Hx. pose proof (word_base_split x) as [Hsp Hr]. pose proof (byte_offset_range a). unfold in_word in Hin.
  pose proof (align_down_split a Ha) as Hal. rewrite decide_True by (unfold in_acc; lia). replace (x - a) with (x mod 8) by lia.
  unfold byte_at. apply Z.bits_inj'. intros i Hi. rewrite !testbit_wrap by lia. destruct (Z.ltb_spec i 8); [|done].
  cbn [andb]. rewrite !Z.shiftr_spec by lia. rewrite testbit_wrap by lia. destruct (Z.ltb_spec (i + 8 * (x mod 8)) 64); [done|lia].
Qed.

Lemma wtlog_write ext ws ws' evs a sz v junk e :
  is_w 64 a → in_word sz a → wset_map ws' = <[align_down_8 a := e]> (wset_map ws) → leaves ext ws (WrAcc a sz v junk) (wt_new e) →
  wtlog ext ws evs → wtlog ext ws' (evs ++ [EvW a sz v]).
Proof.
  intros Ha Hin Hm' Hlv Hl m Hm. destruct (Hl m Hm) as (m' & Hr & Hx). eexists. split; [by apply replay_snoc_write|]. intros x.
  rewrite write_value_mget, (over_insert _ _ _ _ _ _ _ Hm'). cbn [u8]. case_decide as Hacc.
  - destruct (acc_base a sz x Ha Hin Hacc) as [Hb _]. rewrite decide_True by done. rewrite (Hlv m x Hm Hb). by rewrite decide_True.
  - rewrite Hx. case_decide as Hb; [|done]. rewrite (Hlv m x Hm Hb). by rewrite decide_False.
Qed.
