(* ===== verification/TinyWTRel.v ===== *)
(** * TinySTM write-through against the versioned-lock machine: the relation

    The abstract machine of [VersionedLocks] buffers writes; the write-through design
    stores them at once and undoes them on abort.  The relation therefore compares the
    shared memory with the abstract memory only under free locks, and under a thread's
    own locks up to its write set.  A lock word carries an incarnation, which an abort
    increments: version, incarnation and lock bit together form a rank that never
    decreases, so a reader that finds the same word twice has seen no store in between. *)

From stdpp Require Import functions.
From S2P Require Import Prelude Memory Values TMSpec LogMerge TxLog TinyLock TinyWriteSet Support LockWord VersionedLocks TinyShared TinySim TinyWT TinyWTLog.
#[local] Open Scope Z_scope.

(** ** Ranks *)

Definition rank (s : Z) : Z := 16 * get_version s + 2 * get_incarnation s + Z.b2z (is_locked s).

Definition inc_ok (c : Z) : Prop := 0 ≤ c < 8.

Lemma rank_iword v c o : ver_ok v → inc_ok c → own_ok o → rank (iword v c o) = 16 * Z.of_nat v + 2 * c + match o with Some _ => 1 | None => 0 end.
Proof. intros Hv Hc Ho. unfold rank. rewrite iword_version, iword_inc, iword_locked by done. by destruct o. Qed.

Lemma rank_free v c v' c' o' :
  ver_ok v → inc_ok c → ver_ok v' → inc_ok c' → own_ok o' → rank (iword v' c' o') = rank (iword v c None) → v' = v ∧ c' = c ∧ o' = None.
Proof. unfold inc_ok. intros Hv Hc Hv' Hc' Ho'. rewrite !rank_iword by done. destruct o'; intros ?; [lia|]. split_and!; [lia|lia|done]. Qed.

Lemma lock_of_word a x : is_w 64 a → a mod 8 = 0 → word_base x = a → lock_of x = lock_of a.
Proof.
  intros Ha Hm Hx. pose proof (proj1 (word_base_eq a x Hm) Hx). apply (lock_of_acc a UINT64); [done| |done].
  unfold in_word. rewrite byte_offset_mod, Hm. done.
Qed.

Section Rel.
(** The initial memory, the number of threads, and the accesses of the program: no two
    accessed words share a lock, and a [float] write leaves its neighbours alone. *)
Context (m0 : mem) (n : nat) (acc : tacc → bool).
Implicit Types (σ : lvs) (t : tthread) (g : tglobal).

#[local] Abbreviation lv_inv := (lv_inv lock_of m0).

Definition acc_ok (k : tacc) : Prop := acc k = true ∧ access_ok (acc_addr k) (acc_size k) = true.
Definition word_ok (a : Z) : Prop := ∃ k, acc_ok k ∧ a = word_addr k.

Definition own_locks : Prop := ∀ k k', acc_ok k → acc_ok k' → lock_of (acc_addr k) = lock_of (acc_addr k') → word_addr k = word_addr k'.

Lemma acc_word k : acc_ok k → is_w 64 (word_addr k) ∧ word_addr k mod 8 = 0 ∧ lock_of (word_addr k) = lock_of (acc_addr k).
Proof.
  intros [_ [Ha _]%access_ok_spec]. destruct (align_down_aligned _ Ha) as [? ?]. unfold word_addr. split_and!; [done..|by apply lock_of_align].
Qed.

Lemma acc_byte k j : acc_ok k → (j < 8)%nat →
  word_base (word_addr k + Z.of_nat j) = word_addr k ∧ lock_of (word_addr k + Z.of_nat j) = lock_of (word_addr k).
Proof.
  intros (Hw & Hm & _)%acc_word Hj. assert (word_base (word_addr k + Z.of_nat j) = word_addr k) as Hb by (apply word_base_eq; [done|lia]).
  split; [done|by apply lock_of_word].
Qed.

Lemma word_ok_addr a : word_ok a → is_w 64 a ∧ a mod 8 = 0.
Proof. intros (k & Hk & ->). by destruct (acc_word k Hk) as (? & ? & _). Qed.

Lemma word_lock a x : word_ok a → word_base x = a → lock_of x = lock_of a.
Proof. intros [? ?]%word_ok_addr. by apply lock_of_word. Qed.

Lemma word_ok_inj a a' : own_locks → word_ok a → word_ok a' → lock_of a = lock_of a' → a = a'.
Proof.
  intros Hinj (k & Hk & ->) (k' & Hk' & ->) Hl. apply Hinj; [done..|]. destruct (acc_word k Hk) as (_ & _ & <-).
  by destruct (acc_word k' Hk') as (_ & _ & <-).
Qed.

(** ** Shared state *)

Record tg_rel g σ : Prop := TGRel {
  gt_bytes : mem_ok (g_mem (tg g));
  gt_free : ∀ x, own σ (lock_of x) = None → mget (g_mem (tg g)) x = mget (lmem σ) x;
  gt_clock : g_clock (tg g) = Z.of_nat (clk σ);
  gt_max : Z.of_nat (clk σ) < VERSION_MAX;
  gt_locks : ∀ ℓ, ∃ c, inc_ok c ∧ g_locks (tg g) ℓ = iword (ver σ ℓ) c (own σ ℓ);
  gt_own : ∀ ℓ j, own σ ℓ = Some j → (j < n)%nat;
  gt_hist : ∀ c, log_rel (g_hist (tg g) !! c) (hist σ !! c);
  gt_ro : ∀ s e evs, (s, e, evs) ∈ g_ro (tg g) → e = s ∧ 0 ≤ s ≤ Z.of_nat (clk σ) ∧ ∃ l, (Z.to_nat s, l) ∈ obs σ ∧ observes evs l;
}.

Lemma tg_ver_ok g σ v : tg_rel g σ → (v ≤ clk σ)%nat → ver_ok v.
Proof. intros G Hv. pose proof (gt_max g σ G) as Hm. unfold VERSION_MAX in Hm. rewrite VERSION_MASK_ones, Z.ones_equiv in Hm. unfold ver_ok. lia. Qed.

Section Threads.
Context (Hn : Z.of_nat n < MAX_THREADS).

(** The word of a lock. *)
Lemma tg_lock g σ ℓ : lv_inv σ → tg_rel g σ →
  ∃ c, inc_ok c ∧ ver_ok (ver σ ℓ) ∧ own_ok (own σ ℓ) ∧ g_locks (tg g) ℓ = iword (ver σ ℓ) c (own σ ℓ).
Proof using Hn.
  intros I G. destruct (gt_locks g σ G ℓ) as (c & Hc & Hl). exists c. split_and!; [done| | |done].
  - eapply tg_ver_ok; [done|]. apply (iv_ver _ _ σ I).
  - destruct (own σ ℓ) as [j|] eqn:Ho; [|done]. apply (tid_ok n Hn). by eapply (gt_own g σ G).
Qed.
End Threads.

Lemma wtg_upd i g σ σ' T : upd i σ σ' T → tg_rel g σ → tg_rel g σ'.
Proof. intros [Um Uc Uv Uo Uh Ub _] [H1 H2 H3 H4 H5 H6 H7 H8]. split; rewrite ?Um, ?Uc, ?Uv, ?Uo, ?Uh, ?Ub; done. Qed.

Lemma tg_token g σ tok : tg_rel g σ → tg_rel (tset_token g tok) σ.
Proof. by intros []. Qed.

(** What a step of thread [j] leaves alone: what is under the locks of others. *)
Record tguar (j : nat) g σ g' σ' : Prop := TGuar {
  tu_rank : ∀ ℓ, rank (g_locks (tg g) ℓ) ≤ rank (g_locks (tg g') ℓ);
  tu_lock : ∀ ℓ i, own σ ℓ = Some i → i ≠ j → g_locks (tg g') ℓ = g_locks (tg g) ℓ;
  tu_ver : ∀ ℓ, own σ ℓ ≠ Some j → ver σ' ℓ = ver σ ℓ;
  tu_mem : ∀ x, own σ (lock_of x) ≠ Some j → mget (g_mem (tg g')) x = mget (g_mem (tg g)) x;
  tu_lmem : ∀ x, own σ (lock_of x) ≠ Some j → mget (lmem σ') x = mget (lmem σ) x;
}.

Lemma guar_upd i g σ σ' T g' :
  upd i σ σ' T → g_locks (tg g') = g_locks (tg g) → g_mem (tg g') = g_mem (tg g) → tguar i g σ g' σ'.
Proof. intros U Hl Hm. split; rewrite ?Hl, ?Hm, ?(up_mem _ _ _ _ U), ?(up_ver _ _ _ _ U); done. Qed.

Lemma guar_refl i g σ g' : g_locks (tg g') = g_locks (tg g) → g_mem (tg g') = g_mem (tg g) → tguar i g σ g' σ.
Proof. intros Hl Hm. by split; rewrite ?Hl, ?Hm. Qed.

(** ** Transactions *)

(** A byte read: its word is in the read set with the version. *)
Definition in_reads (rs : list ReadLogEntry_wt) (a : Z) (v : nat) : Prop :=
  ∃ r, r ∈ rs ∧ rt_addr r = word_base a ∧ rt_version r = Z.of_nat v.

Record ttx_rel σ (i : nat) (x : ttx) (evs : list event) (rec : list (Z * Z * nat)) : Prop := TTxRel {
  xr_rds : rds (thr σ i) = rec;
  xr_lrds : lrds (thr σ i) = [];
  xr_log : wtlog rec.*1 (x_wset x) evs;
  xr_rec : ∀ a val v, (a, val, v) ∈ rec → in_reads (x_rset x) a v;
  xr_rset : ∀ r, r ∈ x_rset x → word_ok (rt_addr r);
  xr_end : 0 ≤ x_start x ≤ x_end x ∧ x_end x ≤ Z.of_nat (clk σ);
  xr_fix : x_end x = x_start x → ∀ a val v, (a, val, v) ∈ rec → (a, val, v, S (Z.to_nat (x_start x))) ∈ fixd (thr σ i);
  xr_ro : x_ro x = true → ws_vec (x_wset x) = [] ∧ x_end x = x_start x;
}.

(** The write set: words under the thread's locks, with their old values and versions. *)
Record wset_rel σ (i : nat) (ws : wset WriteLogEntry_wt) (held : list Z) : Prop := WsetRel {
  wr_wf : wset_wf ws;
  wr_word : ∀ a e, wset_map ws !! a = Some e → word_ok a ∧ own σ (lock_of a) = Some i ∧ wt_version e = Z.of_nat (ver σ (lock_of a)) ∧
    ∀ x, word_base x = a → byte_at (wt_old e) (x mod 8) = mget (lmem σ) x;
  wr_held : ∀ ℓ, ℓ ∈ held → ∃ a, is_Some (wset_map ws !! a) ∧ lock_of a = ℓ;
}.

Lemma wset_rel_ok σ i ws held : wset_rel σ i ws held → wts_ok ws.
Proof. intros W. split; [apply W|]. intros a [e He]. by destruct (wr_word _ _ _ _ W a e He) as ([_ ?]%word_ok_addr & _). Qed.

(** Under the thread's locks the memory is [f] once the stores [st] are done. *)
Definition own_mem g σ (i : nat) (st : list (Z * Z)) (f : Z → Z) : Prop :=
  (∀ x, own σ (lock_of x) = Some i → mget (wr (g_mem (tg g)) st) x = f x) ∧
  (∀ x, x ∈ st.*1 → own σ (lock_of x) = Some i) ∧ Forall (λ ab, is_byte ab.2) st.

Definition trun g σ (i : nat) t (p : phase) (evs : list event) (rec : list (Z * Z * nat)) (ls : list Z) (st : list (Z * Z)) : Prop :=
  ph (thr σ i) = p ∧ x_active (y_tx t) = true ∧ ttx_rel σ i (y_tx t) evs rec ∧ wset_rel σ i (x_wset (y_tx t)) (x_held (y_tx t)) ∧
  own_rel σ i ls ∧ own_mem g σ i st (over wt_new (x_wset (y_tx t)) (mget (lmem σ))).

Definition tact g σ (i : nat) t (rec : list (Z * Z * nat)) : Prop := trun g σ i t PActive (y_log t) rec (x_held (y_tx t)) [].

(** Having written: not read-only and a write set that is not empty. *)
Definition wrote t : Prop := x_ro (y_tx t) = false → ws_vec (x_wset (y_tx t)) ≠ [].

(** An access to a word that is not in the write set. *)
Definition kmiss t (k : tacc) : Prop := acc_ok k ∧ wset_map (x_wset (y_tx t)) !! word_addr k = None.

Definition rmiss g σ (i : nat) t (k : tacc) : Prop :=
  kmiss t k ∧ match k with RdAcc _ _ => wrote t | WrAcc _ sz _ _ => nbytes_of sz ≠ 8 end ∧ ∃ rec, tact g σ i t rec.

Definition wmiss g σ (i : nat) t (k : tacc) (w : Z) (ls : list Z) : Prop :=
  kmiss t k ∧ x_ro (y_tx t) = false ∧ ∃ rec, trun g σ i t PActive (y_log t) rec ls [] ∧ leaves rec.*1 (x_wset (y_tx t)) k w.

(** A lock word loaded before. *)
Definition tseen g (k : tacc) (l : Z) (o : option nat) : Prop :=
  ∃ v c, l = iword v c o ∧ ver_ok v ∧ inc_ok c ∧ own_ok o ∧ rank l ≤ rank (tlock g (word_addr k)).

(** The bytes loaded so far are those of the abstract memory, if the lock word is still the same. *)
Definition bytes_seen g σ (k : tacc) (l : Z) (bs : list Z) : Prop :=
  Forall is_byte bs ∧
  (rank (tlock g (word_addr k)) = rank l → ∀ j b, bs !! j = Some b → mget (lmem σ) (word_addr k + Z.of_nat j) = b).

Definition ttodo σ (i : nat) (rec : list (Z * Z * nat)) (rs : list ReadLogEntry_wt) (c : nat) : Prop :=
  ∀ a val v, (a, val, v) ∈ rec → (a, val, v, c) ∈ fixd (thr σ i) ∨ in_reads rs a v.

Definition tinactive σ (i : nat) t : Prop := ph (thr σ i) = PIdle ∧ x_active (y_tx t) = false ∧ own_rel σ i [].

Definition textending g σ (i : nat) t (k : tacc) (l : Z) : Prop :=
  rmiss g σ i t k ∧ tseen g k l None ∧ x_ro (y_tx t) = false ∧ x_end (y_tx t) < get_version l.

(** The locks of a write, the last one just taken. *)
Definition locks_with t (k : tacc) : list Z := lock_of (word_addr k) :: x_held (y_tx t).

(** The version of the word under the thread's lock and the bytes of it read so far. *)
Definition old_word σ (k : tacc) (version : Z) (bs : list Z) : Prop :=
  version = Z.of_nat (ver σ (lock_of (word_addr k))) ∧ Forall is_byte bs ∧
  ∀ j b, bs !! j = Some b → mget (lmem σ) (word_addr k + Z.of_nat j) = b.

Definition tpc_rel g σ (i : nat) t : Prop :=
  match y_pc t with
  | TIdle => if x_active (y_tx t) then wrote t ∧ ∃ rec, tact g σ i t rec else tinactive σ i t
  | TBClock | CToken => tinactive σ i t
  | RLockedBy k | RGet k => rmiss g σ i t k
  | ROwn _ _ => False
  | RLoop k l _ => rmiss g σ i t k ∧ ∃ o, tseen g k l o
  | RBytes k l _ bs => rmiss g σ i t k ∧ tseen g k l None ∧ bytes_seen g σ k l bs ∧ (length bs < 8)%nat
  | RRecheck k l _ bs => rmiss g σ i t k ∧ tseen g k l None ∧ bytes_seen g σ k l bs ∧ length bs = 8%nat
  | XScan k l _ _ | XShared k l _ | XClock k l _ => textending g σ i t k l
  | XValid k l _ last _ => textending g σ i t k l ∧ get_version l ≤ last ≤ Z.of_nat (clk σ)
  | WGet k w _ | WTry k w _ _ | WFailed k w _ _ | WSoft k w _ | WSoftCas k w _ | WSpin k w _ _ | WHeld k w _ _ =>
      wmiss g σ i t k w (x_held (y_tx t))
  | WCas k w _ _ e d => wmiss g σ i t k w (x_held (y_tx t)) ∧ ∃ v c, ver_ok v ∧ inc_ok c ∧ e = iword v c None ∧ d = iword v c (Some i)
  | WAcquired k w => wmiss g σ i t k w (locks_with t k)
  | WOld k w version _ acquired bs =>
      acquired = true ∧ wmiss g σ i t k w (locks_with t k) ∧ old_word σ k version bs ∧ (length bs < 8)%nat
  | WStore k st =>
      match k with
      | WrAcc a sz v _ => x_ro (y_tx t) = false ∧ wrote t ∧ ∃ rec, trun g σ i t PActive (y_log t ++ [EvW a sz v]) rec (x_held (y_tx t)) st
      | RdAcc _ _ => False
      end
  | CInc => ∃ rec, tact g σ i t rec
  | CValid cv rs =>
      0 ≤ cv ∧ rs ⊆ x_rset (y_tx t) ∧ ∃ rec, trun g σ i t (PInc (Z.to_nat cv) (ws_words wt_new (x_wset (y_tx t)))) (y_log t) rec (x_held (y_tx t)) [] ∧
        ttodo σ i rec rs (Z.to_nat cv)
  | CRel cv as_ => 0 ≤ cv ∧ ph (thr σ i) = PDec (Z.to_nat cv) [] ∧ own_rel σ i (lock_of <$> as_) ∧ own_mem g σ i [] (mget (lmem σ))
  | CRelStore cv a as_ =>
      0 ≤ cv ∧ ph (thr σ i) = PDec (Z.to_nat cv) [] ∧ own_rel σ i (lock_of <$> a :: as_) ∧ own_mem g σ i [] (mget (lmem σ))
  | ARestore st => ph (thr σ i) = PAbort ∧ own_rel σ i (x_held (y_tx t)) ∧ own_mem g σ i st (mget (lmem σ))
  | AInc ls => ph (thr σ i) = PAbort ∧ own_rel σ i ls ∧ own_mem g σ i [] (mget (lmem σ))
  | AIncStore l s ls =>
      ph (thr σ i) = PAbort ∧ own_rel σ i (l :: ls) ∧ own_mem g σ i [] (mget (lmem σ)) ∧ s = g_locks (tg g) l
  | AToken => ph (thr σ i) = PAbort ∧ own_rel σ i []
  end.

Definition tt_rel g σ (i : nat) t : Prop := x_id (y_tx t) = tid i ∧ tpc_rel g σ i t.

(** ** Stability under the steps of others *)

(** What the steps of other threads leave to thread [i]. *)
Record tenv (i : nat) g σ g' σ' : Prop := TEnv {
  te_frame : lv_frame i σ σ';
  te_rank : ∀ ℓ, rank (g_locks (tg g) ℓ) ≤ rank (g_locks (tg g') ℓ);
  te_lock : ∀ ℓ, own σ ℓ = Some i → g_locks (tg g') ℓ = g_locks (tg g) ℓ ∧ ver σ' ℓ = ver σ ℓ;
  te_mem : ∀ x, own σ (lock_of x) = Some i → mget (g_mem (tg g')) x = mget (g_mem (tg g)) x;
  te_lmem : ∀ x, own σ (lock_of x) = Some i ∨ own σ (lock_of x) = None → mget (lmem σ') x = mget (lmem σ) x;
}.

Lemma guar_env i j g σ g' σ' : i ≠ j → tguar j g σ g' σ' → lv_frame i σ σ' → tenv i g σ g' σ'.
Proof.
  intros Hij [H1 H2 H3 H4 H5] F. split; [done|done|..].
  - intros ℓ Ho. split; [by eapply H2|]. apply H3. congruence.
  - intros x Ho. apply H4. congruence.
  - intros x [Ho|Ho]; apply H5; congruence.
Qed.

Lemma wr_mget m m' st x : mget m x = mget m' x → mget (wr m st) x = mget (wr m' st) x.
Proof.
  intros Hm. unfold mget in *. destruct (decide (x ∈ st.*1)); [by rewrite (wr_lookup_in m m')|]. by rewrite !wr_lookup_ne.
Qed.

Section Env.
Context (i : nat) (g : tglobal) (σ : lvs) (g' : tglobal) (σ' : lvs) (E : tenv i g σ g' σ').

Lemma own_mem_env st f f' : own_mem g σ i st f → (∀ x, own σ (lock_of x) = Some i → f' x = f x) → own_mem g' σ' i st f'.
Proof using E.
  intros (Hm & Hst & Hb) Hf. split_and!; [| |done].
  - intros x Ho. apply (fr_own _ _ _ (te_frame _ _ _ _ _ E)) in Ho. rewrite Hf, <- Hm by done. apply wr_mget. by apply (te_mem _ _ _ _ _ E).
  - intros x Hx. by apply (fr_own _ _ _ (te_frame _ _ _ _ _ E)), Hst.
Qed.

Lemma own_lmem_env st : own_mem g σ i st (mget (lmem σ)) → own_mem g' σ' i st (mget (lmem σ')).
Proof using E. intros H. eapply own_mem_env; [done|]. intros x Ho. apply (te_lmem _ _ _ _ _ E). by left. Qed.

Lemma ttx_env x evs rec : ttx_rel σ i x evs rec → ttx_rel σ' i x evs rec.
Proof using E. intros [H1 H2 H3 H4 H5 H6 H7 H8]. destruct (te_frame _ _ _ _ _ E) as [Ht Ho Hv Hc]. split; rewrite ?Ht; try done. lia. Qed.

Lemma wset_env ws held : wset_rel σ i ws held → wset_rel σ' i ws held.
Proof using E.
  intros [H1 H2 H3]. split; try done. intros a e He. destruct (H2 a e He) as (Hw & Ho & Hv & Hold). split_and!; [done| | |].
  - by apply (fr_own _ _ _ (te_frame _ _ _ _ _ E)).
  - by destruct (te_lock _ _ _ _ _ E _ Ho) as [_ ->].
  - intros x Hx. rewrite Hold by done. symmetry. apply (te_lmem _ _ _ _ _ E). left. by rewrite (word_lock a).
Qed.

Lemma trun_env t p evs rec ls st : trun g σ i t p evs rec ls st → trun g' σ' i t p evs rec ls st.
Proof using E.
  intros (Hp & Ha & X & W & Ho & Hm). split_and!; [by rewrite (fr_thr _ _ _ (te_frame _ _ _ _ _ E))|done|by apply ttx_env|by apply wset_env| |].
  - eapply own_frame; [apply E|done].
  - eapply own_mem_env; [done|]. intros x Hx. unfold over. destruct (wset_map _ !! _); [done|]. apply (te_lmem _ _ _ _ _ E). by left.
Qed.

Lemma rmiss_env t k : rmiss g σ i t k → rmiss g' σ' i t k.
Proof using E. intros (? & ? & rec & R). split; [done|]. split; [done|]. exists rec. by apply trun_env. Qed.

Lemma wmiss_env t k w ls : wmiss g σ i t k w ls → wmiss g' σ' i t k w ls.
Proof using E. intros (? & ? & rec & R & ?). split; [done|]. split; [done|]. exists rec. split; [by apply trun_env|done]. Qed.

Lemma tseen_env k l o : tseen g k l o → tseen g' k l o.
Proof using E. intros (v & c & ? & ? & ? & ? & Hr). exists v, c. split_and!; try done. etrans; [exact Hr|]. apply (te_rank _ _ _ _ _ E). Qed.

Lemma bytes_env k l bs : Z.of_nat n < MAX_THREADS → lv_inv σ → tg_rel g σ → acc_ok k → tseen g k l None → (length bs ≤ 8)%nat → bytes_seen g σ k l bs → bytes_seen g' σ' k l bs.
Proof using E.
  intros Hn I G Hk (v & c & -> & Hv & Hc & _ & Hle) Hlen [Hb Hm]. split; [done|]. intros Hr j b Hj. pose proof (te_rank _ _ _ _ _ E (lock_of (word_addr k))) as Hr'.
  unfold tlock in *. assert (Heq : rank (g_locks (tg g) (lock_of (word_addr k))) = rank (iword v c None)) by lia.
  rewrite <- (Hm Heq j b Hj). apply (te_lmem _ _ _ _ _ E). right.
  destruct (tg_lock Hn g σ (lock_of (word_addr k)) I G) as (c' & ? & ? & ? & Hl). rewrite Hl in Heq. apply rank_free in Heq as (_ & _ & Ho); [|done..].
  apply lookup_lt_Some in Hj. by destruct (acc_byte k j Hk) as [_ ->]; [lia|].
Qed.

Lemma reading_env t k l bs :
  Z.of_nat n < MAX_THREADS → lv_inv σ → tg_rel g σ → rmiss g σ i t k → tseen g k l None → (length bs ≤ 8)%nat → bytes_seen g σ k l bs →
  bytes_seen g' σ' k l bs.
Proof using E. intros ? ? ? ((? & _) & _). by apply bytes_env. Qed.

Lemma old_word_env t k w version bs :
  wmiss g σ i t k w (locks_with t k) → old_word σ k version bs → (length bs < 8)%nat → old_word σ' k version bs.
Proof using E.
  intros ((Hk & _) & _ & rec & (_ & _ & _ & _ & [_ Ho] & _) & _) (Hv & Hb & Hm) Hlen.
  assert (own σ (lock_of (word_addr k)) = Some i) as Hi by (apply Ho; left). split_and!; [|done|].
  - by destruct (te_lock _ _ _ _ _ E _ Hi) as [_ ->].
  - intros j b Hj. rewrite <- (Hm j b Hj). apply (te_lmem _ _ _ _ _ E). left. apply lookup_lt_Some in Hj.
    destruct (acc_byte k j Hk) as [_ ->]; [lia|done].
Qed.

Lemma tact_env t rec : tact g σ i t rec → tact g' σ' i t rec.
Proof using E. apply trun_env. Qed.

Lemma ttodo_env rec rs c : ttodo σ i rec rs c → ttodo σ' i rec rs c.
Proof using E. intros H a val v Hin. rewrite (fr_thr _ _ _ (te_frame _ _ _ _ _ E)). by apply H. Qed.

Lemma inc_store_env ls l : own_rel σ i (l :: ls) → g_locks (tg g') l = g_locks (tg g) l.
Proof using E. intros [_ Ho]. apply (te_lock _ _ _ _ _ E). apply Ho. left. Qed.

Lemma tt_env t : Z.of_nat n < MAX_THREADS → lv_inv σ → tg_rel g σ → tt_rel g σ i t → tt_rel g' σ' i t.
Proof using E.
  intros Hn I G [Hid Hp]. split; [done|]. unfold tpc_rel in *. pose proof (te_frame _ _ _ _ _ E) as F. pose proof (fr_clk _ _ _ F).
  assert (Hin : tinactive σ i t → tinactive σ' i t).
  { intros (? & ? & ?). unfold tinactive. rewrite (fr_thr _ _ _ F). split_and!; [done..|by eapply own_frame]. }
  assert (Hex : ∀ k l, textending g σ i t k l → textending g' σ' i t k l).
  { intros k l (? & ? & ? & ?). split_and!; [by apply rmiss_env|by apply tseen_env|done|done]. }
  destruct (y_pc t) as [| | | | | | | | | | | | | | | | | | | | | |k st| |cv rs|cv as_|cv a as_| |st|ls|l s ls|];
    [destruct (x_active (y_tx t))|..|destruct k| | | | | | | | |]; rewrite ?(fr_thr _ _ _ F);
    repeat match goal with H : _ ∧ _ |- _ => destruct H | H : ∃ _, _ |- _ => destruct H end;
    repeat match goal with |- _ ∧ _ => split | |- ∃ _, _ => eexists end; try done; try lia;
    eauto using trun_env, tact_env, rmiss_env, wmiss_env, tseen_env, own_lmem_env, own_frame, ttodo_env, old_word_env.
  all: try (eapply reading_env; eauto; lia). subst s. symmetry. by eapply inc_store_env.
Qed.
End Env.
End Rel.
