(* ===== verification/TinyWTSim.v ===== *)
(** * TinySTM write-through: every step is matched by the versioned-lock machine

    A read that finds its lock word unchanged becomes eight abstract loads, checked at
    the snapshot version while the transaction has not extended; a validated commit
    becomes the abstract decision together with all its write-backs; an abort gives the
    locks back unchanged. *)

From stdpp Require Import functions.
From S2P Require Import Prelude Memory Values TMSpec LogMerge TxLog TinyLock TinyWriteSet Support LockWord VersionedLocks TinyShared TinySim TinyWT TinyWTLog TinyWTRel.
#[local] Open Scope Z_scope.
#[local] Arguments iword : simpl never.

(** Abstract loads of consecutive bytes. *)
Lemma load_steps (lk : Z → Z) i σ (a : Z) (v : nat) bs :
  ph (thr σ i) = PActive → (∀ j, (j < length bs)%nat → (v ≤ ver σ (lk (a + Z.of_nat j)%Z))%nat) →
  (∀ j b, bs !! j = Some b → mget (lmem σ) (a + Z.of_nat j) = b) →
  ∃ σ', rtc (lv_step lk i) σ σ' ∧ upd i σ σ' (LVT PActive (taken a v bs ++ rds (thr σ i)) (lrds (thr σ i)) (fixd (thr σ i))).
Proof.
  intros Hp. induction bs as [|b bs IH] using rev_ind; intros Hv Hm.
  - exists σ. split; [done|]. split; try done. destruct (thr σ i); simpl in *; by subst.
  - destruct IH as (σ1 & Hs & U).
    { intros j Hj. apply Hv. rewrite length_app. lia. }
    { intros j c Hj. apply Hm. by apply lookup_app_l_Some. }
    eexists. split; [eapply rtc_r; [exact Hs|]|].
    + apply (lv_load lk i σ1 (a + Z.of_nat (length bs)) v _ eq_refl).
      * by rewrite (up_thr _ _ _ _ U).
      * rewrite (up_ver _ _ _ _ U). apply Hv. rewrite length_app. simpl. lia.
    + rewrite taken_snoc, (up_thr _ _ _ _ U), (up_mem _ _ _ _ U). simpl. rewrite (Hm (length bs) b); [|by rewrite lookup_app_r, Nat.sub_diag].
      eapply upd_trans; [exact U|]. apply upd_set_thr.
Qed.

Section Sim.
Context (m0 : mem) (n : nat) (acc : tacc → bool) (Hn : Z.of_nat n < MAX_THREADS).
(** No two accessed words share a lock; [float] writes leave their neighbours alone. *)
Context (Hinj : own_locks acc) (Hmg : ∀ k, acc k = true → merges k).
Implicit Types (σ : lvs) (t : tthread) (g : tglobal).

#[local] Abbreviation lv_steps i := (rtc (lv_step lock_of i)).
#[local] Abbreviation lv_inv := (lv_inv lock_of m0).
#[local] Abbreviation tg_rel := (tg_rel n).
#[local] Abbreviation tt_rel := (tt_rel acc).
#[local] Abbreviation trun := (trun acc).
#[local] Abbreviation tg_lock := (tg_lock m0 n Hn).

Definition wtsim (i : nat) g σ (gt : tglobal * tthread) : Prop :=
  ∃ σ', lv_steps i σ σ' ∧ tg_rel gt.1 σ' ∧ tt_rel gt.1 σ' i gt.2 ∧ tguar i g σ gt.1 σ'.

Lemma wtsim_stay i g σ t : tg_rel g σ → tt_rel g σ i t → wtsim i g σ (g, t).
Proof. intros. exists σ. split_and!; [done..|by apply guar_refl]. Qed.

Lemma wtsim_upd i g σ σ' T t : tg_rel g σ → lv_steps i σ σ' → upd i σ σ' T → tt_rel g σ' i t → wtsim i g σ (g, t).
Proof. intros G Hs U R. exists σ'. split_and!; [done|by eapply wtg_upd|done|by eapply guar_upd]. Qed.

Lemma own_mem_upd i g σ σ' T st f : upd i σ σ' T → own_mem g σ i st f → own_mem g σ' i st f.
Proof. intros U. unfold own_mem. by rewrite (up_own _ _ _ _ U). Qed.

Lemma wset_rel_upd i σ σ' T ws held : upd i σ σ' T → wset_rel acc σ i ws held → wset_rel acc σ' i ws held.
Proof. intros U [H1 H2 H3]. split; try done. by rewrite (up_mem _ _ _ _ U), (up_own _ _ _ _ U), (up_ver _ _ _ _ U). Qed.

Lemma trun_upd i g σ σ' T t p evs rec ls st :
  trun g σ i t p evs rec ls st → upd i σ σ' T → ph T = p → rds T = rec → lrds T = [] → fixd (thr σ i) ⊆ fixd T →
  trun g σ' i t p evs rec ls st.
Proof.
  intros (Hp & Ha & X & W & Ho & Hm) U HpT Hr Hl Hf.
  split_and!; [by rewrite (up_thr _ _ _ _ U)|done| |by eapply wset_rel_upd|by eapply own_upd|].
  - destruct X as [H1 H2 H3 H4 H5 H6 H7 H8]. split; rewrite ?(up_thr _ _ _ _ U), ?(up_clk _ _ _ _ U); try done.
    intros He a val v Hin. by apply Hf, H7.
  - rewrite (up_mem _ _ _ _ U). by eapply own_mem_upd.
Qed.

(** ** Aborts *)

Lemma wt_abort_sim i g g' σ t p evs rec :
  tg_rel g' σ → g_locks (tg g') = g_locks (tg g) → g_mem (tg g') = g_mem (tg g) → x_id (y_tx t) = tid i →
  trun g σ i t p evs rec (x_held (y_tx t)) [] → running p → wtsim i g σ (g', tabort t).
Proof.
  intros G Hl Hm Hid (Hp & Ha & X & W & Ho & Hmem) Hr. pose proof (upd_set_thr i σ (LVT PAbort [] [] [])) as U.
  pose proof (wset_rel_ok _ _ _ _ _ W) as Hok. exists (set_thr σ i (LVT PAbort [] [] [])). split_and!.
  - apply rtc_once. apply lv_abort. by rewrite Hp.
  - by eapply wtg_upd.
  - split; [done|]. split_and!; [by rewrite (up_thr _ _ _ _ U)|by eapply own_upd|]. destruct Hmem as (Hx & _ & _). split_and!.
    + intros x Hxo. simpl snd. change (restore_stores (x_wset (y_tx t))) with (ws_words wt_old (x_wset (y_tx t))). rewrite ws_words_mget by done.
      specialize (Hx x Hxo). simpl in Hx. simpl fst. rewrite Hm. unfold over in *. destruct (wset_map _ !! _) as [e|] eqn:He; [|done].
      by apply (wr_word _ _ _ _ _ W _ _ He).
    + intros x Hin. destruct (ws_words_addr wt_old _ x Hok Hin) as [e He]. destruct (wr_word _ _ _ _ _ W _ _ He) as (Hw & Hxo & _).
      by rewrite (word_lock acc (word_base x)).
    + apply (ws_words_bytes wt_old).
  - by eapply guar_upd.
Qed.

(** ** Entering words in the write set *)

Lemma map_nonempty (ws ws' : wset WriteLogEntry_wt) a e : wset_map ws' = <[a := e]> (wset_map ws) → ws_vec ws' ≠ [].
Proof.
  intros Hmap Hnil. assert (H' : wset_map ws' !! a = Some e) by (by rewrite Hmap, lookup_insert_eq). unfold wset_map in H'. rewrite Hnil in H'. simpl in H'. by rewrite lookup_empty in H'.
Qed.

Lemma trun_put i g σ t x p a sz v junk ws' held' ls ls' e evs rec :
  trun g σ i (twith t x p) PActive evs rec ls [] → acc_ok acc (WrAcc a sz v junk) → own σ (lock_of (align_down_8 a)) = Some i →
  wset_wf ws' → wset_map ws' = <[align_down_8 a := e]> (wset_map (x_wset x)) → wt_version e = Z.of_nat (ver σ (lock_of (align_down_8 a))) →
  (∀ y, word_base y = align_down_8 a → byte_at (wt_old e) (y mod 8) = mget (lmem σ) y) →
  leaves rec.*1 (x_wset x) (WrAcc a sz v junk) (wt_new e) → own_rel σ i ls' →
  (∀ ℓ, ℓ ∈ held' → ℓ ∈ x_held x ∨ ℓ = lock_of (align_down_8 a)) →
  trun g σ i (twith t (ttx_writes x ws' held') p) PActive (evs ++ [EvW a sz v]) rec ls' (word_stores (align_down_8 a) (wt_new e)).
Proof using Type.
  clear Hn.
  intros (Hp & Ha & X & W & Ho & Hm) Hk Hown Hwf Hmap Hver Hold Hlv Ho' Hh. pose proof Hk as [_ [Hw64 Hin]%access_ok_spec].
  destruct (acc_word acc _ Hk) as (Hal64 & Hal & _). change (word_addr (WrAcc a sz v junk)) with (align_down_8 a) in *.
  split_and!; [done|done| | |done|].
  - destruct X as [H1 H2 H3 H4 H5 H6 H7 H8]. split; try done. by eapply wtlog_write.
  - destruct W as [H1 H2 H3]. split; [done| |].
    + cbn. rewrite Hmap. intros a' e' [[<- <-]|[_ He']]%lookup_insert_Some; [|by apply H2]. split_and!; [by exists (WrAcc a sz v junk)|done..].
    + intros ℓ [Hℓ| ->]%Hh; cbn.
      * destruct (H3 ℓ Hℓ) as (a' & He' & ?). exists a'. split; [|done]. rewrite Hmap. apply lookup_insert_is_Some'. by right.
      * exists (align_down_8 a). rewrite Hmap, lookup_insert_eq. split; [by eexists|done].
  - destruct Hm as (Hx & _ & _). split_and!.
    + intros y Hy. rewrite word_stores_mget, (over_insert _ _ _ _ _ _ _ Hmap). specialize (Hx y Hy). simpl in Hx.
      pose proof (word_base_eq (align_down_8 a) y Hal). case_decide; case_decide; try tauto. f_equal. pose proof (word_base_split y). lia.
    + intros y Hy%word_stores_addr. rewrite (lock_of_word (align_down_8 a) y); [done..|]. by apply word_base_eq.
    + apply word_stores_bytes.
Qed.

(** [write_word_wt] up to its first shared access. *)
Lemma write_word_rel i g σ t x k w rec :
  x_id x = tid i → acc_ok acc k → trun g σ i (twith t x TIdle) PActive (y_log t) rec (x_held x) [] → leaves rec.*1 (x_wset x) k w →
  tt_rel g σ i (write_word t x k w).
Proof using Type.
  intros Hid Hk R Hlv. destruct k as [|a sz v junk]; [done|]. pose proof R as (_ & _ & X & W & Ho & _). simpl in W, Ho. pose proof (wr_wf _ _ _ _ _ W) as Hwf.
  unfold write_word. change (word_addr (WrAcc a sz v junk)) with (align_down_8 a). pose proof (ws_find_lookup (x_wset x) (align_down_8 a) Hwf) as Hf.
  destruct (ws_pos (x_wset x) (align_down_8 a)) as [j|] eqn:Hj.
  - apply ws_pos_spec in Hj; [|done]. destruct (ws_find (x_wset x) (align_down_8 a)) as [e|] eqn:He.
    + set (e' := WLT (wt_old e) w (wt_version e) (wt_inc e)). destruct (wr_word _ _ _ _ _ W _ e (eq_sym Hf)) as (_ & Hown & Hver & Hold).
      split; [done|]. split; [done|]. pose proof (ws_assign_map (x_wset x) j _ e' Hwf Hj) as Hmap. split.
      * intros _. by eapply map_nonempty.
      * exists rec. eapply (trun_put i g σ t x _ a sz v junk (ws_assign (x_wset x) j e') (x_held x) (x_held x) (x_held x) e'); try done.
        { by apply ws_assign_wf. } { intros ℓ ?. by left. }
    + exfalso. apply keys_lookup in Hj as [e He']. assert (wset_map (x_wset x) !! align_down_8 a = Some e); [|congruence].
      apply wset_map_lookup; [apply Hwf|]. by exists j.
  - assert (Hnone : wset_map (x_wset x) !! align_down_8 a = None).
    { rewrite <- Hf. unfold ws_find. by rewrite Hj. }
    split; [done|]. split; [by split|]. split; [done|]. exists rec. split; [|done]. destruct R as (Hp & Ha & X' & W' & Ho' & Hm). split_and!; try done.
    destruct X' as [H1 H2 H3 H4 H5 H6 H7 H8]. by split.
Qed.

(** Return of [read_word_wt]. *)
Lemma read_done_rel i g σ t x k word rec :
  x_id x = tid i → acc_ok acc k → trun g σ i (twith t x TIdle) PActive (y_log t) rec (x_held x) [] →
  match k with RdAcc _ _ => wrote (twith t x TIdle) | WrAcc _ sz _ _ => nbytes_of sz ≠ 8 end →
  sees rec.*1 (x_wset x) (word_addr k) word → tt_rel g σ i (wt_read_done t x k word).
Proof using Hmg.
  intros Hid Hk R Hw Hs. pose proof Hk as [Hka [Hw64 Hin]%access_ok_spec]. destruct k as [a sz|a sz v junk].
  - split; [done|]. destruct R as (Hp & Ha & X & W & Ho & Hm). unfold tpc_rel. cbn in Ha |- *. rewrite Ha. split; [done|]. exists rec. split_and!; try done.
    destruct X as [H1 H2 H3 H4 H5 H6 H7 H8]. split; try done. by apply wtlog_read.
  - eapply write_word_rel; [done..|]. apply leaves_merge; try done. by apply Hmg.
Qed.

(** ** Reads *)

(** The lock of a word outside the write set is not the thread's own. *)
Lemma miss_unowned i g σ t k p evs rec st :
  kmiss acc t k → trun g σ i t p evs rec (x_held (y_tx t)) st → own σ (lock_of (word_addr k)) ≠ Some i.
Proof using Hinj.
  intros [Hk Hnone] (_ & _ & _ & W & [_ Ho] & _) Hi. apply Ho, (wr_held _ _ _ _ _ W) in Hi as (a & [e He] & Hl).
  destruct (wr_word _ _ _ _ _ W _ _ He) as (Hw & _). apply (word_ok_inj acc) in Hl; [|done|done|by exists k]. subst a. congruence.
Qed.

(** The loads of a word, checked while the snapshot has not been extended. *)
Lemma load_word_steps i σ t k bs rec evs :
  lv_inv σ → ph (thr σ i) = PActive → ttx_rel acc σ i (y_tx t) evs rec → acc_ok acc k → length bs = 8%nat → own σ (lock_of (word_addr k)) = None →
  Z.of_nat (ver σ (lock_of (word_addr k))) ≤ x_end (y_tx t) → (∀ j b, bs !! j = Some b → mget (lmem σ) (word_addr k + Z.of_nat j) = b) →
  let v := ver σ (lock_of (word_addr k)) in
  ∃ σ' F, lv_steps i σ σ' ∧ upd i σ σ' (LVT PActive (taken (word_addr k) v bs ++ rec) [] F) ∧ fixd (thr σ i) ⊆ F ∧
    (x_end (y_tx t) = x_start (y_tx t) → ∀ a val u, (a, val, u) ∈ taken (word_addr k) v bs → (a, val, u, S (Z.to_nat (x_start (y_tx t)))) ∈ F).
Proof.
  intros I Hp X Hk Hlen Ho Hle Hm v. pose proof (xr_end _ _ _ _ _ _ X) as Hend.
  assert (Hl : ∀ j, (j < length bs)%nat → lock_of (word_addr k + Z.of_nat j) = lock_of (word_addr k)).
  { intros j Hj. apply (acc_byte acc k j Hk). lia. }
  destruct (load_steps lock_of i σ (word_addr k) v bs Hp) as (σ1 & Hs1 & U1); [intros j Hj; by rewrite Hl|done|].
  rewrite (xr_rds _ _ _ _ _ _ X), (xr_lrds _ _ _ _ _ _ X) in U1.
  destruct (decide (x_end (y_tx t) = x_start (y_tx t))) as [Heq|Hne]; [|by exists σ1, (fixd (thr σ i))].
  pose proof U1 as [_ Uc Uv Uo _ _ Ut]. destruct (check_steps lock_of i σ1 (S (Z.to_nat (x_start (y_tx t)))) (taken (word_addr k) v bs)) as (σ2 & F & Hs2 & U2 & HF & Hnew).
  - by rewrite Ut.
  - rewrite Uc. lia.
  - intros a val u Hin. pose proof Hin as (-> & j & Hj & ->)%taken_elem. apply lookup_lt_Some in Hj. rewrite Ut, Uo, Uv, Hl by done. simpl.
    split_and!; [apply elem_of_app; by left|by left|lia|lia].
  - rewrite Ut in U2, HF. exists σ2, F. split_and!; [by etrans|by eapply upd_trans|done|done].
Qed.

Lemma trun_read i g σ t k bs rec c :
  lv_inv σ → tact acc g σ i t rec → kmiss acc t k → length bs = 8%nat → own σ (lock_of (word_addr k)) = None →
  Z.of_nat (ver σ (lock_of (word_addr k))) ≤ x_end (y_tx t) → (∀ j b, bs !! j = Some b → mget (lmem σ) (word_addr k + Z.of_nat j) = b) →
  let v := ver σ (lock_of (word_addr k)) in
  let x := ttx_read (y_tx t) (RLT (word_addr k) (Z.of_nat v) c (le_word bs)) in
  ∃ σ' T, lv_steps i σ σ' ∧ upd i σ σ' T ∧ trun g σ' i (twith t x TIdle) PActive (y_log t) (taken (word_addr k) v bs ++ rec) (x_held x) [].
Proof.
  intros I (Hp & Ha & X & W & Ho & Hm) [Hk Hnone] Hlen Hfree Hle Hbs v x.
  destruct (load_word_steps i σ t k bs rec _ I Hp X Hk Hlen Hfree Hle Hbs) as (σ' & F & Hs & U & HF & Hnew). fold v in U, Hnew.
  exists σ'. eexists. split; [done|]. split; [done|]. split_and!; [by rewrite (up_thr _ _ _ _ U)|done| |by eapply wset_rel_upd|by eapply own_upd|].
  - destruct X as [H1 H2 H3 H4 H5 H6 H7 H8]. split; rewrite ?(up_thr _ _ _ _ U), ?(up_clk _ _ _ _ U); try done.
    + eapply wtlog_mono; [|done]. intros ab Hab. rewrite fmap_app. apply elem_of_app. by right.
    + intros a val u [Hin|Hin]%elem_of_app.
      * apply taken_elem in Hin as (-> & j & Hj & ->). eexists. split; [apply elem_of_app; right; left|]. split; [|done]. simpl.
        apply lookup_lt_Some in Hj. symmetry. apply (acc_byte acc k j Hk). lia.
      * destruct (H4 a val u Hin) as (r & ? & ? & ?). exists r. split; [apply elem_of_app; by left|done].
    + intros r [Hr|Hr%list_elem_of_singleton]%elem_of_app; [by apply H5|]. subst r. by exists k.
    + intros He a val u [Hin|Hin]%elem_of_app; [by apply Hnew|]. by apply HF, H7.
  - cbn. rewrite (up_mem _ _ _ _ U). by eapply own_mem_upd.
Qed.

Lemma twt_recheck_sim i g σ t k l c bs g' t' :
  lv_inv σ → tg_rel g σ → tt_rel g σ i t → y_pc t = RRecheck k l c bs → wt_read_step g t = Some (g', t') → wtsim i g σ (g', t').
Proof using Hn Hmg.
  intros I G [Hid Hpc] Heq Hs. unfold tpc_rel in Hpc. rewrite Heq in Hpc. destruct Hpc as ((Hk & Hrd & rec & R) & Hseen & [Hb Hm] & Hlen).
  unfold wt_read_step in Hs. rewrite Heq in Hs. injection Hs as <- <-. pose proof Hseen as (v & ci & -> & Hv & Hc & _ & Hle).
  destruct (tg_lock g σ (lock_of (word_addr k)) I G) as (c' & Hc' & Hv' & Ho' & Hl).
  destruct (Z.eqb_spec (iword v ci None) (tlock g (word_addr k))) as [Hw|Hw]; cbn [negb].
  - unfold tlock in Hw, Hm. pose proof Hw as Hw'. rewrite Hl in Hw'. apply iword_inj in Hw' as (-> & -> & Hfree); [|done..].
    rewrite iword_version, iword_inc by done. destruct (Z.ltb_spec (x_end (y_tx t)) (Z.of_nat (ver σ (lock_of (word_addr k))))) as [Hlt|Hge].
    + destruct (x_ro (y_tx t)) eqn:Hro; [by eapply wt_abort_sim|]. apply wtsim_stay; [done|]. split; [done|].
      split_and!; [split_and!; [done..|by exists rec]|done|done|]. by rewrite iword_version.
    + destruct (trun_read i g σ t k bs rec c' I R Hk Hlen) as (σ' & T & Hst & U & R'); [done|done|intros j b; apply Hm; by rewrite Hw|].
      eapply wtsim_upd; [done..|]. eapply read_done_rel; [done|apply Hk|exact R'|done|]. eapply sees_read; [|done|done|apply Hk|done].
      by apply (acc_word acc), Hk.
  - apply wtsim_stay; [done|]. split; [done|]. split; [split_and!; [done..|by exists rec]|]. exists (own σ (lock_of (word_addr k))).
    unfold tlock. rewrite Hl. eexists _, _. split_and!; [done..|]. unfold tlock. by rewrite Hl.
Qed.

Lemma read_byte_sim i g σ t k l c bs :
  lv_inv σ → tg_rel g σ → x_id (y_tx t) = tid i → rmiss acc g σ i t k → tseen g k l None → bytes_seen g σ k l bs → (length bs < 8)%nat →
  wtsim i g σ (g, tgoto t (if word_read (word_byte g k bs) then RRecheck k l c (word_byte g k bs) else RBytes k l c (word_byte g k bs))).
Proof using Hn.
  intros I G Hid Hr Hseen [Hb Hm] Hlen. apply wtsim_stay; [done|]. split; [done|].
  assert (Hlen' : length (word_byte g k bs) = S (length bs)) by (unfold word_byte, next_byte; rewrite length_app; simpl; lia).
  assert (Hbs : bytes_seen g σ k l (word_byte g k bs)).
  { split; [apply Forall_app; split; [done|]; apply Forall_singleton, (gt_bytes _ _ _ G)|]. intros Hrank j b Hj.
    unfold word_byte, next_byte in Hj. apply lookup_app_Some in Hj as [Hj|[Hge Hj]]; [by apply Hm|].
    apply list_lookup_singleton_Some in Hj as [Hj <-]. assert (j = length bs) as -> by lia. symmetry. apply (gt_free _ _ _ G).
    destruct Hr as ((Hk & _) & _). destruct (acc_byte acc k (length bs) Hk Hlen) as [_ ->].
    destruct Hseen as (v & ci & -> & ? & ? & _). destruct (tg_lock g σ (lock_of (word_addr k)) I G) as (c' & ? & ? & ? & Hl).
    unfold tlock in Hrank. rewrite Hl in Hrank. by apply rank_free in Hrank as (_ & _ & ?). }
  unfold tpc_rel, word_read, all_read. cbn [y_pc tgoto]. destruct (Nat.leb_spec (type_size UINT64) (length (word_byte g k bs))) as [Hfull|Hpart]; simpl in *.
  - split_and!; [done..|lia].
  - split_and!; [done..|lia].
Qed.

Lemma wt_read_sim i g σ t g' t' :
  lv_inv σ → tg_rel g σ → tt_rel g σ i t → wt_read_step g t = Some (g', t') → wtsim i g σ (g', t').
Proof using Hn Hmg Hinj.
  intros I G Ht Hs. pose proof Ht as [Hid Hpc]. unfold tpc_rel in Hpc. pose proof Hs as Hs'. unfold wt_read_step in Hs'.
  destruct (y_pc t) as [| |k|k bs|k|k l c|k l c bs|k l c bs| | | | | | | | | | | | | | | | | | | | | | | |] eqn:Heq; try done.
  - injection Hs' as <- <-. destruct (tg_lock g σ (lock_of (word_addr k)) I G) as (c' & ? & ? & ? & Hl). apply wtsim_stay; [done|]. split; [done|].
    unfold tlock. rewrite Hl, Hid, iword_locked_by by done. destruct Hpc as (Hk & ? & rec & R). rewrite bool_decide_false by by eapply miss_unowned.
    split_and!; [done..|by exists rec].
  - injection Hs' as <- <-. destruct (tg_lock g σ (lock_of (word_addr k)) I G) as (c' & ? & ? & ? & Hl). apply wtsim_stay; [done|]. split; [done|].
    split; [done|]. exists (own σ (lock_of (word_addr k))). eexists _, _. unfold tlock. rewrite Hl. by split_and!.
  - destruct Hpc as (Hr & o & Hseen). pose proof Hseen as (v & ci & -> & ? & ? & ? & ?). rewrite iword_locked in Hs' by done. destruct o as [j|].
    + rewrite bool_decide_true in Hs' by done. pose proof Hr as (_ & _ & rec & R). destruct (SPIN_LIMIT <? c + 1); injection Hs' as <- <-; [by eapply wt_abort_sim|].
      destruct (tg_lock g σ (lock_of (word_addr k)) I G) as (c' & ? & ? & ? & Hl). apply wtsim_stay; [done|]. split; [done|].
      split; [done|]. exists (own σ (lock_of (word_addr k))). eexists _, _. unfold tlock. rewrite Hl. by split_and!.
    + rewrite bool_decide_false in Hs' by (by intros [? ?]). injection Hs' as <- <-. apply wtsim_stay; [done|]. split; [done|].
      split_and!; [done|done| |simpl; lia]. split; [by apply Forall_nil_2|]. intros _ j b Hj. by rewrite lookup_nil in Hj.
  - injection Hs' as <- <-. destruct Hpc as (? & ? & ? & ?). by apply read_byte_sim.
  - by eapply twt_recheck_sim.
Qed.

(** ** Extension *)

Lemma twt_extended_sim i g σ t k l c last :
  tg_rel g σ → x_id (y_tx t) = tid i → textending acc g σ i t k l → get_version l ≤ last ≤ Z.of_nat (clk σ) →
  let t' := twith t (ttx_extended (y_tx t) last) (RLoop k l c) in
  wtsim i g σ (g, if last <? get_version l then tabort t' else t').
Proof.
  intros G Hid ((Hk & Hrd & rec & (Hp & Ha & X & W & Ho & Hm)) & Hseen & Hro & Hend) Hlast t'.
  destruct (Z.ltb_spec last (get_version l)); [lia|]. apply wtsim_stay; [done|]. split; [done|]. split; [|by exists None].
  split; [done|]. split; [by destruct k|]. exists rec. split_and!; try done. destruct X as [H1 H2 H3 H4 H5 H6 H7 H8]. split; try done; simpl.
  - lia.
  - intros ?. lia.
  - congruence.
Qed.

Lemma textend_sim i g σ t g' t' :
  lv_inv σ → tg_rel g σ → tt_rel g σ i t → wt_extend_step g t = Some (g', t') → wtsim i g σ (g', t').
Proof using Hn.
  intros I G Ht Hs. pose proof Ht as [Hid Hpc]. unfold tpc_rel in Hpc. unfold wt_extend_step in Hs.
  assert (Hv : ∀ k l, textending acc g σ i t k l → get_version l ≤ Z.of_nat (clk σ)).
  { intros k l (_ & (v & c & -> & ? & Hc & ? & Hr) & _). destruct (tg_lock g σ (lock_of (word_addr k)) I G) as (c' & Hc' & ? & ? & Hl).
    unfold tlock in Hr. rewrite Hl, !rank_iword in Hr by done. rewrite iword_version by done. pose proof (iv_ver _ _ σ I (lock_of (word_addr k))).
    unfold inc_ok in *. destruct (own σ _); lia. }
  destruct (y_pc t) as [| | | | | | | |k l c rs|k l c|k l c|k l c last rs| | | | | | | | | | | | | | | | | | | |] eqn:Heq; try done.
  - destruct rs as [|r rs]; injection Hs as <- <-; (apply wtsim_stay; [done|]); (split; [done|]); [done|]. by destruct (_ <? _).
  - destruct (clock_resetting g); injection Hs as <- <-; [by apply wtsim_stay|]. rewrite (gt_clock _ _ _ G). apply twt_extended_sim; try done.
    specialize (Hv _ _ Hpc). lia.
  - destruct (clock_resetting g); injection Hs as <- <-; [by apply wtsim_stay|]. rewrite (gt_clock _ _ _ G). apply wtsim_stay; [done|]. split; [done|].
    split; [done|]. specialize (Hv _ _ Hpc). lia.
  - destruct Hpc as [He Hlast]. destruct rs as [|r rs]; injection Hs as <- <-; [by apply twt_extended_sim|]. destruct (_ <? _).
    + destruct He as ((_ & _ & rec & R) & _). by eapply wt_abort_sim.
    + by apply wtsim_stay.
Qed.

(** ** Writes *)

(** Taking a free lock. *)
Lemma twt_acquire_sim i g σ t k w c :
  lv_inv σ → tg_rel g σ → (i < n)%nat → x_id (y_tx t) = tid i → wmiss acc g σ i t k w (x_held (y_tx t)) → inc_ok c →
  g_locks (tg g) (lock_of (word_addr k)) = iword (ver σ (lock_of (word_addr k))) c None → own σ (lock_of (word_addr k)) = None →
  wtsim i g σ (tset_lock g (lock_of (word_addr k)) (iword (ver σ (lock_of (word_addr k))) c (Some i)), tgoto t (WAcquired k w)).
Proof using Hn.
  intros I G Hi Hid (Hk & Hro & rec & (Hp & Ha & X & W & Ho & Hm) & Hlv) Hc Hl Hfree. set (ℓ := lock_of (word_addr k)) in *.
  assert (Hv : ver_ok (ver σ ℓ)) by (eapply tg_ver_ok; [done|apply (iv_ver _ _ σ I)]). pose proof (tid_ok n Hn i Hi) as Hti.
  exists (set_own σ ℓ (Some i)). split_and!.
  - apply rtc_once. by apply lv_acquire.
  - destruct G as [H1 H2 H3 H4 H5 H6 H7 H8]. split; try done.
    + intros x. simpl. destruct (decide (lock_of x = ℓ)) as [->|]; [by rewrite fn_lookup_insert|]. rewrite fn_lookup_insert_ne by done. apply H2.
    + intros ℓ'. simpl. destruct (decide (ℓ' = ℓ)) as [->|]; [exists c; by rewrite !fn_lookup_insert|]. rewrite !fn_lookup_insert_ne by done. apply H5.
    + intros ℓ' j. simpl. destruct (decide (ℓ' = ℓ)) as [->|]; [rewrite fn_lookup_insert; by intros [= <-]|]. rewrite fn_lookup_insert_ne by done. apply H6.
  - split; [done|]. split; [done|]. split; [done|]. exists rec. split; [|done]. split_and!; [done|done| | | |].
    + destruct X as [? ? ? ? ? ? ? ?]. by split.
    + destruct W as [H1 H2 H3]. split; try done. intros a e He. destruct (H2 a e He) as (? & Hown & ? & ?). split_and!; try done. simpl.
      rewrite fn_lookup_insert_ne; [done|]. intros Hla. rewrite <- Hla in Hown. congruence.
    + destruct Ho as [Hnd Hown]. split.
      * constructor; [|done]. intros Hin%Hown. fold ℓ in Hin. congruence.
      * intros ℓ'. simpl. unfold locks_with. rewrite elem_of_cons. fold ℓ. destruct (decide (ℓ' = ℓ)) as [->|]; [rewrite fn_lookup_insert; naive_solver|].
        rewrite fn_lookup_insert_ne by done. rewrite Hown. naive_solver.
    + destruct Hm as (Hx & _ & Hb). split_and!; [|by intros x ?%elem_of_nil|done]. intros x. simpl.
      destruct (decide (lock_of x = ℓ)) as [Hxl|]; [|rewrite fn_lookup_insert_ne by done; apply Hx]. intros _.
      rewrite (gt_free _ _ _ G) by congruence. unfold over. destruct (wset_map _ !! word_base x) as [e|] eqn:He; [|done]. exfalso.
      destruct (wr_word _ _ _ _ _ W _ _ He) as (Hw & Hown & _). rewrite <- (word_lock acc (word_base x) x) in Hown by done. congruence.
  - split; try done.
    + intros ℓ'. simpl. destruct (decide (ℓ' = ℓ)) as [->|]; [|by rewrite fn_lookup_insert_ne]. rewrite fn_lookup_insert, Hl, !rank_iword by done. lia.
    + intros ℓ' j Hj ?. simpl. rewrite fn_lookup_insert_ne; [done|]. intros ->. congruence.
Qed.

Lemma twt_failed_rel i g σ t k w l c : x_id (y_tx t) = tid i → wmiss acc g σ i t k w (x_held (y_tx t)) → tt_rel g σ i (tgoto t (WFailed k w l c)).
Proof. intros. by split. Qed.

Lemma twt_cas_sim i g σ t k w l c e d g' t' :
  lv_inv σ → tg_rel g σ → (i < n)%nat → tt_rel g σ i t → y_pc t = WCas k w l c e d → wt_lock_step g t = Some (g', t') → wtsim i g σ (g', t').
Proof using Hn.
  intros I G Hi [Hid Hpc] Heq Hs. unfold tpc_rel in Hpc. rewrite Heq in Hpc. destruct Hpc as (Hw & v & ci & Hv & Hc & -> & ->).
  unfold wt_lock_step, compare_exchange_strong in Hs. rewrite Heq in Hs. unfold tlock in Hs.
  destruct (tg_lock g σ (lock_of (word_addr k)) I G) as (c' & Hc' & Hv' & Ho' & Hl).
  destruct (Z.eqb_spec (g_locks (tg g) (lock_of (word_addr k))) (iword v ci None)) as [Hcur|Hcur]; injection Hs as <- <-.
  - pose proof Hcur as Hcur'. rewrite Hl in Hcur'. apply iword_inj in Hcur' as (<- & <- & Hfree); [|done..]. by apply twt_acquire_sim.
  - apply wtsim_stay; [done|]. by apply twt_failed_rel.
Qed.

Lemma wt_lock_sim i g σ t g' t' :
  lv_inv σ → tg_rel g σ → (i < n)%nat → tt_rel g σ i t → wt_lock_step g t = Some (g', t') → wtsim i g σ (g', t').
Proof using Hn Hinj.
  intros I G Hi Ht Hs. pose proof Ht as [Hid Hpc]. unfold tpc_rel in Hpc. pose proof Hs as Hs'. unfold wt_lock_step in Hs'.
  destruct (y_pc t) as [| | | | | | | | | | | |k w c|k w l c|k w l c e d|k w l c|k w c|k w c|k w c ts|k w l c|k w| | | | | | | | | | |] eqn:Heq; try done;
    try (destruct (tg_lock g σ (lock_of (word_addr k)) I G) as (c' & Hc' & Hv' & Ho' & Hl); unfold tlock in Hs').
  - injection Hs' as <- <-. apply wtsim_stay; [done|]. split; [done|]. by destruct (is_locked _).
  - rewrite Hid, Hl in Hs'. destruct (own σ (lock_of (word_addr k))) as [j|].
    + rewrite iword_try_held in Hs' by done. injection Hs' as <- <-. by apply wtsim_stay.
    + rewrite iword_try_free in Hs' by (done || by apply (tid_ok n)). injection Hs' as <- <-. apply wtsim_stay; [done|]. split; [done|].
      split; [done|]. by eexists _, _.
  - by eapply twt_cas_sim.
  - injection Hs' as <- <-. destruct Hpc as (Hk & ? & rec & R & ?). rewrite Hl, Hid, iword_locked_by by done.
    rewrite bool_decide_false by by eapply miss_unowned. apply wtsim_stay; [done|]. split; [done|]. split_and!; [done..|by exists rec].
  - destruct (_ || _); injection Hs' as <- <-; [|by apply wtsim_stay]. destruct Hpc as (_ & _ & rec & R & _). by eapply wt_abort_sim.
  - unfold SpinToken.tm_token_try_acquire in Hs'. destruct (_ =? _); injection Hs' as <- <-.
    + exists σ. split_and!; [done|by apply tg_token|by split|by apply guar_refl].
    + destruct Hpc as (_ & _ & rec & R & _). eapply wt_abort_sim; [by apply tg_token|done..].
  - destruct (is_locked _); [|injection Hs' as <- <-; by apply wtsim_stay]. destruct (_ <? _); injection Hs' as <- <-; [|by apply wtsim_stay].
    destruct Hpc as (_ & _ & rec & R & _). by eapply wt_abort_sim.
  - pose proof Hpc as (Hk & ? & rec & R & ?). rewrite Hl, Hid, iword_locked_by, bool_decide_false in Hs' by (done || by eapply miss_unowned).
    destruct (_ <? _); injection Hs' as <- <-; [by eapply wt_abort_sim|by apply wtsim_stay].
  - injection Hs' as <- <-. apply wtsim_stay; [done|]. split; [done|]. split; [done|]. split; [done|]. split; [|simpl; lia].
    rewrite Hl, iword_version by done. split_and!; [done|by apply Forall_nil_2|]. intros j b Hj. by rewrite lookup_nil in Hj.
Qed.

(** A store under the thread's own lock. *)
Lemma tg_store g σ i a b st f :
  tg_rel g σ → own_mem g σ i ((a, b) :: st) f →
  tg_rel (tset_mem g (<[a := b]> (g_mem (tg g)))) σ ∧ own_mem (tset_mem g (<[a := b]> (g_mem (tg g)))) σ i st f ∧
  tguar i g σ (tset_mem g (<[a := b]> (g_mem (tg g)))) σ.
Proof.
  intros G (Hx & Hst & Hb). assert (Ha : own σ (lock_of a) = Some i) by (apply Hst; left). apply Forall_cons in Hb as [Hb Hb'].
  assert (Hne : ∀ x, own σ (lock_of x) ≠ Some i → mget (<[a := b]> (g_mem (tg g))) x = mget (g_mem (tg g)) x).
  { intros x Hxo. unfold mget. rewrite lookup_insert_ne; [done|]. intros ->. done. }
  split_and!.
  - destruct G as [H1 H2 H3 H4 H5 H6 H7 H8]. split; try done.
    + intros x. cbn. unfold mget. destruct (decide (x = a)) as [->|]; [by rewrite lookup_insert_eq|]. rewrite lookup_insert_ne by done. apply H1.
    + intros x Hxo. cbn. rewrite Hne by congruence. by apply H2.
  - split_and!; [done| |done]. intros x Hin. apply Hst. by right.
  - by split.
Qed.

Lemma old_byte_sim i g σ t k w version bs :
  tg_rel g σ → x_id (y_tx t) = tid i → wmiss acc g σ i t k w (locks_with t k) → old_word σ k version bs → (length bs < 8)%nat →
  old_word σ k version (word_byte g k bs).
Proof.
  intros G Hid ((Hk & Hnone) & _ & rec & (_ & _ & _ & _ & [_ Ho] & (Hx & _)) & _) (Hv & Hb & Hm) Hlen. split_and!; [done| |].
  - apply Forall_app. split; [done|]. apply Forall_singleton, (gt_bytes _ _ _ G).
  - intros j b Hj. unfold word_byte, next_byte in Hj. apply lookup_app_Some in Hj as [Hj|[Hge Hj]]; [by apply Hm|].
    apply list_lookup_singleton_Some in Hj as [Hj <-]. assert (j = length bs) as -> by lia. destruct (acc_byte acc k (length bs) Hk Hlen) as [Hbase Hl].
    specialize (Hx (word_addr k + Z.of_nat (length bs))). simpl in Hx. rewrite Hx; [|rewrite Hl; apply Ho; left]. unfold over. by rewrite Hbase, Hnone.
Qed.

Lemma twt_put_rel i g σ t k w version inc bs :
  x_id (y_tx t) = tid i → wmiss acc g σ i t k w (locks_with t k) → old_word σ k version bs → length bs = 8%nat →
  tt_rel g σ i (twith t (ttx_writes (y_tx t) (ws_put wlt_none (x_wset (y_tx t)) (word_addr k) (WLT (le_word bs) w version inc))
                           (x_held (y_tx t) ++ [lock_of (word_addr k)])) (WStore k (word_stores (word_addr k) w))).
Proof.
  intros Hid ((Hk & Hnone) & Hro & rec & R & Hlv) (Hv & Hb & Hm) Hlen. split; [done|]. destruct k as [|a sz v junk]; [done|].
  change (word_addr (WrAcc a sz v junk)) with (align_down_8 a) in *. pose proof R as (_ & _ & _ & W & [Hnd Ho] & _).
  destruct (ws_put_map wlt_none (x_wset (y_tx t)) (align_down_8 a) (WLT (le_word bs) w version inc) (wr_wf _ _ _ _ _ W)) as [Hwf Hmap].
  split; [done|]. split; [intros _; by eapply map_nonempty|]. exists rec.
  eapply (trun_put i g σ t (y_tx t) _ a sz v junk _ _ (locks_with t (WrAcc a sz v junk)) (x_held (y_tx t) ++ [lock_of (align_down_8 a)]) (WLT (le_word bs) w version inc)); try done.
  - apply Ho. left.
  - intros y Hy. pose proof (word_base_split y) as [Hs Hr]. destruct (lookup_lt_is_Some_2 bs (Z.to_nat (y mod 8))) as [b Hj]; [lia|].
    rewrite <- (Z2Nat.id (y mod 8)) by lia. cbn [wt_old]. rewrite (byte_le_word bs _ b) by done. rewrite <- (Hm _ b Hj). f_equal. cbn. lia.
  - apply NoDup_cons in Hnd as [Hni Hnd]. split.
    + apply NoDup_app. split_and!; [done| |apply NoDup_singleton]. intros ℓ Hℓ ->%list_elem_of_singleton. done.
    + intros ℓ. rewrite Ho. unfold locks_with. rewrite elem_of_cons, elem_of_app, list_elem_of_singleton. tauto.
  - intros ℓ [?|?%list_elem_of_singleton]%elem_of_app; [by left|by right].
Qed.

Lemma tstore_sim i g σ t g' t' :
  tg_rel g σ → tt_rel g σ i t → wt_store_step g t = Some (g', t') → wtsim i g σ (g', t').
Proof.
  intros G [Hid Hpc] Hs. unfold tpc_rel in Hpc. unfold wt_store_step in Hs.
  destruct (y_pc t) as [| | | | | | | | | | | | | | | | | | | | |k w version inc acq bs|k st| | | | | | | | |] eqn:Heq; try done.
  - injection Hs as <- <-. destruct Hpc as (-> & Hw & Hold & Hlen). apply wtsim_stay; [done|].
    pose proof (old_byte_sim i g σ t k w version bs G Hid Hw Hold Hlen) as Hold'.
    assert (Hlen' : length (word_byte g k bs) = S (length bs)) by (unfold word_byte, next_byte; rewrite length_app; simpl; lia).
    unfold word_read, all_read. destruct (Nat.leb_spec (type_size UINT64) (length (word_byte g k bs))) as [Hfull|Hpart]; simpl in Hfull || simpl in Hpart.
    + apply twt_put_rel; try done. lia.
    + split; [done|]. split_and!; [done..|lia].
  - destruct k as [|a sz v junk]; [done|]. destruct Hpc as (Hro & Hwr & rec & (Hp & Ha & X & W & Ho & Hm)). destruct st as [|[b c] st]; injection Hs as <- <-.
    + apply wtsim_stay; [done|]. split; [done|]. unfold tpc_rel. cbn. rewrite Ha. split; [done|]. exists rec. by split_and!.
    + destruct (tg_store g σ i b c st _ G Hm) as (G' & Hm' & Hg). exists σ. split_and!; [done..| |done]. split; [done|]. split; [done|]. split; [done|].
      exists rec. by split_and!.
Qed.
End Sim.
