(* ===== verification/TinyWTCommit.v ===== *)
(** * TinySTM write-through: commits, aborts and calls against the versioned-lock machine

    The remaining steps of the simulation of [TinyWTSim], and the simulation of whole
    executions.  It holds as long as no incarnation has wrapped around. *)

From stdpp Require Import functions.
From S2P Require Import Prelude Memory Values TMSpec LogMerge TxLog Interleave TinyLock TinyWriteSet Support LockWord VersionedLocks TinyShared TinySim TinyWT TinyWTLog TinyWTRel TinyWTSim.
#[local] Open Scope Z_scope.
#[local] Arguments iword : simpl never.

(** The write-backs of a decided commit, all at once. *)
Lemma writeback_steps (lk : Z → Z) i σ cv st :
  ph (thr σ i) = PDec cv st →
  ∃ σ', rtc (lv_step lk i) σ σ' ∧ lmem σ' = wr (lmem σ) st ∧ clk σ' = clk σ ∧ ver σ' = ver σ ∧ own σ' = own σ ∧ hist σ' = hist σ ∧
    obs σ' = obs σ ∧ ph (thr σ' i) = PDec cv [].
Proof.
  revert σ. induction st as [|[a b] st IH]; intros σ Hp; [by exists σ|].
  destruct (IH (LVS (<[a := b]> (lmem σ)) (clk σ) (ver σ) (own σ) (hist σ) (<[i := LVT (PDec cv st) [] [] []]> (thr σ)) (obs σ)))
    as (σ' & Hs & ? & ? & ? & ? & ? & ? & ?); [simpl; by rewrite fn_lookup_insert|].
  exists σ'. split_and!; try done. eapply rtc_l; [by apply lv_writeback|done].
Qed.

Section Commit.
Context (m0 : mem) (n : nat) (acc : tacc → bool) (Hn : Z.of_nat n < MAX_THREADS).
Context (Hinj : own_locks acc) (Hmg : ∀ k, acc k = true → merges k).
Implicit Types (σ : lvs) (t : tthread) (g : tglobal).

#[local] Abbreviation lv_steps i := (rtc (lv_step lock_of i)).
#[local] Abbreviation lv_inv := (lv_inv lock_of m0).
#[local] Abbreviation tg_rel := (tg_rel n).
#[local] Abbreviation tt_rel := (tt_rel acc).
#[local] Abbreviation trun := (trun acc).
#[local] Abbreviation tg_lock := (tg_lock m0 n Hn).
#[local] Abbreviation wtsim := (wtsim n acc).

(** ** Commit *)

Lemma twt_increment_sim i g σ t g' t' :
  tg_rel g σ → tt_rel g σ i t → y_pc t = CInc → wt_commit_step g t = Some (g', t') → wtsim i g σ (g', t').
Proof.
  intros G [Hid Hpc] Heq Hs. unfold tpc_rel in Hpc. rewrite Heq in Hpc. destruct Hpc as [rec (Hp & Ha & X & W & Ho & Hm)].
  unfold wt_commit_step in Hs. rewrite Heq in Hs. destruct (Z.leb_spec VERSION_MAX (g_clock (tg g) + 1)) as [|Hmax]; [done|]. injection Hs as <- <-.
  pose proof (gt_clock _ _ _ G) as Hclk. pose proof (xr_end _ _ _ _ _ _ X) as Hend. destruct (Z.ltb_spec (g_clock (tg g) + 1) (x_end (y_tx t))); [lia|].
  set (ws := x_wset (y_tx t)) in *. pose proof (wset_rel_ok _ _ _ _ _ W) as Hok. eexists. split_and!.
  - apply rtc_once. apply (lv_increment _ _ σ (ws_words wt_new ws)); [done|]. intros a Hin.
    destruct (ws_words_addr wt_new _ a Hok Hin) as [e He]. destruct (wr_word _ _ _ _ _ W _ _ He) as (Hw & Hown & _). by rewrite (word_lock acc (word_base a)).
  - destruct G as [H1 H2 H3 H4 H5 H6 H7 H8]. split; try done; simpl; [lia|lia|]. intros s e evs Hin. destruct (H8 s e evs Hin) as (? & ? & ?). split_and!; [done|lia|lia|done].
  - split; [done|]. split; [simpl; lia|]. split; [cbn; destruct (_ <=? _); set_solver|]. exists rec. split.
    + split_and!; [|done| |by destruct W|done|done].
      * simpl. rewrite fn_lookup_insert. simpl. f_equal. lia.
      * destruct X as [H1 H2 H3 H4 H5 H6 H7 H8]. split; simpl; rewrite ?fn_lookup_insert; try done. lia.
    + intros a val v Hin. simpl. rewrite fn_lookup_insert. simpl. destruct (Z.leb_spec (g_clock (tg g) + 1) (x_start (y_tx t) + 1)) as [Hle|Hgt].
      * left. replace (Z.to_nat (g_clock (tg g) + 1)) with (S (Z.to_nat (x_start (y_tx t)))) by lia. apply (xr_fix _ _ _ _ _ _ X); [lia|done].
      * right. by eapply (xr_rec _ _ _ _ _ _ X).
  - by split.
Qed.

(** What a validated entry of the read set says about its lock. *)
Lemma validated_lock i g σ t r p evs rec st :
  lv_inv σ → tg_rel g σ → x_id (y_tx t) = tid i → trun g σ i t p evs rec (x_held (y_tx t)) st → r ∈ x_rset (y_tx t) →
  wt_validate_entry (y_tx t) (tlock g (rt_addr r)) r = true →
  (own σ (lock_of (rt_addr r)) = None ∨ own σ (lock_of (rt_addr r)) = Some i) ∧ Z.of_nat (ver σ (lock_of (rt_addr r))) = rt_version r.
Proof using Hn Hinj.
  intros I G Hid (_ & _ & X & W & [_ Ho] & _) Hr Hval. destruct (tg_lock g σ (lock_of (rt_addr r)) I G) as (c & Hc & Hv & Hok & Hl).
  unfold wt_validate_entry, tlock in Hval. rewrite Hl, Hid in Hval. fold (is_locked (iword (ver σ (lock_of (rt_addr r))) c (own σ (lock_of (rt_addr r))))) in Hval.
  rewrite iword_locked, iword_owned, iword_version, iword_inc in Hval by done. destruct (own σ (lock_of (rt_addr r))) as [j|] eqn:Hown.
  - rewrite bool_decide_true in Hval by done. simpl in Hval. destruct (bool_decide_reflect (Some j = Some i)) as [[= ->]|]; [|done]. split; [by right|].
    simpl in Hval. rewrite ws_find_lookup in Hval by apply (wr_wf _ _ _ _ _ W). pose proof Hown as Hin. apply Ho, (wr_held _ _ _ _ _ W) in Hin as (a & [e He] & Hla).
    destruct (wr_word _ _ _ _ _ W _ _ He) as (Hw & _ & Hver & _).
    apply (word_ok_inj acc) in Hla; [|done|done|by eapply (xr_rset _ _ _ _ _ _ X)]. subst a. rewrite He in Hval. apply Z.eqb_eq in Hval. lia.
  - rewrite bool_decide_false in Hval by (by intros [? ?]). simpl in Hval. split; [by left|]. destruct (Z.eqb_spec (Z.of_nat (ver σ (lock_of (rt_addr r)))) (rt_version r)); [done|].
    by rewrite orb_true_l in Hval.
Qed.

Lemma twt_validate_sim i g σ t cv r rs rec :
  lv_inv σ → tg_rel g σ → x_id (y_tx t) = tid i → 0 ≤ cv →
  trun g σ i t (PInc (Z.to_nat cv) (ws_words wt_new (x_wset (y_tx t)))) (y_log t) rec (x_held (y_tx t)) [] →
  ttodo σ i rec (r :: rs) (Z.to_nat cv) → r :: rs ⊆ x_rset (y_tx t) →
  wt_validate_entry (y_tx t) (tlock g (rt_addr r)) r = true → wtsim i g σ (g, tgoto t (CValid cv rs)).
Proof using Hn Hinj.
  intros I G Hid Hcv R Htodo Hsub Hval. assert (Hr : r ∈ x_rset (y_tx t)) by (apply Hsub; left). destruct (validated_lock i g σ t r _ _ _ _ I G Hid R Hr Hval) as [Hown Hver]. pose proof R as (Hp & _ & X & _).
  pose proof (xr_rset _ _ _ _ _ _ X r Hr) as Hw. destruct (iv_inc _ _ σ I i _ _ Hp) as ([? ?] & _ & _ & _ & Hlt). rewrite (xr_rds _ _ _ _ _ _ X) in Hlt.
  set (ok := λ e : Z * Z * nat, rt_addr r = word_base e.1.1 ∧ rt_version r = Z.of_nat e.2).
  destruct (check_steps lock_of i σ (Z.to_nat cv) (filter ok rec)) as (σ' & F & Hs & U & HF & Hnew).
  - by rewrite Hp.
  - lia.
  - intros a val v [[Hra Hrv] Hin]%list_elem_of_filter. simpl in Hra, Hrv. rewrite (word_lock acc (rt_addr r) a) by done.
    split_and!; [by rewrite (xr_rds _ _ _ _ _ _ X)|done|lia|by eapply Hlt].
  - eapply wtsim_upd; [done..|]. split; [done|]. split; [done|]. split; [intros r' ?; apply Hsub; by right|]. exists rec. rewrite Hp in U. rewrite (xr_rds _ _ _ _ _ _ X), (xr_lrds _ _ _ _ _ _ X) in U. split.
    + eapply trun_upd; [exact R|exact U|done|done|done|done].
    + intros a val v Hin. rewrite (up_thr _ _ _ _ U). simpl. destruct (Htodo a val v Hin) as [Hf|(r' & Hr' & Hra & Hrv)]; [left; by apply HF|].
      apply elem_of_cons in Hr' as [->|Hr']; [|right; by exists r']. left. apply Hnew. by apply list_elem_of_filter.
Qed.

(** The locks held are those of the words in the write set. *)
Lemma held_keys i σ ws held : wset_rel acc σ i ws held → own_rel σ i held → own_rel σ i (lock_of <$> keys (ws_vec ws)).
Proof using Hinj.
  intros W [Hnd Ho]. pose proof (wr_wf _ _ _ _ _ W) as Hwf. assert (Hkey : ∀ a, a ∈ keys (ws_vec ws) ↔ is_Some (wset_map ws !! a)).
  { intros a. unfold wset_map, keys. split.
    - intros Hin. apply list_elem_of_fmap in Hin as ([a' e] & -> & Hin). exists e. apply elem_of_list_to_map_1; [apply Hwf|done].
    - intros [e He]. apply elem_of_list_to_map_2 in He. apply list_elem_of_fmap. by exists (a, e). }
  split.
  - apply NoDup_fmap_2_strong; [|apply Hwf]. intros a a' [e He]%Hkey [e' He']%Hkey Hl.
    destruct (wr_word _ _ _ _ _ W _ _ He) as (? & _). destruct (wr_word _ _ _ _ _ W _ _ He') as (? & _). by apply (word_ok_inj acc).
  - intros ℓ. split.
    + intros Hℓ%Ho. destruct (wr_held _ _ _ _ _ W ℓ Hℓ) as (a & Ha & <-). apply list_elem_of_fmap. exists a. split; [done|by apply Hkey].
    + intros (a & -> & [e He]%Hkey)%list_elem_of_fmap. by destruct (wr_word _ _ _ _ _ W _ _ He) as (_ & ? & _).
Qed.

Lemma twt_decide_sim i g σ t cv rec :
  tg_rel g σ → x_id (y_tx t) = tid i → 0 ≤ cv →
  trun g σ i t (PInc (Z.to_nat cv) (ws_words wt_new (x_wset (y_tx t)))) (y_log t) rec (x_held (y_tx t)) [] → ttodo σ i rec [] (Z.to_nat cv) →
  wtsim i g σ (record_commit g cv (y_log t), tgoto t (CRel cv (keys (ws_vec (x_wset (y_tx t)))))).
Proof using Hinj.
  intros G Hid Hcv (Hp & Ha & X & W & Ho & (Hx & _)) Htodo. pose proof (wset_rel_ok _ _ _ _ _ W) as Hok. set (ws := x_wset (y_tx t)) in *.
  pose proof (xr_rds _ _ _ _ _ _ X) as Hrd. pose proof (xr_lrds _ _ _ _ _ _ X) as Hlr.
  assert (Hstep := lv_decide lock_of i σ _ _ Hp). rewrite Hrd, Hlr, app_nil_r in Hstep.
  match type of Hstep with _ → lv_step _ _ _ ?s => set (σ1 := s) in * end.
  destruct (writeback_steps lock_of i σ1 (Z.to_nat cv) (ws_words wt_new ws)) as (σ' & Hs & Hlm & Hck & Hvr & Hon & Hhi & Hob & Hph).
  { simpl. by rewrite fn_lookup_insert. }
  assert (Hlm' : ∀ x, mget (lmem σ') x = over wt_new ws (mget (lmem σ)) x) by (intros x; rewrite Hlm; by apply ws_words_mget).
  assert (Hlm2 : ∀ x, own σ (lock_of x) ≠ Some i → mget (lmem σ') x = mget (lmem σ) x).
  { intros x Hxo. rewrite Hlm'. unfold over. destruct (wset_map ws !! word_base x) as [e|] eqn:He; [|done]. exfalso. apply Hxo.
    destruct (wr_word _ _ _ _ _ W _ _ He) as (Hw & Hown & _). by rewrite (word_lock acc (word_base x)). }
  exists σ'. split_and!.
  - eapply rtc_l; [apply Hstep|done]. intros a val v Hin. destruct (Htodo a val v Hin) as [?|(r & Hr & _)]; [done|by apply elem_of_nil in Hr].
  - destruct G as [H1 H2 H3 H4 H5 H6 H7 H8]. split; rewrite ?Hck, ?Hvr, ?Hon, ?Hhi, ?Hob; simpl; try done.
    + intros x Hxo. rewrite Hlm2 by congruence. by apply H2.
    + intros c. destruct (decide (c = Z.to_nat cv)) as [->|]; [|by rewrite !lookup_insert_ne]. rewrite !lookup_insert_eq. intros m Hm.
      destruct (xr_log _ _ _ _ _ _ X m Hm) as (m' & ? & Hm'). exists m'. split; [done|]. intros x. rewrite Hm'. symmetry. by apply ws_words_mget.
  - split; [done|]. split_and!; [done|done| |].
    + eapply (held_keys i σ ws) in Ho; [|done]. unfold own_rel. rewrite Hon. exact Ho.
    + split_and!; [|by intros x ?%elem_of_nil|by apply Forall_nil_2]. intros x. rewrite Hon. intros Hxo. rewrite Hlm'. by apply Hx.
  - split; try done. intros ℓ _. by rewrite Hvr.
Qed.

(** A lock given back: what was under it is as in the abstract memory. *)
Lemma tg_give_back g σ σ' i ℓ s c :
  tg_rel g σ → own_mem g σ i [] (mget (lmem σ)) → own σ ℓ = Some i → lmem σ' = lmem σ → own σ' = <[ℓ := None]> (own σ) → clk σ' = clk σ →
  hist σ' = hist σ → obs σ' = obs σ → (∀ ℓ', ℓ' ≠ ℓ → ver σ' ℓ' = ver σ ℓ') → inc_ok c → s = iword (ver σ' ℓ) c None →
  tg_rel (tset_lock g ℓ s) σ' ∧ own_mem (tset_lock g ℓ s) σ' i [] (mget (lmem σ')).
Proof.
  intros [H1 H2 H3 H4 H5 H6 H7 H8] (Hx & _ & _) Ho Hm Hown Hc Hh Hb Hv Hci ->. split.
  - split; rewrite ?Hm, ?Hc, ?Hh, ?Hb, ?Hown; try done.
    + intros x. destruct (decide (lock_of x = ℓ)) as [Hxl|]; [intros _; apply Hx; congruence|]. rewrite fn_lookup_insert_ne by done. apply H2.
    + intros ℓ'. simpl. destruct (decide (ℓ' = ℓ)) as [->|]; [exists c; by rewrite !fn_lookup_insert|]. rewrite !fn_lookup_insert_ne, Hv by done. apply H5.
    + intros ℓ' j. destruct (decide (ℓ' = ℓ)) as [->|]; [by rewrite fn_lookup_insert|]. rewrite fn_lookup_insert_ne by done. apply H6.
  - rewrite Hm. split_and!; [|by intros x ?%elem_of_nil|by apply Forall_nil_2]. intros x. rewrite Hown.
    destruct (decide (lock_of x = ℓ)) as [->|]; [by rewrite fn_lookup_insert|]. rewrite fn_lookup_insert_ne by done. apply Hx.
Qed.

Lemma guar_give_back g g' σ σ' i ℓ s :
  own σ ℓ = Some i → lmem σ' = lmem σ → (∀ ℓ', ℓ' ≠ ℓ → ver σ' ℓ' = ver σ ℓ') → rank (g_locks (tg g) ℓ) ≤ rank s →
  g_locks (tg g') = <[ℓ := s]> (g_locks (tg g)) → g_mem (tg g') = g_mem (tg g) → tguar i g σ g' σ'.
Proof.
  intros Ho Hm Hv Hr Hl Hg. split; rewrite ?Hm, ?Hg, ?Hl; try done.
  - intros ℓ'. destruct (decide (ℓ' = ℓ)) as [->|]; [by rewrite fn_lookup_insert|by rewrite fn_lookup_insert_ne].
  - intros ℓ' j Hj ?. rewrite fn_lookup_insert_ne; [done|]. intros ->. congruence.
  - intros ℓ' Hℓ. apply Hv. intros ->. done.
Qed.

Lemma twt_release_sim i g σ t cv a as_ g' t' :
  lv_inv σ → tg_rel g σ → tt_rel g σ i t → y_pc t = CRelStore cv a as_ → wt_commit_step g t = Some (g', t') → wtsim i g σ (g', t').
Proof using Hn.
  intros I G [Hid Hpc] Heq Hs. unfold tpc_rel in Hpc. rewrite Heq in Hpc. destruct Hpc as (Hcv & Hp & Hown & Hm). cbn [fmap list_fmap] in Hown.
  assert (Ho : own σ (lock_of a) = Some i) by (apply Hown; left). destruct (tg_lock g σ (lock_of a) I G) as (c & Hc & Hv & Hok & Hl).
  destruct (iv_dec _ _ σ I i _ _ Hp) as (_ & Hle & _ & Hlt). specialize (Hlt _ Ho). assert (Hvc : ver_ok (Z.to_nat cv)) by (by eapply tg_ver_ok).
  unfold wt_commit_step, tlock in Hs. rewrite Heq, Hl, Hid, Ho in Hs. rewrite <- (Z2Nat.id cv) in Hs by done. rewrite Ho in Hok. rewrite iword_release in Hs by done.
  rewrite Z2Nat.id in Hs by done. injection Hs as <- <-. eexists. assert (inc_ok 0) as Hc0 by (unfold inc_ok; lia).
  destruct (tg_give_back g σ (LVS (lmem σ) (clk σ) (<[lock_of a := Z.to_nat cv]> (ver σ)) (<[lock_of a := None]> (own σ)) (hist σ) (thr σ) (obs σ)) i (lock_of a)
    (iword (Z.to_nat cv) 0 None) 0) as [G' Hm']; try done; simpl.
  { intros ℓ' Hne. by rewrite fn_lookup_insert_ne. } { by rewrite fn_lookup_insert. }
  split_and!; [apply rtc_once; by apply lv_release_version|exact G'| |].
  - split; [done|]. split_and!; [done|done|by eapply own_release|done].
  - apply (guar_give_back _ _ _ _ _ (lock_of a) (iword (Z.to_nat cv) 0 None)); try done; simpl.
    + intros ℓ' Hne. by rewrite fn_lookup_insert_ne.
    + rewrite Hl, Ho, !rank_iword by done. unfold inc_ok in *. lia.
Qed.

Lemma twt_finish_sim i g g' σ t p :
  tg_rel g' σ → g_locks (tg g') = g_locks (tg g) → g_mem (tg g') = g_mem (tg g) → own_rel σ i [] → x_id (y_tx t) = tid i →
  ph (thr σ i) = p → (∃ cv, p = PDec cv []) ∨ p = PAbort ∨ p = PActive → x_active (y_tx t) = false → y_pc t = TIdle ∨ y_pc t = CToken →
  wtsim i g σ (g', t).
Proof.
  intros G Hl Hm Hown Hid Hp Hph Hact Hpc. pose proof (upd_set_thr i σ (LVT PIdle [] [] [])) as U. exists (set_thr σ i (LVT PIdle [] [] [])). split_and!.
  - apply rtc_once. destruct Hph as [[cv ->]|Hph]; [apply (lv_finish _ _ _ cv)|apply (lv_finish _ _ _ O)]; try (by apply no_locks); [by left|]. right. by rewrite Hp.
  - by eapply wtg_upd.
  - split; [done|]. assert (tinactive (set_thr σ i (LVT PIdle [] [] [])) i t).
    { split_and!; [by rewrite (up_thr _ _ _ _ U)|done|by eapply own_upd]. }
    unfold tpc_rel. simpl. by destruct Hpc as [-> | ->]; rewrite ?Hact.
  - by eapply guar_upd.
Qed.

Lemma wt_commit_sim i g σ t g' t' :
  lv_inv σ → tg_rel g σ → tt_rel g σ i t → wt_commit_step g t = Some (g', t') → wtsim i g σ (g', t').
Proof using Hn Hinj Hmg.
  intros I G Ht Hs. pose proof Ht as [Hid Hpc]. unfold tpc_rel in Hpc. pose proof Hs as Hs'. unfold wt_commit_step in Hs'.
  destruct (y_pc t) as [| | | | | | | | | | | | | | | | | | | | | | | |cv rs|cv as_|cv a as_| | | | |] eqn:Heq; try done.
  - by eapply twt_increment_sim.
  - destruct Hpc as (Hcv & Hsub & rec & R & Htodo). destruct rs as [|r rs].
    + injection Hs' as <- <-. by eapply twt_decide_sim.
    + destruct (wt_validate_entry _ _ _) eqn:Hval; injection Hs' as <- <-; [|by eapply wt_abort_sim]. by eapply twt_validate_sim.
  - destruct Hpc as (Hcv & Hp & Hown & Hm). destruct as_ as [|a as_]; injection Hs' as <- <-; [by eapply twt_finish_sim; eauto|].
    assert (Ho : own σ (lock_of a) = Some i) by (apply Hown; left). destruct (tg_lock g σ (lock_of a) I G) as (c & Hc & Hv & Hok & Hl).
    unfold tlock. rewrite Hl, Hid, iword_locked_by, bool_decide_true by done. by apply wtsim_stay.
  - by eapply twt_release_sim.
  - injection Hs' as <- <-. exists σ. split_and!; [done|by apply tg_token| |by apply guar_refl]. split; [done|]. unfold tpc_rel. cbn.
    pose proof Hpc as (_ & -> & _). done.
Qed.

(** ** Aborts *)

Lemma inc_store_sim i g σ t l s ls :
  lv_inv σ → tg_rel g σ → x_id (y_tx t) = tid i → ph (thr σ i) = PAbort → own_rel σ i (l :: ls) → own_mem g σ i [] (mget (lmem σ)) → s = g_locks (tg g) l →
  tg_wrapped g || (get_incarnation s =? INCARNATION_MASK) = false →
  wtsim i g σ (TG (set_lock (tg g) l (inc_abort s 0)) (tg_wrapped g || (get_incarnation s =? INCARNATION_MASK)), tgoto t (AInc ls)).
Proof using Hn.
  intros I G Hid Hp Hown Hm -> Hw. assert (Ho : own σ l = Some i) by (apply Hown; left). destruct (tg_lock g σ l I G) as (c & Hc & Hv & Hok & Hl).
  apply orb_false_iff in Hw as [Hw Hinc]. rewrite Hl, iword_inc in * by done. change INCARNATION_MASK with 7 in *. apply Z.eqb_neq in Hinc. unfold inc_ok in Hc.
  rewrite iword_inc_abort by (done || lia). assert (inc_ok (c + 1)) as Hc1 by (unfold inc_ok; lia).
  destruct (tg_give_back g σ (set_own σ l None) i l (iword (ver σ l) (c + 1) None) (c + 1)) as [G' Hm']; try done.
  exists (set_own σ l None). split_and!.
  - apply rtc_once. by apply lv_release.
  - destruct G' as [? ? ? ? ? ? ? ?]. by split.
  - split; [done|]. split_and!; [done|by eapply own_release|done].
  - apply (guar_give_back _ _ _ _ _ l (iword (ver σ l) (c + 1) None)); try done. rewrite Hl, Ho, !rank_iword by (done || (rewrite Ho in Hok; done)). lia.
Qed.

Lemma tabort_steps_sim i g σ t g' t' :
  lv_inv σ → tg_rel g σ → tt_rel g σ i t → wt_abort_step g t = Some (g', t') → tg_wrapped g' = false → wtsim i g σ (g', t').
Proof using Hn.
  intros I G [Hid Hpc] Hs Hw. unfold tpc_rel in Hpc. unfold wt_abort_step in Hs.
  destruct (y_pc t) as [| | | | | | | | | | | | | | | | | | | | | | | | | | | |st|ls|l s ls|] eqn:Heq; try done.
  - destruct Hpc as (Hp & Ho & Hm). destruct st as [|[a b] st]; injection Hs as <- <-; [by apply wtsim_stay|].
    destruct (tg_store n g σ i a b st _ G Hm) as (G' & Hm' & Hg). exists σ. by split_and!.
  - destruct Hpc as (Hp & Ho & Hm). destruct ls as [|l ls]; injection Hs as <- <-; by apply wtsim_stay.
  - injection Hs as <- <-. destruct Hpc as (Hp & Ho & Hm & Hl). by apply inc_store_sim.
  - injection Hs as <- <-. destruct Hpc as (Hp & Ho). eapply twt_finish_sim; try done; [by apply tg_token|by right; left|by left].
Qed.

(** ** Calls *)

Lemma twt_begin_sim i g σ t : tg_rel g σ → tt_rel g σ i t → y_pc t = TBClock → wtsim i g σ (wt_begin_step g t).
Proof.
  intros G Ht Heq. pose proof Ht as [Hid Hpc]. unfold tpc_rel in Hpc. rewrite Heq in Hpc. destruct Hpc as (Hp & Hact & Hown).
  unfold wt_begin_step. destruct (clock_resetting g); [by apply wtsim_stay|]. pose proof (upd_set_thr i σ (LVT PActive [] [] [])) as U.
  eapply wtsim_upd; [done|apply rtc_once; by apply lv_begin|done|]. split; [done|]. split; [done|]. exists [].
  split_and!; [by rewrite (up_thr _ _ _ _ U)|done| | |by eapply own_upd|].
  - split; rewrite ?(up_thr _ _ _ _ U), ?(up_clk _ _ _ _ U); simpl; try done.
    + apply wtlog_nil.
    + intros a val v. by intros ?%elem_of_nil.
    + intros r. by intros ?%elem_of_nil.
    + rewrite (gt_clock _ _ _ G). lia.
    + intros _ a val v. by intros ?%elem_of_nil.
  - split; simpl.
    + split; [apply NoDup_nil_2|by left].
    + intros a e. unfold wset_map. simpl. by rewrite lookup_empty.
    + intros ℓ. by intros ?%elem_of_nil.
  - split_and!; [|by intros x ?%elem_of_nil|by apply Forall_nil_2]. intros x Hx. by destruct (no_locks σ i Hown (lock_of x)).
Qed.

Lemma access_rel i g σ t k rec :
  x_id (y_tx t) = tid i → acc_ok acc k → wrote t → tact acc g σ i t rec → tt_rel g σ i (access_word t k).
Proof using Hmg.
  intros Hid Hk Hwr R. pose proof R as (Hp & Ha & X & W & Ho & Hm).
  assert (Hread : match k with RdAcc _ _ => wrote t | WrAcc _ sz _ _ => nbytes_of sz ≠ 8 end → tt_rel g σ i (read_word t k)).
  { intros Hrd. unfold read_word. pose proof (ws_find_lookup (x_wset (y_tx t)) (word_addr k) (wr_wf _ _ _ _ _ W)) as Hf.
    destruct (ws_find (x_wset (y_tx t)) (word_addr k)) as [e|].
    - apply (read_done_rel acc Hmg i g σ t (y_tx t) k _ rec); [done|done|done|by destruct k|by apply sees_hit].
    - split; [done|]. split; [split; [done|by symmetry]|]. split; [done|by exists rec]. }
  unfold access_word. destruct k as [a sz|a sz v junk]; [by apply Hread|]. destruct (Z.eqb_spec (nbytes_of sz) 8); [|by apply Hread].
  eapply write_word_rel; [done..|]. pose proof Hk as [_ [? ?]%access_ok_spec]. by apply leaves_whole.
Qed.

Lemma ro_commit_sim_wt i g σ t rec :
  tg_rel g σ → x_id (y_tx t) = tid i → tact acc g σ i t rec → x_ro (y_tx t) = true →
  wtsim i g σ (TG (WG (g_mem (tg g)) (g_clock (tg g)) (g_locks (tg g)) (g_token (tg g)) (g_hist (tg g))
              ((x_start (y_tx t), x_end (y_tx t), y_log t) :: g_ro (tg g))) (tg_wrapped g), TT (ttx_reset (y_tx t)) CToken []).
Proof.
  intros G Hid (Hp & Hact & X & W & Hown & Hm) Hro. destruct (xr_ro _ _ _ _ _ _ X Hro) as [Hvec Heq]. pose proof (xr_end _ _ _ _ _ _ X) as Hend.
  assert (Hmap : wset_map (x_wset (y_tx t)) = ∅) by (unfold wset_map; by rewrite Hvec).
  assert (Hh : x_held (y_tx t) = []).
  { destruct (x_held (y_tx t)) as [|ℓ ls] eqn:Hls; [done|]. destruct (wr_held _ _ _ _ _ W ℓ) as (a & [e He] & _); [left|].
    by rewrite Hmap, lookup_empty in He. }
  rewrite Hh in Hown. set (σ1 := LVS (lmem σ) (clk σ) (ver σ) (own σ) (hist σ) (thr σ) ((Z.to_nat (x_start (y_tx t)), rec.*1) :: obs σ)).
  assert (Hstep : lv_step lock_of i σ σ1).
  { apply lv_observe; [by rewrite Hp|lia| |by rewrite Hp]. intros a val Hin. apply list_elem_of_fmap in Hin as ([[a' val'] v] & [= -> ->] & Hin).
    exists v. by apply (xr_fix _ _ _ _ _ _ X). }
  assert (Hsim : wtsim i g σ1 (TG (WG (g_mem (tg g)) (g_clock (tg g)) (g_locks (tg g)) (g_token (tg g)) (g_hist (tg g))
              ((x_start (y_tx t), x_end (y_tx t), y_log t) :: g_ro (tg g))) (tg_wrapped g), TT (ttx_reset (y_tx t)) CToken [])).
  { eapply twt_finish_sim; try done; [|right; by right|by right]. destruct G as [H1 H2 H3 H4 H5 H6 H7 H8]. split; try done.
    intros s e evs [[= -> -> ->]|Hin]%elem_of_cons.
    - split_and!; [done|lia|simpl; lia|]. exists rec.*1. split; [left|]. intros m Hh'. destruct (xr_log _ _ _ _ _ _ X m Hh') as (m' & ? & Hx). exists m'.
      split; [done|]. intros x. rewrite Hx. unfold over. by rewrite Hmap, lookup_empty.
    - destruct (H8 s e evs Hin) as (? & ? & l & ? & ?). split_and!; [done|lia|simpl; lia|]. exists l. split; [by right|done]. }
  destruct Hsim as (σ' & Hs & G' & T' & Hg). exists σ'. split_and!; [by eapply rtc_l|done|done|]. by destruct Hg.
Qed.

Lemma twt_call_sim i g σ t o g' t' :
  tg_rel g σ → tt_rel g σ i t → twt_allowed acc o g t = Some (g', t') → wtsim i g σ (g', t').
Proof using Hmg.
  intros G Ht Hs. pose proof Ht as [Hid Hpc]. unfold tpc_rel in Hpc. unfold twt_allowed, twt_call in Hs.
  destruct (y_pc t) eqn:Heq; try (destruct o as [|k'|]; try destruct (acc k'); done). destruct o as [|k|].
  - injection Hs as <- <-. destruct (x_active (y_tx t)) eqn:Hact; apply wtsim_stay; first [done|by split].
  - destruct (acc k) eqn:Hk; [|done]. destruct (x_active (y_tx t)) eqn:Hact; [|done]. destruct (access_ok _ _) eqn:Hok; [|done]. injection Hs as <- <-.
    destruct Hpc as (? & rec & R). apply wtsim_stay; [done|]. by eapply access_rel.
  - destruct (x_active (y_tx t)) eqn:Hact; [|done]. injection Hs as Hs. destruct Hpc as (Hwr & rec & R). unfold commit_call in Hs.
    destruct (x_ro (y_tx t)) eqn:Hro; cbn in Hs.
    + injection Hs as <- <-. by eapply ro_commit_sim_wt.
    + rewrite bool_decide_false in Hs by by apply Hwr. injection Hs as <- <-. apply wtsim_stay; [done|]. split; [done|]. by exists rec.
Qed.

Lemma twt_step_sim i g σ t g' t' :
  lv_inv σ → tg_rel g σ → (i < n)%nat → tt_rel g σ i t → twt_step g t = Some (g', t') → tg_wrapped g' = false → wtsim i g σ (g', t').
Proof using Hn Hinj Hmg.
  intros I G Hi Ht Hs Hw. unfold twt_step in Hs. destruct (y_pc t) eqn:Heq; try done;
    first [by eapply wt_read_sim|by eapply textend_sim|by eapply tstore_sim|by eapply wt_commit_sim|by eapply tabort_steps_sim|by eapply wt_lock_sim|idtac].
  injection Hs as Hs. rewrite <- Hs. by apply twt_begin_sim.
Qed.

(** ** Executions *)

Lemma wrapped_step g t g' t' : twt_step g t = Some (g', t') → tg_wrapped g' = false → tg_wrapped g = false.
Proof.
  unfold twt_step, wt_read_step, wt_extend_step, wt_lock_step, wt_store_step, wt_commit_step, wt_abort_step, wt_begin_step, compare_exchange_strong, SpinToken.tm_token_try_acquire.
  intros Hs Hw. destruct (y_pc t); repeat case_match; simplify_eq/=; try done; [|by apply orb_false_iff in Hw as [? _]].
  destruct (unlock_with_version _ _ _); by simplify_eq/=.
Qed.

Lemma wrapped_call o g t g' t' : twt_allowed acc o g t = Some (g', t') → tg_wrapped g' = tg_wrapped g.
Proof. unfold twt_allowed, twt_call, commit_call. intros Hs. repeat case_match; simplify_eq/=; done. Qed.

Lemma wt_init_rel m : mem_ok m →
  ∃ σ, lv_reachable lock_of m σ ∧ tg_rel (wt_init m) σ ∧ ∀ i t, (wt_thread_init <$> seq 0 n) !! i = Some t → tt_rel (wt_init m) σ i t.
Proof.
  intros Hm. exists (LVS m 1 (λ _, O) (λ _, None) ∅ (λ _, LVT PIdle [] [] []) []). split_and!.
  - apply lv_init. by split_and!.
  - split; try done.
    + intros ℓ. exists 0. split; [unfold inc_ok; lia|done].
    + intros s e evs. by intros ?%elem_of_nil.
  - intros i t Ht. apply list_lookup_fmap_Some in Ht as (j & -> & Hj). apply lookup_seq in Hj as [-> _]. split; [simpl; unfold tid; lia|].
    split_and!; [done|done|]. split; [apply NoDup_nil_2|]. intros ℓ. simpl. split; [done|by intros ?%elem_of_nil].
Qed.

Lemma wt_reachable_sim g ts :
  mem_ok m0 → wt_reachable acc m0 n (g, ts) → tg_wrapped g = false →
  ∃ σ, lv_reachable lock_of m0 σ ∧ tg_rel g σ ∧ length ts = n ∧ ∀ i t, ts !! i = Some t → tt_rel g σ i t.
Proof using Hn Hinj Hmg.
  intros Hm0 Hr. remember (g, ts) as s eqn:Es. revert g ts Es. induction Hr as [|s s' Hr IH Hs]; intros g ts Es Hw.
  - injection Es as <- <-. destruct (wt_init_rel m0 Hm0) as (σ & ? & ? & ?). exists σ. split_and!; [done..| |done].
    by rewrite length_fmap, length_seq.
  - subst s'. destruct s as [g1 ts1].
    assert (∃ i t t', ts1 !! i = Some t ∧ ts = <[i := t']> ts1 ∧ tg_wrapped g1 = false ∧
      ((∃ o, twt_allowed acc o g1 t = Some (g, t')) ∨ twt_step g1 t = Some (g, t'))) as (i & t & t' & Hi & -> & Hw1 & Hc).
    { inversion Hs as [? ? i t o ? t' Ht Hc|? ? i t ? t' Ht Hc]; subst; exists i, t, t'; (split_and!; [done..| |]).
      - by rewrite <- (wrapped_call _ _ _ _ _ Hc). - left. by exists o. - by eapply wrapped_step. - by right. }
    destruct (IH g1 ts1 eq_refl Hw1) as (σ & Hreach & G & Hlen & HT). pose proof (reachable_inv _ _ σ Hreach) as I.
    assert (wtsim i g1 σ (g, t')) as (σ' & Hsteps & G' & T' & Hg).
    { destruct Hc as [[o Hc]|Hc]; [by eapply twt_call_sim; eauto|]. eapply twt_step_sim; eauto. rewrite <- Hlen. by eapply lookup_lt_Some. }
    exists σ'. split_and!; [by eapply steps_reachable|done|by rewrite length_insert|]. intros j u Hu.
    apply list_lookup_insert_Some in Hu as [(<- & <- & _)|(Hne & Hu)]; [done|].
    destruct (steps_frame _ _ j i σ σ' I Hsteps) as [_ F]; [congruence|]. eapply (tt_env m0 n acc); [by eapply guar_env|done..|]. by apply HT.
Qed.
End Commit.
