(* ===== verification/TinyWTSpec.v ===== *)
(** * What TinySTM write-through guarantees

    From the simulation of [TinyWTCommit]: as long as accessed words have locks of their
    own and no incarnation wraps around, committed transactions are serializable, the
    memory under free locks is the serial one, and read-only transactions see a snapshot.
    Executions outside these conditions show what is lost without them. *)

From S2P Require Import Prelude Memory Values TMSpec LogMerge TxLog Interleave TinyLock TinyWriteSet Support LockWord VersionedLocks TinyShared TinySim TinyWT TinyWTLog TinyWTRel TinyWTCommit.
#[local] Open Scope Z_scope.

(** ** Executions used below *)

Definition tfinished (t : tthread) : bool := match y_pc t with TIdle => true | _ => false end.
#[local] Abbreviation tscript := (list (nat * ix_act (T := tthread) (O := top))).

(** Thread [i] performs whole calls. *)
Definition tdo (i : nat) (o : top) : tscript := [(i, ACall o); (i, AUntil tfinished)].
Definition tdos (i : nat) (os : list top) : tscript := concat (tdo i <$> os).

Definition trun_script (acc : tacc → bool) (n : nat) (l : tscript) : tglobal * list tthread :=
  default (wt_init ∅, []) (ix_script (twt_allowed acc) twt_step (wt_init ∅, wt_thread_init <$> seq 0 n) l).

Lemma trun_script_reachable acc n l :
  match ix_script (twt_allowed acc) twt_step (wt_init ∅, wt_thread_init <$> seq 0 n) l with Some _ => true | None => false end = true →
  wt_reachable acc ∅ n ((trun_script acc n l).1, (trun_script acc n l).2).
Proof.
  intros H. rewrite <- surjective_pairing. eapply (ix_script_reachable _ _ _ (wt_init ∅, wt_thread_init <$> seq 0 n) l); [apply ix_start|]. by apply default_Some.
Qed.

(** Accesses to three neighbouring words; a transaction writes two of them while another
    one reads both, then a conflicting one aborts. *)
Definition wt_words (k : tacc) : bool :=
  bool_decide (word_addr k ∈ [0x100000; 0x100008; 0x100010]) &&
  match k with RdAcc _ _ => true | WrAcc _ sz _ junk => match sz with FLOAT => junk =? 0 | _ => true end end.

Definition wt_demo : tscript :=
  tdos 0 [TBegin; TAccess (WrAcc 0x100000 UINT64 5 0); TAccess (WrAcc 0x10000a UINT16 7 0)] ++
  tdos 1 [TBegin; TAccess (RdAcc 0x100010 UINT64)] ++
  tdos 0 [TCommit] ++
  tdos 1 [TAccess (RdAcc 0x100000 UINT32)] ++
  tdos 1 [TBegin; TAccess (RdAcc 0x100000 UINT32); TAccess (RdAcc 0x10000a UINT16); TCommit].

Definition wt_demo_state : tglobal * list tthread := trun_script wt_words 2 wt_demo.

(** ** Properties *)

(** C5: TinySTM write-through is serializable.  In every interleaved execution in which
    the accessed words have locks of their own, a float written outside the upper half of
    its word has zeros beside it ([merges]), and no incarnation has wrapped around, the
    logs of the committed update transactions replay one after the other in the order of
    their commit versions; every byte whose lock is free has the value of that serial
    execution; and a committed read-only transaction read the state as of the version it
    started at. *)
Theorem wt_serializable acc m n g ts :
  mem_ok m → Z.of_nat n < MAX_THREADS → own_locks acc → (∀ k, acc k = true → merges k) → wt_reachable acc m n (g, ts) → tg_wrapped g = false →
  (∃ M, serial m (g_hist (tg g)) (Z.to_nat (g_clock (tg g))) = Some M ∧
     ∀ x, is_locked (tlock g x) = false → mget (g_mem (tg g)) x = mget M x) ∧
  (∀ s e evs, (s, e, evs) ∈ g_ro (tg g) → e = s ∧ 0 ≤ s ≤ g_clock (tg g) ∧
     ∃ m1 m2, serial m (g_hist (tg g)) (Z.to_nat s) = Some m1 ∧ replay m1 evs = Some m2 ∧ ∀ x, mget m2 x = mget m1 x).
Proof.
  intros Hm Hn Hinj Hmg Hr Hw. destruct (wt_reachable_sim m n acc Hn Hinj Hmg g ts Hm Hr Hw) as (σ & Hreach & G & _ & _).
  pose proof (reachable_inv _ _ σ Hreach) as I. rewrite (gt_clock _ _ _ G). split.
  - destruct (serial_history _ _ σ _ (clk σ) I (gt_hist _ _ _ G)) as (M & HM & Hx). rewrite Nat2Z.id. exists M. split; [done|]. intros x Hf.
    destruct (tg_lock m n Hn g σ (lock_of x) I G) as (c & Hc & Hv & Ho & Hl). unfold tlock in Hf. rewrite Hl, iword_locked in Hf by done.
    apply bool_decide_eq_false in Hf. assert (own σ (lock_of x) = None) as Hnone by (destruct (own σ (lock_of x)); [destruct Hf; by eexists|done]).
    rewrite (gt_free _ _ _ G), Hx, <- (iv_mem _ _ σ I) by done. unfold pend. by rewrite Hnone.
  - intros s e evs Hin. destruct (gt_ro _ _ _ G s e evs Hin) as (-> & Hs & l & Hobs & Hl). split; [done|]. split; [lia|].
    destruct (serial_history _ _ σ _ (Z.to_nat s) I (gt_hist _ _ _ G)) as (M & HM & Hx). destruct (Hl M) as (M' & ? & ?); [|by exists M, M'].
    intros a b Hab. rewrite Hx. destruct (iv_obs _ _ σ I _ _ Hobs) as [_ Ho]. by apply Ho.
Qed.

Lemma wt_words_locks : own_locks wt_words.
Proof.
  intros k k' Hk Hk' Hl. destruct (acc_word _ k Hk) as (_ & _ & Hlk). destruct (acc_word _ k' Hk') as (_ & _ & Hlk'). rewrite <- Hlk, <- Hlk' in Hl.
  destruct Hk as [[Hin _]%andb_true_iff _], Hk' as [[Hin' _]%andb_true_iff _]. apply bool_decide_eq_true in Hin, Hin'.
  rewrite !elem_of_cons, elem_of_nil in Hin, Hin'. destruct Hin as [E|[E|[E|[]]]], Hin' as [E'|[E'|[E'|[]]]]; rewrite E, E' in *; try done; by vm_compute in Hl.
Qed.

Lemma wt_words_merge k : wt_words k = true → merges k.
Proof. intros [_ H]%andb_true_iff. destruct k as [|a [] v junk]; try done. right. by apply Z.eqb_eq in H as ->. Qed.

Lemma wt_serializable_witness :
  (∃ M, serial ∅ (g_hist (tg wt_demo_state.1)) (Z.to_nat (g_clock (tg wt_demo_state.1))) = Some M ∧
     ∀ x, is_locked (tlock wt_demo_state.1 x) = false → mget (g_mem (tg wt_demo_state.1)) x = mget M x) ∧
  (∀ s e evs, (s, e, evs) ∈ g_ro (tg wt_demo_state.1) → e = s ∧ 0 ≤ s ≤ g_clock (tg wt_demo_state.1) ∧
     ∃ m1 m2, serial ∅ (g_hist (tg wt_demo_state.1)) (Z.to_nat s) = Some m1 ∧ replay m1 evs = Some m2 ∧ ∀ x, mget m2 x = mget m1 x).
Proof.
  apply (wt_serializable wt_words ∅ 2 wt_demo_state.1 wt_demo_state.2).
  - apply mem_ok_empty.
  - done.
  - apply wt_words_locks.
  - apply wt_words_merge.
  - apply trun_script_reachable. vm_compute. reflexivity.
  - vm_compute. reflexivity.
Defined.

(** ** Without the conditions *)

Definition any_acc (k : tacc) : bool := true.

(** Two words that share a lock: [validate_read_set_wt] skips a read under the
    transaction's own lock when the word itself is not in the write set. *)
Definition wt_alias_script : tscript :=
  tdos 0 [TBegin; TAccess (RdAcc 0x100000 UINT64)] ++
  tdos 1 [TBegin; TAccess (WrAcc 0x100000 UINT64 1 0); TCommit] ++
  tdos 0 [TAccess (WrAcc (0x100000 + 8 * LOCK_ARRAY_SIZE) UINT64 9 0); TCommit].

(** A stale read commits: the committed logs have no serial execution in commit order. *)
Theorem wt_alias_stale_read :
  ∃ g ts, wt_reachable any_acc ∅ 2 (g, ts) ∧ tg_wrapped g = false ∧ serial ∅ (g_hist (tg g)) (Z.to_nat (g_clock (tg g))) = None.
Proof.
  exists (trun_script any_acc 2 wt_alias_script).1, (trun_script any_acc 2 wt_alias_script).2.
  split; [apply trun_script_reachable; vm_compute; reflexivity|]. split; vm_compute; reflexivity.
Qed.

(** A reader loads the lock word; a writer stores and aborts eight times. *)
Definition wt_wrap_round : tscript :=
  tdos 1 [TBegin; TAccess (RdAcc 0x100010 UINT64); TAccess (WrAcc 0x100000 UINT64 99 0)].
Definition wt_wrap_abort : tscript :=
  tdos 2 [TBegin; TAccess (WrAcc 0x100010 UINT64 1 0); TCommit] ++ tdos 1 [TCommit].
Definition wt_wrap_script : tscript :=
  tdos 0 [TBegin] ++ [(0%nat, ACall (TAccess (RdAcc 0x100000 UINT64))); (0%nat, ASteps 3)] ++
  wt_wrap_round ++ [(0%nat, ASteps 8)] ++ wt_wrap_abort ++
  concat (replicate 7 (wt_wrap_round ++ wt_wrap_abort)) ++
  [(0%nat, AUntil tfinished)] ++ tdos 0 [TCommit].

(** After eight aborts the lock word is the one loaded before: the reader accepts and
    commits a value that no transaction ever committed. *)
Theorem wt_incarnation_wrap :
  ∃ g ts s e evs m1, wt_reachable any_acc ∅ 3 (g, ts) ∧ (s, e, evs) ∈ g_ro (tg g) ∧ evs = [EvR 0x100000 UINT64 99] ∧
    serial ∅ (g_hist (tg g)) (Z.to_nat s) = Some m1 ∧ replay m1 evs = None.
Proof.
  exists (trun_script any_acc 3 wt_wrap_script).1, (trun_script any_acc 3 wt_wrap_script).2, 1, 1, [EvR 0x100000 UINT64 99], ∅.
  split; [apply trun_script_reachable; vm_compute; reflexivity|]. split; [|split_and!; vm_compute; reflexivity].
  apply (list_elem_of_lookup_2 _ 0). vm_compute. reflexivity.
Qed.

(** [tm_write_f4] in the lower half of a word: the uninitialised half of its local word
    reaches the upper half. *)
Definition wt_float_script (junk : Z) : tscript := tdos 0 [TBegin; TAccess (WrAcc 0x100000 FLOAT 1 junk); TCommit].

Theorem wt_float_neighbour :
  ∃ g ts M, wt_reachable any_acc ∅ 1 (g, ts) ∧ serial ∅ (g_hist (tg g)) (Z.to_nat (g_clock (tg g))) = Some M ∧
    is_locked (tlock g 0x100004) = false ∧ mget M 0x100004 = 0 ∧ mget (g_mem (tg g)) 0x100004 = 0xEF.
Proof.
  exists (trun_script any_acc 1 (wt_float_script 0xDEADBEEF)).1, (trun_script any_acc 1 (wt_float_script 0xDEADBEEF)).2.
  eexists. split; [apply trun_script_reachable; vm_compute; reflexivity|]. split; [vm_compute; reflexivity|]. split_and!; vm_compute; reflexivity.
Qed.
