(* ===== verification/Hooks.v ===== *)
(** * The hook table (common/tm_hooks.cpp, common/tm_hooks.hpp)

    Instrumented code calls the runtime through function-pointer variables, one per
    operation.  They start as direct accesses; a backend registers its own functions,
    phases swap them, and tracing, sampling and the invariant oracle wrap them.  The
    model has the variables and the tables as data (a function pointer is the name of
    the function it points to) and executes calls on the world: the program's memory,
    the C library's heap and the state of the backends.

    The world and the functions of the backends are parameters.  Here a call is one step
    and the functions of the backends return; [HooksSteps] has the steps of the trace
    wrappers (time stamp, line, call of the backend) for threads that interleave, and calls
    that jump out.  The mutex serialises the installation of hooks.  The trace file is the
    list of its lines before formatting. *)

From stdpp Require Import functions strings.
From S2P Require Import Prelude Values.
#[local] Open Scope Z_scope.

(** ** Fields *)

(** The operations on a type of value are named after it: [read UINT8] is [read_i1]. *)
Inductive field :=
  | begin | end_ | malloc | calloc | realloc | free | read (t : ValueType) | write (t : ValueType)
  | get_env | set_jmpbuf | get_thread_state.

#[export] Instance field_eq_dec : EqDecision field.
Proof. solve_decision. Defined.

Definition value_types : list ValueType := [UINT8; UINT16; UINT32; UINT64; FLOAT; DOUBLE; POINTER].

Definition TM_HOOK_ACCESS_FIELDS : list field :=
  [begin; end_; malloc; calloc; realloc; free] ++ (read <$> value_types) ++ (write <$> value_types).
Definition TM_HOOK_FIELDS : list field := TM_HOOK_ACCESS_FIELDS ++ [get_env; set_jmpbuf; get_thread_state].

(** What a hook variable or a table entry of field [f] can point to: [stub_f], the
    function of a backend, [trace_f], [sample_f] or [end_with_invariant]. *)
Inductive fn := Stub | Backend (b : nat) | Trace | Sample | EndWithInvariant.

#[export] Instance fn_eq_dec : EqDecision fn.
Proof. solve_decision. Defined.

(** [TMRealHooks]: null entries are [None]. *)
Definition TMRealHooks := field → option fn.
Definition no_hooks : TMRealHooks := λ _, None.

(** ** State *)

Inductive TMSamplingMode := SNone | RateLimited | Phase | Adaptive.

(** A line of the trace: time stamp, thread, type, transaction, address, width, value,
    contention flag. *)
Record trace_line := TL {
  l_ts : Z; l_tid : Z; l_type : Z; l_txid : Z; l_addr : Z; l_width : Z; l_val : Z; l_cont : Z;
}.

(** The thread-local variables. *)
Record tlocal := TLoc {
  t_current_tx_id : Z; t_tx_reads : Z; t_tx_writes : Z;
  t_sample_count : Z; t_tx_count : Z; t_abort_count : Z; t_phase_full_active : bool;
}.

Record hstate := HS {
  hook : field → fn;
  s_thread_count : Z; s_real_hooks : TMRealHooks; s_registered : bool;
  g_trace_active : bool; s_trace_real_hooks : TMRealHooks;
  g_trace_file : option (list trace_line); g_trace_ts : Z;
  g_invariant_cb : bool; g_original_tm_end : option fn;
  g_sampling_mode : TMSamplingMode; g_sample_rate : Z; g_phase_full : Z;
  locals : Z → tlocal;
}.

Definition local_init : tlocal := TLoc 0 0 0 0 0 0 true.
Definition hinit : hstate := HS (λ _, Stub) 1 no_hooks false false no_hooks None 0 false None SNone 1 10 (λ _, local_init).

Definition set_hooks (s : hstate) (h : field → fn) : hstate :=
  HS h (s_thread_count s) (s_real_hooks s) (s_registered s) (g_trace_active s) (s_trace_real_hooks s) (g_trace_file s) (g_trace_ts s)
    (g_invariant_cb s) (g_original_tm_end s) (g_sampling_mode s) (g_sample_rate s) (g_phase_full s) (locals s).
Definition set_real (s : hstate) (r : TMRealHooks) : hstate :=
  HS (hook s) (s_thread_count s) r (s_registered s) (g_trace_active s) (s_trace_real_hooks s) (g_trace_file s) (g_trace_ts s)
    (g_invariant_cb s) (g_original_tm_end s) (g_sampling_mode s) (g_sample_rate s) (g_phase_full s) (locals s).
Definition set_trace_real (s : hstate) (r : TMRealHooks) : hstate :=
  HS (hook s) (s_thread_count s) (s_real_hooks s) (s_registered s) (g_trace_active s) r (g_trace_file s) (g_trace_ts s)
    (g_invariant_cb s) (g_original_tm_end s) (g_sampling_mode s) (g_sample_rate s) (g_phase_full s) (locals s).
Definition set_count (s : hstate) (n : Z) : hstate :=
  HS (hook s) n (s_real_hooks s) (s_registered s) (g_trace_active s) (s_trace_real_hooks s) (g_trace_file s) (g_trace_ts s)
    (g_invariant_cb s) (g_original_tm_end s) (g_sampling_mode s) (g_sample_rate s) (g_phase_full s) (locals s).
Definition set_registered (s : hstate) : hstate :=
  HS (hook s) (s_thread_count s) (s_real_hooks s) true (g_trace_active s) (s_trace_real_hooks s) (g_trace_file s) (g_trace_ts s)
    (g_invariant_cb s) (g_original_tm_end s) (g_sampling_mode s) (g_sample_rate s) (g_phase_full s) (locals s).
Definition set_trace (s : hstate) (active : bool) (file : option (list trace_line)) : hstate :=
  HS (hook s) (s_thread_count s) (s_real_hooks s) (s_registered s) active (s_trace_real_hooks s) file (g_trace_ts s)
    (g_invariant_cb s) (g_original_tm_end s) (g_sampling_mode s) (g_sample_rate s) (g_phase_full s) (locals s).
Definition set_oracle (s : hstate) (cb : bool) (orig : option fn) : hstate :=
  HS (hook s) (s_thread_count s) (s_real_hooks s) (s_registered s) (g_trace_active s) (s_trace_real_hooks s) (g_trace_file s) (g_trace_ts s)
    cb orig (g_sampling_mode s) (g_sample_rate s) (g_phase_full s) (locals s).
Definition set_sampling (s : hstate) (m : TMSamplingMode) (rate full : Z) : hstate :=
  HS (hook s) (s_thread_count s) (s_real_hooks s) (s_registered s) (g_trace_active s) (s_trace_real_hooks s) (g_trace_file s) (g_trace_ts s)
    (g_invariant_cb s) (g_original_tm_end s) m rate full (locals s).
Definition set_local (s : hstate) (tid : Z) (l : tlocal) : hstate :=
  HS (hook s) (s_thread_count s) (s_real_hooks s) (s_registered s) (g_trace_active s) (s_trace_real_hooks s) (g_trace_file s) (g_trace_ts s)
    (g_invariant_cb s) (g_original_tm_end s) (g_sampling_mode s) (g_sample_rate s) (g_phase_full s) (<[tid := l]> (locals s)).

(** ** Installing hooks *)

Section Install.
(** Whether the build is for the plugin ([LLVM_TM_PLUGIN]). *)
Context (plugin : bool).

Definition apply_hooks_unlocked (s : hstate) : hstate :=
  let single := if plugin then false else (s_thread_count s <=? 1) && negb (s_registered s) in
  if g_trace_active s then set_trace_real s (s_real_hooks s)
  else set_hooks s (λ f, if single then Stub else default Stub (s_real_hooks s f)).

Definition tm_register_real_hooks (h : TMRealHooks) (s : hstate) : hstate :=
  apply_hooks_unlocked (set_registered (set_real s h)).

Definition tm_set_num_threads (n : Z) (s : hstate) : hstate :=
  let s := set_count s n in if s_registered s then apply_hooks_unlocked s else s.

Definition tm_hook_init_thread (s : hstate) : hstate :=
  let prev := s_thread_count s in
  let s := set_count s (prev + 1) in
  if (1 <=? prev) && s_registered s then apply_hooks_unlocked s else s.

Definition tm_hook_exit_thread (s : hstate) : hstate := set_count s (s_thread_count s - 1).

Definition tm_swap_runtime (h : TMRealHooks) (s : hstate) : hstate :=
  set_real (set_hooks s (λ f, default (hook s f) (h f))) (λ f, match h f with Some g => Some g | None => s_real_hooks s f end).

(** [cb]: the callback is not null. *)
Definition tm_register_invariant_callback (cb : bool) (s : hstate) : hstate :=
  match g_original_tm_end s with
  | None => set_hooks (set_oracle s cb (Some (hook s end_))) (<[end_ := EndWithInvariant]> (hook s))
  | Some _ => set_oracle s cb (g_original_tm_end s)
  end.

Definition tm_set_sample_rate (rate : Z) (s : hstate) : hstate :=
  set_sampling s (g_sampling_mode s) (if 0 <? rate then rate else 1) (g_phase_full s).

Definition tm_set_sampling_mode (mode : string) (s : hstate) : hstate :=
  if bool_decide (mode = "rate"%string) then set_sampling s RateLimited (g_sample_rate s) (g_phase_full s)
  else if bool_decide (mode = "phase"%string) then set_sampling s Phase (g_sample_rate s) (g_phase_full s)
  else if bool_decide (mode = "adaptive"%string) then set_sampling s Adaptive (g_sample_rate s) (g_phase_full s)
  else if bool_decide (mode = "none"%string) then set_sampling s SNone (g_sample_rate s) (g_phase_full s)
  else s.

(** The two constructors that run before [main], in the order of their definition.
    [file]: [TM_TRACE_PATH] is set and the file opens. *)
Definition tm_trace_hook_init (file : bool) (s : hstate) : hstate :=
  if file
  then let s := set_trace s true (Some []) in
       let s := set_trace_real s (λ f, Some (hook s f)) in
       set_hooks s (λ f, if bool_decide (f ∈ TM_HOOK_ACCESS_FIELDS) then Trace else hook s f)
  else s.

(** [TM_SAMPLE_MODE], [TM_SAMPLE_RATE] and [TM_SAMPLE_PHASE_FULL] as parsed numbers. *)
Definition tm_sample_hook_init (mode : option string) (rate full : option Z) (s : hstate) : hstate :=
  match mode with
  | None => s
  | Some m =>
      if bool_decide (m = ""%string) then s
      else
        let s := set_real s (λ f, Some (hook s f)) in
        let s := tm_set_sampling_mode m s in
        let s := match rate with Some r => tm_set_sample_rate r s | None => s end in
        let s := match full with Some n => set_sampling s (g_sampling_mode s) (g_sample_rate s) n | None => s end in
        set_hooks s (λ f, if bool_decide (f ∈ TM_HOOK_ACCESS_FIELDS) then Sample else hook s f)
  end.

Definition startup (file : bool) (mode : option string) (rate full : option Z) : hstate :=
  tm_sample_hook_init mode rate full (tm_trace_hook_init file hinit).
End Install.

(** ** Sampling decisions *)

Definition sample_tick (s : hstate) (tid : Z) : hstate :=
  let l := locals s tid in
  set_local s tid (TLoc (t_current_tx_id l) (t_tx_reads l) (t_tx_writes l) (wrap64 (t_sample_count l + 1)) (t_tx_count l) (t_abort_count l) (t_phase_full_active l)).

(** The thread's counter is incremented only when it decides. *)
Definition should_sample (s : hstate) (tid : Z) : bool * hstate :=
  let l := locals s tid in
  let count rate := (wrap64 (t_sample_count l + 1) mod rate =? 0, sample_tick s tid) in
  match g_sampling_mode s with
  | SNone => (true, s)
  | RateLimited => count (g_sample_rate s)
  | Phase => if t_phase_full_active l then (true, s) else count (g_sample_rate s)
  | Adaptive =>
      let rate := g_sample_rate s in
      let rate := if 100 <? t_abort_count l then wrap64 (g_sample_rate s * 2) else rate in
      let rate := if 1000 <? t_abort_count l then wrap64 (g_sample_rate s * 4) else rate in
      count rate
  end.

(** The part of [sample_begin] before the decision. *)
Definition sample_begin_phase (s : hstate) (tid : Z) : hstate :=
  let l := locals s tid in
  match g_sampling_mode s with
  | Phase =>
      set_local s tid (TLoc (t_current_tx_id l) (t_tx_reads l) (t_tx_writes l) (t_sample_count l) (wrap64 (t_tx_count l + 1)) (t_abort_count l)
        (if g_phase_full s <=? t_tx_count l then false else t_phase_full_active l))
  | _ => s
  end.

(** Nothing calls it. *)
Definition sample_notify_abort (s : hstate) (tid : Z) : hstate :=
  let l := locals s tid in
  set_local s tid (TLoc (t_current_tx_id l) (t_tx_reads l) (t_tx_writes l) (t_sample_count l) (t_tx_count l) (wrap64 (t_abort_count l + 1)) (t_phase_full_active l)).

(** ** Trace lines *)

Definition set_file (s : hstate) (file : option (list trace_line)) (ts : Z) : hstate :=
  HS (hook s) (s_thread_count s) (s_real_hooks s) (s_registered s) (g_trace_active s) (s_trace_real_hooks s) file ts
    (g_invariant_cb s) (g_original_tm_end s) (g_sampling_mode s) (g_sample_rate s) (g_phase_full s) (locals s).

(** [g_trace_ts.fetch_add(1)] *)
Definition trace_tick (s : hstate) : hstate := set_file s (g_trace_file s) (wrap64 (g_trace_ts s + 1)).

(** The conversion [(int)] of a size. *)
Definition as_int (z : Z) : Z := let u := wrap 32 z in if u <? 2 ^ 31 then u else u - 2 ^ 32.

(** One line: [g_trace_ts.fetch_add(1)] and [trace_write_line_ext]. *)
Definition trace_emit (tid type addr width val cont : Z) (s : hstate) : hstate :=
  match g_trace_file s with
  | None => s
  | Some file =>
      set_file s (Some (file ++ [TL (g_trace_ts s) (Z.land tid 0xffff) type (t_current_tx_id (locals s tid)) addr width val cont])) (wrap64 (g_trace_ts s + 1))
  end.

Definition tracing (s : hstate) : bool := match g_trace_file s with Some _ => true | None => false end.

Definition bump_tx (s : hstate) (tid : Z) : hstate :=
  let l := locals s tid in
  set_local s tid (TLoc (wrap64 (t_current_tx_id l + 1)) 0 0 (t_sample_count l) (t_tx_count l) (t_abort_count l) (t_phase_full_active l)).
Definition bump_reads (s : hstate) (tid : Z) : hstate :=
  let l := locals s tid in
  set_local s tid (TLoc (t_current_tx_id l) (wrap64 (t_tx_reads l + 1)) (t_tx_writes l) (t_sample_count l) (t_tx_count l) (t_abort_count l) (t_phase_full_active l)).
Definition bump_writes (s : hstate) (tid : Z) : hstate :=
  let l := locals s tid in
  set_local s tid (TLoc (t_current_tx_id l) (t_tx_reads l) (wrap64 (t_tx_writes l + 1)) (t_sample_count l) (t_tx_count l) (t_abort_count l) (t_phase_full_active l)).

Definition tx_counts (l : tlocal) : Z := Z.lor (shl64 (t_tx_reads l) 32) (t_tx_writes l).

Definition tm_trace_abort (tid reason : Z) (s : hstate) : hstate := if tracing s then trace_emit tid 6 0 0 reason 0 s else s.
Definition tm_trace_contention (tid addr width val : Z) (s : hstate) : hstate := if tracing s then trace_emit tid 0 addr width val 1 s else s.
Definition tm_trace_hook_fini (s : hstate) : hstate := set_trace s (g_trace_active s) None.

(** ** Calls *)

(** The world the functions act on: the program's memory, the C heap, the backends
    and the invariant callback.  [w_backend b f] is the function of field [f] of backend [b]. *)
Class World (W : Type) := {
  w_load : ValueType → Z → W → Z;
  w_store : ValueType → Z → Z → W → W;
  w_malloc : Z → W → Z * W;
  w_clear : Z → Z → W → W;
  w_calloc : Z → Z → W → Z * W;
  w_realloc : Z → Z → W → Z * W;
  w_free : Z → W → W;
  w_env : Z;
  w_thread_state : Z;
  w_backend : nat → field → list Z → W → Z * W;
  w_oracle : W → W;
}.

Section Calls.
Context {W : Type} `{World W}.
Implicit Types (w : W) (s : hstate).

Definition arg (args : list Z) (k : nat) : Z := default 0 (args !! k).

(** A call: its result, or [None] when the calls nest deeper than the fuel. *)
Definition hfun : Type := hstate → W → option (Z * hstate * W).
Definition hret (r : Z) : hfun := λ s w, Some (r, s, w).
Definition hworld (k : W → Z * W) : hfun := λ s w, let '(r, w) := k w in Some (r, s, w).

(** *** The [stub_] functions *)
Definition stub_malloc (n : Z) w : Z * W := let '(p, w) := w_malloc n w in (p, if p =? 0 then w else w_clear p n w).
Definition stub_read (t : ValueType) (a : Z) w : Z * W := (w_load t a w, w).
Definition stub_write (t : ValueType) (a v : Z) w : Z * W := (0, w_store t a v w).

Definition stub (f : field) (args : list Z) w : Z * W :=
  match f with
  | begin | end_ | set_jmpbuf => (0, w)
  | malloc => stub_malloc (arg args 0) w
  | calloc => w_calloc (arg args 0) (arg args 1) w
  | realloc => w_realloc (arg args 0) (arg args 1) w
  | free => (0, w_free (arg args 0) w)
  | read t => stub_read t (arg args 0) w
  | write t => stub_write t (arg args 0) (arg args 1) w
  | get_env => (w_env, w)
  | get_thread_state => (w_thread_state, w)
  end.

(** *** The [trace_] functions

    [real] is the entry of [s_trace_real_hooks], applied to the arguments. *)
Definition real_or (real : option hfun) (other : hfun) : hfun := default other real.

Definition trace_begin (real : option hfun) (tid : Z) : hfun := λ s w,
  let s := if tracing s then trace_emit tid 2 0 0 0 0 (bump_tx s tid) else s in
  real_or real (hret 0) s w.

Definition trace_end (real : option hfun) (tid : Z) : hfun := λ s w,
  let s := if tracing s then trace_emit tid 3 0 0 (tx_counts (locals s tid)) 0 s else s in
  real_or real (hret 0) s w.

Definition trace_malloc (real : option hfun) (tid n : Z) : hfun := λ s w,
  '(p, s, w) ← real_or real (hworld (w_malloc n)) s w;
  Some (p, if tracing s && negb (p =? 0) then trace_emit tid 4 p (as_int n) 0 0 s else s, w).

Definition trace_calloc (real : option hfun) (tid n sz : Z) : hfun := λ s w,
  '(p, s, w) ← real_or real (hworld (w_calloc n sz)) s w;
  Some (p, if tracing s && negb (p =? 0) then trace_emit tid 4 p (as_int (n * sz)) 0 0 s else s, w).

Definition trace_realloc (real : option hfun) (tid old n : Z) : hfun := λ s w,
  '(p, s, w) ← real_or real (hworld (w_realloc old n)) s w;
  if tracing s
  then let s := if negb (old =? 0) && negb (p =? old) then trace_emit tid 5 old 0 0 0 s else trace_tick s in
       Some (p, if negb (p =? 0) then trace_emit tid 4 p (as_int n) 0 0 s else s, w)
  else Some (p, s, w).

Definition trace_free (real : option hfun) (tid p : Z) : hfun := λ s w,
  let s := if tracing s && negb (p =? 0) then trace_emit tid 5 p 0 0 0 s else s in
  real_or real (hworld (λ w, (0, if p =? 0 then w else w_free p w))) s w.

Definition trace_read (t : ValueType) (real : option hfun) (tid a : Z) : hfun := λ s w,
  '(r, s, w) ← real_or real (hworld (stub_read t a)) s w;
  Some (r, if tracing s then trace_emit tid 0 a (Z.of_nat (type_size t)) r 0 (bump_reads s tid) else s, w).

Definition trace_write (t : ValueType) (real : option hfun) (tid a v : Z) : hfun := λ s w,
  let s := if tracing s then trace_emit tid 1 a (Z.of_nat (type_size t)) v 0 (bump_writes s tid) else s in
  real_or real (hret 0) s w.

(** *** The [sample_] functions

    [real] is the entry of [s_real_hooks]. *)
Definition sample_begin (real : option hfun) (tid : Z) : hfun := λ s w,
  let s := sample_begin_phase s tid in
  let '(yes, s) := should_sample s tid in
  if yes then real_or real (hret 0) s w else Some (0, s, w).

Definition sample_end (real : option hfun) (tid : Z) : hfun := λ s w,
  let '(yes, s) := should_sample s tid in
  if yes then real_or real (hret 0) s w else Some (0, s, w).

(** [sample_malloc], [sample_calloc] and [sample_realloc] forward whatever the decision. *)
Definition sample_alloc (real : option hfun) (std : W → Z * W) (tid : Z) : hfun := λ s w,
  let '(yes, s) := should_sample s tid in
  match yes, real with
  | true, Some h => h s w
  | _, _ => real_or real (hworld std) s w
  end.

Definition sample_free (real : option hfun) (p : Z) : hfun :=
  real_or real (hworld (λ w, (0, if p =? 0 then w else w_free p w))).

Definition sample_read (t : ValueType) (real : option hfun) (tid a : Z) : hfun := λ s w,
  let '(yes, s) := should_sample s tid in
  match yes, real with true, Some h => h s w | _, _ => hworld (stub_read t a) s w end.

Definition sample_write (t : ValueType) (real : option hfun) (tid a v : Z) : hfun := λ s w,
  let '(yes, s) := should_sample s tid in
  match yes, real with true, Some h => h s w | _, _ => hworld (stub_write t a v) s w end.

(** *** The oracle: [real] is [g_original_tm_end] *)
Definition end_with_invariant (real : option hfun) : hfun := λ s w,
  '(_, s, w) ← real_or real (hret 0) s w;
  Some (0, s, if g_invariant_cb s then w_oracle w else w).

(** *** Calls of function pointers *)
Definition trace_fn (f : field) (args : list Z) (tid : Z) (real : option hfun) : hfun :=
  match f with
  | begin => trace_begin real tid
  | end_ => trace_end real tid
  | malloc => trace_malloc real tid (arg args 0)
  | calloc => trace_calloc real tid (arg args 0) (arg args 1)
  | realloc => trace_realloc real tid (arg args 0) (arg args 1)
  | free => trace_free real tid (arg args 0)
  | read t => trace_read t real tid (arg args 0)
  | write t => trace_write t real tid (arg args 0) (arg args 1)
  | get_env | set_jmpbuf | get_thread_state => λ _ _, None
  end.

Definition sample_fn (f : field) (args : list Z) (tid : Z) (real : option hfun) : hfun :=
  match f with
  | begin => sample_begin real tid
  | end_ => sample_end real tid
  | malloc => sample_alloc real (w_malloc (arg args 0)) tid
  | calloc => sample_alloc real (w_calloc (arg args 0) (arg args 1)) tid
  | realloc => sample_alloc real (w_realloc (arg args 0) (arg args 1)) tid
  | free => sample_free real (arg args 0)
  | read t => sample_read t real tid (arg args 0)
  | write t => sample_write t real tid (arg args 0) (arg args 1)
  | get_env | set_jmpbuf | get_thread_state => λ _ _, None
  end.

Fixpoint call (fuel : nat) (g : fn) (f : field) (args : list Z) (tid : Z) : hfun := λ s w,
  match fuel with
  | O => None
  | S fuel =>
      let entry (o : option fn) : option hfun := (λ g', call fuel g' f args tid) <$> o in
      match g with
      | Stub => hworld (stub f args) s w
      | Backend b => hworld (w_backend b f args) s w
      | Trace => trace_fn f args tid (entry (s_trace_real_hooks s f)) s w
      | Sample => sample_fn f args tid (entry (s_real_hooks s f)) s w
      | EndWithInvariant => end_with_invariant (entry (g_original_tm_end s)) s w
      end
  end.

(** An operation of the program: the call through its hook variable. *)
Definition hook_call (f : field) (args : list Z) (tid : Z) : hfun := λ s w, call 4 (hook s f) f args tid s w.

Definition op : Type := field * list Z * Z.

Fixpoint hook_run (prog : list op) s w : option (list Z * hstate * W) :=
  match prog with
  | [] => Some ([], s, w)
  | (f, args, tid) :: prog =>
      '(r, s, w) ← hook_call f args tid s w;
      '(rs, s, w) ← hook_run prog s w;
      Some (r :: rs, s, w)
  end.

(** ** The tables the backends register (common/tm_backend_macros.hpp)

    The functions named [real_tm_*] of backend [b]. *)
Definition TM_REAL_HOOKS_TABLE (b : nat) : TMRealHooks := λ f,
  match f with get_env | set_jmpbuf => None | _ => Some (Backend b) end.
Definition TM_REAL_HOOKS_TABLE_EXT (b : nat) : TMRealHooks := λ _, Some (Backend b).

(** ** Histories of the table *)

Inductive config :=
  | CRegister (h : TMRealHooks) | CSetNumThreads (n : Z) | CInitThread | CExitThread | CSwap (h : TMRealHooks)
  | COracle (cb : bool) | CSampleRate (rate : Z) | CSamplingMode (mode : string).

Definition configure (plugin : bool) (c : config) (s : hstate) : hstate :=
  match c with
  | CRegister h => tm_register_real_hooks plugin h s
  | CSetNumThreads n => tm_set_num_threads plugin n s
  | CInitThread => tm_hook_init_thread plugin s
  | CExitThread => tm_hook_exit_thread s
  | CSwap h => tm_swap_runtime h s
  | COracle cb => tm_register_invariant_callback cb s
  | CSampleRate r => tm_set_sample_rate r s
  | CSamplingMode m => tm_set_sampling_mode m s
  end.

Definition configured (plugin : bool) (cs : list config) (s : hstate) : hstate := foldl (λ s c, configure plugin c s) s cs.

(** The tables of a program hold functions of backends. *)
Definition backend_table (h : TMRealHooks) : Prop := ∀ f g, h f = Some g → ∃ b, g = Backend b.
Definition config_ok (c : config) : Prop := match c with CRegister h | CSwap h => backend_table h | _ => True end.

(** Everything that can happen to the state of the hooks: start-up, configuration,
    calls and the events the backends report. *)
Inductive hooks_reachable (plugin : bool) : hstate → Prop :=
  | hr_startup file mode rate full : hooks_reachable plugin (startup file mode rate full)
  | hr_configure c s : hooks_reachable plugin s → config_ok c → hooks_reachable plugin (configure plugin c s)
  | hr_call f args tid s w r s' w' :
      hooks_reachable plugin s → hook_call f args tid s w = Some (r, s', w') → hooks_reachable plugin s'
  | hr_abort tid reason s : hooks_reachable plugin s → hooks_reachable plugin (tm_trace_abort tid reason s)
  | hr_contention tid a n v s : hooks_reachable plugin s → hooks_reachable plugin (tm_trace_contention tid a n v s)
  | hr_fini s : hooks_reachable plugin s → hooks_reachable plugin (tm_trace_hook_fini s).
End Calls.
