(* ===== verification/HooksSpec.v ===== *)
(** * Correctness of the hook table

    Every call returns, whatever was installed; calls reach the functions of the last
    registration or swap; tracing does not change what a program computes and records
    exactly its accesses; sampling forwards one access in [rate]. *)

From Stdlib Require Import Sorted.
From stdpp Require Import functions strings.
From S2P Require Import Prelude Values Hooks.
#[local] Open Scope Z_scope.

Implicit Types s : hstate.

(** ** What calls leave alone *)

(** The variables and tables, the configuration, whether the
    trace is open, and the counts of aborts. *)
Definition tables s :=
  (hook s, s_thread_count s, s_real_hooks s, s_registered s, g_trace_active s, s_trace_real_hooks s, tracing s,
   (g_invariant_cb s, g_original_tm_end s, g_sampling_mode s, g_sample_rate s, g_phase_full s)).
Definition frames s s' : Prop := tables s' = tables s ∧ ∀ tid, t_abort_count (locals s' tid) = t_abort_count (locals s tid).

#[export] Instance frames_preorder : PreOrder frames.
Proof.
  split.
  - done.
  - intros s1 s2 s3 [H1 H2] [H3 H4]. split; [congruence|]. intros tid. by rewrite H4, H2.
Qed.

Lemma frames_local s tid l : t_abort_count l = t_abort_count (locals s tid) → frames s (set_local s tid l).
Proof.
  intros Hl. split; [done|]. intros j. simpl. destruct (decide (tid = j)) as [->|?]; [by rewrite fn_lookup_insert|by rewrite fn_lookup_insert_ne].
Qed.

Lemma frames_emit tid ty a n v c s : frames s (trace_emit tid ty a n v c s).
Proof. unfold trace_emit. destruct (g_trace_file s) eqn:Hf; [|done]. split; [|done]. unfold tables, tracing. simpl. by rewrite Hf. Qed.

Lemma frames_tick s : frames s (trace_tick s).
Proof. split; done. Qed.

Lemma frames_should_sample s tid : frames s (should_sample s tid).2.
Proof. unfold should_sample. repeat case_match; simpl; try done; by apply frames_local. Qed.

Lemma frames_begin_phase s tid : frames s (sample_begin_phase s tid).
Proof. unfold sample_begin_phase. case_match; try done. by apply frames_local. Qed.

Lemma frames_bump s tid : frames s (bump_tx s tid) ∧ frames s (bump_reads s tid) ∧ frames s (bump_writes s tid).
Proof. split_and!; by apply frames_local. Qed.

Ltac frame_done :=
  repeat match goal with
  | |- frames ?s ?s => done
  | |- frames _ (trace_emit _ _ _ _ _ _ _) => etrans; [|apply frames_emit]
  | |- frames _ (trace_tick _) => etrans; [|apply frames_tick]
  | |- frames _ (bump_tx _ _) => etrans; [|apply frames_bump]
  | |- frames _ (bump_reads _ _) => etrans; [|apply frames_bump]
  | |- frames _ (bump_writes _ _) => etrans; [|apply frames_bump]
  | |- frames _ (if _ then _ else _) => case_match
  end.

Section Frame.
Context {W : Type} `{World W}.
Implicit Types w : W.

(** Functions that only frame. *)
Definition hframes (h : hfun) : Prop := ∀ s w r s' w', h s w = Some (r, s', w') → frames s s'.

Lemma hframes_world k : hframes (hworld k).
Proof. intros s w r s' w' Hk. unfold hworld in Hk. destruct (k w). by simplify_eq. Qed.

Lemma hframes_ret r : hframes (hret r).
Proof. intros s w r' s' w' Hk. unfold hret in Hk. by simplify_eq. Qed.

Lemma hframes_real (real : option hfun) other : from_option hframes True real → hframes other → hframes (real_or real other).
Proof. intros Hr Ho. destruct real; [exact Hr|exact Ho]. Qed.

Lemma hframes_trace f args tid real : from_option hframes True real → hframes (trace_fn f args tid real).
Proof.
  intros Hr s w r s' w' Ht.
  assert (Hpre : ∀ s0 other, hframes other → frames s s0 → real_or real other s0 w = Some (r, s', w') → frames s s').
  { intros s0 other Ho Hs0 Hc. etrans; [exact Hs0|]. by eapply hframes_real. }
  assert (Hpost : ∀ other r0 s0 w0, hframes other → real_or real other s w = Some (r0, s0, w0) → frames s s0).
  { intros other r0 s0 w0 Ho Hc. by eapply hframes_real. }
  destruct f; simpl in Ht; try discriminate;
    unfold trace_begin, trace_end, trace_malloc, trace_calloc, trace_realloc, trace_free, trace_read, trace_write in Ht;
    first [eapply Hpre, Ht; [first [apply hframes_ret|apply hframes_world]|]
          |apply bind_Some in Ht as ([[r0 s0] w0] & Hc & Ht); apply Hpost in Hc; [|apply hframes_world]; repeat case_match; simplify_eq];
    frame_done; done.
Qed.

Lemma hframes_sample f args tid real : from_option hframes True real → hframes (sample_fn f args tid real).
Proof.
  intros Hr s w r s' w' Ht.
  assert (Hs : ∀ s0 b s1, should_sample s0 tid = (b, s1) → frames s0 s1).
  { intros s0 b s1 Heq. pose proof (frames_should_sample s0 tid) as Hf. by rewrite Heq in Hf. }
  destruct f; simpl in Ht; try discriminate;
    unfold sample_begin, sample_end, sample_alloc, sample_free, sample_read, sample_write in Ht;
    try (destruct (should_sample _ _) as [yes s1] eqn:He; apply Hs in He;
         assert (Hs1 : frames s s1) by first [exact He|etrans; [apply frames_begin_phase|exact He]]);
    repeat case_match; simplify_eq; try done; try (etrans; [exact Hs1|]);
    solve [eapply Hr, Ht|eapply hframes_world, Ht
          |eapply (hframes_real real (hret 0)), Ht; [exact Hr|apply hframes_ret]
          |eapply hframes_real; [exact Hr| |exact Ht]; apply hframes_world].
Qed.

Lemma call_frames fuel g f args tid : hframes (call fuel g f args tid).
Proof.
  revert g. induction fuel as [|fuel IH]; intros g s w r s' w' Hc; [done|].
  assert (He : ∀ o : option fn, from_option hframes True ((λ g', call fuel g' f args tid) <$> o)) by (intros [g'|]; simpl; [apply IH|done]).
  destruct g; simpl in Hc.
  - eapply hframes_world, Hc.
  - eapply hframes_world, Hc.
  - eapply hframes_trace, Hc. apply He.
  - eapply hframes_sample, Hc. apply He.
  - unfold end_with_invariant in Hc. apply bind_Some in Hc as ([[r0 s0] w0] & Hc & Ht). simplify_eq.
    eapply hframes_real; [apply He| |exact Hc]. apply hframes_ret.
Qed.
End Frame.

(** ** Calls return *)

Section Invariant.
Context {W : Type} `{World W}.
Implicit Types w : W.

(** Entries that forward no further. *)
Definition plain (o : option fn) : Prop := match o with None | Some Stub | Some (Backend _) => True | _ => False end.

(** A wrapper exists for the fields it is installed in. *)
Definition fits (g : fn) (f : field) : Prop :=
  match g with Trace | Sample => f ∈ TM_HOOK_ACCESS_FIELDS | EndWithInvariant => f = end_ | _ => True end.

Record hinv s : Prop := {
  hi_hook : ∀ f, fits (hook s f) f;
  hi_trace : ∀ f, plain (s_trace_real_hooks s f);
  hi_real : ∀ f, plain (s_real_hooks s f) ∨ (s_real_hooks s f = Some Trace ∧ f ∈ TM_HOOK_ACCESS_FIELDS);
  hi_registered : s_registered s = true → ∀ f, plain (s_real_hooks s f);
  hi_original : match g_original_tm_end s with None => hook s end_ ≠ EndWithInvariant | Some g => g ≠ EndWithInvariant end;
  hi_aborts : ∀ tid, t_abort_count (locals s tid) = 0;
}.

Lemma hinv_frames s s' : hinv s → frames s s' → hinv s'.
Proof.
  intros [H1 H2 H3 H4 H5 H6] [Ht Ha]. unfold tables in Ht. injection Ht as E1 E2 E3 E4 E5 E6 E7 E8 E9 E10 E11 E12.
  split; try (rewrite ?E1, ?E3, ?E4, ?E6, ?E9; done). intros tid. by rewrite Ha.
Qed.

Lemma plain_backend h f : backend_table h → plain (h f).
Proof. intros Hh. destruct (h f) as [g|] eqn:Hf; [|done]. by destruct (Hh f g Hf) as [b ->]. Qed.

Lemma plain_fits o f : plain o → fits (default Stub o) f.
Proof. by destruct o as [[]|]. Qed.

Lemma hinv_set_sampling s m r n : hinv s → hinv (set_sampling s m r n).
Proof. intros []. by split. Qed.

Lemma hinv_sampling_mode m s : hinv s → hinv (tm_set_sampling_mode m s).
Proof. intros Hi. unfold tm_set_sampling_mode. by repeat (case_bool_decide; [by apply hinv_set_sampling|]). Qed.

Lemma hinv_install s g : g = Trace ∨ g = Sample → hinv s →
  hinv (set_hooks s (λ f, if bool_decide (f ∈ TM_HOOK_ACCESS_FIELDS) then g else hook s f)).
Proof.
  intros Hg [H1 H2 H3 H4 H5 H6]. split; simpl; try done.
  - intros f. case_bool_decide; [|apply H1]. by destruct Hg as [-> | ->].
  - destruct (g_original_tm_end s); [done|]. by destruct Hg as [-> | ->].
Qed.

Lemma hinv_startup file mode rate full : hinv (startup file mode rate full).
Proof.
  assert (hinv hinit) as H0 by (split; simpl; try done; by left).
  assert (hinv (tm_trace_hook_init file hinit)) as Hi.
  { unfold tm_trace_hook_init. destruct file; [|done]. apply hinv_install; [by left|]. destruct H0. by split. }
  unfold startup, tm_sample_hook_init. destruct mode as [m|]; [|done]. case_bool_decide as Hm; [done|].
  apply hinv_install; [by right|].
  match goal with |- context [tm_set_sampling_mode m ?s1] => assert (hinv s1) as Hs1 end.
  { destruct Hi as [H1 H2 H3 H4 H5 H6]. split; try done; [|by destruct file]. intros f. simpl. destruct file; simpl; [|by left].
    case_bool_decide; [by right|by left]. }
  apply (hinv_sampling_mode m) in Hs1. unfold tm_set_sample_rate. destruct rate, full; repeat apply hinv_set_sampling; done.
Qed.

(** Once a backend is registered, the number of threads does not matter. *)
Lemma apply_registered plugin s : s_registered s = true →
  apply_hooks_unlocked plugin s =
    if g_trace_active s then set_trace_real s (s_real_hooks s) else set_hooks s (λ f, default Stub (s_real_hooks s f)).
Proof. intros Hr. unfold apply_hooks_unlocked. rewrite Hr. simpl. rewrite andb_false_r. by destruct plugin. Qed.

Lemma hinv_apply plugin s : hinv s → s_registered s = true → hinv (apply_hooks_unlocked plugin s).
Proof.
  intros [H1 H2 H3 H4 H5 H6] Hr. rewrite apply_registered by done. destruct (g_trace_active s).
  - split; simpl; try done. by apply H4.
  - split; simpl; try done.
    + intros f. apply plain_fits. by apply H4.
    + destruct (g_original_tm_end s); [done|]. specialize (H4 Hr end_). by destruct (s_real_hooks s end_) as [[]|].
Qed.

Lemma hinv_configure plugin c s : hinv s → config_ok c → hinv (configure plugin c s).
Proof.
  intros Hi Hok. destruct c as [h|n| | |h|cb|r|m]; simpl in *.
  - apply hinv_apply; [|done]. destruct Hi as [H1 H2 H3 H4 H5 H6]. split; simpl; try done; intros; [left|]; by apply plain_backend.
  - unfold tm_set_num_threads. simpl. destruct (s_registered s) eqn:Hr; [apply hinv_apply; [|done]|]; by destruct Hi; split.
  - unfold tm_hook_init_thread. simpl. case_match eqn:Hb; [apply andb_prop in Hb as [_ Hb]; apply hinv_apply; [|done]|]; by destruct Hi; split.
  - by destruct Hi; split.
  - destruct Hi as [H1 H2 H3 H4 H5 H6]. split; simpl; try done.
    + intros f. destruct (h f) as [g|] eqn:Hf; simpl; [|done]. by destruct (Hok f g Hf) as [b ->].
    + intros f. destruct (h f) as [g|] eqn:Hf; [|done]. left. rewrite <- Hf. by apply plain_backend.
    + intros Hr f. destruct (h f) as [g|] eqn:Hf; [|by apply H4]. rewrite <- Hf. by apply plain_backend.
    + destruct (g_original_tm_end s); [done|]. destruct (h end_) as [g|] eqn:Hf; simpl; [|done]. by destruct (Hok end_ g Hf) as [b ->].
  - unfold tm_register_invariant_callback. destruct Hi as [H1 H2 H3 H4 H5 H6]. destruct (g_original_tm_end s) eqn:Ho; split; simpl; try done.
    intros f. destruct (decide (f = end_)) as [->|?]; [by rewrite fn_lookup_insert|by rewrite fn_lookup_insert_ne].
  - by destruct Hi; split.
  - by apply hinv_sampling_mode.
Qed.

Lemma reachable_hinv plugin s : hooks_reachable plugin s → hinv s.
Proof.
  induction 1.
  - apply hinv_startup.
  - by apply hinv_configure.
  - eapply hinv_frames; [done|]. by eapply call_frames.
  - eapply hinv_frames; [done|]. unfold tm_trace_abort. case_match; [apply frames_emit|by apply frames_preorder].
  - eapply hinv_frames; [done|]. unfold tm_trace_contention. case_match; [apply frames_emit|by apply frames_preorder].
  - by destruct IHhooks_reachable; split.
Qed.

(** How deep a call of a function nests. *)
Definition depth (g : fn) : nat := match g with Stub | Backend _ => 1 | Trace => 2 | Sample => 3 | EndWithInvariant => 4 end.

Definition hreturns (h : hfun (W := W)) : Prop := ∀ s w, hinv s → ∃ r s' w', h s w = Some (r, s', w').

Lemma hreturns_world k : hreturns (hworld k).
Proof. intros s w _. unfold hworld. destruct (k w). eauto. Qed.

Lemma hreturns_ret r : hreturns (hret r).
Proof. intros s w _. unfold hret. eauto. Qed.

Lemma hreturns_real (real : option hfun) other : from_option hreturns True real → hreturns other → hreturns (real_or real other).
Proof. intros Hr Ho. destruct real; [exact Hr|exact Ho]. Qed.

Lemma hreturns_pre (real : option hfun) other s0 s w :
  from_option hreturns True real → hreturns other → hinv s → frames s s0 → ∃ r s' w', real_or real other s0 w = Some (r, s', w').
Proof. intros Hr Ho Hi Hf. apply hreturns_real; [done|done|]. by eapply hinv_frames. Qed.

Lemma hreturns_trace f args tid real : from_option hreturns True real → f ∈ TM_HOOK_ACCESS_FIELDS → hreturns (trace_fn f args tid real).
Proof.
  intros Hr Hf s w Hi.
  assert (Hpost : ∀ other, hreturns other → ∃ r s' w', real_or real other s w = Some (r, s', w')) by (intros; by apply hreturns_real).
  destruct f; simpl; unfold trace_begin, trace_end, trace_malloc, trace_calloc, trace_realloc, trace_free, trace_read, trace_write;
    try (eapply hreturns_pre; [done|first [apply hreturns_ret|apply hreturns_world]|exact Hi|]; frame_done; done);
    try (match goal with |- context [real_or real ?o s w] => destruct (Hpost o) as (r & s' & w' & ->); [apply hreturns_world|] end;
         simpl; repeat case_match; eauto; done).
  all: vm_compute in Hf; by repeat (apply elem_of_cons in Hf as [Hf|Hf]; [done|]); apply elem_of_nil in Hf.
Qed.

Lemma not_access f : f = get_env ∨ f = set_jmpbuf ∨ f = get_thread_state → f ∉ TM_HOOK_ACCESS_FIELDS.
Proof. intros Hf. apply (bool_decide_unpack _). by destruct Hf as [-> | [-> | ->]]. Qed.

Lemma hreturns_sample f args tid real : from_option hreturns True real → f ∈ TM_HOOK_ACCESS_FIELDS → hreturns (sample_fn f args tid real).
Proof.
  intros Hr Hf s w Hi.
  assert (Hs : ∀ s0 b s1, hinv s0 → should_sample s0 tid = (b, s1) → hinv s1).
  { intros s0 b s1 Hi0 Heq. eapply hinv_frames; [exact Hi0|]. pose proof (frames_should_sample s0 tid) as Hfr. by rewrite Heq in Hfr. }
  assert (Hb : hinv (sample_begin_phase s tid)) by (eapply hinv_frames; [exact Hi|apply frames_begin_phase]).
  destruct f; simpl; unfold sample_begin, sample_end, sample_alloc, sample_free, sample_read, sample_write;
    try (destruct (should_sample _ _) as [yes s1] eqn:He; apply Hs in He; [|done]);
    try (destruct yes, real; simpl; eauto; first [by apply Hr|by apply hreturns_world]).
  - apply hreturns_real; [done|apply hreturns_world|done].
  - by destruct (not_access get_env); [left|].
  - by destruct (not_access set_jmpbuf); [right; left|].
  - by destruct (not_access get_thread_state); [right; right|].
Qed.

Lemma call_returns fuel g f args tid s w :
  hinv s → fits g f → (depth g ≤ fuel)%nat → ∃ r s' w', call fuel g f args tid s w = Some (r, s', w').
Proof.
  revert g s w. induction fuel as [|fuel IH]; intros g s w Hi Hg Hd; [destruct g; simpl in Hd; lia|].
  assert (Hplain : (1 ≤ fuel)%nat → ∀ o, plain o → from_option hreturns True ((λ g', call fuel g' f args tid) <$> o)).
  { intros Hle [g'|] Hp; simpl; [|done]. intros s0 w0 Hi0. apply IH; [done| |]; by destruct g'. }
  destruct g; simpl in *.
  - by apply hreturns_world.
  - by apply hreturns_world.
  - apply hreturns_trace; [|done|done]. apply Hplain; [lia|]. apply Hi.
  - apply hreturns_sample; [|done|done]. destruct (hi_real s Hi f) as [Hp|[-> Hf]]; [apply Hplain; [lia|done]|].
    simpl. intros s0 w0 Hi0. apply IH; [done|done|simpl; lia].
  - unfold end_with_invariant. subst f. pose proof (hi_original s Hi) as Ho.
    assert (Hr : from_option hreturns True ((λ g', call fuel g' end_ args tid) <$> g_original_tm_end s)).
    { destruct (g_original_tm_end s) as [g'|]; simpl; [|done]. intros s0 w0 Hi0. apply IH; [done| |destruct g'; simpl; done || lia].
      destruct g'; try done; apply (bool_decide_unpack (end_ ∈ TM_HOOK_ACCESS_FIELDS)); done. }
    destruct (hreturns_real _ (hret 0) Hr (hreturns_ret 0) s w Hi) as (r & s' & w' & ->). simpl. eauto.
Qed.

(** Whatever was traced, sampled, registered, swapped or wrapped, and after any calls
    and events, every operation of a program returns: the wrappers never call each other in
    a cycle, and no hook variable is null. *)
Theorem hooks_calls_return plugin s f args tid w : hooks_reachable (W := W) plugin s → ∃ r s' w', hook_call f args tid s w = Some (r, s', w').
Proof.
  intros Hr. apply reachable_hinv in Hr. apply call_returns; [done|apply Hr|]. destruct (hook s f); simpl; lia.
Qed.
End Invariant.

(** ** Calls reach what was installed *)

(** The table a history of configurations leaves: the last registration, and the
    entries swapped in since. *)
Definition install (t : TMRealHooks) (c : config) : TMRealHooks :=
  match c with CRegister h => h | CSwap h => λ f, match h f with Some g => Some g | None => t f end | _ => t end.
Definition installed (cs : list config) : TMRealHooks := foldl install no_hooks cs.

Definition no_oracle (cs : list config) : Prop := Forall (λ c, match c with COracle _ => False | _ => True end) cs.
Definition no_swap (cs : list config) : Prop := Forall (λ c, match c with CSwap _ => False | _ => True end) cs.

(** Without tracing and sampling, the hook variables hold the table. *)
Definition holds_table (t : TMRealHooks) s : Prop :=
  g_trace_active s = false ∧ g_trace_file s = None ∧ s_real_hooks s = t ∧ (∀ f, hook s f = default Stub (t f)).

Lemma configure_table plugin c s t :
  no_oracle [c] → holds_table t s → holds_table (install t c) (configure plugin c s).
Proof.
  intros Hc (Ha & Hfile & Ht & Hh). apply Forall_cons in Hc as [Hc _].
  assert (Happly : ∀ s0 t0, s_registered s0 = true → g_trace_active s0 = false → g_trace_file s0 = None → s_real_hooks s0 = t0 →
    holds_table t0 (apply_hooks_unlocked plugin s0)).
  { intros s0 t0 Hr Ha0 Hf0 Ht0. rewrite apply_registered, Ha0 by done. subst t0. by split_and!. }
  destruct c as [h|n| | |h|cb|r|m]; simpl.
  - by apply Happly.
  - unfold tm_set_num_threads. simpl. case_match; [by apply Happly|by split_and!].
  - unfold tm_hook_init_thread. simpl. case_match eqn:Hb; [apply andb_prop in Hb as [_ ?]; by apply Happly|by split_and!].
  - by split_and!.
  - unfold holds_table. simpl. split_and!; try done; [by rewrite Ht|]. intros f. by destruct (h f); simpl.
  - by destruct Hc.
  - by split_and!.
  - unfold tm_set_sampling_mode. repeat case_match; by split_and!.
Qed.

Lemma configured_table plugin cs : no_oracle cs → holds_table (installed cs) (configured plugin cs (startup false None None None)).
Proof.
  unfold configured, installed. induction cs as [|c cs IH] using rev_ind; intros Hc; [done|].
  apply Forall_app in Hc as [Hcs Hc]. rewrite !foldl_app. simpl. apply configure_table; [done|]. by apply IH.
Qed.

(** ** Tracing *)

(** What a traced call does to the state of the hooks, from its result. *)
Definition trace_effect (f : field) (args : list Z) (tid r : Z) s : hstate :=
  match f with
  | begin => trace_emit tid 2 0 0 0 0 (bump_tx s tid)
  | end_ => trace_emit tid 3 0 0 (tx_counts (locals s tid)) 0 s
  | malloc => if negb (r =? 0) then trace_emit tid 4 r (as_int (arg args 0)) 0 0 s else s
  | calloc => if negb (r =? 0) then trace_emit tid 4 r (as_int (arg args 0 * arg args 1)) 0 0 s else s
  | realloc =>
      let s := if negb (arg args 0 =? 0) && negb (r =? arg args 0) then trace_emit tid 5 (arg args 0) 0 0 0 s else trace_tick s in
      if negb (r =? 0) then trace_emit tid 4 r (as_int (arg args 1)) 0 0 s else s
  | free => if negb (arg args 0 =? 0) then trace_emit tid 5 (arg args 0) 0 0 0 s else s
  | read t => trace_emit tid 0 (arg args 0) (Z.of_nat (type_size t)) r 0 (bump_reads s tid)
  | write t => trace_emit tid 1 (arg args 0) (Z.of_nat (type_size t)) (arg args 1) 0 (bump_writes s tid)
  | _ => s
  end.

(** The accesses a trace records: type, thread, address, width and value. *)
Definition access : Type := Z * Z * Z * Z * Z.
Definition line_access (l : trace_line) : access := (l_type l, l_tid l, l_addr l, l_width l, l_val l).
Definition is_access (l : trace_line) : bool := l_type l <=? 1.
Definition accesses (ls : list trace_line) : list access := line_access <$> List.filter is_access ls.

(** The accesses a program makes, from its operations and their results. *)
Definition op_access (o : op) (r : Z) : list access :=
  match o with
  | (read t, args, tid) => [(0, Z.land tid 0xffff, arg args 0, Z.of_nat (type_size t), r)]
  | (write t, args, tid) => [(1, Z.land tid 0xffff, arg args 0, Z.of_nat (type_size t), arg args 1)]
  | _ => []
  end.
Definition prog_accesses (prog : list op) (rs : list Z) : list access := concat (zip_with op_access prog rs).

(** The trace is in order: time stamps increase and are below the clock. *)
Definition trace_ordered (n : Z) s : Prop :=
  match g_trace_file s with
  | None => False
  | Some ls => 0 ≤ g_trace_ts s ≤ n ∧ Sorted Z.lt (l_ts <$> ls) ∧ Forall (λ l, l_ts l < g_trace_ts s) ls
  end.

Lemma sorted_snoc (l : list Z) x : Sorted Z.lt l → Forall (λ y, y < x) l → Sorted Z.lt (l ++ [x]).
Proof.
  induction 1 as [|y l Hl IH Hr]; intros Hf; simpl; [by repeat constructor|].
  apply Forall_cons in Hf as [Hy Hf]. constructor; [by apply IH|]. destruct l as [|z l]; simpl; constructor; [done|]. by inversion Hr.
Qed.

Lemma ordered_emit n tid ty a k v c s : trace_ordered n s → n + 1 < 2 ^ 64 → trace_ordered (n + 1) (trace_emit tid ty a k v c s).
Proof.
  unfold trace_ordered, trace_emit. destruct (g_trace_file s) as [ls|]; [|done]. simpl. intros (Hts & Hs & Hf) Hn.
  rewrite (wrap_small 64 (g_trace_ts s + 1)) by (split; lia). split; [lia|]. split.
  - rewrite fmap_app. simpl. apply sorted_snoc; [done|]. by apply Forall_fmap.
  - apply Forall_app. split; [|by repeat constructor; simpl; lia]. eapply Forall_impl; [exact Hf|]. simpl. lia.
Qed.

Lemma ordered_tick n s : trace_ordered n s → n + 1 < 2 ^ 64 → trace_ordered (n + 1) (trace_tick s).
Proof.
  unfold trace_ordered, trace_tick. destruct (g_trace_file s) as [ls|] eqn:Hls; simpl; rewrite ?Hls; [|done]. intros (Hts & Hs & Hf) Hn.
  rewrite (wrap_small 64 (g_trace_ts s + 1)) by (split; lia). split; [lia|]. split; [done|]. eapply Forall_impl; [exact Hf|]. simpl. lia.
Qed.

Lemma ordered_mono n k s : trace_ordered n s → n ≤ k → trace_ordered k s.
Proof. unfold trace_ordered. destruct (g_trace_file s); [|done]. intros ([] & ? & ?) ?. split_and!; done || lia. Qed.

Lemma ordered_local n s tid l : trace_ordered n s → trace_ordered n (set_local s tid l).
Proof. done. Qed.

Lemma effect_ordered n f args tid r s : trace_ordered n s → n + 2 < 2 ^ 64 → trace_ordered (n + 2) (trace_effect f args tid r s).
Proof.
  intros Ho Hn.
  assert (H1 : ∀ s0, trace_ordered (n + 1) s0 → trace_ordered (n + 2) s0) by (intros s0 H0; apply (ordered_mono (n + 1)); [done|lia]).
  assert (H0 : trace_ordered (n + 2) s) by (apply (ordered_mono n); [done|lia]).
  destruct f; simpl; try done; repeat case_match; try done; try (apply H1; apply ordered_emit; [done|lia]);
    try (apply H1; apply ordered_tick; [done|lia]);
    replace (n + 2) with (n + 1 + 1) by lia; (apply ordered_emit; [|lia]); first [apply ordered_emit|apply ordered_tick]; done || lia.
Qed.

Lemma effect_accesses f args tid r s ls :
  g_trace_file s = Some ls → ∃ ls', g_trace_file (trace_effect f args tid r s) = Some (ls ++ ls') ∧ accesses ls' = op_access (f, args, tid) r.
Proof.
  intros Hls. destruct f; simpl; unfold trace_emit, trace_tick; repeat case_match; simpl in *; simplify_eq; rewrite ?Hls;
    try (by eexists); try (by exists []; rewrite app_nil_r).
  eexists [_; _]. by rewrite <- app_assoc.
Qed.

Section Tracing.
Context {W : Type} `{World W}.
Implicit Types w : W.

(** A program run on the functions of a table. *)
Definition direct_call (t : TMRealHooks) (f : field) (args : list Z) w : Z * W :=
  match t f with Some (Backend b) => w_backend b f args w | _ => stub f args w end.
Fixpoint direct_run (t : TMRealHooks) (prog : list op) w : list Z * W :=
  match prog with
  | [] => ([], w)
  | (f, args, tid) :: prog =>
      let '(r, w) := direct_call t f args w in
      let '(rs, w) := direct_run t prog w in (r :: rs, w)
  end.

(** Every operation on memory has a function of a backend. *)
Definition complete (t : TMRealHooks) : Prop := ∀ f, f ∈ TM_HOOK_ACCESS_FIELDS → ∃ b, t f = Some (Backend b).
Definition accesses_only (prog : list op) : Prop := Forall (λ o, o.1.1 ∈ TM_HOOK_ACCESS_FIELDS) prog.

(** The trace wrappers are installed, and forward to the table. *)
Definition traces_table (t : TMRealHooks) s : Prop :=
  g_trace_active s = true ∧ tracing s = true ∧ (∀ f, f ∈ TM_HOOK_ACCESS_FIELDS → hook s f = Trace ∧ s_trace_real_hooks s f = t f).

Lemma traces_frames t s s' : frames s s' → traces_table t s → traces_table t s'.
Proof. intros [Ht _] (H1 & H2 & H3). unfold tables in Ht. injection Ht as E1 E2 E3 E4 E5 E6 E7 _ _ _ _ _. unfold traces_table. by rewrite E1, E5, E6, E7. Qed.

Lemma traced_call t f args tid s w :
  traces_table t s → complete t → f ∈ TM_HOOK_ACCESS_FIELDS →
  hook_call f args tid s w = Some ((direct_call t f args w).1, trace_effect f args tid (direct_call t f args w).1 s, (direct_call t f args w).2).
Proof.
  intros (Ha & Htr & Hh) Hc Hf. destruct (Hh f Hf) as [Hk Hr]. destruct (Hc f Hf) as [b Hb]. unfold hook_call, direct_call. rewrite Hk, Hb.
  change 4%nat with (S (S 2)). cbn [call]. rewrite Hr, Hb. cbn [call fmap option_fmap option_map].
  assert (He : ∀ s', frames s s' → tracing s' = true) by (intros s' [Ht _]; unfold tables in Ht; by injection Ht as _ _ _ _ _ _ -> _).
  destruct f; simpl; unfold trace_begin, trace_end, trace_malloc, trace_calloc, trace_realloc, trace_free, trace_read, trace_write, real_or, hworld; simpl;
    rewrite ?Htr; destruct (w_backend b _ args w) as [r w'] eqn:Hw; simpl; rewrite ?Htr; simpl; try done.
  all: try (repeat case_match; done).
  all: exfalso; revert Hf; first [apply not_access; by left|apply not_access; by right; left|apply not_access; by right; right].
Qed.

Definition own_fields (t : TMRealHooks) (prog : list op) : Prop := Forall (λ o, ∀ g, t o.1.1 = Some g → ∃ b, g = Backend b) prog.

Lemma run_untraced t prog s w : holds_table t s → own_fields t prog →
  hook_run prog s w = Some ((direct_run t prog w).1, s, (direct_run t prog w).2).
Proof.
  intros Hh. revert w. induction prog as [|[[f args] tid] prog IH]; intros w Hp; [done|]. apply Forall_cons in Hp as [Hf Hp]. simpl in Hf.
  assert (hook_call f args tid s w = Some ((direct_call t f args w).1, s, (direct_call t f args w).2)) as Hc.
  { destruct Hh as (_ & _ & _ & Hh). unfold hook_call, direct_call. rewrite Hh. destruct (t f) as [g|] eqn:Ht; simpl.
    - destruct (Hf g eq_refl) as [b ->]. simpl. unfold hworld. by destruct (w_backend b f args w).
    - unfold hworld. by destruct (stub f args w). }
  simpl. rewrite Hc. simpl. rewrite IH by done. simpl.
  destruct (direct_call t f args w) as [r w1]. simpl. by destruct (direct_run t prog w1).
Qed.

Lemma complete_own t prog : complete t → accesses_only prog → own_fields t prog.
Proof.
  intros Hc Hp. eapply Forall_impl; [exact Hp|]. intros [[f args] tid] Hf g Hg. simpl in *. destruct (Hc f Hf) as [b Hb]. exists b. congruence.
Qed.

Lemma run_traced t n prog s w ls :
  traces_table t s → complete t → accesses_only prog → trace_ordered n s → g_trace_file s = Some ls → n + 2 * Z.of_nat (length prog) < 2 ^ 64 →
  ∃ s' ls', hook_run prog s w = Some ((direct_run t prog w).1, s', (direct_run t prog w).2) ∧
    trace_ordered (n + 2 * Z.of_nat (length prog)) s' ∧
    g_trace_file s' = Some (ls ++ ls') ∧ accesses ls' = prog_accesses prog (direct_run t prog w).1.
Proof.
  intros Ht Hc. revert n s w ls Ht. induction prog as [|[[f args] tid] prog IH]; intros n s w ls Ht Hp Ho Hls Hn.
  { exists s, []. simpl in *. rewrite app_nil_r. split_and!; try done. by apply (ordered_mono n); [|lia]. }
  apply Forall_cons in Hp as [Hf Hp]. simpl in Hf. rewrite length_cons in Hn.
  pose proof (traced_call t f args tid s w Ht Hc Hf) as Hcall. simpl. rewrite Hcall. simpl.
  destruct (direct_call t f args w) as [r w1]. simpl in *.
  destruct (effect_accesses f args tid r s ls Hls) as (l1 & Hl1 & Ha1).
  destruct (IH (n + 2) (trace_effect f args tid r s) w1 (ls ++ l1)) as (s' & l2 & Hrun & Ho' & Hl2 & Ha2); try done.
  { eapply traces_frames; [|exact Ht]. by eapply call_frames. }
  { apply effect_ordered; [done|lia]. }
  { lia. }
  rewrite Hrun. simpl. destruct (direct_run t prog w1) as [rs w2]. simpl in *. exists s', (l1 ++ l2). split_and!; [done| |by rewrite app_assoc|].
  - eapply ordered_mono; [exact Ho'|]. lia.
  - unfold accesses in *. rewrite List.filter_app, fmap_app, Ha1, Ha2. done.
Qed.
End Tracing.

(** A trace from start-up goes through the registered table, as long as nothing is
    swapped in under the wrappers. *)
Definition starts_trace (cs : list config) s : Prop :=
  g_trace_active s = true ∧ g_trace_file s = Some [] ∧ g_trace_ts s = 0 ∧ (∀ f, f ∈ TM_HOOK_ACCESS_FIELDS → hook s f = Trace) ∧
  (if s_registered s then s_real_hooks s = installed cs ∧ s_trace_real_hooks s = installed cs else installed cs = no_hooks).

Lemma configured_trace plugin cs : no_oracle cs → no_swap cs → starts_trace cs (configured plugin cs (startup true None None None)).
Proof.
  unfold configured. induction cs as [|c cs IH] using rev_ind; intros Hc Hw.
  { split_and!; try done. intros f Hf. simpl. by rewrite bool_decide_true. }
  apply Forall_app in Hc as [Hcs Hc]. apply Forall_app in Hw as [Hws Hw]. apply Forall_cons in Hc as [Hc _]. apply Forall_cons in Hw as [Hw _].
  rewrite foldl_app. cbn [foldl]. specialize (IH Hcs Hws). revert IH. generalize (foldl (λ s c, configure plugin c s) (startup true None None None) cs) as s.
  unfold starts_trace, installed. rewrite foldl_app. simpl. intros s (Ha & Hf & Hts & Hh & Ht).
  destruct c as [h|n| | |h|cb|r|m]; simpl; try done.
  - unfold tm_register_real_hooks. rewrite apply_registered by done. simpl. rewrite Ha. by split_and!.
  - unfold tm_set_num_threads. simpl. destruct (s_registered s) eqn:Hr; simpl; [rewrite apply_registered by done; simpl; rewrite Ha; simpl|];
      rewrite Hr; split_and!; try done; by destruct Ht.
  - unfold tm_hook_init_thread. simpl. destruct (_ && _) eqn:Hb.
    + apply andb_prop in Hb as [_ Hr]. rewrite apply_registered by done. simpl. rewrite Ha. simpl. rewrite Hr in *. split_and!; try done; by destruct Ht.
    + by split_and!.
  - unfold tm_set_sampling_mode. repeat (case_bool_decide; [by split_and!|]). by split_and!.
Qed.

Section Transparent.
Context {W : Type} `{World W}.

(** Tracing a program does not change it, when its calls happen one after the other and
    return ([HooksSteps] has threads that interleave).  With the same registrations and
    thread events, the program gets the same results from the backend and leaves the same world
    with [TM_TRACE_PATH] set and without; and the trace then holds exactly its reads and
    writes, with the values read and written, in order and at increasing time stamps. *)
Theorem tracing_transparent plugin cs (prog : list op) (w : W) :
  no_oracle cs → no_swap cs → complete (installed cs) → accesses_only prog → 2 * Z.of_nat (length prog) < 2 ^ 64 →
  ∃ rs w' s1 s2 ls,
    hook_run prog (configured plugin cs (startup false None None None)) w = Some (rs, s1, w') ∧
    hook_run prog (configured plugin cs (startup true None None None)) w = Some (rs, s2, w') ∧
    direct_run (installed cs) prog w = (rs, w') ∧
    g_trace_file s2 = Some ls ∧ accesses ls = prog_accesses prog rs ∧ Sorted Z.lt (l_ts <$> ls).
Proof.
  intros Hno Hns Hc Hp Hn. destruct (configured_trace plugin cs Hno Hns) as (Ha & Hf & Hts & Hh & Ht).
  assert (Htab : traces_table (installed cs) (configured plugin cs (startup true None None None))).
  { split_and!; [done|unfold tracing; by rewrite Hf|]. intros f Hacc. split; [by apply Hh|]. destruct (s_registered _); [by destruct Ht as [_ ->]|].
    destruct (Hc f Hacc) as [b Hb]. by rewrite Ht in Hb. }
  destruct (run_traced (installed cs) 0 prog _ w [] Htab Hc Hp) as (s' & ls & Hrun & Ho & Hls & Hacc); [|done|lia|].
  { unfold trace_ordered. rewrite Hf, Hts. by split_and!. }
  exists (direct_run (installed cs) prog w).1, (direct_run (installed cs) prog w).2. do 3 eexists. split_and!.
  - apply run_untraced; [by apply configured_table|by apply complete_own].
  - exact Hrun.
  - by destruct (direct_run _ _ _).
  - exact Hls.
  - exact Hacc.
  - unfold trace_ordered in Ho. rewrite Hls in Ho. apply Ho.
Qed.

Lemma installed_backend cs : Forall config_ok cs → backend_table (installed cs).
Proof.
  unfold installed. induction cs as [|c cs IH] using rev_ind; intros Hc; [by intros f g|]. apply Forall_app in Hc as [Hcs Hc]. apply Forall_cons in Hc as [Hc _].
  rewrite foldl_app. cbn [foldl]. specialize (IH Hcs). destruct c as [h|n| | |h|cb|r|m]; simpl in *; try done.
  intros f g. destruct (h f) as [g'|] eqn:Hf; [|by apply IH]. intros [= <-]. by apply (Hc f).
Qed.

(** C26: After any registrations, swaps, and changes of the number of threads, a program's
    operations are the functions of the last registration and of the swaps since then, and
    direct accesses where these are null: nothing later, a starting thread included, reverts
    a swap. *)
Theorem hooks_reach_installed plugin cs (prog : list op) (w : W) :
  no_oracle cs → Forall config_ok cs →
  hook_run prog (configured plugin cs (startup false None None None)) w =
    Some ((direct_run (installed cs) prog w).1, configured plugin cs (startup false None None None), (direct_run (installed cs) prog w).2).
Proof.
  intros Hno Hok. apply run_untraced; [by apply configured_table|]. apply Forall_forall. intros o _ g Hg. by eapply installed_backend.
Qed.
End Transparent.

(** ** Counts in the trace *)

Definition is_read (o : op) : bool := match o.1.1 with read _ => true | _ => false end.
Definition is_write (o : op) : bool := match o.1.1 with write _ => true | _ => false end.
Definition by_thread (tid : Z) (p : op → bool) (prog : list op) : Z := Z.of_nat (length (List.filter (λ o, (o.2 =? tid) && p o) prog)).

(** Another [begin] of the thread would start the counts again. *)
Definition no_begin (tid : Z) (prog : list op) : Prop := Forall (λ o, o.2 = tid → o.1.1 ≠ begin) prog.

Lemma emit_locals tid ty a k v c s : locals (trace_emit tid ty a k v c s) = locals s.
Proof. unfold trace_emit. by destruct (g_trace_file s). Qed.

Lemma effect_counts f args tid r s j :
  (tid = j → f ≠ begin) →
  t_tx_reads (locals (trace_effect f args tid r s) j) =
    (if (tid =? j) && is_read (f, args, tid) then wrap64 (t_tx_reads (locals s j) + 1) else t_tx_reads (locals s j)) ∧
  t_tx_writes (locals (trace_effect f args tid r s) j) =
    (if (tid =? j) && is_write (f, args, tid) then wrap64 (t_tx_writes (locals s j) + 1) else t_tx_writes (locals s j)).
Proof.
  intros Hb. assert (Hne : tid ≠ j ∨ tid = j) by lia.
  destruct f; simpl; rewrite ?andb_false_r, ?andb_true_r; repeat case_match; rewrite ?emit_locals; simpl; rewrite ?emit_locals; try done;
    (destruct Hne as [Hne| ->]; [rewrite fn_lookup_insert_ne by done|rewrite fn_lookup_insert]); simpl;
    try (rewrite (proj2 (Z.eqb_neq tid j)) in * by done); try (rewrite Z.eqb_refl in *); try done; by destruct Hb.
Qed.

Lemma by_thread_cons tid p f args j prog :
  by_thread tid p ((f, args, j) :: prog) = (if (j =? tid) && p (f, args, j) then 1 else 0) + by_thread tid p prog.
Proof. unfold by_thread. cbn [List.filter snd]. destruct (_ && p _); rewrite ?length_cons; lia. Qed.

Lemma by_thread_le tid p prog : 0 ≤ by_thread tid p prog ≤ Z.of_nat (length prog).
Proof. unfold by_thread. split; [lia|]. apply inj_le, List.filter_length_le. Qed.

Lemma if_succ (b : bool) x : 0 ≤ x → 0 ≤ (if b then x + 1 else x) ≤ x + 1.
Proof. destruct b; lia. Qed.

Lemma if_succ_add (b : bool) x : (if b then x + 1 else x) = x + (if b then 1 else 0).
Proof. destruct b; lia. Qed.

Section Counts.
Context {W : Type} `{World W}.
Implicit Types w : W.
Context (t : TMRealHooks) (Hc : complete t).

Lemma run_counts prog s w rs s' w' tid :
  traces_table t s → accesses_only prog → no_begin tid prog → hook_run prog s w = Some (rs, s', w') →
  0 ≤ t_tx_reads (locals s tid) → 0 ≤ t_tx_writes (locals s tid) →
  t_tx_reads (locals s tid) + Z.of_nat (length prog) < 2 ^ 64 → t_tx_writes (locals s tid) + Z.of_nat (length prog) < 2 ^ 64 →
  t_tx_reads (locals s' tid) = t_tx_reads (locals s tid) + by_thread tid is_read prog ∧
  t_tx_writes (locals s' tid) = t_tx_writes (locals s tid) + by_thread tid is_write prog.
Proof using Hc.
  revert s w rs. induction prog as [|[[f args] j] prog IH]; intros s w rs Ht Hp Hb Hrun H1 H2 H3 H4.
  { simpl in Hrun. simplify_eq. unfold by_thread. simpl. lia. }
  apply Forall_cons in Hp as [Hf Hp]. apply Forall_cons in Hb as [Hbf Hb]. simpl in Hf, Hbf. rewrite length_cons in H3, H4.
  pose proof (traced_call t f args j s w Ht Hc Hf) as Hcall. simpl in Hrun. rewrite Hcall in Hrun. simpl in Hrun.
  destruct (direct_call t f args w) as [r w1]. simpl in *. destruct (hook_run prog _ w1) as [[[rs1 s1] w2]|] eqn:Hrest; [|done]. simpl in Hrun. simplify_eq.
  destruct (effect_counts f args j r s tid) as [Hr Hw]; [done|].
  rewrite (wrap_small 64 (t_tx_reads (locals s tid) + 1)) in Hr by (split; lia). rewrite (wrap_small 64 (t_tx_writes (locals s tid) + 1)) in Hw by (split; lia).
  assert (Htr : traces_table t (trace_effect f args j r s)) by (eapply traces_frames; [|exact Ht]; by eapply call_frames).
  assert (Hrb : 0 ≤ t_tx_reads (locals (trace_effect f args j r s) tid) ≤ t_tx_reads (locals s tid) + 1) by (rewrite Hr; by apply if_succ).
  assert (Hwb : 0 ≤ t_tx_writes (locals (trace_effect f args j r s) tid) ≤ t_tx_writes (locals s tid) + 1) by (rewrite Hw; by apply if_succ).
  destruct (IH _ w1 rs1 Htr Hp Hb Hrest) as [Hr' Hw']; [lia|lia|lia|lia|].
  rewrite Hr', Hw', Hr, Hw, !by_thread_cons. split; rewrite if_succ_add; lia.
Qed.

Lemma hook_run_app p1 p2 s w :
  hook_run (p1 ++ p2) s w = '(a, sa, wa) ← hook_run p1 s w; '(b, sb, wb) ← hook_run p2 sa wa; Some (a ++ b, sb, wb).
Proof using Type.
  revert s w. induction p1 as [|[[f args] j] p1 IH]; intros s w; simpl; [by destruct (hook_run p2 s w) as [[[] ]|]|].
  destruct (hook_call f args j s w) as [[[r1 sa] wa]|]; [|done]. simpl. rewrite IH. destruct (hook_run p1 sa wa) as [[[] ]|]; [|done]. simpl.
  by destruct (hook_run p2 _ _) as [[[] ]|].
Qed.

Lemma run_frames prog s w rs s' w' : hook_run prog s w = Some (rs, s', w') → frames s s'.
Proof using Type.
  revert s w rs. induction prog as [|[[f args] j] prog IH]; intros s w rs Hrun; simpl in Hrun; [by simplify_eq|].
  destruct (hook_call f args j s w) as [[[r1 sa] wa]|] eqn:Hk; [|done]. simpl in Hrun. destruct (hook_run prog sa wa) as [[[rs3 s3] w3]|] eqn:Hk2; [|done].
  simpl in Hrun. simplify_eq. etrans; [by eapply call_frames|]. by eapply IH.
Qed.

Lemma tx_counts_sum l : 0 ≤ t_tx_reads l < 2 ^ 32 → 0 ≤ t_tx_writes l < 2 ^ 32 → tx_counts l = t_tx_reads l * 2 ^ 32 + t_tx_writes l.
Proof using Type.
  intros Hr Hw. unfold tx_counts, shl64. rewrite wrap_small by (rewrite Z.shiftl_mul_pow2 by lia; split; lia).
  rewrite <- Z.shiftl_mul_pow2 by lia. symmetry. rewrite <- Z.add_lor_land at 1.
  replace (Z.land (Z.shiftl (t_tx_reads l) 32) (t_tx_writes l)) with 0; [lia|].
  assert (is_w 32 (t_tx_writes l)) by done. bits. destruct (Z.lt_ge_cases i 32); bits_range; by rewrite ?andb_false_r.
Qed.

(** The [end] line of a transaction carries the number of its reads and writes. *)
Theorem trace_end_counts body s w rs s' w' tid :
  traces_table t s → accesses_only body → no_begin tid body → Z.of_nat (length body) < 2 ^ 32 →
  hook_run ([(begin, [], tid)] ++ body ++ [(end_, [], tid)]) s w = Some (rs, s', w') →
  ∃ ls ts txid, g_trace_file s' =
    Some (ls ++ [TL ts (Z.land tid 0xffff) 3 txid 0 0 (by_thread tid is_read body * 2 ^ 32 + by_thread tid is_write body) 0]).
Proof using Hc.
  intros Ht Hp Hb Hn Hrun.
  assert (Hacc : begin ∈ TM_HOOK_ACCESS_FIELDS ∧ end_ ∈ TM_HOOK_ACCESS_FIELDS) by (split; apply (bool_decide_unpack _); done). destruct Hacc as [Hbeg Hend].
  rewrite hook_run_app in Hrun. cbn [hook_run] in Hrun. pose proof (traced_call t begin [] tid s w Ht Hc Hbeg) as Hcall. rewrite Hcall in Hrun.
  destruct (direct_call t begin [] w) as [r w1]. cbn [mbind option_bind fst snd] in Hrun, Hcall.
  set (s1 := trace_effect begin [] tid r s) in *.
  assert (Ht1 : traces_table t s1) by (eapply traces_frames; [|exact Ht]; by eapply call_frames).
  assert (Hs1 : t_tx_reads (locals s1 tid) = 0 ∧ t_tx_writes (locals s1 tid) = 0) by (unfold s1; simpl; by rewrite emit_locals; simpl; rewrite fn_lookup_insert).
  rewrite hook_run_app in Hrun. destruct (hook_run body s1 w1) as [[[rs2 s2] w2]|] eqn:Hbody; [|done]. cbn [mbind option_bind hook_run] in Hrun.
  assert (Ht2 : traces_table t s2) by (eapply traces_frames; [by eapply run_frames|done]).
  destruct (run_counts body s1 w1 rs2 s2 w2 tid Ht1 Hp Hb Hbody) as [Hr Hw]; [lia|lia|lia|lia|].
  rewrite (traced_call t end_ [] tid s2 w2 Ht2 Hc Hend) in Hrun. simpl in Hrun. simplify_eq.
  unfold trace_emit. destruct Ht2 as (_ & Htr & _). unfold tracing in Htr. destruct (g_trace_file s2) as [ls|]; [|done]. simpl.
  pose proof (by_thread_le tid is_read body). pose proof (by_thread_le tid is_write body). destruct Hs1 as [E1 E2]. rewrite E1 in Hr. rewrite E2 in Hw.
  eexists ls, _, _. rewrite tx_counts_sum by lia. rewrite Hr, Hw. by rewrite !Z.add_0_l.
Qed.
End Counts.

(** ** Sampling *)

(** How many of the next [n] decisions of a thread are to forward. *)
Fixpoint decisions (n : nat) (tid : Z) s : Z * hstate :=
  match n with
  | O => (0, s)
  | S n => let '(yes, s) := should_sample s tid in let '(k, s) := decisions n tid s in (k + (if yes then 1 else 0), s)
  end.

(** In the modes that sample by rate: also [adaptive], as no abort is ever counted. *)
Definition by_rate s : Prop := g_sampling_mode s = RateLimited ∨ g_sampling_mode s = Adaptive.

Lemma div_succ c r : 0 < r → 0 ≤ c → (c + 1) / r = c / r + (if (c + 1) mod r =? 0 then 1 else 0).
Proof.
  intros Hr Hc. destruct (Z.eqb_spec ((c + 1) mod r) 0) as [E|E].
  - assert (c = r * ((c + 1) / r - 1) + (r - 1)) as Ec by (pose proof (Z.div_mod (c + 1) r); lia).
    rewrite Ec at 2. rewrite Z.mul_comm, Z.div_add_l, (Z.div_small (r - 1)) by lia. lia.
  - pose proof (Z.mod_pos_bound (c + 1) r Hr). rewrite Z.add_0_r. apply (Z.div_unique _ _ _ ((c + 1) mod r - 1)); [lia|].
    pose proof (Z.div_mod (c + 1) r). lia.
Qed.

Lemma decisions_count n tid s :
  hinv s → by_rate s → 0 < g_sample_rate s → 0 ≤ t_sample_count (locals s tid) → t_sample_count (locals s tid) + Z.of_nat n < 2 ^ 64 →
  (decisions n tid s).1 = (t_sample_count (locals s tid) + Z.of_nat n) / g_sample_rate s - t_sample_count (locals s tid) / g_sample_rate s.
Proof.
  revert s. induction n as [|n IH]; intros s Hi Hm Hr Hc Hn; [simpl; rewrite Z.add_0_r; lia|].
  assert (Hs : should_sample s tid = ((t_sample_count (locals s tid) + 1) mod g_sample_rate s =? 0, sample_tick s tid)).
  { unfold should_sample. rewrite (wrap_small 64) by (split; lia). destruct Hm as [-> | ->]; [done|]. by rewrite (hi_aborts s Hi). }
  assert (Hf : frames s (sample_tick s tid)) by (pose proof (frames_should_sample s tid) as Hf; by rewrite Hs in Hf).
  assert (Hl : t_sample_count (locals (sample_tick s tid) tid) = t_sample_count (locals s tid) + 1).
  { unfold sample_tick. simpl. rewrite fn_lookup_insert. simpl. apply wrap_small. split; lia. }
  cbn [decisions]. rewrite Hs. specialize (IH (sample_tick s tid)). destruct (decisions n tid (sample_tick s tid)) as [k s']. simpl fst in *.
  rewrite IH; [|by eapply hinv_frames|done|done|lia|lia]. rewrite Hl.
  change (g_sample_rate (sample_tick s tid)) with (g_sample_rate s). rewrite Nat2Z.inj_succ.
  pose proof (div_succ (t_sample_count (locals s tid)) (g_sample_rate s) Hr Hc). replace (t_sample_count (locals s tid) + Z.succ (Z.of_nat n)) with (t_sample_count (locals s tid) + 1 + Z.of_nat n) by lia.
  lia.
Qed.

Section Sampling.
Context {W : Type} `{World W}.

(** Sampling by rate forwards exactly one decision in [rate]: of any [n] consecutive
    decisions of a thread, as many as there are multiples of the rate among their counts. *)
Theorem sampling_rate plugin n tid s :
  hooks_reachable (W := W) plugin s → by_rate s → 0 < g_sample_rate s → 0 ≤ t_sample_count (locals s tid) →
  t_sample_count (locals s tid) + Z.of_nat n < 2 ^ 64 →
  (decisions n tid s).1 = (t_sample_count (locals s tid) + Z.of_nat n) / g_sample_rate s - t_sample_count (locals s tid) / g_sample_rate s.
Proof. intros Hr. apply decisions_count. by eapply reachable_hinv. Qed.
End Sampling.

(** ** Concrete worlds *)

(** A memory of words with the log of the calls of the backends, which access it directly. *)
Record demo_world := DW { dw_mem : Z → Z; dw_log : list (nat * field) }.
#[export] Instance demo : World demo_world := {
  w_load := λ _ a w, dw_mem w a;
  w_store := λ _ a v w, DW (<[a := v]> (dw_mem w)) (dw_log w);
  w_malloc := λ n w, (4096, w);
  w_clear := λ _ _ w, w;
  w_calloc := λ n k w, (4096, w);
  w_realloc := λ p n w, (4096, w);
  w_free := λ p w, w;
  w_env := 8;
  w_thread_state := 16;
  w_backend := λ b f args w,
    let log := dw_log w ++ [(b, f)] in
    match f with
    | read _ => (dw_mem w (arg args 0), DW (dw_mem w) log)
    | write _ => (0, DW (<[arg args 0 := arg args 1]> (dw_mem w)) log)
    | _ => (0, DW (dw_mem w) log)
    end;
  w_oracle := λ w, w;
}.
Definition demo_init : demo_world := DW (λ _, 0) [].

Lemma hooks_calls_return_witness :
  ∃ r s' w', hook_call end_ [] 1 (configured false [COracle true; CInitThread] (startup true (Some "phase"%string) (Some 2) None)) demo_init = Some (r, s', w').
Proof.
  eapply (hooks_calls_return false). unfold configured. cbn [foldl]. repeat (eapply hr_configure; [|done]). apply hr_startup.
Defined.

Definition demo_configs : list config := [CInitThread; CRegister (TM_REAL_HOOKS_TABLE 3); CSetNumThreads 4; CInitThread].
Definition demo_prog : list op :=
  [(begin, [], 1); (write UINT64, [64; 7], 1); (begin, [], 2); (read UINT64, [64], 2); (read UINT64, [64], 1); (end_, [], 1)].

Lemma table_complete b : complete (TM_REAL_HOOKS_TABLE b).
Proof. intros f Hf. exists b. destruct f; try done; exfalso; revert Hf; apply not_access; first [by left|by right; left]. Qed.

Lemma tracing_transparent_witness : ∃ rs w' s1 s2 ls,
    hook_run demo_prog (configured false demo_configs (startup false None None None)) demo_init = Some (rs, s1, w') ∧
    hook_run demo_prog (configured false demo_configs (startup true None None None)) demo_init = Some (rs, s2, w') ∧
    direct_run (installed demo_configs) demo_prog demo_init = (rs, w') ∧
    g_trace_file s2 = Some ls ∧ accesses ls = prog_accesses demo_prog rs ∧ Sorted Z.lt (l_ts <$> ls).
Proof.
  apply (tracing_transparent false demo_configs demo_prog demo_init).
  - repeat constructor.
  - repeat constructor.
  - apply table_complete.
  - apply Forall_forall. intros o Ho. apply (bool_decide_unpack _). revert o Ho. apply Forall_forall. repeat constructor.
  - done.
Defined.

Lemma hooks_reach_installed_witness :
  hook_run demo_prog (configured false demo_configs (startup false None None None)) demo_init =
    Some ((direct_run (installed demo_configs) demo_prog demo_init).1, configured false demo_configs (startup false None None None),
          (direct_run (installed demo_configs) demo_prog demo_init).2).
Proof.
  apply (hooks_reach_installed false demo_configs demo_prog demo_init).
  - repeat constructor.
  - repeat constructor. intros f g. destruct f; intros [= <-]; by exists 3%nat.
Defined.

Lemma sampling_rate_witness : (decisions 7 1 (startup false (Some "rate"%string) (Some 3) None)).1 = 2.
Proof.
  rewrite (sampling_rate (W := demo_world) false 7 1 (startup false (Some "rate"%string) (Some 3) None)); try done.
  - apply hr_startup.
  - by left.
Defined.

(** ** Where the wrappers differ from what they wrap *)

(** A table without a function for a write: untraced, the write is a direct store. *)
Definition no_write_table : TMRealHooks := λ f, match f with write UINT8 => None | _ => TM_REAL_HOOKS_TABLE 0 f end.

(** The trace wrappers of writes have no fallback: tracing loses the store. *)
Theorem traced_null_write_lost :
  (λ o : list Z * hstate * demo_world, dw_mem o.2 64) <$> hook_run [(write UINT8, [64; 7], 1)] (configured false [CRegister no_write_table] (startup false None None None)) demo_init = Some 7 ∧
  (λ o : list Z * hstate * demo_world, dw_mem o.2 64) <$> hook_run [(write UINT8, [64; 7], 1)] (configured false [CRegister no_write_table] (startup true None None None)) demo_init = Some 0.
Proof. by vm_compute. Qed.

(** A swap replaces the trace wrappers: the trace of later transactions is empty. *)
Theorem swap_escapes_trace plugin h f b s : h f = Some (Backend b) → hook (configure plugin (CSwap h) s) f = Backend b.
Proof. simpl. by intros ->. Qed.

(** So does a registration with the sampling wrappers. *)
Theorem registration_ends_sampling plugin h f b mode rate full :
  h f = Some (Backend b) → hook (configure plugin (CRegister h) (startup false mode rate full)) f = Backend b.
Proof.
  intros Hf. simpl. unfold tm_register_real_hooks. rewrite apply_registered by done.
  assert (g_trace_active (set_registered (set_real (startup false mode rate full) h)) = false) as ->.
  { simpl. unfold startup, tm_sample_hook_init. destruct mode; [|done]. case_bool_decide; [done|]. simpl. unfold tm_set_sampling_mode.
    by destruct rate, full; simpl; repeat case_bool_decide. }
  simpl. by rewrite Hf.
Qed.

(** Any registration or starting thread takes the oracle off [tm_end], and registering the
    callback again does not put it back. *)
Theorem oracle_lost plugin h b cb s :
  g_trace_active s = false → h end_ = Some (Backend b) →
  hook (configured plugin [COracle cb; CRegister h; COracle cb] s) end_ = Backend b.
Proof.
  intros Ha Hh. unfold configured. cbn [foldl configure]. unfold tm_register_real_hooks. rewrite apply_registered by done.
  assert (Hact : g_trace_active (set_registered (set_real (tm_register_invariant_callback cb s) h)) = false) by (unfold tm_register_invariant_callback; by destruct (g_original_tm_end s)).
  rewrite Hact. unfold tm_register_invariant_callback at 1.
  assert (Ho : ∃ g, g_original_tm_end (tm_register_invariant_callback cb s) = Some g).
  { unfold tm_register_invariant_callback. destruct (g_original_tm_end s) eqn:Ho; simpl; eauto. }
  destruct Ho as [g Ho]. simpl. rewrite Ho. simpl. by rewrite Hh.
Qed.

(** Traced and sampled, a registered backend is called by the sampling wrappers directly:
    nothing is traced.  And [begin] and [end] are sampled one by one: at rate two the
    backend never sees a transaction begin, only its end. *)
Theorem sampling_unpaired :
  (λ o : list Z * hstate * demo_world, (dw_log o.2, g_trace_file o.1.2)) <$>
    hook_run [(begin, [], 1); (end_, [], 1); (begin, [], 1); (end_, [], 1)]
      (configured false [CRegister (TM_REAL_HOOKS_TABLE 0)] (startup true (Some "rate"%string) (Some 2) None)) demo_init =
  Some ([(0%nat, end_); (0%nat, end_)], Some []).
Proof. by vm_compute. Qed.
