(* ===== verification/HooksSteps.v ===== *)
(** * Tracing by several threads (common/tm_hooks.cpp)

    The wrappers of the trace step by step, for threads that run at the same time: a
    wrapper takes each time stamp ([g_trace_ts.fetch_add]), writes each line and calls the
    function of the backend in steps of their own, so that lines can reach the file in
    another order than that of their time stamps.  A call of a backend is one step; it
    either returns or jumps out of the wrapper to the start of the transaction
    ([siglongjmp]), and then nothing after the call happens.  A thread's next call depends
    on the results of its earlier ones.

    Tracing neither adds nor removes behaviours of the threads, and the file holds each
    thread's reads and writes in its order, at stamps that increase and are never shared. *)

From Stdlib Require Import Sorted.
From stdpp Require Import functions strings.
From S2P Require Import Prelude Values Hooks HooksSpec.
#[local] Open Scope Z_scope.

(** What is printed after the time stamp and the thread: type, address, width, value. *)
Definition body : Type := Z * Z * Z * Z.

(** The lines of the wrapper of [f] before it calls the backend; a missing line is a time
    stamp that is taken and not used. *)
Definition before_lines (f : field) (args : list Z) (l : tlocal) : list (option body) :=
  match f with
  | begin => [Some (2, 0, 0, 0)]
  | end_ => [Some (3, 0, 0, tx_counts l)]
  | free => if arg args 0 =? 0 then [] else [Some (5, arg args 0, 0, 0)]
  | write t => [Some (1, arg args 0, Z.of_nat (type_size t), arg args 1)]
  | _ => []
  end.

(** and after the backend has returned [r]. *)
Definition after_lines (f : field) (args : list Z) (r : Z) : list (option body) :=
  match f with
  | malloc => if r =? 0 then [] else [Some (4, r, as_int (arg args 0), 0)]
  | calloc => if r =? 0 then [] else [Some (4, r, as_int (arg args 0 * arg args 1), 0)]
  | realloc =>
      (if negb (arg args 0 =? 0) && negb (r =? arg args 0) then Some (5, arg args 0, 0, 0) else None) ::
      (if r =? 0 then [] else [Some (4, r, as_int (arg args 1), 0)])
  | read t => [Some (0, arg args 0, Z.of_nat (type_size t), r)]
  | _ => []
  end.

(** The thread's own counters, before and after. *)
Definition before_bump (f : field) (tid : Z) (s : hstate) : hstate :=
  match f with begin => bump_tx s tid | write _ => bump_writes s tid | _ => s end.
Definition after_bump (f : field) (tid : Z) (s : hstate) : hstate :=
  match f with read _ => bump_reads s tid | _ => s end.

(** [trace_write_line_ext] with a stamp taken before. *)
Definition stamped_line (tid ts : Z) (b : body) (s : hstate) : trace_line :=
  let '(ty, a, n, v) := b in TL ts (Z.land tid 0xffff) ty (t_current_tx_id (locals s tid)) a n v 0.
Definition print_line (l : trace_line) (s : hstate) : hstate := set_file s ((λ ls, ls ++ [l]) <$> g_trace_file s) (g_trace_ts s).

(** Where a thread is: between calls; about to take the stamps of some lines, or to print
    the first; then it calls the backend through [g], or returns. *)
Inductive hcont := KReal (f : field) (args : list Z) (g : fn) | KRet (r : Z).
Inductive hpc :=
  | HIdle
  | HEmit (todo : list (option body)) (k : hcont)
  | HPrint (ts : Z) (b : body) (todo : list (option body)) (k : hcont).

(** The results so far; [None] for a call that jumped out. *)
Record hthread := HT { h_res : list (option Z); h_pc : hpc }.

Section Machine.
Context {W : Type} `{World W}.
Context (backend : nat → field → list Z → W → option Z * W).
Context (prog : nat → list (option Z) → option (field * list Z)) (tid : nat → Z).

(** [y_log] is ghost: the lines of the file with the threads that wrote them. *)
Record sys := Sys { y_hs : hstate; y_w : W; y_log : list (nat * trace_line); y_thr : list hthread }.

(** A wrapper whose entry is null does the access itself, or nothing. *)
Definition null_call (f : field) (args : list Z) (w : W) : Z * W :=
  match f with
  | malloc => w_malloc (arg args 0) w
  | calloc => w_calloc (arg args 0) (arg args 1) w
  | realloc => w_realloc (arg args 0) (arg args 1) w
  | free => (0, if arg args 0 =? 0 then w else w_free (arg args 0) w)
  | read t => stub_read t (arg args 0) w
  | _ => (0, w)
  end.
Definition real_call (f : field) (args : list Z) (g : option fn) (w : W) : option (option Z * W) :=
  match g with
  | Some (Backend b) => Some (backend b f args w)
  | Some Stub => let '(r, w) := stub f args w in Some (Some r, w)
  | None => let '(r, w) := null_call f args w in Some (Some r, w)
  | Some _ => None
  end.

(** One step of thread [i]: the hooks, the world, a line printed, the thread. *)
Definition thread_step (i : nat) (s : hstate) (w : W) (t : hthread) : option (hstate * W * list trace_line * hthread) :=
  match h_pc t with
  | HIdle =>
      '(f, args) ← prog i (h_res t);
      match hook s f with
      | Trace =>
          if tracing s
          then Some (before_bump f (tid i) s, w, [], HT (h_res t) (HEmit (before_lines f args (locals s (tid i))) (KReal f args Trace)))
          else Some (s, w, [], HT (h_res t) (HEmit [] (KReal f args Trace)))
      | Sample | EndWithInvariant => None
      | g => Some (s, w, [], HT (h_res t) (HEmit [] (KReal f args g)))
      end
  | HEmit (None :: todo) k => Some (trace_tick s, w, [], HT (h_res t) (HEmit todo k))
  | HEmit (Some b :: todo) k => Some (trace_tick s, w, [], HT (h_res t) (HPrint (g_trace_ts s) b todo k))
  | HPrint ts b todo k =>
      let l := stamped_line (tid i) ts b s in
      Some (print_line l s, w, [l], HT (h_res t) (HEmit todo k))
  | HEmit [] (KReal f args g) =>
      '(r, w) ← real_call f args (match g with Trace => s_trace_real_hooks s f | _ => Some g end) w;
      match r with
      | None => Some (s, w, [], HT (h_res t ++ [None]) HIdle)
      | Some v =>
          match g with
          | Trace =>
              if tracing s then Some (after_bump f (tid i) s, w, [], HT (h_res t) (HEmit (after_lines f args v) (KRet v)))
              else Some (s, w, [], HT (h_res t) (HEmit [] (KRet v)))
          | _ => Some (s, w, [], HT (h_res t) (HEmit [] (KRet v)))
          end
      end
  | HEmit [] (KRet v) => Some (s, w, [], HT (h_res t ++ [Some v]) HIdle)
  end.

Definition sys_step (i : nat) (y : sys) : option sys :=
  t ← y_thr y !! i;
  '(s, w, ls, t') ← thread_step i (y_hs y) (y_w y) t;
  Some (Sys s w (y_log y ++ (pair i <$> ls)) (<[i := t']> (y_thr y))).

(** Threads take steps in the order of a schedule. *)
Fixpoint sys_run (sched : list nat) (y : sys) : option sys :=
  match sched with [] => Some y | i :: sched => y ← sys_step i y; sys_run sched y end.

(** [n] threads after start-up and some configuration. *)
Definition started (plugin file : bool) (cs : list config) (n : nat) (w : W) : sys :=
  Sys (configured plugin cs (startup file None None None)) w [] (replicate n (HT [] HIdle)).

(** The results of the calls whose backend function has returned or jumped out. *)
Definition outcomes (t : hthread) : list (option Z) :=
  h_res t ++ match h_pc t with HEmit _ (KRet v) | HPrint _ _ _ (KRet v) => [Some v] | _ => [] end.
Definition outcomes_of (y : sys) : list (list (option Z)) := outcomes <$> y_thr y.

(** The reads and writes among the calls of thread [i] with the given results: a write is
    an access when it is called, a read when it returns. *)
Definition call_access (i : nat) (c : field * list Z) (r : option Z) : list access :=
  match c.1, r with
  | read t, Some v => [(0, Z.land (tid i) 0xffff, arg c.2 0, Z.of_nat (type_size t), v)]
  | write t, _ => [(1, Z.land (tid i) 0xffff, arg c.2 0, Z.of_nat (type_size t), arg c.2 1)]
  | _, _ => []
  end.
Fixpoint thread_accesses (i : nat) (before rs : list (option Z)) : list access :=
  match rs with
  | [] => []
  | r :: rs => match prog i before with Some c => call_access i c r | None => [] end ++ thread_accesses i (before ++ [r]) rs
  end.

(** The lines of thread [i]. *)
Definition lines_of (i : nat) (log : list (nat * trace_line)) : list trace_line := (List.filter (λ p, p.1 =? i)%nat log).*2.
End Machine.

(** ** One table behind the hooks *)

Lemma frames_print l s : frames s (print_line l s).
Proof. split; [|done]. unfold tables, tracing, print_line. simpl. by destruct (g_trace_file s). Qed.
Lemma frames_before f i s : frames s (before_bump f i s).
Proof. destruct f; simpl; try done; apply frames_bump. Qed.
Lemma frames_after f i s : frames s (after_bump f i s).
Proof. destruct f; simpl; try done; apply frames_bump. Qed.
#[local] Hint Resolve frames_print frames_before frames_after frames_tick : core.

Section Behaviours.
Context {W : Type} `{World W}.
Context (backend : nat → field → list Z → W → option Z * W).
Context (prog : nat → list (option Z) → option (field * list Z)) (tid : nat → Z).
Context (t : TMRealHooks) (Ht : complete t).
Context (Hprog : ∀ i h f args, prog i h = Some (f, args) → f ∈ TM_HOOK_ACCESS_FIELDS).
Implicit Types (y : sys (W := W)) (w : W) (s : hstate) (u : hthread).

Abbreviation run := (sys_run backend prog tid).
Abbreviation step := (sys_step backend prog tid).

(** The function a call of a hook variable reaches. *)
Definition reaches s (g : fn) (f : field) : option fn := match g with Trace => s_trace_real_hooks s f | _ => Some g end.

(** The accesses reach the functions of the table, through wrappers or not. *)
Definition over_table s : Prop :=
  ∀ f, f ∈ TM_HOOK_ACCESS_FIELDS → (hook s f = Trace ∨ ∃ b, hook s f = Backend b) ∧ reaches s (hook s f) f = t f.

Lemma over_frames s s' : frames s s' → over_table s → over_table s'.
Proof using Type. intros [E _] Ho f Hf. unfold tables in E. injection E as E1 _ _ _ _ E6 _ _ _ _ _ _. unfold reaches. rewrite E1, E6. by apply Ho. Qed.
Lemma reaches_frames s s' g f : frames s s' → reaches s' g f = reaches s g f.
Proof using Type. intros [E _]. unfold tables in E. injection E as _ _ _ _ _ E6 _ _ _ _ _ _. unfold reaches. by rewrite E6. Qed.

Definition cont_of u : option hcont := match h_pc u with HIdle => None | HEmit _ k | HPrint _ _ _ k => Some k end.

(** A thread about to call the backend is in the call its program asks for. *)
Definition in_call s i u : Prop := ∀ f args g, cont_of u = Some (KReal f args g) → prog i (h_res u) = Some (f, args) ∧ reaches s g f = t f.

Definition threads_ok y : Prop := over_table (y_hs y) ∧ ∀ i u, y_thr y !! i = Some u → in_call (y_hs y) i u.

Lemma thread_step_frames i s w u s' w' ls u' : thread_step backend prog tid i s w u = Some (s', w', ls, u') → frames s s'.
Proof using Type.
  unfold thread_step. destruct (h_pc u) as [|[|[b|] todo] [f args g|r]|ts b todo k]; intros Hs; try (injection Hs as <- _ _ _; auto; done).
  - destruct (prog i (h_res u)) as [[f args]|]; [|done]. cbn [mbind option_bind] in Hs.
    destruct (hook s f); try done; [| |destruct (tracing s)]; injection Hs as <- _ _ _; auto; done.
  - destruct (real_call _ _ _ _ _) as [[[v|] w1]|]; [|by injection Hs as <- _ _ _|done]. cbn [mbind option_bind] in Hs.
    destruct g; try (by injection Hs as <- _ _ _). destruct (tracing s); injection Hs as <- _ _ _; auto; done.
Qed.

Lemma thread_step_call i s w u s' w' ls u' :
  over_table s → in_call s i u → thread_step backend prog tid i s w u = Some (s', w', ls, u') → in_call s i u'.
Proof using Hprog.
  unfold thread_step. intros Ho Hc. unfold in_call, cont_of in *. destruct (h_pc u) as [|[|[b|] todo] k|ts b todo k]; intros Hs.
  - destruct (prog i (h_res u)) as [[f args]|] eqn:Hp; [|done]. cbn [mbind option_bind] in Hs. destruct (Ho f (Hprog _ _ _ _ Hp)) as [_ Hr].
    destruct (hook s f) eqn:Hh; try done; [| |destruct (tracing s)]; injection Hs as _ _ _ <-; cbn; intros ? ? ? [= <- <- <-]; by rewrite ?Hp.
  - destruct k as [f args g|r]; [|by injection Hs as _ _ _ <-].
    destruct (real_call _ _ _ _ _) as [[[v|] w1]|]; [|by injection Hs as _ _ _ <-|done]. cbn [mbind option_bind] in Hs.
    destruct g; try (by injection Hs as _ _ _ <-). destruct (tracing s); by injection Hs as _ _ _ <-.
  - injection Hs as _ _ _ <-. exact Hc.
  - injection Hs as _ _ _ <-. exact Hc.
  - injection Hs as _ _ _ <-. exact Hc.
Qed.

Lemma sys_step_inv i y y' : step i y = Some y' →
  ∃ u s w ls u', y_thr y !! i = Some u ∧ thread_step backend prog tid i (y_hs y) (y_w y) u = Some (s, w, ls, u') ∧
    y' = Sys s w (y_log y ++ (pair i <$> ls)) (<[i := u']> (y_thr y)).
Proof using Type.
  unfold sys_step. destruct (y_thr y !! i) as [u|] eqn:Hu; [|done]. cbn [mbind option_bind].
  destruct (thread_step _ _ _ _ _ _ u) as [[[[s w] ls] u']|] eqn:Hs; [|done]. intros [= <-]. eauto 10.
Qed.

Lemma step_eq i y u s w ls u' : y_thr y !! i = Some u → thread_step backend prog tid i (y_hs y) (y_w y) u = Some (s, w, ls, u') →
  step i y = Some (Sys s w (y_log y ++ (pair i <$> ls)) (<[i := u']> (y_thr y))).
Proof using Type. intros Hi Hs. unfold sys_step. rewrite Hi. cbn [mbind option_bind]. by rewrite Hs. Qed.

Lemma step_ok i y y' : threads_ok y → step i y = Some y' → threads_ok y' ∧ frames (y_hs y) (y_hs y').
Proof using Hprog.
  intros [Ho Hc] (u & s & w & ls & u' & Hu & Hs & ->)%sys_step_inv. pose proof (thread_step_frames _ _ _ _ _ _ _ _ Hs) as Hf. cbn [y_hs]. split; [|done]. split; [by eapply over_frames|].
  intros j v Hj f args g Hg. cbn [y_hs y_thr] in *. rewrite (reaches_frames (y_hs y) s g f Hf).
  apply list_lookup_insert_Some in Hj as [(<- & <- & _)|[_ Hj]]; [|by apply (Hc j v Hj)].
  by apply (thread_step_call _ _ _ _ _ _ _ _ Ho (Hc i u Hu) Hs).
Qed.

Lemma run_ok sched y y' : threads_ok y → run sched y = Some y' → threads_ok y' ∧ frames (y_hs y) (y_hs y').
Proof using Hprog.
  revert y. induction sched as [|i sched IH]; intros y Ho Hr; cbn [sys_run] in Hr; [by injection Hr as <-|].
  destruct (step i y) as [y1|] eqn:Hs; [|done]. destruct (step_ok i y y1 Ho Hs) as [Ho1 Hf1]. destruct (IH y1 Ho1 Hr) as [? ?]. split; [done|by etrans].
Qed.

Lemma run_app l1 l2 y : run (l1 ++ l2) y = (y' ← run l1 y; run l2 y').
Proof using Type. revert y. induction l1 as [|i l1 IH]; intros y; cbn [sys_run app]; [done|]. destruct (step i y); [apply IH|done]. Qed.

(** ** A thread alone *)

(** [y'] differs from [y] in what tracing records, and in the thread [i], now [u]. *)
Definition moved i y u y' : Prop := y_w y' = y_w y ∧ y_thr y' = <[i := u]> (y_thr y).

Lemma emit_all i y res todo k :
  y_thr y !! i = Some (HT res (HEmit todo k)) → ∃ sched y', run sched y = Some y' ∧ moved i y (HT res (HEmit [] k)) y'.
Proof using Type.
  revert y. induction todo as [|b todo IH]; intros y Hi.
  { exists [], y. split; [done|]. split; [done|]. by rewrite list_insert_id. }
  pose proof (lookup_lt_Some _ _ _ Hi) as Hlt.
  assert (∃ sched y1, run sched y = Some y1 ∧ moved i y (HT res (HEmit todo k)) y1) as (l1 & y1 & Hr1 & Hw1 & Ht1).
  { destruct b as [b|].
    - exists [i; i]. cbn [sys_run]. rewrite (step_eq i y _ _ _ _ _ Hi eq_refl). cbn [mbind option_bind].
      erewrite step_eq; [|cbn [y_thr]; by apply list_lookup_insert_eq|reflexivity]. cbn [mbind option_bind].
      eexists. split; [done|]. split; [done|]. cbn. by rewrite list_insert_insert_eq.
    - exists [i]. cbn [sys_run]. rewrite (step_eq i y _ _ _ _ _ Hi eq_refl). cbn [mbind option_bind]. eexists. split; [done|]. by split. }
  destruct (IH y1) as (l2 & y2 & Hr2 & Hw2 & Ht2); [rewrite Ht1; by apply list_lookup_insert_eq|].
  exists (l1 ++ l2), y2. rewrite run_app, Hr1. split; [done|]. split; [congruence|]. by rewrite Ht2, Ht1, list_insert_insert_eq.
Qed.

Lemma solo_call i y u f args r w :
  threads_ok y → y_thr y !! i = Some u → h_pc u = HIdle → prog i (h_res u) = Some (f, args) →
  real_call backend f args (t f) (y_w y) = Some (r, w) →
  ∃ sched y', run sched y = Some y' ∧ y_w y' = w ∧ y_thr y' = <[i := HT (h_res u ++ [r]) HIdle]> (y_thr y).
Proof using Hprog Ht.
  intros Ho Hi Hpc Hp Hreal. pose proof (lookup_lt_Some _ _ _ Hi) as Hlt.
  assert (∃ y1 todo g, step i y = Some y1 ∧ moved i y (HT (h_res u) (HEmit todo (KReal f args g))) y1) as (y1 & todo & g & Hs1 & Hw1 & Ht1).
  { destruct Ho as [Ho _]. destruct (Ho f (Hprog _ _ _ _ Hp)) as [Hh _]. unfold sys_step. rewrite Hi. cbn [mbind option_bind]. unfold thread_step. rewrite Hpc, Hp. cbn [mbind option_bind].
    destruct Hh as [-> |[b ->]]; [destruct (tracing (y_hs y))|]; do 3 eexists; (split; [done|]); by split. }
  assert (Hi1 : y_thr y1 !! i = Some (HT (h_res u) (HEmit todo (KReal f args g)))) by (rewrite Ht1; by apply list_lookup_insert_eq).
  destruct (emit_all i y1 _ _ _ Hi1) as (l2 & y2 & Hr2 & Hw2 & Ht2).
  assert (Hi2 : y_thr y2 !! i = Some (HT (h_res u) (HEmit [] (KReal f args g)))) by (rewrite Ht2, Ht1, list_insert_insert_eq; by apply list_lookup_insert_eq).
  assert (Ho2 : threads_ok y2) by (eapply (run_ok (i :: l2) y); [done|]; cbn [sys_run]; by rewrite Hs1).
  destruct (proj2 Ho2 i _ Hi2 f args g eq_refl) as [_ Hg]. unfold reaches in Hg.
  assert (∃ l3 y3, run l3 y2 = Some y3 ∧ y_w y3 = w ∧ y_thr y3 = <[i := HT (h_res u ++ [r]) HIdle]> (y_thr y2)) as (l3 & y3 & Hr3 & Hw3 & Ht3).
  { assert (Hrc : real_call backend f args (match g with Trace => s_trace_real_hooks (y_hs y2) f | _ => Some g end) (y_w y2) = Some (r, w)) by (rewrite Hg, Hw2, Hw1; exact Hreal).
    destruct r as [v|].
    - assert (∃ s todo', step i y2 = Some (Sys s w (y_log y2) (<[i := HT (h_res u) (HEmit todo' (KRet v))]> (y_thr y2)))) as (s & todo' & Hs2).
      { unfold sys_step. rewrite Hi2. cbn [mbind option_bind]. unfold thread_step. cbn [h_pc]. rewrite Hrc. cbn [mbind option_bind h_res].
        destruct g; [| |destruct (tracing (y_hs y2))| |]; do 2 eexists; cbn; by rewrite app_nil_r. }
      set (yr := Sys s w _ _) in Hs2. assert (Hir : y_thr yr !! i = Some (HT (h_res u) (HEmit todo' (KRet v)))).
      { cbn. apply list_lookup_insert_eq. by apply lookup_lt_Some in Hi2. }
      destruct (emit_all i yr _ _ _ Hir) as (l4 & y4 & Hr4 & Hw4 & Ht4).
      exists (i :: l4 ++ [i]). cbn [sys_run]. rewrite Hs2. cbn [mbind option_bind]. rewrite run_app, Hr4. cbn [mbind option_bind sys_run]. unfold sys_step. rewrite Ht4.
      rewrite list_lookup_insert_eq by (by apply lookup_lt_Some in Hir). cbn. eexists. split; [done|]. cbn. rewrite !list_insert_insert_eq. by split.
    - exists [i]. cbn [sys_run]. unfold sys_step. rewrite Hi2. cbn [mbind option_bind]. unfold thread_step. cbn [h_pc]. rewrite Hrc. cbn. eexists. split; [done|]. by split. }
  exists (i :: l2 ++ l3), y3. cbn [sys_run]. rewrite Hs1. cbn [mbind option_bind]. rewrite run_app, Hr2. cbn [mbind option_bind]. split_and!; [done..|].
  by rewrite Ht3, Ht2, Ht1, !list_insert_insert_eq.
Qed.

(** ** Two systems over the same table *)

(** The calls of the backends so far have had the same outcomes, and the threads of the
    second system are between calls. *)
Definition mirrors y1 y2 : Prop :=
  y_w y2 = y_w y1 ∧ y_thr y2 = (λ u, HT (outcomes u) HIdle) <$> y_thr y1.

Lemma mirrors_outcomes y1 y2 : mirrors y1 y2 → outcomes_of y2 = outcomes_of y1.
Proof using Type.
  intros [_ E]. unfold outcomes_of. rewrite E, <- list_fmap_compose. apply list_fmap_ext. intros _ u _. unfold compose, outcomes. cbn. by rewrite app_nil_r.
Qed.

(** A step that is not the call of the backend. *)
Lemma quiet_thread_step i s w u s' w' ls u' :
  thread_step backend prog tid i s w u = Some (s', w', ls, u') → (∀ f args g, h_pc u ≠ HEmit [] (KReal f args g)) → w' = w ∧ outcomes u' = outcomes u.
Proof using Type.
  unfold thread_step, outcomes. intros Hs Hn. destruct (h_pc u) as [|[|[b|] todo] k|ts b todo k].
  - destruct (prog i (h_res u)) as [[f args]|]; [|done]. cbn [mbind option_bind] in Hs.
    destruct (hook s f); try done; [| |destruct (tracing s)]; by injection Hs as _ <- _ <-.
  - destruct k as [f args g|r]; [by edestruct Hn|]. injection Hs as _ <- _ <-. cbn. by rewrite app_nil_r.
  - by injection Hs as _ <- _ <-.
  - by injection Hs as _ <- _ <-.
  - by injection Hs as _ <- _ <-.
Qed.

Lemma call_thread_step i s w u s' w' ls u' f args g :
  thread_step backend prog tid i s w u = Some (s', w', ls, u') → h_pc u = HEmit [] (KReal f args g) →
  ∃ r, real_call backend f args (reaches s g f) w = Some (r, w') ∧ outcomes u' = h_res u ++ [r].
Proof using Type.
  unfold thread_step, outcomes. intros Hs Hpc. rewrite Hpc in Hs. fold (reaches s g f) in Hs. destruct (real_call backend f args (reaches s g f) w) as [[[v|] w1]|]; [| |done]; cbn [mbind option_bind] in Hs.
  - destruct g; [| |destruct (tracing s)| |]; injection Hs as _ <- _ <-; eexists; by split.
  - injection Hs as _ <- _ <-. eexists. split; [done|]. cbn. by rewrite app_nil_r.
Qed.

Lemma mirror_step i y1 y1' y2 :
  threads_ok y1 → threads_ok y2 → mirrors y1 y2 → step i y1 = Some y1' → ∃ sched y2', run sched y2 = Some y2' ∧ mirrors y1' y2'.
Proof using Hprog Ht.
  intros H1 H2 [Hw E] (u & s & w & ls & u' & Hu & Hs & ->)%sys_step_inv.
  assert ((∃ f args g, h_pc u = HEmit [] (KReal f args g)) ∨ ∀ f args g, h_pc u ≠ HEmit [] (KReal f args g)) as [(f & args & g & Hpc)|Hn].
  { destruct (h_pc u) as [|[|b todo] [f args g|r]|ts b todo k]; try (right; done). left. by do 3 eexists. }
  - destruct (call_thread_step _ _ _ _ _ _ _ _ _ _ _ Hs Hpc) as (r & Hr & Hout).
    destruct (proj2 H1 i u Hu f args g) as [Hp Hg]; [unfold cont_of; by rewrite Hpc|]. rewrite Hg in Hr.
    assert (Hres : outcomes u = h_res u) by (unfold outcomes; by rewrite Hpc, app_nil_r).
    assert (Hi2 : y_thr y2 !! i = Some (HT (outcomes u) HIdle)) by (rewrite E, list_lookup_fmap, Hu; done).
    destruct (solo_call i y2 _ f args r w H2 Hi2 eq_refl) as (sched & y2' & Hrun & Hw' & E'); [by cbn; rewrite Hres|by rewrite Hw|].
    exists sched, y2'. split; [done|]. split; [done|]. cbn [y_thr]. rewrite E', E, list_fmap_insert. cbn [h_res]. by rewrite Hres, Hout.
  - destruct (quiet_thread_step _ _ _ _ _ _ _ _ Hs Hn) as [-> Hout]. exists [], y2. split; [done|]. split; [done|]. cbn [y_thr]. rewrite list_fmap_insert, Hout.
    rewrite E. symmetry. apply list_insert_id. by rewrite list_lookup_fmap, Hu.
Qed.

Lemma mirror_run sched y1 y1' y2 :
  threads_ok y1 → threads_ok y2 → mirrors y1 y2 → run sched y1 = Some y1' → ∃ sched' y2', run sched' y2 = Some y2' ∧ mirrors y1' y2'.
Proof using Hprog Ht.
  revert y1 y2. induction sched as [|i sched IH]; intros y1 y2 H1 H2 HM Hr; cbn [sys_run] in Hr; [injection Hr as <-; by exists [], y2|].
  destruct (step i y1) as [y3|] eqn:Hs; [|done]. cbn [mbind option_bind] in Hr.
  destruct (mirror_step i y1 y3 y2 H1 H2 HM Hs) as (l1 & y4 & Hr4 & HM4).
  destruct (IH y3 y4) as (l2 & y5 & Hr5 & HM5); [exact (proj1 (step_ok i y1 y3 H1 Hs))|exact (proj1 (run_ok l1 y2 y4 H2 Hr4))|done|done|].
  exists (l1 ++ l2), y5. by rewrite run_app, Hr4.
Qed.

(** ** What is in the file *)

Definition body_access (i : nat) (b : body) : list access :=
  let '(ty, a, n, v) := b in if ty <=? 1 then [(ty, Z.land (tid i) 0xffff, a, n, v)] else [].
Definition todo_accesses (i : nat) (todo : list (option body)) : list access := concat (from_option (body_access i) [] <$> todo).

Lemma before_accesses i f args l : todo_accesses i (before_lines f args l) = call_access tid i (f, args) None.
Proof using Type. destruct f; try done. cbn. by destruct (arg args 0 =? 0). Qed.
Lemma after_accesses i f args v : call_access tid i (f, args) (Some v) = call_access tid i (f, args) None ++ todo_accesses i (after_lines f args v).
Proof using Type. destruct f; try done; cbn; repeat case_match; done. Qed.
Lemma stamped_access i ts b s : accesses [stamped_line (tid i) ts b s] = body_access i b.
Proof using Type. destruct b as [[[ty a] n] v]. unfold accesses. cbn. unfold is_access. cbn. by destruct (ty <=? 1). Qed.
Lemma accesses_app l1 l2 : accesses (l1 ++ l2) = accesses l1 ++ accesses l2.
Proof using Type. unfold accesses. by rewrite List.filter_app, fmap_app. Qed.

Lemma thread_accesses_snoc i before rs r :
  thread_accesses prog tid i before (rs ++ [r]) =
  thread_accesses prog tid i before rs ++ match prog i (before ++ rs) with Some c => call_access tid i c r | None => [] end.
Proof using Type.
  revert before. induction rs as [|r' rs IH]; intros before; cbn [thread_accesses app]; [by rewrite !app_nil_r|]. rewrite IH, <- !app_assoc. done.
Qed.

Lemma lines_of_app i j log ls : lines_of i (log ++ (pair j <$> ls)) = lines_of i log ++ (if (j =? i)%nat then ls else []).
Proof using Type.
  unfold lines_of. rewrite List.filter_app, fmap_app. f_equal. induction ls as [|l ls IH]; [by destruct (j =? i)%nat|]. cbn. destruct (j =? i)%nat; cbn; [by rewrite IH|done].
Qed.

(** What the thread has still to print of the call it is in, and that call's accesses. *)
Definition pending_accesses i u : list access :=
  match h_pc u with HIdle => [] | HEmit todo _ => todo_accesses i todo | HPrint _ b todo _ => body_access i b ++ todo_accesses i todo end.
Definition current_accesses i u : list access :=
  match cont_of u with
  | None => []
  | Some (KReal f args _) => call_access tid i (f, args) None
  | Some (KRet v) => match prog i (h_res u) with Some c => call_access tid i c (Some v) | None => [] end
  end.

(** A thread and its lines; [S] has the owner of every stamp taken. *)
Record printed (S : list nat) (i : nat) u (ls : list trace_line) : Prop := Printed {
  pr_sorted : Sorted Z.lt (l_ts <$> ls);
  pr_stamp : ∀ ts b todo k, h_pc u = HPrint ts b todo k → 0 ≤ ts ∧ S !! Z.to_nat ts = Some i ∧ Forall (λ l, l_ts l < ts) ls;
  pr_accesses : accesses ls ++ pending_accesses i u = thread_accesses prog tid i [] (h_res u) ++ current_accesses i u;
  pr_traced : ∀ f args g, cont_of u = Some (KReal f args g) → g = Trace;
}.

Record trace_inv (n : nat) y : Prop := TraceInv {
  ti_ok : threads_ok y;
  ti_hooks : ∀ f, f ∈ TM_HOOK_ACCESS_FIELDS → hook (y_hs y) f = Trace;
  ti_file : g_trace_file (y_hs y) = Some (y_log y).*2;
  ti_nodup : NoDup (l_ts <$> (y_log y).*2);
  ti_stamps : ∃ S, g_trace_ts (y_hs y) = Z.of_nat (length S) ∧ (length S ≤ n)%nat ∧
    (∀ i l, (i, l) ∈ y_log y → 0 ≤ l_ts l ∧ S !! Z.to_nat (l_ts l) = Some i) ∧
    ∀ i u, y_thr y !! i = Some u → printed S i u (lines_of i (y_log y));
}.

Lemma printed_mono S S' i u ls : S `prefix_of` S' → printed S i u ls → printed S' i u ls.
Proof using Type.
  intros [k ->] [H1 H2 H3 H4]. split; try done. intros ts b todo c Hpc. destruct (H2 ts b todo c Hpc) as (? & Hs & ?). split_and!; [done| |done]. by apply lookup_app_l_Some.
Qed.

(** The system after a step, from what the step did to the thread and to the file. *)
Lemma trace_inv_next n i y u s w ls u' S S' :
  trace_inv n y → y_thr y !! i = Some u → thread_step backend prog tid i (y_hs y) (y_w y) u = Some (s, w, ls, u') →
  (∀ j l, (j, l) ∈ y_log y → 0 ≤ l_ts l ∧ S !! Z.to_nat (l_ts l) = Some j) → (∀ j v, y_thr y !! j = Some v → printed S j v (lines_of j (y_log y))) →
  S `prefix_of` S' → g_trace_ts s = Z.of_nat (length S') → (length S' ≤ n + 1)%nat →
  g_trace_file s = Some ((y_log y).*2 ++ ls) → NoDup (l_ts <$> ls) →
  (∀ l, l ∈ ls → 0 ≤ l_ts l ∧ S' !! Z.to_nat (l_ts l) = Some i ∧ Forall (λ l', l_ts l' < l_ts l) (lines_of i (y_log y))) →
  printed S' i u' (lines_of i (y_log y) ++ ls) →
  trace_inv (n + 1) (Sys s w (y_log y ++ (pair i <$> ls)) (<[i := u']> (y_thr y))).
Proof using Hprog.
  intros HI Hi Hs Hown Hpr Hpre Hts Hn Hfile Hnd Hls Hi'. pose proof HI as [I1 I2 I3 I4 _].
  destruct (step_ok i y _ I1 (step_eq i y u s w ls u' Hi Hs)) as [Hok [Hf _]]. cbn [y_hs] in Hf. unfold tables in Hf. injection Hf as Eh _ _ _ _ _ _ _ _ _ _ _.
  assert (Hsnd : (y_log y ++ (pair i <$> ls)).*2 = (y_log y).*2 ++ ls) by (rewrite fmap_app, <- list_fmap_compose; f_equal; apply list_fmap_id).
  assert (Hown' : ∀ j l, (j, l) ∈ y_log y → S' !! Z.to_nat (l_ts l) = Some j).
  { intros j l Hin. destruct Hpre as [k ->]. by apply lookup_app_l_Some, Hown. }
  split; cbn [y_hs y_log y_thr]; [done|by intros f Hf; rewrite Eh; apply I2|by rewrite Hsnd| |].
  - rewrite Hsnd, fmap_app. apply NoDup_app. split_and!; [done| |done]. intros x (l & -> & Hl)%list_elem_of_fmap (l' & E & Hl')%list_elem_of_fmap.
    apply list_elem_of_fmap in Hl as ([j l0] & -> & Hin). cbn in E, Hin |- *. destruct (Hls l' Hl') as (_ & Hs' & Hlt). rewrite <- E, (Hown' j l0 Hin) in Hs'. injection Hs' as ->.
    rewrite Forall_forall in Hlt. specialize (Hlt l0). rewrite <- E in Hlt. apply (Z.lt_irrefl (l_ts l0)), Hlt. unfold lines_of. apply list_elem_of_fmap. exists (i, l0). split; [done|].
    apply list_elem_of_In, filter_In. split; [by apply list_elem_of_In|]. cbn. apply Nat.eqb_refl.
  - exists S'. split_and!; [done|done| |].
    + intros j l [Hin|Hin]%elem_of_app; [split; [by eapply Hown|by apply Hown']|]. apply list_elem_of_fmap in Hin as (l' & [= -> ->] & Hl'). destruct (Hls l' Hl') as (? & ? & _). done.
    + intros j v Hj. rewrite lines_of_app. apply list_lookup_insert_Some in Hj as [(<- & <- & _)|[Hne Hj]]; [by rewrite Nat.eqb_refl|].
      rewrite (proj2 (Nat.eqb_neq _ _) Hne), app_nil_r. eapply printed_mono; [done|]. by apply Hpr.
Qed.

(** Stamps and lines leave the counters, and the counters the stamps and lines, alone. *)
Lemma bump_file f j s : g_trace_file (before_bump f j s) = g_trace_file s ∧ g_trace_ts (before_bump f j s) = g_trace_ts s ∧
  g_trace_file (after_bump f j s) = g_trace_file s ∧ g_trace_ts (after_bump f j s) = g_trace_ts s.
Proof using Type. by destruct f. Qed.

(** The thread after a step. *)
Lemma printed_local S i u u' ls :
  printed S i u ls → (∀ ts b todo k, h_pc u' ≠ HPrint ts b todo k) →
  (∀ f args g, cont_of u' = Some (KReal f args g) → g = Trace) →
  accesses ls ++ pending_accesses i u' = thread_accesses prog tid i [] (h_res u') ++ current_accesses i u' → printed S i u' ls.
Proof using Type. intros [H1 H2 H3 H4] Hp Ht' Ha. split; try done. intros ts b todo k Hpc. by apply Hp in Hpc. Qed.

Lemma tick_ts n s (S : list nat) : g_trace_ts s = Z.of_nat (length S) → (length S ≤ n)%nat → Z.of_nat n + 1 < 2 ^ 64 → ∀ i : nat, g_trace_ts (trace_tick s) = Z.of_nat (length (S ++ [i])).
Proof using Type. intros E Hl Hn i. unfold trace_tick. cbn. rewrite E, length_app, wrap_small; [cbn; lia|]. split; lia. Qed.

(** A step that takes no stamp and prints nothing. *)
Lemma trace_inv_quiet n i y u s w u' :
  trace_inv n y → y_thr y !! i = Some u → thread_step backend prog tid i (y_hs y) (y_w y) u = Some (s, w, [], u') →
  g_trace_file s = g_trace_file (y_hs y) → g_trace_ts s = g_trace_ts (y_hs y) →
  (∀ ts b todo k, h_pc u' ≠ HPrint ts b todo k) → (∀ f args g, cont_of u' = Some (KReal f args g) → g = Trace) →
  (accesses (lines_of i (y_log y)) ++ pending_accesses i u = thread_accesses prog tid i [] (h_res u) ++ current_accesses i u →
   accesses (lines_of i (y_log y)) ++ pending_accesses i u' = thread_accesses prog tid i [] (h_res u') ++ current_accesses i u') →
  trace_inv (n + 1) (Sys s w (y_log y ++ (pair i <$> [])) (<[i := u']> (y_thr y))).
Proof using Hprog.
  intros HI Hi Hs Hf Hts Hp Htr Ha. pose proof HI as [I1 I2 I3 I4 (S & I5 & I6 & I7 & I8)]. pose proof (I8 i u Hi) as P.
  eapply (trace_inv_next n i y u s w [] u' S S); try done; [by rewrite Hts|lia|by rewrite Hf, app_nil_r|constructor|intros l []%elem_of_nil|].
  rewrite app_nil_r. eapply printed_local; [exact P|done|done|]. apply Ha, P.
Qed.

Lemma trace_inv_enter n i y u f args :
  trace_inv n y → y_thr y !! i = Some u → h_pc u = HIdle → prog i (h_res u) = Some (f, args) → ∃ y', step i y = Some y' ∧ trace_inv (n + 1) y'.
Proof using Hprog.
  intros HI Hi Hpc Hp. pose proof (ti_hooks _ _ HI f (Hprog _ _ _ _ Hp)) as Hh. pose proof (ti_file _ _ HI) as Hfile.
  assert (Hs : thread_step backend prog tid i (y_hs y) (y_w y) u = Some (before_bump f (tid i) (y_hs y), y_w y, [],
    HT (h_res u) (HEmit (before_lines f args (locals (y_hs y) (tid i))) (KReal f args Trace)))).
  { unfold thread_step. rewrite Hpc, Hp. cbn [mbind option_bind]. rewrite Hh. unfold tracing. by rewrite Hfile. }
  eexists. split; [by eapply step_eq|]. destruct (bump_file f (tid i) (y_hs y)) as (E1 & E2 & _).
  eapply trace_inv_quiet; [done|done|done|done|done|done|by intros ? ? ? [= _ _ <-]|].
  unfold pending_accesses, current_accesses, cont_of. rewrite Hpc. cbn. rewrite !app_nil_r, before_accesses. by intros ->.
Qed.

Lemma trace_inv_real n i y u f args g s w ls u' :
  trace_inv n y → y_thr y !! i = Some u → h_pc u = HEmit [] (KReal f args g) →
  thread_step backend prog tid i (y_hs y) (y_w y) u = Some (s, w, ls, u') → trace_inv (n + 1) (Sys s w (y_log y ++ (pair i <$> ls)) (<[i := u']> (y_thr y))).
Proof using Hprog.
  intros HI Hi Hpc Hs. pose proof (ti_file _ _ HI) as Hfile. destruct (ti_stamps _ _ HI) as (S & _ & _ & _ & HP). pose proof (HP i u Hi) as P.
  destruct (proj2 (ti_ok _ _ HI) i u Hi f args g) as [Hp _]; [unfold cont_of; by rewrite Hpc|].
  assert (g = Trace) as -> by (eapply (pr_traced _ _ _ _ P); unfold cont_of; by rewrite Hpc).
  pose proof Hs as Hs0. unfold thread_step in Hs. rewrite Hpc in Hs. destruct (real_call _ _ _ _ _) as [[[v|] w1]|]; [| |done]; cbn [mbind option_bind] in Hs.
  - unfold tracing in Hs. rewrite Hfile in Hs. injection Hs as <- <- <- <-. destruct (bump_file f (tid i) (y_hs y)) as (_ & _ & E1 & E2).
    eapply trace_inv_quiet; [done|done|done|done|done|done|done|].
    unfold pending_accesses, current_accesses, cont_of. rewrite Hpc. cbn [h_pc h_res]. rewrite Hp. change (todo_accesses i []) with (@nil access). rewrite app_nil_r. intros ->.
    by rewrite after_accesses, <- app_assoc.
  - injection Hs as <- <- <- <-. eapply trace_inv_quiet; [done|done|done|done|done|done|done|].
    unfold pending_accesses, current_accesses, cont_of. rewrite Hpc. cbn [h_pc h_res]. change (todo_accesses i []) with (@nil access). rewrite !app_nil_r. intros ->.
    rewrite thread_accesses_snoc. cbn [app]. by rewrite Hp.
Qed.

Lemma trace_inv_stamp n i y u b todo k :
  trace_inv n y → Z.of_nat n + 1 < 2 ^ 64 → y_thr y !! i = Some u → h_pc u = HEmit (b :: todo) k → ∃ y', step i y = Some y' ∧ trace_inv (n + 1) y'.
Proof using Hprog.
  intros HI Hn Hi Hpc. pose proof HI as [I1 I2 I3 I4 (S & I5 & I6 & I7 & I8)]. pose proof (I8 i u Hi) as P. set (pc' := match b with Some b => HPrint (g_trace_ts (y_hs y)) b todo k | None => HEmit todo k end).
  assert (Hs : thread_step backend prog tid i (y_hs y) (y_w y) u = Some (trace_tick (y_hs y), y_w y, [], HT (h_res u) pc')) by (unfold thread_step; rewrite Hpc; by destruct b).
  eexists. split; [by eapply step_eq|]. eapply (trace_inv_next n i y u _ _ _ _ S (S ++ [i])); try done; [by apply prefix_app_r|by apply (tick_ts n)|rewrite length_app; cbn; lia|by rewrite app_nil_r|constructor|intros l []%elem_of_nil|].
  rewrite app_nil_r. destruct P as [P1 P2 P3 P4]. split; [done| | |].
  - unfold pc'. cbn [h_pc]. destruct b as [b|]; [|done]. intros ts b' todo' k' [= <- _ _ _]. rewrite I5. split; [lia|]. rewrite Nat2Z.id, lookup_app_r, Nat.sub_diag by lia. split; [done|].
    apply Forall_forall. intros l (p & -> & Hin)%list_elem_of_fmap. destruct p as [j l0]. apply list_elem_of_In, filter_In in Hin as [Hin%list_elem_of_In _]. destruct (I7 j l0 Hin) as [? Hl%lookup_lt_Some]. cbn. lia.
  - unfold pending_accesses, current_accesses, cont_of in *. rewrite Hpc in P3. unfold pc'. destruct b as [b|]; exact P3.
  - unfold cont_of in *. rewrite Hpc in P4. unfold pc'. by destruct b.
Qed.

Lemma trace_inv_print n i y u ts b todo k :
  trace_inv n y → y_thr y !! i = Some u → h_pc u = HPrint ts b todo k → ∃ y', step i y = Some y' ∧ trace_inv (n + 1) y'.
Proof using Hprog.
  intros HI Hi Hpc. pose proof HI as [I1 I2 I3 I4 (S & I5 & I6 & I7 & I8)]. pose proof (I8 i u Hi) as P. set (l := stamped_line (tid i) ts b (y_hs y)).
  assert (Hs : thread_step backend prog tid i (y_hs y) (y_w y) u = Some (print_line l (y_hs y), y_w y, [l], HT (h_res u) (HEmit todo k))) by (unfold thread_step; by rewrite Hpc).
  assert (Hl : l_ts l = ts) by (unfold l, stamped_line; by destruct b as [[[ty a] m] v]). destruct P as [P1 P2 P3 P4]. destruct (P2 ts b todo k Hpc) as (Hts & HS & Hlt).
  eexists. split; [by eapply step_eq|]. eapply (trace_inv_next n i y u _ _ _ _ S S); try done; [lia|unfold print_line; cbn; by rewrite I3|apply NoDup_singleton| |].
  - intros l' ->%list_elem_of_singleton. by rewrite Hl.
  - split; [rewrite fmap_app; cbn; apply sorted_snoc; [done|]; rewrite Hl; by apply Forall_fmap|done| |].
    + unfold pending_accesses, current_accesses, cont_of in *. rewrite Hpc in P3. cbn [h_pc h_res]. rewrite accesses_app. unfold l. rewrite stamped_access, <- app_assoc. exact P3.
    + unfold cont_of in *. rewrite Hpc in P4. done.
Qed.

Lemma trace_inv_step n i y y' : trace_inv n y → Z.of_nat n + 1 < 2 ^ 64 → step i y = Some y' → trace_inv (n + 1) y'.
Proof using Hprog.
  intros HI Hn Hs. destruct (sys_step_inv i y y' Hs) as (u & s & w & ls & u' & Hi & Hstep & E).
  assert (Hdet : (∃ y'', step i y = Some y'' ∧ trace_inv (n + 1) y'') → trace_inv (n + 1) y') by (intros (y'' & Hs' & ?); rewrite Hs in Hs'; by injection Hs' as <-).
  destruct (h_pc u) as [|[|b todo] [f args g|v]|ts b todo k] eqn:Hpc; [|subst y'; by eapply trace_inv_real| |by eapply Hdet, trace_inv_stamp..|by eapply Hdet, trace_inv_print].
  - destruct (prog i (h_res u)) as [[f args]|] eqn:Hp; [by eapply Hdet, trace_inv_enter|]. unfold thread_step in Hstep. by rewrite Hpc, Hp in Hstep.
  - subst y'. pose proof Hstep as Hstep0. unfold thread_step in Hstep. rewrite Hpc in Hstep. injection Hstep as <- <- <- <-. eapply trace_inv_quiet; [done|done|done|done|done|done|done|].
    unfold pending_accesses, current_accesses, cont_of. rewrite Hpc. cbn [h_pc h_res]. change (todo_accesses i []) with (@nil access). rewrite !app_nil_r. intros ->.
    rewrite thread_accesses_snoc. cbn [app]. done.
Qed.

Lemma trace_inv_run sched n y y' : trace_inv n y → Z.of_nat (n + length sched) < 2 ^ 64 → run sched y = Some y' → trace_inv (n + length sched) y'.
Proof using Hprog.
  revert n y. induction sched as [|i sched IH]; intros n y HI Hn Hr; cbn [sys_run length] in *; [injection Hr as <-; by rewrite Nat.add_0_r|].
  destruct (step i y) as [y1|] eqn:Hs; [|done]. rewrite <- Nat.add_succ_comm, <- Nat.add_1_r in *. eapply IH; [|done|exact Hr]. eapply trace_inv_step; [done|lia|done].
Qed.
End Behaviours.

(** ** After start-up *)

Section Started.
Context {W : Type} `{World W}.
Context (backend : nat → field → list Z → W → option Z * W).
Context (prog : nat → list (option Z) → option (field * list Z)) (tid : nat → Z).
Context (plugin : bool) (cs : list config) (n : nat) (w : W).

Lemma started_idle file i u : y_thr (started plugin file cs n w) !! i = Some u → u = HT [] HIdle.
Proof using Type. by intros [-> _]%lookup_replicate. Qed.

Lemma started_ok file : over_table (installed cs) (y_hs (started plugin file cs n w)) → threads_ok prog (installed cs) (started plugin file cs n w).
Proof using Type. intros Ho. split; [done|]. by intros i u ->%started_idle. Qed.

Lemma started_untraced : no_oracle cs → complete (installed cs) → threads_ok prog (installed cs) (started plugin false cs n w).
Proof using Type.
  intros Hno Hc. apply started_ok. intros f Hf. destruct (configured_table plugin cs Hno) as (_ & _ & _ & Hh). cbn [y_hs started]. rewrite Hh.
  destruct (Hc f Hf) as [b Hb]. rewrite Hb. cbn. split; [right; by eexists|done].
Qed.

Lemma started_traced : no_oracle cs → no_swap cs → complete (installed cs) → trace_inv prog tid (installed cs) 0 (started plugin true cs n w).
Proof using Type.
  intros Hno Hns Hc. destruct (configured_trace plugin cs Hno Hns) as (Ha & Hf & Hts & Hh & Ht).
  assert (Ho : over_table (installed cs) (configured plugin cs (startup true None None None))).
  { intros f Hacc. rewrite Hh by done. split; [by left|]. cbn [reaches]. destruct (s_registered _); [by destruct Ht as [_ ->]|]. destruct (Hc f Hacc) as [b Hb]. by rewrite Ht in Hb. }
  split; [by apply started_ok|done|done|constructor|]. exists []. split_and!; [done|done|intros i l []%elem_of_nil|].
  intros i u ->%started_idle. split; done || constructor.
Qed.

(** The untraced and the traced system start alike. *)
Lemma started_mirrors file file' : mirrors (started plugin file cs n w) (started plugin file' cs n w).
Proof using Type. split; [done|]. cbn. by rewrite fmap_replicate. Qed.

(** C20: tracing several threads does not change them.  Let the accesses be registered
    functions of backends (with no invariant callback and nothing swapped in under the
    wrappers), and let the stamps, the lines and the calls of the backends be single steps
    of threads that interleave; a call may return or jump out of its wrapper.  Every
    execution with [TM_TRACE_PATH] set has the results of the calls and the world of an
    execution without, and the other way round.  The file holds each thread's reads that
    returned and its writes, in the thread's order and at increasing time stamps, and no
    two lines have the same time stamp (fewer than 2^64 steps). *)
Theorem tracing_threads :
  no_oracle cs → no_swap cs → complete (installed cs) → (∀ i h f args, prog i h = Some (f, args) → f ∈ TM_HOOK_ACCESS_FIELDS) →
  (∀ sched y, sys_run backend prog tid sched (started plugin true cs n w) = Some y →
    ∃ sched' y', sys_run backend prog tid sched' (started plugin false cs n w) = Some y' ∧ y_w y' = y_w y ∧ outcomes_of y' = outcomes_of y) ∧
  (∀ sched y, sys_run backend prog tid sched (started plugin false cs n w) = Some y →
    ∃ sched' y', sys_run backend prog tid sched' (started plugin true cs n w) = Some y' ∧ y_w y' = y_w y ∧ outcomes_of y' = outcomes_of y) ∧
  (∀ sched y, sys_run backend prog tid sched (started plugin true cs n w) = Some y → Z.of_nat (length sched) < 2 ^ 64 →
    g_trace_file (y_hs y) = Some (y_log y).*2 ∧ NoDup (l_ts <$> (y_log y).*2) ∧
    ∀ i u, y_thr y !! i = Some u →
      Sorted Z.lt (l_ts <$> lines_of i (y_log y)) ∧
      (h_pc u = HIdle → accesses (lines_of i (y_log y)) = thread_accesses prog tid i [] (h_res u))).
Proof using Type.
  intros Hno Hns Hc Hp. pose proof (started_traced Hno Hns Hc) as HT. pose proof (started_untraced Hno Hc) as HU. split_and!.
  - intros sched y Hr. destruct (mirror_run backend prog tid _ Hc Hp sched _ y _ (ti_ok _ _ _ _ _ HT) HU (started_mirrors true false) Hr) as (l & y' & Hr' & HM).
    exists l, y'. split; [done|]. split; [apply HM|by apply mirrors_outcomes].
  - intros sched y Hr. destruct (mirror_run backend prog tid _ Hc Hp sched _ y _ HU (ti_ok _ _ _ _ _ HT) (started_mirrors false true) Hr) as (l & y' & Hr' & HM).
    exists l, y'. split; [done|]. split; [apply HM|by apply mirrors_outcomes].
  - intros sched y Hr Hl. destruct (trace_inv_run backend prog tid _ Hp sched 0 _ y HT Hl Hr) as [_ _ I3 I4 (S & _ & _ & _ & I8)].
    split_and!; [done|done|]. intros i u Hi. destruct (I8 i u Hi) as [P1 _ P3 _]. split; [done|]. intros Hpc.
    unfold pending_accesses, current_accesses, cont_of in P3. rewrite Hpc in P3. by rewrite !app_nil_r in P3.
Qed.
End Started.

(** Two threads; the backend jumps out of reads of address 99. *)
Definition demo_backend (b : nat) (f : field) (args : list Z) (w : demo_world) : option Z * demo_world :=
  match f with
  | read _ => if arg args 0 =? 99 then (None, w) else (Some (dw_mem w (arg args 0)), w)
  | write _ => (Some 0, DW (<[arg args 0 := arg args 1]> (dw_mem w)) (dw_log w))
  | _ => (Some 0, w)
  end.
Definition demo_threads (i : nat) (h : list (option Z)) : option (field * list Z) :=
  (match i with O => [(begin, []); (write UINT64, [64; 7])] | _ => [(read UINT64, [64]); (read UINT8, [99]); (read UINT64, [64])] end) !! length h.
Definition demo_tid (i : nat) : Z := Z.of_nat i + 1.
Abbreviation demo_run sched := (sys_run demo_backend demo_threads demo_tid sched (started false true demo_configs 2 demo_init)).
Definition demo_sched : list nat := (replicate 3 1 ++ replicate 10 0 ++ replicate 2 1 ++ replicate 7 1)%nat.

Lemma demo_threads_fields i h f args : demo_threads i h = Some (f, args) → f ∈ TM_HOOK_ACCESS_FIELDS.
Proof.
  intros Hp. apply list_elem_of_lookup_2 in Hp. apply (bool_decide_unpack _). destruct i; set_unfold in Hp; repeat destruct Hp as [[= -> ->]|Hp]; try done.
Qed.

Lemma tracing_threads_witness :
  ∃ y, demo_run demo_sched = Some y ∧ accesses (lines_of 1 (y_log y)) = [(0, 2, 64, 8, 0); (0, 2, 64, 8, 7)].
Proof.
  destruct (tracing_threads demo_backend demo_threads demo_tid false demo_configs 2 demo_init) as (_ & _ & Hfile).
  - repeat constructor.
  - repeat constructor.
  - apply table_complete.
  - exact demo_threads_fields.
  - assert (Hsome : match demo_run demo_sched with Some _ => true | None => false end = true) by (vm_compute; reflexivity).
    destruct (demo_run demo_sched) as [y|] eqn:Hr; [|discriminate]. exists y. split; [reflexivity|].
    assert (Hthr : y_thr y !! 1%nat = Some (HT [Some 0; None; Some 7] HIdle)).
    { transitivity (y ← demo_run demo_sched; y_thr y !! 1%nat); [rewrite Hr; reflexivity|vm_compute; reflexivity]. }
    destruct (Hfile demo_sched y Hr) as (_ & _ & Ht); [vm_compute; reflexivity|]. destruct (Ht 1%nat _ Hthr) as [_ Ha]. rewrite (Ha eq_refl). vm_compute. reflexivity.
Defined.

(** Lines can reach the file in another order than that of their time stamps: a thread is
    stopped between the two. *)
Theorem trace_out_of_order :
  (y_log <$> demo_run ([1; 1; 1] ++ [0; 0; 0] ++ [1])%nat) =
  Some [(0%nat, TL 1 1 2 1 0 0 0 0); (1%nat, TL 0 2 0 0 64 8 0 0)].
Proof. vm_compute. reflexivity. Qed.
