(* ===== verification/PluginRW.v ===== *)
(** * Wide accesses of plugin code (TM_DEFINE_PLUGIN_RW of common/tm_backend_macros.hpp)

    The plugin turns vector loads and stores, [memcpy] and [memset] into calls of these
    functions, which split them into the 8-byte and 1-byte accesses of a backend.  The
    macro takes the backend's name space; here it is an interface of four operations.
    NOrec, one of the two backends the macro is applied to, implements it: vector stores
    are read back by vector loads of the same transaction.  What [tm_read_z] and
    [tm_write_z] do does not depend on the backend: the accesses they issue skip and
    misplace bytes unless the length is a multiple of eight, or below it. *)

From S2P Require Import Prelude Memory Values TMSpec NOrec NOrecConc NOrecOpaque NOrecProgress LogMerge SGL.
#[local] Open Scope Z_scope.

(** ** The backend

    [None]: the call does not return (an assertion fails, or the transaction aborts). *)

Class ByteOps (St : Type) := {
  b_read_i8 : Z → St → option (Z * St);
  b_read_i1 : Z → St → option (Z * St);
  b_write_i8 : Z → Z → St → option St;
  b_write_i1 : Z → Z → St → option St;
}.

(** ** The functions *)

Section Functions.
Context {St : Type} `{ByteOps St}.
Implicit Types s : St.

(** The loops over the words at [a]: [out_words[i]] and [val_words[i]]. *)
Fixpoint read_words (n : nat) (a : Z) s : option (list Z * St) :=
  match n with
  | O => Some ([], s)
  | S n => '(v, s) ← b_read_i8 a s; '(vs, s) ← read_words n (a + 8) s; Some (v :: vs, s)
  end.
Fixpoint write_words (a : Z) (vs : list Z) s : option St :=
  match vs with [] => Some s | v :: vs => s ← b_write_i8 a v s; write_words (a + 8) vs s end.

Definition tm_read_i16 (a : Z) s : option (list Z * St) := read_words 2 a s.
Definition tm_read_i32 (a : Z) s : option (list Z * St) := read_words 4 a s.
Definition tm_read_i64 (a : Z) s : option (list Z * St) := read_words 8 a s.
Definition tm_write_i16 (a : Z) (val_words : list Z) s : option St := write_words a (take 2 val_words) s.
Definition tm_write_i32 (a : Z) (val_words : list Z) s : option St := write_words a (take 4 val_words) s.
Definition tm_write_i64 (a : Z) (val_words : list Z) s : option St := write_words a (take 8 val_words) s.

(** The buffer is an array of bytes: an element takes the low byte of what is assigned. *)
Fixpoint buffer_words (i n : nat) (a : Z) (buf : list Z) s : option (list Z * St) :=
  match n with
  | O => Some (buf, s)
  | S n => '(v, s) ← b_read_i8 a s; buffer_words (i + 1) n (a + 8) (<[i := wrap8 v]> buf) s
  end.
Fixpoint buffer_bytes (i n : nat) (a : Z) (buf : list Z) s : option (list Z * St) :=
  match n with
  | O => Some (buf, s)
  | S n => '(v, s) ← b_read_i1 a s; buffer_bytes (i + 1) n (a + 1) (<[i := wrap8 v]> buf) s
  end.

(** [None] also when the assertion on the length fails. *)
Definition tm_read_z (a : Z) (len : nat) (tm_buffer : list Z) s : option (list Z * St) :=
  if (len <? length tm_buffer)%nat
  then '(buf, s) ← buffer_words 0 (len / 8) a tm_buffer s;
       let rem := (len mod 8)%nat in
       buffer_bytes 0 rem (a + Z.of_nat (len - rem)) buf s
  else None.

(** [src] is memory the loop loads from directly, word by word and then byte by byte.  The
    loop of the rest counts from [len - rem - 1]. *)
Fixpoint copy_words (dst src : Z) (n : nat) (m : mem) s : option St :=
  match n with
  | O => Some s
  | S n => s ← b_write_i8 dst (le_word (load_bytes m src 8)) s; copy_words (dst + 8) (src + 8) n m s
  end.
Fixpoint copy_bytes (dst src : Z) (n : nat) (m : mem) s : option St :=
  match n with O => Some s | S n => s ← b_write_i1 dst (mget m src) s; copy_bytes (dst + 1) (src + 1) n m s end.

Definition tm_write_z (dst src : Z) (len : nat) (m : mem) s : option St :=
  s ← copy_words dst src (len / 8) m s;
  let rem := (len mod 8)%nat in
  copy_bytes (dst + (Z.of_nat len - Z.of_nat rem - 1)) (src + (Z.of_nat len - Z.of_nat rem - 1)) rem m s.

Fixpoint tm_memset (a v : Z) (len : nat) s : option St :=
  match len with O => Some s | S n => s ← b_write_i1 a v s; tm_memset (a + 1) v n s end.
End Functions.

(** ** NOrec as the backend

    A call of a thread in a transaction, run to its return while the other threads are
    still; [junk] is the indeterminate content of a local [any_type_t]. *)

Section NOrecOps.
Context (on_stack : Z → bool) (i fuel : nat) (junk : any_type_t).

Definition norec_call (op : uop) (s : gstate * thread) : option (gstate * thread) :=
  '(_, g, t) ← tstep on_stack op i s.1 s.2;
  let '(g, t) := solo fuel on_stack i g t in
  match t_pc t with Running => Some (g, t) | _ => None end.

Definition norec_read (sz : ValueType) (a : Z) (s : gstate * thread) : option (Z * (gstate * thread)) :=
  s ← norec_call (URead a sz junk) s;
  match last (t_evs s.2) with Some (EvR _ _ v) => Some (v, s) | _ => None end.

Definition norec_ops : ByteOps (gstate * thread) := {|
  b_read_i8 := norec_read UINT64;
  b_read_i1 := norec_read UINT8;
  b_write_i8 a v s := norec_call (UWrite a UINT64 v junk) s;
  b_write_i1 a v s := norec_call (UWrite a UINT8 v junk) s;
|}.
End NOrecOps.

(** ** Vector accesses in a NOrec transaction *)

Section NOrecWide.
Context (acc : Z → ValueType → Prop) `{!Discipline acc} (on_stack : Z → bool).

(** A word the program accesses as such, and not as a pointer. *)
Definition word_acc (a : Z) : Prop := acc a UINT64 ∧ ¬ acc a POINTER ∧ on_stack a = false.

Lemma scan_no_assert rws a val :
  (∀ e, e ∈ rws → w_addr e = a → w_type e ≠ POINTER) → ws_scan_update rws a val UINT64 ≠ UpdAssert.
Proof using Type.
  induction rws as [|e rws IH]; intros Hp; cbn [ws_scan_update]; [done|].
  assert (Hr : ws_scan_update rws a val UINT64 ≠ UpdAssert) by (apply IH; intros e' He'; apply Hp; by right).
  destruct (Z.eqb_spec (w_addr e) a) as [He|He]; [|by destruct (ws_scan_update rws a val UINT64)].
  destruct (_ =? _); [|destruct (_ <? _); [done|by destruct (ws_scan_update rws a val UINT64)]].
  destruct (vt_eqb_spec (w_type e) POINTER) as [Ht|_]; [by apply (Hp e (list_elem_of_here _ _)) in Ht|done].
Qed.

(** An eight-byte write is accepted, and keeps every address of the write set. *)
Lemma word_write_ok junk m tx a v :
  ws_wf acc (write_set tx) → word_acc a →
  ∃ tx', tm_write on_stack junk m tx a v UINT64 = Some (m, tx') ∧ ws_wf acc (write_set tx') ∧
    (∀ m0, apply_ws (write_set tx') m0 = real_tm_write (apply_ws (write_set tx) m0) a UINT64 v) ∧
    a ∈ map w_addr (write_set tx') ∧ ∀ x, x ∈ map w_addr (write_set tx) → x ∈ map w_addr (write_set tx').
Proof using Type*.
  intros Hwf (Ha & Hp & Hst). set (w := fill_any_type junk (λ n, le_bytes n v) UINT64).
  assert (∃ tx', tm_write on_stack junk m tx a v UINT64 = Some (m, tx')) as (tx' & Hw).
  { unfold tm_write, write_word_norec. rewrite (acc_good_addr acc a UINT64 Ha), Hst. cbn [ptr_assert vt_eqb negb orb]. fold w.
    change (negb (ptr_assert UINT64 w)) with false. cbn [write_set set_read_only].
    assert (ws_scan_update (rev (write_set tx)) a w UINT64 ≠ UpdAssert) as Hn.
    { apply scan_no_assert. intros e He%elem_of_rev_1 <- Ht. apply Hp. rewrite <- Ht. by apply (ws_entry_acc acc (write_set tx)). }
    destruct (ws_scan_update (rev (write_set tx)) a w UINT64); eauto; done. }
  exists tx'. split; [done|]. pose proof Hw as Hw'. unfold tm_write in Hw'. fold w in Hw'.
  destruct (write_word_apply acc _ _ _ _ _ _ _ _ Hwf Ha Hst Hw') as (_ & Hwf' & Happ & _ & _ & _ & _ & (e & He & <- & _) & _).
  split_and!; [done| |by apply list_elem_of_In, in_map, list_elem_of_In|].
  - intros m0. rewrite Happ. unfold real_tm_write. apply write_value_fill.
  - intros x Hx. unfold write_word_norec in Hw'. rewrite (acc_good_addr acc _ UINT64 Ha), Hst in Hw'.
    change (negb (ptr_assert UINT64 w)) with false in Hw'. cbn [write_set set_read_only] in Hw'.
    pose proof (ws_scan_update_spec (rev (write_set tx)) (w_addr e) w UINT64) as Hs.
    destruct (ws_scan_update (rev (write_set tx)) (w_addr e) w UINT64) as [r| | |]; simplify_eq; cbn [write_set set_write_set set_read_only]; [|done|].
    + destruct Hs as (l1 & e0 & l2 & Hrev & Hae & _ & ->). apply list_elem_of_In. apply list_elem_of_In in Hx. rewrite map_rev, <- in_rev.
      assert (Hx' : In x (map w_addr (rev (write_set tx)))) by (rewrite map_rev, <- in_rev; exact Hx).
      rewrite Hrev in Hx'. rewrite map_app in *. cbn [map w_addr] in *. by rewrite Hae in Hx'.
    + rewrite map_app. apply elem_of_app. by left.
Qed.

Lemma word_write_call i fuel junk g t a v :
  t_pc t = Running → ws_wf acc (write_set (t_tx t)) → word_acc a →
  ∃ t', norec_call on_stack i fuel (UWrite a UINT64 v junk) (g, t) = Some (g, t') ∧ t_pc t' = Running ∧ ws_wf acc (write_set (t_tx t')) ∧
    (∀ m0, apply_ws (write_set (t_tx t')) m0 = real_tm_write (apply_ws (write_set (t_tx t)) m0) a UINT64 v) ∧
    a ∈ map w_addr (write_set (t_tx t')) ∧ ∀ x, x ∈ map w_addr (write_set (t_tx t)) → x ∈ map w_addr (write_set (t_tx t')).
Proof using Type*.
  intros Hpc Hwf Ha. destruct (word_write_ok junk (g_mem g) (t_tx t) a v Hwf Ha) as (tx' & Hw & ?). destruct g as [m lock cnt].
  unfold norec_call, tstep. cbn [fst snd]. rewrite Hpc. unfold write_step. cbn [g_mem] in *. rewrite Hw. cbn [mbind option_bind global_lock g_tm_abort_count].
  eexists. split; [by destruct fuel|done].
Qed.

Lemma word_read_call i fuel junk g t a m0 :
  t_pc t = Running → ws_wf acc (write_set (t_tx t)) → word_acc a → a ∈ map w_addr (write_set (t_tx t)) →
  ∃ t', norec_read on_stack i fuel junk UINT64 a (g, t) = Some (real_tm_read (apply_ws (write_set (t_tx t)) m0) a UINT64, (g, t')) ∧
    t_pc t' = Running ∧ t_tx t' = t_tx t.
Proof using Type*.
  intros Hpc Hwf (Ha & _) Hin. destruct (ws_addr_cases (write_set (t_tx t)) a) as [Hni|(e & He & <-)]; [done|].
  assert (Hl : ws_lookup junk (write_set (t_tx t)) (w_addr e) UINT64 = WsHit (new_val e)).
  { rewrite (ws_lookup_in acc) by done. change (negb (ptr_assert UINT64 (new_val e))) with false. by rewrite andb_false_r. }
  exists (MkThread (t_tx t) Running (t_evs t ++ [EvR (w_addr e) UINT64 (tm_read UINT64 (new_val e))])).
  split; [|done]. unfold norec_read, norec_call, tstep. cbn [fst snd]. rewrite Hpc. unfold read_word_start. rewrite Hl. cbn [mbind option_bind].
  assert (Hs : ∀ t', t_pc t' = Running → solo fuel on_stack i g t' = (g, t')) by (intros t' Ht'; destruct fuel; [done|]; cbn [solo]; by rewrite Ht').
  rewrite Hs by done. cbn [t_pc mbind option_bind snd t_evs]. rewrite last_snoc. do 2 f_equal.
  exact (ws_lookup_hit acc junk _ m0 _ _ _ Hwf Ha Hl).
Qed.

Lemma words_write i fuel junk g t a vs :
  t_pc t = Running → ws_wf acc (write_set (t_tx t)) → (∀ k, (k < length vs)%nat → word_acc (a + 8 * Z.of_nat k)) →
  ∃ t', write_words (H := norec_ops on_stack i fuel junk) a vs (g, t) = Some (g, t') ∧ t_pc t' = Running ∧ ws_wf acc (write_set (t_tx t')) ∧
    (∀ m0, apply_ws (write_set (t_tx t')) m0 = sgl_write_words (apply_ws (write_set (t_tx t)) m0) a vs) ∧
    (∀ k, (k < length vs)%nat → a + 8 * Z.of_nat k ∈ map w_addr (write_set (t_tx t'))) ∧
    ∀ x, x ∈ map w_addr (write_set (t_tx t)) → x ∈ map w_addr (write_set (t_tx t')).
Proof using Type*.
  revert a t. induction vs as [|v vs IH]; intros a t Hpc Hwf Ha; cbn [write_words length] in *.
  { exists t. split_and!; try done. intros k Hk. lia. }
  destruct (word_write_call i fuel junk g t a v Hpc Hwf) as (t1 & Hw & Hpc1 & Hwf1 & Happ1 & Hin1 & Hsub1).
  { specialize (Ha 0%nat ltac:(lia)). by rewrite Z.mul_0_r, Z.add_0_r in Ha. }
  cbn [b_write_i8 norec_ops]. rewrite Hw. cbn [mbind option_bind].
  destruct (IH (a + 8) t1 Hpc1 Hwf1) as (t2 & Hw2 & Hpc2 & Hwf2 & Happ2 & Hin2 & Hsub2).
  { intros k Hk. replace (a + 8 + 8 * Z.of_nat k) with (a + 8 * Z.of_nat (S k)) by lia. apply Ha. lia. }
  exists t2. split_and!; [done..| | |by eauto].
  - intros m0. rewrite Happ2, Happ1. done.
  - intros [|k] Hk; [rewrite Z.mul_0_r, Z.add_0_r; by apply Hsub2|].
    replace (a + 8 * Z.of_nat (S k)) with (a + 8 + 8 * Z.of_nat k) by lia. apply Hin2. lia.
Qed.

Lemma words_read i fuel junk g t a n m0 :
  t_pc t = Running → ws_wf acc (write_set (t_tx t)) →
  (∀ k, (k < n)%nat → word_acc (a + 8 * Z.of_nat k) ∧ a + 8 * Z.of_nat k ∈ map w_addr (write_set (t_tx t))) →
  ∃ t', read_words (H := norec_ops on_stack i fuel junk) n a (g, t) = Some (sgl_read_words (apply_ws (write_set (t_tx t)) m0) a n, (g, t')) ∧
    t_pc t' = Running ∧ t_tx t' = t_tx t.
Proof using Type*.
  revert a t. induction n as [|n IH]; intros a t Hpc Hwf Ha; cbn [read_words sgl_read_words]; [by exists t|].
  destruct (Ha 0%nat ltac:(lia)) as [Ha0 Hin0]. rewrite Z.mul_0_r, Z.add_0_r in Ha0, Hin0.
  destruct (word_read_call i fuel junk g t a m0 Hpc Hwf Ha0 Hin0) as (t1 & Hr & Hpc1 & Htx1). cbn [b_read_i8 norec_ops]. rewrite Hr. cbn [mbind option_bind].
  rewrite <- Htx1 in Hwf |- *. destruct (IH (a + 8) t1 Hpc1 Hwf) as (t2 & Hr2 & Hpc2 & Htx2).
  { intros k Hk. rewrite Htx1. replace (a + 8 + 8 * Z.of_nat k) with (a + 8 * Z.of_nat (S k)) by lia. apply Ha. lia. }
  exists t2. rewrite Hr2. cbn [mbind option_bind]. split_and!; [done..|congruence].
Qed.
End NOrecWide.

(** A wide store and a wide load by a NOrec transaction: the store changes nothing shared,
    buffers what the single global lock would store, and is read back from the buffer
    whatever the shared state is by then. *)
Definition norec_reads_back (on_stack : Z → bool) (store : ∀ St, ByteOps St → Z → list Z → St → option St)
    (load : ∀ St, ByteOps St → Z → St → option (list Z * St)) (a : Z) (vs : list Z) (g : gstate) (t : thread) : Prop :=
  ∀ i fuel junk, ∃ t', store _ (norec_ops on_stack i fuel junk) a vs (g, t) = Some (g, t') ∧
    (∀ m0, apply_ws (write_set (t_tx t')) m0 = sgl_write_words (apply_ws (write_set (t_tx t)) m0) a vs) ∧
    ∀ fuel' junk' g', ∃ t'', load _ (norec_ops on_stack i fuel' junk') a (g', t') = Some (wrap64 <$> vs, (g', t'')) ∧ t_tx t'' = t_tx t'.

Lemma words_read_back acc `{!Discipline acc} on_stack n a vs g t :
  t_pc t = Running → ws_wf acc (write_set (t_tx t)) → (∀ k, (k < n)%nat → word_acc acc on_stack (a + 8 * Z.of_nat k)) → length vs = n →
  norec_reads_back on_stack (λ St ops a vs, write_words (H := ops) a (take n vs)) (λ St ops, read_words (H := ops) n) a vs g t.
Proof.
  intros Hpc Hwf Ha <- i fuel junk. rewrite firstn_all.
  destruct (words_write acc on_stack i fuel junk g t a vs Hpc Hwf Ha) as (t' & Hw & Hpc' & Hwf' & Happ & Hin & _).
  exists t'. split_and!; [done..|]. intros fuel' junk' g'.
  destruct (words_read acc on_stack i fuel' junk' g' t' a (length vs) ∅ Hpc' Hwf') as (t'' & Hr & _ & Htx); [by auto|].
  exists t''. split; [|done]. rewrite Hr, Happ. by rewrite sgl_read_words_write.
Qed.

(** C38: vector accesses in a NOrec transaction.  Under NOrec's access discipline, when
    the words of the vector are accessed as 8-byte integers (never as pointers) and do not
    lie on the stack, a vector store of 16, 32 or 64 bytes leaves the shared state alone
    and buffers exactly its words over what the transaction had buffered, and the vector
    load of the same address then returns the stored words, served from the write set,
    whatever other threads have done to the shared state in between. *)
Theorem norec_wide_roundtrip acc `{!Discipline acc} on_stack a vs g t :
  t_pc t = Running → ws_wf acc (write_set (t_tx t)) → (∀ k, (k < length vs)%nat → word_acc acc on_stack (a + 8 * Z.of_nat k)) →
  (length vs = 2%nat → norec_reads_back on_stack (λ St ops, tm_write_i16 (H := ops)) (λ St ops, tm_read_i16 (H := ops)) a vs g t) ∧
  (length vs = 4%nat → norec_reads_back on_stack (λ St ops, tm_write_i32 (H := ops)) (λ St ops, tm_read_i32 (H := ops)) a vs g t) ∧
  (length vs = 8%nat → norec_reads_back on_stack (λ St ops, tm_write_i64 (H := ops)) (λ St ops, tm_read_i64 (H := ops)) a vs g t).
Proof. intros Hpc Hwf Ha. split_and!; intros Hl; rewrite Hl in Ha; by apply (words_read_back acc). Qed.

(** Four words at 0x100000, accessed as 8-byte integers. *)
Definition vector_acc (a : Z) (sz : ValueType) : Prop := sz = UINT64 ∧ ∃ k, 0 ≤ k < 4 ∧ a = 0x100000 + 8 * k.

#[export] Instance vector_acc_discipline : Discipline vector_acc.
Proof.
  split.
  - intros a t a' t' (-> & k & Hk & ->) (-> & k' & Hk' & ->). unfold coherent_acc, disjoint_acc, compat_type. cbn.
    destruct (decide (k = k')) as [->|]; [left; auto|right; lia].
  - intros a t (-> & k & Hk & ->). unfold LOW_ADDR. lia.
Qed.

Definition vector_thread : thread := MkThread (set_write_set new_Transaction [MkWrite UINT64 0x100008 (AnyT 5)]) Running [].

Lemma norec_wide_roundtrip_witness :
  norec_reads_back (λ _, false) (λ St ops, tm_write_i32 (H := ops)) (λ St ops, tm_read_i32 (H := ops)) 0x100000 [1; 2; 3; 2 ^ 63] (MkG ∅ 4 0) vector_thread.
Proof.
  refine (proj1 (proj2 (norec_wide_roundtrip vector_acc (λ _, false) 0x100000 [1; 2; 3; 2 ^ 63] (MkG ∅ 4 0) vector_thread eq_refl _ _)) eq_refl).
  - split; [|apply NoDup_singleton]. repeat constructor. exists 1. done.
  - intros k Hk. cbn in Hk. split_and!; [split; [done|]; exists (Z.of_nat k); lia|by intros [? _]|done].
Defined.

(** ** [tm_read_z] and [tm_write_z]

    Their faults are the same for every backend. *)

Section Generic.
Context {St : Type} `{ByteOps St}.
Implicit Types s : St.

Lemma buffer_words_eq i n a buf s :
  (i + n ≤ length buf)%nat →
  buffer_words i n a buf s = ('(vs, s) ← read_words n a s; Some (take i buf ++ (wrap8 <$> vs) ++ drop (i + n) buf, s)).
Proof.
  revert i a buf s. induction n as [|n IH]; intros i a buf s Hl; cbn [buffer_words read_words mbind option_bind].
  { cbn. by rewrite Nat.add_0_r, take_drop. }
  destruct (b_read_i8 a s) as [[v s1]|]; cbn [mbind option_bind]; [|done]. rewrite IH by (rewrite length_insert; lia).
  destruct (read_words n (a + 8) s1) as [[vs s2]|]; cbn [mbind option_bind]; [|done]. do 2 f_equal.
  rewrite drop_insert_lt by lia. replace (i + 1 + n)%nat with (i + S n)%nat by lia. rewrite Nat.add_1_r. cbn [fmap list_fmap].
  rewrite (take_S_r _ i (wrap8 v)) by (rewrite list_lookup_insert_eq by lia; done).
  rewrite take_insert_ge by lia. by rewrite <- app_assoc.
Qed.

(** From eight bytes on, [tm_read_z] keeps one byte of each word it reads: for a multiple
    of eight bytes, element [k] of the buffer is the low byte of word [k]. *)
Theorem read_z_stride a n buf s :
  (8 * n < length buf)%nat →
  tm_read_z a (8 * n) buf s = ('(vs, s) ← read_words n a s; Some ((wrap8 <$> vs) ++ drop n buf, s)).
Proof.
  intros Hb. unfold tm_read_z. rewrite (proj2 (Nat.ltb_lt _ _) Hb), (Nat.mul_comm 8 n), Nat.div_mul, Nat.Div0.mod_mul by lia.
  rewrite buffer_words_eq by lia. destruct (read_words n a s) as [[vs s1]|]; [|done]. cbn. by rewrite take_0.
Qed.
End Generic.

(** The accesses issued: a backend that records its writes, with their sizes. *)
Definition write_log : Type := list (Z * Z * Z).
#[export] Instance log_ops : ByteOps write_log := {
  b_read_i8 a l := Some (0, l);
  b_read_i1 a l := Some (0, l);
  b_write_i8 a v l := Some (l ++ [(a, 8, v)]);
  b_write_i1 a v l := Some (l ++ [(a, 1, v)]);
}.

Definition word_writes (dst src : Z) (n : nat) (m : mem) : write_log :=
  (λ k, (dst + 8 * Z.of_nat k, 8, le_word (load_bytes m (src + 8 * Z.of_nat k) 8))) <$> seq 0 n.
Definition byte_writes (dst src : Z) (n : nat) (m : mem) : write_log :=
  (λ k, (dst + Z.of_nat k, 1, mget m (src + Z.of_nat k))) <$> seq 0 n.

Lemma copy_words_log dst src n m l : copy_words dst src n m l = Some (l ++ word_writes dst src n m).
Proof.
  revert dst src l. induction n as [|n IH]; intros dst src l; cbn [copy_words]; [by rewrite app_nil_r|]. cbn [b_write_i8 log_ops mbind option_bind].
  rewrite IH, <- app_assoc. do 2 f_equal. unfold word_writes. cbn [seq fmap list_fmap app]. f_equal; [by rewrite Z.mul_0_r, !Z.add_0_r|].
  rewrite <- fmap_S_seq, <- list_fmap_compose. apply list_fmap_ext. intros _ k _. unfold compose.
  replace (dst + 8 * Z.of_nat (S k)) with (dst + 8 + 8 * Z.of_nat k) by lia. by replace (src + 8 * Z.of_nat (S k)) with (src + 8 + 8 * Z.of_nat k) by lia.
Qed.

Lemma copy_bytes_log dst src n m l : copy_bytes dst src n m l = Some (l ++ byte_writes dst src n m).
Proof.
  revert dst src l. induction n as [|n IH]; intros dst src l; cbn [copy_bytes]; [by rewrite app_nil_r|]. cbn [b_write_i1 log_ops mbind option_bind].
  rewrite IH, <- app_assoc. do 2 f_equal. unfold byte_writes. cbn [seq fmap list_fmap app]. f_equal; [by rewrite !Z.add_0_r|].
  rewrite <- fmap_S_seq, <- list_fmap_compose. apply list_fmap_ext. intros _ k _. unfold compose.
  replace (dst + Z.of_nat (S k)) with (dst + 1 + Z.of_nat k) by lia. by replace (src + Z.of_nat (S k)) with (src + 1 + Z.of_nat k) by lia.
Qed.

(** [tm_write_z] writes the whole words, and the bytes from one before the rest. *)
Lemma write_z_log dst src len m :
  tm_write_z dst src len m [] = Some (word_writes dst src (len / 8) m ++
    byte_writes (dst + (8 * Z.of_nat (len / 8) - 1)) (src + (8 * Z.of_nat (len / 8) - 1)) (len mod 8) m).
Proof.
  unfold tm_write_z. rewrite copy_words_log. cbn [mbind option_bind app]. rewrite copy_bytes_log. pose proof (Nat.div_mod_eq len 8).
  replace (Z.of_nat len - Z.of_nat (len mod 8)) with (8 * Z.of_nat (len / 8)) by lia. done.
Qed.

(** A multiple of eight bytes is copied exactly. *)
Theorem write_z_copies dst src len m : (len mod 8 = 0)%nat → tm_write_z dst src len m [] = Some (word_writes dst src (len / 8) m).
Proof. intros Hl. rewrite write_z_log, Hl. cbn. by rewrite app_nil_r. Qed.

(** Other lengths do not write the last byte, *)
Theorem write_z_last_byte dst src len m :
  (len mod 8 ≠ 0)%nat → ∃ l, tm_write_z dst src len m [] = Some l ∧ ∀ a n v, (a, n, v) ∈ l → ¬ (a ≤ dst + Z.of_nat len - 1 < a + n).
Proof.
  intros Hl. rewrite write_z_log. eexists. split; [done|]. intros a n v Hin. pose proof (Nat.div_mod_eq len 8).
  apply elem_of_app in Hin as [Hin|Hin]; apply list_elem_of_fmap in Hin as (k & Hk & Hin%elem_of_seq); injection Hk as -> -> _;
    [|change ((Nat.divmod len 7 0 7).1) with (len / 8)%nat]; lia.
Qed.

(** and below eight write the byte before the destination. *)
Theorem write_z_before dst src len m :
  (0 < len < 8)%nat → ∃ l, tm_write_z dst src len m [] = Some l ∧ (dst - 1, 1, mget m (src - 1)) ∈ l.
Proof.
  intros Hl. rewrite write_z_log. eexists. split; [done|]. rewrite Nat.div_small, Nat.mod_small by lia. apply elem_of_app. right.
  apply list_elem_of_fmap. exists 0%nat. split; [f_equal; [f_equal; lia|f_equal; lia]|]. apply elem_of_seq. lia.
Qed.

(** [tm_memset] writes each byte once, in order. *)
Lemma memset_log a v n l : tm_memset a v n l = Some (l ++ ((λ k, (a + Z.of_nat k, 1, v)) <$> seq 0 n)).
Proof.
  revert a l. induction n as [|n IH]; intros a l; cbn [tm_memset]; [by rewrite app_nil_r|]. cbn [b_write_i1 log_ops mbind option_bind].
  rewrite IH, <- app_assoc. do 2 f_equal. cbn [seq fmap list_fmap app]. f_equal; [by rewrite Z.add_0_r|].
  rewrite <- fmap_S_seq, <- list_fmap_compose. apply list_fmap_ext. intros _ k _. unfold compose. by replace (a + Z.of_nat (S k)) with (a + 1 + Z.of_nat k) by lia.
Qed.
