(* ===== verification/TSC.v ===== *)
(** * TSC-TM (tsc_tm/tsc_tm.hpp)

    TL2 with the cycle counter of the processor in place of the global version clock.  The
    header repeats the text of tl2.hpp for the data types, the write set, the Bloom word
    and the parts of reads and writes that are local to a transaction; these are the
    definitions of [TL2] under the names of this file.  The operations on shared memory
    are modelled here: time stamps are whatever the counter returns, so a step is given
    one; guards are released with the larger of the commit's time stamp and the version
    found when the guard was taken plus one; and [abort_tx] clears the lock bits of the
    guards of the write set.

    The commit-wait is compiled out ([kTscWaitCycles] is zero).  The build without the
    plugin is modelled.  A guard holds 63 bits of a version: an execution whose time
    stamps exceed them is not continued. *)

From stdpp Require Import functions sorting.
From S2P Require Import Prelude Memory Values TMSpec LogMerge TxLog TL2.
#[local] Open Scope Z_scope.
#[local] Open Scope word_scope.

(** ** The declarations shared with TL2 *)

Definition tsc_old_value : WriteSetEntry → Z := old_value.
Definition tsc_new_value : WriteSetEntry → Z := new_value.
Definition tsc_set_old : WriteSetEntry → Z → WriteSetEntry := set_old.
Definition tsc_set_new : WriteSetEntry → Z → WriteSetEntry := set_new.
Definition tsc_guard_idx : Z → Z := get_guard_idx.
Definition tsc_bloom_set : Z → Z → Z := bloom_set.
Definition tsc_bloom_might_contain : Z → Z → bool := bloom_might_contain.
Definition tsc_guard_version : Z → Z := guard_version.
Definition tsc_guard_locked : Z → bool := guard_locked.
Definition tsc_to_word : DataType → Z → Z := to_word.
Definition tsc_from_word : DataType → Z → Z := from_word.
Definition tsc_write_impl : tl2_tx → DataType → Z → Z → tl2_tx := write_impl.
Definition tsc_wset_lookup : tl2_tx → DataType → Z → option Z := wset_lookup.
Definition tsc_stores : list WriteSetEntry → list (Z * Z) := tl2_stores.
Definition tsc_validate_read : Z → list Z → ReadSetEntry → bool := validate_read.

(** ** Guards *)

(** [release_guard_with_version]: the version stored, from the commit's time stamp and the
    version the guard had when it was taken. *)
Definition release_version (commit_ts acq_version : Z) : Z := if acq_version + 1 <? commit_ts then commit_ts else acq_version + 1.
Definition release_guard_with_version (commit_ts acq_version : Z) : Z := versioned_guard (release_version commit_ts acq_version).

(** ** Threads

    [held] are the indices of [held_guard], [acq] is the array [acq_version]. *)

Inductive spc :=
  | SIdle
  | SGuard (dt : DataType) (a : Z)
  | SBytes (dt : DataType) (a : Z) (bs : list Z)
  | SLock (rem : list WriteSetEntry) (held : list Z) (acq : Z → Z)
  | SCas (e : WriteSetEntry) (rem : list WriteSetEntry) (held : list Z) (acq : Z → Z) (guard : Z)
  | SUndo (rem : list WriteSetEntry) (held : list Z)
  | SCheck (rs : list ReadSetEntry) (held : list Z) (acq : Z → Z)
  | SWrite (st : list (Z * Z)) (acq : Z → Z)
  | SRelease (rem : list WriteSetEntry) (released : list Z) (acq : Z → Z)
  | SAbort (rem : list WriteSetEntry).

(** [s_log] and [s_ord] are ghost: the accesses of the transaction, and the position of
    its commit in the order in which commits took their time stamps. *)
Record sthread := ST { s_tx : tl2_tx; s_pc : spc; s_log : list event; s_ord : nat }.

(** [s_drawn], [s_hist] and [s_ro] are ghost: how many commits have taken a time stamp,
    the logs of the committed update transactions by that order, and those of the
    read-only ones. *)
Record sglobal := SG { s_mem : mem; s_guards : Z → Z; s_drawn : nat; s_hist : gmap nat (list event); s_ro : list (list event) }.

Definition set_sguard (g : sglobal) (idx w : Z) : sglobal := SG (s_mem g) (<[idx := w]> (s_guards g)) (s_drawn g) (s_hist g) (s_ro g).
Definition sgoto (t : sthread) (p : spc) : sthread := ST (s_tx t) p (s_log t) (s_ord t).
Definition sread_done (t : sthread) (dt : DataType) (a v : Z) : sthread := ST (s_tx t) SIdle (s_log t ++ [EvR a (vtype dt) v]) (s_ord t).

(** Calls; [ts] is what the cycle counter returns to [begin]. *)
Definition tsc_call (ts : Z) (o : top) (g : sglobal) (t : sthread) : option (sglobal * sthread) :=
  let x := s_tx t in
  match s_pc t with
  | SIdle =>
      match o with
      | TBegin => Some (g, ST (tx_begun x ts) SIdle [] (s_ord t))
      | TRead dt a =>
          if x_active x && access_ok a (vtype dt) then
            Some (g, match tsc_wset_lookup x dt a with
                     | Some v => sread_done t dt a v
                     | None => sgoto t (SGuard dt a)
                     end)
          else None
      | TWriteOp dt a v =>
          if x_active x && access_ok a (vtype dt) then
            Some (g, ST (tsc_write_impl x dt a v) SIdle (s_log t ++ [EvW a (vtype dt) (to_word dt v)]) (s_ord t))
          else None
      | TCommit =>
          if negb (x_active x) then Some (g, t)
          else
            match x_wset x with
            | [] => Some (SG (s_mem g) (s_guards g) (s_drawn g) (s_hist g) (s_log t :: s_ro g), ST (tx_committed x) SIdle [] (s_ord t))
            | _ :: _ =>
                let ws := merge_sort addr_le (x_wset x) in
                Some (g, ST (tx_sorted x ws) (SLock ws [] (λ _, 0)) (s_log t) (s_ord t))
            end
      | TAbort => Some (g, sgoto t (SAbort (x_wset x)))
      end
  | _ => None
  end.

(** [read_impl] after the write set: the guard, the read set entry, the data. *)
Definition sread_step (g : sglobal) (t : sthread) : option (sglobal * sthread) :=
  match s_pc t with
  | SGuard dt a =>
      let guard := s_guards g (get_guard_idx a) in
      let re := RSE (get_guard_idx a) a (guard_version guard) dt (guard_locked guard) in
      Some (g, ST (tx_push_read (s_tx t) re) (SBytes dt a []) (s_log t) (s_ord t))
  | SBytes dt a bs =>
      let bs' := bs ++ [mget (s_mem g) (a + Z.of_nat (length bs))] in
      Some (g, if (swapSize dt <=? length bs')%nat then sread_done t dt a (from_word dt (to_word dt (le_word bs')))
               else sgoto t (SBytes dt a bs'))
  | _ => None
  end.

(** Step 3 of [commit] with [try_acquire_guard], and step 4, which takes the time stamp;
    [weak] says that the weak compare-and-swap fails although the guard has the expected
    value. *)
Definition sguard_seen (t : sthread) (e : WriteSetEntry) (rem : list WriteSetEntry) (held : list Z) (acq : Z → Z) (guard : Z) : sthread :=
  if guard_locked guard then sgoto t (SUndo (x_wset (s_tx t)) held) else sgoto t (SCas e rem held acq guard).

Definition slock_step (weak : bool) (ts : Z) (g : sglobal) (t : sthread) : option (sglobal * sthread) :=
  match s_pc t with
  | SLock (e :: rem) held acq =>
      let idx := get_guard_idx (we_addr e) in
      Some (g, if bool_decide (idx ∈ held) then sgoto t (SLock rem held acq) else sguard_seen t e rem held acq (s_guards g idx))
  | SCas e rem held acq guard =>
      let idx := get_guard_idx (we_addr e) in
      Some (if negb weak && (s_guards g idx =? guard)
            then (set_sguard g idx (guard_lock guard), sgoto t (SLock rem (idx :: held) (<[idx := guard_version guard]> acq)))
            else (g, sguard_seen t e rem held acq (s_guards g idx)))
  | SLock [] held acq =>
      let k := S (s_drawn g) in
      Some (SG (s_mem g) (s_guards g) k (s_hist g) (s_ro g),
            ST (tx_version (s_tx t) ts) (SCheck (x_rset (s_tx t)) held acq) (s_log t) k)
  | _ => None
  end.

(** The guards taken are released on failure, each once, with their versions. *)
Definition sundo_step (g : sglobal) (t : sthread) : option (sglobal * sthread) :=
  match s_pc t with
  | SUndo (e :: rem) held =>
      let idx := get_guard_idx (we_addr e) in
      Some (if bool_decide (idx ∈ held)
            then (set_sguard g idx (release_guard (s_guards g idx)), sgoto t (SUndo rem (filter (.≠ idx) held)))
            else (g, sgoto t (SUndo rem held)))
  | SUndo [] _ => Some (g, ST (tx_failed (s_tx t)) SIdle [] (s_ord t))
  | _ => None
  end.

(** Steps 5 and 7 of [commit]: validation, write-back, release with a larger version. *)
Definition scommit_step (g : sglobal) (t : sthread) : option (sglobal * sthread) :=
  let x := s_tx t in
  match s_pc t with
  | SCheck (re :: rs) held acq =>
      Some (g, if tsc_validate_read (s_guards g (re_guard re)) held re then sgoto t (SCheck rs held acq) else sgoto t (SUndo (x_wset x) held))
  | SCheck [] _ acq =>
      Some (SG (s_mem g) (s_guards g) (s_drawn g) (<[s_ord t := s_log t]> (s_hist g)) (s_ro g), sgoto t (SWrite (tsc_stores (x_wset x)) acq))
  | SWrite ((a, b) :: st) acq =>
      Some (SG (<[a := b]> (s_mem g)) (s_guards g) (s_drawn g) (s_hist g) (s_ro g), sgoto t (SWrite st acq))
  | SWrite [] acq => Some (g, sgoto t (SRelease (x_wset x) [] acq))
  | SRelease (e :: rem) released acq =>
      let idx := get_guard_idx (we_addr e) in
      if bool_decide (idx ∈ released) then Some (g, sgoto t (SRelease rem released acq))
      else if 2 ^ 63 <=? release_version (x_commit x) (acq idx) then None
      else Some (set_sguard g idx (release_guard_with_version (x_commit x) (acq idx)), sgoto t (SRelease rem (idx :: released) acq))
  | SRelease [] _ _ => Some (g, ST (tx_committed x) SIdle [] (s_ord t))
  | _ => None
  end.

(** [abort_tx]: every guard of the write set loses its lock bit, held or not. *)
Definition sabort_step (g : sglobal) (t : sthread) : option (sglobal * sthread) :=
  match s_pc t with
  | SAbort (e :: rem) =>
      let idx := get_guard_idx (we_addr e) in
      Some (set_sguard g idx (release_guard (s_guards g idx)), sgoto t (SAbort rem))
  | SAbort [] => Some (g, ST (tx_failed (s_tx t)) SIdle [] (s_ord t))
  | _ => None
  end.

Definition tsc_step (weak : bool) (ts : Z) (g : sglobal) (t : sthread) : option (sglobal * sthread) :=
  match s_pc t with
  | SIdle => None
  | SGuard _ _ | SBytes _ _ _ => sread_step g t
  | SLock _ _ _ | SCas _ _ _ _ _ => slock_step weak ts g t
  | SUndo _ _ => sundo_step g t
  | SCheck _ _ _ | SWrite _ _ | SRelease _ _ _ => scommit_step g t
  | SAbort _ => sabort_step g t
  end.

(** ** Interleaved executions

    [calm] executions call [abort_tx] only for transactions without writes: the runtime
    calls it at the exit of a thread inside a transaction only, and otherwise retries by
    jumping after a failed commit. *)

Definition calm_call (o : top) (t : sthread) : Prop := o = TAbort → x_wset (s_tx t) = [].

Inductive sexec_step (calm : bool) : sglobal * list sthread → sglobal * list sthread → Prop :=
  | sexec_call g ths i t ts o g' t' :
      ths !! i = Some t → 0 ≤ ts → (calm = true → calm_call o t) → tsc_call ts o g t = Some (g', t') → sexec_step calm (g, ths) (g', <[i := t']> ths)
  | sexec_run weak g ths i t ts g' t' :
      ths !! i = Some t → 0 ≤ ts → tsc_step weak ts g t = Some (g', t') → sexec_step calm (g, ths) (g', <[i := t']> ths).

(** [init], and [init_thread] for [n] threads. *)
Definition sthread_init : sthread := ST (TL2Tx false false 0 0 [] [] 0) SIdle [] 0.
Definition sinit (m : mem) : sglobal := SG m (λ _, 0) 1 ∅ [].

Inductive sreachable (calm : bool) (m : mem) (n : nat) : sglobal * list sthread → Prop :=
  | sreach_init : sreachable calm m n (sinit m, replicate n sthread_init)
  | sreach_step s s' : sreachable calm m n s → sexec_step calm s s' → sreachable calm m n s'.

(** Thread [i] starts the given call or continues its current one, at the given time (no
    compare-and-swap of these schedules fails without a reason). *)
Definition ssched (s : sglobal * list sthread) (io : nat * Z * option top) : option (sglobal * list sthread) :=
  t ← s.2 !! io.1.1;
  gt ← match io.2 with Some o => tsc_call io.1.2 o s.1 t | None => tsc_step false io.1.2 s.1 t end;
  Some (gt.1, <[io.1.1 := gt.2]> s.2).

Fixpoint srun (s : sglobal * list sthread) (l : list (nat * Z * option top)) : option (sglobal * list sthread) :=
  match l with
  | [] => Some s
  | io :: l' => s' ← ssched s io; srun s' l'
  end.

(** No schedule entry calls [abort_tx], and times are not negative. *)
Definition sched_ok (calm : bool) (io : nat * Z * option top) : bool :=
  (0 <=? io.1.2) && negb (calm && match io.2 with Some TAbort => true | _ => false end).

Lemma srun_reachable calm m n s l s' : forallb (sched_ok calm) l = true → sreachable calm m n s → srun s l = Some s' → sreachable calm m n s'.
Proof.
  revert s. induction l as [|[[i ts] o] l IH]; intros s Hok Hr; cbn [srun]; [by intros [= <-]|]. cbn [forallb] in Hok. apply andb_prop in Hok as [Ho Hok].
  unfold sched_ok in Ho. cbn [fst snd] in Ho. apply andb_prop in Ho as [Hts%Z.leb_le Hca].
  destruct (ssched s (i, ts, o)) as [s1|] eqn:Hs; [|done]. apply IH; [done|]. eapply sreach_step; [done|]. destruct s as [g ths]. unfold ssched in Hs.
  cbn [fst snd] in Hs. destruct (ths !! i) as [t|] eqn:Ht; [|done]. simpl in Hs. destruct o as [o|].
  - destruct (tsc_call ts o g t) as [[g' t']|] eqn:Hc; [|done]. injection Hs as <-. eapply sexec_call; try done. intros ->. by intros ->.
  - destruct (tsc_step false ts g t) as [[g' t']|] eqn:Hc; [|done]. injection Hs as <-. by eapply sexec_run.
Qed.
