(* ===== verification/AllocTrack.v ===== *)
(** * Memory of transactions (common/tm_alloc_overrides.hpp)

    Inside a transaction an allocation is speculative (given back if the transaction
    aborts) and a free is deferred (performed if it commits).  Each thread keeps a list of
    either; the runtimes clear or flush them in [tm_begin] and [tm_end].  The lists are
    modelled with the pointers of their nodes; the operations return the blocks they give
    back, in order.  The nodes themselves come from the C library and pass the checks of
    their alignment.

    The theorems relate them to an abstract heap, the set of live blocks, on which a free
    of a block that is not live is an error: committed, a transaction changes the heap by
    its allocations and frees, and the attempts that aborted before leave nothing, whatever
    their number, but the blocks they had both allocated and freed, which leak.  This holds
    of transactions that do not reallocate: a reallocation gives the old block back at
    once, and after an abort the block is gone. *)

From stdpp Require Import gmap sets.
From S2P Require Import Prelude.
#[local] Open Scope Z_scope.

(** The lists of a thread, newest first; the pointer of a speculative allocation that was
    freed is null.  Retired pointers carry the version of their retirement. *)
Record atls := ATls {
  g_in_tx : bool; g_spec_allocs : list Z; g_deferred_frees : list Z; g_deferred_frees_set : gset Z; g_retired_frees : list (Z * Z);
}.

Definition atls_init : atls := ATls false [] [] ∅ [].

Section Track.
(** [isTMAddress] of the region allocator. *)
Context (isTM : Z → bool).
Implicit Types (s : atls) (ptr : Z).

(** ** Speculative allocations *)

Definition set_spec s (l : list Z) : atls := ATls (g_in_tx s) l (g_deferred_frees s) (g_deferred_frees_set s) (g_retired_frees s).
Definition set_deferred s (l : list Z) (S : gset Z) : atls := ATls (g_in_tx s) (g_spec_allocs s) l S (g_retired_frees s).
Definition set_retired s (l : list (Z * Z)) : atls := ATls (g_in_tx s) (g_spec_allocs s) (g_deferred_frees s) (g_deferred_frees_set s) l.
Definition set_in_tx s (b : bool) : atls := ATls b (g_spec_allocs s) (g_deferred_frees s) (g_deferred_frees_set s) (g_retired_frees s).

Definition tm_track_spec_alloc ptr s : atls := if g_in_tx s && negb (ptr =? 0) then set_spec s (ptr :: g_spec_allocs s) else s.

(** The first node with the pointer loses it. *)
Fixpoint untrack_list ptr (l : list Z) : list Z :=
  match l with [] => [] | p :: l => if p =? ptr then 0 :: l else p :: untrack_list ptr l end.
Definition tm_untrack_spec_alloc ptr s : atls := if negb (g_in_tx s) || (ptr =? 0) then s else set_spec s (untrack_list ptr (g_spec_allocs s)).

Definition tm_clear_spec_allocs s : list Z * atls := (List.filter (λ p, negb (p =? 0)) (g_spec_allocs s), set_spec s []).
Definition tm_flush_spec_allocs s : atls := set_spec s [].

(** ** Deferred frees *)

Definition tm_flush_deferred_frees s : list Z * atls := (g_deferred_frees s, set_deferred s [] ∅).
Definition tm_clear_deferred_frees s : atls := set_deferred s [] ∅.

Definition tm_track_alloc_result ptr s : atls := tm_track_spec_alloc ptr s.

(** [None]: the process exits on a double free. *)
Definition tm_free_append_deferred ptr s : option atls :=
  if negb (isTM ptr) then Some s
  else if bool_decide (ptr ∈ g_deferred_frees_set s) then None
  else let s := tm_untrack_spec_alloc ptr s in Some (set_deferred s (ptr :: g_deferred_frees s) ({[ptr]} ∪ g_deferred_frees_set s)).

(** ** Retired frees *)

(** The deferred pointers get the version and move to the retired list, except those in
    the set of the pointers some thread has retired. *)
Fixpoint move_list (version : Z) (nodes : list Z) (G : gset Z) (retired : list (Z * Z)) : gset Z * list (Z * Z) :=
  match nodes with
  | [] => (G, retired)
  | p :: nodes => if bool_decide (p ∈ G) then move_list version nodes G retired else move_list version nodes ({[p]} ∪ G) ((p, version) :: retired)
  end.
Definition tm_move_deferred_to_retired (commit_version : Z) (G : gset Z) s : gset Z * atls :=
  let '(G, retired) := move_list commit_version (g_deferred_frees s) G (g_retired_frees s) in
  (G, set_deferred (set_retired s retired) [] ∅).

(** Pointers retired before the version are freed; those outside the region leave the set. *)
Definition before (safe : Z) (r : Z * Z) : bool := r.2 <? safe.
Definition tm_flush_retired_frees (safe_version : Z) (G : gset Z) s : list Z * gset Z * atls :=
  let gone := fst <$> List.filter (before safe_version) (g_retired_frees s) in
  (gone, G ∖ list_to_set (List.filter (λ p, negb (isTM p)) gone), set_retired s (List.filter (λ r, negb (before safe_version r)) (g_retired_frees s))).

(** ** The runtime of TL2

    [real_tm_begin], [real_tm_end], [real_tm_malloc], [real_tm_realloc] and [real_tm_free]
    around the calls of the transaction itself, among them the write of a zero byte into a
    block that is freed; [ptr] is the block that the region allocator returned.  Those of
    TSC-TM and SwissTM read the same. *)

Definition alloc_begin s : list Z * atls :=
  let '(gone, s) := tm_clear_spec_allocs s in (gone, set_in_tx (tm_clear_deferred_frees s) true).
Definition alloc_end s : list Z * atls := tm_flush_deferred_frees (tm_flush_spec_allocs (set_in_tx s false)).
Definition alloc_malloc ptr s : atls := tm_track_alloc_result ptr s.
Definition alloc_realloc old ptr s : atls := tm_track_alloc_result ptr (tm_untrack_spec_alloc old s).

(** The blocks freed at once, outside a transaction. *)
Definition alloc_free ptr s : option (list Z * atls) :=
  if (ptr =? 0) || negb (isTM ptr) then Some ([], s)
  else if g_in_tx s then s ← tm_free_append_deferred ptr s; Some ([], s)
  else Some ([ptr], s).

(** ** Programs on a heap *)

(** The heap is the set of live blocks; giving back a block that is not live is an error. *)
Fixpoint give_back (ps : list Z) (live : gset Z) : option (gset Z) :=
  match ps with
  | [] => Some live
  | p :: ps => if bool_decide (p ∈ live) then give_back ps (live ∖ {[p]}) else None
  end.

(** [tm_region_realloc] gives the old block back, if there is one. *)
Definition moved_from (old : Z) : list Z := if old =? 0 then [] else [old].
(** A null result is no block. *)
Definition obtain (p : Z) (live : gset Z) : gset Z := if p =? 0 then live else {[p]} ∪ live.

(** A malloc with the block the allocator chose, a free; a realloc, with the block it moved to. *)
Inductive aop := AMalloc (p : Z) | AFree (p : Z) | ARealloc (old p : Z).

Definition astep (o : aop) (h : gset Z * atls) : option (gset Z * atls) :=
  let '(live, s) := h in
  match o with
  | AMalloc p => Some (obtain p live, alloc_malloc p s)
  | AFree p => '(gone, s) ← alloc_free p s; live ← give_back gone live; Some (live, s)
  | ARealloc old p => live ← give_back (moved_from old) live; Some (obtain p live, alloc_realloc old p s)
  end.

Fixpoint aops (os : list aop) (h : gset Z * atls) : option (gset Z * atls) :=
  match os with [] => Some h | o :: os => h ← astep o h; aops os h end.

Definition heap_begin (h : gset Z * atls) : option (gset Z * atls) :=
  let '(gone, s) := alloc_begin h.2 in live ← give_back gone h.1; Some (live, s).
Definition heap_end (h : gset Z * atls) : option (gset Z * atls) :=
  let '(gone, s) := alloc_end h.2 in live ← give_back gone h.1; Some (live, s).

(** Attempts that abort, each begun again, and the one that commits. *)
Fixpoint attempts (aborted : list (list aop)) (final : list aop) (h : gset Z * atls) : option (gset Z * atls) :=
  h ← heap_begin h;
  match aborted with
  | [] => (h ← aops final h; heap_end h)
  | os :: aborted => (h ← aops os h; attempts aborted final h)
  end.

(** ** What a transaction does to the heap *)

(** Blocks are allocated fresh and freed once; [F] are the blocks freed so far. *)
Fixpoint well_behaved (live F : gset Z) (os : list aop) : Prop :=
  match os with
  | [] => True
  | AMalloc p :: os => p ≠ 0 ∧ (p ∉ live) ∧ well_behaved ({[p]} ∪ live) F os
  | AFree p :: os => isTM p = true ∧ p ≠ 0 ∧ (p ∈ live) ∧ (p ∉ F) ∧ well_behaved live ({[p]} ∪ F) os
  | ARealloc _ _ :: _ => False
  end.

(** The blocks an operation list allocates and frees. *)
Definition mallocs (os : list aop) : gset Z := list_to_set (omap (λ o, match o with AMalloc p => Some p | _ => None end) os).
Definition frees (os : list aop) : gset Z := list_to_set (omap (λ o, match o with AFree p => Some p | _ => None end) os).

Definition tracked (l : list Z) : list Z := List.filter (λ p, negb (p =? 0)) l.

(** The state of a thread that has allocated [A] and freed [F] in a transaction. *)
Record in_transaction (live : gset Z) (s : atls) (A F : gset Z) : Prop := {
  it_in : g_in_tx s = true;
  it_spec : NoDup (tracked (g_spec_allocs s));
  it_tracked p : p ∈ tracked (g_spec_allocs s) ↔ p ∈ A ∧ p ∉ F;
  it_deferred : NoDup (g_deferred_frees s);
  it_frees p : p ∈ g_deferred_frees s ↔ p ∈ F;
  it_set : g_deferred_frees_set s = F;
  it_live : A ∪ F ⊆ live;
}.

Lemma tracked_untrack p l : p ≠ 0 → NoDup (tracked l) → NoDup (tracked (untrack_list p l)) ∧ ∀ q, q ∈ tracked (untrack_list p l) ↔ q ∈ tracked l ∧ q ≠ p.
Proof using Type.
  clear isTM. intros Hp. induction l as [|r l IH]; intros Hd; [split; [done|]; set_solver|]. cbn [untrack_list tracked List.filter] in *.
  destruct (Z.eqb_spec r p) as [->|Hne].
  - rewrite (proj2 (Z.eqb_neq p 0)) in * by done. cbn [negb tracked List.filter] in *. rewrite Z.eqb_refl. cbn [negb].
    apply NoDup_cons in Hd as [Hn Hd]. split; [done|]. intros q. rewrite elem_of_cons. split; [|naive_solver]. intros Hq. split; [by right|]. by intros ->.
  - cbn [tracked List.filter]. destruct (Z.eqb_spec r 0) as [->|Hr]; cbn [negb] in *; [by apply IH|]. apply NoDup_cons in Hd as [Hn Hd]. destruct (IH Hd) as [IH1 IH2].
    split; [constructor; [rewrite IH2; naive_solver|done]|]. intros q. rewrite !elem_of_cons, IH2. split; [|naive_solver]. intros [-> |[? ?]]; [by split; [left|]|]. by split; [right|].
Qed.

Lemma free_in_transaction live s A F p :
  in_transaction live s A F → isTM p = true → p ≠ 0 → p ∈ live → p ∉ F → ∃ s', alloc_free p s = Some ([], s') ∧ in_transaction live s' A ({[p]} ∪ F).
Proof using isTM.
  intros [S1 S2 S3 S4 S5 S6 S7] Htm Hp Hl HF. unfold alloc_free. rewrite (proj2 (Z.eqb_neq p 0)), Htm, S1 by done. simpl.
  unfold tm_free_append_deferred. rewrite Htm, S6. simpl. rewrite bool_decide_false by done. simpl. eexists. split; [done|].
  unfold tm_untrack_spec_alloc. rewrite S1, (proj2 (Z.eqb_neq p 0)) by done. simpl. destruct (tracked_untrack p _ Hp S2) as [U1 U2]. split; simpl; try done.
  - intros q. rewrite U2, S3. set_solver.
  - constructor; [by rewrite S5|done].
  - intros q. rewrite elem_of_cons, S5. set_solver.
  - by rewrite S6.
  - set_solver.
Qed.

Lemma malloc_in_transaction live s A F p :
  in_transaction live s A F → p ≠ 0 → p ∉ live → in_transaction ({[p]} ∪ live) (alloc_malloc p s) ({[p]} ∪ A) F.
Proof using isTM.
  intros [S1 S2 S3 S4 S5 S6 S7] Hp Hl. unfold alloc_malloc, tm_track_alloc_result, tm_track_spec_alloc. rewrite S1, (proj2 (Z.eqb_neq p 0)) by done. simpl.
  split; simpl; try done; cbn [tracked List.filter]; rewrite ?(proj2 (Z.eqb_neq p 0)) by done; cbn [negb].
  - constructor; [|done]. rewrite S3. set_solver.
  - intros q. rewrite elem_of_cons, S3. set_solver.
  - set_solver.
Qed.

Lemma aops_run os live s A F :
  in_transaction live s A F → well_behaved live F os →
  ∃ s', aops os (live, s) = Some (mallocs os ∪ live, s') ∧ in_transaction (mallocs os ∪ live) s' (mallocs os ∪ A) (frees os ∪ F).
Proof using isTM.
  revert live s A F. induction os as [|[p|p|old p] os IH]; intros live s A F Hs Hw; [| | |done].
  - exists s. unfold mallocs, frees. simpl. rewrite !(left_id_L ∅ (∪)). by split.
  - destruct Hw as (Hp0 & Hp & Hw). destruct (IH _ _ _ _ (malloc_in_transaction live s A F p Hs Hp0 Hp) Hw) as (s' & Hrun & Hs'). exists s'.
    unfold mallocs in *. simpl. unfold obtain. rewrite (proj2 (Z.eqb_neq p 0)) by done. rewrite Hrun. rewrite <- !(assoc_L (∪)), !(comm_L (∪) {[p]}) in *. rewrite <- !(assoc_L (∪)). split; [|exact Hs']. done.
  - destruct Hw as (Htm & Hp0 & Hp & HpF & Hw). destruct (free_in_transaction live s A F p Hs Htm Hp0 Hp HpF) as (s1 & Hf & Hs1).
    destruct (IH _ _ _ _ Hs1 Hw) as (s' & Hrun & Hs'). exists s'. cbn [aops]. unfold astep. rewrite Hf. simpl. rewrite Hrun. split; [done|].
    unfold frees in *. simpl. rewrite (comm_L (∪) {[p]}). rewrite <- (assoc_L (∪)). done.
Qed.

Lemma give_back_all ps live : NoDup ps → (∀ p, p ∈ ps → p ∈ live) → give_back ps live = Some (live ∖ list_to_set ps).
Proof using Type.
  clear isTM. revert live. induction ps as [|p ps IH]; intros live Hd Hl; simpl; [f_equal; set_solver|]. apply NoDup_cons in Hd as [Hn Hd].
  rewrite bool_decide_true by (apply Hl; by left). rewrite IH; [f_equal; set_solver|done|]. set_solver.
Qed.

(** Between transactions. *)
Definition quiet s : Prop := g_in_tx s = false ∧ g_spec_allocs s = [] ∧ g_deferred_frees s = [] ∧ g_deferred_frees_set s = ∅.

Lemma begin_quiet live s : quiet s → ∃ s', heap_begin (live, s) = Some (live, s') ∧ in_transaction live s' ∅ ∅.
Proof using isTM.
  intros (H1 & H2 & H3 & H4). unfold heap_begin, alloc_begin, tm_clear_spec_allocs. simpl. rewrite H2. simpl. eexists. split; [done|].
  split; simpl; try done; try constructor; set_solver.
Qed.

(** The next attempt gives back the blocks of the aborted one that it has not freed. *)
Lemma begin_again live s A F : in_transaction live s A F → ∃ s', heap_begin (live, s) = Some (live ∖ (A ∖ F), s') ∧ in_transaction (live ∖ (A ∖ F)) s' ∅ ∅.
Proof using isTM.
  intros [S1 S2 S3 S4 S5 S6 S7]. unfold heap_begin, alloc_begin, tm_clear_spec_allocs. simpl. fold (tracked (g_spec_allocs s)).
  rewrite give_back_all; [|done|intros p Hp%S3; set_solver]. simpl. eexists. split; [do 2 f_equal; apply set_eq; intros p; rewrite !elem_of_difference, elem_of_list_to_set, S3; naive_solver|].
  split; simpl; try done; try constructor; set_solver.
Qed.

Lemma end_commits live s A F : in_transaction live s A F → ∃ s', heap_end (live, s) = Some (live ∖ F, s') ∧ quiet s'.
Proof using isTM.
  intros [S1 S2 S3 S4 S5 S6 S7]. unfold heap_end, alloc_end, tm_flush_deferred_frees. simpl. rewrite give_back_all; [|done|intros p Hp%S5; set_solver].
  simpl. eexists. split; [do 2 f_equal; apply set_eq; intros p; rewrite !elem_of_difference, elem_of_list_to_set, S5; naive_solver|done].
Qed.

(** What the aborted attempts leave behind: the blocks they had both allocated and freed. *)
Fixpoint attempts_ok (live : gset Z) (aborted : list (list aop)) (final : list aop) : Prop :=
  match aborted with
  | [] => well_behaved live ∅ final
  | os :: aborted => well_behaved live ∅ os ∧ attempts_ok (live ∪ (mallocs os ∩ frees os)) aborted final
  end.
Fixpoint left_behind (aborted : list (list aop)) : gset Z :=
  match aborted with [] => ∅ | os :: aborted => (mallocs os ∩ frees os) ∪ left_behind aborted end.

Lemma well_behaved_fresh os live F : well_behaved live F os → mallocs os ## live.
Proof using isTM.
  revert live F. induction os as [|[p|p|old p] os IH]; intros live F; [set_solver| | |done]; unfold mallocs in *; simpl.
  - intros (_ & Hp & Hw%IH). set_solver.
  - intros (_ & _ & _ & _ & Hw%IH). done.
Qed.

Lemma attempts_run aborted final live h :
  (∃ s, heap_begin h = Some (live, s) ∧ in_transaction live s ∅ ∅) → attempts_ok live aborted final →
  ∃ s', attempts aborted final h = Some ((mallocs final ∪ left_behind aborted ∪ live) ∖ frees final, s') ∧ quiet s'.
Proof using isTM.
  revert live h. induction aborted as [|os aborted IH]; intros live h (s & Hb & Hs) Hok; cbn [attempts attempts_ok left_behind] in *; rewrite Hb; simpl.
  - destruct (aops_run final live s ∅ ∅ Hs Hok) as (s1 & -> & Hs1). simpl. destruct (end_commits _ _ _ _ Hs1) as (s2 & -> & Hq).
    exists s2. split; [|done]. do 2 f_equal. set_solver.
  - destruct Hok as [Hw Hok]. pose proof (well_behaved_fresh _ _ _ Hw) as Hf. destruct (aops_run os live s ∅ ∅ Hs Hw) as (s1 & -> & Hs1). simpl.
    destruct (begin_again _ _ _ _ Hs1) as (s2 & Hb2 & Hs2).
    assert ((mallocs os ∪ live) ∖ ((mallocs os ∪ ∅) ∖ (frees os ∪ ∅)) = live ∪ mallocs os ∩ frees os) as Hl.
    { apply set_eq. intros q. specialize (Hf q). destruct (decide (q ∈ frees os)); set_solver. }
    rewrite Hl in Hb2, Hs2. destruct (IH _ _ (ex_intro _ s2 (conj Hb2 Hs2)) Hok) as (s3 & -> & Hq). exists s3. split; [|done]. do 2 f_equal. set_solver.
Qed.

(** C21: a transaction that runs between quiet states of a thread, after any number of
    attempts that aborted (each allocating fresh blocks, freeing live ones of the region at
    most once, and reallocating none), changes the heap by the allocations and the frees of the attempt
    that committed; no attempt gives back a block that is not live, and all that the aborted
    ones leave in the heap are the blocks they had both allocated and freed. *)
Theorem transaction_heap aborted final live s :
  quiet s → attempts_ok live aborted final →
  ∃ s', attempts aborted final (live, s) = Some ((mallocs final ∪ left_behind aborted ∪ live) ∖ frees final, s') ∧ quiet s'.
Proof using isTM. intros Hq Hok. apply (attempts_run _ _ live); [by apply begin_quiet|done]. Qed.
End Track.

(** Two aborted attempts, the second of which frees a block of its own, and a commit. *)
Lemma transaction_heap_witness :
  ∃ s', attempts (λ _, true) [[AMalloc 32; AFree 16]; [AMalloc 48; AFree 48]] [AMalloc 64; AFree 16] ({[16]}, atls_init) = Some ({[48; 64]}, s') ∧ quiet s'.
Proof.
  replace ({[48; 64]} : gset Z) with ((mallocs [AMalloc 64; AFree 16] ∪ left_behind [[AMalloc 32; AFree 16]; [AMalloc 48; AFree 48]] ∪ {[16]}) ∖ frees [AMalloc 64; AFree 16])
    by (vm_compute; reflexivity).
  apply (transaction_heap (λ _, true)); [by split_and!|]. cbn. split_and!; try done; try lia; try set_solver.
Defined.

(** A block allocated and freed by an attempt that aborts is never given back. *)
Theorem aborted_free_leaks :
  fst <$> attempts (λ _, true) [[AMalloc 32; AFree 32]] [] (∅, atls_init) = Some {[32]}.
Proof. vm_compute. reflexivity. Qed.

(** After a reallocation in an attempt that aborts, the block from before the transaction is
    gone, although the program still points to it. *)
Theorem aborted_realloc_loses :
  fst <$> attempts (λ _, true) [[ARealloc 16 32]] [] ({[16]}, atls_init) = Some ∅.
Proof. vm_compute. reflexivity. Qed.

(** The set of retired pointers keeps a pointer of the region after it is given back: when
    the allocator returns the same block again, its next retirement is dropped. *)
Theorem retired_again_dropped :
  let '(G, s) := tm_move_deferred_to_retired 3 ∅ (set_deferred atls_init [16] {[16]}) in
  let '(gone, G, s) := tm_flush_retired_frees (λ _, true) 4 G s in
  let '(G, s) := tm_move_deferred_to_retired 5 G (set_deferred s [16] {[16]}) in
  gone = [16] ∧ G = {[16]} ∧ g_retired_frees s = [] ∧ g_deferred_frees s = [].
Proof. vm_compute. split_and!; reflexivity. Qed.
