(* ===== verification/TinyRuntime.v ===== *)
(** * The TinySTM runtime: reclamation of freed blocks (tiny_stm/TinySTM_runtime.cpp)

    A block freed in a transaction may still be read by transactions that began before the
    commit.  The runtime therefore retires the blocks of a committed transaction with the
    version of the commit; each thread publishes the version at which its transaction began
    in [g_thread_tx_version], and at the begin of a transaction a thread frees those of its
    retired blocks whose version is below every published one.

    The hooks run interleaved with those of any number of threads, one access to shared
    memory at a time: the loads and stores of the clock and of the published versions, one
    node of a list at a time where the set of retired pointers is consulted.  The body and
    the commit of the transaction are those of the designs; here a commit of a transaction
    that has written increments the clock, any other loads it, and a transaction can abort,
    and begin again, until its commit is complete.  The clock stays below [VERSION_MAX], as
    in the models of the designs.  The statistics the hooks keep are left out.

    The theorems: a block is freed only when every transaction in progress began at or after
    its retirement; a pointer is never retired by two threads or twice by one; and a thread
    that begins a transaction while all others are idle frees all it has retired.  The last
    section has the lock that serialises functions the pass could not clone. *)

From stdpp Require Import gmap sets.
From S2P Require Import Prelude TinyLock AllocTrack Interleave.
#[local] Open Scope Z_scope.

Definition UINT64_MAX : Z := 2 ^ 64 - 1.

(** The shared variables.  [freed] records what went back to the allocators, newest first,
    and [retired_at] the version of the commit that last retired a pointer. *)
Record eglobals := EG { g_clock : Z; g_thread_tx_version : gmap Z Z; g_retired_global_set : gset Z; freed : list Z; retired_at : gmap Z Z }.

(** Where a thread is in the hooks: before the store of the provisional version, before
    [begin()], scanning slot [k], in [tm_flush_retired_frees] with the nodes to go and those
    kept, before the store of the start version, in the body, in [commit()], after its
    increment of the clock, in [tm_move_deferred_to_retired], before the slot is cleared. *)
Inductive epc :=
  | EIdle | EProv (v : Z) | EBegin | EScan (k safe : Z) | EFlush (safe : Z) (nodes keep : list (Z * Z)) | EStart
  | EBody | ECommit (ro : bool) | EWrote (v : Z) | EMove (nodes : list Z) | EDone.

(** The start and commit versions are those of the transaction object; [e_last] records the
    version of the last commit, which not every design stores there. *)
Record ethread := ET { e_tid : Z; e_alloc : atls; e_start : Z; e_commit : Z; e_last : Z; g_tm_expli_mode : bool; e_pc : epc }.

Definition at_pc (t : ethread) (pc : epc) : ethread := ET (e_tid t) (e_alloc t) (e_start t) (e_commit t) (e_last t) (g_tm_expli_mode t) pc.
Definition with_alloc (t : ethread) (a : atls) : ethread := ET (e_tid t) a (e_start t) (e_commit t) (e_last t) (g_tm_expli_mode t) (e_pc t).
Definition with_start (t : ethread) (v : Z) : ethread := ET (e_tid t) (e_alloc t) v (e_commit t) (e_last t) (g_tm_expli_mode t) (e_pc t).
Definition with_commit (t : ethread) (v last : Z) : ethread := ET (e_tid t) (e_alloc t) (e_start t) v last (g_tm_expli_mode t) (e_pc t).
Definition with_expli (t : ethread) (b : bool) : ethread := ET (e_tid t) (e_alloc t) (e_start t) (e_commit t) (e_last t) b (e_pc t).

Definition tx_version (g : eglobals) (tid : Z) : Z := default 0 (g_thread_tx_version g !! tid).
Definition publish (g : eglobals) (tid v : Z) : eglobals := EG (g_clock g) (<[tid := v]> (g_thread_tx_version g)) (g_retired_global_set g) (freed g) (retired_at g).

(** The calls: begin and end with the two nesting counters, and for end whether the
    transaction has written nothing; allocation of the block [p], zeroed or not;
    reallocation of a block, which moves it to [p]; free. *)
Inductive ecall := CBegin (tc sc : Z) | CEnd (tc sc : Z) (ro : bool) | CMalloc (p : Z) | CRealloc (old p : Z) | CFree (p : Z) | CDelete (p : Z).

Section Runtime.
(** [isTMAddress]; whether the design stores [commit_version]. *)
Context (isTM : Z → bool) (stores_version : bool).

(** *** Freeing *)

Definition push_deferred (ptr : Z) (s : atls) : atls := set_deferred s (ptr :: g_deferred_frees s) (g_deferred_frees_set s).

(** In a transaction a block of the region is deferred once, [None] is the exit of the
    process; other blocks are deferred without the test. *)
Definition defer_free (ptr : Z) (s : atls) : option atls :=
  if isTM ptr then
    if bool_decide (ptr ∈ g_deferred_frees_set s) then None
    else let s := tm_untrack_spec_alloc ptr s in
         Some (push_deferred ptr (set_deferred s (g_deferred_frees s) ({[ptr]} ∪ g_deferred_frees_set s)))
  else Some (push_deferred ptr s).

(** Outside, the block goes to its allocator at once. *)
Definition real_tm_free (ptr : Z) (s : atls) : option (list Z * atls) :=
  if ptr =? 0 then Some ([], s) else if g_in_tx s then s ← defer_free ptr s; Some ([], s) else Some ([ptr], s).

Definition tm_delete_impl (ptr : Z) (s : atls) : option (list Z * atls) :=
  if ptr =? 0 then Some ([], s) else if g_in_tx s then s ← defer_free ptr s; Some ([], s) else Some ([ptr], s).

(** *** The hooks *)

Definition nesting (tc sc : Z) : Z := if 0 <? tc then tc else sc.
Definition expli_mode (tc sc : Z) (b : bool) : bool := if (0 <? tc) && (sc =? 0) then true else if (0 <? sc) && (tc =? 0) then false else b.

(** A transaction can abort here, which begins it again. *)
Definition abortable (pc : epc) : bool := match pc with EBody | ECommit _ | EWrote _ => true | _ => false end.
Definition idle (pc : epc) : bool := match pc with EIdle => true | _ => false end.
Definition in_body (pc : epc) : bool := match pc with EBody => true | _ => false end.

(** [real_tm_begin] as far as the load of the provisional version. *)
Definition real_tm_begin (tc sc : Z) (g : eglobals) (t : ethread) : ethread :=
  let t := with_expli t (expli_mode tc sc (g_tm_expli_mode t)) in
  if nesting tc sc =? 1
  then at_pc (with_alloc t (tm_clear_deferred_frees (tm_clear_spec_allocs (set_in_tx (e_alloc t) true)).2)) (EProv (g_clock g))
  else t.

(** The speculative blocks of the attempt before, which it gives back. *)
Definition begin_frees (tc sc : Z) (t : ethread) : list Z := if nesting tc sc =? 1 then (tm_clear_spec_allocs (e_alloc t)).1 else [].

(** [real_tm_end] as far as [commit()]. *)
Definition real_tm_end (tc sc : Z) (ro : bool) (t : ethread) : ethread :=
  if nesting tc sc =? 1 then at_pc (with_alloc t (set_in_tx (e_alloc t) false)) (ECommit ro) else t.

Definition give (g : eglobals) (ps : list Z) : eglobals := EG (g_clock g) (g_thread_tx_version g) (g_retired_global_set g) (rev ps ++ freed g) (retired_at g).

Definition real_tm_realloc (old p : Z) (s : atls) : atls := tm_track_spec_alloc p (tm_untrack_spec_alloc old s).

Definition ecalls (o : ecall) (g : eglobals) (t : ethread) : option (eglobals * ethread) :=
  match o with
  | CBegin tc sc => if idle (e_pc t) || abortable (e_pc t) then Some (give g (begin_frees tc sc t), real_tm_begin tc sc g t) else None
  | CEnd tc sc ro => if in_body (e_pc t) then Some (g, real_tm_end tc sc ro t) else None
  | CMalloc p => if idle (e_pc t) || in_body (e_pc t) then Some (g, with_alloc t (tm_track_spec_alloc p (e_alloc t))) else None
  | CRealloc old p => if idle (e_pc t) || in_body (e_pc t) then Some (give g (moved_from old), with_alloc t (real_tm_realloc old p (e_alloc t))) else None
  | CFree p => if idle (e_pc t) || in_body (e_pc t) then '(gone, a) ← real_tm_free p (e_alloc t); Some (give g gone, with_alloc t a) else None
  | CDelete p => if idle (e_pc t) || in_body (e_pc t) then '(gone, a) ← tm_delete_impl p (e_alloc t); Some (give g gone, with_alloc t a) else None
  end.

(** One slot of the scan. *)
Definition scan_slot (tid k v safe : Z) : Z := if k =? tid then safe else if negb (v =? 0) && (v <? safe) then v else safe.

(** A retired node that is freed; a pointer outside the region leaves the set first. *)
Definition free_node (g : eglobals) (p : Z) : eglobals :=
  EG (g_clock g) (g_thread_tx_version g) (if isTM p then g_retired_global_set g else g_retired_global_set g ∖ {[p]}) (p :: freed g) (retired_at g).

(** The version of the commit, where the design keeps it. *)
Definition commit_stamp (v : Z) (t : ethread) : ethread := with_commit t (if stores_version then v else e_commit t) v.

Definition estep (g : eglobals) (t : ethread) : option (eglobals * ethread) :=
  match e_pc t with
  | EIdle | EBody => None
  | EProv v => Some (publish g (e_tid t) v, at_pc t EBegin)
  | EBegin => Some (g, at_pc (with_start t (g_clock g)) (EScan 1 UINT64_MAX))
  | EScan k safe =>
      if k <? MAX_THREADS then Some (g, at_pc t (EScan (k + 1) (scan_slot (e_tid t) k (tx_version g k) safe)))
      else Some (g, at_pc t (EFlush safe (g_retired_frees (e_alloc t)) []))
  | EFlush safe ((p, v) :: nodes) keep =>
      if v <? safe then Some (free_node g p, at_pc t (EFlush safe nodes keep)) else Some (g, at_pc t (EFlush safe nodes (keep ++ [(p, v)])))
  | EFlush safe [] keep => Some (g, at_pc (with_alloc t (set_retired (e_alloc t) keep)) EStart)
  | EStart => Some (publish g (e_tid t) (e_start t), at_pc t EBody)
  | ECommit true => Some (g, at_pc (commit_stamp (g_clock g) t) (EMove (g_deferred_frees (e_alloc t))))
  | ECommit false =>
      if g_clock g + 1 <? VERSION_MAX
      then Some (EG (g_clock g + 1) (g_thread_tx_version g) (g_retired_global_set g) (freed g) (retired_at g), at_pc t (EWrote (g_clock g + 1)))
      else None
  | EWrote v => Some (g, at_pc (commit_stamp v t) (EMove (g_deferred_frees (e_alloc t))))
  | EMove (p :: nodes) =>
      if bool_decide (p ∈ g_retired_global_set g) then Some (g, at_pc t (EMove nodes))
      else Some (EG (g_clock g) (g_thread_tx_version g) ({[p]} ∪ g_retired_global_set g) (freed g) (<[p := e_last t]> (retired_at g)),
                 at_pc (with_alloc t (set_retired (e_alloc t) ((p, e_commit t) :: g_retired_frees (e_alloc t)))) (EMove nodes))
  | EMove [] => Some (g, at_pc (with_alloc t (tm_flush_spec_allocs (tm_clear_deferred_frees (e_alloc t)))) EDone)
  | EDone => Some (publish g (e_tid t) 0, at_pc t EIdle)
  end.

Definition eglobals_init : eglobals := EG 1 ∅ ∅ [] ∅.
Definition ethread_init (i : nat) : ethread := ET (Z.of_nat i + 1) atls_init 0 0 0 false EIdle.
Definition ereachable (n : nat) : eglobals * list ethread → Prop := ix_reachable ecalls estep (eglobals_init, ethread_init <$> seq 0 n).

(** ** The invariant *)

(** The nodes a thread has retired and not freed. *)
Definition pending (t : ethread) : list (Z * Z) := match e_pc t with EFlush _ nodes keep => nodes ++ keep | _ => g_retired_frees (e_alloc t) end.

(** Between [begin()] and the end of [commit()], a transaction reads its snapshot. *)
Definition in_snapshot (t : ethread) : bool := match e_pc t with EScan _ _ | EFlush _ _ _ | EStart | EBody | ECommit _ | EWrote _ => true | _ => false end.

(** The nodes that the thread is going to free, by what it has scanned; what it has scanned. *)
Definition doomed (t : ethread) : list (Z * Z) :=
  match e_pc t with
  | EScan _ safe => List.filter (before safe) (g_retired_frees (e_alloc t))
  | EFlush safe nodes _ => List.filter (before safe) nodes
  | _ => []
  end.
Definition scanned (t : ethread) (tid : Z) : Prop := match e_pc t with EScan k _ => tid < k | EFlush _ _ _ => True | _ => False end.

Lemma elem_of_lfilter {A} (f : A → bool) l x : x ∈ List.filter f l ↔ x ∈ l ∧ f x = true.
Proof using Type. by rewrite !list_elem_of_In, filter_In. Qed.

(** What a program counter says about the slot of the thread, its snapshot and the clock. *)
Definition pc_inv (g : eglobals) (t : ethread) : Prop :=
  match e_pc t with
  | EProv v => 0 < v ≤ g_clock g
  | EBegin => 0 < tx_version g (e_tid t) ≤ g_clock g
  | EScan _ _ | EFlush _ _ _ => ∀ p v, (p, v) ∈ pending t → v ≤ e_start t
  | EWrote v => v ≤ g_clock g
  | _ => True
  end ∧
  (in_snapshot t = true → 0 < tx_version g (e_tid t) ≤ e_start t ∧ e_start t ≤ g_clock g).

Record thread_inv (g : eglobals) (t : ethread) : Prop := {
  ti_pending p v : (p, v) ∈ pending t → v ≤ g_clock g ∧ p ∈ g_retired_global_set g;
  ti_distinct : NoDup (pending t).*1;
  ti_commit : e_commit t ≤ g_clock g;
  ti_stamp : stores_version = true → (e_commit t = e_last t) ∧ (∀ p v, (p, v) ∈ pending t → retired_at g !! p = Some v);
  ti_pc : pc_inv g t;
}.

Record einv (g : eglobals) (ts : list ethread) : Prop := {
  ei_clock : 1 ≤ g_clock g;
  ei_count : Z.of_nat (length ts) < MAX_THREADS;
  ei_tid i t : ts !! i = Some t → e_tid t = Z.of_nat i + 1;
  ei_thread i t : ts !! i = Some t → thread_inv g t;
  ei_disjoint i j t u p : ts !! i = Some t → ts !! j = Some u → p ∈ (pending t).*1 → p ∈ (pending u).*1 → i = j;
  ei_scan i j t u p v : ts !! i = Some t → ts !! j = Some u → scanned t (e_tid u) → in_snapshot u = true → (p, v) ∈ doomed t → v ≤ e_start u;
}.

(** What a step of one thread may change of the globals, as the others see it. *)
Record eframe (g g' : eglobals) (t : ethread) (keeps : Z → Prop) : Prop := {
  ef_clock : g_clock g ≤ g_clock g';
  ef_slot tid : tid ≠ e_tid t → tx_version g' tid = tx_version g tid;
  ef_set p : keeps p → p ∈ g_retired_global_set g → p ∈ g_retired_global_set g' ∧ retired_at g' !! p = retired_at g !! p;
}.

Lemma thread_frame g g' t u (keeps : Z → Prop) :
  eframe g g' t keeps → e_tid u ≠ e_tid t → (∀ p, p ∈ (pending u).*1 → keeps p) → thread_inv g u → thread_inv g' u.
Proof using Type.
  intros [F1 F2 F3] Hne Hk [I1 I2 I3 I4 I5].
  assert (∀ p v, (p, v) ∈ pending u → p ∈ g_retired_global_set g' ∧ retired_at g' !! p = retired_at g !! p) as Hp.
  { intros p v Hp. apply F3; [apply Hk; apply (list_elem_of_fmap_2 fst _ _ Hp)|by eapply I1]. }
  split; try done.
  - intros p v Hin. specialize (Hp _ _ Hin) as [? _]. destruct (I1 p v Hin). split; [lia|done].
  - lia.
  - intros Hs. destruct (I4 Hs) as [Hc Hr]. split; [done|]. intros p v Hin. destruct (Hp _ _ Hin) as [_ ->]. by apply Hr.
  - destruct I5 as [H1 H2]. split; [|rewrite F2 by done; intros Hs; destruct (H2 Hs); lia]. destruct (e_pc u); try done; try lia. rewrite F2 by done. lia.
Qed.

(** A step of thread [i] keeps the invariant, from what it does to its own part. *)
Lemma einv_update g ts i t g' t' :
  einv g ts → ts !! i = Some t → e_tid t' = e_tid t →
  eframe g g' t (λ p, p ∉ (pending t).*1) → thread_inv g' t' →
  (∀ p, p ∈ (pending t').*1 → p ∈ (pending t).*1 ∨ p ∉ g_retired_global_set g) →
  (∀ p v, (p, v) ∈ doomed t' → ∀ u, u = t' ∨ (∃ j, ts !! j = Some u ∧ j ≠ i) → scanned t' (e_tid u) → in_snapshot u = true → v ≤ e_start u) →
  (in_snapshot t' = true → in_snapshot t = true ∧ e_start t' = e_start t ∨ g_clock g ≤ e_start t') →
  einv g' (<[i := t']> ts).
Proof using Type.
  intros [E1 E0 E2 E3 E4 E5] Hi Htid HF Hinv Hpend Hdoom Hsnap. pose proof (λ j u, update_lookup ts i t t' j u Hi) as Hin.
  assert (∀ j u, ts !! j = Some u → j ≠ i → e_tid u ≠ e_tid t) as Hne.
  { intros j u Hj Hji. rewrite (E2 _ _ Hj), (E2 _ _ Hi). lia. }
  assert (∀ j u p, ts !! j = Some u → j ≠ i → p ∈ (pending u).*1 → p ∉ (pending t').*1) as Hsep.
  { intros j u p Hj Hji Hp Hp'. destruct (Hpend p Hp') as [Hp1|Hp1]; [by apply Hji; eapply E4|].
    apply list_elem_of_fmap in Hp as ([q v] & -> & Hq). simpl in *. by destruct (ti_pending _ _ (E3 _ _ Hj) q v Hq). }
  split.
  - pose proof (ef_clock _ _ _ _ HF). lia.
  - by rewrite length_insert.
  - intros j u [[-> ->]|[Hj Hu]]%Hin; [rewrite Htid; by apply E2|by apply E2].
  - intros j u [[-> ->]|[Hj Hu]]%Hin; [done|]. eapply thread_frame; [exact HF|by eapply Hne| |by eapply E3].
    intros p Hp Hpt. apply Hj. by eapply E4.
  - intros j k u w p [[-> ->]|[Hj Hu]]%Hin [[-> ->]|[Hk Hw]]%Hin H1 H2; [done| | |by eapply E4].
    + exfalso. by eapply Hsep.
    + exfalso. by eapply Hsep.
  - intros j k u w p v [[-> ->]|[Hj Hu]]%Hin [[-> ->]|[Hk Hw]]%Hin H1 H2 H3.
    + eapply Hdoom; eauto.
    + eapply Hdoom; eauto.
    + destruct (Hsnap H2) as [[Ht Hs]|Hge]; [rewrite Hs; rewrite Htid in H1; by eapply (E5 j i)|].
      assert (v ≤ g_clock g); [|lia]. eapply (ti_pending _ _ (E3 _ _ Hu) p v).
      unfold doomed, pending in *. destruct (e_pc u); try (by apply not_elem_of_nil in H3); apply elem_of_lfilter in H3 as [H3 _]; [done|].
      apply elem_of_app. by left.
    + by apply (E5 j k u w p v).
Qed.

(** Steps that free nothing from the retired list and only publish, for a thread that is not scanning afterwards. *)
Lemma einv_quiet g ts i t g' t' :
  einv g ts → ts !! i = Some t → e_tid t' = e_tid t → pending t' = pending t → doomed t' = [] →
  g_clock g ≤ g_clock g' → (∀ tid, tid ≠ e_tid t → tx_version g' tid = tx_version g tid) →
  g_retired_global_set g' = g_retired_global_set g → retired_at g' = retired_at g →
  e_commit t' ≤ g_clock g' → (stores_version = true → e_commit t' = e_last t') → pc_inv g' t' →
  (in_snapshot t' = true → in_snapshot t = true ∧ e_start t' = e_start t) →
  einv g' (<[i := t']> ts).
Proof using Type.
  intros HE Hi Htid Hpend Hd Hc Hs HG HR Hcm Hst Hpc Hsnap. destruct (ei_thread _ _ HE i t Hi) as [I1 I2 I3 I4 I5].
  eapply einv_update; [exact HE|exact Hi|done| | | | |].
  - split; [done|done|]. intros p _ ?. by rewrite HG, HR.
  - split; rewrite ?Hpend, ?HG, ?HR; try done.
    + intros p v Hp. destruct (I1 p v Hp). split; [lia|done].
    + intros Hsv. split; [by apply Hst|]. by apply I4.
  - intros p. rewrite Hpend. by left.
  - intros p v. rewrite Hd. by intros ?%not_elem_of_nil.
  - intros H. left. by apply Hsnap.
Qed.

Lemma defer_retired p s s' : defer_free p s = Some s' → g_retired_frees s' = g_retired_frees s.
Proof using Type.
  unfold defer_free, tm_untrack_spec_alloc. destruct (isTM p); [|by intros [= <-]]. case_bool_decide; [done|]. intros [= <-]. by destruct (negb (g_in_tx s) || (p =? 0)).
Qed.

Lemma track_retired p s : g_retired_frees (tm_track_spec_alloc p s) = g_retired_frees s.
Proof using Type. unfold tm_track_spec_alloc. by destruct (g_in_tx s && negb (p =? 0)). Qed.

Lemma free_retired p s gone s' : real_tm_free p s = Some (gone, s') → g_retired_frees s' = g_retired_frees s.
Proof using Type.
  unfold real_tm_free. destruct (p =? 0); [by intros [= <- <-]|]. destruct (g_in_tx s); [|by intros [= <- <-]].
  destruct (defer_free p s) as [a|] eqn:Hd; [|done]. intros [= <- <-]. by eapply defer_retired.
Qed.

(** A call in a place where no list is being walked. *)
Definition resting (pc : epc) : bool := idle pc || abortable pc.

Lemma resting_pending t : resting (e_pc t) = true → pending t = g_retired_frees (e_alloc t) ∧ doomed t = [].
Proof using Type. unfold resting, pending, doomed. by destruct (e_pc t). Qed.

Lemma call_alloc g ts i t ps a :
  einv g ts → ts !! i = Some t → resting (e_pc t) = true → g_retired_frees a = g_retired_frees (e_alloc t) →
  einv (give g ps) (<[i := with_alloc t a]> ts).
Proof using Type.
  intros HE Hi Hr Ha. destruct (resting_pending t Hr) as [Hp Hd]. destruct (ei_thread _ _ HE i t Hi) as [I1 I2 I3 I4 I5].
  eapply einv_quiet; [exact HE|exact Hi|done| | |done|done|done|done|done|intros Hsv; apply (I4 Hsv)| |done].
  - rewrite Hp. unfold pending. simpl. by destruct (e_pc t).
  - unfold doomed in *. simpl. by destruct (e_pc t).
  - destruct I5 as [H1 H2]. split; [|done]. simpl. by destruct (e_pc t).
Qed.

Lemma call_inv g ts i t o g' t' : einv g ts → ts !! i = Some t → ecalls o g t = Some (g', t') → einv g' (<[i := t']> ts).
Proof using Type.
  intros HE Hi. pose proof (ei_thread _ _ HE i t Hi) as [I1 I2 I3 I4 [I5 I6]]. pose proof (ei_clock _ _ HE) as Hck.
  assert (∀ b, idle (e_pc t) || b = true → b = in_body (e_pc t) → resting (e_pc t) = true) as Hrest by (intros b; unfold resting; destruct (e_pc t); simpl; by intros ? ->).
  assert (∀ g0, give g0 [] = g0) as Hg0 by (by intros []).
  destruct o as [tc sc|tc sc ro|p|old p|p|p]; cbn [ecalls].
  - destruct (idle (e_pc t) || abortable (e_pc t)) eqn:Hr; [|done]. intros [= <- <-]. destruct (resting_pending t Hr) as [Hp Hd].
    unfold real_tm_begin. destruct (nesting tc sc =? 1).
    + eapply einv_quiet; [exact HE|exact Hi|done| |done|done|done|done|done|done|intros Hsv; apply (I4 Hsv)| |done]; [by rewrite Hp|]. split; [simpl; lia|done].
    + eapply einv_quiet; [exact HE|exact Hi|done|done|done|done|done|done|done|done|intros Hsv; apply (I4 Hsv)| |done]. by split.
  - destruct (in_body (e_pc t)) eqn:Hr; [|done]. intros [= <- <-]. destruct (resting_pending t) as [Hp Hd]; [by unfold resting; destruct (e_pc t)|].
    unfold real_tm_end. destruct (nesting tc sc =? 1).
    + eapply einv_quiet; [exact HE|exact Hi|done| |done|done|done|done|done|done|intros Hsv; apply (I4 Hsv)| |]; [by rewrite Hp| |];
        [split; [done|]; intros _; apply I6|simpl; intros _; split; [|done]]; unfold in_snapshot; by destruct (e_pc t).
    + eapply einv_quiet; [exact HE|exact Hi|done|done|done|done|done|done|done|done|intros Hsv; apply (I4 Hsv)| |done]. by split.
  - destruct (idle (e_pc t) || in_body (e_pc t)) eqn:Hr; [|done]. intros [= <- <-]. rewrite <- (Hg0 g). eapply call_alloc; [done|done|by eapply Hrest|].
    apply track_retired.
  - destruct (idle (e_pc t) || in_body (e_pc t)) eqn:Hr; [|done]. intros [= <- <-]. eapply call_alloc; [done|done|by eapply Hrest|].
    unfold real_tm_realloc, tm_untrack_spec_alloc. rewrite track_retired. by destruct (negb (g_in_tx (e_alloc t)) || (old =? 0)).
  - destruct (idle (e_pc t) || in_body (e_pc t)) eqn:Hr; [|done]. destruct (real_tm_free p (e_alloc t)) as [[gone a]|] eqn:Hf; [|done]. intros [= <- <-].
    eapply call_alloc; [done|done|by eapply Hrest|by eapply free_retired].
  - destruct (idle (e_pc t) || in_body (e_pc t)) eqn:Hr; [|done]. destruct (tm_delete_impl p (e_alloc t)) as [[gone a]|] eqn:Hf; [|done]. intros [= <- <-].
    eapply call_alloc; [done|done|by eapply Hrest|by eapply free_retired].
Qed.

Lemma publish_eq g tid v : tx_version (publish g tid v) tid = v.
Proof using Type. unfold tx_version, publish. simpl. by rewrite lookup_insert_eq. Qed.

Lemma publish_ne g tid v tid' : tid' ≠ tid → tx_version (publish g tid v) tid' = tx_version g tid'.
Proof using Type. intros. unfold tx_version, publish. simpl. by rewrite lookup_insert_ne. Qed.

Lemma scan_slot_le tid k v safe : scan_slot tid k v safe ≤ safe ∧ (k ≠ tid → v ≠ 0 → scan_slot tid k v safe ≤ v).
Proof using Type.
  unfold scan_slot. destruct (Z.eqb_spec k tid); [split; [lia|done]|]. destruct (Z.eqb_spec v 0); simpl; [split; [lia|done]|].
  destruct (Z.ltb_spec v safe); split; lia.
Qed.

(** [begin()]: no slot has been scanned. *)
Lemma step_begin g ts i t :
  einv g ts → ts !! i = Some t → e_pc t = EBegin → einv g (<[i := at_pc (with_start t (g_clock g)) (EScan 1 UINT64_MAX)]> ts).
Proof using Type.
  intros HE Hi Hpc. destruct (ei_thread _ _ HE i t Hi) as [I1 I2 I3 I4 I5]. unfold pending, pc_inv in *. rewrite Hpc in *.
  eapply einv_update; [exact HE|exact Hi|done| | | | |].
  - by split.
  - split; try done. split; simpl; [|intros _; lia]. intros p v Hp. by destruct (I1 p v Hp).
  - intros p Hp. left. unfold pending. by rewrite Hpc.
  - intros p v _ u Hu Hs. exfalso. assert (1 ≤ e_tid u); [|unfold scanned in Hs; simpl in Hs; lia].
    destruct Hu as [->|(j & Hj & _)]; [simpl; rewrite (ei_tid _ _ HE _ _ Hi)|rewrite (ei_tid _ _ HE _ _ Hj)]; lia.
  - intros _. right. simpl. lia.
Qed.

(** One more slot, or the end of the scan. *)
Lemma step_scan g ts i t k safe g' t' :
  einv g ts → ts !! i = Some t → e_pc t = EScan k safe → estep g t = Some (g', t') → einv g' (<[i := t']> ts).
Proof using Type.
  intros HE Hi Hpc. destruct (ei_thread _ _ HE i t Hi) as [I1 I2 I3 I4 I5]. unfold estep. rewrite Hpc. unfold pc_inv in I5. rewrite Hpc in I5. unfold pending, in_snapshot in *. rewrite Hpc in *.
  destruct I5 as [I5 I6]. specialize (I6 eq_refl). destruct (Z.ltb_spec k MAX_THREADS) as [Hk|Hk]; intros [= <- <-].
  - eapply einv_update; [exact HE|exact Hi|done|by split| | | |].
    + split; try done.
    + intros p Hp. left. unfold pending. by rewrite Hpc.
    + intros p v Hd u Hu Hs Hsn. unfold doomed, scanned in Hd, Hs. simpl in Hd, Hs. apply elem_of_lfilter in Hd as [Hd Hb]. apply Z.ltb_lt in Hb. simpl in Hb.
      destruct Hu as [->|(j & Hj & Hji)]; [by eapply I5|]. destruct (scan_slot_le (e_tid t) k (tx_version g k) safe) as [Hle Hv].
      destruct (Z.eq_dec (e_tid u) k) as [He|He].
      * destruct (ti_pc _ _ (ei_thread _ _ HE j u Hj)) as [_ Hsl]. destruct (Hsl Hsn) as [Hsl1 Hsl2]. rewrite He in Hsl1.
        assert (k ≠ e_tid t); [rewrite (ei_tid _ _ HE _ _ Hi); rewrite (ei_tid _ _ HE _ _ Hj) in He; lia|]. lia.
      * eapply (ei_scan _ _ HE i j t u p v); [done|done|unfold scanned; rewrite Hpc; lia|done|]. unfold doomed. rewrite Hpc. apply elem_of_lfilter. split; [done|]. apply Z.ltb_lt. simpl. lia.
    + intros _. left. unfold in_snapshot. by rewrite Hpc.
  - eapply einv_update; [exact HE|exact Hi|done|by split| | | |].
    + split; unfold pending; simpl; rewrite ?app_nil_r; try done. split; simpl; [|done]. unfold pending. simpl. by rewrite app_nil_r.
    + intros p. unfold pending. rewrite Hpc. simpl. rewrite app_nil_r. by left.
    + intros p v Hd u Hu Hs Hsn. unfold doomed in Hd. simpl in Hd. destruct Hu as [->|(j & Hj & Hji)]; [apply elem_of_lfilter in Hd as [Hd _]; by eapply I5|].
      eapply (ei_scan _ _ HE i j t u p v); [done|done| |done|unfold doomed; by rewrite Hpc]. unfold scanned. rewrite Hpc, (ei_tid _ _ HE _ _ Hj).
      pose proof (ei_count _ _ HE). apply lookup_lt_Some in Hj. lia.
    + intros _. left. unfold in_snapshot. by rewrite Hpc.
Qed.

(** One node of the flush. *)
Lemma step_flush g ts i t safe nodes keep g' t' :
  einv g ts → ts !! i = Some t → e_pc t = EFlush safe nodes keep → estep g t = Some (g', t') → einv g' (<[i := t']> ts).
Proof using Type.
  intros HE Hi Hpc. pose proof (ei_thread _ _ HE i t Hi) as HI. destruct HI as [I1 I2 I3 I4 I5]. pose proof (ei_scan _ _ HE i) as Hsc.
  unfold pc_inv in I5. rewrite Hpc in I5. destruct I5 as [I5 I6]. unfold estep. rewrite Hpc. assert (in_snapshot t = true) as Hsn by (unfold in_snapshot; by rewrite Hpc).
  specialize (I6 Hsn). assert (pending t = nodes ++ keep) as Hp by (unfold pending; by rewrite Hpc). rewrite Hp in *.
  assert (doomed t = List.filter (before safe) nodes) as Hd by (unfold doomed; by rewrite Hpc).
  assert (∀ u, scanned t (e_tid u)) as Hall by (intros; unfold scanned; by rewrite Hpc).
  destruct nodes as [|[p v] nodes].
  { intros [= <- <-]. eapply einv_quiet; [exact HE|exact Hi|done|by rewrite Hp|done|done|done|done|done|done|intros Hsv; apply (I4 Hsv)|by split|done]. }
  simpl in I2. apply NoDup_cons in I2 as [Hnp Hnd]. destruct (Z.ltb_spec v safe) as [Hv|Hv]; intros [= <- <-].
  - assert (∀ q w, (q, w) ∈ nodes ++ keep → q ≠ p) as Hqp by (intros q w Hq ->; apply Hnp; by apply (list_elem_of_fmap_2 fst _ _ Hq)).
    eapply einv_update; [exact HE|exact Hi|done| | | | |by intros _; left].
    + split; [done|done|]. intros q Hq HG. rewrite Hp in Hq. simpl. destruct (isTM p); [done|]. set_solver.
    + split; unfold pending; simpl; try done.
      * intros q w Hq. destruct (I1 q w) as [? HG]; [by apply list_elem_of_further|]. split; [done|]. specialize (Hqp _ _ Hq). destruct (isTM p); set_solver.
      * intros Hsv. destruct (I4 Hsv) as [? Hr]. split; [done|]. intros q w Hq. apply Hr. by apply list_elem_of_further.
      * split; simpl; [|done]. intros q w Hq. apply (I5 q w). by apply list_elem_of_further.
    + intros q Hq. left. rewrite Hp. by apply list_elem_of_further.
    + intros q w Hq u Hu _ Hs. unfold doomed in Hq. simpl in Hq. destruct Hu as [->|(j & Hj & Hji)].
      * apply elem_of_lfilter in Hq as [Hq _]. apply (I5 q w). apply list_elem_of_further, elem_of_app. by left.
      * apply (Hsc j t u q w Hi Hj (Hall u) Hs). rewrite Hd. simpl. destruct (before safe (p, v)); [by apply list_elem_of_further|done].
  - assert (nodes ++ keep ++ [(p, v)] ≡ₚ (p, v) :: nodes ++ keep) as HP by (rewrite (assoc_L (++)), (comm (++)); done).
    eapply einv_update; [exact HE|exact Hi|done|by split| | | |by intros _; left].
    + split; unfold pending; simpl; try done.
      * intros q w. rewrite HP. apply I1.
      * rewrite HP. by constructor.
      * intros Hsv. destruct (I4 Hsv) as [? Hr]. split; [done|]. intros q w. rewrite HP. apply Hr.
      * split; simpl; [|done]. intros q w. unfold pending. simpl. rewrite HP. apply I5.
    + intros q. unfold pending at 1. simpl. rewrite HP, Hp. by left.
    + intros q w Hq u Hu _ Hs. unfold doomed in Hq. simpl in Hq. destruct Hu as [->|(j & Hj & Hji)].
      * apply elem_of_lfilter in Hq as [Hq _]. apply (I5 q w). apply list_elem_of_further, elem_of_app. by left.
      * apply (Hsc j t u q w Hi Hj (Hall u) Hs). rewrite Hd. simpl. destruct (before safe (p, v)); [by apply list_elem_of_further|done].
Qed.

(** One node of the move. *)
Lemma step_move g ts i t nodes g' t' :
  einv g ts → ts !! i = Some t → e_pc t = EMove nodes → estep g t = Some (g', t') → einv g' (<[i := t']> ts).
Proof using Type.
  intros HE Hi Hpc. destruct (ei_thread _ _ HE i t Hi) as [I1 I2 I3 I4 I5]. unfold estep. rewrite Hpc.
  assert (pending t = g_retired_frees (e_alloc t)) as Hp by (unfold pending; by rewrite Hpc). rewrite Hp in *.
  destruct nodes as [|p nodes]; [|case_bool_decide as HG].
  1,2: intros [= <- <-]; eapply einv_quiet; [exact HE|exact Hi|done|by rewrite Hp|done|done|done|done|done|done|intros Hsv; apply (I4 Hsv)|by split|done].
  intros [= <- <-]. assert (p ∉ (g_retired_frees (e_alloc t)).*1) as Hnp.
  { intros ([q v] & -> & Hq)%list_elem_of_fmap. apply HG. by eapply I1. }
  eapply einv_update; [exact HE|exact Hi|done| | | |done|done].
  - split; [done|done|]. intros q _ Hq. simpl. split; [set_solver|]. rewrite lookup_insert_ne; [done|]. by intros ->.
  - split; unfold pending; simpl; try done.
    + intros q v [[= -> ->]|Hq]%elem_of_cons; [split; [done|set_solver]|]. destruct (I1 q v Hq). split; [done|set_solver].
    + by constructor.
    + intros Hsv. destruct (I4 Hsv) as [Hc Hr]. split; [done|]. intros q v [[= -> ->]|Hq]%elem_of_cons; [rewrite lookup_insert_eq; by f_equal|].
      rewrite lookup_insert_ne; [by apply Hr|]. intros ->. apply Hnp. by apply (list_elem_of_fmap_2 fst _ _ Hq).
  - intros q. unfold pending at 1. simpl. rewrite elem_of_cons, Hp. intros [->|Hq]; [by right|by left].
Qed.

Lemma estep_inv g ts i t g' t' : einv g ts → ts !! i = Some t → estep g t = Some (g', t') → einv g' (<[i := t']> ts).
Proof using Type.
  intros HE Hi Hst. destruct (ei_thread _ _ HE i t Hi) as [I1 I2 I3 I4 I5]. pose proof (ei_clock _ _ HE) as Hck.
  destruct (e_pc t) as [|v| |k safe|safe nodes keep| | |ro|v|nodes|] eqn:Hpc;
    first [by eapply step_scan|by eapply step_flush|by eapply step_move|idtac];
    assert (pending t = g_retired_frees (e_alloc t)) as Hp by (unfold pending; by rewrite Hpc);
    unfold estep in Hst; rewrite Hpc in Hst; unfold pc_inv, in_snapshot in I5; rewrite Hpc in I5; try done.
  - injection Hst as <- <-. eapply einv_quiet; [exact HE|exact Hi|done|by rewrite Hp|done|done| |done|done|done|intros Hsv; apply (I4 Hsv)| |done].
    + intros. by apply publish_ne.
    + split; [|done]. simpl. rewrite publish_eq. lia.
  - injection Hst as <- <-. by apply step_begin.
  - injection Hst as <- <-. eapply einv_quiet; [exact HE|exact Hi|done|by rewrite Hp|done|done| |done|done|done|intros Hsv; apply (I4 Hsv)| |by unfold in_snapshot; rewrite Hpc].
    + intros. by apply publish_ne.
    + split; [done|]. simpl. rewrite publish_eq. intros _. lia.
  - destruct I5 as [_ I5]. specialize (I5 eq_refl). destruct ro; [|destruct (Z.ltb_spec (g_clock g + 1) VERSION_MAX); [|done]]; injection Hst as <- <-.
    + eapply einv_quiet; [exact HE|exact Hi|done|by rewrite Hp|done|done|done|done|done| | |by split|done]; simpl; destruct stores_version; [lia|done|done|done].
    + eapply einv_quiet; [exact HE|exact Hi|done|by rewrite Hp|done|simpl; lia|done|done|done|simpl; lia|intros Hsv; apply (I4 Hsv)| |by unfold in_snapshot; rewrite Hpc].
      split; simpl; [lia|]. intros _. unfold tx_version in *. simpl. lia.
  - destruct I5 as [Hv I5]. injection Hst as <- <-.
    eapply einv_quiet; [exact HE|exact Hi|done|by rewrite Hp|done|done|done|done|done| | |by split|done]; simpl; destruct stores_version; [lia|done|done|done].
  - injection Hst as <- <-. eapply einv_quiet; [exact HE|exact Hi|done|by rewrite Hp|done|done| |done|done|done|intros Hsv; apply (I4 Hsv)|by split|done].
    intros. by apply publish_ne.
Qed.

Lemma init_inv n : Z.of_nat n < MAX_THREADS → einv eglobals_init (ethread_init <$> seq 0 n).
Proof using Type.
  intros Hn. assert (∀ i t, (ethread_init <$> seq 0 n) !! i = Some t → t = ethread_init i) as Hin.
  { intros i t. rewrite list_lookup_fmap. destruct (seq 0 n !! i) as [k|] eqn:Hk; [|done]. apply lookup_seq in Hk as [-> _]. by intros [= <-]. }
  split.
  - done.
  - by rewrite length_fmap, length_seq.
  - intros i t ->%Hin. done.
  - intros i t ->%Hin. split; simpl; [by intros ? ? ?%not_elem_of_nil|constructor|done| |by split].
    intros _. split; [done|]. by intros ? ? ?%not_elem_of_nil.
  - intros i j t u p ->%Hin _. by intros ?%not_elem_of_nil.
  - intros i j t u p v ->%Hin _. done.
Qed.

Lemma ereachable_inv n g ts : Z.of_nat n < MAX_THREADS → ereachable n (g, ts) → einv g ts.
Proof using Type. intros Hn. apply ix_invariant; [by apply init_inv|intros; by eapply call_inv|intros; by eapply estep_inv]. Qed.

(** The block a thread is about to free. *)
Definition freeing (t : ethread) : option Z :=
  match e_pc t with EFlush safe ((p, v) :: _) _ => if v <? safe then Some p else None | _ => None end.

(** ** A thread by itself *)

Fixpoint esteps (k : nat) (g : eglobals) (t : ethread) : option (eglobals * ethread) :=
  match k with O => Some (g, t) | S k => '(g, t) ← estep g t; esteps k g t end.

Lemma esteps_S k g t g' t' : estep g t = Some (g', t') → esteps (S k) g t = esteps k g' t'.
Proof using Type. cbn [esteps]. by intros ->. Qed.

Lemma esteps_app k l g t g' t' : esteps k g t = Some (g', t') → esteps (k + l) g t = esteps l g' t'.
Proof using Type.
  revert g t. induction k as [|k IH]; intros g t; simpl; [by intros [= <- <-]|]. destruct (estep g t) as [[g1 t1]|]; [|done]. simpl. apply IH.
Qed.

Lemma scan_alone m k g t :
  Z.of_nat m = MAX_THREADS - k → e_pc t = EScan k UINT64_MAX → (∀ tid, tid ≠ e_tid t → tx_version g tid = 0) →
  esteps (S m) g t = Some (g, at_pc t (EFlush UINT64_MAX (g_retired_frees (e_alloc t)) [])).
Proof using Type.
  revert k t. induction m as [|m IH]; intros k t Hm Hpc Hz.
  - erewrite esteps_S; [done|]. unfold estep. rewrite Hpc. destruct (Z.ltb_spec k MAX_THREADS); [lia|]. done.
  - erewrite esteps_S; [apply (IH (k + 1) (at_pc t (EScan (k + 1) UINT64_MAX))); [lia|done|done]|].
    unfold estep. rewrite Hpc. destruct (Z.ltb_spec k MAX_THREADS) as [Hk|Hk]; [|lia].
    assert (scan_slot (e_tid t) k (tx_version g k) UINT64_MAX = UINT64_MAX) as ->; [|done].
    unfold scan_slot. destruct (Z.eqb_spec k (e_tid t)); [done|]. by rewrite Hz.
Qed.

Lemma flush_alone nodes g t :
  e_pc t = EFlush UINT64_MAX nodes [] → Forall (λ r, r.2 < UINT64_MAX) nodes →
  ∃ g', esteps (S (length nodes)) g t = Some (g', at_pc (with_alloc t (set_retired (e_alloc t) [])) EStart) ∧ freed g' = rev nodes.*1 ++ freed g.
Proof using Type.
  revert g t. induction nodes as [|[p v] nodes IH]; intros g t Hpc Hall.
  - exists g. split; [|done]. erewrite esteps_S; [done|]. unfold estep. by rewrite Hpc.
  - apply Forall_cons in Hall as [Hv Hall]. simpl in Hv. destruct (IH (free_node g p) (at_pc t (EFlush UINT64_MAX nodes [])) eq_refl Hall) as (g' & Hg & Hg').
    exists g'. split; [|rewrite Hg'; simpl; by rewrite <- app_assoc]. erewrite esteps_S; [exact Hg|]. unfold estep. rewrite Hpc, (proj2 (Z.ltb_lt _ _)) by done. done.
Qed.
End Runtime.

(** C19: in every execution of at most [MAX_THREADS - 1] threads with the design that stores
    the version of its commits, when a thread frees a retired block every transaction in
    progress began at or after the commit that retired the block. *)
Theorem reclaim_safe isTM n g ts i t p v j u :
  Z.of_nat n < MAX_THREADS → ereachable isTM true n (g, ts) →
  ts !! i = Some t → freeing t = Some p → retired_at g !! p = Some v →
  ts !! j = Some u → in_snapshot u = true → v ≤ e_start u.
Proof.
  intros Hn Hr Hi Hf Hv Hj Hu. pose proof (ereachable_inv _ _ _ _ _ Hn Hr) as HE. unfold freeing in Hf.
  destruct (e_pc t) as [| | | |safe nodes keep| | | | | |] eqn:Hpc; try done. destruct nodes as [|[q w] nodes]; [done|]. destruct (w <? safe) eqn:Hw; [|done].
  injection Hf as ->. destruct (ti_stamp _ _ _ (ei_thread _ _ _ HE i t Hi) eq_refl) as [_ Hst]. specialize (Hst p w). rewrite Hv in Hst. unfold pending in Hst. rewrite Hpc in Hst.
  specialize (Hst (list_elem_of_here _ _)). injection Hst as ->.
  apply (ei_scan _ _ _ HE i j t u p w Hi Hj); [unfold scanned; by rewrite Hpc|done|]. unfold doomed. rewrite Hpc. simpl. unfold before. simpl. rewrite Hw. left.
Qed.

(** No pointer is in the retired lists of two threads or twice in one, and those that are
    in a list are in the set of retired pointers. *)
Theorem retired_once isTM stores_version n g ts i t p :
  Z.of_nat n < MAX_THREADS → ereachable isTM stores_version n (g, ts) → ts !! i = Some t → p ∈ (pending t).*1 →
  p ∈ g_retired_global_set g ∧ NoDup (pending t).*1 ∧ ∀ j u, ts !! j = Some u → p ∈ (pending u).*1 → j = i.
Proof.
  intros Hn Hr Hi Hp. pose proof (ereachable_inv _ _ _ _ _ Hn Hr) as HE. pose proof (ei_thread _ _ _ HE i t Hi) as HI. split_and!.
  - apply list_elem_of_fmap in Hp as ([q v] & -> & Hq). by destruct (ti_pending _ _ _ HI q v Hq).
  - by apply HI.
  - intros j u Hj Hpu. by eapply (ei_disjoint _ _ _ HE).
Qed.

(** A thread that begins a transaction while no other has a version published reaches
    the body of the transaction, and has then freed all the blocks it had retired. *)
Theorem reclaim_alone isTM stores_version g t tc sc :
  e_pc t = EIdle → nesting tc sc = 1 → (∀ tid, tid ≠ e_tid t → tx_version g tid = 0) → Forall (λ r, r.2 < UINT64_MAX) (g_retired_frees (e_alloc t)) →
  ∃ g1 t1 k g2 t2,
    ecalls isTM (CBegin tc sc) g t = Some (g1, t1) ∧ esteps isTM stores_version k g1 t1 = Some (g2, t2) ∧
    e_pc t2 = EBody ∧ g_retired_frees (e_alloc t2) = [] ∧ freed g2 = rev (g_retired_frees (e_alloc t)).*1 ++ freed g1.
Proof.
  intros Hpc Hn Hz Hall. set (t1 := at_pc (with_alloc (with_expli t (expli_mode tc sc (g_tm_expli_mode t)))
    (tm_clear_deferred_frees (tm_clear_spec_allocs (set_in_tx (e_alloc t) true)).2)) (EProv (g_clock g))). set (g1 := give g (begin_frees tc sc t)).
  exists g1, t1. assert (ecalls isTM (CBegin tc sc) g t = Some (g1, t1)) as H0 by (unfold ecalls, real_tm_begin; by rewrite Hpc, Hn).
  set (t2 := at_pc (with_start (at_pc t1 EBegin) (g_clock g)) (EScan 1 UINT64_MAX)). set (g2 := publish g1 (e_tid t) (g_clock g)).
  assert (esteps isTM stores_version 2 g1 t1 = Some (g2, t2)) as H1 by done.
  pose proof (scan_alone isTM stores_version (Z.to_nat (MAX_THREADS - 1)) 1 g2 t2) as H2. rewrite Z2Nat.id in H2 by done. specialize (H2 eq_refl eq_refl).
  assert (∀ tid, tid ≠ e_tid t2 → tx_version g2 tid = 0) as Hz2 by (intros tid Ht; unfold g2; rewrite publish_ne by done; by apply Hz).
  specialize (H2 Hz2). destruct (flush_alone isTM stores_version (g_retired_frees (e_alloc t)) g2 (at_pc t2 (EFlush UINT64_MAX (g_retired_frees (e_alloc t)) [])) eq_refl Hall) as (g3 & H3 & Hf).
  eexists (2 + (S (Z.to_nat (MAX_THREADS - 1)) + (S (length (g_retired_frees (e_alloc t))) + 1)))%nat, (publish g3 (e_tid t) (g_clock g)), _.
  split; [exact H0|]. split; [|split; [|split]].
  - rewrite (esteps_app _ _ _ _ _ _ _ _ H1), (esteps_app _ _ _ _ _ _ _ _ H2), (esteps_app _ _ _ _ _ _ _ _ H3). reflexivity.
  - done.
  - done.
  - exact Hf.
Qed.

(** ** Executions *)

(** Thread 0 is in a transaction that began at version 1 when thread 1 frees block 16 in one
    of its own, commits it, and begins another, up to the flush. *)
Definition reclaim_script : list (nat * ix_act (T := ethread) (O := ecall)) :=
  [(0%nat, ACall (CBegin 1 0)); (0%nat, ASteps (Z.to_nat 8196)); (1%nat, ACall (CBegin 1 0)); (1%nat, ASteps (Z.to_nat 8196));
   (1%nat, ACall (CFree 16)); (1%nat, ACall (CEnd 1 0 false)); (1%nat, ASteps 5); (1%nat, ACall (CBegin 1 0)); (1%nat, ASteps (Z.to_nat 8194))].
(** The same after thread 0 has committed a write and begun another transaction. *)
Definition reclaim_script_later : list (nat * ix_act (T := ethread) (O := ecall)) :=
  take 7 reclaim_script ++ [(0%nat, ACall (CEnd 1 0 false)); (0%nat, ASteps 4); (0%nat, ACall (CBegin 1 0)); (0%nat, ASteps (Z.to_nat 8196)); (1%nat, ACall (CBegin 1 0)); (1%nat, ASteps (Z.to_nat 8194))].

Definition run_script (stores_version : bool) l := ix_script (ecalls (λ _, true)) (estep (λ _, true) stores_version) (eglobals_init, ethread_init <$> seq 0 2) l.

(** What the last state of a script shows of the two threads. *)
Definition overview (s : eglobals * list ethread) : list (option Z * Z * bool) * option Z :=
  ((λ t, (freeing t, e_start t, in_snapshot t)) <$> s.2, retired_at s.1 !! 16).

Lemma script_state sv l o :
  overview <$> run_script sv l = Some o → ∃ g ts, ereachable (λ _, true) sv 2 (g, ts) ∧ overview (g, ts) = o.
Proof.
  destruct (run_script sv l) as [[g ts]|] eqn:Hs; [|done]. intros [= <-]. exists g, ts. split; [|done]. eapply ix_script_reachable; [apply ix_start|exact Hs].
Qed.

(** Thread 1 frees the block, retired at version 2, while thread 0 reads at version 3. *)
Lemma reclaim_safe_witness :
  ∃ g u t, ereachable (λ _, true) true 2 (g, [u; t]) ∧ freeing t = Some 16 ∧ in_snapshot u = true ∧ e_start u = 3 ∧ 2 ≤ e_start u.
Proof.
  assert (overview <$> run_script true reclaim_script_later = Some ([(None, 3, true); (Some 16, 3, true)], Some 2)) as Ho by (vm_compute; reflexivity).
  destruct (script_state _ _ _ Ho) as (g & ts & Hr & Hv). clear Ho. unfold overview in Hv. simpl in Hv.
  destruct ts as [|u [|t [|]]]; try discriminate Hv. injection Hv as H1 H2 H3 H4 H5 H6 H7. exists g, u, t. split; [exact Hr|]. split; [exact H4|]. split; [exact H3|].
  split; [exact H2|]. apply (reclaim_safe (λ _, true) 2 g [u; t] 1 t 16 2 0 u); first [reflexivity|assumption].
Defined.

Lemma retired_once_witness : ∃ g ts t, ereachable (λ _, true) true 2 (g, ts) ∧ ts !! 1%nat = Some t ∧ 16 ∈ g_retired_global_set g.
Proof.
  assert (overview <$> run_script true reclaim_script_later = Some ([(None, 3, true); (Some 16, 3, true)], Some 2)) as Ho by (vm_compute; reflexivity).
  destruct (script_state _ _ _ Ho) as (g & ts & Hr & Hv). clear Ho. unfold overview in Hv. simpl in Hv.
  destruct ts as [|u [|t [|]]]; try discriminate Hv. injection Hv as H1 H2 H3 H4 H5 H6 H7. exists g, [u; t], t. split; [exact Hr|]. split; [reflexivity|].
  apply (retired_once (λ _, true) true 2 g [u; t] 1 t 16); [reflexivity|exact Hr|reflexivity|].
  unfold freeing in H4. unfold pending. destruct (e_pc t) as [| | | |safe [|[p v] nodes] keep| | | | | |]; try discriminate H4. destruct (v <? safe); [|discriminate H4].
  injection H4 as ->. left.
Defined.

(** A thread alone that has retired two blocks. *)
Lemma reclaim_alone_witness :
  let t := with_alloc (ethread_init 0) (set_retired atls_init [(32, 3); (16, 2)]) in
  ∃ k g2 t2, esteps (λ _, true) true k (EG 4 ∅ {[16; 32]} [] ∅) (real_tm_begin 1 0 (EG 4 ∅ {[16; 32]} [] ∅) t) = Some (g2, t2) ∧
    g_retired_frees (e_alloc t2) = [] ∧ freed g2 = [16; 32].
Proof.
  intros t. destruct (reclaim_alone (λ _, true) true (EG 4 ∅ {[16; 32]} [] ∅) t 1 0) as (g1 & t1 & k & g2 & t2 & H1 & H2 & _ & H3 & H4); [reflexivity|reflexivity|reflexivity| |].
  - repeat constructor.
  - injection H1 as <- <-. exists k, g2, t2. split; [exact H2|]. split; [exact H3|exact H4].
Defined.

(** With a design that leaves the commit version at zero, thread 1 frees the block while the
    transaction that began at version 1, before the block was retired at version 2, is in
    progress. *)
Theorem reclaim_unstamped :
  ∃ g ts t u, ereachable (λ _, true) false 2 (g, ts) ∧ ts = [u; t] ∧ freeing t = Some 16 ∧ retired_at g !! 16 = Some 2 ∧ in_snapshot u = true ∧ e_start u = 1.
Proof.
  assert (overview <$> run_script false reclaim_script = Some ([(None, 1, true); (Some 16, 2, true)], Some 2)) as Ho by (vm_compute; reflexivity).
  destruct (script_state _ _ _ Ho) as (g & ts & Hr & Hv). clear Ho. unfold overview in Hv. simpl in Hv.
  destruct ts as [|u [|t [|]]]; try discriminate Hv. injection Hv as H1 H2 H3 H4 H5 H6 H7. by exists g, [u; t], t, u.
Qed.

(** ** The serialisation lock *)

(** A recursive mutex, its holder and how often it is locked, and each thread's own count. *)
Record serial := SL { s_holder : option nat; s_depth : nat; g_serialize_lock_count : nat → nat }.
Definition set_count (f : nat → nat) (i n : nat) : nat → nat := λ j, if decide (j = i) then n else f j.

(** [None]: the call waits for the lock. *)
Definition tm_serialize_lock (i : nat) (s : serial) : option serial :=
  if decide (s_holder s = None ∨ s_holder s = Some i)
  then Some (SL (Some i) (S (s_depth s)) (set_count (g_serialize_lock_count s) i (S (g_serialize_lock_count s i)))) else None.

(** [unlock] of the mutex, by its holder only. *)
Definition mutex_unlock (i : nat) (s : serial) : option serial :=
  match s_depth s with
  | S d => if decide (s_holder s = Some i) then Some (SL (match d with O => None | _ => Some i end) d (g_serialize_lock_count s)) else None
  | O => None
  end.
Definition tm_serialize_unlock (i : nat) (s : serial) : option serial :=
  mutex_unlock i (SL (s_holder s) (s_depth s) (set_count (g_serialize_lock_count s) i (pred (g_serialize_lock_count s i)))).

Fixpoint unlock_times (n i : nat) (s : serial) : option serial := match n with O => Some s | S n => s ← mutex_unlock i s; unlock_times n i s end.
Definition tm_serialize_unlock_all (i : nat) (s : serial) : option (serial * nat) :=
  let n := g_serialize_lock_count s i in
  s ← unlock_times n i s; Some (SL (s_holder s) (s_depth s) (set_count (g_serialize_lock_count s) i 0%nat), n).

(** The counts are zero but for the holder's, which is the depth. *)
Definition serial_ok (s : serial) : Prop :=
  (s_holder s = None ↔ s_depth s = 0%nat) ∧ ∀ j, g_serialize_lock_count s j = if decide (s_holder s = Some j) then s_depth s else 0%nat.

Lemma unlock_times_all n i s : s_depth s = n → s_holder s = Some i ∨ n = 0%nat →
  unlock_times n i s = Some (SL (match n with O => s_holder s | _ => None end) 0 (g_serialize_lock_count s)).
Proof.
  revert s. induction n as [|n IH]; intros [h d f] Hd Hh; simpl in *; [by subst|]. destruct Hh as [->|]; [|done]. unfold mutex_unlock. simpl. rewrite Hd, decide_True by done.
  simpl. rewrite IH; [by destruct n|done|]. destruct n; [by right|by left].
Qed.

(** An abort of the holder, however often it has the lock, leaves the lock free, and one of
    another thread leaves the lock as it is; the counts agree with the lock before and after. *)
Theorem serialize_unlock_all_frees i s :
  serial_ok s → ∃ s' n, tm_serialize_unlock_all i s = Some (s', n) ∧ serial_ok s' ∧ s_holder s' = (if decide (s_holder s = Some i) then None else s_holder s).
Proof.
  intros [H1 H2]. unfold tm_serialize_unlock_all. rewrite (H2 i). destruct (decide (s_holder s = Some i)) as [Hi|Hi].
  - rewrite unlock_times_all by auto. cbn [mbind option_bind]. eexists _, _. split; [done|]. assert (s_depth s ≠ 0%nat) by (intros Hd; apply H1 in Hd; congruence).
    destruct (s_depth s); [done|]. split; [|done]. split; simpl; [done|]. intros j. unfold set_count. destruct (decide (j = i)); [done|].
    rewrite H2, decide_False; [done|]. rewrite Hi. congruence.
  - simpl. eexists _, _. split; [done|]. split; [|done]. split; simpl; [done|]. intros j. unfold set_count. destruct (decide (j = i)) as [->|]; [by rewrite decide_False|apply H2].
Qed.

Theorem serialize_lock_ok i s s' : serial_ok s → tm_serialize_lock i s = Some s' → serial_ok s'.
Proof.
  intros [H1 H2]. unfold tm_serialize_lock. destruct (decide _) as [Hh|]; [|done]. intros [= <-]. split; simpl; [done|]. intros j. unfold set_count.
  destruct (decide (j = i)) as [->|Hne]; [|rewrite decide_False by congruence; rewrite H2, decide_False; [done|]; destruct Hh as [->| ->]; congruence].
  rewrite (decide_True (P := Some i = Some i)) by done. f_equal. rewrite H2. destruct Hh as [Hh|Hh]; rewrite Hh; [|by rewrite decide_True]. rewrite decide_False by done. symmetry. by apply H1.
Qed.

Theorem serialize_unlock_ok i s s' : serial_ok s → tm_serialize_unlock i s = Some s' → serial_ok s'.
Proof.
  intros [H1 H2]. unfold tm_serialize_unlock, mutex_unlock. simpl. destruct (s_depth s) as [|d] eqn:Hd; [done|]. destruct (decide (s_holder s = Some i)) as [Hi|]; [|done].
  intros [= <-]. split; simpl; [by destruct d|]. intros j. unfold set_count. destruct (decide (j = i)) as [->|Hne].
  - rewrite H2, Hi, decide_True by done. simpl. destruct d; [by rewrite decide_False|by rewrite decide_True].
  - rewrite H2, Hi. rewrite decide_False by congruence. destruct d; by rewrite decide_False by congruence.
Qed.
