(* ===== verification/Treap.v ===== *)
(** * The treap multimap (explicit_api/cpp/include/tm_treap_multimap.hpp)

    A binary search tree with parent pointers whose nodes also carry a pseudo-random
    priority; an insertion adds a leaf and rotates it up while its priority is above its
    parent's.  The fields of a node are loads and stores of the transaction inside of one
    and of the memory outside; the pointer program is verified on the heap of the
    red-black trees, with the priority beside the value ([n_color] is not used).

    The theorems: on a heap that holds exactly such a tree, in key order and with the
    priorities falling towards the leaves, [insert], [lower_bound], iteration and [clear]
    follow no null or dangling pointer, terminate and act as the operations on the sorted
    sequence of entries, and insertion keeps the order of the priorities.  The root and the
    count are members of the object, outside of the transaction: after an abort they point
    to a block that is gone. *)

From Stdlib Require Import Sorting.Sorted.
From S2P Require Import Prelude RBTree RBTreeRep RBTreeInsert RBTreeErase RBTreeUnlink RBTreeMap RBTreeSpec.
#[local] Open Scope word_scope.

(** [random_prio]: the priority for a value of the counter. *)
Definition mix33 (v : Z) : Z := v .^ (v .>> 33).
Definition random_prio (counter : Z) : Z :=
  let v := mix33 counter in
  let v := mix33 (wrap 64 (v * 0xFF51AFD7ED558CCD)) in
  let v := mix33 (wrap 64 (v * 0xC4CEB9FE1A85EC53)) in
  v .& 0x7FFFFFFF.

Section Ops.
Context {K V : Type} (ltb : K → K → bool).
Implicit Types (s : rbt K (V * Z)) (n x y z p g : ptr) (k : K).

Definition min_node s x : option ptr := minimum s x.

(** One leaf less, or one step down, per iteration. *)
Fixpoint treap_clear_loop (fuel : nat) x s : option (rbt K (V * Z)) :=
  match x with
  | None => Some s
  | Some l =>
      match fuel with
      | O => None
      | S fuel =>
          nx ← ld s x;
          match n_left nx, n_right nx with
          | Some _, _ => treap_clear_loop fuel (n_left nx) s
          | None, Some _ => treap_clear_loop fuel (n_right nx) s
          | None, None =>
              let p := n_parent nx in
              s ← match p with
                  | None => Some s
                  | Some _ => np ← ld s p; if decide (x = n_left np) then st s p (set_child Lft None) else st s p (set_child Rgt None)
                  end;
              treap_clear_loop fuel p (with_heap s (delete l (heap s)))
          end
      end
  end.
Definition treap_clear s : option (rbt K (V * Z)) := s ← treap_clear_loop (2 * size (heap s)) (m_root s) s; Some (RBT (heap s) None 0).

Definition treap_begin s : option ptr := min_node s (m_root s).
Definition treap_next s x : option ptr :=
  nx ← ld s x;
  match n_right nx with
  | Some _ => minimum s (n_right nx)
  | None => up_loop (S (size (heap s))) s x (n_parent nx)
  end.

Fixpoint treap_lower_loop (fuel : nat) s k x (ans : ptr) : option ptr :=
  match fuel with
  | O => None
  | S fuel =>
      match x with
      | None => Some ans
      | Some _ => nx ← ld s x; if negb (ltb (n_key nx) k) then treap_lower_loop fuel s k (n_left nx) x else treap_lower_loop fuel s k (n_right nx) ans
      end
  end.
Definition treap_lower_bound s k : option ptr := treap_lower_loop (S (size (heap s))) s k (m_root s) None.

(** The descent of [insert]; [y] is the last node on the way. *)
Fixpoint treap_descend (fuel : nat) s k x y : option ptr :=
  match fuel with
  | O => None
  | S fuel =>
      match x with
      | None => Some y
      | Some _ => nx ← ld s x; treap_descend fuel s k (if ltb k (n_key nx) then n_left nx else n_right nx) x
      end
  end.

(** The rotation at [p] that lifts its child [z]; [d] is the side of [z]. *)
Definition lift (d : dir) z p g s : option (rbt K (V * Z)) :=
  nz ← ld s z;
  s ← st s p (set_child d (child (opp d) nz));
  s ← st_opt s (child (opp d) nz) (set_parent p);
  s ← st s z (set_child (opp d) p);
  s ← st s p (set_parent z);
  s ← st s z (set_parent g);
  match g with
  | None => Some s
  | Some _ => ng ← ld s g; if decide (p = n_left ng) then st s g (set_child Lft z) else st s g (set_child Rgt z)
  end.

Definition n_prio (n : node K (V * Z)) : Z := (n_val n).2.

Fixpoint rotate_up (fuel : nat) z s : option (rbt K (V * Z)) :=
  match fuel with
  | O => None
  | S fuel =>
      nz ← ld s z;
      match n_parent nz with
      | None => Some s
      | Some _ =>
          let p := n_parent nz in
          np ← ld s p;
          if (n_prio np <? n_prio nz)%Z then
            s ← lift (if decide (z = n_left np) then Lft else Rgt) z p (n_parent np) s;
            rotate_up fuel z s
          else Some s
      end
  end.

(** [insert] with the node that [tm_malloc] returned and its priority. *)
Definition treap_insert (l : loc) (prio : Z) s k (v : V) : option (rbt K (V * Z)) :=
  let s := with_heap s (<[l := Node k (v, prio) BLACK None None None]> (heap s)) in
  match m_root s with
  | None => Some (RBT (heap s) (Some l) 1)
  | Some _ =>
      y ← treap_descend (S (size (heap s))) s k (m_root s) None;
      s ← st s (Some l) (set_parent y);
      ny ← ld s y;
      s ← st s y (set_child (if ltb k (n_key ny) then Lft else Rgt) (Some l));
      s ← rotate_up (S (size (heap s))) (Some l) s;
      nl ← ld s (Some l);
      let s := match n_parent nl with None => with_root s (Some l) | Some _ => s end in
      Some (with_size s (S (m_size s)))
  end.

(** A client loop over the iterator. *)
Fixpoint treap_walk (fuel : nat) s x : option (list loc) :=
  match fuel with
  | O => None
  | S fuel => match x with None => Some [] | Some l => q ← treap_next s x; r ← treap_walk fuel s q; Some (l :: r) end
  end.
End Ops.

(** ** The heap of an insertion, whose root is not yet set *)

Section Rep.
Context {K V : Type}.
Implicit Types (t a b e : tree K (V * Z)) (c : list (frame K (V * Z))) (s : rbt K (V * Z)).

Definition rep0 s t : Prop := rep (with_root s (rt t)) t.

Lemma rep0_plug s t c : rep0 s (plug t c) ↔ NoDup (locs t ++ clocs c) ∧ tree_at (heap s) (cpar c) t ∧ ctx_at (heap s) (rt t) c.
Proof. unfold rep0. rewrite rep_plug. simpl. rewrite rt_plug. tauto. Qed.

Lemma rep0_rep s t : rep s t → rep0 s t.
Proof. intros (? & ? & ?). by split_and!. Qed.

Lemma ld_rep0 s d l (col : color) kv a b c :
  rep0 s (plug (bin d l col kv a b) c) → ld s (Some l) = Some (mknode d kv col (rt a) (rt b) (cpar c)).
Proof. intros H. exact (ld_bin _ _ _ _ _ _ _ _ H). Qed.

Lemma lift_rep0 d s z (cz : color) kz p (cp : color) kp a b e c :
  rep0 s (plug (bin d z cz kz a b) (Frm d p cp kp e :: c)) →
  ∃ s', lift d (Some z) (Some p) (cpar c) s = Some s' ∧ rep0 s' (plug (bin d z cz kz a (bin d p cp kp b e)) c) ∧ keeps s s' ∧ m_root s' = m_root s.
Proof.
  intros H. apply rep0_plug in H as (Hnd & Ht & Hc). destruct s as [h r n].
  assert (NoDup (locs (bin d z cz kz a (bin d p cp kp b e)) ++ clocs c)) as Hnd'.
  { revert Hnd. apply NoDup_Permutation_proper. rewrite !locs_bin. cbn [clocs f_loc f_sib app]. rewrite <- !app_assoc. constructor.
    apply Permutation_app_head. simpl. rewrite <- app_assoc. apply (Permutation_middle (locs b) _ p). }
  rewrite !locs_bin in Hnd. cbn [clocs f_loc f_sib] in Hnd. unfold lift.
  assert (∀ s', lift d (Some z) (Some p) (cpar c) (RBT h r n) = Some s' → keeps (RBT h r n) s') as Hk by (intros s' Hl; unfold lift in Hl; runs; keeps_chain).
  assert (∃ s', lift d (Some z) (Some p) (cpar c) (RBT h r n) = Some s' ∧ tree_at (heap s') (cpar c) (bin d z cz kz a (bin d p cp kp b e)) ∧ ctx_at (heap s') (Some z) c ∧ m_root s' = r)
    as (s' & Hs' & H1 & H2 & H3).
  { unfold lift. destruct b as [|lb cb kb b1 b2], c as [|[fd fl fc fk fs] c]; nd_in Hnd.
    all: destruct d; try (destruct fd); cbn in Ht, Hc; destruct_and? Ht; destruct_and? Hc; cbn [cpar f_loc].
    all: eexists; split; [sym; reflexivity|].
    all: cbn [heap m_root m_size bin tree_at ctx_at cpar croot f_dir f_loc f_col f_kv f_sib rt].
    all: split_and?; try done; framed; by sym. }
  exists s'. split; [exact Hs'|]. split; [|split; [by apply Hk|done]]. apply rep0_plug. split_and!; [done|done|]. by rewrite rt_bin.
Qed.
End Rep.

(** ** The order of the priorities *)

Section Heap.
Context {K V : Type}.
Implicit Types (t a b e : tree K (V * Z)) (f : frame K (V * Z)) (c : list (frame K (V * Z))) (s : rbt K (V * Z)).

Definition prio_le t (x : Z) : Prop := match t with Leaf => True | Bin _ _ kv _ _ => (kv.2.2 ≤ x)%Z end.
Fixpoint heap_ordered t : Prop :=
  match t with Leaf => True | Bin _ _ kv a b => prio_le a kv.2.2 ∧ prio_le b kv.2.2 ∧ heap_ordered a ∧ heap_ordered b end.

Definition f_prio f : Z := (f_kv f).2.2.
Definition under c (x : Z) : Prop := match c with [] => True | f :: _ => (x ≤ f_prio f)%Z end.
Fixpoint path_ordered c : Prop :=
  match c with [] => True | f :: c => prio_le (f_sib f) (f_prio f) ∧ heap_ordered (f_sib f) ∧ under c (f_prio f) ∧ path_ordered c end.
Definition tunder c t : Prop := match c with [] => True | f :: _ => prio_le t (f_prio f) end.

Lemma heap_ordered_plug t c : heap_ordered (plug t c) ↔ heap_ordered t ∧ tunder c t ∧ path_ordered c.
Proof.
  revert t. induction c as [|f c IH]; intros t; cbn [plug path_ordered tunder]; [tauto|]. rewrite IH. unfold plug1.
  assert (∀ u, tunder c (bin (f_dir f) (f_loc f) (f_col f) (f_kv f) t u) ↔ under c (f_prio f)) as Hu by (intros u; destruct c, (f_dir f); simpl; tauto).
  rewrite Hu. unfold f_prio. destruct (f_dir f); simpl; tauto.
Qed.

Lemma prio_le_trans t x y : prio_le t x → (x ≤ y)%Z → prio_le t y.
Proof. destruct t; simpl; [done|lia]. Qed.

(** Rotating up ends with the node in its place. *)
Lemma rotate_up_ok fuel s d z (cz : color) kz a b c :
  rep0 s (plug (bin d z cz kz a b) c) → heap_ordered (bin d z cz kz a b) → path_ordered c → tunder c a → tunder c b → length c < fuel →
  ∃ s' a' b' c', rotate_up fuel (Some z) s = Some s' ∧ rep0 s' (plug (Bin z cz kz a' b') c') ∧ heap_ordered (plug (Bin z cz kz a' b') c') ∧
    elements (plug (Bin z cz kz a' b') c') = elements (plug (bin d z cz kz a b) c) ∧ keeps s s' ∧ m_root s' = m_root s ∧
    (c' = [] ∨ croot (Some z) c' = croot (Some z) c).
Proof.
  revert s d a b c. induction fuel as [|fuel IH]; intros s d a b c H Ho Hp Ha Hb Hf; [lia|].
  cbn [rotate_up]. rewrite (ld_rep0 _ _ _ _ _ _ _ _ H). cbn [mbind option_bind]. rewrite mknode_parent.
  assert (∃ a' b', bin d z cz kz a b = Bin z cz kz a' b') as (a' & b' & Hab) by (destruct d; simpl; eauto).
  assert (∀ s', s' = s → tunder c (bin d z cz kz a b) → ∃ s'' a' b' c', Some s' = Some s'' ∧ rep0 s'' (plug (Bin z cz kz a' b') c') ∧
      heap_ordered (plug (Bin z cz kz a' b') c') ∧ elements (plug (Bin z cz kz a' b') c') = elements (plug (bin d z cz kz a b) c) ∧
      keeps s s'' ∧ m_root s'' = m_root s ∧ (c' = [] ∨ croot (Some z) c' = croot (Some z) c)) as Hstop.
  { intros s' -> Hu. exists s, a', b', c. rewrite <- Hab. split_and!; try done; [by apply heap_ordered_plug|by right]. }
  destruct c as [|[fd p cp kp e] c]; cbn [cpar f_loc]; [by apply Hstop|].
  assert (rep0 s (plug (bin fd p cp kp (bin d z cz kz a b) e) c)) as Hp' by exact H.
  rewrite (ld_rep0 _ _ _ _ _ _ _ _ Hp'). cbn [mbind option_bind]. rewrite mknode_parent.
  assert (n_prio (mknode fd kp cp (rt (bin d z cz kz a b)) (rt e) (cpar c)) = kp.2.2 ∧ n_prio (mknode d kz cz (rt a) (rt b) (Some p)) = kz.2.2) as [-> ->]
    by (unfold n_prio; by destruct fd, d).
  destruct (Z.ltb_spec kp.2.2 kz.2.2) as [Hlt|Hge]; [|apply Hstop; [done|]; rewrite Hab; unfold tunder, prio_le, f_prio; cbn [f_kv]; exact Hge].
  rewrite (rt_bin d). assert ((if decide (Some z = n_left (mknode fd kp cp (Some z) (rt e) (cpar c))) then Lft else Rgt) = fd) as ->.
  { eapply side_of; [exact H|]. apply rt_bin. }
  assert (∃ a1 b1, bin d z cz kz a b = bin fd z cz kz a1 b1 ∧ tunder (Frm fd p cp kp e :: c) a1 ∧ tunder (Frm fd p cp kp e :: c) b1 ∧ heap_ordered a1 ∧ heap_ordered b1 ∧ prio_le a1 kz.2.2)
    as (a1 & b1 & Heq & Ha1 & Hb1 & Hoa & Hob & Hpa).
  { destruct d, fd; simpl in Ho; destruct_and? Ho; eauto 10. }
  rewrite Heq in H. destruct (lift_rep0 _ _ _ _ _ _ _ _ _ _ _ _ H) as (s1 & -> & H1 & Hk1 & Hm1). cbn [mbind option_bind].
  cbn [path_ordered f_sib] in Hp. change (f_prio _) with kp.2.2 in Hp. destruct Hp as (He & Hoe & Hup & Hp). simpl in Ha1, Hb1. change (f_prio _) with kp.2.2 in Ha1, Hb1.
  destruct (IH s1 fd a1 (bin fd p cp kp b1 e) c H1) as (s2 & a2 & b2 & c2 & -> & H2 & Ho2 & Hel & Hk2 & Hm2 & Hc2).
  - destruct fd; simpl; split_and!; try done; lia.
  - done.
  - destruct c as [|g c]; [done|]. exact (prio_le_trans _ _ _ Ha1 Hup).
  - destruct c as [|g c]; [done|]. destruct fd; exact Hup.
  - simpl in Hf. lia.
  - exists s2, a2, b2, c2. split_and!; try done.
    + rewrite Hel, Heq. cbn [plug]. unfold plug1. cbn [f_dir f_loc f_col f_kv f_sib]. apply almost_cong. destruct fd; simpl; by rewrite <- ?app_assoc.
    + by etrans.
    + congruence.
    + destruct Hc2 as [->|Hc2]; [by left|]. destruct c as [|g c]; [|by right]. destruct c2 as [|g2 c2]; [by left|]. simpl in Hc2.
      exfalso. destruct (croot_in c2 (f_loc g2)) as (r & Hr & Hin). rewrite Hc2 in Hr. injection Hr as <-.
      apply rep0_plug in H2 as (Hnd & _). cbn [locs app] in Hnd. apply NoDup_cons in Hnd as [Hz _]. apply Hz. apply elem_of_app. right. set_solver.
Qed.
End Heap.

(** ** Sequences *)

Section Spec.
Context {K V : Type} (ltb : K → K → bool) `{!StrictWeakOrder ltb}.
Implicit Types (t a b e : tree K (V * Z)) (c : list (frame K (V * Z))) (s : rbt K (V * Z)) (l : list (loc * (K * (V * Z)))) (k : K).

(** The heap holds exactly a tree with the entries [l] in order, the priorities falling. *)
Definition treap_rep s l : Prop := (∃ t, rep s t ∧ heap_ordered t ∧ elements t = l) ∧ size (heap s) = length l ∧ m_size s = length l.
Definition treap_wf s l : Prop := treap_rep s l ∧ StronglySorted (key_le ltb) l.
Definition not_above k (x : loc * (K * (V * Z))) : Prop := ltb k x.2.1 = false.

(** The end of the descent. *)
Fixpoint zupper k t c : list (frame K (V * Z)) :=
  match t with
  | Leaf => c
  | Bin l col kv a b => if ltb k kv.1 then zupper k a (Frm Lft l col kv b :: c) else zupper k b (Frm Rgt l col kv a :: c)
  end.

Lemma zupper_plug k t c : plug Leaf (zupper k t c) = plug t c.
Proof. revert c. induction t as [|l col kv a IHa b IHb]; intros c; cbn [zupper]; [done|]. destruct (ltb k kv.1); by rewrite ?IHa, ?IHb. Qed.

Lemma zupper_key k t c :
  StronglySorted (key_le ltb) (elements t) → Forall (not_above k) (lefts c) → Forall (above ltb k) (rights c) →
  Forall (not_above k) (lefts (zupper k t c)) ∧ Forall (above ltb k) (rights (zupper k t c)).
Proof.
  revert c. induction t as [|l col kv a IHa b IHb]; intros c Hs Hl Hr; cbn [zupper]; [done|].
  cbn [elements] in Hs. apply sorted_middle in Hs as (Hsa & Hsb & Ha & Hb & _).
  destruct (ltb k kv.1) eqn:Hk; [apply IHa|apply IHb]; try done; cbn [lefts rights f_dir].
  - constructor; [done|]. apply Forall_app. split; [|done]. eapply Forall_impl; [exact Hb|]. intros x Hx. unfold above.
    destruct (ltb k x.2.1) eqn:Hkx; [done|]. pose proof (swo_incomp _ _ _ Hkx Hx) as Hkk. cbn in Hkk. congruence.
  - rewrite !Forall_app. split_and!; [done| |by constructor]. eapply Forall_impl; [exact Ha|]. intros x Hx. exact (swo_incomp _ _ _ Hk Hx).
Qed.

Lemma treap_descend_ok fuel s k t c y :
  rep s (plug t c) → height t < fuel → y = cpar c → treap_descend ltb fuel s k (rt t) y = Some (cpar (zupper k t c)).
Proof.
  revert t c y. induction fuel as [|fuel IH]; intros t c y H Hf ->; [lia|].
  destruct t as [|l col kv a b]; [done|]. cbn [treap_descend rt zupper]. rewrite (ld_bin s Lft _ _ _ _ _ _ H).
  cbn [mbind option_bind mknode n_key n_left n_right]. cbn [height] in Hf. destruct (ltb k kv.1).
  - apply (IH a (Frm Lft l col kv b :: c)); [exact H|lia|done].
  - apply (IH b (Frm Rgt l col kv a :: c)); [exact H|lia|done].
Qed.

Lemma treap_lower_ok s l k :
  treap_wf s l → ∃ l1 l2, l = l1 ++ l2 ∧ Forall (below ltb k) l1 ∧ Forall (not_below ltb k) l2 ∧ treap_lower_bound ltb s k = Some (fst <$> head l2).
Proof.
  intros (((t & Ht & _ & <-) & Hsz & _) & Hs). pose proof Ht as (_ & _ & Hr). pose proof (height_elements t) as Hh.
  destruct (zlower_key ltb k t [] Hs) as [H1 H2]; [constructor..|]. pose proof (zlower_plug ltb k t []) as Hp. cbn [plug] in Hp.
  exists (lefts (zlower ltb k t [])), (rights (zlower ltb k t [])). split_and!; [by rewrite <- Hp at 1; rewrite elements_plug|done|done|].
  unfold treap_lower_bound. rewrite Hr. exact (lower_loop_ok ltb (S (size (heap s))) s k t [] Ht ltac:(lia)).
Qed.

Lemma treap_begin_ok s l : treap_rep s l → treap_begin s = Some (fst <$> head l).
Proof.
  intros ((t & Ht & _ & <-) & Hsz & _). pose proof Ht as (_ & _ & Hr). unfold treap_begin, min_node. rewrite Hr.
  apply (minimum_head s t [] Ht). rewrite length_locs. lia.
Qed.

Lemma treap_next_ok s l1 x kv l2 : treap_rep s (l1 ++ (x, kv) :: l2) → treap_next s (Some x) = Some (fst <$> head l2).
Proof.
  intros ((t & Ht & _ & Hel) & Hsz & _). destruct (focus t [] _ _ _ _ Hel) as (col & a & b & c & Hp & Hl & Hr).
  rewrite app_nil_r in Hr. cbn [plug] in Hp. cbn [lefts app] in Hl. subst t l2 l1. clear Hel.
  unfold treap_next. rewrite (ld_bin s Lft _ _ _ _ _ _ Ht). cbn [mbind option_bind mknode n_right n_parent].
  assert (length (locs (plug (Bin x col kv a b) c)) = size (heap s)) as Hlen.
  { rewrite length_locs, elements_plug, Hsz. cbn [elements]. by rewrite <- !app_assoc. }
  rewrite locs_plug in Hlen. pose proof (length_clocs c). destruct b as [|lb cb kb b1 b2].
  - cbn [rt elements app]. apply (up_loop_ok _ _ (Bin x col kv a Leaf)); [done..|]. cbn [locs] in Hlen. lens.
  - cbn [rt]. change (Some lb) with (rt (Bin lb cb kb b1 b2)).
    rewrite (minimum_head s _ (Frm Rgt x col kv a :: c) Ht); [by rewrite head_elements_app|]. rewrite <- Hlen. cbn [locs]. lens.
Qed.

Lemma treap_walk_ok s fuel l1 l2 : treap_rep s (l1 ++ l2) → length l2 < fuel → treap_walk fuel s (fst <$> head l2) = Some l2.*1.
Proof.
  revert fuel l1. induction l2 as [|[x kv] l2 IH]; intros fuel l1 H Hf; (destruct fuel as [|fuel]; [simpl in Hf; lia|]); [done|].
  cbn [treap_walk head fmap option_fmap option_map fst]. rewrite (treap_next_ok s l1 x kv l2 H). cbn [mbind option_bind].
  rewrite (IH fuel (l1 ++ [(x, kv)])); [done|by rewrite <- app_assoc|simpl in Hf; lia].
Qed.

(** The new node hangs at the end of the path. *)
Lemma treap_link s c (l : loc) k v prio :
  rep s (plug Leaf c) → heap s !! l = None → c ≠ [] → Forall (not_above k) (lefts c) → Forall (above ltb k) (rights c) →
  let s0 := with_heap s (<[l := Node k (v, prio) BLACK None None None]> (heap s)) in
  ∃ s1 s2 ny, st s0 (Some l) (set_parent (cpar c)) = Some s1 ∧ ld s1 (cpar c) = Some ny ∧
    st s1 (cpar c) (set_child (if ltb k (n_key ny) then Lft else Rgt) (Some l)) = Some s2 ∧
    rep0 s2 (plug (Bin l BLACK (k, (v, prio)) Leaf Leaf) c) ∧ m_root s2 = m_root s ∧ keeps s0 s2.
Proof using Type.
  intros H Hl Hc Hle Hri s0.
  assert (l ∉ clocs c) as Hzc.
  { intros Hin. destruct H as (_ & Ht & _). assert (l ∈ locs (plug Leaf c)) as Hin' by (rewrite locs_plug; set_solver).
    destruct (tree_at_locs _ _ _ _ Ht Hin') as [? ?]. congruence. }
  apply rep_plug in H as (Hnd & _ & Hca & Hr). destruct s as [h r n]. cbn [heap m_root rt] in *. subst r s0.
  destruct c as [|[fd fl fc [fk fv] fs] c]; [done|]. cbn [lefts rights f_dir] in Hle, Hri. cbn in Hzc, Hca. nd_in Hnd. nd_in Hzc. destruct_and? Hca. cbn [cpar f_loc].
  assert (ltb k fk = match fd with Lft => true | Rgt => false end) as Hside.
  { destruct fd; [by apply Forall_cons in Hri as [Hri _]|]. rewrite !Forall_app, Forall_singleton in Hle. by destruct Hle as (_ & _ & Hle). }
  destruct fd.
  all: eexists _, _, _; split; [sym; reflexivity|]; split; [sym; reflexivity|]; split; [sym; rewrite Hside; sym; reflexivity|].
  all: split; [|split; [done|]; unfold keeps; split; [|done]; cbn [heap with_heap]; apply set_eq; intros q; rewrite !elem_of_dom, !lookup_insert_is_Some'; naive_solver].
  all: apply rep0_plug; cbn [locs app clocs f_loc f_sib tree_at ctx_at rt cpar croot heap m_root]; split; [nd_solve|].
  all: split_and?; try done; framed; by sym.
Qed.

Lemma sorted_insert_after l1 l2 z k (v : V * Z) :
  StronglySorted (key_le ltb) (l1 ++ l2) → Forall (not_above k) l1 → Forall (above ltb k) l2 → StronglySorted (key_le ltb) (l1 ++ (z, (k, v)) :: l2).
Proof using StrictWeakOrder0.
  rewrite !sorted_app_iff, sorted_cons_iff. intros (? & ? & Hx) H1 H2. split_and!; [done|done| |].
  - eapply Forall_impl; [exact H2|]. intros x Hkx. unfold key_le, above in *. cbn. destruct (ltb x.2.1 k) eqn:Hxk; [|done].
    pose proof (swo_trans _ _ _ Hkx Hxk) as Hkk. by rewrite swo_irrefl in Hkk.
  - intros x y Hxin [->|Hy]%elem_of_cons; [|by apply Hx]. rewrite Forall_forall in H1. by apply H1.
Qed.

Lemma treap_insert_empty s z k v prio :
  treap_rep s [] → m_root s = None → heap s !! z = None → ∃ s', treap_insert ltb z prio s k v = Some s' ∧ treap_rep s' [(z, (k, (v, prio)))].
Proof using StrictWeakOrder0.
  intros (_ & Hsz & _) Hr Hz. unfold treap_insert. cbn [m_root with_heap]. rewrite Hr. eexists. split; [done|]. split_and!; [| |done].
  - exists (Bin z BLACK (k, (v, prio)) Leaf Leaf). split_and!; [|by split_and!|done]. split_and!; [repeat constructor; set_solver| |done]. cbn. by rewrite lookup_insert_eq.
  - cbn [heap with_heap]. rewrite map_size_insert_None, Hsz by done. done.
Qed.

Lemma treap_insert_ok s l z k v prio :
  treap_wf s l → heap s !! z = None →
  ∃ l1 l2 s', l = l1 ++ l2 ∧ Forall (not_above k) l1 ∧ Forall (above ltb k) l2 ∧
    treap_insert ltb z prio s k v = Some s' ∧ treap_wf s' (l1 ++ (z, (k, (v, prio))) :: l2).
Proof using StrictWeakOrder0.
  intros [Hrep Hs] Hz. pose proof Hrep as ((t & Ht & Ho & Hel) & Hsz & Hm). pose proof Ht as (_ & _ & Hr). pose proof (height_elements t) as Hh.
  destruct t as [|lt ct kt ta tb].
  { cbn in Hel. subst l. destruct (treap_insert_empty s z k v prio Hrep Hr Hz) as (s' & Hi & Hrep'). exists [], [], s'. split_and!; try done; [constructor..|]. split; [done|]. repeat constructor. }
  set (t := Bin lt ct kt ta tb) in *. set (c := zupper k t []). pose proof (zupper_plug k t []) as Hp. fold c in Hp. cbn [plug] in Hp. rewrite <- Hel in Hs.
  destruct (zupper_key k t [] Hs) as [H1 H2]; [constructor..|]. fold c in H1, H2.
  assert (c ≠ []) as Hc by (intros ->; cbn in Hp; discriminate). rewrite <- Hp in Ht, Ho, Hel, Hs. rewrite elements_plug in Hel, Hs. cbn [elements app] in Hel, Hs.
  destruct (treap_link s c z k v prio Ht Hz Hc H1 H2) as (s1 & s2 & ny & Hs1 & Hny & Hs2 & H3 & Hm2 & Hk2). apply heap_ordered_plug in Ho as (_ & _ & Ho).
  assert (∀ q, heap_ordered (Bin q BLACK (k, (v, prio)) Leaf Leaf : tree K (V * Z))) as Hob by done.
  destruct (keeps_size _ _ Hk2) as [Hsz2 Hms2]. cbn [heap with_heap m_size] in Hsz2, Hms2. rewrite map_size_insert_None in Hsz2 by done.
  assert (length c ≤ length l) as Hlc.
  { transitivity (length (clocs c)); [apply length_clocs|]. rewrite <- Hel. replace (lefts c ++ rights c) with (elements (plug Leaf c)) by (by rewrite elements_plug).
    rewrite <- length_locs, locs_plug. done. }
  destruct (rotate_up_ok (S (size (heap s2))) s2 Lft z BLACK (k, (v, prio)) Leaf Leaf c H3 (Hob z) Ho) as (s3 & a & b & c3 & Hs3 & H4 & Ho3 & Hel3 & Hk3 & Hm3 & Hc3);
    [by destruct c|by destruct c|lia|].
  destruct (keeps_size _ _ Hk3) as [Hsz3 Hms3]. change (bin Lft ?x ?y ?zz Leaf Leaf) with (Bin x y zz (@Leaf K (V * Z)) Leaf) in Hel3. rewrite (elements_plug _ c) in Hel3. cbn [elements app] in Hel3.
  exists (lefts c), (rights c), (with_size (match cpar c3 with None => with_root s3 (Some z) | Some _ => s3 end) (S (m_size s3))).
  split_and!; try done.
  - unfold treap_insert. cbn [m_root with_heap]. rewrite Hr. unfold t at 1. cbn [rt].
    assert (rep (with_heap s (<[z := Node k (v, prio) BLACK None None None]> (heap s))) (plug t [])) as Ht0.
    { destruct Ht as (Hnd & Hta & Hrt). rewrite Hp in *. split_and!; [done| |done]. apply tree_at_insert; [|done]. intros Hin. destruct (tree_at_locs _ _ _ _ Hta Hin). congruence. }
    change (Some lt) with (rt t). erewrite (treap_descend_ok _ _ _ t []); [|exact Ht0| |done]; [|cbn [heap with_heap]; rewrite map_size_insert_None by done].
    + fold c. cbn [mbind option_bind]. rewrite Hs1. cbn [mbind option_bind]. rewrite Hny. cbn [mbind option_bind]. rewrite Hs2. cbn [mbind option_bind]. rewrite Hs3. cbn [mbind option_bind].
      rewrite (ld_rep0 s3 Lft _ _ _ _ _ _ H4). cbn [mbind option_bind mknode n_parent]. by destruct (cpar c3).
    + rewrite Hsz, <- Hel. rewrite <- Hp, elements_plug in Hh. cbn [elements app] in Hh. rewrite Hp in Hh. lia.
  - split; [|by apply sorted_insert_after]. split; [|cbn [m_size with_size]; split; [destruct (cpar c3); cbn [heap with_size with_root]|]; rewrite <- Hel in *; lens].
    exists (plug (Bin z BLACK (k, (v, prio)) a b) c3). split_and!; [|done|done]. destruct H4 as (Hnd & Hta & _). split_and!; [done|by destruct (cpar c3)|].
    rewrite rt_plug. cbn [rt]. destruct c3 as [|f c3]; [done|]. cbn [cpar m_root with_size]. destruct Hc3 as [|Hc3]; [done|]. rewrite Hm3, Hm2, Hr, Hc3, <- Hp, rt_plug. by destruct c.
Qed.
End Spec.

(** ** Clearing *)

Section Clear.
Context {K V : Type}.
Implicit Types (t a b e : tree K (V * Z)) (c : list (frame K (V * Z))) (s : rbt K (V * Z)).

Lemma ctx_at_delete (h : gmap loc (node K (V * Z))) p c l : l ∉ clocs c → ctx_at h p c → ctx_at (delete l h) p c.
Proof.
  revert p. induction c as [|f c IH]; intros p Hl; simpl in *; [done|].
  rewrite not_elem_of_cons, not_elem_of_app in Hl. destruct Hl as (? & ? & ?).
  intros (? & ? & ?). rewrite lookup_delete_ne by done. auto using tree_at_delete.
Qed.

Lemma clear_leaf fuel s x (col : color) kv c :
  rep0 s (plug (Bin x col kv Leaf Leaf) c) →
  ∃ s', treap_clear_loop (S fuel) (Some x) s = treap_clear_loop fuel (cpar c) s' ∧ rep0 s' (plug Leaf c) ∧ size (heap s') = pred (size (heap s)).
Proof.
  intros H. cbn [treap_clear_loop]. rewrite (ld_rep0 s Lft _ _ _ _ _ _ H). cbn [mbind option_bind mknode n_left n_right n_parent rt].
  apply rep0_plug in H as (Hnd & Ht & Hc). destruct s as [h r n]. cbn [heap] in *. destruct Ht as (Hx & _). destruct c as [|[fd fl fc [fk fv] fs] c].
  - cbn [cpar mbind option_bind]. eexists. split; [done|]. cbn [heap with_heap]. split; [|by rewrite map_size_delete_Some by eauto]. apply rep0_plug. split_and!; [constructor|done|done].
  - cbn [cpar f_loc]. nd_in Hnd. cbn in Hc. destruct_and? Hc. destruct fd; (eexists; split; [sym; reflexivity|]); cbn [heap with_heap];
      (split; [apply rep0_plug; cbn [locs app clocs f_loc f_sib tree_at ctx_at rt cpar croot heap m_root]; split; [nd_solve|]; split; [done|]|]).
    1,3: split; [rewrite lookup_delete_ne by congruence; by sym|]; split; [by apply tree_at_delete; [|by apply tree_at_insert]|].
    1,2: by apply ctx_at_delete; [|by apply ctx_at_insert].
    all: rewrite map_size_delete_Some by (exists (Node kv.1 kv.2 col None None (Some fl)); by sym); by rewrite map_size_insert_Some by eauto.
Qed.

(** A subtree is removed in fewer than two iterations per node. *)
Lemma clear_tree t : ∀ fuel s c, t ≠ Leaf → rep0 s (plug t c) →
  ∃ s', treap_clear_loop (2 * length (locs t) - 1 + fuel) (rt t) s = treap_clear_loop fuel (cpar c) s' ∧ rep0 s' (plug Leaf c) ∧
    size (heap s') = size (heap s) - length (locs t).
Proof.
  induction t as [|x col kv a IHa b IHb]; intros fuel s c Hne H; [done|]. cbn [rt locs].
  assert (∀ fuel s, rep0 s (plug (Bin x col kv Leaf b) c) →
    ∃ s', treap_clear_loop (2 * S (length (locs b)) - 1 + fuel) (Some x) s = treap_clear_loop fuel (cpar c) s' ∧ rep0 s' (plug Leaf c) ∧
      size (heap s') = size (heap s) - S (length (locs b))) as Hb.
  { clear H s fuel. intros fuel s H. destruct b as [|y cy ky b1 b2].
    - destruct (clear_leaf fuel s x col kv c H) as (s' & Hs' & H' & Hsz). exists s'. split; [exact Hs'|]. split; [done|]. rewrite Hsz. simpl. lia.
    - destruct (IHb (S fuel) s (Frm Rgt x col kv Leaf :: c) ltac:(done) H) as (s1 & Hs1 & H1 & Hsz1).
      destruct (clear_leaf fuel s1 x col kv c H1) as (s' & Hs' & H' & Hsz). exists s'. split; [|split; [done|lia]].
      rewrite <- Hs'. cbn [cpar f_loc] in Hs1. rewrite <- Hs1. replace (2 * S (length (locs (Bin y cy ky b1 b2))) - 1 + fuel) with (S (2 * length (locs (Bin y cy ky b1 b2)) - 1 + S fuel)) by (simpl; lia).
      generalize (2 * length (locs (Bin y cy ky b1 b2)) - 1 + S fuel). intros m. cbn [treap_clear_loop]. by rewrite (ld_rep0 s Lft _ _ _ _ _ _ H). }
  destruct a as [|y cy ky a1 a2]; [exact (Hb fuel s H)|].
  destruct (IHa (2 * S (length (locs b)) - 1 + fuel) s (Frm Lft x col kv b :: c) ltac:(done) H) as (s1 & Hs1 & H1 & Hsz1).
  destruct (Hb fuel s1 H1) as (s' & Hs' & H' & Hsz). exists s'. split; [|split; [done|]]; cbn [length]; rewrite length_app; [|lia].
  rewrite <- Hs'. cbn [cpar f_loc] in Hs1. rewrite <- Hs1. set (m := length (locs (Bin y cy ky a1 a2))). assert (1 ≤ m) by (unfold m; simpl; lia).
  replace (2 * S (m + length (locs b)) - 1 + fuel) with (S (2 * m - 1 + (2 * S (length (locs b)) - 1 + fuel))) by lia.
  generalize (2 * m - 1 + (2 * S (length (locs b)) - 1 + fuel)). intros m'. cbn [treap_clear_loop]. by rewrite (ld_rep0 s Lft _ _ _ _ _ _ H).
Qed.

Lemma treap_clear_ok s l : treap_rep s l → treap_clear s = Some new_rbt.
Proof.
  intros ((t & Ht & _ & <-) & Hsz & _). pose proof Ht as (_ & _ & Hr). unfold treap_clear. rewrite Hr, Hsz. rewrite <- length_locs in *.
  destruct t as [|x col kv a b] eqn:Et.
  - simpl in *. apply map_size_empty_inv in Hsz. by rewrite Hsz.
  - rewrite <- Et in *. assert (t ≠ Leaf) as Hne by (by rewrite Et). assert (1 ≤ length (locs t)) by (rewrite Et; simpl; lia).
    destruct (clear_tree t 1 s [] Hne (rep0_rep _ _ Ht)) as (s' & Hs' & _ & Hsz'). replace (2 * length (locs t)) with (2 * length (locs t) - 1 + 1) by lia.
    rewrite Hs'. cbn [cpar treap_clear_loop mbind option_bind]. rewrite Hsz, Nat.sub_diag in Hsz'. apply map_size_empty_inv in Hsz'. by rewrite Hsz'.
Qed.
End Clear.

(** C39: the treap multimap keeps a sorted sequence with falling priorities: iteration visits
    the entries in order, [clear] frees every node, [lower_bound] returns the first entry
    whose key is not smaller, and [insert], whatever the priority drawn, puts the new entry
    after all entries whose key is not larger. *)
Theorem treap_refines {K V} (ltb : K → K → bool) `{!StrictWeakOrder ltb} (s : rbt K (V * Z)) l k z counter v :
  treap_wf ltb s l → heap s !! z = None →
  (p ← treap_begin s; treap_walk (S (m_size s)) s p) = Some l.*1 ∧ treap_clear s = Some new_rbt ∧
  (∃ l1 l2, l = l1 ++ l2 ∧ Forall (below ltb k) l1 ∧ Forall (not_below ltb k) l2 ∧
    treap_lower_bound ltb s k = Some (fst <$> head l2) ∧ treap_walk (S (m_size s)) s (fst <$> head l2) = Some l2.*1) ∧
  (∃ l1 l2 s', l = l1 ++ l2 ∧ Forall (not_above ltb k) l1 ∧ Forall (above ltb k) l2 ∧
    treap_insert ltb z (random_prio counter) s k v = Some s' ∧ treap_wf ltb s' (l1 ++ (z, (k, (v, random_prio counter))) :: l2)).
Proof.
  intros Hwf Hz. pose proof Hwf as [Hrep _]. pose proof Hrep as (_ & _ & Hm). split_and!.
  - rewrite (treap_begin_ok s l Hrep). cbn [mbind option_bind]. apply (treap_walk_ok s _ []); [done|lia].
  - by eapply treap_clear_ok.
  - destruct (treap_lower_ok ltb s l k Hwf) as (l1 & l2 & -> & H1 & H2 & Hb). exists l1, l2. split_and!; try done.
    apply (treap_walk_ok s _ l1); [done|]. rewrite length_app in Hm. lia.
  - by apply treap_insert_ok.
Qed.

(** Priorities lie in the range of a non-negative [int]. *)
Theorem random_prio_range counter : (0 ≤ random_prio counter < 2 ^ 31)%Z.
Proof. unfold random_prio. change 0x7FFFFFFF%Z with (Z.ones 31). rewrite Z.land_ones by lia. apply Z.mod_pos_bound. lia. Qed.

(** Three insertions from an empty map, two of them with the same key. *)
Definition treap_sample : option (rbt Z (Z * Z)) :=
  s ← treap_insert Z.ltb 1 (random_prio 0) new_rbt 20%Z 200%Z;
  s ← treap_insert Z.ltb 2 (random_prio 1) s 10%Z 100%Z;
  treap_insert Z.ltb 3 (random_prio 2) s 20%Z 201%Z.

(** They are visited in the order of their keys, equal ones in the order of insertion. *)
Example treap_sample_walk : (s ← treap_sample; p ← treap_begin s; treap_walk 4 s p) = Some [2; 1; 3]%positive.
Proof. vm_compute. reflexivity. Qed.

Lemma treap_refines_witness :
  ∃ s l1 l2 s', treap_insert Z.ltb 1 (random_prio 0) (new_rbt : rbt Z (Z * Z)) 20%Z 200%Z = Some s ∧ [(1%positive, (20%Z, (200%Z, random_prio 0)))] = l1 ++ l2 ∧
    treap_insert Z.ltb 2 (random_prio 1) s 10%Z 100%Z = Some s' ∧ treap_wf Z.ltb s' (l1 ++ (2%positive, (10%Z, (100%Z, random_prio 1))) :: l2).
Proof.
  destruct (treap_insert Z.ltb 1 (random_prio 0) (new_rbt : rbt Z (Z * Z)) 20%Z 200%Z) as [s|] eqn:Hs; [|discriminate Hs].
  assert (treap_wf Z.ltb s [(1%positive, (20%Z, (200%Z, random_prio 0)))]) as Hwf.
  { injection Hs as <-. split; [|repeat constructor]. split; [|split; reflexivity]. exists (Bin 1%positive BLACK (20%Z, (200%Z, random_prio 0)) Leaf Leaf).
    split; [|split; [cbn; tauto|reflexivity]]. split; [repeat constructor; apply not_elem_of_nil|]. split; [|reflexivity]. cbn. split; [reflexivity|tauto]. }
  destruct (treap_refines Z.ltb s [(1%positive, (20%Z, (200%Z, random_prio 0)))] 10%Z 2%positive 1 100%Z Hwf) as (_ & _ & _ & l1 & l2 & s' & H1 & _ & _ & H2 & H3).
  - injection Hs as <-. reflexivity.
  - exists s, l1, l2, s'. split; [reflexivity|]. split; [exact H1|]. split; [exact H2|exact H3].
Defined.

(** An abort restores the nodes, which live in transactional memory, but not the members. *)
Definition after_abort {K V} (before after : rbt K (V * Z)) : rbt K (V * Z) := RBT (heap before) (m_root after) (m_size after).

(** After an aborted insertion into an empty map the count is one and the root points to a
    node that is gone: [begin()] follows a dangling pointer. *)
Theorem treap_abort_dangles :
  ∃ s, treap_insert Z.ltb 1 (random_prio 0) (new_rbt : rbt Z (Z * Z)) 20%Z 200%Z = Some s ∧
    m_size (after_abort new_rbt s) = 1 ∧ treap_begin (after_abort new_rbt s) = None.
Proof. eexists. split; [reflexivity|]. split; reflexivity. Qed.
