(* ===== verification/SwissTM.v ===== *)
(** * SwissTM (swisstm/SwissTM.hpp)

    A table of ownership records, each with a write lock (a pointer to the entry of the
    write log that took it) and a read lock (a version, or [READ_LOCKED] during a commit).
    Writes take the write lock at once and are buffered in the write log; an update commit
    exchanges [READ_LOCKED] into the read lock of every record it has read, increments the
    commit timestamp, compares the exchanged versions with those it read, writes back and
    releases.  Operations on shared memory are interleaved steps, one per atomic access;
    plain loads and stores of data go byte by byte.  The two accesses of
    [tm_token_soft_spin] are one step, and the abort counter and the token are updated in
    the step that ends a call.  A write lock is modelled by the thread and the position of
    the entry in its log, so [owner_entry->owner] is the thread; entries a lock points to
    are taken to stay allocated while they are dereferenced.  [owned_orecs] is iterated in
    the order of the list.  The commit timestamp is a 64-bit word; an execution that
    exhausts it (2^63 commits) is not continued.  [shared] stands for
    [isTMAddress(a) || isTMGlobal(a)] ([Region]); the untracked accesses are those of
    [TM_ALLOW_UNTRACKED].  The delays ([TM_SPIN_BACKOFF], [cm_on_rollback]) are not
    modelled, nor the event trace, nor [write_set], which is only cleared. *)

From stdpp Require Import functions.
From S2P Require Import Prelude Memory Values TMSpec LogMerge TxLog Interleave Support.
#[local] Open Scope Z_scope.
#[local] Open Scope word_scope.

Definition OREC_TABLE_SIZE : Z := 1 .<< 22.
Definition LOCK_EXTENT : Z := 4.
Definition READ_LOCKED : Z := 2 ^ 64 - 1.
Definition WN_THRESHOLD : Z := 10.

Definition get_orec (addr : Z) : Z := (addr .>> LOCK_EXTENT) .& (OREC_TABLE_SIZE - 1).
Definition get_word_addr (addr : Z) : Z := addr .& not64 7.
Definition orec_of (addr : Z) : Z := get_orec (get_word_addr addr).

Record WriteLogEntry := WLE { we_addr : Z; we_old : any_type_t; we_new : any_type_t; we_type : ValueType }.
Definition we_orec (e : WriteLogEntry) : Z := orec_of (we_addr e).

Record ReadLogEntry := RLE { re_orec : Z; re_addr : Z; re_version : Z; re_old_version : Z; re_type : ValueType }.

(** [TxDescriptor], apart from [cm_ts], which other threads read.  The index maps an
    address to the position of an entry in the log. *)
Record TxDescriptor := Tx {
  active : bool; aborted : bool; tx_id : Z; valid_ts : Z; write_count : Z; succ_abort_count : Z;
  write_log : list WriteLogEntry; write_log_index : gmap Z nat; owned_orecs : list Z; read_set : list ReadLogEntry;
}.

Definition set_flags (x : TxDescriptor) (act abt : bool) : TxDescriptor :=
  Tx act abt (tx_id x) (valid_ts x) (write_count x) (succ_abort_count x) (write_log x) (write_log_index x) (owned_orecs x) (read_set x).
Definition set_valid_ts (x : TxDescriptor) (ts : Z) : TxDescriptor :=
  Tx (active x) (aborted x) (tx_id x) ts (write_count x) (succ_abort_count x) (write_log x) (write_log_index x) (owned_orecs x) (read_set x).
Definition set_write_count (x : TxDescriptor) (n : Z) : TxDescriptor :=
  Tx (active x) (aborted x) (tx_id x) (valid_ts x) n (succ_abort_count x) (write_log x) (write_log_index x) (owned_orecs x) (read_set x).
Definition set_log (x : TxDescriptor) (wl : list WriteLogEntry) (idx : gmap Z nat) : TxDescriptor :=
  Tx (active x) (aborted x) (tx_id x) (valid_ts x) (write_count x) (succ_abort_count x) wl idx (owned_orecs x) (read_set x).
Definition add_owned (x : TxDescriptor) (orec : Z) : TxDescriptor :=
  Tx (active x) (aborted x) (tx_id x) (valid_ts x) (write_count x) (succ_abort_count x) (write_log x) (write_log_index x) (orec :: owned_orecs x) (read_set x).
Definition set_reads (x : TxDescriptor) (rs : list ReadLogEntry) : TxDescriptor :=
  Tx (active x) (aborted x) (tx_id x) (valid_ts x) (write_count x) (succ_abort_count x) (write_log x) (write_log_index x) (owned_orecs x) rs.

(** Where [extend] was called: at the end of a read, or of a write. *)
Inductive ext_cont := KRead (sz : ValueType) (a : Z) | KWrite.

(** The point a call has reached. *)
Inductive spc :=
  | SIdle
  (* read_impl *)
  | SDirect (sz : ValueType) (a : Z) (bs : list Z)
  | SReadW (sz : ValueType) (a : Z)
  | SRead1 (sz : ValueType) (a : Z)
  | SRead2 (sz : ValueType) (a version : Z)
  | SBytes (sz : ValueType) (a : Z) (bs : list Z)
  (* extend, validate *)
  | SExtLoad (k : ext_cont)
  | SExtR (k : ext_cont) (ts : Z) (rem : list ReadLogEntry)
  | SExtW (k : ext_cont) (ts : Z) (re : ReadLogEntry) (rem : list ReadLogEntry)
  (* write_impl, cm_should_abort, cm_on_write *)
  | SStore (st : list (Z * Z))
  | SWLoad (a : Z)
  | SWSoft (a : Z)
  | SWSpin (a : Z)
  | SWReload (a : Z)
  | SWCm1 (a : Z)
  | SWCm2 (a : Z) (j : nat)
  | SWCas (a : Z)
  | SWOld (a : Z)
  | SWRead (a : Z)
  | SWEnd
  (* commit *)
  | SX1 (dn rem : list ReadLogEntry)
  | SFetch
  | SRest (rem : list ReadLogEntry)
  | SWb (ts : Z) (st : list (Z * Z))
  | SRel (ts : Z) (rem : list WriteLogEntry) (released : list Z)
  | SRelW (ts : Z) (orec : Z) (rem : list WriteLogEntry) (released : list Z)
  | SRelRO (rem : list ReadLogEntry)
  | SEnd
  (* rollback *)
  | SUndo (st : list (Z * Z))
  | SUnw (rem : list Z)
  | SFin.

(** A thread: its number, its transaction, the point of its call, the value last returned,
    and (ghost) the transactional reads and writes so far. *)
Record swthread := STh { st_me : nat; st_tx : TxDescriptor; st_pc : spc; st_ret : Z; st_log : list event }.

(** Shared state: the read and write locks by record, the timestamps, and the [cm_ts] of
    every thread.  [sg_hist] and [sg_ro] are ghost: the logs of the committed update
    transactions by commit timestamp, and those of the transactions that committed without
    writes. *)
Record swglobal := SG {
  sg_mem : mem; r_lock : Z → Z; w_lock : Z → option (nat * nat); commit_ts : Z; greedy_ts : Z; sg_token : Z;
  cm_ts : nat → Z; sg_aborts : Z; sg_hist : gmap nat (list event); sg_ro : list (list event);
}.

Definition g_set_mem (g : swglobal) (m : mem) : swglobal :=
  SG m (r_lock g) (w_lock g) (commit_ts g) (greedy_ts g) (sg_token g) (cm_ts g) (sg_aborts g) (sg_hist g) (sg_ro g).
Definition g_set_r (g : swglobal) (orec v : Z) : swglobal :=
  SG (sg_mem g) (<[orec := v]> (r_lock g)) (w_lock g) (commit_ts g) (greedy_ts g) (sg_token g) (cm_ts g) (sg_aborts g) (sg_hist g) (sg_ro g).
Definition g_set_w (g : swglobal) (orec : Z) (w : option (nat * nat)) : swglobal :=
  SG (sg_mem g) (r_lock g) (<[orec := w]> (w_lock g)) (commit_ts g) (greedy_ts g) (sg_token g) (cm_ts g) (sg_aborts g) (sg_hist g) (sg_ro g).
Definition g_set_token (g : swglobal) (tok : Z) : swglobal :=
  SG (sg_mem g) (r_lock g) (w_lock g) (commit_ts g) (greedy_ts g) tok (cm_ts g) (sg_aborts g) (sg_hist g) (sg_ro g).
Definition g_set_cm (g : swglobal) (j : nat) (ts : Z) : swglobal :=
  SG (sg_mem g) (r_lock g) (w_lock g) (commit_ts g) (greedy_ts g) (sg_token g) (<[j := ts]> (cm_ts g)) (sg_aborts g) (sg_hist g) (sg_ro g).

Definition sgoto (t : swthread) (p : spc) : swthread := STh (st_me t) (st_tx t) p (st_ret t) (st_log t).
Definition set_tx (t : swthread) (x : TxDescriptor) (p : spc) : swthread := STh (st_me t) x p (st_ret t) (st_log t).

Definition NO_CM : Z := 2 ^ 64 - 1.

Definition is_locked_by (lock_val : option (nat * nat)) (t : swthread) : bool :=
  match lock_val with
  | None => false
  | Some (j, k) => (j =? st_me t)%nat && (k <? length (write_log (st_tx t)))%nat
  end.

(** ** Begin and rollback *)

(** [begin]; [cm_start] follows the reset of [succ_abort_count]. *)
Definition sw_begun (x : TxDescriptor) (ts : Z) : TxDescriptor := Tx true false (tx_id x) ts 0 0 [] ∅ [] [].
Definition cm_start (g : swglobal) (t : swthread) (x : TxDescriptor) : swglobal :=
  if succ_abort_count x =? 0 then g_set_cm g (st_me t) NO_CM else g.

(** The stores of [rollback]: the old values of the entries whose record is owned. *)
Definition undo_stores (x : TxDescriptor) : list (Z * Z) :=
  concat ((λ we, if bool_decide (we_orec we ∈ owned_orecs x) then value_stores (we_addr we) (we_old we) (we_type we) else []) <$> write_log x).
Definition rollback (g : swglobal) (t : swthread) : swglobal * swthread := (g, sgoto t (SUndo (undo_stores (st_tx t)))).

(** The end of [rollback], and back to the start of the transaction ([siglongjmp]). *)
Definition rollback_end (g : swglobal) (t : swthread) : swglobal * swthread :=
  let x := st_tx t in
  (SG (sg_mem g) (r_lock g) (w_lock g) (commit_ts g) (greedy_ts g) (SpinToken.tm_token_release_if_held (sg_token g) (tx_id x)) (cm_ts g) (sg_aborts g + 1) (sg_hist g) (sg_ro g),
   STh (st_me t) (Tx (active x) true (tx_id x) (valid_ts x) (write_count x) (succ_abort_count x + 1) (write_log x) (write_log_index x) (owned_orecs x) (read_set x))
     SIdle (st_ret t) []).

(** ** Reads *)

Definition index_find (x : TxDescriptor) (a : Z) : option (nat * WriteLogEntry) :=
  k ← write_log_index x !! a; e ← write_log x !! k; Some (k, e).

(** The type of the entry, or the other of [UINT64] and [POINTER]. *)
Definition readable_as (vt et : ValueType) : bool :=
  bool_decide (et = vt) || (bool_decide (vt = UINT64) && bool_decide (et = POINTER)) || (bool_decide (vt = POINTER) && bool_decide (et = UINT64)).

(** The byte-merge scan: the first entry that covers the access. *)
Definition covers (a : Z) (sz : ValueType) (w : WriteLogEntry) : bool :=
  (we_addr w <=? a) && (wrap64 (a + nbytes_of sz) <=? wrap64 (we_addr w + nbytes_of (we_type w))).
Fixpoint find_cover (a : Z) (sz : ValueType) (wl : list WriteLogEntry) : option WriteLogEntry :=
  match wl with
  | [] => None
  | w :: wl' => if covers a sz w then Some w else find_cover a sz wl'
  end.
Definition sub_value (w : WriteLogEntry) (a : Z) (sz : ValueType) : Z :=
  le_word (take (type_size sz) (drop (Z.to_nat (a - we_addr w)) (union_bytes (we_new w)))).

Definition sread_done (t : swthread) (sz : ValueType) (a v : Z) : swthread :=
  STh (st_me t) (st_tx t) SIdle v (st_log t ++ [EvR a sz v]).

(** [read_impl] up to the first atomic access. *)
Definition sw_read_call (t : swthread) (sz : ValueType) (a : Z) : swthread :=
  match index_find (st_tx t) a with
  | Some (_, e) => if readable_as sz (we_type e) then sread_done t sz a (return_any_type sz (we_new e)) else sgoto t (SReadW sz a)
  | None => sgoto t (SReadW sz a)
  end.

(** The entry that holds the write lock, when it is ours and of the right address and type. *)
Definition lock_entry (t : swthread) (w : option (nat * nat)) (sz : ValueType) (a : Z) : option WriteLogEntry :=
  if is_locked_by w t then
    '(_, k) ← w; e ← write_log (st_tx t) !! k;
    if (we_addr e =? a) && readable_as sz (we_type e) then Some e else None
  else None.

Definition push_read (x : TxDescriptor) (sz : ValueType) (a version : Z) : TxDescriptor :=
  set_reads x (read_set x ++ [RLE (orec_of a) a version 0 sz]).

Definition sw_read_step (g : swglobal) (t : swthread) : option (swglobal * swthread) :=
  let x := st_tx t in
  match st_pc t with
  | SDirect sz a bs =>
      let bs' := bs ++ [mget (sg_mem g) (a + Z.of_nat (length bs))] in
      Some (g, if (type_size sz <=? length bs')%nat then STh (st_me t) x SIdle (return_any_type sz (AnyT (le_word bs'))) (st_log t) else sgoto t (SDirect sz a bs'))
  | SReadW sz a =>
      Some (g, match lock_entry t (w_lock g (orec_of a)) sz a with
               | Some e => sread_done t sz a (return_any_type sz (we_new e))
               | None =>
                   match find_cover a sz (write_log x) with
                   | Some w => sread_done t sz a (sub_value w a sz)
                   | None => sgoto t (SRead1 sz a)
                   end
               end)
  | SRead1 sz a =>
      let version := r_lock g (orec_of a) in
      Some (g, if version =? READ_LOCKED then t else sgoto t (SRead2 sz a version))
  | SRead2 sz a version =>
      Some (g, if version =? r_lock g (orec_of a)
               then set_tx t (push_read x sz a version) (if valid_ts x <? version then SExtLoad (KRead sz a) else SBytes sz a [])
               else sgoto t (SRead1 sz a))
  | SBytes sz a bs =>
      let bs' := bs ++ [mget (sg_mem g) (a + Z.of_nat (length bs))] in
      Some (g, if (type_size sz <=? length bs')%nat then sread_done t sz a (return_any_type sz (AnyT (le_word bs'))) else sgoto t (SBytes sz a bs'))
  | _ => None
  end.

(** [extend] and [validate]. *)
Definition sw_extend_step (g : swglobal) (t : swthread) : option (swglobal * swthread) :=
  match st_pc t with
  | SExtLoad k => Some (g, sgoto t (SExtR k (commit_ts g) (read_set (st_tx t))))
  | SExtR k ts (re :: rem) =>
      Some (g, sgoto t (if r_lock g (re_orec re) =? re_version re then SExtR k ts rem else SExtW k ts re rem))
  | SExtR k ts [] =>
      Some (g, set_tx t (set_valid_ts (st_tx t) ts) (match k with KRead sz a => SBytes sz a [] | KWrite => SWEnd end))
  | SExtW k ts re rem =>
      Some (if is_locked_by (w_lock g (re_orec re)) t then (g, sgoto t (SExtR k ts rem)) else rollback g t)
  | _ => None
  end.

(** ** Writes *)

Definition sw_new_value (base : any_type_t) (sz : ValueType) (v : Z) : any_type_t := fill_any_type base (λ n, le_bytes n v) sz.

(** [write_impl] up to the first atomic access. *)
Definition sw_write_call (t : swthread) (sz : ValueType) (a v : Z) : swthread :=
  let x := st_tx t in
  let log := st_log t ++ [EvW a sz (wrap (8 * nbytes_of sz) v)] in
  let push :=
    let wl := write_log x ++ [WLE a (AnyT 0) (sw_new_value (AnyT 0) sz v) sz] in
    STh (st_me t) (set_log x wl (<[a := length (write_log x)]> (write_log_index x)))
      (if bool_decide (orec_of a ∈ owned_orecs x) then SWOld a else SWLoad a) (st_ret t) log in
  match index_find x a with
  | Some (k, e) =>
      if bool_decide (we_type e = sz) then
        let e' := WLE (we_addr e) (we_old e) (sw_new_value (we_new e) sz v) (we_type e) in
        STh (st_me t) (set_log x (<[k := e']> (write_log x)) (write_log_index x)) SWEnd (st_ret t) log
      else if (type_size sz <=? type_size (we_type e))%nat then STh (st_me t) x SWEnd (st_ret t) log
      else push
  | None => push
  end.

(** The head of the acquisition loop, with [w_lock_val]. *)
Definition acquire_loop (t : swthread) (a : Z) (w_lock_val : option (nat * nat)) : swthread :=
  sgoto t (match w_lock_val with Some _ => SWSoft a | None => SWCas a end).

(** The last entry of the log, with its old value. *)
Definition set_old (wl : list WriteLogEntry) (old : any_type_t) : list WriteLogEntry :=
  alter (λ e, WLE (we_addr e) old (we_new e) (we_type e)) (pred (length wl)) wl.
Definition old_bytes (word : list Z) (a : Z) (sz : ValueType) : any_type_t :=
  AnyT (le_word (take (type_size sz) (drop (Z.to_nat (a .& 7)) word))).

(** [cm_should_abort] for a transaction with a timestamp: the lock, then the [cm_ts] of its owner. *)
Definition cm_should_abort (g : swglobal) (t : swthread) : option (swglobal * swthread) :=
  match st_pc t with
  | SWCm1 a => Some (g, sgoto t (match w_lock g (orec_of a) with Some (j, _) => SWCm2 a j | None => SWReload a end))
  | SWCm2 a j => Some (if cm_ts g j <? cm_ts g (st_me t) then rollback g t else (g, sgoto t (SWReload a)))
  | _ => None
  end.

Definition sw_acquire_step (g : swglobal) (t : swthread) : option (swglobal * swthread) :=
  let x := st_tx t in
  match st_pc t with
  | SWLoad a =>
      let w := w_lock g (orec_of a) in
      Some (g, if is_locked_by w t then set_tx t (add_owned x (orec_of a)) (SWOld a) else acquire_loop t a w)
  | SWSoft a =>
      let '(spin, tok) := SpinToken.tm_token_soft_spin (sg_token g) (succ_abort_count x) (tx_id x) 3 in
      Some (if spin then (g_set_token g tok, sgoto t (SWSpin a))
            else if cm_ts g (st_me t) =? NO_CM then rollback g t
            else (g, sgoto t (SWCm1 a)))
  | SWSpin a => Some (g, match w_lock g (orec_of a) with Some _ => t | None => sgoto t (SWReload a) end)
  | SWReload a => Some (g, acquire_loop t a (w_lock g (orec_of a)))
  | SWCm1 _ | SWCm2 _ _ => cm_should_abort g t
  | SWCas a =>
      Some (match w_lock g (orec_of a) with
            | None => (g_set_w g (orec_of a) (Some (st_me t, pred (length (write_log x)))), set_tx t (add_owned x (orec_of a)) (SWOld a))
            | Some w => (g, acquire_loop t a (Some w))
            end)
  | _ => None
  end.

Definition cm_on_write (g : swglobal) (t : swthread) (n : Z) : swglobal :=
  if (cm_ts g (st_me t) =? NO_CM) && (WN_THRESHOLD <=? n)
  then SG (sg_mem g) (r_lock g) (w_lock g) (commit_ts g) (wrap64 (greedy_ts g + 1)) (sg_token g) (<[st_me t := greedy_ts g]> (cm_ts g)) (sg_aborts g) (sg_hist g) (sg_ro g)
  else g.

Definition sw_write_step (g : swglobal) (t : swthread) : option (swglobal * swthread) :=
  let x := st_tx t in
  match st_pc t with
  | SStore ((a, b) :: st) => Some (g_set_mem g (<[a := b]> (sg_mem g)), sgoto t (SStore st))
  | SStore [] => Some (g, sgoto t SIdle)
  | SWOld a =>
      let word := load_bytes (sg_mem g) (get_word_addr a) 8 in
      let sz := from_option we_type UINT64 (last (write_log x)) in
      Some (g, set_tx t (set_log x (set_old (write_log x) (old_bytes word a sz)) (write_log_index x)) (SWRead a))
  | SWRead a => Some (g, sgoto t (if valid_ts x <? r_lock g (orec_of a) then SExtLoad KWrite else SWEnd))
  | SWEnd =>
      let n := write_count x + 1 in
      Some (cm_on_write g t n, set_tx t (set_write_count x n) SIdle)
  | _ => None
  end.

(** ** Commit *)

Definition with_old (re : ReadLogEntry) (old : Z) : ReadLogEntry :=
  RLE (re_orec re) (re_addr re) (re_version re) old (re_type re).
(** [locked_orecs.find]. *)
Fixpoint locked_find (dn : list ReadLogEntry) (orec : Z) : option Z :=
  match dn with
  | [] => None
  | re :: dn' => if re_orec re =? orec then Some (re_old_version re) else locked_find dn' orec
  end.

Definition commit_stores (wl : list WriteLogEntry) : list (Z * Z) :=
  concat ((λ we, value_stores (we_addr we) (we_new we) (we_type we)) <$> wl).
Definition reads_valid (rs : list ReadLogEntry) : bool := forallb (λ re, re_old_version re =? re_version re) rs.
Definition in_log (wl : list WriteLogEntry) (orec : Z) : bool := existsb (λ we, we_orec we =? orec) wl.

(** Phases 1 to 3. *)
Definition sw_validate_step (g : swglobal) (t : swthread) : option (swglobal * swthread) :=
  let x := st_tx t in
  match st_pc t with
  | SX1 dn (re :: rem) =>
      Some (match locked_find dn (re_orec re) with
            | Some old => (g, sgoto t (SX1 (dn ++ [with_old re old]) rem))
            | None => (g_set_r g (re_orec re) READ_LOCKED, sgoto t (SX1 (dn ++ [with_old re (r_lock g (re_orec re))]) rem))
            end)
  | SX1 dn [] => Some (g, set_tx t (set_reads x dn) SFetch)
  | SFetch =>
      let ts := commit_ts g + 1 in
      let g' h := SG (sg_mem g) (r_lock g) (w_lock g) ts (greedy_ts g) (sg_token g) (cm_ts g) (sg_aborts g) h (sg_ro g) in
      if 2 ^ 63 <=? ts then None
      else if reads_valid (read_set x)
      then Some (g' (<[Z.to_nat ts := st_log t]> (sg_hist g)), sgoto t (SWb ts (commit_stores (write_log x))))
      else Some (g' (sg_hist g), sgoto t (SRest (read_set x)))
  | SRest (re :: rem) =>
      Some (if re_old_version re =? READ_LOCKED then g else g_set_r g (re_orec re) (re_old_version re), sgoto t (SRest rem))
  | SRest [] => Some (rollback g t)
  | _ => None
  end.

(** Phases 4 and 5. *)
Definition sw_release_step (g : swglobal) (t : swthread) : option (swglobal * swthread) :=
  let x := st_tx t in
  match st_pc t with
  | SWb ts ((a, b) :: st) => Some (g_set_mem g (<[a := b]> (sg_mem g)), sgoto t (SWb ts st))
  | SWb ts [] => Some (g, sgoto t (SRel ts (write_log x) []))
  | SRel ts (we :: rem) released =>
      let orec := we_orec we in
      Some (if bool_decide (orec ∈ released) then (g, sgoto t (SRel ts rem released))
            else (g_set_r g orec ts, sgoto t (SRelW ts orec rem released)))
  | SRelW ts orec rem released => Some (g_set_w g orec None, sgoto t (SRel ts rem (orec :: released)))
  | SRel ts [] _ => Some (g, sgoto t (SRelRO (read_set x)))
  | SRelRO (re :: rem) =>
      Some (if in_log (write_log x) (re_orec re) then g else g_set_r g (re_orec re) (re_version re), sgoto t (SRelRO rem))
  | SRelRO [] => Some (g, sgoto t SEnd)
  | SEnd => Some (g_set_token g (SpinToken.tm_token_release (sg_token g)), STh (st_me t) (set_flags x false (aborted x)) SIdle 1 [])
  | _ => None
  end.

Definition sw_rollback_step (g : swglobal) (t : swthread) : option (swglobal * swthread) :=
  match st_pc t with
  | SUndo ((a, b) :: st) => Some (g_set_mem g (<[a := b]> (sg_mem g)), sgoto t (SUndo st))
  | SUndo [] => Some (g, sgoto t (SUnw (owned_orecs (st_tx t))))
  | SUnw (orec :: rem) => Some (g_set_w g orec None, sgoto t (SUnw rem))
  | SUnw [] => Some (g, sgoto t SFin)
  | SFin => Some (rollback_end g t)
  | _ => None
  end.

(** [commit] up to the first atomic access. *)
Definition sw_commit_call (g : swglobal) (t : swthread) : swglobal * swthread :=
  let x := st_tx t in
  if negb (active x) then (g, STh (st_me t) x SIdle 0 (st_log t))
  else if aborted x then
    (g_set_token g (SpinToken.tm_token_release_if_held (sg_token g) (tx_id x)), STh (st_me t) (set_flags x false true) SIdle 0 (st_log t))
  else if (length (write_log x) =? 0)%nat then
    (SG (sg_mem g) (r_lock g) (w_lock g) (commit_ts g) (greedy_ts g) (SpinToken.tm_token_release_if_held (sg_token g) (tx_id x)) (cm_ts g) (sg_aborts g)
       (sg_hist g) (st_log t :: sg_ro g),
     STh (st_me t) (set_flags x false false) SIdle 1 [])
  else (g, sgoto t (SX1 [] (read_set x))).

Inductive sop := SBegin | SReadOp (sz : ValueType) (a : Z) | SWriteOp (sz : ValueType) (a v : Z) | SCommit | SAbort.

Section Steps.
Context (shared : Z → bool).

Definition swiss_call (o : sop) (g : swglobal) (t : swthread) : option (swglobal * swthread) :=
  let x := st_tx t in
  match st_pc t with
  | SIdle =>
      match o with
      | SBegin => let x' := sw_begun x (commit_ts g) in Some (cm_start g t x', STh (st_me t) x' SIdle 1 [])
      | SReadOp sz a => if access_ok a sz then Some (g, if active x && shared a then sw_read_call t sz a else sgoto t (SDirect sz a [])) else None
      | SWriteOp sz a v =>
          if access_ok a sz then
            Some (g, if active x && shared a then sw_write_call t sz a v else sgoto t (SStore (value_stores a (sw_new_value (AnyT 0) sz v) sz)))
          else None
      | SCommit => Some (sw_commit_call g t)
      | SAbort => Some (if aborted x then (g, t) else rollback g (set_tx t (set_flags x (active x) true) SIdle))
      end
  | _ => None
  end.

Definition swiss_step (g : swglobal) (t : swthread) : option (swglobal * swthread) :=
  match st_pc t with
  | SIdle => None
  | SDirect _ _ _ | SReadW _ _ | SRead1 _ _ | SRead2 _ _ _ | SBytes _ _ _ => sw_read_step g t
  | SExtLoad _ | SExtR _ _ _ | SExtW _ _ _ _ => sw_extend_step g t
  | SWLoad _ | SWSoft _ | SWSpin _ | SWReload _ | SWCm1 _ | SWCm2 _ _ | SWCas _ => sw_acquire_step g t
  | SStore _ | SWOld _ | SWRead _ | SWEnd => sw_write_step g t
  | SX1 _ _ | SFetch | SRest _ => sw_validate_step g t
  | SWb _ _ | SRel _ _ _ | SRelW _ _ _ _ | SRelRO _ | SEnd => sw_release_step g t
  | SUndo _ | SUnw _ | SFin => sw_rollback_step g t
  end.

(** ** Interleaved executions *)

(** [init], and [init_thread] for [n] threads: ids count from one. *)
Definition swthread_init (i : nat) : swthread := STh i (Tx false false (Z.of_nat i + 1) 0 0 0 [] ∅ [] []) SIdle 0 [].
Definition swiss_init (m : mem) : swglobal := SG m (λ _, 0) (λ _, None) 0 0 SpinToken.FREE (λ _, 0) 0 ∅ [].

Definition sw_reachable_all (m : mem) (n : nat) : swglobal * list swthread → Prop :=
  ix_reachable swiss_call swiss_step (swiss_init m, swthread_init <$> seq 0 n).

(** ** A discipline on calls

    Outside of it the code does not protect a transaction ([SwissSpec] has the executions):
    a transaction begins when the last one of the thread has ended; its writes repeat an
    earlier write exactly or are apart from the earlier ones; its reads lie inside an
    earlier write, or are apart from them all and of a record not read before; and every
    record it has written has been read when it commits. *)
Definition user_addr (a : Z) : bool := a <? 2 ^ 64 - 8.
Definition inside (a : Z) (sz : ValueType) (w : WriteLogEntry) : bool :=
  (we_addr w <=? a) && (a + nbytes_of sz <=? we_addr w + nbytes_of (we_type w)).

Definition swiss_allowed (o : sop) (t : swthread) : bool :=
  let x := st_tx t in
  let wl := write_log x in
  match o with
  | SBegin => negb (active x) || aborted x
  | SReadOp sz a =>
      negb (active x) || negb (shared a) ||
      (negb (aborted x) && user_addr a &&
       (existsb (inside a sz) wl ||
        (forallb (λ w, apart a sz (we_addr w) (we_type w)) wl && negb (bool_decide (orec_of a ∈ re_orec <$> read_set x)))))
  | SWriteOp sz a _ =>
      active x && negb (aborted x) && shared a && user_addr a &&
      forallb (λ w, ((we_addr w =? a) && bool_decide (we_type w = sz)) || apart a sz (we_addr w) (we_type w)) wl
  | SCommit => negb (active x) || aborted x || forallb (λ w, bool_decide (we_orec w ∈ re_orec <$> read_set x)) wl
  | SAbort => active x || aborted x
  end.

Definition swiss_call_ok (o : sop) (g : swglobal) (t : swthread) : option (swglobal * swthread) :=
  if swiss_allowed o t then swiss_call o g t else None.

Definition sw_reachable (m : mem) (n : nat) : swglobal * list swthread → Prop :=
  ix_reachable swiss_call_ok swiss_step (swiss_init m, swthread_init <$> seq 0 n).
End Steps.
