(* ===== verification/SwissLog.v ===== *)
(** * SwissTM write logs against serial execution

    What a write log denotes over a memory, and the relation [sw_log] between the log of
    events of a transaction and its write log: on any memory that holds the bytes the
    transaction took from shared memory, replaying the events succeeds and leaves the new
    values over that memory. *)

From S2P Require Import Prelude Memory Values TMSpec LogMerge TxLog AddrSet SwissTM.
#[local] Open Scope Z_scope.
#[local] Open Scope word_scope.

Implicit Types (wl : list WriteLogEntry) (w e : WriteLogEntry) (sz : ValueType).

Definition in_entry w (x : Z) : Prop := in_acc (we_addr w) (we_type w) x.
Definition entry_apart u w : Prop := apart (we_addr u) (we_type u) (we_addr w) (we_type w) = true.
Definition separate wl : Prop := ∀ i j u w, wl !! i = Some u → wl !! j = Some w → i ≠ j → entry_apart u w.

Lemma separate_in wl i j u w x : separate wl → wl !! i = Some u → wl !! j = Some w → in_entry u x → in_entry w x → i = j.
Proof.
  intros Hs Hi Hj Hu Hw. destruct (decide (i = j)) as [|Hne]; [done|]. pose proof (Hs i j u w Hi Hj Hne) as Ha. unfold entry_apart in Ha. rewrite apart_spec in Ha. by destruct (Ha x).
Qed.

(** ** The memory with a log written over it *)

Definition sw_over wl (m m' : mem) : Prop :=
  (∀ w x, w ∈ wl → in_entry w x → mget m' x = byte_at (u8 (we_new w)) (x - we_addr w)) ∧
  (∀ x, (∀ w, w ∈ wl → ¬ in_entry w x) → mget m' x = mget m x).

Lemma entry_dec wl x : (∃ w, w ∈ wl ∧ in_entry w x) ∨ (∀ w, w ∈ wl → ¬ in_entry w x).
Proof.
  induction wl as [|u wl IH]; [right; by intros w ?%elem_of_nil|].
  assert (in_entry u x ∨ ¬ in_entry u x) as [Hu|Hu] by (unfold in_entry, in_acc; lia); [left; exists u; split; [left|done]|].
  destruct IH as [(w & ? & ?)|Hn]; [left; exists w; split; [by right|done]|right]. intros w [->|?]%elem_of_cons; [done|by apply Hn].
Qed.

Lemma commit_stores_addr wl x : x ∈ (commit_stores wl).*1 ↔ ∃ w, w ∈ wl ∧ in_entry w x.
Proof.
  unfold commit_stores. induction wl as [|u wl IH]; cbn [fmap list_fmap concat]; [split; [by intros ?%elem_of_nil|by intros (? & ?%elem_of_nil & _)]|].
  rewrite fmap_app, elem_of_app, IH, value_stores_range. setoid_rewrite elem_of_cons. unfold in_entry, in_acc, nbytes_of. naive_solver.
Qed.

Lemma commit_stores_bytes wl : Forall (λ ab, is_byte ab.2) (commit_stores wl).
Proof. unfold commit_stores. induction wl as [|u wl IH]; [by apply Forall_nil_2|]. cbn [fmap list_fmap concat]. apply Forall_app. split; [apply value_stores_bytes|done]. Qed.

Lemma commit_stores_over wl m : separate wl → sw_over wl m (wr m (commit_stores wl)).
Proof.
  intros Hs. split.
  2: { intros x Hx. unfold mget. rewrite wr_lookup_ne; [done|]. intros (w & ? & ?)%commit_stores_addr. by eapply Hx. }
  revert m. induction wl as [|u wl IH]; intros m w x Hw Hx; [by apply elem_of_nil in Hw|]. unfold commit_stores. cbn [fmap list_fmap concat]. rewrite wr_app. fold (commit_stores wl).
  assert (Hs' : separate wl). { intros i j u' w' Hi Hj Hne. apply (Hs (S i) (S j)); [done|done|lia]. }
  destruct (entry_dec wl x) as [(v & Hv & Hvx)|Hn].
  - apply elem_of_cons in Hw as [->|Hw]; [|by apply IH]. apply list_elem_of_lookup in Hv as [k Hk]. by pose proof (separate_in _ 0 (S k) u v x Hs eq_refl Hk Hx Hvx).
  - apply elem_of_cons in Hw as [->|Hw]; [|by destruct (Hn w Hw)]. unfold mget. rewrite wr_lookup_ne by (intros (v & ? & ?)%commit_stores_addr; by eapply Hn).
    change (mget (write_value_to_addr m (we_addr u) (we_new u) (we_type u)) x = byte_at (u8 (we_new u)) (x - we_addr u)). rewrite write_value_mget. by rewrite decide_True.
Qed.

Lemma sw_over_stores wl m m' x : separate wl → sw_over wl m m' → mget m' x = mget (wr m (commit_stores wl)) x.
Proof.
  intros Hs [H1 H2]. destruct (commit_stores_over wl m Hs) as [S1 S2]. destruct (entry_dec wl x) as [(w & Hw & Hx)|Hn].
  - by rewrite (H1 w x), (S1 w x).
  - by rewrite H2, S2.
Qed.

(** ** Events and entries *)

Record sw_log (ext : list (Z * Z)) wl (idx : gmap Z nat) (evs : list event) : Prop := SwLog {
  sl_ok : ∀ w, w ∈ wl → access_ok (we_addr w) (we_type w) = true ∧ user_addr (we_addr w) = true;
  sl_sep : separate wl;
  sl_index : ∀ a k, idx !! a = Some k ↔ ∃ w, wl !! k = Some w ∧ we_addr w = a;
  sl_replay : ∀ m, holds m ext → ∃ m', replay m evs = Some m' ∧ sw_over wl m m';
}.

Lemma sw_log_nil ext : sw_log ext [] ∅ [].
Proof.
  split.
  - by intros w ?%elem_of_nil.
  - intros i j u w Hi. by rewrite lookup_nil in Hi.
  - intros a k. rewrite lookup_empty. setoid_rewrite lookup_nil. split; [done|by intros (? & ? & _)].
  - intros m _. exists m. split; [done|]. split; [by intros w x ?%elem_of_nil|done].
Qed.

Lemma sw_log_mono ext ext' wl idx evs : (∀ ab, ab ∈ ext → ab ∈ ext') → sw_log ext wl idx evs → sw_log ext' wl idx evs.
Proof. intros Hs [H1 H2 H3 H4]. split; try done. intros m Hm. apply H4. intros a b Hin. by apply Hm, Hs. Qed.

(** The old values do not matter. *)
Definition strip w : Z * any_type_t * ValueType := (we_addr w, we_new w, we_type w).

Lemma sw_log_strip ext wl wl' idx evs : strip <$> wl' = strip <$> wl → sw_log ext wl idx evs → sw_log ext wl' idx evs.
Proof.
  intros He [H1 H2 H3 H4].
  assert (Hto : ∀ k w', wl' !! k = Some w' → ∃ w, wl !! k = Some w ∧ strip w = strip w').
  { intros k w' Hk. assert ((strip <$> wl) !! k = Some (strip w')) as Hx by (by rewrite <- He, list_lookup_fmap, Hk). rewrite list_lookup_fmap in Hx.
    apply fmap_Some in Hx as (w & ? & ?). by exists w. }
  assert (Hfrom : ∀ k w, wl !! k = Some w → ∃ w', wl' !! k = Some w' ∧ strip w' = strip w).
  { intros k w' Hk. assert ((strip <$> wl') !! k = Some (strip w')) as Hx by (by rewrite He, list_lookup_fmap, Hk). rewrite list_lookup_fmap in Hx.
    apply fmap_Some in Hx as (w & ? & ?). by exists w. }
  split.
  - intros w' (k & Hk)%list_elem_of_lookup. destruct (Hto k w' Hk) as (w & Hw & [= <- _ <-]). apply H1. by eapply list_elem_of_lookup_2.
  - intros i j u' w' Hi Hj Hne. destruct (Hto i u' Hi) as (u & Hu & [= E1 _ E2]), (Hto j w' Hj) as (w & Hw & [= E3 _ E4]). unfold entry_apart. rewrite <- E1, <- E2, <- E3, <- E4. by apply (H2 i j).
  - intros a k. rewrite H3. split; intros (w & Hk & Ha); [destruct (Hfrom k w Hk) as (w' & ? & [= E _ _])|destruct (Hto k w Hk) as (w' & ? & [= E _ _])]; exists w'; split; congruence.
  - intros m Hm. destruct (H4 m Hm) as (m' & ? & S1 & S2). exists m'. split; [done|]. split.
    + intros w' x (k & Hk)%list_elem_of_lookup Hx. destruct (Hto k w' Hk) as (w & Hw & [= E1 E2 E3]). unfold in_entry in Hx. rewrite <- E1, <- E2 in *. apply S1; [by eapply list_elem_of_lookup_2|].
      unfold in_entry. by rewrite E3.
    + intros x Hn. apply S2. intros w (k & Hk)%list_elem_of_lookup Hx. destruct (Hfrom k w Hk) as (w' & Hw & [= E1 E2 E3]). apply (Hn w'); [by eapply list_elem_of_lookup_2|].
      unfold in_entry in *. by rewrite E1, E3.
Qed.

Lemma sw_log_old ext wl idx evs old : sw_log ext wl idx evs → sw_log ext (set_old wl old) idx evs.
Proof.
  apply sw_log_strip. apply list_eq. intros k. unfold set_old. rewrite !list_lookup_fmap. destruct (decide (k = pred (length wl))) as [->|Hne].
  - rewrite list_lookup_alter_eq. by destruct (wl !! _).
  - by rewrite list_lookup_alter_ne.
Qed.

(** ** Reads *)

Lemma sw_log_read ext wl idx evs a sz v :
  sw_log ext wl idx evs → (∀ m m', holds m ext → sw_over wl m m' → return_any_type sz (read_value_from_addr m' a sz) = v) →
  sw_log ext wl idx (evs ++ [EvR a sz v]).
Proof.
  intros [H1 H2 H3 H4] Hr. split; try done. intros m Hm. destruct (H4 m Hm) as (m' & Hm' & Hx). exists m'. split; [|done]. apply replay_snoc_read; [done|]. by eapply Hr.
Qed.

Lemma we_inside_spec a sz w : inside a sz w = true ↔ we_addr w ≤ a ∧ a + nbytes_of sz ≤ we_addr w + nbytes_of (we_type w).
Proof. unfold inside. by rewrite andb_true_iff, !Z.leb_le. Qed.

Lemma sub_value_word w a sz : inside a sz w = true → sub_value w a sz = wrap (8 * Z.of_nat (type_size sz)) (u8 (we_new w) .>> (8 * (a - we_addr w))).
Proof.
  rewrite we_inside_spec. unfold nbytes_of. intros [Ha Hs]. pose proof (type_size_range (we_type w)). pose proof (type_size_range sz). unfold sub_value, union_bytes.
  rewrite <- le_word_le_bytes. f_equal. apply list_eq_same_length with (n := type_size sz); [by rewrite length_le_bytes|rewrite length_take, length_drop, length_le_bytes; lia|].
  intros k b b' Hk. rewrite lookup_take_lt by done. rewrite lookup_drop, !le_bytes_at by lia. intros [= <-] [= <-].
  rewrite byte_at_shift by lia. f_equal. lia.
Qed.

Lemma sw_log_hit ext wl idx evs a sz w :
  sw_log ext wl idx evs → w ∈ wl → inside a sz w = true → sw_log ext wl idx (evs ++ [EvR a sz (sub_value w a sz)]).
Proof.
  intros L Hw Hin. rewrite sub_value_word by done. apply sw_log_read; [done|]. intros m m' _ [Hov _]. apply read_of_word. intros k Hk.
  rewrite we_inside_spec in Hin. unfold nbytes_of in Hin. rewrite (Hov w) by (done || (unfold in_entry, in_acc, nbytes_of; lia)). rewrite byte_at_shift by lia. f_equal. lia.
Qed.

(** A typed read of the entry itself. *)
Lemma sub_value_same w sz : return_any_type sz (we_new w) = sub_value w (we_addr w) sz.
Proof. unfold return_any_type, any_get, sub_value. by rewrite Z.sub_diag. Qed.

Lemma readable_size vt et : readable_as vt et = true → type_size vt = type_size et.
Proof. unfold readable_as. destruct vt, et; by intros ?. Qed.

Lemma inside_same w sz : (type_size sz ≤ type_size (we_type w))%nat → inside (we_addr w) sz w = true.
Proof. intros. rewrite we_inside_spec. unfold nbytes_of. lia. Qed.

Lemma sw_log_miss ext wl idx evs a sz bs :
  sw_log ext wl idx evs → (∀ w, w ∈ wl → apart a sz (we_addr w) (we_type w) = true) → length bs = type_size sz →
  (∀ k b, bs !! k = Some b → (a + Z.of_nat k, b) ∈ ext) → sw_log ext wl idx (evs ++ [EvR a sz (return_any_type sz (AnyT (le_word bs)))]).
Proof.
  intros L Hap Hlen Hext. apply sw_log_read; [done|]. intros m m' Hm [_ Hout].
  rewrite return_read. pose proof (type_size_range sz). unfold return_any_type. rewrite any_get_wrap by lia. unfold nbytes_of. cbn [u8]. do 2 f_equal.
  apply list_eq_same_length with (n := type_size sz); [done|by rewrite length_load_bytes|].
  intros k b b' Hkl Hb Hb'. rewrite load_bytes_prefix in Hb by done. injection Hb as <-. rewrite <- (Hm (a + Z.of_nat k) b') by auto.
  apply Hout. intros w Hw Hc. specialize (Hap w Hw). rewrite apart_spec in Hap. apply (Hap (a + Z.of_nat k)); [|done]. by apply nth_acc.
Qed.

(** ** Writes *)

Lemma new_value_byte base sz v i : 0 ≤ i < nbytes_of sz → byte_at (u8 (sw_new_value base sz v)) i = byte_at (wrap (8 * nbytes_of sz) v) i.
Proof.
  intros Hi. pose proof (return_fill_any_type base v sz) as Hr. fold (sw_new_value base sz v) in Hr. unfold return_any_type in Hr. pose proof (type_size_range sz).
  rewrite any_get_wrap in Hr by lia. unfold nbytes_of in *. rewrite <- Hr, byte_at_wrap by lia. done.
Qed.

(** A write that repeats an entry. *)
Lemma sw_log_update ext wl idx evs a sz v k e :
  sw_log ext wl idx evs → wl !! k = Some e → we_addr e = a → we_type e = sz →
  sw_log ext (<[k := WLE (we_addr e) (we_old e) (sw_new_value (we_new e) sz v) (we_type e)]> wl) idx (evs ++ [EvW a sz (wrap (8 * nbytes_of sz) v)]).
Proof.
  intros L Hk <- <-. set (e' := WLE _ _ _ _). pose proof L as [H1 H2 H3 H4].
  assert (Hlk : ∀ j u, <[k := e']> wl !! j = Some u → ∃ u', wl !! j = Some u' ∧ we_addr u' = we_addr u ∧ we_type u' = we_type u ∧ (j ≠ k → u' = u)).
  { intros j u Hj. apply list_lookup_insert_Some in Hj as [(-> & <- & _)|[Hne Hj]]; [by exists e|by exists u]. }
  assert (Hkl : (k < length wl)%nat) by (by eapply lookup_lt_Some). split.
  - intros u (j & Hj)%list_elem_of_lookup. destruct (Hlk j u Hj) as (u' & Hu & <- & <- & _). apply H1. by eapply list_elem_of_lookup_2.
  - intros i j u w Hi Hj Hne. destruct (Hlk i u Hi) as (u' & Hu & E1 & E2 & _), (Hlk j w Hj) as (w' & Hw & E3 & E4 & _).
    unfold entry_apart. rewrite <- E1, <- E2, <- E3, <- E4. by apply (H2 i j).
  - intros b j. rewrite H3. split; intros (u & Hj & Ha).
    + destruct (decide (j = k)) as [->|Hne]; [exists e'; rewrite list_lookup_insert_eq by done; split; [done|]; simpl; congruence|]. exists u. by rewrite list_lookup_insert_ne.
    + destruct (Hlk j u Hj) as (u' & Hu & E1 & _). exists u'. split; [done|congruence].
  - intros m Hm. destruct (H4 m Hm) as (m' & Hm' & S1 & S2). eexists. split; [by apply replay_snoc_write|]. split.
    + intros u x (j & Hj)%list_elem_of_lookup Hx. rewrite write_value_mget. apply list_lookup_insert_Some in Hj as [(-> & <- & _)|[Hne Hj]].
      * rewrite decide_True by done. cbn [u8 we_new e' we_addr]. symmetry. apply new_value_byte. unfold in_entry, in_acc in Hx. cbn in Hx. lia.
      * rewrite decide_False; [apply S1; [by eapply list_elem_of_lookup_2|done]|]. intros Hx'. apply Hne. by eapply (separate_in wl k j e u x H2).
    + intros x Hn. assert (Hne : ¬ in_entry e x) by (apply (Hn e'); by apply list_elem_of_insert). rewrite write_value_mget, decide_False by done. apply S2.
      intros u (j & Hj)%list_elem_of_lookup Hx. destruct (decide (j = k)) as [->|Hjk]; [congruence|]. apply (Hn u); [|done]. eapply (list_elem_of_lookup_2 _ j). by rewrite list_lookup_insert_ne.
Qed.

(** A write apart from the entries. *)
Lemma sw_log_push ext wl idx evs a sz v old :
  sw_log ext wl idx evs → access_ok a sz = true → user_addr a = true → (∀ w, w ∈ wl → apart a sz (we_addr w) (we_type w) = true) →
  sw_log ext (wl ++ [WLE a old (sw_new_value (AnyT 0) sz v) sz]) (<[a := length wl]> idx) (evs ++ [EvW a sz (wrap (8 * nbytes_of sz) v)]).
Proof.
  intros L Hok Hu Hap. set (e' := WLE _ _ _ _). pose proof L as [H1 H2 H3 H4].
  assert (Hlk : ∀ j u, (wl ++ [e']) !! j = Some u → (wl !! j = Some u) ∨ (j = length wl ∧ u = e')).
  { intros j u Hj. apply lookup_app_Some in Hj as [Hj|[Hge Hj]]; [by left|right]. apply list_lookup_singleton_Some in Hj as [? <-]. split; [lia|done]. }
  assert (Hne : ∀ w, w ∈ wl → we_addr w ≠ a) by (intros w Hw <-; specialize (Hap w Hw); by rewrite apart_not_self in Hap). split.
  - intros u [Hin|Hin]%elem_of_app; [by apply H1|]. apply list_elem_of_singleton in Hin as ->. done.
  - intros i j u w [Hi|[-> ->]]%Hlk [Hj|[-> ->]]%Hlk Hij; [by eapply H2| | |done]; unfold entry_apart; cbn.
    + rewrite apart_sym. apply Hap. by eapply list_elem_of_lookup_2.
    + apply Hap. by eapply list_elem_of_lookup_2.
  - intros b j. split.
    + intros [[<- <-]|[Hb Hj]]%lookup_insert_Some; [exists e'; by rewrite list_lookup_middle|]. apply H3 in Hj as (w & Hj & <-). exists w. split; [|done]. by apply lookup_app_l_Some.
    + intros (w & [Hj|[-> ->]]%Hlk & <-); [|cbn; by rewrite lookup_insert_eq]. rewrite lookup_insert_ne; [apply H3; eauto|]. intros E. apply (Hne w); [by eapply list_elem_of_lookup_2|done].
  - intros m Hm. destruct (H4 m Hm) as (m' & Hm' & S1 & S2). eexists. split; [by apply replay_snoc_write|]. split.
    + intros u x [Hin|Hin]%elem_of_app Hx; rewrite write_value_mget.
      * rewrite decide_False; [by apply S1|]. specialize (Hap u Hin). rewrite apart_spec in Hap. intros Hx'. by apply (Hap x).
      * apply list_elem_of_singleton in Hin as ->. rewrite decide_True by done. cbn [u8 we_new e' we_addr]. symmetry. apply new_value_byte. unfold in_entry, in_acc in Hx. cbn in Hx. lia.
    + intros x Hn. rewrite write_value_mget, decide_False; [|apply (Hn e'); apply elem_of_app; right; left]. apply S2. intros w Hw. apply Hn. apply elem_of_app. by left.
Qed.

(** ** Lookups *)

Lemma index_find_spec ext wl idx evs x a k e :
  sw_log ext wl idx evs → write_log x = wl → write_log_index x = idx → index_find x a = Some (k, e) → wl !! k = Some e ∧ we_addr e = a.
Proof.
  intros L Hw Hi. unfold index_find. rewrite Hi, Hw. destruct (idx !! a) as [k'|] eqn:Hk; [|done]. cbn. apply (sl_index _ _ _ _ L) in Hk as (w & Hk & Ha).
  rewrite Hk. cbn. by intros [= <- <-].
Qed.

Lemma index_find_none ext wl idx evs x a w :
  sw_log ext wl idx evs → write_log x = wl → write_log_index x = idx → index_find x a = None → w ∈ wl → we_addr w ≠ a.
Proof.
  intros L Hw Hi Hn (k & Hk)%list_elem_of_lookup Ha. assert (idx !! a = Some k) as He by (apply (sl_index _ _ _ _ L); eauto).
  unfold index_find in Hn. rewrite Hi, Hw, He in Hn. cbn in Hn. by rewrite Hk in Hn.
Qed.

(** Below the top of the address space the scan finds exactly the entries around the access. *)
Lemma covers_inside a sz w :
  access_ok a sz = true → user_addr a = true → access_ok (we_addr w) (we_type w) = true → user_addr (we_addr w) = true → covers a sz w = inside a sz w.
Proof.
  unfold user_addr, covers, inside. rewrite !access_ok_spec, !Z.ltb_lt. unfold is_w, nbytes_of. intros [? _] ? [? _] ?.
  pose proof (type_size_range sz). pose proof (type_size_range (we_type w)). unfold wrap64, wrap. by rewrite !Z.mod_small by lia.
Qed.

Lemma find_cover_spec a sz wl w : find_cover a sz wl = Some w → w ∈ wl ∧ covers a sz w = true.
Proof.
  induction wl as [|u wl IH]; cbn [find_cover]; [done|]. destruct (covers a sz u) eqn:Hc; [intros [= <-]; split; [left|done]|].
  intros [? ?]%IH. split; [by right|done].
Qed.

Lemma find_cover_none a sz wl w : find_cover a sz wl = None → w ∈ wl → covers a sz w = false.
Proof.
  induction wl as [|u wl IH]; cbn [find_cover]; [by intros _ ?%elem_of_nil|]. destruct (covers a sz u) eqn:Hc; [done|].
  intros Hn [->|?]%elem_of_cons; [done|by apply IH].
Qed.

(** The bytes of an access share the record of its address. *)
Lemma acc_orec a sz x : access_ok a sz = true → in_acc a sz x → orec_of x = orec_of a.
Proof.
  intros Hok Hx. apply access_ok_spec in Hok as [Ha Hin]. destruct (align_acc _ _ _ Ha Hin Hx) as [Hw Hal]. unfold orec_of.
  change (get_orec (align_down_8 x) = get_orec (align_down_8 a)). by rewrite Hal.
Qed.

Lemma in_log_spec wl ℓ : in_log wl ℓ = true ↔ ℓ ∈ we_orec <$> wl.
Proof.
  unfold in_log. rewrite existsb_exists, list_elem_of_fmap. setoid_rewrite Z.eqb_eq. setoid_rewrite <- list_elem_of_In.
  split; intros (w & ? & ?); exists w; done.
Qed.

Lemma commit_stores_orec ext wl idx evs x : sw_log ext wl idx evs → x ∈ (commit_stores wl).*1 → orec_of x ∈ we_orec <$> wl.
Proof.
  intros L (w & Hw & Hx)%commit_stores_addr. apply list_elem_of_fmap. exists w. split; [|done]. destruct (sl_ok _ _ _ _ L w Hw) as [Hok _]. by eapply acc_orec.
Qed.

(** A committed log explains the history entry with its reads and stores. *)
Lemma sw_log_commit ext wl idx evs m :
  sw_log ext wl idx evs → holds m ext → ∃ m', replay m evs = Some m' ∧ ∀ x, mget m' x = mget (wr m (commit_stores wl)) x.
Proof.
  intros L Hm. destruct (sl_replay _ _ _ _ L m Hm) as (m' & Hm' & Hov). exists m'. split; [done|]. intros x. apply sw_over_stores; [apply (sl_sep _ _ _ _ L)|done].
Qed.

(** ** Old values *)

(** The old value read from the word is the bytes of memory. *)
Lemma old_bytes_spec m a sz x :
  mem_ok m → access_ok a sz = true → in_acc a sz x → byte_at (u8 (old_bytes (load_bytes m (get_word_addr a) 8) a sz)) (x - a) = mget m x.
Proof.
  intros Hm [Ha Hin]%access_ok_spec Hx. pose proof (align_down_split a Ha) as Hs. pose proof (byte_offset_range a) as Ho. unfold in_word, in_acc, nbytes_of in *.
  change (a .& 7) with (byte_offset a). change (get_word_addr a) with (align_down_8 a). unfold old_bytes. change (a .& 7) with (byte_offset a). cbn [u8].
  set (bs := take _ _). assert (Hb : Forall is_byte bs) by (apply Forall_take, Forall_drop, load_bytes_ok; done).
  assert (Hk : bs !! Z.to_nat (x - a) = Some (mget m x)).
  { unfold bs. rewrite lookup_take_lt by lia. rewrite lookup_drop, load_bytes_prefix by lia. do 2 f_equal. lia. }
  pose proof (lookup_lt_Some _ _ _ Hk). pose proof (le_bytes_at (length bs) (le_word bs) (Z.to_nat (x - a))) as H'.
  rewrite le_bytes_le_word in H' by done. rewrite Hk in H'. rewrite Z2Nat.id in H' by lia. by injection (H' ltac:(done)) as <-.
Qed.

Lemma elem_mget_stores a v sz x b : (x, b) ∈ value_stores a v sz → in_acc a sz x ∧ b = byte_at (u8 v) (x - a).
Proof.
  intros Hin. assert (Hx : in_acc a sz x). { apply (value_stores_range a v sz x). apply list_elem_of_fmap. by exists (x, b). } split; [done|].
  unfold value_stores in Hin. pose proof (type_size_range sz). rewrite any_store_le in Hin by lia. revert Hin. unfold in_acc, nbytes_of in Hx.
  assert (Hg : ∀ bs c, (x, b) ∈ at_addr c bs → ∃ k, bs !! k = Some b ∧ x = c + Z.of_nat k).
  { intros bs. induction bs as [|b0 bs IH]; intros c; cbn [at_addr]; [by intros ?%elem_of_nil|]. intros [[= -> ->]|Hin]%elem_of_cons; [exists O; split; [done|lia]|].
    destruct (IH _ Hin) as (k & ? & ->). exists (S k). split; [done|lia]. }
  intros (k & Hk & ->)%Hg. pose proof (lookup_lt_Some _ _ _ Hk) as Hlt. rewrite length_le_bytes in Hlt. rewrite le_bytes_at in Hk by done. injection Hk as <-. f_equal. lia.
Qed.
