(* ===== verification/SwissRel.v ===== *)
(** * SwissTM and the versioned-lock machine: the relation

    A state of [SwissTM] corresponds to a state of [VersionedLocks] and an assignment [H] of
    read locks to the threads whose exchange took them.  A read lock shows [READ_LOCKED] or
    the version; the abstract owner of a record, which exists only during a commit that
    has written it, holds both of its locks.  The relation of a thread depends on the
    records it holds, on their versions, and on the memory under its write locks, which
    no other thread changes. *)

From stdpp Require Import functions.
From S2P Require Import Prelude Memory Values TMSpec LogMerge TxLog Interleave VersionedLocks Support SwissTM SwissLog.
#[local] Open Scope Z_scope.

(** ** Holders *)

(** The records assigned to thread [i]. *)
Definition marks (f : Z → option nat) (i : nat) (P : Z → Prop) : Prop := ∀ ℓ, f ℓ = Some i ↔ P ℓ.
Abbreviation unmarked f i := (marks f i (λ _, False)).

Lemma marks_ext f i (P Q : Z → Prop) : (∀ ℓ, P ℓ ↔ Q ℓ) → marks f i P → marks f i Q.
Proof. intros He Hm ℓ. by rewrite (Hm ℓ). Qed.

Lemma marks_same f f' i P : (∀ ℓ, f' ℓ = Some i ↔ f ℓ = Some i) → marks f i P → marks f' i P.
Proof. intros He Hm ℓ. by rewrite He. Qed.

Lemma marks_add f i P ℓ0 : marks f i P → marks (<[ℓ0 := Some i]> f) i (λ ℓ, ℓ = ℓ0 ∨ P ℓ).
Proof.
  intros Hm ℓ. destruct (decide (ℓ = ℓ0)) as [->|]; [rewrite fn_lookup_insert; naive_solver|]. rewrite fn_lookup_insert_ne by done. rewrite (Hm ℓ). naive_solver.
Qed.

Lemma marks_drop f i P ℓ0 : marks f i P → marks (<[ℓ0 := None]> f) i (λ ℓ, P ℓ ∧ ℓ ≠ ℓ0).
Proof.
  intros Hm ℓ. destruct (decide (ℓ = ℓ0)) as [->|]; [rewrite fn_lookup_insert; naive_solver|]. rewrite fn_lookup_insert_ne by done. rewrite (Hm ℓ). naive_solver.
Qed.

(** The holder of a write lock. *)
Definition whold (g : swglobal) (ℓ : Z) : option nat := fst <$> w_lock g ℓ.

Lemma whold_set g ℓ0 w ℓ : whold (g_set_w g ℓ0 w) ℓ = <[ℓ0 := fst <$> w]> (whold g) ℓ.
Proof. unfold whold. cbn [w_lock g_set_w]. destruct (decide (ℓ = ℓ0)) as [->|]; [by rewrite !fn_lookup_insert|by rewrite !fn_lookup_insert_ne]. Qed.

Section Rel.
Implicit Types (σ : lvs) (t : swthread) (g : swglobal) (H W : Z → option nat) (x : TxDescriptor).

#[local] Abbreviation lk := orec_of.

(** ** Shared state *)

Record sg_rel g σ H : Prop := SGRel {
  sr_mem : ∀ y, mget (sg_mem g) y = mget (lmem σ) y;
  sr_bytes : mem_ok (lmem σ);
  sr_clock : commit_ts g = Z.of_nat (clk σ);
  sr_max : Z.of_nat (clk σ) < 2 ^ 63;
  sr_r : ∀ ℓ, r_lock g ℓ = match H ℓ with Some _ => READ_LOCKED | None => Z.of_nat (ver σ ℓ) end;
  sr_own : ∀ ℓ j, own σ ℓ = Some j → H ℓ = Some j ∧ whold g ℓ = Some j;
  sr_hist : ∀ c, log_rel (sg_hist g !! c) (hist σ !! c);
}.

(** ** Transactions *)

Definition key (re : ReadLogEntry) : Z * Z := (re_orec re, re_version re).
Definition read_orecs x : list Z := re_orec <$> read_set x.
Definition written x : list Z := we_orec <$> write_log x.

(** A running transaction and its logs. *)
Record tx_run σ (i : nat) x (evs : list event) : Prop := TxRun {
  tr_ph : ph (thr σ i) = PActive;
  tr_lrds : lrds (thr σ i) = [];
  tr_log : sw_log (rds (thr σ i)).*1 (write_log x) (write_log_index x) evs;
  tr_reads : ∀ a val v, (a, val, v) ∈ rds (thr σ i) → (lk a, Z.of_nat v) ∈ key <$> read_set x;
  tr_nodup : NoDup (read_orecs x);
  tr_vers : ∀ re, re ∈ read_set x → re_version re ≠ READ_LOCKED;
}.

(** The old values of the entries are those in memory. *)
Definition undo_ok σ (wl : list WriteLogEntry) : Prop :=
  ∀ w y, w ∈ wl → in_entry w y → mget (lmem σ) y = byte_at (u8 (we_old w)) (y - we_addr w).

(** Outside of a commit: the write locks of the entries [held] are taken, and the old values
    of the entries [dn] recorded. *)
Record srun σ H W (i : nat) t (dn held : list WriteLogEntry) : Prop := SRun {
  ru_me : st_me t = i;
  ru_active : active (st_tx t) = true;
  ru_tx : tx_run σ i (st_tx t) (st_log t);
  ru_own : unmarked (own σ) i;
  ru_H : unmarked H i;
  ru_W : marks W i (λ ℓ, ℓ ∈ owned_orecs (st_tx t));
  ru_nodup : NoDup (owned_orecs (st_tx t));
  ru_owned : ∀ ℓ, ℓ ∈ owned_orecs (st_tx t) ↔ ℓ ∈ we_orec <$> held;
  ru_undo : undo_ok σ dn;
  ru_dn : dn ⊆ held ∧ held ⊆ write_log (st_tx t);
}.

Definition sfull σ H W i t : Prop := srun σ H W i t (write_log (st_tx t)) (write_log (st_tx t)).

(** In a write: the last entry without its lock, and with its lock but no old value. *)
Definition spend σ H W i t (a : Z) : Prop :=
  ∃ dn e, write_log (st_tx t) = dn ++ [e] ∧ we_addr e = a ∧ (lk a ∉ owned_orecs (st_tx t)) ∧ srun σ H W i t dn dn.
Definition slocked σ H W i t (a : Z) : Prop :=
  ∃ dn e, write_log (st_tx t) = dn ++ [e] ∧ we_addr e = a ∧ srun σ H W i t dn (write_log (st_tx t)).

(** A read of a record not read before, apart from the entries. *)
Definition fresh x (sz : ValueType) (a : Z) : Prop :=
  access_ok a sz = true ∧ (∀ w, w ∈ write_log x → apart a sz (we_addr w) (we_type w) = true) ∧ lk a ∉ read_orecs x.

(** A read whose record is in the read set, with the bytes taken so far. *)
Definition sreading σ H W i t (sz : ValueType) (a : Z) (bs : list Z) : Prop :=
  sfull σ H W i t ∧ access_ok a sz = true ∧ (∀ w, w ∈ write_log (st_tx t) → apart a sz (we_addr w) (we_type w) = true) ∧ (length bs < type_size sz)%nat ∧
  (∃ v, (lk a, Z.of_nat v) ∈ key <$> read_set (st_tx t) ∧ (v ≤ ver σ (lk a))%nat) ∧
  (∀ k b, bs !! k = Some b → (a + Z.of_nat k, b) ∈ (rds (thr σ i)).*1).

Definition scont σ H W i t (k : ext_cont) : Prop :=
  match k with KRead sz a => sreading σ H W i t sz a [] | KWrite => sfull σ H W i t end.

(** Between calls. *)
Definition sidle σ H W i t : Prop :=
  if active (st_tx t) && negb (aborted (st_tx t)) then sfull σ H W i t
  else st_me t = i ∧ ph (thr σ i) = PIdle ∧ unmarked (own σ) i ∧ unmarked H i ∧ unmarked W i.

(** ** Commits *)

Definition grabbed (l : list ReadLogEntry) (ℓ : Z) : Prop := ∃ re, re ∈ l ∧ re_orec re = ℓ ∧ re_old_version re ≠ READ_LOCKED.
Definition old_ok σ (l : list ReadLogEntry) : Prop :=
  ∀ re, re ∈ l → re_old_version re ≠ READ_LOCKED → re_old_version re = Z.of_nat (ver σ (re_orec re)).

(** In phase 1, with the entries [dn] exchanged. *)
Record scommit σ H W (i : nat) t (dn : list ReadLogEntry) : Prop := SCommitRel {
  sc_me : st_me t = i;
  sc_tx : tx_run σ i (st_tx t) (st_log t);
  sc_H : marks H i (grabbed dn);
  sc_own : marks (own σ) i (λ ℓ, grabbed dn ℓ ∧ ℓ ∈ written (st_tx t));
  sc_old : old_ok σ dn;
  sc_W : marks W i (λ ℓ, ℓ ∈ owned_orecs (st_tx t));
  sc_nodup : NoDup (owned_orecs (st_tx t));
  sc_owned : ∀ ℓ, ℓ ∈ owned_orecs (st_tx t) ↔ ℓ ∈ written (st_tx t);
  sc_undo : undo_ok σ (write_log (st_tx t));
  sc_read : ∀ ℓ, ℓ ∈ written (st_tx t) → ℓ ∈ read_orecs (st_tx t);
}.

(** Rolling back: the write locks and the stores to come. *)
Record sundo σ W (i : nat) t (st : list (Z * Z)) : Prop := SUndoRel {
  su_me : st_me t = i;
  su_W : marks W i (λ ℓ, ℓ ∈ owned_orecs (st_tx t));
  su_nodup : NoDup (owned_orecs (st_tx t));
  su_st : ∀ y b, (y, b) ∈ st → lk y ∈ owned_orecs (st_tx t) ∧ mget (lmem σ) y = b;
}.

Definition failed σ i : Prop := ph (thr σ i) = PActive ∨ ph (thr σ i) = PAbort.

(** After validation, with the records [rl] released. *)
Record sdone σ (i : nat) t (ts : Z) (st : list (Z * Z)) : Prop := SDone {
  sd_me : st_me t = i;
  sd_ts : 0 ≤ ts;
  sd_ph : ph (thr σ i) = PDec (Z.to_nat ts) st;
  sd_bytes : Forall (λ ab, is_byte ab.2) st;
  sd_nodup : NoDup (read_orecs (st_tx t));
  sd_read : ∀ ℓ, ℓ ∈ written (st_tx t) → ℓ ∈ read_orecs (st_tx t);
}.
Definition ro_ver σ x (l : list ReadLogEntry) : Prop :=
  ∀ re, re ∈ l → re_orec re ∉ written x → re_version re = Z.of_nat (ver σ (re_orec re)).
Definition ro_left x (l : list ReadLogEntry) (ℓ : Z) : Prop := ℓ ∈ re_orec <$> l ∧ ℓ ∉ written x.

Definition pc_rel σ H W (i : nat) t : Prop :=
  let x := st_tx t in
  match st_pc t with
  | SIdle | SDirect _ _ _ => sidle σ H W i t
  | SReadW sz a => sfull σ H W i t ∧ aborted x = false ∧ access_ok a sz = true ∧ user_addr a = true ∧ ((∃ w, w ∈ write_log x ∧ inside a sz w = true) ∨ fresh x sz a)
  | SRead1 sz a => sfull σ H W i t ∧ aborted x = false ∧ fresh x sz a
  | SRead2 sz a v => sfull σ H W i t ∧ aborted x = false ∧ fresh x sz a ∧ v ≠ READ_LOCKED ∧ ∃ k, v = Z.of_nat k ∧ (k ≤ ver σ (lk a))%nat
  | SBytes sz a bs => sreading σ H W i t sz a bs ∧ aborted x = false
  | SExtLoad k | SExtR k _ _ | SExtW k _ _ _ => scont σ H W i t k ∧ aborted x = false
  | SStore _ => False
  | SWLoad a | SWSoft a | SWSpin a | SWReload a | SWCm1 a | SWCm2 a _ | SWCas a => spend σ H W i t a ∧ aborted x = false
  | SWOld a => slocked σ H W i t a ∧ aborted x = false
  | SWRead _ | SWEnd => sfull σ H W i t ∧ aborted x = false
  | SX1 dn rem => scommit σ H W i t dn ∧ (key <$> dn) ++ (key <$> rem) = key <$> read_set x
  | SFetch => scommit σ H W i t (read_set x)
  | SRest rem =>
      sundo σ W i t (undo_stores x) ∧ ph (thr σ i) = PAbort ∧ NoDup (re_orec <$> rem) ∧ old_ok σ rem ∧
      marks H i (grabbed rem) ∧ marks (own σ) i (λ ℓ, grabbed rem ℓ ∧ ℓ ∈ written x)
  | SWb ts st =>
      sdone σ i t ts st ∧ ro_ver σ x (read_set x) ∧ marks (own σ) i (λ ℓ, ℓ ∈ written x) ∧ marks H i (λ ℓ, ℓ ∈ read_orecs x) ∧ marks W i (λ ℓ, ℓ ∈ written x)
  | SRel ts rem rl =>
      sdone σ i t ts [] ∧ ro_ver σ x (read_set x) ∧ (∃ dn, write_log x = dn ++ rem ∧ ∀ ℓ, ℓ ∈ rl ↔ ℓ ∈ we_orec <$> dn) ∧
      marks (own σ) i (λ ℓ, ℓ ∈ written x ∧ ℓ ∉ rl) ∧ marks H i (λ ℓ, ℓ ∈ read_orecs x ∧ ℓ ∉ rl) ∧ marks W i (λ ℓ, ℓ ∈ written x ∧ ℓ ∉ rl)
  | SRelW ts ℓ0 rem rl =>
      sdone σ i t ts [] ∧ ro_ver σ x (read_set x) ∧ (∃ dn e, write_log x = dn ++ e :: rem ∧ we_orec e = ℓ0 ∧ (ℓ0 ∉ rl) ∧ ∀ ℓ, ℓ ∈ rl ↔ ℓ ∈ we_orec <$> dn) ∧
      marks (own σ) i (λ ℓ, (ℓ ∈ written x ∧ ℓ ∉ rl) ∧ ℓ ≠ ℓ0) ∧ marks H i (λ ℓ, (ℓ ∈ read_orecs x ∧ ℓ ∉ rl) ∧ ℓ ≠ ℓ0) ∧ marks W i (λ ℓ, ℓ ∈ written x ∧ ℓ ∉ rl)
  | SRelRO rem =>
      st_me t = i ∧ (∃ cv, ph (thr σ i) = PDec cv []) ∧ NoDup (re_orec <$> rem) ∧ ro_ver σ x rem ∧
      unmarked (own σ) i ∧ marks H i (ro_left x rem) ∧ unmarked W i
  | SEnd => st_me t = i ∧ (∃ cv, ph (thr σ i) = PDec cv []) ∧ unmarked (own σ) i ∧ unmarked H i ∧ unmarked W i
  | SUndo st => sundo σ W i t st ∧ failed σ i ∧ unmarked (own σ) i ∧ unmarked H i
  | SUnw rem => st_me t = i ∧ failed σ i ∧ NoDup rem ∧ unmarked (own σ) i ∧ unmarked H i ∧ marks W i (λ ℓ, ℓ ∈ rem)
  | SFin => st_me t = i ∧ failed σ i ∧ unmarked (own σ) i ∧ unmarked H i ∧ unmarked W i
  end.

(** ** Stability *)

(** What the steps of other threads leave in place. *)
Record sframe (i : nat) σ H W σ' H' W' : Prop := SFrame {
  sf_lv : lv_frame i σ σ';
  sf_H : ∀ ℓ, H' ℓ = Some i ↔ H ℓ = Some i;
  sf_W : ∀ ℓ, W' ℓ = Some i ↔ W ℓ = Some i;
  sf_ver : ∀ ℓ, H ℓ = Some i → ver σ' ℓ = ver σ ℓ;
  sf_mem : ∀ y, W (lk y) = Some i → mget (lmem σ') y = mget (lmem σ) y;
}.

Section Frame.
Context (i : nat) (σ : lvs) (H W : Z → option nat) (σ' : lvs) (H' W' : Z → option nat) (F : sframe i σ H W σ' H' W').

Lemma frame_thr : thr σ' i = thr σ i.
Proof using F. exact (fr_thr _ _ _ (sf_lv _ _ _ _ _ _ _ F)). Qed.

Lemma frame_own P : marks (own σ) i P → marks (own σ') i P.
Proof using F. apply marks_same. exact (fr_own _ _ _ (sf_lv _ _ _ _ _ _ _ F)). Qed.
Lemma frame_H P : marks H i P → marks H' i P.
Proof using F. apply marks_same. exact (sf_H _ _ _ _ _ _ _ F). Qed.
Lemma frame_W P : marks W i P → marks W' i P.
Proof using F. apply marks_same. exact (sf_W _ _ _ _ _ _ _ F). Qed.

Lemma frame_tx x evs : tx_run σ i x evs → tx_run σ' i x evs.
Proof using F. intros [H1 H2 H3 H4 H5 H6]. split; rewrite ?frame_thr; done. Qed.

Lemma frame_undo (P : Z → Prop) wl : marks W i P → (∀ w y, w ∈ wl → in_entry w y → P (lk y)) → undo_ok σ wl → undo_ok σ' wl.
Proof using F. intros Hm Hp Hu w y Hw Hy. rewrite (sf_mem _ _ _ _ _ _ _ F); [by apply Hu|]. apply Hm. by eapply Hp. Qed.

Lemma entry_orec ext wl idx evs w y : sw_log ext wl idx evs → w ∈ wl → in_entry w y → lk y = we_orec w.
Proof using Type. clear F. intros L Hw Hy. destruct (sl_ok _ _ _ _ L w Hw). by eapply acc_orec. Qed.

Lemma frame_run t dn held : srun σ H W i t dn held → srun σ' H' W' i t dn held.
Proof using F.
  intros [H1 H2 H3 H4 H5 H6 H7 H8 H9 [H10 H11]]. split; try done; [by apply frame_tx|by apply frame_own|by apply frame_H|by apply frame_W|].
  eapply frame_undo; [exact H6| |done]. intros w y Hw Hy. apply H8. rewrite (entry_orec _ _ _ _ w y (tr_log _ _ _ _ H3)) by auto. apply list_elem_of_fmap. exists w. auto.
Qed.

Lemma frame_reading t sz a bs : sreading σ H W i t sz a bs → sreading σ' H' W' i t sz a bs.
Proof using F.
  intros (H1 & H2 & H3 & H4 & (v & Hv & Hle) & H5). split_and!; [by apply frame_run|done..| |by rewrite frame_thr]. exists v. split; [done|].
  pose proof (fr_ver _ _ _ (sf_lv _ _ _ _ _ _ _ F) (lk a)). lia.
Qed.

Lemma frame_cont t k : scont σ H W i t k → scont σ' H' W' i t k.
Proof using F. destruct k; [apply frame_reading|apply frame_run]. Qed.

Lemma frame_idle t : sidle σ H W i t → sidle σ' H' W' i t.
Proof using F.
  unfold sidle. destruct (_ && _); [apply frame_run|]. intros (? & ? & ? & ? & ?). split_and!; [done|by rewrite frame_thr|by apply frame_own|by apply frame_H|by apply frame_W].
Qed.

Lemma frame_old l : (∀ re, re ∈ l → re_old_version re ≠ READ_LOCKED → H (re_orec re) = Some i) → old_ok σ l → old_ok σ' l.
Proof using F. intros Hm Ho re Hre Hn. rewrite (sf_ver _ _ _ _ _ _ _ F) by auto. by apply Ho. Qed.

Lemma frame_grabbed (P : Z → Prop) l : (∀ ℓ, grabbed l ℓ → P ℓ) → marks H i P → old_ok σ l → old_ok σ' l.
Proof using F. intros Hp Hm. apply frame_old. intros re Hre Hn. apply Hm, Hp. by exists re. Qed.

Lemma frame_commit t dn : scommit σ H W i t dn → scommit σ' H' W' i t dn.
Proof using F.
  intros [H1 H3 H4 H5 H6 H7 H8 H9 H10 H11]. split; try done; [by apply frame_tx|by apply frame_H|by apply frame_own|by eapply frame_grabbed|by apply frame_W|].
  eapply frame_undo; [exact H7| |done]. intros w y Hw Hy. apply H9. rewrite (entry_orec _ _ _ _ w y (tr_log _ _ _ _ H3)) by auto. apply list_elem_of_fmap. by exists w.
Qed.

Lemma frame_sundo t st : sundo σ W i t st → sundo σ' W' i t st.
Proof using F.
  intros [H1 H3 H4 H5]. split; try done; [by apply frame_W|]. intros y b Hin. destruct (H5 y b Hin) as [Ho Hb]. split; [done|]. rewrite (sf_mem _ _ _ _ _ _ _ F); [done|]. by apply H3.
Qed.

Lemma frame_ro (P : Z → Prop) x l : marks H i P → (∀ re, re ∈ l → re_orec re ∉ written x → P (re_orec re)) → ro_ver σ x l → ro_ver σ' x l.
Proof using F. intros Hm Hp Hr re Hre Hn. rewrite (sf_ver _ _ _ _ _ _ _ F); [by apply Hr|]. apply Hm. by apply Hp. Qed.

Lemma frame_done t ts st : sdone σ i t ts st → sdone σ' i t ts st.
Proof using F. intros []. split; try done. by rewrite frame_thr. Qed.

Lemma frame_failed : failed σ i → failed σ' i.
Proof using F. unfold failed. by rewrite frame_thr. Qed.

Lemma pc_frame t : pc_rel σ H W i t → pc_rel σ' H' W' i t.
Proof using F.
  unfold pc_rel, spend, slocked, sfull. destruct (st_pc t); rewrite ?frame_thr; try (intros Hr; exact Hr).
  - apply frame_idle.
  - apply frame_idle.
  - intros [? Hr]. split; [by apply frame_run|done].
  - intros [? Hr]. split; [by apply frame_run|done].
  - intros (? & ? & ? & ? & k & ? & ?). split_and!; [by apply frame_run|done..|]. exists k. split; [done|]. pose proof (fr_ver _ _ _ (sf_lv _ _ _ _ _ _ _ F) (lk a)). lia.
  - intros [? ?]. split; [by apply frame_reading|done].
  - intros [? ?]. split; [by apply frame_cont|done].
  - intros [? ?]. split; [by apply frame_cont|done].
  - intros [? ?]. split; [by apply frame_cont|done].
  - intros [(dn & e & ? & ? & ? & ?) ?]. split; [|done]. exists dn, e. split_and!; [done..|by apply frame_run].
  - intros [(dn & e & ? & ? & ? & ?) ?]. split; [|done]. exists dn, e. split_and!; [done..|by apply frame_run].
  - intros [(dn & e & ? & ? & ? & ?) ?]. split; [|done]. exists dn, e. split_and!; [done..|by apply frame_run].
  - intros [(dn & e & ? & ? & ? & ?) ?]. split; [|done]. exists dn, e. split_and!; [done..|by apply frame_run].
  - intros [(dn & e & ? & ? & ? & ?) ?]. split; [|done]. exists dn, e. split_and!; [done..|by apply frame_run].
  - intros [(dn & e & ? & ? & ? & ?) ?]. split; [|done]. exists dn, e. split_and!; [done..|by apply frame_run].
  - intros [(dn & e & ? & ? & ? & ?) ?]. split; [|done]. exists dn, e. split_and!; [done..|by apply frame_run].
  - intros [(dn & e & ? & ? & ?) ?]. split; [|done]. exists dn, e. split_and!; [done..|by apply frame_run].
  - intros [? ?]. split; [by apply frame_run|done].
  - intros [? ?]. split; [by apply frame_run|done].
  - intros [? ?]. split; [by apply frame_commit|done].
  - apply frame_commit.
  - intros (? & ? & ? & ? & ? & ?). split_and!; [by apply frame_sundo|done|done|by eapply frame_grabbed|by apply frame_H|by apply frame_own].
  - intros (? & ? & ? & HH & ?). split_and!; [by apply frame_done| |by apply frame_own|by apply frame_H|by apply frame_W].
    eapply frame_ro; [exact HH| |done]. intros re Hre _. by apply list_elem_of_fmap_2.
  - intros (? & ? & (dn & Hdn & Hrl) & ? & HH & ?). split_and!; [by apply frame_done| |by eexists|by apply frame_own|by apply frame_H|by apply frame_W].
    eapply frame_ro; [exact HH| |done]. intros re Hre Hn. split; [by apply list_elem_of_fmap_2|]. rewrite Hrl. intros Hx. apply Hn. unfold written. rewrite Hdn, fmap_app, elem_of_app. by left.
  - intros (? & ? & (dn & e & Hdn & He & Hni & Hrl) & ? & HH & ?). split_and!; [by apply frame_done| |by exists dn, e|by apply frame_own|by apply frame_H|by apply frame_W].
    eapply frame_ro; [exact HH| |done]. intros re Hre Hn. unfold written in Hn. rewrite Hdn, fmap_app, fmap_cons, elem_of_app, elem_of_cons in Hn. rewrite Hrl, <- He.
    split; [split; [by apply list_elem_of_fmap_2|]|]; intros Hx; apply Hn; auto.
  - intros (? & ? & ? & ? & ? & HH & ?). split_and!; [done..| |by apply frame_own|by apply frame_H|by apply frame_W].
    eapply frame_ro; [exact HH| |done]. intros re Hre Hn. split; [by apply list_elem_of_fmap_2|done].
  - intros (? & ? & ? & ? & ?). split_and!; [done|done|by apply frame_own|by apply frame_H|by apply frame_W].
  - intros (? & ? & ? & ?). split_and!; [by apply frame_sundo|by apply frame_failed|by apply frame_own|by apply frame_H].
  - intros (? & ? & ? & ? & ? & ?). split_and!; [done|by apply frame_failed|done|by apply frame_own|by apply frame_H|by apply frame_W].
  - intros (? & ? & ? & ? & ?). split_and!; [done|by apply frame_failed|by apply frame_own|by apply frame_H|by apply frame_W].
Qed.
End Frame.

(** ** What a step of one thread may change *)

Record sguar (i : nat) σ H W σ' H' W' : Prop := SGuar {
  gu_H : ∀ ℓ j, j ≠ i → H' ℓ = Some j ↔ H ℓ = Some j;
  gu_W : ∀ ℓ j, j ≠ i → W' ℓ = Some j ↔ W ℓ = Some j;
  gu_ver : ∀ ℓ j, j ≠ i → H ℓ = Some j → ver σ' ℓ = ver σ ℓ;
  gu_mem : ∀ y j, j ≠ i → W (lk y) = Some j → mget (lmem σ') y = mget (lmem σ) y;
}.

Lemma guar_frame i j σ H W σ' H' W' : lv_frame j σ σ' → sguar i σ H W σ' H' W' → j ≠ i → sframe j σ H W σ' H' W'.
Proof. intros F [G1 G2 G3 G4] Hne. split; eauto. Qed.

(** Abstract states with the same versions and memory. *)
Lemma guar_same i σ H W σ' W' : ver σ' = ver σ → lmem σ' = lmem σ → (∀ ℓ, W' ℓ = W ℓ) → sguar i σ H W σ' H W'.
Proof. intros Hv Hm HW. split; intros *; rewrite ?Hv, ?Hm, ?HW; done. Qed.

(** Changing a mark that is free or one's own does not touch those of others. *)
Lemma other_mark (f : Z → option nat) i j ℓ0 o ℓ : j ≠ i → f ℓ0 = None ∨ f ℓ0 = Some i → o = None ∨ o = Some i → <[ℓ0 := o]> f ℓ = Some j ↔ f ℓ = Some j.
Proof.
  intros Hne Hf Ho. destruct (decide (ℓ = ℓ0)) as [->|]; [|by rewrite fn_lookup_insert_ne]. rewrite fn_lookup_insert. destruct Hf as [-> | ->], Ho as [-> | ->]; naive_solver.
Qed.

(** ** Steps *)

(** A step of thread [i] to [gt], matched. *)
Definition ssim (i : nat) σ H g (gt : swglobal * swthread) : Prop :=
  ∃ σ' H', rtc (lv_step orec_of i) σ σ' ∧ sg_rel gt.1 σ' H' ∧ pc_rel σ' H' (whold gt.1) i gt.2 ∧ sguar i σ H (whold g) σ' H' (whold gt.1).

(** The parts of the shared state the relation mentions. *)
Definition sg_same g g' : Prop :=
  sg_mem g' = sg_mem g ∧ r_lock g' = r_lock g ∧ w_lock g' = w_lock g ∧ commit_ts g' = commit_ts g ∧ sg_hist g' = sg_hist g.

Lemma sg_other g g' σ H : sg_same g g' → sg_rel g σ H → sg_rel g' σ H.
Proof. intros (H1 & H2 & H3 & H4 & H5) []. split; unfold whold in *; rewrite ?H1, ?H2, ?H3, ?H4, ?H5; done. Qed.

Lemma sg_upd i g σ σ' H T : upd i σ σ' T → sg_rel g σ H → sg_rel g σ' H.
Proof. intros [Um Uc Uv Uo Uh Ub _] []. split; rewrite ?Um, ?Uc, ?Uv, ?Uo, ?Uh; done. Qed.

Lemma ssim_stay i σ H g g' t : sg_rel g σ H → sg_same g g' → pc_rel σ H (whold g) i t → ssim i σ H g (g', t).
Proof.
  intros G S R. exists σ, H. pose proof S as (_ & _ & Hw & _). split_and!; [done|by eapply sg_other| |].
  - cbn. unfold whold. rewrite Hw. exact R.
  - apply guar_same; [done|done|]. intros ℓ. unfold whold. cbn. by rewrite Hw.
Qed.

Lemma sg_same_refl g : sg_same g g.
Proof. by split_and!. Qed.

Lemma ssim_upd i σ H g g' t σ' T :
  rtc (lv_step orec_of i) σ σ' → upd i σ σ' T → sg_rel g σ H → sg_same g g' → pc_rel σ' H (whold g) i t → ssim i σ H g (g', t).
Proof.
  intros Hs U G S R. exists σ', H. pose proof S as (_ & _ & Hw & _). split_and!; [done|eapply sg_other; [done|by eapply sg_upd]| |].
  - cbn. unfold whold. rewrite Hw. exact R.
  - apply guar_same; [apply (up_ver _ _ _ _ U)|apply (up_mem _ _ _ _ U)|]. intros ℓ. unfold whold. cbn. by rewrite Hw.
Qed.

(** The write locks of a thread as its relation sees them. *)
Lemma marks_whold g g' i P : (∀ ℓ, whold g' ℓ = whold g ℓ) → marks (whold g) i P → marks (whold g') i P.
Proof. intros He. apply marks_same. intros ℓ. by rewrite He. Qed.
End Rel.
