(* ===== verification/SwissSim.v ===== *)
(** * SwissTM simulates the versioned-lock machine

    Every interleaved execution of [SwissTM] under its discipline is matched by one of
    [VersionedLocks].  A commit acquires the abstract lock of a record it has written when
    its exchange takes the read lock; the validation succeeds exactly when the exchanges
    found the versions it read, and its reads are then checked at its version, because no
    other commit can hold a read lock it holds. *)

From stdpp Require Import functions.
From S2P Require Import Prelude Memory Values TMSpec LogMerge TxLog Interleave VersionedLocks Support AddrSet SwissTM SwissLog SwissRel.
#[local] Open Scope Z_scope.

Section Sim.
Context (m0 : mem).
Implicit Types (σ : lvs) (t : swthread) (g : swglobal) (H W : Z → option nat) (x : TxDescriptor).

#[local] Abbreviation lk := orec_of.
#[local] Abbreviation lv_steps i := (rtc (lv_step orec_of i)).
#[local] Abbreviation lv_inv := (lv_inv orec_of m0).

(** ** The relation of a run, when the thread's record does not matter *)

Lemma run_goto σ H W i t dn held p r : srun σ H W i t dn held → srun σ H W i (STh (st_me t) (st_tx t) p r (st_log t)) dn held.
Proof. by intros []. Qed.

Lemma run_idle σ H W i t : sfull σ H W i t → aborted (st_tx t) = false → sidle σ H W i t.
Proof. intros R Ha. unfold sidle. by rewrite (ru_active _ _ _ _ _ _ _ R), Ha. Qed.

(** A change of the transaction that leaves its logs and locks alone. *)
Lemma run_tx σ H W i t dn held x :
  active x = active (st_tx t) → write_log x = write_log (st_tx t) → write_log_index x = write_log_index (st_tx t) → owned_orecs x = owned_orecs (st_tx t) →
  read_set x = read_set (st_tx t) → srun σ H W i t dn held → ∀ p r, srun σ H W i (STh (st_me t) x p r (st_log t)) dn held.
Proof.
  intros Ha Hw Hi Ho Hr [H1 H2 [T1 T2 T3 T4 T5 T6] H4 H5 H6 H7 H8 H9 H10] p r. split; cbn [st_me st_tx st_log]; rewrite ?Ha, ?Hw, ?Ho; try done.
  split; unfold read_orecs in *; rewrite ?Hw, ?Hi, ?Hr; done.
Qed.

(** An event appended to the log. *)
Lemma run_log σ H W i t ev p r :
  sfull σ H W i t → sw_log (rds (thr σ i)).*1 (write_log (st_tx t)) (write_log_index (st_tx t)) (st_log t ++ [ev]) →
  sfull σ H W i (STh (st_me t) (st_tx t) p r (st_log t ++ [ev])).
Proof. intros [H1 H2 [T1 T2 T3 T4 T5 T6] H4 H5 H6 H7 H8 H9 H10] L. by split. Qed.

(** ** Begin, rollback and the end of a transaction *)

Lemma sfinish_sim i σ H g g' t :
  sg_rel g σ H → sg_same g g' → st_me t = i → st_pc t = SIdle → active (st_tx t) && negb (aborted (st_tx t)) = false →
  ph (thr σ i) = PIdle ∨ ph (thr σ i) = PActive ∨ ph (thr σ i) = PAbort ∨ (∃ cv, ph (thr σ i) = PDec cv []) →
  unmarked (own σ) i → unmarked H i → unmarked (whold g) i → ssim i σ H g (g', t).
Proof.
  intros G S Hme Hpc Ha Hp Ho HH HW. destruct (finish_steps orec_of i σ Ho Hp) as (σ' & T & Hs & U & HT). eapply ssim_upd; [done..|].
  unfold pc_rel, sidle. rewrite Hpc, Ha. rewrite (up_thr _ _ _ _ U), (up_own _ _ _ _ U). by split_and!.
Qed.

Lemma sbegin_sim i σ H g t :
  sg_rel g σ H → st_me t = i → ph (thr σ i) = PIdle → unmarked (own σ) i → unmarked H i → unmarked (whold g) i →
  let x' := sw_begun (st_tx t) (commit_ts g) in ssim i σ H g (cm_start g t x', STh (st_me t) x' SIdle 1 []).
Proof.
  intros G Hme Hp Ho HH HW x'. pose proof (upd_set_thr i σ (LVT PActive [] [] [])) as U. eapply ssim_upd; [|done|done| |].
  - apply rtc_once. by apply lv_begin.
  - unfold cm_start. by destruct (_ =? _).
  - unfold pc_rel, sidle. cbn. split; cbn; rewrite ?(up_own _ _ _ _ U); try done.
    + split; rewrite ?(up_thr _ _ _ _ U); cbn; try done; [apply sw_log_nil|by intros * ?%elem_of_nil|apply NoDup_nil_2|by intros ? ?%elem_of_nil].
    + apply (marks_ext _ _ (λ _, False)); [|done]. intros ℓ. by rewrite elem_of_nil.
    + apply NoDup_nil_2.
    + by intros w y ?%elem_of_nil.
Qed.

(** The stores of a rollback restore what is in memory. *)
Lemma undo_stores_elem x y b :
  (y, b) ∈ undo_stores x → ∃ w, w ∈ write_log x ∧ we_orec w ∈ owned_orecs x ∧ in_entry w y ∧ b = byte_at (u8 (we_old w)) (y - we_addr w).
Proof.
  unfold undo_stores. intros Hin. apply list_elem_of_In, in_concat in Hin as (l & Hl%list_elem_of_In & Hab%list_elem_of_In).
  apply list_elem_of_fmap in Hl as (w & -> & Hw). destruct (bool_decide (we_orec w ∈ owned_orecs x)) eqn:Hd; [|by apply elem_of_nil in Hab].
  apply bool_decide_eq_true in Hd. apply elem_mget_stores in Hab as [? ?]. by exists w.
Qed.

Lemma undo_rel σ W i t ext wl idx :
  st_me t = i → marks W i (λ ℓ, ℓ ∈ owned_orecs (st_tx t)) → NoDup (owned_orecs (st_tx t)) → sw_log ext (write_log (st_tx t)) idx (st_log t) →
  undo_ok σ wl → (∀ w, w ∈ write_log (st_tx t) → we_orec w ∈ owned_orecs (st_tx t) → w ∈ wl) → sundo σ W i t (undo_stores (st_tx t)).
Proof.
  intros Hme HW Hn L Hu Hsub. split; try done. intros y b (w & Hw & Ho & Hy & ->)%undo_stores_elem. rewrite (entry_orec _ _ _ _ w y L) by done. split; [done|]. apply Hu; auto.
Qed.

Lemma rollback_run_sim i σ H g t dn held :
  sg_rel g σ H → srun σ H (whold g) i t dn held → (∀ w, w ∈ write_log (st_tx t) → we_orec w ∈ owned_orecs (st_tx t) → w ∈ dn) → ssim i σ H g (rollback g t).
Proof.
  intros G [H1 H2 H3 H4 H5 H6 H7 H8 H9 H10] Hsub. apply ssim_stay; [done|apply sg_same_refl|]. split_and!; [|by left; apply (tr_ph _ _ _ _ H3)|done|done].
  destruct (undo_rel σ (whold g) i t _ dn _ H1 H6 H7 (tr_log _ _ _ _ H3) H9 Hsub). by split.
Qed.

Lemma rollback_full_sim i σ H g t : sg_rel g σ H → sfull σ H (whold g) i t → ssim i σ H g (rollback g t).
Proof. intros G R. eapply rollback_run_sim; [done|exact R|done]. Qed.

Lemma rollback_pend_sim i σ H g t a : sg_rel g σ H → spend σ H (whold g) i t a → ssim i σ H g (rollback g t).
Proof.
  intros G (dn & e & Hw & He & Hno & R). eapply rollback_run_sim; [done|exact R|]. intros w. rewrite Hw. intros [?|Hin]%elem_of_app Ho; [done|].
  apply list_elem_of_singleton in Hin as ->. unfold we_orec in Ho. by rewrite He in Ho.
Qed.

Lemma cont_full σ H W i t k : scont σ H W i t k → sfull σ H W i t.
Proof. destruct k; [by intros [? _]|done]. Qed.

Lemma set_mem_same g y b H σ : sg_rel g σ H → mget (lmem σ) y = b → sg_rel (g_set_mem g (<[y := b]> (sg_mem g))) σ H.
Proof.
  intros [G1 G2 G3 G4 G5 G6 G7] Hb. split; try done. intros z. cbn. unfold mget at 1. destruct (decide (z = y)) as [->|]; [by rewrite lookup_insert_eq|].
  rewrite lookup_insert_ne by done. apply G1.
Qed.

Lemma set_w_sim i σ H g t ℓ :
  sg_rel g σ H → whold g ℓ = Some i → own σ ℓ ≠ Some i → pc_rel σ H (<[ℓ := None]> (whold g)) i t → ssim i σ H g (g_set_w g ℓ None, t).
Proof.
  intros G Hw Ho R. assert (He : ∀ ℓ', whold (g_set_w g ℓ None) ℓ' = <[ℓ := None]> (whold g) ℓ') by (intros; apply whold_set).
  exists σ, H. cbn [fst snd]. split_and!; [done| | |].
  - destruct G as [G1 G2 G3 G4 G5 G6 G7]. split; try done. intros ℓ' j Hj. rewrite He. destruct (G6 ℓ' j Hj) as [? Hwj]. split; [done|].
    rewrite fn_lookup_insert_ne; [done|]. intros <-. congruence.
  - eapply (pc_frame i σ H (<[ℓ := None]> (whold g))); [|exact R]. split; try done. intros ℓ'. by rewrite He.
  - split; try done. intros ℓ' j Hne. rewrite He. apply (other_mark _ i); [done|by right|by left].
Qed.

Lemma sw_rollback_sim i σ H g t g' t' :
  sg_rel g σ H → pc_rel σ H (whold g) i t → sw_rollback_step g t = Some (g', t') → ssim i σ H g (g', t').
Proof.
  intros G R Hs. unfold sw_rollback_step in Hs. unfold pc_rel in R. destruct (st_pc t) as [| | | | | | | | | | | | | | | | | | | | | | | | | | | |[|[a b] st]|[|ℓ rem]|] eqn:Hpc; try done;
    apply (inj Some) in Hs; rewrite <- Hs.
  - destruct R as ([H1 H2 H3 H4] & H5 & H6 & H7). apply ssim_stay; [done|apply sg_same_refl|]. by split_and!.
  - destruct R as ([H1 H2 H3 H4] & H5 & H6 & H7). destruct (H4 a b) as [Ho Hb]; [left|]. exists σ, H. cbn [fst snd]. split_and!; [done|by apply set_mem_same| |by apply guar_same].
    split_and!; try done. split; try done. intros y c Hin. apply H4. by right.
  - destruct R as (H1 & H2 & H3 & H4 & H5 & H6). apply ssim_stay; [done|apply sg_same_refl|]. split_and!; try done. eapply marks_ext; [|exact H6]. intros ℓ. by rewrite elem_of_nil.
  - destruct R as (H1 & H2 & H3 & H4 & H5 & H6). apply NoDup_cons in H3 as [Hn H3]. apply set_w_sim; [done|apply H6; left|intros Ho; by apply (H4 ℓ)|].
    split_and!; try done. eapply marks_ext; [|by apply marks_drop]. intros ℓ'. cbn. rewrite elem_of_cons. split; [intros [[->|?] ?]; done|]. intros Hin. split; [by right|]. intros ->. done.
  - destruct R as (H1 & H2 & H3 & H4 & H5). unfold rollback_end. apply sfinish_sim; [done|by split_and!|done|done|cbn; apply andb_false_r| |done|done|done].
    unfold failed in H2. tauto.
Qed.

(** ** Reads *)

Lemma lock_entry_spec t w sz a e : lock_entry t w sz a = Some e → e ∈ write_log (st_tx t) ∧ we_addr e = a ∧ readable_as sz (we_type e) = true.
Proof.
  unfold lock_entry. destruct (is_locked_by w t); [|done]. destruct w as [[j k]|]; [|done]. cbn. destruct (write_log (st_tx t) !! k) as [e'|] eqn:Hk; [|done]. cbn.
  destruct (_ && _) eqn:Hc; [|done]. intros [= <-]. apply andb_true_iff in Hc as [?%Z.eqb_eq ?]. split; [by eapply list_elem_of_lookup_2|done].
Qed.

Lemma sread_hit σ H W i t w sz a :
  sfull σ H W i t → aborted (st_tx t) = false → w ∈ write_log (st_tx t) → inside a sz w = true → pc_rel σ H W i (sread_done t sz a (sub_value w a sz)).
Proof.
  intros R Ha Hw Hin. apply run_idle; [|done]. apply run_log; [done|]. apply sw_log_hit; [|done|done]. apply (tr_log _ _ _ _ (ru_tx _ _ _ _ _ _ _ R)).
Qed.

Lemma sread_hit_same σ H W i t w sz a :
  sfull σ H W i t → aborted (st_tx t) = false → w ∈ write_log (st_tx t) → we_addr w = a → readable_as sz (we_type w) = true →
  pc_rel σ H W i (sread_done t sz a (return_any_type sz (we_new w))).
Proof.
  intros R Ha Hw <- Hr. rewrite sub_value_same. apply sread_hit; [done|done|done|]. apply inside_same. rewrite (readable_size _ _ Hr). done.
Qed.

Lemma apart_not_inside a sz w : apart a sz (we_addr w) (we_type w) = true → inside a sz w = false.
Proof.
  unfold apart, inside, nbytes_of. pose proof (type_size_range sz). pose proof (type_size_range (we_type w)). intros [?%Z.leb_le|?%Z.leb_le]%orb_true_iff; apply not_true_iff_false; rewrite andb_true_iff, !Z.leb_le; lia.
Qed.

Lemma readw_sim i σ H g t sz a :
  sg_rel g σ H → st_pc t = SReadW sz a → pc_rel σ H (whold g) i t →
  ssim i σ H g (g, match lock_entry t (w_lock g (orec_of a)) sz a with
                   | Some e => sread_done t sz a (return_any_type sz (we_new e))
                   | None =>
                       match find_cover a sz (write_log (st_tx t)) with
                       | Some w => sread_done t sz a (sub_value w a sz)
                       | None => sgoto t (SRead1 sz a)
                       end
                   end).
Proof.
  intros G Hpc R. unfold pc_rel in R. rewrite Hpc in R. destruct R as (R & Ha & Hok & Hu & Hcase). apply ssim_stay; [done|apply sg_same_refl|].
  pose proof (tr_log _ _ _ _ (ru_tx _ _ _ _ _ _ _ R)) as L.
  destruct (lock_entry _ _ _ _) as [e|] eqn:He; [apply lock_entry_spec in He as (? & ? & ?); by apply sread_hit_same|].
  destruct (find_cover _ _ _) as [w|] eqn:Hf.
  - apply find_cover_spec in Hf as [Hw Hc]. destruct (sl_ok _ _ _ _ L w Hw). rewrite covers_inside in Hc by done. by apply sread_hit.
  - split_and!; [by apply run_goto|done|]. destruct Hcase as [(w & Hw & Hin)|?]; [|done]. pose proof (find_cover_none _ _ _ w Hf Hw) as Hc. destruct (sl_ok _ _ _ _ L w Hw).
    rewrite covers_inside in Hc by done. congruence.
Qed.

Lemma locked_max k : Z.of_nat k < 2 ^ 63 → Z.of_nat k ≠ READ_LOCKED.
Proof. unfold READ_LOCKED. lia. Qed.

Lemma ver_max g σ H ℓ : lv_inv σ → sg_rel g σ H → Z.of_nat (ver σ ℓ) < 2 ^ 63.
Proof. intros I G. pose proof (iv_ver _ _ σ I ℓ). pose proof (sr_max g σ H G). lia. Qed.

Lemma read1_sim i σ H g t sz a :
  lv_inv σ → sg_rel g σ H → st_pc t = SRead1 sz a → pc_rel σ H (whold g) i t →
  ssim i σ H g (g, if r_lock g (orec_of a) =? READ_LOCKED then t else sgoto t (SRead2 sz a (r_lock g (orec_of a)))).
Proof.
  intros I G Hpc R. pose proof R as R0. unfold pc_rel in R. rewrite Hpc in R. destruct R as (R & Ha & Hf). apply ssim_stay; [done|apply sg_same_refl|].
  destruct (Z.eqb_spec (r_lock g (lk a)) READ_LOCKED) as [|Hne]; [done|]. split_and!; [by apply run_goto|done|done|done|].
  exists (ver σ (lk a)). split; [|done]. rewrite (sr_r g σ H G) in *. by destruct (H (lk a)).
Qed.

(** The read entry pushed. *)
Lemma push_run σ H W i t sz a v p :
  sfull σ H W i t → fresh (st_tx t) sz a → v ≠ READ_LOCKED → sfull σ H W i (set_tx t (push_read (st_tx t) sz a v) p).
Proof.
  intros [H1 H2 [T1 T2 T3 T4 T5 T6] H4 H5 H6 H7 H8 H9 H10] (_ & _ & Hf) Hv. split; try done. cbn [set_tx st_tx st_log push_read set_reads]. split; try done; unfold read_orecs; cbn [read_set push_read set_reads].
  - intros b val v' Hin. rewrite fmap_app, elem_of_app. left. by eapply T4.
  - rewrite fmap_app. apply NoDup_app. split_and!; [done| |apply NoDup_singleton]. intros ℓ Hin Hs. apply list_elem_of_singleton in Hs as ->. done.
  - intros re [?|Hin]%elem_of_app; [by apply T6|]. by apply list_elem_of_singleton in Hin as ->.
Qed.

Lemma read2_sim i σ H g t sz a v :
  sg_rel g σ H → st_pc t = SRead2 sz a v → pc_rel σ H (whold g) i t →
  let x := st_tx t in
  ssim i σ H g (g, if v =? r_lock g (orec_of a)
                   then set_tx t (push_read x sz a v) (if valid_ts x <? v then SExtLoad (KRead sz a) else SBytes sz a [])
                   else sgoto t (SRead1 sz a)).
Proof.
  intros G Hpc R x. unfold pc_rel in R. rewrite Hpc in R. destruct R as (R & Ha & Hf & Hv & k & -> & Hle). apply ssim_stay; [done|apply sg_same_refl|].
  destruct (_ =? _); [|split_and!; [by apply run_goto|done|done]].
  assert (HR : ∀ p, sreading σ H (whold g) i (set_tx t (push_read x sz a (Z.of_nat k)) p) sz a []).
  { intros p. pose proof Hf as (Hok & Hap & _). pose proof (type_size_range sz). split_and!; [by apply push_run|done|done|cbn; lia| |intros j b Hb; by rewrite lookup_nil in Hb].
    exists k. split; [|done]. change (read_set (st_tx (set_tx t (push_read x sz a (Z.of_nat k)) p))) with (read_set x ++ [RLE (orec_of a) a (Z.of_nat k) 0 sz]). rewrite fmap_app, elem_of_app. right. left. }
  unfold pc_rel. destruct (_ <? _); cbn [st_pc set_tx]; (split; [apply HR|done]).
Qed.

Lemma bytes_sim i σ H g t sz a bs :
  sg_rel g σ H → st_pc t = SBytes sz a bs → pc_rel σ H (whold g) i t →
  let bs' := bs ++ [mget (sg_mem g) (a + Z.of_nat (length bs))] in
  ssim i σ H g (g, if (type_size sz <=? length bs')%nat then sread_done t sz a (return_any_type sz (AnyT (le_word bs'))) else sgoto t (SBytes sz a bs')).
Proof.
  intros G Hpc R bs'. unfold pc_rel in R. rewrite Hpc in R. destruct R as [(R & Hok & Hap & Hlen & (v & Hv & Hle) & Hbs) Ha].
  set (b := a + Z.of_nat (length bs)) in *. assert (Hb : in_acc a sz b) by (by apply nth_acc). pose proof (acc_orec a sz b Hok Hb) as Hlk.
  pose proof R as [H1 H2 [T1 T2 T3 T4 T5 T6] H4 H5 H6 H7 H8 H9 H10].
  set (T := LVT PActive ((b, mget (lmem σ) b, v) :: rds (thr σ i)) (lrds (thr σ i)) (fixd (thr σ i))). pose proof (upd_set_thr i σ T) as U.
  assert (R' : sfull (set_thr σ i T) H (whold g) i t).
  { split; try done. split; rewrite ?(up_thr _ _ _ _ U); cbn [T ph rds lrds]; try done.
    - eapply sw_log_mono; [|done]. intros ab ?. rewrite fmap_cons. by right.
    - intros c val v' [[= -> -> ->]|Hin]%elem_of_cons; [by rewrite Hlk|by eapply T4]. }
  assert (Hbs' : ∀ k c, bs' !! k = Some c → (a + Z.of_nat k, c) ∈ (rds (thr (set_thr σ i T) i)).*1).
  { intros k c Hk. rewrite (up_thr _ _ _ _ U). cbn [T rds]. rewrite fmap_cons. apply lookup_app_Some in Hk as [Hk|[Hge Hk]]; [right; by apply Hbs|].
    apply list_lookup_singleton_Some in Hk as [Hk <-]. assert (k = length bs) as -> by lia. rewrite (sr_mem g σ H G). left. }
  assert (length bs' = S (length bs)) as Hlen' by (unfold bs'; rewrite length_app; simpl; lia).
  eapply ssim_upd; [|done|done|apply sg_same_refl|].
  - apply rtc_once. pose proof (lv_load orec_of i σ b v (thr σ i) eq_refl T1) as Hs. rewrite T1 in Hs. apply Hs. by rewrite Hlk.
  - destruct (Nat.leb_spec (type_size sz) (length bs')) as [Hfull|Hpart].
    + apply run_idle; [|done]. apply run_log; [done|]. apply sw_log_miss; [|done|lia|done]. apply (tr_log _ _ _ _ (ru_tx _ _ _ _ _ _ _ R')).
    + split; [|done]. split_and!; [by apply run_goto|done|done|done|by exists v|done].
Qed.

Lemma direct_sim i σ H g t p r :
  sg_rel g σ H → sidle σ H (whold g) i t → (p = SIdle ∨ ∃ sz a bs, p = SDirect sz a bs) → ssim i σ H g (g, STh (st_me t) (st_tx t) p r (st_log t)).
Proof.
  intros G R Hp. apply ssim_stay; [done|apply sg_same_refl|]. assert (sidle σ H (whold g) i (STh (st_me t) (st_tx t) p r (st_log t))) as R'.
  { unfold sidle in *. cbn. destruct (_ && _); [by apply run_goto|done]. }
  destruct Hp as [->|(sz & a & bs & ->)]; exact R'.
Qed.

Lemma sw_read_sim i σ H g t g' t' :
  lv_inv σ → sg_rel g σ H → pc_rel σ H (whold g) i t → sw_read_step g t = Some (g', t') → ssim i σ H g (g', t').
Proof.
  intros I G R Hs. unfold sw_read_step in Hs.
  destruct (st_pc t) as [|sz a bs|sz a|sz a|sz a v|sz a bs| | | | | | | | | | | | | | | | | | | | | | | | |] eqn:Hpc; try done; apply (inj Some) in Hs; rewrite <- Hs.
  - unfold pc_rel in R. rewrite Hpc in R. destruct (_ <=? _)%nat; (apply direct_sim; [done|done|]); [by left|right; by eauto].
  - by apply readw_sim.
  - by apply read1_sim.
  - by apply read2_sim.
  - by apply bytes_sim.
Qed.

(** ** Extension *)

Lemma cont_tx σ H W i t k x p :
  active x = active (st_tx t) → write_log x = write_log (st_tx t) → write_log_index x = write_log_index (st_tx t) → owned_orecs x = owned_orecs (st_tx t) →
  read_set x = read_set (st_tx t) → scont σ H W i t k → scont σ H W i (set_tx t x p) k.
Proof.
  intros Ha Hw Hi Ho Hr. destruct k as [sz a|]; cbn [scont].
  - intros (R & H1 & H2 & H3 & H4 & H5). split_and!; [|done|..]; cbn [set_tx st_tx]; rewrite ?Hw, ?Hr; try done. unfold sfull. cbn [set_tx st_tx]. rewrite Hw. by apply run_tx.
  - intros R. unfold sfull. cbn [set_tx st_tx]. rewrite Hw. by apply run_tx.
Qed.

Lemma sw_extend_sim i σ H g t g' t' :
  sg_rel g σ H → pc_rel σ H (whold g) i t → sw_extend_step g t = Some (g', t') → ssim i σ H g (g', t').
Proof.
  intros G R Hs. unfold sw_extend_step in Hs. unfold pc_rel in R.
  destruct (st_pc t) as [| | | | | |k|k ts [|re rem]|k ts re rem| | | | | | | | | | | | | | | | | | | | | |] eqn:Hpc; try done; apply (inj Some) in Hs; rewrite <- Hs; destruct R as [R Ha].
  - apply ssim_stay; [done|apply sg_same_refl|]. split; [|done]. by apply cont_tx.
  - apply ssim_stay; [done|apply sg_same_refl|]. assert (∀ p, scont σ H (whold g) i (set_tx t (set_valid_ts (st_tx t) ts) p) k) as HR by (intros; by apply cont_tx).
    destruct k; (split; [apply HR|done]).
  - apply ssim_stay; [done|apply sg_same_refl|]. destruct (_ =? _); (split; [by apply cont_tx|done]).
  - destruct (is_locked_by _ _); [|apply rollback_full_sim; [done|by eapply cont_full]]. apply ssim_stay; [done|apply sg_same_refl|]. split; [by apply cont_tx|done].
Qed.

(** ** Writes *)

Lemma pend_goto σ H W i t a p : spend σ H W i t a → spend σ H W i (sgoto t p) a.
Proof. intros (dn & e & ? & ? & ? & R). exists dn, e. split_and!; try done. by apply run_goto. Qed.

Lemma scas_sim i σ H g t a k :
  sg_rel g σ H → spend σ H (whold g) i t a → aborted (st_tx t) = false → w_lock g (lk a) = None →
  ssim i σ H g (g_set_w g (lk a) (Some (st_me t, k)), set_tx t (add_owned (st_tx t) (lk a)) (SWOld a)).
Proof.
  intros G (dn & e & Hw & He & Hno & [H1 H2 [T1 T2 T3 T4 T5 T6] H4 H5 H6 H7 H8 H9 [H10 H11]]) Ha Hfree.
  assert (Hwn : whold g (lk a) = None) by (unfold whold; by rewrite Hfree).
  assert (HE : ∀ ℓ, whold (g_set_w g (lk a) (Some (st_me t, k))) ℓ = <[lk a := Some i]> (whold g) ℓ) by (intros; rewrite whold_set; cbn; by rewrite H1).
  exists σ, H. cbn [fst snd]. split_and!; [done| | |].
  - destruct G as [G1 G2 G3 G4 G5 G6 G7]. split; try done. intros ℓ j Hj. rewrite HE. destruct (G6 ℓ j Hj) as [? Hwj]. split; [done|].
    rewrite fn_lookup_insert_ne; [done|]. intros <-. congruence.
  - split; [|done]. exists dn, e. split_and!; [done..|]. split; try done.
    + eapply marks_same; [intros ℓ; by rewrite HE|]. eapply marks_ext; [|by apply marks_add]. intros ℓ. cbn. by rewrite elem_of_cons.
    + cbn. by apply NoDup_cons.
    + intros ℓ. cbn [set_tx st_tx add_owned owned_orecs write_log]. rewrite Hw, fmap_app, elem_of_app, elem_of_cons, H8. cbn. rewrite list_elem_of_singleton. assert (we_orec e = lk a) as -> by (unfold we_orec; by rewrite He). tauto.
  - split; try done. intros ℓ j Hne. rewrite HE. apply (other_mark _ i); [done|by left|by right].
Qed.

Lemma sw_acquire_sim i σ H g t g' t' :
  sg_rel g σ H → pc_rel σ H (whold g) i t → sw_acquire_step g t = Some (g', t') → ssim i σ H g (g', t').
Proof.
  intros G R Hs. pose proof R as R0. unfold sw_acquire_step, cm_should_abort in Hs. unfold pc_rel in R.
  destruct (st_pc t) as [| | | | | | | | | |a|a|a|a|a|a j|a| | | | | | | | | | | | | |] eqn:Hpc; try done; destruct R as [R Ha].
  1, 3, 4, 5, 6, 7: apply (inj Some) in Hs; rewrite <- Hs.
  - destruct (is_locked_by (w_lock g (lk a)) t) eqn:Hl.
    + exfalso. destruct R as (dn & e & _ & _ & Hno & R). unfold is_locked_by in Hl. destruct (w_lock g (lk a)) as [[j k]|] eqn:Hw; [|done]. apply andb_true_iff in Hl as [Hj%Nat.eqb_eq _].
      apply Hno, (ru_W _ _ _ _ _ _ _ R). unfold whold. rewrite Hw. cbn. f_equal. by rewrite Hj, (ru_me _ _ _ _ _ _ _ R).
    + apply ssim_stay; [done|apply sg_same_refl|]. unfold acquire_loop. destruct (w_lock g (lk a)); (split; [by apply pend_goto|done]).
  - apply ssim_stay; [done|apply sg_same_refl|]. destruct (w_lock g (lk a)); [done|]. split; [by apply pend_goto|done].
  - apply ssim_stay; [done|apply sg_same_refl|]. unfold acquire_loop. destruct (w_lock g (lk a)); (split; [by apply pend_goto|done]).
  - apply ssim_stay; [done|apply sg_same_refl|]. destruct (w_lock g (lk a)) as [[j k]|]; (split; [by apply pend_goto|done]).
  - destruct (_ <? _); [by eapply rollback_pend_sim|]. apply ssim_stay; [done|apply sg_same_refl|]. split; [by apply pend_goto|done].
  - destruct (w_lock g (lk a)) eqn:Hw; [|by apply scas_sim]. apply ssim_stay; [done|apply sg_same_refl|]. split; [by apply pend_goto|done].
  - destruct (SpinToken.tm_token_soft_spin _ _ _ _) as [spin tok]. apply (inj Some) in Hs. rewrite <- Hs. destruct spin; [|destruct (_ =? _); [by eapply rollback_pend_sim|]].
    + apply ssim_stay; [done|by split_and!|]. split; [by apply pend_goto|done].
    + apply ssim_stay; [done|apply sg_same_refl|]. split; [by apply pend_goto|done].
Qed.

Lemma set_old_snoc dn e old : set_old (dn ++ [e]) old = dn ++ [WLE (we_addr e) old (we_new e) (we_type e)].
Proof. unfold set_old. rewrite length_app, Nat.add_1_r. cbn [pred]. replace (length dn) with (length dn + 0)%nat by lia. by rewrite alter_app_r. Qed.

Lemma old_sim i σ H g t a :
  sg_rel g σ H → slocked σ H (whold g) i t a → aborted (st_tx t) = false →
  let x := st_tx t in
  let word := load_bytes (sg_mem g) (get_word_addr a) 8 in
  let sz := from_option we_type UINT64 (last (write_log x)) in
  ssim i σ H g (g, set_tx t (set_log x (set_old (write_log x) (old_bytes word a sz)) (write_log_index x)) (SWRead a)).
Proof.
  intros G (dn & e & Hw & He & [H1 H2 [T1 T2 T3 T4 T5 T6] H4 H5 H6 H7 H8 H9 [H10 H11]]) Ha x word sz. apply ssim_stay; [done|apply sg_same_refl|]. split; [|done].
  assert (Hword : word = load_bytes (lmem σ) (get_word_addr a) 8) by (apply load_bytes_mget; intros; apply (sr_mem g σ H G)).
  assert (Hsz : sz = we_type e) by (unfold sz, x; by rewrite Hw, last_snoc). clearbody word sz. set (old := old_bytes word a sz).
  assert (Hwl : set_old (write_log x) old = dn ++ [WLE (we_addr e) old (we_new e) (we_type e)]) by (unfold x; by rewrite Hw, set_old_snoc).
  assert (Hst : strip <$> set_old (write_log x) old = strip <$> write_log x) by (rewrite Hwl; unfold x; rewrite Hw, !fmap_app; done).
  assert (Hor : we_orec <$> set_old (write_log x) old = we_orec <$> write_log x) by (rewrite Hwl; unfold x; rewrite Hw, !fmap_app; done).
  split; cbn [set_tx st_tx set_log write_log st_me st_log active owned_orecs]; try done.
  - split; cbn [write_log write_log_index read_set]; try done. by eapply sw_log_strip.
  - intros ℓ. rewrite Hor. apply H8.
  - rewrite Hwl. intros w y [Hin|Hin]%elem_of_app Hy; [by apply H9|]. apply list_elem_of_singleton in Hin as ->. cbn. rewrite He. unfold old. rewrite Hsz, Hword.
    symmetry. destruct (sl_ok _ _ _ _ T3 e) as [Hok _]; [rewrite Hw; apply elem_of_app; right; left|]. rewrite He in Hok. apply old_bytes_spec; [apply (sr_bytes g σ H G)|done|].
    unfold in_entry in Hy. cbn in Hy. by rewrite He in Hy.
Qed.

Lemma sw_write_sim i σ H g t g' t' :
  sg_rel g σ H → pc_rel σ H (whold g) i t → sw_write_step g t = Some (g', t') → ssim i σ H g (g', t').
Proof.
  intros G R Hs. unfold sw_write_step in Hs. unfold pc_rel in R.
  destruct (st_pc t) as [| | | | | | | | |st| | | | | | | |a|a| | | | | | | | | | | |] eqn:Hpc; try done; apply (inj Some) in Hs; rewrite <- Hs; destruct R as [R Ha].
  - by apply old_sim.
  - apply ssim_stay; [done|apply sg_same_refl|]. destruct (_ <? _); (split; [by apply run_goto|done]).
  - assert (sidle σ H (whold g) i (set_tx t (set_write_count (st_tx t) (write_count (st_tx t) + 1)) SIdle)) as R' by (apply run_idle; [by apply run_tx|done]).
    apply ssim_stay; [done| |exact R']. unfold cm_on_write. by destruct (_ && _).
Qed.

(** ** The calls of reads and writes *)

Lemma read_call_sim i σ H g t sz a :
  sg_rel g σ H → sfull σ H (whold g) i t → aborted (st_tx t) = false → access_ok a sz = true → user_addr a = true →
  (∃ w, w ∈ write_log (st_tx t) ∧ inside a sz w = true) ∨ fresh (st_tx t) sz a → ssim i σ H g (g, sw_read_call t sz a).
Proof.
  intros G R Ha Hok Hu Hc. apply ssim_stay; [done|apply sg_same_refl|]. pose proof (tr_log _ _ _ _ (ru_tx _ _ _ _ _ _ _ R)) as L.
  assert (pc_rel σ H (whold g) i (sgoto t (SReadW sz a))) as Rw by (split_and!; [by apply run_goto|done..]). unfold sw_read_call.
  destruct (index_find (st_tx t) a) as [[k e]|] eqn:Hf; [|exact Rw]. destruct (readable_as sz (we_type e)) eqn:Hr; [|exact Rw].
  destruct (index_find_spec _ _ _ _ _ _ _ _ L eq_refl eq_refl Hf) as [Hk He]. apply sread_hit_same; [done|done|by eapply list_elem_of_lookup_2|done|done].
Qed.

Lemma update_run σ H W i t k e sz v p :
  sfull σ H W i t → write_log (st_tx t) !! k = Some e → we_type e = sz →
  let e' := WLE (we_addr e) (we_old e) (sw_new_value (we_new e) sz v) (we_type e) in
  sfull σ H W i (STh (st_me t) (set_log (st_tx t) (<[k := e']> (write_log (st_tx t))) (write_log_index (st_tx t))) p (st_ret t)
                   (st_log t ++ [EvW (we_addr e) sz (wrap (8 * nbytes_of sz) v)])).
Proof.
  intros [H1 H2 [T1 T2 T3 T4 T5 T6] H4 H5 H6 H7 H8 H9 H10] Hk Ht e'. set (wl := write_log (st_tx t)) in *.
  assert (Hor : we_orec <$> <[k := e']> wl = we_orec <$> wl). { rewrite list_fmap_insert. apply list_insert_id. by rewrite list_lookup_fmap, Hk. }
  split; cbn [st_tx set_log write_log st_me st_log active owned_orecs]; try done.
  - split; cbn [write_log write_log_index read_set set_log]; try done. by apply sw_log_update.
  - intros ℓ. rewrite Hor. apply H8.
  - intros w y (j & Hj)%list_elem_of_lookup Hy. apply list_lookup_insert_Some in Hj as [(-> & <- & _)|[_ Hj]].
    + apply (H9 e); [by eapply list_elem_of_lookup_2|done].
    + apply H9; [by eapply list_elem_of_lookup_2|done].
Qed.

Lemma push_write_sim i σ H g t sz a v :
  sg_rel g σ H → sfull σ H (whold g) i t → aborted (st_tx t) = false → access_ok a sz = true → user_addr a = true →
  (∀ w, w ∈ write_log (st_tx t) → apart a sz (we_addr w) (we_type w) = true) →
  let x := st_tx t in
  let wl := write_log x ++ [WLE a (AnyT 0) (sw_new_value (AnyT 0) sz v) sz] in
  ssim i σ H g (g, STh (st_me t) (set_log x wl (<[a := length (write_log x)]> (write_log_index x)))
    (if bool_decide (orec_of a ∈ owned_orecs x) then SWOld a else SWLoad a) (st_ret t) (st_log t ++ [EvW a sz (wrap (8 * nbytes_of sz) v)])).
Proof.
  intros G [H1 H2 [T1 T2 T3 T4 T5 T6] H4 H5 H6 H7 H8 H9 H10] Ha Hok Hu Hap x wl. apply ssim_stay; [done|apply sg_same_refl|]. set (e := WLE a (AnyT 0) (sw_new_value (AnyT 0) sz v) sz) in *.
  assert (HT : tx_run σ i (set_log x wl (<[a := length (write_log x)]> (write_log_index x))) (st_log t ++ [EvW a sz (wrap (8 * nbytes_of sz) v)])).
  { split; cbn [set_log write_log write_log_index read_set]; try done. by apply sw_log_push. }
  assert (Hsub : write_log x ⊆ wl) by (intros w ?; apply elem_of_app; by left).
  unfold pc_rel. cbn [st_pc]. case_bool_decide as Ho; (split; [|done]); exists (write_log x), e; split_and!; try done; split; cbn [st_me st_tx st_log set_log active owned_orecs]; try done.
  intros ℓ. change (ℓ ∈ owned_orecs (st_tx t) ↔ ℓ ∈ we_orec <$> (write_log (st_tx t) ++ [e])). rewrite H8, fmap_app, elem_of_app. cbn. rewrite list_elem_of_singleton. split; [by left|]. intros [?| ->]; [done|]. by apply H8.
Qed.

Lemma write_call_sim i σ H g t sz a v :
  sg_rel g σ H → sfull σ H (whold g) i t → aborted (st_tx t) = false → access_ok a sz = true → user_addr a = true →
  (∀ w, w ∈ write_log (st_tx t) → (we_addr w = a ∧ we_type w = sz) ∨ apart a sz (we_addr w) (we_type w) = true) → ssim i σ H g (g, sw_write_call t sz a v).
Proof.
  intros G R Ha Hok Hu Hc. pose proof (tr_log _ _ _ _ (ru_tx _ _ _ _ _ _ _ R)) as L. unfold sw_write_call. destruct (index_find (st_tx t) a) as [[k e]|] eqn:Hf.
  - destruct (index_find_spec _ _ _ _ _ _ _ _ L eq_refl eq_refl Hf) as [Hk He]. assert (we_type e = sz) as Ht.
    { destruct (Hc e) as [[_ ?]|Hap]; [by eapply list_elem_of_lookup_2|done|]. rewrite He, apart_not_self in Hap. done. }
    rewrite bool_decide_true by done. apply ssim_stay; [done|apply sg_same_refl|]. split; [|done]. subst a. by apply update_run.
  - apply push_write_sim; try done. intros w Hw. destruct (Hc w Hw) as [[Hwa _]|?]; [|done]. by destruct (index_find_none _ _ _ _ _ _ w L eq_refl eq_refl Hf Hw).
Qed.
End Sim.
