(* ===== verification/SwissCommit.v ===== *)
(** * SwissTM simulates the versioned-lock machine: commits

    The phases of [commit], and with them every step and every call under the
    discipline. *)

From stdpp Require Import functions.
From S2P Require Import Prelude Memory Values TMSpec LogMerge TxLog Interleave VersionedLocks Support SwissTM SwissLog SwissRel SwissSim.
#[local] Open Scope Z_scope.

Section Commit.
Context (m0 : mem).
Implicit Types (σ : lvs) (t : swthread) (g : swglobal) (H W : Z → option nat) (x : TxDescriptor).

#[local] Abbreviation lk := orec_of.
#[local] Abbreviation lv_steps i := (rtc (lv_step orec_of i)).
#[local] Abbreviation lv_inv := (lv_inv orec_of m0).

(** ** Phase 1 *)

Lemma key_orecs l : re_orec <$> l = (key <$> l).*1.
Proof. rewrite <- list_fmap_compose. done. Qed.

Lemma grabbed_app l1 l2 ℓ : grabbed (l1 ++ l2) ℓ ↔ grabbed l1 ℓ ∨ grabbed l2 ℓ.
Proof. unfold grabbed. setoid_rewrite elem_of_app. naive_solver. Qed.
Lemma grabbed_one re ℓ : grabbed [re] ℓ ↔ ℓ = re_orec re ∧ re_old_version re ≠ READ_LOCKED.
Proof. unfold grabbed. setoid_rewrite list_elem_of_singleton. naive_solver. Qed.
Lemma grabbed_in l ℓ : grabbed l ℓ → ℓ ∈ re_orec <$> l.
Proof. intros (re & ? & <- & _). by apply list_elem_of_fmap_2. Qed.

Lemma locked_find_none l ℓ : ℓ ∉ re_orec <$> l → locked_find l ℓ = None.
Proof.
  induction l as [|re l IH]; [done|]. cbn. rewrite not_elem_of_cons. intros [Hne Hn]. destruct (Z.eqb_spec (re_orec re) ℓ); [congruence|by apply IH].
Qed.

(** The record of the next entry has not been exchanged before. *)
Lemma next_fresh x dn re rem : NoDup (read_orecs x) → (key <$> dn) ++ (key <$> re :: rem) = key <$> read_set x → re_orec re ∉ re_orec <$> dn.
Proof.
  intros Hn He. unfold read_orecs in Hn. rewrite key_orecs, <- He, fmap_app, <- !key_orecs in Hn. apply NoDup_app in Hn as (_ & Hd & _). intros Hin. apply (Hd _ Hin). left.
Qed.

Lemma grab_commit σ σ' H H' W i t dn re old :
  scommit σ H W i t dn → thr σ' = thr σ → ver σ' = ver σ → lmem σ' = lmem σ → (old ≠ READ_LOCKED → old = Z.of_nat (ver σ (re_orec re))) →
  marks H' i (λ ℓ, ℓ = re_orec re ∧ old ≠ READ_LOCKED ∨ grabbed dn ℓ) →
  marks (own σ') i (λ ℓ, (ℓ = re_orec re ∧ old ≠ READ_LOCKED ∨ grabbed dn ℓ) ∧ ℓ ∈ written (st_tx t)) → ∀ p, scommit σ' H' W i (sgoto t p) (dn ++ [with_old re old]).
Proof.
  intros [H1 [T1 T2 T3 T4 T5 T6] H3 H4 H5 H6 H7 H8 H9 H10] Ht Hv Hm Hold HH HO p.
  assert (HG : ∀ ℓ, (ℓ = re_orec re ∧ old ≠ READ_LOCKED ∨ grabbed dn ℓ) ↔ grabbed (dn ++ [with_old re old]) ℓ).
  { intros ℓ. rewrite grabbed_app, grabbed_one. cbn. tauto. }
  split; try done.
  - split; rewrite ?Ht; done.
  - eapply marks_ext; [|exact HH]. exact HG.
  - eapply marks_ext; [|exact HO]. intros ℓ. cbn. by rewrite HG.
  - intros re' [Hin|Hin]%elem_of_app Hn; rewrite Hv; [by apply H5|]. apply list_elem_of_singleton in Hin as ->. by apply Hold.
  - intros w y ? ?. rewrite Hm. by apply H9.
Qed.

Lemma set_r_locked g σ H ℓ0 i : sg_rel g σ H → H ℓ0 = None → sg_rel (g_set_r g ℓ0 READ_LOCKED) σ (<[ℓ0 := Some i]> H).
Proof.
  intros [G1 G2 G3 G4 G5 G6 G7] Hn. split; try done.
  - intros ℓ. cbn [r_lock g_set_r]. destruct (decide (ℓ = ℓ0)) as [->|]; [by rewrite !fn_lookup_insert|by rewrite !fn_lookup_insert_ne].
  - intros ℓ j Hj. destruct (G6 ℓ j Hj) as [Hh Hw]. split; [|done]. rewrite fn_lookup_insert_ne; [done|]. intros <-. congruence.
Qed.

Lemma exchange_sim i σ H g t dn re rem :
  lv_inv σ → sg_rel g σ H → scommit σ H (whold g) i t dn → (key <$> dn) ++ (key <$> re :: rem) = key <$> read_set (st_tx t) →
  let old := r_lock g (re_orec re) in
  ssim i σ H g (g_set_r g (re_orec re) READ_LOCKED, sgoto t (SX1 (dn ++ [with_old re old]) rem)).
Proof.
  intros I G C Hk old. set (ℓ0 := re_orec re). pose proof (next_fresh _ _ _ _ (tr_nodup _ _ _ _ (sc_tx _ _ _ _ _ _ C)) Hk) as Hnew. fold ℓ0 in Hnew.
  assert (Hk' : ∀ o, (key <$> dn ++ [with_old re o]) ++ (key <$> rem) = key <$> read_set (st_tx t)) by (intros o; rewrite fmap_app, <- app_assoc; exact Hk).
  assert (Hr : old = match H ℓ0 with Some _ => READ_LOCKED | None => Z.of_nat (ver σ ℓ0) end) by exact (sr_r g σ H G ℓ0). clearbody old. destruct (H ℓ0) as [j|] eqn:HH.
  - assert (j ≠ i) as Hji. { intros ->. apply (sc_H _ _ _ _ _ _ C) in HH. by apply Hnew, grabbed_in. }
    exists σ, H. cbn [fst snd]. split_and!; [done| | |done].
    + destruct G as [G1 G2 G3 G4 G5 G6 G7]. split; try done. intros ℓ. cbn [r_lock g_set_r]. destruct (decide (ℓ = ℓ0)) as [->|]; [by rewrite fn_lookup_insert, HH|by rewrite fn_lookup_insert_ne].
    + split; [|apply Hk']. eapply grab_commit; try done.
      * eapply marks_ext; [|apply (sc_H _ _ _ _ _ _ C)]. intros ℓ. cbn. rewrite Hr. tauto.
      * eapply marks_ext; [|apply (sc_own _ _ _ _ _ _ C)]. intros ℓ. cbn. rewrite Hr. tauto.
  - assert (Hmax : old ≠ READ_LOCKED) by (rewrite Hr; apply locked_max; by eapply ver_max).
    assert (Hown : own σ ℓ0 = None). { destruct (own σ ℓ0) as [j|] eqn:Hj; [|done]. apply (sr_own g σ H G) in Hj as [? _]. congruence. }
    assert (HH' : marks (<[ℓ0 := Some i]> H) i (λ ℓ, ℓ = ℓ0 ∧ old ≠ READ_LOCKED ∨ grabbed dn ℓ)).
    { eapply marks_ext; [|apply marks_add, (sc_H _ _ _ _ _ _ C)]. intros ℓ. cbn. tauto. }
    assert (HG : ∀ σ', ver σ' = ver σ → lmem σ' = lmem σ → sguar i σ H (whold g) σ' (<[ℓ0 := Some i]> H) (whold g)).
    { intros σ' Hv Hm. split; intros *; rewrite ?Hv, ?Hm; try done. intros Hne. apply (other_mark _ i); [done|by left|by right]. }
    destruct (decide (ℓ0 ∈ written (st_tx t))) as [Hwr|Hwr].
    + exists (set_own σ ℓ0 (Some i)), (<[ℓ0 := Some i]> H). cbn [fst snd]. split_and!.
      * apply rtc_once, lv_acquire; [apply (tr_ph _ _ _ _ (sc_tx _ _ _ _ _ _ C))|done].
      * destruct (set_r_locked g σ H ℓ0 i G HH) as [G1 G2 G3 G4 G5 G6 G7]. split; try done. intros ℓ j. cbn [own set_own]. destruct (decide (ℓ = ℓ0)) as [->|Hne].
        -- rewrite !fn_lookup_insert. intros [= <-]. split; [done|]. apply (sc_W _ _ _ _ _ _ C). by apply (sc_owned _ _ _ _ _ _ C).
        -- rewrite fn_lookup_insert_ne by done. apply G6.
      * split; [|apply Hk']. eapply grab_commit; try done. eapply marks_ext; [|apply marks_add, (sc_own _ _ _ _ _ _ C)]. intros ℓ. cbn. split; [|tauto].
        intros [->|[? ?]]; tauto.
      * by apply HG.
    + exists σ, (<[ℓ0 := Some i]> H). cbn [fst snd]. split_and!; [done|by apply set_r_locked| |by apply HG]. split; [|apply Hk']. eapply grab_commit; try done.
      eapply marks_ext; [|apply (sc_own _ _ _ _ _ _ C)]. intros ℓ. cbn. split; [tauto|]. intros [[[-> _]|?] ?]; tauto.
Qed.

Lemma commit_reads σ H W i t dn p :
  scommit σ H W i t dn → key <$> dn = key <$> read_set (st_tx t) → scommit σ H W i (set_tx t (set_reads (st_tx t) dn) p) dn.
Proof.
  intros [H1 [T1 T2 T3 T4 T5 T6] H3 H4 H5 H6 H7 H8 H9 H10] Hk. unfold read_orecs in *. split; unfold written, read_orecs in *; cbn [set_tx st_tx set_reads write_log owned_orecs read_set st_me st_log]; try done.
  - split; unfold read_orecs; cbn [set_reads write_log write_log_index read_set]; try done; rewrite ?key_orecs, ?Hk, <- ?key_orecs; try done.
    intros re Hin. assert (key re ∈ key <$> dn) as Hin' by (by apply list_elem_of_fmap_2). rewrite Hk in Hin'. apply list_elem_of_fmap in Hin' as (re' & He & Hre). injection He as _ ->. by apply T6.
  - intros ℓ ?. rewrite key_orecs, Hk, <- key_orecs. by apply H10.
Qed.

(** ** The fetch-and-add and phase 3 *)

Lemma reads_valid_spec rs re : reads_valid rs = true → re ∈ rs → re_old_version re = re_version re.
Proof. unfold reads_valid. rewrite forallb_forall. intros Hv Hin. apply Z.eqb_eq, Hv. by apply list_elem_of_In. Qed.

(** A commit whose exchanges found the versions it read is decided. *)
Lemma decide_steps i σ H g t :
  lv_inv σ → sg_rel g σ H → scommit σ H (whold g) i t (read_set (st_tx t)) → reads_valid (read_set (st_tx t)) = true →
  let st := commit_stores (write_log (st_tx t)) in
  ∃ σ', lv_steps i σ σ' ∧ lmem σ' = lmem σ ∧ clk σ' = S (clk σ) ∧ ver σ' = ver σ ∧ own σ' = own σ ∧ thr σ' i = LVT (PDec (S (clk σ)) st) [] [] [] ∧
    hist σ' = <[S (clk σ) := CE (rds (thr σ i)).*1 st]> (hist σ).
Proof.
  intros I G [H1 [T1 T2 T3 T4 T5 T6] H3 H4 H5 H6 H7 H8 H9 H10] Hv st. set (rs := read_set (st_tx t)) in *.
  assert (Hgr : ∀ ℓ, ℓ ∈ read_orecs (st_tx t) → grabbed rs ℓ).
  { intros ℓ (re & -> & Hre)%list_elem_of_fmap. exists re. split_and!; [done|done|]. rewrite (reads_valid_spec rs re) by done. by apply T6. }
  assert (Hown : ∀ a, a ∈ st.*1 → own σ (lk a) = Some i).
  { intros a Ha. pose proof (commit_stores_orec _ _ _ _ _ T3 Ha) as Hw. apply H4. split; [apply Hgr; by apply H10|done]. }
  pose proof (lv_increment orec_of i σ st T1 Hown) as S1. set (σ1 := LVS _ _ _ _ _ _ _) in S1.
  assert (Ht1 : thr σ1 i = LVT (PInc (S (clk σ)) st) (rds (thr σ i)) (lrds (thr σ i)) (fixd (thr σ i))) by (unfold σ1; cbn [thr]; by rewrite fn_lookup_insert).
  destruct (check_steps orec_of i σ1 (S (clk σ)) (rds (thr σ i))) as (σ2 & F & S2 & U & _ & HF).
  { by rewrite Ht1. }
  { unfold σ1. cbn. lia. }
  { intros a val v Hin. rewrite Ht1. cbn [rds]. pose proof (T4 a val v Hin) as Hk. apply list_elem_of_fmap in Hk as (re & [= Ho Hver] & Hre). fold rs in Hre.
    assert (Hn : re_old_version re ≠ READ_LOCKED) by (rewrite (reads_valid_spec rs re) by done; by apply T6).
    pose proof (H5 re Hre Hn) as Hold. rewrite (reads_valid_spec rs re), <- Hver, <- Ho in Hold by done. unfold σ1. cbn [ver own]. split_and!; [done| |lia|].
    - destruct (own σ (lk a)) as [j|] eqn:Hj; [right|by left]. apply (sr_own g σ H G) in Hj as [Hj _]. assert (H (lk a) = Some i) as Hi by (apply H3; rewrite Ho; by exists re). congruence.
    - pose proof (iv_ver _ _ σ I (lk a)). lia. }
  rewrite Ht1 in U. cbn [ph rds lrds] in U. pose proof U as [Um Uc Uv Uo Uh _ Ut].
  assert (S3 := lv_decide orec_of i σ2 (S (clk σ)) st). rewrite Ut in S3. cbn [ph rds lrds fixd] in S3. specialize (S3 eq_refl HF). rewrite T2, app_nil_r in S3.
  eexists. split; [eapply rtc_l; [exact S1|]; eapply rtc_r; [exact S2|exact S3]|]. cbn [lmem clk ver own hist thr]. rewrite Um, Uc, Uv, Uo, Uh. by rewrite fn_lookup_insert.
Qed.

Lemma fetch_commit_sim i σ H g t :
  lv_inv σ → sg_rel g σ H → scommit σ H (whold g) i t (read_set (st_tx t)) → reads_valid (read_set (st_tx t)) = true → commit_ts g + 1 < 2 ^ 63 →
  let ts := commit_ts g + 1 in
  ssim i σ H g (SG (sg_mem g) (r_lock g) (w_lock g) ts (greedy_ts g) (sg_token g) (cm_ts g) (sg_aborts g) (<[Z.to_nat ts := st_log t]> (sg_hist g)) (sg_ro g),
                sgoto t (SWb ts (commit_stores (write_log (st_tx t))))).
Proof.
  intros I G C Hv Hlt ts. destruct (decide_steps i σ H g t I G C Hv) as (σ' & Hs & Em & Ec & Ev & Eo & Et & Eh). pose proof C as [H1 [T1 T2 T3 T4 T5 T6] H3 H4 H5 H6 H7 H8 H9 H10].
  pose proof (sr_clock g σ H G) as Hc. assert (Hcv : Z.to_nat ts = S (clk σ)) by (unfold ts; lia).
  assert (HgrI : ∀ ℓ, grabbed (read_set (st_tx t)) ℓ ↔ ℓ ∈ read_orecs (st_tx t)).
  { intros ℓ. split; [apply grabbed_in|]. intros (re & -> & Hre)%list_elem_of_fmap. exists re. split_and!; [done|done|]. rewrite (reads_valid_spec _ re Hv) by done. by apply T6. }
  exists σ', H. cbn [fst snd]. split_and!; [done| | |by apply guar_same].
  - destruct G as [G1 G2 G3 G4 G5 G6 G7]. split; cbn; rewrite ?Em, ?Ec, ?Ev, ?Eo, ?Eh; try done; [lia|lia|]. intros c. rewrite Hcv. destruct (decide (c = S (clk σ))) as [->|]; [|by rewrite !lookup_insert_ne].
    rewrite !lookup_insert_eq. intros m Hm. by eapply sw_log_commit.
  - unfold pc_rel. cbn [st_pc sgoto st_tx]. rewrite Eo. split_and!.
    + split; try done; [unfold ts; lia|by rewrite Et, Hcv|apply commit_stores_bytes].
    + intros re Hre _. rewrite <- (reads_valid_spec _ re Hv Hre), Ev. apply H5; [done|]. rewrite (reads_valid_spec _ re Hv Hre). by apply T6.
    + eapply marks_ext; [|exact H4]. intros ℓ. cbn. rewrite HgrI. split; [tauto|]. intros Hw. split; [by apply H10|done].
    + by eapply marks_ext.
    + eapply marks_ext; [|exact H6]. done.
Qed.

Lemma fetch_fail_sim i σ H g t :
  lv_inv σ → sg_rel g σ H → scommit σ H (whold g) i t (read_set (st_tx t)) → commit_ts g + 1 < 2 ^ 63 →
  let ts := commit_ts g + 1 in
  ssim i σ H g (SG (sg_mem g) (r_lock g) (w_lock g) ts (greedy_ts g) (sg_token g) (cm_ts g) (sg_aborts g) (sg_hist g) (sg_ro g), sgoto t (SRest (read_set (st_tx t)))).
Proof.
  intros I G C Hlt ts. pose proof C as [H1 [T1 T2 T3 T4 T5 T6] H3 H4 H5 H6 H7 H8 H9 H10]. pose proof (sr_clock g σ H G) as Hc.
  pose proof (lv_increment orec_of i σ [] T1 ltac:(by intros a ?%elem_of_nil)) as S1. set (σ1 := LVS _ _ _ _ _ _ _) in S1.
  assert (Ht1 : ph (thr σ1 i) = PInc (S (clk σ)) []) by (unfold σ1; cbn [thr]; by rewrite fn_lookup_insert).
  pose proof (lv_abort orec_of i σ1 ltac:(by rewrite Ht1)) as S2.
  exists (set_thr σ1 i (LVT PAbort [] [] [])), H. cbn [fst snd]. split_and!; [eapply rtc_l; [exact S1|by apply rtc_once]| | |by apply guar_same].
  - destruct G as [G1 G2 G3 G4 G5 G6 G7]. split; cbn; try done; lia.
  - unfold pc_rel. cbn [st_pc sgoto st_tx]. split_and!; try done; [|by cbn; rewrite fn_lookup_insert].
    eapply (undo_rel _ (whold g) i (sgoto t _)); [done|done|done|exact T3| |]; [exact H9|done].
Qed.

(** ** Releasing a read lock *)

(** Storing the current version in a read lock one holds. *)
Lemma set_r_free g σ H ℓ0 i v : sg_rel g σ H → H ℓ0 = Some i → own σ ℓ0 = None → v = Z.of_nat (ver σ ℓ0) → sg_rel (g_set_r g ℓ0 v) σ (<[ℓ0 := None]> H).
Proof.
  intros [G1 G2 G3 G4 G5 G6 G7] Hh Ho Hv. split; try done.
  - intros ℓ. cbn [r_lock g_set_r]. destruct (decide (ℓ = ℓ0)) as [->|]; [by rewrite !fn_lookup_insert|by rewrite !fn_lookup_insert_ne].
  - intros ℓ j Hj. destruct (G6 ℓ j Hj) as [? Hw]. split; [|done]. rewrite fn_lookup_insert_ne; [done|]. intros <-. congruence.
Qed.

Lemma guar_drop i σ H W σ' ℓ0 : H ℓ0 = Some i → (∀ ℓ, ℓ ≠ ℓ0 → ver σ' ℓ = ver σ ℓ) → lmem σ' = lmem σ → sguar i σ H W σ' (<[ℓ0 := None]> H) W.
Proof.
  intros Hh Hv Hm. split; intros *; rewrite ?Hm; try done.
  - intros Hne. apply (other_mark _ i); [done|by right|by left].
  - intros Hne Hj. apply Hv. intros ->. congruence.
Qed.

Lemma grabbed_cons re l ℓ : grabbed (re :: l) ℓ ↔ (ℓ = re_orec re ∧ re_old_version re ≠ READ_LOCKED) ∨ grabbed l ℓ.
Proof. rewrite (grabbed_app [re] l), grabbed_one. done. Qed.

Lemma restore_sim i σ H g t re rem :
  lv_inv σ → sg_rel g σ H → st_pc t = SRest (re :: rem) → pc_rel σ H (whold g) i t →
  ssim i σ H g (if re_old_version re =? READ_LOCKED then g else g_set_r g (re_orec re) (re_old_version re), sgoto t (SRest rem)).
Proof.
  intros I G Hpc R. unfold pc_rel in R. rewrite Hpc in R. destruct R as ([H1 H2 H3 H4] & Hp & Hn & Hold & HH & HO). cbn in Hn. apply NoDup_cons in Hn as [Hni Hn]. set (ℓ0 := re_orec re) in *.
  assert (Hold' : old_ok σ rem) by (intros re' ? ?; apply Hold; [by right|done]). destruct (Z.eqb_spec (re_old_version re) READ_LOCKED) as [He|Hne].
  - apply ssim_stay; [done|apply sg_same_refl|]. unfold pc_rel. cbn [st_pc sgoto st_tx]. split_and!; try done.
    + eapply marks_ext; [|exact HH]. intros ℓ. rewrite grabbed_cons. tauto.
    + eapply marks_ext; [|exact HO]. intros ℓ. cbn. rewrite grabbed_cons. tauto.
  - assert (Hg0 : ¬ grabbed rem ℓ0) by (intros Hx; by apply Hni, grabbed_in). assert (Hh : H ℓ0 = Some i) by (apply HH, grabbed_cons; by left).
    assert (Hv : re_old_version re = Z.of_nat (ver σ ℓ0)) by (apply Hold; [left|done]).
    assert (HH' : marks (<[ℓ0 := None]> H) i (grabbed rem)).
    { eapply marks_ext; [|apply marks_drop, HH]. intros ℓ. cbn. rewrite grabbed_cons. fold ℓ0. split; [tauto|]. intros Hx. split; [by right|]. intros ->. done. }
    destruct (decide (own σ ℓ0 = Some i)) as [Hoi|Hoi].
    + exists (set_own σ ℓ0 None), (<[ℓ0 := None]> H). cbn [fst snd]. split_and!; [by apply rtc_once, lv_release| | |by apply guar_drop].
      * assert (sg_rel g (set_own σ ℓ0 None) H) as G'.
        { destruct G as [G1 G2 G3 G4 G5 G6 G7]. split; try done. intros ℓ j. cbn. destruct (decide (ℓ = ℓ0)) as [->|]; [by rewrite fn_lookup_insert|rewrite fn_lookup_insert_ne by done; apply G6]. }
        apply (set_r_free g _ H ℓ0 i); [done|done|cbn; by rewrite fn_lookup_insert|done].
      * unfold pc_rel. cbn [st_pc sgoto st_tx]. split_and!; try done. eapply marks_ext; [|apply marks_drop, HO]. intros ℓ. cbn. rewrite grabbed_cons. fold ℓ0. split; [tauto|].
        intros [Hx ?]. split; [tauto|]. intros ->. done.
    + assert (Hnone : own σ ℓ0 = None). { destruct (own σ ℓ0) as [j|] eqn:Hj; [|done]. apply (sr_own g σ H G) in Hj as [Hj _]. congruence. }
      exists σ, (<[ℓ0 := None]> H). cbn [fst snd]. split_and!; [done|by eapply set_r_free| |by apply guar_drop].
      unfold pc_rel. cbn [st_pc sgoto st_tx]. split_and!; try done. eapply marks_ext; [|exact HO]. intros ℓ. cbn. rewrite grabbed_cons. fold ℓ0. split; [|tauto].
      intros [[[-> _]|?] Hw]; [|tauto]. destruct Hoi. apply HO. split; [apply grabbed_cons; by left|done].
Qed.

Lemma sw_validate_sim i σ H g t g' t' :
  lv_inv σ → sg_rel g σ H → pc_rel σ H (whold g) i t → sw_validate_step g t = Some (g', t') → ssim i σ H g (g', t').
Proof.
  intros I G R Hs. pose proof R as R0. unfold sw_validate_step in Hs. unfold pc_rel in R.
  destruct (st_pc t) as [| | | | | | | | | | | | | | | | | | | |dn [|re rem]| |[|re rem]| | | | | | | |] eqn:Hpc; try done.
  - apply (inj Some) in Hs. rewrite <- Hs. destruct R as [C Hk]. rewrite app_nil_r in Hk. apply ssim_stay; [done|apply sg_same_refl|]. by apply commit_reads.
  - apply (inj Some) in Hs. rewrite <- Hs. destruct R as [C Hk]. rewrite locked_find_none by (eapply next_fresh; [apply (tr_nodup _ _ _ _ (sc_tx _ _ _ _ _ _ C))|exact Hk]). by apply exchange_sim.
  - destruct (Z.leb_spec (2 ^ 63) (commit_ts g + 1)) as [|Hlt]; [done|]. destruct (reads_valid (read_set (st_tx t))) eqn:Hv; apply (inj Some) in Hs; rewrite <- Hs; [by apply fetch_commit_sim|by apply fetch_fail_sim].
  - apply (inj Some) in Hs. rewrite <- Hs. destruct R as ([H1 H2 H3 H4] & Hp & _ & _ & HH & HO). apply ssim_stay; [done|apply sg_same_refl|].
    assert (Hno : ∀ ℓ, ¬ grabbed [] ℓ) by (by intros ℓ (? & ?%elem_of_nil & _)). split_and!; [by split|by right| |].
    + eapply marks_ext; [|exact HO]. intros ℓ. cbn. specialize (Hno ℓ). tauto.
    + eapply marks_ext; [|exact HH]. intros ℓ. specialize (Hno ℓ). tauto.
  - apply (inj Some) in Hs. rewrite <- Hs. by apply restore_sim.
Qed.

(** ** Phases 4 and 5 *)

Lemma wb_sim i σ H g t ts a b st :
  sg_rel g σ H → lv_inv σ → st_pc t = SWb ts ((a, b) :: st) → pc_rel σ H (whold g) i t →
  ssim i σ H g (g_set_mem g (<[a := b]> (sg_mem g)), sgoto t (SWb ts st)).
Proof.
  intros G I Hpc R. unfold pc_rel in R. rewrite Hpc in R. destruct R as ([H1 H2 H3 H4 H5 H6] & Hro & HO & HH & HW). apply Forall_cons in H4 as [Hb H4].
  destruct (iv_dec _ _ σ I i _ _ H3) as (_ & _ & Hown & _). specialize (Hown a ltac:(left)). eexists _, H. cbn [fst snd]. split_and!; [apply rtc_once, (lv_writeback _ _ _ _ _ _ _ H3)| | |].
  - destruct G as [G1 G2 G3 G4 G5 G6 G7]. split; try done; cbn.
    + intros y. unfold mget. destruct (decide (y = a)) as [->|]; [by rewrite !lookup_insert_eq|]. rewrite !lookup_insert_ne by done. apply G1.
    + intros y. unfold mget. destruct (decide (y = a)) as [->|]; [by rewrite lookup_insert_eq|]. rewrite lookup_insert_ne by done. apply G2.
  - unfold pc_rel. cbn [st_pc sgoto st_tx]. split_and!; try done. split; try done. cbn. by rewrite fn_lookup_insert.
  - split; try done. cbn. intros y j Hne Hj. unfold mget. rewrite lookup_insert_ne; [done|]. intros <-. apply (sr_own g σ H G) in Hown as [_ Hw]. congruence.
Qed.

Lemma rel_sim i σ H g t ts we rem rl :
  sg_rel g σ H → lv_inv σ → st_pc t = SRel ts (we :: rem) rl → pc_rel σ H (whold g) i t → we_orec we ∉ rl →
  ssim i σ H g (g_set_r g (we_orec we) ts, sgoto t (SRelW ts (we_orec we) rem rl)).
Proof.
  intros G I Hpc R Hni. unfold pc_rel in R. rewrite Hpc in R. destruct R as (D & Hro & (dn & Hdn & Hrl) & HO & HH & HW). pose proof D as [H1 H2 H3 H4 H5 H6]. set (ℓ0 := we_orec we) in *.
  assert (Hwr : ℓ0 ∈ written (st_tx t)) by (unfold written; rewrite Hdn, fmap_app, fmap_cons, elem_of_app; right; left).
  assert (Hoi : own σ ℓ0 = Some i) by (apply HO; done). assert (Hh : H ℓ0 = Some i) by (apply HH; split; [by apply H6|done]).
  eexists _, (<[ℓ0 := None]> H). cbn [fst snd]. split_and!; [apply rtc_once, (lv_release_version _ _ _ _ _ H3 Hoi)| | |].
  - destruct G as [G1 G2 G3 G4 G5 G6 G7]. split; try done; cbn.
    + intros ℓ. destruct (decide (ℓ = ℓ0)) as [->|]; [rewrite !fn_lookup_insert; lia|by rewrite !fn_lookup_insert_ne].
    + intros ℓ j. destruct (decide (ℓ = ℓ0)) as [->|]; [by rewrite fn_lookup_insert|]. rewrite !fn_lookup_insert_ne by done. apply G6.
  - unfold pc_rel. cbn [st_pc sgoto st_tx]. split_and!; [by split| |by exists dn, we|cbn [own]; by apply marks_drop|by apply marks_drop|done].
    intros re Hre Hn. cbn [ver]. rewrite fn_lookup_insert_ne by (intros E; by rewrite <- E in Hn). by apply Hro.
  - apply guar_drop; [done| |done]. cbn. intros ℓ ?. by rewrite fn_lookup_insert_ne.
Qed.

Lemma relro_sim i σ H g t re rem :
  sg_rel g σ H → st_pc t = SRelRO (re :: rem) → pc_rel σ H (whold g) i t →
  ssim i σ H g (if in_log (write_log (st_tx t)) (re_orec re) then g else g_set_r g (re_orec re) (re_version re), sgoto t (SRelRO rem)).
Proof.
  intros G Hpc R. unfold pc_rel in R. rewrite Hpc in R. destruct R as (H1 & Hp & Hn & Hro & HO & HH & HW). cbn in Hn. apply NoDup_cons in Hn as [Hni Hn]. set (ℓ0 := re_orec re) in *.
  assert (Hro' : ro_ver σ (st_tx t) rem) by (intros re' ? ?; apply Hro; [by right|done]). destruct (in_log (write_log (st_tx t)) ℓ0) eqn:Hl.
  - apply in_log_spec in Hl. apply ssim_stay; [done|apply sg_same_refl|]. unfold pc_rel. cbn [st_pc sgoto st_tx]. split_and!; try done. eapply marks_ext; [|exact HH]. intros ℓ. unfold ro_left.
    cbn. rewrite elem_of_cons. fold ℓ0. split; [|tauto]. intros [[->|?] Hnw]; [done|tauto].
  - assert (Hnw : ℓ0 ∉ written (st_tx t)). { intros Hw. apply in_log_spec in Hw. congruence. }
    assert (Hh : H ℓ0 = Some i) by (apply HH; split; [left|done]). exists σ, (<[ℓ0 := None]> H). cbn [fst snd].
    assert (Hnone : own σ ℓ0 = None). { destruct (own σ ℓ0) as [j|] eqn:Hj; [|done]. pose proof Hj as Hj'. apply (sr_own g σ H G) in Hj as [Hj _]. rewrite Hh in Hj. injection Hj as <-. by apply HO in Hj'. }
    split_and!; [done|apply (set_r_free g σ H ℓ0 i); [done|done|done|apply Hro; [left|done]]| |by apply guar_drop].
    unfold pc_rel. cbn [st_pc sgoto st_tx]. split_and!; try done. eapply marks_ext; [|apply marks_drop, HH]. intros ℓ. unfold ro_left. cbn. rewrite elem_of_cons. fold ℓ0. split; [tauto|].
    intros [Hx ?]. split; [tauto|]. intros ->. done.
Qed.

Lemma sw_release_sim i σ H g t g' t' :
  lv_inv σ → sg_rel g σ H → pc_rel σ H (whold g) i t → sw_release_step g t = Some (g', t') → ssim i σ H g (g', t').
Proof.
  intros I G R Hs. pose proof R as R0. unfold sw_release_step in Hs. unfold pc_rel in R.
  destruct (st_pc t) as [| | | | | | | | | | | | | | | | | | | | | | |ts [|[a b] st]|ts [|we rem] rl|ts ℓ0 rem rl|[|re rem]| | | |] eqn:Hpc; try done; apply (inj Some) in Hs; rewrite <- Hs.
  - destruct R as (D & Hro & HO & HH & HW). apply ssim_stay; [done|apply sg_same_refl|]. unfold pc_rel. cbn [st_pc sgoto st_tx].
    assert (He : ∀ P : Z → Prop, ∀ ℓ, P ℓ ↔ P ℓ ∧ ℓ ∉ ([] : list Z)) by (intros P ℓ; rewrite elem_of_nil; tauto).
    split_and!; [by destruct D|done|by exists []|eapply marks_ext; [apply He|done]..].
  - by apply wb_sim.
  - destruct R as (D & Hro & (dn & Hdn & Hrl) & HO & HH & HW). apply ssim_stay; [done|apply sg_same_refl|]. rewrite app_nil_r in Hdn. assert (Hrl' : ∀ ℓ, ℓ ∈ rl ↔ ℓ ∈ written (st_tx t)) by (intros ℓ; by rewrite Hrl, <- Hdn).
    destruct D as [H1 H2 H3 H4 H5 H6]. unfold pc_rel. cbn [st_pc sgoto st_tx]. split_and!; [done|by eexists|done|done|..].
    + eapply marks_ext; [|exact HO]. intros ℓ. cbn. rewrite Hrl'. tauto.
    + eapply marks_ext; [|exact HH]. intros ℓ. unfold ro_left. cbn. by rewrite Hrl'.
    + eapply marks_ext; [|exact HW]. intros ℓ. cbn. rewrite Hrl'. tauto.
  - case_bool_decide as Hd; [|by apply rel_sim]. destruct R as (D & Hro & (dn & Hdn & Hrl) & HO & HH & HW). apply ssim_stay; [done|apply sg_same_refl|].
    unfold pc_rel. cbn [st_pc sgoto st_tx]. split_and!; [by destruct D|done| |done|done|done]. exists (dn ++ [we]). split; [by rewrite <- app_assoc|]. intros ℓ. rewrite fmap_app, elem_of_app, <- Hrl. cbn. rewrite list_elem_of_singleton.
    split; [by left|]. intros [?| ->]; done.
  - destruct R as (D & Hro & (dn & e & Hdn & He & Hni & Hrl) & HO & HH & HW).
    apply set_w_sim; [done|apply HW; split; [|done]|intros Ho; apply HO in Ho; tauto|].
    + unfold written. rewrite Hdn, fmap_app, fmap_cons, elem_of_app, He. right. left.
    + unfold pc_rel. cbn [st_pc sgoto st_tx]. split_and!; [by destruct D|done| |..].
      * exists (dn ++ [e]). split; [by rewrite <- app_assoc|]. intros ℓ. rewrite fmap_app, elem_of_app, elem_of_cons, Hrl. cbn. rewrite list_elem_of_singleton, He. tauto.
      * eapply marks_ext; [|exact HO]. intros ℓ. cbn. rewrite elem_of_cons. tauto.
      * eapply marks_ext; [|exact HH]. intros ℓ. cbn. rewrite elem_of_cons. tauto.
      * eapply marks_ext; [|apply marks_drop, HW]. intros ℓ. cbn. rewrite elem_of_cons. tauto.
  - destruct R as (H1 & Hp & _ & _ & HO & HH & HW). apply ssim_stay; [done|apply sg_same_refl|]. unfold pc_rel. cbn [st_pc sgoto st_tx]. split_and!; try done.
    eapply marks_ext; [|exact HH]. intros ℓ. unfold ro_left. cbn. rewrite elem_of_nil. tauto.
  - by apply relro_sim.
  - destruct R as (H1 & Hp & HO & HH & HW). apply sfinish_sim; try done. right. right. by right.
Qed.

(** ** Every step and every call *)

Lemma swiss_step_sim i σ H g t g' t' :
  lv_inv σ → sg_rel g σ H → pc_rel σ H (whold g) i t → swiss_step g t = Some (g', t') → ssim i σ H g (g', t').
Proof.
  intros I G R Hs. unfold swiss_step in Hs. destruct (st_pc t) eqn:Hpc; try done;
    first [by eapply sw_read_sim | by eapply sw_extend_sim | by eapply sw_acquire_sim | by eapply sw_write_sim | by eapply sw_validate_sim
          | by eapply sw_release_sim | by eapply sw_rollback_sim].
Qed.

Lemma commit_start_sim i σ H g t :
  sg_rel g σ H → sfull σ H (whold g) i t → (∀ w, w ∈ write_log (st_tx t) → we_orec w ∈ read_orecs (st_tx t)) → ssim i σ H g (g, sgoto t (SX1 [] (read_set (st_tx t)))).
Proof.
  intros G [H1 H2 H3 H4 H5 H6 H7 H8 H9 H10] Hr. apply ssim_stay; [done|apply sg_same_refl|]. split; [|done]. assert (Hno : ∀ ℓ, ¬ grabbed [] ℓ) by (by intros ℓ (? & ?%elem_of_nil & _)).
  split; try done.
  - eapply marks_ext; [|exact H5]. intros ℓ. specialize (Hno ℓ). tauto.
  - eapply marks_ext; [|exact H4]. intros ℓ. specialize (Hno ℓ). cbn. tauto.
  - by intros re ?%elem_of_nil.
  - intros ℓ (w & -> & Hw)%list_elem_of_fmap. by apply Hr.
Qed.

Lemma commit_call_sim i σ H g t :
  sg_rel g σ H → sidle σ H (whold g) i t → (active (st_tx t) = true → aborted (st_tx t) = false → ∀ w, w ∈ write_log (st_tx t) → we_orec w ∈ read_orecs (st_tx t)) →
  ssim i σ H g (sw_commit_call g t).
Proof.
  intros G R Hr. unfold sw_commit_call. pose proof R as R0. unfold sidle in R. destruct (active (st_tx t)) eqn:Ha; cbn [negb andb] in *; [|apply direct_sim; [done|done|by left]].
  destruct (aborted (st_tx t)) eqn:Hb; cbn [negb] in *.
  - destruct R as (? & ? & ? & ? & ?). apply sfinish_sim; try done. by left.
  - destruct (Nat.eqb_spec (length (write_log (st_tx t))) 0) as [Hl|Hl]; [|apply commit_start_sim; [done|done|by apply Hr]].
    destruct R as [H1 H2 H3 H4 H5 H6 H7 H8 H9 H10]. apply sfinish_sim; try done; [right; left; apply (tr_ph _ _ _ _ H3)|].
    eapply marks_ext; [|exact H6]. intros ℓ. cbn. rewrite H8. apply length_zero_iff_nil in Hl. rewrite Hl. cbn. by rewrite elem_of_nil.
Qed.

Lemma swiss_call_sim shared i σ H g t o g' t' :
  sg_rel g σ H → pc_rel σ H (whold g) i t → swiss_call_ok shared o g t = Some (g', t') → ssim i σ H g (g', t').
Proof.
  intros G R Hs. unfold swiss_call_ok in Hs. destruct (swiss_allowed shared o t) eqn:Hal; [|done]. unfold swiss_call in Hs. unfold pc_rel in R. destruct (st_pc t) eqn:Hpc; try done.
  pose proof R as R0. unfold sidle in R. destruct o as [|sz a|sz a v| |]; cbn [swiss_allowed] in Hal.
  - apply (inj Some) in Hs. rewrite <- Hs. assert (active (st_tx t) && negb (aborted (st_tx t)) = false) as Hf by (by destruct (active (st_tx t)), (aborted (st_tx t))). rewrite Hf in R.
    destruct R as (? & ? & ? & ? & ?). by apply sbegin_sim.
  - destruct (access_ok a sz) eqn:Hok; [|done]. apply (inj Some) in Hs. rewrite <- Hs. destruct (active (st_tx t)), (shared a); cbn [andb orb negb] in *; try (apply direct_sim; [done|done|by eauto]).
    destruct (aborted (st_tx t)) eqn:Hb; [done|]. cbn [negb andb] in *. apply andb_true_iff in Hal as [Hu Hc]. apply read_call_sim; try done. apply orb_true_iff in Hc as [Hc|Hc].
    + left. apply existsb_exists in Hc as (w & ?%list_elem_of_In & ?). by exists w.
    + right. apply andb_true_iff in Hc as [Hap Hn]. rewrite forallb_forall in Hap. setoid_rewrite <- list_elem_of_In in Hap. split_and!; [done|done|]. by apply negb_true_iff, bool_decide_eq_false in Hn.
  - destruct (access_ok a sz) eqn:Hok; [|done]. apply (inj Some) in Hs. rewrite <- Hs. apply andb_true_iff in Hal as [[[[Ha Hb%negb_true_iff]%andb_true_iff Hsh]%andb_true_iff Hu]%andb_true_iff Hc].
    rewrite Ha, Hb in R. rewrite Ha, Hsh. cbn [andb negb] in *. apply write_call_sim; try done. intros w Hw. rewrite forallb_forall in Hc. specialize (Hc w (proj1 (list_elem_of_In _ _) Hw)).
    apply orb_true_iff in Hc as [Hc|?]; [left|by right]. apply andb_true_iff in Hc as [?%Z.eqb_eq ?%bool_decide_eq_true]. done.
  - apply (inj Some) in Hs. rewrite <- Hs. apply commit_call_sim; [done|done|]. intros Ha Hb w Hw. rewrite Ha, Hb in Hal. cbn [negb orb] in Hal. rewrite forallb_forall in Hal.
    by specialize (Hal w (proj1 (list_elem_of_In _ _) Hw)) as ?%bool_decide_eq_true.
  - apply (inj Some) in Hs. rewrite <- Hs. destruct (aborted (st_tx t)) eqn:Hb.
    + apply ssim_stay; [done|apply sg_same_refl|]. unfold pc_rel. rewrite Hpc. exact R0.
    + rewrite orb_false_r in Hal. rewrite Hal in R. cbn [andb negb] in R. apply rollback_full_sim; [done|]. by apply run_tx.
Qed.
End Commit.
