(* ===== verification/SwissSpec.v ===== *)
(** * What SwissTM guarantees

    Under the discipline of [SwissTM.swiss_allowed] the committed update transactions of every
    interleaved execution are serializable in the order of their timestamps, and locks are
    released.  Limits shown by executions: records read twice, writes of records not read,
    a write of another type over an earlier one, and transactions without writes; and the
    spin token is never taken, because [begin] forgets the aborts. *)

From stdpp Require Import functions.
From S2P Require Import Prelude Memory Values TMSpec LogMerge TxLog Interleave VersionedLocks Support SwissTM SwissLog SwissRel SwissSim SwissCommit.
#[local] Open Scope Z_scope.

(** ** Executions *)

Definition ssys_rel (m : mem) (g : swglobal) (ts : list swthread) (σ : lvs) (H : Z → option nat) : Prop :=
  lv_reachable orec_of m σ ∧ sg_rel g σ H ∧ (∀ i t, ts !! i = Some t → pc_rel σ H (whold g) i t) ∧
  (∀ ℓ j, H ℓ = Some j ∨ whold g ℓ = Some j → is_Some (ts !! j)).

Lemma sinit_rel m n : mem_ok m → ∃ σ H, ssys_rel m (swiss_init m) (swthread_init <$> seq 0 n) σ H.
Proof.
  intros Hm. exists (LVS m 0 (λ _, O) (λ _, None) ∅ (λ _, LVT PIdle [] [] []) []), (λ _, None). split_and!.
  - apply lv_init. by split_and!.
  - by split.
  - intros i t. rewrite list_lookup_fmap. intros (k & Hk & ->)%fmap_Some. apply lookup_seq in Hk as [-> _]. unfold pc_rel, sidle. cbn. split_and!; try done; by intros ℓ.
  - by intros ℓ j [?|?].
Qed.

Lemma ssys_step m g ts σ H i t g' t' :
  ssys_rel m g ts σ H → ts !! i = Some t → ssim i σ H g (g', t') → ∃ σ' H', ssys_rel m g' (<[i := t']> ts) σ' H'.
Proof.
  intros (Hreach & G & HT & HJ) Hi (σ' & H' & Hs & G' & R' & Gu). cbn in G', R', Gu. exists σ', H'. split_and!; [by eapply steps_reachable|done| |].
  - intros j u [[-> ->]|[Hne Hj]]%(update_lookup ts i t t' j u Hi); [done|].
    destruct (steps_frame _ _ j i σ σ' (reachable_inv _ _ σ Hreach) Hs Hne) as [_ F]. eapply pc_frame; [by eapply guar_frame|by apply HT].
  - intros ℓ j Hj. apply lookup_lt_is_Some. rewrite length_insert. apply lookup_lt_is_Some. destruct (decide (j = i)) as [->|Hne]; [by exists t|].
    apply (HJ ℓ). by rewrite (gu_H _ _ _ _ _ _ _ Gu ℓ j Hne), (gu_W _ _ _ _ _ _ _ Gu ℓ j Hne) in Hj.
Qed.

Lemma sreachable_sim shared m n g ts : mem_ok m → sw_reachable shared m n (g, ts) → ∃ σ H, ssys_rel m g ts σ H.
Proof.
  intros Hm. revert g ts. apply (ix_invariant _ _ (λ g ts, ∃ σ H, ssys_rel m g ts σ H)); [by apply sinit_rel|..].
  - intros g ts i t o g' t' (σ & H & R) Ht Hc. eapply ssys_step; [done|done|]. destruct R as (_ & G & HT & _). eapply swiss_call_sim; eauto.
  - intros g ts i t g' t' (σ & H & R) Ht Hc. eapply ssys_step; [done|done|]. destruct R as (Hr & G & HT & _). eapply swiss_step_sim; eauto. by apply (reachable_inv _ _ σ).
Qed.

(** A thread in the middle of its write-back. *)
Definition swriting (t : swthread) : bool := match st_pc t with SWb _ (_ :: _) => true | _ => false end.

(** Only a thread writing back has stores pending in the abstract machine. *)
Lemma pending_writer σ H W i t cv s ws : pc_rel σ H W i t → ph (thr σ i) = PDec cv (s :: ws) → swriting t = true.
Proof.
  intros R Hp. assert (HF : ∀ dn held, srun σ H W i t dn held → False) by (intros dn held [_ _ T]; pose proof (tr_ph _ _ _ _ T); congruence).
  assert (HI : ¬ sidle σ H W i t) by (unfold sidle; destruct (_ && _); [intros X; exact (HF _ _ X)|intros (? & ? & _); congruence]).
  assert (HR : ∀ sz a bs, ¬ sreading σ H W i t sz a bs) by (intros sz a bs [? _]; by eapply HF).
  assert (HK : ∀ k, ¬ scont σ H W i t k) by (intros [sz a|]; [apply HR|intros X; exact (HF _ _ X)]).
  assert (HP : ∀ a, ¬ spend σ H W i t a) by (intros a (? & ? & _ & _ & _ & ?); by eapply HF).
  assert (HL : ∀ a, ¬ slocked σ H W i t a) by (intros a (? & ? & _ & _ & ?); by eapply HF).
  assert (HC : ∀ dn, ¬ scommit σ H W i t dn) by (intros dn [_ T]; pose proof (tr_ph _ _ _ _ T); congruence).
  assert (HX : ¬ failed σ i) by (intros [?|?]; congruence).
  assert (HD : ∀ ts, ¬ sdone σ i t ts []) by (intros ts [_ _ ? _ _ _]; congruence).
  unfold pc_rel, sfull, swriting in *. destruct (st_pc t) as [| | | | | | | | | | | | | | | | | | | | | | |ts [|[a b] st]| | | | | | |]; try done; exfalso;
    repeat match goal with
    | H : _ ∧ _ |- _ => destruct H
    | H : ∃ cv, _ = PDec cv [] |- _ => destruct H
    end; first [congruence | by eapply HF | by eapply HR | by eapply HK | by eapply HP | by eapply HL | by eapply HC | by eapply HD | by apply HI | by apply HX].
Qed.

Lemma squiescent_mem m g ts σ H x :
  ssys_rel m g ts σ H → forallb (negb ∘ swriting) ts = true → mget (sg_mem g) x = at_ver m (hist σ) (clk σ) x.
Proof.
  intros (Hreach & G & HT & HJ) Hq. pose proof (reachable_inv _ _ σ Hreach) as I.
  rewrite <- (iv_mem _ _ σ I), (sr_mem g σ H G). unfold pend. destruct (own σ (orec_of x)) as [i|] eqn:Ho; [|done].
  destruct (ph (thr σ i)) as [| | |cv [|s ws]|] eqn:Hp; try done. exfalso. destruct (sr_own g σ H G _ _ Ho) as [Hh _]. destruct (HJ _ i (or_introl Hh)) as [t Ht].
  pose proof (pending_writer _ _ _ _ _ _ _ _ (HT i t Ht) Hp) as Hw. rewrite forallb_forall in Hq. specialize (Hq t (proj1 (list_elem_of_In _ _) (list_elem_of_lookup_2 _ _ _ Ht))).
  unfold compose in Hq. by rewrite Hw in Hq.
Qed.

(** ** Properties *)

(** C7: SwissTM's update transactions are serializable.  In every interleaved execution
    whose calls follow the discipline [swiss_allowed] (a transaction begins when the
    thread's last one has ended; writes repeat an earlier one exactly or are apart from
    them all; reads lie inside one earlier write, or are apart from them all and of a
    record not read before; every record written has been read at the commit), replaying the logs of the committed update
    transactions one after the other, in the order of their timestamps, succeeds: every
    read returns what it returned in the execution.  Whenever no thread is writing back
    (rollbacks may be under way), the result is the shared memory. *)
Theorem swiss_serializable shared m n g ts :
  mem_ok m → sw_reachable shared m n (g, ts) →
  ∃ m', serial m (sg_hist g) (Z.to_nat (commit_ts g)) = Some m' ∧
    (forallb (negb ∘ swriting) ts = true → ∀ x, mget m' x = mget (sg_mem g) x).
Proof.
  intros Hm Hr. destruct (sreachable_sim shared m n g ts Hm Hr) as (σ & H & R). pose proof R as (Hreach & G & _). pose proof (reachable_inv _ _ σ Hreach) as I.
  rewrite (sr_clock g σ H G), Nat2Z.id. destruct (serial_history orec_of m σ (sg_hist g) (clk σ) I) as (M & HM & Hx); [apply (sr_hist g σ H G)|]. exists M. split; [done|].
  intros Hq x. rewrite Hx. symmetry. by eapply squiescent_mem.
Qed.

(** Two threads increment a counter of two bytes: the second is aborted by the contention
    manager, starts again while the first commits, and waits for its read lock. *)
Definition is_idle (t : swthread) : bool := match st_pc t with SIdle => true | _ => false end.
Definition scall (i : nat) (o : sop) : list (nat * ix_act) := [(i, ACall o); (i, AUntil is_idle)].
Definition swiss_script : list (nat * ix_act) :=
  scall 0 SBegin ++ scall 0 (SReadOp UINT16 4096) ++ scall 1 SBegin ++ scall 1 (SReadOp UINT16 4096) ++
  scall 0 (SWriteOp UINT16 4096 1) ++ scall 1 (SWriteOp UINT16 4096 7) ++ scall 0 (SReadOp UINT8 4096) ++
  [(0%nat, ACall SCommit); (0%nat, ASteps 4)] ++ scall 1 SBegin ++ [(1%nat, ACall (SReadOp UINT16 4096)); (1%nat, ASteps 3); (0%nat, AUntil is_idle); (1%nat, AUntil is_idle)] ++
  scall 1 (SWriteOp UINT16 4096 2) ++ scall 1 SCommit.

Definition srun_script (allowed : sop → swglobal → swthread → option (swglobal * swthread)) (n : nat) (l : list (nat * ix_act)) : swglobal * list swthread :=
  default (swiss_init ∅, []) (ix_script allowed swiss_step (swiss_init ∅, swthread_init <$> seq 0 n) l).
Definition swiss_end : swglobal * list swthread := srun_script (swiss_call_ok (λ _, true)) 2 swiss_script.

Lemma swiss_end_reachable : sw_reachable (λ _, true) ∅ 2 (swiss_end.1, swiss_end.2).
Proof. rewrite <- surjective_pairing. eapply (ix_script_reachable _ _ _ _ swiss_script); [apply ix_start|]. apply default_Some. vm_compute. reflexivity. Qed.

Lemma swiss_serializable_witness :
  mem_ok ∅ ∧ size (sg_hist swiss_end.1) = 2%nat ∧ sg_aborts swiss_end.1 = 1 ∧
  ∃ m', serial ∅ (sg_hist swiss_end.1) (Z.to_nat (commit_ts swiss_end.1)) = Some m' ∧
    mget m' 4096 = mget (sg_mem swiss_end.1) 4096 ∧ mget (sg_mem swiss_end.1) 4096 = 2.
Proof.
  split; [exact mem_ok_empty|]. split; [vm_compute; reflexivity|]. split; [vm_compute; reflexivity|].
  destruct (swiss_serializable (λ _, true) ∅ 2 swiss_end.1 swiss_end.2 mem_ok_empty swiss_end_reachable) as (m' & Hm & Hq).
  exists m'. split; [exact Hm|]. split; [apply Hq; vm_compute; reflexivity|vm_compute; reflexivity].
Defined.

(** Locks are released: whenever no call is in progress, no read lock is taken and no
    version exceeds the commit timestamp, and a write lock is held only by the running
    transaction that has written the record. *)
Theorem swiss_locks_released shared m n g ts :
  mem_ok m → sw_reachable shared m n (g, ts) → forallb is_idle ts = true →
  ∀ ℓ, 0 ≤ r_lock g ℓ ≤ commit_ts g ∧
    ∀ j k, w_lock g ℓ = Some (j, k) → ∃ t, ts !! j = Some t ∧ active (st_tx t) = true ∧ aborted (st_tx t) = false ∧ ℓ ∈ we_orec <$> write_log (st_tx t).
Proof.
  intros Hm Hr Hq ℓ. destruct (sreachable_sim shared m n g ts Hm Hr) as (σ & H & Hreach & G & HT & HJ).
  assert (Hidle : ∀ j t, ts !! j = Some t → sidle σ H (whold g) j t).
  { intros j t Ht. specialize (HT j t Ht). rewrite forallb_forall in Hq. specialize (Hq t (proj1 (list_elem_of_In _ _) (list_elem_of_lookup_2 _ _ _ Ht))).
    unfold is_idle, pc_rel in *. by destruct (st_pc t). }
  split.
  - rewrite (sr_r g σ H G), (sr_clock g σ H G). pose proof (iv_ver _ _ σ (reachable_inv _ _ σ Hreach) ℓ). destruct (H ℓ) as [j|] eqn:Hh; [|lia]. exfalso.
    destruct (HJ ℓ j (or_introl Hh)) as [t Ht]. specialize (Hidle j t Ht). unfold sidle in Hidle. destruct (_ && _); [by apply (ru_H _ _ _ _ _ _ _ Hidle) in Hh|]. destruct Hidle as (_ & _ & _ & HH & _). by apply HH in Hh.
  - intros j k Hw. assert (Hwh : whold g ℓ = Some j) by (unfold whold; by rewrite Hw). destruct (HJ ℓ j (or_intror Hwh)) as [t Ht]. exists t. split; [done|]. specialize (Hidle j t Ht). unfold sidle in Hidle.
    destruct (active (st_tx t)) eqn:Ha, (aborted (st_tx t)) eqn:Hb; cbn [andb negb] in Hidle; try (destruct Hidle as (_ & _ & _ & _ & HW); by apply HW in Hwh).
    split_and!; [done|done|]. apply (ru_owned _ _ _ _ _ _ _ Hidle). by apply (ru_W _ _ _ _ _ _ _ Hidle).
Qed.

(** ** The spin token *)

(** A running transaction has no aborts to its name. *)
Definition fresh_count (t : swthread) : Prop := aborted (st_tx t) = false → succ_abort_count (st_tx t) = 0.
Definition in_acquire (p : spc) : bool := match p with SWLoad _ | SWSoft _ | SWSpin _ | SWReload _ | SWCm1 _ | SWCm2 _ _ | SWCas _ => true | _ => false end.
Definition token_ok (t : swthread) : Prop := fresh_count t ∧ (in_acquire (st_pc t) = true → aborted (st_tx t) = false) ∧ 0 < tx_id (st_tx t).

Lemma free_if_held i : 0 < i → SpinToken.tm_token_release_if_held SpinToken.FREE i = SpinToken.FREE.
Proof. unfold SpinToken.tm_token_release_if_held. by destruct (_ =? _). Qed.

Ltac split_ifs Hs :=
  repeat match type of Hs with
    | context [if ?b then _ else _] => destruct b eqn:?; cbn in Hs
    | context [match ?b with Some _ => _ | None => _ end] => destruct b as [?|] eqn:?; cbn in Hs
    | context [let '(_, _) := ?b in _] => destruct b as [? ?] eqn:?; cbn in Hs
    end.

Lemma step_token g t g' t' : sg_token g = SpinToken.FREE → token_ok t → swiss_step g t = Some (g', t') → sg_token g' = SpinToken.FREE ∧ token_ok t'.
Proof.
  intros Ht (Hf & Ha & Hid) Hs. unfold swiss_step, sw_read_step, sw_extend_step, sw_acquire_step, sw_write_step, sw_validate_step, sw_release_step, sw_rollback_step, cm_should_abort, cm_on_write, rollback_end, rollback, acquire_loop in Hs.
  unfold token_ok, fresh_count in *.
  destruct (st_pc t) as [|sz a bs|sz a|sz a|sz a v|sz a bs|k|k xts [|re rem]|k xts re rem|[|[a b] st]|a|a|a|a|a|a j|a|a|a| |dn [|re rem]| |[|re rem]|xts [|[a b] st]|xts [|we rem] rl|xts ℓ rem rl|[|re rem]| |[|[a b] st]|[|ℓ rem]|] eqn:Hpc;
    try done; cbn [in_acquire] in *.
  all: try (destruct k as [sz a|]).
  all: try (unfold SpinToken.tm_token_soft_spin in Hs; rewrite (Hf (Ha eq_refl)) in Hs; cbn in Hs).
  all: split_ifs Hs; simplify_eq; cbn; rewrite ?free_if_held by done; rewrite ?Ht, ?Hpc; repeat case_match; try done; split_and!; try done; try (by rewrite free_if_held).
  all: intros; by try apply Hf; auto.
Qed.

Lemma call_token shared o g t g' t' :
  sg_token g = SpinToken.FREE → token_ok t → swiss_call_ok shared o g t = Some (g', t') → sg_token g' = SpinToken.FREE ∧ token_ok t'.
Proof.
  intros Ht (Hf & Ha & Hid) Hs. unfold swiss_call_ok in Hs. destruct (swiss_allowed shared o t) eqn:Hal; [|done]. unfold swiss_call in Hs. destruct (st_pc t) eqn:Hpc; try done.
  unfold token_ok, fresh_count in *. destruct o as [|sz a|sz a v| |]; cbn [swiss_allowed] in Hal.
  - unfold cm_start in Hs. simplify_eq. cbn. by split_and!.
  - unfold sw_read_call in Hs. split_ifs Hs; simplify_eq; cbn; repeat case_match; by split_and!.
  - apply andb_true_iff in Hal as [[[[Hac Hb%negb_true_iff]%andb_true_iff _]%andb_true_iff _]%andb_true_iff _].
    unfold sw_write_call in Hs. split_ifs Hs; simplify_eq; cbn; repeat case_match; by split_and!.
  - unfold sw_commit_call in Hs. split_ifs Hs; simplify_eq; cbn; rewrite ?Ht, ?free_if_held by done; split_and!; auto; by intros ?.
  - unfold rollback in Hs. split_ifs Hs; simplify_eq; cbn; rewrite ?Hpc; split_and!; auto; try done; intros; congruence.
Qed.

(** [begin] clears [succ_abort_count], so the threshold of [tm_token_soft_spin] is never met:
    no execution takes the spin token, and a transaction that meets a locked record without
    a timestamp of its own always aborts. *)
Theorem swiss_token_unused shared m n g ts : sw_reachable shared m n (g, ts) → sg_token g = SpinToken.FREE.
Proof.
  intros Hr. cut (sg_token g = SpinToken.FREE ∧ ∀ i t, ts !! i = Some t → token_ok t); [by intros [? _]|]. revert g ts Hr.
  apply (ix_invariant _ _ (λ g ts, sg_token g = SpinToken.FREE ∧ ∀ i t, ts !! i = Some t → token_ok t)).
  - split; [done|]. intros i t. rewrite list_lookup_fmap. intros (k & Hk & ->)%fmap_Some. split_and!; [done|done|cbn; lia].
  - intros g ts i t o g' t' [Hf HT] Ht Hc. destruct (call_token _ _ _ _ _ _ Hf (HT i t Ht) Hc) as [? ?]. split; [done|]. intros j u [[-> ->]|[_ Hj]]%(update_lookup ts i t t' j u Ht); [done|by eapply HT].
  - intros g ts i t g' t' [Hf HT] Ht Hc. destruct (step_token _ _ _ _ Hf (HT i t Ht) Hc) as [? ?]. split; [done|]. intros j u [[-> ->]|[_ Hj]]%(update_lookup ts i t t' j u Ht); [done|by eapply HT].
Qed.

(** ** Limits *)

Lemma sscript_reachable n l :
  match ix_script (swiss_call (λ _, true)) swiss_step (swiss_init ∅, swthread_init <$> seq 0 n) l with Some _ => true | None => false end = true →
  let s := srun_script (swiss_call (λ _, true)) n l in sw_reachable_all (λ _, true) ∅ n (s.1, s.2).
Proof. intros Hs s. rewrite <- surjective_pairing. eapply (ix_script_reachable _ _ _ _ l); [apply ix_start|]. by apply default_Some. Qed.

(** Three threads over the words [x = 4096], [z = 4112] and [y = 4128].  The third reads [x]
    and [z] twice; its commit releases their read locks, and then releases them again while
    the first thread has taken them. *)
Definition releasing (k : nat) (t : swthread) : bool := match st_pc t with SRelRO rem => (length rem =? k)%nat | _ => false end.
Definition at_fetch (t : swthread) : bool := match st_pc t with SFetch => true | _ => false end.
Definition double_read_script : list (nat * ix_act) :=
  scall 2 SBegin ++ scall 2 (SReadOp UINT8 4096) ++ scall 2 (SReadOp UINT8 4112) ++ scall 2 (SReadOp UINT8 4096) ++ scall 2 (SReadOp UINT8 4112) ++
  scall 2 (SReadOp UINT8 4128) ++ scall 2 (SWriteOp UINT8 4128 9) ++ [(2%nat, ACall SCommit); (2%nat, AUntil (releasing 3))] ++
  scall 0 SBegin ++ scall 0 (SReadOp UINT8 4096) ++ scall 0 (SReadOp UINT8 4112) ++ scall 0 (SWriteOp UINT8 4112 1) ++ [(0%nat, ACall SCommit); (0%nat, AUntil at_fetch)] ++
  [(2%nat, AUntil is_idle)] ++ scall 1 SBegin ++ scall 1 (SReadOp UINT8 4096) ++ scall 1 (SReadOp UINT8 4112) ++ scall 1 (SWriteOp UINT8 4096 1) ++ scall 1 SCommit ++
  [(0%nat, AUntil is_idle)].
Definition double_read : swglobal * list swthread := srun_script (swiss_call (λ _, true)) 3 double_read_script.

(** Reading a record twice loses isolation: two transactions commit, one having read [x]
    before the other wrote it and the other [z] before the first wrote it, and the committed
    transactions replay in no order. *)
Theorem swiss_double_read_skew :
  ∃ g ts e1 e2 e3, sw_reachable_all (λ _, true) ∅ 3 (g, ts) ∧ forallb is_idle ts = true ∧ commit_ts g = 3 ∧
    sg_hist g !! 1%nat = Some e1 ∧ sg_hist g !! 2%nat = Some e2 ∧ sg_hist g !! 3%nat = Some e3 ∧
    e2 = [EvR 4096 UINT8 0; EvR 4112 UINT8 0; EvW 4096 UINT8 1] ∧ e3 = [EvR 4096 UINT8 0; EvR 4112 UINT8 0; EvW 4112 UINT8 1] ∧
    Forall (λ l, replay ∅ (concat l) = None) (permutations [e1; e2; e3]).
Proof.
  exists double_read.1, double_read.2. do 3 eexists. split; [apply sscript_reachable; vm_compute; reflexivity|]. do 2 (split; [vm_compute; reflexivity|]).
  do 3 (split; [vm_compute; reflexivity|]). do 2 (split; [reflexivity|]). repeat constructor.
Qed.

(** The first thread writes a word it has not read; the second reads the word while it is
    being written back, and commits. *)
Definition stores_left (k : nat) (t : swthread) : bool := match st_pc t with SWb _ st => (length st =? k)%nat | _ => false end.
Definition blind_write_script : list (nat * ix_act) :=
  scall 0 SBegin ++ scall 0 (SWriteOp UINT16 4096 257) ++ [(0%nat, ACall SCommit); (0%nat, AUntil (stores_left 1))] ++
  scall 1 SBegin ++ scall 1 (SReadOp UINT16 4096) ++ scall 1 (SReadOp UINT8 4112) ++ scall 1 (SWriteOp UINT8 4112 1) ++ scall 1 SCommit ++ [(0%nat, AUntil is_idle)].
Definition blind_write : swglobal * list swthread := srun_script (swiss_call (λ _, true)) 2 blind_write_script.

(** A write without a read of its record is not isolated: another transaction commits having
    read half of it. *)
Theorem swiss_blind_write_torn :
  ∃ g ts, sw_reachable_all (λ _, true) ∅ 2 (g, ts) ∧ forallb is_idle ts = true ∧ commit_ts g = 2 ∧
    sg_hist g !! 1%nat = Some [EvW 4096 UINT16 257] ∧ sg_hist g !! 2%nat = Some [EvR 4096 UINT16 1; EvR 4112 UINT8 0; EvW 4112 UINT8 1] ∧
    (∀ m k, serial ∅ (sg_hist g) k = Some m → load_bytes m 4096 2 ≠ [1; 0]).
Proof.
  exists blind_write.1, blind_write.2. split; [apply sscript_reachable; vm_compute; reflexivity|]. do 4 (split; [vm_compute; reflexivity|]).
  assert (Hk : serial ∅ (sg_hist blind_write.1) 2 = None) by (vm_compute; reflexivity).
  assert (Hn : ∀ k, (2 ≤ k)%nat → serial ∅ (sg_hist blind_write.1) k = None). { intros k Hle. induction Hle as [|k Hle IH]; [done|]. cbn [serial]. by rewrite IH. }
  intros m k Hs. destruct k as [|[|k]]; [..|by rewrite Hn in Hs by lia].
  - cbn [serial] in Hs. injection Hs as <-. vm_compute. discriminate.
  - vm_compute in Hs. injection Hs as <-. vm_compute. discriminate.
Qed.

(** One thread writes a word, and then a narrower value at the same address. *)
Definition retyped_script : list (nat * ix_act) :=
  scall 0 SBegin ++ scall 0 (SReadOp UINT64 4096) ++ scall 0 (SWriteOp UINT64 4096 5) ++ scall 0 (SWriteOp UINT8 4096 7) ++ scall 0 SCommit.
Definition retyped : swglobal * list swthread := srun_script (swiss_call (λ _, true)) 1 retyped_script.

(** A narrower write over an earlier write of the transaction is dropped. *)
Theorem swiss_retyped_write_dropped :
  ∃ g ts m', sw_reachable_all (λ _, true) ∅ 1 (g, ts) ∧ forallb is_idle ts = true ∧
    sg_hist g !! 1%nat = Some [EvR 4096 UINT64 0; EvW 4096 UINT64 5; EvW 4096 UINT8 7] ∧
    serial ∅ (sg_hist g) 1 = Some m' ∧ mget m' 4096 = 7 ∧ mget (sg_mem g) 4096 = 5.
Proof.
  exists retyped.1, retyped.2. eexists. split; [apply sscript_reachable; vm_compute; reflexivity|]. do 3 (split; [vm_compute; reflexivity|]). by split; vm_compute.
Qed.

(** The first thread reads one word; its read of another has checked the version when the
    second thread commits writes to both. *)
Definition loading (t : swthread) : bool := match st_pc t with SBytes _ _ _ => true | _ => false end.
Definition read_only_script : list (nat * ix_act) :=
  scall 0 SBegin ++ scall 0 (SReadOp UINT8 4096) ++ [(0%nat, ACall (SReadOp UINT8 4112)); (0%nat, AUntil loading)] ++
  scall 1 SBegin ++ scall 1 (SReadOp UINT8 4096) ++ scall 1 (SReadOp UINT8 4112) ++ scall 1 (SWriteOp UINT8 4096 1) ++ scall 1 (SWriteOp UINT8 4112 1) ++ scall 1 SCommit ++
  [(0%nat, AUntil is_idle)] ++ scall 0 SCommit.
Definition read_only : swglobal * list swthread := srun_script (swiss_call (λ _, true)) 2 read_only_script.

(** A transaction without writes commits although no state of the serial execution explains
    what it read: [read_impl] loads the value again after the version was checked. *)
Theorem swiss_read_only_inconsistent :
  ∃ g ts evs, sw_reachable_all (λ _, true) ∅ 2 (g, ts) ∧ sg_ro g = [evs] ∧ evs = [EvR 4096 UINT8 0; EvR 4112 UINT8 1] ∧ commit_ts g = 1 ∧
    ∀ k m', (k ≤ 1)%nat → serial ∅ (sg_hist g) k = Some m' → replay m' evs = None.
Proof.
  exists read_only.1, read_only.2. eexists. split; [apply sscript_reachable; vm_compute; reflexivity|]. do 3 (split; [vm_compute; reflexivity|]).
  assert (Hk : ∀ k, (k ≤ 1)%nat → from_option (λ m, replay m [EvR 4096 UINT8 0; EvR 4112 UINT8 1]) None (serial ∅ (sg_hist read_only.1) k) = None).
  { intros k Hk. destruct k as [|[|k]]; [vm_compute; reflexivity..|lia]. }
  intros k m' Hle Hs. specialize (Hk k Hle). by rewrite Hs in Hk.
Qed.
